(* ===== verification/_CoqProject ===== *)
-Q . S2P
Prelude.v
Paths.v
Source.v
Errors.v
Uri.v
Url.v
Lifecycle.v
Diagnostics.v
Watchers.v
Parameters.v
ExecRuntime.v
Execution.v
DebugSession.v
ExecSession.v
ExecRegistry.v
ExecManager.v
DebugManager.v
SessionCreation.v
DapHandles.v
DapEvents.v
DapCoordinates.v
Discovery.v
DiscoveryFacts.v
Workspace.v
WorkspaceManager.v
WorkspaceWatcher.v
DapPaths.v
DapServer.v
Wire.v
GrpcService.v
GoClient.v
Rpc.v
GrpcWatch.v
Daemon.v
Language.v
LspRpc.v
SemanticTokens.v
Symbols.v
Catalog.v
Completion.v
Features.v
Endpoint.v
LspHandlers.v
ManagerOps.v
Connect.v
StdlibRef.v
