(* ===== verification/Prelude.v ===== *)
(** * ferretd: verification library

    ferretd is a daemon around the Ferret query language: it keeps workspaces of
    [.fql] sources, compiles them into reusable plans, runs one-shot executions
    and retained debug sessions, and serves them over gRPC, the language server
    protocol and the debug adapter protocol.  This library models the parts of
    the Go sources that keep state or compute, and proves what makes them
    correct.

    ** The program and its models

    - [internal/lifecycle] -> [Lifecycle]: [CloseOperation] and [Gate], the two
      primitives every owner uses to close once and to stop admitting children.
      The class [GateSpec] states what a gate promises over an abstract gate
      ([agate]); [Gate] is its instance, and [ExecSession] and [ExecRegistry]
      are proved against the class.
    - [internal/source] -> [Source]: UTF-8 decoding, the line table of [Mapper]
      and the conversions between byte offsets and UTF-16 positions; [Uri]: the
      [file] URI of a path; [Url]: what the sources use of [net/url], and the
      path of a [file] URI.
    - [internal/diagnostic] -> [Diagnostics]; the error values and sentinels of
      all packages -> [Errors].
    - [internal/exec] -> [Parameters] (deep copies on a heap with aliasing),
      [ExecRuntime] (options, one invocation and its result), [Watchers] (the
      event hub shared by executions and debug sessions), [Execution] (the
      state machine of an execution), [ExecSession] (the plans of a session,
      lazy debug compilation and leases), [ExecRegistry] (the session registry,
      workspace groups and the teardown of the manager), [ExecManager] (the
      executions of all sessions, their ownership and the shutdown),
      [SessionCreation] (the creation of sessions, debug runtimes and debug
      sessions, and what a failure releases), [ManagerOps] (the requests of both
      managers that find an object by its identifier).
    - [internal/debug] -> [DebugSession] (commands, asynchronous answers,
      events, inspection and teardown of a debug session), [DebugManager]
      (creation, ownership by workspace and execution session, shutdown).
    - [internal/workspace] -> [Discovery] and [DiscoveryFacts] (path
      normalisation and the walk of the directory tree), [Workspace] (retained
      documents, refresh and tree reconciliation), [WorkspaceManager] (shared
      opens, lookup, close and clear), [WorkspaceWatcher] (registrations of
      watched directories, events and shutdown).
    - [internal/language] -> [Language] (overlays, snapshots and the analysis
      cache), [SemanticTokens], [Symbols] (document symbols, definitions and
      references), [Catalog] (the functions of the runtime and their reference),
      [Completion], [Features] (hover, signature help, formatting).
    - [internal/lsp] -> [LspRpc] (the request loop with barriers, cancellation
      and shutdown), [LspHandlers] (initialization, document synchronization,
      every request handler with its conversions and rendering).
    - [internal/dap] -> [DapHandles] (handle table), [DapEvents] (breakpoint
      identities, the entry stop, the protocol event stream), [DapCoordinates]
      (client and native positions), [DapPaths] (launch paths), [DapServer]
      (every request handler, the teardown and the serving loop).
    - [internal/grpc] and [client] -> [Wire] (protocol messages and statuses),
      [GrpcService] (conversions, status errors and the unary handlers),
      [GoClient] (decoding, error classification and the client operations),
      [Rpc] (client and service composed), [GrpcWatch] (the watch stream).
    - [internal/daemon] -> [Daemon] (options, authentication, start, stop and
      teardown); [internal/transport] -> [Endpoint] (endpoints and their URLs,
      listening and dialing on Unix); [cmd/ferretd] and the dialing of [client]
      -> [Connect]; [tools/stdlibref] -> [StdlibRef].
    - [Paths] models what the sources use of the packages strings and filepath
      on Unix; [Prelude] holds scopes, machine integers, the outcome monad, the
      tactics and the shared lemmas on lists and counting.

    The components call each other as in the Go code: a manager admits a
    creation through a gate, the registry publishes a session, a session lends
    its plans to executions and debug runtimes, executions and debug sessions
    publish events to watchers, the debug adapter translates the requests and
    the events of one debug session, and the client reaches the managers through
    the gRPC handlers.

    ** How the code is modelled

    Structs are records, enums are inductive types, maps are [gmap]s, slices are
    lists, [int] and [uint64] are integers with their wrap-around written out
    ([int64], [u64]).  A body that holds a mutex is one function; it returns an
    [outcome]: a value, a panic (explicit panics, double closes, sends on closed
    channels, nil maps, indexes out of range, nil dereferences) or blocked.  A
    goroutine is a program counter of a world; an action is one atomic section,
    and a schedule is a list of actions in any order, so a theorem about all
    schedules is a theorem about all interleavings.  What other systems answer
    (the Ferret runtime and its debugger, the file system, the parser, uuid) are
    arguments of the actions or parameters of sections; the order in which Go
    iterates a map is an argument, and results are shown not to depend on it.

    ** What is proved

    - Primitives: gates refine their abstract specification, a waiter is
      released exactly when the creators are gone, a close result is observed by
      every waiter; positions round-trip, are total and ordered; diagnostics
      are projected without panics.
    - Executions and debug sessions: no interleaving panics, an operation of an
      execution that holds the lock never blocks, events are numbered
      and follow the lifecycle automaton, a terminal state is final, watchers
      see gap-free segments of the history, teardown always completes and
      releases the runtime session and the plan lease exactly once.
    - Sessions, registry and managers: no plan is used after or closed twice,
      the debug plan is compiled by one thread at a time, closing a session
      releases everything and reports what its children reported; no operation
      of the registry or of the managers panics, a closed workspace has no live
      session, shutdown drains, and a completed close of the debug manager
      leaves no debug session.
    - Workspaces: discovery finds exactly the sources of the tree, and a refresh
      that is asked for explicitly also those in excluded directories; listings are
      sorted and consistent at every moment, a refresh is a reload, a generation
      identifies one document instance, document paths never leave the root.
    - Debug adapter: handles refine one map and never revive, breakpoint
      identities are stable, the entry stop is reported as the breakpoints bound
      there, the client is told the end exactly once, positions round-trip,
      launches stay inside their directory; every request is answered once and
      in order, whatever ends the connection the session is released, and the
      causes of a crash of the adapter are enumerated.
    - Remote use: what a client sees of an execution refines what the manager
      did, errors keep their class over the wire, and the watch stream delivers
      the history in order.
    - Creation and release: whatever fails while a session, a debug runtime or a
      debug session is created, what was acquired is released once; requests on
      different objects do not meet.  A compilation error names what the compiler
      answered; an interruption that was observed is reported as one.
    - Workspace manager and watcher: opens of a root are shared, a clear
      supersedes the loads in flight, every wait ends, the deepest workspace
      answers for a path, a failed refresh removes exactly the watches it added.
    - Language features: a request is answered with the direct analysis of the
      snapshot it resolved although analyses are shared; tokens are disjoint, and
      those in order round-trip through their encoding, symbols form a tree by nearest
      container, the function catalog is exact, completion does not depend on
      the order of a map, formatting replaces the whole document.
    - Language server: lifecycle messages keep their order, every request is
      answered once, a cancellation reaches the request whose id it names, the
      documents of the service are those of the editor, an
      initialization opens the folders of the editor, absolute and cleaned, once and in order.
    - Daemon and endpoints: a stop completes, calls over TCP are served only with
      the token, an endpoint stays on this machine and survives printing, a
      client with the printed endpoint reaches the daemon that [serve] started.
    - Reference tool: the embedded reference is replaced as a whole, also across
      failures and crashes, by data that was validated.

    ** Bounds and fuel

    Loops over texts take the length of the text as fuel, which every step
    decreases; binary search takes the length of the interval; the directory
    walk recurses on the tree.  Theorems about counters assume fewer operations
    than the counter has values (2^63 or 2^64); texts of diagnostics fit the
    32-bit positions of the editor protocol.

    ** What is not modelled

    - JSON and protobuf encoding, the gRPC, JSON-RPC, HTTP and command-line
      libraries and generated code: the models start at decoded values.
    - The Ferret runtime, debugger, parser, compiler and formatter and the
      decoders of the API specification: parameters, with what the code relies
      on as hypotheses or as answers of the actions.
    - Windows: the named pipes of the transport and the drive letters of paths;
      the models are those of a Unix system.
    - Logging (also the trace of the debug adapter), and the wiring of commands
      beyond the calls they make.
    - The embedded reference data itself; the catalog is built from any
      reference.
    - The bracketed hosts of URLs (IP literals), which [net/url] parses for the
      endpoints: a parameter. *)

From stdpp Require Export base tactics decidable option list list_numbers
  numbers gmap strings sorting relations.

(** ** Scopes and machine integers *)

Declare Scope go_scope.
Delimit Scope go_scope with go.

(** Go conversions to fixed-width unsigned integers. *)
Definition u8 (z : Z) : Z := z mod 2 ^ 8.
Definition u32 (z : Z) : Z := z mod 2 ^ 32.
Definition u64 (z : Z) : Z := z mod 2 ^ 64.

(** Go's [int] on a 64-bit platform: two's complement wrap-around. *)
Definition int64 (z : Z) : Z := (z + 2 ^ 63) mod 2 ^ 64 - 2 ^ 63.

(** ** Outcomes of atomic sections

    A critical section of the Go code either returns, panics (an explicit
    [panic], a send on or a close of a closed channel, an index out of range)
    or cannot proceed (a channel receive or send that is not ready). *)
Inductive outcome (A : Type) : Type :=
| Ret (a : A)
| Panic (message : string)
| Block.

Arguments Ret {A} _.
Arguments Panic {A} _.
Arguments Block {A}.

Global Instance outcome_ret : MRet outcome := λ A a, Ret a.
Global Instance outcome_bind : MBind outcome := λ A B f o,
  match o with Ret a => f a | Panic m => Panic m | Block => Block end.
Global Instance outcome_fmap : FMap outcome := λ A B f o,
  match o with Ret a => Ret (f a) | Panic m => Panic m | Block => Block end.

(** The section returned normally with [a]. *)
Definition returns {A} (o : outcome A) (a : A) : Prop := o = Ret a.

(** The section does not panic. *)
Definition safe {A} (o : outcome A) : Prop := ∀ m, o ≠ Panic m.

Global Instance outcome_eq_dec `{EqDecision A} : EqDecision (outcome A).
Proof. solve_decision. Defined.

(** ** Tactics *)

Ltac case_bool :=
  match goal with
  | |- context [if ?b then _ else _] => destruct b eqn:?
  | H : context [if ?b then _ else _] |- _ => destruct b eqn:?
  end.

(** Turns boolean comparisons in the context into propositions. *)
Ltac bools :=
  repeat match goal with
  | H : (_ && _)%bool = true |- _ => apply andb_true_iff in H as [? ?]
  | H : (_ || _)%bool = false |- _ => apply orb_false_iff in H as [? ?]
  | H : (_ <? _)%nat = true |- _ => apply Nat.ltb_lt in H
  | H : (_ <? _)%nat = false |- _ => apply Nat.ltb_ge in H
  | H : (_ <=? _)%nat = true |- _ => apply Nat.leb_le in H
  | H : (_ <=? _)%nat = false |- _ => apply Nat.leb_gt in H
  | H : (_ =? _)%nat = true |- _ => apply Nat.eqb_eq in H
  | H : (_ =? _)%nat = false |- _ => apply Nat.eqb_neq in H
  | H : (_ <? _)%Z = true |- _ => apply Z.ltb_lt in H
  | H : (_ <? _)%Z = false |- _ => apply Z.ltb_ge in H
  | H : (_ <=? _)%Z = true |- _ => apply Z.leb_le in H
  | H : (_ <=? _)%Z = false |- _ => apply Z.leb_gt in H
  | H : (_ =? _)%Z = true |- _ => apply Z.eqb_eq in H
  | H : (_ =? _)%Z = false |- _ => apply Z.eqb_neq in H
  | H : negb _ = true |- _ => apply negb_true_iff in H
  | H : negb _ = false |- _ => apply negb_false_iff in H
  | H : bool_decide _ = true |- _ => apply bool_decide_eq_true in H
  | H : bool_decide _ = false |- _ => apply bool_decide_eq_false in H
  end.

Create HintDb ferretd.

(** ** Lemmas on outcomes *)

Lemma bind_Ret_inv {A B} (f : A → outcome B) (o : outcome A) (b : B) :
  o ≫= f = Ret b → ∃ a, o = Ret a ∧ f a = Ret b.
Proof. destruct o; cbn; [eauto | done..]. Qed.

Lemma safe_Ret {A} (a : A) : safe (Ret a).
Proof. intros m. done. Qed.

Lemma safe_bind {A B} (f : A → outcome B) (o : outcome A) :
  safe o → (∀ a, o = Ret a → safe (f a)) → safe (o ≫= f).
Proof.
  intros Ho Hf. destruct o as [a|m|]; cbn.
  - by apply Hf.
  - by destruct (Ho m).
  - intros m. done.
Qed.

#[export] Hint Resolve safe_Ret safe_bind : ferretd.

(** ** Lemmas on machine integers *)

Lemma u32_small z : (0 ≤ z < 2 ^ 32)%Z → u32 z = z.
Proof. intros. unfold u32. by apply Z.mod_small. Qed.

Lemma u64_small z : (0 ≤ z < 2 ^ 64)%Z → u64 z = z.
Proof. intros. unfold u64. by apply Z.mod_small. Qed.

Lemma int64_small z : (- 2 ^ 63 ≤ z < 2 ^ 63)%Z → int64 z = z.
Proof. intros. unfold int64. rewrite Z.mod_small; lia. Qed.

Lemma u32_bound z : (0 ≤ u32 z < 2 ^ 32)%Z.
Proof. unfold u32. apply Z.mod_pos_bound. lia. Qed.

Lemma u64_bound z : (0 ≤ u64 z < 2 ^ 64)%Z.
Proof. unfold u64. apply Z.mod_pos_bound. lia. Qed.

(** ** Lemmas on lists *)

Lemma take_drop_split {A} (l : list A) (i j : nat) :
  i ≤ j → take j l = take i l ++ take (j - i) (drop i l).
Proof.
  intros Hij. rewrite take_drop_commute, Nat.add_comm, Nat.sub_add by lia.
  rewrite <- (take_drop i (take j l)) at 1.
  by rewrite take_take, Nat.min_l by lia.
Qed.

(** A lookup in a list extended at its end. *)
Lemma lookup_app_Some_or_last {A} (l : list A) x i y :
  (l ++ [x]) !! i = Some y → l !! i = Some y ∨ (i = length l ∧ y = x).
Proof.
  intros [H|[Hle H]]%lookup_app_Some; [by left|right].
  apply list_lookup_singleton_Some in H as [H ->]. split; [lia|done].
Qed.

(** ** Counting the elements of a list that satisfy a test *)

Fixpoint count {A} (f : A → bool) (l : list A) : nat :=
  match l with
  | [] => 0
  | x :: l => (if f x then 1 else 0) + count f l
  end.

Section count.
Context {A : Type} (f : A → bool).
Implicit Types (l : list A) (x y : A).

Lemma count_app l k : count f (l ++ k) = (count f l + count f k)%nat.
Proof. induction l as [|x l IH]; simpl; [done|]. rewrite IH. lia. Qed.

Lemma count_insert l i x y : l !! i = Some x →
  (count f (<[i:=y]> l) + (if f x then 1 else 0) = count f l + (if f y then 1 else 0))%nat.
Proof.
  revert i. induction l as [|z l IH]; intros [|i] Hi; simpl in *; simplify_eq; [lia|].
  specialize (IH i Hi). lia.
Qed.

Lemma count_pos l i x : l !! i = Some x → f x = true → (1 ≤ count f l)%nat.
Proof.
  revert i. induction l as [|z l IH]; intros [|i] Hi Hf; simpl in *; simplify_eq.
  - rewrite Hf. lia.
  - specialize (IH i Hi Hf). lia.
Qed.

Lemma count_two l i j x y :
  l !! i = Some x → l !! j = Some y → i ≠ j → f x = true → f y = true → (2 ≤ count f l)%nat.
Proof.
  revert i j. induction l as [|z l IH]; intros [|i] [|j] Hi Hj Hij Hx Hy; simpl in *; simplify_eq;
    rewrite ?Hx, ?Hy.
  - pose proof (count_pos l j y Hj Hy). lia.
  - pose proof (count_pos l i x Hi Hx). lia.
  - specialize (IH i j Hi Hj ltac:(lia) Hx Hy). lia.
Qed.

Lemma count_witness l : (0 < count f l)%nat → ∃ i x, l !! i = Some x ∧ f x = true.
Proof.
  induction l as [|x l IH]; simpl; [lia|]. destruct (f x) eqn:Hf; intros Hc.
  - by exists 0%nat, x.
  - destruct IH as (i & y & Hi & Hy); [lia|]. by exists (S i), y.
Qed.

Lemma existsb_count l : existsb f l = false → count f l = 0%nat.
Proof. induction l as [|x l IH]; simpl; [done|]. intros [-> Hl]%orb_false_iff. by rewrite IH. Qed.
End count.
