(* ===== verification/Paths.v ===== *)
(** * Strings and slash-separated paths

    What the daemon uses of [strings], [path] and [path/filepath] (on a system
    whose separator is the slash, where [path] and [path/filepath] agree and
    [ToSlash] and [FromSlash] are the identity), with the algebra the
    components rely on: [Clean] is idempotent and rebuilds a path from its
    components, [Join] of a clean root and a clean relative path is undone by
    [Rel]. *)

From S2P Require Import Prelude.

Local Open Scope list_scope.

(** ** strings *)

Fixpoint HasPrefix (s prefix : string) {struct prefix} : bool :=
  match prefix, s with
  | EmptyString, _ => true
  | String c prefix, String d s => bool_decide (c = d) && HasPrefix s prefix
  | _, _ => false
  end.

Fixpoint string_drop (n : nat) (s : string) : string :=
  match n, s with
  | S n, String _ s => string_drop n s
  | _, _ => s
  end.

Fixpoint string_take (n : nat) (s : string) : string :=
  match n, s with
  | S n, String c s => String c (string_take n s)
  | _, _ => ""
  end.

Definition HasSuffix (s suffix : string) : bool :=
  (String.length suffix <=? String.length s)%nat &&
  bool_decide (string_drop (String.length s - String.length suffix) s = suffix).

Definition byte (n : nat) : string := String (Ascii.ascii_of_nat n) "".

(** The UTF-8 encodings of the Unicode white-space characters.  None is a
    proper prefix or suffix of another, and no other valid encoding ends in
    one, so trimming runes is trimming these byte sequences. *)
Definition space_encodings : list string :=
  map byte [9; 10; 11; 12; 13; 32] ++
  map (λ n, byte 194 +:+ byte n) [133; 160] ++
  [byte 225 +:+ byte 154 +:+ byte 128] ++
  map (λ n, byte 226 +:+ byte 128 +:+ byte n)
    [128; 129; 130; 131; 132; 133; 134; 135; 136; 137; 138; 168; 169; 175] ++
  [byte 226 +:+ byte 129 +:+ byte 159; byte 227 +:+ byte 128 +:+ byte 128].

Fixpoint TrimLeft_loop (fuel : nat) (s : string) : string :=
  match fuel with
  | O => s
  | S fuel =>
      match list_find (λ e, HasPrefix s e = true) space_encodings with
      | Some (_, e) => TrimLeft_loop fuel (string_drop (String.length e) s)
      | None => s
      end
  end.

Fixpoint TrimRight_loop (fuel : nat) (s : string) : string :=
  match fuel with
  | O => s
  | S fuel =>
      match list_find (λ e, HasSuffix s e = true) space_encodings with
      | Some (_, e) => TrimRight_loop fuel (string_take (String.length s - String.length e) s)
      | None => s
      end
  end.

Definition TrimSpace (s : string) : string :=
  TrimRight_loop (String.length s) (TrimLeft_loop (String.length s) s).

(** ** Components *)

Definition slash : Ascii.ascii := Ascii.Ascii true true true true false true false false.

(** [strings.Split(s, "/")]. *)
Fixpoint split_slash (s : string) : list string :=
  match s with
  | EmptyString => [""]
  | String c s =>
      if bool_decide (c = slash) then "" :: split_slash s
      else match split_slash s with
           | [] => [String c ""]
           | x :: xs => String c x :: xs
           end
  end.

Fixpoint join_slash (xs : list string) : string :=
  match xs with
  | [] => ""
  | [x] => x
  | x :: xs => x +:+ "/" +:+ join_slash xs
  end.

Definition rooted (p : string) : bool := HasPrefix p "/".

(** One component of [Clean]'s loop; [out] is the output so far, last
    component first. *)
Definition clean_step (root : bool) (out : list string) (x : string) : list string :=
  if bool_decide (x = "") || bool_decide (x = ".") then out
  else if bool_decide (x = "..") then
    match out with
    | [] => if root then [] else [".."]
    | y :: rest => if bool_decide (y = "..") then ".." :: out else rest
    end
  else x :: out.

Definition clean_components (root : bool) (xs : list string) : list string :=
  reverse (foldl (clean_step root) [] xs).

(** The components of a clean path. *)
Definition components (p : string) : list string := clean_components (rooted p) (split_slash p).

(** A path from its root flag and components. *)
Definition build (root : bool) (xs : list string) : string :=
  if root then "/" +:+ join_slash xs
  else match xs with [] => "." | _ => join_slash xs end.

Definition Clean (p : string) : string := build (rooted p) (components p).

Definition IsAbs (p : string) : bool := rooted p.

Definition Join (elems : list string) : string :=
  match filter (λ x, x ≠ "") elems with
  | [] => ""
  | xs => Clean (join_slash xs)
  end.

(** [Split]'s last element: what follows the last slash. *)
Definition last_element (p : string) : string := default "" (last (split_slash p)).

Fixpoint strip_slashes (fuel : nat) (p : string) : string :=
  match fuel with
  | O => p
  | S fuel =>
      if HasSuffix p "/" then strip_slashes fuel (string_take (String.length p - 1) p) else p
  end.

Definition Base (p : string) : string :=
  if bool_decide (p = "") then "."
  else
    let q := strip_slashes (String.length p) p in
    let e := last_element q in
    if bool_decide (e = "") then "/" else e.

Definition Dir (p : string) : string :=
  Clean (string_take (String.length p - String.length (last_element p)) p).

Definition dot : Ascii.ascii := Ascii.Ascii false true true true false true false false.

(** The suffix of the last element from its last dot. *)
Fixpoint last_dot (s : string) : option string :=
  match s with
  | EmptyString => None
  | String c r =>
      match last_dot r with
      | Some e => Some e
      | None => if bool_decide (c = dot) then Some s else None
      end
  end.

Definition Ext (p : string) : string := default "" (last_dot (last_element p)).

(** The common prefix is dropped from both component lists. *)
Fixpoint strip_common (xs ys : list string) : list string * list string :=
  match xs, ys with
  | x :: xs', y :: ys' => if bool_decide (x = y) then strip_common xs' ys' else (xs, ys)
  | _, _ => (xs, ys)
  end.

(** [filepath.Rel(basepath, targpath)]; [None] is its error. *)
Definition Rel (base targ : string) : option string :=
  if bool_decide (Clean targ = Clean base) then Some "."
  else if bool_decide (rooted base ≠ rooted targ) then None
  else
    let '(b, t) := strip_common (components base) (components targ) in
    if bool_decide (head b = Some "..") then None
    else Some (join_slash (replicate (length b) ".." ++ t)).

(** ** Normal component lists *)

Fixpoint no_slash (s : string) : bool :=
  match s with
  | EmptyString => true
  | String c s => negb (bool_decide (c = slash)) && no_slash s
  end.

(** A component that names an entry. *)
Definition plain (x : string) : Prop := x ≠ "" ∧ x ≠ "." ∧ x ≠ ".." ∧ no_slash x = true.

(** Leading [".."] components (none under a root), then plain ones. *)
Definition normal (root : bool) (xs : list string) : Prop :=
  ∃ n ys, xs = replicate n ".." ++ ys ∧ Forall plain ys ∧ (root = true → n = 0%nat).

Lemma split_slash_nonempty s : split_slash s ≠ [].
Proof. destruct s as [|c s]; simpl; [done|]. repeat case_match; done. Qed.

Lemma split_slash_no_slash s : Forall (λ x, no_slash x = true) (split_slash s).
Proof.
  induction s as [|c s IH]; simpl; [by repeat constructor|].
  case_bool_decide as Hc; [by constructor|].
  destruct (split_slash s) as [|x xs]; inv IH;
    (constructor; [|done]); simpl; rewrite bool_decide_eq_false_2 by done; done.
Qed.

Lemma split_slash_single x : no_slash x = true → split_slash x = [x].
Proof.
  induction x as [|c x IH]; simpl; [done|]. intros [Hc Hx]%andb_true_iff. bools.
  rewrite bool_decide_eq_false_2 by done. by rewrite IH.
Qed.

Lemma split_slash_app x s : no_slash x = true → split_slash (x +:+ "/" +:+ s) = x :: split_slash s.
Proof.
  induction x as [|c x IH]; simpl; [done|]. intros [Hc Hx]%andb_true_iff. bools.
  rewrite bool_decide_eq_false_2 by done. simpl in IH. by rewrite IH.
Qed.

Lemma split_join xs :
  xs ≠ [] → Forall (λ x, no_slash x = true) xs → split_slash (join_slash xs) = xs.
Proof.
  intros Hne Hall. induction xs as [|x xs IH]; [done|]. inv Hall.
  destruct xs as [|y xs]; [by apply split_slash_single|].
  change (join_slash (x :: y :: xs)) with (x +:+ "/" +:+ join_slash (y :: xs)).
  rewrite split_slash_app by done. f_equal. by apply IH.
Qed.

Lemma plain_no_slash xs : Forall plain xs → Forall (λ x, no_slash x = true) xs.
Proof. intros H. eapply Forall_impl; [exact H|]. by intros x (? & ? & ? & ?). Qed.

Lemma normal_no_slash root xs : normal root xs → Forall (λ x, no_slash x = true) xs.
Proof.
  intros (n & ys & -> & Hys & _). apply Forall_app. split; [by apply Forall_replicate|].
  by apply plain_no_slash.
Qed.

Lemma clean_step_plain root out x : plain x → clean_step root out x = x :: out.
Proof.
  intros (H1 & H2 & H3 & _). unfold clean_step. by rewrite !bool_decide_eq_false_2 by done.
Qed.

Lemma foldl_plain root out xs :
  Forall plain xs → foldl (clean_step root) out xs = reverse xs ++ out.
Proof.
  revert out. induction xs as [|x xs IH]; intros out Hall; simpl; [done|]. inv Hall.
  rewrite clean_step_plain, IH by done. by rewrite reverse_cons, <- app_assoc.
Qed.

Lemma foldl_dotdot n k :
  foldl (clean_step false) (replicate k "..") (replicate n "..") = replicate (n + k) "..".
Proof.
  revert k. induction n as [|n IH]; intros k; simpl; [done|].
  replace (clean_step false (replicate k "..") "..") with (replicate (S k) "..")
    by (destruct k; done).
  by rewrite IH, Nat.add_succ_r.
Qed.

(** Cleaning a normal list changes nothing. *)
Lemma clean_normal root xs : normal root xs → clean_components root xs = xs.
Proof.
  intros (n & ys & -> & Hys & Hn). unfold clean_components. rewrite foldl_app.
  destruct root.
  - rewrite (Hn eq_refl). simpl. rewrite foldl_plain by done.
    by rewrite app_nil_r, reverse_involutive.
  - pose proof (foldl_dotdot n 0) as Hd. simpl in Hd. rewrite Hd, foldl_plain by done.
    by rewrite reverse_app, reverse_replicate, Nat.add_0_r, reverse_involutive.
Qed.

(** The output of cleaning is normal: the state of the loop is. *)
Lemma clean_fold_normal root out xs :
  Forall (λ x, no_slash x = true) xs → normal root (reverse out) →
  normal root (reverse (foldl (clean_step root) out xs)).
Proof.
  revert out. induction xs as [|x xs IH]; intros out Hall Hn; simpl; [done|]. inv Hall.
  apply IH; [done|]. unfold clean_step.
  destruct (bool_decide (x = "") || bool_decide (x = ".")) eqn:Hx; [done|]. bools.
  case_bool_decide as Hdd.
  - destruct out as [|y out].
    + destruct root; [exists 0%nat, []; by split|].
      exists 1%nat, []. split; [done|]. split; [constructor|done].
    + destruct Hn as (n & ys & Heq & Hys & Hr). rewrite reverse_cons in Heq.
      destruct ys as [|z ys _] using rev_ind.
      * rewrite app_nil_r in Heq. destruct n as [|n]; [by destruct (reverse out)|].
        rewrite replicate_S_end in Heq. apply app_inj_tail in Heq as [Heq ->].
        rewrite bool_decide_eq_true_2 by done. rewrite !reverse_cons, Heq.
        exists (S (S n)), []. rewrite app_nil_r, !replicate_S_end. split; [done|].
        split; [constructor|]. intros Ht. specialize (Hr Ht). done.
      * rewrite app_assoc in Heq. apply app_inj_tail in Heq as [Heq ->].
        apply Forall_app in Hys as [Hys Hz]. apply Forall_singleton in Hz as (_ & _ & Hz & _).
        rewrite bool_decide_eq_false_2 by done.
        exists n, ys. done.
  - destruct Hn as (n & ys & Heq & Hys & Hr). rewrite reverse_cons, Heq.
    exists n, (ys ++ [x]). rewrite app_assoc. split; [done|]. split; [|done].
    apply Forall_app. split; [done|]. repeat constructor; done.
Qed.

Lemma components_normal p : normal (rooted p) (components p).
Proof.
  apply clean_fold_normal; [apply split_slash_no_slash|].
  exists 0%nat, []. by repeat split.
Qed.

Lemma join_not_rooted xs : Forall (λ x, x ≠ "" ∧ no_slash x = true) xs → rooted (join_slash xs) = false.
Proof.
  intros Hall. destruct xs as [|x xs]; [done|]. apply Forall_cons in Hall as [[Hne Hns] _].
  destruct x as [|c x]; [done|]. simpl in Hns. apply andb_true_iff in Hns as [Hc _]. bools.
  unfold rooted. destruct xs; simpl;
    (rewrite bool_decide_eq_false_2; [done|]); intros <-; by apply Hc.
Qed.

Lemma normal_nonempty root xs : normal root xs → Forall (λ x, x ≠ "" ∧ no_slash x = true) xs.
Proof.
  intros (n & ys & -> & Hys & _). apply Forall_app. split; [by apply Forall_replicate|].
  eapply Forall_impl; [exact Hys|]. by intros x (? & ? & ? & ?).
Qed.

(** A clean path determines its root flag and components. *)
Lemma rooted_build root xs : normal root xs → rooted (build root xs) = root.
Proof.
  intros Hn. unfold build. destruct root; [done|]. destruct xs as [|x xs]; [done|].
  apply join_not_rooted. by eapply normal_nonempty.
Qed.

Lemma components_build root xs : normal root xs → components (build root xs) = xs.
Proof.
  intros Hn. unfold components. rewrite rooted_build by done. unfold build.
  destruct xs as [|x xs].
  - by destruct root.
  - destruct root.
    + change ("/" +:+ join_slash (x :: xs)) with ("" +:+ "/" +:+ join_slash (x :: xs)).
      rewrite split_slash_app, split_join by (first [done|by eapply normal_no_slash]).
      rewrite <- (clean_normal true (x :: xs)) at 2 by done. done.
    + rewrite split_join by (first [done|by eapply normal_no_slash]). by apply clean_normal.
Qed.

Lemma components_Clean p : components (Clean p) = components p.
Proof. apply components_build, components_normal. Qed.

Lemma rooted_Clean p : rooted (Clean p) = rooted p.
Proof. apply rooted_build, components_normal. Qed.

Lemma Clean_idempotent p : Clean (Clean p) = Clean p.
Proof. unfold Clean at 1. by rewrite rooted_Clean, components_Clean. Qed.

Lemma Clean_build root xs : normal root xs → Clean (build root xs) = build root xs.
Proof. intros Hn. unfold Clean. by rewrite rooted_build, components_build by done. Qed.

(** A clean relative path that stays below its base. *)
Definition inside (p : string) : Prop :=
  rooted p = false ∧ Clean p = p ∧ Forall plain (components p).

Lemma normal_plain root xs : Forall plain xs → normal root xs.
Proof. intros H. exists 0%nat, xs. by repeat split. Qed.

Lemma normal_rooted_plain xs : normal true xs → Forall plain xs.
Proof. intros (n & ys & -> & Hys & Hn). by rewrite (Hn eq_refl). Qed.

Lemma split_slash_app_gen s1 s2 :
  split_slash (s1 +:+ "/" +:+ s2) = split_slash s1 ++ split_slash s2.
Proof.
  induction s1 as [|c s1 IH]; [done|]. simpl in IH. simpl.
  case_bool_decide; [by rewrite IH|]. rewrite IH.
  destruct (split_slash s1) eqn:E; [by destruct (split_slash_nonempty s1)|done].
Qed.

Lemma rooted_app s1 s2 : s1 ≠ "" → rooted (s1 +:+ s2) = rooted s1.
Proof. by destruct s1. Qed.

Lemma rooted_nonempty s : rooted s = true → s ≠ "".
Proof. by destruct s. Qed.

Lemma inside_split p : inside p →
  split_slash p = components p ∨ (components p = [] ∧ split_slash p = ["."]).
Proof.
  intros (Hr & Hc & Hp).
  assert (split_slash p = split_slash (build false (components p))) as ->.
  { rewrite <- Hc at 1. unfold Clean. by rewrite Hr. }
  unfold build. destruct (components p) as [|x xs] eqn:E; [by right|left].
  apply split_join; [done|]. by apply plain_no_slash.
Qed.

(** Joining a rooted path and an inside path concatenates their components. *)
Lemma Join_inside root rel :
  rooted root = true → inside rel →
  Join [root; rel] = build true (components root ++ components rel).
Proof.
  intros Hr Hin. pose proof Hin as (Hrr & Hc & Hp).
  assert (rel ≠ "") as Hne by (intros ->; by vm_compute in Hc).
  pose proof (rooted_nonempty _ Hr) as Hner. unfold Join.
  rewrite !filter_cons_True by done. rewrite filter_nil. simpl.
  pose proof (components_normal root) as Hn. rewrite Hr in Hn.
  unfold Clean. rewrite rooted_app, Hr by done. f_equal.
  unfold components at 1. rewrite rooted_app, Hr by done.
  rewrite split_slash_app_gen.
  unfold clean_components. rewrite foldl_app.
  assert (foldl (clean_step true) [] (split_slash root) = reverse (components root)) as ->.
  { unfold components, clean_components. by rewrite reverse_involutive, Hr. }
  destruct (inside_split rel Hin) as [->|[-> ->]].
  - rewrite foldl_plain by done. by rewrite reverse_app, !reverse_involutive.
  - replace (foldl (clean_step true) (reverse (components root)) ["."])
      with (reverse (components root)) by done.
    by rewrite reverse_involutive, app_nil_r.
Qed.

Lemma strip_common_app xs ys : strip_common xs (xs ++ ys) = ([], ys).
Proof.
  induction xs as [|x xs IH]; simpl; [by destruct ys|].
  rewrite bool_decide_eq_true_2 by done. done.
Qed.

Lemma build_inj root xs ys : normal root xs → normal root ys → build root xs = build root ys → xs = ys.
Proof.
  intros Hx Hy H. rewrite <- (components_build root xs), <- (components_build root ys) by done.
  by rewrite H.
Qed.

(** [Rel] undoes [Join] below a root. *)
Lemma Rel_Join root rel :
  rooted root = true → inside rel → Rel root (Join [root; rel]) = Some rel.
Proof.
  intros Hr Hin. pose proof Hin as (Hrr & Hc & Hp). rewrite Join_inside by done.
  pose proof (components_normal root) as Hn. rewrite Hr in Hn.
  assert (normal true (components root ++ components rel)) as Hn2.
  { apply normal_plain, Forall_app. split; [by apply normal_rooted_plain|done]. }
  unfold Rel. rewrite Clean_build, rooted_build, components_build, Hr by done.
  assert (Clean root = build true (components root)) as Hcr by (unfold Clean; by rewrite Hr).
  case_bool_decide as Heq; rewrite Hcr in Heq.
  - apply build_inj in Heq; [|done..].
    assert (components rel = []) as Hnil.
    { destruct (components rel) as [|x xs]; [done|].
      apply (f_equal length) in Heq. rewrite length_app in Heq. simpl in Heq. lia. }
    rewrite <- Hc. unfold Clean. by rewrite Hrr, Hnil.
  - rewrite bool_decide_eq_false_2 by (by intros []). rewrite strip_common_app.
    rewrite bool_decide_eq_false_2 by done. simpl. f_equal.
    transitivity (build false (components rel)); [|by rewrite <- Hrr].
    unfold build. destruct (components rel) as [|x xs] eqn:E; [|done].
    by rewrite app_nil_r in Heq.
Qed.

Lemma strip_common_split xs ys bs ts :
  strip_common xs ys = (bs, ts) → ∃ ps, xs = ps ++ bs ∧ ys = ps ++ ts.
Proof.
  revert ys. induction xs as [|x xs IH]; intros ys Hs; [destruct ys; simpl in Hs; inv Hs; by exists []|].
  destruct ys as [|y ys]; simpl in Hs; [inv Hs; by exists []|].
  case_bool_decide as Heq; [|inv Hs; by exists []]. subst y.
  destruct (IH ys Hs) as (ps & -> & ->). by exists (x :: ps).
Qed.

(** Plain components make a path that stays below its base. *)
Lemma inside_join xs : xs ≠ [] → Forall plain xs → inside (join_slash xs) ∧ components (join_slash xs) = xs.
Proof.
  intros Hne Hp. assert (join_slash xs = build false xs) as Hb by (by destruct xs).
  assert (normal false xs) as Hn by by apply normal_plain.
  rewrite Hb. unfold inside. rewrite components_build, rooted_build, Clean_build by done. done.
Qed.

(** What [".."] components look like when they are joined. *)
Lemma join_dotdot xs : join_slash (".." :: xs) = ".." ∨ HasPrefix (join_slash (".." :: xs)) "../" = true.
Proof. destruct xs; [by left|by right]. Qed.

(** A relative path that does not climb stays below the base and leads to the
    target. *)
Lemma Rel_inside base targ rel :
  rooted base = true → rooted targ = true → Rel base targ = Some rel →
  rel ≠ "." → rel ≠ ".." → HasPrefix rel "../" = false →
  inside rel ∧ components rel ≠ [] ∧ Join [base; rel] = Clean targ.
Proof.
  intros Hb Ht Hrel Hdot Hup Hpre. unfold Rel in Hrel.
  case_bool_decide as Heq; [congruence|]. rewrite Hb, Ht, bool_decide_eq_false_2 in Hrel by (by intros []).
  destruct (strip_common (components base) (components targ)) as [bs ts] eqn:Hs.
  apply strip_common_split in Hs as (ps & Hcb & Hct).
  case_bool_decide; [done|]. injection Hrel as <-.
  destruct bs as [|b bs]; simpl in Hup, Hpre |- *.
  - pose proof (components_normal targ) as Hn. rewrite Ht in Hn. apply normal_rooted_plain in Hn.
    rewrite Hct in Hn. apply Forall_app in Hn as [_ Hp].
    assert (ts ≠ []) as Hne.
    { intros ->. apply Heq. unfold Clean. by rewrite Hb, Ht, Hct, Hcb. }
    destruct (inside_join ts Hne Hp) as [Hin Hc]. split_and!; [done|by rewrite Hc|].
    rewrite Join_inside, Hc, Hcb by done. rewrite app_nil_r. unfold Clean. by rewrite Ht, Hct.
  - destruct (join_dotdot (replicate (length bs) ".." ++ ts)) as [E|E]; simpl in E; congruence.
Qed.

(** ** Directories *)

Lemma split_slash_length s : Forall (λ x, (String.length x ≤ String.length s)%nat) (split_slash s).
Proof.
  induction s as [|c s IH]; simpl; [by repeat constructor|].
  assert (Forall (λ x, (String.length x ≤ S (String.length s))%nat) (split_slash s)) as IH'
    by (eapply Forall_impl; [exact IH|]; simpl; lia).
  case_bool_decide; [constructor; [simpl; lia|done]|].
  destruct (split_slash s) as [|x xs]; [constructor; [simpl; lia|done]|].
  apply Forall_cons in IH as [Hx _]. apply Forall_cons in IH' as [_ Hxs]. constructor; [simpl; lia|done].
Qed.

Lemma rooted_split p : rooted p = true → ∃ s, p = String slash s.
Proof. destruct p as [|c s]; [done|]. unfold rooted. simpl. intros; bools. subst c. by exists s. Qed.

Lemma rooted_Dir p : rooted p = true → rooted (Dir p) = true.
Proof.
  intros (s & ->)%rooted_split. unfold Dir. rewrite rooted_Clean.
  assert (String.length (last_element (String slash s)) ≤ String.length s)%nat as Hl.
  { unfold last_element. simpl.
    pose proof (split_slash_length s) as Hall. destruct (split_slash s) as [|x xs] eqn:E; [simpl; lia|].
    rewrite last_cons_cons, last_lookup. rewrite Forall_lookup in Hall.
    destruct ((x :: xs) !! _) as [y|] eqn:Ey; simpl; [by eapply Hall|lia]. }
  change (String.length (String slash s)) with (S (String.length s)).
  destruct (S (String.length s) - String.length (last_element (String slash s)))%nat eqn:En; [lia|]. done.
Qed.

(** ** Trimming *)

Definition starts_with_space (s : string) : bool := existsb (HasPrefix s) space_encodings.
Definition ends_with_space (s : string) : bool := existsb (HasSuffix s) space_encodings.

Lemma space_encodings_nonempty e : e ∈ space_encodings → (0 < String.length e)%nat.
Proof.
  intros He. assert (Forall (λ e, (0 < String.length e)%nat) space_encodings) as Hall.
  { vm_compute. repeat constructor. }
  rewrite Forall_forall in Hall. by apply Hall.
Qed.

Lemma length_string_take n s : (n ≤ String.length s)%nat → String.length (string_take n s) = n.
Proof.
  revert s. induction n as [|n IH]; intros [|c s] H; simpl in *; [done|done|lia|].
  rewrite IH by lia. done.
Qed.

Lemma TrimRight_loop_ends fuel s :
  (String.length s ≤ fuel)%nat → ends_with_space (TrimRight_loop fuel s) = false.
Proof.
  assert (∀ s, list_find (λ e, HasSuffix s e = true) space_encodings = None →
               ends_with_space s = false) as Hnone.
  { intros s' H. apply list_find_None in H. unfold ends_with_space.
    apply not_true_is_false. rewrite existsb_exists. intros (e & He & Hs).
    rewrite Forall_forall in H. by apply (H e); [apply list_elem_of_In|]. }
  revert s. induction fuel as [|fuel IH]; intros s Hlen; cbn [TrimRight_loop].
  - destruct s; [|simpl in Hlen; lia]. by vm_compute.
  - destruct (list_find (λ e, HasSuffix s e = true) space_encodings) as [[i e]|] eqn:Hf;
      [|by apply Hnone].
    apply list_find_Some in Hf as (Hi & Hs & _). apply list_elem_of_lookup_2 in Hi.
    apply space_encodings_nonempty in Hi. unfold HasSuffix in Hs. bools.
    apply IH. rewrite length_string_take by lia. lia.
Qed.

Lemma length_string_drop n s : (String.length (string_drop n s) ≤ String.length s)%nat.
Proof. revert s. induction n as [|n IH]; intros [|c s]; simpl; try lia. specialize (IH s). lia. Qed.

Lemma TrimLeft_loop_length fuel s : (String.length (TrimLeft_loop fuel s) ≤ String.length s)%nat.
Proof.
  revert s. induction fuel as [|fuel IH]; intros s; cbn [TrimLeft_loop]; [done|].
  destruct (list_find (λ e, HasPrefix s e = true) space_encodings) as [[i e]|]; [|done].
  etrans; [apply IH|]. apply length_string_drop.
Qed.

Lemma TrimSpace_ends s : ends_with_space (TrimSpace s) = false.
Proof. apply TrimRight_loop_ends, TrimLeft_loop_length. Qed.
