(* ===== verification/Source.v ===== *)
(** * Source positions

    [internal/source/position.go] and [internal/source/utf16.go]: the mapping
    between UTF-8 byte offsets and zero-based UTF-16 positions that every
    language-tooling answer goes through.  A Go string is the list of its
    bytes; [DecodeRuneInString], [RuneStart] and [Search] are the standard
    library's [utf8.DecodeRuneInString], [utf8.RuneStart] and [sort.Search]. *)

From S2P Require Import Prelude.

Local Open Scope Z_scope.

(** ** UTF-8 decoding (unicode/utf8) *)

Definition RuneError : Z := 65533.

(** Continuation byte in the range the first byte accepts. *)
Definition in_range (lo hi b : Z) : bool := (lo <=? b) && (b <=? hi).

(** The accepted range of the second byte and the size announced by a first
    byte; [None] for a byte that starts no multi-byte sequence. *)
Definition first_info (b0 : Z) : option (nat * Z * Z) :=
  if in_range 194 223 b0 then Some (2%nat, 128, 191)
  else if b0 =? 224 then Some (3%nat, 160, 191)
  else if b0 =? 237 then Some (3%nat, 128, 159)
  else if in_range 225 239 b0 then Some (3%nat, 128, 191)
  else if b0 =? 240 then Some (4%nat, 144, 191)
  else if in_range 241 243 b0 then Some (4%nat, 128, 191)
  else if b0 =? 244 then Some (4%nat, 128, 143)
  else None.

Definition DecodeRuneInString (s : list Z) : Z * nat :=
  match s with
  | [] => (RuneError, 0%nat)
  | b0 :: rest =>
      if b0 <? 128 then (b0, 1%nat)
      else
        match first_info b0, rest with
        | Some (2%nat, lo, hi), b1 :: _ =>
            if in_range lo hi b1
            then (Z.lor (Z.shiftl (Z.land b0 31) 6) (Z.land b1 63), 2%nat)
            else (RuneError, 1%nat)
        | Some (3%nat, lo, hi), b1 :: b2 :: _ =>
            if in_range lo hi b1 && in_range 128 191 b2
            then (Z.lor (Z.lor (Z.shiftl (Z.land b0 15) 12) (Z.shiftl (Z.land b1 63) 6))
                    (Z.land b2 63), 3%nat)
            else (RuneError, 1%nat)
        | Some (4%nat, lo, hi), b1 :: b2 :: b3 :: _ =>
            if in_range lo hi b1 && in_range 128 191 b2 && in_range 128 191 b3
            then (Z.lor (Z.lor (Z.lor (Z.shiftl (Z.land b0 7) 18) (Z.shiftl (Z.land b1 63) 12))
                           (Z.shiftl (Z.land b2 63) 6)) (Z.land b3 63), 4%nat)
            else (RuneError, 1%nat)
        | _, _ => (RuneError, 1%nat)
        end
  end.

Definition RuneStart (b : Z) : bool := negb (Z.land b 192 =? 128).

(** ** Binary search (sort.Search) *)

Fixpoint Search_loop (fuel i j : nat) (f : nat → bool) : nat :=
  match fuel with
  | O => i
  | S fuel =>
      if (i <? j)%nat then
        let h := ((i + j) / 2)%nat in
        if f h then Search_loop fuel i h f else Search_loop fuel (h + 1)%nat j f
      else i
  end.

Definition Search (n : nat) (f : nat → bool) : nat := Search_loop n 0 n f.

(** ** Bytes of a literal, for concrete texts *)

Fixpoint bytes_of_string (s : string) : list Z :=
  match s with
  | EmptyString => []
  | String c s => Z.of_N (Ascii.N_of_ascii c) :: bytes_of_string s
  end.

(** ** Positions, ranges and the mapper *)

Record Position := mkPosition { Line : Z; Character : Z }.
Record Range := mkRange { Start : Position; End : Position }.
Record Span := mkSpan { SpanStart : Z; SpanEnd : Z }.

Global Instance Position_eq_dec : EqDecision Position.
Proof. solve_decision. Defined.
Global Instance Range_eq_dec : EqDecision Range.
Proof. solve_decision. Defined.
Global Instance Span_eq_dec : EqDecision Span.
Proof. solve_decision. Defined.

Record Mapper := mkMapper {
  text : list Z;
  lineStarts : list nat;
  lineEnds : list nat
}.

(** [for offset := 0; offset < len(text); { ... }] of [NewMapper]. *)
Fixpoint NewMapper_loop (fuel : nat) (text : list Z) (offset : nat)
    (starts ends : list nat) : list nat * list nat :=
  match fuel with
  | O => (starts, ends)
  | S fuel =>
      if (offset <? length text)%nat then
        let '(r, size) := DecodeRuneInString (drop offset text) in
        if (size =? 0)%nat then (starts, ends)
        else if r =? 13 then
          let ends := ends ++ [offset] in
          let offset := (offset + size)%nat in
          let offset :=
            if (offset <? length text)%nat && bool_decide (text !! offset = Some 10)
            then (offset + 1)%nat else offset in
          NewMapper_loop fuel text offset (starts ++ [offset]) ends
        else if (r =? 10) || (r =? 8232) || (r =? 8233) then
          let ends := ends ++ [offset] in
          let offset := (offset + size)%nat in
          NewMapper_loop fuel text offset (starts ++ [offset]) ends
        else NewMapper_loop fuel text (offset + size)%nat starts ends
      else (starts, ends)
  end.

Definition NewMapper (text : list Z) : Mapper :=
  let '(starts, ends) := NewMapper_loop (length text) text 0 [0%nat] [] in
  mkMapper text starts (ends ++ [length text]).

(** [for offset > 0 && offset < len && !RuneStart(text[offset]) { offset-- }] *)
Fixpoint clampOffset_loop (text : list Z) (offset : nat) : nat :=
  match offset with
  | O => O
  | S offset' =>
      match text !! offset with
      | Some b => if RuneStart b then offset else clampOffset_loop text offset'
      | None => offset
      end
  end.

Definition clampOffset (m : Mapper) (offset : Z) : nat :=
  let offset :=
    if offset <? 0 then 0%nat
    else if Z.of_nat (length (text m)) <? offset then length (text m)
    else Z.to_nat offset in
  clampOffset_loop (text m) offset.

(** [for _, r := range text { width++; if r > 0xffff { width++ } }] *)
Fixpoint utf16Width_loop (fuel : nat) (s : list Z) (width : Z) : Z :=
  match fuel, s with
  | S fuel, _ :: _ =>
      let '(r, size) := DecodeRuneInString s in
      let width := u32 (width + 1) in
      let width := if 65535 <? r then u32 (width + 1) else width in
      utf16Width_loop fuel (drop size s) width
  | _, _ => width
  end.

Definition utf16Width (s : list Z) : Z := utf16Width_loop (length s) s 0.

Definition slice {A} (l : list A) (i j : nat) : list A := take (j - i) (drop i l).

(** [Mapper.OffsetToPosition]; an index out of range of the line tables is a
    panic. *)
Definition OffsetToPosition (m : Mapper) (offset : Z) : outcome Position :=
  let offset := clampOffset m offset in
  let found := Search (length (lineStarts m))
    (λ i, match lineStarts m !! i with Some s => (offset <? s)%nat | None => false end) in
  let line := (found - 1)%nat in
  match lineStarts m !! line, lineEnds m !! line with
  | Some start, Some end_ =>
      let lineOffset := if (end_ <? offset)%nat then end_ else offset in
      if (start <=? lineOffset)%nat
      then Ret (mkPosition (u32 (Z.of_nat line)) (utf16Width (slice (text m) start lineOffset)))
      else Panic "slice bounds out of range"
  | _, _ => Panic "index out of range"
  end.

(** The scan of one line in [Mapper.PositionToOffset]. *)
Fixpoint PositionToOffset_loop (fuel : nat) (text : list Z) (offset end_ : nat)
    (want character : Z) : nat :=
  match fuel with
  | O => end_
  | S fuel =>
      if (offset <? end_)%nat then
        let '(r, size) := DecodeRuneInString (slice text offset end_) in
        let width := if 65535 <? r then 2 else 1 in
        if (want <=? character) || (want <? u32 (character + width)) then offset
        else PositionToOffset_loop fuel text (offset + size)%nat end_ want (u32 (character + width))
      else end_
  end.

Definition PositionToOffset (m : Mapper) (p : Position) : outcome nat :=
  if (length (lineStarts m) =? 0)%nat then Ret 0%nat
  else if Z.of_nat (length (lineStarts m)) <=? Line p then Ret (length (text m))
  else
    let line := Z.to_nat (Line p) in
    match lineStarts m !! line, lineEnds m !! line with
    | Some start, Some end_ =>
        Ret (PositionToOffset_loop (end_ - start) (text m) start end_ (Character p) 0)
    | _, _ => Panic "index out of range"
    end.

Definition SpanToRange (m : Mapper) (span : Span) : outcome Range :=
  let start := clampOffset m (SpanStart span) in
  let end_ := clampOffset m (SpanEnd span) in
  let end_ := if (end_ <? start)%nat then start else end_ in
  s ← OffsetToPosition m (Z.of_nat start);
  e ← OffsetToPosition m (Z.of_nat end_);
  Ret (mkRange s e).

Definition RangeToSpan (m : Mapper) (value : Range) : outcome Span :=
  start ← PositionToOffset m (Start value);
  end_ ← PositionToOffset m (End value);
  let end_ := if (end_ <? start)%nat then start else end_ in
  Ret (mkSpan (Z.of_nat start) (Z.of_nat end_)).

(** ** Decoding lemmas *)

Definition rune_size (s : list Z) : nat := (DecodeRuneInString s).2.
Definition rune_width (s : list Z) : Z := if 65535 <? (DecodeRuneInString s).1 then 2 else 1.

(** [seg t a b w]: decoding [t] from byte [a] reaches byte [b] exactly, over
    runes of total UTF-16 width [w]. *)
Inductive seg (t : list Z) : nat → nat → Z → Prop :=
| seg_nil a : seg t a a 0
| seg_cons a b w :
    (a < length t)%nat →
    seg t (a + rune_size (drop a t)) b w →
    seg t a b (rune_width (drop a t) + w).

(** The offset between the carriage return and the line feed of a CRLF. *)
Definition crlf_middle (t : list Z) (o : nat) : bool :=
  match o with
  | O => false
  | S o' => bool_decide (t !! o' = Some 13) && bool_decide (t !! o = Some 10)
  end.

(** The line table of a text: line [i] is [[starts i, ends i)], followed by a
    terminator that ends where line [i + 1] starts. *)
Definition terminator (t : list Z) (e s : nat) : Prop :=
  (e < length t)%nat ∧
  (s = e + rune_size (drop e t) ∨
   (s = e + 2 ∧ t !! e = Some 13%Z ∧ t !! S e = Some 10%Z))%nat.

Record line_table (t : list Z) (starts ends : list nat) : Prop := {
  lt_first : starts !! 0%nat = Some 0%nat;
  lt_length : length starts = length ends;
  lt_start : ∀ i s, starts !! i = Some s → ∃ w, seg t 0 s w;
  lt_line : ∀ i s e, starts !! i = Some s → ends !! i = Some e → ∃ w, seg t s e w;
  lt_term : ∀ i e s, ends !! i = Some e → starts !! S i = Some s → terminator t e s;
  lt_last : ∀ e, ends !! (length starts - 1)%nat = Some e → e = length t
}.

Ltac decode_cases :=
  repeat (match goal with
  | H : context [match ?x with _ => _ end] |- _ => destruct x eqn:?; simplify_eq/=
  | |- context [match ?x with _ => _ end] => destruct x eqn:?; simplify_eq/=
  end).

Lemma rune_size_bounds s : s ≠ [] → (1 ≤ rune_size s ≤ length s)%nat.
Proof.
  unfold rune_size, DecodeRuneInString. intros Hs.
  destruct s as [|b0 rest]; [done|]. simpl.
  decode_cases; lia.
Qed.

Lemma continuation_not_start b : in_range 128 191 b = true → RuneStart b = false.
Proof.
  unfold in_range, RuneStart. intros H; bools.
  assert (Forall (λ b, (Z.land b 192 =? 128) = true) (seqZ 128 64)) as Hall.
  { apply (bool_decide_unpack _). vm_compute. exact I. }
  rewrite Forall_forall in Hall. rewrite (Hall b); [done|].
  apply elem_of_seqZ. lia.
Qed.

Lemma first_info_range b0 n lo hi b :
  first_info b0 = Some (n, lo, hi) → in_range lo hi b = true → in_range 128 191 b = true.
Proof.
  unfold first_info, in_range. intros H Hb. decode_cases; bools; apply andb_true_iff;
    split; apply Z.leb_le; lia.
Qed.

Lemma rune_inner s i b :
  s !! i = Some b → (0 < i < rune_size s)%nat → RuneStart b = false.
Proof.
  intros Hi Hlt. apply continuation_not_start. revert Hi Hlt.
  unfold rune_size, DecodeRuneInString.
  destruct s as [|b0 rest]; [done|].
  destruct (b0 <? 128); simpl; [lia|].
  destruct (first_info b0) as [[[n lo] hi]|] eqn:Hf; simpl; [|lia].
  destruct n as [|[|[|[|[|n]]]]]; simpl; try lia;
    destruct rest as [|b1 [|b2 [|b3 rest]]]; simpl; try lia;
    (case_bool; simpl; [|lia]); bools; intros Hi Hlt;
    repeat match goal with
      | H : in_range lo hi _ = true |- _ => apply (first_info_range _ _ _ _ _ Hf) in H
      end;
    destruct i as [|[|[|[|i]]]]; simplify_eq/=; done || lia.
Qed.

Lemma decode_take s k :
  (rune_size s ≤ k)%nat → s ≠ [] → DecodeRuneInString (take k s) = DecodeRuneInString s.
Proof.
  unfold rune_size. intros Hk Hs. destruct s as [|b0 rest]; [done|].
  assert (1 ≤ k)%nat as Hk1.
  { pose proof (rune_size_bounds (b0 :: rest) ltac:(done)) as Hb. unfold rune_size in Hb. lia. }
  destruct k as [|k]; [lia|]. simpl.
  unfold DecodeRuneInString in Hk |- *.
  destruct (b0 <? 128); [done|].
  destruct (first_info b0) as [[[n lo] hi]|]; [|done].
  destruct n as [|[|[|[|[|n]]]]]; try done;
    destruct rest as [|b1 [|b2 [|b3 rest]]]; simpl in Hk |- *;
    destruct k as [|[|[|k]]]; simpl; try done;
    repeat case_bool; simplify_eq/=; done || lia.
Qed.

(** ** Segments *)

Lemma rune_size_drop t a : (a < length t)%nat → (1 ≤ rune_size (drop a t) ≤ length t - a)%nat.
Proof.
  intros Ha. rewrite <- length_drop. apply rune_size_bounds.
  intros E. apply (f_equal length) in E. rewrite length_drop in E. simpl in E. lia.
Qed.

Lemma rune_width_pos s : 1 ≤ rune_width s ≤ 2.
Proof. unfold rune_width. case_bool; lia. Qed.

Lemma seg_bounds t a b w :
  seg t a b w → (a ≤ b)%nat ∧ 0 ≤ w ∧ ((a ≤ length t)%nat → (b ≤ length t)%nat).
Proof.
  induction 1 as [|a b w Ha _ (IHl & IHw & IHb)]; [lia|].
  pose proof (rune_size_drop t a Ha). pose proof (rune_width_pos (drop a t)).
  repeat split; lia.
Qed.

(** A four-byte rune is the only one of width two. *)
Lemma rune_width_size s : s ≠ [] → rune_width s ≤ Z.of_nat (rune_size s).
Proof.
  unfold rune_width, rune_size, DecodeRuneInString, RuneError. intros Hs.
  destruct s as [|b0 rest]; [done|].
  destruct (b0 <? 128) eqn:E; simpl; [bools; case_bool; bools; lia|].
  destruct (first_info b0) as [[[n lo] hi]|]; [|simpl; lia].
  destruct n as [|[|[|[|[|n]]]]]; try (simpl; lia);
    destruct rest as [|b1 [|b2 [|b3 rest]]]; try (simpl; lia);
    repeat case_bool; bools; simplify_eq/=; lia.
Qed.

Lemma seg_width t a b w : seg t a b w → w ≤ Z.of_nat b - Z.of_nat a.
Proof.
  induction 1 as [|a b w Ha _ IH]; [lia|].
  assert (drop a t ≠ []) as Hne.
  { intros E. apply (f_equal length) in E. rewrite length_drop in E. simpl in E. lia. }
  pose proof (rune_width_size _ Hne). lia.
Qed.

Lemma seg_trans t a b c w1 w2 : seg t a b w1 → seg t b c w2 → seg t a c (w1 + w2).
Proof.
  induction 1 as [|a b w Ha _ IH]; intros Hc; [done|].
  rewrite <- Z.add_assoc. by constructor; auto.
Qed.

(** Decoding is deterministic, so two boundaries are connected. *)
Lemma seg_between t x a b wa wb :
  seg t x a wa → seg t x b wb → (a ≤ b)%nat → ∃ w, seg t a b w ∧ wb = wa + w.
Proof.
  intros Ha. revert b wb. induction Ha as [x|x a w Hx Ha IH]; intros b wb Hb Hab.
  - exists wb. split; [done|lia].
  - inv Hb.
    + apply seg_bounds in Ha. pose proof (rune_size_drop t b Hx). lia.
    + destruct (IH b w0) as (w' & Hw' & ->); [done..|]. exists w'. split; [done|lia].
Qed.

(** Every offset lies in the rune of some boundary. *)
Lemma seg_cover t o :
  (o ≤ length t)%nat →
  ∃ p w, seg t 0 p w ∧ (p ≤ o)%nat ∧ (p = o ∨ (o < p + rune_size (drop p t))%nat).
Proof.
  induction o as [|o IH]; intros Ho.
  - exists 0%nat, 0. split; [constructor|lia].
  - destruct IH as (p & w & Hp & Hle & Hin); [lia|].
    assert (p < length t)%nat as Hlt by lia.
    pose proof (rune_size_drop t p Hlt) as Hsz.
    destruct (decide (S o = p + rune_size (drop p t))%nat) as [E|E].
    + exists (S o), (w + (rune_width (drop p t) + 0)). split; [|lia].
      apply seg_trans with p; [done|]. constructor; [done|]. rewrite <- E. constructor.
    + exists p, w. split; [done|]. lia.
Qed.

Lemma seg_end t : ∃ w, seg t 0 (length t) w.
Proof.
  destruct (seg_cover t (length t)) as (p & w & Hp & Hle & [->|Hin]); [lia|eauto|].
  assert (p ≠ length t) as Hne.
  { intros ->. rewrite drop_all in Hin. unfold rune_size in Hin. simpl in Hin. lia. }
  pose proof (rune_size_drop t p ltac:(lia)). lia.
Qed.

(** A rune-start byte is a boundary. *)
Lemma start_boundary t o b : t !! o = Some b → RuneStart b = true → ∃ w, seg t 0 o w.
Proof.
  intros Hb Hs. pose proof (lookup_lt_Some _ _ _ Hb) as Ho.
  destruct (seg_cover t o) as (p & w & Hp & Hle & [->|Hin]); [lia|eauto|].
  destruct (decide (p = o)) as [->|Hne]; [eauto|].
  assert (RuneStart b = false); [|congruence].
  apply (rune_inner (drop p t) (o - p) b); [|lia].
  rewrite lookup_drop. by replace (p + (o - p))%nat with o by lia.
Qed.

Lemma clampOffset_loop_spec t o :
  (o ≤ length t)%nat →
  (clampOffset_loop t o ≤ o)%nat ∧ ∃ w, seg t 0 (clampOffset_loop t o) w.
Proof.
  induction o as [|o IH]; intros Ho; simpl clampOffset_loop.
  - split; [lia|]. exists 0. constructor.
  - destruct (t !! S o) as [b|] eqn:Hb.
    + destruct (RuneStart b) eqn:Hs.
      * split; [lia|]. by eapply start_boundary.
      * destruct IH as [IHl IHs]; [lia|]. split; [lia|done].
    + apply lookup_ge_None in Hb. replace (S o) with (length t) by lia.
      split; [lia|apply seg_end].
Qed.

Lemma clampOffset_loop_mono t o1 o2 :
  (o1 ≤ o2 ≤ length t)%nat → (clampOffset_loop t o1 ≤ clampOffset_loop t o2)%nat.
Proof.
  intros Ho. induction o2 as [|o2 IH]; [replace o1 with 0%nat by lia; done|].
  destruct (decide (o1 = S o2)) as [->|]; [done|].
  simpl. destruct (t !! S o2) as [b|] eqn:Hb; [destruct (RuneStart b)|].
  - pose proof (clampOffset_loop_spec t o1). lia.
  - apply IH. lia.
  - pose proof (clampOffset_loop_spec t o1). lia.
Qed.

Lemma clampOffset_boundary m o :
  (clampOffset m o ≤ length (text m))%nat ∧ ∃ w, seg (text m) 0 (clampOffset m o) w.
Proof.
  unfold clampOffset.
  match goal with |- context [clampOffset_loop _ ?x] => set (o' := x) end.
  assert (o' ≤ length (text m))%nat as Ho'.
  { subst o'. repeat case_bool; bools; lia. }
  destruct (clampOffset_loop_spec (text m) o' Ho') as [? ?]. split; [lia|done].
Qed.

Lemma clampOffset_mono m o1 o2 : o1 ≤ o2 → (clampOffset m o1 ≤ clampOffset m o2)%nat.
Proof.
  intros. unfold clampOffset. apply clampOffset_loop_mono.
  repeat case_bool; bools; lia.
Qed.

(** Clamping is idempotent, so [SpanToRange] sees what it clamped. *)
Lemma clampOffset_loop_idem t o :
  clampOffset_loop t (clampOffset_loop t o) = clampOffset_loop t o.
Proof.
  induction o as [|o IH]; [done|]. simpl.
  destruct (t !! S o) as [b|] eqn:Hb; [destruct (RuneStart b) eqn:Hs|].
  - simpl. by rewrite Hb, Hs.
  - done.
  - simpl. by rewrite Hb.
Qed.

Lemma clampOffset_idem m o : clampOffset m (Z.of_nat (clampOffset m o)) = clampOffset m o.
Proof.
  destruct (clampOffset_boundary m o) as [Hle _].
  unfold clampOffset at 1. rewrite Nat2Z.id.
  replace (Z.of_nat (clampOffset m o) <? 0) with false by (symmetry; apply Z.ltb_ge; lia).
  replace (Z.of_nat (length (text m)) <? Z.of_nat (clampOffset m o)) with false
    by (symmetry; apply Z.ltb_ge; lia).
  unfold clampOffset. apply clampOffset_loop_idem.
Qed.

(** ** UTF-16 width of a segment *)

Lemma length_slice {A} (l : list A) i j : (i ≤ j ≤ length l)%nat → length (slice l i j) = (j - i)%nat.
Proof. intros. unfold slice. rewrite length_take, length_drop. lia. Qed.

Lemma slice_cons_decode t a b :
  (a < length t)%nat → (a + rune_size (drop a t) ≤ b)%nat →
  DecodeRuneInString (slice t a b) = DecodeRuneInString (drop a t) ∧
  drop (rune_size (drop a t)) (slice t a b) = slice t (a + rune_size (drop a t)) b ∧
  slice t a b ≠ [].
Proof.
  intros Ha Hb. unfold slice.
  assert (drop a t ≠ []) as Hne.
  { intros E. apply (f_equal length) in E. rewrite length_drop in E. simpl in E. lia. }
  pose proof (rune_size_drop t a Ha) as Hsz.
  repeat split.
  - apply decode_take; [lia|done].
  - rewrite <- drop_drop, skipn_firstn_comm. f_equal. lia.
  - intros E. apply (f_equal length) in E. rewrite length_take, length_drop in E. simpl in E. lia.
Qed.

Lemma utf16Width_loop_seg t a b w fuel w0 :
  seg t a b w → (b - a ≤ fuel)%nat → 0 ≤ w0 → w0 + w < 2 ^ 32 →
  utf16Width_loop fuel (slice t a b) w0 = w0 + w.
Proof.
  intros Hs. revert fuel w0. induction Hs as [a|a b w Ha Hs IH]; intros fuel w0 Hf H0 Hw.
  - unfold slice. rewrite Nat.sub_diag. destruct fuel; simpl; lia.
  - pose proof (seg_bounds _ _ _ _ Hs) as (Hab & Hw0 & _).
    pose proof (rune_size_drop t a Ha) as Hsz.
    destruct (slice_cons_decode t a b Ha Hab) as (Hd & Hdrop & Hne).
    destruct fuel as [|fuel]; [lia|].
    destruct (slice t a b) as [|c rest] eqn:E; [done|]. cbn [utf16Width_loop].
    rewrite Hd. destruct (DecodeRuneInString (drop a t)) as [r size] eqn:Hdec.
    assert (rune_size (drop a t) = size) as Hrs by (unfold rune_size; by rewrite Hdec).
    rewrite Hrs in *. rewrite Hdrop.
    unfold rune_width in *. rewrite Hdec in *. simpl in *.
    destruct (65535 <? r); rewrite ?u32_small by (rewrite ?u32_small; lia);
      rewrite ?u32_small by lia; rewrite IH by lia; lia.
Qed.

Lemma utf16Width_seg t a b w :
  seg t a b w → (a ≤ length t)%nat → w < 2 ^ 32 → utf16Width (slice t a b) = w.
Proof.
  intros Hs Ha Hw. pose proof (seg_bounds _ _ _ _ Hs) as (? & ? & Hb).
  unfold utf16Width. rewrite length_slice by (specialize (Hb Ha); lia).
  apply (utf16Width_loop_seg t a b w (b - a) 0); [done|lia..].
Qed.

(** Scanning for the width of a prefix of the line finds the prefix. *)
Lemma PositionToOffset_loop_seg t a o e w w' fuel c :
  seg t a o w → seg t o e w' → (e - a ≤ fuel)%nat → 0 ≤ c → c + w + w' < 2 ^ 32 →
  PositionToOffset_loop fuel t a e (c + w) c = o.
Proof.
  intros Hs He. revert fuel c. induction Hs as [a|a o w Ha Hs IH]; intros fuel c Hf Hc Hw.
  - pose proof (seg_bounds _ _ _ _ He) as (Hae & _ & _).
    destruct fuel as [|fuel]; simpl; [lia|].
    destruct (a <? e)%nat eqn:E; bools; [|lia].
    destruct (DecodeRuneInString _) as [r size].
    by replace (c + 0 <=? c) with true by (symmetry; apply Z.leb_le; lia).
  - pose proof (seg_bounds _ _ _ _ Hs) as (Hao & Hw0 & _).
    pose proof (seg_bounds _ _ _ _ He) as (Hoe & Hw' & _).
    pose proof (rune_size_drop t a Ha) as Hsz.
    destruct (slice_cons_decode t a e Ha ltac:(lia)) as (Hd & _ & _).
    destruct fuel as [|fuel]; [lia|]. cbn [PositionToOffset_loop].
    replace (a <? e)%nat with true by (symmetry; apply Nat.ltb_lt; lia).
    rewrite Hd. destruct (DecodeRuneInString (drop a t)) as [r size] eqn:Hdec.
    assert (rune_size (drop a t) = size) as Hrs by (unfold rune_size; by rewrite Hdec).
    rewrite Hrs in *.
    pose proof (rune_width_pos (drop a t)) as Hwp.
    assert (rune_width (drop a t) = if 65535 <? r then 2 else 1) as Hrw
      by (unfold rune_width; by rewrite Hdec).
    rewrite Hrw in *. set (k := if 65535 <? r then 2 else 1) in *.
    rewrite u32_small by lia.
    replace (c + (k + w) <=? c) with false by (symmetry; apply Z.leb_gt; lia).
    replace (c + (k + w) <? c + k) with false by (symmetry; apply Z.ltb_ge; lia).
    cbn [orb]. replace (c + (k + w)) with ((c + k) + w) by lia. apply IH; [done|lia..].
Qed.

Lemma PositionToOffset_loop_bounds fuel t a e want c :
  (a ≤ e ≤ length t)%nat → (a ≤ PositionToOffset_loop fuel t a e want c ≤ e)%nat.
Proof.
  revert a c. induction fuel as [|fuel IH]; intros a c Ha; simpl; [lia|].
  destruct (a <? e)%nat eqn:E; bools; [|lia].
  destruct (DecodeRuneInString _) as [r size] eqn:Hdec.
  case_bool; [lia|].
  assert (1 ≤ size ≤ e - a)%nat as Hs.
  { rewrite <- (length_slice t a e) by lia.
    replace size with (rune_size (slice t a e)) by (unfold rune_size; by rewrite Hdec).
    apply rune_size_bounds. intros E'. apply (f_equal length) in E'.
    rewrite length_slice in E' by lia. simpl in E'. lia. }
  specialize (IH (a + size)%nat (u32 (c + (if 65535 <? r then 2 else 1)))). lia.
Qed.

(** ** Binary search *)

Lemma Search_loop_spec fuel i j n f :
  (i ≤ j ≤ n)%nat → (j - i ≤ fuel)%nat →
  (∀ k, (k < i)%nat → f k = false) →
  (∀ k, (j ≤ k < n)%nat → f k = true) →
  (∀ k l, (k ≤ l < n)%nat → f k = true → f l = true) →
  let r := Search_loop fuel i j f in
  (r ≤ n)%nat ∧ (∀ k, (k < r)%nat → f k = false) ∧ (∀ k, (r ≤ k < n)%nat → f k = true).
Proof.
  revert i j. induction fuel as [|fuel IH]; intros i j Hij Hf Hlo Hhi Hmono; cbn [Search_loop].
  - repeat split; [lia|done|]. intros k Hk. apply Hhi. lia.
  - destruct (i <? j)%nat eqn:E; bools.
    + assert (i ≤ (i + j) / 2 < j)%nat as Hh.
      { split; [apply Nat.div_le_lower_bound|apply Nat.Div0.div_lt_upper_bound]; lia. }
      destruct (f ((i + j) / 2)%nat) eqn:Ef.
      * apply IH; [lia|lia|done| |done].
        intros k Hk. apply (Hmono ((i + j) / 2)%nat); [lia|done].
      * apply IH; [lia|lia| |done|done].
        intros k Hk. destruct (f k) eqn:Ek; [|done].
        rewrite (Hmono k ((i + j) / 2)%nat) in Ef; [done|lia|done].
    + repeat split; [lia|done|]. intros k Hk. apply Hhi. lia.
Qed.

Lemma Search_spec n f :
  (∀ k l, (k ≤ l < n)%nat → f k = true → f l = true) →
  (Search n f ≤ n)%nat ∧
  (∀ k, (k < Search n f)%nat → f k = false) ∧
  (∀ k, (Search n f ≤ k < n)%nat → f k = true).
Proof. intros Hm. apply Search_loop_spec; [lia|lia|intros; lia|intros; lia|done]. Qed.

(** ** The line table built by [NewMapper] *)

(** The table under construction: the last start has no end yet. *)
Record open_table (t : list Z) (offset : nat) (starts ends : list nat) : Prop := {
  ot_first : starts !! 0%nat = Some 0%nat;
  ot_length : length starts = S (length ends);
  ot_offset : ∃ w, seg t 0 offset w;
  ot_bound : (offset ≤ length t)%nat;
  ot_start : ∀ i s, starts !! i = Some s → ∃ w, seg t 0 s w;
  ot_last : ∀ s, starts !! length ends = Some s → (s ≤ offset)%nat;
  ot_line : ∀ i s e, starts !! i = Some s → ends !! i = Some e → ∃ w, seg t s e w;
  ot_term : ∀ i e s, ends !! i = Some e → starts !! S i = Some s → terminator t e s
}.

Lemma snoc_lookup {A} (l : list A) x i y :
  (l ++ [x]) !! i = Some y → l !! i = Some y ∨ (i = length l ∧ x = y).
Proof.
  intros H. apply lookup_app_Some in H as [H|[Hle H]]; [by left|].
  right. apply list_lookup_singleton_Some in H as [? ->]. split; [lia|done].
Qed.

(** Closing a line at [offset] and opening the next one at [next]. *)
Lemma open_table_break t offset starts ends next :
  open_table t offset starts ends →
  terminator t offset next → (∃ w, seg t 0 next w) → (offset ≤ next ≤ length t)%nat →
  open_table t next (starts ++ [next]) (ends ++ [offset]).
Proof.
  intros [Hf Hl [w Ho] Hb Hs Hla Hli Hte] Hterm Hnext Hle.
  assert (0 < length starts)%nat as Hpos by lia.
  split; rewrite ?length_app; simpl.
  - by rewrite lookup_app_l.
  - lia.
  - done.
  - lia.
  - intros i s [H|[-> <-]]%snoc_lookup; eauto.
  - intros s [H|[_ <-]]%snoc_lookup; [|lia].
    apply lookup_lt_Some in H. lia.
  - intros i s e [H|[E <-]]%snoc_lookup [H'|[E' <-]]%snoc_lookup; eauto.
    + destruct (Hs _ _ H) as [w' Hw']. subst i.
      destruct (seg_between t 0 s offset w' w) as (w'' & ? & _); eauto.
    + apply lookup_lt_Some in H'. lia.
    + lia.
  - intros i e s [H|[E' <-]]%snoc_lookup [H'|[E <-]]%snoc_lookup; eauto.
    + apply lookup_lt_Some in H. lia.
    + apply lookup_lt_Some in H'. lia.
Qed.

Lemma decode_ascii t a b : t !! a = Some b → (b <? 128) = true → rune_size (drop a t) = 1%nat.
Proof.
  intros Hb Hlt. rewrite (drop_S t b) by done. unfold rune_size. simpl. by rewrite Hlt.
Qed.

(** Evaluates a bit test over the bytes of an interval. *)
Lemma byte_check (P : Z → bool) lo n b :
  forallb P (seqZ lo n) = true → lo ≤ b < lo + n → P b = true.
Proof.
  intros H Hb. rewrite forallb_forall in H. apply H.
  apply list_elem_of_In, elem_of_seqZ. lia.
Qed.

(** Over-long encodings are rejected, so only the byte 13 decodes to a
    carriage return. *)
Lemma decode_cr b0 rest : (DecodeRuneInString (b0 :: rest)).1 = 13 → b0 = 13.
Proof.
  assert (∀ b, in_range 128 191 b = true → Z.land b 63 = 0 → b = 128) as Hcont.
  { unfold in_range. intros b Hb Hz; bools.
    pose proof (byte_check (λ b, (b =? 128) || negb (Z.land b 63 =? 0)) 128 64 b eq_refl) as Hc.
    cbv beta in Hc. rewrite Hz in Hc. simpl in Hc. rewrite orb_false_r in Hc.
    apply Z.eqb_eq, Hc. lia. }
  unfold DecodeRuneInString. destruct (b0 <? 128) eqn:E; [done|].
  destruct (first_info b0) as [[[n lo] hi]|] eqn:Hf; [|done].
  unfold first_info in Hf.
  destruct n as [|[|[|[|[|n]]]]]; try done;
    destruct rest as [|b1 [|b2 [|b3 rest]]]; try done;
    (case_bool; [|done]); cbn [fst]; intros Hr; exfalso;
    apply (f_equal (λ z, Z.shiftr z 6)) in Hr; change (Z.shiftr 13 6) with 0 in Hr;
    rewrite !Z.shiftr_lor in Hr;
    repeat match goal with
      | H : Z.lor _ _ = 0 |- _ => apply Z.lor_eq_0_iff in H as [? ?]
      | H : Z.shiftr (Z.shiftl _ _) _ = 0 |- _ =>
          rewrite Z.shiftr_shiftl_l in H by lia; cbn [Z.sub Z.opp Z.add Z.pos_sub] in H;
          simpl Z.sub in H
      | H : Z.shiftl _ _ = 0 |- _ =>
          first [rewrite Z.shiftl_0_r in H | apply Z.shiftl_eq_0_iff in H; [|lia]]
      end;
    repeat case_bool; simplify_eq/=; unfold in_range in *; bools.
  all: repeat match goal with
    | H : Z.land ?b 63 = 0 |- _ =>
        apply Hcont in H; [|unfold in_range; apply andb_true_iff; split; apply Z.leb_le; lia]
    end; try lia.
  all: first
    [ pose proof (byte_check (λ b, negb (Z.land b 31 =? 0)) 194 30 b0 eq_refl ltac:(lia)) as Hc
    | pose proof (byte_check (λ b, negb (Z.land b 15 =? 0)) 225 15 b0 eq_refl ltac:(lia)) as Hc
    | pose proof (byte_check (λ b, negb (Z.land b 7 =? 0)) 241 4 b0 eq_refl ltac:(lia)) as Hc ];
    cbv beta in Hc; bools; lia.
Qed.

Lemma NewMapper_loop_table fuel t offset starts ends starts' ends' :
  open_table t offset starts ends → (length t - offset ≤ fuel)%nat →
  NewMapper_loop fuel t offset starts ends = (starts', ends') →
  ∃ offset', open_table t offset' starts' ends' ∧ offset' = length t.
Proof.
  revert offset starts ends.
  induction fuel as [|fuel IH]; intros offset starts ends Ht Hfuel Hloop.
  { simpl in Hloop. simplify_eq. exists offset. pose proof (ot_bound _ _ _ _ Ht). split; [done|lia]. }
  cbn [NewMapper_loop] in Hloop.
  destruct (offset <? length t)%nat eqn:Hlt; bools.
  2: { simplify_eq. exists offset. pose proof (ot_bound _ _ _ _ Ht). split; [done|lia]. }
  pose proof (rune_size_drop t offset Hlt) as Hsz.
  destruct (DecodeRuneInString (drop offset t)) as [r size] eqn:Hdec.
  assert (rune_size (drop offset t) = size) as Hrs by (unfold rune_size; by rewrite Hdec).
  rewrite Hrs in Hsz.
  assert (∃ w, seg t 0 (offset + size) w) as Hnext.
  { destruct (ot_offset _ _ _ _ Ht) as [w Hw]. exists (w + (rune_width (drop offset t) + 0)).
    eapply seg_trans; [done|]. constructor; [done|]. rewrite Hrs. constructor. }
  assert (terminator t offset (offset + size)) as Hterm by (split; [done|by rewrite Hrs; left]).
  replace (size =? 0)%nat with false in Hloop by (symmetry; apply Nat.eqb_neq; lia).
  destruct (r =? 13) eqn:Hcr; bools.
  - destruct ((offset + size <? length t)%nat && bool_decide (t !! (offset + size)%nat = Some 10)) eqn:Hlf;
      bools.
    + assert (t !! offset = Some 13) as Hbyte.
      { destruct (lookup_lt_is_Some_2 t offset Hlt) as [b Hb]. rewrite Hb. f_equal.
        rewrite (drop_S t b) in Hdec by done. eapply decode_cr. by rewrite Hdec. }
      assert (size = 1)%nat as -> by (rewrite <- Hrs; by apply (decode_ascii t offset 13)).
      replace (offset + 1 + 1)%nat with (offset + 2)%nat in Hloop by lia.
      eapply (IH (offset + 2)%nat); [|lia|done].
      apply open_table_break; [done| | |lia].
      * split; [done|]. right. repeat split; [done|]. by rewrite <- (Nat.add_1_r offset).
      * destruct Hnext as [w Hw]. exists (w + (rune_width (drop (offset + 1) t) + 0)).
        eapply seg_trans; [done|]. constructor; [lia|].
        rewrite (decode_ascii t _ 10) by done. rewrite <- Nat.add_assoc. constructor.
    + eapply (IH (offset + size)%nat); [|lia|done]. apply open_table_break; [done..|lia].
  - destruct ((r =? 10) || (r =? 8232) || (r =? 8233)).
    + eapply (IH (offset + size)%nat); [|lia|done]. apply open_table_break; [done..|lia].
    + eapply (IH (offset + size)%nat); [|lia|done]. destruct Ht as [? ? ? ? ? Hla ? ?]. split; try done; [lia|].
      intros s Hs. specialize (Hla s Hs). lia.
Qed.

Lemma NewMapper_table t :
  line_table t (lineStarts (NewMapper t)) (lineEnds (NewMapper t)) ∧ text (NewMapper t) = t.
Proof.
  unfold NewMapper.
  destruct (NewMapper_loop (length t) t 0 [0%nat] []) as [starts ends] eqn:Hloop.
  split; [|done]. simpl.
  destruct (NewMapper_loop_table (length t) t 0 [0%nat] [] starts ends) as (o & Ht & ->);
    [|lia|done|].
  { split; simpl; try done.
    - exists 0. constructor.
    - lia.
    - intros i s [_ ->]%list_lookup_singleton_Some. exists 0. constructor.
    - intros s ?. by simplify_eq. }
  destruct Ht as [Hf Hl [w Ho] Hb Hs Hla Hli Hte].
  split; rewrite ?length_app; simpl; try done.
  - lia.
  - intros i s e H [H'|[-> <-]]%snoc_lookup; eauto.
    destruct (Hs _ _ H) as [w' Hw'].
    destruct (seg_between t 0 s (length t) w' w) as (w'' & ? & _); eauto.
  - intros i e s [H|[-> <-]]%snoc_lookup H'; eauto.
    apply lookup_lt_Some in H'. lia.
  - intros e [H|[_ ->]]%snoc_lookup; [|done].
    apply lookup_lt_Some in H. lia.
Qed.

(** ** Locating a line *)

Section table.
Context (t : list Z).
Let m := NewMapper t.

Lemma mapper_table : line_table t (lineStarts m) (lineEnds m).
Proof. apply NewMapper_table. Qed.

Lemma mapper_text : text m = t.
Proof. apply NewMapper_table. Qed.

Lemma terminator_lt e s : terminator t e s → (e < s)%nat.
Proof. intros [He [->|[-> _]]]; [|lia]. pose proof (rune_size_drop t e He). lia. Qed.

(** Line [i] ends before line [i + 1] starts. *)
Lemma line_next i s s' :
  lineStarts m !! i = Some s → lineStarts m !! S i = Some s' → (s < s')%nat.
Proof.
  intros Hs Hs'. pose proof mapper_table as [_ Hl _ Hli Hte _].
  destruct (lineEnds m !! i) as [e|] eqn:He.
  - destruct (Hli _ _ _ Hs He) as [w Hw]. apply seg_bounds in Hw as [? _].
    pose proof (terminator_lt e s' (Hte _ _ _ He Hs')). lia.
  - apply lookup_ge_None in He. apply lookup_lt_Some in Hs. lia.
Qed.

Lemma starts_mono i j a b :
  (i ≤ j)%nat → lineStarts m !! i = Some a → lineStarts m !! j = Some b → (a + (j - i) ≤ b)%nat.
Proof.
  intros Hij Ha. revert b. induction Hij as [|j Hij IH]; intros b Hb.
  - simplify_eq. lia.
  - destruct (lookup_lt_is_Some_2 (lineStarts m) j) as [c Hc].
    { apply lookup_lt_Some in Hb. lia. }
    pose proof (line_next _ _ _ Hc Hb). specialize (IH c Hc). lia.
Qed.

(** The line found for an offset starts at or before it, and the next line
    starts after it. *)
Definition line_of (o line s e : nat) : Prop :=
  lineStarts m !! line = Some s ∧ lineEnds m !! line = Some e ∧ (s ≤ o)%nat ∧
  (∀ s', lineStarts m !! S line = Some s' → (o < s')%nat).

Lemma Search_line (o : nat) :
  ∃ s e, line_of o (Search (length (lineStarts m)) (λ i,
    match lineStarts m !! i with Some s => (o <? s)%nat | None => false end) - 1) s e.
Proof.
  pose proof mapper_table as [Hf Hl _ _ _ _].
  set (f := λ i, match lineStarts m !! i with Some s => (o <? s)%nat | None => false end).
  destruct (Search_spec (length (lineStarts m)) f) as (Hr & Hlo & Hhi).
  { intros k l Hkl Hk. unfold f in *.
    destruct (lookup_lt_is_Some_2 (lineStarts m) k) as [a Ha]; [lia|].
    destruct (lookup_lt_is_Some_2 (lineStarts m) l) as [b Hb]; [lia|].
    rewrite Ha in Hk. rewrite Hb. bools. apply Nat.ltb_lt.
    pose proof (starts_mono k l a b ltac:(lia) Ha Hb). lia. }
  set (r := Search (length (lineStarts m)) f) in *.
  assert (0 < r)%nat as Hpos.
  { destruct r; [|lia]. pose proof (lookup_lt_Some _ _ _ Hf).
    specialize (Hhi 0%nat). unfold f in Hhi. rewrite Hf in Hhi. bools. simpl in Hhi.
    discriminate Hhi. lia. }
  destruct (lookup_lt_is_Some_2 (lineStarts m) (r - 1)) as [s Hs]; [lia|].
  destruct (lookup_lt_is_Some_2 (lineEnds m) (r - 1)) as [e He]; [lia|].
  exists s, e. split; [done|]. split; [done|]. split.
  - specialize (Hlo (r - 1)%nat). unfold f in Hlo. rewrite Hs in Hlo.
    apply Nat.ltb_ge, Hlo. lia.
  - replace (S (r - 1)) with r by lia. intros s' Hs'.
    specialize (Hhi r). unfold f in Hhi. rewrite Hs' in Hhi.
    apply Nat.ltb_lt, Hhi. apply lookup_lt_Some in Hs'. lia.
Qed.

(** Beyond the end of its line an offset is inside a CRLF. *)
Lemma line_of_inside o line s e w :
  line_of o line s e → (o ≤ length t)%nat → seg t 0 o w → crlf_middle t o = false → (o ≤ e)%nat.
Proof.
  intros (Hs & He & Hso & Hnext) Ho Hw Hcr.
  destruct (decide (o ≤ e)%nat) as [|Hgt]; [done|exfalso].
  pose proof mapper_table as [_ Hl Hst Hli Hte Hla].
  destruct (lineStarts m !! S line) as [s'|] eqn:Hs'.
  - specialize (Hnext s' eq_refl). destruct (Hte _ _ _ He Hs') as [Hlt [->|(-> & Hc & Hl')]].
    + destruct (Hst _ _ Hs) as [w1 Hw1], (Hli _ _ _ Hs He) as [w2 Hw2].
      destruct (seg_between t 0 e o (w1 + w2) w) as (w3 & Hw3 & _);
        [by eapply seg_trans|done|lia|].
      inv Hw3; [lia|]. match goal with H : seg _ _ o _ |- _ => apply seg_bounds in H end. lia.
    + replace o with (S e) in Hcr by lia. simpl in Hcr.
      by rewrite Hc, Hl', !bool_decide_eq_true_2 in Hcr.
  - apply lookup_ge_None in Hs'. apply lookup_lt_Some in Hs as Hlt.
    assert (e = length t); [|lia].
    apply Hla. by replace (length (lineStarts m) - 1)%nat with line by lia.
Qed.

(** [OffsetToPosition] in terms of segments. *)
Lemma OffsetToPosition_spec (offset : Z) :
  Z.of_nat (length t) < 2 ^ 32 →
  ∃ line s e w,
    line_of (clampOffset m offset) line s e ∧
    OffsetToPosition m offset = Ret (mkPosition (Z.of_nat line) w) ∧
    seg t s (Nat.min (clampOffset m offset) e) w.
Proof.
  intros Hlen. unfold OffsetToPosition.
  destruct (clampOffset_boundary m offset) as [Ho [wo Hwo]].
  rewrite mapper_text in Ho, Hwo. set (o := clampOffset m offset) in *.
  destruct (Search_line o) as (s & e & Hline).
  set (line := (Search _ _ - 1)%nat) in *.
  pose proof Hline as (Hs & He & Hso & _).
  pose proof mapper_table as [Hf _ Hst Hli _ _].
  destruct (Hst _ _ Hs) as [w1 Hw1], (Hli _ _ _ Hs He) as [w2 Hw2].
  pose proof (seg_bounds _ _ _ _ Hw2) as (Hse & _ & Hel).
  pose proof (seg_bounds _ _ _ _ Hw1) as (_ & _ & Hsl).
  assert (∃ w, seg t s (Nat.min o e) w) as [w Hw].
  { destruct (decide (o ≤ e)%nat).
    - rewrite Nat.min_l by lia. destruct (seg_between t 0 s o w1 wo) as (w & ? & _); eauto.
    - rewrite Nat.min_r by lia. eauto. }
  pose proof (seg_bounds _ _ _ _ Hw) as (_ & Hw0 & _).
  pose proof (seg_width _ _ _ _ Hw) as Hww.
  exists line, s, e, w. split; [done|]. split; [|done].
  rewrite Hs, He, mapper_text.
  replace (if (e <? o)%nat then e else o) with (Nat.min o e) by (case_bool; bools; lia).
  replace (s <=? Nat.min o e)%nat with true by (symmetry; apply Nat.leb_le; lia).
  rewrite (utf16Width_seg t s _ w) by (done || lia).
  rewrite u32_small; [done|].
  pose proof (starts_mono 0 line 0 s ltac:(lia) Hf Hs). lia.
Qed.
End table.

(** Lexicographic order of positions. *)
Definition pos_le (p q : Position) : Prop :=
  Line p < Line q ∨ (Line p = Line q ∧ Character p ≤ Character q).

Global Instance pos_le_dec p q : Decision (pos_le p q).
Proof. unfold pos_le. apply _. Defined.

Lemma OffsetToPosition_mono (t : list Z) (a b : Z) : Z.of_nat (length t) < 2 ^ 32 → a ≤ b →
  ∃ p q, OffsetToPosition (NewMapper t) a = Ret p ∧ OffsetToPosition (NewMapper t) b = Ret q ∧ pos_le p q.
Proof.
  intros Hlen Hab.
  destruct (OffsetToPosition_spec t a Hlen) as (l1 & s1 & e1 & w1 & Hl1 & -> & Hw1).
  destruct (OffsetToPosition_spec t b Hlen) as (l2 & s2 & e2 & w2 & Hl2 & -> & Hw2).
  do 2 eexists. split; [done|]. split; [done|]. unfold pos_le. simpl.
  pose proof (clampOffset_mono (NewMapper t) a b Hab) as Hmono.
  destruct Hl1 as (Hs1 & He1 & Ho1 & Hn1), Hl2 as (Hs2 & He2 & Ho2 & Hn2).
  destruct (decide (l2 < l1)%nat) as [Hlt|Hge].
  - exfalso.
    destruct (lookup_lt_is_Some_2 (lineStarts (NewMapper t)) (S l2)) as [s' Hs'].
    { apply lookup_lt_Some in Hs1. lia. }
    pose proof (starts_mono t (S l2) l1 s' s1 ltac:(lia) Hs' Hs1). specialize (Hn2 s' Hs'). lia.
  - destruct (decide (l1 = l2)) as [->|]; [|left; lia]. right. split; [done|]. simplify_eq.
    destruct (seg_between t _ _ _ _ _ Hw1 Hw2) as (w & Hw & ->); [lia|].
    apply seg_bounds in Hw. lia.
Qed.

Lemma SpanToRange_total (t : list Z) (span : Span) :
  Z.of_nat (length t) < 2 ^ 32 →
  ∃ r, SpanToRange (NewMapper t) span = Ret r ∧ pos_le (Start r) (End r).
Proof.
  intros Hlen. unfold SpanToRange.
  set (a := clampOffset (NewMapper t) (SpanStart span)).
  set (b := if (_ <? a)%nat then a else _).
  assert (a ≤ b)%nat as Hab by (subst b; case_bool; bools; lia).
  destruct (OffsetToPosition_mono t (Z.of_nat a) (Z.of_nat b) Hlen ltac:(lia)) as (p & q & -> & -> & ?).
  cbn. by eexists.
Qed.

Lemma PositionToOffset_total (t : list Z) (p : Position) : 0 ≤ Line p →
  ∃ o, PositionToOffset (NewMapper t) p = Ret o ∧ (o ≤ length t)%nat ∧
    ∀ s e, lineStarts (NewMapper t) !! Z.to_nat (Line p) = Some s →
           lineEnds (NewMapper t) !! Z.to_nat (Line p) = Some e → (s ≤ o ≤ e)%nat.
Proof.
  intros Hp.
  pose proof (mapper_table t) as [Hf Hl Hst Hli _ _].
  pose proof (lookup_lt_Some _ _ _ Hf) as Hpos. unfold PositionToOffset.
  replace (length (lineStarts (NewMapper t)) =? 0)%nat with false
    by (symmetry; apply Nat.eqb_neq; lia).
  case_bool; bools.
  + exists (length t). rewrite mapper_text. split; [done|]. split; [lia|].
    intros s e Hs. apply lookup_lt_Some in Hs. lia.
  + destruct (lookup_lt_is_Some_2 (lineStarts (NewMapper t)) (Z.to_nat (Line p))) as [s Hs]; [lia|].
    destruct (lookup_lt_is_Some_2 (lineEnds (NewMapper t)) (Z.to_nat (Line p))) as [e He]; [lia|].
    destruct (Hst _ _ Hs) as [w1 Hw1], (Hli _ _ _ Hs He) as [w2 Hw2].
    pose proof (seg_bounds _ _ _ _ Hw1) as (_ & _ & Hsl).
    pose proof (seg_bounds _ _ _ _ Hw2) as (Hse & _ & Hel).
    rewrite Hs, He, mapper_text. eexists; split; [done|].
    pose proof (PositionToOffset_loop_bounds (e - s) t s e (Character p) 0 ltac:(lia)).
    split; [lia|]. intros. simplify_eq. lia.
Qed.

(** The position of an offset in its line leads back to the offset. *)
Lemma PositionToOffset_inverse (t : list Z) (o line s e : nat) (w wo : Z) :
  Z.of_nat (length t) < 2 ^ 32 → line_of t o line s e → seg t s (Nat.min o e) w →
  (o ≤ length t)%nat → seg t 0 o wo → crlf_middle t o = false →
  PositionToOffset (NewMapper t) (mkPosition (Z.of_nat line) w) = Ret o.
Proof.
  intros Hlen Hline Hw Ho Hwo Hcr.
  pose proof (line_of_inside t o line s e wo Hline Ho Hwo Hcr) as Hoe.
  rewrite Nat.min_l in Hw by lia.
  destruct Hline as (Hs & He & _ & _).
  pose proof (mapper_table t) as [_ _ Hst Hli _ _].
  destruct (Hst _ _ Hs) as [w1 Hw1], (Hli _ _ _ Hs He) as [w2 Hw2].
  destruct (seg_between t s o e w w2 Hw Hw2 Hoe) as (w3 & Hw3 & ->).
  pose proof (lookup_lt_Some _ _ _ Hs) as Hlt.
  pose proof (seg_bounds _ _ _ _ Hw1) as (_ & _ & Hsl).
  pose proof (seg_bounds _ _ _ _ Hw2) as (_ & _ & Hel).
  pose proof (seg_width _ _ _ _ Hw2).
  unfold PositionToOffset. simpl.
  replace (length (lineStarts (NewMapper t)) =? 0)%nat with false
    by (symmetry; apply Nat.eqb_neq; lia).
  replace (Z.of_nat (length (lineStarts (NewMapper t))) <=? Z.of_nat line) with false
    by (symmetry; apply Z.leb_gt; lia).
  rewrite Nat2Z.id, Hs, He, mapper_text. f_equal.
  by apply (PositionToOffset_loop_seg t s o e w w3 (e - s) 0); [..|lia|lia|lia].
Qed.

(** The end of a text. *)
Lemma clampOffset_end (t : list Z) : clampOffset (NewMapper t) (Z.of_nat (length t)) = length t.
Proof.
  unfold clampOffset. rewrite mapper_text. replace (_ <? 0) with false by (symmetry; apply Z.ltb_ge; lia).
  rewrite Z.ltb_irrefl, Nat2Z.id. destruct t as [|b t]; [done|].
  change (length (b :: t)) with (S (length t)). cbn [clampOffset_loop].
  rewrite (proj2 (lookup_ge_None (b :: t) (S (length t)))) by (simpl; lia). done.
Qed.

Lemma end_round_trip (t : list Z) : Z.of_nat (length t) < 2 ^ 32 →
  ∃ p, OffsetToPosition (NewMapper t) (Z.of_nat (length t)) = Ret p ∧ PositionToOffset (NewMapper t) p = Ret (length t).
Proof.
  intros Hlen. destruct (OffsetToPosition_spec t (Z.of_nat (length t)) Hlen) as (line & s & e & w & Hline & Heq & Hw).
  destruct (clampOffset_boundary (NewMapper t) (Z.of_nat (length t))) as [Ho [wo Hwo]].
  rewrite mapper_text in Hwo. rewrite clampOffset_end in *. eexists; split; [done|].
  eapply PositionToOffset_inverse; try done. destruct t as [|b t]; [done|]. cbn [length crlf_middle].
  rewrite (proj2 (lookup_ge_None (b :: t) (S (length t)))) by (simpl; lia). by rewrite andb_false_r.
Qed.

Lemma PositionToOffset_origin (t : list Z) : PositionToOffset (NewMapper t) (mkPosition 0 0) = Ret 0%nat.
Proof.
  pose proof (mapper_table t) as [Hf Hl _ _ _ _]. pose proof (lookup_lt_Some _ _ _ Hf) as Hpos.
  unfold PositionToOffset. cbn [Line Character].
  replace (length (lineStarts (NewMapper t)) =? 0)%nat with false by (symmetry; apply Nat.eqb_neq; lia).
  replace (Z.of_nat (length (lineStarts (NewMapper t))) <=? 0) with false by (symmetry; apply Z.leb_gt; lia).
  change (Z.to_nat 0) with 0%nat. rewrite Hf.
  destruct (lookup_lt_is_Some_2 (lineEnds (NewMapper t)) 0%nat) as [e ->]; [lia|]. f_equal.
  destruct e as [|e]; [done|]. cbn [Nat.sub PositionToOffset_loop]. change (0 <? S e)%nat with true. cbn [andb orb].
  destruct (DecodeRuneInString _) as [r size]. done.
Qed.

(** ** Properties of the mapper *)

(** C3. Converting a byte offset to a UTF-16 position and back returns the
    offset clamped to the text and to the start of its rune, for every text
    of less than [2^32] bytes (well-formed UTF-8 or not) and every offset except the
    one between the CR and the LF of a line break. *)
Theorem mapper_round_trip (t : list Z) (offset : Z) :
  Z.of_nat (length t) < 2 ^ 32 →
  crlf_middle t (clampOffset (NewMapper t) offset) = false →
  ∃ p, OffsetToPosition (NewMapper t) offset = Ret p ∧
       PositionToOffset (NewMapper t) p = Ret (clampOffset (NewMapper t) offset).
Proof.
  intros Hlen Hcr.
  destruct (OffsetToPosition_spec t offset Hlen) as (line & s & e & w & Hline & Heq & Hw).
  eexists; split; [done|].
  destruct (clampOffset_boundary (NewMapper t) offset) as [Ho [wo Hwo]].
  rewrite mapper_text in Ho, Hwo.
  by eapply PositionToOffset_inverse.
Qed.

Lemma mapper_round_trip_witness :
  ∃ p, OffsetToPosition (NewMapper (bytes_of_string "é😀x")) 6 = Ret p ∧
       PositionToOffset (NewMapper (bytes_of_string "é😀x")) p = Ret 6%nat.
Proof. apply (mapper_round_trip (bytes_of_string "é😀x") 6); vm_compute; reflexivity. Defined.

(** C5. No offset and no position makes the mapper panic: every offset of
    every text of less than [2^32] bytes maps to a line of the text, and every
    position (lines are unsigned) maps to an offset of the text, inside its line
    when the line exists. *)
Theorem mapper_total (t : list Z) (offset : Z) (p : Position) :
  Z.of_nat (length t) < 2 ^ 32 → 0 ≤ Line p →
  (∃ q, OffsetToPosition (NewMapper t) offset = Ret q ∧
        0 ≤ Line q < Z.of_nat (length (lineStarts (NewMapper t)))) ∧
  (∃ o, PositionToOffset (NewMapper t) p = Ret o ∧ (o ≤ length t)%nat ∧
        ∀ s e, lineStarts (NewMapper t) !! Z.to_nat (Line p) = Some s →
               lineEnds (NewMapper t) !! Z.to_nat (Line p) = Some e → (s ≤ o ≤ e)%nat).
Proof.
  intros Hlen Hp. split.
  - destruct (OffsetToPosition_spec t offset Hlen) as (line & s & e & w & (Hs & _) & Heq & _).
    eexists; split; [done|]. simpl. apply lookup_lt_Some in Hs. lia.
  - by apply PositionToOffset_total.
Qed.

Lemma mapper_total_witness :
  ∃ o, PositionToOffset (NewMapper (bytes_of_string "ab")) (mkPosition 0 1) = Ret o ∧ (o ≤ 2)%nat.
Proof.
  destruct (mapper_total (bytes_of_string "ab") 1 (mkPosition 0 1)) as [_ (o & Ho & Hle & _)];
    [vm_compute; reflexivity|vm_compute; discriminate|].
  exists o. split; [exact Ho|exact Hle].
Defined.
