(* ===== verification/Errors.v ===== *)
(** * Errors and diagnostics data

    Go error values as trees: package-level sentinels compared by identity,
    errors made at a call site, [fmt.Errorf] with one or several [%w] verbs,
    [errors.Join], and the two typed errors the daemon inspects with
    [errors.As] ([exec.CompilationError] and the runtime API's
    [diagnostics.Diagnostics]).  [errors_Is], [errors_Join] and [error_text]
    are the standard library's [errors.Is], [errors.Join] and [Error()]. *)

From S2P Require Import Prelude Source.

Local Open Scope Z_scope.

(** ** Sentinels *)

Inductive sentinel :=
(* context *)
| ContextCanceled | ContextDeadlineExceeded
(* io/fs, syscall, net *)
| FsErrNotExist | FsErrPermission | FsErrInvalid | SyscallEINVAL | FsnotifyErrNonExistentWatch
| FsnotifyErrClosed
(* internal/workspace *)
| WsErrInvalidRoot | WsErrLoad | WsErrNotFound | WsErrClosed | WsErrDocumentNotFound
| WsErrDocumentUnavailable
(* internal/exec *)
| ExecErrNilWorkspaceManager | ExecErrNilRuntime | ExecErrExecutionCanceled
| ExecErrClosed | ExecErrSessionNotFound | ExecErrSessionClosed | ExecErrExecutionNotFound
| ExecErrExecutionRunning | ExecErrExecutionTerminal | ExecErrInvalidExecutionOptions
| ExecErrWatcherLagged | ExecErrCompilationFailed
(* internal/debug *)
| DebugErrNilExecutionManager | DebugErrClosed | DebugErrSessionNotFound | DebugErrSessionRunning
| DebugErrSessionNotRunning | DebugErrSessionNotStopped | DebugErrSessionTerminal
| DebugErrWatcherLagged
(* internal/dap *)
| DapErrInvalidSourcePosition
(* internal/transport *)
| TransportErrInvalidEndpoint | TransportErrEndpointInUse
(* internal/language *)
| LanguageErrDocumentNotOpen | LanguageErrStaleDocumentVersion | LanguageErrNoTextChanges.

Global Instance sentinel_eq_dec : EqDecision sentinel.
Proof. solve_decision. Defined.

Definition sentinel_text (s : sentinel) : string :=
  match s with
  | ContextCanceled => "context canceled"
  | ContextDeadlineExceeded => "context deadline exceeded"
  | FsErrNotExist => "file does not exist"
  | FsErrPermission => "permission denied"
  | FsErrInvalid => "invalid argument"
  | SyscallEINVAL => "invalid argument"
  | FsnotifyErrNonExistentWatch => "fsnotify: can't remove non-existent watch"
  | FsnotifyErrClosed => "fsnotify: watcher already closed"
  | WsErrInvalidRoot => "invalid workspace root"
  | WsErrLoad => "workspace load failed"
  | WsErrNotFound => "workspace not found"
  | WsErrClosed => "workspace closed"
  | WsErrDocumentNotFound => "workspace document not found"
  | WsErrDocumentUnavailable => "workspace document unavailable"
  | ExecErrNilWorkspaceManager => "execution: nil workspace manager"
  | ExecErrNilRuntime => "execution: nil runtime"
  | ExecErrExecutionCanceled => "execution cancellation requested"
  | ExecErrClosed => "execution service closed"
  | ExecErrSessionNotFound => "session not found"
  | ExecErrSessionClosed => "session closed"
  | ExecErrExecutionNotFound => "execution not found"
  | ExecErrExecutionRunning => "execution already running"
  | ExecErrExecutionTerminal => "execution already terminal"
  | ExecErrInvalidExecutionOptions => "invalid execution options"
  | ExecErrWatcherLagged => "execution watcher lagged"
  | ExecErrCompilationFailed => "session compilation failed"
  | DebugErrNilExecutionManager => "debug: nil execution manager"
  | DebugErrClosed => "debug service closed"
  | DebugErrSessionNotFound => "debug session not found"
  | DebugErrSessionRunning => "debug session running"
  | DebugErrSessionNotRunning => "debug session not running"
  | DebugErrSessionNotStopped => "debug session not stopped"
  | DebugErrSessionTerminal => "debug session terminal"
  | DebugErrWatcherLagged => "debug session watcher lagged"
  | DapErrInvalidSourcePosition => "invalid source position"
  | TransportErrInvalidEndpoint => "invalid endpoint"
  | TransportErrEndpointInUse => "endpoint is already in use"
  | LanguageErrDocumentNotOpen => "document is not open"
  | LanguageErrStaleDocumentVersion => "document version is stale"
  | LanguageErrNoTextChanges => "document change contains no text changes"
  end.

(** ** Diagnostic data *)

(** [internal/diagnostic/diagnostic.go]. *)
Record RelatedInformation := mkRelated {
  ri_URI : string; ri_Range : Range; ri_Message : string
}.

Record Diagnostic := mkDiagnostic {
  d_URI : string;
  d_Message : string;
  d_Severity : Z;
  d_Range : Range;
  d_Source : string;
  d_Code : string;
  d_RelatedInformation : list RelatedInformation
}.

(** The fields of the runtime API's diagnostics the daemon reads. *)
Record ApiAnnotation := mkAnnotation { an_Primary : bool; an_Message : string; an_Span : Span }.

Record ApiDiagnostic := mkApiDiagnostic {
  ad_Content : list Z;
  ad_Kind : string;
  ad_Message : string;
  ad_Hint : string;
  ad_Note : string;
  ad_Annotations : list ApiAnnotation
}.

(** [workspace.SourceSnapshot]: the identity of a compiled document. *)
Record SourceSnapshot := mkSourceSnapshot {
  ss_Workspace : string;
  ss_RelativePath : string;
  ss_URI : string;
  ss_Revision : Z
}.

Global Instance RelatedInformation_eq_dec : EqDecision RelatedInformation.
Proof. solve_decision. Defined.
Global Instance Diagnostic_eq_dec : EqDecision Diagnostic.
Proof. solve_decision. Defined.
Global Instance ApiAnnotation_eq_dec : EqDecision ApiAnnotation.
Proof. solve_decision. Defined.
Global Instance ApiDiagnostic_eq_dec : EqDecision ApiDiagnostic.
Proof. solve_decision. Defined.
Global Instance SourceSnapshot_eq_dec : EqDecision SourceSnapshot.
Proof. solve_decision. Defined.

(** ** Error values *)

Inductive error :=
| ESentinel (s : sentinel)
| ENew (message : string)
| EWrap (message : string) (cause : error)
| EWraps (message : string) (causes : list error)
| EJoin (errs : list error)
| ECompilation (source : SourceSnapshot) (diagnostics : list Diagnostic) (cause : error)
| EApiDiagnostics (message : string) (values : list ApiDiagnostic).

Definition nl : string := String (Ascii.ascii_of_nat 10) EmptyString.

(** [strings.Join]. *)
Fixpoint strings_Join (parts : list string) (sep : string) : string :=
  match parts with
  | [] => ""
  | [p] => p
  | p :: rest => p +:+ sep +:+ strings_Join rest sep
  end.

(** [err.Error()]. *)
Fixpoint error_text (e : error) : string :=
  match e with
  | ESentinel s => sentinel_text s
  | ENew m => m
  | EWrap m _ => m
  | EWraps m _ => m
  | EJoin es => strings_Join (map error_text es) nl
  | ECompilation src _ _ =>
      sentinel_text ExecErrCompilationFailed +:+ ": " +:+ ss_RelativePath src
  | EApiDiagnostics m _ => m
  end.

(** [errors.Is(err, target)]; [CompilationError.Unwrap] yields the stable
    classification and the cause. *)
Fixpoint errors_Is (e : error) (target : sentinel) : bool :=
  match e with
  | ESentinel s => bool_decide (s = target)
  | ENew _ => false
  | EWrap _ c => errors_Is c target
  | EWraps _ cs => existsb (λ c, errors_Is c target) cs
  | EJoin es => existsb (λ c, errors_Is c target) es
  | ECompilation _ _ c => bool_decide (ExecErrCompilationFailed = target) || errors_Is c target
  | EApiDiagnostics _ _ => false
  end.

(** [errors.Is] on a possibly nil error. *)
Definition is_err (e : option error) (target : sentinel) : bool :=
  match e with Some e => errors_Is e target | None => false end.

(** [errors.As(err, &diagnostics)]: the first diagnostics of the tree, in
    pre-order. *)
Fixpoint errors_AsDiagnostics (e : error) : option (list ApiDiagnostic) :=
  let first := fix first (es : list error) : option (list ApiDiagnostic) :=
    match es with
    | [] => None
    | e :: es => match errors_AsDiagnostics e with Some d => Some d | None => first es end
    end in
  match e with
  | EApiDiagnostics _ ds => Some ds
  | EWrap _ c => errors_AsDiagnostics c
  | EWraps _ cs => first cs
  | EJoin es => first es
  | ECompilation _ _ c => errors_AsDiagnostics c
  | ESentinel _ | ENew _ => None
  end.

(** [errors.Join(errs...)]: nil errors are dropped, and joining none is nil. *)
Definition errors_Join (errs : list (option error)) : option error :=
  match omap id errs with
  | [] => None
  | es => Some (EJoin es)
  end.

(** [fmt.Errorf("%w: " ++ suffix, s)]. *)
Definition wrap_sentinel (s : sentinel) (suffix : string) : error :=
  EWrap (sentinel_text s +:+ ": " +:+ suffix) (ESentinel s).

(** [fmt.Errorf("%w: " ++ middle ++ ": %w", s, cause)]. *)
Definition wrap_sentinel_cause (s : sentinel) (middle : string) (cause : error) : error :=
  EWraps (sentinel_text s +:+ ": " +:+ middle +:+ ": " +:+ error_text cause) [ESentinel s; cause].

(** [fmt.Errorf(prefix ++ ": %w", cause)]. *)
Definition wrap_prefix (prefix : string) (cause : error) : error :=
  EWrap (prefix +:+ ": " +:+ error_text cause) cause.

(** ** Lemmas *)

Lemma errors_Join_Is errs target :
  is_err (errors_Join errs) target = existsb (λ e, is_err e target) errs.
Proof.
  unfold errors_Join.
  assert (existsb (λ e, is_err e target) errs = existsb (λ e, errors_Is e target) (omap id errs)) as ->.
  { induction errs as [|[e|] errs IH]; simpl; [done|by rewrite IH|done]. }
  by destruct (omap id errs).
Qed.

Lemma errors_Join_None errs : errors_Join errs = None ↔ Forall (λ e, e = None) errs.
Proof.
  unfold errors_Join. induction errs as [|[e|] errs IH]; simpl.
  - split; constructor.
  - split; [done|]. intros H. by apply Forall_cons in H as [? _].
  - rewrite IH. rewrite Forall_cons. naive_solver.
Qed.
