(* ===== verification/Uri.v ===== *)
(** * File URIs

    [internal/source/uri.go]: the file URI of a local path, with the path
    escaping of [net/url].  The working directory of the process is an
    argument. *)

From S2P Require Import Prelude Paths Source Errors.

(** ** Escaping *)

Definition in_range (lo hi : nat) (c : Ascii.ascii) : bool :=
  (lo <=? Ascii.nat_of_ascii c)%nat && (Ascii.nat_of_ascii c <=? hi)%nat.

(** [url.shouldEscape] in a path: letters, digits, [-_.~] and [$&+,/:;=@] stay. *)
Definition shouldEscape (c : Ascii.ascii) : bool :=
  negb (in_range 97 122 c || in_range 65 90 c || in_range 48 57 c ||
        existsb (λ n, bool_decide (Ascii.nat_of_ascii c = n))
          [45; 95; 46; 126; 36; 38; 43; 44; 47; 58; 59; 61; 64]%nat).

(** An upper-case hexadecimal digit. *)
Definition hex_digit (n : nat) : Ascii.ascii :=
  Ascii.ascii_of_nat (if (n <? 10)%nat then 48 + n else 55 + n).

Definition percent : Ascii.ascii := Ascii.Ascii true false true false false true false false.

(** [url.escape] in a path. *)
Fixpoint escape (s : string) : string :=
  match s with
  | EmptyString => ""
  | String c s =>
      if shouldEscape c then
        let n := Ascii.nat_of_ascii c in
        String percent (String (hex_digit (n / 16)) (String (hex_digit (n mod 16)) (escape s)))
      else String c (escape s)
  end.

(** [url.URL.String] of a URL with the scheme [file] and the path [p]. *)
Definition file_url (p : string) : string :=
  "file:" +:+ (if bool_decide (p = "") then "" else "//") +:+
  (if bool_decide (p = "*") then "*" else escape p).

Section uri.
Context (Getwd : string + error).

(** [filepath.Abs]. *)
Definition Abs (path : string) : string + error :=
  if IsAbs path then inl (Clean path)
  else match Getwd with
       | inr err => inr err
       | inl wd => inl (Join [wd; path])
       end.

(** [filepath.ToSlash] is the identity on Unix. *)
Definition URIFromPath (path : string) : string + error :=
  if bool_decide (path = "") then inr (ENew "path is empty")
  else
    match Abs path with
    | inr err => inr (EWrap ("make path absolute: " +:+ error_text err) err)
    | inl absolute => inl (file_url absolute)
    end.

(** ** Decoding *)

(** The reading of an escaped path that shows that escaping loses nothing. *)
Definition hex_value (c : Ascii.ascii) : nat :=
  let n := Ascii.nat_of_ascii c in if (n <? 58)%nat then n - 48 else n - 55.

Fixpoint unescape (s : string) : string :=
  match s with
  | String c s =>
      if bool_decide (c = percent) then
        match s with
        | String h (String l s) => String (Ascii.ascii_of_nat (hex_value h * 16 + hex_value l)) (unescape s)
        | _ => ""
        end
      else String c (unescape s)
  | EmptyString => ""
  end.

Lemma hex_byte n : (n < 256)%nat →
  (hex_value (hex_digit (n / 16)) * 16 + hex_value (hex_digit (n mod 16)) = n)%nat.
Proof.
  intros Hn. assert (∀ k, (k < 16)%nat → hex_value (hex_digit k) = k) as H.
  { intros k Hk. do 16 (destruct k as [|k]; [done|]). lia. }
  rewrite !H by (apply Nat.mod_upper_bound || apply Nat.Div0.div_lt_upper_bound; lia).
  pose proof (Nat.div_mod_eq n 16). lia.
Qed.

Lemma unescape_escape s : unescape (escape s) = s.
Proof.
  induction s as [|c s IH]; [done|]. cbn [escape]. destruct (shouldEscape c) eqn:Hc.
  - cbn [unescape]. rewrite bool_decide_eq_true_2 by done.
    rewrite hex_byte, Ascii.ascii_nat_embedding, IH by apply Ascii.nat_ascii_bounded. done.
  - cbn [unescape]. rewrite bool_decide_eq_false_2; [by rewrite IH|]. by intros ->.
Qed.

Lemma file_url_inj p q : rooted p = true → rooted q = true → file_url p = file_url q → p = q.
Proof.
  intros Hp Hq. unfold file_url.
  assert (∀ x, rooted x = true → x ≠ "" ∧ x ≠ "*") as Hx by (by intros x Hr; split; intros ->).
  destruct (Hx p Hp), (Hx q Hq). rewrite !bool_decide_eq_false_2 by done.
  intros [= Heq]. change (escape p = escape q) in Heq. by rewrite <- (unescape_escape p), Heq, unescape_escape.
Qed.

Lemma URIFromPath_rooted p : rooted p = true → URIFromPath p = inl (file_url (Clean p)).
Proof.
  intros Hp. unfold URIFromPath, Abs, IsAbs. rewrite Hp. by destruct p.
Qed.

End uri.
