(* ===== verification/Url.v ===== *)
(** * URLs and the paths of file URIs

    What the daemon uses of [net/url]: [url.Parse] with its escaping modes, and
    [internal/source/uri.go]'s reading of a local path from a file URI, on Unix.
    [bracketed] stands for the check of hosts with brackets (IP literals), which
    differs between versions of the standard library. *)

From S2P Require Import Prelude Paths Errors Uri.

(** ** Characters and strings *)

Definition ord (c : Ascii.ascii) : nat := Ascii.nat_of_ascii c.
Definition chr (n : nat) : Ascii.ascii := Ascii.ascii_of_nat n.

Definition is_lower (c : Ascii.ascii) : bool := in_range 97 122 c.
Definition is_upper (c : Ascii.ascii) : bool := in_range 65 90 c.
Definition is_digit (c : Ascii.ascii) : bool := in_range 48 57 c.

(** [c] is one of these character codes. *)
Definition one_of (codes : list nat) (c : Ascii.ascii) : bool := existsb (λ n, bool_decide (ord c = n)) codes.

Fixpoint string_forall (test : Ascii.ascii → bool) (s : string) : bool :=
  match s with EmptyString => true | String c s => test c && string_forall test s end.

(** [strings.Cut] at a character. *)
Fixpoint Cut (sep : Ascii.ascii) (s : string) : option (string * string) :=
  match s with
  | EmptyString => None
  | String c s =>
      if bool_decide (c = sep) then Some ("", s)
      else match Cut sep s with Some (before, after) => Some (String c before, after) | None => None end
  end.

(** The text before and after the last occurrence of a character. *)
Fixpoint CutLast (sep : Ascii.ascii) (s : string) : option (string * string) :=
  match s with
  | EmptyString => None
  | String c s =>
      match CutLast sep s with
      | Some (before, after) => Some (String c before, after)
      | None => if bool_decide (c = sep) then Some ("", s) else None
      end
  end.

(** [strings.ToLower] on ASCII text. *)
Definition lower (c : Ascii.ascii) : Ascii.ascii := if is_upper c then chr (ord c + 32) else c.
Fixpoint ToLower_ascii (s : string) : string :=
  match s with EmptyString => "" | String c s => String (lower c) (ToLower_ascii s) end.

(** The simple case folding of a string for a comparison with a lower-case ASCII
    one: besides the upper-case letters, the long s and the Kelvin sign fold to
    ASCII letters. *)
Fixpoint fold_case (s : string) : string :=
  match s with
  | EmptyString => ""
  | String a s =>
      match s with
      | String b s2 =>
          if bool_decide (ord a = 197) && bool_decide (ord b = 191) then String (chr 115) (fold_case s2)
          else
            match s2 with
            | String c s3 =>
                if bool_decide (ord a = 226) && bool_decide (ord b = 132) && bool_decide (ord c = 170) then String (chr 107) (fold_case s3)
                else String (lower a) (fold_case s)
            | EmptyString => String (lower a) (fold_case s)
            end
      | EmptyString => String (lower a) ""
      end
  end.

(** [strings.EqualFold(s, t)] for a lower-case ASCII [t]. *)
Definition EqualFold (s t : string) : bool := bool_decide (fold_case s = t).

(** ** Escapes *)

Definition ishex (c : Ascii.ascii) : bool := is_digit c || in_range 97 102 c || in_range 65 70 c.

Definition unhex (c : Ascii.ascii) : nat :=
  if is_digit c then ord c - 48 else if in_range 97 102 c then ord c - 87 else if in_range 65 70 c then ord c - 55 else 0.

Inductive encoding := encodePath | encodeHost | encodeUserPassword | encodeFragment.

(** [url.shouldEscape] in a host. *)
Definition host_escapes (c : Ascii.ascii) : bool :=
  negb (is_lower c || is_upper c || is_digit c ||
        one_of [33; 36; 38; 39; 40; 41; 42; 43; 44; 59; 61; 58; 91; 93; 60; 62; 34; 45; 95; 46; 126]%nat c).

(** [url.unescape]; [None] is its error. *)
Fixpoint url_unescape (mode : encoding) (s : string) : option string :=
  match s with
  | EmptyString => Some ""
  | String c s =>
      if bool_decide (c = percent) then
        match s with
        | String h (String l s) =>
            if ishex h && ishex l then
              match mode with
              | encodeHost =>
                  if (unhex h <? 8)%nat && negb (bool_decide (ord h = 50) && bool_decide (ord l = 53)) then None
                  else rest ← url_unescape mode s; Some (String (chr (unhex h * 16 + unhex l)) rest)
              | _ => rest ← url_unescape mode s; Some (String (chr (unhex h * 16 + unhex l)) rest)
              end
            else None
        | _ => None
        end
      else
        match mode with
        | encodeHost => if (ord c <? 128)%nat && host_escapes c then None else rest ← url_unescape mode s; Some (String c rest)
        | _ => rest ← url_unescape mode s; Some (String c rest)
        end
  end.

(** ** Parsing *)

(** [url.URL]; of the user only whether there is one. *)
Record URL := mkURL {
  u_Scheme : string;
  u_Opaque : string;
  u_User : bool;
  u_Host : string;
  u_Path : string;
  u_RawQuery : string;
  u_Fragment : string
}.

Definition colon : Ascii.ascii := chr 58.
Definition question : Ascii.ascii := chr 63.
Definition hash : Ascii.ascii := chr 35.
Definition at_sign : Ascii.ascii := chr 64.

(** [stringContainsCTLByte]. *)
Definition control (c : Ascii.ascii) : bool := (ord c <? 32)%nat || bool_decide (ord c = 127).

(** [getScheme] from an index on; [first] tells whether it is 0. *)
Fixpoint getScheme_loop (first : bool) (s : string) : option (option (string * string)) :=
  match s with
  | EmptyString => Some None
  | String c s =>
      if is_lower c || is_upper c then
        match getScheme_loop false s with
        | Some (Some (scheme, rest)) => Some (Some (String c scheme, rest))
        | r => r
        end
      else if is_digit c || one_of [43; 45; 46]%nat c then
        if first then Some None
        else match getScheme_loop false s with
             | Some (Some (scheme, rest)) => Some (Some (String c scheme, rest))
             | r => r
             end
      else if bool_decide (c = colon) then if first then None else Some (Some ("", s))
      else Some None
  end.

(** [getScheme]: the scheme, empty if there is none, and the rest. *)
Definition getScheme (s : string) : option (string * string) :=
  match getScheme_loop true s with
  | None => None
  | Some None => Some ("", s)
  | Some (Some (scheme, rest)) => Some (scheme, rest)
  end.

(** [validOptionalPort]. *)
Definition validOptionalPort (s : string) : bool :=
  match s with EmptyString => true | String c s => bool_decide (c = colon) && string_forall is_digit s end.

Definition valid_user_char (c : Ascii.ascii) : bool :=
  is_lower c || is_upper c || is_digit c ||
  one_of [45; 46; 95; 58; 126; 33; 36; 38; 39; 40; 41; 42; 43; 44; 59; 61; 37; 64]%nat c.

Section parse.
Context (bracketed : string → option string).

Definition parseHost (host : string) : option string :=
  if negb (string_forall (λ c, negb (bool_decide (c = chr 91))) host) then bracketed host
  else
    match CutLast colon host with
    | Some (_, port) => if validOptionalPort (String colon port) then url_unescape encodeHost host else None
    | None => url_unescape encodeHost host
    end.

(** [parseAuthority]: whether there is a user, and the host. *)
Definition parseAuthority (authority : string) : option (bool * string) :=
  match CutLast at_sign authority with
  | None => host ← parseHost authority; Some (false, host)
  | Some (userinfo, host) =>
      host ← parseHost host;
      if negb (string_forall valid_user_char userinfo) then None
      else
        match Cut colon userinfo with
        | None => _ ← url_unescape encodeUserPassword userinfo; Some (true, host)
        | Some (username, password) =>
            _ ← url_unescape encodeUserPassword username;
            _ ← url_unescape encodeUserPassword password;
            Some (true, host)
        end
  end.

(** The query of the rest of a URL; a lone [?] at its end is dropped. *)
Definition split_query (rest : string) : string * string := default (rest, "") (Cut question rest).

(** The part of [parse] after the scheme and the query. *)
Definition parse_rest (scheme rest query : string) : option URL :=
  if negb (HasPrefix rest "/") && negb (bool_decide (scheme = "")) then Some (mkURL scheme rest false "" "" query "")
  else if negb (HasPrefix rest "/") &&
          (let segment := match Cut slash rest with Some (segment, _) => segment | None => rest end in
           match Cut colon segment with Some _ => true | None => false end) then None
  else if (negb (bool_decide (scheme = "")) || negb (HasPrefix rest "///")) && HasPrefix rest "//" then
    let authority := string_drop 2 rest in
    let '(authority, rest) := match Cut slash authority with Some (authority, path) => (authority, String slash path) | None => (authority, "") end in
    '(user, host) ← parseAuthority authority;
    path ← url_unescape encodePath rest;
    Some (mkURL scheme "" user host path query "")
  else
    path ← url_unescape encodePath rest;
    Some (mkURL scheme "" false "" path query "").

(** [parse]. *)
Definition parse (raw : string) : option URL :=
  if negb (string_forall (λ c, negb (control c)) raw) then None
  else if bool_decide (raw = "*") then Some (mkURL "" "" false "" "*" "" "")
  else
    '(scheme, rest) ← getScheme raw;
    let '(rest, query) := split_query rest in
    parse_rest (ToLower_ascii scheme) rest query.

(** [url.Parse]. *)
Definition Parse (raw : string) : option URL :=
  let '(before, fragment) := default (raw, "") (Cut hash raw) in
  url ← parse before;
  if bool_decide (fragment = "") then Some url
  else
    fragment ← url_unescape encodeFragment fragment;
    Some (mkURL (u_Scheme url) (u_Opaque url) (u_User url) (u_Host url) (u_Path url) (u_RawQuery url) fragment).

(** ** Paths of file URIs *)

Inductive uriError :=
| UriParse
| UriScheme (scheme : string)
| UriHost (host : string)
| UriQuery
| UriEmptyPath.

(** [URI.Path]. *)
Definition Path (uri : string) : string + uriError :=
  match Parse uri with
  | None => inr UriParse
  | Some parsed =>
      if negb (EqualFold (u_Scheme parsed) "file") then inr (UriScheme (u_Scheme parsed))
      else if negb (bool_decide (u_Host parsed = "")) && negb (EqualFold (u_Host parsed) "localhost") then inr (UriHost (u_Host parsed))
      else if negb (bool_decide (u_RawQuery parsed = "")) || negb (bool_decide (u_Fragment parsed = "")) then inr UriQuery
      else if bool_decide (u_Path parsed = "") then inr UriEmptyPath
      else inl (u_Path parsed)
  end.

(** [ParseURI]. *)
Definition ParseURI (value : string) : string + uriError :=
  match Path value with inr err => inr err | inl _ => inl value end.

End parse.

(** ** Reading back what was escaped *)

Lemma string_forall_app test s t : string_forall test (s +:+ t) = string_forall test s && string_forall test t.
Proof.
  induction s as [|c s IH]; [done|]. change (String c s +:+ t) with (String c (s +:+ t)). simpl. by rewrite IH, andb_assoc.
Qed.

Lemma string_forall_impl (P Q : Ascii.ascii → bool) s : (∀ c, P c = true → Q c = true) → string_forall P s = true → string_forall Q s = true.
Proof. intros H. induction s as [|c s IH]; [done|]. simpl. intros [? ?]%andb_true_iff. rewrite H, IH; done. Qed.

Lemma Cut_None sep s : string_forall (λ c, negb (bool_decide (c = sep))) s = true → Cut sep s = None.
Proof.
  induction s as [|c s IH]; [done|]. simpl. intros [Hc Hs]%andb_true_iff. apply negb_true_iff in Hc. by rewrite Hc, IH.
Qed.

Lemma CutLast_None sep s : string_forall (λ c, negb (bool_decide (c = sep))) s = true → CutLast sep s = None.
Proof.
  induction s as [|c s IH]; [done|]. simpl. intros [Hc Hs]%andb_true_iff. apply negb_true_iff in Hc. by rewrite IH, Hc.
Qed.

(** A character that neither ends the path of a URL nor is refused in it. *)
Definition url_char (c : Ascii.ascii) : bool :=
  negb (control c) && negb (bool_decide (c = hash)) && negb (bool_decide (c = question)).

Lemma hex_digit_facts k : (k < 16)%nat → url_char (hex_digit k) = true ∧ ishex (hex_digit k) = true ∧ unhex (hex_digit k) = k.
Proof. intros Hk. do 16 (destruct k as [|k]; [done|]). lia. Qed.

Lemma plain_char c : shouldEscape c = false → url_char c = true.
Proof. destruct c as [[] [] [] [] [] [] [] []]; vm_compute; done. Qed.

Lemma byte_halves c : (ord c / 16 < 16)%nat ∧ (ord c mod 16 < 16)%nat ∧ chr (ord c / 16 * 16 + ord c mod 16) = c.
Proof.
  pose proof (Ascii.nat_ascii_bounded c) as Hc. unfold ord, chr. pose proof (Nat.div_mod_eq (Ascii.nat_of_ascii c) 16).
  pose proof (Nat.mod_upper_bound (Ascii.nat_of_ascii c) 16 ltac:(lia)). split_and!; [lia|done|].
  replace (_ / 16 * 16 + _ mod 16)%nat with (Ascii.nat_of_ascii c) by lia. apply Ascii.ascii_nat_embedding.
Qed.

Lemma escape_chars s : string_forall url_char (escape s) = true.
Proof.
  induction s as [|c s IH]; [done|]. cbn [escape]. destruct (shouldEscape c) eqn:Hc; cbn [string_forall]; [|by rewrite plain_char, IH].
  destruct (byte_halves c) as (Hh & Hl & _). change (Ascii.nat_of_ascii c) with (ord c).
  destruct (hex_digit_facts _ Hh) as (-> & _), (hex_digit_facts _ Hl) as (-> & _). by rewrite IH.
Qed.

Lemma unescape_path s : url_unescape encodePath (escape s) = Some s.
Proof.
  induction s as [|c s IH]; [done|]. cbn [escape]. destruct (shouldEscape c) eqn:Hc; cbn [url_unescape].
  - rewrite bool_decide_eq_true_2 by done. change (Ascii.nat_of_ascii c) with (ord c).
    destruct (byte_halves c) as (Hh & Hl & Hb).
    destruct (hex_digit_facts _ Hh) as (_ & -> & ->), (hex_digit_facts _ Hl) as (_ & -> & ->). cbn [andb]. rewrite IH. cbn [mbind option_bind]. by rewrite Hb.
  - rewrite bool_decide_eq_false_2 by (by intros ->). by rewrite IH.
Qed.

Lemma url_chars_split s : string_forall url_char s = true →
  string_forall (λ c, negb (control c)) s = true ∧ Cut hash s = None ∧ Cut question s = None.
Proof.
  intros H. split_and!; [|apply Cut_None|apply Cut_None]; eapply string_forall_impl; try exact H; intros c; unfold url_char;
    rewrite !andb_true_iff; tauto.
Qed.

(** A URL made of a scheme and a rooted path parses to them. *)
Lemma Parse_local bracketed scheme q :
  (∀ rest, getScheme (scheme +:+ ":" +:+ rest) = Some (scheme, rest)) → ToLower_ascii scheme = scheme → scheme ≠ "" →
  string_forall url_char scheme = true →
  Parse bracketed (scheme +:+ ":" +:+ "//" +:+ escape (String slash q)) = Some (mkURL scheme "" false "" (String slash q) "" "").
Proof.
  intros Hget Hlower Hne Hchars. set (raw := scheme +:+ ":" +:+ "//" +:+ escape (String slash q)).
  assert (string_forall url_char raw = true) as Hraw.
  { subst raw. rewrite !string_forall_app, Hchars, escape_chars. done. }
  destruct (url_chars_split raw Hraw) as (Hctl & Hhash & _).
  assert (Cut question ("//" +:+ escape (String slash q)) = None) as Hq.
  { apply url_chars_split. rewrite string_forall_app, escape_chars. done. }
  unfold Parse. rewrite Hhash. cbn [default]. unfold parse. rewrite Hctl. cbn [negb].
  rewrite (bool_decide_eq_false_2 (raw = "*")) by (subst raw; by destruct scheme as [|c [|d scheme]]).
  subst raw. rewrite Hget. cbn [mbind option_bind]. unfold split_query. rewrite Hq. cbn [default]. rewrite Hlower.
  unfold parse_rest. change (escape (String slash q)) with (String slash (escape q)).
  rewrite (bool_decide_eq_false_2 (scheme = "")) by done. simpl. rewrite unescape_path. done.
Qed.

(** ** The path of a file URI *)

Lemma file_url_path bracketed path : rooted path = true → Path bracketed (file_url (Clean path)) = inl (Clean path).
Proof.
  intros Hp. pose proof (rooted_Clean path) as Hr. rewrite Hp in Hr. unfold rooted in Hr. destruct (Clean path) as [|c q]; [done|].
  simpl in Hr. apply andb_true_iff in Hr as [Hc _]. apply bool_decide_eq_true in Hc as <-.
  unfold Path, file_url. rewrite bool_decide_eq_false_2 by done. rewrite bool_decide_eq_false_2 by (by intros [=]).
  match goal with |- context [Parse bracketed ?uri] =>
    replace (Parse bracketed uri) with (Some (mkURL "file" "" false "" (String slash q) "" ""))
      by (symmetry; by apply (Parse_local bracketed "file" q))
  end. done.
Qed.

(** C37. Reading the path of a file URI undoes writing it: for every absolute path
    on the file system, whatever bytes its names hold, [URI.Path] of
    [URIFromPath] is the cleaned path, and [ParseURI] accepts the URI unchanged. *)
Theorem uri_path_round_trip (bracketed : string → option string) (Getwd : string + error) (path : string) :
  rooted path = true →
  ∃ uri, URIFromPath Getwd path = inl uri ∧ Path bracketed uri = inl (Clean path) ∧ ParseURI bracketed uri = inl uri.
Proof.
  intros Hp. exists (file_url (Clean path)). split; [by apply URIFromPath_rooted|].
  unfold ParseURI. by rewrite file_url_path.
Qed.

Lemma uri_path_round_trip_witness : ∃ uri,
  URIFromPath (inl "/home") "/tmp/a b#é/../q.fql" = inl uri ∧ Path (λ _, None) uri = inl "/tmp/q.fql" ∧ ParseURI (λ _, None) uri = inl uri.
Proof. apply (uri_path_round_trip (λ _, None) (inl "/home") "/tmp/a b#é/../q.fql"). reflexivity. Defined.
