(* ===== verification/Lifecycle.v ===== *)
(** * Close operations and creation gates

    [internal/lifecycle/close_operation.go] and [internal/lifecycle/gate.go]:
    the two synchronisation primitives every manager of the daemon is built
    on.  Each method body runs under its mutex, so it is one atomic function;
    [Wait] and [WaitForCreates], which block outside the mutex, are split at
    the point where they block.  A channel is an identifier; the set of closed
    channels is part of the state, so a waiter that captured a channel keeps
    waiting on that very channel. *)

From S2P Require Import Prelude Source Errors.

(** ** CloseOperation *)

Inductive closeState := closeIdle | closeStarted | closeFinished.

Global Instance closeState_eq_dec : EqDecision closeState.
Proof. solve_decision. Defined.

(** [done] is nil before [Begin]; then it is a channel that is open
    ([Some false]) or closed ([Some true]). *)
Record CloseOperation := mkCloseOperation {
  co_state : closeState;
  co_done : option bool;
  co_err : option error
}.

(** The zero value. *)
Definition newCloseOperation : CloseOperation := mkCloseOperation closeIdle None None.

Definition Begin (c : CloseOperation) : bool * CloseOperation :=
  if bool_decide (co_state c ≠ closeIdle) then (false, c)
  else (true, mkCloseOperation closeStarted (Some false) (co_err c)).

Definition Started (c : CloseOperation) : bool := bool_decide (co_state c ≠ closeIdle).

Definition Finished (c : CloseOperation) : bool := bool_decide (co_state c = closeFinished).

Definition Finish (err : option error) (c : CloseOperation) : outcome CloseOperation :=
  if bool_decide (co_state c ≠ closeStarted) then
    Panic "lifecycle: finish close operation outside teardown"
  else
    match co_done c with
    | Some false => Ret (mkCloseOperation closeFinished (Some true) err)
    | Some true => Panic "close of closed channel"
    | None => Panic "close of nil channel"
    end.

Definition result (c : CloseOperation) : outcome (option error) :=
  if bool_decide (co_state c ≠ closeFinished) then
    Panic "lifecycle: close result read before completion"
  else Ret (co_err c).

(** Entering [Wait]: it returns a published result at once, or blocks. *)
Inductive wait_point := WaitReturned (err : option error) | WaitPending.

Definition Wait_enter (c : CloseOperation) : outcome wait_point :=
  match co_state c with
  | closeIdle => Panic "lifecycle: wait before close operation begins"
  | closeFinished => Ret (WaitReturned (co_err c))
  | closeStarted => Ret WaitPending
  end.

(** The case the [select] of a pending [Wait] takes. *)
Inductive wait_case := CaseDone | CaseCtx (ctxErr : error).

Definition Wait_select (c : CloseOperation) (k : wait_case) : outcome (option error) :=
  match k with
  | CaseDone =>
      match co_done c with
      | Some true => result c
      | _ => Block
      end
  | CaseCtx ctxErr =>
      if bool_decide (co_state c = closeFinished) then Ret (co_err c) else Ret (Some ctxErr)
  end.

(** ** Gate *)

Record Gate := mkGate {
  g_close : CloseOperation;
  g_creating : Z;
  g_createsDone : option nat;
  g_nextChan : nat;
  g_closedChans : gset nat
}.

(** The zero value. *)
Definition newGate : Gate := mkGate newCloseOperation 0 None 0 ∅.

Definition BeginCreate (g : Gate) : bool * Gate :=
  if Started (g_close g) then (false, g)
  else
    let g :=
      if bool_decide (g_creating g = 0%Z)
      then mkGate (g_close g) (g_creating g) (Some (g_nextChan g)) (S (g_nextChan g)) (g_closedChans g)
      else g in
    (true, mkGate (g_close g) (g_creating g + 1) (g_createsDone g) (g_nextChan g) (g_closedChans g)).

Definition EndCreate (g : Gate) : outcome (bool * Gate) :=
  if bool_decide (g_creating g = 0%Z) then
    Panic "lifecycle: end child creation without admission"
  else
    let creating := (g_creating g - 1)%Z in
    if bool_decide (creating ≠ 0%Z)
    then Ret (false, mkGate (g_close g) creating (g_createsDone g) (g_nextChan g) (g_closedChans g))
    else
      match g_createsDone g with
      | None => Panic "close of nil channel"
      | Some ch =>
          if bool_decide (ch ∈ g_closedChans g) then Panic "close of closed channel"
          else Ret (true, mkGate (g_close g) creating None (g_nextChan g) ({[ch]} ∪ g_closedChans g))
      end.

Definition BeginClose (g : Gate) : bool * Gate :=
  let '(owner, close) := Begin (g_close g) in
  (owner, mkGate close (g_creating g) (g_createsDone g) (g_nextChan g) (g_closedChans g)).

Definition Accepting (g : Gate) : bool := negb (Started (g_close g)).

Definition Idle (g : Gate) : bool := bool_decide (g_creating g = 0%Z).

(** [WaitForCreates] captures the channel under the mutex and then receives
    from it. *)
Definition WaitForCreates_enter (g : Gate) : outcome (option nat) :=
  if negb (Started (g_close g)) then
    Panic "lifecycle: wait for child creation before close begins"
  else Ret (g_createsDone g).

Definition WaitForCreates_resume (g : Gate) (done : option nat) : outcome unit :=
  match done with
  | None => Ret tt
  | Some ch => if bool_decide (ch ∈ g_closedChans g) then Ret tt else Block
  end.

Definition FinishClose (err : option error) (g : Gate) : outcome Gate :=
  if bool_decide (g_creating g ≠ 0%Z) then
    Panic "lifecycle: finish parent close with active creators"
  else
    close ← Finish err (g_close g);
    Ret (mkGate close (g_creating g) (g_createsDone g) (g_nextChan g) (g_closedChans g)).

Definition WaitClose_enter (g : Gate) : outcome wait_point := Wait_enter (g_close g).
Definition WaitClose_select (g : Gate) (k : wait_case) : outcome (option error) :=
  Wait_select (g_close g) k.

(** ** Abstract specification of a gate

    A gate is open with [n] admitted creators, closing with [n] creators left,
    or closed with the published result. *)
Inductive agate :=
| AOpen (creators : nat)
| AClosing (creators : nat)
| AClosed (err : option error).

Definition a_begin_create (a : agate) : bool * agate :=
  match a with
  | AOpen n => (true, AOpen (S n))
  | _ => (false, a)
  end.

(** [None] is a misuse: no creator is admitted. *)
Definition a_end_create (a : agate) : option (bool * agate) :=
  match a with
  | AOpen (S n) => Some (bool_decide (n = 0), AOpen n)
  | AClosing (S n) => Some (bool_decide (n = 0), AClosing n)
  | _ => None
  end.

Definition a_begin_close (a : agate) : bool * agate :=
  match a with
  | AOpen n => (true, AClosing n)
  | _ => (false, a)
  end.

(** [None] is a misuse: not closing, already closed, or creators left. *)
Definition a_finish_close (err : option error) (a : agate) : option agate :=
  match a with
  | AClosing 0 => Some (AClosed err)
  | _ => None
  end.

Definition a_accepting (a : agate) : bool :=
  match a with AOpen _ => true | _ => false end.

Definition a_idle (a : agate) : bool :=
  match a with AOpen n | AClosing n => bool_decide (n = 0) | AClosed _ => true end.

(** The interface a gate offers to the managers: its operations simulate the
    abstract gate, and panic exactly on misuse. *)
Class GateSpec (G : Type) := {
  gs_new : G;
  gs_BeginCreate : G → bool * G;
  gs_EndCreate : G → outcome (bool * G);
  gs_BeginClose : G → bool * G;
  gs_Accepting : G → bool;
  gs_Idle : G → bool;
  gs_FinishClose : option error → G → outcome G;
  gs_wf : G → Prop;
  gs_abs : G → agate;
  gs_new_ok : gs_wf gs_new ∧ gs_abs gs_new = AOpen 0;
  gs_begin_create_ok g : gs_wf g →
    gs_wf (gs_BeginCreate g).2 ∧
    ((gs_BeginCreate g).1, gs_abs (gs_BeginCreate g).2) = a_begin_create (gs_abs g);
  gs_end_create_ok g : gs_wf g →
    match a_end_create (gs_abs g) with
    | Some (b, a') => ∃ g', gs_EndCreate g = Ret (b, g') ∧ gs_wf g' ∧ gs_abs g' = a'
    | None => ∃ msg, gs_EndCreate g = Panic msg
    end;
  gs_begin_close_ok g : gs_wf g →
    gs_wf (gs_BeginClose g).2 ∧
    ((gs_BeginClose g).1, gs_abs (gs_BeginClose g).2) = a_begin_close (gs_abs g);
  gs_accepting_ok g : gs_wf g → gs_Accepting g = a_accepting (gs_abs g);
  gs_idle_ok g : gs_wf g → gs_Idle g = a_idle (gs_abs g);
  gs_finish_close_ok err g : gs_wf g →
    match a_finish_close err (gs_abs g) with
    | Some a' => ∃ g', gs_FinishClose err g = Ret g' ∧ gs_wf g' ∧ gs_abs g' = a'
    | None => ∃ msg, gs_FinishClose err g = Panic msg
    end
}.

(** ** Well-formedness of the concrete state *)

Definition close_wf (c : CloseOperation) : Prop :=
  match co_state c with
  | closeIdle => co_done c = None
  | closeStarted => co_done c = Some false
  | closeFinished => co_done c = Some true
  end.

Record gate_wf (g : Gate) : Prop := {
  gw_close : close_wf (g_close g);
  gw_creating : (0 ≤ g_creating g)%Z;
  gw_finished : co_state (g_close g) = closeFinished → g_creating g = 0%Z;
  gw_none : g_creating g = 0%Z → g_createsDone g = None;
  gw_some : g_creating g ≠ 0%Z →
    ∃ ch, g_createsDone g = Some ch ∧ ch < g_nextChan g ∧ ch ∉ g_closedChans g;
  gw_closed : ∀ ch, ch ∈ g_closedChans g → ch < g_nextChan g
}.

Definition gate_abs (g : Gate) : agate :=
  match co_state (g_close g) with
  | closeIdle => AOpen (Z.to_nat (g_creating g))
  | closeStarted => AClosing (Z.to_nat (g_creating g))
  | closeFinished => AClosed (co_err (g_close g))
  end.

(** ** Sequences of gate operations *)

Inductive gate_op :=
| OpBeginCreate
| OpEndCreate
| OpBeginClose
| OpFinishClose (err : option error).

Inductive gate_out :=
| OutAdmitted (b : bool)
| OutLast (b : bool)
| OutOwner (b : bool)
| OutFinished.

Definition gate_exec (op : gate_op) (g : Gate) : outcome (gate_out * Gate) :=
  match op with
  | OpBeginCreate => let '(b, g) := BeginCreate g in Ret (OutAdmitted b, g)
  | OpEndCreate => '(b, g) ← EndCreate g; Ret (OutLast b, g)
  | OpBeginClose => let '(b, g) := BeginClose g in Ret (OutOwner b, g)
  | OpFinishClose err => g ← FinishClose err g; Ret (OutFinished, g)
  end.

Fixpoint gate_run (ops : list gate_op) (g : Gate) : outcome (list gate_out * Gate) :=
  match ops with
  | [] => Ret ([], g)
  | op :: ops =>
      '(o, g) ← gate_exec op g;
      '(os, g) ← gate_run ops g;
      Ret (o :: os, g)
  end.

Definition agate_exec (op : gate_op) (a : agate) : option (gate_out * agate) :=
  match op with
  | OpBeginCreate => let '(b, a) := a_begin_create a in Some (OutAdmitted b, a)
  | OpEndCreate => '(b, a) ← a_end_create a; Some (OutLast b, a)
  | OpBeginClose => let '(b, a) := a_begin_close a in Some (OutOwner b, a)
  | OpFinishClose err => a ← a_finish_close err a; Some (OutFinished, a)
  end.

Fixpoint agate_run (ops : list gate_op) (a : agate) : option (list gate_out * agate) :=
  match ops with
  | [] => Some ([], a)
  | op :: ops =>
      '(o, a) ← agate_exec op a;
      '(os, a) ← agate_run ops a;
      Some (o :: os, a)
  end.

(** ** The concrete gate implements the interface *)

Ltac gate_unfold :=
  unfold gate_abs, BeginCreate, EndCreate, BeginClose, FinishClose, Finish, Begin, Accepting, Idle,
    Started, close_wf in *; simpl in *.

Ltac gate_split := split; simpl; try by auto; try congruence; try lia.

Lemma newGate_ok : gate_wf newGate ∧ gate_abs newGate = AOpen 0.
Proof. split; [|done]. split; simpl; done. Qed.

Lemma BeginCreate_ok g : gate_wf g →
  gate_wf (BeginCreate g).2 ∧
  ((BeginCreate g).1, gate_abs (BeginCreate g).2) = a_begin_create (gate_abs g).
Proof.
  intros Hwf. pose proof Hwf as [Hc Hpos Hfin Hnone Hsome Hcl]. gate_unfold.
  destruct (co_state (g_close g)) eqn:Hst; rewrite ?bool_decide_eq_true_2 by done; simpl;
    rewrite ?Hst; try done.
  case_bool_decide as Hz; simpl; rewrite Hst; (split; [|f_equal; f_equal; lia]).
  - gate_split; unfold close_wf; rewrite ?Hst; try done.
    + intros _. eexists; split; [done|]. split; [lia|]. intros Hin%Hcl. lia.
    + intros ch Hin%Hcl. lia.
  - gate_split. unfold close_wf. by rewrite Hst.
Qed.

Lemma EndCreate_ok g : gate_wf g →
  match a_end_create (gate_abs g) with
  | Some (b, a') => ∃ g', EndCreate g = Ret (b, g') ∧ gate_wf g' ∧ gate_abs g' = a'
  | None => ∃ msg, EndCreate g = Panic msg
  end.
Proof.
  intros Hwf. pose proof Hwf as [Hc Hpos Hfin Hnone Hsome Hcl].
  destruct (decide (g_creating g = 0%Z)) as [Hz|Hnz].
  - gate_unfold. rewrite (bool_decide_eq_true_2 _ Hz), Hz.
    destruct (co_state (g_close g)); simpl; eauto.
  - destruct (Hsome Hnz) as (ch & Hch & Hlt & Hni).
    assert (∃ n, Z.to_nat (g_creating g) = S n) as [n Hn] by (exists (Z.to_nat (g_creating g) - 1); lia).
    assert (co_state (g_close g) ≠ closeFinished) as Hnf by (intros E; by apply Hnz, Hfin).
    gate_unfold. rewrite (bool_decide_eq_false_2 _ Hnz), Hch.
    rewrite (bool_decide_eq_false_2 _ Hni), Hn.
    destruct (co_state (g_close g)) eqn:Hst; [| |done]; simpl;
      (case_bool_decide as Hn0; case_bool_decide as Hn1; simpl; [lia| | |lia]);
      (eexists; split; [done|]; split; [|simpl; rewrite Hst; f_equal; lia]);
      gate_split; try (unfold close_wf; by rewrite Hst); try (intros _; by eexists);
      intros ch'; rewrite elem_of_union, elem_of_singleton; intros [->|?%Hcl]; lia.
Qed.

Lemma BeginClose_ok g : gate_wf g →
  gate_wf (BeginClose g).2 ∧
  ((BeginClose g).1, gate_abs (BeginClose g).2) = a_begin_close (gate_abs g).
Proof.
  intros Hwf. pose proof Hwf as [Hc Hpos Hfin Hnone Hsome Hcl]. gate_unfold.
  destruct (co_state (g_close g)) eqn:Hst; simpl; rewrite ?Hst.
  all: split; [|done]; gate_split; unfold close_wf; by rewrite ?Hst.
Qed.

Lemma FinishClose_ok err g : gate_wf g →
  match a_finish_close err (gate_abs g) with
  | Some a' => ∃ g', FinishClose err g = Ret g' ∧ gate_wf g' ∧ gate_abs g' = a'
  | None => ∃ msg, FinishClose err g = Panic msg
  end.
Proof.
  intros Hwf. pose proof Hwf as [Hc Hpos Hfin Hnone Hsome Hcl]. gate_unfold.
  destruct (co_state (g_close g)) eqn:Hst; simpl.
  - case_bool_decide; simpl; eauto.
  - destruct (Z.to_nat (g_creating g)) eqn:Hn.
    + rewrite bool_decide_eq_false_2 by (intros E; lia). rewrite Hc. simpl.
      eexists; split; [done|]. split; [|done]. gate_split.
    + rewrite bool_decide_eq_true_2 by lia. eauto.
  - case_bool_decide; simpl; eauto.
Qed.

Lemma Accepting_ok g : gate_wf g → Accepting g = a_accepting (gate_abs g).
Proof. intros _. gate_unfold. by destruct (co_state (g_close g)). Qed.

Lemma Idle_ok g : gate_wf g → Idle g = a_idle (gate_abs g).
Proof.
  intros [_ Hpos Hfin _ _ _]. gate_unfold. destruct (co_state (g_close g)); simpl.
  3: by rewrite Hfin.
  all: apply bool_decide_ext; lia.
Qed.

Global Instance Gate_GateSpec : GateSpec Gate := {|
  gs_new := newGate;
  gs_BeginCreate := BeginCreate;
  gs_EndCreate := EndCreate;
  gs_BeginClose := BeginClose;
  gs_Accepting := Accepting;
  gs_Idle := Idle;
  gs_FinishClose := FinishClose;
  gs_wf := gate_wf;
  gs_abs := gate_abs;
  gs_new_ok := newGate_ok;
  gs_begin_create_ok := BeginCreate_ok;
  gs_end_create_ok := EndCreate_ok;
  gs_begin_close_ok := BeginClose_ok;
  gs_accepting_ok := Accepting_ok;
  gs_idle_ok := Idle_ok;
  gs_finish_close_ok := FinishClose_ok
|}.

(** ** Runs of a gate *)

Lemma gate_exec_sim op g : gate_wf g →
  match agate_exec op (gate_abs g) with
  | Some (o, a') => ∃ g', gate_exec op g = Ret (o, g') ∧ gate_wf g' ∧ gate_abs g' = a'
  | None => ∃ msg, gate_exec op g = Panic msg
  end.
Proof.
  intros Hwf. destruct op; simpl.
  - pose proof (BeginCreate_ok g Hwf) as [? Heq].
    destruct (BeginCreate g) as [b g'], (a_begin_create (gate_abs g)) as [b' a']. naive_solver.
  - pose proof (EndCreate_ok g Hwf) as Hok.
    destruct (a_end_create (gate_abs g)) as [[b a']|]; simpl.
    + destruct Hok as (g' & -> & ? & ?). simpl. eauto.
    + destruct Hok as [msg ->]. simpl. eauto.
  - pose proof (BeginClose_ok g Hwf) as [? Heq].
    destruct (BeginClose g) as [b g'], (a_begin_close (gate_abs g)) as [b' a']. naive_solver.
  - pose proof (FinishClose_ok err g Hwf) as Hok.
    destruct (a_finish_close err (gate_abs g)) as [a'|]; simpl.
    + destruct Hok as (g' & -> & ? & ?). simpl. eauto.
    + destruct Hok as [msg ->]. simpl. eauto.
Qed.

Lemma gate_run_sim ops g : gate_wf g →
  match agate_run ops (gate_abs g) with
  | Some (os, a') => ∃ g', gate_run ops g = Ret (os, g') ∧ gate_wf g' ∧ gate_abs g' = a'
  | None => ∃ msg, gate_run ops g = Panic msg
  end.
Proof.
  revert g. induction ops as [|op ops IH]; intros g Hwf; simpl; [eauto|].
  pose proof (gate_exec_sim op g Hwf) as Hop.
  destruct (agate_exec op (gate_abs g)) as [[o a']|]; simpl.
  - destruct Hop as (g' & -> & Hwf' & <-). simpl. specialize (IH g' Hwf').
    destruct (agate_run ops (gate_abs g')) as [[os a'']|]; simpl.
    + destruct IH as (g'' & -> & ? & ?). simpl. eauto.
    + destruct IH as [msg ->]. simpl. eauto.
  - destruct Hop as [msg ->]. simpl. eauto.
Qed.

Lemma gate_exec_wf op g o g' : gate_wf g → gate_exec op g = Ret (o, g') → gate_wf g'.
Proof.
  intros Hwf Hex. pose proof (gate_exec_sim op g Hwf) as Hs.
  destruct (agate_exec op (gate_abs g)) as [[? ?]|].
  - destruct Hs as (g1 & Hg1 & ? & _). rewrite Hex in Hg1. by simplify_eq.
  - destruct Hs as [msg Hmsg]. congruence.
Qed.

Lemma gate_run_wf ops g os g' : gate_wf g → gate_run ops g = Ret (os, g') → gate_wf g'.
Proof.
  intros Hwf Hex. pose proof (gate_run_sim ops g Hwf) as Hs.
  destruct (agate_run ops (gate_abs g)) as [[? ?]|].
  - destruct Hs as (g1 & Hg1 & ? & _). rewrite Hex in Hg1. by simplify_eq.
  - destruct Hs as [msg Hmsg]. congruence.
Qed.

(** A waiter that captured [done] after close was committed: the channel it
    waits on is closed exactly when no creator is left. *)
Definition waiting (done : option nat) (g : Gate) : Prop :=
  gate_wf g ∧ Started (g_close g) = true ∧
  match done with
  | None => g_creating g = 0%Z
  | Some ch => (g_creating g ≠ 0%Z ∧ g_createsDone g = Some ch) ∨
               (g_creating g = 0%Z ∧ ch ∈ g_closedChans g)
  end.

Lemma waiting_step done op g o g' :
  waiting done g → gate_exec op g = Ret (o, g') → waiting done g'.
Proof.
  intros (Hwf & Hst & Hd) Hex. split; [by eapply gate_exec_wf|]. destruct op; simpl in Hex.
  - unfold BeginCreate in Hex. rewrite Hst in Hex. by simplify_eq.
  - unfold EndCreate in Hex. destruct Hwf as [_ _ _ Hn Hs _].
    repeat case_bool_decide; simplify_eq/=.
    + split; [done|]. destruct done; [|congruence]. left. naive_solver.
    + destruct (Hs ltac:(done)) as (ch & Hch & _ & _). rewrite Hch in Hex.
      case_bool_decide; simplify_eq/=. split; [done|]. destruct done; [|lia].
      right. split; [lia|]. destruct Hd as [[_ ?]|[? _]]; [simplify_eq; set_solver|done].
  - unfold BeginClose, Begin in Hex. unfold Started in Hst. rewrite Hst in Hex. by simplify_eq/=.
  - unfold FinishClose, Finish in Hex. repeat (case_bool_decide; simplify_eq/=).
    by destruct (co_done (g_close g)) as [[]|]; simplify_eq/=.
Qed.

Lemma waiting_run done ops g os g' :
  waiting done g → gate_run ops g = Ret (os, g') → waiting done g'.
Proof.
  revert g os. induction ops as [|op ops IH]; intros g os Hw Hrun; simpl in Hrun; [by simplify_eq|].
  apply bind_Ret_inv in Hrun as ([o g1] & Hop & Hrest).
  apply bind_Ret_inv in Hrest as ([os' g2] & Hrest & ?). simplify_eq.
  eapply IH; [|done]. by eapply waiting_step.
Qed.

(** ** Properties of gates and close operations *)

(** C2. The creation gate refines its specification: on every sequence of
    calls the concrete gate (mutex state, counter, done channel) returns what
    the abstract gate returns, and panics exactly on the calls the
    specification forbids (ending a creation that was not admitted, finishing
    a close that was not begun or that still has creators).  In particular a
    client that follows the protocol never closes a nil or closed channel. *)
Theorem gate_refines (ops : list gate_op) :
  match agate_run ops (AOpen 0) with
  | Some (outs, a) => ∃ g, gate_run ops newGate = Ret (outs, g) ∧ gate_abs g = a
  | None => ∃ msg, gate_run ops newGate = Panic msg
  end.
Proof.
  destruct newGate_ok as [Hwf Habs]. pose proof (gate_run_sim ops newGate Hwf) as H.
  rewrite Habs in H. destruct (agate_run ops (AOpen 0)) as [[os a]|]; [|done].
  destruct H as (g & ? & _ & ?). eauto.
Qed.

(** A teardown worker that entered [WaitForCreates] is released exactly
    when the creators admitted before the close have all left: after any
    further sequence of gate calls its receive proceeds if and only if the
    gate is idle, however many channels earlier creation rounds made. *)
Theorem WaitForCreates_exact (ops ops' : list gate_op) outs outs' (g g' : Gate) done :
  gate_run ops newGate = Ret (outs, g) →
  WaitForCreates_enter g = Ret done →
  gate_run ops' g = Ret (outs', g') →
  WaitForCreates_resume g' done = (if Idle g' then Ret tt else Block).
Proof.
  intros Hrun Henter Hrun'.
  pose proof (gate_run_wf _ _ _ _ (proj1 newGate_ok) Hrun) as Hwfg.
  unfold WaitForCreates_enter in Henter.
  destruct (Started (g_close g)) eqn:Hst; simplify_eq/=.
  assert (waiting (g_createsDone g) g) as Hw.
  { split; [done|]. split; [done|]. destruct Hwfg as [_ _ _ Hn Hsm _].
    destruct (decide (g_creating g = 0%Z)) as [Hz|Hz].
    - by rewrite (Hn Hz).
    - destruct (Hsm Hz) as (ch & -> & _). by left. }
  apply (waiting_run _ _ _ _ _ Hw) in Hrun' as (Hwf' & _ & Hd).
  unfold WaitForCreates_resume, Idle. destruct (g_createsDone g) as [ch|].
  - destruct Hd as [[Hnz Hch]|[Hz Hin]].
    + rewrite (bool_decide_eq_false_2 (g_creating g' = 0%Z)) by done.
      destruct (gw_some _ Hwf' Hnz) as (ch' & ? & _ & ?).
      rewrite bool_decide_eq_false_2; [done|]. by simplify_eq.
    + by rewrite !bool_decide_eq_true_2.
  - by rewrite bool_decide_eq_true_2.
Qed.

Lemma WaitForCreates_exact_witness :
  ∃ outs g outs' g' done,
    gate_run [OpBeginCreate; OpEndCreate; OpBeginCreate; OpBeginCreate; OpBeginClose] newGate
      = Ret (outs, g) ∧
    WaitForCreates_enter g = Ret done ∧
    gate_run [OpEndCreate; OpEndCreate] g = Ret (outs', g') ∧
    WaitForCreates_resume g' done = (if Idle g' then Ret tt else Block).
Proof.
  do 5 eexists. split; [vm_compute; reflexivity|]. split; [vm_compute; reflexivity|].
  split; [vm_compute; reflexivity|].
  eapply (WaitForCreates_exact
    [OpBeginCreate; OpEndCreate; OpBeginCreate; OpBeginCreate; OpBeginClose]
    [OpEndCreate; OpEndCreate]); vm_compute; reflexivity.
Defined.

(** Every waiter observes the teardown result.  Once [Finish] has
    published a result, a caller entering [Wait] gets it, and a caller already
    waiting gets it whichever case of its [select] fires, so a concurrent
    cancellation never hides the result; before that, only cancellation
    returns. *)
Theorem Wait_observes_result (c c' : CloseOperation) (err : option error) (ctxErr : error) :
  close_wf c →
  Finish err c = Ret c' →
  Wait_enter c' = Ret (WaitReturned err) ∧
  Wait_select c' CaseDone = Ret err ∧
  Wait_select c' (CaseCtx ctxErr) = Ret err ∧
  Wait_select c CaseDone = Block ∧
  Wait_select c (CaseCtx ctxErr) = Ret (Some ctxErr) ∧
  Finish err c' = Panic "lifecycle: finish close operation outside teardown".
Proof.
  unfold close_wf, Finish, Wait_enter, Wait_select, result. intros Hwf Hf.
  destruct (co_state c) eqn:Hst; simplify_eq/=.
  rewrite Hwf in *. by simplify_eq/=.
Qed.

Lemma Wait_observes_result_witness :
  ∃ c', Finish None (Begin newCloseOperation).2 = Ret c' ∧
        Wait_select c' (CaseCtx (ESentinel ContextCanceled)) = Ret None.
Proof.
  eexists. split; [reflexivity|].
  destruct (Wait_observes_result (Begin newCloseOperation).2
    (mkCloseOperation closeFinished (Some true) None) None (ESentinel ContextCanceled))
    as (_ & _ & H & _); [reflexivity|reflexivity|exact H].
Defined.
