(* ===== verification/Diagnostics.v ===== *)
(** * Diagnostic projection

    [internal/diagnostic]: runtime API diagnostics ([error_extraction.go]) and
    native Ferret diagnostics ([ferret_conversion.go]) projected to URIs and
    UTF-16 ranges.  A [SpanToRange] that panics would panic the projection, so
    the conversions are outcomes; the theorems show they always return. *)

From S2P Require Import Prelude Source Errors.

Local Open Scope Z_scope.

Definition SeverityError : Z := 1.

Definition zeroRange : Range := mkRange (mkPosition 0 0) (mkPosition 0 0).

(** [Diagnostic.Clone]: a fresh slice of related information. *)
Definition Diagnostic_Clone (d : Diagnostic) : Diagnostic :=
  mkDiagnostic (d_URI d) (d_Message d) (d_Severity d) (d_Range d) (d_Source d) (d_Code d)
    ([] ++ d_RelatedInformation d).

(** The index loops [for index := range xs { if p(xs[index]) { break } }]. *)
Fixpoint first_index {A} (p : A → bool) (i : nat) (l : list A) : option nat :=
  match l with
  | [] => None
  | x :: l => if p x then Some i else first_index p (S i) l
  end.

(** The primary index: the first marked annotation, else the first one. *)
Definition primaryIndex {A} (p : A → bool) (l : list A) : option nat :=
  match first_index p 0 l with
  | Some i => Some i
  | None => match l with [] => None | _ => Some 0%nat end
  end.

Definition message_parts (message hint note : string) : string :=
  let parts := [message] in
  let parts := if bool_decide (hint = "") then parts else parts ++ ["Hint: " +:+ hint] in
  let parts := if bool_decide (note = "") then parts else parts ++ ["Note: " +:+ note] in
  strings_Join parts (nl +:+ nl).

Definition apiDiagnosticMessage (value : ApiDiagnostic) : string :=
  message_parts (ad_Message value) (ad_Hint value) (ad_Note value).

(** The loop over the annotations that are not the primary one. *)
Fixpoint related_loop {A} (span : A → Span) (label : A → string) (uri : string) (mapper : Mapper)
    (primary : option nat) (index : nat) (l : list A) : outcome (list RelatedInformation) :=
  match l with
  | [] => Ret []
  | x :: l =>
      if bool_decide (Some index = primary) then related_loop span label uri mapper primary (S index) l
      else
        let message := if bool_decide (label x = "") then "Related location" else label x in
        range ← SpanToRange mapper (span x);
        rest ← related_loop span label uri mapper primary (S index) l;
        Ret (mkRelated uri range message :: rest)
  end.

(** The range of the primary annotation, zero when there is none. *)
Definition primary_range {A} (span : A → Span) (mapper : Mapper) (primary : option nat)
    (l : list A) : outcome Range :=
  match primary with
  | None => Ret zeroRange
  | Some i =>
      match l !! i with
      | Some x => SpanToRange mapper (span x)
      | None => Panic "index out of range"
      end
  end.

Definition convertAPIDiagnostic (uri : string) (fallbackText : list Z) (value : ApiDiagnostic) :
    outcome Diagnostic :=
  let text := if bool_decide (ad_Content value = []) then fallbackText else ad_Content value in
  let mapper := NewMapper text in
  let primary := primaryIndex an_Primary (ad_Annotations value) in
  range ← primary_range an_Span mapper primary (ad_Annotations value);
  related ← related_loop an_Span an_Message uri mapper primary 0 (ad_Annotations value);
  Ret (mkDiagnostic uri (apiDiagnosticMessage value) SeverityError range "ferret" (ad_Kind value) related).

Definition FromError (uri : string) (text : list Z) (err : error) : outcome (list Diagnostic) :=
  match errors_AsDiagnostics err with
  | None => Ret []
  | Some values => mapM (convertAPIDiagnostic uri text) values
  end.

(** The fields of a native Ferret diagnostic the projection reads. *)
Record FerretSpan := mkFerretSpan { fs_Main : bool; fs_Label : string; fs_Span : Span }.

Record FerretDiagnostic := mkFerretDiagnostic {
  fd_Kind : string;
  fd_Message : string;
  fd_Hint : string;
  fd_Note : string;
  fd_Spans : list FerretSpan
}.

Global Instance FerretSpan_eq_dec : EqDecision FerretSpan.
Proof. solve_decision. Defined.
Global Instance FerretDiagnostic_eq_dec : EqDecision FerretDiagnostic.
Proof. solve_decision. Defined.

Definition diagnosticMessage (value : FerretDiagnostic) : string :=
  message_parts (fd_Message value) (fd_Hint value) (fd_Note value).

(** [Convert]; the diagnostic pointer may be nil. *)
Definition Convert (uri : string) (mapper : Mapper) (value : option FerretDiagnostic) :
    outcome Diagnostic :=
  match value with
  | None => Ret (mkDiagnostic uri "" SeverityError zeroRange "ferret" "" [])
  | Some value =>
      let primary := primaryIndex fs_Main (fd_Spans value) in
      range ← primary_range fs_Span mapper primary (fd_Spans value);
      related ← related_loop fs_Span fs_Label uri mapper primary 0 (fd_Spans value);
      Ret (mkDiagnostic uri (diagnosticMessage value) SeverityError range "ferret" (fd_Kind value)
             related)
  end.

(** ** Lemmas *)

Lemma first_index_spec {A} (p : A → bool) l k i :
  first_index p k l = Some i →
  ∃ x, l !! (i - k)%nat = Some x ∧ p x = true ∧ (k ≤ i)%nat ∧
       ∀ j y, (j < i - k)%nat → l !! j = Some y → p y = false.
Proof.
  revert k. induction l as [|x l IH]; intros k H; simpl in H; [done|].
  destruct (p x) eqn:Hp; simplify_eq.
  - exists x. rewrite Nat.sub_diag. repeat split; [done..|lia].
  - destruct (IH _ H) as (y & Hy & Hpy & Hle & Hmin). exists y.
    replace (i - k)%nat with (S (i - S k)) by lia. repeat split; [done..|lia|].
    intros [|j] z Hj Hz; simplify_eq/=; [done|]. apply (Hmin j z); [lia|done].
Qed.

Lemma first_index_None {A} (p : A → bool) l k :
  first_index p k l = None → Forall (λ x, p x = false) l.
Proof.
  revert k. induction l as [|x l IH]; intros k H; simpl in H; [constructor|].
  destruct (p x) eqn:Hp; [done|]. constructor; eauto.
Qed.

(** A diagnostic whose ranges are ordered. *)
Definition ordered_ranges (d : Diagnostic) : Prop :=
  pos_le (Start (d_Range d)) (End (d_Range d)) ∧
  Forall (λ r, pos_le (Start (ri_Range r)) (End (ri_Range r))) (d_RelatedInformation d).

Lemma primary_lookup {A} (p : A → bool) l i :
  primaryIndex p l = Some i → ∃ x, l !! i = Some x.
Proof.
  unfold primaryIndex. intros H. destruct (first_index p 0 l) as [j|] eqn:E; simplify_eq.
  - apply first_index_spec in E as (x & Hx & _). rewrite Nat.sub_0_r in Hx. eauto.
  - destruct l as [|x l]; simplify_eq. by exists x.
Qed.

Lemma primaryIndex_None {A} (p : A → bool) l : primaryIndex p l = None → l = [].
Proof. unfold primaryIndex. destruct (first_index p 0 l), l; done. Qed.

Section projection.
Context (t : list Z) (Hlen : Z.of_nat (length t) < 2 ^ 32).
Context {A : Type} (span : A → Span) (label : A → string) (uri : string).

Lemma primary_range_ok p l :
  ∃ r, primary_range span (NewMapper t) (primaryIndex p l) l = Ret r ∧ pos_le (Start r) (End r).
Proof using Hlen.
  unfold primary_range. destruct (primaryIndex p l) as [i|] eqn:E.
  - destruct (primary_lookup p l i E) as [x ->]. by apply SpanToRange_total.
  - exists zeroRange. split; [done|]. right. simpl. lia.
Qed.

(** The message of a related location. *)
Definition related_message (x : A) : string :=
  if bool_decide (label x = "") then "Related location" else label x.

Lemma related_loop_after i k l : (i < k)%nat →
  ∃ rs, related_loop span label uri (NewMapper t) (Some i) k l = Ret rs ∧
        Forall (λ r, pos_le (Start (ri_Range r)) (End (ri_Range r))) rs ∧
        map ri_Message rs = map related_message l.
Proof using Hlen.
  revert k. induction l as [|x l IH]; intros k Hk; simpl.
  - exists []. split; [done|]. split; [constructor|done].
  - rewrite bool_decide_eq_false_2 by (intros [=]; lia).
    destruct (SpanToRange_total t (span x) Hlen) as (r & -> & Hr).
    destruct (IH (S k) ltac:(lia)) as (rs & -> & Hall & Hmap). cbn.
    eexists; split; [done|]. split; [by constructor|]. cbn. by rewrite Hmap.
Qed.

Lemma related_loop_ok i k l : (k ≤ i)%nat →
  ∃ rs, related_loop span label uri (NewMapper t) (Some i) k l = Ret rs ∧
        Forall (λ r, pos_le (Start (ri_Range r)) (End (ri_Range r))) rs ∧
        map ri_Message rs = map related_message (delete (i - k)%nat l).
Proof using Hlen.
  revert k. induction l as [|x l IH]; intros k Hk; simpl.
  - exists []. split; [done|]. split; [constructor|done].
  - destruct (decide (k = i)) as [->|Hne].
    + rewrite bool_decide_eq_true_2 by done. rewrite Nat.sub_diag. simpl.
      apply related_loop_after. lia.
    + rewrite bool_decide_eq_false_2 by (intros [=]; lia).
      destruct (SpanToRange_total t (span x) Hlen) as (r & -> & Hr).
      destruct (IH (S k) ltac:(lia)) as (rs & -> & Hall & Hmap).
      replace (i - k)%nat with (S (i - S k)) by lia. cbn.
      eexists; split; [done|]. split; [by constructor|]. cbn. by rewrite Hmap.
Qed.
End projection.

(** What a projected diagnostic says of its annotations: the URI, ordered
    ranges, the range of the primary annotation (the first marked one, else
    the first one) and the others, in order, as related information. *)
Definition projects {A} (span : A → Span) (marked : A → bool) (label : A → string)
    (uri : string) (mapper : Mapper) (l : list A) (d : Diagnostic) : Prop :=
  d_URI d = uri ∧ ordered_ranges d ∧
  match primaryIndex marked l with
  | None => d_Range d = zeroRange ∧ d_RelatedInformation d = []
  | Some i =>
      (∃ x, l !! i = Some x ∧ SpanToRange mapper (span x) = Ret (d_Range d) ∧
            ((∃ y, y ∈ l ∧ marked y = true) → marked x = true)) ∧
      map ri_Message (d_RelatedInformation d) = map (related_message label) (delete i l)
  end.

Lemma primary_marked {A} (p : A → bool) l i x :
  primaryIndex p l = Some i → l !! i = Some x → (∃ y, y ∈ l ∧ p y = true) → p x = true.
Proof.
  unfold primaryIndex. intros H Hx (y & Hin & Hy).
  destruct (first_index p 0 l) as [j|] eqn:E; simplify_eq.
  - apply first_index_spec in E as (z & Hz & Hpz & _). rewrite Nat.sub_0_r in Hz. congruence.
  - apply first_index_None in E. rewrite Forall_forall in E. specialize (E y Hin). congruence.
Qed.

Lemma projection_ok {A} t (span : A → Span) marked label uri (l : list A) msg code :
  Z.of_nat (length t) < 2 ^ 32 →
  ∃ range related,
    primary_range span (NewMapper t) (primaryIndex marked l) l = Ret range ∧
    related_loop span label uri (NewMapper t) (primaryIndex marked l) 0 l = Ret related ∧
    projects span marked label uri (NewMapper t) l
      (mkDiagnostic uri msg SeverityError range "ferret" code related).
Proof.
  intros Hlen. destruct (primary_range_ok t Hlen span marked l) as (range & Hr & Hord).
  exists range. unfold projects, ordered_ranges. simpl.
  destruct (primaryIndex marked l) as [i|] eqn:Hp.
  - destruct (related_loop_ok t Hlen span label uri i 0 l ltac:(lia)) as (rs & Hrs & Hall & Hmap).
    rewrite Nat.sub_0_r in Hmap. exists rs. repeat split; try done.
    destruct (primary_lookup _ _ _ Hp) as [x Hx]. exists x. simpl in Hr. rewrite Hx in Hr.
    repeat split; [done..|]. by apply (primary_marked _ _ _ _ Hp).
  - apply primaryIndex_None in Hp as ->. exists []. simpl in Hr. simplify_eq.
    repeat split; [|constructor]. done.
Qed.

Lemma convertAPIDiagnostic_ok uri text value :
  Z.of_nat (length text) < 2 ^ 32 → Z.of_nat (length (ad_Content value)) < 2 ^ 32 →
  ∃ d, convertAPIDiagnostic uri text value = Ret d ∧
       projects an_Span an_Primary an_Message uri
         (NewMapper (if bool_decide (ad_Content value = []) then text else ad_Content value))
         (ad_Annotations value) d.
Proof.
  intros Ht Hc. unfold convertAPIDiagnostic.
  destruct (projection_ok (if bool_decide (ad_Content value = []) then text else ad_Content value)
    an_Span an_Primary an_Message uri (ad_Annotations value) (apiDiagnosticMessage value)
    (ad_Kind value)) as (range & related & -> & -> & Hp); [by case_bool_decide|].
  cbn. eauto.
Qed.

(** ** Properties *)

(** Extracting the runtime diagnostics of an error never panics, whatever
    spans the runtime reports: each diagnostic of the first diagnostics value in
    the error tree gives one projection, in order, whose ranges are ordered,
    whose range is that of the annotation marked primary (else the first one)
    and whose related information lists the other annotations in order. *)
Theorem FromError_total (uri : string) (text : list Z) (err : error) :
  Z.of_nat (length text) < 2 ^ 32 →
  Forall (λ v, Z.of_nat (length (ad_Content v)) < 2 ^ 32)
    (default [] (errors_AsDiagnostics err)) →
  ∃ ds, FromError uri text err = Ret ds ∧
        Forall2 (λ v d, projects an_Span an_Primary an_Message uri
                   (NewMapper (if bool_decide (ad_Content v = []) then text else ad_Content v))
                   (ad_Annotations v) d)
          (default [] (errors_AsDiagnostics err)) ds.
Proof.
  intros Ht. unfold FromError. destruct (errors_AsDiagnostics err) as [values|]; simpl.
  - induction values as [|v values IH]; intros Hall; simpl; [by exists []|].
    apply Forall_cons in Hall as [Hv Hall].
    destruct (convertAPIDiagnostic_ok uri text v Ht Hv) as (d & -> & Hd).
    destruct (IH Hall) as (ds & Hds & Hf). cbn. unfold mbind in Hds. rewrite Hds. cbn.
    exists (d :: ds). split; [done|]. by constructor.
  - intros _. by exists [].
Qed.

Lemma FromError_total_witness :
  ∃ ds, FromError "file:///q.fql" (bytes_of_string "RETURN x")
          (wrap_prefix "run" (EApiDiagnostics "boom"
             [mkApiDiagnostic [] "NameError" "undefined" "hint" ""
                [mkAnnotation false "decl" (mkSpan 0 6); mkAnnotation true "" (mkSpan 7 8)]])) = Ret ds
        ∧ length ds = 1%nat.
Proof.
  destruct (FromError_total "file:///q.fql" (bytes_of_string "RETURN x")
    (wrap_prefix "run" (EApiDiagnostics "boom"
       [mkApiDiagnostic [] "NameError" "undefined" "hint" ""
          [mkAnnotation false "decl" (mkSpan 0 6); mkAnnotation true "" (mkSpan 7 8)]])))
    as (ds & Hds & Hf); [vm_compute; reflexivity|repeat constructor|].
  exists ds. split; [exact Hds|]. apply Forall2_length in Hf. exact (eq_sym Hf).
Defined.

(** Converting a native Ferret diagnostic never panics, also for a nil
    diagnostic and for spans outside the text, and projects the main span (else
    the first one) as the range and the other spans as related information. *)
Theorem Convert_total (uri : string) (t : list Z) (value : option FerretDiagnostic) :
  Z.of_nat (length t) < 2 ^ 32 →
  ∃ d, Convert uri (NewMapper t) value = Ret d ∧
       projects fs_Span fs_Main fs_Label uri (NewMapper t) (from_option fd_Spans [] value) d.
Proof.
  intros Ht. destruct value as [value|]; simpl.
  - destruct (projection_ok t fs_Span fs_Main fs_Label uri (fd_Spans value)
      (diagnosticMessage value) (fd_Kind value) Ht) as (range & related & -> & -> & Hp).
    cbn. eauto.
  - eexists; split; [done|]. repeat split; [right; simpl; lia|constructor].
Qed.

Lemma Convert_total_witness :
  ∃ d, Convert "u" (NewMapper (bytes_of_string "ab"))
         (Some (mkFerretDiagnostic "K" "m" "" "n" [mkFerretSpan false "l" (mkSpan 9 1)])) = Ret d ∧
       ordered_ranges d.
Proof.
  destruct (Convert_total "u" (bytes_of_string "ab")
    (Some (mkFerretDiagnostic "K" "m" "" "n" [mkFerretSpan false "l" (mkSpan 9 1)])))
    as (d & Hd & _ & Ho & _); [vm_compute; reflexivity|].
  exists d. split; [exact Hd|exact Ho].
Defined.
