(* ===== verification/Watchers.v ===== *)
(** * Bounded event watchers

    The fan-out of lifecycle events shared by [internal/exec/execution.go] and
    [internal/debug/session_watch.go]: a map from watcher identifiers to
    watchers with a bounded event channel and a one-slot error channel.
    Consumers keep the channels of a watcher after it leaves the map, so the
    model keeps every watcher object ([h_store]) next to the keys of the map
    ([h_live]).  Go iterates a map in an unspecified order: the loops take the
    order as an argument and the theorems hold for every order. *)

From S2P Require Import Prelude Source Errors.

Section watchers.
Context {E : Type}.

(** A buffered channel is the list of its queued values and whether it is
    closed. *)
Record watcher := mkWatcher {
  w_events : list E;
  w_eventsClosed : bool;
  w_errors : list error;
  w_errorsClosed : bool;
  w_closed : bool
}.

Record hub := mkHub {
  h_next : Z;
  h_store : gmap Z watcher;
  h_live : gset Z
}.

Definition newHub : hub := mkHub 0 ∅ ∅.

Definition newWatcher : watcher := mkWatcher [] false [] false false.

(** [errors] has one slot: a second send would block. *)
Definition send_error (err : option error) (w : watcher) : outcome watcher :=
  match err with
  | None => Ret w
  | Some e =>
      if w_errorsClosed w then Panic "send on closed channel"
      else if (length (w_errors w) <? 1)%nat
      then Ret (mkWatcher (w_events w) (w_eventsClosed w) (w_errors w ++ [e]) (w_errorsClosed w)
                  (w_closed w))
      else Block
  end.

Definition close_events (w : watcher) : outcome watcher :=
  if w_eventsClosed w then Panic "close of closed channel"
  else Ret (mkWatcher (w_events w) true (w_errors w) (w_errorsClosed w) (w_closed w)).

Definition close_errors (w : watcher) : outcome watcher :=
  if w_errorsClosed w then Panic "close of closed channel"
  else Ret (mkWatcher (w_events w) (w_eventsClosed w) (w_errors w) true (w_closed w)).

Definition closeWatcherLocked (id : Z) (err : option error) (h : hub) : outcome hub :=
  match h_store h !! id with
  | None => Panic "nil pointer dereference"
  | Some w =>
      if w_closed w then Ret h
      else
        let w := mkWatcher (w_events w) (w_eventsClosed w) (w_errors w) (w_errorsClosed w) true in
        w ← send_error err w;
        w ← close_events w;
        w ← close_errors w;
        Ret (mkHub (h_next h) (<[id:=w]> (h_store h)) (h_live h ∖ {[id]}))
  end.

(** The body of the loop of [publishLocked]: a non-blocking send. *)
Definition deliver (cap : nat) (lagged : error) (ev : E) (terminal : bool) (id : Z) (h : hub) :
    outcome hub :=
  match h_store h !! id with
  | None => Panic "nil pointer dereference"
  | Some w =>
      if w_eventsClosed w then Panic "send on closed channel"
      else if (length (w_events w) <? cap)%nat then
        let w := mkWatcher (w_events w ++ [ev]) (w_eventsClosed w) (w_errors w)
                   (w_errorsClosed w) (w_closed w) in
        let h := mkHub (h_next h) (<[id:=w]> (h_store h)) (h_live h) in
        if terminal then closeWatcherLocked id None h else Ret h
      else closeWatcherLocked id (Some lagged) h
  end.

Fixpoint publish_loop (cap : nat) (lagged : error) (ev : E) (terminal : bool) (order : list Z)
    (h : hub) : outcome hub :=
  match order with
  | [] => Ret h
  | id :: order => h ← deliver cap lagged ev terminal id h;
                   publish_loop cap lagged ev terminal order h
  end.

(** [for id, watcher := range watchers { closeWatcherLocked(id, watcher, nil) }] *)
Fixpoint close_loop (order : list Z) (h : hub) : outcome hub :=
  match order with
  | [] => Ret h
  | id :: order => h ← closeWatcherLocked id None h; close_loop order h
  end.

(** The registration of [subscribe] in a state that is not terminal. *)
Definition hub_subscribe (h : hub) : Z * hub :=
  let id := u64 (h_next h + 1) in
  (id, mkHub id (<[id:=newWatcher]> (h_store h)) ({[id]} ∪ h_live h)).

Definition hub_unsubscribe (id : Z) (h : hub) : outcome hub :=
  if decide (id ∈ h_live h) then closeWatcherLocked id None h else Ret h.

(** A consumer's receive from the event channel of watcher [id]: a queued
    event, or the zero value once the channel is closed and drained. *)
Definition hub_receive (id : Z) (h : hub) : outcome (option E * hub) :=
  match h_store h !! id with
  | None => Panic "nil pointer dereference"
  | Some w =>
      match w_events w with
      | ev :: rest =>
          let w := mkWatcher rest (w_eventsClosed w) (w_errors w) (w_errorsClosed w)
                     (w_closed w) in
          Ret (Some ev, mkHub (h_next h) (<[id:=w]> (h_store h)) (h_live h))
      | [] => if w_eventsClosed w then Ret (None, h) else Block
      end
  end.

(** ** Invariant *)

Definition watcher_ok (cap : nat) (live : bool) (w : watcher) : Prop :=
  (length (w_events w) ≤ cap)%nat ∧
  w_closed w = negb live ∧ w_eventsClosed w = negb live ∧ w_errorsClosed w = negb live ∧
  (live = true → w_errors w = []) ∧ (length (w_errors w) ≤ 1)%nat.

Record hub_ok (cap : nat) (h : hub) : Prop := {
  ho_store : ∀ id w, h_store h !! id = Some w →
    (0 < id ≤ h_next h)%Z ∧ watcher_ok cap (bool_decide (id ∈ h_live h)) w;
  ho_live : ∀ id, id ∈ h_live h → is_Some (h_store h !! id);
  ho_next : (0 ≤ h_next h < 2 ^ 64)%Z
}.

(** What a publication does to one watcher. *)
Definition closed_with (err : option error) (w : watcher) : watcher :=
  mkWatcher (w_events w) true (w_errors w ++ option_list err) true true.

Definition delivered (cap : nat) (lagged : error) (ev : E) (terminal : bool) (w : watcher) : watcher :=
  if (length (w_events w) <? cap)%nat then
    let w := mkWatcher (w_events w ++ [ev]) (w_eventsClosed w) (w_errors w) (w_errorsClosed w)
               (w_closed w) in
    if terminal then closed_with None w else w
  else closed_with (Some lagged) w.

Definition stays (cap : nat) (terminal : bool) (w : watcher) : bool :=
  (length (w_events w) <? cap)%nat && negb terminal.

(** ** One watcher *)

Lemma closeWatcherLocked_live cap h id w err :
  h_store h !! id = Some w → watcher_ok cap true w →
  closeWatcherLocked id err h =
    Ret (mkHub (h_next h) (<[id:=closed_with err w]> (h_store h)) (h_live h ∖ {[id]})).
Proof.
  intros Hw (Hlen & Hc & He & Her & Hnil & _). unfold closeWatcherLocked. rewrite Hw, Hc. simpl.
  unfold closed_with, send_error, close_events, close_errors. specialize (Hnil eq_refl).
  destruct w as [evs ec errs erc c]; simpl in *; subst. by destruct err.
Qed.

Lemma closed_with_ok cap err w :
  watcher_ok cap true w → watcher_ok cap false (closed_with err w).
Proof.
  intros (Hlen & Hc & He & Her & Hnil & Hl1). unfold closed_with.
  repeat split; simpl; try done. rewrite (Hnil eq_refl). destruct err; simpl; lia.
Qed.

Lemma delivered_ok cap lagged ev terminal w :
  watcher_ok cap true w →
  watcher_ok cap (stays cap terminal w) (delivered cap lagged ev terminal w).
Proof.
  intros Hok. pose proof Hok as (Hlen & Hc & He & Her & Hnil & Hl1).
  unfold delivered, stays. destruct (Nat.ltb_spec (length (w_events w)) cap); simpl.
  - assert (watcher_ok cap true (mkWatcher (w_events w ++ [ev]) (w_eventsClosed w) (w_errors w)
      (w_errorsClosed w) (w_closed w))) as Hok'.
    { repeat split; simpl; try done. rewrite length_app. simpl. lia. }
    destruct terminal; simpl; [by apply closed_with_ok|done].
  - by apply closed_with_ok.
Qed.

Lemma deliver_live cap lagged ev terminal h id w :
  h_store h !! id = Some w → watcher_ok cap true w →
  deliver cap lagged ev terminal id h =
    Ret (mkHub (h_next h) (<[id:=delivered cap lagged ev terminal w]> (h_store h))
           (if stays cap terminal w then h_live h else h_live h ∖ {[id]})).
Proof.
  intros Hw Hok. pose proof Hok as (Hlen & Hc & He & Her & Hnil & Hl1).
  unfold deliver, delivered, stays. rewrite Hw, He. simpl.
  destruct (Nat.ltb_spec (length (w_events w)) cap); simpl.
  - destruct terminal; simpl; [|done].
    rewrite (closeWatcherLocked_live cap _ _ (mkWatcher (w_events w ++ [ev]) false
      (w_errors w) (w_errorsClosed w) (w_closed w))).
    + simpl. by rewrite insert_insert_eq.
    + simpl. by rewrite lookup_insert_eq.
    + repeat split; simpl; try done. rewrite length_app. simpl. lia.
  - by rewrite (closeWatcherLocked_live cap _ _ w).
Qed.

(** ** Publication to all watchers *)

(** The hub after a publication, watcher by watcher. *)
Record published (cap : nat) (lagged : error) (ev : E) (terminal : bool) (ids : gset Z)
    (h h' : hub) : Prop := {
  pb_next : h_next h' = h_next h;
  pb_store : ∀ id, h_store h' !! id =
    (if bool_decide (id ∈ ids) then delivered cap lagged ev terminal <$> h_store h !! id
     else h_store h !! id);
  pb_live : ∀ id, id ∈ h_live h' ↔
    id ∈ h_live h ∧ (id ∈ ids → ∃ w, h_store h !! id = Some w ∧ stays cap terminal w = true)
}.

Lemma published_unique cap lagged ev terminal ids h h1 h2 :
  published cap lagged ev terminal ids h h1 → published cap lagged ev terminal ids h h2 → h1 = h2.
Proof.
  intros [N1 S1 L1] [N2 S2 L2]. destruct h1 as [n1 s1 l1], h2 as [n2 s2 l2]; simpl in *.
  assert (s1 = s2) as -> by (apply map_eq; intros id; by rewrite S1, S2).
  assert (l1 = l2) as -> by (apply set_eq; intros id; by rewrite L1, L2). congruence.
Qed.

Lemma publish_loop_published cap lagged ev terminal order h :
  NoDup order →
  (∀ id, id ∈ order → ∃ w, h_store h !! id = Some w ∧ watcher_ok cap true w) →
  ∃ h', publish_loop cap lagged ev terminal order h = Ret h' ∧
        published cap lagged ev terminal (list_to_set order) h h'.
Proof.
  revert h. induction order as [|id order IH]; intros h Hnd Hok; simpl.
  - exists h. split; [done|]. split; [done| |]; intros id.
    + by rewrite bool_decide_eq_false_2 by set_solver.
    + set_solver.
  - apply NoDup_cons in Hnd as [Hnin Hnd].
    destruct (Hok id) as (w & Hw & Hwok); [set_solver|].
    rewrite (deliver_live cap _ _ _ _ _ w) by done. cbn.
    destruct (IH (mkHub (h_next h) (<[id:=delivered cap lagged ev terminal w]> (h_store h))
      (if stays cap terminal w then h_live h else h_live h ∖ {[id]})) Hnd) as (h' & -> & [PN PS PL]).
    { intros id' Hin. destruct (decide (id' = id)) as [->|]; [done|].
      destruct (Hok id') as (w' & Hw' & ?); [set_solver|]. exists w'. simpl.
      by rewrite lookup_insert_ne by done. }
    exists h'. split; [done|]. split; [done| |]; intros id'; simpl in *.
    + rewrite PS. destruct (decide (id' = id)) as [->|Hne].
      * rewrite bool_decide_eq_false_2 by set_solver. rewrite bool_decide_eq_true_2 by set_solver.
        rewrite lookup_insert_eq, Hw. done.
      * rewrite lookup_insert_ne by done.
        rewrite (bool_decide_ext (id' ∈ {[id]} ∪ list_to_set order)
                   (id' ∈ (list_to_set order : gset Z))) by set_solver. done.
    + rewrite PL. destruct (decide (id' = id)) as [->|Hne].
      * clear PL PS. rewrite Hw, elem_of_union, elem_of_singleton, elem_of_list_to_set.
        destruct (stays cap terminal w) eqn:Hs;
          rewrite ?elem_of_difference, ?elem_of_singleton;
          [|split; [tauto|intros [_ H]; destruct H as (? & [= <-] & ?); [by left|congruence]]].
        split; [|tauto]. intros [Hl _]. split; [done|]. intros _. by exists w.
      * rewrite lookup_insert_ne by done.
        rewrite elem_of_union, elem_of_singleton. clear PL PS.
        destruct (stays cap terminal w); rewrite ?elem_of_difference, ?elem_of_singleton; tauto.
Qed.

Lemma hub_ok_live cap h id : hub_ok cap h → id ∈ h_live h →
  ∃ w, h_store h !! id = Some w ∧ watcher_ok cap true w.
Proof.
  intros [Hs Hl _] Hin. destruct (Hl id Hin) as [w Hw]. exists w. split; [done|].
  destruct (Hs id w Hw) as [_ Hok]. by rewrite bool_decide_eq_true_2 in Hok.
Qed.

(** Publishing to the live watchers, in whatever order the map is iterated. *)
Lemma publish_ok cap lagged ev terminal order h :
  hub_ok cap h → order ≡ₚ elements (h_live h) →
  ∃ h', publish_loop cap lagged ev terminal order h = Ret h' ∧
        published cap lagged ev terminal (h_live h) h h' ∧ hub_ok cap h'.
Proof.
  intros Hh Hperm. destruct (publish_loop_published cap lagged ev terminal order h) as (h' & Hl & Hp).
  { rewrite Hperm. apply NoDup_elements. }
  { intros id. rewrite Hperm, elem_of_elements. by apply hub_ok_live. }
  assert (list_to_set order = h_live h) as Heq.
  { apply set_eq. intros id. rewrite elem_of_list_to_set, Hperm. apply elem_of_elements. }
  rewrite Heq in Hp. exists h'. split_and!; [done|done|].
  pose proof Hh as [Hs Hli Hn]. pose proof Hp as [PN PS PL].
  split; [| |by rewrite PN].
  - intros id w Hw. rewrite PS in Hw. rewrite PN. case_bool_decide as Hin.
    + destruct (hub_ok_live cap h id Hh Hin) as (w0 & Hw0 & Hok0). rewrite Hw0 in Hw. simplify_eq/=.
      destruct (Hs _ _ Hw0) as [? _]. split; [done|].
      assert (bool_decide (id ∈ h_live h') = stays cap terminal w0) as ->.
      { apply eq_bool_prop_intro. rewrite bool_decide_spec, PL, Is_true_true. naive_solver. }
      by apply delivered_ok.
    + destruct (Hs _ _ Hw) as [? Hok]. split; [done|].
      rewrite bool_decide_eq_false_2 in Hok by done. rewrite bool_decide_eq_false_2; [done|].
      rewrite PL. naive_solver.
  - intros id [Hin _]%PL. rewrite PS, bool_decide_eq_true_2 by done.
    destruct (Hli id Hin) as [w ->]. by eexists.
Qed.
(** The registration of a watcher. *)
Lemma subscribe_ok cap h id h' :
  hub_ok cap h → (h_next h + 1 < 2 ^ 64)%Z → hub_subscribe h = (id, h') →
  id = (h_next h + 1)%Z ∧ h_store h !! id = None ∧ id ∉ h_live h ∧ hub_ok cap h'.
Proof.
  intros Hh Hb Hsub. pose proof Hh as [Hs Hl Hn]. unfold hub_subscribe in Hsub.
  rewrite u64_small in Hsub by lia. inv Hsub.
  assert (h_store h !! (h_next h + 1)%Z = None) as Hnone.
  { destruct (h_store h !! (h_next h + 1)%Z) as [w|] eqn:Hw; [|done].
    destruct (Hs _ _ Hw). lia. }
  assert (h_next h + 1 ∉ h_live h)%Z as Hnl.
  { intros [w Hw]%Hl. congruence. }
  split_and!; [done..|]. split; simpl; [| |lia].
  - intros i w Hw. destruct (decide (i = (h_next h + 1)%Z)) as [->|Hne].
    + rewrite lookup_insert_eq in Hw. inv Hw. split; [lia|].
      rewrite bool_decide_eq_true_2 by (apply elem_of_union; left; by apply elem_of_singleton).
      repeat split; simpl; try done; lia.
    + rewrite lookup_insert_ne in Hw by done. destruct (Hs _ _ Hw) as [? Hok]. split; [lia|].
      rewrite (bool_decide_ext _ (i ∈ h_live h)); [done|].
      rewrite elem_of_union, elem_of_singleton. tauto.
  - intros i [->%elem_of_singleton|Hin]%elem_of_union; [rewrite lookup_insert_eq; by eexists|].
    destruct (decide (i = (h_next h + 1)%Z)) as [->|Hne]; [done|].
    rewrite lookup_insert_ne by done. by apply Hl.
Qed.

(** Closing one live watcher. *)
Lemma close_live_ok cap h id err :
  hub_ok cap h → id ∈ h_live h →
  ∃ w, h_store h !! id = Some w ∧ watcher_ok cap true w ∧
    let h' := mkHub (h_next h) (<[id:=closed_with err w]> (h_store h)) (h_live h ∖ {[id]}) in
    closeWatcherLocked id err h = Ret h' ∧ hub_ok cap h'.
Proof.
  intros Hh Hin. destruct (hub_ok_live cap h id Hh Hin) as (w & Hw & Hok).
  exists w. split; [done|]. split; [done|]. intros h'. split; [by apply (closeWatcherLocked_live cap)|].
  subst h'. pose proof Hh as [Hs Hl Hn]. split; simpl; [| |done].
  - intros i v Hv. destruct (decide (i = id)) as [->|Hne].
    + rewrite lookup_insert_eq in Hv. inv Hv. destruct (Hs _ _ Hw). split; [done|].
      rewrite bool_decide_eq_false_2 by (rewrite elem_of_difference, elem_of_singleton; tauto).
      by apply closed_with_ok.
    + rewrite lookup_insert_ne in Hv by done. destruct (Hs _ _ Hv) as [? Hvok]. split; [done|].
      rewrite (bool_decide_ext _ (i ∈ h_live h)); [done|].
      rewrite elem_of_difference, elem_of_singleton. tauto.
  - intros i [Hi Hne]%elem_of_difference. rewrite elem_of_singleton in Hne.
    rewrite lookup_insert_ne by done. by apply Hl.
Qed.

(** A receive changes only the queue of its watcher. *)
Lemma receive_ok cap h id ev h' :
  hub_ok cap h → hub_receive id h = Ret (ev, h') → hub_ok cap h'.
Proof.
  intros Hh Hr. pose proof Hh as [Hs Hl Hn]. unfold hub_receive in Hr.
  destruct (h_store h !! id) as [w|] eqn:Hw; [|done].
  destruct (w_events w) as [|e rest] eqn:He.
  - destruct (w_eventsClosed w); [by inv Hr|done].
  - inv Hr. split; simpl; [| |done].
    + intros i v Hv. destruct (decide (i = id)) as [->|Hne].
      * rewrite lookup_insert_eq in Hv. inv Hv. destruct (Hs _ _ Hw) as [? (Hlen & Hok)].
        split; [done|]. split; simpl; [|done]. rewrite He in Hlen. simpl in Hlen. lia.
      * rewrite lookup_insert_ne in Hv by done. by apply Hs.
    + intros i Hin. destruct (decide (i = id)) as [->|Hne].
      * rewrite lookup_insert_eq. by eexists.
      * rewrite lookup_insert_ne by done. by apply Hl.
Qed.

(** ** What watchers observe

    The history of a hub: every published event, whether the terminal one was
    published, and for each watcher the length of the history when it
    subscribed, the events it received, and whether it cancelled. *)
Record history := mkHistory {
  hi_log : list E;
  hi_final : bool;
  hi_since : gmap Z nat;
  hi_seen : gmap Z (list E);
  hi_cancelled : gset Z
}.

Definition newHistory : history := mkHistory [] false ∅ ∅ ∅.

Definition hi_publish (ev : E) (terminal : bool) (o : history) : history :=
  mkHistory (hi_log o ++ [ev]) terminal (hi_since o) (hi_seen o) (hi_cancelled o).

Definition hi_subscribe (id : Z) (o : history) : history :=
  mkHistory (hi_log o) (hi_final o) (<[id:=length (hi_log o)]> (hi_since o))
    (<[id:=[]]> (hi_seen o)) (hi_cancelled o).

Definition hi_cancel (live : bool) (id : Z) (o : history) : history :=
  if live then mkHistory (hi_log o) (hi_final o) (hi_since o) (hi_seen o) ({[id]} ∪ hi_cancelled o)
  else o.

Definition hi_receive (id : Z) (ev : option E) (o : history) : history :=
  match ev with
  | None => o
  | Some ev =>
      mkHistory (hi_log o) (hi_final o) (hi_since o)
        (<[id:=default [] (hi_seen o !! id) ++ [ev]]> (hi_seen o)) (hi_cancelled o)
  end.

(** A watcher has received, followed by what is queued for it, a contiguous
    segment of the history that starts at its subscription; the whole rest of
    the history unless it cancelled or lagged. *)
Definition observes (w : watcher) (id : Z) (o : history) : Prop :=
  ∃ n seen, hi_since o !! id = Some n ∧ hi_seen o !! id = Some seen ∧
    (n ≤ length (hi_log o))%nat ∧
    (seen ++ w_events w) `prefix_of` drop n (hi_log o) ∧
    (w_errors w = [] → id ∉ hi_cancelled o → seen ++ w_events w = drop n (hi_log o)).

Record tracks (h : hub) (o : history) : Prop := {
  tk_observes : ∀ id w, h_store h !! id = Some w → observes w id o;
  tk_live : ∀ id, id ∈ h_live h → id ∉ hi_cancelled o;
  tk_open : hi_final o = false → ∀ id w, h_store h !! id = Some w → id ∉ h_live h →
    w_errors w ≠ [] ∨ id ∈ hi_cancelled o;
  tk_final : hi_final o = true → h_live h = ∅
}.

Lemma tracks_publish cap lagged ev terminal h h' o :
  hub_ok cap h → tracks h o → hi_final o = false →
  published cap lagged ev terminal (h_live h) h h' →
  tracks h' (hi_publish ev terminal o).
Proof.
  intros Hh [Ho Hlv Hop _] Hfin [PN PS PL]. split; simpl.
  - intros id w Hw. rewrite PS in Hw. case_bool_decide as Hin.
    + destruct (hub_ok_live cap h id Hh Hin) as (w0 & Hw0 & (_ & _ & _ & _ & Hnil & _)).
      rewrite Hw0 in Hw. simpl in Hw. inv Hw. specialize (Hnil eq_refl).
      destruct (Ho _ _ Hw0) as (n & seen & Hn & Hseen & Hle & Hpre & Hall).
      specialize (Hall Hnil (Hlv _ Hin)). exists n, seen. simpl. split_and!; try done.
      * rewrite length_app. simpl. lia.
      * rewrite drop_app_le by done. unfold delivered. repeat case_match; simpl;
          rewrite ?app_assoc, ?Hall; [done..|by apply prefix_app_r].
      * rewrite drop_app_le by done. unfold delivered. repeat case_match; simpl;
          rewrite ?app_assoc, ?Hall, ?Hnil; done.
    + destruct (Ho _ _ Hw) as (n & seen & Hn & Hseen & Hle & Hpre & Hall).
      exists n, seen. simpl. split_and!; try done.
      * rewrite length_app. simpl. lia.
      * rewrite drop_app_le by done. by apply prefix_app_r.
      * intros Hnil Hnc. by destruct (Hop Hfin id w Hw Hin).
  - intros id [Hin _]%PL. by apply Hlv.
  - intros -> id w Hw Hnl. rewrite PS in Hw. case_bool_decide as Hin.
    + destruct (hub_ok_live cap h id Hh Hin) as (w0 & Hw0 & _). rewrite Hw0 in Hw. simpl in Hw. inv Hw.
      left. unfold delivered. destruct (Nat.ltb_spec (length (w_events w0)) cap) as [Hlt|Hge]; simpl.
      * destruct Hnl. apply PL. split; [done|]. intros _. exists w0. split; [done|].
        unfold stays. rewrite andb_true_r. by apply Nat.ltb_lt.
      * by destruct (w_errors w0).
    + by apply (Hop Hfin).
  - intros ->. apply set_eq. intros id. rewrite PL. split; [|set_solver].
    intros [Hin Hst]. destruct (Hst Hin) as (w & _ & Hs). unfold stays in Hs.
    by rewrite andb_false_r in Hs.
Qed.

Lemma tracks_subscribe cap h h' id o :
  hub_ok cap h → (h_next h + 1 < 2 ^ 64)%Z → tracks h o → hi_final o = false →
  id ∉ hi_cancelled o → hub_subscribe h = (id, h') → tracks h' (hi_subscribe id o).
Proof.
  intros Hh Hb [Ho Hlv Hop _] Hfin Hnc Hsub.
  destruct (subscribe_ok cap h id h' Hh Hb Hsub) as (Hid & Hnone & Hnl & _).
  unfold hub_subscribe in Hsub. rewrite u64_small in Hsub by (destruct Hh; lia). inv Hsub.
  split; simpl; [| | |by rewrite Hfin].
  - intros i w Hw. destruct (decide (i = (h_next h + 1)%Z)) as [->|Hne].
    + rewrite lookup_insert_eq in Hw. inv Hw. exists (length (hi_log o)), []. simpl.
      rewrite !lookup_insert_eq, drop_ge by done. split_and!; done.
    + rewrite lookup_insert_ne in Hw by done. unfold observes. simpl.
      rewrite !lookup_insert_ne by done. by apply (Ho _ _ Hw).
  - intros i [->%elem_of_singleton|Hin]%elem_of_union; [done|by apply Hlv].
  - intros _ i w Hw Hni. destruct (decide (i = (h_next h + 1)%Z)) as [->|Hne].
    + destruct Hni. set_solver.
    + rewrite lookup_insert_ne in Hw by done. apply (Hop Hfin i w Hw). set_solver.
Qed.

Lemma tracks_cancel cap h h' id o :
  hub_ok cap h → tracks h o → hub_unsubscribe id h = Ret h' →
  tracks h' (hi_cancel (bool_decide (id ∈ h_live h)) id o).
Proof.
  intros Hh Ht Hu. pose proof Ht as [Ho Hlv Hop Hfi]. unfold hub_unsubscribe in Hu.
  case_decide as Hin; [rewrite bool_decide_eq_true_2 by done|
                       rewrite bool_decide_eq_false_2 by done; by inv Hu].
  destruct (close_live_ok cap h id None Hh Hin) as (w & Hw & Hok & Hc & _). rewrite Hc in Hu. inv Hu.
  split; simpl.
  - intros i v Hv. destruct (decide (i = id)) as [->|Hne].
    + rewrite lookup_insert_eq in Hv. inv Hv. destruct (Ho _ _ Hw) as (n & seen & ? & ? & ? & ? & _).
      exists n, seen. simpl. split_and!; try done. intros _ []. set_solver.
    + rewrite lookup_insert_ne in Hv by done. destruct (Ho _ _ Hv) as (n & seen & ? & ? & ? & ? & Hall).
      exists n, seen. simpl. split_and!; try done. intros Hnil Hnc. apply Hall; [done|set_solver].
  - intros i [Hi Hne]%elem_of_difference. rewrite elem_of_singleton in Hne.
    pose proof (Hlv i Hi). set_solver.
  - intros Hfin i v Hv Hni. destruct (decide (i = id)) as [->|Hne]; [right; set_solver|].
    rewrite lookup_insert_ne in Hv by done.
    destruct (Hop Hfin i v Hv) as [?|?]; [set_solver|by left|right; set_solver].
  - intros Hfin. rewrite (Hfi Hfin) in Hin. set_solver.
Qed.

Lemma tracks_receive h h' id ev o :
  tracks h o → hub_receive id h = Ret (ev, h') → tracks h' (hi_receive id ev o).
Proof.
  intros Ht Hr. pose proof Ht as [Ho Hlv Hop Hfi]. unfold hub_receive in Hr.
  destruct (h_store h !! id) as [w|] eqn:Hw; [|done].
  destruct (w_events w) as [|e rest] eqn:He.
  { destruct (w_eventsClosed w); [by inv Hr|done]. }
  inv Hr. destruct (Ho _ _ Hw) as (n & seen & Hn & Hs & Hle & Hpre & Hall).
  rewrite He in Hpre, Hall. split; simpl; [| | |done].
  - intros i v Hv. destruct (decide (i = id)) as [->|Hne].
    + rewrite lookup_insert_eq in Hv. inv Hv. exists n, (seen ++ [e]). simpl.
      rewrite lookup_insert_eq, Hs. simpl. rewrite <- app_assoc. split_and!; done.
    + rewrite lookup_insert_ne in Hv by done. unfold observes. simpl.
      rewrite lookup_insert_ne by done. by apply (Ho _ _ Hv).
  - done.
  - intros Hfin i v Hv Hni. destruct (decide (i = id)) as [->|Hne].
    + rewrite lookup_insert_eq in Hv. inv Hv. simpl. by apply (Hop Hfin id w).
    + rewrite lookup_insert_ne in Hv by done. by apply (Hop Hfin i v).
Qed.
(** ** Numbered event streams

    The part of a publisher's state that the hub serves: the sequence number,
    the last event, whether the terminal event was published, and the hub.  [n]
    bounds the operations performed. *)
Record stream_inv (cap : nat) (number : E → Z) (n : Z) (fin : bool) (sequence : Z) (last_event : option E)
    (h : hub) (o : history) : Prop := {
  si_hub : hub_ok cap h;
  si_tracks : tracks h o;
  si_sequence : sequence = Z.of_nat (length (hi_log o));
  si_bound : (Z.of_nat (length (hi_log o)) ≤ n + 1)%Z;
  si_last : last_event = last (hi_log o);
  si_numbers : ∀ i ev, hi_log o !! i = Some ev → number ev = Z.of_nat (S i);
  si_final : hi_final o = fin;
  si_next : (h_next h ≤ n)%Z;
  si_cancelled : ∀ id, id ∈ hi_cancelled o → (id ≤ h_next h)%Z
}.

Section stream.
Context (cap : nat) (number : E → Z) (lagged : error).

Lemma stream_weaken n m fin sq le h o :
  (n ≤ m)%Z → stream_inv cap number n fin sq le h o → stream_inv cap number m fin sq le h o.
Proof. intros Hnm []. split; try done; lia. Qed.

Lemma stream_publish n sq le h o order ev t :
  stream_inv cap number n false sq le h o → order ≡ₚ elements (h_live h) → number ev = (sq + 1)%Z →
  ∃ h', publish_loop cap lagged ev t order h = Ret h' ∧
        stream_inv cap number (n + 1) t (sq + 1)%Z (Some ev) h' (hi_publish ev t o).
Proof.
  intros [Hh Ht Hs Hb Hl Hn Hf Hx Hc] Ho Hnum.
  destruct (publish_ok cap lagged ev t order h Hh Ho) as (h' & Hp & Hpub & Hh').
  exists h'. split; [done|]. pose proof Hpub as [PN _ _]. split; simpl; try done.
  - by apply (tracks_publish cap lagged ev t h).
  - rewrite Hs, length_app. simpl. lia.
  - rewrite length_app. simpl. lia.
  - by rewrite last_snoc.
  - intros i e [Hi|[-> ->]]%lookup_app_Some_or_last; [by apply Hn|]. rewrite Hnum, Hs. lia.
  - rewrite PN. lia.
  - rewrite PN. done.
Qed.

Lemma stream_subscribe n sq le h o id h' :
  stream_inv cap number n false sq le h o → (n + 1 < 2 ^ 64)%Z → hub_subscribe h = (id, h') →
  stream_inv cap number (n + 1) false sq le h' (hi_subscribe id o).
Proof.
  intros [Hh Ht Hs Hb Hl Hn Hf Hx Hc] Hlt Hsub.
  destruct (subscribe_ok cap h id h' Hh ltac:(lia) Hsub) as (Hid & _ & _ & Hh').
  assert (h_next h' = id) as Hnx by (unfold hub_subscribe in Hsub; by inv Hsub).
  assert (id ∉ hi_cancelled o) as Hnc by (intros Hin%Hc; lia).
  split; simpl; try done.
  - apply (tracks_subscribe cap h); try done. lia.
  - lia.
  - lia.
  - intros i Hi%Hc. lia.
Qed.

Lemma stream_unsubscribe n fin sq le h o id :
  stream_inv cap number n fin sq le h o →
  ∃ h', hub_unsubscribe id h = Ret h' ∧
        stream_inv cap number n fin sq le h' (hi_cancel (bool_decide (id ∈ h_live h)) id o).
Proof.
  intros [Hh Ht Hs Hb Hl Hn Hf Hx Hc].
  destruct (decide (id ∈ h_live h)) as [Hin|Hnin].
  - destruct (close_live_ok cap h id None Hh Hin) as (v & Hv & _ & Hcl & Hh').
    assert (hub_unsubscribe id h = closeWatcherLocked id None h) as Heq
      by (unfold hub_unsubscribe; by rewrite decide_True).
    eexists. split; [by rewrite Heq, Hcl|].
    pose proof (tracks_cancel cap h _ id o Hh Ht (eq_trans Heq Hcl)) as Ht'.
    rewrite bool_decide_eq_true_2 in * by done. split; simpl; try done.
    intros i [->%elem_of_singleton|Hi]%elem_of_union; [|by apply Hc].
    by apply (ho_store _ _ Hh _ _ Hv).
  - exists h. unfold hub_unsubscribe. rewrite decide_False by done. split; [done|].
    rewrite bool_decide_eq_false_2 by done. done.
Qed.

Lemma stream_receive n fin sq le h o id ev h' :
  stream_inv cap number n fin sq le h o → hub_receive id h = Ret (ev, h') →
  stream_inv cap number n fin sq le h' (hi_receive id ev o).
Proof.
  intros [Hh Ht Hs Hb Hl Hn Hf Hx Hc] Hr.
  pose proof (receive_ok _ _ _ _ _ Hh Hr) as Hh'. pose proof (tracks_receive _ _ _ _ _ Ht Hr) as Ht'.
  assert (h_next h' = h_next h) as Hhn.
  { unfold hub_receive in Hr. destruct (h_store h !! id) as [w|]; [|done].
    destruct (w_events w); [destruct (w_eventsClosed w); [|done]|]; by inv Hr. }
  destruct ev; split; simpl; rewrite ?Hhn; done.
Qed.

Lemma receive_safe h id : is_Some (h_store h !! id) → safe (hub_receive id h).
Proof.
  intros [w Hw] m. unfold hub_receive. rewrite Hw.
  destruct (w_events w); [by destruct (w_eventsClosed w)|done].
Qed.
End stream.
End watchers.

Arguments watcher : clear implicits.
Arguments hub : clear implicits.
Arguments history : clear implicits.

(** ** Properties *)

(** Publishing an event does not depend on the order in which Go iterates
    the watcher map, never panics and never blocks, whatever the watchers'
    queues hold: a watcher with room gets the event queued last, a full one is
    dropped with the lag error, and a terminal event closes every watcher. *)
Theorem publish_order_irrelevant {E : Type} (cap : nat) (lagged : error) (ev : E) (terminal : bool)
    (order1 order2 : list Z) (h : hub E) :
  hub_ok cap h → order1 ≡ₚ elements (h_live h) → order2 ≡ₚ elements (h_live h) →
  publish_loop cap lagged ev terminal order1 h = publish_loop cap lagged ev terminal order2 h ∧
  ∃ h', publish_loop cap lagged ev terminal order1 h = Ret h' ∧ hub_ok cap h' ∧
    ∀ id w, h_store h !! id = Some w → id ∈ h_live h →
      h_store h' !! id = Some (delivered cap lagged ev terminal w) ∧
      (id ∈ h_live h' ↔ (length (w_events w) < cap)%nat ∧ terminal = false).
Proof.
  intros Hh H1 H2.
  destruct (publish_ok cap lagged ev terminal order1 h Hh H1) as (h1 & E1 & P1 & Hh1).
  destruct (publish_ok cap lagged ev terminal order2 h Hh H2) as (h2 & E2 & P2 & _).
  rewrite E1, E2, (published_unique _ _ _ _ _ _ _ _ P1 P2). split; [done|].
  rewrite <- (published_unique _ _ _ _ _ _ _ _ P1 P2). exists h1. split; [done|]. split; [done|].
  intros id w Hw Hin. destruct P1 as [_ PS PL]. split.
  - by rewrite PS, bool_decide_eq_true_2, Hw by done.
  - rewrite PL. unfold stays. split.
    + intros [_ Hst]. destruct (Hst Hin) as (w' & Hw' & Hs). simplify_eq.
      apply andb_true_iff in Hs as [Hlt Ht]. by bools.
    + intros [Hlt ->]. split; [done|]. intros _. exists w. split; [done|].
      rewrite andb_true_r. by apply Nat.ltb_lt.
Qed.

(** Two watchers, one of them full. *)
Definition sample_hub : hub nat :=
  mkHub 2 {[1%Z := mkWatcher [7%nat] false [] false false; 2%Z := newWatcher]} {[1%Z; 2%Z]}.

Lemma publish_order_irrelevant_witness :
  publish_loop 1 (ESentinel ExecErrWatcherLagged) 8%nat false [1%Z; 2%Z] sample_hub =
  publish_loop 1 (ESentinel ExecErrWatcherLagged) 8%nat false [2%Z; 1%Z] sample_hub.
Proof.
  apply (publish_order_irrelevant 1 (ESentinel ExecErrWatcherLagged) 8%nat false [1%Z; 2%Z] [2%Z; 1%Z]
    sample_hub).
  - split; simpl.
    + intros id w Hw. apply lookup_insert_Some in Hw as [[<- <-]|[Hne Hw]].
      * split; [lia|]. repeat split; simpl; lia.
      * apply lookup_singleton_Some in Hw as [<- <-]. split; [lia|]. repeat split; simpl; lia.
    + intros id Hin. assert (id = 1%Z ∨ id = 2%Z) as [->| ->] by set_solver; by eexists.
    + lia.
  - vm_compute. apply perm_swap.
  - vm_compute. reflexivity.
Defined.
