(* ===== verification/Parameters.v ===== *)
(** * Execution parameters

    [internal/exec/parameters.go].  Parameters are Go containers that callers
    can mutate after the call, so the model keeps a heap of slices and maps and
    the references between them: [Clone] allocates, and its theorem is about
    what a later mutation of the caller's containers can change. *)

From S2P Require Import Prelude.

(** A dynamic value: an opaque non-container, a [[]any] or a [map[string]any],
    either of which may be nil. *)
Inductive value :=
| VAtom (representation : string)
| VSlice (loc : option nat)
| VMap (loc : option nat).

(** A slice's elements or a map's entries, in the order the map is iterated. *)
Inductive cell :=
| CSlice (elements : list value)
| CMap (entries : list (string * value)).

Record heap := mkHeap { cells : gmap nat cell; next_loc : nat }.

Definition reserve (h : heap) : nat * heap := (next_loc h, mkHeap (cells h) (S (next_loc h))).
Definition write (l : nat) (c : cell) (h : heap) : heap := mkHeap (<[l:=c]> (cells h)) (next_loc h).

(** The element loops: [f] clones one element. *)
Fixpoint clone_elements (f : value → heap → option (value * heap)) (vs : list value) (h : heap) :
    option (list value * heap) :=
  match vs with
  | [] => Some ([], h)
  | v :: vs =>
      '(v, h) ← f v h;
      '(vs, h) ← clone_elements f vs h;
      Some (v :: vs, h)
  end.

Fixpoint clone_entries (f : value → heap → option (value * heap)) (kvs : list (string * value))
    (h : heap) : option (list (string * value) * heap) :=
  match kvs with
  | [] => Some ([], h)
  | (k, v) :: kvs =>
      '(v, h) ← f v h;
      '(kvs, h) ← clone_entries f kvs h;
      Some ((k, v) :: kvs, h)
  end.

(** [Parameters.Clone], given the clone of one value; nil stays nil.  The
    result container is allocated before its elements are cloned and is not
    visible to anyone else until it is complete. *)
Definition Clone (f : value → heap → option (value * heap)) (p : option nat) (h : heap) :
    option (option nat * heap) :=
  match p with
  | None => Some (None, h)
  | Some l =>
      match cells h !! l with
      | Some (CMap kvs) =>
          let '(l', h) := reserve h in
          '(kvs, h) ← clone_entries f kvs h;
          Some (Some l', write l' (CMap kvs) h)
      | _ => None
      end
  end.

(** [Parameters.cloneValue]; [None] is a recursion that does not end within
    [fuel] calls (a cyclic container) or a dangling reference. *)
Fixpoint cloneValue (fuel : nat) (v : value) (h : heap) : option (value * heap) :=
  match fuel with
  | O => None
  | S fuel =>
      match v with
      | VSlice None =>
          let '(l', h) := reserve h in Some (VSlice (Some l'), write l' (CSlice []) h)
      | VSlice (Some l) =>
          match cells h !! l with
          | Some (CSlice vs) =>
              let '(l', h) := reserve h in
              '(vs, h) ← clone_elements (cloneValue fuel) vs h;
              Some (VSlice (Some l'), write l' (CSlice vs) h)
          | _ => None
          end
      | VMap p => '(p, h) ← Clone (cloneValue fuel) p h; Some (VMap p, h)
      | VAtom a => Some (VAtom a, h)
      end
  end.

(** ** Contents of a value *)

Inductive tree :=
| TAtom (representation : string)
| TSlice (elements : list tree)
| TMap (entries : option (list (string * tree))).

(** The contents of [v] in [h], read to depth [fuel]; a nil slice has the
    contents of an empty one. *)
Fixpoint contents (fuel : nat) (h : gmap nat cell) (v : value) : option tree :=
  match fuel with
  | O => None
  | S fuel =>
      match v with
      | VAtom a => Some (TAtom a)
      | VSlice None => Some (TSlice [])
      | VSlice (Some l) =>
          match h !! l with
          | Some (CSlice vs) => TSlice <$> mapM (contents fuel h) vs
          | _ => None
          end
      | VMap None => Some (TMap None)
      | VMap (Some l) =>
          match h !! l with
          | Some (CMap kvs) =>
              TMap ∘ Some <$> mapM (λ kv : string * value, pair kv.1 <$> contents fuel h kv.2) kvs
          | _ => None
          end
      end
  end.

Definition heap_wf (h : heap) : Prop := ∀ l c, cells h !! l = Some c → (l < next_loc h)%nat.

(** ** Lemmas *)

Lemma contents_mono fuel h h' v t :
  h ⊆ h' → contents fuel h v = Some t → contents fuel h' v = Some t.
Proof.
  intros Hsub. revert v t. induction fuel as [|fuel IH]; intros v t H; [done|].
  destruct v as [a|[l|]|[l|]]; simpl in *; try done.
  - destruct (h !! l) as [[vs|]|] eqn:Hl; try done. rewrite (lookup_weaken _ _ _ _ Hl Hsub).
    destruct (mapM (contents fuel h) vs) as [ts|] eqn:Hm; [|done].
    apply mapM_Some in Hm. erewrite (mapM_Some_2 _ _ ts); [done|].
    eapply Forall2_impl; [exact Hm|]. naive_solver.
  - destruct (h !! l) as [[|kvs]|] eqn:Hl; try done. rewrite (lookup_weaken _ _ _ _ Hl Hsub).
    destruct (mapM _ kvs) as [ts|] eqn:Hm in H; [|done].
    apply mapM_Some in Hm. erewrite (mapM_Some_2 _ _ ts); [done|].
    eapply Forall2_impl; [exact Hm|]. intros [k v] y Hy. simpl in *.
    destruct (contents fuel h v) as [u|] eqn:Hu; [|done]. by rewrite (IH _ _ Hu).
Qed.

(** A clone that ran from [h] to [h'] and returned something whose contents
    depend only on the cells it allocated. *)
Record isolated (h h' : heap) (reads : gmap nat cell → Prop) : Prop := {
  is_wf : heap_wf h';
  is_next : (next_loc h ≤ next_loc h')%nat;
  is_frame : ∀ l, (l < next_loc h)%nat → cells h' !! l = cells h !! l;
  is_reads : ∀ k : gmap nat cell,
    (∀ l, (next_loc h ≤ l < next_loc h')%nat → k !! l = cells h' !! l) → reads k
}.

Lemma isolated_subseteq h h' reads : heap_wf h → isolated h h' reads → cells h ⊆ cells h'.
Proof.
  intros Hwf [_ _ Hf _]. apply map_subseteq_spec. intros l c Hl.
  rewrite Hf; [done|]. by apply (Hwf l c).
Qed.

(** What is proved of the clone of one element. *)
Definition clones (f : value → heap → option (value * heap)) (fuel : nat) : Prop :=
  ∀ v h t, heap_wf h → contents fuel (cells h) v = Some t →
    ∃ v' h', f v h = Some (v', h') ∧ isolated h h' (λ k, contents fuel k v' = Some t).

Lemma isolated_seq h1 h2 h3 (P Q : gmap nat cell → Prop) :
  isolated h1 h2 P → isolated h2 h3 Q → isolated h1 h3 (λ k, P k ∧ Q k).
Proof.
  intros [W1 N1 F1 R1] [W2 N2 F2 R2]. split; [done|lia| |].
  - intros l Hl. rewrite F2 by lia. by apply F1.
  - intros k Hk. split.
    + apply R1. intros l Hl. rewrite Hk by lia. by apply F2; lia.
    + apply R2. intros l Hl. apply Hk. lia.
Qed.

Lemma isolated_refl h : heap_wf h → isolated h h (λ _, True).
Proof. intros Hwf. split; [done|lia|done|done]. Qed.

Lemma isolated_impl h h' (P Q : gmap nat cell → Prop) :
  isolated h h' P → (∀ k, P k → Q k) → isolated h h' Q.
Proof. intros [W N F R] HPQ. split; [done..|]. intros k Hk. by apply HPQ, R. Qed.

(** Filling the reserved container. *)
Lemma isolated_container h h' (P Q : gmap nat cell → Prop) c :
  isolated (reserve h).2 h' P →
  (∀ k, P k → k !! next_loc h = Some c → Q k) →
  isolated h (write (next_loc h) c h') Q.
Proof.
  intros [W N F R] HQ. simpl in *. split; simpl.
  - intros l d. simpl. destruct (decide (l = next_loc h)) as [->|Hne].
    + intros _. lia.
    + rewrite lookup_insert_ne by done. apply W.
  - lia.
  - intros l Hl. rewrite lookup_insert_ne by lia. by apply F; lia.
  - intros k Hk. apply HQ.
    + apply R. intros l Hl. rewrite Hk by lia. by rewrite lookup_insert_ne by lia.
    + rewrite Hk by lia. by rewrite lookup_insert_eq.
Qed.

Lemma reserve_wf h : heap_wf h → heap_wf (reserve h).2.
Proof. intros Hwf l c Hl. simpl in *. specialize (Hwf l c Hl). lia. Qed.

Section elements.
Context (f : value → heap → option (value * heap)) (fuel : nat) (Hf : clones f fuel).

Lemma clone_elements_ok vs h ts :
  heap_wf h → mapM (contents fuel (cells h)) vs = Some ts →
  ∃ vs' h', clone_elements f vs h = Some (vs', h') ∧
            isolated h h' (λ k, mapM (contents fuel k) vs' = Some ts).
Proof using Hf.
  revert h ts. induction vs as [|v vs IH]; intros h ts Hwf Hm; simpl in *.
  - inv Hm. exists [], h. split; [done|]. by eapply isolated_impl; [apply isolated_refl|].
  - destruct (contents fuel (cells h) v) as [t|] eqn:Hv; [|done].
    destruct (mapM _ vs) as [ts'|] eqn:Hvs in Hm; [|done]. simpl in Hm. inv Hm.
    destruct (Hf v h t Hwf Hv) as (v' & h1 & -> & His).
    destruct (IH h1 ts') as (vs' & h2 & Heq & His2); [by apply (is_wf _ _ _ His)| |].
    { apply mapM_Some in Hvs. apply mapM_Some_2. eapply Forall2_impl; [exact Hvs|].
      intros x y. apply contents_mono. by eapply isolated_subseteq. }
    cbn. rewrite Heq. cbn. eexists _, h2. split; [done|].
    eapply isolated_impl; [by eapply isolated_seq|]. intros k [H1 H2]. simpl.
    by rewrite H1, H2.
Qed.

Lemma clone_entries_ok kvs h ts :
  heap_wf h → mapM (λ kv : string * value, pair kv.1 <$> contents fuel (cells h) kv.2) kvs = Some ts →
  ∃ kvs' h', clone_entries f kvs h = Some (kvs', h') ∧
    isolated h h'
      (λ k, mapM (λ kv : string * value, pair kv.1 <$> contents fuel k kv.2) kvs' = Some ts).
Proof using Hf.
  revert h ts. induction kvs as [|[key v] kvs IH]; intros h ts Hwf Hm; simpl in *.
  - inv Hm. exists [], h. split; [done|]. by eapply isolated_impl; [apply isolated_refl|].
  - destruct (contents fuel (cells h) v) as [t|] eqn:Hv; [|done]. simpl in Hm.
    destruct (mapM _ kvs) as [ts'|] eqn:Hvs in Hm; [|done]. simpl in Hm. inv Hm.
    destruct (Hf v h t Hwf Hv) as (v' & h1 & -> & His).
    destruct (IH h1 ts') as (kvs' & h2 & Heq & His2); [by apply (is_wf _ _ _ His)| |].
    { apply mapM_Some in Hvs. apply mapM_Some_2. eapply Forall2_impl; [exact Hvs|].
      intros [k x] y. simpl. destruct (contents fuel (cells h) x) as [u|] eqn:Hu; [|done].
      rewrite (contents_mono _ _ (cells h1) _ _ ltac:(by eapply isolated_subseteq) Hu). done. }
    cbn. rewrite Heq. cbn. eexists _, h2. split; [done|].
    eapply isolated_impl; [by eapply isolated_seq|]. intros k [H1 H2]. simpl.
    by rewrite H1, H2.
Qed.
End elements.

Lemma cloneValue_clones fuel : clones (cloneValue fuel) fuel.
Proof.
  induction fuel as [|fuel IH]; intros v h t Hwf Hc; [done|].
  destruct v as [a|[l|]|[l|]]; simpl in Hc |- *.
  - eexists _, h. split; [done|]. by eapply isolated_impl; [apply isolated_refl|].
  - destruct (cells h !! l) as [[vs|]|] eqn:Hl; try done.
    destruct (mapM _ vs) as [ts|] eqn:Hm in Hc; [|done]. simpl in Hc. inv Hc.
    destruct (clone_elements_ok _ _ IH vs (reserve h).2 ts (reserve_wf _ Hwf) Hm)
      as (vs' & h' & Heq & His).
    simpl in Heq. rewrite Heq. cbn. eexists _, _. split; [done|].
    eapply isolated_container; [exact His|]. intros k Hk Hl'. simpl. by rewrite Hl', Hk.
  - eexists _, _. split; [done|].
    eapply isolated_container; [apply isolated_refl, reserve_wf, Hwf|].
    intros k _ Hl'. simpl. rewrite Hl'. by inv Hc.
  - destruct (cells h !! l) as [[|kvs]|] eqn:Hl; try done.
    destruct (mapM _ kvs) as [ts|] eqn:Hm in Hc; [|done]. simpl in Hc. inv Hc.
    destruct (clone_entries_ok _ _ IH kvs (reserve h).2 ts (reserve_wf _ Hwf) Hm)
      as (kvs' & h' & Heq & His).
    simpl in Heq. rewrite Heq. cbn. eexists _, _. split; [done|].
    eapply isolated_container; [exact His|]. intros k Hk Hl'. simpl. by rewrite Hl', Hk.
  - eexists _, h. split; [done|]. inv Hc. by eapply isolated_impl; [apply isolated_refl|].
Qed.

(** ** Properties *)

(** Cloning parameters whose contents are finite terminates and isolates
    them: the clone has the same contents as the original, and keeps them
    whatever is later written to the containers that existed before the call;
    the original keeps its contents whatever is later written to the clone's
    containers. *)
Theorem Clone_isolates (fuel : nat) (h : heap) (p : option nat) (t : tree) :
  heap_wf h → contents (S fuel) (cells h) (VMap p) = Some t →
  ∃ p' h', Clone (cloneValue fuel) p h = Some (p', h') ∧
    (∀ k : gmap nat cell, (∀ l, (next_loc h ≤ l)%nat → k !! l = cells h' !! l) →
      contents (S fuel) k (VMap p') = Some t) ∧
    (∀ k : gmap nat cell, (∀ l, (l < next_loc h)%nat → k !! l = cells h' !! l) →
      contents (S fuel) k (VMap p) = Some t).
Proof.
  intros Hwf Hc. destruct (cloneValue_clones (S fuel) (VMap p) h t Hwf Hc) as (v' & h' & Hv & His).
  simpl in Hv. destruct (Clone (cloneValue fuel) p h) as [[p' h1]|]; simpl in Hv; [|done].
  inv Hv. exists p', h'. split; [done|]. split.
  - intros k Hk. apply (is_reads _ _ _ His). intros l Hl. apply Hk. lia.
  - intros k Hk. eapply contents_mono; [|exact Hc]. apply map_subseteq_spec. intros l c Hl.
    pose proof (Hwf l c Hl). rewrite Hk by done. by rewrite (is_frame _ _ _ His).
Qed.

(** A map holding a slice and a nested nil slice. *)
Definition sample_heap : heap :=
  mkHeap {[0%nat := CMap [("a", VSlice (Some 1%nat)); ("b", VAtom "1")];
           1%nat := CSlice [VAtom "x"; VSlice None]]} 2.

Lemma Clone_isolates_witness :
  ∃ p' h', Clone (cloneValue 3) (Some 0%nat) sample_heap = Some (p', h') ∧
    ∀ k : gmap nat cell, (∀ l, (2 ≤ l)%nat → k !! l = cells h' !! l) →
      contents 4 k (VMap p') =
        Some (TMap (Some [("a", TSlice [TAtom "x"; TSlice []]); ("b", TAtom "1")])).
Proof.
  destruct (Clone_isolates 3 sample_heap (Some 0%nat)
    (TMap (Some [("a", TSlice [TAtom "x"; TSlice []]); ("b", TAtom "1")])))
    as (p' & h' & Hc & Hk & _).
  - intros l c Hl. unfold sample_heap in Hl. simpl in *.
    destruct l as [|[|l]]; [lia|lia|].
    rewrite lookup_insert_ne, lookup_singleton_ne in Hl by lia. done.
  - vm_compute. reflexivity.
  - exists p', h'. split; [exact Hc|exact Hk].
Defined.
