(* ===== verification/ExecRuntime.v ===== *)
(** * Execution runtimes

    [internal/exec/runtime.go], [runtime_options.go], [runtime_result.go],
    [output.go] and [execution_snapshot.go]: the settings of a run, the one
    runtime session a run owns, and how its failures are classified.  The
    runtime API ([api.Plan], [api.Session]) and the file system are arguments.
    Parameters appear by their contents ([Parameters.Clone_isolates] is what
    makes a retained copy a value). *)

From S2P Require Import Prelude Paths Source Errors Diagnostics Parameters.

(** ** Data *)

Definition params : Type := option (list (string * tree)).

Record RuntimeOptions := mkRuntimeOptions { OutputContentType : string; WorkingDirectory : string }.

Record Output := mkOutput { o_ContentType : string; o_Content : list Z }.

Inductive FailureCategory := FailureSessionCreation | FailureRuntime | FailureCleanup.

Record RuntimeFailure := mkRuntimeFailure { rf_Message : string; rf_Diagnostics : list Diagnostic }.

Record Failure := mkFailure { f_Category : FailureCategory; f_RuntimeFailure : RuntimeFailure }.

Global Instance RuntimeOptions_eq_dec : EqDecision RuntimeOptions.
Proof. solve_decision. Defined.
Global Instance Output_eq_dec : EqDecision Output.
Proof. solve_decision. Defined.
Global Instance FailureCategory_eq_dec : EqDecision FailureCategory.
Proof. solve_decision. Defined.
Global Instance RuntimeFailure_eq_dec : EqDecision RuntimeFailure.
Proof. solve_decision. Defined.

Definition cloneOutput (output : option Output) : option Output :=
  match output with
  | None => None
  | Some o => Some (mkOutput (o_ContentType o) ([] ++ o_Content o))
  end.

Definition RuntimeFailure_Clone (f : option RuntimeFailure) : option RuntimeFailure :=
  match f with
  | None => None
  | Some f => Some (mkRuntimeFailure (rf_Message f) (map Diagnostic_Clone (rf_Diagnostics f)))
  end.

Definition Failure_Clone (f : option Failure) : option Failure :=
  match f with
  | None => None
  | Some f =>
      match RuntimeFailure_Clone (Some (f_RuntimeFailure f)) with
      | Some details => Some (mkFailure (f_Category f) details)
      | None => None
      end
  end.

Lemma cloneOutput_id o : cloneOutput o = o.
Proof. by destruct o as [[]|]. Qed.

Lemma Diagnostic_Clone_id d : Diagnostic_Clone d = d.
Proof. by destruct d. Qed.

Lemma RuntimeFailure_Clone_id f : RuntimeFailure_Clone f = f.
Proof.
  destruct f as [[m ds]|]; [|done]. unfold RuntimeFailure_Clone. simpl. do 2 f_equal.
  induction ds as [|d ds IH]; [done|]. simpl. by rewrite IH, Diagnostic_Clone_id.
Qed.

Lemma Failure_Clone_id f : Failure_Clone f = f.
Proof.
  destruct f as [[c rf]|]; [|done]. unfold Failure_Clone. by rewrite RuntimeFailure_Clone_id.
Qed.

(** ** Options *)

Definition defaultOutputContentType : string := "application/json".

Section options.
Context (EvalSymlinks : string → string + error).
Context (OpenRoot : string → option error).
Context (CloseRoot : string → option error).

Definition normalized (o : RuntimeOptions) : RuntimeOptions + error :=
  let contentType := TrimSpace (OutputContentType o) in
  let contentType :=
    if bool_decide (contentType = "") then defaultOutputContentType else contentType in
  if bool_decide (WorkingDirectory o = "") then
    inl (mkRuntimeOptions contentType (WorkingDirectory o))
  else
    let workingDirectory := TrimSpace (WorkingDirectory o) in
    if bool_decide (workingDirectory = "") then
      inr (wrap_sentinel ExecErrInvalidExecutionOptions "working directory must not be blank")
    else if negb (IsAbs workingDirectory) then
      inr (wrap_sentinel ExecErrInvalidExecutionOptions "working directory must be absolute")
    else
      match EvalSymlinks (Clean workingDirectory) with
      | inr err =>
          inr (wrap_sentinel_cause ExecErrInvalidExecutionOptions "resolve working directory" err)
      | inl canonical =>
          let canonical := Clean canonical in
          match OpenRoot canonical with
          | Some err =>
              inr (wrap_sentinel_cause ExecErrInvalidExecutionOptions "open working directory" err)
          | None =>
              match CloseRoot canonical with
              | Some err =>
                  inr (wrap_sentinel_cause ExecErrInvalidExecutionOptions
                         "close working directory validation handle" err)
              | None => inl (mkRuntimeOptions contentType canonical)
              end
          end
      end.

Record runtimeInput := mkRuntimeInput { in_parameters : params; in_options : RuntimeOptions }.

Definition newRuntimeInput (parameters : params) (options : RuntimeOptions) : runtimeInput + error :=
  match normalized options with
  | inr err => inr err
  | inl normalizedOptions => inl (mkRuntimeInput parameters normalizedOptions)
  end.
End options.

(** ** Runtime *)

Record runtimeTarget {plan : Type} := mkTarget {
  t_sessionID : string;
  t_source : SourceSnapshot;
  t_text : list Z;
  t_fsRoot : string;
  t_plan : plan
}.
Arguments runtimeTarget : clear implicits.

Inductive SessionOption :=
| WithParams (p : params)
| WithOutputContentType (c : string)
| WithFSRoot (root : string).

(** The runtime API: a plan creates sessions, a session runs and closes. *)
Record runtime_api (plan sess : Type) := mkRuntimeApi {
  NewSession : plan → list SessionOption → option sess * option error;
  Session_Run : sess → option Output * option error;
  Session_Close : sess → option error
}.
Arguments NewSession {plan sess} _ _ _.
Arguments Session_Run {plan sess} _ _.
Arguments Session_Close {plan sess} _ _.

Section runtime.
Context {plan sess : Type} (A : runtime_api plan sess).

(** [er_cause] is the cause of the cancelled context; [er_closes] records the
    [Close] calls made on runtime sessions. *)
Record executionRuntime := mkRuntime {
  er_target : runtimeTarget plan;
  er_input : runtimeInput;
  er_cause : option error;
  er_session : option sess;
  er_closeOnce : bool;
  er_closeErr : option error;
  er_closes : list sess
}.

Definition newExecutionRuntime (target : runtimeTarget plan) (input : runtimeInput) : executionRuntime :=
  mkRuntime target input None None false None [].

(** [context.CancelCauseFunc]: the first cause is kept. *)
Definition cancel (cause : error) (r : executionRuntime) : executionRuntime :=
  match er_cause r with
  | Some _ => r
  | None => mkRuntime (er_target r) (er_input r) (Some cause) (er_session r) (er_closeOnce r)
              (er_closeErr r) (er_closes r)
  end.

Definition sessionOptions (r : executionRuntime) : list SessionOption :=
  let options := [WithParams (in_parameters (er_input r));
                  WithOutputContentType (OutputContentType (in_options (er_input r)))] in
  let fsRoot := t_fsRoot (er_target r) in
  let fsRoot :=
    if bool_decide (WorkingDirectory (in_options (er_input r)) = "") then fsRoot
    else WorkingDirectory (in_options (er_input r)) in
  if bool_decide (fsRoot = "") then options else options ++ [WithFSRoot fsRoot].

(** [session.Close()], recorded. *)
Definition close_call (s : sess) (r : executionRuntime) : option error * executionRuntime :=
  (Session_Close A s,
   mkRuntime (er_target r) (er_input r) (er_cause r) (er_session r) (er_closeOnce r)
     (er_closeErr r) (er_closes r ++ [s])).

Definition closeSession (r : executionRuntime) : option error * executionRuntime :=
  if er_closeOnce r then (er_closeErr r, r)
  else
    let '(closeErr, r) :=
      match er_session r with
      | None => (er_closeErr r, r)
      | Some s => close_call s r
      end in
    (closeErr,
     mkRuntime (er_target r) (er_input r) (er_cause r) (er_session r) true closeErr (er_closes r)).

Record runtimeRunResult := mkRunResult {
  rr_output : option Output; rr_err : option error; rr_category : FailureCategory
}.

Definition run (r : executionRuntime) : runtimeRunResult * executionRuntime :=
  let '(session, err) := NewSession A (t_plan (er_target r)) (sessionOptions r) in
  match err with
  | Some err =>
      match session with
      | Some s =>
          let '(closeErr, r) := close_call s r in
          (mkRunResult None (errors_Join [Some err; closeErr]) FailureSessionCreation, r)
      | None => (mkRunResult None (Some err) FailureSessionCreation, r)
      end
  | None =>
      match session with
      | None =>
          (mkRunResult None (Some (ENew "runtime returned no session")) FailureSessionCreation, r)
      | Some s =>
          let r := mkRuntime (er_target r) (er_input r) (er_cause r) (Some s) (er_closeOnce r)
                     (er_closeErr r) (er_closes r) in
          let '(output, runErr) := Session_Run A s in
          let retainedOutput := cloneOutput output in
          let '(closeErr, r) := closeSession r in
          let category :=
            match runErr, closeErr with
            | None, Some _ => FailureCleanup
            | _, _ => FailureRuntime
            end in
          (mkRunResult retainedOutput (errors_Join [runErr; closeErr]) category, r)
      end
  end.

(** A nil error has no failure; the projection of the diagnostics is total on
    texts the mapper accepts. *)
Definition materializeFailure (r : executionRuntime) (err : option error) :
    outcome (option RuntimeFailure) :=
  match err with
  | None => Ret None
  | Some err =>
      diagnostics ← FromError (ss_URI (t_source (er_target r))) (t_text (er_target r)) err;
      Ret (Some (mkRuntimeFailure (error_text err) diagnostics))
  end.

Fixpoint closeSession_times (n : nat) (r : executionRuntime) : executionRuntime :=
  match n with
  | O => r
  | S n => closeSession_times n (closeSession r).2
  end.

(** ** Lemmas *)

Lemma closeSession_again r n : er_closeOnce r = true → closeSession_times n r = r.
Proof. intros H. induction n as [|n IH]; simpl; [done|]. unfold closeSession. by rewrite H. Qed.

Lemma closeSession_after_none r n :
  er_session r = None → er_closes (closeSession_times n r) = er_closes r.
Proof.
  intros Hs. destruct n as [|n]; simpl; [done|]. unfold closeSession.
  destruct (er_closeOnce r) eqn:Ho; simpl; [by rewrite closeSession_again|].
  rewrite Hs. simpl. by rewrite closeSession_again.
Qed.

(** The cases of a run. *)
Lemma run_cases r : er_closeOnce r = false →
  let sess_err := NewSession A (t_plan (er_target r)) (sessionOptions r) in
  let '(res, r') := run r in
  er_target r' = er_target r ∧ er_input r' = er_input r ∧ er_cause r' = er_cause r ∧
  er_closes r' = er_closes r ++ option_list sess_err.1 ∧
  match sess_err with
  | (Some s, None) =>
      er_session r' = Some s ∧ er_closeOnce r' = true ∧ er_closeErr r' = Session_Close A s ∧
      res = mkRunResult (Session_Run A s).1 (errors_Join [(Session_Run A s).2; Session_Close A s])
              (match (Session_Run A s).2, Session_Close A s with
               | None, Some _ => FailureCleanup | _, _ => FailureRuntime end)
  | (s, _) =>
      er_session r' = er_session r ∧ er_closeOnce r' = false ∧
      rr_category res = FailureSessionCreation ∧ rr_err res ≠ None ∧ rr_output res = None
  end.
Proof.
  intros Ho. unfold run. destruct (NewSession A _ _) as [[s|] [err|]] eqn:Hn; simpl;
    rewrite ?app_nil_r; try by split_and!.
  destruct (Session_Run A s) as [out runErr]. unfold closeSession. simpl. rewrite Ho. simpl.
  rewrite cloneOutput_id. by split_and!.
Qed.
End runtime.

Arguments executionRuntime : clear implicits.

(** ** Errors the diagnostics projection accepts *)

(** Diagnostics carried by runtime errors name texts the mapper accepts. *)
Definition small (err : option error) : Prop :=
  match err with
  | None => True
  | Some err => Forall (λ v, Z.of_nat (length (ad_Content v)) < 2 ^ 32)%Z
                  (default [] (errors_AsDiagnostics err))
  end.

Definition small_api {plan sess : Type} (A : runtime_api plan sess) : Prop :=
  (∀ p os, small (NewSession A p os).2) ∧ (∀ s, small (Session_Run A s).2) ∧
  (∀ s, small (Session_Close A s)).

Lemma small_Join a b : small a → small b → small (errors_Join [a; b]).
Proof.
  intros Ha Hb. destruct a as [a|], b as [b|]; unfold small in *; simpl in *; try done;
    repeat match goal with
    | |- context [errors_AsDiagnostics ?e] => destruct (errors_AsDiagnostics e) eqn:?
    end; done.
Qed.

Lemma run_small {plan sess} (A : runtime_api plan sess) r : small_api A → er_closeOnce r = false → small (rr_err (run A r).1).
Proof.
  intros (H1 & H2 & H3) Ho. unfold run. specialize (H1 (t_plan (er_target r)) (sessionOptions r)).
  destruct (NewSession A _ _) as [[s|] [err|]]; simpl in *.
  - by apply (small_Join (Some err)).
  - specialize (H2 s). destruct (Session_Run A s) as [out runErr]. unfold closeSession. simpl.
    rewrite Ho. simpl. by apply small_Join.
  - done.
  - by constructor.
Qed.

Lemma materialize_ok {plan sess} (r : executionRuntime plan sess) err :
  (Z.of_nat (length (t_text (er_target r))) < 2 ^ 32)%Z → small (Some err) →
  ∃ rf, materializeFailure r (Some err) = Ret (Some rf).
Proof.
  intros Ht Hs. unfold materializeFailure, FromError. simpl in Hs.
  destruct (errors_AsDiagnostics err) as [vs|]; simpl in *; [|by eexists].
  assert (∃ ds, mapM (convertAPIDiagnostic (ss_URI (t_source (er_target r))) (t_text (er_target r))) vs
                = Ret ds) as [ds ->]; [|by eexists].
  induction vs as [|v vs IH]; [by exists []|]. apply Forall_cons in Hs as [Hv Hs].
  destruct (convertAPIDiagnostic_ok (ss_URI (t_source (er_target r))) (t_text (er_target r)) v Ht Hv)
    as (d & Hd & _).
  destruct (IH Hs) as [ds Hds]. simpl. rewrite Hd. cbn. unfold mbind in Hds. rewrite Hds.
  by eexists.
Qed.

Lemma materialize_any {plan sess} (r : executionRuntime plan sess) err :
  (Z.of_nat (length (t_text (er_target r))) < 2 ^ 32)%Z → small err →
  ∃ rf, materializeFailure r err = Ret rf.
Proof.
  intros Ht Hs. destruct err as [err|]; [|by exists None].
  destruct (materialize_ok r err Ht Hs) as [rf Hrf]. by exists (Some rf).
Qed.

(** ** Properties *)

(** Normalised runtime options are usable: the content type is never empty
    and has no trailing space, the working directory is empty (only when none
    was given) or a clean absolute path, and every rejection is classified as
    invalid execution options; without a working directory nothing fails. *)
Theorem normalized_spec (EvalSymlinks : string → string + error)
    (OpenRoot CloseRoot : string → option error) (o : RuntimeOptions) :
  (∀ p q, IsAbs p = true → EvalSymlinks p = inl q → IsAbs q = true) →
  match normalized EvalSymlinks OpenRoot CloseRoot o with
  | inl o' =>
      OutputContentType o' ≠ "" ∧ ends_with_space (OutputContentType o') = false ∧
      (WorkingDirectory o' = "" ↔ WorkingDirectory o = "") ∧
      (WorkingDirectory o' ≠ "" → IsAbs (WorkingDirectory o') = true ∧
         Clean (WorkingDirectory o') = WorkingDirectory o' ∧ OpenRoot (WorkingDirectory o') = None)
  | inr err => errors_Is err ExecErrInvalidExecutionOptions = true ∧ WorkingDirectory o ≠ ""
  end.
Proof.
  intros Habs. unfold normalized.
  set (ct := if bool_decide (TrimSpace (OutputContentType o) = "") then _ else _).
  assert (ct ≠ "" ∧ ends_with_space ct = false) as [Hne Hct].
  { subst ct. case_bool_decide; [split; [done|by vm_compute]|]. split; [done|].
    apply TrimSpace_ends. }
  case_bool_decide as Hw; [split_and!; done|].
  case_bool_decide as Hb; [done|].
  destruct (IsAbs (TrimSpace (WorkingDirectory o))) eqn:Ha; simpl; [|done].
  destruct (EvalSymlinks _) as [q|err] eqn:Hq; [|done].
  destruct (OpenRoot (Clean q)) as [err|] eqn:Hopen; [done|].
  destruct (CloseRoot (Clean q)) as [err|] eqn:Hclose; [done|]. simpl.
  assert (IsAbs (Clean q) = true) as Hcq.
  { unfold IsAbs. rewrite rooted_Clean. apply (Habs _ _ ltac:(unfold IsAbs; rewrite rooted_Clean; exact Ha) Hq). }
  pose proof (rooted_nonempty _ Hcq). split_and!; [done|done|done|].
  intros _. split_and!; [done|apply Clean_idempotent|done].
Qed.

Lemma normalized_spec_witness :
  match normalized inl (λ _, None) (λ _, None) (mkRuntimeOptions " text/csv " " /srv/./data/../x ") with
  | inl o' => o' = mkRuntimeOptions "text/csv" "/srv/x" ∧ ends_with_space (OutputContentType o') = false
  | inr _ => False
  end.
Proof.
  pose proof (normalized_spec inl (λ _, None) (λ _, None)
    (mkRuntimeOptions " text/csv " " /srv/./data/../x ")
    ltac:(intros p q Hp [= <-]; exact Hp)) as H.
  vm_compute in H |- *. destruct H as (_ & H & _). split; [reflexivity|exact H].
Defined.

(** A run never leaks and never double-closes a runtime session: however
    often the runtime is closed after the run, the session that [NewSession]
    handed out, also next to an error, is closed exactly once. *)
Theorem run_closes_session_once {plan sess : Type} (A : runtime_api plan sess)
    (target : runtimeTarget plan) (input : runtimeInput) (n : nat) :
  er_closes (closeSession_times A n (run A (newExecutionRuntime target input)).2) =
    option_list (NewSession A (t_plan target) (sessionOptions (newExecutionRuntime (sess:=sess) target input))).1.
Proof.
  pose proof (run_cases A (newExecutionRuntime target input) eq_refl) as H.
  destruct (run A (newExecutionRuntime target input)) as [res r']. simpl in *.
  destruct H as (_ & _ & _ & Hcl & H).
  destruct (NewSession A _ _) as [[s|] [err|]]; simpl in *.
  - destruct H as (Hs & _). by rewrite closeSession_after_none.
  - destruct H as (_ & Ho & _). by rewrite closeSession_again.
  - destruct H as (Hs & _). by rewrite closeSession_after_none.
  - destruct H as (Hs & _). by rewrite closeSession_after_none.
Qed.

(** The result of a run is classified by the phase that failed: creation
    failures (also a missing session) are [FailureSessionCreation] and retain no
    output; otherwise the output is retained, the run fails exactly when running
    or cleaning up failed, and it is [FailureCleanup] exactly when only the
    cleanup failed; the joined error carries both causes. *)
Theorem run_classification {plan sess : Type} (A : runtime_api plan sess)
    (r : executionRuntime plan sess) :
  er_closeOnce r = false →
  let res := (run A r).1 in
  match NewSession A (t_plan (er_target r)) (sessionOptions r) with
  | (Some s, None) =>
      rr_output res = (Session_Run A s).1 ∧
      (rr_err res = None ↔ (Session_Run A s).2 = None ∧ Session_Close A s = None) ∧
      (rr_category res = FailureCleanup ↔ (Session_Run A s).2 = None ∧ Session_Close A s ≠ None) ∧
      rr_category res ≠ FailureSessionCreation ∧
      ∀ target, is_err (rr_err res) target =
        is_err (Session_Run A s).2 target || is_err (Session_Close A s) target
  | _ => rr_category res = FailureSessionCreation ∧ rr_err res ≠ None ∧ rr_output res = None
  end.
Proof.
  intros Ho. pose proof (run_cases A r Ho) as H. destruct (run A r) as [res r']. simpl in *.
  destruct H as (_ & _ & _ & _ & H).
  destruct (NewSession A _ _) as [[s|] [err|]]; simpl in *; try (by destruct H as (_ & _ & ?)).
  destruct H as (_ & _ & _ & ->). simpl.
  rewrite errors_Join_None, !Forall_cons, Forall_nil.
  split_and!; [done|tauto| | |].
  - destruct (Session_Run A s).2, (Session_Close A s); naive_solver.
  - by destruct (Session_Run A s).2, (Session_Close A s).
  - intros target. rewrite errors_Join_Is. simpl. by rewrite orb_false_r.
Qed.

(** A runtime whose cleanup fails after a successful run. *)
Definition sample_api : runtime_api unit nat :=
  mkRuntimeApi _ _ (λ _ _, (Some 1%nat, None)) (λ _, (Some (mkOutput "text" [65%Z]), None))
    (λ _, Some (ENew "cleanup")).

Definition sample_target : runtimeTarget unit :=
  mkTarget unit "session" (mkSourceSnapshot "w" "q.fql" "file:///q.fql" 1) [] "/srv" tt.

Lemma run_classification_witness :
  rr_category (run sample_api (newExecutionRuntime sample_target
    (mkRuntimeInput None (mkRuntimeOptions "text" "")))).1 = FailureCleanup.
Proof.
  apply (run_classification sample_api (newExecutionRuntime sample_target
    (mkRuntimeInput None (mkRuntimeOptions "text" ""))) eq_refl). split; [reflexivity|discriminate].
Defined.
