(* ===== verification/Execution.v ===== *)
(** * One-shot executions

    [internal/exec/execution.go]: one isolated run of a compiled plan, its
    observable state machine, its event stream and its teardown.  Every body
    that holds [execution.mu] is one function on the state; the goroutines
    around it ([run], and the owner of [settleClose]) are the explicit program
    counters of [world], whose actions interleave in any order.

    [order] is the order in which Go iterates the watcher map. *)

From S2P Require Import Prelude Paths Source Errors Diagnostics Lifecycle Watchers Parameters ExecRuntime.

(** ** Data *)

Inductive State := StateCreated | StateRunning | StateCompleted | StateFailed | StateCancelled.

Inductive EventKind := EventCreated | EventStarted | EventCompleted | EventFailed | EventCancelled.

Global Instance State_eq_dec : EqDecision State.
Proof. solve_decision. Defined.
Global Instance EventKind_eq_dec : EqDecision EventKind.
Proof. solve_decision. Defined.

Definition Terminal (s : State) : bool :=
  bool_decide (s = StateCompleted) || bool_decide (s = StateFailed) || bool_decide (s = StateCancelled).

Record ExecutionSnapshot := mkExecutionSnapshot {
  es_ID : string;
  es_Session : string;
  es_State : State;
  es_Parameters : params;
  es_Options : RuntimeOptions;
  es_Output : option Output;
  es_Failure : option Failure
}.

Definition Snapshot_Clone (s : ExecutionSnapshot) : ExecutionSnapshot :=
  mkExecutionSnapshot (es_ID s) (es_Session s) (es_State s) (es_Parameters s) (es_Options s)
    (cloneOutput (es_Output s)) (Failure_Clone (es_Failure s)).

Record Event := mkEvent {
  ev_Execution : string;
  ev_Sequence : Z;
  ev_Kind : EventKind;
  ev_Snapshot : ExecutionSnapshot
}.

Definition Event_clone (e : Event) : Event :=
  mkEvent (ev_Execution e) (ev_Sequence e) (ev_Kind e) (Snapshot_Clone (ev_Snapshot e)).

Lemma Snapshot_Clone_id s : Snapshot_Clone s = s.
Proof. destruct s. unfold Snapshot_Clone. simpl. by rewrite cloneOutput_id, Failure_Clone_id. Qed.

Lemma Event_clone_id e : Event_clone e = e.
Proof. destruct e. unfold Event_clone. simpl. by rewrite Snapshot_Clone_id. Qed.

Definition watcherBufferSize : nat := 8.

Section execution.
Context {plan sess : Type}.
Context (order : gset Z → list Z).

(** [e_runDone] tells whether the [runDone] channel is closed; [e_lastEvent] is
    [None] for the zero event, before the constructor publishes. *)
Record execution := mkExecution {
  e_id : string;
  e_runtime : executionRuntime plan sess;
  e_state : State;
  e_output : option Output;
  e_failure : option Failure;
  e_runDone : bool;
  e_close : CloseOperation;
  e_sequence : Z;
  e_lastEvent : option Event;
  e_hub : hub Event
}.

Definition set_runtime (r : executionRuntime plan sess) (e : execution) : execution :=
  mkExecution (e_id e) r (e_state e) (e_output e) (e_failure e) (e_runDone e) (e_close e)
    (e_sequence e) (e_lastEvent e) (e_hub e).

Definition set_state (s : State) (e : execution) : execution :=
  mkExecution (e_id e) (e_runtime e) s (e_output e) (e_failure e) (e_runDone e) (e_close e)
    (e_sequence e) (e_lastEvent e) (e_hub e).

Definition set_result (output : option Output) (failure : option Failure) (e : execution) : execution :=
  mkExecution (e_id e) (e_runtime e) (e_state e) output failure (e_runDone e) (e_close e)
    (e_sequence e) (e_lastEvent e) (e_hub e).

Definition set_close (c : CloseOperation) (e : execution) : execution :=
  mkExecution (e_id e) (e_runtime e) (e_state e) (e_output e) (e_failure e) (e_runDone e) c
    (e_sequence e) (e_lastEvent e) (e_hub e).

Definition set_hub (h : hub Event) (e : execution) : execution :=
  mkExecution (e_id e) (e_runtime e) (e_state e) (e_output e) (e_failure e) (e_runDone e) (e_close e)
    (e_sequence e) (e_lastEvent e) h.

Definition snapshotLocked (e : execution) : ExecutionSnapshot :=
  Snapshot_Clone (mkExecutionSnapshot (e_id e) (t_sessionID (er_target (e_runtime e))) (e_state e)
    (in_parameters (er_input (e_runtime e))) (in_options (er_input (e_runtime e)))
    (e_output e) (e_failure e)).

Definition publishLocked (kind : EventKind) (terminal : bool) (e : execution) : outcome execution :=
  let sequence := u64 (e_sequence e + 1) in
  let lastEvent := mkEvent (e_id e) sequence kind (snapshotLocked e) in
  h ← publish_loop watcherBufferSize (ESentinel ExecErrWatcherLagged) (Event_clone lastEvent)
        terminal (order (h_live (e_hub e))) (e_hub e);
  runDone ← (if terminal
             then if e_runDone e then Panic "close of closed channel" else Ret true
             else Ret (e_runDone e));
  Ret (mkExecution (e_id e) (e_runtime e) (e_state e) (e_output e) (e_failure e) runDone (e_close e)
         sequence (Some lastEvent) h).

Definition newExecution (id : string) (runtime : executionRuntime plan sess) : outcome execution :=
  publishLocked EventCreated false
    (mkExecution id runtime StateCreated None None false newCloseOperation 0 None newHub).

(** [start]: its two readings of [ctx.Err()], the snapshot or the error, and
    whether the goroutine of [run] was started. *)
Definition start (ctxErr1 ctxErr2 : option error) (e : execution) :
    outcome ((ExecutionSnapshot + error) * bool * execution) :=
  match ctxErr1 with
  | Some err => Ret (inr err, false, e)
  | None =>
      match ctxErr2 with
      | Some err => Ret (inr err, false, e)
      | None =>
          match e_state e with
          | StateCreated =>
              e ← publishLocked EventStarted false (set_state StateRunning e);
              Ret (inl (snapshotLocked e), true, e)
          | StateRunning => Ret (inr (ESentinel ExecErrExecutionRunning), false, e)
          | _ => Ret (inr (ESentinel ExecErrExecutionTerminal), false, e)
          end
      end
  end.

Definition execution_cancel (e : execution) : outcome (ExecutionSnapshot * execution) :=
  e ← match e_state e with
      | StateCreated =>
          let e := set_runtime (cancel (ESentinel ExecErrExecutionCanceled) (e_runtime e)) e in
          publishLocked EventCancelled true (set_state StateCancelled e)
      | StateRunning =>
          Ret (set_runtime (cancel (ESentinel ExecErrExecutionCanceled) (e_runtime e)) e)
      | _ => Ret e
      end;
  Ret (snapshotLocked e, e).

(** [subscribe]: the current event, and the watcher whose channels the caller
    holds; a terminal execution hands out closed channels and no watcher. *)
Definition subscribe (e : execution) : option Event * option Z * execution :=
  let current := Event_clone <$> e_lastEvent e in
  if Terminal (e_state e) then (current, None, e)
  else
    let '(id, h) := hub_subscribe (e_hub e) in
    (current, Some id, set_hub h e).

Definition unsubscribe (id : Z) (e : execution) : outcome execution :=
  h ← hub_unsubscribe id (e_hub e); Ret (set_hub h e).

Definition finish (output : option Output) (err : option error) (category : FailureCategory)
    (e : execution) : outcome execution :=
  if bool_decide (e_state e ≠ StateRunning) then Ret e
  else
    let e := set_result output (e_failure e) e in
    match err with
    | None => publishLocked EventCompleted true (set_state StateCompleted e)
    | Some _ =>
        if is_err err ContextCanceled && bool_decide (er_cause (e_runtime e) ≠ None) then
          publishLocked EventCancelled true (set_state StateCancelled e)
        else
          let e := set_state StateFailed e in
          failure ← materializeFailure (e_runtime e) err;
          match failure with
          | None => Panic "nil pointer dereference"
          | Some rf =>
              publishLocked EventFailed true (set_result (e_output e) (Some (mkFailure category rf)) e)
          end
    end.

Definition beginClose (e : execution) : bool * execution :=
  let '(owner, c) := Begin (e_close e) in (owner, set_close c e).

(** [settleClose] after its [cancel]: the receive from [runDone], then the
    session and the remaining watchers are closed. *)
Definition settleClose_resume (A : runtime_api plan sess) (e : execution) :
    outcome (option error * execution) :=
  if negb (e_runDone e) then Block
  else
    let '(closeErr, r) := closeSession A (e_runtime e) in
    let e := set_runtime r e in
    h ← close_loop (order (h_live (e_hub e))) (e_hub e);
    Ret (closeErr, set_hub h e).

Definition completeClose (err : option error) (e : execution) : outcome execution :=
  c ← Finish err (e_close e); Ret (set_close c e).

(** ** Interleavings

    The goroutine of [run], between [start] and its end, and the owner of the
    teardown ([beginClose], [settleClose], [completeClose]). *)
Inductive runner := NotStarted | Ready | Ran (res : runtimeRunResult) | Done.
Inductive closer := NotClosing | Closing | Cancelled | Settled (err : option error) | Closed.

Record world := mkWorld {
  wd_exec : execution;
  wd_runner : runner;
  wd_closer : closer;
  wd_history : history Event
}.

Inductive action :=
| AStart (ctxErr1 ctxErr2 : option error)
| ACancel
| ASubscribe
| AUnsubscribe (id : Z)
| AReceive (id : Z)
| ARun (A : runtime_api plan sess)
| AFinish
| ABeginClose
| ACloserCancel
| ACloserSettle (A : runtime_api plan sess)
| ACloserComplete.

(** The event a section published, if any, recorded in the history. *)
Definition record_publish (before after : execution) (o : history Event) : history Event :=
  if bool_decide (e_sequence before = e_sequence after) then o
  else match e_lastEvent after with
       | Some ev => hi_publish ev (Terminal (e_state after)) o
       | None => o
       end.

(** One action; [Block] when the goroutine it belongs to is not at that point
    or the channel it waits on is not ready. *)
Definition act (a : action) (w : world) : outcome world :=
  let e := wd_exec w in
  let o := wd_history w in
  match a with
  | AStart c1 c2 =>
      '(_, spawned, e') ← start c1 c2 e;
      Ret (mkWorld e' (if (spawned : bool) then Ready else wd_runner w) (wd_closer w)
             (record_publish e e' o))
  | ACancel =>
      '(_, e') ← execution_cancel e;
      Ret (mkWorld e' (wd_runner w) (wd_closer w) (record_publish e e' o))
  | ASubscribe =>
      let '(_, id, e') := subscribe e in
      Ret (mkWorld e' (wd_runner w) (wd_closer w)
             (match id with Some id => hi_subscribe id o | None => o end))
  | AUnsubscribe id =>
      e' ← unsubscribe id e;
      Ret (mkWorld e' (wd_runner w) (wd_closer w)
             (hi_cancel (bool_decide (id ∈ h_live (e_hub e))) id o))
  | AReceive id =>
      match h_store (e_hub e) !! id with
      | None => Block
      | Some _ =>
          '(ev, h) ← hub_receive id (e_hub e);
          Ret (mkWorld (set_hub h e) (wd_runner w) (wd_closer w) (hi_receive id ev o))
      end
  | ARun A =>
      match wd_runner w with
      | Ready =>
          let '(res, r) := run A (e_runtime e) in
          Ret (mkWorld (set_runtime r e) (Ran res) (wd_closer w) o)
      | _ => Block
      end
  | AFinish =>
      match wd_runner w with
      | Ran res =>
          e' ← finish (rr_output res) (rr_err res) (rr_category res) e;
          Ret (mkWorld e' Done (wd_closer w) (record_publish e e' o))
      | _ => Block
      end
  | ABeginClose =>
      let '(owner, e') := beginClose e in
      Ret (mkWorld e' (wd_runner w) (if (owner : bool) then Closing else wd_closer w) o)
  | ACloserCancel =>
      match wd_closer w with
      | Closing =>
          '(_, e') ← execution_cancel e;
          Ret (mkWorld e' (wd_runner w) Cancelled (record_publish e e' o))
      | _ => Block
      end
  | ACloserSettle A =>
      match wd_closer w with
      | Cancelled =>
          '(err, e') ← settleClose_resume A e;
          Ret (mkWorld e' (wd_runner w) (Settled err) o)
      | _ => Block
      end
  | ACloserComplete =>
      match wd_closer w with
      | Settled err =>
          e' ← completeClose err e;
          Ret (mkWorld e' (wd_runner w) Closed o)
      | _ => Block
      end
  end.

(** The actions that are not under way, and the two receives that wait without
    the lock: a consumer's, and that of [settleClose] from [runDone]. *)
Definition waiting (a : action) (w : world) : bool :=
  match a with
  | AReceive id =>
      match h_store (e_hub (wd_exec w)) !! id with
      | None => true
      | Some v => match w_events v with [] => negb (w_eventsClosed v) | _ => false end
      end
  | ARun _ => match wd_runner w with Ready => false | _ => true end
  | AFinish => match wd_runner w with Ran _ => false | _ => true end
  | ACloserCancel => match wd_closer w with Closing => false | _ => true end
  | ACloserSettle _ => match wd_closer w with Cancelled => negb (e_runDone (wd_exec w)) | _ => true end
  | ACloserComplete => match wd_closer w with Settled _ => false | _ => true end
  | AStart _ _ | ACancel | ASubscribe | AUnsubscribe _ | ABeginClose => false
  end.

(** A schedule: an action that waits is tried again later, and leaves the world as
    it is; a section that blocks while it holds the lock blocks the schedule. *)
Definition attempt (a : action) (w : world) : outcome world :=
  match act a w with
  | Ret w => Ret w
  | Panic m => Panic m
  | Block => if waiting a w then Ret w else Block
  end.

Fixpoint schedule (actions : list action) (w : world) : outcome world :=
  match actions with
  | [] => Ret w
  | a :: actions => w ← attempt a w; schedule actions w
  end.

(** A new execution, its creation event recorded. *)
Definition initial (id : string) (runtime : executionRuntime plan sess) : outcome world :=
  e ← newExecution id runtime;
  Ret (mkWorld e NotStarted NotClosing
         (match e_lastEvent e with
          | Some ev => hi_publish ev false newHistory
          | None => newHistory
          end)).

(** ** Invariant *)

Definition small_action (a : action) : Prop :=
  match a with ARun A | ACloserSettle A => small_api A | _ => True end.

(** The event stream of an execution with history [o]; [fin] tells whether the
    terminal event was published, [n] bounds the watchers handed out. *)
Record stream_ok (n : Z) (fin : bool) (e : execution) (o : history Event) : Prop := {
  st_hub : hub_ok watcherBufferSize (e_hub e);
  st_tracks : tracks (e_hub e) o;
  st_noerr : ∀ id w, h_store (e_hub e) !! id = Some w → w_errors w = [];
  st_seq : e_sequence e = Z.of_nat (length (hi_log o));
  st_last : e_lastEvent e = last (hi_log o);
  st_events : ∀ i ev, hi_log o !! i = Some ev →
    ev_Sequence ev = Z.of_nat (S i) ∧ ev_Execution ev = e_id e;
  st_done : e_runDone e = fin;
  st_final : hi_final o = fin;
  st_next : (h_next (e_hub e) ≤ n)%Z;
  st_cancel : ∀ id, id ∈ hi_cancelled o → (id ≤ h_next (e_hub e))%Z
}.

(** The words of event kinds each state allows. *)
Definition kinds_ok (s : State) (ks : list EventKind) : Prop :=
  match s with
  | StateCreated => ks = [EventCreated]
  | StateRunning => ks = [EventCreated; EventStarted]
  | StateCompleted => ks = [EventCreated; EventStarted; EventCompleted]
  | StateFailed => ks = [EventCreated; EventStarted; EventFailed]
  | StateCancelled => ks = [EventCreated; EventCancelled] ∨
                      ks = [EventCreated; EventStarted; EventCancelled]
  end.

Definition runner_ok (s : State) (r : runner) (rt : executionRuntime plan sess) : Prop :=
  match s with
  | StateCreated => r = NotStarted ∧ er_closeOnce rt = false
  | StateRunning => (r = Ready ∧ er_closeOnce rt = false) ∨
                    (∃ res, r = Ran res ∧ small (rr_err res))
  | _ => r = NotStarted ∨ r = Done
  end.

Definition closer_ok (s : State) (k : closer) (c : CloseOperation) : Prop :=
  close_wf c ∧
  match k with
  | NotClosing => co_state c = closeIdle
  | Closing => co_state c = closeStarted
  | Cancelled => co_state c = closeStarted ∧ s ≠ StateCreated
  | Settled _ => co_state c = closeStarted ∧ Terminal s = true
  | Closed => co_state c = closeFinished ∧ Terminal s = true
  end.

(** The published snapshot matches the state: the last event's snapshot is the
    current one once the execution is terminal. *)
Definition last_snapshot (e : execution) : Prop :=
  Terminal (e_state e) = true → ev_Snapshot <$> e_lastEvent e = Some (snapshotLocked e).

Record inv (n : Z) (w : world) : Prop := {
  iv_text : (Z.of_nat (length (t_text (er_target (e_runtime (wd_exec w))))) < 2 ^ 32)%Z;
  iv_stream : stream_ok n (Terminal (e_state (wd_exec w))) (wd_exec w) (wd_history w);
  iv_kinds : kinds_ok (e_state (wd_exec w)) (map ev_Kind (hi_log (wd_history w)));
  iv_runner : runner_ok (e_state (wd_exec w)) (wd_runner w) (e_runtime (wd_exec w));
  iv_closer : closer_ok (e_state (wd_exec w)) (wd_closer w) (e_close (wd_exec w));
  iv_snapshot : last_snapshot (wd_exec w)
}.

Context (order_ok : ∀ X, order X ≡ₚ elements X).

Lemma kinds_length s ks : kinds_ok s ks → (length ks ≤ 3)%nat ∧ (Terminal s = false → length ks ≤ 2)%nat.
Proof. destruct s; simpl; try (intros ->; simpl; split; [lia|done || lia]). intros [-> | ->]; simpl; split; (lia || done). Qed.

(** What a publication does to an execution whose stream is not finished. *)
Lemma publish_stream n e o kind t :
  stream_ok n false e o → (length (hi_log o) ≤ 2)%nat →
  ∃ e', publishLocked kind t e = Ret e' ∧
    let ev := mkEvent (e_id e) (e_sequence e + 1) kind (snapshotLocked e) in
    stream_ok n t e' (hi_publish ev t o) ∧
    e_sequence e' = (e_sequence e + 1)%Z ∧ e_lastEvent e' = Some ev ∧
    (e_id e', e_runtime e', e_state e', e_output e', e_failure e', e_close e') =
    (e_id e, e_runtime e, e_state e, e_output e, e_failure e, e_close e).
Proof using order_ok.
  intros Hst Hlen. pose proof Hst as [Hh Ht Hne Hseq Hlast Hev Hd Hf Hn Hc].
  unfold publishLocked. rewrite Event_clone_id, u64_small by lia.
  set (ev := mkEvent (e_id e) (e_sequence e + 1) kind (snapshotLocked e)).
  destruct (publish_ok watcherBufferSize (ESentinel ExecErrWatcherLagged) ev t
    (order (h_live (e_hub e))) (e_hub e) Hh (order_ok _)) as (h' & -> & Hp & Hh').
  cbn. rewrite Hd.
  assert ((if t then if false then Panic "close of closed channel" else Ret true else Ret false)
          = Ret t) as -> by (by destruct t).
  cbn. eexists. split; [done|]. split; [|by rewrite ?Hd].
  pose proof Hp as [PN PS PL]. split; simpl; try done.
  - by apply (tracks_publish watcherBufferSize (ESentinel ExecErrWatcherLagged) ev t (e_hub e)).
  - intros id w Hw. rewrite PS in Hw. case_bool_decide as Hin; [|by eapply Hne].
    destruct (h_store (e_hub e) !! id) as [w0|] eqn:Hw0; [|done]. simpl in Hw. inv Hw.
    destruct (tk_observes _ _ Ht _ _ Hw0) as (k & seen & _ & _ & _ & Hpre & _).
    apply prefix_length in Hpre. rewrite length_app, length_drop in Hpre.
    unfold delivered. destruct (Nat.ltb_spec (length (w_events w0)) watcherBufferSize) as [_|Hge].
    + destruct t; simpl; rewrite ?(Hne _ _ Hw0); done.
    + unfold watcherBufferSize in Hge. lia.
  - rewrite Hseq, length_app. simpl. lia.
  - by rewrite last_snoc.
  - intros i ev' [Hi|[Hi ->]]%lookup_app_Some_or_last.
    + by apply Hev.
    + simpl. split; [lia|done].
  - by rewrite PN.
  - intros id Hin. rewrite PN. by apply Hc.
Qed.

Lemma log_length n w : inv n w →
  (length (hi_log (wd_history w)) ≤ 3)%nat ∧
  (Terminal (e_state (wd_exec w)) = false → length (hi_log (wd_history w)) ≤ 2)%nat.
Proof. intros Hi. pose proof (kinds_length _ _ (iv_kinds _ _ Hi)) as Hk. by rewrite length_map in Hk. Qed.

Lemma execution_stream_weaken n m fin e o : (n ≤ m)%Z → stream_ok n fin e o → stream_ok m fin e o.
Proof. intros Hnm [? ? ? ? ? ? ? ? ? ?]. split; try done. lia. Qed.

(** A stream does not read the other fields of the execution. *)
Lemma stream_fields n fin e e' o :
  stream_ok n fin e o →
  (e_id e', e_hub e', e_sequence e', e_lastEvent e', e_runDone e') =
  (e_id e, e_hub e, e_sequence e, e_lastEvent e, e_runDone e) →
  stream_ok n fin e' o.
Proof.
  intros [] Heq. injection Heq as H1 H2 H3 H4 H5.
  split; rewrite ?H1, ?H2, ?H3, ?H4, ?H5; done.
Qed.

(** A publication recorded in the history. *)
Lemma record_publish_new e e' o ev :
  e_sequence e' = (e_sequence e + 1)%Z → e_lastEvent e' = Some ev →
  record_publish e e' o = hi_publish ev (Terminal (e_state e')) o.
Proof.
  intros Hs Hl. unfold record_publish. rewrite bool_decide_eq_false_2 by lia. by rewrite Hl.
Qed.

Lemma record_publish_same e e' o : e_sequence e' = e_sequence e → record_publish e e' o = o.
Proof. intros Hs. unfold record_publish. by rewrite bool_decide_eq_true_2. Qed.

(** A transition: from a state that is not terminal, through the fields set
    under the lock, to the state whose event is published. *)
Lemma transition n w e1 s' kind r :
  inv n w → Terminal (e_state (wd_exec w)) = false →
  (e_id e1, e_hub e1, e_sequence e1, e_lastEvent e1, e_runDone e1, e_close e1, e_state e1,
   er_target (e_runtime e1)) =
  (e_id (wd_exec w), e_hub (wd_exec w), e_sequence (wd_exec w), e_lastEvent (wd_exec w),
   e_runDone (wd_exec w), e_close (wd_exec w), s', er_target (e_runtime (wd_exec w))) →
  kinds_ok s' (map ev_Kind (hi_log (wd_history w)) ++ [kind]) →
  runner_ok s' r (e_runtime e1) →
  (s' ≠ StateCreated) →
  ∃ e', publishLocked kind (Terminal s') e1 = Ret e' ∧
    (e_state e', e_runtime e', e_output e', e_failure e') =
    (s', e_runtime e1, e_output e1, e_failure e1) ∧
    inv n (mkWorld e' r (wd_closer w) (record_publish (wd_exec w) e' (wd_history w))).
Proof using order_ok.
  intros Hi Hterm Heq Hk Hr Hnc. injection Heq as H1 H2 H3 H4 H5 H6 H7 H8.
  pose proof (iv_stream _ _ Hi) as Hst. rewrite Hterm in Hst.
  assert (stream_ok n false e1 (wd_history w)) as Hst1 by (eapply stream_fields; [done|congruence]).
  destruct (publish_stream n e1 (wd_history w) kind (Terminal s') Hst1) as (e' & -> & Hst' & Hs & Hl & Hf).
  { by apply (log_length _ _ Hi). }
  injection Hf as F1 F2 F3 F4 F5 F6. rewrite H3 in Hs.
  exists e'. split; [done|]. split; [congruence|].
  erewrite record_publish_new; [|done..]. rewrite F3, H7.
  split; simpl; rewrite ?F2, ?F3, ?F6, ?H6, ?H7, ?H8; try done.
  - apply (iv_text _ _ Hi).
  - by rewrite map_app.
  - destruct (iv_closer _ _ Hi) as [Hwf Hc]. split; [done|].
    destruct (wd_closer w); try done; destruct Hc as [Hc Ht]; split; try done; congruence.
  - intros _. rewrite Hl. simpl. f_equal. unfold snapshotLocked. congruence.
Qed.

Lemma inv_weaken n m w : (n ≤ m)%Z → inv n w → inv m w.
Proof. intros Hnm [? ? ? ? ? ?]. split; try done. by eapply execution_stream_weaken. Qed.

Lemma cancel_once cause r : er_closeOnce (cancel cause r : executionRuntime plan sess) = er_closeOnce r.
Proof. unfold cancel. by destruct (er_cause r). Qed.

Lemma cancel_target cause r : er_target (cancel cause r : executionRuntime plan sess) = er_target r.
Proof. unfold cancel. by destruct (er_cause r). Qed.

Lemma cancel_input cause r : er_input (cancel cause r : executionRuntime plan sess) = er_input r.
Proof. unfold cancel. by destruct (er_cause r). Qed.

(** Replacing the runtime of an execution, with the same target. *)
Lemma inv_runtime n w r k :
  inv n w → er_target r = er_target (e_runtime (wd_exec w)) →
  (Terminal (e_state (wd_exec w)) = true → er_input r = er_input (e_runtime (wd_exec w))) →
  runner_ok (e_state (wd_exec w)) k r →
  inv n (mkWorld (set_runtime r (wd_exec w)) k (wd_closer w) (wd_history w)).
Proof.
  intros [Htx Hst Hk Hr Hc Hsn] Htg Hin Hro. split; simpl; try done.
  - by rewrite Htg.
  - by eapply stream_fields.
  - unfold last_snapshot. simpl. intros Ht. rewrite (Hsn Ht). unfold snapshotLocked. simpl. by rewrite Htg, (Hin Ht).
Qed.

Lemma cancel_step n w : inv n w →
  ∃ s e', execution_cancel (wd_exec w) = Ret (s, e') ∧ s = snapshotLocked e' ∧
    e_state e' ≠ StateCreated ∧
    (Terminal (e_state (wd_exec w)) = true → e' = wd_exec w) ∧
    (e_state (wd_exec w) = StateCreated → e_state e' = StateCancelled) ∧
    inv n (mkWorld e' (wd_runner w) (wd_closer w) (record_publish (wd_exec w) e' (wd_history w))).
Proof using order_ok.
  intros Hi. unfold execution_cancel. pose proof Hi as [Htx Hst Hk Hr Hc Hsn].
  destruct (e_state (wd_exec w)) eqn:Es; simpl.
  2: { eexists _, _. split; [done|]. simpl. rewrite Es. split_and!; try done.
    rewrite record_publish_same by done. apply inv_runtime; rewrite ?Es; [done| |done|].
    - apply cancel_target.
    - simpl in *. by rewrite cancel_once. }
  2-4: eexists _, _; (split; [done|]); simpl; rewrite Es; split_and!; try done;
    rewrite record_publish_same by done; destruct w; done.
  set (e1 := set_state StateCancelled _).
  destruct (transition n w e1 StateCancelled EventCancelled (wd_runner w) Hi) as (e' & He & Hf & Hi').
  - by rewrite Es.
  - simpl. by rewrite cancel_target.
  - simpl. simpl in Hk. rewrite Hk. by left.
  - left. apply Hr.
  - done.
  - change (Terminal StateCancelled) with true in He. rewrite He. cbn. injection Hf as F1 F2 F3 F4.
    eexists _, e'. rewrite F1. split_and!; done.
Qed.

Lemma start_step n w c1 c2 : inv n w →
  ∃ res spawned e', start c1 c2 (wd_exec w) = Ret (res, spawned, e') ∧
    inv n (mkWorld e' (if spawned then Ready else wd_runner w) (wd_closer w)
             (record_publish (wd_exec w) e' (wd_history w))) ∧
    (spawned = true ↔ c1 = None ∧ c2 = None ∧ e_state (wd_exec w) = StateCreated) ∧
    (spawned = false → e' = wd_exec w) ∧ (spawned = true → e_state e' = StateRunning).
Proof using order_ok.
  intros Hi. pose proof Hi as [Htx Hst Hk Hr Hc Hsn]. unfold start.
  assert (∀ res : ExecutionSnapshot + error, c1 ≠ None ∨ c2 ≠ None ∨ e_state (wd_exec w) ≠ StateCreated →
    ∃ res' spawned e', Ret (res, false, wd_exec w) = Ret (res', spawned, e') ∧
    inv n (mkWorld e' (if spawned then Ready else wd_runner w) (wd_closer w)
             (record_publish (wd_exec w) e' (wd_history w))) ∧
    (spawned = true ↔ c1 = None ∧ c2 = None ∧ e_state (wd_exec w) = StateCreated) ∧
    (spawned = false → e' = wd_exec w) ∧ (spawned = true → e_state e' = StateRunning)) as Hstay.
  { intros res Hne. eexists _, false, _. split; [done|]. rewrite record_publish_same by done.
    split_and!; [by destruct w| |done|done].
    split; [done|]. intros (? & ? & ?). by destruct Hne as [|[|]]. }
  destruct c1 as [err|]; [apply Hstay; by left|]. destruct c2 as [err|]; [apply Hstay; by right; left|].
  destruct (e_state (wd_exec w)) eqn:Es; try (apply Hstay; by right; right).
  destruct (transition n w (set_state StateRunning (wd_exec w)) StateRunning EventStarted Ready Hi)
    as (e' & He & Hf & Hi').
  - by rewrite Es.
  - done.
  - simpl. simpl in Hk. by rewrite Hk.
  - left. split; [done|]. apply Hr.
  - done.
  - change (Terminal StateRunning) with false in He. rewrite He. cbn.
    injection Hf as F1 F2 F3 F4. eexists _, true, e'. done.
Qed.

Lemma finish_step n w res : inv n w → wd_runner w = Ran res →
  ∃ e', finish (rr_output res) (rr_err res) (rr_category res) (wd_exec w) = Ret e' ∧
    Terminal (e_state e') = true ∧
    inv n (mkWorld e' Done (wd_closer w) (record_publish (wd_exec w) e' (wd_history w))).
Proof using order_ok.
  intros Hi Hran. pose proof Hi as [Htx Hst Hk Hr Hc Hsn]. rewrite Hran in Hr.
  destruct (e_state (wd_exec w)) eqn:Es; simpl in Hr;
    [by destruct Hr| |by destruct Hr..].
  destruct Hr as [[? _]|(res' & [= <-] & Hsm)]; [done|].
  unfold finish. rewrite Es, bool_decide_eq_false_2 by tauto.
  assert (∀ e1 s' kind,
    (e_id e1, e_hub e1, e_sequence e1, e_lastEvent e1, e_runDone e1, e_close e1, e_state e1,
      er_target (e_runtime e1)) =
    (e_id (wd_exec w), e_hub (wd_exec w), e_sequence (wd_exec w), e_lastEvent (wd_exec w),
      e_runDone (wd_exec w), e_close (wd_exec w), s', er_target (e_runtime (wd_exec w))) →
    kinds_ok s' [EventCreated; EventStarted; kind] → Terminal s' = true →
    ∃ e', publishLocked kind true e1 = Ret e' ∧ Terminal (e_state e') = true ∧
      inv n (mkWorld e' Done (wd_closer w) (record_publish (wd_exec w) e' (wd_history w)))) as Hgo.
  { intros e1 s' kind Heq Hkk Ht.
    destruct (transition n w e1 s' kind Done Hi) as (e' & He & Hf & Hi').
    - by rewrite Es.
    - exact Heq.
    - simpl in Hk. by rewrite Hk.
    - destruct s'; try done; by right.
    - by destruct s'.
    - rewrite Ht in He. exists e'. injection Hf as -> F2 F3 F4. done. }
  destruct (rr_err res) as [err|] eqn:Herr; simpl.
  - destruct (_ && _).
    + apply (Hgo _ StateCancelled); [done|by right|done].
    + destruct (materialize_ok (e_runtime (wd_exec w)) err) as [rf Hrf]; [done..|].
      simpl in Hrf. unfold materializeFailure in Hrf. simpl in Hrf. rewrite Hrf. cbn.
      by apply (Hgo _ StateFailed).
  - by apply (Hgo _ StateCompleted).
Qed.

(** Replacing the hub of an execution together with its history. *)
Lemma inv_hub n m w h o :
  inv n w → hub_ok watcherBufferSize h → tracks h o →
  (∀ id v, h_store h !! id = Some v → w_errors v = []) →
  (hi_log o, hi_final o) = (hi_log (wd_history w), hi_final (wd_history w)) →
  (h_next h ≤ m)%Z → (∀ id, id ∈ hi_cancelled o → id ≤ h_next h)%Z →
  inv m (mkWorld (set_hub h (wd_exec w)) (wd_runner w) (wd_closer w) o).
Proof.
  intros [Htx Hst Hk Hr Hc Hsn] Hh Ht Hne Ho Hn Hca. injection Ho as Ho1 Ho2.
  destruct Hst. split; simpl; rewrite ?Ho1; try done.
  split; simpl; rewrite ?Ho1, ?Ho2; done.
Qed.

Lemma subscribe_step n w : inv n w → (n + 1 < 2 ^ 64)%Z →
  ∃ w', act ASubscribe w = Ret w' ∧ inv (n + 1) w'.
Proof.
  intros Hi Hn. pose proof Hi as [Htx Hst Hk Hr Hc Hsn]. pose proof Hst as [Hh Ht Hne _ _ _ _ Hf Hnx Hca].
  unfold act, subscribe. destruct (Terminal (e_state (wd_exec w))) eqn:Eterm.
  { eexists. split; [done|]. apply (inv_weaken n); [lia|by destruct w]. }
  destruct (hub_subscribe (e_hub (wd_exec w))) as [id h] eqn:Hsub.
  destruct (subscribe_ok _ _ _ _ Hh ltac:(lia) Hsub) as (Hid & Hnone & Hnl & Hh').
  eexists. split; [done|].
  assert (id ∉ hi_cancelled (wd_history w)) as Hnc by (intros Hin%Hca; lia).
  assert (h_next h = id ∧ h_store h = <[id:=newWatcher]> (h_store (e_hub (wd_exec w)))) as [Hhn Hhs].
  { unfold hub_subscribe in Hsub. by inv Hsub. }
  apply (inv_hub n); try done.
  - apply (tracks_subscribe watcherBufferSize (e_hub (wd_exec w))); try done. lia.
  - intros i v Hv. rewrite Hhs in Hv. destruct (decide (i = id)) as [->|Hne'].
    + rewrite lookup_insert_eq in Hv. by inv Hv.
    + rewrite lookup_insert_ne in Hv by done. by eapply Hne.
  - rewrite Hhn, Hid. lia.
  - simpl. intros i Hi'%Hca. rewrite Hhn, Hid. lia.
Qed.

Lemma unsubscribe_step n w id : inv n w →
  ∃ w', act (AUnsubscribe id) w = Ret w' ∧ inv n w'.
Proof.
  intros Hi. pose proof Hi as [_ [Hh Ht Hne _ _ _ _ _ Hnx Hca] _ _ _ _].
  unfold act, unsubscribe.
  destruct (decide (id ∈ h_live (e_hub (wd_exec w)))) as [Hin|Hnin].
  - destruct (close_live_ok _ _ id None Hh Hin) as (v & Hv & Hvok & Hcl & Hh').
    assert (hub_unsubscribe id (e_hub (wd_exec w)) = closeWatcherLocked id None (e_hub (wd_exec w)))
      as Heq by (unfold hub_unsubscribe; by rewrite decide_True).
    rewrite Heq, Hcl. cbn. eexists. split; [done|].
    apply (inv_hub n); try done.
    + apply (tracks_cancel watcherBufferSize (e_hub (wd_exec w))); try done. by rewrite Heq, Hcl.
    + simpl. intros i u Hu. destruct (decide (i = id)) as [->|Hne'].
      * rewrite lookup_insert_eq in Hu. inv Hu. simpl. by rewrite (Hne _ _ Hv).
      * rewrite lookup_insert_ne in Hu by done. by eapply Hne.
    + rewrite bool_decide_eq_true_2 by done. done.
    + rewrite bool_decide_eq_true_2 by done. simpl.
      intros i [->%elem_of_singleton|Hi']%elem_of_union; [|by apply Hca].
      by apply (ho_store _ _ Hh _ _ Hv).
  - unfold hub_unsubscribe. rewrite decide_False by done. cbn. eexists. split; [done|].
    rewrite bool_decide_eq_false_2 by done. apply (inv_hub n); done.
Qed.

Lemma receive_step n w id w' : inv n w → act (AReceive id) w = Ret w' → inv n w'.
Proof.
  intros Hi Ha. pose proof Hi as [_ [Hh Ht Hne _ _ _ _ _ Hnx Hca] _ _ _ _].
  unfold act in Ha. destruct (h_store (e_hub (wd_exec w)) !! id) as [v|] eqn:Hv; [|done].
  apply bind_Ret_inv in Ha as ([ev h] & Hr & [= <-]).
  pose proof (receive_ok _ _ _ _ _ Hh Hr) as Hh'. pose proof (tracks_receive _ _ _ _ _ Ht Hr) as Ht'.
  assert (h_next h = h_next (e_hub (wd_exec w)) ∧
          ∀ i u, h_store h !! i = Some u → w_errors u = []) as [Hhn Her].
  { unfold hub_receive in Hr. rewrite Hv in Hr. destruct (w_events v) as [|x xs] eqn:Hx.
    - destruct (w_eventsClosed v); [|done]. inv Hr. done.
    - inv Hr. simpl. split; [done|]. intros i u Hu. destruct (decide (i = id)) as [->|Hne'].
      + rewrite lookup_insert_eq in Hu. inv Hu. simpl. by eapply Hne.
      + rewrite lookup_insert_ne in Hu by done. by eapply Hne. }
  apply (inv_hub n); try done.
  - by destruct ev.
  - by rewrite Hhn.
  - rewrite Hhn. by destruct ev.
Qed.

Lemma run_step n w A : inv n w → small_api A → wd_runner w = Ready →
  ∃ w' res, act (ARun A) w = Ret w' ∧ wd_runner w' = Ran res ∧ inv n w'.
Proof.
  intros Hi Hsm Hr. unfold act. rewrite Hr.
  pose proof (iv_runner _ _ Hi) as Hro. rewrite Hr in Hro.
  destruct (e_state (wd_exec w)) eqn:Es; try (by destruct Hro); simpl in Hro.
  destruct Hro as [[_ Ho]|(? & ? & _)]; [|done].
  pose proof (run_cases A (e_runtime (wd_exec w)) Ho) as Hc.
  pose proof (run_small A (e_runtime (wd_exec w)) Hsm Ho) as Hres.
  destruct (run A (e_runtime (wd_exec w))) as [res r]. destruct Hc as (H1 & H2 & H3 & _).
  eexists _, res. split; [done|]. split; [done|]. apply inv_runtime; try done.
  rewrite Es. right. by exists res.
Qed.

Lemma settle_step n w A : inv n w → wd_closer w = Cancelled → e_runDone (wd_exec w) = true →
  ∃ w' err, act (ACloserSettle A) w = Ret w' ∧ wd_closer w' = Settled err ∧
    e_hub (wd_exec w') = e_hub (wd_exec w) ∧ e_state (wd_exec w') = e_state (wd_exec w) ∧
    snapshotLocked (wd_exec w') = snapshotLocked (wd_exec w) ∧ inv n w'.
Proof using order_ok.
  intros Hi Hcl Hrd. pose proof Hi as [Htx Hst Hk Hr Hc Hsn]. unfold act. rewrite Hcl in Hc |- *.
  unfold settleClose_resume. rewrite Hrd. simpl.
  pose proof Hst as [_ Ht _ _ _ _ Hd Hf _ _]. rewrite Hrd in Hd.
  assert (h_live (e_hub (wd_exec w)) = ∅) as Hlive by (apply (tk_final _ _ Ht); congruence).
  assert (order (h_live (e_hub (wd_exec w))) = []) as Hord.
  { apply Permutation_nil_r. rewrite order_ok, Hlive. by rewrite elements_empty. }
  assert (∃ err r, closeSession A (e_runtime (wd_exec w)) = (err, r) ∧
    er_target r = er_target (e_runtime (wd_exec w)) ∧ er_input r = er_input (e_runtime (wd_exec w)))
    as (err & r & -> & Htg & Hin).
  { unfold closeSession. destruct (er_closeOnce _); [by eexists _, _|].
    destruct (er_session _); by eexists _, _. }
  simpl. rewrite Hord. cbn. eexists _, err. split; [done|]. split; [done|]. split; [done|].
  split; [done|]. split; [unfold snapshotLocked; simpl; by rewrite Htg, Hin|].
  assert (inv n (mkWorld (set_runtime r (wd_exec w)) (wd_runner w) (wd_closer w) (wd_history w)))
    as [? ? ? ? Hc' ?].
  { apply inv_runtime; try done. destruct (e_state (wd_exec w)); try done. }
  split; try done. simpl in Hc' |- *. rewrite Hcl in Hc'. destruct Hc' as [Hwf [Hs Hsc]].
  split; [done|]. done.
Qed.

(** Every action preserves the invariant and never panics, and it blocks only
    where it waits without the lock. *)
Lemma act_inv n w a : inv n w → (n + 1 < 2 ^ 64)%Z → small_action a →
  (act a w = Block ∧ waiting a w = true) ∨ ∃ w', act a w = Ret w' ∧ inv (n + 1) w'.
Proof using order_ok.
  intros Hi Hn Hsm. assert (∀ w', inv n w' → inv (n + 1) w') as Hw.
  { intros w' H. eapply inv_weaken; [|done]. lia. }
  destruct a; simpl in Hsm.
  - right. destruct (start_step n w ctxErr1 ctxErr2 Hi) as (res & sp & e' & He & Hi' & _).
    unfold act. rewrite He. cbn. eauto.
  - right. destruct (cancel_step n w Hi) as (s & e' & He & _ & _ & _ & _ & Hi').
    unfold act. rewrite He. cbn. eauto.
  - right. by apply subscribe_step.
  - right. destruct (unsubscribe_step n w id Hi) as (w' & ? & ?). eauto.
  - destruct (waiting (AReceive id) w) eqn:Hwait.
    + left. split; [|done]. simpl in *. destruct (h_store (e_hub (wd_exec w)) !! id) as [v|] eqn:Hv; [|done].
      unfold hub_receive. rewrite Hv. destruct (w_events v); [|done]. by destruct (w_eventsClosed v).
    + right. assert (∃ w', act (AReceive id) w = Ret w') as [w' Ha].
      { simpl in *. destruct (h_store (e_hub (wd_exec w)) !! id) as [v|] eqn:Hv; [|done].
        unfold hub_receive. rewrite Hv. destruct (w_events v); [destruct (w_eventsClosed v); [|done]|]; cbn; eauto. }
      exists w'. split; [done|]. eapply Hw, receive_step; eauto.
  - destruct (wd_runner w) eqn:Hr; try (left; unfold act, waiting; by rewrite Hr).
    right. destruct (run_step n w A Hi Hsm Hr) as (w' & res & ? & _ & ?). eauto.
  - destruct (wd_runner w) as [| |res|] eqn:Hr; try (left; unfold act, waiting; by rewrite Hr).
    right. destruct (finish_step n w res Hi Hr) as (e' & He & _ & Hi').
    unfold act. rewrite Hr, He. cbn. eauto.
  - right. unfold act, beginClose, Begin. destruct Hi as [Htx Hst Hk Hr [Hwf Hc] Hsn].
    case_bool_decide as Hidle; eexists; (split; [done|]); apply Hw; split; simpl; try done.
    + by eapply stream_fields.
    + by eapply stream_fields.
  - destruct (wd_closer w) eqn:Hc; try (left; unfold act, waiting; by rewrite Hc).
    right. destruct (cancel_step n w Hi) as (s & e' & He & _ & Hnc & _ & _ & Hi').
    unfold act. rewrite Hc, He. cbn. eexists. split; [done|]. apply Hw.
    destruct Hi' as [? ? ? ? [Hwf Hcl] ?]. split; try done. simpl in *. rewrite Hc in Hcl. done.
  - destruct (wd_closer w) eqn:Hc; try (left; unfold act, waiting; by rewrite Hc).
    destruct (e_runDone (wd_exec w)) eqn:Hrd;
      [|left; unfold act, waiting, settleClose_resume; by rewrite Hc, Hrd].
    right. destruct (settle_step n w A Hi Hc Hrd) as (w' & err & ? & _ & _ & _ & _ & ?). eauto.
  - destruct (wd_closer w) as [| | |err|] eqn:Hc; try (left; unfold act, waiting; by rewrite Hc).
    right. unfold act. rewrite Hc. destruct Hi as [Htx Hst Hk Hr [Hwf Hcl] Hsn].
    rewrite Hc in Hcl. destruct Hcl as [Hs Ht]. unfold close_wf in Hwf. rewrite Hs in Hwf.
    unfold completeClose, Finish. rewrite Hs, Hwf. cbn. eexists. split; [done|].
    apply Hw. split; simpl; try done. by eapply stream_fields.
Qed.

Lemma attempt_inv n w a : inv n w → (n + 1 < 2 ^ 64)%Z → small_action a →
  ∃ w', attempt a w = Ret w' ∧ inv (n + 1) w'.
Proof using order_ok.
  intros Hi Hn Hsm. unfold attempt.
  destruct (act_inv n w a Hi Hn Hsm) as [[-> ->]|(w' & -> & Hi')]; [|eauto].
  exists w. split; [done|]. apply (inv_weaken n); [lia|done].
Qed.

Lemma schedule_inv n w actions :
  inv n w → (n + Z.of_nat (length actions) < 2 ^ 64)%Z → Forall small_action actions →
  ∃ w', schedule actions w = Ret w' ∧ inv (n + Z.of_nat (length actions)) w'.
Proof using order_ok.
  revert n w. induction actions as [|a actions IH]; intros n w Hi Hn Hsm; simpl in *.
  - exists w. split; [done|]. by rewrite Z.add_0_r.
  - apply Forall_cons in Hsm as [Ha Hsm].
    destruct (attempt_inv n w a Hi ltac:(lia) Ha) as (w1 & -> & Hi1). cbn.
    destruct (IH (n + 1)%Z w1 Hi1 ltac:(lia) Hsm) as (w' & Hw' & Hi'). exists w'.
    split; [done|]. eapply inv_weaken; [|done]. lia.
Qed.

Lemma initial_inv id rt :
  (Z.of_nat (length (t_text (er_target rt))) < 2 ^ 32)%Z → er_closeOnce rt = false →
  ∃ w, initial id rt = Ret w ∧ inv 0 w.
Proof using order_ok.
  intros Ht Ho. unfold initial, newExecution.
  set (e0 := mkExecution id rt StateCreated None None false newCloseOperation 0 None newHub).
  destruct (publish_stream 0 e0 newHistory EventCreated false) as (e & He & Hst & Hs & Hl & Hf).
  - assert (hub_ok watcherBufferSize (newHub (E:=Event)) ∧ tracks (newHub (E:=Event)) newHistory)
      as [Hh Htr] by (split; split; done).
    by split.
  - simpl. lia.
  - rewrite He. cbn. rewrite Hl. eexists. split; [done|]. injection Hf as F1 F2 F3 F4 F5 F6.
    split; simpl; rewrite ?F2, ?F3, ?F6; try done. unfold last_snapshot. by rewrite F3.
Qed.

(** A terminal execution is never changed again. *)
Lemma act_terminal n w a w' :
  inv n w → Terminal (e_state (wd_exec w)) = true → act a w = Ret w' →
  snapshotLocked (wd_exec w') = snapshotLocked (wd_exec w) ∧ wd_runner w' = wd_runner w ∧
  e_state (wd_exec w') = e_state (wd_exec w) ∧ hi_log (wd_history w') = hi_log (wd_history w).
Proof using order_ok.
  intros Hi Ht Ha. pose proof (iv_runner _ _ Hi) as Hr.
  assert (wd_runner w = NotStarted ∨ wd_runner w = Done) as Hnr.
  { destruct (e_state (wd_exec w)); try done; by destruct Hr. }
  destruct a.
  - destruct (start_step n w ctxErr1 ctxErr2 Hi) as (res & sp & e' & He & _ & Hsp & Hsame & _).
    unfold act in Ha. rewrite He in Ha. simpl in Ha. inv Ha.
    destruct sp; [destruct (proj1 Hsp eq_refl) as (_ & _ & Hc); by rewrite Hc in Ht|].
    rewrite (Hsame eq_refl). simpl. by rewrite record_publish_same.
  - destruct (cancel_step n w Hi) as (s & e' & He & _ & _ & Hsame & _).
    unfold act in Ha. rewrite He in Ha. simpl in Ha. inv Ha. rewrite (Hsame Ht). simpl.
    by rewrite record_publish_same.
  - unfold act, subscribe in Ha. rewrite Ht in Ha. by inv Ha.
  - unfold act in Ha. apply bind_Ret_inv in Ha as (e' & Hu & [= <-]).
    unfold unsubscribe in Hu. apply bind_Ret_inv in Hu as (h & _ & [= <-]). simpl.
    by destruct (bool_decide _).
  - unfold act in Ha. destruct (h_store _ !! id); [|done].
    apply bind_Ret_inv in Ha as ([ev h] & _ & [= <-]). simpl. by destruct ev.
  - unfold act in Ha. by destruct Hnr as [Hnr|Hnr]; rewrite Hnr in Ha.
  - unfold act in Ha. by destruct Hnr as [Hnr|Hnr]; rewrite Hnr in Ha.
  - unfold act in Ha. destruct (beginClose (wd_exec w)) as [owner e'] eqn:Hb. inv Ha. simpl.
    unfold beginClose in Hb. destruct (Begin _). by inv Hb.
  - unfold act in Ha. destruct (wd_closer w); try done.
    destruct (cancel_step n w Hi) as (s & e' & He & _ & _ & Hsame & _).
    rewrite He in Ha. simpl in Ha. inv Ha. rewrite (Hsame Ht). simpl. by rewrite record_publish_same.
  - destruct (wd_closer w) eqn:Hc; try (unfold act in Ha; by rewrite Hc in Ha).
    pose proof (st_done _ _ _ _ (iv_stream _ _ Hi)) as Hd. rewrite Ht in Hd.
    destruct (settle_step n w A Hi Hc Hd) as (w1 & err & Ha' & _ & _ & Hs & Hsn & _).
    assert (w1 = w') as <- by congruence. split_and!; [done| |done|].
    all: unfold act in Ha'; rewrite Hc in Ha';
      apply bind_Ret_inv in Ha' as ([? ?] & _ & [= <-]); done.
  - unfold act in Ha. destruct (wd_closer w); try done.
    apply bind_Ret_inv in Ha as (e' & Hco & [= <-]). unfold completeClose in Hco.
    apply bind_Ret_inv in Hco as (c & _ & [= <-]). done.
Qed.

Lemma schedule_terminal n w actions w' :
  inv n w → (n + Z.of_nat (length actions) < 2 ^ 64)%Z → Forall small_action actions →
  Terminal (e_state (wd_exec w)) = true → schedule actions w = Ret w' →
  snapshotLocked (wd_exec w') = snapshotLocked (wd_exec w) ∧
  hi_log (wd_history w') = hi_log (wd_history w).
Proof using order_ok.
  revert n w. induction actions as [|a actions IH]; intros n w Hi Hn Hsm Ht Hs; simpl in *.
  - by inv Hs.
  - apply Forall_cons in Hsm as [Ha Hsm].
    destruct (attempt_inv n w a Hi ltac:(lia) Ha) as (w1 & Hw1 & Hi1). rewrite Hw1 in Hs. cbn in Hs.
    assert (snapshotLocked (wd_exec w1) = snapshotLocked (wd_exec w) ∧
            e_state (wd_exec w1) = e_state (wd_exec w) ∧
            hi_log (wd_history w1) = hi_log (wd_history w)) as (H1 & H2 & H3).
    { unfold attempt in Hw1. destruct (act a w) as [w2|m|] eqn:Hact; [|done|by destruct (waiting a w); inv Hw1]. inv Hw1.
      destruct (act_terminal n w a w1 Hi Ht Hact) as (? & ? & ? & ?). done. }
    rewrite <- H1, <- H3. apply (IH (n + 1)%Z w1); try done; [lia|]. by rewrite H2.
Qed.

(** ** Teardown *)

Definition teardown (A : runtime_api plan sess) : list action :=
  [ABeginClose; ACloserCancel; ARun A; AFinish; ACloserSettle A; ACloserComplete].

(** The closer has requested the cancellation. *)
Definition past_cancel (k : closer) : Prop :=
  match k with NotClosing | Closing => False | _ => True end.

Lemma attempt_same a w : act a w = Block → waiting a w = true → attempt a w = Ret w.
Proof. unfold attempt. by intros -> ->. Qed.

Lemma attempt_act a w w' : act a w = Ret w' → attempt a w = Ret w'.
Proof. unfold attempt. by intros ->. Qed.

Lemma teardown_begin n w : inv n w →
  ∃ w', attempt ABeginClose w = Ret w' ∧ wd_closer w' ≠ NotClosing.
Proof.
  intros Hi. destruct (iv_closer _ _ Hi) as [Hwf Hc].
  unfold attempt, act, beginClose, Begin. case_bool_decide as Hs; eexists; (split; [done|]); simpl; [|done].
  intros Hk. by rewrite Hk in Hc.
Qed.

Lemma teardown_cancel n w : inv n w → wd_closer w ≠ NotClosing →
  ∃ w', attempt ACloserCancel w = Ret w' ∧ past_cancel (wd_closer w') ∧
        e_state (wd_exec w') ≠ StateCreated.
Proof using order_ok.
  intros Hi Hk. destruct (iv_closer _ _ Hi) as [_ Hc]. unfold attempt, act, waiting.
  destruct (wd_closer w) eqn:Ek; [done| |exists w; rewrite Ek; split; [done|]; split; [done|]..].
  - destruct (cancel_step n w Hi) as (s & e' & -> & _ & Hne & _). cbn. by eexists.
  - apply Hc.
  - destruct Hc as [_ Ht]. by destruct (e_state (wd_exec w)).
  - destruct Hc as [_ Ht]. by destruct (e_state (wd_exec w)).
Qed.

(** After [run] and [finish] a started or cancelled execution is terminal. *)
Lemma teardown_run n w A : inv n w → (n + 1 < 2 ^ 64)%Z → small_api A →
  past_cancel (wd_closer w) → e_state (wd_exec w) ≠ StateCreated →
  ∃ w1 w2, attempt (ARun A) w = Ret w1 ∧ attempt AFinish w1 = Ret w2 ∧
    past_cancel (wd_closer w2) ∧ Terminal (e_state (wd_exec w2)) = true ∧ inv (n + 1) w2.
Proof using order_ok.
  intros Hi Hn Hsm Hk Hne. assert (∀ v res, inv n v → wd_runner v = Ran res → past_cancel (wd_closer v) →
    ∃ w2, attempt AFinish v = Ret w2 ∧ past_cancel (wd_closer w2) ∧
      Terminal (e_state (wd_exec w2)) = true ∧ inv (n + 1) w2) as Hfin.
  { intros v res Hv Hr Hkv. destruct (finish_step n v res Hv Hr) as (e' & He & Ht & Hi').
    unfold attempt, act. rewrite Hr, He. cbn. eexists. split; [done|]. split; [done|].
    split; [done|]. apply (inv_weaken n); [lia|done]. }
  pose proof (iv_runner _ _ Hi) as Hr. destruct (Terminal (e_state (wd_exec w))) eqn:Ht.
  - assert (wd_runner w = NotStarted ∨ wd_runner w = Done) as Hnr.
    { destruct (e_state (wd_exec w)); try done; by destruct Hr. }
    exists w, w. rewrite !attempt_same by (unfold act, waiting; by destruct Hnr as [Hnr|Hnr]; rewrite Hnr).
    split_and!; try done. apply (inv_weaken n); [lia|done].
  - assert (e_state (wd_exec w) = StateRunning) as Es by (by destruct (e_state (wd_exec w))).
    rewrite Es in Hr. destruct Hr as [[Hr _]|(res & Hr & _)].
    + destruct (run_step n w A Hi Hsm Hr) as (w1 & res & Ha & Hr1 & Hi1).
      assert (wd_closer w1 = wd_closer w) as Hk1.
      { unfold act in Ha. rewrite Hr in Ha. destruct (run A _). by inv Ha. }
      destruct (Hfin w1 res Hi1 Hr1 ltac:(by rewrite Hk1)) as (w2 & ? & ?).
      exists w1, w2. split; [by apply attempt_act|]. done.
    + destruct (Hfin w res Hi Hr Hk) as (w2 & ? & ?). exists w, w2.
      split; [apply attempt_same; unfold act, waiting; by rewrite Hr|]. done.
Qed.

Lemma teardown_settle n w A : inv n w → past_cancel (wd_closer w) →
  Terminal (e_state (wd_exec w)) = true →
  ∃ w1 w2, attempt (ACloserSettle A) w = Ret w1 ∧ attempt ACloserComplete w1 = Ret w2 ∧
    wd_closer w2 = Closed ∧ Terminal (e_state (wd_exec w2)) = true.
Proof using order_ok.
  intros Hi Hk Ht. assert (∀ v err, inv n v → wd_closer v = Settled err →
    ∃ w2, attempt ACloserComplete v = Ret w2 ∧ wd_closer w2 = Closed ∧
      Terminal (e_state (wd_exec w2)) = true) as Hco.
  { intros v err Hv Hc. destruct (iv_closer _ _ Hv) as [Hwf Hcl]. rewrite Hc in Hcl.
    destruct Hcl as [Hs Htv]. unfold close_wf in Hwf. rewrite Hs in Hwf.
    unfold attempt, act, completeClose, Finish. rewrite Hc, Hs, Hwf. by eexists. }
  pose proof (st_done _ _ _ _ (iv_stream _ _ Hi)) as Hd. rewrite Ht in Hd.
  destruct (wd_closer w) as [| | |err|] eqn:Ek; try done.
  - destruct (settle_step n w A Hi Ek Hd) as (w1 & err & Ha & Hk1 & _ & _ & _ & Hi1).
    destruct (Hco w1 err Hi1 Hk1) as (w2 & ? & ?). exists w1, w2. split; [by apply attempt_act|done].
  - destruct (Hco w err Hi Ek) as (w2 & ? & ?). exists w, w2.
    split; [apply attempt_same; unfold act, waiting; by rewrite Ek|done].
  - exists w, w. rewrite !attempt_same by (unfold act, waiting; by rewrite Ek). done.
Qed.
End execution.

Arguments execution : clear implicits.
Arguments action : clear implicits.
Arguments world : clear implicits.

(** ** Properties *)

(** The hypotheses on the environment: watchers are visited in some order, the
    runtime is fresh, the texts of its diagnostics fit the mapper, and fewer
    than 2^64 operations are performed. *)
Definition admissible {plan sess : Type} (order : gset Z → list Z)
    (rt : executionRuntime plan sess) (actions : list (action plan sess)) : Prop :=
  (∀ X, order X ≡ₚ elements X) ∧
  (Z.of_nat (length (t_text (er_target rt))) < 2 ^ 32)%Z ∧ er_closeOnce rt = false ∧
  (Z.of_nat (length actions) < 2 ^ 64 - 8)%Z ∧ Forall small_action actions.

(** The world reached by a schedule of operations on a new execution. *)
Definition reached {plan sess : Type} (order : gset Z → list Z) (id : string)
    (rt : executionRuntime plan sess) (actions : list (action plan sess)) :
    outcome (world plan sess) :=
  w ← initial order id rt; schedule order actions w.

Lemma reached_inv {plan sess} order id (rt : executionRuntime plan sess) actions :
  admissible order rt actions →
  ∃ w, reached order id rt actions = Ret w ∧ inv (Z.of_nat (length actions)) w.
Proof.
  intros (Ho & Ht & Hc & Hn & Hs). unfold reached.
  destruct (initial_inv order Ho id rt Ht Hc) as (w0 & -> & Hi0). cbn.
  by apply (schedule_inv order Ho 0 w0 actions Hi0); [lia|].
Qed.

Lemma schedule_app {plan sess} order (xs ys : list (action plan sess)) w :
  schedule order (xs ++ ys) w = schedule order xs w ≫= schedule order ys.
Proof.
  revert w. induction xs as [|a xs IH]; intros w; simpl; [done|].
  destruct (attempt order a w); cbn; [apply IH|done..].
Qed.

Lemma reached_app {plan sess} order id (rt : executionRuntime plan sess) xs ys w w' :
  reached order id rt xs = Ret w → schedule order ys w = Ret w' → reached order id rt (xs ++ ys) = Ret w'.
Proof.
  unfold reached. intros Hx Hy. destruct (initial order id rt) as [w0|m|]; [|done..]. simpl in *.
  by rewrite schedule_app, Hx.
Qed.

(** A runtime and a schedule for the witnesses: a run that fails while it is
    being watched and closed. *)
Definition sample_runtime : executionRuntime unit nat :=
  newExecutionRuntime sample_target (mkRuntimeInput None (mkRuntimeOptions "text" "")).

Definition sample_actions : list (action unit nat) :=
  [ASubscribe; AStart None None; ABeginClose; ACloserCancel; ACancel; AReceive 1; ARun sample_api;
   AStart None None; AFinish; AReceive 1].

Lemma sample_admissible : admissible elements sample_runtime sample_actions.
Proof.
  split; [done|]. split; [vm_compute; reflexivity|]. split; [done|].
  split; [vm_compute; reflexivity|]. repeat constructor.
Qed.

(** C1. Safety of executions: under every interleaving of starts, cancels,
    subscriptions, receives, the run goroutine and the teardown, no operation
    panics (no double close of [runDone] or of a watcher channel, no send on a
    closed channel) and none blocks while it holds the lock: every section that
    is under way returns, and only the receives outside the lock wait, of a
    consumer from its channel and of the teardown from [runDone]; the published
    events are numbered 1, 2, ... and form one of the words created,
    created-started-(completed | failed | cancelled) or created-cancelled that
    belongs to the current state, and [runDone] is closed exactly in a terminal
    state.  The query's text and those of the errors' diagnostics are of less than
    [2^32] bytes, and there are fewer than [2^64 - 8] actions. *)
Theorem execution_safe {plan sess : Type} (order : gset Z → list Z) (id : string)
    (rt : executionRuntime plan sess) (actions : list (action plan sess)) :
  admissible order rt actions →
  ∃ w, reached order id rt actions = Ret w ∧
    kinds_ok (e_state (wd_exec w)) (map ev_Kind (hi_log (wd_history w))) ∧
    (∀ i ev, hi_log (wd_history w) !! i = Some ev → ev_Sequence ev = Z.of_nat (S i)) ∧
    e_lastEvent (wd_exec w) = last (hi_log (wd_history w)) ∧
    e_runDone (wd_exec w) = Terminal (e_state (wd_exec w)) ∧
    (∀ a, small_action a → waiting a w = false → ∃ w', act order a w = Ret w').
Proof.
  intros Ha. destruct (reached_inv order id rt actions Ha) as (w & Hw & Hi). exists w.
  pose proof Hi as [_ [_ _ _ _ Hl He Hd _ _ _] Hk _ _ _]. split_and!; try done.
  - intros i ev Hev. by apply He.
  - intros a Hsmall Hwait. destruct Ha as (Ho & _ & _ & Hn & _).
    destruct (act_inv order Ho _ w a Hi ltac:(lia) Hsmall) as [[_ Hb]|(w' & Hact & _)]; [congruence|eauto].
Qed.

Lemma execution_safe_witness :
  ∃ w, reached elements "x" sample_runtime sample_actions = Ret w ∧
    kinds_ok (e_state (wd_exec w)) (map ev_Kind (hi_log (wd_history w))).
Proof.
  destruct (execution_safe elements "x" sample_runtime sample_actions sample_admissible)
    as (w & Hw & Hk & _). exists w. split; [exact Hw|exact Hk].
Defined.

(** A terminal execution is final: whatever operations follow, its state,
    output and failure stay what they were when the terminal event was
    published, that event carries exactly this snapshot, and no further event
    is published. *)
Theorem execution_terminal_final {plan sess : Type} (order : gset Z → list Z) (id : string)
    (rt : executionRuntime plan sess) (before after : list (action plan sess)) (w : world plan sess) :
  admissible order rt (before ++ after) →
  reached order id rt before = Ret w → Terminal (e_state (wd_exec w)) = true →
  ∃ w', schedule order after w = Ret w' ∧
    snapshotLocked (wd_exec w') = snapshotLocked (wd_exec w) ∧
    ev_Snapshot <$> last (hi_log (wd_history w')) = Some (snapshotLocked (wd_exec w)) ∧
    hi_log (wd_history w') = hi_log (wd_history w).
Proof.
  intros (Ho & Htx & Hc & Hn & Hs) Hw Ht. rewrite length_app in Hn. apply Forall_app in Hs as [Hs1 Hs2].
  destruct (reached_inv order id rt before) as (w1 & Hw1 & Hi).
  { split_and!; try done. lia. }
  assert (w1 = w) as -> by congruence.
  destruct (schedule_inv order Ho _ w after Hi ltac:(lia) Hs2) as (w' & Hw' & _).
  destruct (schedule_terminal order Ho _ w after w' Hi ltac:(lia) Hs2 Ht Hw') as [Hsn Hl].
  exists w'. split_and!; try done.
  rewrite Hl, <- (st_last _ _ _ _ (iv_stream _ _ Hi)). by apply (iv_snapshot _ _ Hi).
Qed.

Lemma execution_terminal_final_witness :
  ∃ w w', reached elements "x" sample_runtime sample_actions = Ret w ∧
    schedule elements [ACancel; AStart None None] w = Ret w' ∧
    snapshotLocked (wd_exec w') = snapshotLocked (wd_exec w).
Proof.
  eexists. edestruct (execution_terminal_final elements "x" sample_runtime sample_actions
    [ACancel; AStart None None]) as (w' & Hw' & Hsn & _).
  - destruct sample_admissible as (H1 & H2 & H3 & H4 & H5). split; [exact H1|]. split; [exact H2|].
    split; [exact H3|]. split; [vm_compute; reflexivity|]. repeat constructor.
  - vm_compute. reflexivity.
  - vm_compute. reflexivity.
  - exists w'. split; [vm_compute; reflexivity|]. split; [exact Hw'|exact Hsn].
Defined.

(** Watchers of an execution never lag and lose nothing: with its buffer of
    eight, no watcher is ever dropped with [ErrWatcherLagged]; what a watcher
    received followed by what is queued for it is exactly the events published
    since it subscribed unless it cancelled (then a prefix of them), and once
    the execution is terminal its channels are closed behind the last event. *)
Theorem execution_watchers_complete {plan sess : Type} (order : gset Z → list Z) (id : string)
    (rt : executionRuntime plan sess) (actions : list (action plan sess)) (w : world plan sess)
    (wid : Z) (v : watcher Event) :
  admissible order rt actions → reached order id rt actions = Ret w →
  h_store (e_hub (wd_exec w)) !! wid = Some v →
  w_errors v = [] ∧
  ∃ since seen, hi_since (wd_history w) !! wid = Some since ∧ hi_seen (wd_history w) !! wid = Some seen ∧
    (seen ++ w_events v) `prefix_of` drop since (hi_log (wd_history w)) ∧
    (wid ∉ hi_cancelled (wd_history w) → seen ++ w_events v = drop since (hi_log (wd_history w))) ∧
    (Terminal (e_state (wd_exec w)) = true → w_eventsClosed v = true ∧ w_errorsClosed v = true).
Proof.
  intros Ha Hw Hv. destruct (reached_inv order id rt actions Ha) as (w1 & Hw1 & Hi).
  assert (w1 = w) as -> by congruence.
  pose proof (iv_stream _ _ Hi) as [Hh Ht Hne _ _ _ _ Hf _ _].
  split; [by eapply Hne|].
  destruct (tk_observes _ _ Ht _ _ Hv) as (since & seen & H1 & H2 & _ & H3 & H4).
  exists since, seen. split_and!; try done.
  - intros Hnc. apply H4; [by eapply Hne|done].
  - intros Hterm. rewrite Hterm in Hf. pose proof (tk_final _ _ Ht Hf) as Hl.
    destruct (ho_store _ _ Hh _ _ Hv) as [_ (_ & _ & He & Her & _)].
    rewrite Hl, bool_decide_eq_false_2 in He, Her by set_solver. done.
Qed.

Lemma execution_watchers_complete_witness :
  ∃ w v seen, reached elements "x" sample_runtime sample_actions = Ret w ∧
    h_store (e_hub (wd_exec w)) !! 1%Z = Some v ∧ hi_seen (wd_history w) !! 1%Z = Some seen ∧
    seen ++ w_events v = drop 1 (hi_log (wd_history w)).
Proof.
  pose proof (λ w v, execution_watchers_complete elements "x" sample_runtime sample_actions w 1%Z v
    sample_admissible) as H.
  edestruct H as (_ & since & seen & H1 & H2 & _ & H3 & _).
  - vm_compute. reflexivity.
  - vm_compute. reflexivity.
  - eexists _, _, seen. split; [vm_compute; reflexivity|]. split; [vm_compute; reflexivity|].
    split; [exact H2|]. vm_compute in H1. injection H1 as <-. apply H3.
    apply not_elem_of_empty.
Defined.

(** C4. Teardown always completes: from every reachable world, whatever the
    run goroutine and the teardown have done so far, letting the teardown's
    owner and the run goroutine proceed reaches a terminal execution whose close
    operation is finished, so no closer waits forever.  The query's text and those of the
    errors' diagnostics are of less than [2^32] bytes, and there are fewer than
    [2^64 - 8] actions. *)
Theorem execution_teardown_completes {plan sess : Type} (order : gset Z → list Z) (id : string)
    (rt : executionRuntime plan sess) (actions : list (action plan sess)) (A : runtime_api plan sess) :
  admissible order rt actions → small_api A →
  ∃ w, reached order id rt (actions ++ teardown A) = Ret w ∧
    Terminal (e_state (wd_exec w)) = true ∧ e_runDone (wd_exec w) = true ∧
    Finished (e_close (wd_exec w)) = true ∧ h_live (e_hub (wd_exec w)) = ∅.
Proof.
  intros Had HA. pose proof Had as (Ho & Htx & Hc & Hn & Hs).
  destruct (reached_inv order id rt actions Had) as (w0 & Hw0 & Hi0).
  set (n := Z.of_nat (length actions)) in *.
  assert (small_action (ARun A) ∧ small_action (ACloserSettle A)) as [Hr Hse] by done.
  destruct (teardown_begin order n w0 Hi0) as (w1 & Ha1 & Hk1).
  destruct (attempt_inv order Ho n w0 ABeginClose Hi0 ltac:(lia) I) as (w1' & Ha1' & Hi1).
  assert (w1' = w1) as -> by congruence.
  destruct (teardown_cancel order Ho _ w1 Hi1 Hk1) as (w2 & Ha2 & Hk2 & Hne2).
  destruct (attempt_inv order Ho _ w1 ACloserCancel Hi1 ltac:(lia) I) as (w2' & Ha2' & Hi2).
  assert (w2' = w2) as -> by congruence.
  destruct (teardown_run order Ho _ w2 A Hi2 ltac:(lia) HA Hk2 Hne2)
    as (w3 & w4 & Ha3 & Ha4 & Hk4 & Ht4 & Hi4).
  destruct (teardown_settle order Ho _ w4 A Hi4 Hk4 Ht4) as (w5 & w6 & Ha5 & Ha6 & Hk6 & Ht6).
  destruct (schedule_inv order Ho n w0 (teardown A) Hi0) as (w & Hw & Hi);
    [simpl; lia|unfold teardown; rewrite !Forall_cons, Forall_nil; done|].
  assert (schedule order (teardown A) w0 = Ret w6) as Hw6.
  { simpl. rewrite Ha1. cbn. rewrite Ha2. cbn. rewrite Ha3. cbn. rewrite Ha4. cbn.
    rewrite Ha5. cbn. by rewrite Ha6. }
  assert (w = w6) as -> by congruence.
  exists w6. split; [by apply reached_app with w0|].
  pose proof (iv_stream _ _ Hi) as [_ Htr _ _ _ _ Hd Hf _ _]. rewrite Ht6 in Hd, Hf.
  destruct (iv_closer _ _ Hi) as [_ Hcl]. rewrite Hk6 in Hcl. destruct Hcl as [Hcl _].
  split_and!; try done; [unfold Finished; by rewrite Hcl|by apply (tk_final _ _ Htr)].
Qed.

Lemma execution_teardown_completes_witness :
  ∃ w, reached elements "x" sample_runtime (sample_actions ++ teardown sample_api) = Ret w ∧
    Terminal (e_state (wd_exec w)) = true ∧ Finished (e_close (wd_exec w)) = true.
Proof.
  destruct (execution_teardown_completes elements "x" sample_runtime sample_actions sample_api)
    as (w & Hw & Ht & _ & Hf & _).
  - exact sample_admissible.
  - split; [|split]; intros; exact I || constructor.
  - exists w. split; [exact Hw|]. split; [exact Ht|exact Hf].
Defined.
