(* ===== verification/DebugSession.v ===== *)
(** * Debug sessions

    [internal/debug]: a retained debugger session ([session.go],
    [session_commands.go], [session_lifecycle.go], [session_watch.go],
    [session_snapshot.go], [session_inspection.go], [session_breakpoints.go])
    and the runtime it owns ([internal/exec/debug_runtime.go]).  As in
    [Execution], a body that holds [session.mu] is one function; the goroutines
    of [runCommand] and [terminate] and the owner of the teardown are program
    counters of [world].  The debugger's answers are arguments of the actions. *)

From S2P Require Import Prelude Paths Source Errors Diagnostics Lifecycle Watchers Parameters ExecRuntime.

(** ** Data *)

Inductive State :=
| StateCreated | StateRunning | StateStopped | StateCompleted | StateFailed | StateTerminated.

Inductive EventKind :=
| EventCreated | EventRunning | EventStopped | EventCompleted | EventFailed | EventTerminated.

(** [apidebugger.Reason]; the empty reason is [ReasonNone]. *)
Inductive Reason :=
| ReasonNone | ReasonEntry | ReasonBreakpoint | ReasonStep | ReasonPause | ReasonRuntimeError
| ReasonCompleted | ReasonTerminated | ReasonOther (name : string).

Global Instance debug_State_eq_dec : EqDecision State.
Proof. solve_decision. Defined.
Global Instance debug_EventKind_eq_dec : EqDecision EventKind.
Proof. solve_decision. Defined.
Global Instance Reason_eq_dec : EqDecision Reason.
Proof. solve_decision. Defined.

Definition Terminal (s : State) : bool :=
  bool_decide (s = StateCompleted) || bool_decide (s = StateFailed) || bool_decide (s = StateTerminated).

(** The fields of [apisource.Location] are not inspected: a location is opaque,
    the zero location is [zeroLocation]. *)
Definition Location : Type := string.
Definition zeroLocation : Location := "".

(** A stop or an end reported by the debugger. *)
Record RuntimeEvent := mkRuntimeEvent {
  re_Reason : Reason;
  re_Location : Location;
  re_HitBreakpointIDs : list Z;
  re_Error : option error;
  re_Output : option Output
}.

Record SessionSnapshot := mkSessionSnapshot {
  ds_ID : string;
  ds_ExecutionSession : string;
  ds_State : State;
  ds_Reason : Reason;
  ds_Location : Location;
  ds_HitBreakpointIDs : list Z;
  ds_Parameters : params;
  ds_Options : RuntimeOptions;
  ds_Output : option Output;
  ds_Failure : option RuntimeFailure
}.

Definition Snapshot_Clone (s : SessionSnapshot) : SessionSnapshot :=
  mkSessionSnapshot (ds_ID s) (ds_ExecutionSession s) (ds_State s) (ds_Reason s) (ds_Location s)
    ([] ++ ds_HitBreakpointIDs s) (ds_Parameters s) (ds_Options s) (cloneOutput (ds_Output s))
    (RuntimeFailure_Clone (ds_Failure s)).

Record Event := mkEvent {
  ev_Session : string;
  ev_Sequence : Z;
  ev_Kind : EventKind;
  ev_Snapshot : SessionSnapshot
}.

Definition Event_clone (e : Event) : Event :=
  mkEvent (ev_Session e) (ev_Sequence e) (ev_Kind e) (Snapshot_Clone (ev_Snapshot e)).

Lemma debug_Event_clone_id e : Event_clone e = e.
Proof.
  destruct e as [? ? ? []]. unfold Event_clone, Snapshot_Clone. simpl.
  by rewrite cloneOutput_id, RuntimeFailure_Clone_id.
Qed.

Definition watcherBufferSize : nat := 8.

(** ** The debug runtime *)

Section session.
Context {plan sess : Type}.
Context (A : runtime_api plan sess).
Context (order : gset Z → list Z).

(** [dr_leaseOnce] is the lease's [sync.Once]; [dr_releases] counts the calls of
    the parent's [releaseDebugRuntime]. *)
Record DebugRuntime := mkDebugRuntime {
  dr_runtime : executionRuntime plan sess;
  dr_leaseOnce : bool;
  dr_releases : nat
}.

Definition newDebugRuntime (runtime : executionRuntime plan sess) : DebugRuntime :=
  mkDebugRuntime runtime false 0.

(** [debugPlanLease.release]. *)
Definition release (r : DebugRuntime) : DebugRuntime :=
  if dr_leaseOnce r then r else mkDebugRuntime (dr_runtime r) true (S (dr_releases r)).

(** [DebugRuntime.Close]. *)
Definition DebugRuntime_Close (r : DebugRuntime) : option error * DebugRuntime :=
  let rt := cancel (ESentinel ExecErrExecutionCanceled) (dr_runtime r) in
  let '(err, rt) := closeSession A rt in
  (err, release (mkDebugRuntime rt (dr_leaseOnce r) (dr_releases r))).

(** ** The session *)

Record session := mkSession {
  d_id : string;
  d_runtime : DebugRuntime;
  d_state : State;
  d_reason : Reason;
  d_location : Location;
  d_hitBreakpointIDs : list Z;
  d_output : option Output;
  d_failure : option RuntimeFailure;
  d_terminating : bool;
  d_close : CloseOperation;
  d_terminalDone : bool;
  d_sequence : Z;
  d_lastEvent : option Event;
  d_hub : hub Event
}.

(** The fields that describe the debuggee. *)
Record view := mkView {
  v_state : State;
  v_reason : Reason;
  v_location : Location;
  v_hits : list Z;
  v_output : option Output;
  v_failure : option RuntimeFailure
}.

Definition view_of (d : session) : view :=
  mkView (d_state d) (d_reason d) (d_location d) (d_hitBreakpointIDs d) (d_output d) (d_failure d).

Definition set_view (v : view) (d : session) : session :=
  mkSession (d_id d) (d_runtime d) (v_state v) (v_reason v) (v_location v) (v_hits v) (v_output v)
    (v_failure v) (d_terminating d) (d_close d) (d_terminalDone d) (d_sequence d) (d_lastEvent d)
    (d_hub d).

Definition set_runtime (r : DebugRuntime) (d : session) : session :=
  mkSession (d_id d) r (d_state d) (d_reason d) (d_location d) (d_hitBreakpointIDs d) (d_output d)
    (d_failure d) (d_terminating d) (d_close d) (d_terminalDone d) (d_sequence d) (d_lastEvent d)
    (d_hub d).

Definition set_terminating (d : session) : session :=
  mkSession (d_id d) (d_runtime d) (d_state d) (d_reason d) (d_location d) (d_hitBreakpointIDs d)
    (d_output d) (d_failure d) true (d_close d) (d_terminalDone d) (d_sequence d) (d_lastEvent d)
    (d_hub d).

Definition set_close (c : CloseOperation) (d : session) : session :=
  mkSession (d_id d) (d_runtime d) (d_state d) (d_reason d) (d_location d) (d_hitBreakpointIDs d)
    (d_output d) (d_failure d) (d_terminating d) c (d_terminalDone d) (d_sequence d) (d_lastEvent d)
    (d_hub d).

Definition set_hub (h : hub Event) (d : session) : session :=
  mkSession (d_id d) (d_runtime d) (d_state d) (d_reason d) (d_location d) (d_hitBreakpointIDs d)
    (d_output d) (d_failure d) (d_terminating d) (d_close d) (d_terminalDone d) (d_sequence d)
    (d_lastEvent d) h.

Definition snapshotLocked (d : session) : SessionSnapshot :=
  mkSessionSnapshot (d_id d) (t_sessionID (er_target (dr_runtime (d_runtime d)))) (d_state d)
    (d_reason d) (d_location d) ([] ++ d_hitBreakpointIDs d)
    (in_parameters (er_input (dr_runtime (d_runtime d))))
    (in_options (er_input (dr_runtime (d_runtime d))))
    (cloneOutput (d_output d)) (RuntimeFailure_Clone (d_failure d)).

Definition publishLocked (kind : EventKind) (terminal : bool) (d : session) : outcome session :=
  let sequence := u64 (d_sequence d + 1) in
  let lastEvent := mkEvent (d_id d) sequence kind (snapshotLocked d) in
  h ← publish_loop watcherBufferSize (ESentinel DebugErrWatcherLagged) (Event_clone lastEvent)
        terminal (order (h_live (d_hub d))) (d_hub d);
  terminalDone ← (if terminal
                  then if d_terminalDone d then Panic "close of closed channel" else Ret true
                  else Ret (d_terminalDone d));
  Ret (mkSession (d_id d) (d_runtime d) (d_state d) (d_reason d) (d_location d)
         (d_hitBreakpointIDs d) (d_output d) (d_failure d) (d_terminating d) (d_close d) terminalDone
         sequence (Some lastEvent) h).

Definition newSession (id : string) (runtime : DebugRuntime) : outcome session :=
  publishLocked EventCreated false
    (mkSession id runtime StateCreated ReasonNone zeroLocation [] None None false newCloseOperation
       false 0 None newHub).

Definition requireActive (d : session) : option error :=
  if Terminal (d_state d) || d_terminating d || Started (d_close d)
  then Some (ESentinel DebugErrSessionTerminal) else None.

Definition requireStopped (d : session) : option error :=
  if bool_decide (d_state d = StateRunning) then Some (ESentinel DebugErrSessionRunning)
  else if bool_decide (d_state d ≠ StateStopped) || Started (d_close d)
  then Some (ESentinel DebugErrSessionNotStopped) else None.

(** [resumeCommand] reads whether it resumes from a runtime error. *)
Definition resumeCommand (d : session) : bool :=
  bool_decide (d_state d = StateStopped) && bool_decide (d_reason d = ReasonRuntimeError).

(** [startCommand]: the two readings of [ctx.Err()], the snapshot or the error,
    and whether the goroutine of [runCommand] was started. *)
Definition startCommand (ctxErr1 ctxErr2 : option error) (expected : State) (d : session) :
    outcome ((SessionSnapshot + error) * bool * session) :=
  match ctxErr1 with
  | Some err => Ret (inr err, false, d)
  | None =>
      match ctxErr2 with
      | Some err => Ret (inr err, false, d)
      | None =>
          if d_terminating d || Started (d_close d) then
            Ret (inr (ESentinel DebugErrSessionTerminal), false, d)
          else if bool_decide (d_state d ≠ expected) then
            if bool_decide (d_state d = StateRunning)
            then Ret (inr (ESentinel DebugErrSessionRunning), false, d)
            else Ret (inr (ESentinel DebugErrSessionTerminal), false, d)
          else
            let d := set_view (mkView StateRunning ReasonNone zeroLocation [] (d_output d) None) d in
            d ← publishLocked EventRunning false d;
            Ret (inl (snapshotLocked d), true, d)
      end
  end.

(** [MaterializeFailure]. *)
Definition MaterializeFailure (d : session) (err : option error) : outcome (option RuntimeFailure) :=
  materializeFailure (dr_runtime (d_runtime d)) err.

Definition failLocked (err : option error) (d : session) : outcome session :=
  failure ← MaterializeFailure d err;
  let v := view_of d in
  publishLocked EventFailed true
    (set_view (mkView StateFailed (v_reason v) (v_location v) (v_hits v) (v_output v) failure) d).

Definition stopLocked (reason : Reason) (d : session) : outcome session :=
  let v := view_of d in
  publishLocked EventStopped false
    (set_view (mkView StateStopped reason (v_location v) (v_hits v) (v_output v) None) d).

Definition applyRuntimeEventLocked (event : option RuntimeEvent) (runtimeErrorResume : bool)
    (d : session) : outcome session :=
  match event with
  | None => failLocked (Some (ENew "debug execution returned no event")) d
  | Some event =>
      let v := view_of d in
      let d := set_view (mkView (v_state v) (v_reason v) (re_Location event) (v_hits v) (v_output v)
                           (v_failure v)) d in
      let v := view_of d in
      match re_Reason event with
      | ReasonEntry => stopLocked ReasonEntry d
      | ReasonBreakpoint =>
          stopLocked ReasonBreakpoint
            (set_view (mkView (v_state v) (v_reason v) (v_location v) ([] ++ re_HitBreakpointIDs event)
                         (v_output v) (v_failure v)) d)
      | ReasonStep => stopLocked ReasonStep d
      | ReasonPause => stopLocked ReasonPause d
      | ReasonRuntimeError =>
          failure ← MaterializeFailure d (re_Error event);
          publishLocked EventStopped false
            (set_view (mkView StateStopped ReasonRuntimeError (v_location v) (v_hits v) (v_output v)
                         failure) d)
      | ReasonCompleted =>
          publishLocked EventCompleted true
            (set_view (mkView StateCompleted (v_reason v) (v_location v) (v_hits v)
                         (cloneOutput (re_Output event)) (v_failure v)) d)
      | ReasonTerminated =>
          if runtimeErrorResume && bool_decide (re_Error event ≠ None) && negb (d_terminating d)
          then failLocked (re_Error event) d
          else
            publishLocked EventTerminated true
              (set_view (mkView StateTerminated (v_reason v) (v_location v) (v_hits v) (v_output v)
                           (v_failure v)) d)
      | ReasonNone | ReasonOther _ =>
          failLocked (Some (ENew "debug execution returned an unknown event")) d
      end
  end.

(** The end of [runCommand], with the command's answer. *)
Definition runCommand (event : option RuntimeEvent) (err : option error) (runtimeErrorResume : bool)
    (d : session) : outcome session :=
  if bool_decide (d_state d ≠ StateRunning) then Ret d
  else
    match err with
    | Some _ =>
        let v := view_of d in
        let d :=
          match event with
          | Some event =>
              set_view (mkView (v_state v) (v_reason v) (v_location v) (v_hits v)
                          (cloneOutput (re_Output event)) (v_failure v)) d
          | None => d
          end in
        let v := view_of d in
        if d_terminating d then
          publishLocked EventTerminated true
            (set_view (mkView StateTerminated (v_reason v) (v_location v) (v_hits v) (v_output v)
                         (v_failure v)) d)
        else failLocked err d
    | None => applyRuntimeEventLocked event runtimeErrorResume d
    end.

(** [requestTermination]: whether the goroutine of [terminate] was started. *)
Definition requestTermination (d : session) : bool * session :=
  if Terminal (d_state d) || d_terminating d then (false, d)
  else (true, set_terminating d).

(** [terminate] after its [runtime.Close]. *)
Definition terminate_finish (d : session) : outcome session :=
  if Terminal (d_state d) then Ret d
  else
    let v := view_of d in
    publishLocked EventTerminated true
      (set_view (mkView StateTerminated ReasonNone zeroLocation (v_hits v) (v_output v) None) d).

(** [pause]: the state is checked in [d]; the debugger's answer comes without
    the lock, and the snapshot is taken in a later state [d']. *)
Definition pause (ctxErr : option error) (d : session) (pauseErr : option error) (d' : session) :
    SessionSnapshot + error :=
  match ctxErr with
  | Some err => inr err
  | None =>
      if bool_decide (d_state d ≠ StateRunning) then inr (ESentinel DebugErrSessionNotRunning)
      else match pauseErr with
           | Some err => inr err
           | None => inl (snapshotLocked d')
           end
  end.

(** [terminateExecution]: the request, then a snapshot. *)
Definition terminateExecution (ctxErr : option error) (d : session) :
    (SessionSnapshot + error) * bool * session :=
  match ctxErr with
  | Some err => (inr err, false, d)
  | None =>
      let '(spawned, d) := requestTermination d in
      (inl (snapshotLocked d), spawned, d)
  end.

Definition subscribe (d : session) : option Event * option Z * session :=
  let current := Event_clone <$> d_lastEvent d in
  if Terminal (d_state d) then (current, None, d)
  else
    let '(id, h) := hub_subscribe (d_hub d) in
    (current, Some id, set_hub h d).

Definition unsubscribe (id : Z) (d : session) : outcome session :=
  h ← hub_unsubscribe id (d_hub d); Ret (set_hub h d).

Definition beginClose (d : session) : bool * session :=
  let '(owner, c) := Begin (d_close d) in (owner, set_close c d).

(** [settleClose] after its request: the receive from [terminalDone], then the
    runtime and the remaining watchers are closed. *)
Definition settleClose_resume (d : session) : outcome session :=
  if negb (d_terminalDone d) then Block
  else
    let '(_, r) := DebugRuntime_Close (d_runtime d) in
    let d := set_runtime r d in
    h ← close_loop (order (h_live (d_hub d))) (d_hub d);
    Ret (set_hub h d).

Definition completeClose (d : session) : outcome session :=
  let '(err, r) := DebugRuntime_Close (d_runtime d) in
  c ← Finish err (d_close d);
  Ret (set_close c (set_runtime r d)).

(** ** Inspection *)

Record Variable_ := mkVariable { va_Name : string; va_Param : bool }.

Inductive ScopeKind := ScopeLocals | ScopeParameters.

Record Scope := mkScope { sc_Kind : ScopeKind; sc_Name : string; sc_Variables : list Variable_ }.

(** The loop of [scopes]. *)
Fixpoint scope_loop (variables locals parameters : list Variable_) : list Variable_ * list Variable_ :=
  match variables with
  | [] => (locals, parameters)
  | v :: rest =>
      if va_Param v then scope_loop rest locals (parameters ++ [v])
      else scope_loop rest (locals ++ [v]) parameters
  end.

(** [scopes]; [frameLocals] is the debugger's answer for the frame. *)
Definition scopes (ctxErr : option error) (frameLocals : list Variable_ + error) (d : session) :
    list Scope + error :=
  match ctxErr with
  | Some err => inr err
  | None =>
      match requireStopped d with
      | Some err => inr err
      | None =>
          match frameLocals with
          | inr err => inr err
          | inl variables =>
              let '(locals, parameters) := scope_loop variables [] [] in
              inl [mkScope ScopeLocals "Locals" locals; mkScope ScopeParameters "Parameters" parameters]
          end
      end
  end.

(** [frames], [variables] and [evaluate]: the debugger is asked only while the
    session is stopped. *)
Definition inspect {T : Type} (ctxErr : option error) (answer : T + error) (d : session) : T + error :=
  match ctxErr with
  | Some err => inr err
  | None =>
      match requireStopped d with
      | Some err => inr err
      | None => answer
      end
  end.

Definition replaceBreakpoints {T : Type} (ctxErr : option error) (answer : T + error) (d : session) :
    T + error :=
  match ctxErr with
  | Some err => inr err
  | None =>
      match requireActive d with
      | Some err => inr err
      | None => answer
      end
  end.

(** ** Interleavings *)

Inductive command := NoCommand | CommandPending (runtimeErrorResume : bool).
Inductive terminator := NoTerminator | TermRequested | TermClosed | TermDone.
Inductive closer := NotClosing | Closing | Requested | Settled | Closed.

Record world := mkWorld {
  wd_session : session;
  wd_command : command;
  wd_terminator : terminator;
  wd_closer : closer;
  wd_history : history Event
}.

(** [DResume] carries the value [resumeCommand] read earlier; it may be stale. *)
Inductive action :=
| DStart (ctxErr1 ctxErr2 : option error)
| DResume (ctxErr1 ctxErr2 : option error) (runtimeErrorResume : bool)
| DReturn (event : option RuntimeEvent) (err : option error)
| DTerminate (ctxErr : option error)
| DTermClose
| DTermFinish
| DSubscribe
| DUnsubscribe (id : Z)
| DReceive (id : Z)
| DBeginClose
| DCloserRequest
| DCloserSettle
| DCloserComplete.

(** The event a section published, if any, recorded in the history. *)
Definition record_publish (before after : session) (o : history Event) : history Event :=
  if bool_decide (d_sequence before = d_sequence after) then o
  else match d_lastEvent after with
       | Some ev => hi_publish ev (Terminal (d_state after)) o
       | None => o
       end.

Definition after_command (spawned rer : bool) (c : command) : command :=
  if spawned then CommandPending rer else c.

Definition after_request (spawned : bool) (t : terminator) : terminator :=
  if spawned then TermRequested else t.

Definition act (a : action) (w : world) : outcome world :=
  let d := wd_session w in
  let o := wd_history w in
  match a with
  | DStart c1 c2 =>
      '(_, spawned, d') ← startCommand c1 c2 StateCreated d;
      Ret (mkWorld d' (after_command spawned false (wd_command w)) (wd_terminator w) (wd_closer w)
             (record_publish d d' o))
  | DResume c1 c2 rer =>
      '(_, spawned, d') ← startCommand c1 c2 StateStopped d;
      Ret (mkWorld d' (after_command spawned rer (wd_command w)) (wd_terminator w) (wd_closer w)
             (record_publish d d' o))
  | DReturn event err =>
      match wd_command w with
      | CommandPending rer =>
          d' ← runCommand event err rer d;
          Ret (mkWorld d' NoCommand (wd_terminator w) (wd_closer w) (record_publish d d' o))
      | NoCommand => Block
      end
  | DTerminate c =>
      let '(_, spawned, d') := terminateExecution c d in
      Ret (mkWorld d' (wd_command w) (after_request spawned (wd_terminator w)) (wd_closer w) o)
  | DTermClose =>
      match wd_terminator w with
      | TermRequested =>
          let '(_, r) := DebugRuntime_Close (d_runtime d) in
          Ret (mkWorld (set_runtime r d) (wd_command w) TermClosed (wd_closer w) o)
      | _ => Block
      end
  | DTermFinish =>
      match wd_terminator w with
      | TermClosed =>
          d' ← terminate_finish d;
          Ret (mkWorld d' (wd_command w) TermDone (wd_closer w) (record_publish d d' o))
      | _ => Block
      end
  | DSubscribe =>
      let '(_, id, d') := subscribe d in
      Ret (mkWorld d' (wd_command w) (wd_terminator w) (wd_closer w)
             (match id with Some id => hi_subscribe id o | None => o end))
  | DUnsubscribe id =>
      d' ← unsubscribe id d;
      Ret (mkWorld d' (wd_command w) (wd_terminator w) (wd_closer w)
             (hi_cancel (bool_decide (id ∈ h_live (d_hub d))) id o))
  | DReceive id =>
      match h_store (d_hub d) !! id with
      | None => Block
      | Some _ =>
          '(ev, h) ← hub_receive id (d_hub d);
          Ret (mkWorld (set_hub h d) (wd_command w) (wd_terminator w) (wd_closer w)
                 (hi_receive id ev o))
      end
  | DBeginClose =>
      let '(owner, d') := beginClose d in
      Ret (mkWorld d' (wd_command w) (wd_terminator w)
             (if (owner : bool) then Closing else wd_closer w) o)
  | DCloserRequest =>
      match wd_closer w with
      | Closing =>
          let '(spawned, d') := requestTermination d in
          Ret (mkWorld d' (wd_command w) (after_request spawned (wd_terminator w)) Requested o)
      | _ => Block
      end
  | DCloserSettle =>
      match wd_closer w with
      | Requested =>
          d' ← settleClose_resume d;
          Ret (mkWorld d' (wd_command w) (wd_terminator w) Settled o)
      | _ => Block
      end
  | DCloserComplete =>
      match wd_closer w with
      | Settled =>
          d' ← completeClose d;
          Ret (mkWorld d' (wd_command w) (wd_terminator w) Closed o)
      | _ => Block
      end
  end.

Definition attempt (a : action) (w : world) : outcome world :=
  match act a w with
  | Ret w => Ret w
  | Panic m => Panic m
  | Block => Ret w
  end.

Fixpoint schedule (actions : list action) (w : world) : outcome world :=
  match actions with
  | [] => Ret w
  | a :: actions => w ← attempt a w; schedule actions w
  end.

Definition initial (id : string) (runtime : DebugRuntime) : outcome world :=
  d ← newSession id runtime;
  Ret (mkWorld d NoCommand NoTerminator NotClosing
         (match d_lastEvent d with
          | Some ev => hi_publish ev false newHistory
          | None => newHistory
          end)).

(** ** Invariant *)

Definition small_action (a : action) : Prop :=
  match a with
  | DReturn event err => small err ∧ small (event ≫= re_Error)
  | _ => True
  end.

(** The event kind that announces a state, and which kinds may follow. *)
Definition kind_of (s : State) : EventKind :=
  match s with
  | StateCreated => EventCreated
  | StateRunning => EventRunning
  | StateStopped => EventStopped
  | StateCompleted => EventCompleted
  | StateFailed => EventFailed
  | StateTerminated => EventTerminated
  end.

Definition follows (a b : EventKind) : bool :=
  match a, b with
  | EventCreated, (EventRunning | EventTerminated) => true
  | EventRunning, (EventStopped | EventCompleted | EventFailed | EventTerminated) => true
  | EventStopped, (EventRunning | EventTerminated) => true
  | _, _ => false
  end.

(** A word of kinds: it starts with the creation and every step is allowed. *)
Definition legal (ks : list EventKind) : Prop :=
  head ks = Some EventCreated ∧
  ∀ i a b, ks !! i = Some a → ks !! S i = Some b → follows a b = true.

Definition runtime_ok (r : DebugRuntime) : Prop :=
  dr_releases r = (if dr_leaseOnce r then 1 else 0)%nat ∧
  er_closes (dr_runtime r) =
    (if er_closeOnce (dr_runtime r) then option_list (er_session (dr_runtime r)) else []).

Definition runtime_closed (r : DebugRuntime) : Prop :=
  dr_leaseOnce r = true ∧ er_closeOnce (dr_runtime r) = true.

Definition command_ok (s : State) (c : command) : Prop :=
  match s with
  | StateRunning => c ≠ NoCommand
  | StateCreated | StateStopped => c = NoCommand
  | _ => True
  end.

Definition terminator_ok (d : session) (t : terminator) : Prop :=
  match t with
  | NoTerminator => d_terminating d = false
  | TermRequested => d_terminating d = true
  | TermClosed => d_terminating d = true ∧ runtime_closed (d_runtime d)
  | TermDone => d_terminating d = true ∧ Terminal (d_state d) = true ∧ runtime_closed (d_runtime d)
  end.

Definition closer_ok (d : session) (k : closer) : Prop :=
  close_wf (d_close d) ∧
  match k with
  | NotClosing => co_state (d_close d) = closeIdle
  | Closing => co_state (d_close d) = closeStarted
  | Requested => co_state (d_close d) = closeStarted ∧
                 (Terminal (d_state d) = true ∨ d_terminating d = true)
  | Settled => co_state (d_close d) = closeStarted ∧ Terminal (d_state d) = true ∧
               runtime_closed (d_runtime d)
  | Closed => co_state (d_close d) = closeFinished ∧ Terminal (d_state d) = true ∧
              runtime_closed (d_runtime d)
  end.

Record inv (n : Z) (w : world) : Prop := {
  iv_text : (Z.of_nat (length (t_text (er_target (dr_runtime (d_runtime (wd_session w)))))) < 2 ^ 32)%Z;
  iv_stream : stream_inv watcherBufferSize ev_Sequence n (Terminal (d_state (wd_session w)))
    (d_sequence (wd_session w)) (d_lastEvent (wd_session w)) (d_hub (wd_session w)) (wd_history w);
  iv_done : d_terminalDone (wd_session w) = Terminal (d_state (wd_session w));
  iv_legal : legal (map ev_Kind (hi_log (wd_history w)));
  iv_kind : last (map ev_Kind (hi_log (wd_history w))) = Some (kind_of (d_state (wd_session w)));
  iv_snapshot : ev_Snapshot <$> d_lastEvent (wd_session w) = Some (snapshotLocked (wd_session w));
  iv_runtime : runtime_ok (d_runtime (wd_session w));
  iv_command : command_ok (d_state (wd_session w)) (wd_command w);
  iv_terminator : terminator_ok (wd_session w) (wd_terminator w);
  iv_closer : closer_ok (wd_session w) (wd_closer w)
}.

Context (order_ok : ∀ X, order X ≡ₚ elements X).

Lemma debug_inv_weaken n m w : (n ≤ m)%Z → inv n w → inv m w.
Proof. intros Hnm []. split; try done. by eapply stream_weaken. Qed.

Lemma legal_snoc ks a b : legal ks → last ks = Some a → follows a b = true → legal (ks ++ [b]).
Proof.
  intros [Hh Hf] Hl Hab. split; [by destruct ks|].
  intros i x y Hx Hy. apply lookup_app_Some_or_last in Hy as [Hy|[Hi ->]].
  - apply lookup_app_Some_or_last in Hx as [Hx|[-> _]]; [by eapply Hf|].
    apply lookup_lt_Some in Hy. lia.
  - apply lookup_app_Some_or_last in Hx as [Hx|[-> _]]; [|lia].
    rewrite last_lookup, <- Hi in Hl. simpl in Hl. congruence.
Qed.

Lemma debug_record_publish_new d d' o ev :
  d_sequence d' = (d_sequence d + 1)%Z → d_lastEvent d' = Some ev →
  record_publish d d' o = hi_publish ev (Terminal (d_state d')) o.
Proof.
  intros Hs Hl. unfold record_publish. rewrite bool_decide_eq_false_2 by lia. by rewrite Hl.
Qed.

Lemma debug_record_publish_same d d' o : d_sequence d' = d_sequence d → record_publish d d' o = o.
Proof. intros Hs. unfold record_publish. by rewrite bool_decide_eq_true_2. Qed.

(** The fields a publication does not change. *)
Definition same_but_stream (d d' : session) : Prop :=
  (d_id d', d_runtime d', view_of d', d_terminating d', d_close d') =
  (d_id d, d_runtime d, view_of d, d_terminating d, d_close d).

Lemma publish_step n d o kind t :
  stream_inv watcherBufferSize ev_Sequence n false (d_sequence d) (d_lastEvent d) (d_hub d) o →
  d_terminalDone d = false → (n + 2 < 2 ^ 64)%Z →
  let ev := mkEvent (d_id d) (d_sequence d + 1) kind (snapshotLocked d) in
  ∃ d', publishLocked kind t d = Ret d' ∧ same_but_stream d d' ∧ d_terminalDone d' = t ∧
    d_sequence d' = (d_sequence d + 1)%Z ∧ d_lastEvent d' = Some ev ∧
    stream_inv watcherBufferSize ev_Sequence (n + 1) t (d_sequence d') (d_lastEvent d') (d_hub d')
      (hi_publish ev t o).
Proof using order_ok.
  intros Hst Hd Hn ev. unfold publishLocked.
  pose proof (si_sequence _ _ _ _ _ _ _ _ Hst) as Hs. pose proof (si_bound _ _ _ _ _ _ _ _ Hst) as Hb.
  rewrite debug_Event_clone_id, u64_small by lia. fold ev.
  destruct (stream_publish _ _ (ESentinel DebugErrWatcherLagged) _ _ _ _ _ _ ev t Hst
    (order_ok (h_live (d_hub d))) eq_refl) as (h' & -> & Hst').
  cbn. rewrite Hd.
  assert ((if t then if false then Panic "close of closed channel" else Ret true else Ret false)
          = Ret t) as -> by (by destruct t).
  cbn. eexists. split; [done|]. done.
Qed.

Lemma snapshot_same d d' : same_but_stream d d' → snapshotLocked d' = snapshotLocked d.
Proof. unfold same_but_stream, view_of, snapshotLocked. intros H. injection H as -> -> -> -> -> -> -> -> _ _. done. Qed.

(** A debug_transition from a state that is not terminal, by the view [v] set under
    the lock, announced by its event. *)
Lemma debug_transition n w v c t kind :
  inv n w → (n + 2 < 2 ^ 64)%Z → Terminal (d_state (wd_session w)) = false →
  kind = kind_of (v_state v) → follows (kind_of (d_state (wd_session w))) kind = true →
  command_ok (v_state v) c → terminator_ok (set_view v (wd_session w)) t →
  ∃ d', publishLocked kind (Terminal (v_state v)) (set_view v (wd_session w)) = Ret d' ∧
    view_of d' = v ∧
    inv (n + 1) (mkWorld d' c t (wd_closer w) (record_publish (wd_session w) d' (wd_history w))).
Proof using order_ok.
  intros Hi Hn Hterm Hkind Hfol Hc Ht. pose proof Hi as [Htx Hst Hd Hlg Hk Hsn Hrt _ _ Hcl].
  rewrite Hterm in Hst, Hd.
  destruct (publish_step n (set_view v (wd_session w)) (wd_history w) kind (Terminal (v_state v)) Hst Hd Hn)
    as (d' & Hp & Hsame & Hdone & Hseq & Hlast & Hst').
  exists d'. split; [done|]. pose proof Hsame as Heq. unfold same_but_stream in Heq.
  injection Heq as E1 E2 E3 E4 E5 E6 E7 E8 E9 E10. simpl in E3, E4, E5, E6, E7, E8.
  split; [unfold view_of; destruct v; simpl in *; congruence|].
  rewrite (debug_record_publish_new (wd_session w) d' _ _ Hseq Hlast), E3.
  assert (terminator_ok d' t) as Ht'.
  { destruct t; simpl in *; rewrite ?E2, ?E3, ?E9; done. }
  split; simpl; rewrite ?E2, ?E3, ?E10; try done.
  - rewrite map_app. eapply legal_snoc; [done..|]. exact Hfol.
  - rewrite map_app. simpl. by rewrite last_snoc, Hkind.
  - rewrite Hlast. simpl. f_equal. symmetry. by apply snapshot_same.
  - destruct Hcl as [Hwf Hcl]. split; [by rewrite E10|]. rewrite E10, ?E2, ?E3, ?E9.
    destruct (wd_closer w); simpl in *; try done.
    + destruct Hcl as [? [Hx|?]]; [congruence|]. split; [done|by right].
    + destruct Hcl as (? & Hx & ?). congruence.
    + destruct Hcl as (? & Hx & ?). congruence.
Qed.

Lemma terminator_view v d t :
  Terminal (d_state d) = false → terminator_ok d t → terminator_ok (set_view v d) t.
Proof. intros Hnt. destruct t; simpl; try done. intros (_ & Ht & _). congruence. Qed.

Lemma inv_stays n w : inv n w →
  inv (n + 1) (mkWorld (wd_session w) (wd_command w) (wd_terminator w) (wd_closer w)
                 (record_publish (wd_session w) (wd_session w) (wd_history w))).
Proof. intros Hi. rewrite debug_record_publish_same by done. apply (debug_inv_weaken n); [lia|by destruct w]. Qed.

Lemma startCommand_step n w c1 c2 expected rer :
  inv n w → (n + 2 < 2 ^ 64)%Z → expected = StateCreated ∨ expected = StateStopped →
  ∃ res spawned d', startCommand c1 c2 expected (wd_session w) = Ret (res, spawned, d') ∧
    (spawned = true → d_state (wd_session w) = expected ∧ d_terminating (wd_session w) = false) ∧
    (spawned = false → d' = wd_session w) ∧
    inv (n + 1) (mkWorld d' (after_command spawned rer (wd_command w)) (wd_terminator w) (wd_closer w)
                   (record_publish (wd_session w) d' (wd_history w))).
Proof using order_ok.
  intros Hi Hn Hex. unfold startCommand.
  assert (∀ res : SessionSnapshot + error, ∃ res' spawned d',
    Ret (res, false, wd_session w) = Ret (res', spawned, d') ∧
    (spawned = true → d_state (wd_session w) = expected ∧ d_terminating (wd_session w) = false) ∧
    (spawned = false → d' = wd_session w) ∧
    inv (n + 1) (mkWorld d' (after_command spawned rer (wd_command w)) (wd_terminator w) (wd_closer w)
                   (record_publish (wd_session w) d' (wd_history w)))) as Hstay.
  { intros res. eexists _, false, _. split; [done|]. split; [done|]. split; [done|].
    by apply inv_stays. }
  destruct c1; [apply Hstay|]. destruct c2; [apply Hstay|].
  destruct (d_terminating (wd_session w) || Started (d_close (wd_session w))) eqn:Ht; [apply Hstay|].
  case_bool_decide as Hs; [case_bool_decide; apply Hstay|].
  assert (d_state (wd_session w) = expected) as Es
    by (destruct (decide (d_state (wd_session w) = expected)); [done|tauto]).
  apply orb_false_iff in Ht as [Ht _].
  destruct (debug_transition n w (mkView StateRunning ReasonNone zeroLocation [] (d_output (wd_session w)) None)
    (CommandPending rer) (wd_terminator w) EventRunning Hi Hn) as (d' & Hp & _ & Hi').
  - rewrite Es. by destruct Hex as [->| ->].
  - done.
  - rewrite Es. by destruct Hex as [->| ->].
  - done.
  - apply terminator_view; [|apply (iv_terminator _ _ Hi)]. rewrite Es. by destruct Hex as [->| ->].
  - change (Terminal _) with false in Hp. rewrite Hp. cbn. eexists _, true, d'. done.
Qed.

Lemma return_step n w event err rer :
  inv n w → (n + 2 < 2 ^ 64)%Z → small err → small (event ≫= re_Error) →
  wd_command w = CommandPending rer →
  ∃ d', runCommand event err rer (wd_session w) = Ret d' ∧
    (d_state (wd_session w) ≠ StateRunning → d' = wd_session w) ∧
    inv (n + 1) (mkWorld d' NoCommand (wd_terminator w) (wd_closer w)
                   (record_publish (wd_session w) d' (wd_history w))).
Proof using order_ok.
  intros Hi Hn Herr Hev Hc. unfold runCommand. case_bool_decide as Hs.
  { exists (wd_session w). split; [done|]. split; [done|].
    destruct (inv_stays n w Hi) as [? ? ? ? ? ? ? Hco ? ?]. split; try done. simpl in *.
    rewrite Hc in Hco. destruct (d_state (wd_session w)); try done. }
  assert (d_state (wd_session w) = StateRunning) as Es
    by (destruct (d_state (wd_session w)); try done; destruct Hs; done).
  assert (∀ v k t, k = kind_of (v_state v) → t = Terminal (v_state v) →
    follows EventRunning k = true →
    ∃ d', publishLocked k t (set_view v (wd_session w)) = Ret d' ∧
      (d_state (wd_session w) ≠ StateRunning → d' = wd_session w) ∧
      inv (n + 1) (mkWorld d' NoCommand (wd_terminator w) (wd_closer w)
                     (record_publish (wd_session w) d' (wd_history w)))) as Hgo.
  { intros v k t -> -> Hf.
    destruct (debug_transition n w v NoCommand (wd_terminator w) (kind_of (v_state v)) Hi Hn)
      as (d' & Hp & _ & Hi').
    - by rewrite Es.
    - done.
    - by rewrite Es.
    - destruct (v_state v); done.
    - apply terminator_view; [by rewrite Es|apply (iv_terminator _ _ Hi)].
    - exists d'. split_and!; done. }
  assert (∀ v e, small e → ∃ d', failLocked e (set_view v (wd_session w)) = Ret d' ∧
      (d_state (wd_session w) ≠ StateRunning → d' = wd_session w) ∧
      inv (n + 1) (mkWorld d' NoCommand (wd_terminator w) (wd_closer w)
                     (record_publish (wd_session w) d' (wd_history w)))) as Hfail.
  { intros v e He. unfold failLocked, MaterializeFailure.
    destruct (materialize_any (dr_runtime (d_runtime (wd_session w))) e (iv_text _ _ Hi) He) as [rf Hrf].
    simpl. rewrite Hrf. cbn. by apply Hgo. }
  pose proof (Hfail (view_of (wd_session w))) as Hself.
  assert (set_view (view_of (wd_session w)) (wd_session w) = wd_session w) as Heta
    by (by destruct (wd_session w)).
  rewrite Heta in Hself.
  destruct err as [err|].
  - destruct event as [event|]; simpl.
    + destruct (d_terminating (wd_session w)); [by apply Hgo|by apply Hfail].
    + destruct (d_terminating (wd_session w)); [by apply Hgo|by apply Hself].
  - unfold applyRuntimeEventLocked. destruct event as [event|].
    2: { by apply Hself; simpl; constructor. }
    simpl. destruct (re_Reason event); simpl.
    + by apply Hfail; simpl; constructor.
    + by apply Hgo.
    + by apply Hgo.
    + by apply Hgo.
    + by apply Hgo.
    + unfold MaterializeFailure. simpl.
      destruct (materialize_any (dr_runtime (d_runtime (wd_session w))) (re_Error event)
        (iv_text _ _ Hi) Hev) as [rf Hrf].
      rewrite Hrf. cbn. by apply Hgo.
    + by apply Hgo.
    + destruct (_ && _); [by apply Hfail|by apply Hgo].
    + by apply Hfail; simpl; constructor.
Qed.

Lemma Close_ok r err r' :
  runtime_ok r → DebugRuntime_Close r = (err, r') →
  runtime_ok r' ∧ runtime_closed r' ∧ er_target (dr_runtime r') = er_target (dr_runtime r) ∧
  er_input (dr_runtime r') = er_input (dr_runtime r) ∧
  er_session (dr_runtime r') = er_session (dr_runtime r) ∧ err = er_closeErr (dr_runtime r').
Proof.
  intros [Hl Hc] H. unfold DebugRuntime_Close in H.
  set (rt := cancel (ESentinel ExecErrExecutionCanceled) (dr_runtime r)) in *.
  assert (er_closes rt = er_closes (dr_runtime r) ∧ er_closeOnce rt = er_closeOnce (dr_runtime r) ∧
    er_session rt = er_session (dr_runtime r) ∧ er_target rt = er_target (dr_runtime r) ∧
    er_input rt = er_input (dr_runtime r)) as (E1 & E2 & E3 & E4 & E5).
  { subst rt. unfold cancel. by destruct (er_cause (dr_runtime r)). }
  unfold closeSession in H. rewrite E2, E3 in H. rewrite <- E1 in Hc.
  destruct (er_closeOnce (dr_runtime r)) eqn:Eo; [|destruct (er_session (dr_runtime r)) as [s|] eqn:Es];
    simpl in H; inv H; unfold runtime_ok, runtime_closed, release; simpl in *;
    destruct (dr_leaseOnce r); simpl in *; rewrite ?Hl, ?Hc, ?E2, ?E3, ?Eo, ?Es; simpl;
    rewrite ?E1, ?E4, ?E5, ?Hc; split_and!; try done; congruence.
Qed.

Lemma debug_inv_runtime n w r t k :
  inv n w → runtime_ok r → runtime_closed r →
  er_target (dr_runtime r) = er_target (dr_runtime (d_runtime (wd_session w))) →
  er_input (dr_runtime r) = er_input (dr_runtime (d_runtime (wd_session w))) →
  terminator_ok (set_runtime r (wd_session w)) t → closer_ok (set_runtime r (wd_session w)) k →
  inv n (mkWorld (set_runtime r (wd_session w)) (wd_command w) t k (wd_history w)).
Proof.
  intros [Htx Hst Hd Hlg Hk Hsn Hrt Hco Ht Hcl] Hr Hrc Htg Hin Ht' Hk'. split; simpl; try done.
  - by rewrite Htg.
  - rewrite Hsn. unfold snapshotLocked. simpl. by rewrite Htg, Hin.
Qed.

Lemma terminator_runtime r d t :
  runtime_closed r → terminator_ok d t → terminator_ok (set_runtime r d) t.
Proof. intros Hr. destruct t; simpl; intuition. Qed.

Lemma closer_runtime r d k : runtime_closed r → closer_ok d k → closer_ok (set_runtime r d) k.
Proof. intros Hr [Hwf H]. split; [done|]. destruct k; simpl in *; intuition. Qed.

Lemma request_step n w : inv n w →
  let '(spawned, d') := requestTermination (wd_session w) in
  (Terminal (d_state d') = true ∨ d_terminating d' = true) ∧
  snapshotLocked d' = snapshotLocked (wd_session w) ∧ d_state d' = d_state (wd_session w) ∧
  inv n (mkWorld d' (wd_command w) (after_request spawned (wd_terminator w)) (wd_closer w)
           (wd_history w)).
Proof.
  intros Hi. pose proof Hi as [Htx Hst Hd Hlg Hk Hsn Hrt Hco Ht Hcl]. unfold requestTermination.
  destruct (Terminal (d_state (wd_session w)) || d_terminating (wd_session w)) eqn:Hb.
  - apply orb_true_iff in Hb. split; [done|]. split_and!; try done.
  - apply orb_false_iff in Hb as [Hb1 Hb2]. split; [by right|]. split; [done|]. split; [done|].
    split; try done. destruct Hcl as [Hwf Hc]. split; [done|].
    destruct (wd_closer w); simpl in *; try done. destruct Hc as [Hc _]. split; [done|by right].
Qed.

Lemma terminate_step n w : inv n w → (n + 2 < 2 ^ 64)%Z → wd_terminator w = TermClosed →
  ∃ d', terminate_finish (wd_session w) = Ret d' ∧ Terminal (d_state d') = true ∧
    (Terminal (d_state (wd_session w)) = true → d' = wd_session w) ∧
    inv (n + 1) (mkWorld d' (wd_command w) TermDone (wd_closer w)
                   (record_publish (wd_session w) d' (wd_history w))).
Proof using order_ok.
  intros Hi Hn Htc. pose proof (iv_terminator _ _ Hi) as Ht. rewrite Htc in Ht. destruct Ht as [Hte Hrc].
  unfold terminate_finish. destruct (Terminal (d_state (wd_session w))) eqn:Hterm.
  - eexists. split; [done|]. split; [done|]. split; [done|].
    destruct (inv_stays n w Hi) as [? ? ? ? ? ? ? ? ? ?]. split; done.
  - simpl.
    set (v := mkView StateTerminated _ _ _ _ _).
    destruct (debug_transition n w v (wd_command w) TermDone EventTerminated Hi Hn Hterm)
      as (d' & Hp & Hv & Hi').
    + done.
    + by destruct (d_state (wd_session w)).
    + done.
    + done.
    + change (Terminal _) with true in Hp. exists d'. split; [done|].
      assert (d_state d' = StateTerminated) as -> by (by injection Hv). done.
Qed.

Lemma debug_settle_step n w : inv n w → wd_closer w = Requested → d_terminalDone (wd_session w) = true →
  ∃ d', settleClose_resume (wd_session w) = Ret d' ∧
    snapshotLocked d' = snapshotLocked (wd_session w) ∧ d_state d' = d_state (wd_session w) ∧
    inv n (mkWorld d' (wd_command w) (wd_terminator w) Settled (wd_history w)).
Proof using order_ok.
  intros Hi Hk Hd. pose proof Hi as [Htx Hst Hdone Hlg Hkd Hsn Hrt Hco Ht Hcl]. rewrite Hk in Hcl.
  unfold settleClose_resume. rewrite Hd. simpl.
  destruct (DebugRuntime_Close (d_runtime (wd_session w))) as [err r] eqn:Hc.
  destruct (Close_ok _ _ _ Hrt Hc) as (Hr & Hrc & Htg & Hin & _ & _).
  assert (Terminal (d_state (wd_session w)) = true) as Hterm by congruence.
  assert (h_live (d_hub (wd_session w)) = ∅) as Hl.
  { apply (tk_final _ _ (si_tracks _ _ _ _ _ _ _ _ Hst)).
    by rewrite (si_final _ _ _ _ _ _ _ _ Hst). }
  assert (order (h_live (d_hub (wd_session w))) = []) as Hord.
  { apply Permutation_nil_r. rewrite order_ok, Hl. by rewrite elements_empty. }
  simpl. rewrite Hord. cbn. eexists. split; [done|].
  assert (inv n (mkWorld (set_runtime r (wd_session w)) (wd_command w) (wd_terminator w) Settled
    (wd_history w))) as [? ? ? ? ? ? ? ? ? ?].
  { apply debug_inv_runtime; try done.
    - by apply terminator_runtime.
    - destruct Hcl as [Hwf [Hs _]]. split; [done|]. done. }
  split; [unfold snapshotLocked; simpl; by rewrite Htg, Hin|]. split; [done|].
  split; try done.
Qed.

Lemma complete_step n w : inv n w → wd_closer w = Settled →
  ∃ d', completeClose (wd_session w) = Ret d' ∧
    snapshotLocked d' = snapshotLocked (wd_session w) ∧ d_state d' = d_state (wd_session w) ∧
    inv n (mkWorld d' (wd_command w) (wd_terminator w) Closed (wd_history w)).
Proof.
  intros Hi Hk. pose proof Hi as [Htx Hst Hdone Hlg Hkd Hsn Hrt Hco Ht Hcl]. rewrite Hk in Hcl.
  destruct Hcl as [Hwf (Hs & Hterm & Hrc)]. unfold completeClose.
  destruct (DebugRuntime_Close (d_runtime (wd_session w))) as [err r] eqn:Hc.
  destruct (Close_ok _ _ _ Hrt Hc) as (Hr & Hrc' & Htg & Hin & _ & _).
  unfold close_wf in Hwf. rewrite Hs in Hwf. unfold Finish. rewrite Hs, Hwf. cbn.
  eexists. split; [done|].
  assert (inv n (mkWorld (set_runtime r (wd_session w)) (wd_command w) (wd_terminator w) Settled
    (wd_history w))) as [? ? ? ? ? ? ? ? ? ?].
  { apply debug_inv_runtime; try done; [by apply terminator_runtime|].
    split; [unfold close_wf; simpl; by rewrite Hs, Hwf|done]. }
  split; [unfold snapshotLocked; simpl; by rewrite Htg, Hin|]. split; [done|].
  split; try done.
Qed.

(** Replacing the hub together with the history. *)
Lemma debug_inv_hub n m w h o :
  inv n w → hi_log o = hi_log (wd_history w) →
  stream_inv watcherBufferSize ev_Sequence m (Terminal (d_state (wd_session w)))
    (d_sequence (wd_session w)) (d_lastEvent (wd_session w)) h o →
  inv m (mkWorld (set_hub h (wd_session w)) (wd_command w) (wd_terminator w) (wd_closer w) o).
Proof. intros [] Hlog Hst. split; simpl; rewrite ?Hlog; try done. Qed.

Lemma hub_step n w a : inv n w → (n + 1 < 2 ^ 64)%Z →
  match a with DSubscribe | DUnsubscribe _ | DReceive _ => True | _ => False end →
  act a w = Block ∨ ∃ w', act a w = Ret w' ∧ inv (n + 1) w' ∧
    d_state (wd_session w') = d_state (wd_session w) ∧
    snapshotLocked (wd_session w') = snapshotLocked (wd_session w) ∧
    hi_log (wd_history w') = hi_log (wd_history w).
Proof.
  intros Hi Hn Ha. pose proof (iv_stream _ _ Hi) as Hst. destruct a; try done; unfold act.
  - right. unfold subscribe. destruct (Terminal (d_state (wd_session w))) eqn:Hterm.
    + eexists. split; [done|]. split_and!; try done. apply (debug_inv_weaken n); [lia|by destruct w].
    + destruct (hub_subscribe (d_hub (wd_session w))) as [id h] eqn:Hsub.
      eexists. split; [done|]. split_and!; try done. apply (debug_inv_hub n); try done.
      rewrite Hterm. by eapply stream_subscribe.
  - right. unfold unsubscribe. destruct (stream_unsubscribe _ _ _ _ _ _ _ _ id Hst) as (h & -> & Hst').
    cbn. eexists. split; [done|].
    assert (hi_log (hi_cancel (bool_decide (id ∈ h_live (d_hub (wd_session w)))) id (wd_history w))
            = hi_log (wd_history w)) as Hlog by (by destruct (bool_decide _)).
    split_and!; try done. apply (debug_inv_weaken n); [lia|]. by apply (debug_inv_hub n).
  - destruct (h_store (d_hub (wd_session w)) !! id) as [v|] eqn:Hv; [|by left].
    destruct (hub_receive id (d_hub (wd_session w))) as [[ev h]|m|] eqn:Hr.
    + right. eexists. split; [done|].
      assert (hi_log (hi_receive id ev (wd_history w)) = hi_log (wd_history w)) as Hlog
        by (by destruct ev).
      split_and!; try done. apply (debug_inv_weaken n); [lia|]. apply (debug_inv_hub n); try done.
      by eapply stream_receive.
    + by destruct (receive_safe (d_hub (wd_session w)) id ltac:(by eexists) m).
    + by left.
Qed.

Lemma begin_step n w : inv n w →
  ∃ w', act DBeginClose w = Ret w' ∧ inv n w' ∧ wd_closer w' ≠ NotClosing ∧
    d_state (wd_session w') = d_state (wd_session w) ∧
    snapshotLocked (wd_session w') = snapshotLocked (wd_session w) ∧
    wd_history w' = wd_history w.
Proof.
  intros Hi. pose proof Hi as [Htx Hst Hdone Hlg Hkd Hsn Hrt Hco Ht [Hwf Hcl]].
  unfold act, beginClose, Begin. case_bool_decide as Hs; eexists; (split; [done|]).
  - split_and!; try done. simpl. intros Hk. by rewrite Hk in Hcl.
  - split_and!; try done.
Qed.

(** Every action preserves the invariant, never panics, and leaves a terminal
    session unchanged. *)
Lemma debug_act_inv n w a : inv n w → (n + 2 < 2 ^ 64)%Z → small_action a →
  act a w = Block ∨ ∃ w', act a w = Ret w' ∧ inv (n + 1) w' ∧
    (Terminal (d_state (wd_session w)) = true →
      d_state (wd_session w') = d_state (wd_session w) ∧
      snapshotLocked (wd_session w') = snapshotLocked (wd_session w) ∧
      hi_log (wd_history w') = hi_log (wd_history w)).
Proof using order_ok.
  intros Hi Hn Hsm. assert (∀ w', inv n w' → inv (n + 1) w') as Hw
    by (intros w' H; apply (debug_inv_weaken n); [lia|done]).
  assert (∀ d', d' = wd_session w →
    d_state d' = d_state (wd_session w) ∧ snapshotLocked d' = snapshotLocked (wd_session w) ∧
    hi_log (record_publish (wd_session w) d' (wd_history w)) = hi_log (wd_history w)) as Hsame.
  { intros d' ->. by rewrite debug_record_publish_same. }
  destruct a.
  - right. destruct (startCommand_step n w ctxErr1 ctxErr2 StateCreated false Hi Hn ltac:(by left))
      as (res & sp & d' & He & Hsp & Hd & Hi'). unfold act. rewrite He. cbn. eexists. split; [done|].
    split; [done|]. intros Ht. destruct sp; [|by apply Hsame, Hd].
    destruct (Hsp eq_refl) as [Es _]. by rewrite Es in Ht.
  - right. destruct (startCommand_step n w ctxErr1 ctxErr2 StateStopped runtimeErrorResume Hi Hn
      ltac:(by right)) as (res & sp & d' & He & Hsp & Hd & Hi').
    unfold act. rewrite He. cbn. eexists. split; [done|].
    split; [done|]. intros Ht. destruct sp; [|by apply Hsame, Hd].
    destruct (Hsp eq_refl) as [Es _]. by rewrite Es in Ht.
  - destruct (wd_command w) as [|rer] eqn:Hc; [left; unfold act; by rewrite Hc|right].
    destruct Hsm as [Hs1 Hs2].
    destruct (return_step n w event err rer Hi Hn Hs1 Hs2 Hc) as (d' & He & Hd & Hi').
    unfold act. rewrite Hc, He. cbn. eexists. split; [done|]. split; [done|].
    intros Ht. apply Hsame, Hd. intros Es. by rewrite Es in Ht.
  - right. unfold act, terminateExecution. destruct ctxErr as [err|].
    + eexists. split; [done|]. split; [|done]. apply Hw. by destruct w.
    + pose proof (request_step n w Hi) as Hr. destruct (requestTermination (wd_session w)) as [sp d'].
      destruct Hr as (_ & Hsn & Hst & Hi'). eexists. split; [done|]. split; [by apply Hw|done].
  - destruct (wd_terminator w) eqn:Ht; try (left; unfold act; by rewrite Ht). right.
    unfold act. rewrite Ht. destruct (DebugRuntime_Close (d_runtime (wd_session w))) as [err r] eqn:Hc.
    destruct (Close_ok _ _ _ (iv_runtime _ _ Hi) Hc) as (Hr & Hrc & Htg & Hin & _ & _).
    eexists. split; [done|]. split.
    + apply Hw, debug_inv_runtime; try done; [|by apply closer_runtime, (iv_closer _ _ Hi)].
      pose proof (iv_terminator _ _ Hi) as Hte. by rewrite Ht in Hte.
    + intros _. split_and!; try done. unfold snapshotLocked. simpl. by rewrite Htg, Hin.
  - destruct (wd_terminator w) eqn:Ht; try (left; unfold act; by rewrite Ht). right.
    destruct (terminate_step n w Hi Hn Ht) as (d' & He & _ & Hd & Hi').
    unfold act. rewrite Ht, He. cbn. eexists. split; [done|]. split; [done|].
    intros Htm. by apply Hsame, Hd.
  - destruct (hub_step n w DSubscribe Hi ltac:(lia) I) as [?|(w' & ? & ? & ? & ? & ?)]; [by left|right; exists w'; split_and!; done].
  - destruct (hub_step n w (DUnsubscribe id) Hi ltac:(lia) I) as [?|(w' & ? & ? & ? & ? & ?)]; [by left|right; exists w'; split_and!; done].
  - destruct (hub_step n w (DReceive id) Hi ltac:(lia) I) as [?|(w' & ? & ? & ? & ? & ?)]; [by left|right; exists w'; split_and!; done].
  - right. destruct (begin_step n w Hi) as (w' & Ha & Hi' & _ & Hs & Hsn & Hh).
    exists w'. split; [done|]. split; [by apply Hw|]. by rewrite Hh.
  - destruct (wd_closer w) eqn:Hk; try (left; unfold act; by rewrite Hk). right. unfold act. rewrite Hk.
    pose proof (request_step n w Hi) as Hr. destruct (requestTermination (wd_session w)) as [sp d'].
    destruct Hr as (Hor & Hsn & Hst & Hi'). eexists. split; [done|]. split; [|done]. apply Hw.
    destruct Hi' as [? ? ? ? ? ? ? ? ? [Hwf Hcl]]. split; try done. simpl in *. rewrite Hk in Hcl. done.
  - destruct (wd_closer w) eqn:Hk; try (left; unfold act; by rewrite Hk).
    destruct (d_terminalDone (wd_session w)) eqn:Hd;
      [|left; unfold act, settleClose_resume; by rewrite Hk, Hd].
    right. destruct (debug_settle_step n w Hi Hk Hd) as (d' & He & Hsn & Hst & Hi').
    unfold act. rewrite Hk, He. cbn. eexists. split; [done|]. split; [by apply Hw|done].
  - destruct (wd_closer w) eqn:Hk; try (left; unfold act; by rewrite Hk).
    right. destruct (complete_step n w Hi Hk) as (d' & He & Hsn & Hst & Hi').
    unfold act. rewrite Hk, He. cbn. eexists. split; [done|]. split; [by apply Hw|done].
Qed.

Lemma debug_attempt_inv n w a : inv n w → (n + 2 < 2 ^ 64)%Z → small_action a →
  ∃ w', attempt a w = Ret w' ∧ inv (n + 1) w' ∧
    (Terminal (d_state (wd_session w)) = true →
      d_state (wd_session w') = d_state (wd_session w) ∧
      snapshotLocked (wd_session w') = snapshotLocked (wd_session w) ∧
      hi_log (wd_history w') = hi_log (wd_history w)).
Proof using order_ok.
  intros Hi Hn Hsm. unfold attempt.
  destruct (debug_act_inv n w a Hi Hn Hsm) as [->|(w' & -> & Hi' & Ht)]; [|eauto].
  exists w. split; [done|]. split; [|done]. apply (debug_inv_weaken n); [lia|done].
Qed.

Lemma debug_schedule_inv n w actions :
  inv n w → (n + Z.of_nat (length actions) < 2 ^ 64 - 2)%Z → Forall small_action actions →
  ∃ w', schedule actions w = Ret w' ∧ inv (n + Z.of_nat (length actions)) w' ∧
    (Terminal (d_state (wd_session w)) = true →
      snapshotLocked (wd_session w') = snapshotLocked (wd_session w) ∧
      hi_log (wd_history w') = hi_log (wd_history w)).
Proof using order_ok.
  revert n w. induction actions as [|a actions IH]; intros n w Hi Hn Hsm; simpl in *.
  - exists w. split; [done|]. by rewrite Z.add_0_r.
  - apply Forall_cons in Hsm as [Ha Hsm].
    destruct (debug_attempt_inv n w a Hi ltac:(lia) Ha) as (w1 & -> & Hi1 & Ht1). cbn.
    destruct (IH (n + 1)%Z w1 Hi1 ltac:(lia) Hsm) as (w' & Hw' & Hi' & Ht'). exists w'.
    split; [done|]. split; [eapply debug_inv_weaken; [|done]; lia|].
    intros Ht. destruct (Ht1 Ht) as (Es & E1 & E2). rewrite <- E1, <- E2. apply Ht'. by rewrite Es.
Qed.

Lemma debug_initial_inv id rt :
  (Z.of_nat (length (t_text (er_target (dr_runtime rt)))) < 2 ^ 32)%Z → runtime_ok rt →
  ∃ w, initial id rt = Ret w ∧ inv 1 w.
Proof using order_ok.
  intros Ht Hr. unfold initial, newSession.
  set (d0 := mkSession id rt StateCreated ReasonNone zeroLocation [] None None false newCloseOperation
       false 0 None newHub).
  assert (hub_ok watcherBufferSize (newHub (E:=Event)) ∧ tracks (newHub (E:=Event)) newHistory)
    as [Hh Htr] by (split; split; done).
  destruct (publish_step 0 d0 newHistory EventCreated false) as (d & He & Hsame & Hd & Hs & Hl & Hst).
  - by split.
  - done.
  - lia.
  - rewrite He. cbn. rewrite Hl. eexists. split; [done|].
    pose proof (snapshot_same _ _ Hsame) as Hsn. unfold same_but_stream in Hsame.
    injection Hsame as F1 F2 F3 F4 F5 F6 F7 F8 F9 F10.
    split; simpl; rewrite ?F2, ?F3, ?F9; try done.
    + by rewrite Hl, Hsn.
    + unfold closer_ok. by rewrite F10.
Qed.

(** ** Teardown: the debugger command may still be running *)

Definition teardown : list action :=
  [DBeginClose; DCloserRequest; DTermClose; DTermFinish; DCloserSettle; DCloserComplete].

Definition past_request (k : closer) : Prop :=
  match k with NotClosing | Closing => False | _ => True end.

Lemma debug_attempt_same a w : act a w = Block → attempt a w = Ret w.
Proof. unfold attempt. by intros ->. Qed.

Lemma debug_attempt_act a w w' : act a w = Ret w' → attempt a w = Ret w'.
Proof. unfold attempt. by intros ->. Qed.

Lemma teardown_request n w : inv n w → wd_closer w ≠ NotClosing →
  ∃ w', attempt DCloserRequest w = Ret w' ∧ past_request (wd_closer w').
Proof.
  intros Hi Hk. unfold attempt, act. destruct (wd_closer w) eqn:Ek; [done| |exists w; rewrite Ek; done..].
  destruct (requestTermination (wd_session w)) as [sp d']. by eexists.
Qed.

(** Once termination was requested, [terminate] makes the session terminal. *)
Lemma teardown_terminate n w : inv n w → (n + 3 < 2 ^ 64)%Z → past_request (wd_closer w) →
  ∃ w1 w2, attempt DTermClose w = Ret w1 ∧ attempt DTermFinish w1 = Ret w2 ∧ inv (n + 2) w2 ∧
    past_request (wd_closer w2) ∧ Terminal (d_state (wd_session w2)) = true.
Proof using order_ok.
  intros Hi Hn Hk.
  destruct (debug_attempt_inv n w DTermClose Hi ltac:(lia) I) as (w1 & H1 & Hi1 & Ht1).
  destruct (debug_attempt_inv (n + 1) w1 DTermFinish Hi1 ltac:(lia) I) as (w2 & H2 & Hi2 & Ht2).
  exists w1, w2. split; [done|]. split; [done|].
  split; [eapply debug_inv_weaken; [|done]; lia|].
  assert (wd_closer w1 = wd_closer w) as Hk1.
  { unfold attempt, act in H1. destruct (wd_terminator w); try (by inv H1).
    destruct (DebugRuntime_Close _). by inv H1. }
  assert (wd_closer w2 = wd_closer w1) as Hk2.
  { unfold attempt, act in H2. destruct (wd_terminator w1); try (by inv H2).
    destruct (terminate_finish _) as [d'|m|]; simpl in H2; by inv H2. }
  split; [by rewrite Hk2, Hk1|].
  destruct (Terminal (d_state (wd_session w))) eqn:Hterm.
  { destruct (Ht1 eq_refl) as (E1 & _). destruct Ht2 as (E2 & _); [by rewrite E1|]. by rewrite E2, E1. }
  assert (d_terminating (wd_session w) = true) as Hter.
  { destruct (iv_closer _ _ Hi) as [_ Hcl]. destruct (wd_closer w); try done.
    - by destruct Hcl as [_ [?|?]]; [congruence|].
    - destruct Hcl as (_ & ? & _). congruence.
    - destruct Hcl as (_ & ? & _). congruence. }
  assert (wd_terminator w1 = TermClosed) as Htc.
  { pose proof (iv_terminator _ _ Hi) as Hti. unfold attempt, act in H1.
    destruct (wd_terminator w) eqn:Et.
    - simpl in Hti. congruence.
    - destruct (DebugRuntime_Close _). by inv H1.
    - by inv H1.
    - destruct Hti as (_ & ? & _). congruence. }
  destruct (terminate_step (n + 1) w1 Hi1 ltac:(lia) Htc) as (d' & He & Ht & _).
  unfold attempt, act in H2. rewrite Htc, He in H2. simpl in H2. by inv H2.
Qed.

Lemma debug_teardown_settle n w : inv n w → past_request (wd_closer w) →
  Terminal (d_state (wd_session w)) = true →
  ∃ w1 w2, attempt DCloserSettle w = Ret w1 ∧ attempt DCloserComplete w1 = Ret w2 ∧
    wd_closer w2 = Closed.
Proof using order_ok.
  intros Hi Hk Ht. assert (∀ v, inv n v → wd_closer v = Settled →
    ∃ w2, attempt DCloserComplete v = Ret w2 ∧ wd_closer w2 = Closed) as Hco.
  { intros v Hv Hc. destruct (complete_step n v Hv Hc) as (d' & He & _).
    unfold attempt, act. rewrite Hc, He. by eexists. }
  pose proof (iv_done _ _ Hi) as Hd. rewrite Ht in Hd.
  destruct (wd_closer w) eqn:Ek; try done.
  - destruct (debug_settle_step n w Hi Ek Hd) as (d' & He & _ & _ & Hi').
    destruct (Hco _ Hi' eq_refl) as (w2 & Hw2 & Hc2). eexists _, w2.
    split; [|by split]. unfold attempt, act. rewrite Ek, He. done.
  - destruct (Hco w Hi Ek) as (w2 & ? & ?). exists w, w2.
    split; [apply debug_attempt_same; unfold act; by rewrite Ek|done].
  - exists w, w. rewrite !debug_attempt_same by (unfold act; by rewrite Ek). done.
Qed.
End session.

Arguments session : clear implicits.
Arguments DebugRuntime : clear implicits.
Arguments world : clear implicits.

(** ** Properties *)

(** The hypotheses on the environment: watchers are visited in some order, the
    texts of diagnostics fit the mapper, fewer than 2^64 operations are made. *)
Definition admissible (order : gset Z → list Z) {plan sess : Type} (rt : executionRuntime plan sess)
    (actions : list action) : Prop :=
  (∀ X, order X ≡ₚ elements X) ∧
  (Z.of_nat (length (t_text (er_target rt))) < 2 ^ 32)%Z ∧
  er_closeOnce rt = false ∧ er_closes rt = [] ∧
  (Z.of_nat (length actions) < 2 ^ 64 - 10)%Z ∧ Forall small_action actions.

(** The world reached by a schedule of operations on a new debug session. *)
Definition reached {plan sess : Type} (A : runtime_api plan sess) (order : gset Z → list Z)
    (id : string) (rt : executionRuntime plan sess) (actions : list action) :
    outcome (world plan sess) :=
  w ← initial order id (newDebugRuntime rt); schedule A order actions w.

Lemma debug_reached_inv {plan sess} (A : runtime_api plan sess) order id rt actions :
  admissible order rt actions →
  ∃ w, reached A order id rt actions = Ret w ∧ inv (1 + Z.of_nat (length actions)) w.
Proof.
  intros (Ho & Ht & Hc & Hcl & Hn & Hs). unfold reached.
  destruct (debug_initial_inv order Ho id (newDebugRuntime rt) Ht) as (w0 & -> & Hi0).
  { split; [done|]. simpl. by rewrite Hc. }
  cbn. destruct (debug_schedule_inv A order Ho 1 w0 actions Hi0 ltac:(lia) Hs) as (w & Hw & Hi & _). eauto.
Qed.

Lemma debug_schedule_app {plan sess} (A : runtime_api plan sess) order xs ys w :
  schedule A order (xs ++ ys) w = schedule A order xs w ≫= schedule A order ys.
Proof.
  revert w. induction xs as [|a xs IH]; intros w; simpl; [done|].
  destruct (attempt A order a w); cbn; [apply IH|done..].
Qed.

(** A session for the witnesses: it stops at its entry, fails with a runtime
    error, is resumed while it is being closed. *)
Definition sample_runtime : executionRuntime unit nat :=
  mkRuntime sample_target (mkRuntimeInput None (mkRuntimeOptions "text" "")) None (Some 7%nat) false None [].

Definition sample_actions : list action :=
  [DSubscribe; DStart None None;
   DReturn (Some (mkRuntimeEvent ReasonEntry "q:1" [] None None)) None;
   DResume None None false; DStart None None;
   DReturn (Some (mkRuntimeEvent ReasonRuntimeError "q:2" [] (Some (ENew "boom")) None)) None;
   DReceive 1; DResume None None true; DBeginClose; DCloserRequest].

Lemma debug_sample_admissible : admissible elements sample_runtime sample_actions.
Proof.
  split; [done|]. split; [vm_compute; reflexivity|]. split; [done|]. split; [done|].
  split; [vm_compute; reflexivity|]. repeat constructor.
Qed.

(** C6. Safety of debug sessions: under every interleaving of commands, their
    asynchronous answers (also missing, unknown or late ones), pauses,
    terminations, subscriptions and the teardown, no operation panics (no double
    close of [terminalDone] or of a watcher channel); the events are numbered
    1, 2, ... and follow the lifecycle automaton from creation, the last one
    announces the current state and carries the current snapshot. *)
Theorem debug_session_safe {plan sess : Type} (A : runtime_api plan sess) (order : gset Z → list Z)
    (id : string) (rt : executionRuntime plan sess) (actions : list action) :
  admissible order rt actions →
  ∃ w, reached A order id rt actions = Ret w ∧
    legal (map ev_Kind (hi_log (wd_history w))) ∧
    last (map ev_Kind (hi_log (wd_history w))) = Some (kind_of (d_state (wd_session w))) ∧
    (∀ i ev, hi_log (wd_history w) !! i = Some ev → ev_Sequence ev = Z.of_nat (S i)) ∧
    ev_Snapshot <$> last (hi_log (wd_history w)) = Some (snapshotLocked (wd_session w)) ∧
    d_terminalDone (wd_session w) = Terminal (d_state (wd_session w)).
Proof.
  intros Ha. destruct (debug_reached_inv A order id rt actions Ha) as (w & Hw & Hi). exists w.
  destruct Hi as [_ Hst Hd Hl Hk Hsn _ _ _ _]. destruct Hst as [_ _ _ _ Hla Hnum _ _ _].
  split_and!; try done. by rewrite <- Hla.
Qed.

Lemma debug_session_safe_witness :
  ∃ w, reached sample_api elements "d" sample_runtime sample_actions = Ret w ∧
    legal (map ev_Kind (hi_log (wd_history w))) ∧ d_state (wd_session w) = StateRunning.
Proof.
  destruct (debug_session_safe sample_api elements "d" sample_runtime sample_actions debug_sample_admissible)
    as (w & Hw & Hl & Hk & _). exists w. split; [exact Hw|]. split; [exact Hl|].
  vm_compute in Hw. injection Hw as <-. reflexivity.
Defined.

(** A terminal debug session is final: whatever operations and late command
    answers follow, its snapshot does not change and no event is published. *)
Theorem debug_terminal_final {plan sess : Type} (A : runtime_api plan sess) (order : gset Z → list Z)
    (id : string) (rt : executionRuntime plan sess) (before after : list action) (w : world plan sess) :
  admissible order rt (before ++ after) →
  reached A order id rt before = Ret w → Terminal (d_state (wd_session w)) = true →
  ∃ w', schedule A order after w = Ret w' ∧
    snapshotLocked (wd_session w') = snapshotLocked (wd_session w) ∧
    hi_log (wd_history w') = hi_log (wd_history w).
Proof.
  intros (Ho & Ht & Hc & Hcl & Hn & Hs) Hw Hterm. rewrite length_app in Hn.
  apply Forall_app in Hs as [Hs1 Hs2].
  destruct (debug_reached_inv A order id rt before) as (w1 & Hw1 & Hi).
  { split_and!; try done. lia. }
  assert (w1 = w) as -> by congruence.
  destruct (debug_schedule_inv A order Ho _ w after Hi ltac:(lia) Hs2) as (w' & Hw' & _ & Hfin).
  exists w'. split; [done|]. by apply Hfin.
Qed.

Lemma debug_terminal_final_witness :
  ∃ w w', reached sample_api elements "d" sample_runtime (sample_actions ++ [DTermClose; DTermFinish]) = Ret w ∧
    schedule sample_api elements [DReturn None None; DResume None None true] w = Ret w' ∧
    hi_log (wd_history w') = hi_log (wd_history w).
Proof.
  eexists. edestruct (debug_terminal_final sample_api elements "d" sample_runtime
    (sample_actions ++ [DTermClose; DTermFinish]) [DReturn None None; DResume None None true])
    as (w' & Hw' & _ & Hl).
  - destruct debug_sample_admissible as (H1 & H2 & H3 & H4 & H5 & H6). split; [exact H1|].
    split; [exact H2|]. split; [exact H3|]. split; [exact H4|].
    split; [vm_compute; reflexivity|]. repeat constructor.
  - vm_compute. reflexivity.
  - vm_compute. reflexivity.
  - exists w'. split; [vm_compute; reflexivity|]. split; [exact Hw'|exact Hl].
Defined.

(** Watchers of a debug session see a contiguous segment of the history: a
    watcher receives, without gaps or duplicates, the events published since it
    subscribed; all of them unless it cancelled or was dropped, which it then
    learns from [ErrWatcherLagged]; once the session is terminal the channels of
    every watcher are closed behind the last event it gets. *)
Theorem debug_watchers_contiguous {plan sess : Type} (A : runtime_api plan sess)
    (order : gset Z → list Z) (id : string) (rt : executionRuntime plan sess) (actions : list action)
    (w : world plan sess) (wid : Z) (v : watcher Event) :
  admissible order rt actions → reached A order id rt actions = Ret w →
  h_store (d_hub (wd_session w)) !! wid = Some v →
  (∃ since seen, hi_since (wd_history w) !! wid = Some since ∧ hi_seen (wd_history w) !! wid = Some seen ∧
    (seen ++ w_events v) `prefix_of` drop since (hi_log (wd_history w)) ∧
    (wid ∉ hi_cancelled (wd_history w) → w_errors v = [] →
      seen ++ w_events v = drop since (hi_log (wd_history w)))) ∧
  (length (w_events v) ≤ watcherBufferSize)%nat ∧
  (Terminal (d_state (wd_session w)) = true → w_eventsClosed v = true ∧ w_errorsClosed v = true).
Proof.
  intros Ha Hw Hv. destruct (debug_reached_inv A order id rt actions Ha) as (w1 & Hw1 & Hi).
  assert (w1 = w) as -> by congruence.
  pose proof (iv_stream _ _ Hi) as [Hh Ht _ _ _ _ Hf _ _].
  destruct (ho_store _ _ Hh _ _ Hv) as [_ (Hlen & _ & He & Her & _)].
  split; [|split; [done|]].
  - destruct (tk_observes _ _ Ht _ _ Hv) as (since & seen & H1 & H2 & _ & H3 & H4).
    exists since, seen. split_and!; try done. auto.
  - intros Hterm. rewrite Hterm in Hf. pose proof (tk_final _ _ Ht Hf) as Hl.
    rewrite Hl, bool_decide_eq_false_2 in He, Her by set_solver. done.
Qed.

Lemma debug_watchers_contiguous_witness :
  ∃ w v, reached sample_api elements "d" sample_runtime sample_actions = Ret w ∧
    h_store (d_hub (wd_session w)) !! 1%Z = Some v ∧ (length (w_events v) ≤ 8)%nat.
Proof.
  pose proof (λ w v, debug_watchers_contiguous sample_api elements "d" sample_runtime sample_actions
    w 1%Z v debug_sample_admissible) as H.
  edestruct H as (_ & Hlen & _); [vm_compute; reflexivity|vm_compute; reflexivity|].
  eexists _, _. split; [vm_compute; reflexivity|]. split; [vm_compute; reflexivity|]. exact Hlen.
Defined.

(** Closing a debug session always completes, even when the debugger never
    answers the running command: from every reachable world the teardown and
    [terminate] alone reach a terminal session with a finished close operation,
    the runtime's session is then closed exactly once and its plan lease is
    released exactly once. *)
Theorem debug_teardown_completes {plan sess : Type} (A : runtime_api plan sess)
    (order : gset Z → list Z) (id : string) (rt : executionRuntime plan sess) (actions : list action) :
  admissible order rt actions →
  ∃ w, reached A order id rt (actions ++ teardown) = Ret w ∧
    Terminal (d_state (wd_session w)) = true ∧ Finished (d_close (wd_session w)) = true ∧
    dr_releases (d_runtime (wd_session w)) = 1%nat ∧
    er_closes (dr_runtime (d_runtime (wd_session w))) =
      option_list (er_session (dr_runtime (d_runtime (wd_session w)))).
Proof.
  intros Had. pose proof Had as (Ho & Ht & Hc & Hcl & Hn & Hs).
  destruct (debug_reached_inv A order id rt actions Had) as (w0 & Hw0 & Hi0).
  set (n := (1 + Z.of_nat (length actions))%Z) in *.
  destruct (begin_step A order n w0 Hi0) as (w1 & Ha1 & Hi1 & Hk1 & _).
  apply debug_attempt_act in Ha1.
  destruct (teardown_request A order n w1 Hi1 Hk1) as (w2 & Ha2 & Hk2).
  destruct (debug_attempt_inv A order Ho n w1 DCloserRequest Hi1 ltac:(lia) I) as (w2' & Ha2' & Hi2 & _).
  assert (w2' = w2) as -> by congruence.
  destruct (teardown_terminate A order Ho _ w2 Hi2 ltac:(lia) Hk2)
    as (w3 & w4 & Ha3 & Ha4 & Hi4 & Hk4 & Ht4).
  destruct (debug_teardown_settle A order Ho _ w4 Hi4 Hk4 Ht4) as (w5 & w6 & Ha5 & Ha6 & Hk6).
  destruct (debug_schedule_inv A order Ho n w0 teardown Hi0) as (w & Hw & Hi & _);
    [simpl; lia|by repeat constructor|].
  assert (schedule A order teardown w0 = Ret w6) as Hw6.
  { simpl. rewrite Ha1. cbn. rewrite Ha2. cbn. rewrite Ha3. cbn. rewrite Ha4. cbn.
    rewrite Ha5. cbn. by rewrite Ha6. }
  assert (w = w6) as -> by congruence. exists w6. split.
  { unfold reached in *. destruct (initial order id (newDebugRuntime rt)); [|done..]. simpl in *.
    by rewrite debug_schedule_app, Hw0. }
  destruct (iv_closer _ _ Hi) as [_ Hclo]. rewrite Hk6 in Hclo. destruct Hclo as (Hfin & Hterm & Hr1 & Hr2).
  destruct (iv_runtime _ _ Hi) as [Hrel Hcls]. rewrite Hr1 in Hrel. rewrite Hr2 in Hcls.
  split_and!; try done. unfold Finished. by rewrite Hfin.
Qed.

Lemma debug_teardown_completes_witness :
  ∃ w, reached sample_api elements "d" sample_runtime (sample_actions ++ teardown) = Ret w ∧
    dr_releases (d_runtime (wd_session w)) = 1%nat.
Proof.
  destruct (debug_teardown_completes sample_api elements "d" sample_runtime sample_actions
    debug_sample_admissible) as (w & Hw & _ & _ & Hr & _). exists w. split; [exact Hw|exact Hr].
Defined.
