(* ===== verification/ExecSession.v ===== *)
(** * Executable sessions

    [internal/exec/session.go]: one reusable plan, the lazily compiled debug
    plan and its leases, and the part of [manager.go] that creates and closes
    one session ([CreateExecution], [CreateDebugRuntime], [finishSessionClose]).
    The child gate is any implementation of [GateSpec]; the goroutines that hold
    it, the retained executions and debug runtimes, and the close worker are a
    list of threads.  Plans are handles; every [Close] of a plan is recorded. *)

From S2P Require Import Prelude Paths Source Errors Diagnostics Lifecycle Parameters ExecRuntime.

Section session.
Context {G : Type} `{GateSpec G}.

(** Channels are identifiers; [s_closedChans] are the closed ones. *)
Record session := mkSession {
  s_id : string;
  s_source : SourceSnapshot;
  s_parameters : list string;
  s_text : list Z;
  s_fsRoot : string;
  s_plan : option nat;
  s_debugPlan : option nat;
  s_debugCompileDone : option nat;
  s_debugCompileErr : option error;
  s_debugRuntimeDone : option nat;
  s_debugCompiling : bool;
  s_debugCompileFailed : bool;
  s_debugRuntimes : Z;
  s_children : G;
  s_nextChan : nat;
  s_closedChans : gset nat
}.

Definition newSession (id : string) (source : SourceSnapshot) (plan : nat) (parameters : list string)
    (text : list Z) (fsRoot : string) : session :=
  mkSession id source ([] ++ parameters) text fsRoot (Some plan) None None None None false false 0 gs_new 0 ∅.

(** [snapshot]: a view of the session with its own copy of the parameters. *)
Record SessionSnapshot := mkSessionSnapshot {
  sn_ID : string;
  sn_Source : SourceSnapshot;
  sn_Parameters : list string;
  sn_Text : list Z
}.

Definition snapshot (s : session) : SessionSnapshot :=
  mkSessionSnapshot (s_id s) (s_source s) ([] ++ s_parameters s) (s_text s).

(** Closing a channel variable. *)
Definition close_chan (ch : option nat) (s : session) : outcome session :=
  match ch with
  | None => Panic "close of nil channel"
  | Some ch =>
      if bool_decide (ch ∈ s_closedChans s) then Panic "close of closed channel"
      else Ret (mkSession (s_id s) (s_source s) (s_parameters s) (s_text s) (s_fsRoot s) (s_plan s) (s_debugPlan s)
                  (s_debugCompileDone s) (s_debugCompileErr s) (s_debugRuntimeDone s)
                  (s_debugCompiling s) (s_debugCompileFailed s) (s_debugRuntimes s) (s_children s)
                  (s_nextChan s) ({[ch]} ∪ s_closedChans s))
  end.

Definition set_children (g : G) (s : session) : session :=
  mkSession (s_id s) (s_source s) (s_parameters s) (s_text s) (s_fsRoot s) (s_plan s) (s_debugPlan s)
    (s_debugCompileDone s) (s_debugCompileErr s) (s_debugRuntimeDone s) (s_debugCompiling s)
    (s_debugCompileFailed s) (s_debugRuntimes s) g (s_nextChan s) (s_closedChans s).

Definition target (s : session) (plan : option nat) : runtimeTarget (option nat) :=
  mkTarget _ (s_id s) (s_source s) (s_text s) (s_fsRoot s) plan.

(** [runtimeTarget]. *)
Definition session_runtimeTarget (s : session) : runtimeTarget (option nat) := target s (s_plan s).

Definition newDebugRuntimeTargetLocked (plan : nat) (s : session) :
    runtimeTarget (option nat) * session :=
  let '(done, next) :=
    if bool_decide (s_debugRuntimes s = 0%Z) then (Some (s_nextChan s), S (s_nextChan s))
    else (s_debugRuntimeDone s, s_nextChan s) in
  let s := mkSession (s_id s) (s_source s) (s_parameters s) (s_text s) (s_fsRoot s) (s_plan s) (s_debugPlan s)
             (s_debugCompileDone s) (s_debugCompileErr s) done (s_debugCompiling s)
             (s_debugCompileFailed s) (s_debugRuntimes s + 1) (s_children s) next (s_closedChans s) in
  (target s (Some plan), s).

(** [runtimeTarget{}]. *)
Definition zeroTarget : runtimeTarget (option nat) :=
  mkTarget _ "" (mkSourceSnapshot "" "" "" 0) [] "" None.

(** One pass of the loop of [acquireDebugRuntimeTarget] up to the point where it
    returns, waits for another compilation, or compiles itself. *)
Inductive acquire_point :=
| AcqError (err : error)
| AcqTarget (t : runtimeTarget (option nat))
| AcqWait (done : nat)
| AcqCompile (done : nat).

Definition acquire_enter (s : session) : outcome (acquire_point * session) :=
  if negb (gs_Accepting (s_children s)) then Ret (AcqError (ESentinel ExecErrSessionClosed), s)
  else
    match s_debugPlan s with
    | Some p => let '(t, s) := newDebugRuntimeTargetLocked p s in Ret (AcqTarget t, s)
    | None =>
        if s_debugCompileFailed s then
          match s_debugCompileErr s with
          | Some err => Ret (AcqError err, s)
          | None => Ret (AcqTarget zeroTarget, s)
          end
        else if s_debugCompiling s then
          match s_debugCompileDone s with
          | Some ch => Ret (AcqWait ch, s)
          | None => Block
          end
        else
          let ch := s_nextChan s in
          Ret (AcqCompile ch,
               mkSession (s_id s) (s_source s) (s_parameters s) (s_text s) (s_fsRoot s) (s_plan s) (s_debugPlan s)
                 (Some ch) (s_debugCompileErr s) (s_debugRuntimeDone s) true
                 (s_debugCompileFailed s) (s_debugRuntimes s) (s_children s) (S ch)
                 (s_closedChans s))
    end.

Definition context_error (err : error) : bool :=
  errors_Is err ContextCanceled || errors_Is err ContextDeadlineExceeded.

(** The second critical section of [acquireDebugRuntimeTarget], with the
    compiler's answer; the result is the target or whether the session is
    closing and the compilation error. *)
Definition acquire_compiled (done : nat) (plan : option nat) (err : option error) (s : session) :
    outcome ((runtimeTarget (option nat) + bool * option error) * session) :=
  let err :=
    match err, plan with
    | None, None => Some (ENew "debug compilation returned no plan")
    | _, _ => err
    end in
  let closing := negb (gs_Accepting (s_children s)) in
  let '(res, s) :=
    match err, plan with
    | None, Some p =>
        if closing then (inr (closing, err), s)
        else
          let s := mkSession (s_id s) (s_source s) (s_parameters s) (s_text s) (s_fsRoot s) (s_plan s) (Some p)
                     (s_debugCompileDone s) (s_debugCompileErr s) (s_debugRuntimeDone s)
                     (s_debugCompiling s) (s_debugCompileFailed s) (s_debugRuntimes s)
                     (s_children s) (s_nextChan s) (s_closedChans s) in
          let '(t, s) := newDebugRuntimeTargetLocked p s in (inl t, s)
    | Some e, _ =>
        if context_error e then (inr (closing, err), s)
        else
          (inr (closing, err),
           mkSession (s_id s) (s_source s) (s_parameters s) (s_text s) (s_fsRoot s) (s_plan s) (s_debugPlan s)
             (s_debugCompileDone s) (Some e) (s_debugRuntimeDone s) (s_debugCompiling s) true
             (s_debugRuntimes s) (s_children s) (s_nextChan s) (s_closedChans s))
    | None, None => (inr (closing, err), s)
    end in
  s ← close_chan (Some done) s;
  Ret (res, mkSession (s_id s) (s_source s) (s_parameters s) (s_text s) (s_fsRoot s) (s_plan s) (s_debugPlan s)
              None (s_debugCompileErr s) (s_debugRuntimeDone s) false (s_debugCompileFailed s)
              (s_debugRuntimes s) (s_children s) (s_nextChan s) (s_closedChans s)).

(** The error [acquireDebugRuntimeTarget] returns after a compilation that gave
    no target; [closeErr] is the result of closing the unused plan. *)
Definition acquire_error (closing : bool) (err : option error) (closed_plan : bool)
    (closeErr : option error) : option error :=
  let err := if closed_plan then errors_Join [err; closeErr] else err in
  if closing then errors_Join [Some (ESentinel ExecErrSessionClosed); err] else err.

Definition releaseDebugRuntime (s : session) : outcome session :=
  if bool_decide (s_debugRuntimes s = 0%Z) then Ret s
  else
    let n := (s_debugRuntimes s - 1)%Z in
    let s' := mkSession (s_id s) (s_source s) (s_parameters s) (s_text s) (s_fsRoot s) (s_plan s) (s_debugPlan s)
                (s_debugCompileDone s) (s_debugCompileErr s) (s_debugRuntimeDone s)
                (s_debugCompiling s) (s_debugCompileFailed s) n (s_children s) (s_nextChan s)
                (s_closedChans s) in
    if bool_decide (n = 0%Z) then
      s'' ← close_chan (s_debugRuntimeDone s) s';
      Ret (mkSession (s_id s'') (s_source s'') (s_parameters s'') (s_text s'') (s_fsRoot s'') (s_plan s'')
             (s_debugPlan s'') (s_debugCompileDone s'') (s_debugCompileErr s'') None
             (s_debugCompiling s'') (s_debugCompileFailed s'') (s_debugRuntimes s'') (s_children s'')
             (s_nextChan s'') (s_closedChans s''))
    else Ret s'.

(** [releasePlans]: the captured channels, the receives, and the plans taken. *)
Definition releasePlans_enter (s : session) : option nat * option nat :=
  (s_debugCompileDone s, s_debugRuntimeDone s).

Definition chan_ready (ch : option nat) (s : session) : bool :=
  match ch with None => true | Some ch => bool_decide (ch ∈ s_closedChans s) end.

Definition releasePlans_take (s : session) : (option nat * option nat) * session :=
  ((s_plan s, s_debugPlan s),
   mkSession (s_id s) (s_source s) (s_parameters s) (s_text s) (s_fsRoot s) None None (s_debugCompileDone s)
     (s_debugCompileErr s) (s_debugRuntimeDone s) (s_debugCompiling s) (s_debugCompileFailed s)
     (s_debugRuntimes s) (s_children s) (s_nextChan s) (s_closedChans s)).

Definition beginRuntimeCreate (s : session) : bool * session :=
  let '(b, g) := gs_BeginCreate (s_children s) in (b, set_children g s).

Definition finishRuntimeCreate (s : session) : outcome session :=
  '(_, g) ← gs_EndCreate (s_children s); Ret (set_children g s).

Definition session_beginClose (s : session) : bool * session :=
  let '(b, g) := gs_BeginClose (s_children s) in (b, set_children g s).

Definition session_finishClose (err : option error) (s : session) : outcome session :=
  g ← gs_FinishClose err (s_children s); Ret (set_children g s).

Definition closeStarted (s : session) : bool := negb (gs_Accepting (s_children s)).

(** ** Threads

    What each goroutine that touches the session does next, and the resources
    that outlive their creator: an execution that may still use the plan
    ([TRunning]) and a retained debug runtime ([TLease]). *)
Inductive thread :=
| TExec                               (* CreateExecution, admitted *)
| TAcquire                            (* CreateDebugRuntime, admitted *)
| TWait (done : nat)                  (* waiting for another compilation *)
| TCompile (done : nat)               (* compiling the debug plan *)
| TUnused (plan : nat)                (* about to close a plan nobody will use *)
| TTarget (plan : option nat)         (* target acquired, NewDebugSession next *)
| TEnd                                (* deferred finishRuntimeCreate *)
| TRunning (plan : option nat)        (* an execution that is not settled *)
| TLease (plan : option nat)          (* a retained debug runtime *)
| TClose (pc : close_pc)              (* finishSessionClose *)
| TDone
with close_pc :=
| KCreates                            (* WaitForCreates *)
| KChildren                           (* waiting for the executions *)
| KHooks                              (* the close hooks *)
| KRelease (compile runtime : option nat)
| KPlans (plan debugPlan : option nat)
| KDebug (debugPlan : option nat)
| KFinish.

Record world := mkWorld {
  wd_session : session;
  wd_threads : list thread;
  wd_nextPlan : nat;                  (* handles handed out by the compiler *)
  wd_closed : list nat                (* plans closed, in order *)
}.

(** The thread holds the child gate. *)
Definition holds_gate (t : thread) : bool :=
  match t with
  | TExec | TAcquire | TWait _ | TCompile _ | TUnused _ | TTarget _ | TEnd => true
  | _ => false
  end.

(** The thread counts in [s_debugRuntimes]. *)
Definition holds_lease (t : thread) : bool :=
  match t with TTarget _ | TLease _ => true | _ => false end.

Definition is_running (t : thread) : bool := match t with TRunning _ => true | _ => false end.

(** The answers of the environment to the steps that call it. *)
Inductive answer :=
| Proceed
| CtxDone                                      (* the caller's context ended *)
| Compiled (plan : bool) (err : option error)  (* whether a plan came back *)
| DebugSession (ok : bool)
| ChildSettled
| CloseResult (err : option error).

Inductive action :=
| ACreateExecution
| ACreateDebugRuntime
| ABeginClose
| AStep (i : nat) (a : answer).

Definition spawn (t : thread) (s : session) (w : world) : world :=
  mkWorld s (wd_threads w ++ [t]) (wd_nextPlan w) (wd_closed w).

Definition goto (i : nat) (t : thread) (s : session) (w : world) : world :=
  mkWorld s (<[i:=t]> (wd_threads w)) (wd_nextPlan w) (wd_closed w).

(** A call of [plan.Close]. *)
Definition close_plan (p : option nat) (w : world) : world :=
  match p with
  | None => w
  | Some p => mkWorld (wd_session w) (wd_threads w) (wd_nextPlan w) (wd_closed w ++ [p])
  end.

Definition step_thread (i : nat) (t : thread) (a : answer) (w : world) : outcome world :=
  let s := wd_session w in
  match t, a with
  | TExec, Proceed =>
      (* newExecution of runtimeTarget, registered; the deferred finish is next *)
      let t := session_runtimeTarget s in
      Ret (spawn (TRunning (t_plan t)) s (goto i TEnd s w))
  | TAcquire, Proceed =>
      '(p, s) ← acquire_enter s;
      Ret (goto i (match p with
                   | AcqError _ => TEnd
                   | AcqTarget t => TTarget (t_plan t)
                   | AcqWait ch => TWait ch
                   | AcqCompile ch => TCompile ch
                   end) s w)
  | TWait ch, Proceed =>
      if bool_decide (ch ∈ s_closedChans s) then Ret (goto i TAcquire s w) else Block
  | TWait _, CtxDone => Ret (goto i TEnd s w)
  | TCompile ch, Compiled got err =>
      let p := wd_nextPlan w in
      let plan := if (got : bool) then Some p else None in
      let w := mkWorld s (wd_threads w) (if (got : bool) then S p else p) (wd_closed w) in
      '(res, s) ← acquire_compiled ch plan err s;
      Ret (goto i (match res with
                   | inl t => TTarget (t_plan t)
                   | inr _ => match plan with Some p => TUnused p | None => TEnd end
                   end) s w)
  | TUnused p, Proceed => Ret (close_plan (Some p) (goto i TEnd s w))
  | TTarget p, DebugSession true => Ret (spawn (TLease p) s (goto i TEnd s w))
  | TTarget p, DebugSession false =>
      s ← releaseDebugRuntime s; Ret (goto i TEnd s w)
  | TEnd, Proceed => s ← finishRuntimeCreate s; Ret (goto i TDone s w)
  | TRunning _, ChildSettled => Ret (goto i TDone s w)
  | TLease _, Proceed => s ← releaseDebugRuntime s; Ret (goto i TDone s w)
  | TClose KCreates, Proceed =>
      if gs_Idle (s_children s) then Ret (goto i (TClose KChildren) s w) else Block
  | TClose KChildren, Proceed =>
      if existsb is_running (wd_threads w) then Block else Ret (goto i (TClose KHooks) s w)
  | TClose KHooks, Proceed =>
      let '(compile, runtime) := releasePlans_enter s in
      Ret (goto i (TClose (KRelease compile runtime)) s w)
  | TClose (KRelease compile runtime), Proceed =>
      if chan_ready compile s && chan_ready runtime s then
        let '((plan, debugPlan), s) := releasePlans_take s in
        Ret (goto i (TClose (KPlans plan debugPlan)) s w)
      else Block
  | TClose (KPlans plan debugPlan), Proceed =>
      Ret (close_plan plan (goto i (TClose (KDebug debugPlan)) s w))
  | TClose (KDebug debugPlan), Proceed =>
      Ret (close_plan debugPlan (goto i (TClose KFinish) s w))
  | TClose KFinish, CloseResult err =>
      s ← session_finishClose err s; Ret (goto i TDone s w)
  | _, _ => Block
  end.

Definition act (a : action) (w : world) : outcome world :=
  let s := wd_session w in
  match a with
  | ACreateExecution =>
      let '(b, s) := beginRuntimeCreate s in
      if (b : bool) then Ret (spawn TExec s w) else Block
  | ACreateDebugRuntime =>
      let '(b, s) := beginRuntimeCreate s in
      if (b : bool) then Ret (spawn TAcquire s w) else Block
  | ABeginClose =>
      let '(b, s) := session_beginClose s in
      if (b : bool) then Ret (spawn (TClose KCreates) s w) else Block
  | AStep i a =>
      match wd_threads w !! i with
      | Some t => step_thread i t a w
      | None => Block
      end
  end.

Definition attempt (a : action) (w : world) : outcome world :=
  match act a w with
  | Ret w => Ret w
  | Panic m => Panic m
  | Block => Ret w
  end.

Fixpoint schedule (actions : list action) (w : world) : outcome world :=
  match actions with
  | [] => Ret w
  | a :: actions => w ← attempt a w; schedule actions w
  end.

Definition initial (id : string) (source : SourceSnapshot) (parameters : list string) (text : list Z)
    (fsRoot : string) : world :=
  mkWorld (newSession id source 0 parameters text fsRoot) [] 1 [].

(** ** Counting threads *)

Definition is_close (t : thread) : bool := match t with TClose _ => true | _ => false end.
Definition is_compile (t : thread) : bool := match t with TCompile _ => true | _ => false end.

(** The plans a thread is about to close. *)
Definition plans_of (t : thread) : list nat :=
  match t with
  | TUnused p => [p]
  | TClose (KPlans p d) => option_list p ++ option_list d
  | TClose (KDebug d) => option_list d
  | _ => []
  end.

Definition plans (ts : list thread) : list nat := concat (map plans_of ts).

Lemma plans_app xs ys : plans (xs ++ ys) = plans xs ++ plans ys.
Proof. unfold plans. by rewrite map_app, concat_app. Qed.

Lemma plans_insert ts i t t' : ts !! i = Some t →
  plans (<[i:=t']> ts) ++ plans_of t ≡ₚ plans ts ++ plans_of t'.
Proof.
  revert i. induction ts as [|u ts IH]; intros [|i] Hi; simpl in *; simplify_eq.
  - unfold plans. simpl. solve_Permutation.
  - unfold plans in *. simpl. rewrite <- !app_assoc, (IH i Hi). done.
Qed.

(** ** Invariant *)

Definition gate_inv (a : agate) (holders closers : nat) : Prop :=
  match a with
  | AOpen n => n = holders ∧ closers = 0%nat
  | AClosing n => n = holders ∧ closers = 1%nat
  | AClosed _ => holders = 0%nat ∧ closers = 0%nat
  end.

(** What the close worker knows at each point: [cg] gate holders, [cr] running
    executions and [cl] leases are left. *)
Definition pc_ok (s : session) (cg cr cl : nat) (pc : close_pc) : Prop :=
  match pc with
  | KCreates => s_plan s ≠ None
  | KChildren => s_plan s ≠ None ∧ cg = 0%nat
  | KHooks => s_plan s ≠ None ∧ cg = 0%nat ∧ cr = 0%nat
  | KRelease c r =>
      s_plan s ≠ None ∧ cg = 0%nat ∧ cr = 0%nat ∧ c = None ∧
      match r with None => cl = 0%nat | Some ch => s_debugRuntimeDone s = Some ch ∨ cl = 0%nat end
  | KPlans _ _ | KDebug _ | KFinish =>
      s_plan s = None ∧ s_debugPlan s = None ∧ cg = 0%nat ∧ cr = 0%nat ∧ cl = 0%nat
  end.

Definition thread_ok (s : session) (cg cr cl : nat) (t : thread) : Prop :=
  match t with
  | TWait ch => ch ∈ s_closedChans s ∨ s_debugCompileDone s = Some ch
  | TCompile ch => s_debugCompileDone s = Some ch
  | TTarget p | TLease p => p = s_debugPlan s ∧ p ≠ None
  | TRunning p => p = s_plan s ∧ p ≠ None
  | TClose pc => pc_ok s cg cr cl pc
  | _ => True
  end.

Definition threads_ok (s : session) (ts : list thread) : Prop :=
  ∀ i t, ts !! i = Some t →
    thread_ok s (count holds_gate ts) (count is_running ts) (count holds_lease ts) t.

Record inv (w : world) : Prop := {
  i_wf : gs_wf (s_children (wd_session w));
  i_gate : gate_inv (gs_abs (s_children (wd_session w))) (count holds_gate (wd_threads w))
             (count is_close (wd_threads w));
  i_chans : ∀ ch, ch ∈ s_closedChans (wd_session w) → (ch < s_nextChan (wd_session w))%nat;
  i_leases : s_debugRuntimes (wd_session w) = Z.of_nat (count holds_lease (wd_threads w));
  i_runtimeDone :
    match s_debugRuntimeDone (wd_session w) with
    | None => s_debugRuntimes (wd_session w) = 0%Z
    | Some ch => s_debugRuntimes (wd_session w) ≠ 0%Z ∧ (ch < s_nextChan (wd_session w))%nat ∧
                 ch ∉ s_closedChans (wd_session w)
    end;
  i_compile : count is_compile (wd_threads w) =
    (if s_debugCompiling (wd_session w) then 1 else 0)%nat;
  i_compileDone :
    match s_debugCompileDone (wd_session w) with
    | None => s_debugCompiling (wd_session w) = false
    | Some ch => s_debugCompiling (wd_session w) = true ∧ (ch < s_nextChan (wd_session w))%nat ∧
                 ch ∉ s_closedChans (wd_session w) ∧ s_debugRuntimeDone (wd_session w) ≠ Some ch
    end;
  i_compiling : s_debugCompiling (wd_session w) = true → s_debugPlan (wd_session w) = None;
  i_failed : s_debugCompileFailed (wd_session w) = true → s_debugCompileErr (wd_session w) ≠ None;
  i_threads : threads_ok (wd_session w) (wd_threads w);
  i_released : s_plan (wd_session w) = None →
    count holds_gate (wd_threads w) = 0%nat ∧ count is_running (wd_threads w) = 0%nat ∧
    count holds_lease (wd_threads w) = 0%nat ∧ gs_Accepting (s_children (wd_session w)) = false;
  i_plans : option_list (s_plan (wd_session w)) ++ option_list (s_debugPlan (wd_session w)) ++
              plans (wd_threads w) ++ wd_closed w ≡ₚ seq 0 (wd_nextPlan w);
  i_closed : ∀ err, gs_abs (s_children (wd_session w)) = AClosed err →
    s_plan (wd_session w) = None ∧ s_debugPlan (wd_session w) = None
}.

Lemma pc_frame s s' cg cr cl cg' cr' cl' pc :
  s_plan s' = s_plan s →
  ((0 < cg)%nat ∨
   (cg' = 0%nat ∧ (cr' ≤ cr)%nat ∧ (cl' ≤ cl)%nat ∧ s_debugPlan s' = s_debugPlan s ∧
    (s_debugRuntimeDone s' = s_debugRuntimeDone s ∨ cl' = 0%nat))) →
  pc_ok s cg cr cl pc → pc_ok s' cg' cr' cl' pc.
Proof.
  intros Hp Hor Hok. destruct pc as [| | |c r|p d|d|]; simpl in *; rewrite Hp; try done;
    destruct Hor as [Hcg|(? & ? & ? & ? & Hr)]; intuition (try lia; try congruence).
  all: destruct r as [ch|]; intuition (try lia; try congruence).
Qed.

(** The other threads are not disturbed by a step of thread [i]. *)
Lemma threads_frame s s' ts ts' i t :
  ts !! i = Some t → threads_ok s ts →
  (∀ j u, ts' !! j = Some u → j ≠ i → ts !! j = Some u ∨
     thread_ok s' (count holds_gate ts') (count is_running ts') (count holds_lease ts') u) →
  (∀ u, ts' !! i = Some u →
     thread_ok s' (count holds_gate ts') (count is_running ts') (count holds_lease ts') u) →
  s_plan s' = s_plan s →
  (∀ ch, ch ∈ s_closedChans s ∨ s_debugCompileDone s = Some ch →
         ch ∈ s_closedChans s' ∨ s_debugCompileDone s' = Some ch) →
  (s_debugCompileDone s' = s_debugCompileDone s ∨ (is_compile t = true ∧ count is_compile ts = 1%nat) ∨
     count is_compile ts = 0%nat) →
  (s_debugPlan s' = s_debugPlan s ∨ s_debugPlan s = None) →
  ((0 < count holds_gate ts)%nat ∨
   (count holds_gate ts' = 0%nat ∧ (count is_running ts' ≤ count is_running ts)%nat ∧
    (count holds_lease ts' ≤ count holds_lease ts)%nat ∧ s_debugPlan s' = s_debugPlan s ∧
    (s_debugRuntimeDone s' = s_debugRuntimeDone s ∨ count holds_lease ts' = 0%nat))) →
  threads_ok s' ts'.
Proof.
  intros Hi Hok Hother Hself Hp Hwt Hc Hd Hg j u Hj. destruct (decide (j = i)) as [->|Hne]; [by apply Hself|].
  destruct (Hother j u Hj Hne) as [Hu|Hu]; [|done]. specialize (Hok j u Hu).
  destruct u; simpl in *; try done.
  - by apply Hwt.
  - destruct Hc as [->|[[Hct Hcc]|Hcc]]; [done| |].
    + pose proof (count_two is_compile ts i j t (TCompile done) Hi Hu ltac:(congruence) Hct eq_refl). lia.
    + pose proof (count_pos is_compile ts j (TCompile done) Hu eq_refl). lia.
  - destruct Hok as [Hpl Hne']. destruct Hd as [->|Hd]; [done|congruence].
  - by rewrite Hp.
  - destruct Hok as [Hpl Hne']. destruct Hd as [->|Hd]; [done|congruence].
  - by eapply pc_frame.
Qed.

(** Lookups in the updated thread list. *)
Lemma goto_lookup (ts : list thread) i t' j u :
  <[i:=t']> ts !! j = Some u → j ≠ i → ts !! j = Some u.
Proof. intros Hj Hne. by rewrite list_lookup_insert_ne in Hj. Qed.

Lemma goto_self (ts : list thread) i t t' u :
  ts !! i = Some t → <[i:=t']> ts !! i = Some u → u = t'.
Proof.
  intros Hi Hu. rewrite list_lookup_insert_eq in Hu; [congruence|]. by apply lookup_lt_Some in Hi.
Qed.

Lemma spawn_lookup (ts : list thread) i t' x j u :
  (<[i:=t']> ts ++ [x]) !! j = Some u → j ≠ i → ts !! j = Some u ∨ u = x.
Proof.
  intros Hj Hne. apply lookup_app_Some_or_last in Hj as [Hj|[_ ->]]; [left|by right].
  by eapply goto_lookup.
Qed.

Lemma spawn_self (ts : list thread) i t t' x u :
  ts !! i = Some t → (<[i:=t']> ts ++ [x]) !! i = Some u → u = t'.
Proof.
  intros Hi Hu. rewrite lookup_app_l in Hu; [exact (goto_self _ _ _ _ _ Hi Hu)|].
  rewrite length_insert. by apply lookup_lt_Some in Hi.
Qed.

(** A step that only moves thread [i], leaving the session unchanged. *)
Lemma move_inv w i t t' :
  inv w → wd_threads w !! i = Some t →
  holds_gate t' = holds_gate t → holds_lease t' = holds_lease t → is_close t' = is_close t →
  is_compile t' = is_compile t → is_running t' = is_running t ∨ is_running t' = false →
  plans_of t' = plans_of t →
  (∀ cr cl, (cr ≤ count is_running (wd_threads w))%nat → cl = count holds_lease (wd_threads w) →
     thread_ok (wd_session w) (count holds_gate (wd_threads w)) cr cl t') →
  inv (goto i t' (wd_session w) w).
Proof.
  intros Hi Ht Hg Hl Hc Hcm Hr Hp Hok. pose proof Hi as [W GT CH LE RD CO CD CP FA TH RL PL CLO].
  pose proof (count_insert holds_gate _ i t t' Ht) as C1.
  pose proof (count_insert holds_lease _ i t t' Ht) as C2.
  pose proof (count_insert is_close _ i t t' Ht) as C3.
  pose proof (count_insert is_compile _ i t t' Ht) as C4.
  pose proof (count_insert is_running _ i t t' Ht) as C5.
  pose proof (plans_insert _ i t t' Ht) as PI.
  rewrite Hg in C1. rewrite Hl in C2. rewrite Hc in C3. rewrite Hcm in C4. rewrite Hp in PI.
  apply Permutation_app_inv_r in PI.
  assert (count holds_gate (<[i:=t']> (wd_threads w)) = count holds_gate (wd_threads w)) as E1 by lia.
  assert (count holds_lease (<[i:=t']> (wd_threads w)) = count holds_lease (wd_threads w)) as E2 by lia.
  assert (count is_close (<[i:=t']> (wd_threads w)) = count is_close (wd_threads w)) as E3 by lia.
  assert (count is_compile (<[i:=t']> (wd_threads w)) = count is_compile (wd_threads w)) as E4 by lia.
  assert (count is_running (<[i:=t']> (wd_threads w)) ≤ count is_running (wd_threads w))%nat as E5.
  { destruct Hr as [Hr|Hr]; rewrite Hr in C5; destruct (is_running t); lia. }
  split; simpl; rewrite ?E1, ?E2, ?E3, ?E4; try done.
  - eapply (threads_frame (wd_session w) _ (wd_threads w)); try done.
    + intros j u Hj Hne. left. by eapply goto_lookup.
    + intros u Hu. rewrite (goto_self _ _ _ _ _ Ht Hu), E1, E2. by apply Hok.
    + by left.
    + by left.
    + rewrite E1, E2. destruct (count holds_gate (wd_threads w)); [right|left; lia].
      split_and!; try done. by left.
  - intros Hn. destruct (RL Hn) as (? & ? & ? & ?). split_and!; try done. lia.
  - by rewrite PI.
Qed.

(** The counts and plans after thread [i] (now [t'], was [t]) moved. *)
Ltac counts Ht t' :=
  let C1 := fresh "CG" in let C2 := fresh "CL" in let C3 := fresh "CC" in
  let C4 := fresh "CM" in let C5 := fresh "CR" in let PI := fresh "PI" in
  pose proof (count_insert holds_gate _ _ _ t' Ht) as C1;
  pose proof (count_insert holds_lease _ _ _ t' Ht) as C2;
  pose proof (count_insert is_close _ _ _ t' Ht) as C3;
  pose proof (count_insert is_compile _ _ _ t' Ht) as C4;
  pose proof (count_insert is_running _ _ _ t' Ht) as C5;
  pose proof (plans_insert _ _ _ t' Ht) as PI;
  simpl in C1, C2, C3, C4, C5, PI; rewrite ?app_nil_r in PI.

(** A new thread that holds the gate, or the close worker, at the end of the
    list. *)
Lemma spawn_gate_inv w g t :
  inv w → holds_gate t = true → (t = TExec ∨ t = TAcquire) →
  gs_BeginCreate (s_children (wd_session w)) = (true, g) →
  inv (spawn t (set_children g (wd_session w)) w).
Proof.
  intros [W GT CH LE RD CO CD CP FA TH RL PL CLO] Hg Ht Hb.
  destruct (gs_begin_create_ok _ W) as [Wg Ag]. rewrite Hb in Wg, Ag. simpl in Wg, Ag.
  destruct (gs_abs (s_children (wd_session w))) as [n| |] eqn:Ea; simpl in Ag; try discriminate.
  injection Ag as Ag.
  destruct GT as [-> Hc0].
  assert (holds_lease t = false ∧ is_close t = false ∧ is_compile t = false ∧ is_running t = false ∧
          plans_of t = []) as (T1 & T2 & T3 & T4 & T5) by (by destruct Ht as [->| ->]).
  assert (∀ f, f t = false → count f (wd_threads w ++ [t]) = count f (wd_threads w)) as Hcf.
  { intros f Hf. rewrite count_app. simpl. rewrite Hf. lia. }
  split; simpl; rewrite ?(Hcf _ T1), ?(Hcf _ T2), ?(Hcf _ T3), ?(Hcf _ T4); try done.
  - rewrite Ag. simpl. rewrite count_app. simpl. rewrite Hg. split; [lia|done].
  - intros j u Hj. rewrite (Hcf _ T1), (Hcf _ T4).
    apply lookup_app_Some_or_last in Hj as [Hj| [_ ->]]; [|by destruct Ht as [->| ->]].
    specialize (TH j u Hj). destruct u; simpl in *; try done.
    pose proof (count_pos is_close _ _ _ Hj eq_refl). lia.
  - intros Hn. destruct (RL Hn) as (_ & _ & _ & Ha). rewrite gs_accepting_ok, Ea in Ha by done. done.
  - rewrite plans_app. unfold plans at 2. simpl. by rewrite T5, !app_nil_r.
  - intros e. by rewrite Ag.
Qed.

Lemma spawn_close_inv w g :
  inv w → gs_BeginClose (s_children (wd_session w)) = (true, g) →
  inv (spawn (TClose KCreates) (set_children g (wd_session w)) w).
Proof.
  intros [W GT CH LE RD CO CD CP FA TH RL PL CLO] Hb.
  destruct (gs_begin_close_ok _ W) as [Wg Ag]. rewrite Hb in Wg, Ag. simpl in Wg, Ag.
  destruct (gs_abs (s_children (wd_session w))) as [n| |] eqn:Ea; simpl in Ag; try discriminate.
  injection Ag as Ag.
  destruct GT as [-> Hc0].
  assert (∀ f, f (TClose KCreates) = false →
    count f (wd_threads w ++ [TClose KCreates]) = count f (wd_threads w)) as Hcf.
  { intros f Hf. rewrite count_app. simpl. rewrite Hf. lia. }
  assert (s_plan (wd_session w) ≠ None) as Hpl.
  { intros Hn. destruct (RL Hn) as (_ & _ & _ & Ha). rewrite gs_accepting_ok, Ea in Ha by done. done. }
  split; simpl; rewrite ?(Hcf holds_gate eq_refl), ?(Hcf holds_lease eq_refl),
    ?(Hcf is_compile eq_refl), ?(Hcf is_running eq_refl); try done.
  - rewrite Ag. simpl. rewrite count_app. simpl. split; [done|lia].
  - intros j u Hj. rewrite (Hcf holds_gate eq_refl), (Hcf holds_lease eq_refl), (Hcf is_running eq_refl).
    apply lookup_app_Some_or_last in Hj as [Hj| [_ ->]]; [|done]. by apply (TH j).
  - rewrite plans_app. unfold plans at 2. simpl. by rewrite !app_nil_r.
  - intros e. by rewrite Ag.
Qed.

(** [CreateExecution] registers an execution of the session's plan. *)
Lemma exec_inv w i : inv w → wd_threads w !! i = Some TExec →
  inv (spawn (TRunning (s_plan (wd_session w))) (wd_session w) (goto i TEnd (wd_session w) w)).
Proof.
  intros [W GT CH LE RD CO CD CP FA TH RL PL CLO] Ht. counts Ht TEnd.
  pose proof (count_pos holds_gate _ _ _ Ht eq_refl) as Hpos.
  assert (s_plan (wd_session w) ≠ None) as Hpl by (intros Hn; destruct (RL Hn) as (? & _); lia).
  split; simpl; rewrite ?count_app; simpl; rewrite ?Nat.add_0_r; try done.
  - by replace (count holds_gate _) with (count holds_gate (wd_threads w)) by lia;
      replace (count is_close _) with (count is_close (wd_threads w)) by lia.
  - rewrite LE. f_equal. lia.
  - by replace (count is_compile _) with (count is_compile (wd_threads w)) by lia.
  - eapply (threads_frame (wd_session w) _ (wd_threads w) _ i TExec); try done.
    + intros j u Hj Hne. apply spawn_lookup in Hj as [Hj| ->]; [by left|right; done|done].
    + intros u Hu. by rewrite (spawn_self _ _ _ _ _ _ Ht Hu).
    + by left.
    + by left.
    + left. lia.
  - rewrite plans_app. unfold plans at 2. simpl. rewrite app_nil_r, PI. by rewrite ?app_nil_r.
Qed.

(** The deferred end of a creation. *)
Lemma end_inv w i g b : inv w → wd_threads w !! i = Some TEnd →
  gs_EndCreate (s_children (wd_session w)) = Ret (b, g) →
  inv (goto i TDone (set_children g (wd_session w)) w).
Proof.
  intros [W GT CH LE RD CO CD CP FA TH RL PL CLO] Ht He. counts Ht TDone.
  pose proof (gs_end_create_ok _ W) as Hend.
  pose proof (count_pos holds_gate _ _ _ Ht eq_refl) as Hpos.
  assert (∃ a', a_end_create (gs_abs (s_children (wd_session w))) = Some (b, a') ∧ gs_wf g ∧
            gs_abs g = a') as (a' & Ea & Wg & Ag).
  { destruct (a_end_create _) as [[b' a']|]; [|destruct Hend as [m Hm]; congruence].
    destruct Hend as (g' & Hg' & ? & ?). rewrite He in Hg'. inv Hg'. eauto. }
  split; simpl; try done.
  - rewrite Ag. destruct (gs_abs (s_children (wd_session w))) as [[|n]|[|n]|]; simpl in *; inv Ea;
      simpl; lia.
  - rewrite LE. f_equal. lia.
  - by replace (count is_compile _) with (count is_compile (wd_threads w)) by lia.
  - eapply (threads_frame (wd_session w) _ (wd_threads w) _ i TEnd); try done.
    + intros j u Hj Hne. left. by eapply goto_lookup.
    + intros u Hu. by rewrite (goto_self _ _ _ _ _ Ht Hu).
    + by left.
    + by left.
    + left. lia.
  - intros Hn. destruct (RL Hn) as (? & _). lia.
  - rewrite PI. by rewrite ?app_nil_r.
  - intros e He'. rewrite Ag in He'.
    destruct (gs_abs (s_children (wd_session w))) as [[|n]|[|n]|]; simpl in Ea; simplify_eq;
      congruence.
Qed.

(** Giving back a lease never panics: the lease was counted. *)
Lemma release_inv w i t t' : inv w → wd_threads w !! i = Some t →
  (∃ p, t = TTarget p ∧ t' = TEnd) ∨ (∃ p, t = TLease p ∧ t' = TDone) →
  ∃ s, releaseDebugRuntime (wd_session w) = Ret s ∧ inv (goto i t' s w).
Proof.
  intros [W GT CH LE RD CO CD CP FA TH RL PL CLO] Ht Hor. counts Ht t'.
  assert (holds_lease t = true ∧ holds_lease t' = false ∧ holds_gate t' = holds_gate t ∧
          is_close t = false ∧ is_close t' = false ∧ is_compile t = false ∧ is_compile t' = false ∧
          is_running t = false ∧ is_running t' = false ∧ plans_of t = [] ∧ plans_of t' = [] ∧
          (∀ s cg cr cl, thread_ok s cg cr cl t'))
    as (T1 & T2 & T3 & T4 & T5 & T6 & T7 & T8 & T9 & T10 & T11 & T12)
    by (by destruct Hor as [(p & -> & ->)|(p & -> & ->)]).
  rewrite T1, T2 in CL. rewrite T3 in CG. rewrite T4, T5 in CC. rewrite T6, T7 in CM.
  rewrite T8, T9 in CR. rewrite T10, T11 in PI.
  pose proof (count_pos holds_lease _ _ _ Ht T1) as Hpos.
  unfold releaseDebugRuntime. rewrite bool_decide_eq_false_2 by lia.
  destruct (s_debugRuntimeDone (wd_session w)) as [ch|] eqn:Erd; [|lia].
  destruct RD as (Hne & Hlt & Hnin).
  assert (∀ s', s_plan s' = s_plan (wd_session w) → s_debugPlan s' = s_debugPlan (wd_session w) →
    s_debugCompileDone s' = s_debugCompileDone (wd_session w) →
    (s_debugRuntimeDone s' = Some ch ∨ count holds_lease (<[i:=t']> (wd_threads w)) = 0%nat) →
    s_closedChans (wd_session w) ⊆ s_closedChans s' →
    threads_ok s' (<[i:=t']> (wd_threads w))) as HTH.
  { intros s' E1 E2 E3 E4 E5. eapply (threads_frame (wd_session w) _ (wd_threads w) _ i t); try done.
    - intros j u Hj Hne'. left. by eapply goto_lookup.
    - intros u Hu. rewrite (goto_self _ _ _ _ _ Ht Hu). apply T12.
    - intros c [Hc|Hc]; [left; by apply E5|right; congruence].
    - by left.
    - by left.
    - destruct (count holds_gate (wd_threads w)) eqn:Ecg; [right|left; lia].
      split_and!; try done; [lia|lia|lia|]. by rewrite Erd. }
  case_bool_decide as Hz; simpl.
  - rewrite bool_decide_eq_false_2 by done. cbn. eexists. split; [done|].
    split; simpl; try done.
    + by replace (count holds_gate _) with (count holds_gate (wd_threads w)) by lia;
        replace (count is_close _) with (count is_close (wd_threads w)) by lia.
    + intros c [->%elem_of_singleton|Hc]%elem_of_union; [done|by apply CH].
    + lia.
    + by replace (count is_compile _) with (count is_compile (wd_threads w)) by lia.
    + destruct (s_debugCompileDone (wd_session w)) as [c|]; [|done].
      destruct CD as (? & ? & Hc & Hcr). split_and!; try done.
      intros [->%elem_of_singleton|Hin]%elem_of_union; [by apply Hcr|done].
    + apply HTH; try done; [right; lia|]. apply union_subseteq_r.
    + intros Hn. destruct (RL Hn) as (? & ? & ? & ?). lia.
    + rewrite ?app_nil_r in PI. by rewrite PI.
  - eexists. split; [done|]. split; simpl; rewrite ?Erd; try done.
    + by replace (count holds_gate _) with (count holds_gate (wd_threads w)) by lia;
        replace (count is_close _) with (count is_close (wd_threads w)) by lia.
    + lia.
    + by replace (count is_compile _) with (count is_compile (wd_threads w)) by lia.
    + apply HTH; try done. by left.
    + intros Hn. destruct (RL Hn) as (? & ? & ? & ?). lia.
    + rewrite ?app_nil_r in PI. by rewrite PI.
Qed.

(** Acquiring a lease of the debug plan; [s0] is the session with the plan. *)
Lemma lease_inv w i t p s0 :
  inv w → wd_threads w !! i = Some t → holds_gate t = true → holds_lease t = false →
  is_compile t = false → is_running t = false → is_close t = false → plans_of t = [] →
  s_debugPlan (wd_session w) = Some p → s0 = wd_session w →
  inv (goto i (TTarget (Some p)) (newDebugRuntimeTargetLocked p s0).2 w).
Proof.
  intros [W GT CH LE RD CO CD CP FA TH RL PL CLO] Ht T1 T2 T3 T4 T5 T6 Hd ->. counts Ht (TTarget (Some p)).
  rewrite T1 in CG. rewrite T2 in CL. rewrite T5 in CC. rewrite T3 in CM. rewrite T4 in CR.
  rewrite T6, ?app_nil_r in PI. pose proof (count_pos holds_gate _ _ _ Ht T1) as Hpos.
  unfold newDebugRuntimeTargetLocked.
  assert (∀ s', s_plan s' = s_plan (wd_session w) → s_debugPlan s' = s_debugPlan (wd_session w) →
    s_debugCompileDone s' = s_debugCompileDone (wd_session w) →
    s_closedChans s' = s_closedChans (wd_session w) →
    threads_ok s' (<[i:=TTarget (Some p)]> (wd_threads w))) as HTH.
  { intros s' E1 E2 E3 E4. eapply (threads_frame (wd_session w) _ (wd_threads w) _ i t); try done.
    - intros j u Hj Hne'. left. by eapply goto_lookup.
    - intros u Hu. rewrite (goto_self _ _ _ _ _ Ht Hu). simpl. by rewrite E2, Hd.
    - by rewrite E3, E4.
    - by left.
    - by left.
    - left. lia. }
  case_bool_decide as Hz; simpl; split; simpl; try done.
  - by replace (count holds_gate _) with (count holds_gate (wd_threads w)) by lia;
      replace (count is_close _) with (count is_close (wd_threads w)) by lia.
  - intros ch Hin%CH. lia.
  - lia.
  - split_and!; [lia|lia|]. intros Hin%CH. lia.
  - by replace (count is_compile _) with (count is_compile (wd_threads w)) by lia.
  - destruct (s_debugCompileDone (wd_session w)) as [c|]; [|done].
    destruct CD as (? & ? & Hc & Hcr). split_and!; try done; [lia|]. intros [=]. lia.
  - by apply HTH.
  - intros Hn. destruct (RL Hn) as (? & _). lia.
  - by rewrite PI.
  - by replace (count holds_gate _) with (count holds_gate (wd_threads w)) by lia;
      replace (count is_close _) with (count is_close (wd_threads w)) by lia.
  - lia.
  - destruct (s_debugRuntimeDone (wd_session w)) as [ch|]; [|lia]. destruct RD as (? & ? & ?).
    split_and!; try done. lia.
  - by replace (count is_compile _) with (count is_compile (wd_threads w)) by lia.
  - by apply HTH.
  - intros Hn. destruct (RL Hn) as (? & _). lia.
  - by rewrite PI.
Qed.

(** A debug runtime that outlives its creator. *)
Lemma retain_inv w i p : inv w → wd_threads w !! i = Some (TTarget p) →
  inv (spawn (TLease p) (wd_session w) (goto i TEnd (wd_session w) w)).
Proof.
  intros [W GT CH LE RD CO CD CP FA TH RL PL CLO] Ht. counts Ht TEnd.
  pose proof (count_pos holds_gate _ _ _ Ht eq_refl) as Hpos. pose proof (TH _ _ Ht) as Hp. simpl in Hp.
  split; simpl; rewrite ?count_app; simpl; rewrite ?Nat.add_0_r; try done.
  - by replace (count holds_gate _) with (count holds_gate (wd_threads w)) by lia;
      replace (count is_close _) with (count is_close (wd_threads w)) by lia.
  - lia.
  - by replace (count is_compile _) with (count is_compile (wd_threads w)) by lia.
  - eapply (threads_frame (wd_session w) _ (wd_threads w) _ i (TTarget p)); try done.
    + intros j u Hj Hne. apply spawn_lookup in Hj as [Hj| ->]; [by left|right; done|done].
    + intros u Hu. by rewrite (spawn_self _ _ _ _ _ _ Ht Hu).
    + by left.
    + by left.
    + left. lia.
  - intros Hn. destruct (RL Hn) as (? & _). lia.
  - rewrite plans_app. unfold plans at 2. simpl. rewrite ?app_nil_r, PI. done.
Qed.

(** The start of a debug compilation. *)
Lemma compile_inv w i : inv w → wd_threads w !! i = Some TAcquire →
  s_debugPlan (wd_session w) = None → s_debugCompiling (wd_session w) = false →
  let ch := s_nextChan (wd_session w) in
  let s := wd_session w in
  inv (goto i (TCompile ch)
         (mkSession (s_id s) (s_source s) (s_parameters s) (s_text s) (s_fsRoot s) (s_plan s) (s_debugPlan s)
            (Some ch) (s_debugCompileErr s) (s_debugRuntimeDone s) true (s_debugCompileFailed s)
            (s_debugRuntimes s) (s_children s) (S ch) (s_closedChans s)) w).
Proof.
  intros [W GT CH LE RD CO CD CP FA TH RL PL CLO] Ht Hd Hc ch s. subst s. counts Ht (TCompile ch).
  pose proof (count_pos holds_gate _ _ _ Ht eq_refl) as Hpos. rewrite Hc in CO.
  split; simpl; try done.
  - by replace (count holds_gate _) with (count holds_gate (wd_threads w)) by lia;
      replace (count is_close _) with (count is_close (wd_threads w)) by lia.
  - intros c Hin%CH. subst ch. lia.
  - lia.
  - destruct (s_debugRuntimeDone (wd_session w)) as [c|]; [|done]. destruct RD as (? & ? & ?).
    split_and!; try done. subst ch. lia.
  - lia.
  - split_and!; try done; [lia|intros Hin%CH; subst ch; lia|].
    intros Heq. rewrite Heq in RD. destruct RD as (_ & ? & _). subst ch. lia.
  - eapply (threads_frame (wd_session w) _ (wd_threads w) _ i TAcquire); try done.
    + intros j u Hj Hne. left. by eapply goto_lookup.
    + intros u Hu. by rewrite (goto_self _ _ _ _ _ Ht Hu).
    + intros c [Hin|Hin]; [by left|]. rewrite Hin in CD. destruct CD as (Hx & _). congruence.
    + by right; right.
    + by left.
    + left. lia.
  - intros Hn. destruct (RL Hn) as (? & _). lia.
  - by rewrite PI.
Qed.

(** A compilation that gave no target: the state it leaves, with the failure
    recorded or not. *)
Lemma compiled_none_inv w i ch plan np err' failed' :
  inv w → wd_threads w !! i = Some (TCompile ch) →
  (failed' = true → err' ≠ None) →
  np = (match plan with Some _ => S (wd_nextPlan w) | None => wd_nextPlan w end) →
  (∀ p, plan = Some p → p = wd_nextPlan w) →
  let s := wd_session w in
  inv (mkWorld
         (mkSession (s_id s) (s_source s) (s_parameters s) (s_text s) (s_fsRoot s) (s_plan s) (s_debugPlan s)
            None err' (s_debugRuntimeDone s) false failed' (s_debugRuntimes s) (s_children s)
            (s_nextChan s) ({[ch]} ∪ s_closedChans s))
         (<[i:=match plan with Some p => TUnused p | None => TEnd end]> (wd_threads w)) np (wd_closed w)).
Proof.
  intros [W GT CH LE RD CO CD CP FA TH RL PL CLO] Ht Hf Hnp Hp s. subst s.
  set (t' := match plan with Some p => TUnused p | None => TEnd end). counts Ht t'.
  pose proof (count_pos holds_gate _ _ _ Ht eq_refl) as Hpos.
  pose proof (count_pos is_compile _ _ _ Ht eq_refl) as Hcpos.
  pose proof (TH _ _ Ht) as Hch. simpl in Hch. rewrite Hch in CD. destruct CD as (Hcm & Hlt & Hnin & Hrd).
  rewrite Hcm in CO.
  assert (holds_gate t' = true ∧ holds_lease t' = false ∧ is_close t' = false ∧ is_compile t' = false ∧
    is_running t' = false ∧ plans_of t' = option_list plan ∧ (∀ s cg cr cl, thread_ok s cg cr cl t'))
    as (T1 & T2 & T3 & T4 & T5 & T6 & T7) by (subst t'; by destruct plan).
  rewrite T1 in CG. rewrite T2 in CL. rewrite T3 in CC. rewrite T4 in CM. rewrite T5 in CR.
  rewrite T6 in PI.
  split; simpl; try done.
  - by replace (count holds_gate _) with (count holds_gate (wd_threads w)) by lia;
      replace (count is_close _) with (count is_close (wd_threads w)) by lia.
  - intros c [->%elem_of_singleton|Hc]%elem_of_union; [done|by apply CH].
  - lia.
  - destruct (s_debugRuntimeDone (wd_session w)) as [c|]; [|done]. destruct RD as (? & ? & ?).
    split_and!; try done. intros [->%elem_of_singleton|Hin]%elem_of_union; done.
  - lia.
  - eapply (threads_frame (wd_session w) _ (wd_threads w) _ i (TCompile ch)); try done.
    + intros j u Hj Hne. left. by eapply goto_lookup.
    + intros u Hu. rewrite (goto_self _ _ _ _ _ Ht Hu). apply T7.
    + intros c [Hin|Hin]; left; apply elem_of_union; [by right|left].
      apply elem_of_singleton. congruence.
    + right; left. done.
    + by left.
    + left. lia.
  - intros Hn. destruct (RL Hn) as (? & _). lia.
  - rewrite PI. destruct plan as [p|]; simpl in *; subst np; rewrite ?app_nil_r; [|done].
    rewrite (Hp p eq_refl), seq_S, <- PL. simpl. solve_Permutation.
Qed.

(** A compilation that gave the debug plan and its first lease. *)
Lemma compiled_plan_inv w i ch p s' :
  inv w → wd_threads w !! i = Some (TCompile ch) → p = wd_nextPlan w →
  let s := wd_session w in
  let s1 := mkSession (s_id s) (s_source s) (s_parameters s) (s_text s) (s_fsRoot s) (s_plan s) (Some p)
              (s_debugCompileDone s) (s_debugCompileErr s) (s_debugRuntimeDone s)
              (s_debugCompiling s) (s_debugCompileFailed s) (s_debugRuntimes s) (s_children s)
              (s_nextChan s) (s_closedChans s) in
  s' = (newDebugRuntimeTargetLocked p s1).2 →
  inv (mkWorld
         (mkSession (s_id s') (s_source s') (s_parameters s') (s_text s') (s_fsRoot s') (s_plan s') (s_debugPlan s')
            None (s_debugCompileErr s') (s_debugRuntimeDone s') false (s_debugCompileFailed s')
            (s_debugRuntimes s') (s_children s') (s_nextChan s') ({[ch]} ∪ s_closedChans s'))
         (<[i:=TTarget (Some p)]> (wd_threads w)) (S p) (wd_closed w)).
Proof.
  intros Hi Ht Hp s s1 ->. subst s s1.
  pose proof (compiled_none_inv w i ch None (wd_nextPlan w) (s_debugCompileErr (wd_session w))
    (s_debugCompileFailed (wd_session w)) Hi Ht (i_failed _ Hi) eq_refl ltac:(done)) as Hi1.
  pose proof Hi as [W GT CH LE RD CO CD CP FA TH RL PL CLO].
  pose proof (TH _ _ Ht) as Hch. simpl in Hch. rewrite Hch in CD. destruct CD as (Hcm & Hlt & Hnin & Hrd).
  specialize (CP Hcm).
  cbv zeta in Hi1. set (w1 := mkWorld _ _ _ _) in Hi1.
  assert (wd_threads w1 !! i = Some TEnd) as Ht1
    by (simpl; apply list_lookup_insert_eq; by apply lookup_lt_Some in Ht).
  (* publish the plan, then take its first lease *)
  set (w2 := mkWorld (mkSession (s_id (wd_session w)) (s_source (wd_session w)) (s_parameters (wd_session w)) (s_text (wd_session w))
       (s_fsRoot (wd_session w)) (s_plan (wd_session w)) (Some p) None (s_debugCompileErr (wd_session w))
       (s_debugRuntimeDone (wd_session w)) false (s_debugCompileFailed (wd_session w))
       (s_debugRuntimes (wd_session w)) (s_children (wd_session w)) (s_nextChan (wd_session w))
       ({[ch]} ∪ s_closedChans (wd_session w))) (wd_threads w1) (S p) (wd_closed w)).
  assert (inv w2) as Hi2.
  { pose proof (count_pos holds_gate _ _ _ Ht1 eq_refl) as Hpos.
    destruct Hi1 as [W1 GT1 CH1 LE1 RD1 CO1 CD1 CP1 FA1 TH1 RL1 PL1 CLO1]. split; simpl in *; try done.
    - eapply (threads_frame _ _ _ _ i TEnd Ht1 TH1); try done.
      + intros j u Hj _. by left.
      + intros u Hu. rewrite Ht1 in Hu. by inv Hu.
      + by left.
      + right. done.
      + left. done.
    - change (0%nat :: seq 1 p) with (seq 0 (S p)). rewrite Hp, seq_S, <- PL1. simpl. rewrite CP. simpl. solve_Permutation.
    - intros e He. rewrite He in GT1. simpl in GT1. simpl in Hpos. lia. }
  pose proof (lease_inv w2 i TEnd p _ Hi2 Ht1 eq_refl eq_refl eq_refl eq_refl eq_refl eq_refl eq_refl
    eq_refl) as Hi3.
  unfold goto in Hi3. simpl in Hi3. rewrite list_insert_insert_eq in Hi3.
  unfold newDebugRuntimeTargetLocked in *. simpl in *.
  destruct (bool_decide (s_debugRuntimes (wd_session w) = 0%Z)); exact Hi3.
Qed.

(** A plan nobody will use is closed once. *)
Lemma unused_inv w i p : inv w → wd_threads w !! i = Some (TUnused p) →
  inv (close_plan (Some p) (goto i TEnd (wd_session w) w)).
Proof.
  intros [W GT CH LE RD CO CD CP FA TH RL PL CLO] Ht. counts Ht TEnd.
  pose proof (count_pos holds_gate _ _ _ Ht eq_refl) as Hpos.
  split; simpl; try done.
  - by replace (count holds_gate _) with (count holds_gate (wd_threads w)) by lia;
      replace (count is_close _) with (count is_close (wd_threads w)) by lia.
  - lia.
  - by replace (count is_compile _) with (count is_compile (wd_threads w)) by lia.
  - eapply (threads_frame (wd_session w) _ (wd_threads w) _ i (TUnused p)); try done.
    + intros j u Hj Hne. left. by eapply goto_lookup.
    + intros u Hu. by rewrite (goto_self _ _ _ _ _ Ht Hu).
    + by left.
    + by left.
    + left. lia.
  - intros Hn. destruct (RL Hn) as (? & _). lia.
  - rewrite <- PL, <- PI. solve_Permutation.
Qed.

(** The close worker moves: no other thread reads the plans any more. *)
Lemma closer_inv w i pc pc' s' closed' :
  inv w → wd_threads w !! i = Some (TClose pc) →
  count holds_gate (wd_threads w) = 0%nat → count is_running (wd_threads w) = 0%nat →
  count holds_lease (wd_threads w) = 0%nat →
  pc_ok s' 0 0 0 pc' → s_plan s' = None → s_debugPlan s' = None →
  (s_children s', s_closedChans s', s_nextChan s', s_debugRuntimes s', s_debugRuntimeDone s',
   s_debugCompiling s', s_debugCompileDone s', s_debugCompileFailed s', s_debugCompileErr s') =
  (s_children (wd_session w), s_closedChans (wd_session w), s_nextChan (wd_session w),
   s_debugRuntimes (wd_session w), s_debugRuntimeDone (wd_session w),
   s_debugCompiling (wd_session w), s_debugCompileDone (wd_session w),
   s_debugCompileFailed (wd_session w), s_debugCompileErr (wd_session w)) →
  option_list (s_plan (wd_session w)) ++ option_list (s_debugPlan (wd_session w)) ++
    plans_of (TClose pc) ++ wd_closed w ≡ₚ plans_of (TClose pc') ++ closed' →
  inv (mkWorld s' (<[i:=TClose pc']> (wd_threads w)) (wd_nextPlan w) closed').
Proof.
  intros [W GT CH LE RD CO CD CP FA TH RL PL CLO] Ht Hg Hr Hl Hpc Hsp Hsd Heq Hpl.
  injection Heq as E1 E2 E3 E4 E5 E6 E7 E8 E9.
  pose proof (count_insert holds_gate _ _ _ (TClose pc') Ht) as CG.
  pose proof (count_insert holds_lease _ _ _ (TClose pc') Ht) as CL.
  pose proof (count_insert is_close _ _ _ (TClose pc') Ht) as CC.
  pose proof (count_insert is_compile _ _ _ (TClose pc') Ht) as CM.
  pose proof (count_insert is_running _ _ _ (TClose pc') Ht) as CR.
  pose proof (plans_insert _ _ _ (TClose pc') Ht) as PI.
  change (holds_gate (TClose pc')) with false in CG. change (holds_gate (TClose pc)) with false in CG.
  change (holds_lease (TClose pc')) with false in CL. change (holds_lease (TClose pc)) with false in CL.
  change (is_close (TClose pc')) with true in CC. change (is_close (TClose pc)) with true in CC.
  change (is_compile (TClose pc')) with false in CM. change (is_compile (TClose pc)) with false in CM.
  change (is_running (TClose pc')) with false in CR. change (is_running (TClose pc)) with false in CR.
  split; simpl; rewrite ?E1, ?E2, ?E3, ?E4, ?E5, ?E6, ?E7, ?E8, ?E9; try done.
  - by replace (count holds_gate _) with (count holds_gate (wd_threads w)) by lia;
      replace (count is_close _) with (count is_close (wd_threads w)) by lia.
  - lia.
  - by replace (count is_compile _) with (count is_compile (wd_threads w)) by lia.
  - intros j u Hj. replace (count holds_gate _) with 0%nat by lia.
    replace (count is_running _) with 0%nat by lia. replace (count holds_lease _) with 0%nat by lia.
    destruct (decide (j = i)) as [->|Hne]; [by rewrite (goto_self _ _ _ _ _ Ht Hj)|].
    apply goto_lookup in Hj; [|done]. specialize (TH j u Hj).
    destruct u; simpl in TH |- *; try done.
    + by rewrite E2, E7.
    + congruence.
    + pose proof (count_pos holds_lease _ _ _ Hj eq_refl). lia.
    + pose proof (count_pos is_running _ _ _ Hj eq_refl). lia.
    + pose proof (count_pos holds_lease _ _ _ Hj eq_refl). lia.
    + exfalso. pose proof (count_two is_close _ _ _ _ _ Ht Hj ltac:(congruence) eq_refl eq_refl).
      destruct (gs_abs _); simpl in GT; lia.
  - intros _. split_and!; [lia|lia|lia|]. rewrite gs_accepting_ok by done.
    pose proof (count_pos is_close _ _ _ Ht eq_refl).
    destruct (gs_abs _); simpl in GT |- *; [lia|done|done].
  - rewrite Hsp, Hsd. simpl. rewrite <- PL.
    apply (Permutation_app_inv_r (plans_of (TClose pc))). 
    transitivity ((plans (wd_threads w) ++ plans_of (TClose pc')) ++ closed').
    { rewrite <- PI. solve_Permutation. }
    rewrite <- app_assoc, <- Hpl. solve_Permutation.
Qed.

(** The end of the close worker. *)
Lemma finish_inv w i err : inv w → wd_threads w !! i = Some (TClose KFinish) →
  ∃ g, gs_FinishClose err (s_children (wd_session w)) = Ret g ∧
       inv (goto i TDone (set_children g (wd_session w)) w).
Proof.
  intros [W GT CH LE RD CO CD CP FA TH RL PL CLO] Ht. counts Ht TDone.
  pose proof (TH _ _ Ht) as (Hp & Hd & Hg & Hr & Hl). pose proof (gs_finish_close_ok err _ W) as Hf.
  pose proof (count_pos is_close _ _ _ Ht eq_refl) as Hpos.
  destruct (gs_abs (s_children (wd_session w))) as [n|n|e] eqn:Ea; simpl in GT; try lia.
  destruct GT as [-> Hc1]. rewrite Hg in Hf. simpl in Hf. destruct Hf as (g & Hfin & Wg & Ag).
  exists g. split; [done|]. split; simpl; try done.
  - rewrite Ag. simpl. lia.
  - lia.
  - by replace (count is_compile _) with (count is_compile (wd_threads w)) by lia.
  - eapply (threads_frame (wd_session w) _ (wd_threads w) _ i (TClose KFinish)); try done.
    + intros j u Hj Hne. left. by eapply goto_lookup.
    + intros u Hu. by rewrite (goto_self _ _ _ _ _ Ht Hu).
    + by left.
    + by left.
    + right. split_and!; try done; [lia|lia|lia|by left].
  - intros _. split_and!; [lia|lia|lia|]. by rewrite gs_accepting_ok, Ag.
  - by rewrite PI.
Qed.

(** The compiler's answer, whatever it is. *)
Lemma compiled_step w i ch got err : inv w → wd_threads w !! i = Some (TCompile ch) →
  ∃ w', step_thread i (TCompile ch) (Compiled got err) w = Ret w' ∧ inv w'.
Proof.
  intros Hi Ht. pose proof Hi as [W GT CH LE RD CO CD CP FA TH RL PL CLO].
  pose proof (TH _ _ Ht) as Hch. simpl in Hch. rewrite Hch in CD. destruct CD as (Hcm & Hlt & Hnin & Hrd).
  unfold step_thread, acquire_compiled.
  assert (∀ e' f', (f' = true → e' ≠ None) →
    inv (mkWorld
         (mkSession (s_id (wd_session w)) (s_source (wd_session w)) (s_parameters (wd_session w)) (s_text (wd_session w))
            (s_fsRoot (wd_session w)) (s_plan (wd_session w)) (s_debugPlan (wd_session w))
            None e' (s_debugRuntimeDone (wd_session w)) false f' (s_debugRuntimes (wd_session w))
            (s_children (wd_session w)) (s_nextChan (wd_session w))
            ({[ch]} ∪ s_closedChans (wd_session w)))
         (<[i:=match (if got then Some (wd_nextPlan w) else None) with
               Some p => TUnused p | None => TEnd end]> (wd_threads w))
         (if got then S (wd_nextPlan w) else wd_nextPlan w) (wd_closed w))) as Hnone.
  { intros e' f' Hf. destruct got.
    - apply (compiled_none_inv w i ch (Some (wd_nextPlan w)) (S (wd_nextPlan w)) e' f'); try done.
      by intros p [= ->].
    - by apply (compiled_none_inv w i ch None (wd_nextPlan w) e' f'). }
  destruct err as [e|].
  - destruct got, (context_error e); simpl; rewrite bool_decide_eq_false_2 by done; cbn;
      (eexists; split; [done|]); by apply Hnone.
  - destruct got; simpl.
    + destruct (gs_Accepting (s_children (wd_session w))) eqn:Ha; simpl.
      * set (s1 := mkSession _ _ _ _ _ _ (Some (wd_nextPlan w)) _ _ _ _ _ _ _ _ _).
        destruct (newDebugRuntimeTargetLocked (wd_nextPlan w) s1) as [tg s'] eqn:Hn.
        assert (t_plan tg = Some (wd_nextPlan w) ∧ s_closedChans s' = s_closedChans (wd_session w))
          as [Htg Hcl].
        { unfold newDebugRuntimeTargetLocked in Hn. destruct (bool_decide _) in Hn; by inv Hn. }
        rewrite Hcl, bool_decide_eq_false_2 by done. cbn. eexists. split; [done|].
        rewrite Htg. unfold goto. simpl. rewrite <- Hcl.
        pose proof (compiled_plan_inv w i ch (wd_nextPlan w) s' Hi Ht eq_refl) as Hpi. simpl in Hpi.
        apply Hpi. fold s1. by rewrite Hn.
      * rewrite bool_decide_eq_false_2 by done. cbn. eexists. split; [done|]. by apply Hnone.
    + simpl. rewrite bool_decide_eq_false_2 by done. cbn. eexists. split; [done|]. by apply Hnone.
Qed.

(** Entering the loop of [acquireDebugRuntimeTarget]. *)
Lemma acquire_step w i : inv w → wd_threads w !! i = Some TAcquire →
  step_thread i TAcquire Proceed w = Block ∨
  ∃ w', step_thread i TAcquire Proceed w = Ret w' ∧ inv w'.
Proof.
  intros Hi Ht. unfold step_thread, acquire_enter.
  assert (∀ t', t' = TEnd ∨ (∃ ch, t' = TWait ch ∧ s_debugCompileDone (wd_session w) = Some ch) →
    inv (goto i t' (wd_session w) w)) as Hmove.
  { intros t' Hor. eapply (move_inv w i TAcquire); try done;
      destruct Hor as [->|(ch & -> & Hch)]; try done; [by left..|]. intros cr cl _ _. by right. }
  destruct (gs_Accepting (s_children (wd_session w))) eqn:Ha; simpl;
    [|right; eexists; split; [done|]; apply Hmove; by left].
  destruct (s_debugPlan (wd_session w)) as [p|] eqn:Hd.
  - right. destruct (newDebugRuntimeTargetLocked p (wd_session w)) as [tg s'] eqn:Hn.
    assert (t_plan tg = Some p) as Htg
      by (unfold newDebugRuntimeTargetLocked in Hn; destruct (bool_decide _) in Hn; by inv Hn).
    cbn. eexists. split; [done|]. rewrite Htg.
    pose proof (lease_inv w i TAcquire p (wd_session w) Hi Ht eq_refl eq_refl eq_refl eq_refl eq_refl
      eq_refl Hd eq_refl) as Hl. by rewrite Hn in Hl.
  - destruct (s_debugCompileFailed (wd_session w)) eqn:Hf.
    + pose proof (i_failed _ Hi Hf) as Herr. destruct (s_debugCompileErr (wd_session w)); [|done].
      right. cbn. eexists. split; [done|]. apply Hmove. by left.
    + destruct (s_debugCompiling (wd_session w)) eqn:Hc.
      * destruct (s_debugCompileDone (wd_session w)) as [ch|] eqn:Hcd; [|by left].
        right. cbn. eexists. split; [done|]. apply Hmove. right. by exists ch.
      * right. cbn. eexists. split; [done|].
        pose proof (compile_inv w i Hi Ht Hd Hc) as Hci. cbv zeta in Hci. by rewrite Hd, Hf in Hci.
Qed.

(** The close worker's waits and the plans it closes. *)
Lemma close_step w i pc a : inv w → wd_threads w !! i = Some (TClose pc) →
  step_thread i (TClose pc) a w = Block ∨ ∃ w', step_thread i (TClose pc) a w = Ret w' ∧ inv w'.
Proof.
  intros Hi Ht. pose proof Hi as [W GT CH LE RD CO CD CP FA TH RL PL CLO]. pose proof (TH _ _ Ht) as Hpc.
  simpl in Hpc. pose proof (count_pos is_close _ _ _ Ht eq_refl) as Hcpos.
  assert (∀ pc', plans_of (TClose pc') = plans_of (TClose pc) →
    (∀ cr cl, (cr ≤ count is_running (wd_threads w))%nat → cl = count holds_lease (wd_threads w) →
       pc_ok (wd_session w) (count holds_gate (wd_threads w)) cr cl pc') →
    inv (goto i (TClose pc') (wd_session w) w)) as Hmove.
  { intros pc' Hpl Hok. eapply (move_inv w i (TClose pc)); try done. by left. }
  destruct pc as [| | |c r|p d|d|], a; try (by left); simpl in *.
  - destruct (gs_Idle (s_children (wd_session w))) eqn:Hidle; [right|by left].
    eexists. split; [done|]. apply Hmove; [done|]. intros cr cl _ _. simpl. split; [done|].
    rewrite gs_idle_ok in Hidle by done.
    destruct (gs_abs (s_children (wd_session w))); simpl in *; try lia.
    apply bool_decide_eq_true in Hidle. lia.
  - destruct (existsb is_running (wd_threads w)) eqn:Hr; [by left|right].
    apply existsb_count in Hr. eexists. split; [done|]. apply Hmove; [done|].
    intros cr cl Hle _. simpl. rewrite Hr in Hle. destruct Hpc as (? & ?). split_and!; try done. lia.
  - right. eexists. split; [done|]. apply Hmove; [done|]. intros cr cl Hle ->. simpl.
    destruct Hpc as (Hp & Hg & Hr). rewrite Hr in Hle. split_and!; try done; [lia| |].
    + destruct (s_debugCompileDone (wd_session w)) as [ch|]; [|done]. destruct CD as (Hc & _).
      rewrite Hc in CO. exfalso.
      assert (∀ ts, (count is_compile ts ≤ count holds_gate ts)%nat) as Hle'; [|specialize (Hle' (wd_threads w)); lia].
      induction ts as [|t ts IH]; simpl; [done|]. destruct t; simpl; lia.
    + destruct (s_debugRuntimeDone (wd_session w)) as [ch|]; [by left|lia].
  - destruct (chan_ready c (wd_session w) && chan_ready r (wd_session w)) eqn:Hready; [right|by left].
    apply andb_true_iff in Hready as [_ Hready]. destruct Hpc as (Hp & Hg & Hr & -> & Hrd).
    assert (count holds_lease (wd_threads w) = 0%nat) as Hl.
    { destruct r as [ch|]; [|done]. destruct Hrd as [Hrd|?]; [|done]. simpl in Hready.
      apply bool_decide_eq_true in Hready. rewrite Hrd in RD. by destruct RD as (_ & _ & ?). }
    eexists. split; [done|]. eapply (closer_inv w i (KRelease None r)); try done.
    simpl. by rewrite <- app_assoc.
  - right. destruct Hpc as (Hp & Hd & Hg & Hr & Hl). destruct p as [p|]; simpl.
    + eexists. split; [done|]. eapply (closer_inv w i (KPlans (Some p) d)); try done.
      rewrite Hp, Hd. simpl. solve_Permutation.
    + eexists. split; [done|]. eapply (closer_inv w i (KPlans None d)); try done.
      rewrite Hp, Hd. done.
  - right. destruct Hpc as (Hp & Hd & Hg & Hr & Hl). destruct d as [d|]; simpl.
    + eexists. split; [done|]. eapply (closer_inv w i (KDebug (Some d))); try done.
      rewrite Hp, Hd. simpl. solve_Permutation.
    + eexists. split; [done|]. eapply (closer_inv w i (KDebug None)); try done.
      rewrite Hp, Hd. done.
  - right. destruct (finish_inv w i err Hi Ht) as (g & Hg & Hi').
    unfold session_finishClose. rewrite Hg. cbn. eauto.
Qed.

Lemma step_inv w i t a : inv w → wd_threads w !! i = Some t →
  step_thread i t a w = Block ∨ ∃ w', step_thread i t a w = Ret w' ∧ inv w'.
Proof.
  intros Hi Ht. destruct t; try (by left).
  - destruct a; try (by left). right. eexists. split; [done|]. by apply exec_inv.
  - destruct a; try (by left). by apply acquire_step.
  - destruct a; try (by left); simpl.
    + destruct (bool_decide _); [right|by left]. eexists. split; [done|].
      eapply (move_inv w i (TWait done)); try done. by left.
    + right. eexists. split; [done|]. eapply (move_inv w i (TWait done)); try done. by left.
  - destruct a; try (by left). right. by apply compiled_step.
  - destruct a; try (by left). right. eexists. split; [done|]. by apply unused_inv.
  - destruct a as [| | |ok| |]; try (by left). right. destruct ok; simpl.
    + eexists. split; [done|]. by apply retain_inv.
    + destruct (release_inv w i _ TEnd Hi Ht) as (s & -> & Hi'); [left; by eexists|]. cbn. eauto.
  - destruct a; try (by left). right. simpl. unfold finishRuntimeCreate.
    pose proof (i_gate _ Hi) as GT. pose proof (count_pos holds_gate _ _ _ Ht eq_refl) as Hpos.
    pose proof (gs_end_create_ok _ (i_wf _ Hi)) as He.
    destruct (gs_abs (s_children (wd_session w))) as [[|n]|[|n]|]; simpl in GT, He; try lia;
      destruct He as (g & Hg & _ & _); rewrite Hg; cbn; eexists; (split; [done|]); by eapply end_inv.
  - destruct a; try (by left). right. eexists. split; [done|].
    eapply (move_inv w i (TRunning plan)); try done. by right.
  - destruct a; try (by left). right. simpl.
    destruct (release_inv w i _ TDone Hi Ht) as (s & -> & Hi'); [right; by eexists|]. cbn. eauto.
  - by apply close_step.
Qed.

Lemma act_preserves w a : inv w → act a w = Block ∨ ∃ w', act a w = Ret w' ∧ inv w'.
Proof.
  intros Hi. destruct a as [| | |i a]; unfold act.
  - unfold beginRuntimeCreate. destruct (gs_BeginCreate (s_children (wd_session w))) as [b g] eqn:Hb.
    destruct b; [right|by left]. eexists. split; [done|]. apply spawn_gate_inv; try done. by left.
  - unfold beginRuntimeCreate. destruct (gs_BeginCreate (s_children (wd_session w))) as [b g] eqn:Hb.
    destruct b; [right|by left]. eexists. split; [done|]. apply spawn_gate_inv; try done. by right.
  - unfold session_beginClose. destruct (gs_BeginClose (s_children (wd_session w))) as [b g] eqn:Hb.
    destruct b; [right|by left]. eexists. split; [done|]. by apply spawn_close_inv.
  - destruct (wd_threads w !! i) as [t|] eqn:Ht; [|by left]. by apply step_inv.
Qed.

Lemma schedule_preserves w actions : inv w → ∃ w', schedule actions w = Ret w' ∧ inv w'.
Proof.
  revert w. induction actions as [|a actions IH]; intros w Hi; simpl; [by exists w|].
  unfold attempt. destruct (act_preserves w a Hi) as [->|(w' & -> & Hi')]; cbn; by apply IH.
Qed.

Lemma initial_ok id source parameters text fsRoot : inv (initial id source parameters text fsRoot).
Proof. destruct gs_new_ok as [W A]. split; simpl; try done; by rewrite A. Qed.

Lemma closed_nodup w : inv w → NoDup (wd_closed w).
Proof.
  intros Hi. pose proof (i_plans _ Hi) as PL. assert (NoDup (seq 0 (wd_nextPlan w))) as Hn by apply NoDup_seq.
  rewrite <- PL in Hn. apply NoDup_app in Hn as (_ & _ & Hn). apply NoDup_app in Hn as (_ & _ & Hn).
  by apply NoDup_app in Hn as (_ & _ & Hn).
Qed.

Lemma retained_not_closed w p : inv w →
  s_plan (wd_session w) = Some p ∨ s_debugPlan (wd_session w) = Some p → p ∉ wd_closed w.
Proof.
  intros Hi Hp Hin. pose proof (i_plans _ Hi) as PL.
  assert (NoDup (seq 0 (wd_nextPlan w))) as Hn by apply NoDup_seq. rewrite <- PL in Hn.
  rewrite !NoDup_app in Hn. destruct Hn as (_ & H1 & _ & H2 & _).
  destruct Hp as [Hp|Hp]; rewrite Hp in *; simpl in *.
  - apply (H1 p); [by apply list_elem_of_singleton|]. rewrite !elem_of_app. tauto.
  - apply (H2 p); [by apply list_elem_of_singleton|]. rewrite !elem_of_app. tauto.
Qed.

Lemma plans_idle ts : count holds_gate ts = 0%nat → count is_close ts = 0%nat → plans ts = [].
Proof.
  induction ts as [|t ts IH]; simpl; [done|]. intros Hg Hc. unfold plans in *. simpl.
  rewrite IH by lia. destruct t; simpl in *; done || lia.
Qed.
End session.

Arguments world : clear implicits.
Arguments session : clear implicits.

(** ** Properties *)

(** C8. Plans of a session are used and closed safely under every interleaving
    of execution and debug-runtime creations (with failing, cancelled or empty
    compilations), lease releases, execution ends and the close worker: nothing
    panics; a plan is never closed twice; and a plan that an unsettled
    execution, a debug-session creation or a retained debug runtime still uses
    is never closed.  This holds for every gate that meets the gate contract. *)
Theorem session_plans_safe {G : Type} `{GateSpec G} (id : string) (source : SourceSnapshot)
    (parameters : list string) (text : list Z) (fsRoot : string) (actions : list action) :
  ∃ w : world G, schedule actions (initial id source parameters text fsRoot) = Ret w ∧
    NoDup (wd_closed w) ∧
    ∀ i t p, wd_threads w !! i = Some t → t = TRunning p ∨ t = TTarget p ∨ t = TLease p →
      ∃ q, p = Some q ∧ (q < wd_nextPlan w)%nat ∧ q ∉ wd_closed w.
Proof.
  destruct (schedule_preserves _ actions (initial_ok id source parameters text fsRoot)) as (w & Hw & Hi).
  exists w. split; [done|]. split; [by apply closed_nodup|].
  intros i t p Ht Hor. pose proof (i_threads _ Hi _ _ Ht) as Hok.
  assert (∃ q, p = Some q ∧ (s_plan (wd_session w) = Some q ∨ s_debugPlan (wd_session w) = Some q))
    as (q & -> & Hq).
  { destruct Hor as [->|[->| ->]]; destruct Hok as [Hp Hne]; (destruct p as [q|]; [|done]);
      exists q; split; auto. }
  exists q. split; [done|]. split; [|by eapply retained_not_closed].
  pose proof (i_plans _ Hi) as PL.
  assert (q ∈ seq 0 (wd_nextPlan w)) as Hin%elem_of_seq; [|lia].
  rewrite <- PL, !elem_of_app. destruct Hq as [->| ->]; simpl; rewrite list_elem_of_singleton; tauto.
Qed.

(** Closing a session leaks no plan: when its close operation has finished,
    every plan the compilers ever returned for it, the debug plans of failed or
    late compilations included, has been closed exactly once, and no creator,
    execution or lease is left. *)
Theorem session_close_releases_all {G : Type} `{GateSpec G} (id : string) (source : SourceSnapshot)
    (parameters : list string) (text : list Z) (fsRoot : string) (actions : list action) (w : world G) (err : option error) :
  schedule actions (initial id source parameters text fsRoot) = Ret w →
  gs_abs (s_children (wd_session w)) = AClosed err →
  wd_closed w ≡ₚ seq 0 (wd_nextPlan w) ∧ s_debugRuntimes (wd_session w) = 0%Z ∧
  ∀ i t, wd_threads w !! i = Some t → t = TDone.
Proof.
  intros Hw Hc. destruct (schedule_preserves _ actions (initial_ok id source parameters text fsRoot)) as (w' & Hw' & Hi).
  assert (w' = w) as -> by congruence.
  destruct (i_closed _ Hi err Hc) as [Hp Hd]. destruct (i_released _ Hi Hp) as (Hg & Hr & Hl & _).
  pose proof (i_gate _ Hi) as GT. rewrite Hc in GT. destruct GT as [_ Hcl].
  split_and!.
  - rewrite <- (i_plans _ Hi), Hp, Hd, plans_idle by done. done.
  - rewrite (i_leases _ Hi), Hl. done.
  - intros i t Ht. destruct t; try done; exfalso.
    all: first [pose proof (count_pos holds_gate _ _ _ Ht eq_refl); lia
               |pose proof (count_pos is_running _ _ _ Ht eq_refl); lia
               |pose proof (count_pos holds_lease _ _ _ Ht eq_refl); lia
               |pose proof (count_pos is_close _ _ _ Ht eq_refl); lia].
Qed.

(** A schedule of one session on the concrete gate: an execution, a debug
    runtime whose plan is compiled, a second one racing with the close. *)
Definition sample_session_actions : list action :=
  [ACreateExecution; ACreateDebugRuntime; AStep 0 Proceed; AStep 1 Proceed; ABeginClose;
   ACreateExecution; AStep 1 (Compiled true None); AStep 1 Proceed; AStep 1 Proceed; AStep 0 Proceed;
   AStep 3 Proceed; AStep 2 ChildSettled; AStep 3 Proceed; AStep 3 Proceed; AStep 3 Proceed;
   AStep 3 Proceed; AStep 3 Proceed; AStep 3 (CloseResult None)].

Lemma session_close_releases_all_witness :
  ∃ w : world Gate,
    schedule sample_session_actions (initial "s" (mkSourceSnapshot "w" "q" "u" 1) [] [] "/") = Ret w ∧
    wd_closed w ≡ₚ [0%nat; 1%nat].
Proof.
  eexists. split; [vm_compute; reflexivity|].
  refine (proj1 (session_close_releases_all "s" (mkSourceSnapshot "w" "q" "u" 1) [] [] "/"
    sample_session_actions _ None _ _)); vm_compute; reflexivity.
Defined.

(** Debug compilation is single-flight and its outcome is remembered: at any
    time at most one caller compiles and the session records it, a session that
    has a debug plan is not compiling, and a waiting caller waits for a
    compilation that has ended or is the one in progress, so it is woken. *)
Theorem debug_compilation_single_flight {G : Type} `{GateSpec G} (id : string)
    (source : SourceSnapshot) (parameters : list string) (text : list Z) (fsRoot : string) (actions : list action) :
  ∃ w : world G, schedule actions (initial id source parameters text fsRoot) = Ret w ∧
    (count is_compile (wd_threads w) ≤ 1)%nat ∧
    (s_debugCompiling (wd_session w) = true ↔ count is_compile (wd_threads w) = 1%nat) ∧
    (is_Some (s_debugPlan (wd_session w)) → s_debugCompiling (wd_session w) = false) ∧
    (∀ i ch, wd_threads w !! i = Some (TWait ch) →
       ch ∈ s_closedChans (wd_session w) ∨ s_debugCompileDone (wd_session w) = Some ch ∧
       ∃ j, wd_threads w !! j = Some (TCompile ch)).
Proof.
  destruct (schedule_preserves _ actions (initial_ok id source parameters text fsRoot)) as (w & Hw & Hi).
  exists w. split; [done|]. pose proof (i_compile _ Hi) as Hc.
  split_and!.
  - destruct (s_debugCompiling (wd_session w)); lia.
  - destruct (s_debugCompiling (wd_session w)); split; done || lia.
  - intros [p Hp]. destruct (s_debugCompiling (wd_session w)) eqn:E; [|done].
    rewrite (i_compiling _ Hi E) in Hp. done.
  - intros i ch Hwt. destruct (i_threads _ Hi _ _ Hwt) as [Hin|Hd]; [by left|right].
    split; [done|]. pose proof (i_compileDone _ Hi) as Hcd. rewrite Hd in Hcd. destruct Hcd as (E & _).
    rewrite E in Hc. destruct (count_witness is_compile (wd_threads w)) as (j & t & Hj & Ht); [lia|].
    exists j. pose proof (i_threads _ Hi _ _ Hj) as Hok. destruct t; try done. simpl in Hok. congruence.
Qed.
