(* ===== verification/ExecRegistry.v ===== *)
(** * Session registry and workspace groups

    [internal/exec/session_registry.go], [workspace_group.go] and the teardown
    of [manager.go] ([CreateSession], [closeSession], [CloseWorkspace], [Close],
    [finishSessionClose], [finishWorkspaceClose]): which sessions can be found,
    who may still create children, and who closes what.  Every method body runs
    under [sessionRegistry.mu] and is one function; entries and groups are heap
    objects, since workers keep pointers to groups that left the registry.  The
    goroutines are a list of workers. *)

From S2P Require Import Prelude Source Errors Lifecycle.

Inductive registryState := registryStateActive | registryStateClosing.

Global Instance registryState_eq_dec : EqDecision registryState.
Proof. solve_decision. Defined.

Section registry.
Context {G : Type} `{GateSpec G}.

(** A [sessionEntry] with the fields of its session that the registry reads;
    [en_group] records the group the session was committed to. *)
Record entry := mkEntry {
  en_id : string;
  en_workspace : string;
  en_state : registryState;
  en_children : G;
  en_group : nat
}.

Record group := mkGroup { g_gate : G; g_sessions : gmap string nat }.

Record registry := mkRegistry {
  r_entries : gmap string nat;
  r_groups : gmap string nat;
  r_closed : bool;
  r_entryHeap : gmap nat entry;
  r_groupHeap : gmap nat group;
  r_next : nat
}.

Definition newSessionRegistry : registry := mkRegistry ∅ ∅ false ∅ ∅ 0.

Definition newWorkspaceGroup : group := mkGroup gs_new ∅.

(** ** Workspace groups ([workspace_group.go]); the bodies hold [workspaceGroup.mu]. *)

Definition group_accepting (grp : group) : bool := gs_Accepting (g_gate grp).

Definition group_beginCreate (grp : group) : bool * group :=
  let '(ok, gate) := gs_BeginCreate (g_gate grp) in (ok, mkGroup gate (g_sessions grp)).

(** Whether the group can be discarded once the creation ended. *)
Definition group_finishCreate (grp : group) : outcome (bool * group) :=
  '(idle, gate) ← gs_EndCreate (g_gate grp);
  Ret ((idle : bool) && gs_Accepting gate && bool_decide (g_sessions grp = ∅), mkGroup gate (g_sessions grp)).

Definition group_add (id : string) (e : nat) (grp : group) : bool * group :=
  if negb (group_accepting grp) then (false, grp)
  else (true, mkGroup (g_gate grp) (<[id:=e]> (g_sessions grp))).

(** Whether the group can be discarded once the session is removed. *)
Definition group_removeCompleted (id : string) (e : nat) (grp : group) : bool * group :=
  let sessions :=
    if group_accepting grp && bool_decide (g_sessions grp !! id = Some e)
    then delete id (g_sessions grp) else g_sessions grp in
  (group_accepting grp && gs_Idle (g_gate grp) && bool_decide (sessions = ∅), mkGroup (g_gate grp) sessions).

Definition group_beginClose (grp : group) : bool * group :=
  let '(owner, gate) := gs_BeginClose (g_gate grp) in (owner, mkGroup gate (g_sessions grp)).

(** Go iterates the map in any order: callers accept any permutation. *)
Definition retainedSessions (grp : group) : list nat := map snd (map_to_list (g_sessions grp)).

Definition group_finishClose (err : option error) (grp : group) : outcome group :=
  gate ← gs_FinishClose err (g_gate grp); Ret (mkGroup gate (g_sessions grp)).

(** ** The registry *)

Definition set_group (g : nat) (grp : group) (r : registry) : registry :=
  mkRegistry (r_entries r) (r_groups r) (r_closed r) (r_entryHeap r) (<[g:=grp]> (r_groupHeap r))
    (r_next r).

Definition set_entry (e : nat) (en : entry) (r : registry) : registry :=
  mkRegistry (r_entries r) (r_groups r) (r_closed r) (<[e:=en]> (r_entryHeap r)) (r_groupHeap r)
    (r_next r).

Definition set_groups (groups : gmap string nat) (r : registry) : registry :=
  mkRegistry (r_entries r) groups (r_closed r) (r_entryHeap r) (r_groupHeap r) (r_next r).

Definition set_entries (entries : gmap string nat) (r : registry) : registry :=
  mkRegistry entries (r_groups r) (r_closed r) (r_entryHeap r) (r_groupHeap r) (r_next r).

(** Dereferencing a pointer. *)
Definition load_group (g : nat) (r : registry) : outcome group :=
  match r_groupHeap r !! g with Some grp => Ret grp | None => Panic "nil pointer dereference" end.

Definition load_entry (e : nat) (r : registry) : outcome entry :=
  match r_entryHeap r !! e with Some en => Ret en | None => Panic "nil pointer dereference" end.

(** The group of a workspace, created when the registry has none. *)
Definition lookup_group (ws : string) (r : registry) : nat * registry :=
  match r_groups r !! ws with
  | Some g => (g, r)
  | None =>
      let g := r_next r in
      (g, mkRegistry (r_entries r) (<[ws:=g]> (r_groups r)) (r_closed r) (r_entryHeap r)
            (<[g:=newWorkspaceGroup]> (r_groupHeap r)) (S g))
  end.

Definition beginCreate (ws : string) (r : registry) : outcome ((nat + error) * registry) :=
  if r_closed r then Ret (inr (ESentinel ExecErrClosed), r)
  else
    let '(g, r) := lookup_group ws r in
    grp ← load_group g r;
    let '(ok, grp) := group_beginCreate grp in
    let r := set_group g grp r in
    if (ok : bool) then Ret (inl g, r) else Ret (inr (ESentinel WsErrClosed), r).

Definition finishCreate (ws : string) (g : nat) (r : registry) : outcome registry :=
  grp ← load_group g r;
  '(discard, grp) ← group_finishCreate grp;
  let r := set_group g grp r in
  if (discard : bool) && bool_decide (r_groups r !! ws = Some g)
  then Ret (set_groups (delete ws (r_groups r)) r)
  else Ret r.

(** [commitCreate] of a new session [id]; [Some err] when it was rejected. *)
Definition commitCreate (ctxErr : option error) (ws : string) (g : nat) (id : string) (r : registry) :
    outcome (option error * registry) :=
  grp ← load_group g r;
  if r_closed r || bool_decide (r_groups r !! ws ≠ Some g) || negb (group_accepting grp) then
    Ret (Some (ESentinel WsErrClosed), r)
  else
    match ctxErr with
    | Some err => Ret (Some err, r)
    | None =>
        let e := r_next r in
        let '(added, grp) := group_add id e grp in
        if negb added then Ret (Some (ESentinel WsErrClosed), r)
        else
          let r := mkRegistry (r_entries r) (r_groups r) (r_closed r)
                     (<[e:=mkEntry id ws registryStateActive gs_new g]> (r_entryHeap r))
                     (r_groupHeap r) (S e) in
          let r := set_group g grp r in
          Ret (None, set_entries (<[id:=e]> (r_entries r)) r)
    end.

Definition active (id : string) (r : registry) : option nat :=
  match r_entries r !! id with
  | None => None
  | Some e =>
      match r_entryHeap r !! e with
      | Some en => if bool_decide (en_state en = registryStateActive) then Some e else None
      | None => None
      end
  end.

Definition set_children (gate : G) (en : entry) : entry :=
  mkEntry (en_id en) (en_workspace en) (en_state en) gate (en_group en).

Definition beginRuntimeCreate (id : string) (r : registry) : outcome ((nat + error) * registry) :=
  if r_closed r then Ret (inr (ESentinel ExecErrClosed), r)
  else
    match r_entries r !! id with
    | None => Ret (inr (ESentinel ExecErrSessionNotFound), r)
    | Some e =>
        en ← load_entry e r;
        if bool_decide (en_state en ≠ registryStateActive) then
          Ret (inr (ESentinel ExecErrSessionNotFound), r)
        else
          let '(ok, gate) := gs_BeginCreate (en_children en) in
          if (ok : bool) then Ret (inl e, set_entry e (set_children gate en) r)
          else Panic "execution: active Session rejected runtime creation"
    end.

(** [runtimeCreation.finish]. *)
Definition finishRuntimeCreate (e : nat) (r : registry) : outcome registry :=
  en ← load_entry e r;
  '(_, gate) ← gs_EndCreate (en_children en);
  Ret (set_entry e (set_children gate en) r).

Definition beginClose (id : string) (retained : option nat) (r : registry) :
    outcome (option (nat * bool) * registry) :=
  let found := match r_entries r !! id with Some e => Some e | None => retained end in
  match found with
  | None => Ret (None, r)
  | Some e =>
      en ← load_entry e r;
      if bool_decide (en_state en = registryStateClosing) then Ret (Some (e, false), r)
      else
        let '(ok, gate) := gs_BeginClose (en_children en) in
        if negb ok then Panic "execution: active Session close has already started"
        else Ret (Some (e, true),
                  set_entry e (mkEntry (en_id en) (en_workspace en) registryStateClosing gate
                                 (en_group en)) r)
  end.

(** [sessionRegistry.finishClose]. *)
Definition finishClose (e : nat) (r : registry) : outcome registry :=
  en ← load_entry e r;
  let r := if bool_decide (r_entries r !! en_id en = Some e)
           then set_entries (delete (en_id en) (r_entries r)) r else r in
  match r_groups r !! en_workspace en with
  | None => Ret r
  | Some g =>
      grp ← load_group g r;
      let '(discard, grp) := group_removeCompleted (en_id en) e grp in
      let r := set_group g grp r in
      if discard && bool_decide (r_groups r !! en_workspace en = Some g)
      then Ret (set_groups (delete (en_workspace en) (r_groups r)) r)
      else Ret r
  end.

(** [group.beginClose], for a group the registry holds. *)
Definition close_group (g : nat) (r : registry) : outcome (bool * registry) :=
  grp ← load_group g r;
  let '(owner, grp) := group_beginClose grp in
  Ret (owner, set_group g grp r).

Definition beginWorkspaceClose (ws : string) (r : registry) : outcome (nat * bool * registry) :=
  let '(g, r) := lookup_group ws r in
  '(owner, r) ← close_group g r;
  Ret (g, owner, r).

(** The loop of [beginShutdown] over the groups, in the order Go iterates them:
    each group with the flag that says whether this call has to close it. *)
Fixpoint shutdown_loop (order : list (string * nat)) (r : registry) :
    outcome (list (string * nat * bool) * registry) :=
  match order with
  | [] => Ret ([], r)
  | (ws, g) :: order =>
      '(owner, r) ← close_group g r;
      '(rest, r) ← shutdown_loop order r;
      Ret ((ws, g, owner) :: rest, r)
  end.

Definition beginShutdown (order : list (string * nat)) (r : registry) :
    outcome (list (string * nat * bool) * registry) :=
  shutdown_loop order
    (mkRegistry (r_entries r) (r_groups r) true (r_entryHeap r) (r_groupHeap r) (r_next r)).

Definition finishWorkspaceClose (ws : string) (g : nat) (err : option error) (r : registry) :
    outcome registry :=
  let r := if bool_decide (r_groups r !! ws = Some g) then set_groups (delete ws (r_groups r)) r else r in
  grp ← load_group g r;
  grp ← group_finishClose err grp;
  Ret (set_group g grp r).

(** ** Workers *)

Inductive worker :=
| WCreate (ws : string) (g : nat)        (* CreateSession, admitted *)
| WCreated (ws : string) (g : nat)       (* its deferred finishCreate *)
| WRuntime (e : nat)                     (* a runtime creation, admitted *)
| WSession (e : nat)                     (* finishSessionClose, waiting for creators *)
| WSessionEnd (e : nat)                  (* its registry finishClose *)
| WWorkspace (ws : string) (g : nat)     (* finishWorkspaceClose, waiting for creators *)
| WClosing (ws : string) (g : nat) (todo : list nat)        (* closing the retained sessions *)
| WJoin (ws : string) (g : nat) (e : nat) (todo : list nat) (* waiting for one of them *)
| WDone.

Record world := mkWorld { wd_registry : registry; wd_workers : list worker }.

Definition creates_on (g : nat) (t : worker) : bool :=
  match t with WCreate _ g' | WCreated _ g' => bool_decide (g' = g) | _ => false end.

Definition closes_group (g : nat) (t : worker) : bool :=
  match t with
  | WWorkspace _ g' | WClosing _ g' _ | WJoin _ g' _ _ => bool_decide (g' = g)
  | _ => false
  end.

Definition runtimes_on (e : nat) (t : worker) : bool :=
  match t with WRuntime e' => bool_decide (e' = e) | _ => false end.

Definition closes_session (e : nat) (t : worker) : bool :=
  match t with WSession e' => bool_decide (e' = e) | _ => false end.

(** What the environment decides: the new session's identifier and the caller's
    context, or the result of a teardown. *)
Inductive answer :=
| Commit (ctxErr : option error) (id : string)
| GiveUp
| Proceed
| Retained (order : list nat)
| Result (err : option error).

Inductive action :=
| ACreateSession (ws : string)
| ACreateRuntime (id : string)
| ACloseSession (id : string)
| ACloseWorkspace (ws : string)
| AShutdown (order : list (string * nat))
| AStep (i : nat) (a : answer).

(** A fresh identifier: [uuid.NewRandom] does not repeat one in use. *)
Definition id_unused (id : string) (r : registry) : bool :=
  forallb (λ en : nat * entry, negb (bool_decide (en_id en.2 = id))) (map_to_list (r_entryHeap r)).

Definition spawn (ts : list worker) (r : registry) (w : world) : world :=
  mkWorld r (wd_workers w ++ ts).

Definition goto (i : nat) (t : worker) (r : registry) (w : world) : world :=
  mkWorld r (<[i:=t]> (wd_workers w)).

(** [Manager.Close] starts a worker for each group it owns the close of. *)
Definition shutdown_workers (closes : list (string * nat * bool)) : list worker :=
  omap (λ c : string * nat * bool, if c.2 then Some (WWorkspace c.1.1 c.1.2) else None) closes.

(** The session's close result is available. *)
Definition session_closed (e : nat) (r : registry) : bool :=
  match r_entryHeap r !! e with
  | Some en => match gs_abs (en_children en) with AClosed _ => true | _ => false end
  | None => false
  end.

Definition step_worker (i : nat) (t : worker) (a : answer) (w : world) : outcome world :=
  let r := wd_registry w in
  match t, a with
  | WCreate ws g, Commit ctxErr id =>
      if id_unused id r then
        '(_, r) ← commitCreate ctxErr ws g id r;
        Ret (goto i (WCreated ws g) r w)
      else Block
  | WCreate ws g, GiveUp => Ret (goto i (WCreated ws g) r w)
  | WCreated ws g, Proceed => r ← finishCreate ws g r; Ret (goto i WDone r w)
  | WRuntime e, Proceed => r ← finishRuntimeCreate e r; Ret (goto i WDone r w)
  | WSession e, Result err =>
      (* waitForRuntimeCreates, the children and the plans, then finishClose *)
      en ← load_entry e r;
      if gs_Idle (en_children en) then
        gate ← gs_FinishClose err (en_children en);
        Ret (goto i (WSessionEnd e) (set_entry e (set_children gate en) r) w)
      else Block
  | WSessionEnd e, Proceed => r ← finishClose e r; Ret (goto i WDone r w)
  | WWorkspace ws g, Retained order =>
      grp ← load_group g r;
      if gs_Idle (g_gate grp) && bool_decide (order ≡ₚ retainedSessions grp)
      then Ret (goto i (WClosing ws g order) r w)
      else Block
  | WClosing ws g (e :: todo), Proceed =>
      en ← load_entry e r;
      '(found, r) ← beginClose (en_id en) (Some e) r;
      match found with
      | None => Ret (goto i (WClosing ws g todo) r w)
      | Some (e', owner) =>
          let w' := goto i (WJoin ws g e' todo) r w in
          Ret (if (owner : bool) then spawn [WSession e'] r w' else w')
      end
  | WJoin ws g e todo, Proceed =>
      if session_closed e r then Ret (goto i (WClosing ws g todo) r w) else Block
  | WClosing ws g [], Result err => r ← finishWorkspaceClose ws g err r; Ret (goto i WDone r w)
  | _, _ => Block
  end.

Definition act (a : action) (w : world) : outcome world :=
  let r := wd_registry w in
  match a with
  | ACreateSession ws =>
      '(res, r) ← beginCreate ws r;
      Ret (match res with inl g => spawn [WCreate ws g] r w | inr _ => spawn [] r w end)
  | ACreateRuntime id =>
      '(res, r) ← beginRuntimeCreate id r;
      Ret (match res with inl e => spawn [WRuntime e] r w | inr _ => spawn [] r w end)
  | ACloseSession id =>
      '(found, r) ← beginClose id None r;
      Ret (match found with Some (e, true) => spawn [WSession e] r w | _ => spawn [] r w end)
  | ACloseWorkspace ws =>
      '(g, owner, r) ← beginWorkspaceClose ws r;
      Ret (if (owner : bool) then spawn [WWorkspace ws g] r w else spawn [] r w)
  | AShutdown order =>
      if bool_decide (order ≡ₚ map_to_list (r_groups r)) then
        '(closes, r) ← beginShutdown order r;
        Ret (spawn (shutdown_workers closes) r w)
      else Block
  | AStep i a =>
      match wd_workers w !! i with
      | Some t => step_worker i t a w
      | None => Block
      end
  end.

Definition attempt (a : action) (w : world) : outcome world :=
  match act a w with
  | Ret w => Ret w
  | Panic m => Panic m
  | Block => Ret w
  end.

Fixpoint schedule (actions : list action) (w : world) : outcome world :=
  match actions with
  | [] => Ret w
  | a :: actions => w ← attempt a w; schedule actions w
  end.

Definition initial : world := mkWorld newSessionRegistry [].

(** ** Invariant *)

Definition closedp (en : entry) : Prop := ∃ err, gs_abs (en_children en) = AClosed err.

Definition gate_inv (a : agate) (holders closers : nat) : Prop :=
  match a with
  | AOpen n => n = holders ∧ closers = 0%nat
  | AClosing n => n = holders ∧ closers = 1%nat
  | AClosed _ => holders = 0%nat ∧ closers = 0%nat
  end.

(** An entry in state [st] whose session's gate is [a], with [n] admitted
    runtime creations and [c] close workers. *)
Definition entry_inv (st : registryState) (a : agate) (n c : nat) : Prop :=
  match st with
  | registryStateActive => a = AOpen n ∧ c = 0%nat
  | registryStateClosing => (a = AClosing n ∧ c = 1%nat) ∨ (∃ err, a = AClosed err ∧ n = 0%nat ∧ c = 0%nat)
  end.

(** The workspace worker of group [g] still has to join [todo]: nobody creates
    in the group, and its other sessions are closed. *)
Definition draining (r : registry) (ts : list worker) (g : nat) (todo : list nat) : Prop :=
  is_Some (r_groupHeap r !! g) ∧ count (creates_on g) ts = 0%nat ∧
  Forall (λ e, is_Some (r_entryHeap r !! e)) todo ∧
  ∀ e en, r_entryHeap r !! e = Some en → en_group en = g → ¬ closedp en → e ∈ todo.

Definition worker_ok (r : registry) (ts : list worker) (t : worker) : Prop :=
  match t with
  | WCreate _ g | WCreated _ g | WWorkspace _ g => is_Some (r_groupHeap r !! g)
  | WRuntime e | WSession e => is_Some (r_entryHeap r !! e)
  | WSessionEnd e => ∃ en, r_entryHeap r !! e = Some en ∧ closedp en
  | WClosing _ g todo => draining r ts g todo
  | WJoin _ g e todo => draining r ts g (e :: todo)
  | WDone => True
  end.

Definition workers_ok (r : registry) (ts : list worker) : Prop :=
  ∀ i t, ts !! i = Some t → worker_ok r ts t.

(** The invariant of the heap and the maps, for any list of workers. *)
Record base (r : registry) (ts : list worker) : Prop := {
  b_group : ∀ g grp, r_groupHeap r !! g = Some grp →
    (g < r_next r)%nat ∧ gs_wf (g_gate grp) ∧
    gate_inv (gs_abs (g_gate grp)) (count (creates_on g) ts) (count (closes_group g) ts);
  b_entry : ∀ e en, r_entryHeap r !! e = Some en →
    (e < r_next r)%nat ∧ gs_wf (en_children en) ∧ is_Some (r_groupHeap r !! en_group en) ∧
    entry_inv (en_state en) (gs_abs (en_children en)) (count (runtimes_on e) ts)
      (count (closes_session e) ts);
  b_groups : ∀ ws g, r_groups r !! ws = Some g → is_Some (r_groupHeap r !! g);
  b_entries : ∀ id e, r_entries r !! id = Some e →
    ∃ en, r_entryHeap r !! e = Some en ∧ en_id en = id;
  b_sessions : ∀ g grp id e, r_groupHeap r !! g = Some grp → g_sessions grp !! id = Some e →
    ∃ en, r_entryHeap r !! e = Some en ∧ en_id en = id ∧ en_group en = g;
  b_ids : ∀ e1 e2 en1 en2, r_entryHeap r !! e1 = Some en1 → r_entryHeap r !! e2 = Some en2 →
    en_id en1 = en_id en2 → e1 = e2;
  b_home : ∀ e en, r_entryHeap r !! e = Some en → ¬ closedp en →
    r_groups r !! en_workspace en = Some (en_group en) ∧ r_entries r !! en_id en = Some e ∧
    ∃ grp, r_groupHeap r !! en_group en = Some grp ∧ g_sessions grp !! en_id en = Some e;
  b_closed : ∀ g grp err, r_groupHeap r !! g = Some grp → gs_abs (g_gate grp) = AClosed err →
    ∀ e en, r_entryHeap r !! e = Some en → en_group en = g → closedp en;
  b_workers : workers_ok r ts
}.

(** After shutdown no group of the registry accepts creations. *)
Definition shut (r : registry) : Prop :=
  r_closed r = true → ∀ ws g grp, r_groups r !! ws = Some g → r_groupHeap r !! g = Some grp →
    gs_Accepting (g_gate grp) = false.

(** ** Frames *)

Lemma closedp_dec en : closedp en ∨ ¬ closedp en.
Proof. unfold closedp. destruct (gs_abs (en_children en)); [right|right|left]; naive_solver. Qed.

(** A worker is not disturbed when the heaps grow, sessions only go towards
    closed, new entries appear only in groups nobody is draining, and nobody
    starts creating in a group that is being drained. *)
Lemma worker_frame r r' ts ts' t :
  worker_ok r ts t →
  (∀ g, is_Some (r_groupHeap r !! g) → is_Some (r_groupHeap r' !! g)) →
  (∀ e en, r_entryHeap r !! e = Some en →
     ∃ en', r_entryHeap r' !! e = Some en' ∧ (closedp en → closedp en')) →
  (∀ e en', r_entryHeap r' !! e = Some en' →
     (∃ en, r_entryHeap r !! e = Some en ∧ en_group en = en_group en' ∧ (closedp en → closedp en')) ∨
     closes_group (en_group en') t = false) →
  (∀ g, closes_group g t = true → count (creates_on g) ts = 0%nat → count (creates_on g) ts' = 0%nat) →
  worker_ok r' ts' t.
Proof.
  intros Hok Hg He Hn Hc.
  assert (∀ g todo, closes_group g t = true → draining r ts g todo → draining r' ts' g todo) as Hd.
  { intros g todo Ht (H1 & H2 & H3 & H4). split_and!; [by apply Hg|by apply Hc| |].
    - eapply Forall_impl; [exact H3|]. intros e [en Hen]. destruct (He e en Hen) as (en' & ? & _).
      by exists en'.
    - intros e en' Hen' Hgr Hncl. destruct (Hn e en' Hen') as [(en & Hen & Hgr' & Hmono)|Hf].
      + apply (H4 e en); [done|congruence|naive_solver].
      + rewrite Hgr, Ht in Hf. done. }
  assert (∀ e, is_Some (r_entryHeap r !! e) → is_Some (r_entryHeap r' !! e)) as Hs.
  { intros e [en Hen]. destruct (He e en Hen) as (en' & ? & _). by exists en'. }
  destruct t; simpl in *; auto.
  - destruct Hok as (en & Hen & Hcl). destruct (He _ _ Hen) as (en' & ? & ?). exists en'. auto.
  - apply Hd; [by apply bool_decide_eq_true|done].
  - apply Hd; [by apply bool_decide_eq_true|done].
Qed.

(** A reference nobody allocated is used by no worker. *)
Lemma count_fresh f ts : (∀ i t, ts !! i = Some t → f t = false) → @count worker f ts = 0%nat.
Proof.
  intros Hf. destruct (count f ts) eqn:E; [done|].
  destruct (count_witness f ts) as (i & t & Hi & Ht); [lia|]. by rewrite (Hf i t Hi) in Ht.
Qed.

Lemma fresh_group r ts g : workers_ok r ts → r_groupHeap r !! g = None →
  count (creates_on g) ts = 0%nat ∧ count (closes_group g) ts = 0%nat.
Proof.
  intros Hw Hg. split; apply count_fresh; intros i t Hi; specialize (Hw i t Hi);
    destruct t; simpl in *; try done; apply bool_decide_eq_false; intros ->; unfold draining in Hw;
    rewrite Hg in Hw; first [destruct Hw as [? [=]]|destruct Hw as [[? [=]] _]].
Qed.

Lemma fresh_entry r ts e : workers_ok r ts → r_entryHeap r !! e = None →
  count (runtimes_on e) ts = 0%nat ∧ count (closes_session e) ts = 0%nat.
Proof.
  intros Hw Hg. split; apply count_fresh; intros i t Hi; specialize (Hw i t Hi);
    destruct t; simpl in *; try done; apply bool_decide_eq_false; intros ->;
    rewrite Hg in Hw; by destruct Hw as [? [=]].
Qed.

(** The workers on groups, or on sessions, are as before. *)
Definition same_on_groups (ts ts' : list worker) : Prop :=
  ∀ g, count (creates_on g) ts' = count (creates_on g) ts ∧
       count (closes_group g) ts' = count (closes_group g) ts.

Definition same_on_sessions (ts ts' : list worker) : Prop :=
  ∀ e, count (runtimes_on e) ts' = count (runtimes_on e) ts ∧
       count (closes_session e) ts' = count (closes_session e) ts.

Lemma update_group r ts ts' g grp gate :
  base r ts → r_groupHeap r !! g = Some grp → gs_wf gate →
  gate_inv (gs_abs gate) (count (creates_on g) ts') (count (closes_group g) ts') →
  (∀ g', g' ≠ g → count (creates_on g') ts' = count (creates_on g') ts ∧
                  count (closes_group g') ts' = count (closes_group g') ts) →
  same_on_sessions ts ts' →
  (∀ err, gs_abs gate = AClosed err →
     ∀ e en, r_entryHeap r !! e = Some en → en_group en = g → closedp en) →
  workers_ok (set_group g (mkGroup gate (g_sessions grp)) r) ts' →
  base (set_group g (mkGroup gate (g_sessions grp)) r) ts'.
Proof.
  intros [BG BE BGS BES BS BI BH BC BW] Hg Hwf Hgi Hog Hos Hcl Hw.
  assert (∀ g', is_Some (r_groupHeap r !! g') →
    is_Some (<[g:=mkGroup gate (g_sessions grp)]> (r_groupHeap r) !! g')) as Hdom.
  { intros g' Hs. destruct (decide (g' = g)) as [->|]; [rewrite lookup_insert_eq; by eexists|].
    by rewrite lookup_insert_ne. }
  split; simpl; try done.
  - intros g' grp' Hg'. destruct (decide (g' = g)) as [->|Hne].
    + rewrite lookup_insert_eq in Hg'. inv Hg'. destruct (BG _ _ Hg) as (? & _). done.
    + rewrite lookup_insert_ne in Hg' by done. destruct (BG _ _ Hg') as (? & ? & ?).
      destruct (Hog g' Hne) as [-> ->]. done.
  - intros e en He. destruct (BE _ _ He) as (? & ? & ? & ?). destruct (Hos e) as [-> ->].
    split_and!; auto.
  - intros ws g' Hg'. apply Hdom. by eapply BGS.
  - intros g' grp' id e Hg' Hid. destruct (decide (g' = g)) as [->|Hne].
    + rewrite lookup_insert_eq in Hg'. inv Hg'. by eapply BS.
    + rewrite lookup_insert_ne in Hg' by done. by eapply BS.
  - intros e en He Hncl. destruct (BH _ _ He Hncl) as (? & ? & grp' & Hgrp' & Hs). split_and!; try done.
    destruct (decide (en_group en = g)) as [Heq|Hne].
    + rewrite Heq, lookup_insert_eq. eexists. split; [done|]. simpl. congruence.
    + rewrite lookup_insert_ne by done. eauto.
  - intros g' grp' err Hg' Ha. destruct (decide (g' = g)) as [->|Hne].
    + rewrite lookup_insert_eq in Hg'. inv Hg'. by eapply Hcl.
    + rewrite lookup_insert_ne in Hg' by done. by eapply BC.
Qed.

Lemma update_entry r ts ts' e en en' :
  base r ts → r_entryHeap r !! e = Some en →
  (en_id en', en_workspace en', en_group en') = (en_id en, en_workspace en, en_group en) →
  (closedp en → closedp en') → gs_wf (en_children en') →
  entry_inv (en_state en') (gs_abs (en_children en')) (count (runtimes_on e) ts')
    (count (closes_session e) ts') →
  (∀ e', e' ≠ e → count (runtimes_on e') ts' = count (runtimes_on e') ts ∧
                  count (closes_session e') ts' = count (closes_session e') ts) →
  same_on_groups ts ts' →
  workers_ok (set_entry e en' r) ts' → base (set_entry e en' r) ts'.
Proof.
  intros [BG BE BGS BES BS BI BH BC BW] He Heq Hcl Hwf Hei Hoe Hog Hw. injection Heq as Hid Hws Hgr.
  assert (∀ e1 en1, <[e:=en']> (r_entryHeap r) !! e1 = Some en1 →
    ∃ en0, r_entryHeap r !! e1 = Some en0 ∧ en_id en1 = en_id en0 ∧
      en_workspace en1 = en_workspace en0 ∧ en_group en1 = en_group en0 ∧
      (closedp en0 → closedp en1)) as Hold.
  { intros e1 en1 H1. destruct (decide (e1 = e)) as [->|Hne].
    - rewrite lookup_insert_eq in H1. inv H1. exists en. split_and!; done.
    - rewrite lookup_insert_ne in H1 by done. exists en1. split_and!; done. }
  assert (∀ e1 en1, r_entryHeap r !! e1 = Some en1 →
    ∃ en2, <[e:=en']> (r_entryHeap r) !! e1 = Some en2 ∧ en_id en2 = en_id en1 ∧
           en_group en2 = en_group en1) as Hnew.
  { intros e1 en1 H1. destruct (decide (e1 = e)) as [->|Hne].
    - rewrite lookup_insert_eq. exists en'. split; [done|]. simplify_eq. done.
    - rewrite lookup_insert_ne by done. exists en1. done. }
  split; simpl; try done.
  - intros g grp Hg. destruct (BG _ _ Hg) as (? & ? & ?). destruct (Hog g) as [-> ->]. done.
  - intros e1 en1 H1. destruct (decide (e1 = e)) as [->|Hne].
    + rewrite lookup_insert_eq in H1. inv H1. destruct (BE _ _ He) as (? & ? & ? & ?).
      rewrite Hgr. done.
    + rewrite lookup_insert_ne in H1 by done. destruct (BE _ _ H1) as (? & ? & ? & ?).
      destruct (Hoe e1 Hne) as [-> ->]. done.
  - intros id e1 H1. destruct (BES _ _ H1) as (en1 & He1 & Hid1).
    destruct (Hnew _ _ He1) as (en2 & ? & ? & _). exists en2. split; [done|congruence].
  - intros g grp id e1 Hg Hs. destruct (BS _ _ _ _ Hg Hs) as (en1 & He1 & Hid1 & Hg1).
    destruct (Hnew _ _ He1) as (en2 & ? & ? & ?). exists en2. split_and!; [done|congruence|congruence].
  - intros e1 e2 en1 en2 H1 H2 Heq12. destruct (Hold _ _ H1) as (a1 & Ha1 & Hb1 & _).
    destruct (Hold _ _ H2) as (a2 & Ha2 & Hb2 & _). eapply BI; [done..|congruence].
  - intros e1 en1 H1 Hncl. destruct (Hold _ _ H1) as (a1 & Ha1 & -> & -> & -> & Hc1).
    apply BH; [done|]. auto.
  - intros g grp err Hg Ha e1 en1 H1 Hg1. destruct (Hold _ _ H1) as (a1 & Ha1 & _ & _ & Hgr1 & Hc1).
    apply Hc1. eapply BC; [done..|congruence].
Qed.

(** Removing a group whose sessions are all closed from the registry. *)
Lemma delete_group r ts ws g :
  base r ts → r_groups r !! ws = Some g →
  (∀ e en, r_entryHeap r !! e = Some en → en_group en = g → closedp en) →
  base (set_groups (delete ws (r_groups r)) r) ts.
Proof.
  intros [BG BE BGS BES BS BI BH BC BW] Hws Hall. split; simpl; try done.
  - intros ws' g' [_ Hg']%lookup_delete_Some. by eapply BGS.
  - intros e en He Hncl. destruct (BH _ _ He Hncl) as (Hg & ?). split; [|done].
    rewrite lookup_delete_ne; [done|]. intros Heq. apply Hncl, (Hall e); [done|]. congruence.
Qed.

(** Removing a closed session from the lookup. *)
Lemma delete_entry r ts e en :
  base r ts → r_entryHeap r !! e = Some en → closedp en → r_entries r !! en_id en = Some e →
  base (set_entries (delete (en_id en) (r_entries r)) r) ts.
Proof.
  intros [BG BE BGS BES BS BI BH BC BW] He Hcl Hid. split; simpl; try done.
  - intros id e' [_ He']%lookup_delete_Some. by eapply BES.
  - intros e' en' He' Hncl. destruct (BH _ _ He' Hncl) as (? & Hg & ?). split; [done|]. split; [|done].
    rewrite lookup_delete_ne; [done|]. intros Heq. assert (e' = e) as -> by (rewrite Heq in Hid; congruence).
    rewrite He in He'. inv He'. done.
Qed.

(** Removing a closed session from a group. *)
Lemma delete_session r ts g grp e en :
  base r ts → r_groupHeap r !! g = Some grp → r_entryHeap r !! e = Some en → closedp en →
  g_sessions grp !! en_id en = Some e →
  base (set_group g (mkGroup (g_gate grp) (delete (en_id en) (g_sessions grp))) r) ts.
Proof.
  intros [BG BE BGS BES BS BI BH BC BW] Hg He Hcl Hid.
  assert (∀ g', is_Some (r_groupHeap r !! g') →
    is_Some (<[g:=mkGroup (g_gate grp) (delete (en_id en) (g_sessions grp))]> (r_groupHeap r) !! g'))
    as Hdom.
  { intros g' Hs. destruct (decide (g' = g)) as [->|]; [rewrite lookup_insert_eq; by eexists|].
    by rewrite lookup_insert_ne. }
  split; simpl; try done.
  - intros g' grp' Hg'. destruct (decide (g' = g)) as [->|Hne].
    + rewrite lookup_insert_eq in Hg'. inv Hg'. by apply (BG _ grp).
    + rewrite lookup_insert_ne in Hg' by done. by apply BG.
  - intros e' en' He'. destruct (BE _ _ He') as (? & ? & ? & ?). split_and!; auto.
  - intros ws g' Hg'. apply Hdom. by eapply BGS.
  - intros g' grp' id e' Hg' Hs. destruct (decide (g' = g)) as [->|Hne].
    + rewrite lookup_insert_eq in Hg'. inv Hg'. simpl in Hs. apply lookup_delete_Some in Hs as [_ Hs].
      by eapply BS.
    + rewrite lookup_insert_ne in Hg' by done. by eapply BS.
  - intros e' en' He' Hncl. destruct (BH _ _ He' Hncl) as (? & ? & grp' & Hgrp' & Hs). split_and!; try done.
    destruct (decide (en_group en' = g)) as [Heq|Hne].
    + rewrite Heq, lookup_insert_eq. eexists. split; [done|]. simpl.
      assert (grp' = grp) as -> by congruence.
      rewrite lookup_delete_ne; [done|]. intros Heq'. rewrite Heq' in Hid.
      assert (e' = e) as -> by congruence. rewrite He in He'. inv He'. done.
    + rewrite lookup_insert_ne by done. eauto.
  - intros g' grp' err Hg' Ha. destruct (decide (g' = g)) as [->|Hne].
    + rewrite lookup_insert_eq in Hg'. inv Hg'. by eapply BC.
    + rewrite lookup_insert_ne in Hg' by done. by eapply BC.
  - intros i t Ht. eapply worker_frame; [by apply (BW i t)|done| | |done].
    + intros e' en' He'. by exists en'.
    + intros e' en' He'. left. by exists en'.
Qed.

(** The workers after a step: those that were there, and new ones. *)
Lemma workers_update r r' ts ts' :
  workers_ok r ts →
  (∀ j u, ts' !! j = Some u → (∃ k, ts !! k = Some u) ∨ worker_ok r' ts' u) →
  (∀ g, is_Some (r_groupHeap r !! g) → is_Some (r_groupHeap r' !! g)) →
  (∀ e en, r_entryHeap r !! e = Some en →
     ∃ en', r_entryHeap r' !! e = Some en' ∧ (closedp en → closedp en')) →
  (∀ e en', r_entryHeap r' !! e = Some en' →
     (∃ en, r_entryHeap r !! e = Some en ∧ en_group en = en_group en' ∧ (closedp en → closedp en')) ∨
     count (closes_group (en_group en')) ts = 0%nat) →
  (∀ g, (0 < count (closes_group g) ts)%nat → count (creates_on g) ts = 0%nat →
        count (creates_on g) ts' = 0%nat) →
  workers_ok r' ts'.
Proof.
  intros Hw Hts Hg He Hn Hc j u Hj. destruct (Hts j u Hj) as [[k Hk]|]; [|done].
  eapply worker_frame; [by apply (Hw k u)|done|done| |].
  - intros e en' Hen'. destruct (Hn e en' Hen') as [?|Hz]; [by left|right].
    destruct (closes_group (en_group en') u) eqn:E; [|done].
    pose proof (count_pos _ _ _ _ Hk E). lia.
  - intros g Hcl. apply Hc. by apply (count_pos _ _ _ _ Hk Hcl).
Qed.

Lemma goto_cases (ts : list worker) i t t' xs j u : ts !! i = Some t →
  (<[i:=t']> ts ++ xs) !! j = Some u → (∃ k, ts !! k = Some u) ∨ u = t' ∨ u ∈ xs.
Proof.
  intros Hi Hj. apply lookup_app_Some in Hj as [Hj|[_ Hj]].
  - destruct (decide (j = i)) as [->|Hne].
    + rewrite list_lookup_insert_eq in Hj by (by apply lookup_lt_Some in Hi). inv Hj. tauto.
    + rewrite list_lookup_insert_ne in Hj by done. left. eauto.
  - right; right. by eapply list_elem_of_lookup_2.
Qed.

Lemma spawn_cases (ts xs : list worker) j u :
  (ts ++ xs) !! j = Some u → (∃ k, ts !! k = Some u) ∨ u ∈ xs.
Proof.
  intros [Hj|[_ Hj]]%lookup_app_Some; [left; eauto|right]. by eapply list_elem_of_lookup_2.
Qed.

Lemma count_goto f (ts : list worker) i t t' :
  ts !! i = Some t → f t' = f t → count f (<[i:=t']> ts) = count f ts.
Proof. intros Hi Hf. pose proof (count_insert f ts i t t' Hi) as Hc. rewrite Hf in Hc. lia. Qed.

Lemma heap_refl r :
  (∀ g, is_Some (r_groupHeap r !! g) → is_Some (r_groupHeap r !! g)) ∧
  (∀ e en, r_entryHeap r !! e = Some en →
     ∃ en', r_entryHeap r !! e = Some en' ∧ (closedp en → closedp en')) ∧
  (∀ ts e en', r_entryHeap r !! e = Some en' →
     (∃ en, r_entryHeap r !! e = Some en ∧ en_group en = en_group en' ∧ (closedp en → closedp en')) ∨
     @count worker (closes_group (en_group en')) ts = 0%nat).
Proof. split_and!; eauto. Qed.

(** Looking up, or creating, the group of a workspace. *)
Lemma lookup_group_ok r ts ws g r' :
  base r ts → lookup_group ws r = (g, r') →
  base r' ts ∧ r_groups r' !! ws = Some g ∧ is_Some (r_groupHeap r' !! g) ∧
  r_closed r' = r_closed r ∧
  (∀ ws' g', r_groups r' !! ws' = Some g' → r_groups r !! ws' = Some g' ∨ g' = g) ∧
  (∀ g' grp, r_groupHeap r !! g' = Some grp → r_groupHeap r' !! g' = Some grp) ∧
  (∀ g' grp, r_groups r !! ws = None → r_groupHeap r !! g' = Some grp → g' ≠ g).
Proof.
  intros Hb Hl. pose proof Hb as [BG BE BGS BES BS BI BH BC BW]. unfold lookup_group in Hl.
  destruct (r_groups r !! ws) as [g0|] eqn:Hws; inv Hl.
  { split_and!; try done; [by eapply BGS|tauto]. }
  set (g := r_next r).
  assert (r_groupHeap r !! g = None) as Hfresh.
  { destruct (r_groupHeap r !! g) as [grp|] eqn:E; [|done]. destruct (BG _ _ E) as (? & _). lia. }
  assert (∀ g' grp, r_groupHeap r !! g' = Some grp → g' ≠ g) as Hneq by (intros g' grp Hg' ->; congruence).
  assert (∀ g' grp, r_groupHeap r !! g' = Some grp →
    <[g:=newWorkspaceGroup]> (r_groupHeap r) !! g' = Some grp) as Hkeep.
  { intros g' grp Hg'. rewrite lookup_insert_ne by (intros ->; by eapply Hneq). done. }
  destruct (fresh_group r ts g BW Hfresh) as [F1 F2]. destruct gs_new_ok as [Wn An].
  split_and!; simpl; [|by rewrite lookup_insert_eq|rewrite lookup_insert_eq; by eexists|done| |done|].
  - split; simpl.
    + intros g' grp' Hg'. destruct (decide (g' = g)) as [->|Hne].
      * rewrite lookup_insert_eq in Hg'. inv Hg'. simpl. rewrite F1, F2, An. split_and!; try done; lia.
      * rewrite lookup_insert_ne in Hg' by done. destruct (BG _ _ Hg') as (? & ? & ?).
        split_and!; try done; lia.
    + intros e en He. destruct (BE _ _ He) as (? & ? & [grp Hgrp] & ?). split_and!; try done; [lia|].
      rewrite (Hkeep _ _ Hgrp). by eexists.
    + intros ws' g' Hg'. destruct (decide (ws' = ws)) as [->|Hne].
      * rewrite lookup_insert_eq in Hg'. inv Hg'. rewrite lookup_insert_eq. by eexists.
      * rewrite lookup_insert_ne in Hg' by done. destruct (BGS _ _ Hg') as [grp Hgrp].
        rewrite (Hkeep _ _ Hgrp). by eexists.
    + done.
    + intros g' grp' id e Hg' Hs. destruct (decide (g' = g)) as [->|Hne].
      * rewrite lookup_insert_eq in Hg'. by inv Hg'.
      * rewrite lookup_insert_ne in Hg' by done. by eapply BS.
    + done.
    + intros e en He Hncl. destruct (BH _ _ He Hncl) as (Hg & ? & grp & Hgrp & ?).
      split; [|split; [done|exists grp; split; [by apply Hkeep|done]]].
      rewrite lookup_insert_ne; [done|]. intros Heq. congruence.
    + intros g' grp' err Hg' Ha. destruct (decide (g' = g)) as [->|Hne].
      * rewrite lookup_insert_eq in Hg'. inv Hg'. simpl in Ha. congruence.
      * rewrite lookup_insert_ne in Hg' by done. by eapply BC.
    + eapply workers_update; [exact BW|eauto| | | |done]; simpl.
      * intros g' [grp Hgrp]. rewrite (Hkeep _ _ Hgrp). by eexists.
      * intros e en He. by exists en.
      * intros e en He. left. by exists en.
  - intros ws' g' Hg'. destruct (decide (ws' = ws)) as [->|Hne].
    + rewrite lookup_insert_eq in Hg'. inv Hg'. by right.
    + rewrite lookup_insert_ne in Hg' by done. by left.
  - intros g' grp _ Hg'. by eapply Hneq.
Qed.

(** Committing a new session to an accepting group. *)
Lemma commit_ok r ts ws g grp id :
  base r ts → r_groups r !! ws = Some g → r_groupHeap r !! g = Some grp →
  gs_Accepting (g_gate grp) = true →
  (∀ e en, r_entryHeap r !! e = Some en → en_id en ≠ id) →
  let e := r_next r in
  let r1 := mkRegistry (r_entries r) (r_groups r) (r_closed r)
              (<[e:=mkEntry id ws registryStateActive gs_new g]> (r_entryHeap r)) (r_groupHeap r) (S e) in
  base (set_entries (<[id:=e]> (r_entries r))
          (set_group g (mkGroup (g_gate grp) (<[id:=e]> (g_sessions grp))) r1)) ts.
Proof.
  intros [BG BE BGS BES BS BI BH BC BW] Hws Hg Hacc Hid e r1. subst r1.
  assert (r_entryHeap r !! e = None) as Hfresh.
  { destruct (r_entryHeap r !! e) as [en|] eqn:E; [|done]. destruct (BE _ _ E) as (? & _). lia. }
  destruct (fresh_entry r ts e BW Hfresh) as [F1 F2]. destruct gs_new_ok as [Wn An].
  destruct (BG _ _ Hg) as (Hglt & Hgwf & Hgi). rewrite gs_accepting_ok in Hacc by done.
  assert (count (closes_group g) ts = 0%nat) as Hncl by (destruct (gs_abs (g_gate grp)); naive_solver).
  assert (∀ g', is_Some (r_groupHeap r !! g') →
    is_Some (<[g:=mkGroup (g_gate grp) (<[id:=e]> (g_sessions grp))]> (r_groupHeap r) !! g')) as Hdom.
  { intros g' Hs. destruct (decide (g' = g)) as [->|]; [rewrite lookup_insert_eq; by eexists|].
    by rewrite lookup_insert_ne. }
  assert (∀ e' en', r_entryHeap r !! e' = Some en' →
    <[e:=mkEntry id ws registryStateActive gs_new g]> (r_entryHeap r) !! e' = Some en') as Hkeep.
  { intros e' en' He'. rewrite lookup_insert_ne by (intros ->; congruence). done. }
  split; simpl.
  - intros g' grp' Hg'. destruct (decide (g' = g)) as [->|Hne].
    + rewrite lookup_insert_eq in Hg'. inv Hg'. simpl. split_and!; try done; lia.
    + rewrite lookup_insert_ne in Hg' by done. destruct (BG _ _ Hg') as (? & ? & ?).
      split_and!; try done; lia.
  - intros e' en' He'. destruct (decide (e' = e)) as [->|Hne].
    + rewrite lookup_insert_eq in He'. inv He'. simpl. rewrite F1, F2, An.
      split_and!; try done; [lia|]. apply Hdom. by eexists.
    + rewrite lookup_insert_ne in He' by done. destruct (BE _ _ He') as (? & ? & ? & ?).
      split_and!; try done; [lia|]. by apply Hdom.
  - intros ws' g' Hg'. apply Hdom. by eapply BGS.
  - intros id' e' He'. destruct (decide (id' = id)) as [->|Hne].
    + rewrite lookup_insert_eq in He'. inv He'. rewrite lookup_insert_eq. by eexists.
    + rewrite lookup_insert_ne in He' by done. destruct (BES _ _ He') as (en & ? & ?).
      exists en. auto.
  - intros g' grp' id' e' Hg' Hs. destruct (decide (g' = g)) as [->|Hne].
    + rewrite lookup_insert_eq in Hg'. inv Hg'. simpl in Hs. destruct (decide (id' = id)) as [->|Hne'].
      * rewrite lookup_insert_eq in Hs. inv Hs. rewrite lookup_insert_eq. by eexists.
      * rewrite lookup_insert_ne in Hs by done. destruct (BS _ _ _ _ Hg Hs) as (en & ? & ? & ?).
        exists en. auto.
    + rewrite lookup_insert_ne in Hg' by done. destruct (BS _ _ _ _ Hg' Hs) as (en & ? & ? & ?).
      exists en. auto.
  - intros e1 e2 en1 en2 H1 H2 Heq.
    destruct (decide (e1 = e)) as [->|Hn1], (decide (e2 = e)) as [->|Hn2]; [done| | |].
    + rewrite lookup_insert_eq in H1. inv H1. rewrite lookup_insert_ne in H2 by done.
      by destruct (Hid _ _ H2).
    + rewrite lookup_insert_eq in H2. inv H2. rewrite lookup_insert_ne in H1 by done.
      by destruct (Hid _ _ H1).
    + rewrite lookup_insert_ne in H1, H2 by done. by eapply BI.
  - intros e' en' He' Hnc. destruct (decide (e' = e)) as [->|Hne].
    + rewrite lookup_insert_eq in He'. inv He'. simpl. rewrite !lookup_insert_eq. split_and!; try done.
      eexists. split; [done|]. simpl. by rewrite lookup_insert_eq.
    + rewrite lookup_insert_ne in He' by done. destruct (BH _ _ He' Hnc) as (? & Hx & grp' & Hgrp' & Hs).
      pose proof (Hid _ _ He') as Hidne. split_and!; [done|by rewrite lookup_insert_ne|].
      destruct (decide (en_group en' = g)) as [Heq|Hgne].
      * rewrite Heq, lookup_insert_eq. eexists. split; [done|]. simpl.
        rewrite lookup_insert_ne by done. congruence.
      * rewrite lookup_insert_ne by done. eauto.
  - intros g' grp' err Hg' Ha e' en' He' Hgr.
    assert (g' ≠ g) as Hgne.
    { intros ->. rewrite lookup_insert_eq in Hg'. inv Hg'. simpl in Ha. rewrite Ha in Hacc. done. }
    rewrite lookup_insert_ne in Hg' by done. destruct (decide (e' = e)) as [->|Hne].
    + rewrite lookup_insert_eq in He'. by inv He'.
    + rewrite lookup_insert_ne in He' by done. by eapply BC.
  - eapply workers_update; [exact BW|eauto|exact Hdom| | |done]; simpl.
    + intros e' en' He'. exists en'. auto.
    + intros e' en' He'. destruct (decide (e' = e)) as [->|Hne].
      * rewrite lookup_insert_eq in He'. inv He'. by right.
      * rewrite lookup_insert_ne in He' by done. left. by exists en'.
Qed.

(** ** Operations *)

Definition inv (w : world) : Prop := base (wd_registry w) (wd_workers w) ∧ shut (wd_registry w).

Lemma spawn_nil r w : base r (wd_workers w) → base r (wd_workers (spawn [] r w)).
Proof. simpl. by rewrite app_nil_r. Qed.

Lemma same_sessions_spawn ts t :
  (∀ e, runtimes_on e t = false ∧ closes_session e t = false) → same_on_sessions ts (ts ++ [t]).
Proof. intros Hf e. rewrite !count_app. simpl. destruct (Hf e) as [-> ->]. lia. Qed.

Lemma same_groups_spawn ts t :
  (∀ g, creates_on g t = false ∧ closes_group g t = false) → same_on_groups ts (ts ++ [t]).
Proof. intros Hf e. rewrite !count_app. simpl. destruct (Hf e) as [-> ->]. lia. Qed.

(** Frame of the workers when one group's gate changes. *)
Lemma workers_group r ts xs g grp grp' :
  workers_ok r ts → r_groupHeap r !! g = Some grp →
  Forall (worker_ok (set_group g grp' r) (ts ++ xs)) xs →
  (∀ g', (0 < count (closes_group g') ts)%nat → count (creates_on g') xs = 0%nat) →
  workers_ok (set_group g grp' r) (ts ++ xs).
Proof.
  intros Hw Hg Hxs Hc. destruct (heap_refl r) as (_ & H2 & H3).
  eapply workers_update; [exact Hw| | |exact H2|apply H3|].
  - intros j u Hj. destruct (spawn_cases _ _ _ _ Hj) as [?|Hin]; [by left|right].
    rewrite Forall_forall in Hxs. by apply Hxs.
  - intros g' Hs. simpl. destruct (decide (g' = g)) as [->|]; [rewrite lookup_insert_eq; by eexists|].
    by rewrite lookup_insert_ne.
  - intros g' Hp Hz. rewrite count_app, Hz, Hc by done. done.
Qed.

Lemma create_session_step w ws : inv w →
  ∃ w', act (ACreateSession ws) w = Ret w' ∧ inv w'.
Proof.
  intros [Hb Hsh]. unfold act, beginCreate. destruct (r_closed (wd_registry w)) eqn:Hcl; simpl.
  { eexists. split; [done|]. split; [by apply spawn_nil|done]. }
  destruct (lookup_group ws (wd_registry w)) as [g r1] eqn:Hl.
  destruct (lookup_group_ok _ _ _ _ _ Hb Hl) as (Hb1 & Hws & [grp Hg] & Hc1 & _).
  unfold load_group, group_beginCreate. rewrite Hg. cbn.
  destruct (b_group _ _ Hb1 _ _ Hg) as (_ & Hwf & Hgi).
  destruct (gs_begin_create_ok _ Hwf) as [Wg Ag].
  destruct (gs_BeginCreate (g_gate grp)) as [ok gate] eqn:Hbc. simpl in Wg, Ag.
  assert (shut (set_group g (mkGroup gate (g_sessions grp)) r1)) as Hsh' by (intros Hc; simpl in Hc; congruence).
  destruct (gs_abs (g_gate grp)) as [n|n|err] eqn:Ea; simpl in Ag; injection Ag as -> Ag.
  - eexists. split; [done|]. split; [|done].
    destruct Hgi as [-> Hcz]. simpl.
    assert (∀ g', count (creates_on g') (wd_workers w ++ [WCreate ws g]) =
      (count (creates_on g') (wd_workers w) + (if bool_decide (g = g') then 1 else 0))%nat) as Hcc.
    { intros g'. rewrite count_app. simpl. lia. }
    assert (∀ g', count (closes_group g') (wd_workers w ++ [WCreate ws g]) =
      count (closes_group g') (wd_workers w)) as Hcg by (intros g'; rewrite count_app; simpl; lia).
    apply (update_group r1 (wd_workers w)); try done.
    + rewrite Ag, Hcc, Hcg, bool_decide_eq_true_2 by done. simpl. split; [lia|done].
    + intros g' Hne. rewrite Hcc, Hcg, bool_decide_eq_false_2 by done. lia.
    + by apply same_sessions_spawn.
    + intros err' Hx. congruence.
    + eapply workers_group; [apply (b_workers _ _ Hb1)|done| |].
      * repeat constructor. simpl. rewrite lookup_insert_eq. by eexists.
      * intros g' Hp. simpl. destruct (decide (g = g')) as [->|Hne]; [lia|].
        by rewrite bool_decide_eq_false_2.
  - eexists. split; [done|]. split; [|done]. apply spawn_nil.
    apply (update_group r1 (wd_workers w)); try done; [by rewrite Ag|by intros err' Hx; congruence|].
    rewrite <- (app_nil_r (wd_workers w)).
    eapply workers_group; [apply (b_workers _ _ Hb1)|done|constructor|done].
  - eexists. split; [done|]. split; [|done]. apply spawn_nil.
    apply (update_group r1 (wd_workers w)); try done; [by rewrite Ag| |].
    + intros err' _ e en He Hgr. by eapply (b_closed _ _ Hb1).
    + rewrite <- (app_nil_r (wd_workers w)).
      eapply workers_group; [apply (b_workers _ _ Hb1)|done|constructor|done].
Qed.

(** Frame of the workers when one entry changes. *)
Lemma workers_entry r ts xs e en en' :
  workers_ok r ts → r_entryHeap r !! e = Some en →
  en_group en' = en_group en → (closedp en → closedp en') →
  Forall (worker_ok (set_entry e en' r) (ts ++ xs)) xs →
  (∀ g, count (creates_on g) xs = 0%nat) →
  workers_ok (set_entry e en' r) (ts ++ xs).
Proof.
  intros Hw He Hgr Hcl Hxs Hc.
  eapply workers_update; [exact Hw| |done| | |]; simpl.
  - intros j u Hj. destruct (spawn_cases _ _ _ _ Hj) as [?|Hin]; [by left|right].
    rewrite Forall_forall in Hxs. by apply Hxs.
  - intros e1 en1 H1. destruct (decide (e1 = e)) as [->|Hne].
    + rewrite lookup_insert_eq. exists en'. simplify_eq. done.
    + rewrite lookup_insert_ne by done. by exists en1.
  - intros e1 en1 H1. left. destruct (decide (e1 = e)) as [->|Hne].
    + rewrite lookup_insert_eq in H1. inv H1. exists en. done.
    + rewrite lookup_insert_ne in H1 by done. by exists en1.
  - intros g _ Hz. by rewrite count_app, Hz, Hc.
Qed.

Lemma create_runtime_step w id : inv w →
  ∃ w', act (ACreateRuntime id) w = Ret w' ∧ inv w'.
Proof.
  intros [Hb Hsh]. unfold act, beginRuntimeCreate.
  assert (∀ x : nat + error, ∃ w', Ret (match @inr nat error (ESentinel ExecErrClosed) with
    | inl e => spawn [WRuntime e] (wd_registry w) w | inr _ => spawn [] (wd_registry w) w end) = Ret w' ∧ inv w')
    as Hstay.
  { intros _. eexists. split; [done|]. split; [by apply spawn_nil|done]. }
  destruct (r_closed (wd_registry w)) eqn:Hcl; simpl; [by apply (Hstay (inl 0%nat))|].
  destruct (r_entries (wd_registry w) !! id) as [e|] eqn:Hid; simpl; [|by apply (Hstay (inl 0%nat))].
  destruct (b_entries _ _ Hb _ _ Hid) as (en & He & _). unfold load_entry. rewrite He. cbn.
  case_bool_decide as Hst; simpl; [by apply (Hstay (inl 0%nat))|].
  destruct (b_entry _ _ Hb _ _ He) as (_ & Hwf & _ & Hei).
  assert (en_state en = registryStateActive) as Hact by (destruct (en_state en); [done|by destruct Hst]).
  rewrite Hact in Hei. destruct Hei as [Ha Hc0]. destruct (gs_begin_create_ok _ Hwf) as [Wg Ag].
  rewrite Ha in Ag. simpl in Ag.
  destruct (gs_BeginCreate (en_children en)) as [ok gate] eqn:Hbc. simpl in Wg, Ag. injection Ag as -> Ag.
  eexists. split; [done|]. split; [|done]. simpl.
  assert (¬ closedp en) as Hncl by (intros [err Herr]; congruence).
  apply (update_entry _ (wd_workers w) _ _ en); try done.
  - simpl. rewrite Hact, Ag, !count_app. simpl. rewrite bool_decide_eq_true_2 by done.
    rewrite Hc0. split; [f_equal; lia|done].
  - intros e' Hne. rewrite !count_app. simpl. rewrite bool_decide_eq_false_2 by done. lia.
  - by apply same_groups_spawn.
  - eapply workers_entry; [apply (b_workers _ _ Hb)|done|done|done| |done].
    repeat constructor. simpl. rewrite lookup_insert_eq. by eexists.
Qed.

(** [beginClose] for an entry found in the lookup or retained by its group. *)
Lemma beginClose_ok r ts id retained :
  base r ts → (∀ e, retained = Some e → is_Some (r_entryHeap r !! e)) →
  ∃ found r', beginClose id retained r = Ret (found, r') ∧
    r_closed r' = r_closed r ∧ r_groups r' = r_groups r ∧ r_groupHeap r' = r_groupHeap r ∧
    (∀ e en, r_entryHeap r !! e = Some en →
       ∃ en', r_entryHeap r' !! e = Some en' ∧ en_id en' = en_id en ∧ en_group en' = en_group en ∧
              (closedp en ↔ closedp en')) ∧
    (∀ e en', r_entryHeap r' !! e = Some en' →
       ∃ en, r_entryHeap r !! e = Some en ∧ en_group en = en_group en' ∧ (closedp en ↔ closedp en')) ∧
    match found with
    | None => r' = r ∧ retained = None
    | Some (e, owner) =>
        is_Some (r_entryHeap r !! e) ∧
        (r_entries r !! id = Some e ∨ retained = Some e) ∧
        (owner = false → r' = r) ∧
        ∀ xs, owner = true → base r (ts ++ xs) → same_on_sessions ts (ts ++ xs) →
              base r' ((ts ++ xs) ++ [WSession e])
    end.
Proof.
  intros Hb Hret. unfold beginClose.
  set (found := match r_entries r !! id with Some e => Some e | None => retained end).
  assert (∀ e, found = Some e → is_Some (r_entryHeap r !! e) ∧
    (r_entries r !! id = Some e ∨ retained = Some e)) as Hfound.
  { intros e. subst found. destruct (r_entries r !! id) as [e'|] eqn:E; intros [= ->].
    - destruct (b_entries _ _ Hb _ _ E) as (en & ? & _). split; [by exists en|by left].
    - split; [by apply Hret|by right]. }
  destruct found as [e|] eqn:Ef.
  2: { eexists None, r. assert (retained = None) by (subst found; by destruct (r_entries r !! id)).
       split_and!; try done; intros e en He; exists en; done. }
  destruct (Hfound e eq_refl) as [[en He] Hwhere]. unfold load_entry. rewrite He. cbn.
  case_bool_decide as Hst.
  { eexists (Some (e, false)), r. split_and!; try done; try (intros e' en' He'; exists en'; done). }
  destruct (b_entry _ _ Hb _ _ He) as (_ & Hwf & _ & Hei).
  assert (en_state en = registryStateActive) as Hact by (destruct (en_state en); [done|by destruct Hst]).
  rewrite Hact in Hei. destruct Hei as [Ha Hc0]. destruct (gs_begin_close_ok _ Hwf) as [Wg Ag].
  rewrite Ha in Ag. simpl in Ag.
  destruct (gs_BeginClose (en_children en)) as [ok gate] eqn:Hbc. simpl in Wg, Ag. injection Ag as -> Ag.
  simpl. set (en' := mkEntry _ _ _ _ _).
  assert (¬ closedp en) as Hn1 by (intros [err Herr]; congruence).
  assert (¬ closedp en') as Hn2 by (intros [err Herr]; simpl in Herr; congruence).
  eexists (Some (e, true)), _. split; [done|]. split_and!; try done.
  - intros e1 en1 H1. simpl. destruct (decide (e1 = e)) as [->|Hne].
    + rewrite lookup_insert_eq. exists en'. simplify_eq. by split_and!.
    + rewrite lookup_insert_ne by done. by exists en1.
  - intros e1 en1 H1. simpl in H1. destruct (decide (e1 = e)) as [->|Hne].
    + rewrite lookup_insert_eq in H1. inv H1. exists en. by split_and!.
    + rewrite lookup_insert_ne in H1 by done. by exists en1.
  - intros xs _ Hb' Hsame. apply (update_entry r (ts ++ xs) _ e en en'); try done.
    + simpl. left. rewrite Ag, !count_app. simpl. rewrite bool_decide_eq_true_2 by done.
      destruct (Hsame e) as [E1 E2]. rewrite count_app in E1, E2. split; [f_equal; lia|lia].
    + intros e' Hne. rewrite !count_app. simpl. rewrite bool_decide_eq_false_2 by done. lia.
    + by apply same_groups_spawn.
    + eapply workers_entry; [apply (b_workers _ _ Hb')|done|done|done| |done].
      repeat constructor. simpl. rewrite lookup_insert_eq. by eexists.
Qed.

Lemma close_session_step w id : inv w → ∃ w', act (ACloseSession id) w = Ret w' ∧ inv w'.
Proof.
  intros [Hb Hsh]. unfold act.
  destruct (beginClose_ok _ _ id None Hb ltac:(done)) as (found & r' & -> & Hc & Hg & Hgh & _ & _ & Hf). cbn.
  assert (shut r') as Hsh' by (unfold shut; by rewrite Hc, Hg, Hgh).
  destruct found as [[e owner]|].
  - destruct Hf as (_ & _ & Hno & Hyes). destruct owner.
    + eexists. split; [done|]. split; [|done]. simpl.
      specialize (Hyes [] eq_refl). rewrite app_nil_r in Hyes. by apply Hyes.
    + rewrite (Hno eq_refl). eexists. split; [done|]. split; [by apply spawn_nil|done].
  - destruct Hf as [-> _]. eexists. split; [done|]. split; [by apply spawn_nil|done].
Qed.

(** Groups only stop accepting, and only leave the registry. *)
Lemma shut_mono r r' :
  shut r → r_closed r' = r_closed r →
  (∀ ws g grp', r_groups r' !! ws = Some g → r_groupHeap r' !! g = Some grp' →
     r_groups r !! ws = Some g ∧
     ∃ grp, r_groupHeap r !! g = Some grp ∧
            (gs_Accepting (g_gate grp) = false → gs_Accepting (g_gate grp') = false)) →
  shut r'.
Proof.
  intros Hs Hc Hm Hcl ws g grp' Hws Hg. destruct (Hm _ _ _ Hws Hg) as (? & grp & Hgrp & Himp).
  apply Himp. eapply Hs; [congruence|done..].
Qed.

(** Closing a group admits nobody any more; the first closer gets a worker. *)
Lemma close_group_ok r ts ws g grp :
  base r ts → r_groupHeap r !! g = Some grp →
  ∃ owner gate, close_group g r = Ret (owner, set_group g (mkGroup gate (g_sessions grp)) r) ∧
    gs_Accepting gate = false ∧
    base (set_group g (mkGroup gate (g_sessions grp)) r)
      (ts ++ (if (owner : bool) then [WWorkspace ws g] else [])).
Proof.
  intros Hb Hg. unfold close_group, load_group, group_beginClose. rewrite Hg. cbn.
  destruct (b_group _ _ Hb _ _ Hg) as (_ & Hwf & Hgi).
  destruct (gs_begin_close_ok _ Hwf) as [Wg Ag].
  destruct (gs_BeginClose (g_gate grp)) as [ok gate] eqn:Hbc. simpl in Wg, Ag.
  exists ok, gate. split; [done|]. rewrite gs_accepting_ok by done.
  assert (∀ xs, Forall (worker_ok (set_group g (mkGroup gate (g_sessions grp)) r) (ts ++ xs)) xs →
    (∀ g', count (creates_on g') xs = 0%nat) →
    workers_ok (set_group g (mkGroup gate (g_sessions grp)) r) (ts ++ xs)) as Hw.
  { intros xs Hx Hn. eapply workers_group; [apply (b_workers _ _ Hb)|done|done|by intros]. }
  destruct (gs_abs (g_gate grp)) as [n|n|err] eqn:Ea; simpl in Ag; injection Ag as -> Ag; rewrite Ag.
  - split; [done|]. destruct Hgi as [-> Hcz].
    apply (update_group r ts); try done.
    + rewrite Ag, !count_app. simpl. rewrite bool_decide_eq_true_2 by done. split; [lia|lia].
    + intros g' Hne. rewrite !count_app. simpl. rewrite bool_decide_eq_false_2 by done. lia.
    + by apply same_sessions_spawn.
    + intros err' Hx. congruence.
    + apply Hw; [|done]. repeat constructor. simpl. rewrite lookup_insert_eq. by eexists.
  - split; [done|]. rewrite app_nil_r. apply (update_group r ts); try done; [by rewrite Ag|by congruence|].
    rewrite <- (app_nil_r ts). by apply Hw.
  - split; [done|]. rewrite app_nil_r. apply (update_group r ts); try done; [by rewrite Ag| |].
    + intros err' _ e en He Hgr. by eapply (b_closed _ _ Hb).
    + rewrite <- (app_nil_r ts). by apply Hw.
Qed.

Lemma close_workspace_step w ws : inv w → ∃ w', act (ACloseWorkspace ws) w = Ret w' ∧ inv w'.
Proof.
  intros [Hb Hsh]. unfold act, beginWorkspaceClose.
  destruct (lookup_group ws (wd_registry w)) as [g r1] eqn:Hl.
  destruct (lookup_group_ok _ _ _ _ _ Hb Hl) as (Hb1 & Hws & [grp Hg] & Hc1 & Hgs & Hkeep & _).
  destruct (close_group_ok r1 _ ws g grp Hb1 Hg) as (owner & gate & -> & Hacc & Hb2). cbn.
  assert (shut (set_group g (mkGroup gate (g_sessions grp)) r1)) as Hsh'.
  { intros Hcl ws' g' grp' Hws' Hg'. simpl in *. destruct (decide (g' = g)) as [->|Hne].
    - rewrite lookup_insert_eq in Hg'. by inv Hg'.
    - rewrite lookup_insert_ne in Hg' by done. destruct (Hgs _ _ Hws') as [Hold|]; [|done].
      destruct (b_groups _ _ Hb _ _ Hold) as [grp0 Hgrp0]. pose proof (Hkeep _ _ Hgrp0) as Hk.
      assert (grp' = grp0) as -> by congruence. eapply Hsh; [congruence|done..]. }
  eexists. split; [done|]. destruct owner; (split; [|done]); done.
Qed.

(** The loop of [beginShutdown]: every group of [order] stops accepting and each
    one this call closes gets a worker. *)
Lemma shutdown_loop_ok order : ∀ r ts,
  base r ts → (∀ ws g, (ws, g) ∈ order → is_Some (r_groupHeap r !! g)) →
  ∃ closes r', shutdown_loop order r = Ret (closes, r') ∧
    base r' (ts ++ shutdown_workers closes) ∧
    r_groups r' = r_groups r ∧ r_closed r' = r_closed r ∧
    (∀ g grp', r_groupHeap r' !! g = Some grp' →
       ∃ grp, r_groupHeap r !! g = Some grp ∧
         (gs_Accepting (g_gate grp) = false → gs_Accepting (g_gate grp') = false)) ∧
    (∀ ws g grp', (ws, g) ∈ order → r_groupHeap r' !! g = Some grp' →
       gs_Accepting (g_gate grp') = false).
Proof.
  induction order as [|[ws g] order IH]; intros r ts Hb Hin; simpl.
  { exists [], r. simpl. rewrite app_nil_r. split_and!; try done; [eauto|].
    intros ws g grp' Hx. by apply elem_of_nil in Hx. }
  destruct (Hin ws g) as [grp Hg]; [by left|].
  destruct (close_group_ok r ts ws g grp Hb Hg) as (owner & gate & -> & Hacc & Hb1). cbn.
  set (r1 := set_group g (mkGroup gate (g_sessions grp)) r) in *.
  assert (∀ g', is_Some (r_groupHeap r !! g') → is_Some (r_groupHeap r1 !! g')) as Hdom.
  { intros g' Hs. simpl. destruct (decide (g' = g)) as [->|]; [rewrite lookup_insert_eq; by eexists|].
    by rewrite lookup_insert_ne. }
  destruct (IH r1 _ Hb1) as (closes & r' & -> & Hb' & Hgs & Hcl & Hmono & Hclosed).
  { intros ws' g' Hx. apply Hdom, (Hin ws'). by right. }
  assert (∀ grp', r_groupHeap r' !! g = Some grp' → gs_Accepting (g_gate grp') = false) as Hhead.
  { intros grp' Hg'. destruct (Hmono _ _ Hg') as (g1 & Hg1 & Himp). apply Himp.
    simpl in Hg1. rewrite lookup_insert_eq in Hg1. by inv Hg1. }
  cbn. eexists _, r'. split; [done|]. split_and!; try done.
  - destruct owner; simpl in *; rewrite <- ?app_assoc in Hb'; done.
  - intros g' grp' Hg'. destruct (Hmono _ _ Hg') as (g1 & Hg1 & Himp).
    destruct (decide (g' = g)) as [->|Hne].
    + exists grp. split; [done|]. intros _. by apply Hhead.
    + simpl in Hg1. rewrite lookup_insert_ne in Hg1 by done. by exists g1.
  - intros ws' g' grp' Hx Hg'. apply elem_of_cons in Hx as [[= -> ->]|Hx]; [by apply Hhead|].
    by eapply Hclosed.
Qed.

Lemma base_closed r ts b :
  base r ts →
  base (mkRegistry (r_entries r) (r_groups r) b (r_entryHeap r) (r_groupHeap r) (r_next r)) ts.
Proof.
  intros [BG BE BGS BES BS BI BH BC BW]. by split.
Qed.

Lemma shutdown_step w order : inv w → order ≡ₚ map_to_list (r_groups (wd_registry w)) →
  ∃ w', act (AShutdown order) w = Ret w' ∧ inv w' ∧ r_closed (wd_registry w') = true.
Proof.
  intros [Hb Hsh] Hord. unfold act, beginShutdown. rewrite bool_decide_eq_true_2 by done.
  destruct (shutdown_loop_ok order _ _ (base_closed _ _ true Hb))
    as (closes & r' & -> & Hb' & Hgs & Hcl & _ & Hclosed).
  { intros ws g Hx. rewrite Hord in Hx. apply elem_of_map_to_list in Hx. by apply (b_groups _ _ Hb ws). }
  cbn. eexists. split; [done|]. split; [|done]. split; [done|]. simpl.
  intros _ ws g grp Hws Hg. eapply (Hclosed ws); [|done]. rewrite Hord. apply elem_of_map_to_list.
  by rewrite Hgs in Hws.
Qed.

(** ** Steps of the workers *)

Lemma goto_creates (ts : list worker) i t t' g :
  ts !! i = Some t → creates_on g t' = false →
  count (creates_on g) ts = 0%nat → count (creates_on g) (<[i:=t']> ts) = 0%nat.
Proof. intros Hi Hf Hz. pose proof (count_insert (creates_on g) ts i t t' Hi) as Hc. rewrite Hf in Hc. lia. Qed.

(** Only the position of one worker changes. *)
Lemma goto_ok r ts i t t' :
  base r ts → ts !! i = Some t →
  (∀ g, creates_on g t' = creates_on g t ∧ closes_group g t' = closes_group g t) →
  (∀ e, runtimes_on e t' = runtimes_on e t ∧ closes_session e t' = closes_session e t) →
  worker_ok r (<[i:=t']> ts) t' → base r (<[i:=t']> ts).
Proof.
  intros [BG BE BGS BES BS BI BH BC BW] Hi Hg He Ht'.
  assert (same_on_groups ts (<[i:=t']> ts)) as Sg
    by (intros g; destruct (Hg g); split; by eapply count_goto).
  assert (same_on_sessions ts (<[i:=t']> ts)) as Ss
    by (intros e; destruct (He e); split; by eapply count_goto).
  split; try done.
  - intros g grp Hgrp. destruct (Sg g) as [-> ->]. by apply BG.
  - intros e en Hen. destruct (Ss e) as [-> ->]. by apply BE.
  - destruct (heap_refl r) as (H1 & H2 & H3).
    eapply workers_update; [exact BW| |exact H1|exact H2|apply H3|].
    + intros j u Hj. rewrite <- (app_nil_r (<[i:=t']> ts)) in Hj.
      destruct (goto_cases _ _ _ _ _ _ _ Hi Hj) as [?|[->|Hx]]; [by left|by right|].
      by apply elem_of_nil in Hx.
    + intros g _ Hz. by destruct (Sg g) as [-> _].
Qed.

(** The workers after one of them ends while a group, or an entry, changes. *)
Lemma workers_done r r' ts i t t' :
  workers_ok r ts → ts !! i = Some t → (∀ g, creates_on g t' = false) →
  worker_ok r' (<[i:=t']> ts) t' →
  (∀ g, is_Some (r_groupHeap r !! g) → is_Some (r_groupHeap r' !! g)) →
  (∀ e en, r_entryHeap r !! e = Some en →
     ∃ en', r_entryHeap r' !! e = Some en' ∧ en_group en = en_group en' ∧ (closedp en → closedp en')) →
  (∀ e en', r_entryHeap r' !! e = Some en' → is_Some (r_entryHeap r !! e)) →
  workers_ok r' (<[i:=t']> ts).
Proof.
  intros Hw Hi Hcr Ht' Hg He Hn. eapply workers_update; [exact Hw| |exact Hg| | |].
  - intros j u Hj. rewrite <- (app_nil_r (<[i:=t']> ts)) in Hj.
    destruct (goto_cases _ _ _ _ _ _ _ Hi Hj) as [?|[->|Hx]]; [by left|by right|].
    by apply elem_of_nil in Hx.
  - intros e en Hen. destruct (He _ _ Hen) as (en' & ? & _ & ?). by exists en'.
  - intros e en' Hen'. left. destruct (Hn _ _ Hen') as [en Hen]. exists en.
    destruct (He _ _ Hen) as (en2 & Hen2 & ? & ?). assert (en2 = en') as -> by congruence. done.
  - intros g _ Hz. by eapply goto_creates.
Qed.

Lemma set_group_dom g grp r g' :
  is_Some (r_groupHeap r !! g') → is_Some (r_groupHeap (set_group g grp r) !! g').
Proof.
  intros Hs. simpl. destruct (decide (g' = g)) as [->|]; [rewrite lookup_insert_eq; by eexists|].
  by rewrite lookup_insert_ne.
Qed.

Lemma set_group_id g grp r : r_groupHeap r !! g = Some grp →
  set_group g (mkGroup (g_gate grp) (g_sessions grp)) r = r.
Proof.
  intros Hg. unfold set_group. destruct grp; simpl. rewrite insert_id by done. by destruct r.
Qed.

(** A worker that created in group [g] leaves it. *)
Lemma created_step w i ws g : inv w → wd_workers w !! i = Some (WCreated ws g) →
  ∃ w', step_worker i (WCreated ws g) Proceed w = Ret w' ∧ inv w'.
Proof.
  intros [Hb Hsh] Hi. set (r := wd_registry w) in *. set (ts := wd_workers w) in *.
  destruct (b_workers _ _ Hb _ _ Hi) as [grp Hg].
  destruct (b_group _ _ Hb _ _ Hg) as (_ & Hwf & Hgi).
  pose proof (gs_end_create_ok _ Hwf) as He.
  assert (creates_on g (WCreated ws g) = true) as Hself by (simpl; by rewrite bool_decide_eq_true_2).
  pose proof (count_pos _ _ _ _ Hi Hself) as Hpos.
  assert (∀ f : worker → bool, f WDone = false → (count f (<[i:=WDone]> ts) +
    (if f (WCreated ws g) then 1 else 0) = count f ts)%nat) as Hcnt.
  { intros f Hf. pose proof (count_insert f ts i _ WDone Hi) as Hc. rewrite Hf in Hc. lia. }
  pose proof (Hcnt (creates_on g) eq_refl) as Hc1. rewrite Hself in Hc1.
  pose proof (Hcnt (closes_group g) eq_refl) as Hc2. simpl in Hc2.
  assert (∃ idle gate, gs_EndCreate (g_gate grp) = Ret (idle, gate) ∧ gs_wf gate ∧
    gate_inv (gs_abs gate) (count (creates_on g) (<[i:=WDone]> ts))
      (count (closes_group g) (<[i:=WDone]> ts)) ∧
    (gs_Accepting (g_gate grp) = false → gs_Accepting gate = false) ∧
    (∀ err, gs_abs gate ≠ AClosed err)) as (idle & gate & Heq & Wg & Gi & Hacc & Hnc).
  { destruct (gs_abs (g_gate grp)) as [n|n|err] eqn:Ea; simpl in Hgi, He.
    - destruct Hgi as [-> Hz]. destruct (count (creates_on g) ts) as [|m] eqn:Em; [lia|].
      simpl in He. destruct He as (g' & -> & Wg & Ag). exists (bool_decide (m = 0%nat)), g'.
      rewrite !gs_accepting_ok, Ag, Ea by done. simpl. split_and!; try done; lia.
    - destruct Hgi as [-> Hz]. destruct (count (creates_on g) ts) as [|m] eqn:Em; [lia|].
      simpl in He. destruct He as (g' & -> & Wg & Ag). exists (bool_decide (m = 0%nat)), g'.
      rewrite !gs_accepting_ok, Ag, Ea by done. simpl. split_and!; try done; lia.
    - lia. }
  simpl. unfold finishCreate, load_group, group_finishCreate. fold r. rewrite Hg. cbn. rewrite Heq. cbn.
  set (r1 := set_group g (mkGroup gate (g_sessions grp)) r).
  assert (base r1 (<[i:=WDone]> ts)) as Hb1.
  { apply (update_group r ts); try done.
    - intros g' Hne. pose proof (Hcnt (creates_on g') eq_refl) as H1.
      pose proof (Hcnt (closes_group g') eq_refl) as H2. simpl in H1, H2.
      rewrite bool_decide_eq_false_2 in H1 by done. lia.
    - intros e. split; by eapply count_goto.
    - intros err Hx. by destruct (Hnc err).
    - eapply workers_done; [apply (b_workers _ _ Hb)|done|done|done| | |].
      + intros g'. apply set_group_dom.
      + intros e en Hen. by exists en.
      + intros e en Hen. by exists en. }
  assert (∀ r2, r_closed r2 = r_closed r → r_groupHeap r2 = r_groupHeap r1 →
    (∀ ws' g', r_groups r2 !! ws' = Some g' → r_groups r !! ws' = Some g') → shut r2) as Hsh'.
  { intros r2 Hc Hh Hm. apply (shut_mono r); [done|done|]. intros ws' g' grp' Hws' Hg'.
    split; [by apply Hm|]. rewrite Hh in Hg'. simpl in Hg'. destruct (decide (g' = g)) as [->|Hne].
    - rewrite lookup_insert_eq in Hg'. inv Hg'. by exists grp.
    - rewrite lookup_insert_ne in Hg' by done. by exists grp'. }
  destruct (_ && bool_decide (r_groups r !! ws = Some g)) eqn:Hd.
  - apply andb_true_iff in Hd as [Hd Hin]. apply bool_decide_eq_true in Hin.
    apply andb_true_iff in Hd as [_ Hemp]. apply bool_decide_eq_true in Hemp.
    eexists. split; [done|]. split; [|apply Hsh'; try done; simpl; by intros ws' g' [_ ?]%lookup_delete_Some].
    simpl. apply (delete_group r1 _ ws g); [done|done|]. intros e en Hen Hgr.
    destruct (closedp_dec en) as [?|Hncl]; [done|].
    destruct (b_home _ _ Hb _ _ Hen Hncl) as (_ & _ & grp2 & Hg2 & Hs).
    assert (grp2 = grp) as -> by congruence. rewrite Hemp in Hs. by rewrite lookup_empty in Hs.
  - eexists. split; [done|]. split; [done|by apply Hsh'].
Qed.

(** The step blocked, or it kept the invariant; it did not panic. *)
Definition keeps (o : outcome world) : Prop :=
  match o with Ret w => inv w | Block => True | Panic _ => False end.

Lemma id_unused_spec id r : id_unused id r = true →
  ∀ e en, r_entryHeap r !! e = Some en → en_id en ≠ id.
Proof.
  unfold id_unused. rewrite forallb_forall. intros Hall e en He Hid.
  specialize (Hall (e, en)). simpl in Hall. rewrite bool_decide_eq_true_2 in Hall by done.
  assert (In (e, en) (map_to_list (r_entryHeap r))) as Hin
    by (apply list_elem_of_In, elem_of_map_to_list; done).
  by specialize (Hall Hin).
Qed.

Lemma create_step w i ws g a : inv w → wd_workers w !! i = Some (WCreate ws g) →
  keeps (step_worker i (WCreate ws g) a w).
Proof.
  intros [Hb Hsh] Hi. set (r := wd_registry w) in *.
  destruct (b_workers _ _ Hb _ _ Hi) as [grp Hg].
  assert (∀ r', base r' (wd_workers w) → shut r' → is_Some (r_groupHeap r' !! g) →
    inv (goto i (WCreated ws g) r' w)) as Hgo.
  { intros r' Hb' Hs' Hg'. split; [|done]. by apply (goto_ok _ _ i (WCreate ws g)). }
  assert (is_Some (r_groupHeap r !! g)) as Hgs by by eexists.
  destruct a as [ctxErr id| | |order|err]; try done; simpl; [|by apply Hgo].
  fold r. destruct (id_unused id r) eqn:Hid; [|done].
  unfold commitCreate, load_group, group_add, group_accepting. rewrite Hg. cbn.
  destruct (r_closed r || _ || _) eqn:Hrej; cbn; [by apply Hgo|].
  destruct ctxErr as [err|]; cbn; [by apply Hgo|].
  apply orb_false_iff in Hrej as [[Hcl Hws]%orb_false_iff Hacc]. apply negb_false_iff in Hacc.
  apply bool_decide_eq_false, dec_stable in Hws. rewrite Hacc. cbn. apply Hgo.
  - apply (commit_ok r _ ws g grp id); try done. by apply id_unused_spec.
  - intros Hc. simpl in Hc. congruence.
  - simpl. rewrite lookup_insert_eq. by eexists.
Qed.

(** One worker on session [e] moves while the session's entry changes. *)
Lemma entry_step r ts i t t' e en en' :
  base r ts → ts !! i = Some t → r_entryHeap r !! e = Some en →
  (en_id en', en_workspace en', en_group en') = (en_id en, en_workspace en, en_group en) →
  (closedp en → closedp en') → gs_wf (en_children en') →
  entry_inv (en_state en') (gs_abs (en_children en')) (count (runtimes_on e) (<[i:=t']> ts))
    (count (closes_session e) (<[i:=t']> ts)) →
  (∀ e', e' ≠ e → runtimes_on e' t' = runtimes_on e' t ∧ closes_session e' t' = closes_session e' t) →
  (∀ g, creates_on g t' = creates_on g t ∧ closes_group g t' = closes_group g t) →
  (∀ g, creates_on g t' = false) →
  worker_ok (set_entry e en' r) (<[i:=t']> ts) t' →
  base (set_entry e en' r) (<[i:=t']> ts).
Proof.
  intros Hb Hi He Heq Hcl Hwf Hei Hoe Hog Hcr Ht'. apply (update_entry r ts _ e en); try done.
  - intros e' Hne. destruct (Hoe e' Hne). split; by eapply count_goto.
  - intros g. destruct (Hog g). split; by eapply count_goto.
  - injection Heq as _ _ Hgr. eapply workers_done; [apply (b_workers _ _ Hb)|done|done|done|done| |]; simpl.
    + intros e1 en1 H1. destruct (decide (e1 = e)) as [->|Hne].
      * rewrite lookup_insert_eq. exists en'. simplify_eq. done.
      * rewrite lookup_insert_ne by done. by exists en1.
    + intros e1 en1 H1. destruct (decide (e1 = e)) as [->|Hne]; [by exists en|].
      rewrite lookup_insert_ne in H1 by done. by exists en1.
Qed.

Lemma runtime_step w i e a : inv w → wd_workers w !! i = Some (WRuntime e) →
  keeps (step_worker i (WRuntime e) a w).
Proof.
  intros [Hb Hsh] Hi. destruct a; try done. simpl. set (r := wd_registry w) in *.
  destruct (b_workers _ _ Hb _ _ Hi) as [en He].
  destruct (b_entry _ _ Hb _ _ He) as (_ & Hwf & _ & Hei).
  assert (runtimes_on e (WRuntime e) = true) as Hself by (simpl; by rewrite bool_decide_eq_true_2).
  pose proof (count_pos _ _ _ _ Hi Hself) as Hpos.
  pose proof (count_insert (runtimes_on e) _ i _ WDone Hi) as Hc1. rewrite Hself in Hc1.
  pose proof (count_insert (closes_session e) _ i _ WDone Hi) as Hc2. simpl in Hc1, Hc2.
  pose proof (gs_end_create_ok _ Hwf) as Hend.
  unfold finishRuntimeCreate, load_entry. rewrite He. cbn.
  assert (∃ idle gate, gs_EndCreate (en_children en) = Ret (idle, gate) ∧ gs_wf gate ∧
    entry_inv (en_state en) (gs_abs gate) (count (runtimes_on e) (<[i:=WDone]> (wd_workers w)))
      (count (closes_session e) (<[i:=WDone]> (wd_workers w))) ∧ ¬ closedp en)
    as (idle & gate & -> & Wg & Gi & Hnc).
  { destruct (en_state en); simpl in Hei.
    - destruct Hei as [Ha Hz]. rewrite Ha in Hend.
      destruct (count (runtimes_on e) (wd_workers w)) as [|m] eqn:Em; [lia|]. simpl in Hend.
      destruct Hend as (g' & -> & Wg & Ag). eexists _, g'. split; [done|]. rewrite Ag.
      split_and!; [done|simpl; split; [f_equal|]; lia|]. intros [err Herr]. congruence.
    - destruct Hei as [[Ha Hz]|(err & Ha & Hz & _)]; [|lia]. rewrite Ha in Hend.
      destruct (count (runtimes_on e) (wd_workers w)) as [|m] eqn:Em; [lia|]. simpl in Hend.
      destruct Hend as (g' & -> & Wg & Ag). eexists _, g'. split; [done|]. rewrite Ag.
      split_and!; [done|simpl; left; split; [f_equal|]; lia|]. intros [err Herr]. congruence. }
  cbn. split; [|done]. apply (entry_step _ _ _ (WRuntime e) _ _ en); try done.
  intros e' Hne. simpl. by rewrite bool_decide_eq_false_2.
Qed.

Lemma session_step w i e a : inv w → wd_workers w !! i = Some (WSession e) →
  keeps (step_worker i (WSession e) a w).
Proof.
  intros [Hb Hsh] Hi. destruct a as [| | |order|err]; try done. simpl. set (r := wd_registry w) in *.
  destruct (b_workers _ _ Hb _ _ Hi) as [en He].
  destruct (b_entry _ _ Hb _ _ He) as (_ & Hwf & _ & Hei).
  assert (closes_session e (WSession e) = true) as Hself by (simpl; by rewrite bool_decide_eq_true_2).
  pose proof (count_pos _ _ _ _ Hi Hself) as Hpos.
  pose proof (count_insert (closes_session e) _ i _ (WSessionEnd e) Hi) as Hc1. rewrite Hself in Hc1.
  pose proof (count_insert (runtimes_on e) _ i _ (WSessionEnd e) Hi) as Hc2. simpl in Hc1, Hc2.
  unfold load_entry. rewrite He. cbn.
  destruct (en_state en) eqn:Hst; simpl in Hei; [lia|].
  destruct Hei as [[Ha Hz]|(err' & Ha & _ & Hz)]; [|lia].
  rewrite gs_idle_ok, Ha by done. simpl. case_bool_decide as Hn; [|done].
  pose proof (gs_finish_close_ok err _ Hwf) as Hf. rewrite Ha, Hn in Hf. simpl in Hf.
  destruct Hf as (gate & -> & Wg & Ag). cbn. split; [|done].
  assert (closedp (set_children gate en)) as Hcl by (by exists err).
  apply (entry_step _ _ _ (WSession e) _ _ en); try done.
  - simpl. rewrite Hst, Ag. simpl. right. exists err. split_and!; [done|lia..].
  - intros e' Hne. simpl. by rewrite bool_decide_eq_false_2.
  - simpl. rewrite lookup_insert_eq. by eexists.
Qed.

(** Every session of a group without sessions is closed. *)
Lemma empty_group_closed r ts g grp :
  base r ts → r_groupHeap r !! g = Some grp → g_sessions grp = ∅ →
  ∀ e en, r_entryHeap r !! e = Some en → en_group en = g → closedp en.
Proof.
  intros Hb Hg Hemp e en He Hgr. destruct (closedp_dec en) as [?|Hncl]; [done|].
  destruct (b_home _ _ Hb _ _ He Hncl) as (_ & _ & grp2 & Hg2 & Hs).
  assert (grp2 = grp) as -> by congruence. rewrite Hemp in Hs. by rewrite lookup_empty in Hs.
Qed.

(** [finishClose] of a closed session, for any workers. *)
Lemma finishClose_ok r ts e en :
  base r ts → shut r → r_entryHeap r !! e = Some en → closedp en →
  ∃ r', finishClose e r = Ret r' ∧ base r' ts ∧ shut r'.
Proof.
  intros Hb Hsh He Hcl. unfold finishClose, load_entry. rewrite He. cbn.
  set (r1 := if bool_decide (r_entries r !! en_id en = Some e) then _ else r).
  assert (base r1 ts ∧ shut r1 ∧ r_groups r1 = r_groups r ∧ r_groupHeap r1 = r_groupHeap r ∧
          r_entryHeap r1 = r_entryHeap r) as (Hb1 & Hsh1 & Hgs1 & Hgh1 & Heh1).
  { subst r1. case_bool_decide as Hid; [|done]. split_and!; try done. by eapply delete_entry. }
  clearbody r1. destruct (r_groups r1 !! en_workspace en) as [g|] eqn:Hws; [|by exists r1].
  destruct (b_groups _ _ Hb1 _ _ Hws) as [grp Hg].
  unfold load_group, group_removeCompleted, group_accepting. rewrite Hg. cbn.
  set (sessions := if gs_Accepting (g_gate grp) && _ then _ else _).
  set (r2 := set_group g (mkGroup (g_gate grp) sessions) r1).
  assert (base r2 ts) as Hb2.
  { subst r2 sessions. destruct (gs_Accepting (g_gate grp) && _) eqn:Hd.
    - apply andb_true_iff in Hd as [_ Hd]. apply bool_decide_eq_true in Hd.
      apply (delete_session _ _ _ _ e); try done. congruence.
    - by rewrite set_group_id. }
  assert (∀ r3, r_closed r3 = r_closed r1 → r_groupHeap r3 = r_groupHeap r2 →
    (∀ ws' g', r_groups r3 !! ws' = Some g' → r_groups r1 !! ws' = Some g') → shut r3) as Hsh'.
  { intros r3 Hc Hh Hm. apply (shut_mono r1); [done|done|]. intros ws' g' grp' Hws' Hg'.
    split; [by apply Hm|]. rewrite Hh in Hg'. simpl in Hg'. destruct (decide (g' = g)) as [->|Hne].
    - rewrite lookup_insert_eq in Hg'. inv Hg'. by exists grp.
    - rewrite lookup_insert_ne in Hg' by done. by exists grp'. }
  case_match eqn:Hd.
  - apply andb_true_iff in Hd as [Hd Hin]. apply andb_true_iff in Hd as [_ Hemp].
    apply bool_decide_eq_true in Hemp. eexists. split; [done|].
    split; [|apply Hsh'; try done; simpl; by intros ws' g' [_ ?]%lookup_delete_Some].
    apply (delete_group r2 _ _ g); [done|done|]. apply (empty_group_closed r2 ts g (mkGroup (g_gate grp) sessions)).
    + done.
    + simpl. by rewrite lookup_insert_eq.
    + done.
  - eexists. split; [done|]. split; [done|by apply Hsh'].
Qed.

Lemma session_end_step w i e a : inv w → wd_workers w !! i = Some (WSessionEnd e) →
  keeps (step_worker i (WSessionEnd e) a w).
Proof.
  intros [Hb Hsh] Hi. destruct a; try done.
  destruct (b_workers _ _ Hb _ _ Hi) as (en & He & Hcl). simpl.
  assert (base (wd_registry w) (<[i:=WDone]> (wd_workers w))) as Hb' by (by apply (goto_ok _ _ i (WSessionEnd e))).
  destruct (finishClose_ok _ _ e en Hb' Hsh He Hcl) as (r' & -> & ? & ?). by cbn.
Qed.

(** The workspace worker starts closing once the creators are gone. *)
Lemma workspace_step w i ws g a : inv w → wd_workers w !! i = Some (WWorkspace ws g) →
  keeps (step_worker i (WWorkspace ws g) a w).
Proof.
  intros [Hb Hsh] Hi. destruct a; try done. simpl. set (r := wd_registry w) in *.
  destruct (b_workers _ _ Hb _ _ Hi) as [grp Hg]. destruct (b_group _ _ Hb _ _ Hg) as (_ & Hwf & Hgi).
  assert (closes_group g (WWorkspace ws g) = true) as Hself by (simpl; by rewrite bool_decide_eq_true_2).
  pose proof (count_pos _ _ _ _ Hi Hself) as Hpos.
  unfold load_group. rewrite Hg. cbn. rewrite gs_idle_ok by done.
  destruct (gs_abs (g_gate grp)) as [n|n|err] eqn:Ea; simpl in Hgi; [lia| |lia].
  simpl. case_bool_decide as Hn; [|done]. destruct Hgi as [Hn' Hc1]. simpl.
  case_bool_decide as Hord; [|done]. split; [|done].
  apply (goto_ok _ _ i (WWorkspace ws g)); try done. simpl.
  split; [by exists grp|]. split; [eapply goto_creates; [done..|lia]|]. split.
  - apply Forall_forall. intros e Hin. rewrite Hord in Hin. apply list_elem_of_fmap in Hin as ([id e'] & -> & Hin).
    apply elem_of_map_to_list in Hin. destruct (b_sessions _ _ Hb _ _ _ _ Hg Hin) as (en & ? & _).
    by exists en.
  - intros e en He Hgr Hncl. destruct (b_home _ _ Hb _ _ He Hncl) as (_ & _ & grp2 & Hg2 & Hs).
    assert (grp2 = grp) as -> by congruence. rewrite Hord. apply list_elem_of_fmap. exists (en_id en, e).
    split; [done|]. by apply elem_of_map_to_list.
Qed.

Lemma draining_goto r ts i t t' g todo :
  ts !! i = Some t → (∀ g, creates_on g t' = false) → draining r ts g todo →
  draining r (<[i:=t']> ts) g todo.
Proof. intros Hi Hcr (H1 & H2 & H3 & H4). split_and!; try done. by eapply goto_creates. Qed.

Lemma closing_step w i ws g e todo : inv w → wd_workers w !! i = Some (WClosing ws g (e :: todo)) →
  keeps (step_worker i (WClosing ws g (e :: todo)) Proceed w).
Proof.
  intros [Hb Hsh] Hi. simpl. set (r := wd_registry w) in *.
  pose proof (b_workers _ _ Hb _ _ Hi) as Hd. pose proof Hd as (_ & _ & Hall & _).
  apply Forall_cons in Hall as [[en He] _]. unfold load_entry. rewrite He. cbn.
  assert (base r (<[i:=WJoin ws g e todo]> (wd_workers w))) as Hb1.
  { apply (goto_ok _ _ i (WClosing ws g (e :: todo))); try done. simpl. by eapply draining_goto. }
  destruct (beginClose_ok _ _ (en_id en) (Some e) Hb1) as (found & r' & -> & Hc & Hg & Hgh & _ & _ & Hf).
  { intros e' [= ->]. by exists en. }
  cbn. assert (shut r') as Hsh' by (unfold shut; by rewrite Hc, Hg, Hgh).
  destruct found as [[e' owner]|].
  - destruct Hf as ([en' He'] & Hwhere & Hno & Hyes).
    assert (e' = e) as ->.
    { destruct Hwhere as [Hin|[= ->]]; [|done]. destruct (b_entries _ _ Hb _ _ Hin) as (en2 & H2 & Hid2).
      by eapply (b_ids _ _ Hb). }
    destruct owner.
    + split; [|done]. simpl. specialize (Hyes [] eq_refl). rewrite app_nil_r in Hyes. by apply Hyes.
    + rewrite (Hno eq_refl) in *. split; done.
  - by destruct Hf.
Qed.

Lemma join_step w i ws g e todo a : inv w → wd_workers w !! i = Some (WJoin ws g e todo) →
  keeps (step_worker i (WJoin ws g e todo) a w).
Proof.
  intros [Hb Hsh] Hi. destruct a; try done. simpl. set (r := wd_registry w) in *.
  pose proof (b_workers _ _ Hb _ _ Hi) as (D1 & D2 & D3 & D4).
  apply Forall_cons in D3 as [[en He] D3]. unfold session_closed. rewrite He.
  destruct (gs_abs (en_children en)) as [n|n|err] eqn:Ea; simpl; [done..|]. split; [|done].
  apply (goto_ok _ _ i (WJoin ws g e todo)); try done. simpl. split_and!; try done.
  - by eapply goto_creates.
  - intros e' en' He' Hgr Hncl. specialize (D4 e' en' He' Hgr Hncl).
    apply elem_of_cons in D4 as [->|?]; [|done]. destruct Hncl. exists err. congruence.
Qed.

(** The workspace worker publishes the result and leaves. *)
Lemma closed_step w i ws g err : inv w → wd_workers w !! i = Some (WClosing ws g []) →
  keeps (step_worker i (WClosing ws g []) (Result err) w).
Proof.
  intros [Hb Hsh] Hi. simpl. set (r := wd_registry w) in *. set (ts := wd_workers w) in *.
  pose proof (b_workers _ _ Hb _ _ Hi) as ([grp Hg] & D2 & _ & D4).
  assert (∀ e en, r_entryHeap r !! e = Some en → en_group en = g → closedp en) as Hall.
  { intros e en He Hgr. destruct (closedp_dec en) as [?|Hn]; [done|].
    specialize (D4 e en He Hgr Hn). by apply elem_of_nil in D4. }
  unfold finishWorkspaceClose. set (r1 := if bool_decide _ then _ else r).
  assert (base r1 ts ∧ shut r1 ∧ r_groupHeap r1 = r_groupHeap r ∧ r_entryHeap r1 = r_entryHeap r)
    as (Hb1 & Hsh1 & Hgh1 & Heh1).
  { subst r1. case_bool_decide as Hid; [|done]. split_and!; try done; [by eapply delete_group|].
    apply (shut_mono r); try done. simpl. intros ws' g' grp' [_ ?]%lookup_delete_Some ?. eauto. }
  clearbody r1. unfold load_group, group_finishClose. rewrite Hgh1, Hg. cbn.
  destruct (b_group _ _ Hb _ _ Hg) as (_ & Hwf & Hgi).
  assert (closes_group g (WClosing ws g []) = true) as Hself by (simpl; by rewrite bool_decide_eq_true_2).
  pose proof (count_pos _ _ _ _ Hi Hself) as Hpos.
  pose proof (gs_finish_close_ok err _ Hwf) as Hf.
  destruct (gs_abs (g_gate grp)) as [n|n|err'] eqn:Ea; simpl in Hgi; [lia| |lia].
  destruct Hgi as [Hn Hc]. rewrite D2 in Hn. subst n. simpl in Hf.
  destruct Hf as (gate & -> & Wg & Ag). cbn.
  pose proof (count_insert (closes_group g) _ i _ WDone Hi) as Hc1. rewrite Hself in Hc1. simpl in Hc1.
  split.
  - apply (update_group r1 ts); try done; [by rewrite Hgh1| | | | |].
    + rewrite Ag. simpl. split; [by eapply goto_creates|]. unfold ts in *. lia.
    + intros g' Hne. split; eapply count_goto; try done. simpl. by rewrite bool_decide_eq_false_2.
    + intros e. split; by eapply count_goto.
    + intros err' _. by rewrite Heh1.
    + eapply workers_done; [apply (b_workers _ _ Hb1)|done|done|done| | |].
      * intros g'. apply set_group_dom.
      * intros e en Hen. by exists en.
      * intros e en Hen. by exists en.
  - apply (shut_mono r1); [done|done|]. simpl. intros ws' g' grp' Hws' Hg'. split; [done|].
    destruct (decide (g' = g)) as [->|Hne].
    + rewrite lookup_insert_eq in Hg'. inv Hg'. exists grp. split; [by rewrite Hgh1|]. intros _.
      simpl. by rewrite gs_accepting_ok, Ag.
    + rewrite lookup_insert_ne in Hg' by done. by exists grp'.
Qed.

Lemma act_keeps a w : inv w → keeps (act a w).
Proof.
  intros Hinv. destruct a as [ws|id|id|ws|order|i a].
  - destruct (create_session_step w ws Hinv) as (w' & -> & ?). done.
  - destruct (create_runtime_step w id Hinv) as (w' & -> & ?). done.
  - destruct (close_session_step w id Hinv) as (w' & -> & ?). done.
  - destruct (close_workspace_step w ws Hinv) as (w' & -> & ?). done.
  - destruct (decide (order ≡ₚ map_to_list (r_groups (wd_registry w)))) as [Ho|Ho].
    + destruct (shutdown_step w order Hinv Ho) as (w' & -> & ? & _). done.
    + unfold act. by rewrite bool_decide_eq_false_2 by done.
  - unfold act. destruct (wd_workers w !! i) as [t|] eqn:Hi; [|done].
    destruct t as [ws g|ws g|e|e|e|ws g|ws g [|e todo]|ws g e todo|].
    + by apply create_step.
    + destruct a; try done. destruct (created_step w i ws g Hinv Hi) as (w' & -> & ?). done.
    + by apply runtime_step.
    + by apply session_step.
    + by apply session_end_step.
    + by apply workspace_step.
    + destruct a; try done. by apply closed_step.
    + destruct a; try done. by apply closing_step.
    + by apply join_step.
    + done.
Qed.

Lemma registry_initial_inv : inv initial.
Proof. by split; [split|]. Qed.

Lemma registry_schedule_inv actions : ∀ w, inv w → ∃ w', schedule actions w = Ret w' ∧ inv w'.
Proof.
  induction actions as [|a actions IH]; intros w Hw; simpl; [by exists w|].
  unfold attempt. pose proof (act_keeps a w Hw) as Hk. destruct (act a w) as [w'|m|]; simpl in *; [|done|]; by apply IH.
Qed.

(** ** Claims *)

(** Whatever calls the clients make and however the workers are scheduled,
    no registry operation panics and no pointer dangles: the gates are never
    ended or closed twice.  In every reachable state a session that [active]
    finds accepts new runtimes, and no two workers close the same session or
    the same workspace. *)
Theorem registry_safe actions :
  ∃ w, schedule actions initial = Ret w ∧
    (∀ id e, active id (wd_registry w) = Some e →
       ∃ en, r_entryHeap (wd_registry w) !! e = Some en ∧ en_id en = id ∧
             gs_Accepting (en_children en) = true) ∧
    (∀ e, is_Some (r_entryHeap (wd_registry w) !! e) → (count (closes_session e) (wd_workers w) ≤ 1)%nat) ∧
    (∀ g, is_Some (r_groupHeap (wd_registry w) !! g) → (count (closes_group g) (wd_workers w) ≤ 1)%nat).
Proof.
  destruct (registry_schedule_inv actions initial registry_initial_inv) as (w & Hw & Hb & _). exists w.
  split; [done|]. split_and!.
  - intros id e Ha. unfold active in Ha. destruct (r_entries _ !! id) as [e'|] eqn:Hid; [|done].
    destruct (b_entries _ _ Hb _ _ Hid) as (en & He & Hen). rewrite He in Ha.
    case_bool_decide as Hst; [|done]. inv Ha. exists en. split_and!; try done.
    destruct (b_entry _ _ Hb _ _ He) as (_ & Hwf & _ & Hei). rewrite Hst in Hei.
    destruct Hei as [Hei _]. by rewrite gs_accepting_ok, Hei.
  - intros e [en He]. destruct (b_entry _ _ Hb _ _ He) as (_ & _ & _ & Hei).
    destruct (en_state en); simpl in Hei; [lia|]. destruct Hei as [?|(? & ?)]; lia.
  - intros g [grp Hg]. destruct (b_group _ _ Hb _ _ Hg) as (_ & _ & Hgi).
    destruct (gs_abs (g_gate grp)); simpl in Hgi; lia.
Qed.

(** A workspace whose close result is published has no live session left:
    every session ever committed to its group is closed. *)
Theorem workspace_close_complete actions w g grp err e en :
  schedule actions initial = Ret w →
  r_groupHeap (wd_registry w) !! g = Some grp → gs_abs (g_gate grp) = AClosed err →
  r_entryHeap (wd_registry w) !! e = Some en → en_group en = g →
  session_closed e (wd_registry w) = true ∧ count (runtimes_on e) (wd_workers w) = 0%nat.
Proof.
  intros Hs Hg Ha He Hgr. destruct (registry_schedule_inv actions initial registry_initial_inv) as (w' & Hw & Hb & _).
  assert (w' = w) as -> by congruence. destruct (b_closed _ _ Hb _ _ _ Hg Ha _ _ He Hgr) as [err' Hc].
  unfold session_closed. rewrite He, Hc. split; [done|].
  destruct (b_entry _ _ Hb _ _ He) as (_ & _ & _ & Hei). rewrite Hc in Hei.
  destruct (en_state en); simpl in Hei; [by destruct Hei|].
  destruct Hei as [[? _]|(? & _ & ? & _)]; done.
Qed.

(** Shutdown drains: once the registry is shut down and every worker has
    returned, every session that was ever created is closed, and nothing is
    admitted any more. *)
Theorem shutdown_drains actions w :
  schedule actions initial = Ret w → r_closed (wd_registry w) = true →
  Forall (λ t, t = WDone) (wd_workers w) →
  (∀ e, is_Some (r_entryHeap (wd_registry w) !! e) → session_closed e (wd_registry w) = true) ∧
  (∀ ws, act (ACreateSession ws) w = Ret w) ∧ (∀ id, act (ACreateRuntime id) w = Ret w).
Proof.
  intros Hs Hcl Hd. destruct (registry_schedule_inv actions initial registry_initial_inv) as (w' & Hw & Hb & Hsh).
  assert (w' = w) as -> by congruence. rewrite Forall_lookup in Hd. split_and!.
  - intros e [en He]. unfold session_closed. rewrite He.
    destruct (closedp_dec en) as [[err ->]|Hn]; [done|exfalso].
    destruct (b_home _ _ Hb _ _ He Hn) as (Hws & _ & grp & Hg & _).
    pose proof (Hsh Hcl _ _ _ Hws Hg) as Hacc.
    destruct (b_group _ _ Hb _ _ Hg) as (_ & Hwf & Hgi). rewrite gs_accepting_ok in Hacc by done.
    rewrite (count_fresh (closes_group (en_group en))) in Hgi
      by (intros i t Hi; by rewrite (Hd i t Hi)).
    destruct (gs_abs (g_gate grp)) as [n|n|err] eqn:Ea; simpl in *; [done|lia|].
    by apply Hn, (b_closed _ _ Hb _ _ _ Hg Ea e en).
  - intros ws. unfold act, beginCreate. rewrite Hcl. cbn. unfold spawn. rewrite app_nil_r. by destruct w.
  - intros ws. unfold act, beginRuntimeCreate. rewrite Hcl. cbn. unfold spawn. rewrite app_nil_r. by destruct w.
Qed.
End registry.

(** Two sessions in one workspace; the second has a runtime being created when
    the workspace is closed, and the daemon shuts down. *)
Definition sample_actions : list action :=
  [ACreateSession "ws"; AStep 0 (Commit None "a"); AStep 0 Proceed;
   ACreateSession "ws"; AStep 1 (Commit None "b"); AStep 1 Proceed;
   ACreateRuntime "b"; ACloseSession "a"; ACloseWorkspace "ws"; AShutdown [("ws", 0%nat)];
   AStep 3 (Result None); AStep 3 Proceed;
   AStep 2 Proceed; AStep 4 (Retained [2; 1]%nat); AStep 4 Proceed; AStep 5 (Result None);
   AStep 5 Proceed; AStep 4 Proceed; AStep 4 Proceed; AStep 4 Proceed; AStep 4 (Result None)].

Definition final_world (actions : list action) : world (G := Gate) :=
  match schedule actions initial with Ret w => w | _ => initial end.

Lemma workspace_close_complete_witness :
  ∃ w, schedule (G := Gate) sample_actions initial = Ret w ∧
    session_closed 1 (wd_registry w) = true ∧ count (runtimes_on 1) (wd_workers w) = 0%nat.
Proof.
  exists (final_world sample_actions). split; [vm_compute; reflexivity|].
  eapply (workspace_close_complete sample_actions _ 0 _ None 1).
  - vm_compute; reflexivity.
  - vm_compute; reflexivity.
  - vm_compute; reflexivity.
  - vm_compute; reflexivity.
  - vm_compute; reflexivity.
Defined.

Lemma shutdown_drains_witness :
  ∃ w, schedule (G := Gate) sample_actions initial = Ret w ∧
    (∀ e, is_Some (r_entryHeap (wd_registry w) !! e) → session_closed e (wd_registry w) = true).
Proof.
  exists (final_world sample_actions). split; [vm_compute; reflexivity|].
  apply (shutdown_drains sample_actions).
  - vm_compute; reflexivity.
  - vm_compute; reflexivity.
  - vm_compute. repeat constructor.
Defined.
