(* ===== verification/ExecManager.v ===== *)
(** * The execution manager

    [internal/exec/execution_registry.go] and the request entry points and
    teardown workers of [internal/exec/manager.go], on top of the session
    registry ([ExecRegistry]): executions are created while their session admits
    runtimes, closed by clients or by the close of their session, and a session
    publishes its close result after it collected those of its executions.

    The world pairs a world of the session registry with the execution registry;
    every step of the session registry is one of [ExecRegistry.act], so what is
    proved there holds here.  The teardown of one execution ([settleClose]) is an
    answer: [Execution] shows that it always completes. *)

From S2P Require Import Prelude Errors Lifecycle ExecRuntime ExecRegistry.

(** ** The execution registry *)

(** An [executionEntry] with the execution it points to: its identifier, the
    session it was created from (identifier and object) and its close operation.
    [x_early] is not in the code: it records that the entry left its group before
    the session began to close. *)
Record xentry := mkXEntry {
  x_id : string;
  x_session : string;
  x_parent : nat;
  x_state : registryState;
  x_close : CloseOperation;
  x_early : bool
}.

Record executionGroup := mkExecutionGroup {
  xg_parent : nat;
  xg_state : registryState;
  xg_entries : gmap string nat
}.

Record executionRegistry := mkExecutionRegistry {
  xr_entries : gmap string nat;
  xr_bySession : gmap string executionGroup;
  xr_heap : gmap nat xentry;
  xr_next : nat
}.

Definition newExecutionRegistry : executionRegistry := mkExecutionRegistry ∅ ∅ ∅ 0.

Definition set_xentries (m : gmap string nat) (r : executionRegistry) : executionRegistry :=
  mkExecutionRegistry m (xr_bySession r) (xr_heap r) (xr_next r).
Definition set_bySession (m : gmap string executionGroup) (r : executionRegistry) : executionRegistry :=
  mkExecutionRegistry (xr_entries r) m (xr_heap r) (xr_next r).
Definition set_xentry (x : nat) (ex : xentry) (r : executionRegistry) : executionRegistry :=
  mkExecutionRegistry (xr_entries r) (xr_bySession r) (<[x:=ex]> (xr_heap r)) (xr_next r).
Definition load_xentry (x : nat) (r : executionRegistry) : outcome xentry :=
  match xr_heap r !! x with Some ex => Ret ex | None => Panic "nil pointer dereference" end.

(** [add(execution, parent)] for a new execution [id] of the session object
    [parent] with identifier [session]. *)
Definition add (id session : string) (parent : nat) (r : executionRegistry) : outcome executionRegistry :=
  if bool_decide (is_Some (xr_entries r !! id)) then Panic "execution: duplicate Execution ID"
  else
    let x := xr_next r in
    let r := mkExecutionRegistry (<[id:=x]> (xr_entries r)) (xr_bySession r)
               (<[x:=mkXEntry id session parent registryStateActive newCloseOperation false]> (xr_heap r)) (S x) in
    let group := default (mkExecutionGroup parent registryStateActive ∅) (xr_bySession r !! session) in
    if bool_decide (xg_state group ≠ registryStateActive) then
      Panic "execution: closing Session accepted an Execution"
    else
      Ret (set_bySession
             (<[session:=mkExecutionGroup (xg_parent group) (xg_state group) (<[id:=x]> (xg_entries group))]>
                (xr_bySession r)) r).

(** [active]; the execution is the entry's. *)
Definition xactive (id : string) (r : executionRegistry) : option nat :=
  match xr_entries r !! id with
  | None => None
  | Some x =>
      match xr_heap r !! x with
      | Some ex => if bool_decide (x_state ex ≠ registryStateActive) then None else Some x
      | None => None
      end
  end.

(** [beginCloseLocked]: whether this call owns the close. *)
Definition beginCloseLocked (x : nat) (r : executionRegistry) : outcome (bool * executionRegistry) :=
  ex ← load_xentry x r;
  if bool_decide (x_state ex = registryStateClosing) then Ret (false, r)
  else
    let '(owner, close) := Begin (x_close ex) in
    if negb owner then Panic "execution: active Execution close has already started"
    else Ret (true, set_xentry x (mkXEntry (x_id ex) (x_session ex) (x_parent ex) registryStateClosing close (x_early ex)) r).

Definition xbeginClose (id : string) (r : executionRegistry) : outcome (option (nat * bool) * executionRegistry) :=
  match xr_entries r !! id with
  | None => Ret (None, r)
  | Some x => '(owner, r) ← beginCloseLocked x r; Ret (Some (x, owner), r)
  end.

(** The loop of [beginSessionClose], in the order Go iterates the entries. *)
Fixpoint close_children (order : list nat) (r : executionRegistry) : outcome (list (nat * bool) * executionRegistry) :=
  match order with
  | [] => Ret ([], r)
  | x :: order =>
      '(owner, r) ← beginCloseLocked x r;
      '(rest, r) ← close_children order r;
      Ret ((x, owner) :: rest, r)
  end.

Definition beginSessionClose (session : string) (order : list nat) (r : executionRegistry) :
    outcome (list (nat * bool) * executionRegistry) :=
  match xr_bySession r !! session with
  | None => Ret ([], r)
  | Some group =>
      let r := set_bySession
        (<[session:=mkExecutionGroup (xg_parent group) registryStateClosing (xg_entries group)]> (xr_bySession r)) r in
      '(result, r) ← close_children order r;
      Ret (result,
           if bool_decide (xg_entries group = ∅) then set_bySession (delete session (xr_bySession r)) r else r)
  end.

(** [finishClose]; [closeStarted] is [group.parent.closeStarted()]. *)
Definition xfinishClose (closeStarted : nat → bool) (x : nat) (r : executionRegistry) : outcome executionRegistry :=
  ex ← load_xentry x r;
  let r := if bool_decide (xr_entries r !! x_id ex = Some x) then set_xentries (delete (x_id ex) (xr_entries r)) r else r in
  match xr_bySession r !! x_session ex with
  | None => Ret r
  | Some group =>
      if bool_decide (xg_state group = registryStateActive) && closeStarted (xg_parent group) then Ret r
      else
        let entries := if bool_decide (xg_entries group !! x_id ex = Some x)
                       then delete (x_id ex) (xg_entries group) else xg_entries group in
        let r := set_bySession (<[x_session ex:=mkExecutionGroup (xg_parent group) (xg_state group) entries]> (xr_bySession r)) r in
        let r := set_xentry x (mkXEntry (x_id ex) (x_session ex) (x_parent ex) (x_state ex) (x_close ex)
                                 (negb (closeStarted (xg_parent group)))) r in
        if bool_decide (xg_state group = registryStateClosing) && bool_decide (entries = ∅)
        then Ret (set_bySession (delete (x_session ex) (xr_bySession r)) r)
        else Ret r
  end.

Definition finishSessionClose (session : string) (r : executionRegistry) : executionRegistry :=
  set_bySession (delete session (xr_bySession r)) r.

(** ** The manager *)

Section manager.
Context {G : Type} `{GateSpec G}.

(** [finishExecutionClose] of an entry, before and after the execution's close
    result is published. *)
Inductive task := TClosing (x : nat) | TSettled (x : nat) | TDone.

(** [finishSessionClose] of a session after it waited for its creators: it joins
    its executions, drops the group, runs the hooks and closes the plans. *)
Inductive closer :=
| KJoin (todo : list nat) (result : option error)
| KHooks (remaining : nat) (result : option error)
| KDone (result : option error).

Record mworld := mkMWorld {
  mw_sessions : world (G := G);
  mw_executions : executionRegistry;
  mw_pending : gmap nat string;        (* the execution a creator has still to add *)
  mw_tasks : list task;
  mw_closers : gmap nat closer
}.

(** [session.closeStarted] of a session object. *)
Definition session_closeStarted (r : registry (G := G)) (e : nat) : bool :=
  match r_entryHeap r !! e with Some en => negb (gs_Accepting (en_children en)) | None => false end.

(** [CreateExecution] up to the admission of the runtime: [input] and [newID]
    are the answers of [newRuntimeInput] and [newExecutionID]. *)
Definition CreateExecution_begin (ctxErr : option error) (input : runtimeInput + error) (newID : string + error)
    (sessionID : string) (r : registry (G := G)) : outcome ((nat * string + error) * registry) :=
  match ctxErr with
  | Some err => Ret (inr err, r)
  | None =>
      match input with
      | inr err => Ret (inr err, r)
      | inl _ =>
          match newID with
          | inr err => Ret (inr err, r)
          | inl id =>
              '(res, r) ← beginRuntimeCreate sessionID r;
              Ret (match res with inl e => inl (e, id) | inr err => inr err end, r)
          end
      end
  end.

(** [Manager.execution]. *)
Definition manager_execution (ctxErr : option error) (id : string) (r : executionRegistry) : nat + error :=
  match ctxErr with
  | Some err => inr err
  | None => match xactive id r with None => inr (ESentinel ExecErrExecutionNotFound) | Some x => inl x end
  end.

Inductive maction :=
| MSessions (a : action)
| MCreateExecution (ctxErr : option error) (input : runtimeInput + error) (newID : string + error) (sessionID : string)
| MAdd (i : nat)
| MCloseExecution (id : string)
| MTask (j : nat) (err : option error)
| MCollect (i : nat) (order : list nat)
| MJoin (e : nat)
| MGroup (e : nat) (hooks : nat)
| MHook (e : nat) (err : option error)
| MPlans (e : nat) (plan debugPlan : option (option error))
| MPublish (i : nat).

(** A fresh execution identifier: [uuid.NewRandom] does not repeat one. *)
Definition x_unused (id : string) (r : executionRegistry) : bool :=
  forallb (λ x : nat * xentry, negb (bool_decide (x_id x.2 = id))) (map_to_list (xr_heap r)).

(** The steps of the session registry that are not part of another action: a
    creator ends after it added its execution, and a session's result is
    published by [MPublish]. *)
Definition session_step_allowed (a : action) (w : mworld) : bool :=
  match a with
  | AStep i Proceed => bool_decide (mw_pending w !! i = None)
  | AStep i (Result _) =>
      match wd_workers (mw_sessions w) !! i with Some (WSession _) => false | _ => true end
  | _ => true
  end.

Definition set_sessions (s : world (G := G)) (w : mworld) : mworld :=
  mkMWorld s (mw_executions w) (mw_pending w) (mw_tasks w) (mw_closers w).
Definition set_executions (r : executionRegistry) (w : mworld) : mworld :=
  mkMWorld (mw_sessions w) r (mw_pending w) (mw_tasks w) (mw_closers w).
Definition set_tasks (ts : list task) (w : mworld) : mworld :=
  mkMWorld (mw_sessions w) (mw_executions w) (mw_pending w) ts (mw_closers w).
Definition set_closer (e : nat) (k : closer) (w : mworld) : mworld :=
  mkMWorld (mw_sessions w) (mw_executions w) (mw_pending w) (mw_tasks w) (<[e:=k]> (mw_closers w)).

(** The workers started for the children a session close owns. *)
Definition child_tasks (children : list (nat * bool)) : list task :=
  omap (λ c : nat * bool, if c.2 then Some (TClosing c.1) else None) children.

(** The published result of an execution's close. *)
Definition closed_result (x : nat) (r : executionRegistry) : option (option error) :=
  match xr_heap r !! x with
  | Some ex => if Finished (x_close ex) then Some (co_err (x_close ex)) else None
  | None => None
  end.

(** [if plan != nil { result = errors.Join(result, plan.Close()) }]. *)
Definition join_plan (plan : option (option error)) (result : option error) : option error :=
  match plan with None => result | Some err => errors_Join [result; err] end.

Definition step_task (j : nat) (t : task) (err : option error) (w : mworld) : outcome mworld :=
  let r := mw_executions w in
  match t with
  | TClosing x =>
      ex ← load_xentry x r;
      close ← Finish err (x_close ex);
      Ret (set_tasks (<[j:=TSettled x]> (mw_tasks w))
             (set_executions (set_xentry x (mkXEntry (x_id ex) (x_session ex) (x_parent ex) (x_state ex) close (x_early ex)) r) w))
  | TSettled x =>
      r ← xfinishClose (session_closeStarted (wd_registry (mw_sessions w))) x r;
      Ret (set_tasks (<[j:=TDone]> (mw_tasks w)) (set_executions r w))
  | TDone => Block
  end.

Definition mact (a : maction) (w : mworld) : outcome mworld :=
  let s := mw_sessions w in
  let r := mw_executions w in
  match a with
  | MSessions a => if session_step_allowed a w then s ← act a s; Ret (set_sessions s w) else Block
  | MCreateExecution ctxErr input newID sessionID =>
      '(res, reg) ← CreateExecution_begin ctxErr input newID sessionID (wd_registry s);
      Ret (match res with
           | inr _ => set_sessions (spawn [] reg s) w
           | inl (e, id) =>
               mkMWorld (spawn [WRuntime e] reg s) r (<[length (wd_workers s):=id]> (mw_pending w)) (mw_tasks w)
                 (mw_closers w)
           end)
  | MAdd i =>
      match mw_pending w !! i, wd_workers s !! i with
      | Some id, Some (WRuntime e) =>
          en ← load_entry e (wd_registry s);
          if x_unused id r then
            r ← add id (en_id en) e r;
            Ret (mkMWorld s r (delete i (mw_pending w)) (mw_tasks w) (mw_closers w))
          else Block
      | _, _ => Block
      end
  | MCloseExecution id =>
      '(found, r) ← xbeginClose id r;
      Ret (match found with
           | Some (x, true) => set_tasks (mw_tasks w ++ [TClosing x]) (set_executions r w)
           | _ => set_executions r w
           end)
  | MTask j err => match mw_tasks w !! j with Some t => step_task j t err w | None => Block end
  | MCollect i order =>
      match wd_workers s !! i with
      | Some (WSession e) =>
          en ← load_entry e (wd_registry s);
          if gs_Idle (en_children en) && bool_decide (mw_closers w !! e = None) &&
             bool_decide (order ≡ₚ map snd (map_to_list (default ∅ (xg_entries <$> xr_bySession r !! en_id en))))
          then
            '(children, r) ← beginSessionClose (en_id en) order r;
            Ret (set_closer e (KJoin (map fst children) None)
                   (set_tasks (mw_tasks w ++ child_tasks children) (set_executions r w)))
          else Block
      | _ => Block
      end
  | MJoin e =>
      match mw_closers w !! e with
      | Some (KJoin (x :: todo) result) =>
          match closed_result x r with
          | Some err => Ret (set_closer e (KJoin todo (errors_Join [result; err])) w)
          | None => Block
          end
      | _ => Block
      end
  | MGroup e hooks =>
      match mw_closers w !! e with
      | Some (KJoin [] result) =>
          en ← load_entry e (wd_registry s);
          Ret (set_closer e (KHooks hooks result) (set_executions (finishSessionClose (en_id en) r) w))
      | _ => Block
      end
  | MHook e err =>
      match mw_closers w !! e with
      | Some (KHooks (S remaining) result) =>
          Ret (set_closer e (KHooks remaining (errors_Join [result; err])) w)
      | _ => Block
      end
  | MPlans e plan debugPlan =>
      match mw_closers w !! e with
      | Some (KHooks 0 result) => Ret (set_closer e (KDone (join_plan debugPlan (join_plan plan result))) w)
      | _ => Block
      end
  | MPublish i =>
      match wd_workers s !! i with
      | Some (WSession e) =>
          match mw_closers w !! e with
          | Some (KDone result) => s ← act (AStep i (Result result)) s; Ret (set_sessions s w)
          | _ => Block
          end
      | _ => Block
      end
  end.

Definition mattempt (a : maction) (w : mworld) : outcome mworld :=
  match mact a w with
  | Ret w => Ret w
  | Panic m => Panic m
  | Block => Ret w
  end.

Fixpoint mschedule (actions : list maction) (w : mworld) : outcome mworld :=
  match actions with
  | [] => Ret w
  | a :: actions => w ← mattempt a w; mschedule actions w
  end.

Definition minitial : mworld := mkMWorld initial newExecutionRegistry ∅ [] ∅.

(** ** Sessions only evolve *)

Definition gate_evolves (a a' : agate) : Prop :=
  match a, a' with
  | AOpen _, AOpen _ | AOpen _, AClosing _ => True
  | AClosing n, AClosing m => n = 0%nat → m = 0%nat
  | AClosed err, AClosed err' => err = err'
  | _, _ => False
  end.

Lemma gate_evolves_refl a : gate_evolves a a.
Proof. destruct a; simpl; auto. Qed.

(** What a step of the session registry does to the session objects: it keeps
    their identity, moves their gates forward, and adds open ones. *)
Record evolves (r r' : registry (G := G)) : Prop := {
  ev_old : ∀ e en, r_entryHeap r !! e = Some en →
    ∃ en', r_entryHeap r' !! e = Some en' ∧ en_id en' = en_id en ∧
           gate_evolves (gs_abs (en_children en)) (gs_abs (en_children en'));
  ev_new : ∀ e en', r_entryHeap r' !! e = Some en' → r_entryHeap r !! e = None → gs_abs (en_children en') = AOpen 0
}.

Lemma evolves_same r r' : r_entryHeap r' = r_entryHeap r → evolves r r'.
Proof.
  intros Heq. split.
  - intros e en He. exists en. rewrite Heq. split_and!; try done. apply gate_evolves_refl.
  - intros e en He Hn. congruence.
Qed.

(** One session's gate moves. *)
Lemma evolves_gate r r' e en en' :
  r_entryHeap r !! e = Some en → r_entryHeap r' = <[e:=en']> (r_entryHeap r) → en_id en' = en_id en →
  gate_evolves (gs_abs (en_children en)) (gs_abs (en_children en')) → evolves r r'.
Proof.
  intros He Heq Hid Hg. split.
  - intros e1 en1 He1. rewrite Heq. destruct (decide (e1 = e)) as [->|Hne].
    + assert (en1 = en) as -> by congruence. exists en'. by rewrite lookup_insert_eq.
    + exists en1. rewrite lookup_insert_ne by done. split_and!; try done. apply gate_evolves_refl.
  - intros e1 en1 He1 Hn. rewrite Heq in He1. destruct (decide (e1 = e)) as [->|Hne]; [congruence|].
    rewrite lookup_insert_ne in He1 by done. congruence.
Qed.

Lemma close_group_entries g r b r' : close_group g r = Ret (b, r') → r_entryHeap r' = r_entryHeap r.
Proof.
  unfold close_group. destruct (load_group g r) as [grp|m|]; [|done|done]. cbn.
  destruct (group_beginClose grp) as [o grp']. cbn. by intros [= _ <-].
Qed.

Lemma shutdown_entries order : ∀ r closes r', shutdown_loop order r = Ret (closes, r') → r_entryHeap r' = r_entryHeap r.
Proof.
  induction order as [|[ws g] order IH]; intros r closes r'; simpl; [by intros [= _ <-]|].
  destruct (close_group g r) as [[b r1]|m|] eqn:Hc; [|done|done]. cbn.
  destruct (shutdown_loop order r1) as [[cs r2]|m|] eqn:Hl; [|done|done]. cbn. intros [= _ <-].
  rewrite (IH _ _ _ Hl). by eapply close_group_entries.
Qed.

Lemma lookup_group_entries ws r : r_entryHeap (lookup_group ws r).2 = r_entryHeap r.
Proof. unfold lookup_group. by destruct (r_groups r !! ws). Qed.

Lemma load_entry_Some e (r : registry (G := G)) en : load_entry e r = Ret en → r_entryHeap r !! e = Some en.
Proof. unfold load_entry. destruct (r_entryHeap r !! e); [by intros [= ->]|done]. Qed.

Lemma create_evolves ws (r : registry (G := G)) res r' : beginCreate ws r = Ret (res, r') → r_entryHeap r' = r_entryHeap r.
Proof.
  unfold beginCreate. intros Hc. destruct (r_closed r); [by inv Hc|].
  pose proof (lookup_group_entries ws r) as Hl. destruct (lookup_group ws r) as [g r1]. simpl in Hl.
  destruct (load_group g r1) as [grp|m|]; [|done|done]. cbn in Hc.
  destruct (group_beginCreate grp) as [[] grp']; inv Hc; done.
Qed.

Lemma runtime_evolves id (r : registry (G := G)) ts res r' :
  base r ts → beginRuntimeCreate id r = Ret (res, r') → evolves r r'.
Proof.
  intros Hb Hc. unfold beginRuntimeCreate in Hc. destruct (r_closed r); [inv Hc; by apply evolves_same|].
  destruct (r_entries r !! id) as [e|]; [|inv Hc; by apply evolves_same].
  destruct (load_entry e r) as [en|m|] eqn:He; [|done|done]. apply load_entry_Some in He. cbn in Hc.
  case_bool_decide; [inv Hc; by apply evolves_same|].
  destruct (b_entry _ _ Hb _ _ He) as (_ & Hwf & _). destruct (gs_begin_create_ok (en_children en) Hwf) as [_ Ha].
  destruct (gs_BeginCreate (en_children en)) as [[] gate]; [|done]. inv Hc. simpl in Ha.
  eapply (evolves_gate _ _ e en); [done|done|done|]. simpl.
  destruct (gs_abs (en_children en)); simpl in Ha; try done; injection Ha as Ha; by rewrite Ha.
Qed.

Lemma finish_runtime_evolves e (r : registry (G := G)) ts r' :
  base r ts → finishRuntimeCreate e r = Ret r' → evolves r r'.
Proof.
  intros Hb Hc. unfold finishRuntimeCreate in Hc. destruct (load_entry e r) as [en|m|] eqn:He; [|done|done].
  apply load_entry_Some in He. cbn in Hc. destruct (b_entry _ _ Hb _ _ He) as (_ & Hwf & _).
  pose proof (gs_end_create_ok (en_children en) Hwf) as Ha.
  destruct (gs_abs (en_children en)) as [n|n|err] eqn:Ea; simpl in Ha.
  - destruct n as [|n]; [destruct Ha as [m Ha]|destruct Ha as (g' & Ha & _ & Hg')]; rewrite Ha in Hc; [done|].
    cbn in Hc. inv Hc. eapply (evolves_gate _ _ e en); try done. simpl. by rewrite Ea, Hg'.
  - destruct n as [|n]; [destruct Ha as [m Ha]|destruct Ha as (g' & Ha & _ & Hg')]; rewrite Ha in Hc; [done|].
    cbn in Hc. inv Hc. eapply (evolves_gate _ _ e en); try done. simpl. by rewrite Ea, Hg'.
  - destruct Ha as [m Ha]. by rewrite Ha in Hc.
Qed.

Lemma begin_close_evolves id retained (r : registry (G := G)) ts res r' :
  base r ts → beginClose id retained r = Ret (res, r') → evolves r r'.
Proof.
  intros Hb Hc. unfold beginClose in Hc.
  destruct (match r_entries r !! id with Some e => Some e | None => retained end) as [e|]; [|inv Hc; by apply evolves_same].
  destruct (load_entry e r) as [en|m|] eqn:He; [|done|done]. apply load_entry_Some in He. cbn in Hc.
  case_bool_decide; [inv Hc; by apply evolves_same|].
  destruct (b_entry _ _ Hb _ _ He) as (_ & Hwf & _). destruct (gs_begin_close_ok (en_children en) Hwf) as [_ Ha].
  destruct (gs_BeginClose (en_children en)) as [[] gate]; [|done]. inv Hc. simpl in Ha.
  eapply (evolves_gate _ _ e en); [done|done|done|]. simpl.
  destruct (gs_abs (en_children en)); simpl in Ha; try done; injection Ha as Ha; by rewrite Ha.
Qed.

Lemma commit_evolves ctxErr ws g id (r : registry (G := G)) ts res r' :
  base r ts → commitCreate ctxErr ws g id r = Ret (res, r') → evolves r r'.
Proof.
  intros Hb Hc. unfold commitCreate in Hc. destruct (load_group g r) as [grp|m|]; [|done|done]. cbn in Hc.
  destruct (_ || _ || _); [inv Hc; by apply evolves_same|]. destruct ctxErr; [inv Hc; by apply evolves_same|].
  destruct (group_add id (r_next r) grp) as [[] grp']; [|inv Hc; by apply evolves_same]. cbn in Hc. inv Hc.
  split; simpl.
  - intros e en He. exists en. rewrite lookup_insert_ne; [split_and!; try done; apply gate_evolves_refl|].
    destruct (b_entry _ _ Hb _ _ He) as (? & _). lia.
  - intros e en' He Hn. destruct (decide (e = r_next r)) as [->|Hne].
    + rewrite lookup_insert_eq in He. inv He. simpl. apply gs_new_ok.
    + rewrite lookup_insert_ne in He by done. congruence.
Qed.

Lemma finish_close_entries e (r : registry (G := G)) r' : finishClose e r = Ret r' → r_entryHeap r' = r_entryHeap r.
Proof.
  unfold finishClose. destruct (load_entry e r) as [en|m|]; [|done|done]. cbn.
  set (r1 := if bool_decide _ then _ else _). assert (r_entryHeap r1 = r_entryHeap r) as H1 by (subst r1; by case_bool_decide).
  destruct (r_groups r1 !! en_workspace en) as [g|]; [|by intros [= <-]].
  destruct (load_group g r1) as [grp|m|]; [|done|done]. cbn.
  destruct (group_removeCompleted (en_id en) e grp) as [discard grp']. destruct (_ && _); by intros [= <-].
Qed.

Lemma finish_create_entries ws g (r : registry (G := G)) r' : finishCreate ws g r = Ret r' → r_entryHeap r' = r_entryHeap r.
Proof.
  unfold finishCreate. destruct (load_group g r) as [grp|m|]; [|done|done]. cbn.
  destruct (group_finishCreate grp) as [[discard grp']|m|]; [|done|done]. cbn.
  destruct (_ && _); by intros [= <-].
Qed.

Lemma finish_workspace_entries ws g err (r : registry (G := G)) r' :
  finishWorkspaceClose ws g err r = Ret r' → r_entryHeap r' = r_entryHeap r.
Proof.
  unfold finishWorkspaceClose. set (r1 := if bool_decide _ then _ else _).
  assert (r_entryHeap r1 = r_entryHeap r) as H1 by (subst r1; by case_bool_decide).
  destruct (load_group g r1) as [grp|m|]; [|done|done]. cbn.
  destruct (group_finishClose err grp) as [grp'|m|]; [|done|done]. cbn. by intros [= <-].
Qed.

Lemma step_evolves i t a (s s' : world (G := G)) :
  inv s → (∀ e, t ≠ WSession e) → step_worker i t a s = Ret s' → evolves (wd_registry s) (wd_registry s').
Proof.
  intros [Hb _] Ht Hs.
  destruct t as [ws g|ws g|e|e|e|ws g|ws g todo|ws g e todo|]; destruct a as [ctxErr id| | |order|err]; try done; simpl in Hs;
    try (destruct todo as [|e todo]); try done.
  - destruct (id_unused id _); [|done]. destruct (commitCreate _ _ _ _ _) as [[res r']|m|] eqn:Hc; [|done|done]. inv Hs.
    by eapply commit_evolves.
  - inv Hs. by apply evolves_same.
  - destruct (finishCreate _ _ _) as [r'|m|] eqn:Hc; [|done|done]. inv Hs. by eapply evolves_same, finish_create_entries.
  - destruct (finishRuntimeCreate _ _) as [r'|m|] eqn:Hc; [|done|done]. inv Hs. by eapply finish_runtime_evolves.
  - by destruct (Ht e).
  - destruct (finishClose _ _) as [r'|m|] eqn:Hc; [|done|done]. inv Hs. by eapply evolves_same, finish_close_entries.
  - destruct (load_group _ _) as [grp|m|]; [|done|done]. cbn in Hs. destruct (_ && _); [|done]. inv Hs. by apply evolves_same.
  - destruct (load_entry _ _) as [en|m|]; [|done|done]. cbn in Hs.
    destruct (beginClose _ _ _) as [[[[e' o]|] r']|m|] eqn:Hc; [| |done|done]; cbn in Hs; inv Hs.
    + destruct o; by eapply begin_close_evolves.
    + by eapply begin_close_evolves.
  - destruct (finishWorkspaceClose _ _ _ _) as [r'|m|] eqn:Hc; [|done|done]. inv Hs. by eapply evolves_same, finish_workspace_entries.
  - destruct (session_closed _ _); [|done]. inv Hs. by apply evolves_same.
Qed.

Lemma act_evolves a (s s' : world (G := G)) :
  inv s → (∀ i err e, a = AStep i (Result err) → wd_workers s !! i ≠ Some (WSession e)) → act a s = Ret s' →
  evolves (wd_registry s) (wd_registry s').
Proof.
  intros Hi Ht Hs. pose proof Hi as [Hb _].
  destruct a as [ws|id|id|ws|order|i a]; simpl in Hs.
  - destruct (beginCreate _ _) as [[res r']|m|] eqn:Hc; [|done|done]. cbn in Hs. inv Hs.
    destruct res; by eapply evolves_same, create_evolves.
  - destruct (beginRuntimeCreate _ _) as [[res r']|m|] eqn:Hc; [|done|done]. cbn in Hs. inv Hs.
    destruct res; by eapply runtime_evolves.
  - destruct (beginClose _ _ _) as [[res r']|m|] eqn:Hc; [|done|done]. cbn in Hs. inv Hs.
    destruct res as [[e []]|]; by eapply begin_close_evolves.
  - unfold beginWorkspaceClose in Hs. pose proof (lookup_group_entries ws (wd_registry s)) as Hl.
    destruct (lookup_group ws (wd_registry s)) as [g r1]. simpl in Hl.
    destruct (close_group g r1) as [[o r2]|m|] eqn:Hc; [|done|done]. cbn in Hs. inv Hs.
    apply close_group_entries in Hc. destruct o; apply evolves_same; simpl; congruence.
  - case_bool_decide; [|done]. unfold beginShutdown in Hs.
    destruct (shutdown_loop _ _) as [[closes r']|m|] eqn:Hc; [|done|done]. cbn in Hs. inv Hs.
    apply shutdown_entries in Hc. by apply evolves_same.
  - destruct (wd_workers s !! i) as [t|] eqn:Hw; [|done].
    destruct t as [ws g|ws g|e|e|e|ws g|ws g todo|ws g e todo|]; try (eapply step_evolves; [exact Hi| |exact Hs]; done).
    destruct a; try done. exfalso. by eapply (Ht i).
Qed.

(** The publication of a session's close result. *)
Lemma publish_evolves i err e (s s' : world (G := G)) :
  inv s → wd_workers s !! i = Some (WSession e) → act (AStep i (Result err)) s = Ret s' →
  ∃ en en', r_entryHeap (wd_registry s) !! e = Some en ∧ gs_abs (en_children en) = AClosing 0 ∧
    gs_abs (en_children en') = AClosed err ∧ en_id en' = en_id en ∧
    r_entryHeap (wd_registry s') = <[e:=en']> (r_entryHeap (wd_registry s)) ∧
    wd_workers s' = <[i:=WSessionEnd e]> (wd_workers s).
Proof.
  intros [Hb _] Hw Hs. simpl in Hs. rewrite Hw in Hs. simpl in Hs.
  destruct (load_entry e (wd_registry s)) as [en|m|] eqn:He; [|done|done]. apply load_entry_Some in He. cbn in Hs.
  destruct (b_entry _ _ Hb _ _ He) as (_ & Hwf & _ & Hei). rewrite gs_idle_ok in Hs by done.
  assert (0 < count (closes_session e) (wd_workers s))%nat as Hpos.
  { eapply count_pos; [done|]. simpl. by rewrite bool_decide_eq_true_2. }
  assert (∃ n, gs_abs (en_children en) = AClosing n) as [n Hn].
  { destruct (en_state en); simpl in Hei; [lia|]. destruct Hei as [[? _]|(? & _ & _ & ?)]; [by eexists|lia]. }
  rewrite Hn in Hs. simpl in Hs. case_bool_decide as Hz; [|done]. subst n.
  pose proof (gs_finish_close_ok err (en_children en) Hwf) as Hf. rewrite Hn in Hf. simpl in Hf.
  destruct Hf as (g' & Hg & _ & Ha). rewrite Hg in Hs. cbn in Hs. inv Hs. exists en, (set_children g' en).
  by split_and!.
Qed.

(** ** Invariant *)

Definition closing_on (x : nat) (t : task) : bool := match t with TClosing y => bool_decide (y = x) | _ => false end.
Definition settled_on (x : nat) (t : task) : bool := match t with TSettled y => bool_decide (y = x) | _ => false end.

Definition started : CloseOperation := mkCloseOperation closeStarted (Some false) None.
Definition finished (err : option error) : CloseOperation := mkCloseOperation closeFinished (Some true) err.

(** An entry, its close operation, its presence in the registry, and the workers
    that close it: [c] before and [d] after the result is published. *)
Definition entry_ok (listed : bool) (c d : nat) (ex : xentry) : Prop :=
  match x_state ex with
  | registryStateActive => x_close ex = newCloseOperation ∧ listed = true ∧ c = 0%nat ∧ d = 0%nat ∧ x_early ex = false
  | registryStateClosing =>
      (x_close ex = started ∧ listed = true ∧ c = 1%nat ∧ d = 0%nat ∧ x_early ex = false) ∨
      (∃ err, x_close ex = finished err ∧ c = 0%nat ∧
         ((listed = true ∧ d = 1%nat ∧ x_early ex = false) ∨ (listed = false ∧ d = 0%nat)))
  end.

Record entries_inv (r : executionRegistry) (ts : list task) : Prop := {
  en_next : ∀ x ex, xr_heap r !! x = Some ex → (x < xr_next r)%nat;
  en_ids : ∀ x y ex ey, xr_heap r !! x = Some ex → xr_heap r !! y = Some ey → x_id ex = x_id ey → x = y;
  en_listed : ∀ id x, xr_entries r !! id = Some x → ∃ ex, xr_heap r !! x = Some ex ∧ x_id ex = id;
  en_entry : ∀ x ex, xr_heap r !! x = Some ex →
    entry_ok (bool_decide (xr_entries r !! x_id ex = Some x)) (count (closing_on x) ts) (count (settled_on x) ts) ex;
  en_tasks : ∀ j x, ts !! j = Some (TClosing x) ∨ ts !! j = Some (TSettled x) → is_Some (xr_heap r !! x)
}.

(** The registries agree on which session an execution belongs to. *)
Record links (s : registry (G := G)) (r : executionRegistry) : Prop := {
  li_parent : ∀ x ex, xr_heap r !! x = Some ex →
    ∃ en, r_entryHeap s !! x_parent ex = Some en ∧ en_id en = x_session ex;
  li_group : ∀ sid g, xr_bySession r !! sid = Some g →
    (∃ en, r_entryHeap s !! xg_parent g = Some en ∧ en_id en = sid) ∧
    ∀ id x, xg_entries g !! id = Some x → ∃ ex, xr_heap r !! x = Some ex ∧ x_id ex = id ∧ x_session ex = sid
}.

(** The close error of [x] is part of [acc]. *)
Definition collected (r : executionRegistry) (acc : option error) (x : nat) : Prop :=
  ∃ ex err, xr_heap r !! x = Some ex ∧ x_close ex = finished err ∧ ∀ k, is_err err k = true → is_err acc k = true.

(** The executions a session close has to collect. *)
Definition due (r : executionRegistry) (e : nat) (P : nat → xentry → Prop) : Prop :=
  ∀ x ex, xr_heap r !! x = Some ex → x_parent ex = e → x_early ex = false → P x ex.

(** A session with gate [a] and close worker [k]. *)
Definition phase (r : executionRegistry) (e : nat) (sid : string) (a : agate) (k : option closer) : Prop :=
  match k with
  | None =>
      (∀ err, a ≠ AClosed err) ∧ (∀ g, xr_bySession r !! sid = Some g → xg_state g = registryStateActive) ∧
      due r e (λ x ex, ∃ g, xr_bySession r !! sid = Some g ∧ xg_entries g !! x_id ex = Some x)
  | Some (KJoin todo acc) =>
      a = AClosing 0 ∧ (∀ g, xr_bySession r !! sid = Some g → xg_state g = registryStateClosing) ∧
      due r e (λ x _, x ∈ todo ∨ collected r acc x)
  | Some (KHooks _ acc) => a = AClosing 0 ∧ xr_bySession r !! sid = None ∧ due r e (λ x _, collected r acc x)
  | Some (KDone acc) =>
      (a = AClosing 0 ∨ a = AClosed acc) ∧ xr_bySession r !! sid = None ∧ due r e (λ x _, collected r acc x)
  end.

Record minv (w : mworld) : Prop := {
  mi_sessions : inv (mw_sessions w);
  mi_entries : entries_inv (mw_executions w) (mw_tasks w);
  mi_links : links (wd_registry (mw_sessions w)) (mw_executions w);
  mi_phase : ∀ e en, r_entryHeap (wd_registry (mw_sessions w)) !! e = Some en →
    phase (mw_executions w) e (en_id en) (gs_abs (en_children en)) (mw_closers w !! e);
  mi_closers : ∀ e k, mw_closers w !! e = Some k → is_Some (r_entryHeap (wd_registry (mw_sessions w)) !! e)
}.

(** ** Steps of the session registry *)

Lemma phase_evolves r e sid a a' k : gate_evolves a a' → phase r e sid a k → phase r e sid a' k.
Proof.
  intros Hg. destruct k as [[todo acc|n acc|acc]|]; simpl.
  - intros (-> & ? & ?). destruct a'; simpl in Hg; try done. by rewrite Hg.
  - intros (-> & ? & ?). destruct a'; simpl in Hg; try done. by rewrite Hg.
  - intros ([->| ->] & ? & ?); destruct a'; simpl in Hg; try done.
    + rewrite Hg by done. auto.
    + subst. auto.
  - intros (Hn & ? & ?). split; [|done]. intros err ->. destruct a; simpl in Hg; try done. by destruct (Hn err0).
Qed.

Lemma links_evolves s s' r : evolves s s' → links s r → links s' r.
Proof.
  intros [Hold _] [Hp Hg]. split.
  - intros x ex Hx. destruct (Hp x ex Hx) as (en & He & Hid). destruct (Hold _ _ He) as (en' & ? & ? & _).
    exists en'. split; [done|congruence].
  - intros sid g Hs. destruct (Hg sid g Hs) as ((en & He & Hid) & Hm). split; [|done].
    destruct (Hold _ _ He) as (en' & ? & ? & _). exists en'. split; [done|congruence].
Qed.

Lemma sessions_step w s' pending :
  minv w → inv s' → evolves (wd_registry (mw_sessions w)) (wd_registry s') →
  minv (mkMWorld s' (mw_executions w) pending (mw_tasks w) (mw_closers w)).
Proof.
  intros [Hs He Hl Hp Hc] Hs' Hev. split; simpl; [done|done|by eapply links_evolves| |].
  - intros e en' Hen'. destruct (r_entryHeap (wd_registry (mw_sessions w)) !! e) as [en|] eqn:Hen.
    + destruct (ev_old _ _ Hev _ _ Hen) as (en1 & Hen1 & Hid & Hg). assert (en1 = en') as -> by congruence.
      rewrite Hid. eapply phase_evolves; [done|by apply Hp].
    + rewrite (ev_new _ _ Hev _ _ Hen' Hen).
      destruct (mw_closers w !! e) as [k|] eqn:Hk; [destruct (Hc _ _ Hk); congruence|]. simpl. split; [done|].
      destruct Hs' as [Hb' _]. split.
      * intros g Hgr. destruct (li_group _ _ Hl _ _ Hgr) as ((en & He0 & Hid) & _).
        destruct (ev_old _ _ Hev _ _ He0) as (en1 & He1 & Hid1 & _).
        assert (xg_parent g = e) as Heq by (eapply (b_ids _ _ Hb'); [done|done|congruence]). congruence.
      * intros x ex Hx Hpar _. destruct (li_parent _ _ Hl _ _ Hx) as (en & He0 & _). congruence.
  - intros e k Hk. destruct (Hc _ _ Hk) as [en Hen]. destruct (ev_old _ _ Hev _ _ Hen) as (en' & ? & _). by exists en'.
Qed.

(** ** Steps of one execution *)

Definition same_identity (ex ex' : xentry) : Prop :=
  x_id ex' = x_id ex ∧ x_session ex' = x_session ex ∧ x_parent ex' = x_parent ex ∧ x_early ex' = x_early ex ∧
  ∀ err, x_close ex = finished err → x_close ex' = finished err.

(** [r'] has the executions of [r], further closed. *)
Record xkeeps (r r' : executionRegistry) : Prop := {
  xk_old : ∀ x ex, xr_heap r !! x = Some ex → ∃ ex', xr_heap r' !! x = Some ex' ∧ same_identity ex ex';
  xk_new : ∀ x ex', xr_heap r' !! x = Some ex' → is_Some (xr_heap r !! x);
  xk_groups : xr_bySession r' = xr_bySession r
}.

Lemma same_identity_refl ex : same_identity ex ex.
Proof. by split_and!. Qed.

Lemma xkeeps_refl r : xkeeps r r.
Proof. split; [|by eexists|done]. intros x ex Hx. exists ex. split; [done|apply same_identity_refl]. Qed.

Lemma xkeeps_trans r1 r2 r3 : xkeeps r1 r2 → xkeeps r2 r3 → xkeeps r1 r3.
Proof.
  intros [O1 N1 G1] [O2 N2 G2]. split; [| |congruence].
  - intros x ex Hx. destruct (O1 _ _ Hx) as (ex2 & Hx2 & H1 & H2 & H3 & H4 & H5).
    destruct (O2 _ _ Hx2) as (ex3 & Hx3 & I1 & I2 & I3 & I4 & I5). exists ex3. split; [done|].
    split_and!; try congruence. intros err Hc. by apply I5, H5.
  - intros x ex3 Hx. destruct (N2 _ _ Hx) as [ex2 Hx2]. by apply (N1 x ex2).
Qed.

Lemma set_xentry_keeps r x ex ex' : xr_heap r !! x = Some ex → same_identity ex ex' → xkeeps r (set_xentry x ex' r).
Proof.
  intros Hx Hs. split; simpl; [| |done].
  - intros y ey Hy. destruct (decide (y = x)) as [->|Hne].
    + rewrite lookup_insert_eq. exists ex'. split; [done|]. by assert (ey = ex) as -> by congruence.
    + rewrite lookup_insert_ne by done. exists ey. split; [done|apply same_identity_refl].
  - intros y ey Hy. destruct (decide (y = x)) as [->|Hne]; [by exists ex|].
    rewrite lookup_insert_ne in Hy by done. by exists ey.
Qed.

Lemma collected_keeps r r' acc x : xkeeps r r' → collected r acc x → collected r' acc x.
Proof.
  intros [O _ _] (ex & err & Hx & Hc & Hk). destruct (O _ _ Hx) as (ex' & Hx' & _ & _ & _ & _ & H5).
  exists ex', err. split; [done|]. split; [by apply H5|done].
Qed.

Lemma due_keeps r r' e (P Q : nat → xentry → Prop) :
  xkeeps r r' → (∀ x ex ex', same_identity ex ex' → P x ex → Q x ex') → due r e P → due r' e Q.
Proof.
  intros Hk HPQ Hd x ex' Hx' Hp He. destruct (xk_new _ _ Hk _ _ Hx') as [ex Hx].
  destruct (xk_old _ _ Hk _ _ Hx) as (ex1 & Hx1 & Hs). assert (ex1 = ex') as -> by congruence.
  pose proof Hs as (H1 & H2 & H3 & H4 & H5). eapply HPQ; [done|]. by apply Hd; [|congruence|congruence].
Qed.

Lemma phase_keeps r r' e sid a k : xkeeps r r' → phase r e sid a k → phase r' e sid a k.
Proof.
  intros Hk. pose proof (xk_groups _ _ Hk) as Hg. destruct k as [[todo acc|n acc|acc]|]; simpl; rewrite Hg.
  - intros (Ha & Hgr & Hd). split; [done|]. split; [done|]. eapply due_keeps; [done| |done]. simpl.
    intros x ex ex' _ [?|?]; [by left|right; by eapply collected_keeps].
  - intros (Ha & Hgr & Hd). split; [done|]. split; [done|]. eapply due_keeps; [done| |done]. simpl.
    intros x ex ex' _ ?. by eapply collected_keeps.
  - intros (Ha & Hgr & Hd). split; [done|]. split; [done|]. eapply due_keeps; [done| |done]. simpl.
    intros x ex ex' _ ?. by eapply collected_keeps.
  - intros (Ha & Hgr & Hd). split; [done|]. split; [done|]. eapply due_keeps; [done| |done]. simpl.
    intros x ex ex' (Hid & _) Hx. by rewrite Hid.
Qed.

Lemma links_keeps s r r' : xkeeps r r' → links s r → links s r'.
Proof.
  intros Hk [Hp Hg]. split.
  - intros x ex' Hx'. destruct (xk_new _ _ Hk _ _ Hx') as [ex Hx]. destruct (xk_old _ _ Hk _ _ Hx) as (ex1 & Hx1 & H1 & H2 & H3 & _).
    assert (ex1 = ex') as -> by congruence. rewrite H3, H2. by apply (Hp x).
  - intros sid g Hs. rewrite (xk_groups _ _ Hk) in Hs. destruct (Hg sid g Hs) as [Hpar Hm]. split; [done|].
    intros id x Hid. destruct (Hm id x Hid) as (ex & Hx & Hi & Hse). destruct (xk_old _ _ Hk _ _ Hx) as (ex' & Hx' & H1 & H2 & _).
    exists ex'. split_and!; [done|congruence|congruence].
Qed.

(** One entry changes, and the workers on it. *)
Lemma entries_update r ts ts' x ex ex' :
  entries_inv r ts → xr_heap r !! x = Some ex → x_id ex' = x_id ex →
  (∀ y, y ≠ x → count (closing_on y) ts' = count (closing_on y) ts ∧ count (settled_on y) ts' = count (settled_on y) ts) →
  (∀ j y, ts' !! j = Some (TClosing y) ∨ ts' !! j = Some (TSettled y) → is_Some (xr_heap r !! y)) →
  entry_ok (bool_decide (xr_entries r !! x_id ex = Some x)) (count (closing_on x) ts') (count (settled_on x) ts') ex' →
  entries_inv (set_xentry x ex' r) ts'.
Proof.
  intros [Hn Hid Hli He Ht] Hx Hid' Hc Ht' Hok.
  assert (∀ y ey, <[x:=ex']> (xr_heap r) !! y = Some ey → ∃ ey0, xr_heap r !! y = Some ey0 ∧ x_id ey0 = x_id ey) as Hold.
  { intros y ey Hy. destruct (decide (y = x)) as [->|Hne].
    - rewrite lookup_insert_eq in Hy. inv Hy. by exists ex.
    - rewrite lookup_insert_ne in Hy by done. by exists ey. }
  split; simpl.
  - intros y ey Hy. destruct (Hold _ _ Hy) as (ey0 & ? & _). by eapply Hn.
  - intros y z ey ez Hy Hz Heq. destruct (Hold _ _ Hy) as (ey0 & Hy0 & Ey). destruct (Hold _ _ Hz) as (ez0 & Hz0 & Ez).
    eapply Hid; [done|done|congruence].
  - intros id y Hy. destruct (Hli _ _ Hy) as (ey & Hey & Hi). destruct (decide (y = x)) as [->|Hne].
    + rewrite lookup_insert_eq. exists ex'. split; [done|]. congruence.
    + rewrite lookup_insert_ne by done. by exists ey.
  - intros y ey Hy. destruct (decide (y = x)) as [->|Hne].
    + rewrite lookup_insert_eq in Hy. inv Hy. by rewrite Hid'.
    + rewrite lookup_insert_ne in Hy by done. destruct (Hc y Hne) as [-> ->]. by apply He.
  - intros j y Hj. destruct (Ht' j y Hj) as [ey Hy]. destruct (decide (y = x)) as [->|Hne]; [rewrite lookup_insert_eq; by eexists|].
    rewrite lookup_insert_ne by done. by exists ey.
Qed.

Lemma tasks_snoc r ts x : entries_inv r ts → is_Some (xr_heap r !! x) →
  ∀ j y, (ts ++ [TClosing x]) !! j = Some (TClosing y) ∨ (ts ++ [TClosing x]) !! j = Some (TSettled y) → is_Some (xr_heap r !! y).
Proof.
  intros Hi Hx j y [Hj|Hj]; apply lookup_app_Some_or_last in Hj as [Hj|[_ Hj]]; try (by inv Hj);
    eapply (en_tasks _ _ Hi); eauto.
Qed.

Lemma beginCloseLocked_ok r ts x ex : entries_inv r ts → xr_heap r !! x = Some ex →
  ∃ owner r', beginCloseLocked x r = Ret (owner, r') ∧
    entries_inv r' (ts ++ (if (owner : bool) then [TClosing x] else [])) ∧ xkeeps r r'.
Proof.
  intros Hi Hx. unfold beginCloseLocked, load_xentry. rewrite Hx. cbn.
  pose proof (en_entry _ _ Hi _ _ Hx) as Hok. unfold entry_ok in Hok.
  destruct (x_state ex) eqn:Hst.
  - destruct Hok as (Hcl & Hl & Hc & Hd & Hea). rewrite bool_decide_eq_false_2 by done. rewrite Hcl. cbn.
    eexists true, _. split; [done|]. split.
    + eapply entries_update; [done|done|done| |by apply tasks_snoc; [|eexists]|].
      * intros y Hne. rewrite !count_app. simpl. rewrite bool_decide_eq_false_2 by congruence. lia.
      * rewrite !count_app, Hl, Hc, Hd. simpl. rewrite bool_decide_eq_true_2 by done. by left.
    + eapply set_xentry_keeps; [done|]. split_and!; try done. simpl. intros err Hf. rewrite Hcl in Hf. done.
  - rewrite bool_decide_eq_true_2 by done. exists false, r. rewrite app_nil_r. split; [done|]. split; [done|apply xkeeps_refl].
Qed.

Lemma keeps_step w r' ts' :
  minv w → entries_inv r' ts' → xkeeps (mw_executions w) r' →
  minv (set_tasks ts' (set_executions r' w)).
Proof.
  intros [Hs He Hl Hp Hc] He' Hk. split; simpl; [done|done|by eapply links_keeps| |done].
  intros e en Hen. eapply phase_keeps; [done|]. by apply Hp.
Qed.

Lemma close_execution_step w id : minv w → ∃ w', mact (MCloseExecution id) w = Ret w' ∧ minv w'.
Proof.
  intros Hi. unfold mact, xbeginClose. pose proof Hi as [_ He _ _ _].
  destruct (xr_entries (mw_executions w) !! id) as [x|] eqn:Hid.
  - destruct (en_listed _ _ He _ _ Hid) as (ex & Hx & _).
    destruct (beginCloseLocked_ok _ _ _ _ He Hx) as (owner & r' & -> & He' & Hk). cbn.
    eexists. split; [done|]. destruct owner; [by apply keeps_step|]. rewrite app_nil_r in He'.
    by apply (keeps_step w r' (mw_tasks w)).
  - cbn. eexists. split; [done|]. by destruct w.
Qed.

(** A worker moves on: from closing to settled, and from settled to done. *)
Lemma task_counts (ts : list task) j t t' y : ts !! j = Some t →
  (count (closing_on y) (<[j:=t']> ts) + (if closing_on y t then 1 else 0) = count (closing_on y) ts + (if closing_on y t' then 1 else 0))%nat ∧
  (count (settled_on y) (<[j:=t']> ts) + (if settled_on y t then 1 else 0) = count (settled_on y) ts + (if settled_on y t' then 1 else 0))%nat.
Proof. intros Ht. split; by apply count_insert. Qed.

Lemma tasks_goto r ts j t' : entries_inv r ts → (∀ y, t' = TClosing y ∨ t' = TSettled y → is_Some (xr_heap r !! y)) →
  ∀ i y, <[j:=t']> ts !! i = Some (TClosing y) ∨ <[j:=t']> ts !! i = Some (TSettled y) → is_Some (xr_heap r !! y).
Proof.
  intros Hi Ht i y Hy.
  assert (ts !! i = Some (TClosing y) ∨ ts !! i = Some (TSettled y) ∨ t' = TClosing y ∨ t' = TSettled y) as [?|[?|?]].
  { destruct Hy as [Hy|Hy]; apply list_lookup_insert_Some in Hy as [(-> & <- & _)|(_ & Hy)]; auto. }
  - eapply (en_tasks _ _ Hi); eauto.
  - eapply (en_tasks _ _ Hi); eauto.
  - by apply Ht.
Qed.

Lemma task_settle_step w j x err : minv w → mw_tasks w !! j = Some (TClosing x) →
  ∃ w', mact (MTask j err) w = Ret w' ∧ minv w'.
Proof.
  intros Hi Hj. pose proof Hi as [_ He _ _ _]. unfold mact. rewrite Hj. unfold step_task, load_xentry.
  destruct (en_tasks _ _ He j x (or_introl Hj)) as [ex Hx]. rewrite Hx. cbn.
  pose proof (en_entry _ _ He _ _ Hx) as Hok.
  assert (closing_on x (TClosing x) = true) as Hself by (simpl; by rewrite bool_decide_eq_true_2).
  pose proof (count_pos (closing_on x) _ _ _ Hj Hself) as Hpos. unfold entry_ok in Hok.
  destruct (x_state ex) eqn:Hst; [lia|]. destruct Hok as [(Hcl & Hl & Hc & Hd & Hea)|(? & _ & ? & _)]; [|lia].
  rewrite Hcl. cbn. eexists. split; [done|].
  apply keeps_step; [done| |].
  - eapply entries_update; [done|done|done| |apply tasks_goto; [done|intros y [?|[= ->]]; [done|by eexists]]|].
    + intros y Hne. destruct (task_counts _ _ _ (TSettled x) y Hj) as [H1 H2]. simpl in H1, H2.
      rewrite bool_decide_eq_false_2 in H1, H2 by congruence. lia.
    + destruct (task_counts _ _ _ (TSettled x) x Hj) as [H1 H2]. simpl in H1, H2.
      rewrite bool_decide_eq_true_2 in H1, H2 by done. unfold entry_ok. simpl. right. exists err.
      split; [done|]. split; [lia|]. left. rewrite Hl, Hea. split_and!; [done|lia|done].
  - eapply set_xentry_keeps; [done|]. split_and!; try done. simpl. intros err' Hf. rewrite Hcl in Hf. done.
Qed.

(** The entry leaves the public lookup. *)
Lemma delist r ts j x ex :
  entries_inv r ts → ts !! j = Some (TSettled x) → xr_heap r !! x = Some ex →
  xr_entries r !! x_id ex = Some x ∧ x_state ex = registryStateClosing ∧ x_early ex = false ∧ (∃ err, x_close ex = finished err) ∧
  entries_inv (set_xentries (delete (x_id ex) (xr_entries r)) r) (<[j:=TDone]> ts).
Proof.
  intros Hi Hj Hx. pose proof (en_entry _ _ Hi _ _ Hx) as Hok. unfold entry_ok in Hok.
  assert (settled_on x (TSettled x) = true) as Hself by (simpl; by rewrite bool_decide_eq_true_2).
  pose proof (count_pos (settled_on x) _ _ _ Hj Hself) as Hpos.
  destruct (x_state ex) eqn:Hst; [lia|]. destruct Hok as [(_ & _ & _ & ? & _)|(err & Hcl & Hc & [(Hl & Hd & Hea)|[_ ?]])]; [lia| |lia].
  apply bool_decide_eq_true_1 in Hl. split_and!; try done; [by eexists|].
  destruct Hi as [Hn Hids Hli He Ht]. split; simpl; try done.
  - intros id y Hy. apply lookup_delete_Some in Hy as [_ Hy]. by apply Hli.
  - intros y ey Hy. destruct (task_counts _ _ _ TDone y Hj) as [H1 H2]. simpl in H1, H2.
    destruct (decide (y = x)) as [->|Hne].
    + assert (ey = ex) as -> by congruence. rewrite bool_decide_eq_false_2 by (by rewrite lookup_delete_eq).
      rewrite bool_decide_eq_true_2 in H2 by done. unfold entry_ok. rewrite Hst. right. exists err. split; [done|].
      split; [lia|]. right. split; [done|lia].
    + rewrite lookup_delete_ne by (intros Heq; apply Hne; by eapply Hids).
      rewrite bool_decide_eq_false_2 in H2 by congruence.
      replace (count (closing_on y) (<[j:=TDone]> ts)) with (count (closing_on y) ts) by lia.
      replace (count (settled_on y) (<[j:=TDone]> ts)) with (count (settled_on y) ts) by lia. by apply He.
  - apply (tasks_goto (mkExecutionRegistry (xr_entries r) (xr_bySession r) (xr_heap r) (xr_next r)));
      [by split|]. intros y [?|?]; done.
Qed.

Lemma delist_keeps r m : xkeeps r (set_xentries m r).
Proof. split; simpl; [|by eexists|done]. intros x ex Hx. exists ex. split; [done|apply same_identity_refl]. Qed.

(** [r'] differs from [r] in the group of session [sid] and in entries of it. *)
Lemma phase_other r r' e sid' (e0 : nat) a k :
  (∀ x ex', xr_heap r' !! x = Some ex' → x_parent ex' ≠ e0 →
     ∃ ex, xr_heap r !! x = Some ex ∧ x_id ex' = x_id ex ∧ x_parent ex' = x_parent ex ∧ x_early ex' = x_early ex) →
  (∀ x ex, xr_heap r !! x = Some ex → ∃ ex', xr_heap r' !! x = Some ex' ∧ x_close ex' = x_close ex) →
  xr_bySession r' !! sid' = xr_bySession r !! sid' → e ≠ e0 →
  phase r e sid' a k → phase r' e sid' a k.
Proof.
  intros Hold Hnew Hg Hne.
  assert (∀ P Q : nat → xentry → Prop, (∀ x ex ex', x_id ex' = x_id ex → P x ex → Q x ex') → due r e P → due r' e Q) as Hdue.
  { intros P Q HPQ Hd x ex' Hx' Hp He. destruct (Hold _ _ Hx') as (ex & Hx & Hid & Hpar & Hea); [congruence|].
    apply (HPQ x ex); [done|]. apply Hd; [done|congruence|congruence]. }
  assert (∀ acc x, collected r acc x → collected r' acc x) as Hcol.
  { intros acc x (ex & err & Hx & Hc & Hk). destruct (Hnew _ _ Hx) as (ex' & Hx' & Hcl). exists ex', err.
    split; [done|]. split; [congruence|done]. }
  destruct k as [[todo acc|n acc|acc]|]; simpl; rewrite Hg.
  - intros (Ha & Hgr & Hd). split; [done|]. split; [done|]. eapply Hdue; [|exact Hd]. simpl.
    intros x ex ex' _ [?|?]; [by left|right; by apply Hcol].
  - intros (Ha & Hgr & Hd). split; [done|]. split; [done|]. eapply Hdue; [|exact Hd]. simpl. intros x ex ex' _ ?. by apply Hcol.
  - intros (Ha & Hgr & Hd). split; [done|]. split; [done|]. eapply Hdue; [|exact Hd]. simpl. intros x ex ex' _ ?. by apply Hcol.
  - intros (Ha & Hgr & Hd). split; [done|]. split; [done|]. eapply Hdue; [|exact Hd]. simpl. intros x ex ex' -> ?. done.
Qed.

Lemma entries_groups r ts m : entries_inv r ts → entries_inv (set_bySession m r) ts.
Proof. by intros [? ? ? ? ?]. Qed.

(** The entry leaves its group: [early] when the session had not begun to close. *)
Definition leave (early : bool) (x : nat) (ex : xentry) (group : executionGroup) (r : executionRegistry) : executionRegistry :=
  let entries := if bool_decide (xg_entries group !! x_id ex = Some x)
                 then delete (x_id ex) (xg_entries group) else xg_entries group in
  let r := set_xentry x (mkXEntry (x_id ex) (x_session ex) (x_parent ex) (x_state ex) (x_close ex)
                           early)
             (set_bySession (<[x_session ex:=mkExecutionGroup (xg_parent group) (xg_state group) entries]> (xr_bySession r)) r) in
  if bool_decide (xg_state group = registryStateClosing) && bool_decide (entries = ∅)
  then set_bySession (delete (x_session ex) (xr_bySession r)) r else r.

Lemma leave_heap early x ex group r :
  xr_heap (leave early x ex group r) =
    <[x:=mkXEntry (x_id ex) (x_session ex) (x_parent ex) (x_state ex) (x_close ex)
           early]> (xr_heap r).
Proof. unfold leave. by destruct (_ && _). Qed.

(** The group of the session afterwards, if it is still there. *)
Lemma leave_group early x ex group r g : xr_bySession (leave early x ex group r) !! x_session ex = Some g →
  xg_parent g = xg_parent group ∧ xg_state g = xg_state group ∧
  (∀ id y, xg_entries g !! id = Some y → xg_entries group !! id = Some y) ∧
  (∀ id y, xg_entries group !! id = Some y → y ≠ x → xg_entries g !! id = Some y).
Proof.
  unfold leave. destruct (_ && _); simpl; [by rewrite lookup_delete_eq|]. rewrite lookup_insert_eq. intros [= <-]. simpl.
  split_and!; [done|done| |]; case_bool_decide as Hm; try done.
  - intros id y Hy. by apply lookup_delete_Some in Hy as [_ Hy].
  - intros id y Hy Hne. rewrite lookup_delete_ne; [done|]. intros <-. congruence.
Qed.

Lemma leave_active early x ex group r : xg_state group = registryStateActive →
  is_Some (xr_bySession (leave early x ex group r) !! x_session ex).
Proof. intros Ha. unfold leave. rewrite Ha. simpl. rewrite lookup_insert_eq. by eexists. Qed.

Lemma leave_other early x ex group r sid : sid ≠ x_session ex →
  xr_bySession (leave early x ex group r) !! sid = xr_bySession r !! sid.
Proof.
  intros Hne. unfold leave. destruct (_ && _); simpl.
  - by rewrite lookup_delete_ne, lookup_insert_ne.
  - by rewrite lookup_insert_ne.
Qed.

Lemma leave_entries early r ts x ex group :
  entries_inv r ts → xr_heap r !! x = Some ex → xr_entries r !! x_id ex ≠ Some x →
  x_state ex = registryStateClosing → (∃ err, x_close ex = finished err) → entries_inv (leave early x ex group r) ts.
Proof.
  intros Hi Hx Hun Hst [err Hcl]. pose proof (en_entry _ _ Hi _ _ Hx) as Hok. unfold entry_ok in Hok.
  rewrite bool_decide_eq_false_2, Hst in Hok by done.
  destruct Hok as [(_ & ? & _)|(err' & Hcl' & Hc & [(? & _)|[_ Hd]])]; [done|done|].
  assert (∀ b m, entries_inv (set_xentry x (mkXEntry (x_id ex) (x_session ex) (x_parent ex) (x_state ex) (x_close ex) b)
    (set_bySession m r)) ts) as Hset.
  { intros b m. eapply entries_update; [by apply entries_groups|exact Hx|done|done|apply (en_tasks _ _ Hi)|].
    simpl. rewrite bool_decide_eq_false_2 by done. unfold entry_ok. simpl. rewrite Hst. right. exists err.
    split; [done|]. split; [done|]. by right. }
  unfold leave. destruct (_ && _); [apply entries_groups|]; apply Hset.
Qed.

Lemma leave_links early s r x ex group :
  links s r → xr_heap r !! x = Some ex → xr_bySession r !! x_session ex = Some group → links s (leave early x ex group r).
Proof.
  intros [Hp Hg] Hx Hgr.
  assert (∀ y ey', xr_heap (leave early x ex group r) !! y = Some ey' → ∃ ey, xr_heap r !! y = Some ey ∧ x_id ey' = x_id ey ∧
    x_session ey' = x_session ey ∧ x_parent ey' = x_parent ey) as Hold.
  { intros y ey'. rewrite leave_heap. destruct (decide (y = x)) as [->|Hne].
    - rewrite lookup_insert_eq. intros [= <-]. by exists ex.
    - rewrite lookup_insert_ne by done. intros Hy. by exists ey'. }
  assert (∀ y ey, xr_heap r !! y = Some ey → ∃ ey', xr_heap (leave early x ex group r) !! y = Some ey' ∧ x_id ey' = x_id ey ∧
    x_session ey' = x_session ey) as Hnew.
  { intros y ey Hy. rewrite leave_heap. destruct (decide (y = x)) as [->|Hne].
    - rewrite lookup_insert_eq. eexists. split; [done|]. by assert (ey = ex) as -> by congruence.
    - rewrite lookup_insert_ne by done. by exists ey. }
  split.
  - intros y ey' Hy'. destruct (Hold _ _ Hy') as (ey & Hy & _ & Hs & Hpar). rewrite Hs, Hpar. by apply (Hp y).
  - intros sid g Hs. destruct (decide (sid = x_session ex)) as [->|Hne].
    + destruct (leave_group _ _ _ _ _ _ Hs) as (Hpar & _ & Hsub & _). rewrite Hpar.
      destruct (Hg _ _ Hgr) as [Hpp Hm]. split; [done|]. intros id y Hy. destruct (Hm _ _ (Hsub _ _ Hy)) as (ey & Hey & ? & ?).
      destruct (Hnew _ _ Hey) as (ey' & ? & ? & ?). exists ey'. split_and!; congruence.
    + rewrite leave_other in Hs by done. destruct (Hg _ _ Hs) as [Hpp Hm]. split; [done|].
      intros id y Hy. destruct (Hm _ _ Hy) as (ey & Hey & ? & ?). destruct (Hnew _ _ Hey) as (ey' & ? & ? & ?).
      exists ey'. split_and!; congruence.
Qed.

(** The session of the entry: the group keeps what is due. *)
Lemma leave_phase early r x ex group e a k :
  (∀ y z ey ez, xr_heap r !! y = Some ey → xr_heap r !! z = Some ez → x_id ey = x_id ez → y = z) →
  xr_heap r !! x = Some ex → x_early ex = false → xr_bySession r !! x_session ex = Some group →
  (xg_state group = registryStateActive → early = true) →
  phase r e (x_session ex) a k → phase (leave early x ex group r) e (x_session ex) a k.
Proof.
  intros Hids Hx Hea Hgr Hearly. pose proof (leave_heap early x ex group r) as Hh.
  assert (∀ acc y, collected r acc y → collected (leave early x ex group r) acc y) as Hcol.
  { intros acc y (ey & err & Hy & Hc & Hk). unfold collected. rewrite Hh. destruct (decide (y = x)) as [->|Hne].
    - assert (ey = ex) as -> by congruence. rewrite lookup_insert_eq. eexists _, err. by split_and!.
    - rewrite lookup_insert_ne by done. by exists ey, err. }
  destruct k as [[todo acc|n acc|acc]|]; simpl.
  - intros (Ha & Hst & Hd). pose proof (Hst _ Hgr) as Hs. split; [done|]. split.
    + intros g Hg. destruct (leave_group _ _ _ _ _ _ Hg) as (_ & -> & _). done.
    + intros y ey' Hy Hp He'. rewrite Hh in Hy. destruct (decide (y = x)) as [->|Hne].
      * rewrite lookup_insert_eq in Hy. inv Hy. simpl in *. destruct (Hd x ex Hx eq_refl Hea); [by left|right; by apply Hcol].
      * rewrite lookup_insert_ne in Hy by done. destruct (Hd y ey' Hy Hp He') as [?|?]; [by left|right; by apply Hcol].
  - intros (_ & Hn & _). congruence.
  - intros (_ & Hn & _). congruence.
  - intros (Ha & Hst & Hd). pose proof (Hst _ Hgr) as Hs. split; [done|]. split.
    + intros g Hg. destruct (leave_group _ _ _ _ _ _ Hg) as (_ & -> & _). done.
    + intros y ey' Hy Hp He'. rewrite Hh in Hy. destruct (decide (y = x)) as [->|Hne].
      * rewrite lookup_insert_eq in Hy. inv Hy. simpl in He'. by rewrite Hearly in He'.
      * rewrite lookup_insert_ne in Hy by done. destruct (Hd _ _ Hy Hp He') as (g & Hg & Hm).
        assert (g = group) as -> by congruence. destruct (leave_active early x ex group r Hs) as [g' Hg']. exists g'.
        split; [done|]. by apply (leave_group _ _ _ _ _ _ Hg').
Qed.

Lemma retire_step w j x err : minv w → mw_tasks w !! j = Some (TSettled x) →
  ∃ w', mact (MTask j err) w = Ret w' ∧ minv w'.
Proof.
  intros Hi Hj. pose proof Hi as [Hs He Hl Hp Hc]. unfold mact. rewrite Hj. unfold step_task, xfinishClose, load_xentry.
  destruct (en_tasks _ _ He j x (or_intror Hj)) as [ex Hx]. rewrite Hx. cbn.
  destruct (delist _ _ _ _ _ He Hj Hx) as (Hlist & Hst & Hea & Hfin & He1). rewrite bool_decide_eq_true_2 by done.
  set (r1 := set_xentries _ _) in *.
  assert (minv (set_tasks (<[j:=TDone]> (mw_tasks w)) (set_executions r1 w))) as H1.
  { apply keeps_step; [done|done|apply delist_keeps]. }
  simpl. destruct (xr_bySession (mw_executions w) !! x_session ex) as [group|] eqn:Hgr; [|by eexists].
  destruct (bool_decide (xg_state group = registryStateActive) && _) eqn:Hcond; [by eexists|].
  pose proof H1 as [_ _ Hl1 Hp1 _]. simpl in Hl1, Hp1. change (xr_bySession r1 !! x_session ex = Some group) in Hgr.
  exists (set_tasks (<[j:=TDone]> (mw_tasks w)) (set_executions (leave (negb (session_closeStarted (wd_registry (mw_sessions w)) (xg_parent group))) x ex group r1) w)). split.
  { unfold leave. simpl. by destruct (_ && bool_decide (_ = ∅)). }
  destruct (li_parent _ _ Hl1 x ex Hx) as (en0 & Hen0 & Hid0). destruct Hs as [Hb Hsh].
  split; simpl; [done| |by apply leave_links| |done].
  - apply leave_entries; try done. simpl. by rewrite lookup_delete_eq.
  - intros e en Hen. destruct (decide (e = x_parent ex)) as [->|Hne].
    + assert (en = en0) as -> by congruence. rewrite Hid0. apply leave_phase; try done; [apply (en_ids _ _ He1)| |].
      { intros Hact. rewrite bool_decide_eq_true_2 in Hcond by done. simpl in Hcond. by rewrite Hcond. }
      rewrite <- Hid0. by apply Hp1.
    + assert (en_id en ≠ x_session ex) as Hsid.
      { intros Heq. apply Hne. eapply (b_ids _ _ Hb); [done|done|congruence]. }
      eapply (phase_other r1 _ _ _ (x_parent ex)); [| |by apply leave_other|done|by apply Hp1].
      * intros y ey'. rewrite leave_heap. destruct (decide (y = x)) as [->|Hyx].
        -- rewrite lookup_insert_eq. by intros [= <-].
        -- rewrite lookup_insert_ne by done. intros Hy _. by exists ey'.
      * intros y ey Hy. change (xr_heap (mw_executions w) !! y = Some ey) in Hy.
        rewrite leave_heap. destruct (decide (y = x)) as [->|Hyx].
        -- rewrite lookup_insert_eq. eexists. split; [done|]. by assert (ey = ex) as -> by congruence.
        -- rewrite lookup_insert_ne by done. by exists ey.
Qed.

(** ** The close of a session *)

Lemma close_children_ok order : ∀ r ts,
  entries_inv r ts → Forall (λ x, is_Some (xr_heap r !! x)) order →
  ∃ children r', close_children order r = Ret (children, r') ∧ map fst children = order ∧
    entries_inv r' (ts ++ child_tasks children) ∧ xkeeps r r'.
Proof.
  induction order as [|x order IH]; intros r ts Hi Hall; simpl.
  { exists [], r. simpl. rewrite app_nil_r. split_and!; try done. apply xkeeps_refl. }
  apply Forall_cons in Hall as [[ex Hx] Hall].
  destruct (beginCloseLocked_ok r ts x ex Hi Hx) as (owner & r1 & -> & Hi1 & Hk1). cbn.
  destruct (IH r1 _ Hi1) as (children & r2 & -> & Hf & Hi2 & Hk2).
  { eapply Forall_impl; [done|]. intros y [ey Hy]. destruct (xk_old _ _ Hk1 _ _ Hy) as (ey' & ? & _). by exists ey'. }
  cbn. eexists _, r2. split; [done|]. split; [by rewrite <- Hf|]. split; [|by eapply xkeeps_trans].
  rewrite <- app_assoc in Hi2. destruct owner; done.
Qed.

(** The groups change, their members do not. *)
Lemma links_regroup s r m :
  links s r →
  (∀ sid g, m !! sid = Some g → ∃ g0, xr_bySession r !! sid = Some g0 ∧ xg_parent g = xg_parent g0 ∧
     ∀ id x, xg_entries g !! id = Some x → xg_entries g0 !! id = Some x) →
  links s (set_bySession m r).
Proof.
  intros [Hp Hg] Hm. split; simpl; [done|]. intros sid g Hs. destruct (Hm _ _ Hs) as (g0 & Hs0 & Hpar & Hsub).
  destruct (Hg _ _ Hs0) as [Hpp Hmm]. rewrite Hpar. split; [done|]. intros id x Hx. by apply Hmm, Hsub.
Qed.

Lemma phase_regroup r m e sid a k : m !! sid = xr_bySession r !! sid → phase r e sid a k → phase (set_bySession m r) e sid a k.
Proof.
  intros Hm. destruct k as [[todo acc|n acc|acc]|]; simpl; rewrite Hm; done.
Qed.

(** A closing session worker that waited for the creators. *)
Lemma closing_gate (s : world (G := G)) i e en : inv s → wd_workers s !! i = Some (WSession e) →
  r_entryHeap (wd_registry s) !! e = Some en → gs_Idle (en_children en) = true → gs_abs (en_children en) = AClosing 0.
Proof.
  intros [Hb _] Hw He Hidle. destruct (b_entry _ _ Hb _ _ He) as (_ & Hwf & _ & Hei). rewrite gs_idle_ok in Hidle by done.
  assert (1 ≤ count (closes_session e) (wd_workers s))%nat as Hpos.
  { eapply count_pos; [done|]. simpl. by rewrite bool_decide_eq_true_2. }
  destruct (en_state en); simpl in Hei; [lia|]. destruct Hei as [[Ha _]|(err & _ & _ & ?)]; [|lia].
  rewrite Ha in Hidle |- *. simpl in Hidle. apply bool_decide_eq_true_1 in Hidle. by rewrite Hidle.
Qed.

(** What [beginSessionClose] does to a session whose group is [group]. *)
Lemma beginSessionClose_ok r ts sid group order :
  entries_inv r ts → xr_bySession r !! sid = Some group → order ≡ₚ map snd (map_to_list (xg_entries group)) →
  (∀ id x, xg_entries group !! id = Some x → is_Some (xr_heap r !! x)) →
  ∃ children r' r2, beginSessionClose sid order r = Ret (children, r') ∧ map fst children = order ∧
    entries_inv r' (ts ++ child_tasks children) ∧
    xkeeps (set_bySession (<[sid:=mkExecutionGroup (xg_parent group) registryStateClosing (xg_entries group)]> (xr_bySession r)) r) r2 ∧
    (r' = r2 ∨ r' = set_bySession (delete sid (xr_bySession r2)) r2).
Proof.
  intros Hi Hg Hord Hm. unfold beginSessionClose. rewrite Hg. set (r1 := set_bySession _ r).
  destruct (close_children_ok order r1 ts (entries_groups _ _ _ Hi)) as (children & r2 & -> & Hf & Hi2 & Hk).
  { apply Forall_forall. intros x Hx. rewrite Hord in Hx. apply list_elem_of_fmap in Hx as ([id y] & -> & Hx).
    apply elem_of_map_to_list in Hx. by apply (Hm id). }
  cbn. eexists _, _, r2. split; [done|]. split; [done|].
  case_bool_decide; (split; [by try apply entries_groups|split; [done|auto]]).
Qed.

(** A group that stops accepting members, and may disappear. *)
Lemma closing_links s r r' r2 sid group :
  links s r → xr_bySession r !! sid = Some group →
  xkeeps (set_bySession (<[sid:=mkExecutionGroup (xg_parent group) registryStateClosing (xg_entries group)]> (xr_bySession r)) r) r2 →
  (r' = r2 ∨ r' = set_bySession (delete sid (xr_bySession r2)) r2) → links s r'.
Proof.
  intros Hl Hg Hk Hr.
  assert (links s r2) as Hl2.
  { eapply links_keeps; [done|]. apply links_regroup; [done|]. intros sid' g Hg'. destruct (decide (sid' = sid)) as [->|Hne].
    - rewrite lookup_insert_eq in Hg'. inv Hg'. by exists group.
    - rewrite lookup_insert_ne in Hg' by done. by exists g. }
  destruct Hr as [->| ->]; [done|]. apply links_regroup; [done|]. intros sid' g Hg'.
  apply lookup_delete_Some in Hg' as [_ Hg']. by exists g.
Qed.

Lemma closing_phase_other r r' r2 sid group e sid' a k :
  xkeeps (set_bySession (<[sid:=mkExecutionGroup (xg_parent group) registryStateClosing (xg_entries group)]> (xr_bySession r)) r) r2 →
  (r' = r2 ∨ r' = set_bySession (delete sid (xr_bySession r2)) r2) → sid' ≠ sid →
  phase r e sid' a k → phase r' e sid' a k.
Proof.
  intros Hk Hr Hne Hph.
  assert (phase r2 e sid' a k) as Hph2.
  { eapply phase_keeps; [done|]. apply phase_regroup; [by rewrite lookup_insert_ne|done]. }
  destruct Hr as [->| ->]; [done|]. apply phase_regroup; [by rewrite lookup_delete_ne|done].
Qed.

Lemma closing_phase r r' r2 sid group e order :
  xr_bySession r !! sid = Some group → order ≡ₚ map snd (map_to_list (xg_entries group)) →
  xkeeps (set_bySession (<[sid:=mkExecutionGroup (xg_parent group) registryStateClosing (xg_entries group)]> (xr_bySession r)) r) r2 →
  (r' = r2 ∨ r' = set_bySession (delete sid (xr_bySession r2)) r2) →
  due r e (λ x ex, ∃ g, xr_bySession r !! sid = Some g ∧ xg_entries g !! x_id ex = Some x) →
  phase r' e sid (AClosing 0) (Some (KJoin order None)).
Proof.
  intros Hg Hord Hk Hr Hdue. assert (xr_heap r' = xr_heap r2) as Hh by (by destruct Hr as [->| ->]).
  split; [done|]. split.
  - intros g Hg'. assert (xr_bySession r2 !! sid = Some g) as Hg2.
    { destruct Hr as [->| ->]; [done|]. simpl in Hg'. by rewrite lookup_delete_eq in Hg'. }
    rewrite (xk_groups _ _ Hk) in Hg2. simpl in Hg2. rewrite lookup_insert_eq in Hg2. by inv Hg2.
  - intros x ex' Hx Hpar Hea. left. rewrite Hh in Hx. destruct (xk_new _ _ Hk _ _ Hx) as [ex Hx0].
    destruct (xk_old _ _ Hk _ _ Hx0) as (ex1 & Hx1 & Hid & _ & Hpr & Her & _). assert (ex1 = ex') as -> by congruence.
    destruct (Hdue x ex Hx0) as (g & Hgg & Hm); [congruence|congruence|]. assert (g = group) as -> by congruence.
    rewrite Hord. apply list_elem_of_fmap. exists (x_id ex, x). split; [done|]. by apply elem_of_map_to_list.
Qed.

Lemma collect_step w i order w' : minv w → mact (MCollect i order) w = Ret w' → minv w'.
Proof.
  intros Hi Hact. pose proof Hi as [Hs He Hl Hp Hc]. unfold mact in Hact.
  destruct (wd_workers (mw_sessions w) !! i) as [[]|] eqn:Hw; try done.
  destruct (load_entry e (wd_registry (mw_sessions w))) as [en|m|] eqn:Hen; [|done|done]. apply load_entry_Some in Hen.
  cbn in Hact. destruct (_ && _ && _) eqn:Hcond; [|done].
  apply andb_true_iff in Hcond as [[Hidle Hnone%bool_decide_eq_true_1]%andb_true_iff Hord%bool_decide_eq_true_1].
  pose proof (closing_gate _ _ _ _ Hs Hw Hen Hidle) as Hgate. pose proof (Hp _ _ Hen) as Hphase.
  rewrite Hnone in Hphase. destruct Hphase as (_ & _ & Hdue).
  assert (∀ k, is_Some (<[e:=k]> (mw_closers w) !! e) → ∀ e' k', <[e:=k]> (mw_closers w) !! e' = Some k' →
    is_Some (r_entryHeap (wd_registry (mw_sessions w)) !! e')) as Hcl.
  { intros k _ e' k' Hk'. destruct (decide (e' = e)) as [->|Hne]; [by exists en|].
    rewrite lookup_insert_ne in Hk' by done. by eapply Hc. }
  destruct (xr_bySession (mw_executions w) !! en_id en) as [group|] eqn:Hgr.
  - destruct (beginSessionClose_ok (mw_executions w) (mw_tasks w) (en_id en) group order He Hgr Hord)
      as (children & r' & r2 & Hb & Hf & He' & Hk & Hr).
    { intros id x Hx. destruct (li_group _ _ Hl _ _ Hgr) as [_ Hm]. destruct (Hm _ _ Hx) as (ex & ? & _). by exists ex. }
    rewrite Hb in Hact. cbn in Hact. inv Hact.
    split; simpl; [done|done|by eapply closing_links| |eapply Hcl; rewrite lookup_insert_eq; by eexists].
    intros e' en' Hen'. destruct (decide (e' = e)) as [->|Hne].
    + rewrite lookup_insert_eq. assert (en' = en) as -> by congruence. rewrite Hgate. eapply closing_phase; try done.
      rewrite Hgr. done.
    + rewrite lookup_insert_ne by done. eapply closing_phase_other; [done|done| |by apply Hp].
      intros Heq. apply Hne. destruct Hs as [Hb' _]. by eapply (b_ids _ _ Hb').
  - unfold beginSessionClose in Hact. rewrite Hgr in Hact. cbn in Hact. inv Hact. simpl. rewrite app_nil_r.
    split; simpl; [done|done|done| |eapply Hcl; rewrite lookup_insert_eq; by eexists].
    intros e' en' Hen'. destruct (decide (e' = e)) as [->|Hne]; [|rewrite lookup_insert_ne by done; by apply Hp].
    rewrite lookup_insert_eq. assert (en' = en) as -> by congruence. split; [done|]. split; [congruence|].
    intros x ex Hx Hpar Hea. destruct (Hdue x ex Hx Hpar Hea) as (g & Hg & _). congruence.
Qed.

(** The close worker of one session moves on. *)
Lemma closer_step w r' e en k :
  minv w → r_entryHeap (wd_registry (mw_sessions w)) !! e = Some en →
  entries_inv r' (mw_tasks w) → links (wd_registry (mw_sessions w)) r' →
  phase r' e (en_id en) (gs_abs (en_children en)) (Some k) →
  (∀ e' en', r_entryHeap (wd_registry (mw_sessions w)) !! e' = Some en' → e' ≠ e → en_id en' ≠ en_id en →
     phase (mw_executions w) e' (en_id en') (gs_abs (en_children en')) (mw_closers w !! e') →
     phase r' e' (en_id en') (gs_abs (en_children en')) (mw_closers w !! e')) →
  minv (set_closer e k (set_executions r' w)).
Proof.
  intros [Hs He Hl Hp Hc] Hen He' Hl' Hph Hoth. split; simpl; [done|done|done| |].
  - intros e' en' Hen'. destruct (decide (e' = e)) as [->|Hne].
    + rewrite lookup_insert_eq. by assert (en' = en) as -> by congruence.
    + rewrite lookup_insert_ne by done. apply Hoth; [done|done| |by apply Hp].
      intros Heq. apply Hne. destruct Hs as [Hb _]. by eapply (b_ids _ _ Hb).
  - intros e' k' Hk'. destruct (decide (e' = e)) as [->|Hne]; [by exists en|].
    rewrite lookup_insert_ne in Hk' by done. by eapply Hc.
Qed.

Lemma closer_same w e en k : minv w → r_entryHeap (wd_registry (mw_sessions w)) !! e = Some en →
  phase (mw_executions w) e (en_id en) (gs_abs (en_children en)) (Some k) → minv (set_closer e k w).
Proof.
  intros Hi Hen Hph. replace (set_closer e k w) with (set_closer e k (set_executions (mw_executions w) w)) by (by destruct w).
  pose proof Hi as [Hs He Hl Hp Hc]. by eapply closer_step.
Qed.

Lemma is_err_join_l a b k : is_err a k = true → is_err (errors_Join [a; b]) k = true.
Proof. intros Ha. rewrite errors_Join_Is. simpl. by rewrite Ha. Qed.

Lemma is_err_join_r a b k : is_err b k = true → is_err (errors_Join [a; b]) k = true.
Proof. intros Hb. rewrite errors_Join_Is. simpl. rewrite Hb. by rewrite orb_true_r. Qed.

Lemma is_err_plan p a k : is_err a k = true → is_err (join_plan p a) k = true.
Proof. intros Ha. destruct p as [b|]; [|done]. by apply is_err_join_l. Qed.

Lemma collected_weaken r acc acc' x : (∀ k, is_err acc k = true → is_err acc' k = true) → collected r acc x → collected r acc' x.
Proof. intros Hw (ex & err & Hx & Hc & Hk). exists ex, err. split_and!; auto. Qed.

Lemma due_weaken r e (P Q : nat → xentry → Prop) : (∀ x ex, xr_heap r !! x = Some ex → P x ex → Q x ex) → due r e P → due r e Q.
Proof. intros HPQ Hd x ex Hx Hp He. apply HPQ; [done|]. by apply Hd. Qed.

Lemma closer_phase w e k : minv w → mw_closers w !! e = Some k →
  ∃ en, r_entryHeap (wd_registry (mw_sessions w)) !! e = Some en ∧
    phase (mw_executions w) e (en_id en) (gs_abs (en_children en)) (Some k).
Proof.
  intros Hi Hk. destruct (mi_closers _ Hi _ _ Hk) as [en Hen]. exists en. split; [done|].
  rewrite <- Hk. by apply (mi_phase _ Hi).
Qed.

Lemma join_child_step w e w' : minv w → mact (MJoin e) w = Ret w' → minv w'.
Proof.
  intros Hi Hact. unfold mact in Hact. destruct (mw_closers w !! e) as [[[|x todo] acc|n acc|acc]|] eqn:Hk; try done.
  destruct (closer_phase _ _ _ Hi Hk) as (en & Hen & Hph). unfold closed_result in Hact.
  destruct (xr_heap (mw_executions w) !! x) as [ex|] eqn:Hx; [|done].
  destruct (Finished (x_close ex)) eqn:Hf; [|done]. inv Hact. destruct Hph as (Ha & Hg & Hd).
  eapply closer_same; [done..|]. split; [done|]. split; [done|]. eapply due_weaken; [|exact Hd]. simpl.
  intros y ey Hy [Hin|Hcol].
  - apply elem_of_cons in Hin as [->|Hin]; [right|by left]. assert (ey = ex) as -> by congruence.
    pose proof (en_entry _ _ (mi_entries _ Hi) _ _ Hx) as Hok. unfold entry_ok, Finished in *.
    apply bool_decide_eq_true_1 in Hf.
    destruct (x_state ex); [destruct Hok as [Hcl _]; by rewrite Hcl in Hf|].
    destruct Hok as [[Hcl _]|(err & Hcl & _)]; [by rewrite Hcl in Hf|].
    exists ex, err. split; [done|]. split; [done|]. intros k Hk'. rewrite Hcl. by apply is_err_join_r.
  - right. eapply collected_weaken; [|done]. intros k. by apply is_err_join_l.
Qed.

Lemma group_done_step w e hooks w' : minv w → mact (MGroup e hooks) w = Ret w' → minv w'.
Proof.
  intros Hi Hact. unfold mact in Hact. destruct (mw_closers w !! e) as [[[|x todo] acc|n acc|acc]|] eqn:Hk; try done.
  destruct (closer_phase _ _ _ Hi Hk) as (en & Hen & Ha & Hg & Hd). unfold load_entry in Hact. rewrite Hen in Hact. cbn in Hact. inv Hact.
  pose proof Hi as [Hs He Hl Hp Hc]. eapply closer_step; [done..| | | |].
  - by apply entries_groups.
  - apply links_regroup; [done|]. intros sid g Hg'. apply lookup_delete_Some in Hg' as [_ Hg']. by exists g.
  - split; [done|]. split; [apply lookup_delete_eq|]. intros x ex Hx Hpar Hea.
    destruct (Hd x ex Hx Hpar Hea) as [Hin|?]; [|done]. by apply elem_of_nil in Hin.
  - intros e' en' Hen' Hne Hsid Hph. apply phase_regroup; [by rewrite lookup_delete_ne|done].
Qed.

Lemma hook_step w e err w' : minv w → mact (MHook e err) w = Ret w' → minv w'.
Proof.
  intros Hi Hact. unfold mact in Hact. destruct (mw_closers w !! e) as [[todo acc|[|n] acc|acc]|] eqn:Hk; try done.
  destruct (closer_phase _ _ _ Hi Hk) as (en & Hen & Ha & Hg & Hd). inv Hact.
  eapply closer_same; [done..|]. split; [done|]. split; [done|]. eapply due_weaken; [|exact Hd]. intros x ex _.
  apply collected_weaken. intros k. by apply is_err_join_l.
Qed.

Lemma plans_step w e plan debugPlan w' : minv w → mact (MPlans e plan debugPlan) w = Ret w' → minv w'.
Proof.
  intros Hi Hact. unfold mact in Hact. destruct (mw_closers w !! e) as [[todo acc|[|n] acc|acc]|] eqn:Hk; try done.
  destruct (closer_phase _ _ _ Hi Hk) as (en & Hen & Ha & Hg & Hd). inv Hact.
  eapply closer_same; [done..|]. split; [by left|]. split; [done|]. eapply due_weaken; [|exact Hd]. intros x ex _.
  apply collected_weaken. intros k Hk'. by apply is_err_plan, is_err_plan.
Qed.

(** A step of the session registry keeps its invariant. *)
Lemma session_keeps a (s s' : world (G := G)) : inv s → act a s = Ret s' → inv s'.
Proof. intros Hi Ha. pose proof (act_keeps a s Hi) as Hk. by rewrite Ha in Hk. Qed.

Lemma publish_result_step w i w' : minv w → mact (MPublish i) w = Ret w' → minv w'.
Proof.
  intros Hi Hact. unfold mact in Hact.
  destruct (wd_workers (mw_sessions w) !! i) as [[]|] eqn:Hw; try done.
  destruct (mw_closers w !! e) as [[todo acc|n acc|acc]|] eqn:Hk; try done.
  destruct (act (AStep i (Result acc)) (mw_sessions w)) as [s'|m|] eqn:Ha; [|done|done]. cbn in Hact. inv Hact.
  pose proof Hi as [Hs He Hl Hp Hc].
  destruct (publish_evolves i acc e _ _ Hs Hw Ha) as (en & en' & Hen & Hga & Hga' & Hid & Hheap & _).
  split; simpl; [by eapply session_keeps|done| | |].
  - destruct Hl as [Hpar Hgrp]. split.
    + intros x ex Hx. destruct (Hpar _ _ Hx) as (en1 & Hen1 & Hid1). rewrite Hheap. destruct (decide (x_parent ex = e)) as [Heq|Hne].
      * rewrite Heq in *. rewrite lookup_insert_eq. exists en'. split; [done|]. congruence.
      * rewrite lookup_insert_ne by done. by exists en1.
    + intros sid g Hg. destruct (Hgrp _ _ Hg) as [(en1 & Hen1 & Hid1) Hm]. split; [|done]. rewrite Hheap.
      destruct (decide (xg_parent g = e)) as [Heq|Hne].
      * rewrite Heq in *. rewrite lookup_insert_eq. exists en'. split; [done|]. congruence.
      * rewrite lookup_insert_ne by done. by exists en1.
  - intros e1 en1 Hen1. rewrite Hheap in Hen1. destruct (decide (e1 = e)) as [->|Hne].
    + rewrite lookup_insert_eq in Hen1. inv Hen1. rewrite Hk, Hga', Hid. pose proof (Hp _ _ Hen) as Hph. rewrite Hk in Hph.
      destruct Hph as (_ & Hg & Hd). split; [by right|done].
    + rewrite lookup_insert_ne in Hen1 by done. by apply Hp.
  - intros e1 k1 Hk1. rewrite Hheap. destruct (decide (e1 = e)) as [->|Hne]; [rewrite lookup_insert_eq; by eexists|].
    rewrite lookup_insert_ne by done. by eapply Hc.
Qed.

(** ** The creation of an execution *)

Lemma x_unused_spec id r : x_unused id r = true → ∀ x ex, xr_heap r !! x = Some ex → x_id ex ≠ id.
Proof.
  intros Hu x ex Hx Heq. unfold x_unused in Hu. rewrite forallb_forall in Hu.
  specialize (Hu (x, ex)). rewrite <- list_elem_of_In, elem_of_map_to_list in Hu. specialize (Hu Hx). simpl in Hu.
  by rewrite bool_decide_eq_true_2 in Hu.
Qed.

(** A session with a creator has not been collected. *)
Lemma creating_open w i e en : minv w → wd_workers (mw_sessions w) !! i = Some (WRuntime e) →
  r_entryHeap (wd_registry (mw_sessions w)) !! e = Some en → mw_closers w !! e = None.
Proof.
  intros Hi Hw Hen. pose proof (mi_sessions _ Hi) as [Hb _]. destruct (b_entry _ _ Hb _ _ Hen) as (_ & _ & _ & Hei).
  assert (1 ≤ count (runtimes_on e) (wd_workers (mw_sessions w)))%nat as Hpos.
  { eapply count_pos; [done|]. simpl. by rewrite bool_decide_eq_true_2. }
  destruct (mw_closers w !! e) as [k|] eqn:Hk; [exfalso|done].
  assert (gs_abs (en_children en) ≠ AClosing 0 ∧ ∀ err, gs_abs (en_children en) ≠ AClosed err) as [Hn1 Hn2].
  { destruct (en_state en); simpl in Hei.
    - destruct Hei as [Ha _]. rewrite Ha. done.
    - destruct Hei as [[Ha _]|(err & _ & ? & _)]; [|lia]. rewrite Ha. split; [|done]. intros [= Hz]. lia. }
  destruct (closer_phase _ _ _ Hi Hk) as (en1 & Hen1 & Hph). assert (en1 = en) as -> by congruence.
  destruct k as [todo acc|n acc|acc]; simpl in Hph; [by destruct Hph|by destruct Hph|].
  destruct Hph as ([?|?] & _); [done|by eapply Hn2].
Qed.

Definition added (id sid : string) (e : nat) (group : executionGroup) (r : executionRegistry) : executionRegistry :=
  mkExecutionRegistry (<[id:=xr_next r]> (xr_entries r))
    (<[sid:=mkExecutionGroup (xg_parent group) (xg_state group) (<[id:=xr_next r]> (xg_entries group))]> (xr_bySession r))
    (<[xr_next r:=mkXEntry id sid e registryStateActive newCloseOperation false]> (xr_heap r)) (S (xr_next r)).

Lemma fresh_x r ts : entries_inv r ts → xr_heap r !! xr_next r = None.
Proof.
  intros Hi. destruct (xr_heap r !! xr_next r) as [ex|] eqn:Hx; [|done]. pose proof (en_next _ _ Hi _ _ Hx). lia.
Qed.

Lemma added_entries id sid e group r ts :
  entries_inv r ts → x_unused id r = true → entries_inv (added id sid e group r) ts.
Proof.
  intros Hi Hu. pose proof (fresh_x _ _ Hi) as Hf. pose proof (x_unused_spec _ _ Hu) as Hun.
  destruct Hi as [Hn Hids Hli He Ht].
  assert (∀ y ey, <[xr_next r:=mkXEntry id sid e registryStateActive newCloseOperation false]> (xr_heap r) !! y = Some ey →
    (y = xr_next r ∧ x_id ey = id) ∨ (y ≠ xr_next r ∧ xr_heap r !! y = Some ey ∧ x_id ey ≠ id)) as Hcase.
  { intros y ey Hy. destruct (decide (y = xr_next r)) as [->|Hne].
    - rewrite lookup_insert_eq in Hy. inv Hy. by left.
    - rewrite lookup_insert_ne in Hy by done. right. split; [done|]. split; [done|]. by eapply Hun. }
  split; simpl.
  - intros y ey Hy. destruct (Hcase _ _ Hy) as [[-> _]|(_ & Hy' & _)]; [lia|]. specialize (Hn _ _ Hy'). lia.
  - intros y z ey ez Hy Hz Heq. destruct (Hcase _ _ Hy) as [[-> ?]|(? & Hy' & ?)], (Hcase _ _ Hz) as [[-> ?]|(? & Hz' & ?)];
      try congruence. by eapply Hids.
  - intros id' y Hy. destruct (decide (id' = id)) as [->|Hne].
    + rewrite lookup_insert_eq in Hy. inv Hy. rewrite lookup_insert_eq. by eexists.
    + rewrite lookup_insert_ne in Hy by done. destruct (Hli _ _ Hy) as (ey & Hey & ?). exists ey. split; [|done].
      rewrite lookup_insert_ne; [done|]. intros <-. congruence.
  - intros y ey Hy. destruct (decide (y = xr_next r)) as [->|Hne].
    + rewrite lookup_insert_eq in Hy. inv Hy. simpl. rewrite lookup_insert_eq, bool_decide_eq_true_2 by done.
      unfold entry_ok. simpl. split_and!; try done.
      * destruct (count (closing_on (xr_next r)) ts) eqn:Hc; [done|].
        destruct (count_witness (closing_on (xr_next r)) ts) as (j & [z|z|] & Hj & Hz); [lia|simpl in Hz|done|done].
        apply bool_decide_eq_true_1 in Hz as ->. destruct (Ht j _ (or_introl Hj)). congruence.
      * destruct (count (settled_on (xr_next r)) ts) eqn:Hc; [done|].
        destruct (count_witness (settled_on (xr_next r)) ts) as (j & [z|z|] & Hj & Hz); [lia|done|simpl in Hz|done].
        apply bool_decide_eq_true_1 in Hz as ->. destruct (Ht j _ (or_intror Hj)). congruence.
    + rewrite lookup_insert_ne in Hy by done. rewrite lookup_insert_ne by (intros Heq; by eapply Hun). by apply He.
  - intros j y Hj. destruct (Ht j y Hj) as [ey Hey]. exists ey. rewrite lookup_insert_ne; [done|]. intros <-. congruence.
Qed.

Lemma added_old id sid e group r ts y ey : entries_inv r ts →
  xr_heap r !! y = Some ey → xr_heap (added id sid e group r) !! y = Some ey.
Proof. intros Hi Hy. simpl. rewrite lookup_insert_ne; [done|]. intros <-. pose proof (fresh_x _ _ Hi). congruence. Qed.

(** [group] is the group of the session [e], or a new one. *)
Definition group_of (s : registry (G := G)) (r : executionRegistry) (sid : string) (group : executionGroup) : Prop :=
  (∃ en, r_entryHeap s !! xg_parent group = Some en ∧ en_id en = sid) ∧
  (∀ id x, xg_entries group !! id = Some x → ∃ ex, xr_heap r !! x = Some ex ∧ x_id ex = id ∧ x_session ex = sid) ∧
  ∀ g, xr_bySession r !! sid = Some g → g = group.

Lemma added_links s r ts id e en group :
  entries_inv r ts → links s r → r_entryHeap s !! e = Some en → group_of s r (en_id en) group →
  links s (added id (en_id en) e group r).
Proof.
  intros Hi [Hp Hg] Hen (Hpar & Hmem & _).
  assert (∀ id' x, (∃ ex, xr_heap r !! x = Some ex ∧ x_id ex = id' ∧ x_session ex = en_id en) →
    ∃ ex, xr_heap (added id (en_id en) e group r) !! x = Some ex ∧ x_id ex = id' ∧ x_session ex = en_id en) as Hup.
  { intros id' x (ex & Hx & ?). exists ex. split; [by eapply added_old|done]. }
  split.
  - intros y ey Hy. simpl in Hy. destruct (decide (y = xr_next r)) as [->|Hne].
    + rewrite lookup_insert_eq in Hy. inv Hy. by exists en.
    + rewrite lookup_insert_ne in Hy by done. by apply (Hp y).
  - intros sid g Hs. simpl in Hs. destruct (decide (sid = en_id en)) as [->|Hne].
    + rewrite lookup_insert_eq in Hs. inv Hs. simpl. split; [done|]. intros id' y Hy. destruct (decide (id' = id)) as [->|Hid].
      * rewrite lookup_insert_eq in Hy. inv Hy. rewrite lookup_insert_eq. by eexists.
      * rewrite lookup_insert_ne in Hy by done. by apply Hup, Hmem.
    + rewrite lookup_insert_ne in Hs by done. destruct (Hg _ _ Hs) as [Hpp Hm]. split; [done|].
      intros id' y Hy. destruct (Hm _ _ Hy) as (ey & ? & ?). exists ey. split; [by eapply added_old|done].
Qed.

(** The session itself keeps its phase: the new execution is in its group. *)
Lemma added_phase s r ts id e sid group a :
  entries_inv r ts → x_unused id r = true → group_of s r sid group → xg_state group = registryStateActive →
  phase r e sid a None → phase (added id sid e group r) e sid a None.
Proof.
  intros Hi Hu (_ & _ & Hgr) Hst (Ha & _ & Hdue). split; [done|]. split.
  - intros g Hg. simpl in Hg. rewrite lookup_insert_eq in Hg. by inv Hg.
  - intros y ey Hy Hpar Hea. simpl in Hy. eexists. split; [apply lookup_insert_eq|]. simpl.
    destruct (decide (y = xr_next r)) as [->|Hyn].
    + rewrite lookup_insert_eq in Hy. inv Hy. simpl. by rewrite lookup_insert_eq.
    + rewrite lookup_insert_ne in Hy by done. destruct (Hdue y ey Hy Hpar Hea) as (g & Hg & Hm).
      rewrite (Hgr _ Hg) in Hm. rewrite lookup_insert_ne; [done|]. intros Heq. by apply (x_unused_spec _ _ Hu y ey).
Qed.

Lemma add_step w i w' : minv w → mact (MAdd i) w = Ret w' → minv w'.
Proof.
  intros Hi Hact. unfold mact in Hact. destruct (mw_pending w !! i) as [id|]; [|done].
  destruct (wd_workers (mw_sessions w) !! i) as [[]|] eqn:Hw; try done.
  destruct (load_entry e (wd_registry (mw_sessions w))) as [en|m|] eqn:Hen; [|done|done]. apply load_entry_Some in Hen.
  cbn in Hact. destruct (x_unused id (mw_executions w)) eqn:Hu; [|done].
  pose proof (creating_open _ _ _ _ Hi Hw Hen) as Hnone. pose proof Hi as [Hs He Hl Hp Hc].
  pose proof (Hp _ _ Hen) as Hph. rewrite Hnone in Hph. pose proof Hph as (_ & Hact0 & _).
  set (r := mw_executions w) in *.
  set (group := default (mkExecutionGroup e registryStateActive ∅) (xr_bySession r !! en_id en)) in *.
  assert (xg_state group = registryStateActive ∧ group_of (wd_registry (mw_sessions w)) r (en_id en) group) as [Hga Hgo].
  { unfold group, group_of. destruct (xr_bySession r !! en_id en) as [g|] eqn:Hg; simpl.
    - split; [by apply Hact0|]. destruct (li_group _ _ Hl _ _ Hg) as [? ?]. split_and!; try done. congruence.
    - split; [done|]. split_and!; [by exists en| |done]. intros id' x Hx. by rewrite lookup_empty in Hx. }
  assert (w' = mkMWorld (mw_sessions w) (added id (en_id en) e group r) (delete i (mw_pending w)) (mw_tasks w) (mw_closers w)) as ->.
  { unfold add in Hact. destruct (bool_decide (is_Some (xr_entries r !! id))) eqn:Hex; [done|]. simpl in Hact. fold group in Hact.
    rewrite bool_decide_eq_false_2 in Hact by (rewrite Hga; by intros []). cbn in Hact. by inv Hact. }
  split; simpl; [done|by apply added_entries|by eapply added_links| |done].
  intros e' en' Hen'. destruct (decide (e' = e)) as [->|Hne].
  - assert (en' = en) as -> by congruence. rewrite Hnone. by eapply added_phase.
  - eapply (phase_other r _ _ _ e); [| | |done|by apply Hp].
    + intros y ey' Hy Hpar. simpl in Hy. destruct (decide (y = xr_next r)) as [->|Hyn].
      * rewrite lookup_insert_eq in Hy. by inv Hy.
      * rewrite lookup_insert_ne in Hy by done. by exists ey'.
    + intros y ey Hy. exists ey. split; [by eapply added_old|done].
    + simpl. rewrite lookup_insert_ne; [done|]. intros Heq. apply Hne. destruct Hs as [Hb _]. by eapply (b_ids _ _ Hb).
Qed.

Lemma add_safe w i : minv w → safe (mact (MAdd i) w).
Proof.
  intros Hi m. unfold mact. destruct (mw_pending w !! i) as [id|]; [|done].
  destruct (wd_workers (mw_sessions w) !! i) as [[]|] eqn:Hw; try done.
  pose proof (mi_sessions _ Hi) as [Hb _]. destruct (b_workers _ _ Hb _ _ Hw) as [en Hen].
  unfold load_entry. rewrite Hen. cbn. destruct (x_unused id (mw_executions w)) eqn:Hu; [|done].
  pose proof (creating_open _ _ _ _ Hi Hw Hen) as Hnone. pose proof (mi_phase _ Hi _ _ Hen) as Hph. rewrite Hnone in Hph.
  destruct Hph as (_ & Hact & _). unfold add. rewrite bool_decide_eq_false_2.
  - simpl. rewrite bool_decide_eq_false_2; [done|].
    destruct (xr_bySession (mw_executions w) !! en_id en) as [g|] eqn:Hg; simpl; [rewrite (Hact _ eq_refl)|]; by intros [].
  - intros [x Hx]. destruct (en_listed _ _ (mi_entries _ Hi) _ _ Hx) as (ex & Hex & Hid).
    by apply (x_unused_spec _ _ Hu _ _ Hex).
Qed.

Lemma collect_safe w i order : minv w → safe (mact (MCollect i order) w).
Proof.
  intros Hi m. unfold mact. destruct (wd_workers (mw_sessions w) !! i) as [[]|] eqn:Hw; try done.
  pose proof (mi_sessions _ Hi) as [Hb _]. destruct (b_workers _ _ Hb _ _ Hw) as [en Hen].
  unfold load_entry. rewrite Hen. cbn. destruct (_ && _ && _) eqn:Hcond; [|done].
  apply andb_true_iff in Hcond as [_ Hord%bool_decide_eq_true_1].
  unfold beginSessionClose. destruct (xr_bySession (mw_executions w) !! en_id en) as [group|] eqn:Hgr; [|done].
  set (r1 := set_bySession _ _).
  destruct (close_children_ok order r1 _ (entries_groups _ _ _ (mi_entries _ Hi))) as (children & r2 & -> & _); [|done].
  apply Forall_forall. intros x Hx. rewrite Hord in Hx. simpl in Hx. apply list_elem_of_fmap in Hx as ([id y] & -> & Hx).
  apply elem_of_map_to_list in Hx. destruct (li_group _ _ (mi_links _ Hi) _ _ Hgr) as [_ Hm].
  destruct (Hm _ _ Hx) as (ey & ? & _). by exists ey.
Qed.

Lemma create_execution_step w ctxErr input newID sid : minv w →
  ∃ w', mact (MCreateExecution ctxErr input newID sid) w = Ret w' ∧ minv w'.
Proof.
  intros Hi. pose proof (mi_sessions _ Hi) as Hs. unfold mact, CreateExecution_begin.
  assert (∀ w0, w0 = set_sessions (spawn [] (wd_registry (mw_sessions w)) (mw_sessions w)) w → minv w0) as Hsame.
  { intros w0 ->. unfold spawn. rewrite app_nil_r. destruct w as [[] ? ? ? ?]. done. }
  destruct ctxErr; [cbn; eexists; split; [done|by apply Hsame]|].
  destruct input; [|cbn; eexists; split; [done|by apply Hsame]].
  destruct newID as [id|]; [|cbn; eexists; split; [done|by apply Hsame]].
  destruct (create_runtime_step _ sid Hs) as (s' & Hact & Hs'). unfold act in Hact.
  destruct (beginRuntimeCreate sid (wd_registry (mw_sessions w))) as [[res reg]|m|] eqn:Hb; [|done|done]. cbn in Hact. inv Hact.
  pose proof (runtime_evolves _ _ _ _ _ (proj1 Hs) Hb) as Hev. cbn. eexists. split; [done|].
  destruct res as [e|err]; simpl; by apply sessions_step.
Qed.

Definition mkeeps (o : outcome mworld) : Prop :=
  match o with Ret w => minv w | Panic _ => False | Block => True end.

Lemma mkeeps_intro o : safe o → (∀ w, o = Ret w → minv w) → mkeeps o.
Proof. intros Hs Hr. destruct o as [w|m|]; simpl; [by apply Hr|by eapply Hs|done]. Qed.

Lemma mact_keeps a w : minv w → mkeeps (mact a w).
Proof.
  intros Hi. pose proof (mi_sessions _ Hi) as Hs.
  destruct a as [a|ctxErr input newID sid|i|id|j err|i order|e|e hooks|e err|e plan debugPlan|i].
  - unfold mact. destruct (session_step_allowed a w) eqn:Hal; [|done].
    pose proof (act_keeps a _ Hs) as Hk. destruct (act a (mw_sessions w)) as [s'|m|] eqn:Ha; [|done|done]. cbn.
    destruct w as [s r p ts k]. apply (sessions_step (mkMWorld s r p ts k)); [done|done|]. eapply act_evolves; [done| |done].
    intros i err e -> Hw. simpl in Hal, Hw. by rewrite Hw in Hal.
  - destruct (create_execution_step w ctxErr input newID sid Hi) as (w' & -> & ?). done.
  - apply mkeeps_intro; [by apply add_safe|]. intros w'. by apply add_step.
  - destruct (close_execution_step w id Hi) as (w' & -> & ?). done.
  - unfold mact. destruct (mw_tasks w !! j) as [[x|x|]|] eqn:Hj; [| |done|done].
    + destruct (task_settle_step w j x err Hi Hj) as (w' & Hw & ?). unfold mact in Hw. rewrite Hj in Hw. by rewrite Hw.
    + destruct (retire_step w j x err Hi Hj) as (w' & Hw & ?). unfold mact in Hw. rewrite Hj in Hw. by rewrite Hw.
  - apply mkeeps_intro; [by apply collect_safe|]. intros w'. by apply collect_step.
  - apply mkeeps_intro; [|intros w'; by apply join_child_step]. intros m. unfold mact.
    destruct (mw_closers w !! e) as [[[|x todo] acc|n acc|acc]|]; try done. by destruct (closed_result x _).
  - apply mkeeps_intro; [|intros w'; by apply group_done_step]. intros m. unfold mact.
    destruct (mw_closers w !! e) as [[[|x todo] acc|n acc|acc]|] eqn:Hk; try done.
    destruct (closer_phase _ _ _ Hi Hk) as (en & Hen & _). unfold load_entry. by rewrite Hen.
  - apply mkeeps_intro; [|intros w'; by apply hook_step]. intros m. unfold mact.
    by destruct (mw_closers w !! e) as [[todo acc|[|n] acc|acc]|].
  - apply mkeeps_intro; [|intros w'; by apply plans_step]. intros m. unfold mact.
    by destruct (mw_closers w !! e) as [[todo acc|[|n] acc|acc]|].
  - apply mkeeps_intro; [|intros w'; by apply publish_result_step]. intros m. unfold mact.
    destruct (wd_workers (mw_sessions w) !! i) as [[]|] eqn:Hw; try done.
    destruct (mw_closers w !! e) as [[todo acc|n acc|acc]|]; try done.
    pose proof (act_keeps (AStep i (Result acc)) _ Hs) as Hk. by destruct (act _ _).
Qed.

Lemma minitial_inv : minv minitial.
Proof.
  split; simpl; [apply registry_initial_inv| | |done|done].
  - split; simpl; try done. intros j x [Hj|Hj]; by rewrite lookup_nil in Hj.
  - by split.
Qed.

Lemma mschedule_inv actions : ∀ w, minv w → ∃ w', mschedule actions w = Ret w' ∧ minv w'.
Proof.
  induction actions as [|a actions IH]; intros w Hw; simpl; [by exists w|].
  unfold mattempt. pose proof (mact_keeps a w Hw) as Hk. destruct (mact a w) as [w'|m|]; simpl in *; [|done|]; by apply IH.
Qed.

(** ** Properties *)

(** C9. The execution manager is safe: whatever sessions and executions clients
    create, close and look up, and however the teardown workers of executions,
    sessions, workspaces and of the shutdown are scheduled, no operation of the
    two registries panics: no identifier is added twice, no execution is added to
    a closing session, no close starts or finishes twice.  An execution that
    [active] finds has not begun to close, belongs to a session that is not
    closed, and nobody is closing it. *)
Theorem manager_safe actions :
  ∃ w, mschedule actions minitial = Ret w ∧
    ∀ id x, xactive id (mw_executions w) = Some x →
      ∃ ex en, xr_heap (mw_executions w) !! x = Some ex ∧ x_id ex = id ∧ Started (x_close ex) = false ∧
        count (closing_on x) (mw_tasks w) = 0%nat ∧
        r_entryHeap (wd_registry (mw_sessions w)) !! x_parent ex = Some en ∧ en_id en = x_session ex ∧
        ∀ err, gs_abs (en_children en) ≠ AClosed err.
Proof.
  destruct (mschedule_inv actions minitial minitial_inv) as (w & Hw & Hi). exists w. split; [done|].
  intros id x Ha. unfold xactive in Ha. destruct (xr_entries _ !! id) as [y|] eqn:Hid; [|done].
  pose proof Hi as [_ He Hl Hp _]. destruct (en_listed _ _ He _ _ Hid) as (ex & Hx & Hxid). rewrite Hx in Ha.
  case_bool_decide as Hst; [done|]. inv Ha.
  pose proof (en_entry _ _ He _ _ Hx) as Hok. unfold entry_ok in Hok. rewrite Hst in Hok. destruct Hok as (Hcl & _ & Hc & _ & Hea).
  destruct (li_parent _ _ Hl _ _ Hx) as (en & Hen & Hsid). exists ex, en. split_and!; try done; [by rewrite Hcl|].
  intros err Hg. pose proof (Hp _ _ Hen) as Hph. rewrite Hg in Hph.
  destruct (mw_closers w !! x_parent ex) as [[todo acc|n acc|acc]|]; simpl in Hph; [by destruct Hph|by destruct Hph| |].
  - destruct Hph as (_ & _ & Hd). destruct (Hd x ex Hx eq_refl Hea) as (ex' & err' & Hx' & Hf & _).
    assert (ex' = ex) as -> by congruence. by rewrite Hcl in Hf.
  - destruct Hph as [Hn _]. by destruct (Hn err).
Qed.

(** A session's close result covers its executions.  When the result is
    published, every execution ever created from the session has published its
    own close result and is no longer held by the session's group; and every
    execution that had not left the group before the session began to close, also
    one whose teardown finished while the session was still waiting for
    creators, has its close error in the session's. *)
Theorem session_close_collects actions w e en err x ex :
  mschedule actions minitial = Ret w →
  r_entryHeap (wd_registry (mw_sessions w)) !! e = Some en → gs_abs (en_children en) = AClosed err →
  xr_heap (mw_executions w) !! x = Some ex → x_parent ex = e →
  Finished (x_close ex) = true ∧ xactive (x_id ex) (mw_executions w) = None ∧
  xr_bySession (mw_executions w) !! x_session ex = None ∧
  (x_early ex = false → ∀ k, is_err (co_err (x_close ex)) k = true → is_err err k = true).
Proof.
  intros Hw Hen Hg Hx Hpar. destruct (mschedule_inv actions minitial minitial_inv) as (w' & Hw' & Hi).
  assert (w' = w) as -> by congruence. pose proof Hi as [_ He Hl Hp _]. pose proof (Hp _ _ Hen) as Hph. rewrite Hg in Hph.
  destruct (li_parent _ _ Hl _ _ Hx) as (en1 & Hen1 & Hsid). rewrite Hpar in Hen1. assert (en1 = en) as -> by congruence.
  destruct (mw_closers w !! e) as [[todo acc|n acc|acc]|]; simpl in Hph; [by destruct Hph|by destruct Hph| |].
  2: { destruct Hph as [Hn _]. by destruct (Hn err). }
  destruct Hph as ([?|[= <-]] & Hgr & Hd); [done|].
  assert (x_state ex = registryStateClosing ∧ ∃ err', x_close ex = finished err') as [Hst [err' Hcl]].
  { pose proof (en_entry _ _ He _ _ Hx) as Hok. unfold entry_ok in Hok. destruct (x_early ex) eqn:Hea.
    - destruct (x_state ex); [by destruct Hok as (_ & _ & _ & _ & ?)|].
      destruct Hok as [(_ & _ & _ & _ & ?)|(err' & ? & _)]; [done|]. split; [done|]. by eexists.
    - destruct (Hd x ex Hx Hpar Hea) as (ex' & err' & Hx' & Hf & _). assert (ex' = ex) as -> by congruence.
      destruct (x_state ex); [destruct Hok as [Hc _]; by rewrite Hc in Hf|]. split; [done|]. by eexists. }
  split_and!.
  - by rewrite Hcl.
  - unfold xactive. destruct (xr_entries _ !! x_id ex) as [y|] eqn:Hid; [|done].
    destruct (en_listed _ _ He _ _ Hid) as (ey & Hy & Hyid). assert (y = x) as -> by (by eapply (en_ids _ _ He)).
    rewrite Hx, Hst. by rewrite bool_decide_eq_true_2.
  - by rewrite <- Hsid.
  - intros Hea k. destruct (Hd x ex Hx Hpar Hea) as (ex' & err2 & Hx' & Hf & Hk). assert (ex' = ex) as -> by congruence.
    rewrite Hf. apply Hk.
Qed.

End manager.

(** A session closes while one of its two executions is being closed by a client
    and the creator of the other has not returned: both close errors arrive. *)
Definition sample_run : list maction :=
  let input := inl (mkRuntimeInput None (mkRuntimeOptions "application/json" "")) in
  [MSessions (ACreateSession "ws"); MSessions (AStep 0 (Commit None "s")); MSessions (AStep 0 Proceed);
   MCreateExecution None input (inl "x1") "s"; MAdd 1; MSessions (AStep 1 Proceed);
   MCreateExecution None input (inl "x2") "s"; MAdd 2;
   MCloseExecution "x1"; MSessions (ACloseSession "s");
   MTask 0 (Some (ESentinel ContextCanceled)); MTask 0 None; MSessions (AStep 2 Proceed);
   MCollect 3 [1; 0]%nat; MTask 1 (Some (ESentinel FsErrPermission)); MTask 1 None;
   MJoin 1; MJoin 1; MGroup 1 1; MHook 1 None; MPlans 1 (Some None) None; MPublish 3].

Definition final_run : mworld (G := Gate) :=
  match mschedule sample_run minitial with Ret w => w | _ => minitial end.

Lemma session_close_collects_witness :
  ∃ err, mschedule (G := Gate) sample_run minitial = Ret final_run ∧
    (∃ en, r_entryHeap (wd_registry (mw_sessions final_run)) !! 1%nat = Some en ∧ gs_abs (en_children en) = AClosed err) ∧
    is_err err ContextCanceled = true.
Proof.
  eexists. split; [vm_compute; reflexivity|]. split.
  - eexists. split; vm_compute; reflexivity.
  - eapply (session_close_collects sample_run final_run 1 _ _ 0 _); [vm_compute; reflexivity..| |]; vm_compute; reflexivity.
Defined.
