(* ===== verification/DebugManager.v ===== *)
(** * The debug manager

    [internal/debug/manager.go] and [session_group.go]: debug sessions are
    created under the gate of their parent execution session's group, found by
    identifier, and closed by clients, by the close hook of the parent
    ([closeExecutionSession]) or by the shutdown of the manager.  The sections
    under [Manager.mu] are atomic; the calls in between are positions of a
    worker.  A debug session appears by its close operation: [DebugSession]
    models the rest and shows that its teardown completes. *)

From S2P Require Import Prelude Errors Lifecycle.

(** A debug session object.  [ds_group] is the group it was committed to; the
    code finds it through the parent's identifier. *)
Record dsession := mkDSession {
  ds_id : string;
  ds_parent : string;
  ds_group : nat;
  ds_close : CloseOperation
}.

Section manager.
Context {G : Type} `{GateSpec G}.

(** [sessionGroup]; [dg_parent] is its key. *)
Record sessionGroup := mkSessionGroup {
  dg_parent : string;
  dg_gate : G;
  dg_sessions : gmap string nat
}.

Record manager := mkManager {
  dm_sessions : gmap string nat;
  dm_closing : gmap string nat;
  dm_groups : gmap string nat;
  dm_closed : bool;
  dm_sessionHeap : gmap nat dsession;
  dm_groupHeap : gmap nat sessionGroup;
  dm_next : nat
}.

Definition newManager : manager := mkManager ∅ ∅ ∅ false ∅ ∅ 0.

Definition set_groups (m : gmap string nat) (d : manager) : manager :=
  mkManager (dm_sessions d) (dm_closing d) m (dm_closed d) (dm_sessionHeap d) (dm_groupHeap d) (dm_next d).
Definition set_group (g : nat) (grp : sessionGroup) (d : manager) : manager :=
  mkManager (dm_sessions d) (dm_closing d) (dm_groups d) (dm_closed d) (dm_sessionHeap d)
    (<[g:=grp]> (dm_groupHeap d)) (dm_next d).
Definition set_session (s : nat) (ds : dsession) (d : manager) : manager :=
  mkManager (dm_sessions d) (dm_closing d) (dm_groups d) (dm_closed d) (<[s:=ds]> (dm_sessionHeap d))
    (dm_groupHeap d) (dm_next d).
Definition load_group (g : nat) (d : manager) : outcome sessionGroup :=
  match dm_groupHeap d !! g with Some grp => Ret grp | None => Panic "nil pointer dereference" end.
Definition load_session (s : nat) (d : manager) : outcome dsession :=
  match dm_sessionHeap d !! s with Some ds => Ret ds | None => Panic "nil pointer dereference" end.
Definition with_gate (gate : G) (grp : sessionGroup) : sessionGroup := mkSessionGroup (dg_parent grp) gate (dg_sessions grp).
Definition with_sessions (m : gmap string nat) (grp : sessionGroup) : sessionGroup := mkSessionGroup (dg_parent grp) (dg_gate grp) m.

(** ** Operations *)

Definition beginCreate (parentID : string) (d : manager) : outcome (option error * manager) :=
  if dm_closed d then Ret (Some (ESentinel DebugErrClosed), d)
  else
    let '(g, d) :=
      match dm_groups d !! parentID with
      | Some g => (g, d)
      | None =>
          let g := dm_next d in
          (g, mkManager (dm_sessions d) (dm_closing d) (<[parentID:=g]> (dm_groups d)) (dm_closed d) (dm_sessionHeap d)
                (<[g:=mkSessionGroup parentID gs_new ∅]> (dm_groupHeap d)) (S g))
      end in
    grp ← load_group g d;
    let '(ok, gate) := gs_BeginCreate (dg_gate grp) in
    let d := set_group g (with_gate gate grp) d in
    if (ok : bool) then Ret (None, d) else Ret (Some (ESentinel ExecErrSessionClosed), d).

Definition finishCreate (parentID : string) (d : manager) : outcome manager :=
  match dm_groups d !! parentID with
  | None => Ret d
  | Some g =>
      grp ← load_group g d;
      '(idle, gate) ← gs_EndCreate (dg_gate grp);
      let d := set_group g (with_gate gate grp) d in
      if (idle : bool) && gs_Accepting gate && bool_decide (dg_sessions grp = ∅)
      then Ret (set_groups (delete parentID (dm_groups d)) d)
      else Ret d
  end.

(** The section of [CreateSession] that publishes the session [id], or rejects
    it: then the caller closes the runtime and joins the error. *)
Definition commit (parentID id : string) (d : manager) : outcome (option error * manager) :=
  match dm_groups d !! parentID with
  | None => Ret (Some (ESentinel (if dm_closed d then DebugErrClosed else ExecErrSessionClosed)), d)
  | Some g =>
      grp ← load_group g d;
      if dm_closed d || negb (gs_Accepting (dg_gate grp)) then
        Ret (Some (ESentinel (if dm_closed d then DebugErrClosed else ExecErrSessionClosed)), d)
      else
        let s := dm_next d in
        Ret (None,
             mkManager (<[id:=s]> (dm_sessions d)) (dm_closing d) (dm_groups d) (dm_closed d)
               (<[s:=mkDSession id parentID g newCloseOperation]> (dm_sessionHeap d))
               (<[g:=with_sessions (<[id:=s]> (dg_sessions grp)) grp]> (dm_groupHeap d)) (S s))
  end.

(** [Manager.session], the lookup of every request. *)
Definition lookup_session (ctxErr : option error) (id : string) (d : manager) : nat + error :=
  match ctxErr with
  | Some err => inr err
  | None => match dm_sessions d !! id with None => inr (ESentinel DebugErrSessionNotFound) | Some s => inl s end
  end.

Definition detachSession (id : string) (d : manager) : option nat * manager :=
  match dm_closing d !! id with
  | Some s => (Some s, d)
  | None =>
      match dm_sessions d !! id with
      | None => (None, d)
      | Some s =>
          (Some s, mkManager (delete id (dm_sessions d)) (<[id:=s]> (dm_closing d)) (dm_groups d) (dm_closed d)
                     (dm_sessionHeap d) (dm_groupHeap d) (dm_next d))
      end
  end.

(** [session.beginClose]. *)
Definition session_beginClose (s : nat) (d : manager) : outcome (bool * manager) :=
  ds ← load_session s d;
  let '(owner, close) := Begin (ds_close ds) in
  Ret (owner, set_session s (mkDSession (ds_id ds) (ds_parent ds) (ds_group ds) close) d).

(** [session.completeClose] with the runtime's close error. *)
Definition session_completeClose (err : option error) (s : nat) (d : manager) : outcome manager :=
  ds ← load_session s d;
  close ← Finish err (ds_close ds);
  Ret (set_session s (mkDSession (ds_id ds) (ds_parent ds) (ds_group ds) close) d).

(** [if group.sessions[session.id] == session { delete(group.sessions, session.id) }]. *)
Definition removed (s : nat) (ds : dsession) (grp : sessionGroup) : sessionGroup :=
  if bool_decide (dg_sessions grp !! ds_id ds = Some s)
  then with_sessions (delete (ds_id ds) (dg_sessions grp)) grp else grp.

(** [delete(m.closing, session.id)]. *)
Definition drop_closing (id : string) (d : manager) : manager :=
  mkManager (dm_sessions d) (delete id (dm_closing d)) (dm_groups d) (dm_closed d) (dm_sessionHeap d)
    (dm_groupHeap d) (dm_next d).

(** The locked section of [finishSessionClose]. *)
Definition finishSessionClose (s : nat) (d : manager) : outcome manager :=
  ds ← load_session s d;
  d ← match dm_groups d !! ds_parent ds with
      | None => Ret d
      | Some g =>
          grp ← load_group g d;
          let grp := removed s ds grp in
          let d := set_group g grp d in
          Ret (if gs_Accepting (dg_gate grp) && gs_Idle (dg_gate grp) && bool_decide (dg_sessions grp = ∅)
               then set_groups (delete (ds_parent ds) (dm_groups d)) d else d)
      end;
  Ret (drop_closing (ds_id ds) d).

(** [closeExecutionSession] up to its wait: the group and whether this call owns
    its close. *)
Definition closeExecutionSession (parentID : string) (d : manager) : outcome (option (nat * bool) * manager) :=
  match dm_groups d !! parentID with
  | None => Ret (None, d)
  | Some g =>
      grp ← load_group g d;
      let '(owner, gate) := gs_BeginClose (dg_gate grp) in
      Ret (Some (g, owner), set_group g (with_gate gate grp) d)
  end.

(** The first section of [Close]: no session is created from here on, and the
    parents of the groups are closed in the order Go iterates them. *)
Definition Close_enter (d : manager) : manager :=
  mkManager (dm_sessions d) (dm_closing d) (dm_groups d) true (dm_sessionHeap d) (dm_groupHeap d) (dm_next d).

(** The result [gate.WaitClose] returns once the group is closed. *)
Definition closed_result (grp : sessionGroup) : option (option error) :=
  match gs_abs (dg_gate grp) with AClosed err => Some err | _ => None end.

(** ** Workers *)

Inductive worker :=
| DCreate (parent id : string)                    (* CreateSession, admitted *)
| DCreated (parent : string)                      (* CreateSession, before the deferred finishCreate *)
| DBegin (s : nat)                                (* CloseSession, after the detach *)
| DClosing (s : nat)                              (* finishSessionClose, settling *)
| DSettled (s : nat)                              (* finishSessionClose, result published *)
| DGroup (parent : string) (g : nat)              (* finishExecutionSessionClose, waiting for creators *)
| DDrain (parent : string) (g : nat) (todo : list string) (result : option error)
| DJoinBegin (parent : string) (g s : nat) (todo : list string) (result : option error)
| DJoin (parent : string) (g s : nat) (todo : list string) (result : option error)
| DEnd (parent : string) (g : nat)
| DShut (todo : list string) (result : option error)             (* Close, before the next parent *)
| DShutWait (g : nat) (todo : list string) (result : option error)  (* Close, waiting for a group *)
| DShutDone (result : option error)                               (* Close returned *)
| DDone.

Record world := mkWorld { wd_manager : manager; wd_workers : list worker }.

Definition creates_on (p : string) (t : worker) : bool :=
  match t with DCreate p' _ | DCreated p' => bool_decide (p' = p) | _ => false end.

Definition closes_group (g : nat) (t : worker) : bool :=
  match t with
  | DGroup _ g' | DDrain _ g' _ _ | DJoinBegin _ g' _ _ _ | DJoin _ g' _ _ _ => bool_decide (g' = g)
  | _ => false
  end.

(** Workers that have still to begin the close of a detached session. *)
Definition begins (s : nat) (t : worker) : bool :=
  match t with DBegin s' | DJoinBegin _ _ s' _ _ => bool_decide (s' = s) | _ => false end.

Definition settles (s : nat) (t : worker) : bool :=
  match t with DSettled s' => bool_decide (s' = s) | _ => false end.

Definition closes_session (s : nat) (t : worker) : bool :=
  match t with DClosing s' => bool_decide (s' = s) | _ => false end.

Inductive answer :=
| Runtime (err : option error)     (* CreateDebugRuntime returned *)
| Proceed
| Ids (order : list string)        (* the order Go iterates a group's sessions *)
| Expired (ctxErr : error)         (* the context of a wait ended *)
| Result (err : option error).     (* runtime.Close returned *)

Inductive action :=
| ACreate (ctxErr : option error) (newID : string + error) (parent : string)
| ACloseSession (id : string)
| ACloseParent (parent : string)
| AShutdown (order : list string)
| AStep (i : nat) (a : answer).

(** A fresh identifier: [uuid.NewRandom] does not repeat one. *)
Definition id_unused (id : string) (d : manager) : bool :=
  forallb (λ s : nat * dsession, negb (bool_decide (ds_id s.2 = id))) (map_to_list (dm_sessionHeap d)).

Definition spawn (ts : list worker) (d : manager) (w : world) : world := mkWorld d (wd_workers w ++ ts).
Definition goto (i : nat) (t : worker) (d : manager) (w : world) : world := mkWorld d (<[i:=t]> (wd_workers w)).

Definition step_worker (i : nat) (t : worker) (a : answer) (w : world) : outcome world :=
  let d := wd_manager w in
  match t, a with
  | DCreate p id, Runtime (Some _) => Ret (goto i (DCreated p) d w)
  | DCreate p id, Runtime None =>
      if id_unused id d then '(_, d) ← commit p id d; Ret (goto i (DCreated p) d w) else Block
  | DCreated p, Proceed => d ← finishCreate p d; Ret (goto i DDone d w)
  | DBegin s, Proceed =>
      '(owner, d) ← session_beginClose s d;
      let w := goto i DDone d w in
      Ret (if (owner : bool) then spawn [DClosing s] d w else w)
  | DClosing s, Result err => d ← session_completeClose err s d; Ret (goto i (DSettled s) d w)
  | DSettled s, Proceed => d ← finishSessionClose s d; Ret (goto i DDone d w)
  | DGroup p g, Ids order =>
      grp ← load_group g d;
      if gs_Idle (dg_gate grp) && bool_decide (order ≡ₚ map fst (map_to_list (dg_sessions grp)))
      then Ret (goto i (DDrain p g order None) d w) else Block
  | DDrain p g (id :: todo) result, Proceed =>
      let '(found, d) := detachSession id d in
      Ret (goto i (match found with
                   | None => DDrain p g todo (errors_Join [result; None])
                   | Some s => DJoinBegin p g s todo result
                   end) d w)
  | DJoinBegin p g s todo result, Proceed =>
      '(owner, d) ← session_beginClose s d;
      let w := goto i (DJoin p g s todo result) d w in
      Ret (if (owner : bool) then spawn [DClosing s] d w else w)
  | DJoin p g s todo result, Proceed =>
      ds ← load_session s d;
      if Finished (ds_close ds)
      then Ret (goto i (DDrain p g todo (errors_Join [result; co_err (ds_close ds)])) d w) else Block
  | DDrain p g [] result, Proceed =>
      grp ← load_group g d;
      gate ← gs_FinishClose result (dg_gate grp);
      Ret (goto i (DEnd p g) (set_group g (with_gate gate grp) d) w)
  | DEnd p g, Proceed =>
      Ret (goto i DDone (if bool_decide (dm_groups d !! p = Some g) then set_groups (delete p (dm_groups d)) d else d) w)
  | DShut (p :: todo) result, Proceed =>
      '(found, d) ← closeExecutionSession p d;
      Ret (match found with
           | None => goto i (DShut todo (errors_Join [result; None])) d w
           | Some (g, owner) =>
               let w := goto i (DShutWait g todo result) d w in
               if (owner : bool) then spawn [DGroup p g] d w else w
           end)
  | DShut [] result, Proceed => Ret (goto i (DShutDone result) d w)
  | DShutWait g todo result, Proceed =>
      grp ← load_group g d;
      match closed_result grp with
      | Some err => Ret (goto i (DShut todo (errors_Join [result; err])) d w)
      | None => Block
      end
  | DShutWait g todo result, Expired ctxErr =>
      Ret (goto i (DShut todo (errors_Join [result; Some ctxErr])) d w)
  | _, _ => Block
  end.

Definition act (a : action) (w : world) : outcome world :=
  let d := wd_manager w in
  match a with
  | ACreate (Some _) _ _ => Ret w
  | ACreate None (inr _) _ => Ret w
  | ACreate None (inl id) p =>
      '(err, d) ← beginCreate p d;
      Ret (match err with Some _ => spawn [] d w | None => spawn [DCreate p id] d w end)
  | ACloseSession id =>
      let '(found, d) := detachSession id d in
      Ret (match found with None => spawn [] d w | Some s => spawn [DBegin s] d w end)
  | ACloseParent p =>
      '(found, d) ← closeExecutionSession p d;
      Ret (match found with Some (g, true) => spawn [DGroup p g] d w | _ => spawn [] d w end)
  | AShutdown order =>
      if bool_decide (order ≡ₚ map fst (map_to_list (dm_groups d)))
      then Ret (spawn [DShut order None] (Close_enter d) w) else Block
  | AStep i a => match wd_workers w !! i with Some t => step_worker i t a w | None => Block end
  end.

Definition attempt (a : action) (w : world) : outcome world :=
  match act a w with
  | Ret w => Ret w
  | Panic m => Panic m
  | Block => Ret w
  end.

Fixpoint schedule (actions : list action) (w : world) : outcome world :=
  match actions with
  | [] => Ret w
  | a :: actions => w ← attempt a w; schedule actions w
  end.

Definition initial : world := mkWorld newManager [].

(** ** Invariant *)

Definition drained (a : agate) : Prop :=
  match a with AClosing 0 | AClosed _ => True | _ => False end.

(** What the sessions need of a group: its parent and its table. *)
Definition gview (d : manager) : gmap nat (string * gmap string nat) :=
  (λ grp, (dg_parent grp, dg_sessions grp)) <$> dm_groupHeap d.

(** A session that has not finished is in the table of its group, which its
    parent still maps to. *)
Definition held (d : manager) (s : nat) (ds : dsession) : Prop :=
  dm_groups d !! ds_parent ds = Some (ds_group ds) ∧
  ∃ tbl, gview d !! ds_group ds = Some (ds_parent ds, tbl) ∧ tbl !! ds_id ds = Some s.

Definition session_ok (d : manager) (ts : list worker) (s : nat) (ds : dsession) : Prop :=
  count (closes_session s) ts = (if bool_decide (co_state (ds_close ds) = closeStarted) then 1 else 0)%nat ∧
  count (settles s) ts =
    (if Finished (ds_close ds) && bool_decide (dm_closing d !! ds_id ds = Some s) then 1 else 0)%nat ∧
  match co_state (ds_close ds) with
  | closeIdle =>
      ds_close ds = newCloseOperation ∧ held d s ds ∧
      (dm_sessions d !! ds_id ds = Some s ∧ dm_closing d !! ds_id ds = None ∨
       dm_sessions d !! ds_id ds = None ∧ dm_closing d !! ds_id ds = Some s ∧ (0 < count (begins s) ts)%nat)
  | closeStarted =>
      ds_close ds = mkCloseOperation closeStarted (Some false) None ∧ held d s ds ∧
      dm_sessions d !! ds_id ds = None ∧ dm_closing d !! ds_id ds = Some s
  | closeFinished =>
      dm_sessions d !! ds_id ds = None ∧ (dm_closing d !! ds_id ds = None ∨ dm_closing d !! ds_id ds = Some s)
  end.

Record sessions_ok (d : manager) (ts : list worker) : Prop := {
  so_ok : ∀ s ds, dm_sessionHeap d !! s = Some ds → session_ok d ts s ds;
  so_none : ∀ s, dm_sessionHeap d !! s = None →
    count (closes_session s) ts = 0%nat ∧ count (settles s) ts = 0%nat;
  so_ids : ∀ s s' ds ds', dm_sessionHeap d !! s = Some ds → dm_sessionHeap d !! s' = Some ds' →
    ds_id ds = ds_id ds' → s = s';
  so_live : ∀ id s, dm_sessions d !! id = Some s → ∃ ds, dm_sessionHeap d !! s = Some ds ∧ ds_id ds = id;
  so_closing : ∀ id s, dm_closing d !! id = Some s → ∃ ds, dm_sessionHeap d !! s = Some ds ∧ ds_id ds = id;
  so_table : ∀ g p tbl id s, gview d !! g = Some (p, tbl) → tbl !! id = Some s →
    ∃ ds, dm_sessionHeap d !! s = Some ds ∧ ds_id ds = id ∧ ds_group ds = g ∧ ds_parent ds = p ∧
      (dm_groups d !! p = Some g → Finished (ds_close ds) = true → dm_closing d !! id = Some s);
  so_parent : ∀ s ds, dm_sessionHeap d !! s = Some ds →
    ∃ tbl, gview d !! ds_group ds = Some (ds_parent ds, tbl)
}.

Definition gate_ok (p : string) (g : nat) (grp : sessionGroup) (ts : list worker) : Prop :=
  match gs_abs (dg_gate grp) with
  | AOpen n => n = count (creates_on p) ts ∧ (n = 0%nat → dg_sessions grp ≠ ∅)
  | AClosing n => n = count (creates_on p) ts
  | AClosed _ => count (creates_on p) ts = 0%nat ∧ DEnd p g ∈ ts
  end.

Definition closers (a : option agate) : nat := match a with Some (AClosing _) => 1 | _ => 0 end.

Record groups_ok (d : manager) (ts : list worker) : Prop := {
  go_wf : ∀ g grp, dm_groupHeap d !! g = Some grp → gs_wf (dg_gate grp);
  go_key : ∀ p g, dm_groups d !! p = Some g →
    ∃ grp, dm_groupHeap d !! g = Some grp ∧ dg_parent grp = p ∧ gate_ok p g grp ts;
  go_none : ∀ p, dm_groups d !! p = None → count (creates_on p) ts = 0%nat;
  go_closers : ∀ g, count (closes_group g) ts =
    closers ((λ grp, gs_abs (dg_gate grp)) <$> dm_groupHeap d !! g);
  go_closing : ∀ g grp n, dm_groupHeap d !! g = Some grp → gs_abs (dg_gate grp) = AClosing n →
    dm_groups d !! dg_parent grp = Some g
}.

(** The sessions a close of [g] has still to settle. *)
Definition draining (d : manager) (p : string) (g : nat) (P : nat → dsession → Prop) : Prop :=
  (∃ grp, dm_groupHeap d !! g = Some grp ∧ dg_parent grp = p ∧ drained (gs_abs (dg_gate grp))) ∧
  ∀ s ds, dm_sessionHeap d !! s = Some ds → ds_group ds = g → Finished (ds_close ds) = true ∨ P s ds.

(** The parents a shutdown has still to close; void once a wait failed. *)
Definition shutting (d : manager) (result : option error) (P : string → nat → Prop) : Prop :=
  dm_closed d = true ∧
  (result = None → ∀ p g grp, dm_groups d !! p = Some g → dm_groupHeap d !! g = Some grp →
     (∃ err, gs_abs (dg_gate grp) = AClosed err) ∨ P p g).

Definition worker_ok (d : manager) (t : worker) : Prop :=
  match t with
  | DBegin s => ∃ ds, dm_sessionHeap d !! s = Some ds ∧ dm_sessions d !! ds_id ds ≠ Some s
  | DGroup p g => ∃ grp, dm_groupHeap d !! g = Some grp ∧ dg_parent grp = p
  | DDrain p g todo _ => draining d p g (λ _ ds, ds_id ds ∈ todo)
  | DJoinBegin p g s todo _ =>
      draining d p g (λ s' ds, s' = s ∨ ds_id ds ∈ todo) ∧
      ∃ ds, dm_sessionHeap d !! s = Some ds ∧ dm_sessions d !! ds_id ds ≠ Some s
  | DJoin p g s todo _ =>
      draining d p g (λ s' ds, s' = s ∨ ds_id ds ∈ todo) ∧ is_Some (dm_sessionHeap d !! s)
  | DEnd p g => ∃ grp err, dm_groupHeap d !! g = Some grp ∧ dg_parent grp = p ∧ gs_abs (dg_gate grp) = AClosed err
  | DShut todo result => shutting d result (λ p _, p ∈ todo)
  | DShutWait g todo result => is_Some (dm_groupHeap d !! g) ∧ shutting d result (λ p g', p ∈ todo ∨ g' = g)
  | DShutDone result => shutting d result (λ _ _, False)
  | _ => True
  end.

Record inv (d : manager) (ts : list worker) : Prop := {
  i_groups : groups_ok d ts;
  i_sessions : sessions_ok d ts;
  i_workers : ∀ t, t ∈ ts → worker_ok d t;
  i_closed : ∀ g grp err s ds, dm_groupHeap d !! g = Some grp → gs_abs (dg_gate grp) = AClosed err →
    dm_sessionHeap d !! s = Some ds → ds_group ds = g → Finished (ds_close ds) = true;
  i_next : ∀ n, dm_next d ≤ n → dm_groupHeap d !! n = None ∧ dm_sessionHeap d !! n = None
}.

(** ** Evolution of the manager

    Operations only move gates and closes forward, detach sessions, and commit
    new sessions to groups that are not drained; the facts of the workers are
    stable under that. *)

Record evolves (d d' : manager) : Prop := {
  ev_session : ∀ s ds, dm_sessionHeap d !! s = Some ds →
    ∃ ds', dm_sessionHeap d' !! s = Some ds' ∧ ds_id ds' = ds_id ds ∧ ds_group ds' = ds_group ds ∧
      (Finished (ds_close ds) = true → Finished (ds_close ds') = true);
  ev_group : ∀ g grp, dm_groupHeap d !! g = Some grp →
    ∃ grp', dm_groupHeap d' !! g = Some grp' ∧ dg_parent grp' = dg_parent grp ∧
      (drained (gs_abs (dg_gate grp)) → drained (gs_abs (dg_gate grp'))) ∧
      (∀ err, gs_abs (dg_gate grp) = AClosed err → gs_abs (dg_gate grp') = AClosed err);
  ev_new : ∀ s ds, dm_sessionHeap d' !! s = Some ds → dm_sessionHeap d !! s = None →
    ∃ grp, dm_groupHeap d !! ds_group ds = Some grp ∧ ¬ drained (gs_abs (dg_gate grp));
  ev_detached : ∀ s ds, dm_sessionHeap d !! s = Some ds →
    dm_sessions d' !! ds_id ds = Some s → dm_sessions d !! ds_id ds = Some s;
  ev_closed : dm_closed d = true →
    dm_closed d' = true ∧ ∀ p g, dm_groups d' !! p = Some g → dm_groups d !! p = Some g
}.

Lemma evolves_refl d : evolves d d.
Proof. split; naive_solver. Qed.

Lemma draining_evolves d d' p g (P Q : nat → dsession → Prop) : evolves d d' →
  (∀ s ds ds', ds_id ds' = ds_id ds → P s ds → Q s ds') → draining d p g P → draining d' p g Q.
Proof.
  intros He HPQ [(grp & Hg & Hp & Hd) Hs]. split.
  - destruct (ev_group _ _ He _ _ Hg) as (grp' & ? & ? & ? & _). exists grp'. split_and!; [done|congruence|auto].
  - intros s ds' Hs' Hgr. destruct (dm_sessionHeap d !! s) as [ds|] eqn:Hds.
    + destruct (ev_session _ _ He _ _ Hds) as (ds2 & Hds2 & Hid & Hgr' & Hf).
      assert (ds2 = ds') as -> by congruence. destruct (Hs s ds Hds) as [?|?]; [congruence|auto|].
      right. by eapply HPQ.
    + destruct (ev_new _ _ He _ _ Hs' Hds) as (grp' & Hg' & Hnd). congruence.
Qed.

Lemma shutting_evolves d d' ts result P : evolves d d' → groups_ok d ts →
  shutting d result P → shutting d' result P.
Proof.
  intros He Hgo [Hc Hs]. destruct (ev_closed _ _ He Hc) as [Hc' Hgs]. split; [done|].
  intros Hr p g grp' Hp Hg'. destruct (go_key _ _ Hgo p g (Hgs _ _ Hp)) as (grp & Hg & _).
  destruct (ev_group _ _ He _ _ Hg) as (grp2 & Hg2 & _ & _ & Hcl). assert (grp2 = grp') as -> by congruence.
  destruct (Hs Hr p g grp (Hgs _ _ Hp) Hg) as [[err Herr]|?]; [left; exists err; auto|by right].
Qed.

Lemma detached_evolves d d' s : evolves d d' →
  (∃ ds, dm_sessionHeap d !! s = Some ds ∧ dm_sessions d !! ds_id ds ≠ Some s) →
  ∃ ds, dm_sessionHeap d' !! s = Some ds ∧ dm_sessions d' !! ds_id ds ≠ Some s.
Proof.
  intros He (ds & Hs & Hd). destruct (ev_session _ _ He _ _ Hs) as (ds' & Hs' & Hid & _).
  exists ds'. split; [done|]. rewrite Hid. intros Hx. by apply Hd, (ev_detached _ _ He).
Qed.

Lemma worker_evolves d d' ts t : evolves d d' → groups_ok d ts → worker_ok d t → worker_ok d' t.
Proof.
  intros He Hgo. destruct t as [| |s| | |p g|p g todo ?|p g s todo ?|p g s todo ?|p g|todo ?|g todo ?| |]; simpl; try done.
  - by apply detached_evolves.
  - intros (grp & Hg & Hp). destruct (ev_group _ _ He _ _ Hg) as (grp' & ? & ? & _). exists grp'. split; congruence.
  - apply draining_evolves; [done|]. intros. congruence.
  - intros [Hd Hs]. split; [|by apply (detached_evolves d)].
    revert Hd. apply draining_evolves; [done|]. intros ? ? ? Hid. by rewrite Hid.
  - intros [Hd [ds Hs]]. split.
    + revert Hd. apply draining_evolves; [done|]. intros ? ? ? Hid. by rewrite Hid.
    + destruct (ev_session _ _ He _ _ Hs) as (ds' & ? & _). by eexists.
  - intros (grp & err & Hg & Hp & Ha). destruct (ev_group _ _ He _ _ Hg) as (grp' & ? & ? & _ & Hcl).
    exists grp', err. split_and!; [done|congruence|auto].
  - by apply shutting_evolves with ts.
  - intros [[grp Hg] Hs]. split; [|revert Hs; by apply shutting_evolves with ts].
    destruct (ev_group _ _ He _ _ Hg) as (grp' & ? & _). by eexists.
  - by apply shutting_evolves with ts.
Qed.

(** A step of the manager moves one worker, and may start others. *)
Lemma workers_step d d' ts i t t' xs : evolves d d' → groups_ok d ts → (∀ u, u ∈ ts → worker_ok d u) →
  ts !! i = Some t → worker_ok d' t' → (∀ u, u ∈ xs → worker_ok d' u) →
  ∀ u, u ∈ <[i:=t']> ts ++ xs → worker_ok d' u.
Proof.
  intros He Hgo Hw Hi Ht' Hxs u [Hu|Hu]%elem_of_app; [|auto].
  apply list_elem_of_lookup in Hu as [j Hj]. destruct (decide (j = i)) as [->|Hne].
  - rewrite list_lookup_insert_eq in Hj by (by eapply lookup_lt_Some). by simplify_eq.
  - rewrite list_lookup_insert_ne in Hj by done. eapply worker_evolves; [done..|]. apply Hw.
    by apply list_elem_of_lookup_2 with j.
Qed.

Lemma workers_spawn d d' ts xs : evolves d d' → groups_ok d ts → (∀ u, u ∈ ts → worker_ok d u) →
  (∀ u, u ∈ xs → worker_ok d' u) → ∀ u, u ∈ ts ++ xs → worker_ok d' u.
Proof. intros He Hgo Hw Hxs u [Hu|Hu]%elem_of_app; [|auto]. eapply worker_evolves; eauto. Qed.

(** ** Counting workers *)

Lemma count_step f (ts : list worker) i t t' xs : ts !! i = Some t →
  (count f (<[i:=t']> ts ++ xs) + (if f t then 1 else 0) = count f ts + (if f t' then 1 else 0) + count f xs)%nat.
Proof. intros Hi. rewrite count_app. pose proof (count_insert f ts i t t' Hi). lia. Qed.

(** The sessions depend on the workers through three counts only. *)
Lemma sessions_ok_counts d ts ts' : sessions_ok d ts →
  (∀ s, count (closes_session s) ts' = count (closes_session s) ts) →
  (∀ s, count (settles s) ts' = count (settles s) ts) →
  (∀ s, (0 < count (begins s) ts → 0 < count (begins s) ts' ∨
     ∃ ds, dm_sessionHeap d !! s = Some ds ∧ co_state (ds_close ds) ≠ closeIdle)%nat) →
  sessions_ok d ts'.
Proof.
  intros Hs Hc Hse Hb. split.
  - intros s ds Hds. pose proof (so_ok _ _ Hs s ds Hds) as (H1 & H2 & H3). unfold session_ok.
    rewrite Hc, Hse. split_and!; [done..|]. destruct (co_state (ds_close ds)) eqn:Hst; [|done..].
    destruct H3 as (? & ? & [?|(? & ? & Hcnt)]); (split_and!; [done..|]); [by left|].
    right. split_and!; [done..|]. destruct (Hb s Hcnt) as [?|(ds' & Hds' & Hni)]; [done|]. congruence.
  - intros s. rewrite Hc, Hse. apply (so_none _ _ Hs).
  - apply (so_ids _ _ Hs).
  - apply (so_live _ _ Hs).
  - apply (so_closing _ _ Hs).
  - apply (so_table _ _ Hs).
  - apply (so_parent _ _ Hs).
Qed.

Lemma sessions_ok_view d d' ts : sessions_ok d ts →
  dm_sessions d' = dm_sessions d → dm_closing d' = dm_closing d → dm_groups d' = dm_groups d →
  dm_sessionHeap d' = dm_sessionHeap d → gview d' = gview d → sessions_ok d' ts.
Proof.
  intros [] E1 E2 E3 E4 E5. split; rewrite ?E1, ?E2, ?E3, ?E4, ?E5; try done.
  intros s ds Hds. pose proof (so_ok0 s ds Hds) as Hok. unfold session_ok, held in *.
  by rewrite ?E1, ?E2, ?E3, ?E5.
Qed.

Lemma gview_with_gate d g grp gate : dm_groupHeap d !! g = Some grp →
  gview (set_group g (with_gate gate grp) d) = gview d.
Proof.
  intros Hg. unfold gview. simpl. rewrite fmap_insert. apply insert_id. by rewrite lookup_fmap, Hg.
Qed.

Lemma gview_lookup d g p tbl : gview d !! g = Some (p, tbl) →
  ∃ grp, dm_groupHeap d !! g = Some grp ∧ dg_parent grp = p ∧ dg_sessions grp = tbl.
Proof. unfold gview. rewrite lookup_fmap. destruct (dm_groupHeap d !! g) as [grp|]; simpl; [|done]. intros [= <- <-]. by exists grp. Qed.

Lemma gview_Some d g grp : dm_groupHeap d !! g = Some grp → gview d !! g = Some (dg_parent grp, dg_sessions grp).
Proof. intros Hg. unfold gview. by rewrite lookup_fmap, Hg. Qed.

(** ** Groups *)

(** What a step that concerns the group [g] of [p] leaves to the others. *)
Record others (p : string) (g : nat) (ts ts' : list worker) : Prop := {
  ot_creates : ∀ p', p' ≠ p → count (creates_on p') ts' = count (creates_on p') ts;
  ot_closes : ∀ g', g' ≠ g → count (closes_group g') ts' = count (closes_group g') ts;
  ot_end : ∀ p' g', p' ≠ p → DEnd p' g' ∈ ts → DEnd p' g' ∈ ts'
}.

Lemma gate_ok_other p g grp ts ts' :
  count (creates_on p) ts' = count (creates_on p) ts → (DEnd p g ∈ ts → DEnd p g ∈ ts') →
  gate_ok p g grp ts → gate_ok p g grp ts'.
Proof. intros Hc He. unfold gate_ok. rewrite Hc. destruct (gs_abs (dg_gate grp)); [done..|]. intros [? ?]. auto. Qed.

Lemma groups_update d ts ts' p g grp grp' : groups_ok d ts → others p g ts ts' →
  dm_groups d !! p = Some g → dm_groupHeap d !! g = Some grp → dg_parent grp' = p → gs_wf (dg_gate grp') →
  gate_ok p g grp' ts' → count (closes_group g) ts' = closers (Some (gs_abs (dg_gate grp'))) →
  groups_ok (set_group g grp' d) ts'.
Proof.
  intros Hgo Ho Hp Hg Hpar Hwf Hok Hcl. split; simpl.
  - intros g1 grp1 [[<- <-]|[? ?]]%lookup_insert_Some; [done|]. by eapply go_wf.
  - intros p1 g1 Hp1. destruct (go_key _ _ Hgo _ _ Hp1) as (grp1 & Hg1 & Hpar1 & Hok1).
    destruct (decide (g1 = g)) as [->|Hne].
    + destruct (go_key _ _ Hgo _ _ Hp) as (grp2 & Hg2 & Hpar2 & _).
      assert (p1 = p) as -> by congruence. exists grp'. by rewrite lookup_insert_eq.
    + exists grp1. rewrite lookup_insert_ne by done. split_and!; [done..|].
      assert (p1 ≠ p) by congruence. eapply gate_ok_other; [by apply (ot_creates _ _ _ _ Ho)|by apply (ot_end _ _ _ _ Ho)|done].
  - intros p1 Hp1. assert (p1 ≠ p) by congruence. rewrite (ot_creates _ _ _ _ Ho) by done. by apply (go_none _ _ Hgo).
  - intros g1. destruct (decide (g1 = g)) as [->|Hne]; [by rewrite lookup_insert_eq|].
    rewrite lookup_insert_ne, (ot_closes _ _ _ _ Ho) by done. apply (go_closers _ _ Hgo).
  - intros g1 grp1 n [[<- <-]|[? ?]]%lookup_insert_Some Ha; [congruence|]. by eapply go_closing.
Qed.

Lemma groups_delete d ts ts' p g grp : groups_ok d ts → others p g ts ts' →
  dm_groups d !! p = Some g → dm_groupHeap d !! g = Some grp → (∀ n, gs_abs (dg_gate grp) ≠ AClosing n) →
  count (creates_on p) ts' = 0%nat → count (closes_group g) ts' = count (closes_group g) ts →
  groups_ok (set_groups (delete p (dm_groups d)) d) ts'.
Proof.
  intros Hgo Ho Hp Hg Hn Hc Hcl. destruct (go_key _ _ Hgo _ _ Hp) as (grp2 & Hg2 & Hpar2 & _).
  split; simpl.
  - apply (go_wf _ _ Hgo).
  - intros p1 g1 [Hne Hp1]%lookup_delete_Some. destruct (go_key _ _ Hgo _ _ Hp1) as (grp1 & Hg1 & Hpar1 & Hok1).
    exists grp1. split_and!; [done..|].
    eapply gate_ok_other; [by apply (ot_creates _ _ _ _ Ho)|by apply (ot_end _ _ _ _ Ho)|done].
  - intros p1 [<-|Hp1]%lookup_delete_None; [done|]. destruct (decide (p1 = p)) as [->|]; [done|].
    rewrite (ot_creates _ _ _ _ Ho) by done. by apply (go_none _ _ Hgo).
  - intros g1. destruct (decide (g1 = g)) as [->|Hne]; [rewrite Hcl|rewrite (ot_closes _ _ _ _ Ho) by done];
      apply (go_closers _ _ Hgo).
  - intros g1 grp1 n Hg1 Ha. pose proof (go_closing _ _ Hgo _ _ _ Hg1 Ha) as Hp1.
    rewrite lookup_delete_ne; [done|]. intros Hpp. assert (g1 = g) as -> by congruence.
    assert (grp1 = grp) as -> by congruence. by destruct (Hn n).
Qed.

(** A step of a worker that plays no part in any gate. *)
Lemma groups_same d ts ts' : groups_ok d ts →
  (∀ p, count (creates_on p) ts' = count (creates_on p) ts) →
  (∀ g, count (closes_group g) ts' = count (closes_group g) ts) →
  (∀ p g, DEnd p g ∈ ts → DEnd p g ∈ ts') → groups_ok d ts'.
Proof.
  intros Hgo Hc Hcl He. split; intros; rewrite ?Hc, ?Hcl; try by eapply Hgo.
  destruct (go_key _ _ Hgo p g) as (grp & ? & ? & ?); [done|]. exists grp. split_and!; [done..|].
  eapply gate_ok_other; eauto.
Qed.

Lemma groups_view d d' ts : groups_ok d ts → dm_groups d' = dm_groups d → dm_groupHeap d' = dm_groupHeap d →
  groups_ok d' ts.
Proof. intros [] E1 E2. split; rewrite ?E1, ?E2; done. Qed.

Lemma end_step (ts : list worker) i t t' xs p g : ts !! i = Some t → t ≠ DEnd p g →
  DEnd p g ∈ ts → DEnd p g ∈ <[i:=t']> ts ++ xs.
Proof.
  intros Hi Hne [j Hj]%list_elem_of_lookup. apply elem_of_app. left. apply list_elem_of_lookup_2 with j.
  rewrite list_lookup_insert_ne; [done|]. intros <-. congruence.
Qed.

Lemma evolves_group d d' g grp grp' : dm_groupHeap d !! g = Some grp → dm_groupHeap d' = <[g:=grp']> (dm_groupHeap d) →
  dg_parent grp' = dg_parent grp →
  (drained (gs_abs (dg_gate grp)) → drained (gs_abs (dg_gate grp'))) →
  (∀ err, gs_abs (dg_gate grp) = AClosed err → gs_abs (dg_gate grp') = AClosed err) →
  dm_sessionHeap d' = dm_sessionHeap d → dm_sessions d' = dm_sessions d → dm_closed d' = dm_closed d →
  dm_groups d' ⊆ dm_groups d → evolves d d'.
Proof.
  intros Hg E Hp Hd Hc E1 E2 E3 Hsub. split; rewrite ?E, ?E1, ?E2, ?E3; [intros s ds Hs; by exists ds| |congruence|done|].
  - intros g1 grp1 Hg1. destruct (decide (g1 = g)) as [->|Hne].
    + assert (grp1 = grp) as -> by congruence. exists grp'. by rewrite lookup_insert_eq.
    + exists grp1. by rewrite lookup_insert_ne.
  - intros Hcl. split; [done|]. intros p1 g1 Hp1. by eapply lookup_weaken.
Qed.

Lemma evolves_set_group d g grp grp' : dm_groupHeap d !! g = Some grp → dg_parent grp' = dg_parent grp →
  (drained (gs_abs (dg_gate grp)) → drained (gs_abs (dg_gate grp'))) →
  (∀ err, gs_abs (dg_gate grp) = AClosed err → gs_abs (dg_gate grp') = AClosed err) →
  evolves d (set_group g grp' d).
Proof. intros. by eapply evolves_group. Qed.

(** The steps that leave the sessions alone and move one gate. *)
Definition idle_step (ts ts' : list worker) : Prop :=
  (∀ s, count (closes_session s) ts' = count (closes_session s) ts) ∧
  (∀ s, count (settles s) ts' = count (settles s) ts) ∧
  (∀ s, count (begins s) ts' = count (begins s) ts).

Lemma inv_gate d ts ts' g grp gate : inv d ts → dm_groupHeap d !! g = Some grp → idle_step ts ts' →
  (drained (gs_abs (dg_gate grp)) → drained (gs_abs gate)) →
  (∀ err, gs_abs (dg_gate grp) = AClosed err → gs_abs gate = AClosed err) →
  (∀ err, gs_abs gate = AClosed err → gs_abs (dg_gate grp) = AClosed err ∨
     ∀ s ds, dm_sessionHeap d !! s = Some ds → ds_group ds = g → Finished (ds_close ds) = true) →
  let d' := set_group g (with_gate gate grp) d in
  groups_ok d' ts' → (evolves d d' → ∀ u, u ∈ ts' → worker_ok d' u) → inv d' ts'.
Proof.
  intros Hi Hg (Hc & Hse & Hb) Hd Hcl Hcl' d' Hgo Hw.
  assert (evolves d d') as He by (eapply evolves_set_group; eauto).
  split; [done| |by apply Hw| |].
  - apply sessions_ok_counts with ts; [|done|done|intros s; rewrite Hb; by left].
    eapply sessions_ok_view; [apply Hi|done..|]. by apply gview_with_gate.
  - intros g1 grp1 err s ds Hg1 Ha Hs Hgr. simpl in Hg1.
    apply lookup_insert_Some in Hg1 as [[<- <-]|[? ?]]; [|by eapply i_closed].
    destruct (Hcl' err Ha) as [?|?]; [by eapply i_closed|by eauto].
  - intros n Hn. destruct (i_next _ _ Hi n Hn) as [Hn1 Hn2]. split; [|done]. simpl.
    rewrite lookup_insert_ne; [done|]. intros <-. congruence.
Qed.

Definition keeps (o : outcome world) : Prop :=
  match o with Ret w => inv (wd_manager w) (wd_workers w) | Panic _ => False | Block => True end.

(** Counting over a step: [Hc] is an instance of [count_step] or [count_app]. *)
Ltac counts Hc := simpl in Hc; repeat case_bool_decide; simplify_eq; simpl in *; lia.

Ltac idle := split_and!; intros ?s;
  match goal with
  | |- context [<[?i:=?t']> ?ts ++ ?xs] =>
      match goal with Hi : ts !! i = Some _ |- count ?f _ = _ => pose proof (count_step f ts i _ t' xs Hi) as Hc; counts Hc end
  | |- count ?f (?ts ++ ?xs) = _ => pose proof (count_app f ts xs) as Hc; counts Hc
  end.

Lemma idle_refl ts : idle_step ts ts.
Proof. by split_and!. Qed.

Lemma others_refl p g ts : others p g ts ts.
Proof. by split. Qed.

(** A refused admission leaves the gate as it was. *)
Lemma inv_same_gate d ts p g grp gate : inv d ts → dm_groups d !! p = Some g → dm_groupHeap d !! g = Some grp →
  gs_wf gate → gs_abs gate = gs_abs (dg_gate grp) → inv (set_group g (with_gate gate grp) d) ts.
Proof.
  intros Hi Hp Hg Hwf Ha. pose proof (i_groups _ _ Hi) as Hgo.
  destruct (go_key _ _ Hgo _ _ Hp) as (grp1 & Hg1 & Hpar & Hok). assert (grp1 = grp) as -> by congruence.
  eapply inv_gate; [done..|apply idle_refl|by rewrite Ha|by rewrite Ha|rewrite Ha; auto| |].
  - eapply groups_update; [done|apply others_refl|done..| |].
    + unfold gate_ok in *. simpl. by rewrite Ha.
    + rewrite (go_closers _ _ Hgo), Hg. simpl. by rewrite Ha.
  - intros He u Hu. eapply worker_evolves; [done..|]. by apply (i_workers _ _ Hi).
Qed.

Lemma inv_admit d ts p g grp id : inv d ts → dm_groups d !! p = Some g → dm_groupHeap d !! g = Some grp →
  let '(ok, gate) := gs_BeginCreate (dg_gate grp) in
  inv (set_group g (with_gate gate grp) d) (if (ok : bool) then ts ++ [DCreate p id] else ts).
Proof.
  intros Hi Hp Hg. pose proof (i_groups _ _ Hi) as Hgo.
  destruct (go_key _ _ Hgo _ _ Hp) as (grp1 & Hg1 & Hpar & Hok). assert (grp1 = grp) as -> by congruence.
  destruct (gs_begin_create_ok (dg_gate grp) (go_wf _ _ Hgo _ _ Hg)) as [Hwf Ha].
  destruct (gs_BeginCreate (dg_gate grp)) as [ok gate]. simpl in Hwf, Ha.
  destruct (gs_abs (dg_gate grp)) as [n|n|err] eqn:Habs; simpl in Ha; injection Ha as -> Ha;
    [|by eapply inv_same_gate; [..|rewrite Habs]; eauto..].
  unfold gate_ok in Hok. rewrite Habs in Hok. destruct Hok as [Hn _].
  eapply inv_gate; [done..|idle|by rewrite Habs|by rewrite Habs|by rewrite Ha| |].
  - eapply groups_update; [done| |done..| |].
    + split; [intros p' Hne|intros g' Hne|].
      * pose proof (count_app (creates_on p') ts [DCreate p id]) as Hc. counts Hc.
      * pose proof (count_app (closes_group g') ts [DCreate p id]) as Hc. counts Hc.
      * intros p' g' _ ?. apply elem_of_app. by left.
    + unfold gate_ok. simpl. rewrite Ha. pose proof (count_app (creates_on p) ts [DCreate p id]) as Hc.
      split; [|done]. counts Hc.
    + simpl. rewrite Ha. pose proof (count_app (closes_group g) ts [DCreate p id]) as Hc.
      rewrite (go_closers _ _ Hgo), Hg in Hc. simpl in Hc. rewrite Habs in Hc. by rewrite Hc.
  - intros He. eapply workers_spawn; [done..|apply Hi|]. by intros u ->%list_elem_of_singleton.
Qed.

(** A new group with its first creator. *)
Definition add_group (p : string) (g : nat) (grp : sessionGroup) (d : manager) : manager :=
  mkManager (dm_sessions d) (dm_closing d) (<[p:=g]> (dm_groups d)) (dm_closed d) (dm_sessionHeap d)
    (<[g:=grp]> (dm_groupHeap d)) (S g).

Lemma gview_add_group d p g grp : dg_sessions grp = ∅ → gview (add_group p g grp d) = <[g:=(dg_parent grp, ∅)]> (gview d).
Proof. intros <-. unfold gview. simpl. by rewrite fmap_insert. Qed.

Lemma sessions_add_group d ts p g grp : inv d ts → g = dm_next d → dm_groups d !! p = None →
  dg_parent grp = p → dg_sessions grp = ∅ → sessions_ok (add_group p g grp d) ts.
Proof.
  intros Hi -> Hp Hpar Hemp. pose proof (i_sessions _ _ Hi) as Hs.
  destruct (i_next _ _ Hi (dm_next d)) as [Hfresh _]; [done|].
  assert (gview d !! dm_next d = None) as Hgv by (unfold gview; by rewrite lookup_fmap, Hfresh).
  assert (∀ s ds, held d s ds → held (add_group p (dm_next d) grp d) s ds) as Hheld.
  { intros s ds (Hgr & tbl & Ht & Hin). split; simpl.
    - rewrite lookup_insert_ne; [done|]. congruence.
    - exists tbl. rewrite gview_add_group, lookup_insert_ne by congruence. done. }
  split; try apply Hs.
  - intros s ds Hds. destruct (so_ok _ _ Hs s ds Hds) as (H1 & H2 & H3). split_and!; [done..|].
    destruct (co_state (ds_close ds)); [destruct H3 as (? & Hh%Hheld & ?); by repeat (split; [done|])..|done].
  - intros g1 p1 tbl id s. rewrite gview_add_group by done.
    intros [[<- [= <- <-]]|[Hne Hg1]]%lookup_insert_Some Hin; [by rewrite lookup_empty in Hin|].
    destruct (so_table _ _ Hs _ _ _ _ _ Hg1 Hin) as (ds & ? & ? & ? & ? & Hf). exists ds. split_and!; [done..|].
    simpl. intros [[<- <-]|[? ?]]%lookup_insert_Some; [done|auto].
  - intros s ds Hds. destruct (so_parent _ _ Hs s ds Hds) as [tbl Ht]. exists tbl.
    rewrite gview_add_group, lookup_insert_ne by congruence. done.
Qed.

Lemma groups_add_group d ts p g grp id : inv d ts → g = dm_next d → dm_groups d !! p = None →
  dg_parent grp = p → gs_wf (dg_gate grp) → gs_abs (dg_gate grp) = AOpen 1 →
  groups_ok (add_group p g grp d) (ts ++ [DCreate p id]).
Proof.
  intros Hi -> Hp Hpar Hwf Ha. pose proof (i_groups _ _ Hi) as Hgo.
  destruct (i_next _ _ Hi (dm_next d)) as [Hfresh _]; [done|]. split; simpl.
  - intros g1 grp1 [[<- <-]|[? ?]]%lookup_insert_Some; [done|]. by eapply go_wf.
  - intros p1 g1 [[<- <-]|[Hne Hp1]]%lookup_insert_Some.
    + exists grp. rewrite lookup_insert_eq. split_and!; [done..|]. unfold gate_ok. rewrite Ha.
      pose proof (count_app (creates_on p) ts [DCreate p id]) as Hc. rewrite (go_none _ _ Hgo p Hp) in Hc.
      split; [|done]. counts Hc.
    + destruct (go_key _ _ Hgo _ _ Hp1) as (grp1 & Hg1 & Hpar1 & Hok1). exists grp1.
      rewrite lookup_insert_ne by congruence. split_and!; [done..|].
      eapply gate_ok_other; [|by intros ?; apply elem_of_app; left|done].
      pose proof (count_app (creates_on p1) ts [DCreate p id]) as Hc. counts Hc.
  - intros p1 [Hp1 Hne]%lookup_insert_None. pose proof (count_app (creates_on p1) ts [DCreate p id]) as Hc.
    rewrite (go_none _ _ Hgo p1 Hp1) in Hc. counts Hc.
  - intros g1. pose proof (count_app (closes_group g1) ts [DCreate p id]) as Hc. rewrite (go_closers _ _ Hgo) in Hc.
    destruct (decide (g1 = dm_next d)) as [->|Hne].
    + rewrite lookup_insert_eq. rewrite Hfresh in Hc. simpl. rewrite Ha. simpl in *. lia.
    + rewrite lookup_insert_ne by done. simpl in Hc. lia.
  - intros g1 grp1 n [[<- <-]|[Hne Hg1]]%lookup_insert_Some Ha1; [congruence|].
    pose proof (go_closing _ _ Hgo _ _ _ Hg1 Ha1). rewrite lookup_insert_ne by congruence. done.
Qed.

Lemma evolves_add_group d ts p g grp : inv d ts → g = dm_next d → dm_closed d = false → evolves d (add_group p g grp d).
Proof.
  intros Hi -> Hc. destruct (i_next _ _ Hi (dm_next d)) as [Hfresh _]; [done|].
  split; simpl; try naive_solver; [|congruence].
  intros g1 grp1 Hg1. exists grp1. rewrite lookup_insert_ne by congruence. done.
Qed.

Lemma dm_create_step w ctxErr newID p : inv (wd_manager w) (wd_workers w) → keeps (act (ACreate ctxErr newID p) w).
Proof.
  destruct w as [d ts]. simpl. intros Hi. destruct ctxErr as [e|]; [done|]. destruct newID as [id|e]; [|done].
  unfold beginCreate. destruct (dm_closed d) eqn:Hcl; [by unfold spawn; simpl; rewrite app_nil_r|].
  destruct (dm_groups d !! p) as [g|] eqn:Hp.
  - destruct (go_key _ _ (i_groups _ _ Hi) _ _ Hp) as (grp & Hg & _). unfold load_group. rewrite Hg. cbn.
    pose proof (inv_admit d ts p g grp id Hi Hp Hg) as Hadm. destruct (gs_BeginCreate (dg_gate grp)) as [[] gate]; cbn; [done|].
    by rewrite app_nil_r.
  - unfold load_group. simpl. rewrite lookup_insert_eq. cbn.
    destruct (gs_begin_create_ok gs_new) as [Hwf Ha]; [apply gs_new_ok|].
    rewrite (proj2 gs_new_ok) in Ha. destruct (gs_BeginCreate gs_new) as [ok gate]. simpl in Hwf, Ha.
    injection Ha as -> Ha. cbn. unfold set_group. simpl. rewrite insert_insert_eq.
    rewrite <- Hcl. set (grp := with_gate gate (mkSessionGroup p gs_new ∅)).
    change (inv (add_group p (dm_next d) grp d) (ts ++ [DCreate p id])).
    assert (evolves d (add_group p (dm_next d) grp d)) as He by (by eapply evolves_add_group).
    destruct (i_next _ _ Hi (dm_next d)) as [Hfresh Hfresh2]; [done|]. split.
    + by apply groups_add_group.
    + apply sessions_ok_counts with ts; [by apply sessions_add_group| | |];
        intros s; rewrite count_app; simpl; [lia..|]. left. lia.
    + eapply workers_spawn; [done|apply Hi..|]. by intros u ->%list_elem_of_singleton.
    + intros g1 grp1 err s ds Hg1 Ha1 Hs Hgr. simpl in Hg1.
      apply lookup_insert_Some in Hg1 as [[<- <-]|[? ?]]; [|by eapply i_closed]. simpl in Ha1. congruence.
    + simpl. intros n Hn. destruct (i_next _ _ Hi n) as [? ?]; [lia|]. rewrite lookup_insert_ne by lia. done.
Qed.

(** ** Steps of the workers *)

Definition same_role (t t' : worker) : Prop :=
  (∀ p, creates_on p t' = creates_on p t) ∧ (∀ g, closes_group g t' = closes_group g t) ∧
  (∀ s, closes_session s t' = closes_session s t) ∧ (∀ s, settles s t' = settles s t) ∧
  (∀ s, begins s t' = begins s t) ∧ (∀ p g, t ≠ DEnd p g).

Lemma count_same f (ts : list worker) i t t' : ts !! i = Some t → f t' = f t → count f (<[i:=t']> ts) = count f ts.
Proof. intros Hi Hf. pose proof (count_insert f ts i t t' Hi). rewrite Hf in *. lia. Qed.

Lemma end_goto (ts : list worker) i t t' p g : ts !! i = Some t → t ≠ DEnd p g →
  DEnd p g ∈ ts → DEnd p g ∈ <[i:=t']> ts.
Proof. intros Hi Hne Hin. pose proof (end_step ts i t t' [] p g Hi Hne Hin) as Hx. by rewrite app_nil_r in Hx. Qed.

Lemma workers_goto d d' ts i t t' : evolves d d' → groups_ok d ts → (∀ u, u ∈ ts → worker_ok d u) →
  ts !! i = Some t → worker_ok d' t' → ∀ u, u ∈ <[i:=t']> ts → worker_ok d' u.
Proof.
  intros He Hgo Hw Hi Ht'. pose proof (workers_step d d' ts i t t' [] He Hgo Hw Hi Ht') as Hx.
  rewrite app_nil_r in Hx. apply Hx. by intros u ?%elem_of_nil.
Qed.

(** A worker that moves on without touching the manager. *)
Lemma inv_goto d ts i t t' : inv d ts → ts !! i = Some t → same_role t t' → worker_ok d t' → inv d (<[i:=t']> ts).
Proof.
  intros Hi Ht (R1 & R2 & R3 & R4 & R5 & R6) Hok. split; try apply Hi.
  - eapply groups_same; [apply Hi|intros; by eapply count_same..|]. intros p g. by eapply end_goto.
  - eapply sessions_ok_counts; [apply Hi|intros; by eapply count_same..|].
    intros s. rewrite (count_same _ _ _ _ _ Ht) by done. by left.
  - eapply workers_goto; [apply evolves_refl|apply Hi..|done|done].
Qed.

Lemma dm_id_unused_spec id d s ds : id_unused id d = true → dm_sessionHeap d !! s = Some ds → ds_id ds ≠ id.
Proof.
  unfold id_unused. rewrite forallb_forall. intros Hf Hs Heq.
  specialize (Hf (s, ds)). simpl in Hf. rewrite bool_decide_eq_true_2 in Hf by done.
  discriminate Hf. apply list_elem_of_In. by apply elem_of_map_to_list.
Qed.

(** The state a successful commit leaves. *)
Definition committed (p id : string) (g : nat) (grp : sessionGroup) (d : manager) : manager :=
  mkManager (<[id:=dm_next d]> (dm_sessions d)) (dm_closing d) (dm_groups d) (dm_closed d)
    (<[dm_next d:=mkDSession id p g newCloseOperation]> (dm_sessionHeap d))
    (<[g:=with_sessions (<[id:=dm_next d]> (dg_sessions grp)) grp]> (dm_groupHeap d)) (S (dm_next d)).

Lemma gview_committed d p id g grp : gview (committed p id g grp d) =
  <[g:=(dg_parent grp, <[id:=dm_next d]> (dg_sessions grp))]> (gview d).
Proof. unfold gview. simpl. by rewrite fmap_insert. Qed.

Lemma held_committed d p id g grp s ds : dm_groupHeap d !! g = Some grp → id_unused id d = true →
  dm_sessionHeap d !! s = Some ds → held d s ds → held (committed p id g grp d) s ds.
Proof.
  intros Hg Hun Hds (Hgr & tbl & Ht & Hin). split; [done|]. rewrite gview_committed.
  destruct (decide (ds_group ds = g)) as [Heq|Hne]; [|exists tbl; by rewrite lookup_insert_ne].
  rewrite Heq in Ht |- *. rewrite lookup_insert_eq. rewrite (gview_Some _ _ _ Hg) in Ht. injection Ht as Hpp <-.
  eexists. split; [by rewrite Hpp|]. rewrite lookup_insert_ne; [done|].
  intros Hx. by eapply dm_id_unused_spec.
Qed.

Lemma sessions_committed d ts p id g grp : inv d ts → dm_groups d !! p = Some g → dm_groupHeap d !! g = Some grp →
  dg_parent grp = p → id_unused id d = true → sessions_ok (committed p id g grp d) ts.
Proof.
  intros Hi Hp Hg Hpar Hun. pose proof (i_sessions _ _ Hi) as Hs. pose proof (dm_id_unused_spec id d) as Hid.
  destruct (i_next _ _ Hi (dm_next d)) as [_ Hfresh]; [done|].
  assert (dm_closing d !! id = None) as Hnc.
  { destruct (dm_closing d !! id) as [s|] eqn:Hx; [|done]. destruct (so_closing _ _ Hs _ _ Hx) as (ds & Hds & Hi').
    by destruct (Hid s ds Hun Hds). }
  pose proof (λ s ds, held_committed d p id g grp s ds Hg Hun) as Hheld.
  split; simpl.
  - intros s ds [[<- <-]|[Hne Hds]]%lookup_insert_Some.
    + destruct (so_none _ _ Hs _ Hfresh) as [H1 H2]. unfold session_ok; simpl. split_and!; [done..| |].
      * split; [done|]. rewrite gview_committed, lookup_insert_eq, Hpar. eexists. split; [done|]. simpl.
        by rewrite lookup_insert_eq.
      * left. by rewrite lookup_insert_eq.
    + destruct (so_ok _ _ Hs s ds Hds) as (H1 & H2 & H3). specialize (Hheld s ds Hds). pose proof (Hid s ds Hun Hds).
      unfold session_ok; simpl. rewrite lookup_insert_ne by done. split_and!; [done..|].
      destruct (co_state (ds_close ds)); [destruct H3 as (? & Hh%Hheld & ?); by repeat (split; [done|])..|done].
  - intros s [Hn Hne]%lookup_insert_None. by apply Hs.
  - intros s s' ds ds' [[<- <-]|[Hne Hds]]%lookup_insert_Some [[<- <-]|[Hne' Hds']]%lookup_insert_Some; simpl; intros Heq.
    + done.
    + by destruct (Hid s' ds' Hun Hds').
    + by destruct (Hid s ds Hun Hds).
    + by eapply (so_ids _ _ Hs).
  - intros id1 s [[<- <-]|[Hne Hl]]%lookup_insert_Some; [eexists; by rewrite lookup_insert_eq|].
    destruct (so_live _ _ Hs _ _ Hl) as (ds & Hds & ?). exists ds. rewrite lookup_insert_ne by congruence. done.
  - intros id1 s Hl. destruct (so_closing _ _ Hs _ _ Hl) as (ds & Hds & ?). exists ds.
    rewrite lookup_insert_ne by congruence. done.
  - intros g1 p1 tbl id1 s. rewrite gview_committed.
    intros [[<- [= <- <-]]|[Hne Hg1]]%lookup_insert_Some Hin; [apply lookup_insert_Some in Hin as [[<- <-]|[Hne Hin]]|].
    + eexists. rewrite lookup_insert_eq. by split_and!.
    + destruct (so_table _ _ Hs _ _ _ _ _ (gview_Some _ _ _ Hg) Hin) as (ds & Hds & Hrest). exists ds.
      rewrite lookup_insert_ne by congruence. done.
    + destruct (so_table _ _ Hs _ _ _ _ _ Hg1 Hin) as (ds & Hds & Hrest). exists ds.
      rewrite lookup_insert_ne by congruence. done.
  - intros s ds Hds. rewrite gview_committed. apply lookup_insert_Some in Hds as [[<- <-]|[Hne Hds]]; simpl.
    + rewrite lookup_insert_eq, Hpar. by eexists.
    + destruct (so_parent _ _ Hs s ds Hds) as [tbl Ht]. destruct (decide (ds_group ds = g)) as [Heq|].
      * rewrite Heq in Ht |- *. rewrite lookup_insert_eq. rewrite (gview_Some _ _ _ Hg) in Ht. injection Ht as -> _. by eexists.
      * rewrite lookup_insert_ne by done. by exists tbl.
Qed.

Lemma evolves_committed d ts p id g grp : inv d ts → dm_groupHeap d !! g = Some grp → id_unused id d = true →
  dm_closed d = false → gs_Accepting (dg_gate grp) = true → evolves d (committed p id g grp d).
Proof.
  intros Hi Hg Hun Hcl Hacc. destruct (i_next _ _ Hi (dm_next d)) as [_ Hfresh]; [done|].
  rewrite gs_accepting_ok in Hacc by (by eapply go_wf; [apply Hi|]). split; simpl.
  - intros s ds Hds. exists ds. rewrite lookup_insert_ne by congruence. done.
  - intros g1 grp1 Hg1. destruct (decide (g1 = g)) as [->|Hne].
    + assert (grp1 = grp) as -> by congruence. eexists. by rewrite lookup_insert_eq.
    + exists grp1. by rewrite lookup_insert_ne.
  - intros s ds [[<- <-]|[? ?]]%lookup_insert_Some Hn; [|congruence]. exists grp. split; [done|].
    revert Hacc. destruct (gs_abs (dg_gate grp)); simpl; [tauto|done..].
  - intros s ds Hds. rewrite lookup_insert_ne; [done|]. intros Hx. by eapply dm_id_unused_spec.
  - congruence.
Qed.

Lemma commit_step d ts i p id a : inv d ts → ts !! i = Some (DCreate p id) →
  keeps (step_worker i (DCreate p id) a (mkWorld d ts)).
Proof.
  intros Hi Ht. assert (inv d (<[i:=DCreated p]> ts)) as Hsame by (by eapply inv_goto).
  destruct a as [[e|]| | | |]; simpl; try done. destruct (id_unused id d) eqn:Hun; [|done]. unfold commit.
  destruct (dm_groups d !! p) as [g|] eqn:Hp; [|done].
  destruct (go_key _ _ (i_groups _ _ Hi) _ _ Hp) as (grp & Hg & Hpar & Hok). unfold load_group. rewrite Hg. cbn.
  destruct (dm_closed d) eqn:Hcl; [done|]. destruct (gs_Accepting (dg_gate grp)) eqn:Hacc; [|done]. cbn.
  rewrite <- Hcl. change (inv (committed p id g grp d) (<[i:=DCreated p]> ts)).
  assert (evolves d (committed p id g grp d)) as He by (by eapply evolves_committed).
  pose proof (i_groups _ _ Hsame) as Hgo. destruct (go_key _ _ Hgo _ _ Hp) as (grp1 & Hg1 & _ & Hok1).
  assert (grp1 = grp) as -> by congruence. split.
  - eapply groups_view with (d := set_group g (with_sessions (<[id:=dm_next d]> (dg_sessions grp)) grp) d); [|done..].
    eapply groups_update; [done|apply others_refl|done..| | |].
    + exact (go_wf _ _ Hgo _ _ Hg).
    + revert Hok1. unfold gate_ok. simpl. destruct (gs_abs (dg_gate grp)); [|done..]. intros [? _]. split; [done|].
      intros _. apply insert_non_empty.
    + rewrite (go_closers _ _ Hgo), Hg. done.
  - by apply sessions_committed.
  - eapply workers_goto; [done|apply Hi..|done|done].
  - intros g1 grp1 err s ds Hg1' Ha Hs Hgr. simpl in Hg1', Hs.
    apply lookup_insert_Some in Hs as [[<- <-]|[Hne Hs]]; simpl in Hgr.
    + rewrite <- Hgr, lookup_insert_eq in Hg1'. injection Hg1' as <-. simpl in Ha.
      rewrite gs_accepting_ok, Ha in Hacc by (by eapply go_wf). done.
    + apply lookup_insert_Some in Hg1' as [[<- <-]|[? ?]]; by eapply (i_closed _ _ Hi).
  - simpl. intros n Hn. destruct (i_next _ _ Hi n) as [? ?]; [lia|]. rewrite !lookup_insert_ne; [done|lia|congruence].
Qed.

(** A group leaves the map when none of its sessions is left to settle. *)
Definition settled (d : manager) (g : nat) : Prop :=
  ∀ s ds, dm_sessionHeap d !! s = Some ds → ds_group ds = g → Finished (ds_close ds) = true.

Lemma Finished_state c : Finished c = true ↔ co_state c = closeFinished.
Proof. unfold Finished. apply bool_decide_eq_true. Qed.

Lemma unfinished_held d ts s ds : sessions_ok d ts → dm_sessionHeap d !! s = Some ds →
  Finished (ds_close ds) = false → held d s ds ∧ (dm_sessions d !! ds_id ds = Some s ∨ dm_closing d !! ds_id ds = Some s).
Proof.
  intros Hs Hds Hf. destruct (so_ok _ _ Hs s ds Hds) as (_ & _ & H3). unfold Finished in Hf.
  destruct (co_state (ds_close ds)); [destruct H3 as (_ & ? & [[? _]|(_ & ? & _)]); auto|destruct H3 as (_ & ? & _ & ?); auto|done].
Qed.

Lemma empty_settled d ts g grp : sessions_ok d ts → dm_groupHeap d !! g = Some grp → dg_sessions grp = ∅ → settled d g.
Proof.
  intros Hs Hg Hemp s ds Hds Hgr. destruct (Finished (ds_close ds)) eqn:Hf; [done|].
  destruct (unfinished_held _ _ _ _ Hs Hds Hf) as [(_ & tbl & Ht & Hin) _].
  rewrite Hgr, (gview_Some _ _ _ Hg) in Ht. injection Ht as _ <-. by rewrite Hemp, lookup_empty in Hin.
Qed.

Lemma sessions_delete d ts p g : sessions_ok d ts → dm_groups d !! p = Some g → settled d g →
  sessions_ok (set_groups (delete p (dm_groups d)) d) ts.
Proof.
  intros Hs Hp Hset. split; try apply Hs.
  - intros s ds Hds. destruct (so_ok _ _ Hs s ds Hds) as (H1 & H2 & H3). split_and!; [done..|].
    assert (Finished (ds_close ds) = false → held (set_groups (delete p (dm_groups d)) d) s ds) as Hheld.
    { intros Hf. destruct (unfinished_held _ _ _ _ Hs Hds Hf) as [[Hgr Ht] _]. split; [|done]. simpl.
      rewrite lookup_delete_ne; [done|]. intros ->. assert (ds_group ds = g) by congruence.
      rewrite (Hset s ds) in Hf; done. }
    unfold Finished in Hheld. destruct (co_state (ds_close ds)); [destruct H3 as (? & _ & ?); by repeat (split; [by auto|])..|done].
  - intros g1 p1 tbl id s Hg1 Hin. destruct (so_table _ _ Hs _ _ _ _ _ Hg1 Hin) as (ds & ? & ? & ? & ? & Hf).
    exists ds. split_and!; [done..|]. simpl. intros [_ Hp1]%lookup_delete_Some. auto.
Qed.

(** The update of a group that is no longer in the map. *)
Lemma groups_dead d ts g grp grp' : groups_ok d ts → dm_groups d !! dg_parent grp ≠ Some g →
  dm_groupHeap d !! g = Some grp → dg_parent grp' = dg_parent grp → gs_wf (dg_gate grp') →
  (∀ n, gs_abs (dg_gate grp') ≠ AClosing n) → groups_ok (set_group g grp' d) ts.
Proof.
  intros Hgo Hn Hg Hpar Hwf Ha.
  assert (∀ p, dm_groups d !! p ≠ Some g) as Hno.
  { intros p Hp. destruct (go_key _ _ Hgo _ _ Hp) as (grp1 & Hg1 & Hpar1 & _). congruence. }
  split; simpl.
  - intros g1 grp1 [[<- <-]|[? ?]]%lookup_insert_Some; [done|]. by eapply go_wf.
  - intros p1 g1 Hp1. destruct (go_key _ _ Hgo _ _ Hp1) as (grp1 & Hg1 & ?). exists grp1.
    rewrite lookup_insert_ne; [done|]. intros <-. by eapply Hno.
  - apply Hgo.
  - intros g1. rewrite (go_closers _ _ Hgo). destruct (decide (g1 = g)) as [->|Hne]; [|by rewrite lookup_insert_ne].
    rewrite lookup_insert_eq, Hg. simpl. destruct (gs_abs (dg_gate grp)) eqn:Hx; [|by destruct (Hn (go_closing _ _ Hgo _ _ _ Hg Hx))|];
      (destruct (gs_abs (dg_gate grp')) as [|m|] eqn:Hy; [done|by destruct (Ha m)|done]).
  - intros g1 grp1 n [[<- <-]|[? ?]]%lookup_insert_Some Hx; [by destruct (Ha n)|by eapply go_closing].
Qed.

Lemma created_counts ts i p : ts !! i = Some (DCreated p) →
  let ts' := <[i:=DDone]> ts in
  count (creates_on p) ts = S (count (creates_on p) ts') ∧
  (∀ g, others p g ts ts') ∧ (∀ g, count (closes_group g) ts' = count (closes_group g) ts) ∧ idle_step ts ts'.
Proof.
  intros Ht. simpl.
  pose proof (count_insert (creates_on p) ts i _ DDone Ht) as Hc. simpl in Hc. rewrite bool_decide_eq_true_2 in Hc by done.
  split_and!; [lia| |intros g; by eapply count_same|split_and!; intros s; by eapply count_same].
  intros g. split.
  - intros p' Hne. eapply count_same; [done|]. simpl. by rewrite bool_decide_eq_false_2.
  - intros g' _. by eapply count_same.
  - intros p' g' _. by eapply end_goto.
Qed.

(** The creator that leaves a group idle and empty drops it. *)
Lemma created_drop d ts i p g grp gate : inv d ts → ts !! i = Some (DCreated p) → dm_groups d !! p = Some g →
  dm_groupHeap d !! g = Some grp → gs_abs (dg_gate grp) = AOpen 1 → gs_wf gate → gs_abs gate = AOpen 0 →
  dg_sessions grp = ∅ →
  inv (set_groups (delete p (dm_groups d)) (set_group g (with_gate gate grp) d)) (<[i:=DDone]> ts).
Proof.
  intros Hi Ht Hp Hg Habs Hwf Ha Hemp. pose proof (i_groups _ _ Hi) as Hgo. pose proof (i_sessions _ _ Hi) as Hs.
  destruct (created_counts ts i p Ht) as (Hc & Ho & Hcl & Hc1 & Hc2 & Hc3).
  destruct (go_key _ _ Hgo _ _ Hp) as (grp1 & Hg1 & Hpar & Hok). assert (grp1 = grp) as -> by congruence.
  unfold gate_ok in Hok. rewrite Habs in Hok. destruct Hok as [Hn _].
  set (d1 := set_groups (delete p (dm_groups d)) d).
  change (inv (set_group g (with_gate gate grp) d1) (<[i:=DDone]> ts)).
  assert (evolves d (set_group g (with_gate gate grp) d1)) as He.
  { eapply evolves_group; try done; [by rewrite Habs|by rewrite Habs|apply delete_subseteq]. }
  split.
  - eapply groups_dead; [eapply groups_delete; eauto; [by rewrite Habs|lia]|simpl; by rewrite Hpar, lookup_delete_eq|done|done|done|].
    simpl. by rewrite Ha.
  - eapply sessions_ok_counts; [|done|done|intros s; rewrite Hc3; by left].
    eapply sessions_ok_view; [eapply sessions_delete; [done..|by eapply empty_settled]|done..|].
    by apply gview_with_gate with (d := d1).
  - by eapply workers_goto; [done|done|apply Hi|done|].
  - intros g1 grp1 err s ds Hg1' Ha1 Hds Hgr. simpl in Hg1'.
    apply lookup_insert_Some in Hg1' as [[<- <-]|[? ?]]; [simpl in Ha1; congruence|by eapply (i_closed _ _ Hi)].
  - intros n Hn'. destruct (i_next _ _ Hi n Hn') as [? ?]. split; [|done]. simpl. rewrite lookup_insert_ne; [done|congruence].
Qed.

Lemma dm_created_step d ts i p a : inv d ts → ts !! i = Some (DCreated p) →
  keeps (step_worker i (DCreated p) a (mkWorld d ts)).
Proof.
  intros Hi Ht. destruct a; simpl; try done. pose proof (i_groups _ _ Hi) as Hgo.
  destruct (created_counts ts i p Ht) as (Hc & Ho & Hcl & Hidle). unfold finishCreate.
  destruct (dm_groups d !! p) as [g|] eqn:Hp; [|by rewrite (go_none _ _ Hgo _ Hp) in Hc].
  destruct (go_key _ _ Hgo _ _ Hp) as (grp & Hg & Hpar & Hok). unfold load_group. rewrite Hg. cbn.
  pose proof (gs_end_create_ok (dg_gate grp) (go_wf _ _ Hgo _ _ Hg)) as Hend. unfold gate_ok in Hok.
  assert (∀ gate, gs_wf gate → gate_ok p g (with_gate gate grp) (<[i:=DDone]> ts) →
            (∀ err, gs_abs gate ≠ AClosed err) → closers (Some (gs_abs gate)) = closers (Some (gs_abs (dg_gate grp))) →
            (drained (gs_abs (dg_gate grp)) → drained (gs_abs gate)) →
            (∀ err, gs_abs (dg_gate grp) ≠ AClosed err) →
            inv (set_group g (with_gate gate grp) d) (<[i:=DDone]> ts)) as Hset.
  { intros gate Hwf Hok' Hncl Hsame Hd Hnc. eapply inv_gate; [done..|by intros ? ?%Hnc|by intros ? ?%Hncl| |].
    - eapply groups_update; [done|by apply Ho|done..|]. rewrite Hcl, (go_closers _ _ Hgo), Hg. by symmetry.
    - intros He. by eapply workers_goto; [done|done|apply Hi|done|]. }
  destruct (gs_abs (dg_gate grp)) as [n|n|err] eqn:Habs; [destruct Hok as [Hn _]| |by destruct Hok as [Hn _]; rewrite Hc in Hn].
  - rewrite Hc in Hn. subst n. simpl in Hend. destruct Hend as (gate & -> & Hwf & Ha). cbn.
    rewrite gs_accepting_ok, Ha by done. simpl. rewrite andb_true_r.
    case_bool_decide as Hz; [case_bool_decide as Hemp|]; simpl.
    + apply created_drop; try done; [|by rewrite Ha, Hz]. by rewrite Habs, Hz.
    + apply Hset; rewrite ?Ha; try done. unfold gate_ok. simpl. by rewrite Ha.
    + apply Hset; rewrite ?Ha; try done. unfold gate_ok. simpl. by rewrite Ha.
  - rewrite Hc in Hok. subst n. simpl in Hend. destruct Hend as (gate & -> & Hwf & Ha). cbn.
    rewrite gs_accepting_ok, Ha by done. simpl. rewrite andb_false_r.
    apply Hset; rewrite ?Ha; try done. unfold gate_ok. simpl. by rewrite Ha.
Qed.

(** *** Closing a session *)

Lemma closing_gone d ts id s : sessions_ok d ts → dm_closing d !! id = Some s →
  ∃ ds, dm_sessionHeap d !! s = Some ds ∧ ds_id ds = id ∧ dm_sessions d !! id = None.
Proof.
  intros Hs Hc. destruct (so_closing _ _ Hs _ _ Hc) as (ds & Hds & <-). exists ds. split_and!; [done..|].
  destruct (so_ok _ _ Hs s ds Hds) as (_ & _ & H3).
  destruct (co_state (ds_close ds)); [destruct H3 as (_ & _ & [[_ ?]|[? _]]); congruence|by destruct H3 as (_ & _ & ? & _)|by destruct H3].
Qed.

Lemma detach_spec d ts id : sessions_ok d ts →
  match detachSession id d with
  | (None, d') => d' = d ∧ ∀ s ds, dm_sessionHeap d !! s = Some ds → ds_id ds = id → Finished (ds_close ds) = true
  | (Some s, d') =>
      (∃ ds, dm_sessionHeap d' !! s = Some ds ∧ ds_id ds = id ∧ dm_sessions d' !! id = None) ∧
      evolves d d' ∧ dm_groups d' = dm_groups d ∧ dm_groupHeap d' = dm_groupHeap d ∧
      dm_sessionHeap d' = dm_sessionHeap d ∧ dm_next d' = dm_next d
  end.
Proof.
  intros Hs. unfold detachSession. destruct (dm_closing d !! id) as [s|] eqn:Hc.
  { split_and!; try done; [by eapply closing_gone|apply evolves_refl]. }
  destruct (dm_sessions d !! id) as [s|] eqn:Hl.
  - destruct (so_live _ _ Hs _ _ Hl) as (ds & Hds & Hid). split_and!; try done.
    + exists ds. simpl. by rewrite lookup_delete_eq.
    + split; simpl; try naive_solver. intros s1 ds1 Hds1 [_ ?]%lookup_delete_Some. done.
  - split; [done|]. intros s ds Hds Hid. destruct (Finished (ds_close ds)) eqn:Hf; [done|].
    destruct (unfinished_held _ _ _ _ Hs Hds Hf) as [_ [?|?]]; congruence.
Qed.

Lemma sessions_detach d ts ts' id s d' : sessions_ok d ts → detachSession id d = (Some s, d') →
  (∀ s, count (closes_session s) ts' = count (closes_session s) ts) →
  (∀ s, count (settles s) ts' = count (settles s) ts) →
  (∀ s, (count (begins s) ts ≤ count (begins s) ts')%nat) → (0 < count (begins s) ts')%nat → sessions_ok d' ts'.
Proof.
  intros Hs Hd Hc Hse Hb Hbs.
  assert (sessions_ok d ts') as Hs'.
  { eapply sessions_ok_counts; [done..|]. intros s1 ?. left. pose proof (Hb s1). lia. }
  unfold detachSession in Hd. destruct (dm_closing d !! id) as [s1|] eqn:Hcl; [by simplify_eq|].
  destruct (dm_sessions d !! id) as [s1|] eqn:Hl; simplify_eq.
  destruct (so_live _ _ Hs _ _ Hl) as (ds & Hds & Hid). split; simpl; try apply Hs'.
  - intros s1 ds1 Hds1. destruct (so_ok _ _ Hs' s1 ds1 Hds1) as (H1 & H2 & H3). unfold session_ok. simpl.
    destruct (decide (ds_id ds1 = id)) as [Heq|Hne].
    + assert (s1 = s) as -> by (eapply (so_ids _ _ Hs'); eauto; congruence). rewrite Heq in *.
      rewrite lookup_delete_eq, lookup_insert_eq.
      destruct (co_state (ds_close ds1)) eqn:Hst; [|destruct H3 as (_ & _ & ? & _); congruence|destruct H3; congruence].
      destruct H3 as (Hnew & ? & _). rewrite Hnew in H2 |- *. split_and!; try done. by right.
    + rewrite lookup_delete_ne, lookup_insert_ne by done. by split_and!.
  - intros id1 s1 [_ ?]%lookup_delete_Some. by apply Hs'.
  - intros id1 s1 [[<- <-]|[? ?]]%lookup_insert_Some; [by exists ds|by apply (so_closing _ _ Hs')].
  - intros g p tbl id1 s1 Hg Hin. destruct (so_table _ _ Hs' _ _ _ _ _ Hg Hin) as (ds1 & Hds1 & Hid1 & ? & ? & Hf).
    exists ds1. split_and!; [done..|]. intros Hp Hfin. specialize (Hf Hp Hfin).
    rewrite lookup_insert_ne; [done|]. congruence.
Qed.

(** The update of one session's close operation. *)
Lemma sessions_update d ts ts' s ds ds' : sessions_ok d ts → dm_sessionHeap d !! s = Some ds →
  ds_id ds' = ds_id ds → ds_parent ds' = ds_parent ds → ds_group ds' = ds_group ds →
  session_ok d ts' s ds' → (Finished (ds_close ds') = true → dm_closing d !! ds_id ds = Some s) →
  (∀ s', s' ≠ s → count (closes_session s') ts' = count (closes_session s') ts ∧
     count (settles s') ts' = count (settles s') ts ∧ (count (begins s') ts ≤ count (begins s') ts')%nat) →
  sessions_ok (set_session s ds' d) ts'.
Proof.
  intros Hs Hds E1 E2 E3 Hok Hfin Hcnt. split; simpl; try apply Hs.
  - intros s1 ds1 [[<- <-]|[Hne Hds1]]%lookup_insert_Some; [done|].
    destruct (so_ok _ _ Hs s1 ds1 Hds1) as (H1 & H2 & H3). destruct (Hcnt s1) as (C1 & C2 & C3); [done|].
    unfold session_ok. simpl. rewrite C1, C2. split_and!; [done..|]. destruct (co_state (ds_close ds1)); [|done..].
    destruct H3 as (? & ? & [?|(? & ? & ?)]); (split_and!; [done..|]); [by left|]. right. split_and!; [done..|lia].
  - intros s1 [Hn Hne]%lookup_insert_None. destruct (Hcnt s1) as (C1 & C2 & _); [done|]. rewrite C1, C2. by apply Hs.
  - intros s1 s2 ds1 ds2 [[<- <-]|[? ?]]%lookup_insert_Some [[<- <-]|[? ?]]%lookup_insert_Some Heq; [done| | |];
      (eapply (so_ids _ _ Hs); [done..|]); congruence.
  - intros id1 s1 Hl. destruct (so_live _ _ Hs _ _ Hl) as (ds1 & Hds1 & Hid). destruct (decide (s1 = s)) as [->|Hne].
    + exists ds'. rewrite lookup_insert_eq. split; congruence.
    + exists ds1. by rewrite lookup_insert_ne.
  - intros id1 s1 Hl. destruct (so_closing _ _ Hs _ _ Hl) as (ds1 & Hds1 & Hid). destruct (decide (s1 = s)) as [->|Hne].
    + exists ds'. rewrite lookup_insert_eq. split; congruence.
    + exists ds1. by rewrite lookup_insert_ne.
  - intros g p tbl id1 s1 Hg Hin. destruct (so_table _ _ Hs _ _ _ _ _ Hg Hin) as (ds1 & Hds1 & Hid1 & Hg1 & Hp1 & Hf).
    destruct (decide (s1 = s)) as [->|Hne]; [|exists ds1; by rewrite lookup_insert_ne].
    assert (ds1 = ds) as -> by congruence. exists ds'. rewrite lookup_insert_eq. split_and!; try congruence.
    intros _ Hfn. rewrite <- Hid1. auto.
  - intros s1 ds1 [[<- <-]|[Hne Hds1]]%lookup_insert_Some; [rewrite E2, E3; by apply (so_parent _ _ Hs s)|].
    by apply (so_parent _ _ Hs s1).
Qed.

Lemma evolves_set_session d s ds ds' : dm_sessionHeap d !! s = Some ds →
  ds_id ds' = ds_id ds → ds_group ds' = ds_group ds → (Finished (ds_close ds) = true → Finished (ds_close ds') = true) →
  evolves d (set_session s ds' d).
Proof.
  intros Hds E1 E2 Hf. split; simpl; [|intros g grp Hg; by exists grp| |done|done].
  - intros s1 ds1 Hds1. destruct (decide (s1 = s)) as [->|Hne]; [|exists ds1; by rewrite lookup_insert_ne].
    assert (ds1 = ds) as -> by congruence. exists ds'. by rewrite lookup_insert_eq.
  - intros s1 ds1 [[<- <-]|[? ?]]%lookup_insert_Some Hn; congruence.
Qed.

(** The facts of a world that do not mention workers, after such an update. *)
Lemma inv_set_session d ts ts' s ds ds' : inv d ts → dm_sessionHeap d !! s = Some ds →
  ds_id ds' = ds_id ds → ds_group ds' = ds_group ds → (Finished (ds_close ds) = true → Finished (ds_close ds') = true) →
  groups_ok d ts' → sessions_ok (set_session s ds' d) ts' →
  (∀ u, u ∈ ts' → worker_ok (set_session s ds' d) u) → inv (set_session s ds' d) ts'.
Proof.
  intros Hi Hds E1 E2 Hf Hgo Hs Hw. split; [by eapply groups_view|done|done| |].
  - intros g grp err s1 ds1 Hg Ha Hs1 Hgr. simpl in *. apply lookup_insert_Some in Hs1 as [[<- <-]|[? ?]].
    + apply Hf. eapply (i_closed _ _ Hi g); eauto. congruence.
    + by eapply (i_closed _ _ Hi).
  - simpl. intros n Hn. destruct (i_next _ _ Hi n Hn) as [? ?]. split; [done|]. rewrite lookup_insert_ne; [done|congruence].
Qed.

(** Joining or owning the close of a detached session: the worker moves on from
    a pending begin, and the owner starts the teardown. *)
Lemma dm_begin_step d ts i t t' s : inv d ts → ts !! i = Some t → begins s t = true →
  (∀ s', s' ≠ s → begins s' t = false) → (∀ s', begins s' t' = false) →
  (∀ p, creates_on p t' = creates_on p t) → (∀ g, closes_group g t' = closes_group g t) →
  (∀ s', closes_session s' t' = closes_session s' t) → (∀ s', settles s' t' = settles s' t) →
  (∀ p g, t ≠ DEnd p g) → (∃ ds, dm_sessionHeap d !! s = Some ds ∧ dm_sessions d !! ds_id ds ≠ Some s) →
  (∀ d', evolves d d' → worker_ok d' t') →
  ∃ owner d', session_beginClose s d = Ret (owner, d') ∧
    inv d' (<[i:=t']> ts ++ (if (owner : bool) then [DClosing s] else [])).
Proof.
  intros Hi Ht Hb Hb' Hb2 R1 R2 R3 R4 Hne (ds & Hds & Hdet) Hw. pose proof (i_sessions _ _ Hi) as Hs.
  destruct (so_ok _ _ Hs s ds Hds) as (H1 & H2 & H3). unfold session_beginClose, load_session, Begin. rewrite Hds. cbn.
  assert (∀ xs, (∀ p, count (creates_on p) xs = 0%nat) → (∀ g, count (closes_group g) xs = 0%nat) →
            groups_ok d (<[i:=t']> ts ++ xs)) as Hgo.
  { intros xs X1 X2. eapply groups_same; [apply Hi| | |intros p g; by eapply end_step]; intros x; rewrite count_app, (count_same _ _ _ _ _ Ht) by done;
      rewrite ?X1, ?X2; lia. }
  destruct (decide (co_state (ds_close ds) = closeIdle)) as [Hst|Hst];
    [rewrite bool_decide_eq_false_2 by naive_solver|rewrite bool_decide_eq_true_2 by done]; swap 1 2.
  - exists false. eexists. split; [done|]. replace (mkDSession _ _ _ _) with ds by (by destruct ds).
    assert (set_session s ds d = d) as -> by (unfold set_session; rewrite insert_id by done; by destruct d).
    split; try apply Hi.
    + by apply Hgo.
    + apply sessions_ok_counts with ts; [done| | |]; rewrite app_nil_r; intros s1; [by eapply count_same..|].
      intros Hc. destruct (decide (s1 = s)) as [->|Hne1]; [right; by exists ds|]. left.
      rewrite (count_same _ _ _ _ _ Ht); [done|]. by rewrite Hb2, Hb'.
    + eapply workers_step; [apply evolves_refl|apply Hi..|done|apply Hw, evolves_refl|]. by intros u ?%elem_of_nil.
  - rewrite Hst in H1, H3. destruct H3 as (Hnew & Hh & [[? ?]|(Hns & Hcl & _)]); [done|].
    rewrite bool_decide_eq_false_2 in H1 by done. rewrite Hnew. simpl.
    set (ds' := mkDSession _ _ _ _). exists true. eexists. split; [done|].
    assert (evolves d (set_session s ds' d)) as He.
    { eapply evolves_set_session; [done..|]. by rewrite Hnew. }
    eapply inv_set_session; [done..| | | |].
    + by rewrite Hnew.
    + by apply Hgo.
    + eapply sessions_update; [done..| | |].
      * unfold session_ok; simpl. rewrite !count_app, !(count_same _ _ _ _ _ Ht), H1, H2, Hnew by done. simpl.
        rewrite bool_decide_eq_true_2 by done. by split_and!.
      * done.
      * intros s1 Hne1. rewrite !count_app, !(count_same _ _ _ _ _ Ht) by (done || by rewrite Hb2, Hb'). simpl.
        rewrite bool_decide_eq_false_2 by done. lia.
    + eapply workers_step; [done|apply Hi..|done|by apply Hw|]. by intros u ->%list_elem_of_singleton.
Qed.

Lemma dm_settle_step d ts i s a : inv d ts → ts !! i = Some (DClosing s) →
  keeps (step_worker i (DClosing s) a (mkWorld d ts)).
Proof.
  intros Hi Ht. destruct a as [| | | |err]; simpl; try done. pose proof (i_sessions _ _ Hi) as Hs.
  assert (closes_session s (DClosing s) = true) as Hr by (by apply bool_decide_eq_true).
  pose proof (count_pos _ _ _ _ Ht Hr) as Hc. unfold session_completeClose, load_session.
  destruct (dm_sessionHeap d !! s) as [ds|] eqn:Hds; [|rewrite (proj1 (so_none _ _ Hs _ Hds)) in Hc; lia].
  destruct (so_ok _ _ Hs s ds Hds) as (H1 & H2 & H3). 
  destruct (decide (co_state (ds_close ds) = closeStarted)) as [Hst|Hst]; [|rewrite bool_decide_eq_false_2 in H1 by done; lia].
  rewrite Hst in H3.
  destruct H3 as (Hcl & Hh & Hns & Hcs). cbn. rewrite Hcl.
  change (Finish err _) with (Ret (mkCloseOperation closeFinished (Some true) err)). cbn. set (ds' := mkDSession _ _ _ _).
  assert (evolves d (set_session s ds' d)) as He by (by eapply evolves_set_session).
  pose proof (count_insert (closes_session s) ts i _ (DSettled s) Ht) as C1.
  pose proof (count_insert (settles s) ts i _ (DSettled s) Ht) as C2.
  eapply inv_set_session; [done..| | |].
  - eapply groups_same; [apply Hi|intros; by eapply count_same..|]. intros p g. by eapply end_goto.
  - eapply sessions_update; [done..| | |].
    + unfold session_ok; simpl in *. rewrite !bool_decide_eq_true_2 in * by done. unfold Finished in H2. rewrite Hst in H2.
      simpl in *. split_and!; [lia|lia|done|by right].
    + done.
    + intros s1 Hne. pose proof (count_insert (closes_session s1) ts i _ (DSettled s) Ht) as D1.
      pose proof (count_insert (settles s1) ts i _ (DSettled s) Ht) as D2. simpl in *.
      rewrite bool_decide_eq_false_2 in D1, D2 by done.
      pose proof (count_same (begins s1) ts i _ (DSettled s) Ht eq_refl). lia.
  - by eapply workers_goto; [done|apply Hi..|done|].
Qed.

(** *** Forgetting a finished session *)

Lemma removed_gate s ds grp : dg_gate (removed s ds grp) = dg_gate grp ∧ dg_parent (removed s ds grp) = dg_parent grp.
Proof. unfold removed. by case_bool_decide. Qed.

Lemma removed_lookup s ds grp id s' : dg_sessions (removed s ds grp) !! id = Some s' →
  dg_sessions grp !! id = Some s' ∧ (id = ds_id ds → s' ≠ s).
Proof.
  unfold removed. case_bool_decide as Hin; simpl.
  - intros [Hne ?]%lookup_delete_Some. split; [done|]. intros ->. done.
  - intros Hs'. split; [done|]. intros -> ->. done.
Qed.

Lemma removed_other s ds grp id s' : dg_sessions grp !! id = Some s' → s' ≠ s ∨ id ≠ ds_id ds →
  dg_sessions (removed s ds grp) !! id = Some s'.
Proof.
  intros Hin Hne. unfold removed. case_bool_decide as Hs; simpl; [|done].
  rewrite lookup_delete_ne; [done|]. intros <-. destruct Hne; congruence.
Qed.

Lemma gview_set_group d g grp : gview (set_group g grp d) = <[g:=(dg_parent grp, dg_sessions grp)]> (gview d).
Proof. unfold gview. simpl. by rewrite fmap_insert. Qed.

Lemma sessions_removed d ts s ds g grp : sessions_ok d ts → dm_sessionHeap d !! s = Some ds →
  Finished (ds_close ds) = true → dm_groupHeap d !! g = Some grp → sessions_ok (set_group g (removed s ds grp) d) ts.
Proof.
  intros Hs Hds Hfin Hg. pose proof (gview_Some _ _ _ Hg) as Hgv. destruct (removed_gate s ds grp) as [_ Hpar].
  split; try apply Hs.
  - simpl. intros s1 ds1 Hds1. destruct (so_ok _ _ Hs s1 ds1 Hds1) as (H1 & H2 & H3). split_and!; [done..|].
    assert (Finished (ds_close ds1) = false → held (set_group g (removed s ds grp) d) s1 ds1) as Hheld.
    { intros Hf. destruct (unfinished_held _ _ _ _ Hs Hds1 Hf) as [(Hgr & tbl & Ht & Hin) _]. split; [done|].
      rewrite gview_set_group, Hpar. destruct (decide (ds_group ds1 = g)) as [Heq|Hne].
      - rewrite Heq in Ht |- *. rewrite lookup_insert_eq. rewrite Hgv in Ht. injection Ht as -> <-.
        eexists. split; [done|]. apply removed_other; [done|]. left. intros ->. congruence.
      - exists tbl. by rewrite lookup_insert_ne. }
    unfold Finished in Hheld. destruct (co_state (ds_close ds1)); [destruct H3 as (? & _ & ?); by repeat (split; [by auto|])..|done].
  - intros g1 p1 tbl id s1. rewrite gview_set_group, Hpar.
    intros [[<- [= <- <-]]|[Hne Hg1]]%lookup_insert_Some Hin; [|by eapply (so_table _ _ Hs)].
    apply removed_lookup in Hin as [Hin _]. by eapply (so_table _ _ Hs).
  - intros s1 ds1 Hds1. destruct (so_parent _ _ Hs s1 ds1 Hds1) as [tbl Ht]. rewrite gview_set_group, Hpar.
    destruct (decide (ds_group ds1 = g)) as [Heq|Hne]; [|exists tbl; by rewrite lookup_insert_ne].
    rewrite Heq in Ht |- *. rewrite lookup_insert_eq. rewrite Hgv in Ht. injection Ht as -> _. by eexists.
Qed.

Lemma sessions_drop d ts ts' s ds : sessions_ok d ts → dm_sessionHeap d !! s = Some ds →
  Finished (ds_close ds) = true → dm_closing d !! ds_id ds = Some s →
  (∀ g p tbl, gview d !! g = Some (p, tbl) → tbl !! ds_id ds = Some s → dm_groups d !! p ≠ Some g) →
  (∀ s', count (closes_session s') ts' = count (closes_session s') ts) → count (settles s) ts' = 0%nat →
  (∀ s', s' ≠ s → count (settles s') ts' = count (settles s') ts) →
  (∀ s', count (begins s') ts' = count (begins s') ts) → sessions_ok (drop_closing (ds_id ds) d) ts'.
Proof.
  intros Hs Hds Hfin Hcl Htbl C1 C2 C3 C4. split; simpl; try apply Hs.
  - intros s1 ds1 Hds1. destruct (so_ok _ _ Hs s1 ds1 Hds1) as (H1 & H2 & H3). unfold session_ok. simpl. rewrite C1, C4.
    destruct (decide (s1 = s)) as [->|Hne].
    + assert (ds1 = ds) as -> by congruence. rewrite lookup_delete_eq, C2. apply Finished_state in Hfin. rewrite Hfin in *.
      rewrite (bool_decide_eq_false_2 (None = Some s)), andb_false_r by done. destruct H3. by split_and!; [..|left].
    + assert (ds_id ds ≠ ds_id ds1) by (intros Heq; by destruct Hne; eapply (so_ids _ _ Hs)).
      rewrite lookup_delete_ne, C3 by done. exact (conj H1 (conj H2 H3)).
  - intros s1 Hn. rewrite C1, C3; [by apply Hs|]. congruence.
  - intros id s1 [_ ?]%lookup_delete_Some. by apply (so_closing _ _ Hs).
  - intros g p tbl id s1 Hg Hin. destruct (so_table _ _ Hs _ _ _ _ _ Hg Hin) as (ds1 & Hds1 & Hid & ? & ? & Hf).
    exists ds1. split_and!; [done..|]. intros Hp Hf1. specialize (Hf Hp Hf1). rewrite lookup_delete_ne; [done|].
    intros Heq. rewrite <- Heq in *. assert (s1 = s) as -> by congruence. by eapply Htbl.
Qed.

Lemma worker_same d d' ts : inv d ts → evolves d d' → ∀ u, u ∈ ts → worker_ok d' u.
Proof. intros Hi He u Hu. eapply worker_evolves; [done|apply Hi|]. by apply (i_workers _ _ Hi). Qed.

Lemma inv_removed d ts s ds p g grp : inv d ts → dm_sessionHeap d !! s = Some ds → Finished (ds_close ds) = true →
  dm_groups d !! p = Some g → dm_groupHeap d !! g = Some grp →
  let grp' := removed s ds grp in
  if gs_Accepting (dg_gate grp') && gs_Idle (dg_gate grp') && bool_decide (dg_sessions grp' = ∅)
  then inv (set_groups (delete p (dm_groups d)) (set_group g grp' d)) ts else inv (set_group g grp' d) ts.
Proof.
  intros Hi Hds Hfin Hp Hg grp'. destruct (removed_gate s ds grp) as [Hgate Hpar]. fold grp' in Hgate, Hpar.
  pose proof (i_groups _ _ Hi) as Hgo. pose proof (go_wf _ _ Hgo _ _ Hg) as Hwf.
  destruct (go_key _ _ Hgo _ _ Hp) as (grp1 & Hg1 & Hpp & Hok). assert (grp1 = grp) as -> by congruence.
  pose proof (sessions_removed _ _ _ _ _ _ (i_sessions _ _ Hi) Hds Hfin Hg) as Hs. fold grp' in Hs.
  rewrite Hgate, gs_accepting_ok, gs_idle_ok by done.
  assert (∀ d', dm_groupHeap d' = <[g:=grp']> (dm_groupHeap d) → dm_sessionHeap d' = dm_sessionHeap d →
     dm_sessions d' = dm_sessions d → dm_closed d' = dm_closed d → dm_next d' = dm_next d → dm_groups d' ⊆ dm_groups d →
     groups_ok d' ts → sessions_ok d' ts → inv d' ts) as Hall.
  { intros d' E1 E2 E3 E4 E5 E6 Hg' Hs'. split; [done..| | |].
    - apply worker_same with d; [done|]. eapply evolves_group; try done; by rewrite Hgate.
    - rewrite E1, E2. intros g1 grp2 err s1 ds1 Hg2 Ha Hs1 Hgr. apply lookup_insert_Some in Hg2 as [[<- <-]|[? ?]].
      + rewrite Hgate in Ha. by eapply (i_closed _ _ Hi).
      + by eapply (i_closed _ _ Hi).
    - rewrite E1, E2, E5. intros n Hn. destruct (i_next _ _ Hi n Hn). rewrite lookup_insert_ne by congruence. done. }
  destruct (gs_abs (dg_gate grp)) as [n|n|err] eqn:Habs; simpl.
  2,3: apply Hall; try done; eapply groups_update; [done|apply others_refl|try done..]; rewrite ?Hgate; try congruence;
    [revert Hok; unfold gate_ok; by rewrite Hgate, Habs|rewrite (go_closers _ _ Hgo), Hg; simpl; by rewrite ?Habs].
  unfold gate_ok in Hok. rewrite Habs in Hok. destruct Hok as [Hn _].
  destruct (bool_decide (n = 0%nat) && bool_decide (dg_sessions grp' = ∅)) eqn:Hb; simpl.
  - apply andb_true_iff in Hb as [Hz%bool_decide_eq_true He%bool_decide_eq_true]. apply Hall; try done.
    + apply delete_subseteq.
    + change (groups_ok (set_group g grp' (set_groups (delete p (dm_groups d)) d)) ts).
      assert (groups_ok (set_groups (delete p (dm_groups d)) d) ts) as Hdel.
      { eapply groups_delete; [done|apply others_refl|done..|by rewrite Habs|lia|done]. }
      eapply groups_dead; [done| |done..|by rewrite Hgate|by rewrite Hgate, Habs]. simpl. by rewrite Hpp, lookup_delete_eq.
    + eapply (sessions_delete (set_group g grp' d)); [done..|]. eapply empty_settled; [done| |done]. simpl. by rewrite lookup_insert_eq.
  - apply Hall; try done. eapply groups_update; [done|apply others_refl|done..| | | |]; rewrite ?Hgate; try congruence.
    + unfold gate_ok. rewrite Hgate, Habs. split; [done|]. intros ->. rewrite bool_decide_eq_true_2 in Hb by done.
      by apply bool_decide_eq_false in Hb.
    + rewrite (go_closers _ _ Hgo), Hg. simpl. by rewrite Habs.
Qed.

Lemma inv_drop d ts i s ds : inv d ts → ts !! i = Some (DSettled s) → dm_sessionHeap d !! s = Some ds →
  Finished (ds_close ds) = true → dm_closing d !! ds_id ds = Some s → count (settles s) ts = 1%nat →
  (∀ g p tbl, gview d !! g = Some (p, tbl) → tbl !! ds_id ds = Some s → dm_groups d !! p ≠ Some g) →
  inv (drop_closing (ds_id ds) d) (<[i:=DDone]> ts).
Proof.
  intros Hi Ht Hds Hfin Hcl Hone Htbl. pose proof (i_groups _ _ Hi) as Hgo.
  assert (evolves d (drop_closing (ds_id ds) d)) as He.
  { split; simpl; [intros s1 ds1 ?; by exists ds1|intros g1 grp1 ?; by exists grp1|congruence|done|done]. }
  split; try apply Hi.
  - eapply groups_view with (d := d); [|done..].
    eapply groups_same; [done|intros; by eapply count_same..|]. intros p g. by eapply end_goto.
  - eapply sessions_drop; [apply Hi|done..|intros; by eapply count_same| | |intros; by eapply count_same].
    + pose proof (count_insert (settles s) ts i _ DDone Ht) as Hc. simpl in Hc. rewrite bool_decide_eq_true_2 in Hc by done. lia.
    + intros s1 Hne. eapply count_same; [done|]. simpl. by rewrite bool_decide_eq_false_2.
  - by eapply workers_goto; [done|done|apply Hi|done|].
Qed.

Lemma forget_step d ts i s a : inv d ts → ts !! i = Some (DSettled s) →
  keeps (step_worker i (DSettled s) a (mkWorld d ts)).
Proof.
  intros Hi Ht. destruct a; simpl; try done. pose proof (i_sessions _ _ Hi) as Hs.
  assert (settles s (DSettled s) = true) as Hr by (by apply bool_decide_eq_true).
  pose proof (count_pos _ _ _ _ Ht Hr) as Hc. unfold finishSessionClose, load_session.
  destruct (dm_sessionHeap d !! s) as [ds|] eqn:Hds; [|rewrite (proj2 (so_none _ _ Hs _ Hds)) in Hc; lia].
  destruct (so_ok _ _ Hs s ds Hds) as (_ & H2 & _). cbn.
  destruct (Finished (ds_close ds)) eqn:Hfin; [|simpl in H2; lia].
  destruct (decide (dm_closing d !! ds_id ds = Some s)) as [Hcl|Hcl]; [|rewrite (bool_decide_eq_false_2 _ Hcl) in H2; simpl in H2; lia].
  rewrite (bool_decide_eq_true_2 _ Hcl) in H2. simpl in H2.
  destruct (so_parent _ _ Hs s ds Hds) as [tbl0 Hview].
  assert (∀ g p tbl, gview d !! g = Some (p, tbl) → tbl !! ds_id ds = Some s → p = ds_parent ds) as Honly.
  { intros g p tbl Hg Hin. destruct (so_table _ _ Hs _ _ _ _ _ Hg Hin) as (ds1 & ? & ? & ? & ? & _). congruence. }
  destruct (dm_groups d !! ds_parent ds) as [g|] eqn:Hp; cbn.
  - destruct (go_key _ _ (i_groups _ _ Hi) _ _ Hp) as (grp & Hg & Hpp & _). unfold load_group. rewrite Hg. cbn.
    pose proof (inv_removed d ts s ds _ g grp Hi Hds Hfin Hp Hg) as Hrem. destruct (removed_gate s ds grp) as [_ Hpar].
    assert (∀ gs g1 p1 tbl, gs ⊆ dm_groups d → gview (set_groups gs (set_group g (removed s ds grp) d)) !! g1 = Some (p1, tbl) →
              tbl !! ds_id ds = Some s → gs !! p1 ≠ Some g1) as Htbl.
    { intros gs g1 p1 tbl Hsub Hg1 Hin Hgs. change (gview (set_groups gs ?x)) with (gview x) in Hg1.
      rewrite gview_set_group, Hpar in Hg1. apply lookup_insert_Some in Hg1 as [[<- [= <- <-]]|[Hne Hg1]].
      - apply removed_lookup in Hin as [_ Hx]. by apply Hx.
      - apply (Honly _ _ _ Hg1) in Hin as ->. apply (lookup_weaken _ _ _ _ Hgs) in Hsub. congruence. }
    simpl in Hrem. destruct (_ && _ && _).
    + eapply inv_drop with (ds := ds); try done. intros g1 p1 tbl Hg1 Hin. by eapply Htbl; [apply delete_subseteq| |].
    + eapply inv_drop with (ds := ds); try done. intros g1 p1 tbl. by apply (Htbl (dm_groups d)).
  - eapply inv_drop; try done. intros g p tbl Hg Hin. rewrite (Honly _ _ _ Hg Hin). congruence.
Qed.

(** *** Closing a group *)

Lemma inv_begin_close d ts p g grp : inv d ts → dm_groups d !! p = Some g → dm_groupHeap d !! g = Some grp →
  let '(owner, gate) := gs_BeginClose (dg_gate grp) in
  inv (set_group g (with_gate gate grp) d) (ts ++ (if (owner : bool) then [DGroup p g] else [])).
Proof.
  intros Hi Hp Hg. pose proof (i_groups _ _ Hi) as Hgo.
  destruct (go_key _ _ Hgo _ _ Hp) as (grp1 & Hg1 & Hpar & Hok). assert (grp1 = grp) as -> by congruence.
  destruct (gs_begin_close_ok (dg_gate grp) (go_wf _ _ Hgo _ _ Hg)) as [Hwf Ha].
  destruct (gs_BeginClose (dg_gate grp)) as [owner gate]. simpl in Hwf, Ha.
  destruct (gs_abs (dg_gate grp)) as [n|n|err] eqn:Habs; simpl in Ha; injection Ha as -> Ha;
    [|by rewrite app_nil_r; eapply inv_same_gate; [..|rewrite Habs]; eauto..].
  unfold gate_ok in Hok. rewrite Habs in Hok. destruct Hok as [Hn _].
  eapply inv_gate; [done..|idle|by rewrite Habs|by rewrite Habs|by rewrite Ha| |].
  - eapply groups_update; [done| |done..| |].
    + split; [intros p' Hne|intros g' Hne|].
      * pose proof (count_app (creates_on p') ts [DGroup p g]) as Hc. counts Hc.
      * pose proof (count_app (closes_group g') ts [DGroup p g]) as Hc. counts Hc.
      * intros p' g' _ ?. apply elem_of_app. by left.
    + unfold gate_ok. simpl. rewrite Ha. pose proof (count_app (creates_on p) ts [DGroup p g]) as Hc. counts Hc.
    + simpl. rewrite Ha. pose proof (count_app (closes_group g) ts [DGroup p g]) as Hc.
      rewrite (go_closers _ _ Hgo), Hg in Hc. simpl in Hc. rewrite Habs, bool_decide_eq_true_2 in Hc by done. by rewrite Hc.
  - intros He. eapply workers_spawn; [done..|apply Hi|]. intros u ->%list_elem_of_singleton.
    eexists. simpl. by rewrite lookup_insert_eq.
Qed.

(** A group that a worker closes is closing. *)
Lemma closer_gate d ts i t g : inv d ts → ts !! i = Some t → closes_group g t = true →
  ∃ grp n, dm_groupHeap d !! g = Some grp ∧ gs_abs (dg_gate grp) = AClosing n ∧ gs_wf (dg_gate grp) ∧
    dm_groups d !! dg_parent grp = Some g ∧ n = count (creates_on (dg_parent grp)) ts ∧ count (closes_group g) ts = 1%nat.
Proof.
  intros Hi Ht Hg. pose proof (count_pos _ _ _ _ Ht Hg) as Hc. pose proof (i_groups _ _ Hi) as Hgo.
  pose proof (go_closers _ _ Hgo g) as Hcl. destruct (dm_groupHeap d !! g) as [grp|] eqn:Hh; [|simpl in Hcl; lia].
  destruct (gs_abs (dg_gate grp)) as [n|n|err] eqn:Ha; simpl in Hcl; rewrite Ha in Hcl; simpl in Hcl; [lia| |lia].
  pose proof (go_closing _ _ Hgo _ _ _ Hh Ha) as Hp. destruct (go_key _ _ Hgo _ _ Hp) as (grp1 & Hg1 & _ & Hok).
  assert (grp1 = grp) as -> by congruence. unfold gate_ok in Hok. rewrite Ha in Hok.
  exists grp, n. split_and!; try done. by eapply go_wf.
Qed.

Lemma list_step d ts i p g a : inv d ts → ts !! i = Some (DGroup p g) →
  keeps (step_worker i (DGroup p g) a (mkWorld d ts)).
Proof.
  intros Hi Ht. destruct a as [| |order| |]; simpl; try done.
  destruct (closer_gate d ts i _ g Hi Ht) as (grp & n & Hg & Ha & Hwf & _); [by apply bool_decide_eq_true|].
  destruct (i_workers _ _ Hi (DGroup p g)) as (grp1 & Hg1 & Hpar); [by eapply list_elem_of_lookup_2|].
  assert (grp1 = grp) as -> by congruence. unfold load_group. rewrite Hg. cbn.
  rewrite gs_idle_ok, Ha by done. simpl. destruct (decide (n = 0%nat)) as [->|?]; [|by rewrite bool_decide_eq_false_2].
  simpl. case_bool_decide as Hperm; [|done]. simpl. eapply inv_goto; [done..|]. split.
  - exists grp. split_and!; [done..|]. by rewrite Ha.
  - intros s ds Hds Hgr. destruct (Finished (ds_close ds)) eqn:Hf; [by left|]. right.
    destruct (unfinished_held _ _ _ _ (i_sessions _ _ Hi) Hds Hf) as [(_ & tbl & Htb & Hin) _].
    rewrite Hgr, (gview_Some _ _ _ Hg) in Htb. injection Htb as _ <-. rewrite Hperm. apply list_elem_of_fmap.
    exists (ds_id ds, s). split; [done|]. by apply elem_of_map_to_list.
Qed.

(** Detaching a session for a worker that will begin its close. *)
Lemma inv_detach d ts ts' id s d' : inv d ts → detachSession id d = (Some s, d') →
  (∀ s, count (closes_session s) ts' = count (closes_session s) ts) →
  (∀ s, count (settles s) ts' = count (settles s) ts) →
  (∀ s, (count (begins s) ts ≤ count (begins s) ts')%nat) → (0 < count (begins s) ts')%nat →
  groups_ok d ts' → (∀ u, u ∈ ts' → worker_ok d' u) → inv d' ts'.
Proof.
  intros Hi Hd C1 C2 C3 C4 Hgo Hw. pose proof (i_sessions _ _ Hi) as Hs. pose proof (detach_spec d ts id Hs) as Hsp.
  rewrite Hd in Hsp. destruct Hsp as (_ & He & E1 & E2 & E3 & E4). split.
  - by eapply groups_view.
  - by eapply sessions_detach.
  - done.
  - rewrite E2, E3. apply Hi.
  - rewrite E2, E3, E4. apply Hi.
Qed.

Lemma dm_close_session_step w id : inv (wd_manager w) (wd_workers w) → keeps (act (ACloseSession id) w).
Proof.
  destruct w as [d ts]. simpl. intros Hi. pose proof (detach_spec d ts id (i_sessions _ _ Hi)) as Hsp.
  destruct (detachSession id d) as [[s|] d'] eqn:Hd; cbn.
  - destruct Hsp as ((ds & Hds & Hid & Hns) & He & _).
    eapply inv_detach; [done..| | | | | |]; try (intros s'; rewrite count_app; simpl; lia).
    + rewrite count_app. simpl. rewrite bool_decide_eq_true_2 by done. lia.
    + eapply groups_same; [apply Hi|intros x; rewrite count_app; simpl; lia..|]. intros p g ?. apply elem_of_app. by left.
    + eapply workers_spawn; [done|apply Hi..|]. intros u ->%list_elem_of_singleton. exists ds. split; [done|]. congruence.
  - destruct Hsp as [-> _]. by rewrite app_nil_r.
Qed.

Lemma begin_close_step d ts i s a : inv d ts → ts !! i = Some (DBegin s) →
  keeps (step_worker i (DBegin s) a (mkWorld d ts)).
Proof.
  intros Hi Ht. destruct a; simpl; try done. pose proof (i_workers _ _ Hi _ (list_elem_of_lookup_2 _ _ _ Ht)) as Hok.
  destruct (dm_begin_step d ts i (DBegin s) DDone s Hi Ht) as (owner & d' & -> & Hinv); try done; simpl.
  - by apply bool_decide_eq_true.
  - intros s' Hne. by apply bool_decide_eq_false.
  - destruct owner; [done|]. by rewrite app_nil_r in Hinv.
Qed.

Lemma join_begin_step d ts i p g s todo result a : inv d ts → ts !! i = Some (DJoinBegin p g s todo result) →
  keeps (step_worker i (DJoinBegin p g s todo result) a (mkWorld d ts)).
Proof.
  intros Hi Ht. destruct a; simpl; try done.
  destruct (i_workers _ _ Hi _ (list_elem_of_lookup_2 _ _ _ Ht)) as [Hdr Hdet].
  destruct (dm_begin_step d ts i _ (DJoin p g s todo result) s Hi Ht) as (owner & d' & -> & Hinv); try done; simpl.
  - by apply bool_decide_eq_true.
  - intros s' Hne. by apply bool_decide_eq_false.
  - intros d' He. apply (worker_evolves d d' ts (DJoin p g s todo result) He); [apply Hi|].
    split; [done|]. destruct Hdet as (ds & Hds & _). by eexists.
  - destruct owner; [done|]. by rewrite app_nil_r in Hinv.
Qed.

Lemma dm_join_step d ts i p g s todo result a : inv d ts → ts !! i = Some (DJoin p g s todo result) →
  keeps (step_worker i (DJoin p g s todo result) a (mkWorld d ts)).
Proof.
  intros Hi Ht. destruct a; simpl; try done.
  destruct (i_workers _ _ Hi _ (list_elem_of_lookup_2 _ _ _ Ht)) as [[Hgr Hdr] [ds Hds]].
  unfold load_session. rewrite Hds. cbn. destruct (Finished (ds_close ds)) eqn:Hf; [|done]. simpl.
  eapply inv_goto; [done..|]. split; [done|]. intros s1 ds1 Hs1 Hg1.
  destruct (Hdr s1 ds1 Hs1 Hg1) as [?|[->|?]]; [by left|left; congruence|by right].
Qed.

Lemma drain_next d ts i p g id todo result : inv d ts → ts !! i = Some (DDrain p g (id :: todo) result) →
  keeps (step_worker i (DDrain p g (id :: todo) result) Proceed (mkWorld d ts)).
Proof.
  intros Hi Ht. simpl. pose proof (detach_spec d ts id (i_sessions _ _ Hi)) as Hsp.
  destruct (i_workers _ _ Hi _ (list_elem_of_lookup_2 _ _ _ Ht)) as [Hgr Hdr].
  destruct (detachSession id d) as [[s|] d'] eqn:Hd; cbn.
  - destruct Hsp as ((ds & Hds & Hid & Hns) & He & _ & _ & E3 & _).
    set (t' := DJoinBegin p g s todo result).
    assert (∀ s1, count (begins s1) (<[i:=t']> ts) = (count (begins s1) ts + (if bool_decide (s = s1) then 1 else 0))%nat) as Hb.
    { intros s1. pose proof (count_insert (begins s1) ts i _ t' Ht) as Hc. simpl in Hc. lia. }
    eapply inv_detach; [done..|intros; by eapply count_same|intros; by eapply count_same|intros s1; rewrite Hb; lia| | |].
    + rewrite Hb, bool_decide_eq_true_2 by done. lia.
    + eapply groups_same; [apply Hi|intros; by eapply count_same..|]. intros p1 g1. by eapply end_goto.
    + eapply workers_goto; [done|apply Hi..|done|]. split; [|exists ds; split; [done|congruence]].
      eapply draining_evolves; [done|intros s1 ds1 ds2 Hx; rewrite Hx; intros Hy; exact Hy|]. split; [done|].
      intros s1 ds1 Hs1 Hg1. destruct (Hdr s1 ds1 Hs1 Hg1) as [?|[Heq|?]%elem_of_cons]; [by left| |by right; right].
      right. left. eapply (so_ids _ _ (i_sessions _ _ Hi)); [done|by rewrite <- E3|congruence].
  - destruct Hsp as [-> Hfin]. eapply inv_goto; [done..|]. split; [done|]. intros s1 ds1 Hs1 Hg1.
    destruct (Hdr s1 ds1 Hs1 Hg1) as [?|[Heq|?]%elem_of_cons]; [by left|left; by eapply Hfin|by right].
Qed.

(** The result of the group is published. *)
Lemma drain_end d ts i p g result : inv d ts → ts !! i = Some (DDrain p g [] result) →
  keeps (step_worker i (DDrain p g [] result) Proceed (mkWorld d ts)).
Proof.
  intros Hi Ht. simpl. pose proof (i_groups _ _ Hi) as Hgo.
  destruct (closer_gate d ts i _ g Hi Ht) as (grp & n & Hg & Ha & Hwf & Hp & Hn & Hone); [by apply bool_decide_eq_true|].
  destruct (i_workers _ _ Hi _ (list_elem_of_lookup_2 _ _ _ Ht)) as [(grp1 & Hg1 & Hpar & Hd) Hdr].
  assert (grp1 = grp) as -> by congruence. rewrite Hpar in *. unfold load_group. rewrite Hg. cbn.
  rewrite Ha in Hd. destruct n as [|n]; [|done].
  pose proof (gs_finish_close_ok result (dg_gate grp) Hwf) as Hfc. rewrite Ha in Hfc. simpl in Hfc.
  destruct Hfc as (gate & -> & Hwf' & Ha'). cbn.
  assert (∀ f, f (DEnd p g) = f (DDrain p g [] result) → count f (<[i:=DEnd p g]> ts) = count f ts) as Hsame
    by (intros; by eapply count_same).
  eapply inv_gate; [done..| |by rewrite Ha'|by rewrite Ha| | |].
  - split_and!; intros s; by apply Hsame.
  - intros err _. right. intros s ds Hds Hgr. destruct (Hdr s ds Hds Hgr) as [?|?%elem_of_nil]; done.
  - eapply groups_update; [done| |done..| |].
    + split; [intros p' _; by apply Hsame| |intros p' g' _; by eapply end_goto].
      intros g' Hne. apply Hsame. simpl. by rewrite bool_decide_eq_false_2.
    + unfold gate_ok. simpl. rewrite Ha', Hsame by done. split; [done|].
      apply list_elem_of_lookup_2 with i. apply list_lookup_insert_eq. by eapply lookup_lt_Some.
    + simpl. rewrite Ha'. pose proof (count_insert (closes_group g) ts i _ (DEnd p g) Ht) as Hc. simpl in Hc.
      rewrite bool_decide_eq_true_2 in Hc by done. simpl. lia.
  - intros He. eapply workers_goto; [done|done|apply Hi|done|]. eexists _, result. simpl. by rewrite lookup_insert_eq.
Qed.

Lemma end_counts (ts : list worker) i p g : ts !! i = Some (DEnd p g) →
  (∀ f, f (DEnd p g) = false → f DDone = false → count f (<[i:=DDone]> ts) = count f ts) ∧
  (∀ p' g', p' ≠ p ∨ g' ≠ g → DEnd p' g' ∈ ts → DEnd p' g' ∈ <[i:=DDone]> ts).
Proof.
  intros Ht. split; [intros f F1 F2; eapply count_same; [done|congruence]|].
  intros p' g' Hne. eapply end_goto; [done|]. intros [= -> ->]. by destruct Hne.
Qed.

Lemma group_end d ts i p g a : inv d ts → ts !! i = Some (DEnd p g) →
  keeps (step_worker i (DEnd p g) a (mkWorld d ts)).
Proof.
  intros Hi Ht. destruct a; simpl; try done. pose proof (i_groups _ _ Hi) as Hgo.
  destruct (end_counts ts i p g Ht) as [Hcnt Hend].
  destruct (i_workers _ _ Hi _ (list_elem_of_lookup_2 _ _ _ Ht)) as (grp & err & Hg & Hpar & Ha).
  assert (∀ d', evolves d d' → ∀ u, u ∈ <[i:=DDone]> ts → worker_ok d' u) as Hw.
  { intros d' He. by eapply workers_goto; [done|done|apply Hi|done|]. }
  assert (∀ d', sessions_ok d' ts → sessions_ok d' (<[i:=DDone]> ts)) as Hcount.
  { intros d' Hs. eapply sessions_ok_counts; [done|intros; by apply Hcnt..|]. intros s. rewrite Hcnt by done. by left. }
  case_bool_decide as Hp.
  - assert (settled d g) as Hset by (intros s ds Hds Hgr; by eapply (i_closed _ _ Hi)).
    destruct (go_key _ _ Hgo _ _ Hp) as (grp1 & Hg1 & _ & Hok). assert (grp1 = grp) as -> by congruence.
    unfold gate_ok in Hok. rewrite Ha in Hok. split; try apply Hi.
    + eapply groups_delete; [done| |done..|by rewrite Ha| |by apply Hcnt].
      * split; [intros; by apply Hcnt..|]. intros p' g' Hne. apply Hend. by left.
      * rewrite Hcnt by done. apply Hok.
    + apply Hcount. by eapply sessions_delete; [apply Hi| |].
    + apply Hw. split; simpl; [intros s ds ?; by exists ds|intros g1 grp1 ?; by exists grp1|congruence|done|]. intros Hcl. split; [done|]. by intros p1 g1 [_ ?]%lookup_delete_Some.
  - split; try apply Hi; [|by apply Hcount, Hi|by apply Hw, evolves_refl].
    split; try apply Hgo; intros; rewrite ?Hcnt by done; try by apply Hgo.
    destruct (go_key _ _ Hgo p0 g0) as (grp1 & ? & ? & ?); [done|]. exists grp1. split_and!; [done..|].
    eapply gate_ok_other; [by apply Hcnt|apply Hend|done]. destruct (decide (p0 = p)) as [->|]; [right; congruence|by left].
Qed.

(** *** The shutdown *)

Lemma errors_Join_pair a b : errors_Join [a; b] = None → a = None ∧ b = None.
Proof. intros Hj%errors_Join_None. by inversion_clear Hj as [|? ? ? Hb]; inversion_clear Hb. Qed.

Lemma close_parent_step w p : inv (wd_manager w) (wd_workers w) → keeps (act (ACloseParent p) w).
Proof.
  destruct w as [d ts]. simpl. intros Hi. unfold closeExecutionSession.
  destruct (dm_groups d !! p) as [g|] eqn:Hp; cbn; [|by rewrite app_nil_r].
  destruct (go_key _ _ (i_groups _ _ Hi) _ _ Hp) as (grp & Hg & _). unfold load_group. rewrite Hg. cbn.
  pose proof (inv_begin_close d ts p g grp Hi Hp Hg) as Hb. by destruct (gs_BeginClose (dg_gate grp)) as [[] gate].
Qed.

Lemma shut_next d ts i p todo result : inv d ts → ts !! i = Some (DShut (p :: todo) result) →
  keeps (step_worker i (DShut (p :: todo) result) Proceed (mkWorld d ts)).
Proof.
  intros Hi Ht. simpl. unfold closeExecutionSession.
  destruct (i_workers _ _ Hi _ (list_elem_of_lookup_2 _ _ _ Ht)) as [Hcl Hsh].
  destruct (dm_groups d !! p) as [g|] eqn:Hp.
  - destruct (go_key _ _ (i_groups _ _ Hi) _ _ Hp) as (grp & Hg & _). unfold load_group. rewrite Hg. cbn.
    assert (inv d (<[i:=DShutWait g todo result]> ts)) as Hi'.
    { eapply inv_goto; [done..|]. split; [by eexists|]. split; [done|]. intros Hr p1 g1 grp1 Hp1 Hg1.
      destruct (Hsh Hr p1 g1 grp1 Hp1 Hg1) as [?|[->|?]%elem_of_cons]; [by left| |by right; left].
      right. right. congruence. }
    pose proof (inv_begin_close d _ p g grp Hi' Hp Hg) as Hb. destruct (gs_BeginClose (dg_gate grp)) as [[] gate]; [done|].
    by rewrite app_nil_r in Hb.
  - cbn. eapply inv_goto; [done..|]. split; [done|]. intros [Hr _]%errors_Join_pair p1 g1 grp1 Hp1 Hg1.
    destruct (Hsh Hr p1 g1 grp1 Hp1 Hg1) as [?|[->|?]%elem_of_cons]; [by left|congruence|by right].
Qed.

Lemma shut_wait d ts i g todo result a : inv d ts → ts !! i = Some (DShutWait g todo result) →
  keeps (step_worker i (DShutWait g todo result) a (mkWorld d ts)).
Proof.
  intros Hi Ht. destruct (i_workers _ _ Hi _ (list_elem_of_lookup_2 _ _ _ Ht)) as [[grp Hg] [Hcl Hsh]].
  destruct a as [| | |ctxErr|]; simpl; try done.
  - unfold load_group. rewrite Hg. cbn. unfold closed_result.
    destruct (gs_abs (dg_gate grp)) as [|?|err] eqn:Ha; [done..|]. simpl. eapply inv_goto; [done..|]. split; [done|].
    intros [Hr _]%errors_Join_pair p1 g1 grp1 Hp1 Hg1. destruct (Hsh Hr p1 g1 grp1 Hp1 Hg1) as [?|[?| ->]]; [by left|by right|].
    left. exists err. congruence.
  - eapply inv_goto; [done..|]. split; [done|]. by intros [_ ?]%errors_Join_pair.
Qed.

Lemma dm_shutdown_step w order : inv (wd_manager w) (wd_workers w) → keeps (act (AShutdown order) w).
Proof.
  destruct w as [d ts]. simpl. intros Hi. case_bool_decide as Hperm; [|done]. simpl.
  assert (evolves d (Close_enter d)) as He.
  { split; simpl; [intros s ds ?; by exists ds|intros g grp ?; by exists grp|congruence|done|]. by split. }
  split; try apply Hi.
  - eapply groups_view with (d := d); [|done..]. eapply groups_same; [apply Hi|intros x; rewrite count_app; simpl; lia..|].
    intros p g ?. apply elem_of_app. by left.
  - eapply sessions_ok_view with (d := d); [|done..].
    eapply sessions_ok_counts; [apply Hi|intros x; rewrite count_app; simpl; lia..|].
    intros s ?. left. rewrite count_app. lia.
  - eapply workers_spawn; [done|apply Hi..|]. intros u ->%list_elem_of_singleton. split; [done|].
    intros _ p g grp Hp _. right. rewrite Hperm. apply list_elem_of_fmap. exists (p, g). split; [done|].
    by apply elem_of_map_to_list.
Qed.

(** ** Every schedule keeps the invariant *)

Lemma worker_step d ts i t a : inv d ts → ts !! i = Some t → keeps (step_worker i t a (mkWorld d ts)).
Proof.
  intros Hi Ht. destruct t as [p id|p|s|s|s|p g|p g [|id todo] result|p g s todo result|p g s todo result|p g|[|p todo] result|g todo result| |].
  - by apply commit_step.
  - by apply dm_created_step.
  - by apply begin_close_step.
  - by apply dm_settle_step.
  - by apply forget_step.
  - by apply list_step.
  - destruct a; try done. by apply drain_end.
  - destruct a; try done. by apply drain_next.
  - by apply join_begin_step.
  - by apply dm_join_step.
  - by apply group_end.
  - destruct a; try done. simpl. eapply inv_goto; [done..|].
    destruct (i_workers _ _ Hi _ (list_elem_of_lookup_2 _ _ _ Ht)) as [Hcl Hsh]. split; [done|].
    intros Hr p g grp Hp Hg. destruct (Hsh Hr p g grp Hp Hg) as [?|?%elem_of_nil]; [by left|done].
  - destruct a; try done. by apply shut_next.
  - by apply shut_wait.
  - done.
  - done.
Qed.

Lemma dm_act_keeps a w : inv (wd_manager w) (wd_workers w) → keeps (act a w).
Proof.
  intros Hi. destruct a as [ctxErr newID p|id|p|order|i a].
  - by apply dm_create_step.
  - by apply dm_close_session_step.
  - by apply close_parent_step.
  - by apply dm_shutdown_step.
  - destruct w as [d ts]. simpl in *. destruct (ts !! i) as [t|] eqn:Ht; [|done]. by apply worker_step.
Qed.

Lemma manager_initial_inv : inv newManager [].
Proof.
  split; [split| split| | |]; simpl; try done; try (intros ? ?%elem_of_nil; done).
Qed.

Lemma manager_schedule_inv actions : ∀ w, inv (wd_manager w) (wd_workers w) →
  ∃ w', schedule actions w = Ret w' ∧ inv (wd_manager w') (wd_workers w').
Proof.
  induction actions as [|a actions IH]; intros w Hi; [by exists w|]. simpl. unfold attempt.
  pose proof (dm_act_keeps a w Hi) as Hk. destruct (act a w) as [w'|m|]; simpl in Hk; [|done|]; cbn; by apply IH.
Qed.

(** ** What clients observe *)

Definition ended (t : worker) : Prop := match t with DDone | DShutDone _ => True | _ => False end.

Lemma ended_count f ts : (∀ t, t ∈ ts → ended t) → (∀ t, ended t → f t = false) → count f ts = 0%nat.
Proof.
  intros Hall Hf. destruct (count f ts) eqn:Hc; [done|]. destruct (count_witness f ts) as (i & t & Ht & Hft); [lia|].
  rewrite Hf in Hft; [done|]. apply Hall. by eapply list_elem_of_lookup_2.
Qed.

(** When no request or teardown is in progress, nothing is being closed. *)
Lemma quiescent_closing d ts : inv d ts → (∀ t, t ∈ ts → ended t) → dm_closing d = ∅.
Proof.
  intros Hi Hall. pose proof (i_sessions _ _ Hi) as Hs. apply map_empty. intros id.
  destruct (dm_closing d !! id) as [s|] eqn:Hc; [|done]. destruct (so_closing _ _ Hs _ _ Hc) as (ds & Hds & <-).
  destruct (so_ok _ _ Hs s ds Hds) as (H1 & H2 & H3).
  rewrite (ended_count (closes_session s)) in H1 by (done || by intros [] []).
  rewrite (ended_count (settles s)) in H2 by (done || by intros [] []). rewrite Hc in H2, H3. rewrite (bool_decide_eq_true_2 (Some s = Some s)), andb_true_r in H2 by done.
  unfold Finished in H2. destruct (co_state (ds_close ds)); [|done..].
  destruct H3 as (_ & _ & [[_ ?]|(_ & _ & Hb)]); [done|]. rewrite ended_count in Hb; [lia|done|by intros [] []].
Qed.

Lemma quiescent_group d ts p g : inv d ts → (∀ t, t ∈ ts → ended t) → dm_groups d !! p = Some g →
  ∃ id s, dm_sessions d !! id = Some s.
Proof.
  intros Hi Hall Hp. pose proof (i_groups _ _ Hi) as Hgo. pose proof (i_sessions _ _ Hi) as Hs.
  destruct (go_key _ _ Hgo _ _ Hp) as (grp & Hg & Hpar & Hok). unfold gate_ok in Hok.
  pose proof (go_closers _ _ Hgo g) as Hcl. rewrite Hg, ended_count in Hcl; [|done|by intros [] []].
  rewrite (ended_count (creates_on p)) in Hok; [|done|by intros [] []].
  destruct (gs_abs (dg_gate grp)) as [n|n|err] eqn:Ha; simpl in Hcl; rewrite Ha in Hcl; [|done|by destruct Hok as [_ ?%Hall]].
  destruct Hok as [-> Hne]. destruct (map_choose _ (Hne eq_refl)) as (id & s & Hin). exists id, s.
  destruct (so_table _ _ Hs _ _ _ _ _ (gview_Some _ _ _ Hg) Hin) as (ds & Hds & Hid & _ & _ & Hf). rewrite Hpar in Hf.
  rewrite (quiescent_closing d ts Hi Hall) in Hf. destruct (Finished (ds_close ds)) eqn:Hfin.
  - by rewrite lookup_empty in Hf; discriminate (Hf Hp eq_refl).
  - destruct (unfinished_held _ _ _ _ Hs Hds Hfin) as [_ [?|Hx]]; [congruence|].
    by rewrite (quiescent_closing d ts Hi Hall), lookup_empty in Hx.
Qed.

(** C7. The debug manager is safe and does not leak.  Whatever sessions are
    created, closed by identifier, closed with their parent execution session or
    by the shutdown, and however these calls interleave, no call panics: a gate is
    never released or finished out of turn, and a session's close begins and
    finishes once.  A session a request finds under an identifier has that
    identifier, has not begun to close, and is listed in the group of its parent.
    And once every call and teardown has ended, no session is left closing, and a
    group is retained only while a session is. *)
Theorem debug_manager_safe actions :
  ∃ w, schedule actions initial = Ret w ∧
    (∀ id s, lookup_session None id (wd_manager w) = inl s →
       ∃ ds grp, dm_sessionHeap (wd_manager w) !! s = Some ds ∧ ds_id ds = id ∧ Started (ds_close ds) = false ∧
         dm_groups (wd_manager w) !! ds_parent ds = Some (ds_group ds) ∧
         dm_groupHeap (wd_manager w) !! ds_group ds = Some grp ∧ dg_sessions grp !! id = Some s) ∧
    ((∀ t, t ∈ wd_workers w → ended t) →
       dm_closing (wd_manager w) = ∅ ∧
       (dm_sessions (wd_manager w) = ∅ → dm_groups (wd_manager w) = ∅)).
Proof.
  destruct (manager_schedule_inv actions initial manager_initial_inv) as (w & Hw & Hi). exists w. split; [done|].
  pose proof (i_sessions _ _ Hi) as Hs. split.
  - intros id s. unfold lookup_session. destruct (dm_sessions (wd_manager w) !! id) as [s'|] eqn:Hl; [|done]. intros [= ->].
    destruct (so_live _ _ Hs _ _ Hl) as (ds & Hds & <-). destruct (so_ok _ _ Hs s ds Hds) as (_ & _ & H3).
    destruct (co_state (ds_close ds)) eqn:Hst; [|destruct H3 as (_ & _ & ? & _); congruence|destruct H3; congruence].
    destruct H3 as (_ & (Hgr & tbl & Ht & Hin) & _). destruct (gview_lookup _ _ _ _ Ht) as (grp & Hg & _ & <-).
    exists ds, grp. split_and!; try done. unfold Started. by rewrite Hst.
  - intros Hall. split; [by eapply quiescent_closing|]. intros He. apply map_empty. intros p.
    destruct (dm_groups (wd_manager w) !! p) as [g|] eqn:Hp; [|done].
    destruct (quiescent_group _ _ _ _ Hi Hall Hp) as (id & s & Hx). by rewrite He, lookup_empty in Hx.
Qed.

Lemma finished_gone d ts s ds : inv d ts → dm_sessionHeap d !! s = Some ds → Finished (ds_close ds) = true →
  dm_sessions d !! ds_id ds = None.
Proof.
  intros Hi Hds Hf%Finished_state. destruct (so_ok _ _ (i_sessions _ _ Hi) s ds Hds) as (_ & _ & H3). rewrite Hf in H3. apply H3.
Qed.

(** Closing is complete.  When the close of a parent's group has been
    published, which is what the close hook of the execution session returns on,
    every session that was ever committed to that group has finished its own
    close and can no longer be found.  When [Close] returned nil, this holds for
    every session the manager ever had: none is reachable, none is still being
    torn down, and no later call creates one.  A creation that was admitted
    before the close and commits during it is covered too. *)
Theorem debug_close_complete actions w : schedule actions initial = Ret w →
  let d := wd_manager w in
  (∀ g grp err s ds, dm_groupHeap d !! g = Some grp → gs_abs (dg_gate grp) = AClosed err →
     dm_sessionHeap d !! s = Some ds → ds_group ds = g →
     Finished (ds_close ds) = true ∧ lookup_session None (ds_id ds) d = inr (ESentinel DebugErrSessionNotFound)) ∧
  (DShutDone None ∈ wd_workers w →
     dm_sessions d = ∅ ∧ (∀ s ds, dm_sessionHeap d !! s = Some ds → Finished (ds_close ds) = true) ∧
     (∀ p, beginCreate p d = Ret (Some (ESentinel DebugErrClosed), d))).
Proof.
  intros Hw d. destruct (manager_schedule_inv actions initial manager_initial_inv) as (w' & Hw' & Hi).
  assert (w' = w) as -> by congruence. fold d in Hi. split.
  - intros g grp err s ds Hg Ha Hds Hgr. pose proof (i_closed _ _ Hi _ _ _ _ _ Hg Ha Hds Hgr) as Hf. split; [done|].
    unfold lookup_session. by rewrite (finished_gone d _ s ds Hi Hds Hf).
  - intros Hin. destruct (i_workers _ _ Hi _ Hin) as [Hcl Hsh].
    assert (∀ s ds, dm_sessionHeap d !! s = Some ds → Finished (ds_close ds) = true) as Hall.
    { intros s ds Hds. destruct (Finished (ds_close ds)) eqn:Hf; [done|].
      destruct (unfinished_held _ _ _ _ (i_sessions _ _ Hi) Hds Hf) as [[Hgr _] _].
      destruct (go_key _ _ (i_groups _ _ Hi) _ _ Hgr) as (grp & Hg & _).
      destruct (Hsh eq_refl _ _ _ Hgr Hg) as [[err Ha]|[]]. by rewrite (i_closed _ _ Hi _ _ _ _ _ Hg Ha Hds eq_refl) in Hf. }
    split_and!; [|done|intros p; unfold beginCreate; by rewrite Hcl].
    apply map_empty. intros id. destruct (dm_sessions d !! id) as [s|] eqn:Hl; [|done].
    destruct (so_live _ _ (i_sessions _ _ Hi) _ _ Hl) as (ds & Hds & <-). pose proof (finished_gone d _ s ds Hi Hds (Hall _ _ Hds)). congruence.
Qed.

End manager.

(** Two sessions of one parent and a creation in flight: the shutdown closes both
    and rejects the third. *)
Definition debug_sample : list action :=
  [ACreate None (inl "a") "p"; AStep 0 (Runtime None); AStep 0 Proceed;
   ACreate None (inl "b") "p"; AStep 1 (Runtime None);
   ACreate None (inl "c") "p"; ACloseSession "a"; AShutdown ["p"];
   AStep 4 Proceed; AStep 2 (Runtime None); AStep 2 Proceed; AStep 1 Proceed;
   AStep 5 (Ids ["b"; "a"]); AStep 5 Proceed; AStep 5 Proceed; AStep 6 (Result None);
   AStep 5 Proceed; AStep 5 Proceed; AStep 5 Proceed; AStep 7 (Result None); AStep 5 Proceed; AStep 5 Proceed;
   AStep 4 Proceed; AStep 4 Proceed].

Definition debug_final (actions : list action) : world (G := Gate) :=
  match schedule actions initial with Ret w => w | _ => initial end.

Lemma debug_close_complete_witness :
  schedule debug_sample initial = Ret (debug_final debug_sample) ∧
  dm_sessions (wd_manager (debug_final debug_sample)) = ∅.
Proof.
  split; [vm_compute; reflexivity|].
  apply (debug_close_complete debug_sample (debug_final debug_sample)); [vm_compute; reflexivity|].
  apply (list_elem_of_lookup_2 _ 4). vm_compute. reflexivity.
Defined.
