(* ===== verification/SessionCreation.v ===== *)
(** * Creating sessions and debug sessions

    [Manager.CreateSession] and [prepareSession] of [internal/exec/manager.go],
    [CreateDebugRuntime] of [internal/exec/debug_runtime.go] and
    [Manager.CreateSession] of [internal/debug/manager.go]: the request that
    compiles a document into a plan and the one that starts a debugger on it.
    What the collaborators answer (the workspace, the Ferret runtime, the
    registries) is given; every call that takes or releases a resource is
    recorded in a log, so that the theorems can count them.  The state behind the
    calls is modelled in [ExecRegistry], [ExecSession] and [DebugManager]. *)

From S2P Require Import Prelude Source Errors Diagnostics.
Local Open Scope Z_scope.

(** ** The log *)

Inductive effect :=
| Admit             (* sessions.beginCreate admitted the creation *)
| EndAdmit          (* sessions.finishCreate *)
| OpenPlan          (* Compile returned a plan *)
| ClosePlan         (* plan.Close *)
| Publish           (* commitCreate, or the session entered the debug manager *)
| AdmitRuntime      (* sessions.beginRuntimeCreate admitted the runtime *)
| EndRuntime        (* creation.finish *)
| Lease             (* acquireDebugRuntimeTarget took a lease of the debug plan *)
| Release           (* releaseDebugRuntime *)
| NewRuntime        (* newExecutionRuntime made a context *)
| CancelRuntime     (* runtime.cancel *)
| OpenDebugger      (* NewDebugSession returned a session *)
| CloseDebugger.    (* its Close *)

Global Instance effect_eq_dec : EqDecision effect.
Proof. solve_decision. Defined.

(** A computation that records what it does. *)
Definition creating (A : Type) : Type := list effect → outcome (A * list effect).

Definition done {A} (a : A) : creating A := λ log, Ret (a, log).
Definition emit {A} (e : effect) (k : creating A) : creating A := λ log, k (log ++ [e]).

(** [defer]: the effect happens when the rest has returned. *)
Definition deferred {A} (e : effect) (k : creating A) : creating A := λ log,
  '(a, log) ← k log; Ret (a, log ++ [e]).

Definition lift {A B} (o : outcome A) (k : A → creating B) : creating B := λ log, a ← o; k a log.

(** ** Executable sessions *)

(** What [prepareSession] reads of a document. *)
Record document := mkDocument {
  dc_Path : string;
  dc_RelativePath : string;
  dc_URI : string;
  dc_Revision : Z;
  dc_Content : list Z;
  dc_Loaded : bool;
  dc_Diagnostics : list (option FerretDiagnostic)
}.

Definition ProjectDiagnostics (d : document) : outcome (list Errors.Diagnostic) :=
  mapM (Convert (dc_URI d) (NewMapper (dc_Content d))) (dc_Diagnostics d).

Record SessionSnapshot := mkSessionSnapshot {
  sn_ID : string;
  sn_Source : SourceSnapshot;
  sn_Text : list Z;
  sn_Parameters : list string
}.

(** The answers of the collaborators of one [CreateSession]. *)
Record answers := mkAnswers {
  an_ctx : option error;                      (* ctx.Err() on entry *)
  an_begin : option error;                    (* sessions.beginCreate *)
  an_workspace : string + error;              (* workspaces.Get: the root *)
  an_document : document + error;             (* RefreshDocument *)
  an_compile : bool * option error;           (* Compile: whether there is a plan, and the error *)
  an_planClose : option error;                (* plan.Close *)
  an_ctxCompiled : option error;              (* ctx.Err() after the compilation *)
  an_params : list string + error;            (* plan.Params *)
  an_id : string + error;                     (* newSessionID *)
  an_commit : option error                    (* sessions.commitCreate *)
}.

Definition interrupted (err : error) : bool := errors_Is err ContextCanceled || errors_Is err ContextDeadlineExceeded.

(** [errors.Join(err, other)] with an error that is not nil. *)
Definition join_error (err : error) (other : option error) : error := default err (errors_Join [Some err; other]).

Definition compilation_failed {A} (source : SourceSnapshot) (text : list Z) (err : error) : creating (A + error) :=
  lift (FromError (ss_URI source) text err) (λ ds, done (inr (ECompilation source ds err))).

Definition source_of (workspaceID : string) (d : document) : SourceSnapshot :=
  mkSourceSnapshot workspaceID (dc_RelativePath d) (dc_URI d) (dc_Revision d).

(** [prepareSession] from the compiled plan on. *)
Definition prepare_plan (a : answers) (source : SourceSnapshot) (text : list Z) : creating (SessionSnapshot + error) :=
  match an_ctxCompiled a with
  | Some err => emit ClosePlan (done (inr (join_error err (an_planClose a))))
  | None =>
      match an_params a with
      | inr err =>
          let err := join_error (wrap_prefix "retrieve plan parameters" err) (an_planClose a) in
          emit ClosePlan (if interrupted err then done (inr err) else compilation_failed source text err)
      | inl parameters =>
          match an_id a with
          | inr err => emit ClosePlan (done (inr (join_error err (an_planClose a))))
          | inl id => done (inl (mkSessionSnapshot id source text parameters))
          end
      end
  end.

Definition prepareSession (a : answers) (workspaceID : string) : creating (SessionSnapshot + error) :=
  match an_workspace a with
  | inr err => done (inr err)
  | inl _ =>
      match an_document a with
      | inr err => done (inr err)
      | inl d =>
          let source := source_of workspaceID d in
          let text := dc_Content d in
          if negb (dc_Loaded d) then
            lift (ProjectDiagnostics d) (λ ds,
              done (inr (ECompilation source ds (wrap_sentinel WsErrDocumentUnavailable (dc_RelativePath d)))))
          else
            match an_compile a with
            | (plan, Some err) =>
                let '(err, k) := if plan then (join_error err (an_planClose a), λ k, emit OpenPlan (emit ClosePlan k)) else (err, λ k, k) in
                k (if interrupted err || errors_Is err WsErrClosed || errors_Is err WsErrDocumentNotFound then done (inr err)
                   else compilation_failed source text err)
            | (false, None) => done (inr (ECompilation source [] (ENew "runtime returned no plan")))
            | (true, None) => emit OpenPlan (prepare_plan a source text)
            end
      end
  end.

(** [CreateSession]. *)
Definition CreateSession (a : answers) (workspaceID : string) : creating (SessionSnapshot + error) :=
  match an_ctx a with
  | Some err => done (inr err)
  | None =>
      match an_begin a with
      | Some err => done (inr err)
      | None =>
          emit Admit (deferred EndAdmit (λ log,
            '(created, log) ← prepareSession a workspaceID log;
            match created with
            | inr err => Ret (inr err, log)
            | inl snapshot =>
                match an_commit a with
                | Some err => Ret (inr (join_error err (an_planClose a)), log ++ [ClosePlan])
                | None => Ret (inl snapshot, log ++ [Publish])
                end
            end))
      end
  end.

(** ** Debug sessions *)

Record debugAnswers := mkDebugAnswers {
  da_ctx : option error;                       (* ctx.Err() in the debug manager *)
  da_id : string + error;                      (* newSessionID *)
  da_begin : option error;                     (* debug manager's beginCreate *)
  da_ctxRuntime : option error;                (* ctx.Err() in CreateDebugRuntime *)
  da_input : option error;                     (* newRuntimeInput *)
  da_beginRuntime : option error;              (* sessions.beginRuntimeCreate *)
  da_target : option error;                    (* acquireDebugRuntimeTarget *)
  da_debugger : bool * option error;           (* NewDebugSession *)
  da_debuggerClose : option error;             (* the debugger's Close *)
  da_managerClosed : bool;                     (* m.closed when the session is to be published *)
  da_groupClosed : bool                        (* its group is gone or does not accept *)
}.

(** The parent session: its source and text. *)
Record parentSession := mkParent { pa_source : SourceSnapshot; pa_text : list Z }.

(** [NewDebugSession] and what follows. *)
Definition open_debugger (a : debugAnswers) : creating (unit + error) :=
  match da_debugger a with
  | (true, Some err) =>
      emit OpenDebugger (emit CancelRuntime (emit CloseDebugger (emit Release (done (inr (join_error err (da_debuggerClose a)))))))
  | (false, Some err) => emit CancelRuntime (emit Release (done (inr err)))
  | (false, None) => emit CancelRuntime (emit Release (done (inr (ENew "runtime returned no debug session"))))
  | (true, None) => emit OpenDebugger (done (inl ()))
  end.

Definition CreateDebugRuntime (a : debugAnswers) (parent : parentSession) : creating (unit + error) :=
  match da_ctxRuntime a with
  | Some err => done (inr err)
  | None =>
      match da_input a with
      | Some err => done (inr err)
      | None =>
          match da_beginRuntime a with
          | Some err => done (inr err)
          | None =>
              emit AdmitRuntime (deferred EndRuntime
                match da_target a with
                | Some err =>
                    if interrupted err || errors_Is err ExecErrSessionClosed || errors_Is err WsErrClosed || errors_Is err WsErrDocumentNotFound
                    then done (inr err)
                    else compilation_failed (pa_source parent) (pa_text parent) err
                | None => emit Lease (emit NewRuntime (open_debugger a))
                end)
          end
      end
  end.

(** [DebugRuntime.Close]. *)
Definition close_runtime {A} (k : creating A) : creating A := emit CancelRuntime (emit CloseDebugger (emit Release k)).

(** [debug.Manager.CreateSession]; the result is the new session's identifier. *)
Definition CreateDebugSession (a : debugAnswers) (parent : parentSession) : creating (string + error) :=
  match da_ctx a with
  | Some err => done (inr err)
  | None =>
      match da_id a with
      | inr err => done (inr err)
      | inl id =>
          match da_begin a with
          | Some err => done (inr err)
          | None =>
              emit Admit (deferred EndAdmit (λ log,
                '(runtime, log) ← CreateDebugRuntime a parent log;
                match runtime with
                | inr err => Ret (inr err, log)
                | inl _ =>
                    if da_managerClosed a || da_groupClosed a then
                      close_runtime (done (inr (join_error (ESentinel (if da_managerClosed a then DebugErrClosed else ExecErrSessionClosed)) (da_debuggerClose a)))) log
                    else Ret (inl id, log ++ [Publish])
                end))
          end
      end
  end.

(** ** What is released *)

Definition times (e : effect) (log : list effect) : nat := count (λ x, bool_decide (x = e)) log.

Lemma times_app e l k : times e (l ++ k) = (times e l + times e k)%nat.
Proof. apply count_app. Qed.

(** The diagnostics an error carries fit the editor's positions. *)
Definition small (err : error) : Prop :=
  Forall (λ v, Z.of_nat (length (ad_Content v)) < 2 ^ 32) (default [] (errors_AsDiagnostics err)).

Lemma small_join err other : small err → (∀ e, other = Some e → small e) → small (join_error err other).
Proof.
  unfold small, join_error, errors_Join. intros He Ho. destruct other as [e|]; simpl.
  - specialize (Ho e eq_refl). destruct (errors_AsDiagnostics err); [done|]. by destruct (errors_AsDiagnostics e).
  - by destruct (errors_AsDiagnostics err).
Qed.

Lemma small_wrap prefix err : small err → small (wrap_prefix prefix err).
Proof. done. Qed.

Lemma interrupted_join err other : interrupted err = true → interrupted (join_error err other) = true.
Proof.
  unfold interrupted, join_error, errors_Join. intros H. apply orb_true_iff in H.
  destruct other as [e|]; simpl; destruct H as [-> | ->]; simpl; by rewrite ?orb_true_r.
Qed.

Definition compilation (err : error) : bool := match err with ECompilation _ _ _ => true | _ => false end.

Lemma compilation_failed_spec {A} source text err log : Z.of_nat (length text) < 2 ^ 32 → small err →
  ∃ ds, compilation_failed (A := A) source text err log = Ret (inr (ECompilation source ds err), log).
Proof.
  intros Htext Herr. unfold compilation_failed, lift. destruct (FromError_total (ss_URI source) text err Htext Herr) as (ds & -> & _).
  by exists ds.
Qed.

Lemma ProjectDiagnostics_total d : Z.of_nat (length (dc_Content d)) < 2 ^ 32 → ∃ ds, ProjectDiagnostics d = Ret ds.
Proof.
  intros Hlen. unfold ProjectDiagnostics. induction (dc_Diagnostics d) as [|v vs [ds IH]]; [by eexists|]. simpl.
  destruct (Convert_total (dc_URI d) (dc_Content d) v Hlen) as (x & -> & _). simpl. rewrite IH. by eexists.
Qed.

(** The texts and diagnostics of the answers are small, and no collaborator
    answers with a compilation error of its own. *)
Record answers_ok (a : answers) : Prop := mkAnswersOk {
  ok_document d : an_document a = inl d → Z.of_nat (length (dc_Content d)) < 2 ^ 32;
  ok_compile err : (an_compile a).2 = Some err → small err ∧ compilation err = false;
  ok_close err : an_planClose a = Some err → small err;
  ok_params err : an_params a = inr err → small err;
  ok_plain err : an_ctx a = Some err ∨ an_begin a = Some err ∨ an_workspace a = inr err ∨ an_document a = inr err → compilation err = false
}.

(** What a failed creation leaves behind: as many plans closed as were opened, and
    an error that is a compilation error only for a cause that is no
    interruption. *)
Definition failed_cleanly (err : error) (log : list effect) : Prop :=
  times OpenPlan log = times ClosePlan log ∧ times Publish log = 0%nat ∧
  ∀ source ds cause, err = ECompilation source ds cause → interrupted cause = false.

Definition prepared (a : answers) (workspaceID : string) (snapshot : SessionSnapshot) (log : list effect) : Prop :=
  times OpenPlan log = 1%nat ∧ times ClosePlan log = 0%nat ∧ times Publish log = 0%nat ∧
  ∃ d id params, an_document a = inl d ∧ dc_Loaded d = true ∧ an_params a = inl params ∧ an_id a = inl id ∧
    snapshot = mkSessionSnapshot id (source_of workspaceID d) (dc_Content d) params.

Definition outcome_of (a : answers) (workspaceID : string) (res : SessionSnapshot + error) (log : list effect) : Prop :=
  match res with inl snapshot => prepared a workspaceID snapshot log | inr err => failed_cleanly err log end.

Lemma join_not_compilation err other : compilation (join_error err other) = false.
Proof. unfold join_error, errors_Join. by destruct other. Qed.

Lemma plain_failure err log : times OpenPlan log = times ClosePlan log → times Publish log = 0%nat → compilation err = false →
  failed_cleanly err log.
Proof. intros ? ? Hc. split_and!; [done..|]. by intros source ds cause ->. Qed.

Lemma compilation_failure source ds err log : times OpenPlan log = times ClosePlan log → times Publish log = 0%nat →
  interrupted err = false → failed_cleanly (ECompilation source ds err) log.
Proof. intros ? ? Hc. split_and!; [done..|]. by intros ? ? ? [= _ _ <-]. Qed.

(** The counts of a log that extends one without plans. *)
Ltac counts := rewrite ?times_app in *; simpl in *; unfold times in *; simpl in *; lia.

Lemma prepare_plan_ok a workspaceID d log : answers_ok a → an_document a = inl d → dc_Loaded d = true →
  times OpenPlan log = 1%nat → times ClosePlan log = 0%nat → times Publish log = 0%nat →
  ∃ res log', prepare_plan a (source_of workspaceID d) (dc_Content d) log = Ret (res, log') ∧
    times Admit log' = times Admit log ∧ times EndAdmit log' = times EndAdmit log ∧ outcome_of a workspaceID res log'.
Proof.
  intros [Hd _ Hclose Hparams _] Hdoc Hloaded Ho Hc Hp. unfold prepare_plan.
  destruct (an_ctxCompiled a) as [err|].
  { do 2 eexists. split; [done|]. split_and!; [counts..|]. apply plain_failure; [counts..|apply join_not_compilation]. }
  destruct (an_params a) as [params|err] eqn:Hpar.
  - destruct (an_id a) as [id|err] eqn:Hid.
    + do 2 eexists. split; [done|]. split; [done|]. split; [done|]. split_and!; [done..|]. by repeat eexists.
    + do 2 eexists. split; [done|]. split_and!; [counts..|]. apply plain_failure; [counts..|apply join_not_compilation].
  - unfold emit. set (joined := join_error _ _). destruct (interrupted joined) eqn:Hi.
    + do 2 eexists. split; [done|]. split_and!; [counts..|]. apply plain_failure; [counts..|apply join_not_compilation].
    + destruct (compilation_failed_spec (A := SessionSnapshot) (source_of workspaceID d) (dc_Content d) joined (log ++ [ClosePlan]))
        as [ds ->]; [by apply Hd|by apply small_join; [apply small_wrap, Hparams|auto]|].
      do 2 eexists. split; [done|]. split_and!; [counts..|]. apply compilation_failure; [counts..|done].
Qed.

Lemma prepareSession_ok a workspaceID log : answers_ok a →
  times OpenPlan log = 0%nat → times ClosePlan log = 0%nat → times Publish log = 0%nat →
  ∃ res log', prepareSession a workspaceID log = Ret (res, log') ∧
    times Admit log' = times Admit log ∧ times EndAdmit log' = times EndAdmit log ∧ outcome_of a workspaceID res log'.
Proof.
  intros Hok Ho Hc Hp. pose proof Hok as [Hd Hcompile Hclose _ Hplain]. unfold prepareSession.
  destruct (an_workspace a) as [ws|err] eqn:Hws; [|do 2 eexists; split; [done|]; split_and!; [done..|]; apply plain_failure; [congruence|done|eauto]].
  destruct (an_document a) as [d|err] eqn:Hdoc; [|do 2 eexists; split; [done|]; split_and!; [done..|]; apply plain_failure; [congruence|done|eauto 6]].
  destruct (dc_Loaded d) eqn:Hl; simpl.
  2: { unfold lift. destruct (ProjectDiagnostics_total d (Hd d eq_refl)) as [ds ->]. do 2 eexists. split; [done|].
       split_and!; [done..|]. apply compilation_failure; [congruence|done|done]. }
  destruct (an_compile a) as [plan [err|]].
  - destruct (Hcompile err eq_refl) as [Hsmall Hnc]. destruct plan; unfold emit.
    + case_match eqn:Hi.
      * do 2 eexists. split; [done|]. split_and!; [counts..|]. apply plain_failure; [counts..|apply join_not_compilation].
      * destruct (compilation_failed_spec (A := SessionSnapshot) (source_of workspaceID d) (dc_Content d) (join_error err (an_planClose a))
          ((log ++ [OpenPlan]) ++ [ClosePlan])) as [ds ->]; [by apply Hd|by apply small_join; [|auto]|].
        do 2 eexists. split; [done|]. split_and!; [counts..|]. apply orb_false_iff in Hi as [[Hi _]%orb_false_iff _].
        apply compilation_failure; [counts..|done].
    + case_match eqn:Hi.
      * do 2 eexists. split; [done|]. split_and!; [done..|]. by apply plain_failure; [congruence|..].
      * destruct (compilation_failed_spec (A := SessionSnapshot) (source_of workspaceID d) (dc_Content d) err log) as [ds ->]; [by apply Hd|done|].
        do 2 eexists. split; [done|]. split_and!; [done..|]. apply orb_false_iff in Hi as [[Hi _]%orb_false_iff _].
        by apply compilation_failure; [congruence|..].
  - destruct plan; unfold emit.
    + destruct (prepare_plan_ok a workspaceID d (log ++ [OpenPlan]) Hok Hdoc Hl) as (res & log' & Heq & H1 & H2 & H3); [counts..|].
      exists res, log'. split; [done|]. split_and!; [counts..|done].
    + do 2 eexists. split; [done|]. split_and!; [done..|]. by apply compilation_failure; [congruence|..].
Qed.

(** The request reached the compiler or the document's own diagnostics: its
    context was live, it was admitted, and the workspace returned the document. *)
Definition admitted (a : answers) (d : document) : Prop :=
  an_ctx a = None ∧ an_begin a = None ∧ (∃ ws, an_workspace a = inl ws) ∧ an_document a = inl d.

(** The cause of a compile that answered [err], with the error of closing the
    plan it returned beside it. *)
Definition compile_cause (a : answers) (err : error) : error :=
  if (an_compile a).1 then join_error err (an_planClose a) else err.

(** What a compilation error can be blamed on. *)
Inductive blamed (a : answers) (d : document) : error → Prop :=
  | blamed_unavailable : dc_Loaded d = false → blamed a d (wrap_sentinel WsErrDocumentUnavailable (dc_RelativePath d))
  | blamed_compile err : dc_Loaded d = true → (an_compile a).2 = Some err →
      errors_Is (compile_cause a err) WsErrClosed = false → errors_Is (compile_cause a err) WsErrDocumentNotFound = false →
      blamed a d (compile_cause a err)
  | blamed_no_plan : dc_Loaded d = true → an_compile a = (false, None) → blamed a d (ENew "runtime returned no plan")
  | blamed_params err : dc_Loaded d = true → an_compile a = (true, None) → an_ctxCompiled a = None → an_params a = inr err →
      blamed a d (join_error (wrap_prefix "retrieve plan parameters" err) (an_planClose a)).

(** The interruption a request that reached the compiler observed, and the error it
    is to return for it: the compiler answered a context error, or the context was
    done once the plan was compiled. *)
Definition observed_interruption (a : answers) (reported : error) : Prop :=
  (∃ err, (an_compile a).2 = Some err ∧ interrupted err = true ∧ reported = compile_cause a err) ∨
  (∃ err, an_compile a = (true, None) ∧ an_ctxCompiled a = Some err ∧ reported = join_error err (an_planClose a)).

Lemma interrupted_compile_cause a err : interrupted err = true → interrupted (compile_cause a err) = true.
Proof. unfold compile_cause. case_match; [apply interrupted_join|done]. Qed.

Lemma compilation_failed_inv {A} source text err log res log' : compilation_failed (A := A) source text err log = Ret (res, log') →
  ∃ ds, res = inr (ECompilation source ds err).
Proof. unfold compilation_failed, lift, done. intros H. destruct (FromError _ _ _); simplify_eq/=. by eexists. Qed.

Lemma plan_parameters_interrupted a err log res log' source text :
  an_ctxCompiled a = Some err → prepare_plan a source text log = Ret (res, log') → res = inr (join_error err (an_planClose a)).
Proof. unfold prepare_plan, emit, done. intros ->. by intros [= <- _]. Qed.

Lemma prepare_plan_blame a d source text log res log' : prepare_plan a source text log = Ret (res, log') →
  dc_Loaded d = true → an_compile a = (true, None) →
  ∀ src ds cause, res = inr (ECompilation src ds cause) → src = source ∧ interrupted cause = false ∧ blamed a d cause.
Proof.
  unfold prepare_plan, emit, done. intros H Hl Hc src ds cause ->.
  destruct (an_ctxCompiled a) as [err|] eqn:Hx.
  { by simplify_eq. }
  destruct (an_params a) as [params|err] eqn:Hp.
  - by destruct (an_id a) as [id|err]; simplify_eq.
  - case_match eqn:Hi.
    + by simplify_eq.
    + apply compilation_failed_inv in H as [ds' [= -> -> ->]]. split_and!; [done..|]. by constructor.
Qed.

Lemma prepareSession_blame a w d log res log' : prepareSession a w log = Ret (res, log') → answers_ok a → an_document a = inl d →
  (∀ src ds cause, res = inr (ECompilation src ds cause) →
     (∃ ws, an_workspace a = inl ws) ∧ src = source_of w d ∧ interrupted cause = false ∧ blamed a d cause) ∧
  (∀ reported ws, an_workspace a = inl ws → dc_Loaded d = true → observed_interruption a reported → res = inr reported).
Proof.
  intros H [_ Hcompile _ _ Hplain] Hdoc. revert H. unfold prepareSession, emit, done. rewrite Hdoc.
  destruct (an_workspace a) as [ws|err] eqn:Hws.
  2: { intros [= <- _]. split; [|done]. intros src ds cause [= ->]. specialize (Hplain _ (or_intror (or_intror (or_introl eq_refl)))). done. }
  destruct (dc_Loaded d) eqn:Hl; simpl.
  2: { unfold lift. destruct (ProjectDiagnostics d); [|done..]. simpl. intros [= <- _]. split; [|done].
       intros src ds cause [= <- _ <-]. split_and!; [by eexists|done|done|by constructor]. }
  destruct (an_compile a) as [plan [err|]] eqn:Hc.
  - intros H. destruct (Hcompile err eq_refl) as [_ Hnc].
    assert (Hcause : ∃ log0, (if interrupted (compile_cause a err) || errors_Is (compile_cause a err) WsErrClosed ||
        errors_Is (compile_cause a err) WsErrDocumentNotFound
        then Ret (inr (compile_cause a err), log0) else compilation_failed (source_of w d) (dc_Content d) (compile_cause a err) log0) = Ret (res, log')).
    { unfold compile_cause. rewrite Hc. destruct plan; simpl in *; eexists; revert H; destruct (_ || _); exact id. }
    clear H. destruct Hcause as [log0 H]. assert (Hncc : compilation (compile_cause a err) = false).
    { unfold compile_cause. destruct (an_compile a).1; [apply join_not_compilation|done]. }
    split.
    + intros src ds cause ->. case_match eqn:Hi; [by simplify_eq; rewrite H in Hncc|].
      apply orb_false_iff in Hi as [[Hi1 Hi2]%orb_false_iff Hi3]. apply compilation_failed_inv in H as [ds' [= -> -> ->]].
      split_and!; [by eexists|done..|]. constructor; [done|by rewrite Hc|done..].
    + intros reported ws' _ _ [(e & He & Hint & ->)|(e & He & _)]; [|by rewrite Hc in He]. rewrite Hc in He. injection He as <-.
      rewrite (interrupted_compile_cause _ _ Hint) in H. by injection H as <- _.
  - intros H. destruct plan.
    + split.
      * intros src ds cause Hres. destruct (prepare_plan_blame a d _ _ _ _ _ H Hl Hc _ _ _ Hres) as (-> & ? & ?). split_and!; [by eexists|done..].
      * intros reported ws' _ _ [(e & He & _)|(e & _ & He & ->)]; [by rewrite Hc in He|]. exact (plan_parameters_interrupted _ _ _ _ _ _ _ He H).
    + injection H as <- _. split.
      * intros src ds cause [= <- _ <-]. split_and!; [by eexists|done|done|]. by constructor.
      * intros reported ws' _ _ [(e & He & _)|(e & He & _)]; by rewrite Hc in He.
Qed.

Lemma prepareSession_blamed a w d ws log res log' cause : prepareSession a w log = Ret (res, log') → an_workspace a = inl ws → an_document a = inl d →
  blamed a d cause → interrupted cause = false → ∃ ds, res = inr (ECompilation (source_of w d) ds cause).
Proof.
  unfold prepareSession, emit, done. intros H Hws Hdoc Hb Hi. rewrite Hws, Hdoc in H. destruct Hb as [Hl|err Hl Hc H1 H2|Hl Hc|err Hl Hc Hx Hp]; rewrite Hl in H; simpl in H.
  - unfold lift in H. destruct (ProjectDiagnostics d); simplify_eq/=. by eexists.
  - unfold compile_cause in *. destruct (an_compile a) as [[] e]; simpl in *; subst e; simpl in *; rewrite Hi, H1, H2 in H; simpl in H;
      by apply compilation_failed_inv in H.
  - rewrite Hc in H. injection H as <- _. by eexists.
  - rewrite Hc in H. unfold prepare_plan, emit, done in H. rewrite Hx, Hp, Hi in H. by apply compilation_failed_inv in H.
Qed.

Lemma CreateSession_blamed a w res log d cause : CreateSession a w [] = Ret (res, log) → admitted a d → blamed a d cause → interrupted cause = false →
  ∃ ds, res = inr (ECompilation (source_of w d) ds cause).
Proof.
  unfold CreateSession, emit, deferred, done. intros H (Hctx & Hbegin & [ws Hws] & Hdoc) Hb Hi. rewrite Hctx, Hbegin in H.
  destruct (prepareSession a w _) as [[created log1]| |] eqn:Hp; [|done..]. simpl in H.
  destruct (prepareSession_blamed _ _ _ _ _ _ _ _ Hp Hws Hdoc Hb Hi) as [ds ->]. injection H as <- _. by exists ds.
Qed.

Lemma CreateSession_blame a w res log : CreateSession a w [] = Ret (res, log) → answers_ok a →
  (∀ source ds cause, res = inr (ECompilation source ds cause) →
     ∃ d, admitted a d ∧ source = source_of w d ∧ interrupted cause = false ∧ blamed a d cause) ∧
  (∀ d reported, admitted a d → dc_Loaded d = true → observed_interruption a reported → res = inr reported).
Proof.
  intros H Hok. pose proof Hok as [_ _ _ _ Hplain]. revert H. unfold CreateSession, emit, deferred, done, admitted.
  destruct (an_ctx a) as [err|] eqn:Hctx.
  { intros [= <- _]. split; [|naive_solver]. intros ??? [= ->]. by specialize (Hplain _ (or_introl eq_refl)). }
  destruct (an_begin a) as [err|] eqn:Hbegin.
  { intros [= <- _]. split; [|naive_solver]. intros ??? [= ->]. by specialize (Hplain _ (or_intror (or_introl eq_refl))). }
  destruct (prepareSession a w _) as [[created log1]| |] eqn:Hp; [|done..]. simpl.
  destruct (an_document a) as [d|err] eqn:Hdoc.
  2: { revert Hp. unfold prepareSession, done. rewrite Hdoc. destruct (an_workspace a) as [ws|e] eqn:Hws; intros [= <- _]; simpl; intros [= <- _].
       all: split; [|naive_solver]; intros ??? [= ->].
       - by specialize (Hplain _ (or_intror (or_intror (or_intror eq_refl)))).
       - by specialize (Hplain _ (or_intror (or_intror (or_introl eq_refl)))). }
  destruct (prepareSession_blame _ _ _ _ _ _ Hp Hok Hdoc) as [Hblame Hint].
  destruct created as [snapshot|err]; simpl.
  - intros H. split.
    + intros ??? ->. destruct (an_commit a) as [err|]; [|done]. simpl in H. injection H as H _.
      pose proof (join_not_compilation err (an_planClose a)) as Hj. by rewrite H in Hj.
    + intros d' reported (_ & _ & [ws Hws] & [= <-]) Hl Ho. discriminate (Hint reported ws Hws Hl Ho).
  - intros [= <- _]. split.
    + intros source ds cause Hres. destruct (Hblame _ _ _ Hres) as (Hws & -> & ? & ?). by exists d.
    + intros d' reported (_ & _ & [ws Hws] & [= <-]) Hl Ho. exact (Hint reported ws Hws Hl Ho).
Qed.

Lemma CreateSession_released (a : answers) (workspaceID : string) : answers_ok a →
  ∃ res log, CreateSession a workspaceID [] = Ret (res, log) ∧ times Admit log = times EndAdmit log ∧
    match res with
    | inl snapshot =>
        times OpenPlan log = 1%nat ∧ times ClosePlan log = 0%nat ∧ times Publish log = 1%nat ∧
        ∃ d id params, an_document a = inl d ∧ dc_Loaded d = true ∧ an_params a = inl params ∧ an_id a = inl id ∧
          snapshot = mkSessionSnapshot id (source_of workspaceID d) (dc_Content d) params
    | inr err => failed_cleanly err log
    end.
Proof.
  intros Hok. pose proof Hok as [_ _ _ _ Hplain]. unfold CreateSession, emit, deferred.
  destruct (an_ctx a) as [err|] eqn:Hctx; [do 2 eexists; split; [done|]; split; [done|]; by apply plain_failure; eauto|].
  destruct (an_begin a) as [err|] eqn:Hbegin; [do 2 eexists; split; [done|]; split; [done|]; by apply plain_failure; eauto|].
  destruct (prepareSession_ok a workspaceID ([] ++ [Admit]) Hok) as (res & log & -> & Ha & He & Hres); [done..|]. simpl.
  destruct res as [snapshot|err]; simpl in *.
  - destruct Hres as (H1 & H2 & H3 & Hs). destruct (an_commit a) as [err|]; simpl.
    + do 2 eexists. split; [done|]. split; [counts|]. apply plain_failure; [counts..|apply join_not_compilation].
    + do 2 eexists. split; [done|]. split; [counts|]. split_and!; [counts..|done].
  - do 2 eexists. split; [done|]. split; [counts|]. destruct Hres as (H1 & H2 & H3). split_and!; [counts..|done].
Qed.

(** C10. Creating a session releases what it took, whatever the workspace, the
    compiler and the registry answer, as long as the texts they answer are shorter
    than [2^32] bytes and none of them answers a compilation error of its own
    ([answers_ok]): it does not panic, an admitted creation is always finished, a
    creation that fails has closed every plan it was given and published nothing,
    and a creation that succeeds has published one session with its plan open, for
    the text and revision the workspace returned.  A compilation error is reported
    exactly when the workspace returned a document and that document is not loaded,
    or the compiler failed with an error that is neither a closed workspace nor a
    missing document, or it returned neither a plan nor an error, or the parameters
    of its plan could not be read, and the cause is no context error; such a failure
    is reported as one even where the context was cancelled meanwhile.  A request of
    a loaded document that observes its interruption, because the compiler answered
    a context error or because the context was done once a plan was compiled,
    returns that error, joined with the error of closing the plan where there was
    one, and never a compilation error. *)
Theorem create_session_releases (a : answers) (workspaceID : string) : answers_ok a →
  ∃ res log, CreateSession a workspaceID [] = Ret (res, log) ∧ times Admit log = times EndAdmit log ∧
    match res with
    | inl snapshot =>
        times OpenPlan log = 1%nat ∧ times ClosePlan log = 0%nat ∧ times Publish log = 1%nat ∧
        ∃ d id params, an_document a = inl d ∧ dc_Loaded d = true ∧ an_params a = inl params ∧ an_id a = inl id ∧
          snapshot = mkSessionSnapshot id (source_of workspaceID d) (dc_Content d) params
    | inr err => failed_cleanly err log
    end ∧
    (∀ source cause, (∃ ds, res = inr (ECompilation source ds cause)) ↔
       ∃ d, admitted a d ∧ source = source_of workspaceID d ∧ interrupted cause = false ∧ blamed a d cause) ∧
    (∀ d reported, admitted a d → dc_Loaded d = true → observed_interruption a reported → res = inr reported).
Proof.
  intros Hok. destruct (CreateSession_released a workspaceID Hok) as (res & log & Heq & Ha & Hres). exists res, log.
  destruct (CreateSession_blame _ _ _ _ Heq Hok) as [Hblame Hint]. split_and!; [done..| |done]. intros source cause. split.
  - intros [ds Hds]. by eapply Hblame.
  - intros (d & Hd & -> & Hi & Hb). by eapply CreateSession_blamed.
Qed.

Definition sample_document : document := mkDocument "/w/q.fql" "q.fql" "file:///w/q.fql" 1 (bytes_of_string "RETURN 1") true [].

(** A compilation that is cancelled after it returned a plan. *)
Definition cancelled_answers : answers :=
  mkAnswers None None (inl "/w") (inl sample_document) (true, None) None (Some (ESentinel ContextCanceled)) (inl []) (inl "s") None.

Lemma create_session_releases_witness : ∃ log, CreateSession cancelled_answers "w" [] = Ret (inr (join_error (ESentinel ContextCanceled) None), log) ∧
  times Admit log = times EndAdmit log ∧ times OpenPlan log = times ClosePlan log ∧ times Publish log = 0%nat.
Proof.
  destruct (create_session_releases cancelled_answers "w") as (res & log & Heq & Ha & H & _ & Hint).
  - constructor; simpl; try done; [by intros d [= <-]|]. intros err [?|[?|[?|?]]]; done.
  - exists log. rewrite (Hint sample_document (join_error (ESentinel ContextCanceled) None)) in Heq, H.
    + split; [exact Heq|]. split; [exact Ha|]. split; apply H.
    + split; [reflexivity|]. split; [reflexivity|]. split; [by eexists|reflexivity].
    + reflexivity.
    + right. by eexists.
    + split; [reflexivity|]. split; [reflexivity|]. split; [by eexists|reflexivity].
    + reflexivity.
    + right. by eexists.
Defined.

Example cancelled_log : CreateSession cancelled_answers "w" [] = Ret (inr (EJoin [ESentinel ContextCanceled]), [Admit; OpenPlan; ClosePlan; EndAdmit]).
Proof. vm_compute. reflexivity. Qed.

(** ** Debug sessions *)

(** The resources of a debugger: what was taken was given back. *)
Definition settled (log : list effect) : Prop :=
  times Lease log = times Release log ∧ times OpenDebugger log = times CloseDebugger log ∧ times NewRuntime log = times CancelRuntime log.

(** One runtime with its lease, its context and its debugger is held. *)
Definition holding (log : list effect) : Prop :=
  times Lease log = S (times Release log) ∧ times OpenDebugger log = S (times CloseDebugger log) ∧
  times NewRuntime log = S (times CancelRuntime log).

(** A creation that returned: its log is counted. *)
Ltac returned := do 2 eexists; split; [done|]; unfold settled, holding in *; split_and!; first [done|counts].

Lemma CreateDebugRuntime_ok a parent log : Z.of_nat (length (pa_text parent)) < 2 ^ 32 → (∀ err, da_target a = Some err → small err) →
  settled log →
  ∃ res log', CreateDebugRuntime a parent log = Ret (res, log') ∧
    (times AdmitRuntime log' + times EndRuntime log = times EndRuntime log' + times AdmitRuntime log)%nat ∧
    (times Admit log' = times Admit log ∧ times EndAdmit log' = times EndAdmit log ∧ times Publish log' = times Publish log) ∧
    match res with inl _ => holding log' | inr _ => settled log' end.
Proof.
  intros Htext Htarget (H1 & H2 & H3). unfold CreateDebugRuntime, emit, deferred.
  destruct (da_ctxRuntime a); [returned|]. destruct (da_input a); [returned|]. destruct (da_beginRuntime a); [returned|].
  destruct (da_target a) as [err|].
  - case_match.
    + returned.
    + destruct (compilation_failed_spec (A := unit) (pa_source parent) (pa_text parent) err (log ++ [AdmitRuntime])) as [ds ->]; [done|by apply Htarget|].
      returned.
  - unfold open_debugger, emit. destruct (da_debugger a) as [[] [err|]];
      returned.
Qed.

(** C11. Creating a debug session releases what it took, whatever the executable
    session, the debugger and the managers answer: it does not panic, both
    admissions are finished, a creation that fails has given back the lease of the
    debug plan, closed the debugger and cancelled the runtime's context exactly
    once each, and a creation that succeeds holds one of each and has published
    one session. *)
Theorem create_debug_session_releases (a : debugAnswers) (parent : parentSession) :
  Z.of_nat (length (pa_text parent)) < 2 ^ 32 → (∀ err, da_target a = Some err → small err) →
  ∃ res log, CreateDebugSession a parent [] = Ret (res, log) ∧
    times Admit log = times EndAdmit log ∧ times AdmitRuntime log = times EndRuntime log ∧
    match res with
    | inl id => da_id a = inl id ∧ holding log ∧ times Publish log = 1%nat
    | inr _ => settled log ∧ times Publish log = 0%nat
    end.
Proof.
  intros Htext Htarget. unfold CreateDebugSession, emit, deferred.
  destruct (da_ctx a); [returned|]. destruct (da_id a) as [id|]; [|returned]. destruct (da_begin a); [returned|].
  destruct (CreateDebugRuntime_ok a parent ([] ++ [Admit]) Htext Htarget) as (res & log & -> & Hr & (Ha & He & Hp) & Hres); [done|].
  destruct res as [?|err]; simpl.
  - destruct Hres as (H1 & H2 & H3). destruct (da_managerClosed a || da_groupClosed a); unfold close_runtime, emit; simpl; returned.
  - destruct Hres as (H1 & H2 & H3). unfold settled. do 2 eexists. split; [done|]. split_and!; counts.
Qed.

(** A debugger that is made while the manager shuts down. *)
Definition late_answers : debugAnswers := mkDebugAnswers None (inl "d") None None None None None (true, None) None true false.

Lemma create_debug_session_releases_witness : ∃ log,
  CreateDebugSession late_answers (mkParent (source_of "w" sample_document) []) [] = Ret (inr (EJoin [ESentinel DebugErrClosed]), log) ∧ settled log.
Proof.
  destruct (create_debug_session_releases late_answers (mkParent (source_of "w" sample_document) [])) as (res & log & Heq & _ & _ & H);
    [reflexivity|discriminate|].
  vm_compute in Heq. injection Heq as <- <-. eexists. split; [vm_compute; reflexivity|exact (proj1 H)].
Defined.
