(* ===== verification/DapHandles.v ===== *)
(** * Debug adapter: handles of paused-state objects

    [internal/dap/handle_table.go]: the integers the debug adapter gives out for
    stack frames, scopes and variables, and how they are recognised as stale
    after execution resumed.  The table is a [handleTable] record whose maps are
    [gmap]s; every method body runs under [handleTable.mu] and is one function.
    The specification is one map of tagged values. *)

From S2P Require Import Prelude.

Local Open Scope Z_scope.

Inductive handleStatus := handleInvalid | handleCurrent | handleStale.
Inductive handleKind := frameHandle | scopeHandle | variableHandle.

Global Instance handleStatus_eq_dec : EqDecision handleStatus.
Proof. solve_decision. Defined.
Global Instance handleKind_eq_dec : EqDecision handleKind.
Proof. solve_decision. Defined.

Section handles.
(** [apidebugger.Variable]; a [ValueReference] is an integer, 0 for none. *)
Context {Variable_ : Type}.

Record handleTable := mkHandleTable {
  ht_next : Z;
  ht_frames : gmap Z Z;
  ht_scopes : gmap Z (list Variable_);
  ht_variables : gmap Z Z;
  ht_stale : gmap Z handleKind
}.

Record handleInvalidation := mkInvalidation {
  hi_frames : nat;
  hi_scopes : nat;
  hi_variables : nat;
  hi_stale : nat
}.

Definition newHandleTable : handleTable := mkHandleTable 1 ∅ ∅ ∅ ∅.

(** [for handle := range m { stale[handle] = kind }]. *)
Definition mark {T : Type} (kind : handleKind) (m : gmap Z T) (stale : gmap Z handleKind) :
    gmap Z handleKind :=
  map_fold (λ handle _ acc, <[handle:=kind]> acc) stale m.

Definition Invalidate (t : handleTable) : handleInvalidation * handleTable :=
  let frames := size (ht_frames t) in
  let scopes := size (ht_scopes t) in
  let variables := size (ht_variables t) in
  let stale :=
    if bool_decide (0 < frames + scopes + variables)%nat
    then mark variableHandle (ht_variables t)
           (mark scopeHandle (ht_scopes t) (mark frameHandle (ht_frames t) ∅))
    else ht_stale t in
  (mkInvalidation frames scopes variables (size stale), mkHandleTable (ht_next t) ∅ ∅ ∅ stale).

Definition allocateLocked (t : handleTable) : Z * handleTable :=
  (ht_next t,
   mkHandleTable (int64 (ht_next t + 1)) (ht_frames t) (ht_scopes t) (ht_variables t) (ht_stale t)).

Definition Frame (index : Z) (t : handleTable) : Z * handleTable :=
  let '(handle, t) := allocateLocked t in
  (handle, mkHandleTable (ht_next t) (<[handle:=index]> (ht_frames t)) (ht_scopes t) (ht_variables t)
             (ht_stale t)).

Definition FrameIndex (handle : Z) (t : handleTable) : Z * handleStatus :=
  match ht_frames t !! handle with
  | Some index => (index, handleCurrent)
  | None => if bool_decide (ht_stale t !! handle = Some frameHandle) then (0, handleStale)
            else (0, handleInvalid)
  end.

Definition Scope (variables : list Variable_) (t : handleTable) : Z * handleTable :=
  let '(handle, t) := allocateLocked t in
  (handle, mkHandleTable (ht_next t) (ht_frames t) (<[handle:=variables]> (ht_scopes t)) (ht_variables t)
             (ht_stale t)).

Definition ScopeVariables (handle : Z) (t : handleTable) : list Variable_ * handleStatus :=
  match ht_scopes t !! handle with
  | Some variables => (variables, handleCurrent)
  | None => if bool_decide (ht_stale t !! handle = Some scopeHandle) then ([], handleStale)
            else ([], handleInvalid)
  end.

Definition handleTable_Variable (reference : Z) (t : handleTable) : Z * handleTable :=
  if reference =? 0 then (0, t)
  else
    let '(handle, t) := allocateLocked t in
    (handle, mkHandleTable (ht_next t) (ht_frames t) (ht_scopes t) (<[handle:=reference]> (ht_variables t))
               (ht_stale t)).

Definition VariableReference (handle : Z) (t : handleTable) : Z * handleStatus :=
  match ht_variables t !! handle with
  | Some reference => (reference, handleCurrent)
  | None => if bool_decide (ht_stale t !! handle = Some variableHandle) then (0, handleStale)
            else (0, handleInvalid)
  end.

Inductive op := OFrame (index : Z) | OScope (variables : list Variable_) | OVariable (reference : Z)
  | OInvalidate.

(** The handle an operation returns (0 for [Invalidate]) and the new table. *)
Definition apply_op (o : op) (t : handleTable) : Z * handleTable :=
  match o with
  | OFrame index => Frame index t
  | OScope variables => Scope variables t
  | OVariable reference => handleTable_Variable reference t
  | OInvalidate => (0, (Invalidate t).2)
  end.

Fixpoint run (ops : list op) (t : handleTable) : list Z * handleTable :=
  match ops with
  | [] => ([], t)
  | o :: ops =>
      let '(h, t) := apply_op o t in
      let '(hs, t) := run ops t in
      (h :: hs, t)
  end.

(** ** Specification

    One map from handles to what they denote, and the kinds of the handles of
    the last generation that had any. *)

Inductive object := VFrame (index : Z) | VScope (variables : list Variable_) | VReference (reference : Z).

Definition kind_of (o : object) : handleKind :=
  match o with VFrame _ => frameHandle | VScope _ => scopeHandle | VReference _ => variableHandle end.

Record table := mkTable { tb_next : Z; tb_current : gmap Z object; tb_stale : gmap Z handleKind }.

Definition new_table : table := mkTable 1 ∅ ∅.

Definition allocate (o : object) (a : table) : Z * table :=
  (tb_next a, mkTable (tb_next a + 1) (<[tb_next a:=o]> (tb_current a)) (tb_stale a)).

Definition spec_op (o : op) (a : table) : Z * table :=
  match o with
  | OFrame index => allocate (VFrame index) a
  | OScope variables => allocate (VScope variables) a
  | OVariable reference => if reference =? 0 then (0, a) else allocate (VReference reference) a
  | OInvalidate =>
      (0, mkTable (tb_next a) ∅
            (if bool_decide (tb_current a = ∅) then tb_stale a else kind_of <$> tb_current a))
  end.

Fixpoint spec_run (ops : list op) (a : table) : list Z * table :=
  match ops with
  | [] => ([], a)
  | o :: ops =>
      let '(h, a) := spec_op o a in
      let '(hs, a) := spec_run ops a in
      (h :: hs, a)
  end.

(** The status of a handle asked for as an object of [kind]. *)
Definition status (kind : handleKind) (h : Z) (a : table) : handleStatus :=
  match tb_current a !! h with
  | Some o => if bool_decide (kind_of o = kind) then handleCurrent else handleInvalid
  | None => if bool_decide (tb_stale a !! h = Some kind) then handleStale else handleInvalid
  end.

(** ** Refinement *)

Record refines (t : handleTable) (a : table) : Prop := {
  rf_next : ht_next t = tb_next a;
  rf_pos : 1 ≤ tb_next a;
  rf_frames : ∀ h i, ht_frames t !! h = Some i ↔ tb_current a !! h = Some (VFrame i);
  rf_scopes : ∀ h vs, ht_scopes t !! h = Some vs ↔ tb_current a !! h = Some (VScope vs);
  rf_variables : ∀ h r, ht_variables t !! h = Some r ↔ tb_current a !! h = Some (VReference r);
  rf_stale : ht_stale t = tb_stale a;
  rf_current_lt : ∀ h o, tb_current a !! h = Some o → 1 ≤ h < tb_next a;
  rf_stale_lt : ∀ h k, tb_stale a !! h = Some k → 1 ≤ h < tb_next a ∧ tb_current a !! h = None
}.

Lemma mark_lookup {T : Type} kind (m : gmap Z T) stale h :
  mark kind m stale !! h = match m !! h with Some _ => Some kind | None => stale !! h end.
Proof.
  unfold mark. revert h. induction m as [|i x m Hi Hfi IH] using map_first_key_ind; intros h.
  { by rewrite map_fold_empty, lookup_empty. }
  rewrite map_fold_insert_first_key by done. destruct (decide (h = i)) as [->|Hne].
  - by rewrite !lookup_insert_eq.
  - rewrite !lookup_insert_ne by done. apply IH.
Qed.

Lemma new_refines : refines newHandleTable new_table.
Proof. split; simpl; try done; intros; rewrite ?lookup_empty in *; done. Qed.

Lemma allocate_refines t a o t' :
  refines t a → tb_next a + 1 < 2 ^ 63 →
  ht_next t' = int64 (ht_next t + 1) → ht_stale t' = ht_stale t →
  ht_frames t' = match o with VFrame i => <[ht_next t:=i]> (ht_frames t) | _ => ht_frames t end →
  ht_scopes t' = match o with VScope vs => <[ht_next t:=vs]> (ht_scopes t) | _ => ht_scopes t end →
  ht_variables t' = match o with VReference r => <[ht_next t:=r]> (ht_variables t) | _ => ht_variables t end →
  refines t' (allocate o a).2.
Proof.
  intros [Rn Rp Rf Rs Rv Rst Rc Rl] Hb Hn Hst Hf Hs Hv.
  assert (tb_current a !! tb_next a = None) as Hfresh.
  { destruct (tb_current a !! tb_next a) as [o'|] eqn:E; [|done]. apply Rc in E. lia. }
  assert (ht_frames t !! tb_next a = None ∧ ht_scopes t !! tb_next a = None ∧
          ht_variables t !! tb_next a = None) as (Nf & Ns & Nv).
  { split_and!; apply eq_None_not_Some; intros [x Hx];
      [apply Rf in Hx|apply Rs in Hx|apply Rv in Hx]; congruence. }
  rewrite Rn in *. split; simpl; rewrite ?Hn, ?Hst, ?Hf, ?Hs, ?Hv.
  - apply int64_small. lia.
  - lia.
  - intros h i. destruct (decide (h = tb_next a)) as [->|Hne];
      [rewrite lookup_insert_eq|rewrite lookup_insert_ne by done]; destruct o; simpl;
      rewrite ?lookup_insert_eq, ?lookup_insert_ne by done; try apply Rf; rewrite ?Nf; split; congruence.
  - intros h i. destruct (decide (h = tb_next a)) as [->|Hne];
      [rewrite lookup_insert_eq|rewrite lookup_insert_ne by done]; destruct o; simpl;
      rewrite ?lookup_insert_eq, ?lookup_insert_ne by done; try apply Rs; rewrite ?Ns; split; congruence.
  - intros h i. destruct (decide (h = tb_next a)) as [->|Hne];
      [rewrite lookup_insert_eq|rewrite lookup_insert_ne by done]; destruct o; simpl;
      rewrite ?lookup_insert_eq, ?lookup_insert_ne by done; try apply Rv; rewrite ?Nv; split; congruence.
  - done.
  - intros h o' [[<- <-]|[_ Hh]]%lookup_insert_Some; [lia|]. apply Rc in Hh. lia.
  - intros h k Hk. destruct (Rl _ _ Hk) as [? ?]. split; [lia|]. rewrite lookup_insert_ne by lia. done.
Qed.

Lemma empty_sizes t a : refines t a →
  bool_decide (0 < size (ht_frames t) + size (ht_scopes t) + size (ht_variables t))%nat =
  negb (bool_decide (tb_current a = ∅)).
Proof.
  intros [Rn Rp Rf Rs Rv Rst Rc Rl]. case_bool_decide as Hs; symmetry.
  - apply negb_true_iff, bool_decide_eq_false. intros He.
    assert (ht_frames t = ∅ ∧ ht_scopes t = ∅ ∧ ht_variables t = ∅) as (Ef & Es & Ev).
    { split_and!; apply map_empty; intros h; apply eq_None_not_Some; intros [x Hx];
        [apply Rf in Hx|apply Rs in Hx|apply Rv in Hx]; by rewrite He, lookup_empty in Hx. }
    rewrite Ef, Es, Ev, !map_size_empty in Hs. lia.
  - apply negb_false_iff, bool_decide_eq_true. apply map_empty. intros h.
    assert (ht_frames t = ∅ ∧ ht_scopes t = ∅ ∧ ht_variables t = ∅) as (Ef & Es & Ev).
    { split_and!; apply map_size_empty_inv; lia. }
    destruct (tb_current a !! h) as [[i|vs|r]|] eqn:E; [..|done].
    + apply Rf in E. by rewrite Ef, lookup_empty in E.
    + apply Rs in E. by rewrite Es, lookup_empty in E.
    + apply Rv in E. by rewrite Ev, lookup_empty in E.
Qed.

Lemma invalidate_refines t a : refines t a → refines (Invalidate t).2 (spec_op OInvalidate a).2.
Proof.
  intros R. pose proof (empty_sizes t a R) as He. pose proof R as [Rn Rp Rf Rs Rv Rst Rc Rl].
  unfold Invalidate. simpl. rewrite He. clear He. split; simpl; try done;
    try (intros; rewrite !lookup_empty; done).
  - case_bool_decide as Hc; simpl; [done|]. apply map_eq. intros h.
    rewrite !mark_lookup, lookup_empty, lookup_fmap.
    destruct (tb_current a !! h) as [o|] eqn:E; simpl.
    + destruct o as [i|vs|r]; simpl.
      * rewrite (proj2 (Rf h i) E).
        destruct (ht_variables t !! h) as [x|] eqn:E1; [apply Rv in E1; congruence|].
        destruct (ht_scopes t !! h) as [x|] eqn:E2; [apply Rs in E2; congruence|done].
      * rewrite (proj2 (Rs h vs) E).
        destruct (ht_variables t !! h) as [x|] eqn:E1; [apply Rv in E1; congruence|done].
      * by rewrite (proj2 (Rv h r) E).
    + destruct (ht_variables t !! h) as [x|] eqn:E1; [apply Rv in E1; congruence|].
      destruct (ht_scopes t !! h) as [x|] eqn:E2; [apply Rs in E2; congruence|].
      destruct (ht_frames t !! h) as [x|] eqn:E3; [apply Rf in E3; congruence|done].
  - intros h k Hk. rewrite lookup_empty. split; [|done]. case_bool_decide.
    + by apply Rl in Hk as [? _].
    + rewrite lookup_fmap in Hk. destruct (tb_current a !! h) as [o|] eqn:E; [|done].
      by apply Rc in E.
Qed.

Lemma op_refines o t a : refines t a → tb_next a + 1 < 2 ^ 63 →
  (apply_op o t).1 = (spec_op o a).1 ∧ refines (apply_op o t).2 (spec_op o a).2 ∧
  tb_next a ≤ tb_next (spec_op o a).2 ≤ tb_next a + 1.
Proof.
  intros R Hb. pose proof (rf_next _ _ R) as Hn. destruct o as [i|vs|r|].
  - split_and!; [done|by eapply (allocate_refines t a (VFrame i))|simpl; lia..].
  - split_and!; [done|by eapply (allocate_refines t a (VScope vs))|simpl; lia..].
  - simpl. unfold handleTable_Variable. destruct (r =? 0); [split_and!; [done|done|simpl; lia..]|].
    split_and!; [done|by eapply (allocate_refines t a (VReference r))|simpl; lia..].
  - split_and!; [done|by apply invalidate_refines|simpl; lia..].
Qed.

Lemma run_refines ops : ∀ t a, refines t a → tb_next a + Z.of_nat (length ops) < 2 ^ 63 →
  (run ops t).1 = (spec_run ops a).1 ∧ refines (run ops t).2 (spec_run ops a).2 ∧
  tb_next a ≤ tb_next (spec_run ops a).2.
Proof.
  induction ops as [|o ops IH]; intros t a R Hb; simpl; [split_and!; [done|done|lia]|].
  simpl in Hb. destruct (op_refines o t a R) as (Hh & R' & Hle & Hle'); [lia|].
  destruct (apply_op o t) as [h t1], (spec_op o a) as [h' a1]. simpl in *. subst h'.
  destruct (IH t1 a1 R') as (Hs & R'' & Hle''); [lia|].
  destruct (run ops t1) as [hs t2], (spec_run ops a1) as [hs' a2]. simpl in *. subst hs'.
  split_and!; [done|done|lia].
Qed.

(** Handles that were given out are new, and below the next one. *)
Lemma spec_run_fresh ops : ∀ a,
  1 ≤ tb_next a →
  Forall (λ h, h = 0 ∨ tb_next a ≤ h) (spec_run ops a).1 ∧
  NoDup (filter (λ h, h ≠ 0) (spec_run ops a).1).
Proof.
  induction ops as [|o ops IH]; intros a Hp; simpl; [by split; constructor|].
  destruct (spec_op o a) as [h a1] eqn:Ho.
  assert (tb_next a ≤ tb_next a1 ∧ (h = 0 ∨ h = tb_next a ∧ tb_next a1 = tb_next a + 1)) as [Hle Hh].
  { destruct o as [i|vs|r|]; simpl in Ho;
      try (destruct (r =? 0)); inv Ho; simpl; lia. }
  destruct (IH a1 ltac:(lia)) as [Hall Hnd]. destruct (spec_run ops a1) as [hs a2]. simpl in *.
  assert (Forall (λ h, h = 0 ∨ tb_next a ≤ h) hs) as Hall'
    by (eapply Forall_impl; [exact Hall|]; simpl; lia).
  split; [constructor; [lia|done]|].
  rewrite filter_cons. case_decide as Hz; [|done]. constructor; [|done].
  intros [_ Hin]%list_elem_of_filter. rewrite Forall_forall in Hall. apply Hall in Hin. lia.
Qed.

Lemma lookups_agree t a h : refines t a →
  (FrameIndex h t).2 = status frameHandle h a ∧
  (ScopeVariables h t).2 = status scopeHandle h a ∧
  (VariableReference h t).2 = status variableHandle h a.
Proof.
  intros [Rn Rp Rf Rs Rv Rst Rc Rl]. unfold FrameIndex, ScopeVariables, VariableReference, status.
  assert (∀ k o, tb_current a !! h = Some o → bool_decide (ht_stale t !! h = Some k) = false) as Hst.
  { intros k o Ho. apply bool_decide_eq_false. rewrite Rst. intros Hk. apply Rl in Hk. naive_solver. }
  destruct (tb_current a !! h) as [o|] eqn:E.
  - rewrite !(Hst _ o) by done.
    destruct (ht_frames t !! h) as [x|] eqn:E1; [apply Rf in E1|];
    (destruct (ht_scopes t !! h) as [y|] eqn:E2; [apply Rs in E2|]);
    (destruct (ht_variables t !! h) as [z|] eqn:E3; [apply Rv in E3|]);
    destruct o as [i|vs|r]; simplify_eq; simpl; try done.
    all: first [apply Rf in E; congruence|apply Rs in E; congruence|apply Rv in E; congruence].
  - rewrite <- Rst.
    destruct (ht_frames t !! h) as [x|] eqn:E1; [apply Rf in E1; congruence|].
    destruct (ht_scopes t !! h) as [y|] eqn:E2; [apply Rs in E2; congruence|].
    destruct (ht_variables t !! h) as [z|] eqn:E3; [apply Rv in E3; congruence|].
    split_and!; by case_bool_decide.
Qed.

(** The handle table implements one map from handles to the paused-state
    objects of the current generation: after any sequence of allocations and
    invalidations the handles returned are those of the specification, nonzero
    handles are pairwise distinct, every lookup reports current, stale or
    invalid exactly as the specification does for the kind asked, and a current
    handle resolves to the object it was given out for. *)
Theorem handle_table_refines (ops : list op) :
  1 + Z.of_nat (length ops) < 2 ^ 63 →
  let '(hs, t) := run ops newHandleTable in
  let '(hs', a) := spec_run ops new_table in
  hs = hs' ∧ NoDup (filter (λ h, h ≠ 0) hs) ∧
  ∀ h,
    (FrameIndex h t).2 = status frameHandle h a ∧
    (ScopeVariables h t).2 = status scopeHandle h a ∧
    (VariableReference h t).2 = status variableHandle h a ∧
    match tb_current a !! h with
    | Some (VFrame i) => (FrameIndex h t).1 = i
    | Some (VScope vs) => (ScopeVariables h t).1 = vs
    | Some (VReference r) => (VariableReference h t).1 = r
    | None => True
    end.
Proof.
  intros Hb. destruct (run_refines ops _ _ new_refines Hb) as (Hh & R & _).
  destruct (spec_run_fresh ops new_table ltac:(simpl; lia)) as [_ Hnd].
  destruct (run ops newHandleTable) as [hs t], (spec_run ops new_table) as [hs' a]. simpl in *. subst hs'.
  split_and!; [done|done|]. intros h. destruct (lookups_agree t a h R) as (-> & -> & ->).
  split_and!; try done. destruct (tb_current a !! h) as [[i|vs|r]|] eqn:E; [..|done].
  - unfold FrameIndex. by rewrite (proj2 (rf_frames _ _ R h i) E).
  - unfold ScopeVariables. by rewrite (proj2 (rf_scopes _ _ R h vs) E).
  - unfold VariableReference. by rewrite (proj2 (rf_variables _ _ R h r) E).
Qed.

Lemma spec_run_lower ops : ∀ a n, n ≤ tb_next a →
  (∀ h o, tb_current a !! h = Some o → n ≤ h) →
  ∀ h o, tb_current (spec_run ops a).2 !! h = Some o → n ≤ h.
Proof.
  induction ops as [|o ops IH]; intros a n Hn Hc; simpl; [done|].
  destruct (spec_op o a) as [h1 a1] eqn:Ho.
  assert (n ≤ tb_next a1 ∧ ∀ h o, tb_current a1 !! h = Some o → n ≤ h) as [Hn1 Hc1].
  { destruct o as [i|vs|r|]; simpl in Ho;
      try (destruct (r =? 0)); inv Ho; simpl; (split; [lia|]); try done;
      intros h o' Hh; try (by rewrite lookup_empty in Hh);
      apply lookup_insert_Some in Hh as [[<- _]|[_ Hh]]; try lia; by eapply Hc. }
  pose proof (IH a1 n Hn1 Hc1) as Hfin. destruct (spec_run ops a1) as [hs a2]. done.
Qed.

Lemma spec_run_next ops : ∀ a, tb_next (spec_run ops a).2 ≤ tb_next a + Z.of_nat (length ops).
Proof.
  induction ops as [|o ops IH]; intros a; simpl; [lia|].
  destruct (spec_op o a) as [h1 a1] eqn:Ho. specialize (IH a1).
  destruct (spec_run ops a1). simpl in *.
  assert (tb_next a1 ≤ tb_next a + 1); [|lia].
  destruct o as [i|vs|r|]; simpl in Ho;
    try (destruct (r =? 0)); inv Ho; simpl; lia.
Qed.

Lemma run_app ops ops' : ∀ t, (run (ops ++ ops') t).2 = (run ops' (run ops t).2).2.
Proof.
  induction ops as [|o ops IH]; intros t; simpl; [done|].
  destruct (apply_op o t) as [h t1]. specialize (IH t1).
  destruct (run (ops ++ ops') t1), (run ops t1). done.
Qed.

(** A handle that was current when the execution resumed never resolves
    again: after an invalidation, whatever frames, scopes and variables are
    presented later, no lookup of it reports current; right after the
    invalidation it is stale, not invalid. *)
Theorem handles_never_revive (before after : list op) (h : Z) :
  1 + Z.of_nat (length before + length after + 1) < 2 ^ 63 →
  let t := (run before newHandleTable).2 in
  let t' := (run (before ++ OInvalidate :: after) newHandleTable).2 in
  (FrameIndex h t).2 = handleCurrent →
  (FrameIndex h (Invalidate t).2).2 = handleStale ∧
  (FrameIndex h t').2 ≠ handleCurrent ∧ (ScopeVariables h t').2 ≠ handleCurrent ∧
  (VariableReference h t').2 ≠ handleCurrent.
Proof.
  intros Hb t t' Hc. destruct (run_refines before _ _ new_refines) as (_ & R & Hle); [simpl; lia|].
  pose proof (invalidate_refines _ _ R) as R1. fold t in R, R1.
  pose proof (spec_run_next before new_table) as Hnext. simpl tb_next in Hnext at 2.
  set (a := (spec_run before new_table).2) in *.
  destruct (run_refines after _ _ R1) as (_ & R2 & _); [simpl; lia|].
  assert (t' = (run after (Invalidate t).2).2) as ->.
  { subst t' t. rewrite run_app. simpl. by destruct (run after _). }
  destruct (lookups_agree _ _ h R) as (Hf & _). rewrite Hf in Hc. unfold status in Hc.
  destruct (tb_current a !! h) as [o|] eqn:Eo; [|by case_bool_decide].
  case_bool_decide as Hk; [|done]. pose proof (rf_current_lt _ _ R _ _ Eo) as Hlt.
  split.
  - destruct (lookups_agree _ _ h R1) as (-> & _). unfold status. simpl. rewrite lookup_empty.
    rewrite bool_decide_eq_true_2; [done|]. rewrite bool_decide_eq_false_2.
    + by rewrite lookup_fmap, Eo, <- Hk.
    + intros He. by rewrite He, lookup_empty in Eo.
  - assert (tb_current (spec_run after (spec_op OInvalidate a).2).2 !! h = None) as Hnone.
    { destruct (tb_current (spec_run after (spec_op OInvalidate a).2).2 !! h) as [o'|] eqn:E; [|done].
      eapply (spec_run_lower after _ (tb_next a)) in E; [lia|simpl; lia|].
      simpl. intros h' o2 Hx. by rewrite lookup_empty in Hx. }
    destruct (lookups_agree _ _ h R2) as (-> & -> & ->). unfold status. rewrite Hnone.
    split_and!; by case_bool_decide.
Qed.
End handles.

Arguments handleTable : clear implicits.

Definition sample_ops : list (op (Variable_ := string)) :=
  [OFrame 0; OScope ["x"]; OVariable 7; OVariable 0].

Lemma handle_table_refines_witness :
  (run sample_ops newHandleTable).1 = [1; 2; 3; 0] ∧
  (ScopeVariables 2 (run sample_ops newHandleTable).2).2 = handleCurrent.
Proof.
  pose proof (handle_table_refines sample_ops) as Hr. simpl length in Hr.
  split; [reflexivity|]. destruct (Hr ltac:(lia)) as (_ & _ & Hl). exact (proj1 (proj2 (Hl 2))).
Defined.

Lemma handles_never_revive_witness :
  (FrameIndex 1 (run (sample_ops ++ OInvalidate :: sample_ops) newHandleTable).2).2 ≠ handleCurrent.
Proof.
  apply (handles_never_revive sample_ops sample_ops 1).
  - simpl length. lia.
  - vm_compute; reflexivity.
Defined.
