(* ===== verification/DapEvents.v ===== *)
(** * Debug adapter: breakpoint identities, the entry stop and the event stream

    [internal/dap/breakpoint_ids.go], [initial_stop.go], [output_format.go] and
    the translation of debug session events into protocol events
    ([events.go]).  Everything here runs under [Server.eventMu], so each method
    is one function of the protected part of the server. *)

From S2P Require Import Prelude Paths Source Errors Diagnostics Lifecycle Watchers Parameters ExecRuntime DebugSession DapHandles.

Local Open Scope Z_scope.

(** ** Breakpoint identities *)

(** The source name and the line and column of the requested position. *)
Record breakpointKey := mkKey { bk_sourceName : string; bk_position : Z * Z }.

Global Instance breakpointKey_eq_dec : EqDecision breakpointKey.
Proof. solve_decision. Defined.
Global Instance breakpointKey_countable : Countable breakpointKey.
Proof.
  by apply (inj_countable' (λ k, (bk_sourceName k, bk_position k)) (λ p, mkKey p.1 p.2)); intros [].
Defined.

(** What the adapter reads of an [apidebugger.Breakpoint]. *)
Record Breakpoint := mkBreakpoint { bp_ID : Z; bp_Bound : bool; bp_Location : Location }.

Record breakpointIDs := mkBreakpointIDs {
  bi_next : Z;
  bi_pending : Z;
  bi_stable : gmap breakpointKey Z;
  bi_active : gmap Z Z;
  bi_retired : gmap Z Z
}.

Definition newBreakpointIDs : breakpointIDs := mkBreakpointIDs 1 0 ∅ ∅ ∅.

(** A map read: the zero value of a missing key. *)
Definition read `{Countable K} (m : gmap K Z) (k : K) : Z := default 0 (m !! k).

(** The loop of [replace] over the results; [requests[index]] panics when there
    are more results than requests. *)
Fixpoint replace_loop (source : string) (requests : list (Z * Z)) (results : list Breakpoint)
    (b : breakpointIDs) : outcome breakpointIDs :=
  match results, requests with
  | [], _ => Ret b
  | _ :: _, [] => Panic "index out of range"
  | result :: results, position :: requests =>
      let key := (mkKey source position) in
      let found := read (bi_stable b) key in
      let '(stable, next, table) :=
        if found =? 0 then (bi_next b, int64 (bi_next b + 1), <[key:=bi_next b]> (bi_stable b))
        else (found, bi_next b, bi_stable b) in
      replace_loop source requests results
        (mkBreakpointIDs next (bi_pending b) table (<[bp_ID result:=stable]> (bi_active b))
           (delete (bp_ID result) (bi_retired b)))
  end.

Definition replace (source : string) (requests : list (Z * Z)) (results : list Breakpoint)
    (b : breakpointIDs) : outcome breakpointIDs :=
  let retired := if bi_pending b =? 0 then bi_retired b else bi_active b ∪ bi_retired b in
  replace_loop source requests results (mkBreakpointIDs (bi_next b) (bi_pending b) (bi_stable b) ∅ retired).

Definition id (native : Z) (b : breakpointIDs) : Z :=
  let stable := read (bi_active b) native in
  if stable =? 0 then read (bi_retired b) native else stable.

Definition commandStarted (b : breakpointIDs) : breakpointIDs :=
  mkBreakpointIDs (bi_next b) (int64 (bi_pending b + 1)) (bi_stable b) (bi_active b) (bi_retired b).

Definition commandStopped (b : breakpointIDs) : breakpointIDs :=
  let pending := if 0 <? bi_pending b then bi_pending b - 1 else bi_pending b in
  mkBreakpointIDs (bi_next b) pending (bi_stable b) (bi_active b)
    (if pending =? 0 then ∅ else bi_retired b).

Definition finish (b : breakpointIDs) : breakpointIDs :=
  mkBreakpointIDs (bi_next b) 0 (bi_stable b) ∅ ∅.

(** ** The entry stop *)

Record entryBinding := mkEntryBinding { eb_id : Z; eb_location : Location }.
Record initialStop := mkInitialStop { is_bindings : list entryBinding; is_frozen : bool }.

Definition initialStop_replace (breakpoints : list Breakpoint) (s : initialStop) : initialStop :=
  if is_frozen s then s
  else mkInitialStop
         (map (λ b, mkEntryBinding (bp_ID b) (bp_Location b)) (filter (λ b, bp_Bound b = true) breakpoints))
         (is_frozen s).

(** The loop of [resolve] over the bindings, with the set of protocol
    identities already reported. *)
Fixpoint resolve_loop (ids : breakpointIDs) (location : Location) (bindings : list entryBinding)
    (seen : gset Z) (hits : list Z) : list Z :=
  match bindings with
  | [] => hits
  | binding :: bindings =>
      let i := id (eb_id binding) ids in
      if bool_decide (eb_location binding = location) && negb (bool_decide (i ∈ seen))
      then resolve_loop ids location bindings ({[i]} ∪ seen) (hits ++ [eb_id binding])
      else resolve_loop ids location bindings seen hits
  end.

Definition with_hits (reason : Reason) (hits : list Z) (s : SessionSnapshot) : SessionSnapshot :=
  mkSessionSnapshot (ds_ID s) (ds_ExecutionSession s) (ds_State s) reason (ds_Location s) hits
    (ds_Parameters s) (ds_Options s) (ds_Output s) (ds_Failure s).

Definition resolve (s : initialStop) (snapshot : SessionSnapshot) (stopOnEntry : bool)
    (ids : breakpointIDs) : SessionSnapshot * bool :=
  if bool_decide (ds_Reason snapshot ≠ ReasonEntry) then (snapshot, false)
  else
    let hits :=
      match ds_HitBreakpointIDs snapshot with
      | [] => merge_sort Z.le (resolve_loop ids (ds_Location snapshot) (is_bindings s) ∅ [])
      | hits => hits
      end in
    match hits with
    | [] => (with_hits (ds_Reason snapshot) hits snapshot, negb stopOnEntry)
    | _ :: _ => (with_hits ReasonBreakpoint hits snapshot, false)
    end.

(** ** Protocol events *)

Inductive message :=
| MStopped (reason description : string) (hitIDs : list Z)
| MOutput (category : string) (text : list Z)
| MExited (code : Z)
| MTerminated.

Section server.
Context {Variable_ : Type}.

(** [sv_resumed] are the calls of [ContinueSession] the watcher has made, each with
    the text of its error. *)
Record server := mkServer {
  sv_initialStop : option initialStop;
  sv_breakpoints : breakpointIDs;
  sv_handles : handleTable Variable_;
  sv_stopOnEntry : bool;
  sv_sent : list message;
  sv_resumed : list (string * option string)
}.

Definition ensureTrailingNewline (value : list Z) : list Z :=
  if bool_decide (last value = Some 10) then value else value ++ [10].

(** A failed send is only logged, so a send is its message. *)
Definition send (m : message) (s : server) : server :=
  mkServer (sv_initialStop s) (sv_breakpoints s) (sv_handles s) (sv_stopOnEntry s) (sv_sent s ++ [m]) (sv_resumed s).

Definition set_initialStop (i : option initialStop) (s : server) : server :=
  mkServer i (sv_breakpoints s) (sv_handles s) (sv_stopOnEntry s) (sv_sent s) (sv_resumed s).

Definition set_breakpoints (b : breakpointIDs) (s : server) : server :=
  mkServer (sv_initialStop s) b (sv_handles s) (sv_stopOnEntry s) (sv_sent s) (sv_resumed s).

Definition invalidateHandles (s : server) : server :=
  mkServer (sv_initialStop s) (sv_breakpoints s) (Invalidate (sv_handles s)).2 (sv_stopOnEntry s)
    (sv_sent s) (sv_resumed s).

(** [s.debugs.ContinueSession]. *)
Definition continueSession (id : string) (continueErr : option string) (s : server) : server :=
  mkServer (sv_initialStop s) (sv_breakpoints s) (sv_handles s) (sv_stopOnEntry s) (sv_sent s) (sv_resumed s ++ [(id, continueErr)]).

Definition sendStopped (snapshot : SessionSnapshot) (s : server) : server :=
  let '(reason, description) :=
    match ds_Reason snapshot with
    | ReasonEntry => ("entry", "")
    | ReasonBreakpoint => ("breakpoint", "")
    | ReasonStep => ("step", "")
    | ReasonPause => ("pause", "")
    | ReasonRuntimeError =>
        ("exception", match ds_Failure snapshot with Some f => rf_Message f | None => "" end)
    | _ => ("pause", "")
    end in
  send (MStopped reason description
          (map (λ native, id native (sv_breakpoints s)) (ds_HitBreakpointIDs snapshot))) s.

Definition sendStdout (output : option Output) (s : server) : server :=
  match output with
  | Some o => match o_Content o with
              | [] => s
              | content => send (MOutput "stdout" (ensureTrailingNewline content)) s
              end
  | None => s
  end.

(** [handleDebugEvent]; [continueErr] is the text of the error of
    [ContinueSession], [None] when it succeeded. *)
Definition handleDebugEvent (continueErr : option string) (event : Event) (s : server) : server :=
  let snapshot := ev_Snapshot event in
  let s := if Terminal (ds_State snapshot) then set_initialStop None s else s in
  match ds_State snapshot with
  | StateCreated => s
  | StateRunning => invalidateHandles s
  | StateStopped =>
      let '(snapshot, suppress, s) :=
        match sv_initialStop s with
        | Some i =>
            let '(snapshot, suppress) := resolve i snapshot (sv_stopOnEntry s) (sv_breakpoints s) in
            (snapshot, suppress, set_initialStop None s)
        | None => (snapshot, false, s)
        end in
      if (suppress : bool) then
        let s := set_breakpoints (commandStopped (sv_breakpoints s)) s in
        let s := invalidateHandles s in
        let s := continueSession (ds_ID snapshot) continueErr s in
        match continueErr with
        | Some text =>
            send MTerminated
              (send (MOutput "stderr"
                       (bytes_of_string "continue after entry failed: " ++ bytes_of_string text ++ [10])) s)
        | None => set_breakpoints (commandStarted (sv_breakpoints s)) s
        end
      else
        let s := sendStopped snapshot s in
        set_breakpoints (commandStopped (sv_breakpoints s)) s
  | StateCompleted =>
      let s := invalidateHandles s in
      let s := sendStdout (ds_Output snapshot) s in
      let s := send MTerminated (send (MExited 0) s) in
      set_breakpoints (finish (sv_breakpoints s)) s
  | StateFailed =>
      let s := invalidateHandles s in
      let s := sendStdout (ds_Output snapshot) s in
      let text := match ds_Failure snapshot with
                  | Some f => if bool_decide (rf_Message f = "") then "debug execution failed" else rf_Message f
                  | None => "debug execution failed"
                  end in
      let s := send (MOutput "stderr" (ensureTrailingNewline (bytes_of_string text))) s in
      let s := send MTerminated (send (MExited 1) s) in
      set_breakpoints (finish (sv_breakpoints s)) s
  | StateTerminated =>
      let s := invalidateHandles s in
      let s := send MTerminated s in
      set_breakpoints (finish (sv_breakpoints s)) s
  end.

(** The loop of [watchDebugSession] over the events, with what [ContinueSession]
    answers when an event makes the adapter call it. *)
Fixpoint handle_events (events : list (Event * option string)) (s : server) : server :=
  match events with
  | [] => s
  | (event, continueErr) :: events => handle_events events (handleDebugEvent continueErr event s)
  end.

(** Its loop over the watch errors. *)
Fixpoint watch_errors (errors : list string) (s : server) : server :=
  match errors with
  | [] => s
  | text :: errors =>
      watch_errors errors
        (send MTerminated
           (send (MOutput "stderr"
                    (bytes_of_string "debug session watch failed: " ++ bytes_of_string text ++ [10])) s))
  end.

(** [watchDebugSession] on the whole subscription, with its deferred cleanup. *)
Definition watchDebugSession (events : list (Event * option string)) (errors : list string) (s : server) :
    server :=
  let s := watch_errors errors (handle_events events s) in
  set_breakpoints (finish (sv_breakpoints s)) (set_initialStop None s).
End server.

(** ** Runs of the identity table *)

Inductive id_op :=
| BReplace (source : string) (requests : list (Z * Z)) (results : list Breakpoint)
| BStarted
| BStopped
| BFinish.

Definition id_step (o : id_op) (b : breakpointIDs) : outcome breakpointIDs :=
  match o with
  | BReplace source requests results => replace source requests results b
  | BStarted => Ret (commandStarted b)
  | BStopped => Ret (commandStopped b)
  | BFinish => Ret (finish b)
  end.

Fixpoint id_run (ops : list id_op) (b : breakpointIDs) : outcome breakpointIDs :=
  match ops with
  | [] => Ret b
  | o :: ops => b ← id_step o b; id_run ops b
  end.

(** The debugger answers at most one breakpoint per request. *)
Definition answered (o : id_op) : Prop :=
  match o with BReplace _ requests results => (length results ≤ length requests)%nat | _ => True end.

Fixpoint results_of (ops : list id_op) : nat :=
  match ops with
  | [] => 0
  | BReplace _ _ results :: ops => length results + results_of ops
  | _ :: ops => results_of ops
  end.

(** [n] bounds the identities given out so far. *)
Record ids_ok (n : nat) (b : breakpointIDs) : Prop := {
  io_next : 1 ≤ bi_next b ≤ 1 + Z.of_nat n;
  io_stable : ∀ k v, bi_stable b !! k = Some v → 1 ≤ v < bi_next b;
  io_inj : ∀ k1 k2 v, bi_stable b !! k1 = Some v → bi_stable b !! k2 = Some v → k1 = k2;
  io_active : ∀ k v, bi_active b !! k = Some v → 1 ≤ v;
  io_retired : ∀ k v, bi_retired b !! k = Some v → 1 ≤ v
}.

Lemma read_zero `{Countable K} (m : gmap K Z) k :
  (∀ v, m !! k = Some v → 1 ≤ v) → read m k = 0 ↔ m !! k = None.
Proof.
  unfold read. destruct (m !! k) as [v|] eqn:E; simpl; intros Hv; [|done].
  specialize (Hv v eq_refl). split; [lia|done].
Qed.

(** One result: the identity of its key, new or not. *)
Lemma replace_cons source position requests result results b n :
  ids_ok n b → 1 + Z.of_nat n + 1 < 2 ^ 63 →
  ∃ b', replace_loop source (position :: requests) (result :: results) b =
          replace_loop source requests results b' ∧
    ids_ok (S n) b' ∧ bi_pending b' = bi_pending b ∧ bi_stable b ⊆ bi_stable b' ∧
    (∃ v, bi_stable b' !! (mkKey source position) = Some v ∧ bi_active b' = <[bp_ID result:=v]> (bi_active b)) ∧
    bi_retired b' = delete (bp_ID result) (bi_retired b).
Proof.
  intros [Hn Hs Hi Ha Hr] Hb. simpl.
  destruct (read (bi_stable b) (mkKey source position) =? 0) eqn:E; bools.
  - apply read_zero in E; [|intros v Hv; apply Hs in Hv; lia].
    eexists. split; [done|]. rewrite int64_small by lia. split_and!; simpl; try done.
    + split; simpl.
      * lia.
      * intros k v [[<- <-]|[_ Hk]]%lookup_insert_Some; [lia|]. apply Hs in Hk. lia.
      * intros k1 k2 v [[<- <-]|[N1 H1]]%lookup_insert_Some [[<- Hv]|[N2 H2]]%lookup_insert_Some;
          [done| | |by eapply Hi]; [apply Hs in H2|apply Hs in H1]; lia.
      * intros k v [[<- <-]|[_ Hk]]%lookup_insert_Some; [lia|]. by eapply Ha.
      * intros k v [_ Hk]%lookup_delete_Some. by eapply Hr.
    + by apply insert_subseteq.
    + eexists. split; [by rewrite lookup_insert_eq|done].
  - unfold read in *. destruct (bi_stable b !! (mkKey source position)) as [v|] eqn:Ek; simpl in *; [|done].
    pose proof (Hs _ _ Ek) as Hv.
    eexists. split; [done|]. split_and!; simpl; try done; [|by exists v].
    split; simpl; try done.
    + lia.
    + intros k v' [[<- <-]|[_ Hk]]%lookup_insert_Some; [lia|]. by eapply Ha.
    + intros k v' [_ Hk]%lookup_delete_Some. by eapply Hr.
Qed.

(** The loop of [replace] succeeds, keeps the identities it finds, maps the last
    result of every native identifier and leaves the other natives alone. *)
Lemma replace_loop_ok source results : ∀ requests b n,
  ids_ok n b → (length results ≤ length requests)%nat → 1 + Z.of_nat (n + length results) < 2 ^ 63 →
  ∃ b', replace_loop source requests results b = Ret b' ∧
    ids_ok (n + length results) b' ∧ bi_pending b' = bi_pending b ∧ bi_stable b ⊆ bi_stable b' ∧
    (∀ native, native ∉ map bp_ID results →
       bi_active b' !! native = bi_active b !! native ∧ bi_retired b' !! native = bi_retired b !! native) ∧
    (NoDup (map bp_ID results) → ∀ i result position,
       results !! i = Some result → requests !! i = Some position →
       ∃ v, bi_active b' !! bp_ID result = Some v ∧ bi_stable b' !! (mkKey source position) = Some v).
Proof.
  induction results as [|result results IH]; intros requests b n Hok Hlen Hb.
  { exists b. simpl. rewrite Nat.add_0_r. by destruct requests; split_and!. }
  destruct requests as [|position requests]; simpl in Hlen, Hb; [lia|].
  destruct (replace_cons source position requests result results b n Hok ltac:(lia))
    as (b1 & Heq & Hok1 & Hp1 & Hsub & (v & Hv & Hact) & Hret).
  rewrite Heq. destruct (IH requests b1 (S n) Hok1 ltac:(lia) ltac:(lia))
    as (b' & -> & Hok' & Hp' & Hsub' & Hother & Hmap).
  exists b'. split; [done|]. replace (n + length (result :: results))%nat with (S n + length results)%nat
    by (simpl; lia).
  split_and!; [done|congruence|by etrans| |].
  - intros native Hnin. simpl in Hnin. apply not_elem_of_cons in Hnin as [Hne Hnin].
    destruct (Hother native Hnin) as [-> ->]. rewrite Hact, Hret.
    by rewrite lookup_insert_ne, lookup_delete_ne.
  - simpl. intros [Hnin Hnd]%NoDup_cons i r p Hr Hp. destruct i as [|i]; simpl in Hr, Hp.
    + simplify_eq. exists v. destruct (Hother (bp_ID r) Hnin) as [-> _].
      rewrite Hact, lookup_insert_eq. split; [done|]. by eapply lookup_weaken.
    + by apply (Hmap Hnd i).
Qed.

Lemma replace_start n b : ids_ok n b →
  ids_ok n (mkBreakpointIDs (bi_next b) (bi_pending b) (bi_stable b) ∅
              (if bi_pending b =? 0 then bi_retired b else bi_active b ∪ bi_retired b)).
Proof.
  intros [Hn Hs Hi Ha Hr]. split; simpl; try done.
  intros k v. destruct (bi_pending b =? 0); [by apply Hr|].
  intros [Hk|[_ Hk]]%lookup_union_Some_raw; [by eapply Ha|by eapply Hr].
Qed.

Lemma id_step_ok n b o : ids_ok n b → answered o → 1 + Z.of_nat (n + results_of [o]) < 2 ^ 63 →
  ∃ b', id_step o b = Ret b' ∧ ids_ok (n + results_of [o]) b' ∧ bi_stable b ⊆ bi_stable b'.
Proof.
  intros Hok Ha Hb. destruct o as [source requests results| | |]; simpl in *.
  - rewrite Nat.add_0_r in *.
    destruct (replace_loop_ok source results requests _ n (replace_start n b Hok) Ha Hb)
      as (b' & Heq & Hok' & _ & Hsub & _). by exists b'.
  - rewrite Nat.add_0_r. eexists. split; [done|]. split; [|done]. by destruct Hok; split.
  - rewrite Nat.add_0_r. eexists. split; [done|]. split; [|done]. destruct Hok as [Hn Hs Hi Hac Hr].
    split; simpl; try done. intros k v. by case_match; [rewrite lookup_empty|apply Hr].
  - rewrite Nat.add_0_r. eexists. split; [done|]. split; [|done]. destruct Hok as [Hn Hs Hi Hac Hr].
    by split; simpl.
Qed.

Lemma results_of_cons o ops : results_of (o :: ops) = (results_of [o] + results_of ops)%nat.
Proof. destruct o; simpl; lia. Qed.

Lemma id_run_ok ops : ∀ n b, ids_ok n b → Forall answered ops →
  1 + Z.of_nat (n + results_of ops) < 2 ^ 63 →
  ∃ b', id_run ops b = Ret b' ∧ ids_ok (n + results_of ops) b' ∧ bi_stable b ⊆ bi_stable b'.
Proof.
  induction ops as [|o ops IH]; intros n b Hok Ha Hb.
  { exists b. simpl. by rewrite Nat.add_0_r. }
  rewrite results_of_cons in *. apply Forall_cons in Ha as [Ho Ha].
  destruct (id_step_ok n b o Hok Ho ltac:(lia)) as (b1 & Heq & Hok1 & Hsub).
  destruct (IH _ b1 Hok1 Ha ltac:(lia)) as (b' & Heq' & Hok' & Hsub').
  exists b'. cbn [id_run]. rewrite Heq. cbn. split; [done|]. rewrite Nat.add_assoc.
  split; [done|by etrans].
Qed.

Lemma new_ids_ok : ids_ok 0 newBreakpointIDs.
Proof. split; simpl; try done. Qed.

(** Breakpoint identities are stable: whatever replacements, commands and
    stops the adapter goes through, it never indexes out of range; two different
    positions of the program never share a protocol identity, a position keeps
    its identity for the rest of the session, and after a replacement every
    breakpoint of the answer reports the identity of its position. *)
Theorem breakpoint_identity_stable (before after : list id_op) (source : string)
    (requests : list (Z * Z)) (results : list Breakpoint) :
  let last := BReplace source requests results in
  Forall answered (before ++ last :: after) →
  1 + Z.of_nat (results_of before + (length results + results_of after)) < 2 ^ 63 →
  NoDup (map bp_ID results) →
  ∃ b b', id_run (before ++ [last]) newBreakpointIDs = Ret b ∧ id_run after b = Ret b' ∧
    bi_stable b ⊆ bi_stable b' ∧
    (∀ k1 k2 v, bi_stable b' !! k1 = Some v → bi_stable b' !! k2 = Some v → k1 = k2) ∧
    ∀ i result position, results !! i = Some result → requests !! i = Some position →
      bi_stable b !! (mkKey source position) = Some (id (bp_ID result) b) ∧ 1 ≤ id (bp_ID result) b.
Proof.
  intros last Ha Hb Hnd. apply Forall_app in Ha as [Ha1 [Hl Ha2]%Forall_cons].
  destruct (id_run_ok before 0 newBreakpointIDs new_ids_ok Ha1 ltac:(simpl; lia)) as (b0 & H0 & Hok0 & _).
  destruct (replace_loop_ok source results requests _ _ (replace_start _ _ Hok0) Hl ltac:(simpl; lia))
    as (b & Hrep & Hok & _ & _ & _ & Hmap).
  destruct (id_run_ok after _ b Hok Ha2 ltac:(lia)) as (b' & H' & Hok' & Hsub').
  exists b, b'. split.
  { clear -H0 Hrep. revert H0. generalize newBreakpointIDs.
    induction before as [|o ops IH]; intros b1; simpl.
    - intros [= ->]. unfold replace. by rewrite Hrep.
    - intros (b2 & H2 & Hr)%bind_Ret_inv. rewrite H2. cbn. by apply IH. }
  split; [done|]. split; [done|]. split; [apply (io_inj _ _ Hok')|].
  intros i result position Hr Hp. destruct (Hmap Hnd _ _ _ Hr Hp) as (v & Hv & Hst).
  pose proof (io_active _ _ Hok _ _ Hv) as Hge.
  assert (id (bp_ID result) b = v) as ->; [|done].
  unfold id, read. rewrite Hv. simpl. destruct (v =? 0) eqn:E; bools; lia.
Qed.

(** ** Identities while commands are pending *)

(** A command is pending before and after every operation of [ops]. *)
Fixpoint keeps_pending (ops : list id_op) (b : breakpointIDs) : bool :=
  (0 <? bi_pending b) &&
  match ops with
  | [] => true
  | o :: ops => match id_step o b with Ret b => keeps_pending ops b | _ => false end
  end.

(** No replacement of [ops] answers with the native identifier. *)
Definition not_reused (native : Z) (o : id_op) : Prop :=
  match o with BReplace _ _ results => native ∉ map bp_ID results | _ => True end.

Lemma id_step_survives n b o b' native :
  ids_ok n b → answered o → 1 + Z.of_nat (n + results_of [o]) < 2 ^ 63 →
  0 < bi_pending b → 0 < bi_pending b' → not_reused native o →
  id_step o b = Ret b' → id native b' = id native b.
Proof.
  intros Hok Ha Hb Hp Hp' Hn Hstep. destruct o as [source requests results| | |]; simpl in *.
  - rewrite Nat.add_0_r in Hb.
    destruct (replace_loop_ok source results requests _ n (replace_start n b Hok) Ha Hb)
      as (b1 & Heq & _ & _ & _ & Hother & _).
    assert (b1 = b') as -> by (unfold replace in Hstep; congruence).
    destruct (Hother native Hn) as [E1 E2]. simpl in E1, E2. rewrite lookup_empty in E1.
    destruct (bi_pending b =? 0) eqn:E; bools; [lia|].
    unfold id, read. rewrite E1, E2. simpl. rewrite lookup_union.
    destruct (bi_active b !! native) as [v|] eqn:Ea; simpl.
    + pose proof (io_active _ _ Hok _ _ Ea). destruct (v =? 0) eqn:Ev; bools; [lia|].
      by destruct (bi_retired b !! native).
    + by destruct (bi_retired b !! native).
  - by inv Hstep.
  - inv Hstep. simpl in Hp'. unfold id. simpl. destruct (0 <? bi_pending b) eqn:E; bools; [|lia].
    destruct (bi_pending b - 1 =? 0) eqn:E'; bools; [lia|done].
  - inv Hstep. simpl in Hp'. lia.
Qed.

(** A queued stop is reported with the identities it was set with: as long
    as a command is pending, replacing breakpoints and accepting further
    commands does not change the protocol identity of a native breakpoint that
    the replacements do not reuse. *)
Theorem breakpoint_ids_survive (before ops : list id_op) (b : breakpointIDs) (native : Z) :
  Forall answered (before ++ ops) →
  1 + Z.of_nat (results_of before + results_of ops) < 2 ^ 63 →
  id_run before newBreakpointIDs = Ret b → keeps_pending ops b = true →
  Forall (not_reused native) ops →
  ∃ b', id_run ops b = Ret b' ∧ id native b' = id native b.
Proof.
  intros [Ha1 Ha2]%Forall_app Hb Hrun Hk Hn.
  destruct (id_run_ok before 0 newBreakpointIDs new_ids_ok Ha1 ltac:(simpl; lia)) as (b0 & H0 & Hok & _).
  assert (b0 = b) as -> by congruence. simpl in Hok. clear H0 Hrun Ha1.
  revert b Hok Hk. generalize (results_of before) Hb. clear Hb.
  induction ops as [|o ops IH]; intros n Hb b Hok Hk; [by exists b|].
  apply Forall_cons in Ha2 as [Ho Ha2]. apply Forall_cons in Hn as [Hno Hn].
  rewrite results_of_cons in Hb. cbn [keeps_pending] in Hk. bools.
  destruct (id_step_ok n b o Hok Ho ltac:(lia)) as (b1 & Hs & Hok1 & _).
  rewrite Hs in *. cbn [id_run]. rewrite Hs. cbn.
  assert (0 < bi_pending b1) by (destruct ops; simpl in *; bools; done).
  destruct (IH Ha2 Hn (n + results_of [o])%nat ltac:(lia) b1 Hok1) as (b' & Hr & Hid); [done|].
  exists b'. split; [done|]. rewrite Hid. eapply id_step_survives; try done. lia.
Qed.

Definition sample_replace (native line : Z) : id_op :=
  BReplace "q.fql" [(line, 1)] [mkBreakpoint native true "q:1"].

Lemma breakpoint_identity_stable_witness :
  ∃ b, id_run [sample_replace 5 3; BStarted; sample_replace 6 3] newBreakpointIDs = Ret b ∧ id 6 b = 1.
Proof.
  destruct (breakpoint_identity_stable [sample_replace 5 3; BStarted] [] "q.fql" [(3, 1)]
    [mkBreakpoint 6 true "q:1"]) as (b & b' & Hrun & _ & _ & _ & _).
  - repeat constructor.
  - vm_compute; reflexivity.
  - apply NoDup_singleton.
  - exists b. split; [exact Hrun|]. vm_compute in Hrun. injection Hrun as <-. reflexivity.
Defined.

Lemma breakpoint_ids_survive_witness :
  ∃ b b', id_run [sample_replace 5 3; BStarted] newBreakpointIDs = Ret b ∧
    id_run [sample_replace 6 4; BStarted; BStopped] b = Ret b' ∧ id 5 b' = id 5 b.
Proof.
  pose proof (λ b, breakpoint_ids_survive [sample_replace 5 3; BStarted]
    [sample_replace 6 4; BStarted; BStopped] b 5) as Hsurvive.
  eexists. edestruct Hsurvive as (b' & Hr & Hid).
  - repeat constructor.
  - vm_compute; reflexivity.
  - vm_compute; reflexivity.
  - vm_compute; reflexivity.
  - repeat constructor. simpl. rewrite list_elem_of_singleton. lia.
  - exists b'. split; [vm_compute; reflexivity|]. split; [exact Hr|exact Hid].
Defined.

(** ** The entry stop *)

Lemma resolve_loop_spec ids location bindings : ∀ seen hits,
  ∃ new, resolve_loop ids location bindings seen hits = hits ++ new ∧
    (∀ n, n ∈ new → ∃ b, b ∈ bindings ∧ eb_id b = n ∧ eb_location b = location) ∧
    (∀ b, b ∈ bindings → eb_location b = location →
       id (eb_id b) ids ∈ seen ∨ ∃ n, n ∈ new ∧ id n ids = id (eb_id b) ids) ∧
    NoDup (map (λ n, id n ids) new) ∧ (∀ n, n ∈ new → id n ids ∉ seen).
Proof.
  induction bindings as [|b bindings IH]; intros seen hits; simpl.
  { exists []. rewrite app_nil_r. split_and!; [done| | |constructor|];
      intros x Hx; by apply elem_of_nil in Hx. }
  destruct (bool_decide _ && _) eqn:E; bools.
  - destruct (IH ({[id (eb_id b) ids]} ∪ seen) (hits ++ [eb_id b])) as (new & -> & H1 & H2 & H3 & H4).
    exists (eb_id b :: new). split; [by rewrite <- app_assoc|]. split_and!.
    + intros n [->|Hn]%elem_of_cons; [exists b; split_and!; try done; by left|].
      destruct (H1 n Hn) as (b' & ? & ? & ?). exists b'. split_and!; try done. by right.
    + intros b' [->|Hb']%elem_of_cons Hl; [right; exists (eb_id b); split; [by left|done]|].
      destruct (H2 b' Hb' Hl) as [Hin|(n & Hn & Hid)].
      * apply elem_of_union in Hin as [Hin|Hin]; [|by left]. apply elem_of_singleton in Hin.
        right. exists (eb_id b). split; [by left|done].
      * right. exists n. split; [by right|done].
    + simpl. constructor; [|done]. intros Hin. apply list_elem_of_fmap in Hin as (n & Hid & Hn).
      apply (H4 n Hn). rewrite <- Hid. by apply elem_of_union_l, elem_of_singleton.
    + intros n [->|Hn]%elem_of_cons; [done|]. specialize (H4 n Hn).
      intros Hin. by apply H4, elem_of_union_r.
  - destruct (IH seen hits) as (new & -> & H1 & H2 & H3 & H4). exists new. split; [done|]. split_and!; try done.
    + intros n Hn. destruct (H1 n Hn) as (b' & ? & ? & ?). exists b'. split_and!; try done. by right.
    + intros b' [->|Hb']%elem_of_cons Hl; [|by apply H2]. left.
      apply andb_false_iff in E as [E|E]; bools; done.
Qed.

(** The stop at the entry point is reported as the breakpoints bound there:
    every binding at the entry location is represented in the hit list by
    exactly one native breakpoint of its protocol identity, the list is sorted,
    the reason becomes a breakpoint exactly when the list is not empty, and the
    stop is suppressed only when no breakpoint is bound at the entry and the
    client did not ask to stop there. *)
Theorem resolve_entry (s : initialStop) (snapshot : SessionSnapshot) (stopOnEntry : bool)
    (ids : breakpointIDs) :
  ds_Reason snapshot = ReasonEntry → ds_HitBreakpointIDs snapshot = [] →
  let '(snapshot', suppress) := resolve s snapshot stopOnEntry ids in
  let hits := ds_HitBreakpointIDs snapshot' in
  let at_entry b := b ∈ is_bindings s ∧ eb_location b = ds_Location snapshot in
  Sorted Z.le hits ∧
  (∀ n, n ∈ hits → ∃ b, at_entry b ∧ eb_id b = n) ∧
  (∀ b, at_entry b → ∃ n, n ∈ hits ∧ id n ids = id (eb_id b) ids) ∧
  NoDup (map (λ n, id n ids) hits) ∧
  (ds_Reason snapshot' = if decide (hits = []) then ReasonEntry else ReasonBreakpoint) ∧
  (suppress = true ↔ stopOnEntry = false ∧ ∀ b, ¬ at_entry b).
Proof.
  intros Hr Hh. unfold resolve. rewrite Hr, Hh, bool_decide_eq_false_2 by (intros ?; done).
  destruct (resolve_loop_spec ids (ds_Location snapshot) (is_bindings s) ∅ [])
    as (new & -> & H1 & H2 & H3 & _). rewrite app_nil_l.
  set (hits := merge_sort Z.le new).
  assert (hits ≡ₚ new) as Hp by apply merge_sort_Permutation.
  assert (Sorted Z.le hits) as Hs by apply (Sorted_merge_sort Z.le).
  assert (∀ n, n ∈ hits → ∃ b, (b ∈ is_bindings s ∧ eb_location b = ds_Location snapshot) ∧ eb_id b = n)
    as Ha by (intros n Hn; rewrite Hp in Hn; destruct (H1 n Hn) as (b & ? & ? & ?); exists b; done).
  assert (∀ b, b ∈ is_bindings s ∧ eb_location b = ds_Location snapshot →
    ∃ n, n ∈ hits ∧ id n ids = id (eb_id b) ids) as Hb.
  { intros b [Hin Hl]. destruct (H2 b Hin Hl) as [Hx|(n & Hn & Hid)]; [by apply elem_of_empty in Hx|].
    exists n. by rewrite Hp. }
  assert (NoDup (map (λ n, id n ids) hits)) as Hn.
  { by rewrite (Permutation_map _ Hp). }
  clearbody hits. destruct hits as [|h hits]; simpl.
  - split_and!; try done. rewrite negb_true_iff. split; [|by intros [? _]].
    intros ->. split; [done|]. intros b Hab. destruct (Hb b Hab) as (n & Hx & _). by apply elem_of_nil in Hx.
  - split_and!; try done. split; [done|]. intros [_ Hno]. destruct (Ha h) as (b & Hab & _); [by left|].
    by destruct (Hno b).
Qed.

Definition entry_snapshot (state : State) (reason : Reason) : SessionSnapshot :=
  mkSessionSnapshot "d" "s" state reason "q:1" [] None (mkRuntimeOptions "text" "") None None.

Lemma resolve_entry_witness :
  let s := mkInitialStop [mkEntryBinding 6 "q:1"; mkEntryBinding 5 "q:1"] true in
  let ids := mkBreakpointIDs 3 1 ∅ {[5 := 1; 6 := 2]} ∅ in
  (resolve s (entry_snapshot StateStopped ReasonEntry) false ids).2 = false ∧
  ds_HitBreakpointIDs (resolve s (entry_snapshot StateStopped ReasonEntry) false ids).1 = [5; 6].
Proof.
  intros s ids. split; [|vm_compute; reflexivity].
  pose proof (resolve_entry s (entry_snapshot StateStopped ReasonEntry) false ids eq_refl eq_refl) as Hr.
  destruct (resolve s (entry_snapshot StateStopped ReasonEntry) false ids) as [snap sup] eqn:E.
  destruct Hr as (_ & _ & _ & _ & _ & Hs). destruct sup; [|reflexivity].
  destruct (proj1 Hs eq_refl) as [_ Hno]. destruct (Hno (mkEntryBinding 6 "q:1")).
  split; [left|reflexivity].
Defined.

(** ** The protocol event stream *)

Definition is_stopped (m : message) : Prop := match m with MStopped _ _ _ => True | _ => False end.

Definition non_terminal (e : Event * option string) : Prop := Terminal (ds_State (ev_Snapshot e.1)) = false.

(** What a subscription delivers: events up to the terminal one, or events
    followed by the error of a watcher that lagged. *)
Definition delivered (events : list (Event * option string)) (errors : list string) : Prop :=
  (errors = [] ∧ ∃ init e c, events = init ++ [(e, c)] ∧ Forall non_terminal init ∧
     Terminal (ds_State (ev_Snapshot e)) = true) ∨
  (Forall non_terminal events ∧ ∃ text, errors = [text]).

Section stream.
Context {Variable_ : Type}.
Implicit Types s : server (Variable_ := Variable_).

Lemma sendStdout_sent output s : ∃ out, sv_sent (sendStdout output s) = sv_sent s ++ out ∧
  (∀ m, m ∈ out → m ≠ MTerminated ∧ ∀ c, m ≠ MExited c).
Proof.
  unfold sendStdout. destruct output as [[ct [|x xs]]|]; simpl;
    [exists []|eexists [_]|exists []]; rewrite ?app_nil_r; split; try done;
    intros m Hm; try (by apply elem_of_nil in Hm).
  by apply list_elem_of_singleton in Hm as ->.
Qed.

Lemma sendStopped_sent snapshot s : ∃ m, sv_sent (sendStopped snapshot s) = sv_sent s ++ [m] ∧ is_stopped m.
Proof. unfold sendStopped. destruct (ds_Reason snapshot); by eexists. Qed.

(** While the session runs, only stops are announced. *)
Lemma handle_running e s : non_terminal (e, None) →
  ∃ out, sv_sent (handleDebugEvent None e s) = sv_sent s ++ out ∧ Forall is_stopped out.
Proof.
  unfold non_terminal, handleDebugEvent. simpl. intros Hn. rewrite Hn.
  destruct (ds_State (ev_Snapshot e)) eqn:Es; try done; simpl;
    try (exists []; rewrite app_nil_r; by split).
  assert (∀ snapshot s', sv_sent s' = sv_sent s → ∃ out,
    sv_sent (set_breakpoints (commandStopped (sv_breakpoints (sendStopped snapshot s'))) (sendStopped snapshot s')) =
      sv_sent s ++ out ∧ Forall is_stopped out) as Hstop.
  { intros snapshot s' <-. destruct (sendStopped_sent snapshot s') as (m & Hm & Hs). exists [m]. simpl.
    split; [done|by constructor]. }
  destruct (sv_initialStop s) as [i|]; simpl; [|by apply Hstop].
  destruct (resolve i _ _ _) as [snapshot [|]]; [|by apply Hstop].
  exists []. simpl. rewrite app_nil_r. by split.
Qed.

(** The terminal event ends the stream. *)
Lemma handle_terminal c e s : Terminal (ds_State (ev_Snapshot e)) = true →
  ∃ out, sv_sent (handleDebugEvent c e s) = sv_sent s ++ out ++ [MTerminated] ∧
    (MTerminated ∉ out) ∧
    (∀ code, MExited code ∈ out ↔
       (ds_State (ev_Snapshot e) = StateCompleted ∧ code = 0) ∨
       (ds_State (ev_Snapshot e) = StateFailed ∧ code = 1)).
Proof.
  unfold handleDebugEvent. simpl. intros Ht. rewrite Ht.
  destruct (ds_State (ev_Snapshot e)) eqn:Es; try done; simpl.
  - destruct (sendStdout_sent (ds_Output (ev_Snapshot e)) (invalidateHandles (set_initialStop None s)))
      as (out & -> & Hout). exists (out ++ [MExited 0]). split; [by rewrite <- !app_assoc|]. split.
    + intros [Hin|Hin]%elem_of_app; [by destruct (Hout _ Hin)|]. by apply list_elem_of_singleton in Hin.
    + intros code. rewrite elem_of_app, list_elem_of_singleton. split.
      * intros [Hin|[= ->]]; [|by left]. apply Hout in Hin as [_ Hin]. by destruct (Hin code).
      * intros [[_ ->]|[? _]]; [by right|done].
  - destruct (sendStdout_sent (ds_Output (ev_Snapshot e)) (invalidateHandles (set_initialStop None s)))
      as (out & -> & Hout).
    set (text := MOutput _ _). exists (out ++ [text; MExited 1]). split; [by rewrite <- !app_assoc|]. split.
    + intros [Hin|Hin]%elem_of_app; [by destruct (Hout _ Hin)|].
      apply elem_of_cons in Hin as [?|Hin]; [done|]. by apply list_elem_of_singleton in Hin.
    + intros code. rewrite elem_of_app, elem_of_cons, list_elem_of_singleton. split.
      * intros [Hin|[?|[= ->]]]; [|done|by right]. apply Hout in Hin as [_ Hin]. by destruct (Hin code).
      * intros [[? _]|[_ ->]]; [done|]. right; by right.
  - exists []. split; [done|]. split; [by intros Hin%elem_of_nil|].
    intros code. split; [by intros Hin%elem_of_nil|]. by intros [[? _]|[? _]].
Qed.

(** The entry stop is resumed once: what the watcher may still resume, and what it
    has resumed. *)
Definition stop_budget (s : server (Variable_ := Variable_)) : nat :=
  (match sv_initialStop s with Some _ => 1 | None => 0 end + length (sv_resumed s))%nat.

Lemma sendStdout_budget output s : stop_budget (sendStdout output s) = stop_budget s.
Proof. unfold sendStdout. destruct output as [o|]; [|done]. by destruct (o_Content o). Qed.

Lemma sendStopped_budget snapshot s : stop_budget (sendStopped snapshot s) = stop_budget s.
Proof. unfold sendStopped. by destruct (ds_Reason snapshot). Qed.

Lemma set_initialStop_budget s : (stop_budget (set_initialStop None s) ≤ stop_budget s)%nat.
Proof. unfold stop_budget. simpl. lia. Qed.

Lemma resume_budget id continueErr i s : sv_initialStop s = Some i →
  stop_budget (continueSession id continueErr (set_initialStop None s)) = stop_budget s.
Proof. unfold stop_budget. simpl. intros ->. rewrite length_app. simpl. lia. Qed.

Lemma handle_budget c e s : (stop_budget (handleDebugEvent c e s) ≤ stop_budget s)%nat.
Proof.
  pose proof (set_initialStop_budget s) as Hn. unfold handleDebugEvent. set (s0 := if Terminal _ then _ else _).
  assert (stop_budget s0 ≤ stop_budget s)%nat as H0 by (subst s0; destruct (Terminal _); [done|lia]).
  destruct (ds_State (ev_Snapshot e)); try done.
  - destruct (sv_initialStop s0) as [i|] eqn:Hi.
    + destruct (resolve i _ _ _) as [snapshot [|]].
      * pose proof (resume_budget (ds_ID snapshot) c i s0 Hi) as Hb. destruct c; unfold stop_budget in *; simpl in *; lia.
      * pose proof (sendStopped_budget snapshot (set_initialStop None s0)) as Hb. pose proof (set_initialStop_budget s0). unfold stop_budget in *. simpl in *. lia.
    + pose proof (sendStopped_budget (ev_Snapshot e) s0) as Hb. unfold stop_budget in *. simpl in *. lia.
  - pose proof (sendStdout_budget (ds_Output (ev_Snapshot e)) (invalidateHandles s0)) as Hb. unfold stop_budget in *. simpl in *. lia.
  - pose proof (sendStdout_budget (ds_Output (ev_Snapshot e)) (invalidateHandles s0)) as Hb. unfold stop_budget in *. simpl in *. lia.
Qed.

Lemma handle_events_budget events : ∀ s, (stop_budget (handle_events events s) ≤ stop_budget s)%nat.
Proof.
  induction events as [|[e c] events IH]; intros s; simpl; [done|]. etrans; [apply IH|apply handle_budget].
Qed.

Lemma watch_errors_budget errors : ∀ s, stop_budget (watch_errors errors s) = stop_budget s.
Proof. induction errors as [|text errors IH]; intros s; simpl; [done|]. by rewrite IH. Qed.

Lemma watchDebugSession_budget events errors s : (stop_budget (watchDebugSession events errors s) ≤ stop_budget s)%nat.
Proof.
  unfold watchDebugSession. pose proof (set_initialStop_budget (watch_errors errors (handle_events events s))) as Hn.
  rewrite watch_errors_budget in Hn. pose proof (handle_events_budget events s). unfold stop_budget in *. simpl in *. lia.
Qed.

Lemma handle_events_app xs ys s : handle_events (xs ++ ys) s = handle_events ys (handle_events xs s).
Proof. revert s. induction xs as [|[e c] xs IH]; intros s; simpl; [done|apply IH]. Qed.

Lemma handle_events_running events : ∀ s,
  Forall non_terminal events → Forall (λ e, e.2 = None) events →
  ∃ out, sv_sent (handle_events events s) = sv_sent s ++ out ∧ Forall is_stopped out.
Proof.
  induction events as [|[e c] events IH]; intros s Hn Hc; simpl; [exists []; by rewrite app_nil_r|].
  apply Forall_cons in Hn as [Hn1 Hn]. apply Forall_cons in Hc as [Hc1 Hc]. simpl in Hc1. subst c.
  destruct (handle_running e s Hn1) as (o1 & H1 & F1).
  destruct (IH (handleDebugEvent None e s) Hn Hc) as (o2 & H2 & F2).
  exists (o1 ++ o2). rewrite H2, H1, app_assoc. split; [done|by apply Forall_app].
Qed.

Lemma stopped_not_terminated out : Forall is_stopped out → (MTerminated ∉ out) ∧ ∀ c, MExited c ∉ out.
Proof.
  rewrite Forall_forall. intros Hf. split; [intros Hin|intros c Hin]; by apply Hf in Hin.
Qed.

(** The client of the debug adapter is told the end exactly once: when the
    watched session delivers its events up to the terminal one, or the watcher
    is dropped for lagging, the messages of the whole session end with one
    [terminated] and contain no other; before it there is at most one [exited],
    with code 0 for a completed and 1 for a failed execution and none otherwise.
    Afterwards no breakpoint identity is active and every entry stop is
    resolved. *)
Theorem dap_terminated_once (events : list (Event * option string)) (errors : list string) s :
  sv_sent s = [] → delivered events errors → Forall (λ e, e.2 = None) events →
  let s' := watchDebugSession events errors s in
  ∃ out, sv_sent s' = out ++ [MTerminated] ∧ (MTerminated ∉ out) ∧
    (∀ code, MExited code ∈ out ↔
       ∃ e c, last events = Some (e, c) ∧
         ((ds_State (ev_Snapshot e) = StateCompleted ∧ code = 0) ∨
          (ds_State (ev_Snapshot e) = StateFailed ∧ code = 1))) ∧
    sv_initialStop s' = None ∧ bi_active (sv_breakpoints s') = ∅ ∧ bi_pending (sv_breakpoints s') = 0.
Proof.
  intros Hs Hd Hc s'. subst s'. unfold watchDebugSession. simpl.
  destruct Hd as [[-> (init & e & c & -> & Hn & Ht)]|[Hn [text ->]]].
  - apply Forall_app in Hc as [Hc _]. simpl. rewrite handle_events_app. simpl.
    destruct (handle_events_running init s Hn Hc) as (o1 & H1 & F1).
    destruct (handle_terminal c e (handle_events init s) Ht) as (o2 & H2 & N2 & E2).
    destruct (stopped_not_terminated o1 F1) as [N1 X1].
    exists (o1 ++ o2). rewrite H2, H1, Hs. split; [by rewrite <- !app_assoc|].
    split; [by intros [?|?]%elem_of_app|]. split; [|done].
    intros code. rewrite elem_of_app, E2, last_snoc. split.
    + intros [Hin|Hin]; [by destruct (X1 code)|]. by exists e, c.
    + intros (e' & c' & [= <- <-] & Hin). by right.
  - simpl. destruct (handle_events_running events s Hn Hc) as (o1 & H1 & F1).
    destruct (stopped_not_terminated o1 F1) as [N1 X1].
    set (m := MOutput _ _). exists (o1 ++ [m]). rewrite H1, Hs. split; [done|].
    split; [intros [?|Hin]%elem_of_app; [done|by apply list_elem_of_singleton in Hin]|]. split; [|done].
    intros code. split.
    + intros [Hin|Hin]%elem_of_app; [by destruct (X1 code)|by apply list_elem_of_singleton in Hin].
    + intros (e & c & Hl & Hst). rewrite last_lookup in Hl.
      rewrite Forall_lookup in Hn. apply Hn in Hl. unfold non_terminal in Hl. simpl in Hl.
      by destruct Hst as [[Hx _]|[Hx _]]; rewrite Hx in Hl.
Qed.
End stream.

Definition sample_event (state : State) (reason : Reason) : Event * option string :=
  (mkEvent "d" 1 (DebugSession.kind_of state) (entry_snapshot state reason), None).

Lemma dap_terminated_once_witness :
  let s := mkServer (Some (mkInitialStop [] true)) newBreakpointIDs (newHandleTable (Variable_ := string))
             false [] [] in
  let events := [sample_event StateCreated ReasonNone; sample_event StateRunning ReasonNone;
                 sample_event StateStopped ReasonEntry; sample_event StateRunning ReasonNone;
                 sample_event StateCompleted ReasonNone] in
  ∃ out, sv_sent (watchDebugSession events [] s) = out ++ [MTerminated] ∧ MTerminated ∉ out.
Proof.
  intros s events. destruct (dap_terminated_once events [] s) as (out & Ho & Hn & _).
  - reflexivity.
  - left. split; [reflexivity|].
    exists (take 4 events), (sample_event StateCompleted ReasonNone).1, None.
    split; [reflexivity|]. split; [|reflexivity]. repeat constructor.
  - repeat constructor.
  - exists out. split; [exact Ho|exact Hn].
Defined.
