(* ===== verification/DapCoordinates.v ===== *)
(** * Debug adapter: source coordinates

    [internal/dap/source_coordinates.go] and [client_options.go]: the mapping
    between the positions of a debug client (UTF-16 columns, zero- or one-based)
    and those of the compiled source (one-based lines, byte columns).  Texts are
    lists of bytes; a subslice [text[i:]] is the corresponding tail. *)

From S2P Require Import Prelude Source.

Local Open Scope Z_scope.

(** ** Client options *)

Inductive pathFormat := pathFormatPath | pathFormatURI.

Record initializeClientOptions := mkInitializeClientOptions {
  ic_PathFormat : option string;
  ic_LinesStartAt1 : option bool;
  ic_ColumnsStartAt1 : option bool
}.

Record clientOptions := mkClientOptions {
  co_pathFormat : pathFormat;
  co_linesStartAt1 : bool;
  co_columnsStartAt1 : bool
}.

(** [None] when the path format is not supported. *)
Definition client_normalized (o : initializeClientOptions) : option clientOptions :=
  let format :=
    match ic_PathFormat o with
    | Some value =>
        if bool_decide (value = "") then Some pathFormatPath
        else if bool_decide (value = "path") then Some pathFormatPath
        else if bool_decide (value = "uri") then Some pathFormatURI
        else None
    | None => Some pathFormatPath
    end in
  match format with
  | None => None
  | Some format =>
      Some (mkClientOptions format (default true (ic_LinesStartAt1 o)) (default true (ic_ColumnsStartAt1 o)))
  end.

(** ** Coordinates *)

Record sourceColumnBoundary := mkBoundary { cb_bytes : Z; cb_units : Z }.

Record sourceCoordinateLine := mkLine { cl_start : nat; cl_end : nat; cl_boundaries : list sourceColumnBoundary }.

Record sourceCoordinates := mkSourceCoordinates {
  sc_text : list Z;
  sc_lines : list sourceCoordinateLine;
  sc_lineBase : Z;
  sc_columnBase : Z
}.

(** [utf16.RuneLen]. *)
Definition RuneLen (r : Z) : Z :=
  if in_range 0 55295 r || in_range 57344 65535 r then 1
  else if in_range 65536 1114111 r then 2
  else -1.

(** [strings.IndexByte] of a line feed. *)
Fixpoint index_newline (s : list Z) : option nat :=
  match s with
  | [] => None
  | b :: s => if b =? 10 then Some 0%nat else S <$> index_newline s
  end.

(** The loop over the runes of a line; [rest] is [text[offset:line.end]] and
    [bytes] is [offset - start]. *)
Fixpoint boundary_loop (fuel : nat) (rest : list Z) (bytes : nat) (units : Z) : list sourceColumnBoundary :=
  match fuel, rest with
  | O, _ | _, [] => []
  | S fuel, _ :: _ =>
      let '(r, size) := DecodeRuneInString rest in
      let bytes := (bytes + size)%nat in
      let units := units + RuneLen r in
      mkBoundary (Z.of_nat bytes) units :: boundary_loop fuel (drop size rest) bytes units
  end.

(** The boundaries of a line with the given content. *)
Definition line_boundaries (content : list Z) : list sourceColumnBoundary :=
  mkBoundary 0 0 :: boundary_loop (length content) content 0 0.

(** The loop over the lines; [rest] is [text[start:]]. *)
Fixpoint line_loop (fuel : nat) (rest : list Z) (start : nat) : list sourceCoordinateLine :=
  match fuel with
  | O => []
  | S fuel =>
      match index_newline rest with
      | None => [mkLine start (start + length rest) (line_boundaries rest)]
      | Some next =>
          let end_ := (start + next)%nat in
          let stripped :=
            bool_decide (0 < next)%nat && bool_decide (rest !! (next - 1)%nat = Some 13) in
          let line_end := if stripped then (end_ - 1)%nat else end_ in
          mkLine start line_end (line_boundaries (take (line_end - start) rest)) ::
          line_loop fuel (drop (S next) rest) (S end_)
      end
  end.

Definition newSourceCoordinates (text : list Z) (client : clientOptions) : sourceCoordinates :=
  mkSourceCoordinates text (line_loop (S (length text)) text 0)
    (if co_linesStartAt1 client then 1 else 0) (if co_columnsStartAt1 client then 1 else 0).

(** The errors that wrap [errInvalidSourcePosition]. *)
Inductive positionError := LineOutside | ColumnPrecedes | NotABoundary.

(** [apisource.Position]: column 0 stands for a line-only position. *)
Record native := mkNative { np_Line : Z; np_Column : Z }.

Record clientSourcePosition := mkClientPosition { cp_line : Z; cp_column : option Z }.

Definition fromClient (c : sourceCoordinates) (line : Z) (column : option Z) : native + positionError :=
  if (line <? sc_lineBase c) || (Z.of_nat (length (sc_lines c)) <=? line - sc_lineBase c) then inr LineOutside
  else
    let index := line - sc_lineBase c in
    match column with
    | None => inl (mkNative (index + 1) 0)
    | Some column =>
        if column <? sc_columnBase c then inr ColumnPrecedes
        else
          let units := column - sc_columnBase c in
          match sc_lines c !! Z.to_nat index with
          | None => inr LineOutside
          | Some l =>
              let boundaries := cl_boundaries l in
              let boundary := Search (length boundaries)
                (λ i, match boundaries !! i with Some b => units <=? cb_units b | None => true end) in
              match boundaries !! boundary with
              | Some b => if cb_units b =? units then inl (mkNative (index + 1) (cb_bytes b + 1))
                          else inr NotABoundary
              | None => inr NotABoundary
              end
          end
    end.

Definition toClient (c : sourceCoordinates) (position : native) : clientSourcePosition + positionError :=
  if (np_Line position <? 1) || (Z.of_nat (length (sc_lines c)) <? np_Line position) then inr LineOutside
  else if np_Column position <? 0 then inr ColumnPrecedes
  else
    let line := np_Line position - 1 + sc_lineBase c in
    if np_Column position =? 0 then inl (mkClientPosition line None)
    else
      let bytes := np_Column position - 1 in
      match sc_lines c !! Z.to_nat (np_Line position - 1) with
      | None => inr LineOutside
      | Some l =>
          let boundaries := cl_boundaries l in
          let boundary := Search (length boundaries)
            (λ i, match boundaries !! i with Some b => bytes <=? cb_bytes b | None => true end) in
          match boundaries !! boundary with
          | Some b => if cb_bytes b =? bytes then inl (mkClientPosition line (Some (cb_units b + sc_columnBase c)))
                      else inr NotABoundary
          | None => inr NotABoundary
          end
      end.

(** ** Widths of decoded runes *)

Definition is_bytes (s : list Z) : Prop := Forall (λ b, 0 ≤ b < 256) s.

Lemma lor_shift x y n : 0 ≤ n → 0 ≤ y < 2 ^ n → Z.lor (Z.shiftl x n) y = x * 2 ^ n + y.
Proof.
  intros Hn Hy. rewrite <- Z.shiftl_mul_pow2 by done.
  destruct (decide (y = 0)) as [->|Hne]; [by rewrite Z.lor_0_r, Z.add_0_r|].
  assert (Z.land (Z.shiftl x n) y = 0) as Hz.
  { apply Z.bits_inj'. intros k Hk. rewrite Z.land_spec, Z.bits_0.
    destruct (Z.lt_ge_cases k n) as [Hlt|Hge]; [by rewrite Z.shiftl_spec_low|].
    rewrite (Z.bits_above_log2 y k), andb_false_r; [done|lia|].
    enough (Z.log2 y < n) by lia. apply Z.log2_lt_pow2; lia. }
  by rewrite <- Z.lxor_lor, <- Z.add_nocarry_lxor.
Qed.

(** The payloads of continuation and first bytes. *)
Lemma continuation_bits b : 128 ≤ b ≤ 191 → Z.land b 63 = b - 128.
Proof.
  intros Hb. apply Z.eqb_eq. by apply (byte_check (λ b, Z.land b 63 =? b - 128) 128 64 b eq_refl ltac:(lia)).
Qed.

Lemma first_bits b :
  (194 ≤ b ≤ 223 → Z.land b 31 = b - 192) ∧ (224 ≤ b ≤ 239 → Z.land b 15 = b - 224) ∧
  (240 ≤ b ≤ 244 → Z.land b 7 = b - 240).
Proof.
  split_and!; intros Hb; apply Z.eqb_eq.
  - by apply (byte_check (λ b, Z.land b 31 =? b - 192) 194 30 b eq_refl ltac:(lia)).
  - by apply (byte_check (λ b, Z.land b 15 =? b - 224) 224 16 b eq_refl ltac:(lia)).
  - by apply (byte_check (λ b, Z.land b 7 =? b - 240) 240 5 b eq_refl ltac:(lia)).
Qed.

(** The decoder returns a Unicode scalar value, never a surrogate half. *)
Lemma decode_scalar s : is_bytes s → s ≠ [] →
  let r := (DecodeRuneInString s).1 in 0 ≤ r ≤ 55295 ∨ 57344 ≤ r ≤ 1114111.
Proof.
  intros Hb Hs. destruct s as [|b0 rest]; [done|]. apply Forall_cons in Hb as [Hb0 _].
  unfold DecodeRuneInString. destruct (b0 <? 128) eqn:E; bools; simpl; [lia|].
  destruct (first_bits b0) as (F2 & F3 & F4). unfold first_info, in_range.
  repeat case_bool; bools; destruct rest as [|b1 [|b2 [|b3 rest]]];
    repeat case_bool; bools; cbn [fst]; unfold RuneError; try lia.
  all: rewrite ?(continuation_bits b1), ?(continuation_bits b2), ?(continuation_bits b3) by lia;
    first [rewrite F2 by lia|rewrite F3 by lia|rewrite F4 by lia].
  all: rewrite <- ?Z.lor_assoc; rewrite ?(lor_shift _ _ 6), ?(lor_shift _ _ 12), ?(lor_shift _ _ 18) by lia;
    lia.
Qed.

Lemma RuneLen_width s : is_bytes s → s ≠ [] → RuneLen (DecodeRuneInString s).1 = rune_width s.
Proof.
  intros Hb Hs. pose proof (decode_scalar s Hb Hs) as Hr. unfold RuneLen, rune_width, in_range.
  repeat case_bool; bools; simpl in *; try lia.
  all: repeat match goal with H : (_ || _) = true |- _ => apply orb_true_iff in H as [H|H] end; bools; try lia.
  all: repeat match goal with H : (_ && _) = false |- _ => apply andb_false_iff in H as [H|H] end; bools; lia.
Qed.

(** ** Boundaries of one line *)

Definition bytes_le (bytes : Z) (b : sourceColumnBoundary) : bool := bytes <=? cb_bytes b.
Definition units_le (units : Z) (b : sourceColumnBoundary) : bool := units <=? cb_units b.

(** Byte and unit columns both increase strictly. *)
Definition increasing (bs : list sourceColumnBoundary) : Prop :=
  ∀ i j a b, (i < j)%nat → bs !! i = Some a → bs !! j = Some b →
    cb_bytes a < cb_bytes b ∧ cb_units a < cb_units b.

Lemma is_bytes_drop n s : is_bytes s → is_bytes (drop n s).
Proof. apply Forall_drop. Qed.

Lemma seg_zero t a b : seg t a b 0 → b = a.
Proof.
  inversion 1 as [|? ? w Ha Hs]; [done|]. pose proof (rune_width_pos (drop a t)).
  apply seg_bounds in Hs as (_ & ? & _). lia.
Qed.

Lemma drop_cons_lt {A} a (t : list A) c rest : drop a t = c :: rest → (a < length t)%nat.
Proof. intros Hd. apply (f_equal length) in Hd. rewrite length_drop in Hd. simpl in Hd. lia. Qed.

(** One step of the loop. *)
Lemma boundary_loop_step t fuel a w : is_bytes t → (a < length t)%nat →
  boundary_loop (S fuel) (drop a t) a w =
    let a' := (a + rune_size (drop a t))%nat in
    let w' := w + rune_width (drop a t) in
    mkBoundary (Z.of_nat a') w' :: boundary_loop fuel (drop a' t) a' w'.
Proof.
  intros Hb Hlt.
  assert (drop a t ≠ []) as Hne.
  { intros Hd. apply (f_equal length) in Hd. rewrite length_drop in Hd. simpl in Hd. lia. }
  pose proof (RuneLen_width (drop a t) (is_bytes_drop a t Hb) Hne) as Hw.
  cbv zeta. rewrite <- drop_drop. unfold rune_size. cbn [boundary_loop].
  destruct (drop a t) as [|c rest]; [done|].
  destruct (DecodeRuneInString (c :: rest)) as [r size]. simpl in Hw |- *. by rewrite Hw.
Qed.

(** The boundaries from an offset on are the ends of the segments from there. *)
Lemma boundary_loop_spec t : is_bytes t → ∀ fuel a w,
  (a ≤ length t)%nat → (length t - a ≤ fuel)%nat →
  let bs := boundary_loop fuel (drop a t) a w in
  (∀ (k : nat) (x : Z), 1 ≤ x → seg t a k x → ∃ i, bs !! i = Some (mkBoundary (Z.of_nat k) (w + x))) ∧
  (∀ i b, bs !! i = Some b →
     ∃ (k : nat) (x : Z), 1 ≤ x ∧ (a < k)%nat ∧ seg t a k x ∧ b = mkBoundary (Z.of_nat k) (w + x)) ∧
  increasing bs.
Proof.
  intros Hb. induction fuel as [|fuel IH]; intros a w Ha Hf bs.
  { subst bs. split_and!; simpl; [|done|done].
    intros k x Hx Hs. inv Hs; lia. }
  destruct (decide (a = length t)) as [->|Hne].
  { subst bs. rewrite drop_all. split_and!; simpl; [|done|done].
    intros k x Hx Hs. inv Hs; lia. }
  subst bs. rewrite boundary_loop_step by (done || lia). cbv zeta.
  set (a' := (a + rune_size (drop a t))%nat). set (w' := w + rune_width (drop a t)).
  pose proof (rune_size_drop t a ltac:(lia)) as Hsz. pose proof (rune_width_pos (drop a t)) as Hwp.
  destruct (IH a' w' ltac:(lia) ltac:(lia)) as (H1 & H2 & H3).
  set (bs := boundary_loop fuel (drop a' t) a' w') in *. split_and!.
  - intros k x Hx Hs. inversion Hs as [|? ? y Hlt Hs']; subst; [lia|].
    pose proof (seg_bounds _ _ _ _ Hs') as (_ & Hy & _). destruct (decide (y = 0)) as [->|Hny].
    + apply seg_zero in Hs' as ->. exists 0%nat. simpl. do 2 f_equal. subst w'. lia.
    + destruct (H1 k y ltac:(lia) Hs') as (i & Hi). exists (S i). simpl. rewrite Hi. do 2 f_equal. subst w'. lia.
  - intros [|i] b Hi; simpl in Hi.
    + simplify_eq. exists a', (rune_width (drop a t) + 0). split_and!; [lia|subst a'; lia| |].
      * apply seg_cons; [lia|apply seg_nil].
      * f_equal. subst w'. lia.
    + destruct (H2 i b Hi) as (k & x & Hx & Hk & Hs & ->).
      exists k, (rune_width (drop a t) + x). split_and!; [lia|subst a'; lia| |].
      * apply seg_cons; [lia|done].
      * f_equal. subst w'. lia.
  - intros [|i] [|j] x y Hij Hx Hy; simpl in Hx, Hy; try lia; [|by apply (H3 i j); [lia|..]].
    simplify_eq. destruct (H2 j y Hy) as (k & z & Hz & Hk & _ & ->). simpl. lia.
Qed.

(** The boundaries of a line are the decoding boundaries of its content, with
    the UTF-16 width of the text before them. *)
Lemma line_boundaries_spec t : is_bytes t →
  (∀ (k : nat) (x : Z), seg t 0 k x ↔ ∃ i, line_boundaries t !! i = Some (mkBoundary (Z.of_nat k) x)) ∧
  (∀ i b, line_boundaries t !! i = Some b → ∃ (k : nat) (x : Z), seg t 0 k x ∧ b = mkBoundary (Z.of_nat k) x) ∧
  increasing (line_boundaries t).
Proof.
  intros Hb. destruct (boundary_loop_spec t Hb (length t) 0 0 ltac:(lia) ltac:(lia)) as (H1 & H2 & H3).
  rewrite drop_0 in *. unfold line_boundaries. set (bs := boundary_loop (length t) t 0 0) in *.
  assert (∀ i b, (mkBoundary 0 0 :: bs) !! i = Some b →
    ∃ (k : nat) (x : Z), seg t 0 k x ∧ b = mkBoundary (Z.of_nat k) x) as Hall.
  { intros [|i] b Hi; simpl in Hi; [simplify_eq; exists 0%nat, 0; split; [apply seg_nil|done]|].
    destruct (H2 i b Hi) as (k & x & _ & _ & Hs & ->). exists k, x. split; [done|]. by rewrite Z.add_0_l. }
  split_and!; [|done|].
  - intros k x. split.
    + intros Hs. pose proof (seg_bounds _ _ _ _ Hs) as (_ & Hx & _). destruct (decide (x = 0)) as [->|Hne].
      * apply seg_zero in Hs as ->. by exists 0%nat.
      * destruct (H1 k x ltac:(lia) Hs) as (i & Hi). exists (S i). simpl. by rewrite Hi, Z.add_0_l.
    + intros (i & Hi). destruct (Hall i _ Hi) as (k' & x' & Hs & [= Hk ->]).
      apply Nat2Z.inj in Hk as ->. done.
  - intros [|i] [|j] x y Hij Hx Hy; simpl in Hx, Hy; try lia; [|by apply (H3 i j); [lia|..]].
    simplify_eq. destruct (H2 j y Hy) as (k & z & Hz & Hk & _ & ->). simpl. lia.
Qed.

(** Searching a strictly increasing column. *)
Lemma Search_column (bs : list sourceColumnBoundary) (f : sourceColumnBoundary → Z) (v : Z) :
  (∀ i j a b, (i < j)%nat → bs !! i = Some a → bs !! j = Some b → f a < f b) →
  ∀ k b, bs !! k = Some b → f b = v →
  Search (length bs) (λ i, match bs !! i with Some b => v <=? f b | None => true end) = k.
Proof.
  intros Hinc k b Hk Hf. set (test := λ i : nat, _).
  pose proof (lookup_lt_Some _ _ _ Hk) as Hlt.
  destruct (Search_spec (length bs) test) as (Hle & Hlow & Hhigh).
  { intros i j Hij. unfold test. destruct (bs !! i) as [x|] eqn:Hx.
    - destruct (bs !! j) as [y|] eqn:Hy; [|done]. intros; bools. apply Z.leb_le.
      destruct (decide (i = j)) as [->|]; [simplify_eq; lia|]. specialize (Hinc i j x y ltac:(lia) Hx Hy). lia.
    - apply lookup_ge_None in Hx. lia. }
  set (r := Search (length bs) test) in *.
  destruct (decide (r = k)) as [|Hne]; [done|exfalso].
  destruct (decide (k < r)%nat).
  - specialize (Hlow k ltac:(lia)). unfold test in Hlow. rewrite Hk in Hlow. bools. lia.
  - specialize (Hhigh r ltac:(lia)). unfold test in Hhigh.
    destruct (bs !! r) as [x|] eqn:Hx; [|apply lookup_ge_None in Hx; lia]. bools.
    specialize (Hinc r k x b ltac:(lia) Hx Hk). lia.
Qed.

(** ** Lines *)

(** The lines of a text: separated by line feeds, a carriage return before a
    separator belongs to it. *)
Inductive layout : list (list Z) → list Z → Prop :=
| layout_last c : 10 ∉ c → layout [c] c
| layout_crlf c cs rest : 10 ∉ c → layout cs rest → layout (c :: cs) (c ++ 13 :: 10 :: rest)
| layout_lf c cs rest : 10 ∉ c → last c ≠ Some 13 → layout cs rest → layout (c :: cs) (c ++ 10 :: rest).

Lemma index_newline_spec s :
  match index_newline s with
  | None => 10 ∉ s
  | Some n => s = take n s ++ 10 :: drop (S n) s ∧ (10 ∉ take n s) ∧ (n < length s)%nat
  end.
Proof.
  induction s as [|b s IH]; simpl; [apply not_elem_of_nil|].
  destruct (b =? 10) eqn:E; bools; simpl.
  - subst b. split_and!; [by rewrite drop_0|apply not_elem_of_nil|lia].
  - destruct (index_newline s) as [n|]; simpl.
    + destruct IH as (H1 & H2 & H3). split_and!; [by f_equal| |lia].
      intros [?|?]%elem_of_cons; [by subst|done].
    + intros [?|?]%elem_of_cons; [by subst|done].
Qed.

(** A line of the table has the boundaries of its content. *)
Definition line_of_content (c : list Z) (l : sourceCoordinateLine) : Prop :=
  cl_boundaries l = line_boundaries c ∧ cl_end l = (cl_start l + length c)%nat.

Lemma line_loop_layout fuel : ∀ rest start, (length rest < fuel)%nat →
  ∃ cs, layout cs rest ∧ Forall2 line_of_content cs (line_loop fuel rest start).
Proof.
  induction fuel as [|fuel IH]; intros rest start Hf; [lia|]. cbn [line_loop].
  pose proof (index_newline_spec rest) as Hn. destruct (index_newline rest) as [n|].
  2: { exists [rest]. split; [by constructor|]. by repeat constructor. }
  destruct Hn as (Hsplit & Hno & Hlt). cbv zeta.
  destruct (IH (drop (S n) rest) (S (start + n))) as (cs & Hlay & Hall); [rewrite length_drop; lia|].
  destruct (bool_decide (0 < n)%nat && _) eqn:E; bools.
  - exists (take (start + n - 1 - start) rest :: cs).
    replace (start + n - 1 - start)%nat with (n - 1)%nat by lia.
    assert (take n rest = take (n - 1) rest ++ [13]) as Htake.
    { replace n with (S (n - 1)) at 1 by lia. by apply take_S_r. }
    split.
    + rewrite Hsplit at 2. rewrite Htake, <- app_assoc. simpl. apply layout_crlf; [|done].
      intros Hin. apply Hno. rewrite Htake. by apply elem_of_app; left.
    + constructor; [|done]. split; [done|]. simpl. rewrite length_take. lia.
  - exists (take (start + n - start) rest :: cs).
    replace (start + n - start)%nat with n by lia. split.
    + rewrite Hsplit at 2. apply layout_lf; [done| |done]. rewrite last_lookup, length_take.
      replace (Nat.pred (n `min` length rest)) with (n - 1)%nat by lia.
      apply andb_false_iff in E as [E|E]; bools.
      * assert (n = 0%nat) as -> by lia. done.
      * rewrite lookup_take_Some. tauto.
    + constructor; [|done]. split; [done|]. simpl. rewrite length_take. lia.
Qed.

Lemma layout_bytes cs t : layout cs t → is_bytes t → Forall is_bytes cs.
Proof.
  induction 1 as [c|c cs rest _ _ IH|c cs rest _ _ _ IH]; intros Hb.
  - by repeat constructor.
  - apply Forall_app in Hb as [Hc [_ [_ Hr]%Forall_cons]%Forall_cons]. constructor; [done|by apply IH].
  - apply Forall_app in Hb as [Hc [_ Hr]%Forall_cons]. constructor; [done|by apply IH].
Qed.

(** ** The two directions *)

(** A table whose lines have the contents [cs]. *)
Definition table_of (c : sourceCoordinates) (cs : list (list Z)) : Prop :=
  length (sc_lines c) = length cs ∧
  ∀ i content, cs !! i = Some content →
    is_bytes content ∧ ∃ l, sc_lines c !! i = Some l ∧ cl_boundaries l = line_boundaries content.

Lemma lines_spec text client : is_bytes text →
  ∃ cs, layout cs text ∧ table_of (newSourceCoordinates text client) cs.
Proof.
  intros text_ok. destruct (line_loop_layout (S (length text)) text 0 ltac:(lia)) as (cs & Hl & Hall).
  exists cs. split; [done|]. split; [symmetry; by eapply Forall2_length|].
  intros i content Hi. pose proof (layout_bytes _ _ Hl text_ok) as Hb. rewrite Forall_lookup in Hb.
  split; [by eapply Hb|]. destruct (Forall2_lookup_l _ _ _ _ _ Hall Hi) as (l & ? & ? & _). by exists l.
Qed.

(** The native positions [fromClient] accepts with a column. *)
Lemma fromClient_column c cs : table_of c cs →
  ∀ line col p, fromClient c line (Some col) = inl p ↔
    ∃ (i : nat) content (k : nat), line = sc_lineBase c + Z.of_nat i ∧ cs !! i = Some content ∧
      seg content 0 k (col - sc_columnBase c) ∧ p = mkNative (Z.of_nat i + 1) (Z.of_nat k + 1).
Proof.
  intros [Hlen Hcs] line col p. unfold fromClient. rewrite Hlen. split.
  - intros Hf. destruct (_ || _) eqn:Hr; [done|]. bools. destruct (col <? _) eqn:Hc; [done|]. bools.
    set (i := Z.to_nat (line - sc_lineBase c)) in *.
    destruct (lookup_lt_is_Some_2 cs i) as [content Hi]; [lia|].
    destruct (Hcs i content Hi) as (Hb & l & Hl & Hbs). rewrite Hl, Hbs in Hf.
    destruct (line_boundaries_spec content Hb) as (_ & Hall & _).
    destruct (line_boundaries content !! _) as [b|] eqn:Hsb; [|done].
    destruct (cb_units b =? _) eqn:Hu; [|done]. bools. inv Hf.
    destruct (Hall _ _ Hsb) as (k & x & Hs & ->). simpl in Hu |- *. subst x.
    exists i, content, k. split_and!; [lia|done|done|]. f_equal. lia.
  - intros (i & content & k & -> & Hi & Hs & ->). pose proof (lookup_lt_Some _ _ _ Hi) as Hlt.
    destruct (_ || _) eqn:Hr; [apply orb_true_iff in Hr as [Hr|Hr]; bools; lia|].
    pose proof (seg_bounds _ _ _ _ Hs) as (_ & Hx & _).
    destruct (col <? _) eqn:Hc; bools; [lia|].
    replace (sc_lineBase c + Z.of_nat i - sc_lineBase c) with (Z.of_nat i) by lia. rewrite Nat2Z.id.
    destruct (Hcs i content Hi) as (Hb & l & Hl & Hbs). rewrite Hl, Hbs.
    destruct (line_boundaries_spec content Hb) as (Hiff & _ & Hinc).
    destruct (proj1 (Hiff k _) Hs) as (j & Hj).
    rewrite (Search_column _ cb_units (col - sc_columnBase c) (λ i j a b H1 H2 H3, proj2 (Hinc i j a b H1 H2 H3)) j _ Hj eq_refl), Hj. simpl. by rewrite Z.eqb_refl.
Qed.

(** The client positions [toClient] answers for a native column. *)
Lemma toClient_column c cs : table_of c cs →
  ∀ p q, np_Column p ≠ 0 → toClient c p = inl q ↔
    ∃ (i : nat) content (k : nat) x, p = mkNative (Z.of_nat i + 1) (Z.of_nat k + 1) ∧
      cs !! i = Some content ∧ seg content 0 k x ∧
      q = mkClientPosition (sc_lineBase c + Z.of_nat i) (Some (x + sc_columnBase c)).
Proof.
  intros [Hlen Hcs] [line col] q Hcol. simpl in Hcol. unfold toClient. rewrite Hlen. simpl. split.
  - intros Hf. destruct (_ || _) eqn:Hr; [done|]. bools. destruct (col <? 0) eqn:Hc; [done|].
    destruct (col =? 0) eqn:Hz; bools; [done|].
    set (i := Z.to_nat (line - 1)) in *.
    destruct (lookup_lt_is_Some_2 cs i) as [content Hi]; [lia|].
    destruct (Hcs i content Hi) as (Hb & l & Hl & Hbs). rewrite Hl, Hbs in Hf.
    destruct (line_boundaries_spec content Hb) as (_ & Hall & _).
    destruct (line_boundaries content !! _) as [b|] eqn:Hsb; [|done].
    destruct (cb_bytes b =? _) eqn:Hu; [|done]. bools. inv Hf.
    destruct (Hall _ _ Hsb) as (k & x & Hs & ->). simpl in Hu |- *.
    exists i, content, k, x. split_and!; [f_equal; lia|done|done|]. f_equal. lia.
  - intros (i & content & k & x & [= -> ->] & Hi & Hs & ->). pose proof (lookup_lt_Some _ _ _ Hi) as Hlt.
    destruct (_ || _) eqn:Hr; [apply orb_true_iff in Hr as [Hr|Hr]; bools; lia|].
    destruct (_ <? 0) eqn:Hc; bools; [lia|]. destruct (_ =? 0) eqn:Hz; bools; [lia|].
    replace (Z.of_nat i + 1 - 1) with (Z.of_nat i) by lia. rewrite Nat2Z.id.
    replace (Z.of_nat k + 1 - 1) with (Z.of_nat k) by lia.
    destruct (Hcs i content Hi) as (Hb & l & Hl & Hbs). rewrite Hl, Hbs.
    destruct (line_boundaries_spec content Hb) as (Hiff & _ & Hinc).
    destruct (proj1 (Hiff k _) Hs) as (j & Hj).
    rewrite (Search_column _ cb_bytes (Z.of_nat k) (λ i j a b H1 H2 H3, proj1 (Hinc i j a b H1 H2 H3)) j _ Hj eq_refl), Hj. simpl. rewrite Z.eqb_refl. do 2 f_equal. lia.
Qed.
(** The coordinate table is exact: a client position with a column is
    accepted exactly when its line is a line of the text (separated by line
    feeds, a preceding carriage return removed) and its column is the UTF-16
    width of a prefix of that line that ends at a decoding boundary; the answer
    is the byte column of that boundary. *)
Theorem coordinates_exact (text : list Z) (client : clientOptions) :
  is_bytes text →
  let c := newSourceCoordinates text client in
  ∃ cs, layout cs text ∧
    ∀ line col p, fromClient c line (Some col) = inl p ↔
      ∃ (i : nat) content (k : nat), line = sc_lineBase c + Z.of_nat i ∧ cs !! i = Some content ∧
        seg content 0 k (col - sc_columnBase c) ∧ p = mkNative (Z.of_nat i + 1) (Z.of_nat k + 1).
Proof.
  intros Hb c. destruct (lines_spec text client Hb) as (cs & Hl & Hc). exists cs. split; [done|].
  by apply fromClient_column.
Qed.

(** Converting positions loses nothing: a client position that is accepted
    comes back unchanged from the native position, and a native position the
    client can be told is recovered from what it is told; line-only positions
    stay line-only. *)
Theorem coordinates_round_trip (text : list Z) (client : clientOptions) :
  is_bytes text →
  let c := newSourceCoordinates text client in
  (∀ line col p, fromClient c line col = inl p → toClient c p = inl (mkClientPosition line col)) ∧
  (∀ p q, toClient c p = inl q → fromClient c (cp_line q) (cp_column q) = inl p).
Proof.
  intros Hb c. destruct (lines_spec text client Hb) as (cs & _ & Hc). fold c in Hc.
  pose proof (fromClient_column c cs Hc) as Hfrom. pose proof (toClient_column c cs Hc) as Hto.
  clearbody c. split.
  - intros line [col|] p Hf.
    + apply Hfrom in Hf as (i & content & k & -> & Hi & Hs & ->).
      apply Hto; [simpl; lia|]. exists i, content, k, (col - sc_columnBase c).
      split_and!; try done. do 2 f_equal. lia.
    + unfold fromClient in Hf. destruct (_ || _) eqn:Hr; [done|]. bools. inv Hf. unfold toClient. simpl.
      destruct (_ || _) eqn:Hr; [apply orb_true_iff in Hr as [Hr|Hr]; bools; lia|]. do 2 f_equal. lia.
  - intros [line col] q Hq. destruct (decide (col = 0)) as [->|Hne].
    + unfold toClient in Hq. simpl in Hq. destruct (_ || _) eqn:Hr; [done|]. bools. inv Hq. simpl.
      unfold fromClient. destruct (_ || _) eqn:Hr; [apply orb_true_iff in Hr as [Hr|Hr]; bools; lia|].
      do 2 f_equal. lia.
    + apply (Hto (mkNative line col)) in Hq as (i & content & k & x & [= -> ->] & Hi & Hs & ->); [|done].
      simpl. apply Hfrom. exists i, content, k. split_and!; try done.
      by replace (x + sc_columnBase c - sc_columnBase c) with x by lia.
Qed.

(** A text with a two-unit rune, a CRLF and a malformed byte. *)
Definition sample_text : list Z := [97; 240; 159; 152; 128; 98; 13; 10; 255; 99].
Definition sample_client : clientOptions := mkClientOptions pathFormatPath true true.

Lemma sample_text_bytes : is_bytes sample_text.
Proof. repeat constructor; lia. Qed.

Lemma coordinates_exact_witness :
  fromClient (newSourceCoordinates sample_text sample_client) 1 (Some 4) = inl (mkNative 1 6) ∧
  ∃ cs, layout cs sample_text.
Proof.
  split; [vm_compute; reflexivity|].
  destruct (coordinates_exact sample_text sample_client sample_text_bytes) as (cs & Hl & _).
  exists cs. exact Hl.
Defined.

Lemma coordinates_round_trip_witness :
  toClient (newSourceCoordinates sample_text sample_client) (mkNative 1 6) =
    inl (mkClientPosition 1 (Some 4)).
Proof.
  apply (proj1 (coordinates_round_trip sample_text sample_client sample_text_bytes)).
  vm_compute. reflexivity.
Defined.
