(* ===== verification/Discovery.v ===== *)
(** * Discovery of workspace sources

    [internal/workspace]: [document_path.go], [root.go], [watcher_path.go] (path
    predicates), [file.go], [document.go], [loader.go] and [refresh_io.go] (the
    walk over the source files below a workspace root, the loading of one
    subtree and of one document).

    The code polls its context and asks the file system at many points, and both
    may change between two of them.  An [env] answers every such call by the
    number of calls made before it, and the functions run in a monad that counts
    the calls and carries the first error.  [tree_env] is the environment of a
    file tree that does not change. *)

From S2P Require Import Prelude Paths Source Errors Uri.

(** ** Paths *)

(** [filepath.ToSlash] is the identity on Unix. *)
Definition normalizeWorkspacePath (relativePath : string) : option string :=
  if bool_decide (relativePath = "") || IsAbs relativePath then None
  else
    let key := Clean relativePath in
    if bool_decide (key = "..") || rooted key || (bool_decide (3 < String.length key)%nat && HasPrefix key "../")
    then None else Some key.

Definition normalizeDocumentPath (relativePath : string) : option string :=
  match normalizeWorkspacePath relativePath with
  | Some key => if bool_decide (key = ".") then None else Some key
  | None => None
  end.

(** [candidate == prefix], or [candidate] continues [prefix] with a slash. *)
Definition at_or_below (candidate prefix : string) : bool :=
  bool_decide (candidate = prefix) ||
  (bool_decide (String.length prefix < String.length candidate)%nat && HasPrefix candidate (prefix +:+ "/")).

Definition workspacePathInSubtree (relativePath subtree : string) : bool :=
  if bool_decide (subtree = ".") then true else at_or_below relativePath subtree.

Definition watcherPathAtOrBelow (candidate prefix : string) : bool := at_or_below candidate prefix.

Definition pathWithinRoot (root candidate : string) : option string :=
  match Rel root candidate with
  | None => None
  | Some relative =>
      if bool_decide (relative = ".") || bool_decide (relative = "..") || IsAbs relative ||
         HasPrefix relative "../" then None
      else Some relative
  end.

Definition isWorkspaceSource (name : string) : bool := bool_decide (Ext name = ".fql").

Definition isExcludedDirectory (name : string) : bool :=
  HasPrefix name "." || HasPrefix name "_" ||
  bool_decide (name = "node_modules") || bool_decide (name = "testdata") || bool_decide (name = "vendor").

Definition splitWorkspacePath (value : string) : list string :=
  if bool_decide (value = ".") || bool_decide (value = "") then [] else split_slash (Clean value).

(** ** Errors *)

(** Every leaf of the error tree is the target. *)
Fixpoint errorOnlyMatches (e : error) (target : sentinel) : bool :=
  match e with
  | EWraps _ [] | EJoin [] => false
  | EWraps _ es => forallb (λ e, errorOnlyMatches e target) es
  | EJoin es => forallb (λ e, errorOnlyMatches e target) es
  | ECompilation _ _ c => bool_decide (ExecErrCompilationFailed = target) && errorOnlyMatches c target
  | EWrap _ c => errorOnlyMatches c target
  | ESentinel s => bool_decide (s = target)
  | ENew _ | EApiDiagnostics _ _ => false
  end.

Definition isOnlyNotExist (e : error) : bool := errorOnlyMatches e FsErrNotExist.

(** ** Files and documents *)

Record File := mkFile { f_RelativePath : string; f_Path : string; f_URI : string }.

Global Instance File_eq_dec : EqDecision File.
Proof. solve_decision. Defined.

(** What the daemon runs in: the working directory of the process, the quoting
    of [%q], the parser (the diagnostics it reports, or the error of the panic
    it raised) and [ferretdiagnostics.NewUnexpectedErrorWith]. *)
Class Host (D : Type) := mkHost {
  Getwd : string + error;
  Quote : string → string;
  parse : string → string → list D + error;
  NewUnexpectedErrorWith : string → string → string → error → D
}.

Record Document {D : Type} := mkDocument {
  doc_file : File;
  doc_revision : Z;
  doc_generation : Z;
  doc_loaded : bool;
  doc_content : string;
  doc_syntax : bool;
  doc_diagnostics : list D
}.
Arguments Document D : clear implicits.

(** The zero value of [Document]. *)
Definition zeroDocument {D} : Document D := mkDocument D (mkFile "" "" "") 0 0 false "" false [].

(** [fs.FileInfo]: the type bits of the mode and what [os.SameFile] compares. *)
Inductive mode := ModeRegular | ModeDir | ModeSymlink | ModeIrregular.

Global Instance mode_eq_dec : EqDecision mode.
Proof. solve_decision. Defined.

Record FileInfo := mkFileInfo { fi_Mode : mode; fi_identity : string }.

(** [fs.DirEntry]; [Info] is a later [lstat]. *)
Record DirEntry := mkDirEntry { de_Name : string; de_Type : mode; de_Info : FileInfo + error }.

(** [workspaceContent] *)
Record workspaceContent {D : Type} := mkContent {
  wc_files : list File;
  wc_documents : gmap string (Document D);
  wc_order : list string;
  wc_directories : list string
}.
Arguments workspaceContent D : clear implicits.

Record discoveredDocument {D : Type} := mkDiscovered {
  dd_document : Document D;
  dd_directories : list string;
  dd_found : bool
}.
Arguments discoveredDocument D : clear implicits.

(** ** The environment *)

(** The answers of the context, of the file system and of the directory observer
    to the [n]-th call; [None] is a nil error. *)
Record env := mkEnv {
  ctx_Err : nat → option error;
  OpenRoot : nat → option error;
  CloseRoot : nat → option error;
  Lstat : nat → string → FileInfo + error;
  ReadDir : nat → string → list DirEntry + error;
  Open : nat → string → option error;
  Handle_Stat : nat → string → FileInfo + error;
  ReadAll : nat → string → string + error;
  ReadFile : nat → string → string + error;
  Observe : nat → string → option error
}.

(** A run of the code from the [n]-th call on: its result or error and the
    number of calls so far; [Block] when the fuel of a walk is used up. *)
Definition run (A : Type) : Type := nat → outcome ((A + error) * nat).

Global Instance run_ret : MRet run := λ A a n, Ret (inl a, n).
Global Instance run_bind : MBind run := λ A B f m n,
  '(r, n) ← m n; match r with inl a => f a n | inr err => Ret (inr err, n) end.

Definition ask {A} (f : nat → A) : run A := λ n, Ret (inl (f n), S n).
Definition fail {A} (err : error) : run A := λ n, Ret (inr err, n).

(** The result of [m], its error as a value. *)
Definition try {A} (m : run A) : run (A + error) := λ n, '(r, n) ← m n; Ret (inl r, n).

(** [if err != nil { return err }]. *)
Definition check (err : option error) : run unit :=
  match err with Some err => fail err | None => mret () end.

Section discovery.
Context {D : Type} {host : Host D} (E : env).

Definition newDocument (file : File) (content : string) : Document D :=
  match parse (f_Path file) content with
  | inl diagnostics => mkDocument D file 1 0 true content true diagnostics
  | inr recovered =>
      mkDocument D file 1 0 true content false
        [NewUnexpectedErrorWith (f_Path file) content "failed to parse source" recovered]
  end.

Definition newUnreadableDocument (file : File) (err : error) : Document D :=
  mkDocument D file 1 0 false "" false
    [NewUnexpectedErrorWith (f_Path file) "" "failed to load source" err].

(** [if err := ctx.Err(); err != nil { return err }]. *)
Definition poll : run unit := err ← ask (ctx_Err E); check err.

(** [fmt.Errorf(what ++ " %q: %w", path, err)]. *)
Definition wrap_quoted (what path : string) (err : error) : error :=
  wrap_prefix (what +:+ " " +:+ Quote path) err.

Definition workspacePathMissing (relativePath : string) (err : error) : run bool :=
  if isOnlyNotExist err then mret true
  else if negb (errorOnlyMatches err FsErrPermission) then mret false
  else
    entries ← ask (λ n, ReadDir E n (Dir relativePath));
    match entries with
    | inr readErr => mret (isOnlyNotExist readErr)
    | inl entries =>
        mret (negb (existsb (λ e, bool_decide (de_Name e = Base relativePath)) entries))
    end.

Definition containsGoModule (entries : list DirEntry) : bool :=
  existsb (λ e, bool_decide (de_Name e = "go.mod") && negb (bool_decide (de_Type e = ModeDir)) &&
                negb (bool_decide (de_Type e = ModeSymlink))) entries.

(** The file of a source: its path below the root and its URI. *)
Definition file_at (rootPath key : string) : run File :=
  let absolute := Join [rootPath; key] in
  match URIFromPath Getwd absolute with
  | inl uri => mret (mkFile key absolute uri)
  | inr err => fail (wrap_quoted "resolve source URI for" key err)
  end.

(** ** The walk *)

(** The files and the directories found so far. *)
Definition found : Type := list File * list string.

(** The body of the loop of [walk] over the entries of a directory, for the entry
    with the path [child]; [walk] walks a child. *)
Definition walk_entry (walk : string → found → run found) (rootPath child : string) (entry : DirEntry)
    (acc : found) : run found :=
  if bool_decide (de_Type entry = ModeSymlink) then mret acc
  else if bool_decide (de_Type entry = ModeDir) then
    if isExcludedDirectory (de_Name entry) then mret acc else walk child acc
  else if negb (isWorkspaceSource (de_Name entry)) then mret acc
  else
    info ← ask (λ _, de_Info entry);
    match info with
    | inr err => fail err
    | inl info =>
        if negb (bool_decide (fi_Mode info = ModeRegular)) then mret acc
        else
          file ← file_at rootPath (Clean child);
          mret ((acc.1 ++ [file], acc.2) : found)
    end.

Fixpoint walk_entries (walk : string → found → run found) (rootPath relativePath : string)
    (entries : list DirEntry) (acc : found) : run found :=
  match entries with
  | [] => mret acc
  | entry :: entries =>
      _ ← poll;
      acc ← walk_entry walk rootPath (Join [relativePath; de_Name entry]) entry acc;
      walk_entries walk rootPath relativePath entries acc
  end.

Fixpoint walk (fuel : nat) (rootPath relativePath : string) (selectedRoot : bool) (acc : found) :
    run found :=
  match fuel with
  | O => λ _, Block
  | S fuel =>
      _ ← poll;
      entries ← ask (λ n, ReadDir E n relativePath);
      match entries with
      | inr err =>
          missing ← (if selectedRoot then mret false else workspacePathMissing relativePath err);
          if (missing : bool) then _ ← poll; mret acc else fail err
      | inl entries =>
          observed ← ask (λ n, Observe E n relativePath);
          match observed with
          | Some err =>
              if negb selectedRoot && isOnlyNotExist err then _ ← poll; mret acc else fail err
          | None =>
              let acc := (acc.1, acc.2 ++ [Clean relativePath]) in
              if negb selectedRoot && containsGoModule entries then mret acc
              else walk_entries (λ child, walk fuel rootPath child false) rootPath relativePath entries acc
          end
      end
  end.

(** The order of [sort.Slice]. *)
Definition file_le (a b : File) : Prop := String.le (f_RelativePath a) (f_RelativePath b).

Global Instance file_le_dec : RelDecision file_le.
Proof. intros a b. unfold file_le. apply _. Defined.

Definition discoverFiles (fuel : nat) (rootPath start : string) : run found :=
  let canonicalStart := Clean start in
  let selectedRoot := bool_decide (canonicalStart = ".") in
  if negb selectedRoot && isExcludedDirectory (Base canonicalStart) then mret ([], [])
  else
    r ← try (walk fuel rootPath canonicalStart selectedRoot ([], []));
    match r with
    | inr err => fail (wrap_prefix "discover source files" err)
    | inl (result, directories) => mret (merge_sort file_le result, directories)
    end.

(** ** Loading *)

(** The loop of [loadWorkspaceTreeFS] over the discovered files. *)
Fixpoint load_loop (files : list File) (content : workspaceContent D) : run (workspaceContent D) :=
  match files with
  | [] => mret content
  | file :: files =>
      _ ← poll;
      bytes ← ask (λ n, ReadFile E n (f_RelativePath file));
      document ←
        match bytes with
        | inr err => mret (newUnreadableDocument file (wrap_quoted "read" (f_RelativePath file) err))
        | inl bytes => let document := newDocument file bytes in _ ← poll; mret document
        end;
      load_loop files
        (mkContent D (wc_files content) (<[f_RelativePath file:=document]> (wc_documents content))
           (wc_order content ++ [f_RelativePath file]) (wc_directories content))
  end.

Definition loadWorkspaceTreeFS (fuel : nat) (rootPath start : string) : run (workspaceContent D) :=
  '(files, directories) ← discoverFiles fuel rootPath start;
  load_loop files (mkContent D files ∅ [] directories).

(** The end of a load or a discovery: the root is closed, and its error is
    joined to the one of the work, if any. *)
Definition closing_root {A} (r : A + error) : run A :=
  closeErr ← ask (CloseRoot E);
  match r, closeErr with
  | inr err, Some closeErr => fail (EJoin [err; wrap_prefix "close workspace root" closeErr])
  | inr err, None => fail err
  | inl _, Some closeErr => fail (wrap_prefix "close workspace root" closeErr)
  | inl a, None => mret a
  end.

Definition open_root : run unit :=
  err ← ask (OpenRoot E);
  match err with Some err => fail (wrap_prefix "open workspace root" err) | None => mret () end.

Definition loadWorkspace (fuel : nat) (rootPath : string) : run (workspaceContent D) :=
  _ ← open_root;
  r ← try (loadWorkspaceTreeFS fuel rootPath ".");
  closing_root r.

(** The loop of [validateWorkspaceDirectory]. *)
Fixpoint validate_directory_loop (current : string) (components : list string) : run bool :=
  match components with
  | [] => mret true
  | component :: components =>
      if isExcludedDirectory component then mret false
      else
        let current := Join [current; component] in
        info ← ask (λ n, Lstat E n current);
        match info with
        | inr err =>
            missing ← workspacePathMissing current err;
            if (missing : bool) then mret false else fail (wrap_quoted "inspect directory" current err)
        | inl info =>
            if bool_decide (fi_Mode info = ModeSymlink) || negb (bool_decide (fi_Mode info = ModeDir)) then mret false
            else
              match components with
              | [] => mret true
              | _ =>
                  entries ← ask (λ n, ReadDir E n current);
                  match entries with
                  | inr err =>
                      missing ← workspacePathMissing current err;
                      if (missing : bool) then mret false
                      else fail (wrap_quoted "read directory" current err)
                  | inl entries =>
                      if containsGoModule entries then mret false
                      else validate_directory_loop current components
                  end
              end
        end
  end.

Definition validateWorkspaceDirectory (relativePath : string) : run bool :=
  validate_directory_loop "." (splitWorkspacePath relativePath).

Definition loadWorkspaceSubtree (fuel : nat) (rootPath relativePath : string) :
    run (workspaceContent D) :=
  _ ← open_root;
  match normalizeWorkspacePath relativePath with
  | None => _ ← ask (CloseRoot E); mret (mkContent D [] ∅ [] [])
  | Some key =>
      eligible ← (if bool_decide (key = ".") then mret (inl true) else try (validateWorkspaceDirectory key));
      match eligible with
      | inr err => _ ← ask (CloseRoot E); fail err
      | inl false => closing_root (inl (mkContent D [] ∅ [] []))
      | inl true =>
          r ← try (loadWorkspaceTreeFS fuel rootPath key);
          r ← match r with
              | inr loadErr =>
                  if negb (bool_decide (key = ".")) && isOnlyNotExist loadErr then
                    ctxErr ← ask (ctx_Err E);
                    match ctxErr with
                    | Some err => mret (inr err)
                    | None => mret (inl (mkContent D [] ∅ [] []))
                    end
                  else mret (inr loadErr)
              | inl content => mret (inl content)
              end;
          closing_root r
      end
  end.

(** ** One document *)

(** The loop of [validateDocumentAncestors]. *)
Fixpoint ancestors_loop (explicit : bool) (current : string) (components directories : list string) :
    run (list string * bool) :=
  match components with
  | [] => mret (directories, true)
  | component :: components =>
      _ ← poll;
      if negb explicit && isExcludedDirectory component then mret (directories, false)
      else
        let current := Join [current; component] in
        info ← ask (λ n, Lstat E n current);
        match info with
        | inr err =>
            missing ← workspacePathMissing current err;
            if (missing : bool) then mret (directories, false)
            else fail (wrap_quoted "inspect directory" current err)
        | inl info =>
            if bool_decide (fi_Mode info = ModeSymlink) || negb (bool_decide (fi_Mode info = ModeDir)) then mret (directories, false)
            else
              observed ← ask (λ n, Observe E n current);
              match observed with
              | Some err => if isOnlyNotExist err then mret (directories, false) else fail err
              | None =>
                  let directories := directories ++ [current] in
                  if explicit then ancestors_loop explicit current components directories
                  else
                    entries ← ask (λ n, ReadDir E n current);
                    match entries with
                    | inr err =>
                        missing ← workspacePathMissing current err;
                        if (missing : bool) then mret (directories, false)
                        else fail (wrap_quoted "read directory" current err)
                    | inl entries =>
                        if containsGoModule entries then mret (directories, false)
                        else ancestors_loop explicit current components directories
                    end
              end
        end
  end.

Definition validateDocumentAncestors (relativePath : string) (explicit : bool) : run (list string * bool) :=
  observed ← ask (λ n, Observe E n ".");
  _ ← check observed;
  ancestors_loop explicit "." (splitWorkspacePath (Dir relativePath)) ["."].

Definition validSourceInfo (info : FileInfo) : bool :=
  negb (bool_decide (fi_Mode info = ModeSymlink)) && bool_decide (fi_Mode info = ModeRegular).

(** [os.SameFile]. *)
Definition SameFile (a b : FileInfo) : bool := bool_decide (fi_identity a = fi_identity b).

(** [None] when the file is gone or is not the one that was inspected. *)
Definition readDiscoveredDocument (file : File) (pathInfo : FileInfo) : run (option (Document D)) :=
  let key := f_RelativePath file in
  opened ← ask (λ n, Open E n key);
  match opened with
  | Some err =>
      missing ← workspacePathMissing key err;
      if (missing : bool) then mret None
      else mret (Some (newUnreadableDocument file (wrap_quoted "open" key err)))
  | None =>
      openedInfo ← ask (λ n, Handle_Stat E n key);
      match openedInfo with
      | inr err => mret (Some (newUnreadableDocument file (wrap_quoted "inspect open" key err)))
      | inl openedInfo =>
          currentInfo ← ask (λ n, Lstat E n key);
          match currentInfo with
          | inr err =>
              missing ← workspacePathMissing key err;
              if (missing : bool) then mret None
              else mret (Some (newUnreadableDocument file (wrap_quoted "inspect" key err)))
          | inl currentInfo =>
              if negb (validSourceInfo currentInfo) || negb (bool_decide (fi_Mode openedInfo = ModeRegular)) ||
                 negb (SameFile openedInfo currentInfo) || negb (SameFile pathInfo currentInfo)
              then mret None
              else
                bytes ← ask (λ n, ReadAll E n key);
                match bytes with
                | inr err => mret (Some (newUnreadableDocument file (wrap_quoted "read" key err)))
                | inl bytes => _ ← poll; mret (Some (newDocument file bytes))
                end
          end
      end
  end.

Definition discoverWorkspaceDocumentRoot (rootPath relativePath : string) (explicit : bool) :
    run (discoveredDocument D) :=
  _ ← poll;
  match normalizeDocumentPath relativePath with
  | None => mret (mkDiscovered D zeroDocument [] false)
  | Some key =>
      if negb (isWorkspaceSource (Base key)) then mret (mkDiscovered D zeroDocument [] false)
      else
        '(directories, eligible) ← validateDocumentAncestors key explicit;
        if negb eligible then mret (mkDiscovered D zeroDocument directories false)
        else
          pathInfo ← ask (λ n, Lstat E n key);
          match pathInfo with
          | inr err =>
              missing ← workspacePathMissing key err;
              if (missing : bool) then mret (mkDiscovered D zeroDocument directories false)
              else fail (wrap_quoted "inspect" key err)
          | inl pathInfo =>
              if negb (validSourceInfo pathInfo) then mret (mkDiscovered D zeroDocument directories false)
              else
                file ← file_at rootPath key;
                document ← readDiscoveredDocument file pathInfo;
                mret (mkDiscovered D (default zeroDocument document) directories
                        (bool_decide (is_Some document)))
          end
  end.

Definition discoverWorkspaceDocument (rootPath relativePath : string) (explicit : bool) :
    run (discoveredDocument D) :=
  _ ← open_root;
  r ← try (discoverWorkspaceDocumentRoot rootPath relativePath explicit);
  closing_root r.

End discovery.

(** ** Keys *)

(** The path of a list of components below the root. *)
Definition key_of (xs : list string) : string := build false xs.

Lemma append_assoc (a b c : string) : (a +:+ b) +:+ c = a +:+ b +:+ c.
Proof.
  induction a as [|x a IH]; [done|]. change (String x ((a +:+ b) +:+ c) = String x (a +:+ b +:+ c)).
  by rewrite IH.
Qed.

Lemma join_slash_app xs ys : xs ≠ [] → ys ≠ [] →
  join_slash (xs ++ ys) = join_slash xs +:+ "/" +:+ join_slash ys.
Proof.
  intros Hx Hy. destruct xs as [|x xs]; [done|]. clear Hx. revert x.
  induction xs as [|z xs IH]; intros x.
  - destruct ys; done.
  - specialize (IH z). cbn [join_slash app] in IH |- *. rewrite IH. by rewrite !append_assoc.
Qed.

Lemma key_app xs ys : xs ≠ [] → ys ≠ [] → key_of (xs ++ ys) = key_of xs +:+ "/" +:+ key_of ys.
Proof. intros Hx Hy. destruct xs, ys; [done..|]. by apply join_slash_app. Qed.

Lemma key_components xs : Forall plain xs → components (key_of xs) = xs.
Proof. intros. apply components_build. by apply normal_plain. Qed.

Lemma key_inj xs ys : Forall plain xs → Forall plain ys → key_of xs = key_of ys → xs = ys.
Proof. intros Hx Hy Heq. by rewrite <- (key_components xs), <- (key_components ys), Heq. Qed.

Lemma key_Clean xs : Forall plain xs → Clean (key_of xs) = key_of xs.
Proof. intros. apply Clean_build. by apply normal_plain. Qed.

Lemma key_nonempty xs : Forall plain xs → key_of xs ≠ "".
Proof. intros Hp Heq. pose proof (key_Clean xs Hp) as Hc. by rewrite Heq in Hc. Qed.

Lemma key_rooted xs : Forall plain xs → rooted (key_of xs) = false.
Proof. intros Hp. apply rooted_build. by apply normal_plain. Qed.

Lemma Join_child xs x : Forall plain xs → plain x → Join [key_of xs; x] = key_of (xs ++ [x]).
Proof.
  intros Hxs Hx. assert (Forall plain (xs ++ [x])) as Hp by (apply Forall_app; split; [done|by constructor]).
  unfold Join. rewrite !filter_cons_True, filter_nil.
  2: { by destruct Hx. }
  2: { by apply key_nonempty. }
  destruct xs as [|y ys].
  - change (Clean ("./" +:+ x) = key_of [x]). unfold Clean.
    assert (components ("./" +:+ x) = [x]) as ->; [|done].
    unfold components. change (rooted ("./" +:+ x)) with false. change ("./" +:+ x) with ("." +:+ "/" +:+ x).
    rewrite split_slash_app by done. rewrite split_slash_single by apply Hx.
    unfold clean_components. simpl. by rewrite clean_step_plain.
  - change (join_slash [key_of (y :: ys); x]) with (key_of (y :: ys) +:+ "/" +:+ key_of [x]).
    rewrite <- key_app by done. by apply key_Clean.
Qed.

Lemma split_key xs : xs ≠ [] → Forall plain xs → split_slash (key_of xs) = xs.
Proof. intros Hne Hp. destruct xs; [done|]. apply split_join; [done|]. by apply plain_no_slash. Qed.

Lemma last_element_key xs x : Forall plain (xs ++ [x]) → last_element (key_of (xs ++ [x])) = x.
Proof. intros Hp. unfold last_element. rewrite split_key, last_snoc; [done|by destruct xs|done]. Qed.

Lemma string_take_app s t : string_take (String.length s) (s +:+ t) = s.
Proof.
  induction s as [|c s IH]; [by destruct t|].
  change (String c (string_take (String.length s) (s +:+ t)) = String c s). by rewrite IH.
Qed.

Lemma string_drop_app s t k : string_drop (String.length s + k) (s +:+ t) = string_drop k t.
Proof. induction s as [|c s IH]; [done|]. apply IH. Qed.

Lemma length_append s t : String.length (s +:+ t) = (String.length s + String.length t)%nat.
Proof. induction s as [|c s IH]; [done|]. change (S (String.length (s +:+ t)) = S (String.length s + String.length t)). by rewrite IH. Qed.

Lemma no_slash_drop n s : no_slash s = true → no_slash (string_drop n s) = true.
Proof. revert s. induction n as [|n IH]; intros [|c s]; simpl; try done. intros [_ Hs]%andb_true_iff. by apply IH. Qed.

Lemma HasSuffix_slash s x : x ≠ "" → no_slash x = true → HasSuffix (s +:+ x) "/" = false.
Proof.
  intros Hne Hns. unfold HasSuffix. apply andb_false_iff. right. apply bool_decide_eq_false.
  rewrite length_append. replace (String.length s + String.length x - String.length "/")%nat
    with (String.length s + (String.length x - 1))%nat by (destruct x; simpl in *; [done|lia]).
  rewrite string_drop_app. intros Heq. pose proof (no_slash_drop (String.length x - 1) x Hns) as Hd.
  by rewrite Heq in Hd.
Qed.

(** A key of several components ends in its last one. *)
Lemma key_snoc xs x : Forall plain xs → ∃ s, key_of (xs ++ [x]) = s +:+ x ∧ Clean s = key_of xs.
Proof.
  intros Hp. rewrite <- (key_Clean xs) by done.
  destruct xs as [|y ys]; [by exists ""|]. exists (key_of (y :: ys) +:+ "/").
  split; [by rewrite key_app, append_assoc|].
  unfold Clean, components. replace (rooted (key_of (y :: ys) +:+ "/")) with (rooted (key_of (y :: ys))).
  - replace (key_of (y :: ys) +:+ "/") with (key_of (y :: ys) +:+ "/" +:+ "") by done.
    rewrite split_slash_app_gen. unfold clean_components. by rewrite foldl_app.
  - symmetry. apply rooted_app. by apply key_nonempty.
Qed.

Lemma Dir_key xs x : Forall plain (xs ++ [x]) → Dir (key_of (xs ++ [x])) = key_of xs.
Proof.
  intros Hp. unfold Dir. rewrite last_element_key by done. apply Forall_app in Hp as [Hxs _].
  destruct (key_snoc xs x Hxs) as (s & -> & <-). rewrite length_append, Nat.add_sub, string_take_app. done.
Qed.

Lemma Base_key xs x : Forall plain (xs ++ [x]) → Base (key_of (xs ++ [x])) = x.
Proof.
  intros Hp. pose proof (last_element_key xs x Hp) as Hl. apply Forall_app in Hp as [Hxs Hx].
  apply Forall_singleton in Hx as (Hne & _ & _ & Hns).
  destruct (key_snoc xs x Hxs) as (s & Heq & _). unfold Base. rewrite Heq in *.
  assert (strip_slashes (String.length (s +:+ x)) (s +:+ x) = s +:+ x) as ->.
  { destruct (String.length (s +:+ x)); [done|]. simpl. by rewrite HasSuffix_slash. }
  rewrite Hl, !bool_decide_eq_false_2; [done|done|]. intros Hs.
  assert (String.length (s +:+ x) = 0%nat) as Hz by by rewrite Hs. rewrite length_append in Hz.
  destruct x; simpl in Hz; [done|lia].
Qed.

(** ** Paths stay below the root *)

Lemma dotdot_prefix xs : Forall (λ x, x ≠ "" ∧ no_slash x = true) xs → xs ≠ [] →
  HasPrefix (join_slash (".." :: xs)) "../" = true ∧ (3 < String.length (join_slash (".." :: xs)))%nat.
Proof.
  intros Hall Hne. destruct xs as [|x xs]; [done|]. apply Forall_cons in Hall as [[Hx _] _].
  split; [done|]. destruct x as [|c x]; [done|]. destruct xs; simpl; lia.
Qed.

(** The keys the path predicates accept. *)
Lemma normalizeWorkspacePath_inside p key :
  normalizeWorkspacePath p = Some key → inside key ∧ key = Clean p.
Proof.
  unfold normalizeWorkspacePath, IsAbs. destruct (_ || rooted p) eqn:E; [done|].
  apply orb_false_iff in E as [_ Hr]. set (k := Clean p).
  destruct (bool_decide (k = "..") || _ || _) eqn:E; [done|]. intros [= <-].
  apply orb_false_iff in E as [[Hup%bool_decide_eq_false _]%orb_false_iff Hpre].
  split; [|done]. pose proof (components_normal p) as Hn. rewrite Hr in Hn.
  assert (k = build false (components p)) as Hk by (subst k; unfold Clean; by rewrite Hr).
  split_and!; [subst k; by rewrite rooted_Clean|apply Clean_idempotent|]. subst k. rewrite components_Clean.
  pose proof (normal_nonempty _ _ Hn) as Hne. destruct Hn as ([|n] & ys & Hxs & Hys & _); rewrite Hxs in *; [done|].
  exfalso. simpl in Hk, Hne. apply Forall_cons in Hne as [_ Hne].
  destruct (replicate n ".." ++ ys) as [|y rest] eqn:Er; [by simpl in Hk|].
  destruct (dotdot_prefix _ Hne ltac:(done)) as [H1 H2].
  change (Clean p = join_slash (".." :: y :: rest)) in Hk. rewrite <- Hk in H1, H2.
  by rewrite H1, bool_decide_eq_true_2 in Hpre.
Qed.

Lemma HasPrefix_split p s : HasPrefix s p = true → ∃ r, s = p +:+ r.
Proof.
  revert s. induction p as [|c p IH]; intros s Hp; simpl in Hp; [by exists s|].
  destruct s as [|d s]; [done|]. bools. subst d. destruct (IH s) as (r & ->); [done|]. by exists r.
Qed.

Lemma HasPrefix_app p s : HasPrefix (p +:+ s) p = true.
Proof. induction p as [|c p IH]; simpl; [by destruct s|]. by rewrite bool_decide_eq_true_2. Qed.

(** A path below its base does not climb. *)
Lemma inside_no_climb key : inside key → key ≠ ".." ∧ HasPrefix key "../" = false.
Proof.
  intros Hin. pose proof Hin as (_ & _ & Hp).
  assert (∀ xs, split_slash key = ".." :: xs → False) as Hno.
  { intros xs Hs. destruct (inside_split key Hin) as [Hc|[_ Hc]]; [|by rewrite Hc in Hs].
    rewrite <- Hc, Hs in Hp. apply Forall_cons in Hp as [(_ & _ & ? & _) _]. done. }
  split; [intros ->; by eapply (Hno [])|].
  destruct (HasPrefix key "../") eqn:E; [|done]. apply HasPrefix_split in E as (r & ->).
  destruct (Hno (split_slash r)). apply (split_slash_app ".." r). done.
Qed.

Lemma inside_normalize key : inside key → key ≠ "." → normalizeDocumentPath key = Some key.
Proof.
  intros Hin Hdot. pose proof Hin as (Hr & Hc & Hp). destruct (inside_no_climb key Hin) as [Hup Hpre].
  unfold normalizeDocumentPath, normalizeWorkspacePath, IsAbs.
  assert (key ≠ "") as Hne by (intros ->; by vm_compute in Hc).
  rewrite bool_decide_eq_false_2, Hr, Hc by done. cbn [orb]. cbv zeta. rewrite Hr, Hpre, andb_false_r.
  rewrite bool_decide_eq_false_2 by done. cbn [orb]. by rewrite bool_decide_eq_false_2.
Qed.

(** A normalised path is the key of plain components. *)
Lemma normalized_key p key : normalizeWorkspacePath p = Some key → ∃ xs, key = key_of xs ∧ Forall plain xs.
Proof.
  intros [(Hr & Hc & Hp) _]%normalizeWorkspacePath_inside. exists (components key). split; [|done].
  unfold key_of. rewrite <- Hc at 1. unfold Clean. by rewrite Hr.
Qed.

Lemma in_subtree_key zs xs : Forall plain zs → Forall plain xs →
  workspacePathInSubtree (key_of zs) (key_of xs) = true ↔ ∃ ys, zs = xs ++ ys.
Proof.
  intros Hz Hx. unfold workspacePathInSubtree, at_or_below. destruct xs as [|x xs].
  { rewrite bool_decide_eq_true_2 by done. split; [by exists zs|done]. }
  rewrite bool_decide_eq_false_2.
  2: { intros Heq. by apply (key_inj _ []) in Heq. }
  rewrite orb_true_iff, andb_true_iff, !bool_decide_eq_true. split.
  - intros [Heq|[_ (r & Heq)%HasPrefix_split]].
    + apply key_inj in Heq as ->; [|done..]. exists []. by rewrite app_nil_r.
    + exists (split_slash r). rewrite append_assoc in Heq. apply (f_equal split_slash) in Heq.
      rewrite split_slash_app_gen, (split_key (x :: xs)) in Heq by done. destruct zs as [|z zs].
      * pose proof (split_slash_nonempty r). injection Heq as _ Hnil. by destruct xs, (split_slash r).
      * by rewrite split_key in Heq.
  - intros [[|y ys] ->]; [left; by rewrite app_nil_r|right].
    rewrite key_app, <- append_assoc by done. split; [|apply HasPrefix_app].
    rewrite !length_append. simpl. lia.
Qed.

(** Document paths never leave the workspace root: a path the workspace
    accepts is normalised to a clean relative path without [..] components, is
    its own normal form, and names a file below any absolute root; an absolute
    path inside the root is mapped to the accepted path that leads back to it,
    and the path of every document is recovered from its absolute path. *)
Theorem document_paths_confined (root : string) :
  rooted root = true →
  (∀ p key, normalizeDocumentPath p = Some key →
     inside key ∧ normalizeDocumentPath key = Some key ∧
     components (Join [root; key]) = components root ++ components key) ∧
  (∀ candidate rel, rooted candidate = true → pathWithinRoot root candidate = Some rel →
     normalizeDocumentPath rel = Some rel ∧ Join [root; rel] = Clean candidate) ∧
  (∀ p key, normalizeDocumentPath p = Some key → pathWithinRoot root (Join [root; key]) = Some key).
Proof.
  intros Hr. assert (∀ p key, normalizeDocumentPath p = Some key → inside key ∧ key ≠ ".") as Hkey.
  { intros p key Hn. unfold normalizeDocumentPath in Hn.
    destruct (normalizeWorkspacePath p) as [k|] eqn:E; [|done]. case_bool_decide; [done|]. inv Hn.
    apply normalizeWorkspacePath_inside in E as [? _]. done. }
  split_and!.
  - intros p key Hn. destruct (Hkey p key Hn) as [Hin Hdot]. split; [done|]. split; [by apply inside_normalize|].
    rewrite Join_inside by done. apply components_build, normal_plain, Forall_app.
    split; [apply normal_rooted_plain; rewrite <- Hr; apply components_normal|by destruct Hin as (_ & _ & ?)].
  - intros candidate rel Hc Hw. unfold pathWithinRoot in Hw. destruct (Rel root candidate) as [r|] eqn:E; [|done].
    destruct (_ || _) eqn:Eb; [done|]. inv Hw.
    apply orb_false_iff in Eb as [Eb Hp]. apply orb_false_iff in Eb as [Eb _].
    apply orb_false_iff in Eb as [H1%bool_decide_eq_false H2%bool_decide_eq_false].
    destruct (Rel_inside root candidate rel Hr Hc E H1 H2 Hp) as (Hin & _ & Hj).
    split; [by apply inside_normalize|done].
  - intros p key Hn. destruct (Hkey p key Hn) as [Hin Hdot]. unfold pathWithinRoot, IsAbs.
    rewrite Rel_Join by done. destruct (inside_no_climb key Hin) as [Hup Hpre]. destruct Hin as (Hrk & _).
    by rewrite !bool_decide_eq_false_2, Hrk, Hpre by done.
Qed.

Lemma document_paths_confined_witness :
  Join ["/work/project"; "queries/a.fql"] = "/work/project/queries/a.fql" ∧
  pathWithinRoot "/work/project" (Join ["/work/project"; "queries/a.fql"]) = Some "queries/a.fql".
Proof.
  split; [vm_compute; reflexivity|].
  apply (proj2 (proj2 (document_paths_confined "/work/project" ltac:(vm_compute; reflexivity)))
    "./queries//b/../a.fql"). vm_compute. reflexivity.
Defined.

(** ** File trees *)

Inductive node :=
| NFile (content : string)
| NDir (entries : list (string * node))
| NSymlink
| NOther.

Definition mode_of (d : node) : mode :=
  match d with
  | NFile _ => ModeRegular
  | NDir _ => ModeDir
  | NSymlink => ModeSymlink
  | NOther => ModeIrregular
  end.

Fixpoint entry (x : string) (entries : list (string * node)) : option node :=
  match entries with
  | [] => None
  | (y, d) :: entries => if bool_decide (x = y) then Some d else entry x entries
  end.

Fixpoint node_at (xs : list string) (d : node) : option node :=
  match xs, d with
  | [], _ => Some d
  | x :: xs, NDir es => match entry x es with Some d => node_at xs d | None => None end
  | _ :: _, _ => None
  end.

Fixpoint height (d : node) : nat :=
  match d with NDir es => S (foldr max 0%nat (map (λ e, height (snd e)) es)) | _ => 0%nat end.

(** Names are file names, and unique in their directory. *)
Inductive wf_node : node → Prop :=
| wf_file c : wf_node (NFile c)
| wf_symlink : wf_node NSymlink
| wf_other : wf_node NOther
| wf_dir es : NoDup (map fst es) → Forall plain (map fst es) → Forall wf_node (map snd es) → wf_node (NDir es).

(** The environment of a tree that does not change, with a context that is never
    done: every call is answered from the tree. *)
Definition info_at (p : string) (d : node) : FileInfo := mkFileInfo (mode_of d) p.

Definition not_exist {A} (p : string) : A + error :=
  inr (EWrap (p +:+ ": file does not exist") (ESentinel FsErrNotExist)).

Definition dir_entries (p : string) (es : list (string * node)) : list DirEntry :=
  map (λ e, mkDirEntry e.1 (mode_of e.2) (inl (info_at (Join [p; e.1]) e.2))) es.

Definition tree_read (t : node) (p : string) : string + error :=
  match node_at (components p) t with
  | Some (NFile c) => inl c
  | Some _ => inr (ENew "is not a regular file")
  | None => not_exist p
  end.

Definition tree_stat (t : node) (p : string) : FileInfo + error :=
  match node_at (components p) t with Some d => inl (info_at p d) | None => not_exist p end.

Definition tree_env (t : node) : env :=
  mkEnv (λ _, None) (λ _, None) (λ _, None) (λ _, tree_stat t)
    (λ _ p, match node_at (components p) t with
            | Some (NDir es) => inl (dir_entries p es)
            | Some _ => inr (ENew "not a directory")
            | None => not_exist p
            end)
    (λ _ p, match node_at (components p) t with
            | Some _ => None
            | None => Some (EWrap (p +:+ ": file does not exist") (ESentinel FsErrNotExist))
            end)
    (λ _, tree_stat t) (λ _, tree_read t) (λ _, tree_read t) (λ _ _, None).

(** ** What discovery promises

    The source of a tree at a path: every directory on the way is not excluded,
    not a link and (the root apart) holds no Go module, and the file is a regular
    [.fql] file. *)
Definition has_module (es : list (string * node)) : bool :=
  existsb (λ e, bool_decide (e.1 = "go.mod") &&
                negb (bool_decide (mode_of e.2 = ModeDir)) && negb (bool_decide (mode_of e.2 = ModeSymlink))) es.

Fixpoint source_at (selectedRoot : bool) (t : node) (xs : list string) : option string :=
  match xs, t with
  | x :: xs, NDir es =>
      if negb selectedRoot && has_module es then None
      else
        match entry x es, xs with
        | Some (NFile c), [] => if isWorkspaceSource x then Some c else None
        | Some (NDir es' as d), _ => if isExcludedDirectory x then None else source_at false d xs
        | _, _ => None
        end
  | _, _ => None
  end.

(** The directory of a tree at a path that a walk from the root would open. *)
Fixpoint valid_dir (selectedRoot : bool) (t : node) (xs : list string) : option node :=
  match xs, t with
  | [], NDir _ => Some t
  | x :: xs, NDir es =>
      if negb selectedRoot && has_module es || isExcludedDirectory x then None
      else match entry x es with Some d => valid_dir false d xs | None => None end
  | _, _ => None
  end.

Lemma containsGoModule_tree p es : containsGoModule (dir_entries p es) = has_module es.
Proof. unfold dir_entries. induction es as [|e es IH]; [done|]. simpl in *. by rewrite IH. Qed.

Lemma entry_elem x es d : NoDup (map fst es) → entry x es = Some d ↔ (x, d) ∈ es.
Proof.
  induction es as [|[y d'] es IH]; simpl; [set_solver|]. intros [Hy Hnd]%NoDup_cons.
  rewrite elem_of_cons. case_bool_decide as Hx; [subst y|].
  - split; [intros [= ->]; by left|]. intros [[= ->]|Hin]; [done|]. destruct Hy.
    change x with ((x, d).1). by apply list_elem_of_fmap_2.
  - rewrite IH by done. naive_solver.
Qed.

Lemma wf_entry es x d : wf_node (NDir es) → entry x es = Some d → plain x ∧ wf_node d ∧ (height d < height (NDir es))%nat.
Proof.
  intros Hwf. inversion Hwf as [| | |? Hnd Hp Hw]; subst. intros He%entry_elem; [|done].
  split; [|split].
  - eapply Forall_forall in Hp; [exact Hp|]. change x with ((x, d).1). by apply list_elem_of_fmap_2.
  - eapply Forall_forall in Hw; [exact Hw|]. change d with ((x, d).2). by apply list_elem_of_fmap_2.
  - simpl. clear -He. apply Nat.lt_succ_r. induction es as [|e es IH]; [set_solver|].
    apply elem_of_cons in He as [<-|He]; simpl; [lia|]. specialize (IH He). lia.
Qed.

Lemma source_at_plain t xs : ∀ sel c, wf_node t → source_at sel t xs = Some c → xs ≠ [] ∧ Forall plain xs.
Proof.
  revert t. induction xs as [|x xs IH]; intros t sel c Hwf Hs; [by destruct t|]. split; [done|].
  destruct t as [|es| |]; try done. simpl in Hs. destruct (_ && _); [done|].
  destruct (entry x es) as [d|] eqn:He; [|done]. destruct (wf_entry _ _ _ Hwf He) as (Hp & Hd & _).
  constructor; [done|]. destruct d as [c'|es'| |]; try done.
  - destruct xs; [constructor|done].
  - destruct (isExcludedDirectory x); [done|]. by apply IH in Hs as [_ ?].
Qed.

Lemma source_at_node t xs : ∀ sel c, source_at sel t xs = Some c → node_at xs t = Some (NFile c).
Proof.
  revert t. induction xs as [|x xs IH]; intros t sel c Hs; [by destruct t|].
  destruct t as [|es| |]; try done. simpl in *. destruct (_ && _); [done|].
  destruct (entry x es) as [d|]; [|done]. destruct d as [c'|es'| |]; try done.
  - destruct xs; [|done]. destruct (isWorkspaceSource x); [|done]. by inv Hs.
  - destruct (isExcludedDirectory x); [done|]. by apply IH in Hs.
Qed.

(** A source below a valid directory is a source of the directory. *)
Lemma source_at_app t xs ys : ∀ sel, ys ≠ [] →
  source_at sel t (xs ++ ys) =
  match valid_dir sel t xs with
  | Some d => source_at (sel && bool_decide (xs = [])) d ys
  | None => None
  end.
Proof.
  intros sel Hy. revert t sel. induction xs as [|x xs IH]; intros t sel.
  - rewrite bool_decide_eq_true_2, andb_true_r by done. destruct ys; [done|]. by destruct t.
  - rewrite (bool_decide_eq_false_2 (x :: xs = [])), andb_false_r by done.
    destruct t as [|es| |]; try done. cbn [app source_at valid_dir].
    destruct (negb sel && has_module es); [done|]. simpl orb.
    destruct (entry x es) as [d|]; [|by destruct (isExcludedDirectory x)].
    assert (xs ++ ys ≠ []) as Hne by (by destruct xs).
    destruct (isExcludedDirectory x).
    { destruct d as [c| | |]; [by destruct (xs ++ ys)|done..]. }
    destruct d as [c|es'| |]; [by destruct (xs ++ ys), xs| |by destruct xs..].
    rewrite IH. by destruct (valid_dir false (NDir es') xs).
Qed.

Lemma valid_dir_node t xs : ∀ sel d, valid_dir sel t xs = Some d → node_at xs t = Some d ∧ ∃ es, d = NDir es.
Proof.
  revert t. induction xs as [|x xs IH]; intros t sel d Hv; destruct t as [|es| |]; try done.
  - inv Hv. eauto.
  - simpl in *. destruct (_ || _); [done|]. destruct (entry x es); [|done]. by apply IH in Hv.
Qed.

Lemma node_at_app t xs ys : node_at (xs ++ ys) t = match node_at xs t with Some d => node_at ys d | None => None end.
Proof.
  revert t. induction xs as [|x xs IH]; intros t; [by destruct t|]. destruct t as [|es| |]; try done.
  simpl. destruct (entry x es); [apply IH|done].
Qed.

Lemma wf_node_at t xs : ∀ d, wf_node t → node_at xs t = Some d → Forall plain xs ∧ wf_node d ∧ (height d ≤ height t)%nat.
Proof.
  revert t. induction xs as [|x xs IH]; intros t d Hwf Hn.
  - assert (d = t) as -> by (destruct t; simpl in Hn; congruence). split_and!; [constructor|done|done].
  - destruct t as [|es| |]; try done. simpl in Hn. destruct (entry x es) as [d'|] eqn:He; [|done].
    destruct (wf_entry _ _ _ Hwf He) as (Hp & Hd & Hh). destruct (IH _ _ Hd Hn) as (? & ? & ?).
    split_and!; [by constructor|done|lia].
Qed.

(** ** Runs *)

Lemma ask_step {A B} (g : nat → A) (f : A → run B) n : (ask g ≫= f) n = f (g n) (S n).
Proof. done. Qed.

Lemma run_Ret_step {A B} (m : run A) (f : A → run B) n a k : m n = Ret (inl a, k) → (m ≫= f) n = f a k.
Proof. intros Hm. unfold mbind, run_bind. by rewrite Hm. Qed.

Lemma try_step {A B} (m : run A) (f : A + error → run B) n a k :
  m n = Ret (inl a, k) → (try m ≫= f) n = f (inl a) k.
Proof. intros Hm. apply run_Ret_step. unfold try. by rewrite Hm. Qed.

(** The result of a bind comes from results of its parts. *)
Lemma run_bind_inv {A B} (m : run A) (f : A → run B) n b k :
  (m ≫= f) n = Ret (inl b, k) → ∃ a j, m n = Ret (inl a, j) ∧ f a j = Ret (inl b, k).
Proof.
  unfold mbind at 1, run_bind. destruct (m n) as [[[a|err] j]| |]; simpl; intros; [by eauto|congruence..].
Qed.

Section tree.
Context {D : Type} {host : Host D} (t : node) (rootPath : string) (Hroot : rooted rootPath = true).
Local Notation E := (tree_env t).

Lemma poll_step {B} (f : unit → run B) n : (poll E ≫= f) n = f tt (S n).
Proof. done. Qed.

Definition mk_file (key : string) : File :=
  mkFile key (Join [rootPath; key]) (file_url (Clean (Join [rootPath; key]))).

Lemma file_at_key xs n : Forall plain xs → file_at rootPath (key_of xs) n = Ret (inl (mk_file (key_of xs)), n).
Proof.
  intros Hp. unfold file_at. rewrite URIFromPath_rooted; [done|].
  rewrite Join_inside; [done|done|]. split_and!; [by apply key_rooted|by apply key_Clean|].
  by rewrite key_components.
Qed.

(** The sources below one entry of a directory. *)
Definition entry_source (x : string) (d : node) (ys : list string) : option string :=
  match d, ys with
  | NFile c, [] => if isWorkspaceSource x then Some c else None
  | NDir _, _ => if isExcludedDirectory x then None else source_at false d ys
  | _, _ => None
  end.

Lemma source_at_entry sel es x ys :
  source_at sel (NDir es) (x :: ys) =
  if negb sel && has_module es then None
  else match entry x es with Some d => entry_source x d ys | None => None end.
Proof. simpl. destruct (_ && _); [done|]. destruct (entry x es) as [[]|]; by destruct ys. Qed.

(** [fs] are the files of the sources [P] below the directory [xs]. *)
Definition lists (xs : list string) (P : list string → string → Prop) (fs : list File) : Prop :=
  ∀ f, f ∈ fs ↔ ∃ ys c, P ys c ∧ f = mk_file (key_of (xs ++ ys)).

Definition walks (m : found → run found) (xs : list string) (P : list string → string → Prop) : Prop :=
  ∀ acc n, ∃ fs ds n', m acc n = Ret (inl (acc.1 ++ fs, acc.2 ++ ds), n') ∧ lists xs P fs.

Lemma walks_nothing (m : found → run found) xs (P : list string → string → Prop) :
  (∀ acc n, ∃ n', m acc n = Ret (inl acc, n')) → (∀ ys c, ¬ P ys c) → walks m xs P.
Proof.
  intros Hm Hno acc n. destruct (Hm acc n) as [n' Hn]. exists [], [], n'. rewrite !app_nil_r.
  split; [by destruct acc|]. intros f. split; [set_solver|]. intros (ys & c & Hc & _). by destruct (Hno ys c).
Qed.

Lemma walk_entry_tree w xs x d info : Forall plain (xs ++ [x]) → fi_Mode info = mode_of d →
  (∀ es', d = NDir es' → isExcludedDirectory x = false →
     walks (w (key_of (xs ++ [x]))) (xs ++ [x]) (λ ys c, source_at false d ys = Some c)) →
  walks (walk_entry w rootPath (key_of (xs ++ [x])) (mkDirEntry x (mode_of d) (inl info))) (xs ++ [x])
    (λ ys c, entry_source x d ys = Some c).
Proof.
  intros Hp Hi Hw. unfold walk_entry. cbn [de_Name de_Type de_Info].
  destruct d as [c|es'| |]; cbn [mode_of bool_decide entry_source] in *; simpl.
  - destruct (isWorkspaceSource x) eqn:Hs; simpl.
    + intros acc n. rewrite ask_step. cbv beta iota. rewrite Hi, (bool_decide_eq_true_2 (ModeRegular = _)) by done.
      cbv beta iota delta [negb]. rewrite key_Clean by done.
      erewrite run_Ret_step by (by apply file_at_key).
      exists [mk_file (key_of (xs ++ [x]))], [], (S n). rewrite app_nil_r. split; [done|].
      intros f. rewrite list_elem_of_singleton. split.
      * intros ->. exists [], c. rewrite app_nil_r. done.
      * intros (ys & c' & Hc & ->). destruct ys; [|done]. by rewrite app_nil_r.
    + apply walks_nothing; [by eauto|]. by intros [|y ys] c'.
  - destruct (isExcludedDirectory x) eqn:Hex; [|by eapply Hw].
    apply walks_nothing; [by eauto|]. by intros ys c'.
  - apply walks_nothing; [by eauto|]. by intros ys c'.
  - apply walks_nothing; [|by intros ys c'].
    intros acc n. destruct (isWorkspaceSource x); simpl; [|by eauto]. rewrite ask_step. cbv beta iota. rewrite Hi. simpl. eauto.
Qed.

Lemma walk_entries_tree w xs es : Forall plain xs → Forall plain (map fst es) →
  (∀ x es', (x, NDir es') ∈ es → isExcludedDirectory x = false →
     walks (w (key_of (xs ++ [x]))) (xs ++ [x]) (λ ys c, source_at false (NDir es') ys = Some c)) →
  walks (walk_entries E w rootPath (key_of xs) (dir_entries (key_of xs) es)) xs
    (λ ys c, ∃ x d ys', ys = x :: ys' ∧ (x, d) ∈ es ∧ entry_source x d ys' = Some c).
Proof.
  intros Hxs. induction es as [|[x d] es IH]; intros Hp Hw.
  { apply walks_nothing; [by eauto|]. intros ys c (x & d & ys' & _ & Hin & _). set_solver. }
  apply Forall_cons in Hp as [Hx Hp]. simpl in Hx. intros acc n.
  cbn [dir_entries map walk_entries de_Name de_Type de_Info fst snd]. rewrite poll_step, Join_child by done.
  destruct (walk_entry_tree w xs x d (info_at (key_of (xs ++ [x])) d)) with (acc := acc) (n := S n)
    as (fs & ds & n1 & Hrun & Hfs).
  { apply Forall_app. split; [done|by constructor]. }
  { done. }
  { intros es' -> Hex. apply Hw; [set_solver|done]. }
  erewrite run_Ret_step by exact Hrun.
  destruct (IH Hp) with (acc := (acc.1 ++ fs, acc.2 ++ ds)) (n := n1) as (fs' & ds' & n2 & Hrun' & Hfs').
  { intros y es' Hin. apply Hw. set_solver. }
  exists (fs ++ fs'), (ds ++ ds'), n2. simpl in Hrun'. rewrite !app_assoc. split; [exact Hrun'|].
  intros f. rewrite elem_of_app, (Hfs f), (Hfs' f). split.
  - intros [(ys & c & Hc & ->)|(ys & c & (y & d' & ys' & -> & Hin & Hc) & ->)].
    + exists (x :: ys), c. rewrite <- app_assoc. split; [|done]. exists x, d, ys. set_solver.
    + exists (y :: ys'), c. split; [|done]. exists y, d', ys'. set_solver.
  - intros (ys & c & (y & d' & ys' & -> & Hin & Hc) & ->). apply elem_of_cons in Hin as [[= -> ->]|Hin].
    + left. exists ys', c. by rewrite <- app_assoc.
    + right. exists (y :: ys'), c. split; [|done]. by exists y, d', ys'.
Qed.

Lemma walk_tree fuel : ∀ xs es sel, node_at xs t = Some (NDir es) → wf_node (NDir es) →
  (height (NDir es) ≤ fuel)%nat → Forall plain xs →
  walks (walk E fuel rootPath (key_of xs) sel) xs (λ ys c, source_at sel (NDir es) ys = Some c).
Proof.
  induction fuel as [|fuel IH]; intros xs es sel Hn Hwf Hh Hxs; [simpl in Hh; lia|]. intros acc n.
  assert (NoDup (map fst es) ∧ Forall plain (map fst es)) as [Hnd Hp] by (by inversion Hwf).
  cbn [walk]. rewrite poll_step, ask_step. cbn [tree_env ReadDir Observe]. rewrite key_components, Hn by done.
  rewrite ask_step, containsGoModule_tree, key_Clean by done.
  destruct (negb sel && has_module es) eqn:Hm.
  { exists [], [key_of xs], (S (S (S n))). rewrite app_nil_r. split; [done|]. intros f. split; [set_solver|].
    intros (ys & c & Hc & _). destruct ys as [|y ys]; [done|]. rewrite source_at_entry, Hm in Hc. done. }
  destruct (walk_entries_tree (λ child, walk E fuel rootPath child false) xs es) with
    (acc := (acc.1, acc.2 ++ [key_of xs])) (n := S (S (S n))) as (fs & ds & n' & Hrun & Hfs); [done|done| |].
  { intros x es' Hin Hex. apply entry_elem in Hin; [|done]. destruct (wf_entry _ _ _ Hwf Hin) as (Hx & Hw & Hh').
    apply IH; [|done|lia|]. 2: { apply Forall_app. split; [done|by constructor]. }
    rewrite node_at_app, Hn. simpl. by rewrite Hin. }
  exists fs, (key_of xs :: ds), n'. simpl in Hrun. rewrite <- app_assoc in Hrun. split; [exact Hrun|].
  intros f. rewrite (Hfs f). split.
  - intros (ys & c & (x & d & ys' & -> & Hin%entry_elem & Hc) & ->); [|done]. exists (x :: ys'), c.
    by rewrite source_at_entry, Hm, Hin.
  - intros (ys & c & Hc & ->). destruct ys as [|x ys]; [done|]. rewrite source_at_entry, Hm in Hc.
    destruct (entry x es) as [d|] eqn:He; [|done]. apply entry_elem in He; [|done].
    exists (x :: ys), c. split; [|done]. by exists x, d, ys.
Qed.

(** ** Loading a tree *)

Definition at_node (f : File) : Prop :=
  ∃ ys c, node_at ys t = Some (NFile c) ∧ Forall plain ys ∧ f = mk_file (key_of ys).

Lemma ReadFile_key n ys c : node_at ys t = Some (NFile c) → Forall plain ys → ReadFile E n (key_of ys) = inl c.
Proof. intros Hn Hp. cbn [tree_env ReadFile]. unfold tree_read. by rewrite key_components, Hn. Qed.

Lemma load_loop_tree files : Forall at_node files → ∀ content n, ∃ content' n',
  load_loop E files content n = Ret (inl content', n') ∧
  ∀ k d, wc_documents content' !! k = Some d ↔
    (k ∉ map f_RelativePath files ∧ wc_documents content !! k = Some d) ∨
    (∃ ys c, mk_file k ∈ files ∧ k = key_of ys ∧ node_at ys t = Some (NFile c) ∧ Forall plain ys ∧
             d = newDocument (mk_file k) c).
Proof.
  induction 1 as [|f files (ys0 & c0 & Hn0 & Hp0 & ->) Hall IH]; intros content n.
  { exists content, n. split; [done|]. intros k d. set_solver. }
  cbn [load_loop f_RelativePath mk_file]. rewrite poll_step, ask_step, (ReadFile_key _ _ _ Hn0 Hp0).
  erewrite run_Ret_step by reflexivity.
  destruct (IH (mkContent D (wc_files content)
       (<[key_of ys0:=newDocument (mk_file (key_of ys0)) c0]> (wc_documents content))
       (wc_order content ++ [key_of ys0]) (wc_directories content)) (S (S (S n)))) as (content' & n' & Hrun & Hd).
  exists content', n'. split; [exact Hrun|]. intros k d. rewrite Hd. cbn [wc_documents map f_RelativePath mk_file].
  assert (k ∈ map f_RelativePath files → mk_file k ∈ files) as Hk.
  { intros (f & -> & Hf)%list_elem_of_fmap. rewrite Forall_forall in Hall.
    by destruct (Hall f Hf) as (ys & c & _ & _ & ->). }
  split.
  - intros [[Hni Hl]|(ys & c & Hin & Hrest)].
    + destruct (decide (k = key_of ys0)) as [->|Hne].
      * rewrite lookup_insert_eq in Hl. inv Hl. right. exists ys0, c0. split; [set_solver|done].
      * rewrite lookup_insert_ne in Hl by done. left. set_solver.
    + right. exists ys, c. split; [set_solver|done].
  - intros [[Hni Hl]|(ys & c & Hin & Hk' & Hrest)].
    + left. split; [set_solver|]. rewrite lookup_insert_ne; [done|set_solver].
    + destruct (decide (k ∈ map f_RelativePath files)) as [Hin'|Hni].
      * right. exists ys, c. split; [by apply Hk|done].
      * left. split; [done|]. destruct Hrest as (Hn & Hp & ->).
        apply elem_of_cons in Hin as [Heq|Hin].
        2: { destruct Hni. change k with (f_RelativePath (mk_file k)). by apply list_elem_of_fmap_2. }
        assert (k = key_of ys0) as -> by (by injection Heq).
        apply key_inj in Hk'; [subst ys|done|done]. rewrite lookup_insert_eq. congruence.
Qed.

Lemma key_dot xs : Forall plain xs → key_of xs = "." ↔ xs = [].
Proof. intros Hp. split; [|by intros ->]. intros Heq. by apply (key_inj xs []). Qed.

Context (Hwf : wf_node t).

(** The documents of [content] are those of the sources [P] of the tree. *)
Definition holds_sources (P : list string → string → Prop) (content : workspaceContent D) : Prop :=
  ∀ k d, wc_documents content !! k = Some d ↔ ∃ ys c, P ys c ∧ k = key_of ys ∧ d = newDocument (mk_file k) c.

Lemma loadTree_tree fuel xs es n : node_at xs t = Some (NDir es) → (height t ≤ fuel)%nat →
  (xs ≠ [] → isExcludedDirectory (Base (key_of xs)) = false) → ∃ content n',
  loadWorkspaceTreeFS E fuel rootPath (key_of xs) n = Ret (inl content, n') ∧
  holds_sources (λ zs c, ∃ ys, zs = xs ++ ys ∧ source_at (bool_decide (xs = [])) (NDir es) ys = Some c) content.
Proof.
  intros Hn Hh Hex. destruct (wf_node_at _ _ _ Hwf Hn) as (Hxs & Hw & Hhd).
  unfold loadWorkspaceTreeFS, discoverFiles. rewrite key_Clean by done.
  assert (bool_decide (key_of xs = ".") = bool_decide (xs = [])) as ->
    by (apply bool_decide_ext; by apply key_dot).
  assert (negb (bool_decide (xs = [])) && isExcludedDirectory (Base (key_of xs)) = false) as ->.
  { case_bool_decide; [done|]. simpl. by apply Hex. }
  destruct (walk_tree fuel xs es (bool_decide (xs = [])) Hn Hw) with (acc := ([], []) : found) (n := n)
    as (fs & ds & n1 & Hrun & Hfs); [lia|done|].
  erewrite run_Ret_step by (erewrite try_step by exact Hrun; reflexivity).
  cbv beta iota. set (files := merge_sort file_le _).
  assert (∀ f, f ∈ files ↔ f ∈ fs) as Hperm by (intros f; unfold files; by rewrite merge_sort_Permutation).
  assert (Forall at_node files) as Hall.
  { apply Forall_forall. intros f Hf%Hperm%Hfs. destruct Hf as (ys & c & Hs & ->).
    exists (xs ++ ys), c. split_and!; [|apply Forall_app; split; [done|by eapply source_at_plain]|done].
    rewrite node_at_app, Hn. by eapply source_at_node. }
  destruct (load_loop_tree files Hall (mkContent D files ∅ [] ds) n1) as (content & n2 & Hload & Hd).
  exists content, n2. split; [exact Hload|]. intros k d. rewrite Hd. cbn [wc_documents]. split.
  - intros [[_ Hl]|(zs & c & Hin & -> & Hz & Hp & ->)]; [by rewrite lookup_empty in Hl|].
    apply Hperm, Hfs in Hin as (ys & c' & Hs & Heq). injection Heq as Heq _ _.
    assert (Forall plain (xs ++ ys)) by (apply Forall_app; split; [done|by eapply source_at_plain]).
    apply key_inj in Heq as ->; [|done|done]. exists (xs ++ ys), c. split_and!; [|done|done].
    exists ys. split; [done|]. rewrite node_at_app, Hn in Hz.
    apply source_at_node in Hs as Hs'. rewrite Hs' in Hz. by inv Hz.
  - intros (zs & c & (ys & -> & Hs) & -> & ->). right. exists (xs ++ ys), c. split_and!; try done.
    + apply Hperm, Hfs. by exists ys, c.
    + rewrite node_at_app, Hn. by eapply source_at_node.
    + apply Forall_app. split; [done|by eapply source_at_plain].
Qed.

Lemma loadWorkspace_tree fuel es n : t = NDir es → (height t ≤ fuel)%nat → ∃ content n',
  loadWorkspace E fuel rootPath n = Ret (inl content, n') ∧
  holds_sources (λ ys c, source_at true t ys = Some c) content.
Proof.
  intros Ht Hh. destruct (loadTree_tree fuel [] es (S n)) as (content & n' & Hrun & Hc); [by rewrite Ht|done|done|].
  exists content, (S n'). split.
  - unfold loadWorkspace. erewrite run_Ret_step by reflexivity.
    erewrite try_step by exact Hrun. done.
  - intros k d. rewrite (Hc k d). rewrite Ht. split.
    + intros (ys & c & (zs & -> & Hs) & Hrest). exists zs, c. done.
    + intros (ys & c & Hs & Hrest). exists ys, c. split; [by exists ys|done].
Qed.

(** ** Directories and single documents of a tree *)

Lemma stat_child n xs c es : node_at xs t = Some (NDir es) → Forall plain (xs ++ [c]) →
  Lstat E n (key_of (xs ++ [c])) =
  match entry c es with Some d => inl (info_at (key_of (xs ++ [c])) d) | None => not_exist (key_of (xs ++ [c])) end.
Proof.
  intros Hn Hp. cbn [tree_env Lstat]. unfold tree_stat. rewrite key_components, node_at_app, Hn by done.
  simpl. by destruct (entry c es).
Qed.

Lemma readdir_node n xs es : node_at xs t = Some (NDir es) → Forall plain xs →
  ReadDir E n (key_of xs) = inl (dir_entries (key_of xs) es).
Proof. intros Hn Hp. cbn [tree_env ReadDir]. by rewrite key_components, Hn. Qed.

(** The directory a loop over the components [cs] reaches from [xs]. *)
Lemma validate_tree cs : ∀ xs es n, node_at xs t = Some (NDir es) → Forall plain xs → Forall plain cs → ∃ n',
  validate_directory_loop E (key_of xs) cs n =
  Ret (inl (bool_decide (is_Some (valid_dir true (NDir es) cs))), n').
Proof.
  induction cs as [|c cs IH]; intros xs es n Hn Hxs Hcs; [by exists n|]. apply Forall_cons in Hcs as [Hc Hcs].
  assert (Forall plain (xs ++ [c])) as Hp by (apply Forall_app; split; [done|by constructor]).
  cbn [validate_directory_loop valid_dir negb andb orb]. destruct (isExcludedDirectory c); [by exists n|].
  rewrite Join_child, ask_step, (stat_child _ _ _ _ Hn Hp) by done.
  destruct (entry c es) as [d|] eqn:He; [|by eexists].
  assert (node_at (xs ++ [c]) t = Some d) as Hn' by (rewrite node_at_app, Hn; simpl; by rewrite He).
  destruct d as [|es'| |]; [by destruct cs; eexists| |by destruct cs; eexists..].
  destruct cs as [|c' cs]; [by eexists|].
  cbn [info_at fi_Mode mode_of]. rewrite bool_decide_eq_false_2, bool_decide_eq_true_2 by done. cbn [negb orb].
  rewrite ask_step, (readdir_node _ _ _ Hn' Hp), containsGoModule_tree.
  destruct (has_module es') eqn:Hm.
  { eexists. f_equal. cbn [valid_dir negb andb]. by rewrite Hm. }
  destruct (IH (xs ++ [c]) es' (S (S n)) Hn' Hp Hcs) as (n' & ->). exists n'.
  cbn [valid_dir negb andb orb]. by rewrite Hm.
Qed.

Lemma ancestors_tree cs : ∀ xs es dirs n, node_at xs t = Some (NDir es) → Forall plain xs → Forall plain cs →
  ∃ dirs' ok n', ancestors_loop E false (key_of xs) cs dirs n = Ret (inl (dirs', ok), n') ∧
    (ok = true ↔ ∃ es', valid_dir true (NDir es) cs = Some (NDir es') ∧ (cs = [] ∨ has_module es' = false)).
Proof.
  induction cs as [|c cs IH]; intros xs es dirs n Hn Hxs Hcs.
  { exists dirs, true, n. split; [done|]. split; [|done]. intros _. exists es. auto. }
  apply Forall_cons in Hcs as [Hc Hcs].
  assert (Forall plain (xs ++ [c])) as Hp by (apply Forall_app; split; [done|by constructor]).
  cbn [ancestors_loop valid_dir negb andb orb]. rewrite poll_step. destruct (isExcludedDirectory c).
  { eexists _, false, _. split; [done|]. naive_solver. }
  rewrite Join_child, ask_step, (stat_child _ _ _ _ Hn Hp) by done.
  destruct (entry c es) as [d|] eqn:He; [|eexists _, false, _; split; [done|naive_solver]].
  assert (node_at (xs ++ [c]) t = Some d) as Hn' by (rewrite node_at_app, Hn; simpl; by rewrite He).
  destruct d as [|es'| |];
    [eexists _, false, _; split; [done|by destruct cs; naive_solver]| |
     eexists _, false, _; split; [done|by destruct cs; naive_solver]..].
  cbn [info_at fi_Mode mode_of]. rewrite bool_decide_eq_false_2, bool_decide_eq_true_2 by done. cbn [negb orb].
  rewrite ask_step. cbn [tree_env Observe]. rewrite ask_step. change (mkEnv _ _ _ _ _ _ _ _ _ _) with E.
  rewrite (readdir_node _ _ _ Hn' Hp), containsGoModule_tree. destruct (has_module es') eqn:Hm.
  { eexists _, false, _. split; [done|]. destruct cs as [|c' cs]; cbn [valid_dir negb andb orb].
    - split; [done|]. intros (es'' & [= <-] & [?|?]); [done|congruence].
    - rewrite Hm. cbn [orb]. naive_solver. }
  destruct (IH (xs ++ [c]) es' (dirs ++ [key_of (xs ++ [c])]) (S (S (S (S n)))) Hn' Hp Hcs)
    as (dirs' & ok & n' & Hrun & Hok). exists dirs', ok, n'. split; [exact Hrun|]. rewrite Hok.
  destruct cs as [|c' cs]; cbn [valid_dir negb andb orb].
  - split; intros (es'' & [= <-] & _); eauto.
  - rewrite Hm. cbn [orb]. naive_solver.
Qed.

Lemma split_workspace_key xs : Forall plain xs → splitWorkspacePath (key_of xs) = xs.
Proof.
  intros Hp. unfold splitWorkspacePath. destruct xs as [|x xs]; [done|].
  rewrite !bool_decide_eq_false_2; [|by apply key_nonempty|by rewrite key_dot].
  cbn [orb]. rewrite key_Clean by done. by apply split_key.
Qed.

(** The last component of a valid directory is not excluded. *)
Lemma valid_dir_last xs x : ∀ sel d, valid_dir sel t (xs ++ [x]) = Some d → isExcludedDirectory x = false.
Proof.
  clear Hwf. generalize t. induction xs as [|y xs IH]; intros t' sel d Hv; destruct t' as [|es| |]; try done; simpl in Hv.
  - destruct (isExcludedDirectory x); [|done]. by rewrite orb_true_r in Hv.
  - destruct (_ || _); [done|]. destruct (entry y es); [|done]. by eapply IH.
Qed.

Lemma loadSubtree_tree fuel es relativePath xs n :
  t = NDir es → (height t ≤ fuel)%nat → normalizeWorkspacePath relativePath = Some (key_of xs) →
  Forall plain xs → ∃ content n',
  loadWorkspaceSubtree E fuel rootPath relativePath n = Ret (inl content, n') ∧
  holds_sources (λ zs c, ∃ ys, ys ≠ [] ∧ zs = xs ++ ys ∧ source_at true t zs = Some c) content.
Proof.
  intros Ht Hh Hkey Hxs. unfold loadWorkspaceSubtree. erewrite run_Ret_step by reflexivity. rewrite Hkey.
  assert (∃ n1, ((if bool_decide (key_of xs = ".") then mret (inl true)
     else try (validateWorkspaceDirectory E (key_of xs))) : run (bool + error)) (S n) =
     Ret (inl (inl (bool_decide (is_Some (valid_dir true t xs)))), n1)) as (n1 & Hrun).
  { case_bool_decide as Hd.
    - apply key_dot in Hd as ->; [|done]. rewrite Ht. by eexists.
    - unfold validateWorkspaceDirectory. rewrite split_workspace_key by done.
      destruct (validate_tree xs [] es (S n)) as (n1 & Hv); [by rewrite Ht|constructor|done|].
      exists n1. unfold try. change "." with (key_of []). rewrite Hv, Ht. done. }
  erewrite run_Ret_step by exact Hrun.
  destruct (decide (is_Some (valid_dir true t xs))) as [Hv|Hv];
    [rewrite (bool_decide_eq_true_2 _ Hv)|rewrite (bool_decide_eq_false_2 _ Hv)].
  - destruct Hv as [d Hv]. destruct (valid_dir_node _ _ _ _ Hv) as (Hn & es' & ->).
    destruct (loadTree_tree fuel xs es' n1 Hn Hh) as (content & n2 & Hload & Hc).
    { intros Hne. destruct (exists_last Hne) as (ys & y & ->). rewrite Base_key by done. by eapply valid_dir_last. }
    exists content, (S n2). split.
    + erewrite try_step by exact Hload. done.
    + intros k d. rewrite (Hc k d). split.
      * intros (zs & c & (ys & -> & Hs) & Hrest). exists (xs ++ ys), c. split; [|done]. exists ys.
        assert (ys ≠ []) as Hne by (by intros ->). split_and!; [done|done|].
        by rewrite source_at_app, Hv.
      * intros (zs & c & (ys & Hne & -> & Hs) & Hrest). exists (xs ++ ys), c. split; [|done]. exists ys.
        split; [done|]. by rewrite source_at_app, Hv in Hs.
  - eexists _, _. split; [reflexivity|]. intros k d. cbn [wc_documents]. rewrite lookup_empty. split; [done|].
    intros (zs & c & (ys & Hne & -> & Hs) & _). rewrite source_at_app in Hs by done.
    destruct (valid_dir true t xs); [|done]. by destruct Hv.
Qed.

Lemma read_tree key c n : node_at (components key) t = Some (NFile c) → ∃ n',
  readDiscoveredDocument E (mk_file key) (info_at key (NFile c)) n = Ret (inl (Some (newDocument (mk_file key) c)), n').
Proof.
  intros Hn. unfold readDiscoveredDocument. rewrite ask_step. cbn [tree_env Open f_RelativePath mk_file]. rewrite Hn.
  rewrite ask_step. cbn [tree_env Handle_Stat]. unfold tree_stat at 1. rewrite Hn.
  rewrite ask_step. cbn [tree_env Lstat]. unfold tree_stat at 1. rewrite Hn.
  unfold validSourceInfo, SameFile. cbn [info_at fi_Mode fi_identity mode_of].
  rewrite (bool_decide_eq_false_2 (ModeRegular = ModeSymlink)), !bool_decide_eq_true_2 by done. cbn [negb andb orb].
  rewrite ask_step. cbn [tree_env ReadAll]. unfold tree_read. rewrite Hn. by eexists.
Qed.

(** What the result of a discovery says of its path. *)
Definition outcome_of (r : discoveredDocument D) : option (Document D) :=
  if dd_found r then Some (dd_document r) else None.

Lemma document_tree es relativePath xs n :
  t = NDir es → normalizeDocumentPath relativePath = Some (key_of xs) → Forall plain xs → xs ≠ [] → ∃ r n',
  discoverWorkspaceDocument E rootPath relativePath false n = Ret (inl r, n') ∧
  outcome_of r = newDocument (mk_file (key_of xs)) <$> source_at true t xs.
Proof.
  intros Ht Hkey Hxs Hne. destruct (exists_last Hne) as (zs & x & ->). clear Hne.
  assert (∃ r n', discoverWorkspaceDocumentRoot E rootPath relativePath false (S n) = Ret (inl r, n') ∧
    outcome_of r = newDocument (mk_file (key_of (zs ++ [x]))) <$> source_at true t (zs ++ [x]))
    as (r & n' & Hrun & Hr).
  2: { exists r, (S n'). split; [|done]. unfold discoverWorkspaceDocument.
       erewrite run_Ret_step by reflexivity. erewrite try_step by exact Hrun. done. }
  unfold discoverWorkspaceDocumentRoot. rewrite poll_step, Hkey, Base_key by done.
  rewrite source_at_app by done. pose proof Hxs as [Hzs Hx]%Forall_app.
  destruct (isWorkspaceSource x) eqn:Hs; cbn [negb].
  2: { eexists _, _. split; [reflexivity|]. destruct (valid_dir true t zs) as [[|es'| |]|]; try done.
       rewrite source_at_entry. destruct (_ && _); [done|]. destruct (entry x es') as [[]|]; try done; simpl.
       - by rewrite Hs.
       - by destruct (isExcludedDirectory x). }
  unfold validateDocumentAncestors. rewrite Dir_key, split_workspace_key by done.
  destruct (ancestors_tree zs [] es ["."] (S (S (S n)))) as (dirs & ok & n1 & Hanc & Hok);
    [by rewrite Ht|constructor|done|].
  erewrite run_Ret_step by (rewrite ask_step; erewrite run_Ret_step by reflexivity; exact Hanc). cbv beta iota.
  assert (∀ d, valid_dir true t zs = Some d → ok = false → source_at (true && bool_decide (zs = [])) d [x] = None) as Hno.
  { intros d Hv ->. destruct (valid_dir_node _ _ _ _ Hv) as (_ & es' & ->). rewrite source_at_entry.
    case_bool_decide; cbn [andb negb].
    - destruct Hok as [_ Hok]. discriminate Hok. exists es'. rewrite Ht in Hv. auto.
    - destruct (has_module es') eqn:Hm; [done|]. destruct Hok as [_ Hok]. discriminate Hok. exists es'. rewrite Ht in Hv. auto. }
  destruct ok; cbn [negb].
  2: { eexists _, _. split; [reflexivity|]. destruct (valid_dir true t zs) as [d|] eqn:Hv; [|done].
       by rewrite (Hno d). }
  destruct Hok as [(es' & Hv & Hm) _]; [done|]. rewrite <- Ht in Hv. rewrite Hv, source_at_entry.
  replace (negb (true && bool_decide (zs = [])) && has_module es') with false.
  2: { destruct Hm as [->| ->]; [done|]. by rewrite andb_false_r. }
  destruct (valid_dir_node _ _ _ _ Hv) as [Hn _]. rewrite ask_step, (stat_child _ _ _ _ Hn Hxs).
  destruct (entry x es') as [d|] eqn:He; [|by eexists _, _].
  destruct d as [c|es''| |]; [|eexists _, _; split; [reflexivity|]; simpl; by destruct (isExcludedDirectory x)|by eexists _, _..].
  unfold validSourceInfo. cbn [info_at fi_Mode mode_of].
  rewrite (bool_decide_eq_false_2 (ModeRegular = ModeSymlink)), bool_decide_eq_true_2 by done. cbn [negb andb].
  erewrite run_Ret_step by (by apply file_at_key).
  destruct (read_tree (key_of (zs ++ [x])) c (S n1)) as (n2 & Hread).
  { rewrite key_components, node_at_app, Hn by done. simpl. by rewrite He. }
  erewrite run_Ret_step by exact Hread. eexists _, _. split; [reflexivity|]. simpl. by rewrite Hs.
Qed.

(** ** A document that was selected explicitly *)

(** The content of the regular [.fql] file at a path whose directories are not
    links, excluded or not. *)
Definition file_source_at (xs : list string) : option string :=
  match node_at xs t, last xs with
  | Some (NFile c), Some x => if isWorkspaceSource x then Some c else None
  | _, _ => None
  end.

Lemma ancestors_explicit cs : ∀ xs es dirs n, node_at xs t = Some (NDir es) → Forall plain xs → Forall plain cs →
  ∃ dirs' ok n', ancestors_loop E true (key_of xs) cs dirs n = Ret (inl (dirs', ok), n') ∧
    (ok = true ↔ ∃ es', node_at cs (NDir es) = Some (NDir es')).
Proof.
  induction cs as [|c cs IH]; intros xs es dirs n Hn Hxs Hcs; [exists dirs, true, n; split; [done|]; split; [by eexists|done]|].
  apply Forall_cons in Hcs as [Hc Hcs].
  assert (Forall plain (xs ++ [c])) as Hp by (apply Forall_app; split; [done|by constructor]).
  cbn [ancestors_loop negb andb node_at]. rewrite poll_step, Join_child, ask_step, (stat_child _ _ _ _ Hn Hp) by done.
  destruct (entry c es) as [d|] eqn:He; [|eexists _, false, _; split; [done|naive_solver]].
  assert (node_at (xs ++ [c]) t = Some d) as Hn' by (rewrite node_at_app, Hn; simpl; by rewrite He).
  destruct d as [|es'| |]; [eexists _, false, _; split; [done|by destruct cs; naive_solver]| |
     eexists _, false, _; split; [done|by destruct cs; naive_solver]..].
  cbn [info_at fi_Mode mode_of]. rewrite bool_decide_eq_false_2, bool_decide_eq_true_2 by done. cbn [negb orb].
  rewrite ask_step. cbn [tree_env Observe]. change (mkEnv _ _ _ _ _ _ _ _ _ _) with E.
  by apply (IH (xs ++ [c]) es').
Qed.

Lemma document_explicit es relativePath xs n :
  t = NDir es → normalizeDocumentPath relativePath = Some (key_of xs) → Forall plain xs → xs ≠ [] → ∃ r n',
  discoverWorkspaceDocument E rootPath relativePath true n = Ret (inl r, n') ∧
  outcome_of r = newDocument (mk_file (key_of xs)) <$> file_source_at xs.
Proof.
  intros Ht Hkey Hxs Hne. destruct (exists_last Hne) as (zs & x & ->). clear Hne.
  assert (∃ r n', discoverWorkspaceDocumentRoot E rootPath relativePath true (S n) = Ret (inl r, n') ∧
    outcome_of r = newDocument (mk_file (key_of (zs ++ [x]))) <$> file_source_at (zs ++ [x])) as (r & n' & Hrun & Hr).
  2: { exists r, (S n'). split; [|done]. unfold discoverWorkspaceDocument.
       erewrite run_Ret_step by reflexivity. erewrite try_step by exact Hrun. done. }
  unfold discoverWorkspaceDocumentRoot, file_source_at. rewrite poll_step, Hkey, Base_key, last_snoc by done.
  pose proof Hxs as [Hzs Hx]%Forall_app. destruct (isWorkspaceSource x) eqn:Hs; cbn [negb].
  2: { eexists _, _. split; [reflexivity|]. by destruct (node_at (zs ++ [x]) t) as [[]|]. }
  unfold validateDocumentAncestors. rewrite Dir_key, split_workspace_key by done.
  destruct (ancestors_explicit zs [] es ["."] (S (S (S n)))) as (dirs & ok & n1 & Hanc & Hok); [by rewrite Ht|constructor|done|].
  erewrite run_Ret_step by (rewrite ask_step; erewrite run_Ret_step by reflexivity; exact Hanc). cbv beta iota.
  rewrite node_at_app. rewrite <- Ht in Hok. destruct ok; cbn [negb].
  2: { eexists _, _. split; [reflexivity|]. destruct (node_at zs t) as [[|es'| |]|]; try done. destruct Hok as [_ Hok]. discriminate Hok. by eexists. }
  destruct Hok as [(es' & Hn) _]; [done|]. rewrite Hn, ask_step, (stat_child _ _ _ _ Hn Hxs). cbn [node_at].
  destruct (entry x es') as [d|] eqn:He; [|by eexists _, _]. cbn [node_at].
  destruct d as [c|es''| |]; [|by eexists _, _..].
  unfold validSourceInfo. cbn [info_at fi_Mode mode_of].
  rewrite (bool_decide_eq_false_2 (ModeRegular = ModeSymlink)), bool_decide_eq_true_2 by done. cbn [negb andb].
  erewrite run_Ret_step by (by apply file_at_key).
  destruct (read_tree (key_of (zs ++ [x])) c (S n1)) as (n2 & Hread).
  { rewrite key_components, node_at_app, Hn by done. simpl. by rewrite He. }
  erewrite run_Ret_step by exact Hread. by eexists _, _.
Qed.

(** A document the load retains can be selected explicitly, with the same text. *)
Lemma source_at_explicit t' xs : ∀ sel c, source_at sel t' xs = Some c →
  node_at xs t' = Some (NFile c) ∧ ∃ x, last xs = Some x ∧ isWorkspaceSource x = true.
Proof.
  intros sel c Hs. split; [by eapply source_at_node|]. revert t' sel c Hs.
  induction xs as [|x xs IH]; intros t' sel c Hs; [by destruct t'|]. destruct t' as [|es'| |]; try done. rewrite source_at_entry in Hs.
  destruct (_ && _); [done|]. destruct (entry x es') as [d|]; [|done]. unfold entry_source in Hs. destruct xs as [|y ys].
  - exists x. split; [done|]. destruct d as [|es''| |]; simpl in Hs; try done; [by destruct (isWorkspaceSource x)|by destruct (isExcludedDirectory x)].
  - rewrite last_cons_cons. destruct d as [|es''| |]; try done. destruct (isExcludedDirectory x); [done|]. by eapply IH.
Qed.

End tree.

(** ** Properties of discovery *)

(** C14. Discovery is exact and agrees with itself.  On a file tree that does not
    change, with distinct file names in each directory and every call answered,
    below a rooted path, loading the workspace terminates (fuel for the
    height of the tree is enough) and retains exactly the regular [.fql] files whose
    directories are neither excluded, nor links, nor (the root apart) Go modules.
    Looking up one document without selecting it, as the watcher does, finds it
    exactly when the load retains it, and yields the same document.  Selecting it
    explicitly, as [RefreshDocument] does, bypasses the exclusions and nothing
    else: it finds the document exactly when a regular [.fql] file is at its path
    below directories that are not links, and a document the load retains is the
    one selected. *)
Theorem discovery_exact {D : Type} {host : Host D} (es : list (string * node)) (root relativePath key : string)
    (fuel n : nat) :
  rooted root = true → wf_node (NDir es) → (height (NDir es) ≤ fuel)%nat →
  normalizeDocumentPath relativePath = Some key →
  ∃ content n1 r n2 selected n3,
    loadWorkspace (tree_env (NDir es)) fuel root n = Ret (inl content, n1) ∧
    wc_documents content !! key =
      newDocument (mk_file root key) <$> source_at true (NDir es) (components key) ∧
    discoverWorkspaceDocument (tree_env (NDir es)) root relativePath false n = Ret (inl r, n2) ∧
    outcome_of r = wc_documents content !! key ∧
    discoverWorkspaceDocument (tree_env (NDir es)) root relativePath true n = Ret (inl selected, n3) ∧
    outcome_of selected = newDocument (mk_file root key) <$> file_source_at (NDir es) (components key) ∧
    (∀ d, wc_documents content !! key = Some d → outcome_of selected = Some d).
Proof.
  intros Hr Hwf Hh Hkey.
  destruct (loadWorkspace_tree (NDir es) root Hr Hwf fuel es n eq_refl Hh) as (content & n1 & Hload & Hc).
  assert (∃ xs, key = key_of xs ∧ Forall plain xs ∧ xs ≠ []) as (xs & -> & Hxs & Hne).
  { unfold normalizeDocumentPath in Hkey. destruct (normalizeWorkspacePath relativePath) as [k|] eqn:Hk; [|done].
    case_bool_decide as Hd; [done|]. inv Hkey. destruct (normalized_key _ _ Hk) as (xs & -> & Hxs).
    exists xs. split_and!; [done|done|]. by intros ->. }
  destruct (document_tree (NDir es) root Hr es relativePath xs n eq_refl Hkey Hxs Hne) as (r & n2 & Hrun & Hres).
  assert (wc_documents content !! key_of xs =
          newDocument (mk_file root (key_of xs)) <$> source_at true (NDir es) xs) as Heq.
  { apply option_eq. intros d. rewrite (Hc (key_of xs) d). split.
    - intros (ys & c & Hs & Hk & ->). apply key_inj in Hk as ->; [by rewrite Hs|done|].
      by eapply source_at_plain.
    - intros Hd. destruct (source_at true (NDir es) xs) as [c|] eqn:Hs; [|done]. simpl in Hd. inv Hd.
      by exists xs, c. }
  destruct (document_explicit (NDir es) root Hr es relativePath xs n eq_refl Hkey Hxs Hne) as (sel & n3 & Hrun' & Hres').
  exists content, n1, r, n2, sel, n3. rewrite key_components by done. rewrite Heq, Hres'. split_and!; [done..|]. intros d Hd.
  destruct (source_at true (NDir es) xs) as [c|] eqn:Hs; [|done]. unfold file_source_at.
  by destruct (source_at_explicit _ _ _ _ Hs) as [-> (x & -> & ->)].
Qed.

(** Refreshing a directory is a restricted reload: on a file tree that does not
    change, loading the subtree of any path that is not itself a source
    terminates and retains exactly the documents that a load of the whole
    workspace retains in that subtree. *)
Lemma subtree_is_restriction {D : Type} {host : Host D} (es : list (string * node))
    (root relativePath key : string) (fuel n : nat) :
  rooted root = true → wf_node (NDir es) → (height (NDir es) ≤ fuel)%nat →
  normalizeWorkspacePath relativePath = Some key →
  ∃ content n1 subtree n2,
    loadWorkspace (tree_env (NDir es)) fuel root n = Ret (inl content, n1) ∧
    loadWorkspaceSubtree (tree_env (NDir es)) fuel root relativePath n = Ret (inl subtree, n2) ∧
    (wc_documents content !! key = None →
     ∀ k, wc_documents subtree !! k =
            if workspacePathInSubtree k key then wc_documents content !! k else None).
Proof.
  intros Hr Hwf Hh Hkey. destruct (normalized_key _ _ Hkey) as (xs & -> & Hxs).
  destruct (loadWorkspace_tree (NDir es) root Hr Hwf fuel es n eq_refl Hh) as (content & n1 & Hload & Hc).
  destruct (loadSubtree_tree (NDir es) root Hr Hwf fuel es relativePath xs n eq_refl Hh Hkey Hxs)
    as (subtree & n2 & Hsub & Hs).
  exists content, n1, subtree, n2. split_and!; [done|done|]. intros Hnone k. apply option_eq. intros d.
  rewrite (Hs k d). split.
  - intros (zs & c & (ys & Hne & -> & Hsrc) & -> & ->).
    destruct (source_at_plain _ _ _ _ Hwf Hsrc) as [_ Hp].
    rewrite (proj2 (in_subtree_key (xs ++ ys) xs Hp Hxs)) by (by exists ys).
    apply Hc. by exists (xs ++ ys), c.
  - destruct (workspacePathInSubtree k (key_of xs)) eqn:Hin; [|done].
    intros (zs & c & Hsrc & -> & ->)%Hc. destruct (source_at_plain _ _ _ _ Hwf Hsrc) as [_ Hp].
    apply in_subtree_key in Hin as [ys ->]; [|done|done]. exists (xs ++ ys), c. split; [|done]. exists ys.
    split_and!; [|done|done]. intros ->. rewrite app_nil_r in Hsrc.
    assert (wc_documents content !! key_of xs = Some (newDocument (mk_file root (key_of xs)) c)) as Hd.
    { apply Hc. by exists xs, c. }
    congruence.
Qed.

(** A host whose parser reports nothing, and a small project. *)
Definition sample_host : Host string := mkHost string (inl "/") id (λ _ _, inl []) (λ p _ _ _, p).

Definition sample_tree : list (string * node) :=
  [("go.mod", NFile "module x"); ("main.fql", NFile "RETURN 1");
   ("lib", NDir [("a.fql", NFile "RETURN 2"); ("notes.txt", NFile "n"); ("link.fql", NSymlink)]);
   ("vendor", NDir [("v.fql", NFile "RETURN 3")]);
   ("other", NDir [("go.mod", NFile "module y"); ("o.fql", NFile "RETURN 4")])].

Ltac solve_wf_tree :=
  repeat first
    [ apply wf_file | apply wf_symlink | apply wf_other | apply wf_dir
    | apply NoDup_nil_2 | apply Forall_nil_2 | apply Forall_cons_2 | apply NoDup_cons_2
    | progress cbn [map fst snd] | (unfold plain; split_and!; [discriminate..|reflexivity])
    | (rewrite !not_elem_of_cons; split_and!; [discriminate..|apply not_elem_of_nil])
    | apply not_elem_of_nil ].

Lemma sample_tree_wf : wf_node (NDir sample_tree).
Proof. unfold sample_tree. solve_wf_tree. Qed.

Lemma discovery_exact_witness :
  ∃ r n selected n', discoverWorkspaceDocument (host:=sample_host) (tree_env (NDir sample_tree)) "/work" "lib/../vendor/v.fql" false 0
           = Ret (inl r, n) ∧ outcome_of r = None ∧
    discoverWorkspaceDocument (host:=sample_host) (tree_env (NDir sample_tree)) "/work" "lib/../vendor/v.fql" true 0
           = Ret (inl selected, n') ∧ doc_content <$> outcome_of selected = Some "RETURN 3".
Proof.
  destruct (discovery_exact (host:=sample_host) sample_tree "/work" "lib/../vendor/v.fql" "vendor/v.fql" 3 0)
    as (content & n1 & r & n2 & selected & n3 & _ & Hs & Hr & Heq & Hsel & Hout & _).
  - reflexivity.
  - apply sample_tree_wf.
  - vm_compute. repeat constructor.
  - vm_compute. reflexivity.
  - exists r, n2, selected, n3. rewrite Heq, Hs, Hout. split; [exact Hr|]. split; [by vm_compute|]. split; [exact Hsel|]. by vm_compute.
Defined.
