(* ===== verification/DiscoveryFacts.v ===== *)
(** * Discovery on a file system that may change

    What the walk and the loads of [Discovery] guarantee whatever the file
    system and the context answer, as postconditions of their runs.  The only
    assumption is on [fs.ReadDir]: the names of one listing are distinct file
    names. *)

From S2P Require Import Prelude Paths Source Errors Uri Discovery.

(** ** Postconditions *)

(** Every result of the run satisfies [P]; errors and exhausted fuel are
    allowed. *)
Definition ensures {A} (m : run A) (P : A → Prop) : Prop := ∀ n a n', m n = Ret (inl a, n') → P a.

Lemma ensures_ret {A} (a : A) (P : A → Prop) : P a → ensures (mret a) P.
Proof. intros HP n b n' Hr. by inv Hr. Qed.

Lemma ensures_fail {A} err (P : A → Prop) : ensures (fail err) P.
Proof. intros n a n' Hr. by inv Hr. Qed.

Lemma ensures_ask {A} (f : nat → A) (P : A → Prop) : (∀ n, P (f n)) → ensures (ask f) P.
Proof. intros HP n a n' Hr. inv Hr. apply HP. Qed.

Lemma ensures_bind {A B} (m : run A) (f : A → run B) P Q :
  ensures m P → (∀ a, P a → ensures (f a) Q) → ensures (m ≫= f) Q.
Proof. intros Hm Hf n b n' (a & j & Ha & Hb)%run_bind_inv. eapply Hf; [by eapply Hm|exact Hb]. Qed.

Lemma ensures_then {A B} (m : run A) (f : A → run B) Q : (∀ a, ensures (f a) Q) → ensures (m ≫= f) Q.
Proof. intros Hf. apply (ensures_bind m f (λ _, True)); [done|]. intros a _. apply Hf. Qed.

Lemma ensures_try {A} (m : run A) P : ensures m P → ensures (try m) (λ r, match r with inl a => P a | inr _ => True end).
Proof.
  intros Hm n r n' Hr. unfold try in Hr. destruct (m n) as [[r' j]| |] eqn:E; simpl in Hr; inv Hr.
  destruct r as [a|]; [|done]. by eapply Hm.
Qed.

Lemma ensures_weaken {A} (m : run A) (P Q : A → Prop) : ensures m P → (∀ a, P a → Q a) → ensures m Q.
Proof. intros Hm HPQ n a n' Hr. eapply HPQ, Hm, Hr. Qed.

(** Runs through the calls and the case distinctions of a body. *)
Ltac ensures_step :=
  first
    [ apply ensures_fail
    | match goal with
      | |- ensures (ask _ ≫= _) _ => apply ensures_then; intros ?
      | |- ensures (poll _ ≫= _) _ => apply ensures_then; intros ?
      | |- ensures (workspacePathMissing _ _ _ ≫= _) _ => apply ensures_then; intros ?
      | |- ensures (if ?b then _ else _) _ => destruct b eqn:?
      | |- ensures (match ?x with _ => _ end) _ => destruct x eqn:?
      end ].

Section facts.
Context {D : Type} {host : Host D} (E : env).

(** The documented behaviour of [fs.ReadDir]. *)
Definition names_ok : Prop := ∀ n p entries, ReadDir E n p = inl entries →
  NoDup (map de_Name entries) ∧ Forall plain (map de_Name entries).

Definition is_file (rootPath key : string) (f : File) : Prop :=
  f_RelativePath f = key ∧ f_Path f = Join [rootPath; key] ∧
  URIFromPath Getwd (Join [rootPath; key]) = inl (f_URI f).

Lemma is_file_unique rootPath key f g : is_file rootPath key f → is_file rootPath key g → f = g.
Proof. destruct f, g. unfold is_file. simpl. intros (-> & -> & H1) (-> & -> & H2). congruence. Qed.

Lemma file_at_ensures rootPath key : ensures (file_at rootPath key) (is_file rootPath key).
Proof.
  unfold file_at. destruct (URIFromPath Getwd (Join [rootPath; key])) as [uri|err] eqn:Hu; [|apply ensures_fail].
  apply ensures_ret. split_and!; [done|done|exact Hu].
Qed.

(** ** The walk *)

(** New files [fs], each below one of the [names] of the directory [xs]. *)
Definition below (rootPath : string) (xs names : list string) (fs : list File) : Prop :=
  NoDup (map f_RelativePath fs) ∧
  Forall (λ f, ∃ x ys, x ∈ names ∧ Forall plain (x :: ys) ∧ is_file rootPath (key_of (xs ++ x :: ys)) f) fs.

Definition adds (rootPath : string) (xs names : list string) (acc res : found) : Prop :=
  ∃ fs, res.1 = acc.1 ++ fs ∧ below rootPath xs names fs.

Lemma adds_refl rootPath xs names acc ds : adds rootPath xs names acc (acc.1, ds).
Proof. exists []. rewrite app_nil_r. split; [done|]. split; constructor. Qed.

Lemma below_cons rootPath xs x names fs gs : Forall plain xs → x ∉ names →
  below rootPath xs [x] fs → below rootPath xs names gs → below rootPath xs (x :: names) (fs ++ gs).
Proof.
  intros Hxs Hx [Hn1 Hf1] [Hn2 Hf2]. split.
  - rewrite map_app. apply NoDup_app. split_and!; [done| |done].
    intros k (f & -> & Hf)%list_elem_of_fmap (g & Heq & Hg)%list_elem_of_fmap.
    rewrite Forall_forall in Hf1, Hf2.
    destruct (Hf1 f Hf) as (y & ys & Hy & Hp & (Hk & _)). destruct (Hf2 g Hg) as (z & zs & Hz & Hq & (Hk' & _)).
    apply list_elem_of_singleton in Hy as ->. rewrite Hk, Hk' in Heq. apply key_inj in Heq.
    + apply app_inv_head in Heq. injection Heq as -> _. done.
    + by apply Forall_app.
    + by apply Forall_app.
  - apply Forall_app. split.
    + eapply Forall_impl; [exact Hf1|]. intros f (y & ys & Hy & Hrest). exists y, ys. split; [set_solver|done].
    + eapply Forall_impl; [exact Hf2|]. intros f (y & ys & Hy & Hrest). exists y, ys. split; [set_solver|done].
Qed.

(** The files below a child are below the child's name. *)
Lemma below_child rootPath xs x names fs : plain x →
  below rootPath (xs ++ [x]) names fs → below rootPath xs [x] fs.
Proof.
  intros Hx [Hn Hf]. split; [done|]. eapply Forall_impl; [exact Hf|].
  intros f (y & ys & _ & Hp & Hfile). exists x, (y :: ys). split; [set_solver|].
  split; [by constructor|]. by rewrite <- app_assoc in Hfile.
Qed.

Lemma walk_entry_ensures w rootPath xs entry acc :
  Forall plain xs → plain (de_Name entry) →
  (∀ acc, ensures (w (key_of (xs ++ [de_Name entry])) acc)
            (λ res, ∃ names, adds rootPath (xs ++ [de_Name entry]) names acc res)) →
  ensures (walk_entry w rootPath (key_of (xs ++ [de_Name entry])) entry acc)
    (adds rootPath xs [de_Name entry] acc).
Proof.
  intros Hxs Hx Hw. assert (adds rootPath xs [de_Name entry] acc acc) as Hsame.
  { destruct acc as [fs ds]. apply (adds_refl rootPath xs [de_Name entry] (fs, ds) ds). }
  unfold walk_entry. repeat (first [by apply ensures_ret|ensures_step]).
  - eapply ensures_weaken; [apply Hw|]. intros res (names & fs & Heq & Hb). exists fs. split; [done|].
    by eapply below_child.
  - assert (Forall plain (xs ++ [de_Name entry])) as Hp by (apply Forall_app; split; [done|by constructor]).
    rewrite key_Clean by done. eapply ensures_bind; [apply file_at_ensures|]. intros file Hf. apply ensures_ret.
    exists [file]. split; [done|]. split; simpl; [apply NoDup_singleton|]. constructor; [|constructor].
    exists (de_Name entry), []. split; [set_solver|]. split; [by constructor|done].
Qed.

Lemma walk_entries_ensures w rootPath xs entries :
  Forall plain xs → NoDup (map de_Name entries) → Forall plain (map de_Name entries) →
  (∀ x acc, plain x → ensures (w (key_of (xs ++ [x])) acc) (λ res, ∃ names, adds rootPath (xs ++ [x]) names acc res)) →
  ∀ acc, ensures (walk_entries E w rootPath (key_of xs) entries acc) (adds rootPath xs (map de_Name entries) acc).
Proof.
  intros Hxs. induction entries as [|entry entries IH]; intros Hnd Hp Hw acc.
  { apply ensures_ret. destruct acc as [fs ds]. apply (adds_refl rootPath xs [] (fs, ds) ds). }
  apply NoDup_cons in Hnd as [Hnin Hnd]. apply Forall_cons in Hp as [Hx Hp]. cbn [walk_entries map].
  ensures_step. rewrite Join_child by done. eapply ensures_bind.
  { apply walk_entry_ensures; [done|done|]. intros acc'. by apply Hw. }
  intros acc1 (fs & Heq & Hfs). eapply ensures_weaken; [by apply IH|].
  intros res (gs & Heq' & Hgs). exists (fs ++ gs). rewrite Heq', Heq, app_assoc. split; [done|].
  by apply below_cons.
Qed.

Context (Hnames : names_ok).

Lemma walk_ensures fuel rootPath : ∀ xs sel acc, Forall plain xs →
  ensures (walk E fuel rootPath (key_of xs) sel acc) (λ res, ∃ names, adds rootPath xs names acc res).
Proof.
  induction fuel as [|fuel IH]; intros xs sel acc Hxs; [by intros n a n' Hr|]. cbn [walk].
  assert (∀ ds, ∃ names, adds rootPath xs names acc (acc.1, ds)) as Hsame by (intros ds; exists []; apply adds_refl).
  assert (∃ names, adds rootPath xs names acc acc) as Hsame' by (destruct acc; apply Hsame).
  ensures_step. eapply (ensures_bind _ _ (λ r, match r with
    | inl entries => NoDup (map de_Name entries) ∧ Forall plain (map de_Name entries)
    | inr _ => True end)).
  { apply ensures_ask. intros n. destruct (ReadDir E n (key_of xs)) eqn:Hr; [by eapply Hnames|done]. }
  intros [entries|err] Hr; [destruct Hr as [Hnd Hp]|].
  - repeat (first [by apply ensures_ret|ensures_step]). eapply ensures_weaken.
    + apply walk_entries_ensures; try done. intros x acc' Hx. apply IH. apply Forall_app. split; [done|by constructor].
    + intros res Hadd. by exists (map de_Name entries).
  - apply ensures_then. intros missing. repeat (first [by apply ensures_ret|ensures_step]).
Qed.

(** Sorted files with distinct paths below the root. *)
Record files_ok (rootPath : string) (fs : list File) : Prop := {
  fo_sorted : StronglySorted file_le fs;
  fo_distinct : NoDup (map f_RelativePath fs);
  fo_file : ∀ f, f ∈ fs → is_file rootPath (f_RelativePath f) f
}.

#[local] Instance file_le_trans : Transitive file_le.
Proof. intros a b c. unfold file_le. apply transitivity. Qed.
#[local] Instance file_le_total : Total file_le.
Proof. intros a b. unfold file_le. apply (total String.le). Qed.

Lemma discoverFiles_ensures fuel rootPath xs : Forall plain xs →
  ensures (discoverFiles E fuel rootPath (key_of xs)) (λ res, files_ok rootPath res.1).
Proof.
  intros Hxs. unfold discoverFiles. rewrite key_Clean by done. ensures_step.
  { apply ensures_ret. split; simpl; [constructor..|]. intros f Hf. set_solver. }
  eapply ensures_bind; [apply ensures_try, (walk_ensures fuel rootPath xs); done|].
  intros [[fs ds]|err] Hr; [|apply ensures_fail]. apply ensures_ret. destruct Hr as (names & fs' & Heq & Hnd & Hall).
  simpl in Heq. subst fs'. cbn [fst]. split.
  - apply StronglySorted_merge_sort; apply _.
  - by rewrite (Permutation_map f_RelativePath (merge_sort_Permutation file_le fs)).
  - intros f. rewrite merge_sort_Permutation. intros Hf. rewrite Forall_forall in Hall.
    destruct (Hall f Hf) as (x & ys & _ & _ & Hfile). pose proof Hfile as [-> _]. done.
Qed.

(** ** Loads *)

(** A document as it was just read. *)
Definition document_ok (rootPath key : string) (d : Document D) : Prop :=
  is_file rootPath key (doc_file d) ∧ doc_revision d = 1%Z.

Lemma newDocument_file f text : doc_file (newDocument f text) = f ∧ doc_revision (newDocument f text) = 1%Z.
Proof. unfold newDocument. by destruct (parse _ _). Qed.

Record content_ok (rootPath : string) (content : workspaceContent D) : Prop := {
  ct_docs : ∀ k d, wc_documents content !! k = Some d → document_ok rootPath k d;
  ct_order : ∀ k, k ∈ wc_order content ↔ is_Some (wc_documents content !! k)
}.

(** Content whose index is the one a workspace keeps. *)
Record loaded_ok (rootPath : string) (content : workspaceContent D) : Prop := {
  lo_content : content_ok rootPath content;
  lo_distinct : NoDup (wc_order content);
  lo_sorted : Sorted String.le (wc_order content);
  lo_files : wc_order content = map f_RelativePath (wc_files content) ∧
             ∀ f, f ∈ wc_files content → is_file rootPath (f_RelativePath f) f
}.

Lemma content_insert rootPath content key d ds : content_ok rootPath content → document_ok rootPath key d →
  content_ok rootPath (mkContent D (wc_files content) (<[key:=d]> (wc_documents content)) (wc_order content ++ [key]) ds).
Proof.
  intros [Hd Ho] Hp. split; simpl.
  - intros k x [[<- <-]|[_ Hk]]%lookup_insert_Some; [done|by apply Hd].
  - intros k. rewrite elem_of_app, list_elem_of_singleton, Ho, lookup_insert_is_Some'. naive_solver.
Qed.

Lemma load_loop_ensures rootPath files : (∀ f, f ∈ files → is_file rootPath (f_RelativePath f) f) → ∀ content,
  content_ok rootPath content →
  ensures (load_loop E files content) (λ res, content_ok rootPath res ∧ wc_files res = wc_files content ∧
    wc_order res = wc_order content ++ map f_RelativePath files).
Proof.
  induction files as [|f files IH]; intros Hf content Hc; cbn [load_loop map].
  { apply ensures_ret. by rewrite app_nil_r. }
  ensures_step. ensures_step. apply (ensures_bind _ _ (document_ok rootPath (f_RelativePath f))).
  { assert (is_file rootPath (f_RelativePath f) f) as Hff by (apply Hf; set_solver).
    repeat ensures_step; apply ensures_ret; [|by split].
    split; [by rewrite (proj1 (newDocument_file f s))|apply newDocument_file]. }
  intros d Hd. eapply ensures_weaken; [apply IH|].
  - intros g Hg. apply Hf. set_solver.
  - by apply content_insert.
  - simpl. intros res (H1 & H2 & H3). split_and!; [done|done|]. by rewrite H3, <- app_assoc.
Qed.

Lemma empty_content rootPath : loaded_ok rootPath (mkContent D [] ∅ [] []).
Proof.
  split; simpl; [split; simpl|constructor|constructor|split; [done|set_solver]].
  - intros k d. by rewrite lookup_empty.
  - intros k. rewrite lookup_empty. split; [set_solver|]. by intros [? ?].
Qed.

Lemma loadTree_ensures fuel rootPath xs : Forall plain xs →
  ensures (loadWorkspaceTreeFS E fuel rootPath (key_of xs)) (loaded_ok rootPath).
Proof.
  intros Hxs. unfold loadWorkspaceTreeFS. eapply ensures_bind; [by apply discoverFiles_ensures|].
  intros [files ds] [Hs Hn Hf]. cbn [fst] in *. eapply ensures_weaken; [apply (load_loop_ensures rootPath); [done|]|].
  - split; simpl; [|split; [set_solver|]].
    + intros k d. by rewrite lookup_empty.
    + rewrite lookup_empty. by intros [? ?].
  - simpl. intros res (Hc & Hfs & Ho). split; [done|by rewrite Ho| |by rewrite Hfs, Ho].
    rewrite Ho. apply StronglySorted_Sorted. clear -Hs. induction Hs as [|f files Hs IH Hall]; [constructor|].
    simpl. constructor; [done|]. by apply Forall_map.
Qed.

Lemma closing_ensures {A} (r : A + error) P : match r with inl a => P a | inr _ => True end →
  ensures (closing_root E r) P.
Proof. intros HP. unfold closing_root. ensures_step. repeat ensures_step; by apply ensures_ret. Qed.

Lemma loadWorkspace_ensures fuel rootPath : ensures (loadWorkspace E fuel rootPath) (loaded_ok rootPath).
Proof.
  apply ensures_then. intros _. eapply ensures_bind; [apply ensures_try, (loadTree_ensures fuel rootPath []); constructor|].
  intros r Hr. by apply closing_ensures.
Qed.

Lemma loadSubtree_ensures fuel rootPath relativePath :
  ensures (loadWorkspaceSubtree E fuel rootPath relativePath) (loaded_ok rootPath).
Proof.
  apply ensures_then. intros _. destruct (normalizeWorkspacePath relativePath) as [key|] eqn:Hk.
  2: { ensures_step. apply ensures_ret, empty_content. }
  destruct (normalized_key _ _ Hk) as (xs & -> & Hxs).
  apply ensures_then. intros [[]|err].
  - eapply ensures_bind; [apply ensures_try, (loadTree_ensures fuel rootPath xs Hxs)|]. intros r Hr.
    apply (ensures_bind _ _ (λ r, match r with inl c => loaded_ok rootPath c | inr _ => True end)).
    + destruct r as [content|loadErr]; [by apply ensures_ret|].
      repeat ensures_step; apply ensures_ret; [done|apply empty_content|done].
    + intros r' Hr'. by apply closing_ensures.
  - apply closing_ensures, empty_content.
  - ensures_step. apply ensures_fail.
Qed.

(** ** One document *)

Lemma readDiscovered_ensures rootPath key f info : is_file rootPath key f →
  ensures (readDiscoveredDocument E f info)
    (λ r, match r with Some d => document_ok rootPath key d | None => True end).
Proof.
  intros Hf. unfold readDiscoveredDocument.
  assert (∀ err, document_ok rootPath key (newUnreadableDocument f err)) as Hun by (by split).
  assert (∀ text, document_ok rootPath key (newDocument f text)) as Hnew.
  { intros text. split; [by rewrite (proj1 (newDocument_file f text))|apply newDocument_file]. }
  repeat ensures_step; apply ensures_ret; auto.
Qed.

Lemma discoverDocument_ensures rootPath relativePath key explicit :
  normalizeDocumentPath relativePath = Some key →
  ensures (discoverWorkspaceDocument E rootPath relativePath explicit)
    (λ r, dd_found r = true → document_ok rootPath key (dd_document r)).
Proof.
  intros Hk. apply ensures_then. intros _. eapply ensures_bind.
  2: { intros r Hr. apply closing_ensures. exact Hr. }
  apply ensures_try. unfold discoverWorkspaceDocumentRoot. ensures_step. rewrite Hk. ensures_step; [by apply ensures_ret|].
  apply ensures_then. intros [dirs eligible]. ensures_step; [by apply ensures_ret|]. ensures_step. ensures_step.
  - ensures_step; [by apply ensures_ret|]. eapply ensures_bind; [apply file_at_ensures|]. intros file Hf.
    eapply ensures_bind; [by apply readDiscovered_ensures|]. intros [d|] Hd; by apply ensures_ret.
  - ensures_step. ensures_step; [by apply ensures_ret|apply ensures_fail].
Qed.

End facts.


(** A tree lists distinct names. *)
Lemma tree_names_ok t : wf_node t → names_ok (tree_env t).
Proof.
  intros Hwf n p entries Hr. cbn [tree_env ReadDir] in Hr.
  destruct (node_at (components p) t) as [[|es| |]|] eqn:Hn; try done. inv Hr.
  destruct (wf_node_at _ _ _ Hwf Hn) as (_ & Hw & _). unfold dir_entries. rewrite map_map. simpl.
  by inversion Hw.
Qed.

(** ** No run panics, and only a walk may run out of fuel *)

Definition settles {A} (blocking : bool) (m : run A) : Prop :=
  ∀ n, match m n with Ret _ => True | Panic _ => False | Block => blocking = true end.

Lemma settles_ret {A} b (a : A) : settles b (mret a).
Proof. done. Qed.
Lemma settles_fail {A} b err : settles b (fail (A:=A) err).
Proof. done. Qed.
Lemma settles_ask {A} b (f : nat → A) : settles b (ask f).
Proof. done. Qed.

Lemma settles_bind {A B} b (m : run A) (f : A → run B) :
  settles b m → (∀ a, settles b (f a)) → settles b (m ≫= f).
Proof.
  intros Hm Hf n. unfold mbind, run_bind. specialize (Hm n). destruct (m n) as [[[a|err] k]| |]; simpl; try done.
  apply Hf.
Qed.

Lemma settles_try {A} b (m : run A) : settles b m → settles b (try m).
Proof. intros Hm n. unfold try. specialize (Hm n). by destruct (m n) as [[r k]| |]. Qed.

Create HintDb settles.
#[export] Hint Resolve settles_ret settles_fail settles_ask settles_bind settles_try : settles.

(** Follows the binds and the case distinctions of a body. *)
Ltac settle :=
  repeat first
    [ solve [auto with settles nocore]
    | apply settles_bind; [|intros ?]
    | apply settles_try
    | match goal with
      | |- settles _ (if ?b then _ else _) => destruct b
      | |- settles _ (match ?x with _ => _ end) => destruct x
      end ].

Section settling.
Context {D : Type} {host : Host D} (E : env).

Lemma settles_poll b : settles b (poll E).
Proof. unfold poll, check. settle. Qed.
Lemma settles_missing b p err : settles b (workspacePathMissing E p err).
Proof. unfold workspacePathMissing. settle. Qed.
Lemma settles_file b root key : settles b (file_at root key).
Proof. unfold file_at. settle. Qed.
Lemma settles_open b : settles b (open_root E).
Proof. unfold open_root. settle. Qed.
Lemma settles_close {A} b (r : A + error) : settles b (closing_root E r).
Proof. unfold closing_root. settle. Qed.
#[local] Hint Resolve settles_poll settles_missing settles_file settles_open settles_close : settles.

Lemma settles_walk fuel root : ∀ p sel acc, settles true (walk E fuel root p sel acc).
Proof.
  induction fuel as [|fuel IH]; intros p sel acc; [done|]. cbn [walk].
  assert (∀ entries acc, settles true (walk_entries E (λ child, walk E fuel root child false) root p entries acc)) as He.
  { intros entries. induction entries as [|e entries IHe]; intros acc'; cbn [walk_entries]; unfold walk_entry; settle. }
  settle.
Qed.

Lemma settles_load_loop files : ∀ content : workspaceContent D, settles true (load_loop E files content).
Proof. induction files as [|f files IH]; intros content; cbn [load_loop]; settle. Qed.

Lemma settles_loadTree fuel root start : settles true (loadWorkspaceTreeFS E fuel root start).
Proof.
  unfold loadWorkspaceTreeFS, discoverFiles. pose proof (settles_walk fuel root). pose proof settles_load_loop. settle.
Qed.

Lemma settles_validate b cs : ∀ p, settles b (validate_directory_loop E p cs).
Proof. induction cs as [|c cs IH]; intros p; cbn [validate_directory_loop]; settle. Qed.

Lemma settles_loadSubtree fuel root p : settles true (loadWorkspaceSubtree E fuel root p).
Proof.
  unfold loadWorkspaceSubtree, validateWorkspaceDirectory. pose proof (settles_loadTree fuel root).
  pose proof (settles_validate true). settle.
Qed.

Lemma settles_ancestors explicit cs : ∀ p dirs, settles false (ancestors_loop E explicit p cs dirs).
Proof. induction cs as [|c cs IH]; intros p dirs; cbn [ancestors_loop]; settle. Qed.

(** The discovery of one document always returns. *)
Lemma settles_document root p explicit : settles false (discoverWorkspaceDocument E root p explicit).
Proof.
  unfold discoverWorkspaceDocument, discoverWorkspaceDocumentRoot, validateDocumentAncestors,
    readDiscoveredDocument, check.
  pose proof (settles_ancestors explicit). settle.
Qed.

Lemma settles_weaken {A} (m : run A) : settles false m → settles true m.
Proof. intros Hm n. specialize (Hm n). by destruct (m n). Qed.
End settling.
