(* ===== verification/Workspace.v ===== *)
(** * Workspaces: retained documents and their refresh

    [internal/workspace]: [workspace.go], [document.go] and [refresh.go], the
    documents a workspace retains and how they are reconciled with the file
    system.  A body that holds [Workspace.mu] is one function; a mutation is a
    thread that holds the token of [mutationGate] between its sections, and the
    discovery it runs in between is that of [Discovery], in an environment of
    its own. *)

From S2P Require Import Prelude Paths Source Errors Uri Discovery DiscoveryFacts.

Inductive State := StateOpening | StateReady | StateFailed | StateClosing | StateClosed.

Global Instance ws_State_eq_dec : EqDecision State.
Proof. solve_decision. Defined.

Section workspace.
Context {D : Type} `{EqDecision D} {host : Host D}.

(** ** Documents *)

Definition withRevision (revision : Z) (d : Document D) : Document D :=
  mkDocument D (doc_file d) revision (doc_generation d) (doc_loaded d) (doc_content d) (doc_syntax d)
    (doc_diagnostics d).

Definition withGeneration (generation : Z) (d : Document D) : Document D :=
  mkDocument D (doc_file d) (doc_revision d) generation (doc_loaded d) (doc_content d) (doc_syntax d)
    (doc_diagnostics d).

Definition sameState (d other : Document D) : bool :=
  bool_decide (doc_file d = doc_file other) && bool_decide (doc_loaded d = doc_loaded other) &&
  bool_decide (doc_content d = doc_content other) && bool_decide (doc_diagnostics d = doc_diagnostics other).

(** ** The workspace *)

(** The maps are [None] when they are nil; [ws_gate] is whether the token of
    [mutationGate] is in the channel. *)
Record Workspace := mkWorkspace {
  ws_id : string;
  ws_root : string;
  ws_state : State;
  ws_failure : option error;
  ws_files : list File;
  ws_documents : option (gmap string (Document D));
  ws_explicitPaths : gset string;
  ws_order : list string;
  ws_nextGeneration : Z;
  ws_closing : bool;
  ws_gate : bool
}.

Definition newWorkspace (id root : string) : Workspace :=
  mkWorkspace id root StateOpening None [] None ∅ [] 0 false true.

Definition Workspace_State (w : Workspace) : State :=
  if ws_closing w && bool_decide (ws_state w ≠ StateClosed) && bool_decide (ws_state w ≠ StateFailed)
  then StateClosing else ws_state w.

Definition set_documents (docs : gmap string (Document D)) (generation : Z) (w : Workspace) : Workspace :=
  mkWorkspace (ws_id w) (ws_root w) (ws_state w) (ws_failure w) (ws_files w) (Some docs)
    (ws_explicitPaths w) (ws_order w) generation (ws_closing w) (ws_gate w).

Definition set_gate (b : bool) (w : Workspace) : Workspace :=
  mkWorkspace (ws_id w) (ws_root w) (ws_state w) (ws_failure w) (ws_files w) (ws_documents w)
    (ws_explicitPaths w) (ws_order w) (ws_nextGeneration w) (ws_closing w) b.

Definition add_explicit (key : string) (w : Workspace) : Workspace :=
  mkWorkspace (ws_id w) (ws_root w) (ws_state w) (ws_failure w) (ws_files w) (ws_documents w)
    ({[key]} ∪ ws_explicitPaths w) (ws_order w) (ws_nextGeneration w) (ws_closing w) (ws_gate w).

(** The documents of a map that is not nil. *)
Definition docs_of (w : Workspace) : gmap string (Document D) := default ∅ (ws_documents w).

(** Reading [documents[key]] of a key that is listed. *)
Definition files_of (docs : gmap string (Document D)) (order : list string) : list File :=
  omap (λ key, doc_file <$> docs !! key) order.

Definition Documents (w : Workspace) : list (Document D) :=
  omap (λ key, docs_of w !! key) (ws_order w).

Definition lookupDocument (relativePath : string) (w : Workspace) : option (Document D) :=
  match normalizeDocumentPath relativePath with
  | Some key => docs_of w !! key
  | None => None
  end.

(** The loop of [setReady]; a listed key without a document reads as the zero
    [Document]. *)
Fixpoint ready_loop (order : list string) (docs : gmap string (Document D)) (generation : Z) :
    gmap string (Document D) * Z :=
  match order with
  | [] => (docs, generation)
  | key :: order =>
      let document := default zeroDocument (docs !! key) in
      let generation := u64 (generation + 1) in
      ready_loop order (<[key:=withGeneration generation document]> docs) generation
  end.

Definition setReady (content : workspaceContent D) (w : Workspace) : Workspace :=
  let '(docs, generation) := ready_loop (wc_order content) (wc_documents content) (ws_nextGeneration w) in
  mkWorkspace (ws_id w) (ws_root w) StateReady None (wc_files content) (Some docs)
    (ws_explicitPaths w) (wc_order content) generation (ws_closing w) (ws_gate w).

Definition setFailed (err : error) (w : Workspace) : Workspace :=
  mkWorkspace (ws_id w) (ws_root w) StateFailed (Some err) [] None ∅ [] (ws_nextGeneration w)
    (ws_closing w) (ws_gate w).

Definition markClosing (w : Workspace) : Workspace :=
  mkWorkspace (ws_id w) (ws_root w) (ws_state w) (ws_failure w) (ws_files w) (ws_documents w)
    (ws_explicitPaths w) (ws_order w) (ws_nextGeneration w) true (ws_gate w).

Definition Workspace_close (w : Workspace) : Workspace :=
  if bool_decide (ws_state w = StateClosed) then w
  else mkWorkspace (ws_id w) (ws_root w) StateClosed None [] None ∅ [] 0 (ws_closing w) (ws_gate w).

Definition rebuildIndexesLocked (w : Workspace) : Workspace :=
  let order := merge_sort String.le (map fst (map_to_list (docs_of w))) in
  mkWorkspace (ws_id w) (ws_root w) (ws_state w) (ws_failure w) (files_of (docs_of w) order)
    (ws_documents w) (ws_explicitPaths w) order (ws_nextGeneration w) (ws_closing w) (ws_gate w).

(** Storing a changed or new document; a write to a nil map panics. *)
Definition store (key : string) (next : Document D) (w : Workspace) : outcome Workspace :=
  match ws_documents w with
  | None => Panic "assignment to entry in nil map"
  | Some docs =>
      let next := match docs !! key with
                  | Some current => withRevision (u64 (doc_revision current + 1)) next
                  | None => next
                  end in
      let generation := u64 (ws_nextGeneration w + 1) in
      Ret (set_documents (<[key:=withGeneration generation next]> docs) generation w)
  end.

(** ** Reconciliation *)

(** [beginMutation] before it waits for the token. *)
Definition beginMutation_enter (ctxErr : option error) (w : Workspace) : option error :=
  match ctxErr with
  | Some err => Some err
  | None => if ws_closing w then Some (ESentinel WsErrClosed) else None
  end.

(** The receive from [mutationGate]. *)
Definition beginMutation_receive (w : Workspace) : outcome Workspace :=
  if ws_gate w then Ret (set_gate false w) else Block.

Definition finishMutation (w : Workspace) : outcome Workspace :=
  if ws_gate w then Block else Ret (set_gate true w).

(** The end of [beginMutation], with the token: [false] when the workspace was
    closed in the meantime, and the token is given back. *)
Definition beginMutation_recheck (w : Workspace) : outcome (bool * Workspace) :=
  if ws_closing w then w ← finishMutation w; Ret (false, w) else Ret (true, w).

(** The loop of [reconcileExplicitPaths]. *)
Fixpoint explicit_loop (E : env) (root : string) (keys : list string) (content : workspaceContent D) :
    run (workspaceContent D) :=
  match keys with
  | [] => mret content
  | key :: keys =>
      if bool_decide (is_Some (wc_documents content !! key)) then explicit_loop E root keys content
      else
        discovered ← discoverWorkspaceDocument E root key true;
        let directories := wc_directories content ++ dd_directories discovered in
        explicit_loop E root keys
          (if dd_found discovered
           then mkContent D (wc_files content) (<[key:=dd_document discovered]> (wc_documents content))
                  (wc_order content ++ [key]) directories
           else mkContent D (wc_files content) (wc_documents content) (wc_order content) directories)
  end.

Definition reconcileExplicitPaths (E : env) (root : string) (keys : list string)
    (content : workspaceContent D) : run (workspaceContent D) :=
  content ← explicit_loop E root keys content;
  _ ← poll E;
  mret (mkContent D (wc_files content) (wc_documents content) (merge_sort String.le (wc_order content))
          (wc_directories content)).

(** The locked section of [reconcileDocument], after the discovery. *)
Definition reconcileDocument_commit (ctxErr : option error) (key : string) (explicit : bool)
    (discovered : discoveredDocument D) (w : Workspace) :
    outcome ((option (Document D) + error) * Workspace) :=
  if ws_closing w || bool_decide (ws_state w ≠ StateReady) then Ret (inr (ESentinel WsErrClosed), w)
  else
    match ctxErr with
    | Some err => Ret (inr err, w)
    | None =>
        let current := docs_of w !! key in
        if negb (dd_found discovered) then
          match current with
          | Some _ => Ret (inl None, rebuildIndexesLocked (set_documents (delete key (docs_of w)) (ws_nextGeneration w) w))
          | None => Ret (inl None, w)
          end
        else
          let w := if explicit then add_explicit key w else w in
          let next := dd_document discovered in
          match current with
          | Some d =>
              if sameState d next then Ret (inl (Some d), w)
              else w' ← store key next w; Ret (inl (docs_of w' !! key), w')
          | None =>
              w' ← store key next w;
              Ret (inl (docs_of w' !! key), rebuildIndexesLocked w')
          end
    end.

(** The second loop of [applyContentLocked]; a listed key without a document
    reads as the zero [Document]. *)
Fixpoint apply_loop (order : list string) (content : gmap string (Document D)) (w : Workspace) (changed : bool) :
    outcome (Workspace * bool) :=
  match order with
  | [] => Ret (w, changed)
  | key :: order =>
      let next := default zeroDocument (content !! key) in
      match docs_of w !! key with
      | Some current =>
          if sameState current next then apply_loop order content w changed
          else w ← store key next w; apply_loop order content w changed
      | None => w ← store key next w; apply_loop order content w true
      end
  end.

(** The documents the first loop of [applyContentLocked] does not delete. *)
Definition retained (relativePath : string) (content : workspaceContent D) (kd : string * Document D) : bool :=
  negb (workspacePathInSubtree kd.1 relativePath) || bool_decide (is_Some (wc_documents content !! kd.1)).

Definition applyContentLocked (relativePath : string) (content : workspaceContent D) (w : Workspace) :
    outcome Workspace :=
  let docs := filter (λ kd, retained relativePath content kd = true) (docs_of w) in
  let removed := existsb (λ kd, negb (retained relativePath content kd)) (map_to_list (docs_of w)) in
  '(w, changed) ← apply_loop (wc_order content) (wc_documents content)
                    (set_documents docs (ws_nextGeneration w) w) removed;
  Ret (if (changed : bool) then rebuildIndexesLocked w else w).

Definition reconcileTree_commit (ctxErr : option error) (key : string) (content : workspaceContent D)
    (w : Workspace) : outcome (option error * Workspace) :=
  match ctxErr with
  | Some err => Ret (Some err, w)
  | None =>
      if ws_closing w || bool_decide (ws_state w ≠ StateReady) then Ret (Some (ESentinel WsErrClosed), w)
      else w ← applyContentLocked key content w; Ret (None, w)
  end.

(** The admitted paths below [key], as [reconcileTree] collects them. *)
Definition explicit_in_subtree (key : string) (w : Workspace) : list string :=
  merge_sort String.le (filter (λ p, workspacePathInSubtree p key = true) (elements (ws_explicitPaths w))).

(** What a refresh of one document reports. *)
Definition RefreshDocument_result (r : option (Document D) + error) : Document D + error :=
  match r with
  | inr err => inr err
  | inl None => inr (ESentinel WsErrDocumentNotFound)
  | inl (Some d) => inl d
  end.

(** ** Concurrent mutations *)

Inductive mutation :=
| MDocument (relativePath : string) (explicit : bool)   (* reconcileDocument *)
| MTree (relativePath : string).                        (* reconcileTree *)

Inductive thread :=
| TGate (m : mutation)                                  (* waits for the token *)
| TEntered (m : mutation)                               (* holds it *)
| TStarted (m : mutation)                               (* beginMutation returned *)
| TDocument (key : string) (explicit admitted : bool)   (* before the discovery *)
| TTree (key : string) (explicitPaths : list string)
| TFinish                                               (* the deferred finishMutation *)
| TDone.

Definition holds (t : thread) : bool := match t with TGate _ | TDone => false | _ => true end.

(** What the environment answers to a step: nothing, that the context is done,
    or the file system and the context for a discovery, with fuel for a walk. *)
Inductive answer :=
| Proceed
| CtxDone
| Discover (E : env) (fuel : nat).

Inductive action :=
| AMutate (ctxErr : option error) (m : mutation)
| AMarkClosing
| AClose
| AStep (i : nat) (a : answer).

Record world := mkWorld { wd_workspace : Workspace; wd_threads : list thread }.

Definition goto (i : nat) (t : thread) (ws : Workspace) (w : world) : world :=
  mkWorld ws (<[i:=t]> (wd_threads w)).

(** [reconcileDocument] from its discovery on. *)
Definition reconcileDocument_discover (E : env) (key : string) (explicit admitted : bool) (ws : Workspace) :
    outcome ((option (Document D) + error) * Workspace) :=
  '(discovered, n) ← discoverWorkspaceDocument E (ws_root ws) key (explicit || admitted) 0;
  match discovered with
  | inr err => Ret (inr err, ws)
  | inl discovered =>
      match ctx_Err E n with
      | Some err => Ret (inr err, ws)
      | None => reconcileDocument_commit (ctx_Err E (S n)) key explicit discovered ws
      end
  end.

(** The content [reconcileTree] loads: the subtree and the admitted paths below it. *)
Definition tree_load (E : env) (fuel : nat) (root key : string) (explicitPaths : list string) :
    run (workspaceContent D) :=
  content ← loadWorkspaceSubtree E fuel root key;
  reconcileExplicitPaths E root explicitPaths content.

(** [reconcileTree] from its load on. *)
Definition reconcileTree_load (E : env) (fuel : nat) (key : string) (explicitPaths : list string) (ws : Workspace) :
    outcome (option error * Workspace) :=
  '(content, n) ← tree_load E fuel (ws_root ws) key explicitPaths 0;
  match content with
  | inr err => Ret (Some err, ws)
  | inl content => reconcileTree_commit (ctx_Err E n) key content ws
  end.

Definition step_thread (i : nat) (t : thread) (a : answer) (w : world) : outcome world :=
  let ws := wd_workspace w in
  match t, a with
  | TGate m, Proceed => ws ← beginMutation_receive ws; Ret (goto i (TEntered m) ws w)
  | TGate _, CtxDone => Ret (goto i TDone ws w)
  | TEntered m, Proceed =>
      '(ok, ws) ← beginMutation_recheck ws;
      Ret (goto i (if (ok : bool) then TStarted m else TDone) ws w)
  | TStarted (MDocument relativePath explicit), Proceed =>
      Ret (goto i (match normalizeDocumentPath relativePath with
                   | Some key => TDocument key explicit (bool_decide (key ∈ ws_explicitPaths ws))
                   | None => TFinish
                   end) ws w)
  | TStarted (MTree relativePath), Proceed =>
      Ret (goto i (match normalizeWorkspacePath relativePath with
                   | Some key => TTree key (explicit_in_subtree key ws)
                   | None => TFinish
                   end) ws w)
  | TDocument key explicit admitted, Discover E _ =>
      '(_, ws) ← reconcileDocument_discover E key explicit admitted ws;
      Ret (goto i TFinish ws w)
  | TTree key explicitPaths, Discover E fuel =>
      '(_, ws) ← reconcileTree_load E fuel key explicitPaths ws;
      Ret (goto i TFinish ws w)
  | TFinish, Proceed => ws ← finishMutation ws; Ret (goto i TDone ws w)
  | _, _ => Block
  end.

Definition act (a : action) (w : world) : outcome world :=
  match a with
  | AMutate ctxErr m =>
      match beginMutation_enter ctxErr (wd_workspace w) with
      | Some _ => Ret w
      | None => Ret (mkWorld (wd_workspace w) (wd_threads w ++ [TGate m]))
      end
  | AMarkClosing => Ret (mkWorld (markClosing (wd_workspace w)) (wd_threads w))
  | AClose => Ret (mkWorld (Workspace_close (wd_workspace w)) (wd_threads w))
  | AStep i a =>
      match wd_threads w !! i with Some t => step_thread i t a w | None => Block end
  end.

Definition attempt (a : action) (w : world) : outcome world :=
  match act a w with
  | Ret w => Ret w
  | Panic m => Panic m
  | Block => Ret w
  end.

Fixpoint schedule (actions : list action) (w : world) : outcome world :=
  match actions with
  | [] => Ret w
  | a :: actions => w ← attempt a w; schedule actions w
  end.

(** A workspace that was opened with the loaded content. *)
Definition opened (id root : string) (content : workspaceContent D) : world :=
  mkWorld (setReady content (newWorkspace id root)) [].

(** The generations an action may give out: one for a document, one for every
    document a tree reconciliation loads. *)
Definition cost (a : action) (w : world) : Z :=
  match a with
  | AStep i (Discover E fuel) =>
      match wd_threads w !! i with
      | Some (TDocument _ _ _) => 1
      | Some (TTree key explicitPaths) =>
          match tree_load E fuel (ws_root (wd_workspace w)) key explicitPaths 0 with
          | Ret (inl content, _) => Z.of_nat (length (wc_order content))
          | _ => 0
          end
      | _ => 0
      end
  | _ => 0
  end.

Fixpoint demand (actions : list action) (w : world) : Z :=
  match actions with
  | [] => 0
  | a :: actions =>
      cost a w + match attempt a w with Ret w' => demand actions w' | _ => 0 end
  end.

(** ** Invariant *)

(** Documents are filed under their own path; generations are distinct, positive
    and were given out; a revision is counted by generations. *)
Record docs_ok (root : string) (docs : gmap string (Document D)) (next : Z) : Prop := {
  dk_file : ∀ k d, docs !! k = Some d → is_file root k (doc_file d);
  dk_generation : ∀ k d, docs !! k = Some d → (1 ≤ doc_generation d ≤ next)%Z;
  dk_revision : ∀ k d, docs !! k = Some d → (1 ≤ doc_revision d ≤ doc_generation d)%Z;
  dk_inj : ∀ k1 k2 d1 d2, docs !! k1 = Some d1 → docs !! k2 = Some d2 →
    doc_generation d1 = doc_generation d2 → k1 = k2
}.

(** The listing is the sorted keys, the files are those of the documents. *)
Record index_ok (docs : gmap string (Document D)) (order : list string) (files : list File) : Prop := {
  ix_sorted : Sorted String.le order;
  ix_keys : order ≡ₚ map fst (map_to_list docs);
  ix_files : files = files_of docs order
}.

(** The documents known later with a generation given out by now are the
    documents of now. *)
Definition later (w w' : Workspace) : Prop :=
  ws_documents w' = None ∨
  ((ws_nextGeneration w ≤ ws_nextGeneration w')%Z ∧ is_Some (ws_documents w) ∧
   ∀ k d, docs_of w' !! k = Some d → (doc_generation d ≤ ws_nextGeneration w)%Z → docs_of w !! k = Some d).

(** At most [n] generations were given out; admitted paths are normalised. *)
Record ws_ok (n : Z) (w : Workspace) : Prop := {
  wo_next : (0 ≤ ws_nextGeneration w ≤ n)%Z;
  wo_explicit : ∀ k, k ∈ ws_explicitPaths w → normalizeDocumentPath k = Some k;
  wo_ready : ws_state w = StateReady → ∃ docs, ws_documents w = Some docs ∧
    docs_ok (ws_root w) docs (ws_nextGeneration w) ∧ index_ok docs (ws_order w) (ws_files w);
  wo_other : ws_state w ≠ StateReady → ws_documents w = None ∧ ws_files w = []
}.

Definition thread_ok (t : thread) : Prop :=
  match t with
  | TDocument key _ _ => normalizeDocumentPath key = Some key
  | TTree _ keys => Forall (λ k, normalizeDocumentPath k = Some k) keys
  | _ => True
  end.

Record inv (n : Z) (w : world) : Prop := {
  in_ws : ws_ok n (wd_workspace w);
  in_gate : ((if ws_gate (wd_workspace w) then 1 else 0) + count holds (wd_threads w) = 1)%nat;
  in_threads : Forall thread_ok (wd_threads w)
}.

Lemma later_refl w : later w w.
Proof. destruct (ws_documents w) eqn:E; [right|by left]. split_and!; [lia|rewrite E; by eexists|done]. Qed.

Lemma later_trans w1 w2 w3 : later w1 w2 → later w2 w3 → later w1 w3.
Proof.
  intros H12 [H|(Hn & [docs Hd] & Hk)]; [by left|].
  destruct H12 as [H|(Hn' & Hs & Hk')]; [congruence|]. right. split_and!; [lia|done|].
  intros k d Hd3 Hle. apply Hk'; [|done]. apply Hk; [done|lia].
Qed.

(** ** Documents *)

(** Storing a document under its key. *)
Lemma store_ok w docs key next :
  ws_documents w = Some docs → docs_ok (ws_root w) docs (ws_nextGeneration w) →
  (0 ≤ ws_nextGeneration w)%Z → (ws_nextGeneration w + 1 < 2 ^ 64)%Z →
  document_ok (ws_root w) key next →
  ∃ d, let docs' := <[key:=d]> docs in
    store key next w = Ret (set_documents docs' (ws_nextGeneration w + 1) w) ∧
    docs_ok (ws_root w) docs' (ws_nextGeneration w + 1) ∧
    later w (set_documents docs' (ws_nextGeneration w + 1) w).
Proof.
  intros Hd [KF KG KR KI] Hn Hb [Hf Hr]. unfold store. rewrite Hd.
  rewrite (u64_small (ws_nextGeneration w + 1)) by lia. set (gen := (ws_nextGeneration w + 1)%Z).
  set (d0 := match docs !! key with Some _ => _ | None => _ end).
  assert (is_file (ws_root w) key (doc_file d0) ∧ (1 ≤ doc_revision d0 ≤ gen)%Z) as [Hf0 Hr0].
  { subst d0. destruct (docs !! key) as [c|] eqn:E; [|rewrite Hr; split; [done|lia]].
    pose proof (KG _ _ E). pose proof (KR _ _ E). simpl. split; [done|]. rewrite u64_small; lia. }
  exists (withGeneration gen d0). cbv zeta. split; [done|]. split.
  - split.
    + intros k d [[<- <-]|[_ Hk]]%lookup_insert_Some; [done|by apply KF].
    + intros k d [[<- <-]|[_ Hk]]%lookup_insert_Some; [simpl; lia|]. apply KG in Hk. lia.
    + intros k d [[<- <-]|[_ Hk]]%lookup_insert_Some; [done|]. by apply KR in Hk.
    + intros k1 k2 d1 d2 [[<- <-]|[_ H1]]%lookup_insert_Some [[<- <-]|[_ H2]]%lookup_insert_Some; simpl;
        [done| | |by apply (KI k1 k2)]; [apply KG in H2|apply KG in H1]; lia.
  - right. split_and!; [simpl; lia|by rewrite Hd|]. unfold docs_of. rewrite Hd. simpl.
    intros k d [[<- <-]|[_ Hk]]%lookup_insert_Some; [simpl; lia|done].
Qed.

Lemma rebuild_index w docs : ws_documents w = Some docs →
  index_ok docs (ws_order (rebuildIndexesLocked w)) (ws_files (rebuildIndexesLocked w)).
Proof.
  intros Hd. unfold rebuildIndexesLocked, docs_of. rewrite Hd. simpl. split.
  - apply (Sorted_merge_sort String.le).
  - apply merge_sort_Permutation.
  - done.
Qed.

(** Replacing a document does not change the listing. *)
Lemma index_replace docs order files root key d next next' :
  index_ok docs order files → docs_ok root docs next → docs_ok root (<[key:=d]> docs) next' →
  is_Some (docs !! key) → index_ok (<[key:=d]> docs) order files.
Proof.
  intros [Hs Hk Hf] [KF _ _ _] [KF' _ _ _] [c Hc]. split; [done| |].
  - rewrite Hk. apply NoDup_Permutation.
    + apply NoDup_fst_map_to_list.
    + apply NoDup_fst_map_to_list.
    + intros k. rewrite !list_elem_of_fmap. split.
      * intros ([k' d'] & -> & Hin%elem_of_map_to_list). simpl.
        destruct (decide (k' = key)) as [->|Hne].
        -- exists (key, d). split; [done|]. apply elem_of_map_to_list. by rewrite lookup_insert_eq.
        -- exists (k', d'). split; [done|]. apply elem_of_map_to_list. by rewrite lookup_insert_ne.
      * intros ([k' d'] & -> & Hin%elem_of_map_to_list). simpl.
        apply lookup_insert_Some in Hin as [[<- <-]|[_ Hin]].
        -- exists (key, c). split; [done|]. by apply elem_of_map_to_list.
        -- exists (k', d'). split; [done|]. by apply elem_of_map_to_list.
  - rewrite Hf. apply list_omap_ext, Forall_Forall2_diag, Forall_true. intros k.
    destruct (decide (k = key)) as [->|Hne]; [|by rewrite lookup_insert_ne].
    rewrite lookup_insert_eq, Hc. simpl. f_equal. eapply is_file_unique; [by apply KF|].
    apply KF'. by rewrite lookup_insert_eq.
Qed.

Lemma docs_ok_subset root docs docs' next : docs' ⊆ docs → docs_ok root docs next → docs_ok root docs' next.
Proof.
  intros Hsub [KF KG KR KI]. assert (∀ k d, docs' !! k = Some d → docs !! k = Some d) as Hl
    by (intros k d Hk; by eapply lookup_weaken). split; eauto.
Qed.

Lemma later_subset w docs docs' : ws_documents w = Some docs → docs' ⊆ docs →
  later w (set_documents docs' (ws_nextGeneration w) w).
Proof.
  intros Hd Hsub. right. split_and!; [simpl; lia|by rewrite Hd|]. unfold docs_of. rewrite Hd. simpl.
  intros k d Hk _. by eapply lookup_weaken.
Qed.

(** ** The operations *)

(** A ready workspace whose listing is still to be rebuilt. *)
Record pre_ok (n : Z) (w : Workspace) (docs : gmap string (Document D)) : Prop := {
  po_state : ws_state w = StateReady;
  po_documents : ws_documents w = Some docs;
  po_docs : docs_ok (ws_root w) docs (ws_nextGeneration w);
  po_next : (0 ≤ ws_nextGeneration w ≤ n)%Z;
  po_explicit : ∀ k, k ∈ ws_explicitPaths w → normalizeDocumentPath k = Some k
}.

Lemma pre_ws n w docs : pre_ok n w docs → index_ok docs (ws_order w) (ws_files w) → ws_ok n w.
Proof. intros [Hs Hd Hk Hn He] Hi. split; try done. intros _. by exists docs. Qed.

Lemma pre_rebuild n w docs : pre_ok n w docs → ws_ok n (rebuildIndexesLocked w).
Proof.
  intros [Hs Hd Hk Hn He]. apply (pre_ws _ _ docs); [by split|]. by apply rebuild_index.
Qed.

Lemma ready_pre n w : ws_ok n w → ws_state w = StateReady →
  ∃ docs, pre_ok n w docs ∧ index_ok docs (ws_order w) (ws_files w) ∧ docs_of w = docs.
Proof.
  intros [Hn He Hr Ho] Hs. destruct (Hr Hs) as (docs & Hd & Hk & Hi). exists docs.
  split; [by split|]. split; [done|]. unfold docs_of. by rewrite Hd.
Qed.

Lemma add_explicit_pre n w docs key : normalizeDocumentPath key = Some key →
  pre_ok n w docs → pre_ok n (add_explicit key w) docs.
Proof.
  intros Hk [Hs Hd Hdk Hn He]. split; simpl; try done. intros k [->%elem_of_singleton|?]%elem_of_union; auto.
Qed.

(** What a section under the lock does to a workspace. *)
Record advances (w w' : Workspace) : Prop := {
  ad_later : later w w';
  ad_root : ws_root w' = ws_root w;
  ad_state : ws_state w' = ws_state w;
  ad_gate : ws_gate w' = ws_gate w
}.

Lemma advances_refl w : advances w w.
Proof. split; try done. apply later_refl. Qed.

(** Indexes, admissions and the flags do not matter to [later]. *)
Lemma later_same w w1 w2 : later w w1 → ws_documents w2 = ws_documents w1 →
  ws_nextGeneration w2 = ws_nextGeneration w1 → later w w2.
Proof. intros [H|(Hn & Hs & Hk)] Hd Hg; [left; congruence|right]. unfold docs_of in *. rewrite Hd, Hg. done. Qed.

Lemma later_same_l w1 w2 w : later w1 w → ws_documents w2 = ws_documents w1 →
  ws_nextGeneration w2 = ws_nextGeneration w1 → later w2 w.
Proof. intros [H|(Hn & Hs & Hk)] Hd Hg; [by left|right]. unfold docs_of in *. rewrite Hd, Hg. done. Qed.

Lemma ws_weaken n m w : (n ≤ m)%Z → ws_ok n w → ws_ok m w.
Proof. intros Hn []. split; try done; lia. Qed.

Lemma pre_weaken n m w docs : (n ≤ m)%Z → pre_ok n w docs → pre_ok m w docs.
Proof. intros Hn []. split; try done; lia. Qed.

(** Storing a document as it was just read. *)
Lemma store_pre n w docs key next : pre_ok n w docs → (n + 1 < 2 ^ 64)%Z → document_ok (ws_root w) key next →
  ∃ d, store key next w = Ret (set_documents (<[key:=d]> docs) (ws_nextGeneration w + 1) w) ∧
    pre_ok (n + 1) (set_documents (<[key:=d]> docs) (ws_nextGeneration w + 1) w) (<[key:=d]> docs) ∧
    advances w (set_documents (<[key:=d]> docs) (ws_nextGeneration w + 1) w) ∧
    (is_Some (docs !! key) → index_ok docs (ws_order w) (ws_files w) →
       index_ok (<[key:=d]> docs) (ws_order w) (ws_files w)) ∧
    sameState d next = true.
Proof.
  intros Hpre Hb Hok. pose proof Hpre as [Hs Hd Hk Hn He].
  destruct (store_ok w docs key next Hd Hk) as (d & Hst & Hk' & Hl); [lia|lia|done|].
  exists d. split_and!; [done|split; simpl; try done; lia|by split| |].
  - intros Hex Hi. by eapply index_replace.
  - unfold store in Hst. rewrite Hd in Hst. injection Hst as Heq _.
    apply (f_equal (lookup key)) in Heq. rewrite !lookup_insert_eq in Heq. injection Heq as <-.
    unfold sameState. destruct (docs !! key); simpl; by rewrite !bool_decide_eq_true_2.
Qed.

Lemma reconcileDocument_ok n w ctxErr key explicit discovered :
  ws_ok n w → (n + 1 < 2 ^ 64)%Z → normalizeDocumentPath key = Some key →
  (dd_found discovered = true → document_ok (ws_root w) key (dd_document discovered)) →
  ∃ res w', reconcileDocument_commit ctxErr key explicit discovered w = Ret (res, w') ∧
    ws_ok (n + 1) w' ∧ advances w w'.
Proof.
  intros Hok Hb Hkey Hdisc. unfold reconcileDocument_commit.
  assert (ws_ok (n + 1) w ∧ advances w w) as Hsame by (split; [eapply ws_weaken; [|done]; lia|apply advances_refl]).
  destruct (ws_closing w || _) eqn:Hc; [by eexists _, w|].
  apply orb_false_iff in Hc as [_ Hst%bool_decide_eq_false%dec_stable].
  destruct (ready_pre n w Hok Hst) as (docs & Hpre & Hi & Hdo). rewrite Hdo.
  destruct ctxErr as [err|]; [by eexists _, w|]. pose proof Hpre as [_ Hd Hk Hn He].
  destruct (dd_found discovered) eqn:Hf; cbn [negb].
  2: { destruct (docs !! key) as [c|]; [|by eexists _, w].
       assert (delete key docs ⊆ docs) as Hsub by apply delete_subseteq. eexists _, _. split; [done|]. split.
       - apply (pre_rebuild _ _ (delete key docs)). split; simpl; try done; [by eapply docs_ok_subset|lia].
       - split; try done. eapply later_same; [by apply (later_subset w docs (delete key docs))|done|done]. }
  set (w1 := if explicit then add_explicit key w else w).
  assert (pre_ok n w1 docs ∧ ws_order w1 = ws_order w ∧ ws_files w1 = ws_files w ∧ ws_root w1 = ws_root w ∧
          advances w w1) as (Hpre1 & Ho1 & Hf1 & Hr1 & [L R S G]).
  { subst w1. destruct explicit; split_and!; try done; [by apply add_explicit_pre| |apply advances_refl].
    split; try done. eapply later_same; [apply later_refl|done|done]. }
  clearbody w1. destruct (store_pre n w1 docs key (dd_document discovered) Hpre1 Hb) as (d & -> & Hpre2 & [L2 R2 S2 G2] & Hix & _).
  { rewrite Hr1. by apply Hdisc. }
  assert (advances w (set_documents (<[key:=d]> docs) (ws_nextGeneration w1 + 1) w1)) as Had.
  { split; [by eapply later_trans|congruence..]. }
  destruct (docs !! key) as [c|] eqn:Hkk.
  - destruct (sameState c (dd_document discovered)); eexists _, _; (split; [reflexivity|]).
    + split; [|by split]. apply (pre_ws _ _ docs); [eapply pre_weaken; [|done]; lia|]. by rewrite Ho1, Hf1.
    + split; [|done]. apply (pre_ws _ _ _ Hpre2). simpl. apply Hix; [by eexists|]. by rewrite Ho1, Hf1.
  - eexists _, _. split; [reflexivity|]. split; [by eapply pre_rebuild|]. destruct Had. by split.
Qed.

(** ** Trees *)

(** The part of a document that a refresh compares. *)
Definition view (d : Document D) : File * bool * string * list D :=
  (doc_file d, doc_loaded d, doc_content d, doc_diagnostics d).

Lemma sameState_view d d' : sameState d d' = true ↔ view d = view d'.
Proof.
  unfold sameState, view. rewrite !andb_true_iff, !bool_decide_eq_true. split; [intros [[[-> ->] ->] ->]; done|].
  by intros [= -> -> -> ->].
Qed.

(** The loop that stores changed documents; the listing stays valid unless the
    loop reports a new member. *)
Lemma apply_loop_ok root content order : ∀ n w docs changed,
  pre_ok n w docs → ws_root w = root →
  (∀ k d, content !! k = Some d → document_ok root k d) →
  (∀ k, k ∈ order → is_Some (content !! k)) →
  (n + Z.of_nat (length order) < 2 ^ 64)%Z →
  (changed = false → index_ok docs (ws_order w) (ws_files w)) →
  ∃ w' docs' changed', apply_loop order content w changed = Ret (w', changed') ∧
    pre_ok (n + Z.of_nat (length order)) w' docs' ∧ advances w w' ∧
    (changed' = false → index_ok docs' (ws_order w') (ws_files w')) ∧
    (∀ k, view <$> docs' !! k = if bool_decide (k ∈ order) then view <$> content !! k else view <$> docs !! k).
Proof.
  induction order as [|key order IH]; intros n w docs changed Hpre Hroot Hc Hall Hb Hi.
  { exists w, docs, changed. simpl. rewrite Z.add_0_r. split_and!; try done. apply advances_refl. }
  destruct (Hall key) as [next Hnext]; [by left|]. cbn [apply_loop length] in Hb |- *. rewrite Hnext. cbn [default from_option]. unfold id.
  assert (docs_of w = docs) as -> by (unfold docs_of; by rewrite (po_documents _ _ _ Hpre)).
  assert (∀ k, k ∈ order → is_Some (content !! k)) as Hall' by (intros k Hx; apply Hall; by right).
  destruct (store_pre n w docs key next Hpre ltac:(lia)) as (d & Hst & Hpre1 & Had1 & Hix & Hsame).
  { rewrite Hroot. by apply Hc. }
  assert (∀ w1 docs1 changed1 m, pre_ok m w1 docs1 → (m ≤ n + 1)%Z → advances w w1 →
    view <$> docs1 !! key = Some (view next) → (∀ k, k ≠ key → docs1 !! k = docs !! k) →
    (changed1 = false → index_ok docs1 (ws_order w1) (ws_files w1)) →
    ∃ w' docs' changed', apply_loop order content w1 changed1 = Ret (w', changed') ∧
      pre_ok (n + Z.of_nat (S (length order))) w' docs' ∧ advances w w' ∧
      (changed' = false → index_ok docs' (ws_order w') (ws_files w')) ∧
      (∀ k, view <$> docs' !! k =
         if bool_decide (k ∈ key :: order) then view <$> content !! k else view <$> docs !! k)) as Hgo.
  { intros w1 docs1 changed1 m Hp1 Hm [L1 R1 S1 G1] Hv Hrest Hi1.
    destruct (IH m w1 docs1 changed1 Hp1 ltac:(congruence) Hc Hall' ltac:(lia) Hi1)
      as (w' & docs' & changed' & Heq & Hp' & [L2 R2 S2 G2] & Hi' & Hview).
    exists w', docs', changed'. split_and!; try done.
    - eapply pre_weaken; [|exact Hp']. lia.
    - split; [by eapply later_trans|congruence..].
    - intros k. rewrite Hview. destruct (decide (k = key)) as [->|Hne].
      + rewrite (bool_decide_eq_true_2 (key ∈ key :: order)) by set_solver. rewrite Hnext, Hv. by case_bool_decide.
      + rewrite (Hrest k Hne). assert (bool_decide (k ∈ order) = bool_decide (k ∈ key :: order)) as ->; [|done].
        apply bool_decide_ext. set_solver. }
  assert (view <$> (<[key:=d]> docs) !! key = Some (view next)) as Hv.
  { rewrite lookup_insert_eq. simpl. f_equal. by apply sameState_view. }
  assert (∀ k, k ≠ key → (<[key:=d]> docs) !! k = docs !! k) as Hrest by (intros k ?; by rewrite lookup_insert_ne).
  destruct (docs !! key) as [c|] eqn:Hkey.
  - destruct (sameState c next) eqn:Hss.
    + apply (Hgo w docs changed n); try done; [lia|apply advances_refl|]. rewrite Hkey. simpl. f_equal.
      by apply sameState_view.
    + rewrite Hst. cbn [mbind outcome_bind]. apply (Hgo _ (<[key:=d]> docs) changed (n + 1)%Z); try done. intros Hch. by apply Hix; [eexists|apply Hi].
  - rewrite Hst. cbn [mbind outcome_bind]. by apply (Hgo _ (<[key:=d]> docs) true (n + 1)%Z).
Qed.

(** What a tree reconciliation makes of the documents. *)
Lemma applyContent_ok n w docs key content :
  pre_ok n w docs → index_ok docs (ws_order w) (ws_files w) → content_ok (ws_root w) content →
  (n + Z.of_nat (length (wc_order content)) < 2 ^ 64)%Z →
  ∃ w', applyContentLocked key content w = Ret w' ∧
    ws_ok (n + Z.of_nat (length (wc_order content))) w' ∧ advances w w' ∧
    (∀ k, view <$> docs_of w' !! k =
       if bool_decide (k ∈ wc_order content) then view <$> wc_documents content !! k
       else if workspacePathInSubtree k key then None else view <$> docs !! k).
Proof.
  intros Hpre Hi [Hcd Hco] Hb. pose proof Hpre as [Hs Hd Hk Hn He]. unfold applyContentLocked.
  assert (docs_of w = docs) as -> by (unfold docs_of; by rewrite Hd). set (docs1 := filter _ docs).
  assert (docs1 ⊆ docs) as Hsub by apply map_filter_subseteq.
  set (w1 := set_documents docs1 (ws_nextGeneration w) w).
  assert (pre_ok n w1 docs1) as Hpre1 by (split; simpl; try done; by eapply docs_ok_subset).
  destruct (apply_loop_ok (ws_root w) (wc_documents content) (wc_order content) n w1 docs1
    (existsb (λ kd, negb (retained key content kd)) (map_to_list docs)) Hpre1 eq_refl Hcd)
    as (w' & docs' & changed & Heq & Hpre' & [L R S G] & Hi' & Hview); [intros k; by apply Hco|done| |].
  { intros Hex. assert (docs1 = docs) as Heq; [|simpl; by rewrite Heq].
    apply map_filter_id. intros k d Hkd. destruct (retained key content (k, d)) eqn:E; [done|]. exfalso.
    assert (existsb (λ kd, negb (retained key content kd)) (map_to_list docs) = true) as Ht; [|congruence].
    apply existsb_exists. exists (k, d). split; [|by rewrite E]. by apply list_elem_of_In, elem_of_map_to_list. }
  rewrite Heq. cbn. assert (later w w') as Hl by (eapply later_trans; [by apply (later_subset w docs docs1)|done]).
  assert (∀ k, view <$> docs' !! k =
       if bool_decide (k ∈ wc_order content) then view <$> wc_documents content !! k
       else if workspacePathInSubtree k key then None else view <$> docs !! k) as Hall.
  { intros k. rewrite Hview. case_bool_decide as Hin; [done|]. unfold docs1. rewrite Hco in Hin.
    destruct (docs !! k) as [d|] eqn:Hkd.
    - destruct (workspacePathInSubtree k key) eqn:Hsubt.
      + rewrite map_lookup_filter_None_2; [done|]. right. intros d' _. unfold retained. simpl.
        rewrite Hsubt, bool_decide_eq_false_2; done.
      + rewrite (map_lookup_filter_Some_2 _ _ _ d); [done|done|]. unfold retained. simpl. by rewrite Hsubt.
    - rewrite map_lookup_filter_None_2 by (by left). by destruct (workspacePathInSubtree k key). }
  destruct changed; eexists; (split; [reflexivity|]).
  - split; [by eapply pre_rebuild|]. split; [by split|]. unfold docs_of. simpl.
    by rewrite (po_documents _ _ _ Hpre').
  - split; [apply (pre_ws _ _ docs' Hpre'); by apply Hi'|]. split; [by split|]. unfold docs_of.
    by rewrite (po_documents _ _ _ Hpre').
Qed.

Lemma reconcileTree_ok n w ctxErr key content :
  ws_ok n w → content_ok (ws_root w) content →
  (n + Z.of_nat (length (wc_order content)) < 2 ^ 64)%Z →
  ∃ res w', reconcileTree_commit ctxErr key content w = Ret (res, w') ∧
    ws_ok (n + Z.of_nat (length (wc_order content))) w' ∧ advances w w'.
Proof.
  intros Hok Hc Hb. unfold reconcileTree_commit.
  assert (ws_ok (n + Z.of_nat (length (wc_order content))) w ∧ advances w w) as Hsame
    by (split; [eapply ws_weaken; [|done]; lia|apply advances_refl]).
  destruct ctxErr as [err|]; [by eexists _, w|].
  destruct (ws_closing w || _) eqn:Hcl; [by eexists _, w|].
  apply orb_false_iff in Hcl as [_ Hst%bool_decide_eq_false%dec_stable].
  destruct (ready_pre n w Hok Hst) as (docs & Hpre & Hi & Hdo).
  destruct (applyContent_ok n w docs key content Hpre Hi Hc Hb) as (w' & -> & H1 & H2 & _).
  eexists _, _. split; [reflexivity|done].
Qed.

(** ** Discovery in an environment *)

Lemma explicit_loop_ensures E root keys : Forall (λ k, normalizeDocumentPath k = Some k) keys → ∀ content,
  content_ok root content → ensures (explicit_loop E root keys content) (content_ok root).
Proof.
  induction 1 as [|key keys Hkey _ IH]; intros content Hc; cbn [explicit_loop]; [by apply ensures_ret|].
  case_bool_decide; [by apply IH|].
  eapply ensures_bind; [by apply discoverDocument_ensures|]. intros r Hr. apply IH.
  destruct (dd_found r) eqn:Hf; [apply content_insert; [done|by apply Hr]|]. destruct Hc. by split.
Qed.

Lemma load_ensures E fuel root key keys : names_ok E → Forall (λ k, normalizeDocumentPath k = Some k) keys →
  ensures (tree_load E fuel root key keys) (content_ok root).
Proof.
  intros Hn Hk. eapply ensures_bind; [by apply loadSubtree_ensures|]. intros content [Hc _ _ _].
  eapply ensures_bind; [by apply explicit_loop_ensures|]. intros res [Hd Ho]. apply ensures_then. intros _.
  apply ensures_ret. split; simpl; [done|]. intros k. by rewrite merge_sort_Permutation.
Qed.

Lemma settles_tree_load E fuel root key keys : settles true (tree_load E fuel root key keys).
Proof.
  apply settles_bind; [apply settles_loadSubtree|]. intros content.
  apply settles_bind; [|intros content'; apply settles_bind; [apply settles_poll|done]].
  revert content. induction keys as [|k keys IH]; intros content; cbn [explicit_loop]; [done|].
  case_bool_decide; [done|]. apply settles_bind; [apply settles_weaken, settles_document|]. intros r. apply IH.
Qed.

(** ** Steps *)

(** The environments of an action list directories as [fs.ReadDir] does. *)
Definition admissible (a : action) : Prop :=
  match a with AStep _ (Discover E _) => names_ok E | _ => True end.

(** A step blocked, or it kept the invariant; it did not panic. *)
Definition keeps (n : Z) (w : world) (o : outcome world) : Prop :=
  match o with
  | Ret w' => inv n w' ∧ later (wd_workspace w) (wd_workspace w')
  | Block => True
  | Panic _ => False
  end.

Definition token (b : bool) : nat := if b then 1 else 0.

(** A thread moves on, and the token with it. *)
Lemma goto_keeps n m w i t t' ws :
  inv n w → wd_threads w !! i = Some t → thread_ok t' → ws_ok m ws → later (wd_workspace w) ws →
  (token (ws_gate ws) + token (holds t') = token (ws_gate (wd_workspace w)) + token (holds t))%nat →
  keeps m w (Ret (goto i t' ws w)).
Proof.
  intros [Hw Hg Ht] Hi Hok Hws Hl Hgate. split; [|done]. split; simpl; [done| |].
  - pose proof (count_insert holds _ i t t' Hi) as Hc. unfold token in Hgate.
    destruct (ws_gate ws), (ws_gate (wd_workspace w)), (holds t), (holds t'); lia.
  - by apply Forall_insert.
Qed.

Lemma set_gate_ok n b w : ws_ok n w → ws_ok n (set_gate b w) ∧ later w (set_gate b w).
Proof.
  intros [Hn He Hr Ho]. split; [by split|]. eapply later_same; [apply later_refl|done|done].
Qed.

Lemma normalize_idem p key : normalizeDocumentPath p = Some key → normalizeDocumentPath key = Some key.
Proof.
  intros Hn. unfold normalizeDocumentPath in Hn. destruct (normalizeWorkspacePath p) as [k|] eqn:Hk; [|done].
  case_bool_decide; [done|]. inv Hn. apply normalizeWorkspacePath_inside in Hk as [Hin _].
  by apply inside_normalize.
Qed.

Lemma cost_nonneg a w : (0 ≤ cost a w)%Z.
Proof.
  unfold cost. destruct a as [| | |i [| |E fuel]]; try lia. destruct (wd_threads w !! i) as [[]|]; try lia.
  destruct (tree_load _ _ _ _ _ _) as [[[|] ?]| |]; lia.
Qed.

Lemma step_keeps n w i t a :
  inv n w → wd_threads w !! i = Some t → admissible (AStep i a) → (n + cost (AStep i a) w < 2 ^ 64)%Z →
  keeps (n + cost (AStep i a) w) w (step_thread i t a w).
Proof.
  intros Hinv Hi Ha Hb. pose proof Hinv as [Hw Hg Ht]. pose proof (cost_nonneg (AStep i a) w) as Hpos.
  assert (ws_ok (n + cost (AStep i a) w) (wd_workspace w)) as Hw' by (eapply ws_weaken; [|exact Hw]; lia).
  assert (∀ t', holds t' = holds t → thread_ok t' →
    keeps (n + cost (AStep i a) w) w (Ret (goto i t' (wd_workspace w) w))) as Hstay.
  { intros t' H1 H2. eapply goto_keeps; try done; [apply later_refl|by rewrite H1]. }
  rewrite Forall_lookup in Ht. pose proof (Ht _ _ Hi) as Hti.
  destruct t as [m|m|[rel explicit|rel]|key explicit admitted|key keys| |]; destruct a as [| |E fuel]; simpl step_thread; try done.
  - unfold beginMutation_receive. destruct (ws_gate (wd_workspace w)) eqn:Eg; [|done].
    eapply goto_keeps; try done; [by apply set_gate_ok|by eapply set_gate_ok|]. by rewrite Eg.
  - by apply Hstay.
  - unfold beginMutation_recheck, finishMutation. destruct (ws_closing (wd_workspace w)); [|by apply Hstay].
    pose proof (count_pos _ _ _ _ Hi (eq_refl : holds (TEntered m) = true)) as Hp.
    destruct (ws_gate (wd_workspace w)) eqn:Eg; [lia|]. cbn [mbind outcome_bind].
    eapply goto_keeps; try done; [by apply set_gate_ok|by eapply set_gate_ok|]. by rewrite Eg.
  - apply Hstay; [by destruct (normalizeDocumentPath rel)|].
    destruct (normalizeDocumentPath rel) as [key|] eqn:Hk; [|done]. by eapply normalize_idem.
  - apply Hstay; [by destruct (normalizeWorkspacePath rel)|].
    destruct (normalizeWorkspacePath rel) as [key|]; [|done]. apply Forall_forall. intros k.
    unfold explicit_in_subtree. rewrite merge_sort_Permutation, list_elem_of_filter, elem_of_elements.
    intros [_ Hk]. by apply (wo_explicit _ _ Hw).
  - unfold reconcileDocument_discover. unfold cost in Hb, Hw', Hstay |- *. rewrite Hi in *.
    pose proof (settles_document E (ws_root (wd_workspace w)) key (explicit || admitted) 0) as Hset.
    destruct (discoverWorkspaceDocument E (ws_root (wd_workspace w)) key (explicit || admitted) 0) as [[r k]| |] eqn:Er;
      [|done|done].
    cbn [mbind outcome_bind]. destruct r as [r|err]; [|by apply Hstay]. destruct (ctx_Err E k); [by apply Hstay|].
    destruct (reconcileDocument_ok n (wd_workspace w) (ctx_Err E (S k)) key explicit r Hw Hb Hti)
      as (res & ws & -> & Hok & [L R S G]).
    { by eapply (discoverDocument_ensures E _ _ _ _ Hti). }
    eapply goto_keeps; try done. by rewrite G.
  - unfold reconcileTree_load. unfold cost in Hb, Hw', Hstay |- *. rewrite Hi in *.
    pose proof (settles_tree_load E fuel (ws_root (wd_workspace w)) key keys 0) as Hset.
    destruct (tree_load E fuel (ws_root (wd_workspace w)) key keys 0) as [[r k]| |] eqn:Er; [|done|done].
    cbn [mbind outcome_bind]. destruct r as [content|err]; [|by apply Hstay].
    pose proof (load_ensures E fuel _ key keys Ha Hti _ _ _ Er) as Hc.
    destruct (reconcileTree_ok n (wd_workspace w) (ctx_Err E k) key content Hw Hc Hb)
      as (res & ws & -> & Hok & [L R S G]).
    eapply goto_keeps; try done. by rewrite G.
  - unfold finishMutation. pose proof (count_pos _ _ _ _ Hi (eq_refl : holds TFinish = true)) as Hp.
    destruct (ws_gate (wd_workspace w)) eqn:Eg; [lia|]. cbn [mbind outcome_bind].
    eapply goto_keeps; try done; [by apply set_gate_ok|by eapply set_gate_ok|]. by rewrite Eg.
Qed.

(** ** Opening *)

(** The generations [setReady] gives out. *)
Lemma ready_loop_spec order : ∀ docs g,
  NoDup order → (∀ k, k ∈ order → is_Some (docs !! k)) → (0 ≤ g)%Z →
  (g + Z.of_nat (length order) < 2 ^ 64)%Z →
  ∃ docs', ready_loop order docs g = (docs', (g + Z.of_nat (length order))%Z) ∧
    (∀ k, is_Some (docs' !! k) ↔ is_Some (docs !! k)) ∧
    (∀ k d', docs' !! k = Some d' → ∃ d, docs !! k = Some d ∧
       (((k ∉ order) ∧ d' = d) ∨
        ∃ i, order !! i = Some k ∧ d' = withGeneration (g + 1 + Z.of_nat i) d)).
Proof.
  induction order as [|key order IH]; intros docs g Hnd Hall Hg Hb; simpl.
  { exists docs. rewrite Z.add_0_r. split_and!; try done. intros k d' Hk. exists d'. split; [done|].
    left. split; [apply not_elem_of_nil|done]. }
  apply NoDup_cons in Hnd as [Hnin Hnd]. destruct (Hall key) as [d Hd]; [by left|]. simpl in Hb.
  rewrite Hd, u64_small by lia. cbn [default from_option]. unfold id. set (d1 := withGeneration (g + 1) d).
  destruct (IH (<[key:=d1]> docs) (g + 1)%Z Hnd) as (docs' & Heq & Hdom & Hspec); [|lia|lia|].
  { intros k Hk. apply lookup_insert_is_Some'. right. apply Hall. by right. }
  exists docs'. rewrite Heq. split; [f_equal; lia|]. split.
  - intros k. rewrite Hdom, lookup_insert_is_Some'. split; [|by right]. intros [<-|?]; [by exists d|done].
  - intros k d' Hk. destruct (Hspec k d' Hk) as (d2 & Hd2 & Hcase).
    destruct (decide (k = key)) as [->|Hne].
    + rewrite lookup_insert_eq in Hd2. inv Hd2. exists d. split; [done|]. right. exists 0%nat. split; [done|].
      destruct Hcase as [[_ ->]|(i & Hi & _)]; [f_equal; lia|].
      destruct Hnin. by eapply list_elem_of_lookup_2.
    + rewrite lookup_insert_ne in Hd2 by done. exists d2. split; [done|].
      destruct Hcase as [[Hn ->]|(i & Hi & ->)].
      * left. split; [|done]. by intros [?|?]%elem_of_cons.
      * right. exists (S i). split; [done|]. f_equal. lia.
Qed.

Lemma files_of_listing root docs files : (∀ f, f ∈ files → is_file root (f_RelativePath f) f) →
  (∀ f, f ∈ files → ∃ d, docs !! f_RelativePath f = Some d ∧ is_file root (f_RelativePath f) (doc_file d)) →
  files_of docs (map f_RelativePath files) = files.
Proof.
  unfold files_of. induction files as [|f files IH]; intros Hf Hd; [done|]. csimpl.
  destruct (Hd f) as (d & -> & Hfd); [by left|]. csimpl. f_equal.
  - eapply is_file_unique; [exact Hfd|]. apply Hf. by left.
  - apply IH; intros g Hg; [apply Hf|apply Hd]; by right.
Qed.

Lemma opened_inv id root content : loaded_ok root content → (Z.of_nat (length (wc_order content)) < 2 ^ 64)%Z →
  inv (Z.of_nat (length (wc_order content))) (opened id root content).
Proof.
  intros [[Hcd Hco] Hn Hs [Hfo Hff]] Hb. unfold opened.
  destruct (ready_loop_spec (wc_order content) (wc_documents content) 0 Hn (λ k, proj1 (Hco k)) ltac:(lia) ltac:(lia))
    as (docs & Heq & Hdom & Hspec).
  split; simpl; [|unfold setReady; simpl; by rewrite Heq|constructor].
  unfold setReady. simpl. rewrite Heq. split; simpl; try done; [lia|].
  intros _. exists docs.
  assert (∀ k d', docs !! k = Some d' → ∃ d i, wc_documents content !! k = Some d ∧
    wc_order content !! i = Some k ∧ d' = withGeneration (1 + Z.of_nat i) d) as Hshape.
  { intros k d' Hk. destruct (Hspec k d' Hk) as (d & Hd & [[Hnin _]|(i & Hi & ->)]).
    - destruct Hnin. apply Hco. by exists d.
    - by exists d, i. }
  split; [done|]. split.
  - split.
    + intros k d' Hk. destruct (Hshape k d' Hk) as (d & i & Hd & _ & ->). by apply Hcd in Hd as [? _].
    + intros k d' Hk. destruct (Hshape k d' Hk) as (d & i & Hd & Hi & ->). simpl.
      apply lookup_lt_Some in Hi. lia.
    + intros k d' Hk. destruct (Hshape k d' Hk) as (d & i & Hd & Hi & ->). simpl.
      apply Hcd in Hd as [_ ->]. lia.
    + intros k1 k2 d1 d2 H1 H2 Hg. destruct (Hshape k1 d1 H1) as (? & i1 & _ & Hi1 & ->).
      destruct (Hshape k2 d2 H2) as (? & i2 & _ & Hi2 & ->). simpl in Hg.
      assert (i1 = i2) as -> by lia. congruence.
  - split; [done| |].
    + apply NoDup_Permutation; [done|apply NoDup_fst_map_to_list|]. intros k. rewrite Hco, <- Hdom.
      rewrite list_elem_of_fmap. split.
      * intros [d Hd]. exists (k, d). split; [done|by apply elem_of_map_to_list].
      * intros ([k' d] & -> & Hin%elem_of_map_to_list). by exists d.
    + rewrite Hfo. symmetry. apply (files_of_listing root); [done|]. intros f Hf.
      destruct (proj2 (Hdom (f_RelativePath f))) as [d' Hd'].
      { apply Hco. rewrite Hfo. by apply list_elem_of_fmap_2. }
      exists d'. split; [done|]. destruct (Hshape _ _ Hd') as (d & j & Hd & _ & ->). by apply Hcd in Hd as [? _].
Qed.

(** ** Schedules *)

Lemma workspace_act_keeps n w a : inv n w → admissible a → (n + cost a w < 2 ^ 64)%Z →
  keeps (n + cost a w) w (act a w).
Proof.
  intros Hinv Ha Hb. pose proof Hinv as [Hw Hg Ht]. destruct a as [c m| | |i a].
  - simpl. rewrite Z.add_0_r. destruct (beginMutation_enter c (wd_workspace w)); [split; [done|apply later_refl]|].
    split; [|apply later_refl]. split; simpl; [done|rewrite count_app; simpl; lia|].
    apply Forall_app. split; [done|by constructor].
  - simpl. rewrite Z.add_0_r. split; [|by eapply later_same; [apply later_refl|..]]. destruct Hw. by split.
  - simpl. rewrite Z.add_0_r. unfold Workspace_close.
    case_bool_decide; [split; [by split|apply later_refl]|]. split; [|by left].
    pose proof (wo_next _ _ Hw). split; simpl; [|done|done]. split; simpl; try done. lia.
  - unfold act. destruct (wd_threads w !! i) as [t|] eqn:Hi; [|done]. by apply step_keeps.
Qed.

Lemma demand_nonneg actions : ∀ w, (0 ≤ demand actions w)%Z.
Proof.
  induction actions as [|a actions IH]; intros w; simpl; [lia|]. pose proof (cost_nonneg a w).
  destruct (attempt a w) as [w'| |]; [specialize (IH w')|..]; lia.
Qed.

Lemma demand_app before after w w' : schedule before w = Ret w' →
  demand (before ++ after) w = (demand before w + demand after w')%Z.
Proof.
  revert w. induction before as [|a before IH]; intros w Hs; simpl in *; [by inv Hs|].
  destruct (attempt a w) as [w1| |] eqn:Ha; simpl in Hs; [|done|done]. rewrite (IH w1 Hs). lia.
Qed.

Lemma workspace_schedule_inv actions : ∀ n w, inv n w → Forall admissible actions →
  (n + demand actions w < 2 ^ 64)%Z →
  ∃ w', schedule actions w = Ret w' ∧ inv (n + demand actions w) w' ∧
        later (wd_workspace w) (wd_workspace w').
Proof.
  induction actions as [|a actions IH]; intros n w Hinv Hall Hb; simpl in *.
  { exists w. rewrite Z.add_0_r. split_and!; try done. apply later_refl. }
  apply Forall_cons in Hall as [Ha Hall]. pose proof (cost_nonneg a w) as Hcn.
  assert (∃ w1, attempt a w = Ret w1 ∧ inv (n + cost a w) w1 ∧ later (wd_workspace w) (wd_workspace w1))
    as (w1 & Heq & Hi1 & Hl1).
  { pose proof (workspace_act_keeps n w a Hinv Ha) as Hk. unfold attempt in *.
    destruct (act a w) as [w1|m|]; simpl in Hk.
    - pose proof (demand_nonneg actions w1). exists w1. by destruct Hk; [lia|].
    - destruct Hk. lia.
    - exists w. split_and!; [done| |apply later_refl]. destruct Hinv. split; [eapply ws_weaken; [|done]; lia|done|done]. }
  rewrite Heq in *. pose proof (demand_nonneg actions w1).
  destruct (IH (n + cost a w)%Z w1 Hi1 Hall ltac:(lia)) as (w' & Hs & Hi' & Hl').
  exists w'. split; [done|]. split; [by rewrite Z.add_assoc|by eapply later_trans].
Qed.

(** What the listing of a ready workspace contains. *)
Lemma documents_listing root docs order files next :
  docs_ok root docs next → index_ok docs order files →
  let listed := omap (λ k, docs !! k) order in
  map (λ d, f_RelativePath (doc_file d)) listed = order ∧ files = map doc_file listed ∧
  NoDup (map doc_generation listed) ∧ ∀ k d, docs !! k = Some d ↔ d ∈ listed ∧ f_RelativePath (doc_file d) = k.
Proof.
  intros [KF KG KR KI] [Hs Hk ->] listed. subst listed.
  assert (∀ k, k ∈ order → is_Some (docs !! k)) as Hin.
  { intros k Hx. rewrite Hk in Hx. apply list_elem_of_fmap in Hx as ([k' d] & -> & Hx%elem_of_map_to_list).
    by exists d. }
  assert (NoDup order) as Hnd by (rewrite Hk; apply NoDup_fst_map_to_list).
  assert (∀ k d, docs !! k = Some d → k ∈ order) as Hmem.
  { intros k d Hd. rewrite Hk. apply list_elem_of_fmap. exists (k, d). split; [done|]. by apply elem_of_map_to_list. }
  split_and!.
  - clear Hk Hnd Hmem Hs. induction order as [|k order IH]; [done|]. csimpl.
    destruct (Hin k) as [d Hd]; [by left|]. rewrite Hd. simpl. rewrite (proj1 (KF _ _ Hd)). f_equal.
    apply IH. intros k' Hk'. apply Hin. by right.
  - clear Hk Hnd Hmem Hs. unfold files_of. induction order as [|k order IH]; [done|]. csimpl.
    destruct (Hin k) as [d Hd]; [by left|]. rewrite Hd. simpl. f_equal.
    apply IH. intros k' Hk'. apply Hin. by right.
  - clear Hk Hmem Hs. induction order as [|k order IH]; [constructor|]. csimpl.
    apply NoDup_cons in Hnd as [Hnin Hnd].
    destruct (Hin k) as [d Hd]; [by left|]. rewrite Hd. simpl. constructor.
    + intros Hx. apply list_elem_of_fmap in Hx as (d' & Hg & Hx).
      apply list_elem_of_omap in Hx as (k' & Hk' & Hd'). assert (k = k') as -> by (by eapply KI). done.
    + apply IH; [|done]. intros k' Hk'. apply Hin. by right.
  - intros k d. split.
    + intros Hd. split; [|by apply KF in Hd as [? _]]. apply list_elem_of_omap. exists k. split; [by eapply Hmem|done].
    + intros [Hx <-]. apply list_elem_of_omap in Hx as (k' & _ & Hd'). pose proof (KF _ _ Hd') as [-> _]. done.
Qed.

(** The listing of a workspace, in whatever state it is. *)
Lemma workspace_listing n ws : ws_ok n ws →
  Sorted String.le (map (λ d, f_RelativePath (doc_file d)) (Documents ws)) ∧
  ws_files ws = map doc_file (Documents ws) ∧ NoDup (map doc_generation (Documents ws)) ∧
  (∀ k d, docs_of ws !! k = Some d ↔ d ∈ Documents ws ∧ f_RelativePath (doc_file d) = k) ∧
  (ws_state ws ≠ StateReady → Documents ws = []).
Proof.
  intros [_ _ Hr Ho]. unfold Documents. destruct (decide (ws_state ws = StateReady)) as [Hst|Hst].
  - destruct (Hr Hst) as (docs & Hd & Hk & Hi). unfold docs_of. rewrite Hd. simpl.
    destruct (documents_listing _ _ _ _ _ Hk Hi) as (-> & -> & Hg & Hl).
    split_and!; try done. apply (ix_sorted _ _ _ Hi).
  - destruct (Ho Hst) as [Hd Hf]. unfold docs_of. rewrite Hd, Hf. simpl.
    assert (omap (λ k : string, (∅ : gmap string (Document D)) !! k) (ws_order ws) = []) as ->.
    { generalize (ws_order ws). intros order. induction order as [|k order IH]; [done|]. csimpl.
      by rewrite lookup_empty. }
    simpl. split_and!; try done; try (by constructor). intros k d. rewrite lookup_empty. split; [done|].
    by intros [?%elem_of_nil _].
Qed.

(** C12. A workspace is consistent at every moment: whatever refreshes, tree
    reconciliations, closings and answers of the file system and the contexts are
    interleaved after any load, nothing panics; the document listing is sorted,
    every document is filed under its own path and found by exactly the paths
    that normalise to it, the file list agrees with the documents, no two
    documents share a generation, and a workspace that is not ready lists
    nothing; at most one mutation is between its begin and its finish, and
    finishing never blocks. *)
Theorem workspace_consistent (id root : string) (E : env) (fuel n n' : nat) (content : workspaceContent D)
    (actions : list action) :
  names_ok E → loadWorkspace E fuel root n = Ret (inl content, n') → Forall admissible actions →
  (Z.of_nat (length (wc_order content)) + demand actions (opened id root content) < 2 ^ 64)%Z →
  ∃ w, schedule actions (opened id root content) = Ret w ∧
    let ws := wd_workspace w in
    Sorted String.le (map (λ d, f_RelativePath (doc_file d)) (Documents ws)) ∧
    ws_files ws = map doc_file (Documents ws) ∧ NoDup (map doc_generation (Documents ws)) ∧
    (∀ relativePath d, lookupDocument relativePath ws = Some d ↔
       d ∈ Documents ws ∧ normalizeDocumentPath relativePath = Some (f_RelativePath (doc_file d))) ∧
    (ws_state ws ≠ StateReady → Documents ws = []) ∧
    (count holds (wd_threads w) ≤ 1)%nat ∧
    (∀ i, wd_threads w !! i = Some TFinish → ∃ w', act (AStep i Proceed) w = Ret w').
Proof.
  intros He Hload Hall Hb. pose proof (loadWorkspace_ensures E He fuel root _ _ _ Hload) as Hok.
  pose proof (demand_nonneg actions (opened id root content)).
  destruct (workspace_schedule_inv actions _ _ (opened_inv id root content Hok ltac:(lia)) Hall Hb)
    as (w & Hs & [Hw Hg _] & _). exists w. split; [done|]. intros ws. fold ws in Hw, Hg.
  destruct (workspace_listing _ _ Hw) as (H1 & H2 & H3 & H4 & H5). split_and!; try done; [|lia|].
  - intros rel d. unfold lookupDocument. destruct (normalizeDocumentPath rel) as [key|].
    + rewrite H4. split; [intros [? ->]; done|]. by intros [? [= ->]].
    + split; [done|by intros [_ ?]].
  - intros i Hi. unfold act. rewrite Hi. simpl. unfold finishMutation. fold ws.
    pose proof (count_pos _ _ _ _ Hi (eq_refl : holds TFinish = true)).
    destruct (ws_gate ws); [lia|]. cbn. by eexists.
Qed.

(** A generation identifies one retained document instance for the life of
    the workspace: a document seen later with the generation of a document seen
    earlier is the same document, at the same path, with the same revision and
    content; so deletion and recreation, or any change of the content, are
    visible as a new generation. *)
Theorem generation_identifies (id root : string) (E : env) (fuel n n' : nat) (content : workspaceContent D)
    (before after : list action) (w w' : world) (k k' : string) (d d' : Document D) :
  names_ok E → loadWorkspace E fuel root n = Ret (inl content, n') → Forall admissible (before ++ after) →
  (Z.of_nat (length (wc_order content)) + demand (before ++ after) (opened id root content) < 2 ^ 64)%Z →
  schedule before (opened id root content) = Ret w → schedule after w = Ret w' →
  docs_of (wd_workspace w) !! k = Some d → docs_of (wd_workspace w') !! k' = Some d' →
  doc_generation d' = doc_generation d → k' = k ∧ d' = d.
Proof.
  intros He Hload [Hall1 Hall2]%Forall_app Hb Hw Hw' Hk Hk' Hg.
  pose proof (loadWorkspace_ensures E He fuel root _ _ _ Hload) as Hok. rewrite (demand_app _ _ _ _ Hw) in Hb.
  pose proof (demand_nonneg before (opened id root content)). pose proof (demand_nonneg after w).
  destruct (workspace_schedule_inv before _ _ (opened_inv id root content Hok ltac:(lia)) Hall1 ltac:(lia))
    as (w1 & Hs & Hi & _). assert (w1 = w) as -> by congruence.
  destruct (workspace_schedule_inv after _ _ Hi Hall2 ltac:(lia)) as (w2 & Hs2 & _ & Hl).
  assert (w2 = w') as -> by congruence.
  destruct Hl as [Hnone|(_ & _ & Hold)]; [unfold docs_of in Hk'; by rewrite Hnone in Hk'|].
  destruct Hi as [[_ _ Hr Ho] _ _].
  destruct (decide (ws_state (wd_workspace w) = StateReady)) as [Hst|Hst].
  - destruct (Hr Hst) as (docs & Hd & [KF KG KR KI] & _).
    assert (docs_of (wd_workspace w) = docs) as Hdo by (unfold docs_of; by rewrite Hd). rewrite Hdo in *.
    pose proof (KG _ _ Hk). specialize (Hold k' d' Hk' ltac:(lia)).
    assert (k' = k) as -> by (by eapply KI). split; [done|congruence].
  - destruct (Ho Hst) as [Hd _]. unfold docs_of in Hk. by rewrite Hd in Hk.
Qed.

(** The content a tree reconciliation loads from a tree, without admitted paths. *)
Lemma tree_load_tree es fuel root key xs : rooted root = true → wf_node (NDir es) → (height (NDir es) ≤ fuel)%nat →
  key = key_of xs → Forall plain xs → normalizeWorkspacePath key = Some key → ∃ content sub n1 n2,
  loadWorkspace (tree_env (NDir es)) fuel root 0 = Ret (inl content, n1) ∧
  tree_load (tree_env (NDir es)) fuel root key [] 0 = Ret (inl sub, n2) ∧
  (wc_documents content !! key = None → ∀ k, wc_documents sub !! k =
     if workspacePathInSubtree k key then wc_documents content !! k else None).
Proof.
  intros Hr Hwf Hh -> Hxs Hkey.
  destruct (subtree_is_restriction es root (key_of xs) (key_of xs) fuel 0 Hr Hwf Hh Hkey)
    as (content & n1 & sub & n2 & Hload & Hsub & Hres).
  exists content, (mkContent D (wc_files sub) (wc_documents sub) (merge_sort String.le (wc_order sub)) (wc_directories sub)), n1, (S n2).
  split; [done|]. split; [|done]. unfold tree_load. by erewrite run_Ret_step by exact Hsub.
Qed.

(** C13. Refreshing a directory equals reloading the workspace.  Take any reachable
    workspace that is ready, and a reconciliation of the tree at [key] about to
    load its (not explicitly admitted) sources from a file tree that does not
    change meanwhile.  If the workspace agrees with a fresh load of that tree
    outside [key], then after the reconciliation it agrees with it everywhere:
    same documents, same contents, same diagnostics. *)
Theorem refresh_is_reload (id root : string) (E : env) (fuel0 n n' : nat) (content0 : workspaceContent D)
    (actions : list action) (w : world) (i fuel : nat) (key : string) (es : list (string * node)) :
  names_ok E → loadWorkspace E fuel0 root n = Ret (inl content0, n') → Forall admissible actions →
  (Z.of_nat (length (wc_order content0)) +
     demand (actions ++ [AStep i (Discover (tree_env (NDir es)) fuel)]) (opened id root content0) < 2 ^ 64)%Z →
  schedule actions (opened id root content0) = Ret w →
  wd_threads w !! i = Some (TTree key []) → normalizeWorkspacePath key = Some key →
  ws_state (wd_workspace w) = StateReady → ws_closing (wd_workspace w) = false →
  rooted (ws_root (wd_workspace w)) = true → wf_node (NDir es) → (height (NDir es) ≤ fuel)%nat →
  ∃ content n1 w',
    loadWorkspace (tree_env (NDir es)) fuel (ws_root (wd_workspace w)) 0 = Ret (inl content, n1) ∧
    act (AStep i (Discover (tree_env (NDir es)) fuel)) w = Ret w' ∧
    (wc_documents content !! key = None →
     (∀ k, workspacePathInSubtree k key = false →
        view <$> docs_of (wd_workspace w) !! k = view <$> wc_documents content !! k) →
     ∀ k, view <$> docs_of (wd_workspace w') !! k = view <$> wc_documents content !! k).
Proof.
  intros He Hload Hall Hb Hs Hi Hkey Hst Hcl Hroot Hwf Hh.
  pose proof (loadWorkspace_ensures E He fuel0 root _ _ _ Hload) as Hok. rewrite (demand_app _ _ _ _ Hs) in Hb.
  pose proof (demand_nonneg actions (opened id root content0)).
  pose proof (demand_nonneg [AStep i (Discover (tree_env (NDir es)) fuel)] w) as Hd.
  destruct (workspace_schedule_inv actions _ _ (opened_inv id root content0 Hok ltac:(lia)) Hall ltac:(lia))
    as (w1 & Hs1 & [Hw _ _] & _). assert (w1 = w) as -> by congruence.
  destruct (normalized_key _ _ Hkey) as (xs & Hx & Hxs).
  destruct (tree_load_tree es fuel (ws_root (wd_workspace w)) key xs Hroot Hwf Hh Hx Hxs Hkey)
    as (content & sub & n1 & n2 & Hfull & Hsub & Hres).
  pose proof (load_ensures _ fuel _ key [] (tree_names_ok _ Hwf) (Forall_nil_2 _) _ _ _ Hsub) as Hc.
  destruct (ready_pre _ _ Hw Hst) as (docs & Hpre & Hix & Hdo).
  cbn [demand cost] in Hb, Hd. rewrite Hi, Hsub in Hb, Hd.
  assert (0 ≤ match attempt (AStep i (Discover (tree_env (NDir es)) fuel)) w with Ret _ => 0 | _ => 0 end)%Z
    as Hz by (destruct (attempt _ _); lia).
  destruct (applyContent_ok _ (wd_workspace w) docs key sub Hpre Hix Hc) as (ws' & Happ & _ & _ & Hview).
  { destruct (attempt _ _); lia. }
  exists content, n1, (goto i TFinish ws' w). split; [done|]. split.
  - unfold act. rewrite Hi. cbn [step_thread]. unfold reconcileTree_load. rewrite Hsub. cbn [mbind outcome_bind].
    unfold reconcileTree_commit. cbn [tree_env ctx_Err]. rewrite Hcl, bool_decide_eq_false_2 by (by intros ?).
    cbn [orb]. by rewrite Happ.
  - intros Hnone Hout k. cbn [goto wd_workspace]. rewrite Hview. specialize (Hres Hnone k).
    destruct (workspacePathInSubtree k key) eqn:Hin.
    + case_bool_decide as Ho; [by rewrite Hres|]. rewrite (ct_order _ _ Hc), Hres in Ho.
      destruct (wc_documents content !! k); [|done]. destruct Ho. by eexists.
    + rewrite bool_decide_eq_false_2, <- Hdo; [by apply Hout|]. rewrite (ct_order _ _ Hc), Hres. by intros [? ?].
Qed.
End workspace.

(** ** Concrete runs *)

(** A project before and after an edit: [main.fql] changed, [lib] gained a source. *)
Definition edited_tree : list (string * node) :=
  [("go.mod", NFile "module x"); ("main.fql", NFile "RETURN 10");
   ("lib", NDir [("a.fql", NFile "RETURN 2"); ("b.fql", NFile "RETURN 5")])].

Lemma edited_tree_wf : wf_node (NDir edited_tree).
Proof. unfold edited_tree. solve_wf_tree. Qed.

Definition sample_load : outcome ((workspaceContent string + error) * nat) :=
  loadWorkspace (host:=sample_host) (tree_env (NDir sample_tree)) 3 "/work" 0.

Definition sample_content : workspaceContent string :=
  match sample_load with Ret (inl content, _) => content | _ => mkContent string [] ∅ [] [] end.

Definition sample_world : world := opened "w" "/work" sample_content.

(** One document is refreshed while a tree reconciliation waits, then runs. *)
Definition sample_actions : list action :=
  [AMutate None (MDocument "main.fql" true); AMutate None (MTree "lib");
   AStep 0 Proceed; AStep 1 Proceed; AStep 0 Proceed; AStep 0 Proceed;
   AStep 0 (Discover (tree_env (NDir edited_tree)) 0); AStep 0 Proceed;
   AStep 1 Proceed; AStep 1 Proceed; AStep 1 Proceed].

Definition sample_end (actions : list action) : world :=
  match schedule (host:=sample_host) actions sample_world with Ret w => w | _ => sample_world end.

Lemma workspace_sample_admissible : Forall admissible sample_actions.
Proof.
  unfold sample_actions. repeat (apply Forall_cons; split; [first [exact I|apply tree_names_ok, edited_tree_wf]|]).
  constructor.
Qed.

(** Maps that agree after a filter on the keys agree on the keys it keeps. *)
Lemma agree_filtered {A} (f : string → bool) (m1 m2 : gmap string A) :
  filter (λ kv, f kv.1 = false) m1 = filter (λ kv, f kv.1 = false) m2 →
  ∀ k, f k = false → m1 !! k = m2 !! k.
Proof.
  intros Heq k Hk. apply option_eq. intros a. apply (f_equal (lookup k)) in Heq.
  assert (∀ m : gmap string A, filter (λ kv, f kv.1 = false) m !! k = Some a ↔ m !! k = Some a) as Hf.
  { intros m. rewrite map_lookup_filter_Some. naive_solver. }
  by rewrite <- Hf, Heq, Hf.
Qed.

Lemma workspace_consistent_witness :
  ∃ w, schedule (host:=sample_host) sample_actions sample_world = Ret w ∧
    map (λ d, (f_RelativePath (doc_file d), doc_content d)) (Documents (wd_workspace w)) =
      [("lib/a.fql", "RETURN 2"); ("main.fql", "RETURN 10")] ∧
    NoDup (map doc_generation (Documents (wd_workspace w))).
Proof.
  destruct (workspace_consistent (host:=sample_host) "w" "/work" (tree_env (NDir sample_tree)) 3 0
    (match sample_load with Ret (_, n) => n | _ => 0%nat end) sample_content sample_actions)
    as (w & Hw & _ & _ & Hg & _).
  - apply tree_names_ok, sample_tree_wf.
  - vm_compute. reflexivity.
  - apply workspace_sample_admissible.
  - vm_compute. reflexivity.
  - exists w. split; [exact Hw|]. split; [|exact Hg].
    assert (w = sample_end sample_actions) as -> by (unfold sample_end, sample_world; by rewrite Hw).
    vm_compute. reflexivity.
Defined.

Lemma generation_identifies_witness :
  ∃ d d', docs_of (wd_workspace sample_world) !! "lib/a.fql" = Some d ∧
    docs_of (wd_workspace (sample_end sample_actions)) !! "lib/a.fql" = Some d' ∧
    doc_generation d = 1%Z ∧ "lib/a.fql" = "lib/a.fql" ∧ d' = d.
Proof.
  eexists _, _. split; [vm_compute; reflexivity|]. split; [vm_compute; reflexivity|].
  split; [vm_compute; reflexivity|].
  eapply (generation_identifies (host:=sample_host) "w" "/work" (tree_env (NDir sample_tree)) 3 0
    (match sample_load with Ret (_, n) => n | _ => 0%nat end) sample_content [] sample_actions).
  - apply tree_names_ok, sample_tree_wf.
  - vm_compute. reflexivity.
  - apply workspace_sample_admissible.
  - vm_compute. reflexivity.
  - reflexivity.
  - unfold sample_end, sample_world. vm_compute. reflexivity.
  - vm_compute. reflexivity.
  - vm_compute. reflexivity.
  - reflexivity.
Defined.

Lemma refresh_is_reload_witness :
  ∃ w', act (host:=sample_host) (AStep 1 (Discover (tree_env (NDir edited_tree)) 2)) (sample_end sample_actions) = Ret w' ∧
    ∃ content n1, loadWorkspace (host:=sample_host) (tree_env (NDir edited_tree)) 2 "/work" 0 = Ret (inl content, n1) ∧
      view <$> docs_of (wd_workspace w') !! "lib/b.fql" = view <$> wc_documents content !! "lib/b.fql" ∧
      doc_content <$> wc_documents content !! "lib/b.fql" = Some "RETURN 5".
Proof.
  destruct (refresh_is_reload (host:=sample_host) "w" "/work" (tree_env (NDir sample_tree)) 3 0
    (match sample_load with Ret (_, n) => n | _ => 0%nat end) sample_content sample_actions
    (sample_end sample_actions) 1 2 "lib" edited_tree) as (content & n1 & w' & Hload & Hact & Hall).
  - apply tree_names_ok, sample_tree_wf.
  - vm_compute. reflexivity.
  - apply workspace_sample_admissible.
  - vm_compute. reflexivity.
  - vm_compute. reflexivity.
  - vm_compute. reflexivity.
  - vm_compute. reflexivity.
  - vm_compute. reflexivity.
  - vm_compute. reflexivity.
  - vm_compute. reflexivity.
  - apply edited_tree_wf.
  - vm_compute. repeat constructor.
  - exists w'. split; [exact Hact|].
    assert (ws_root (wd_workspace (sample_end sample_actions)) = "/work") as Hr by (vm_compute; reflexivity).
    rewrite Hr in Hload. exists content, n1. split; [exact Hload|].
    assert (content = match loadWorkspace (host:=sample_host) (tree_env (NDir edited_tree)) 2 "/work" 0
                      with Ret (inl c, _) => c | _ => content end) as Hc by (by rewrite Hload).
    vm_compute in Hc. subst content. split; [|vm_compute; reflexivity]. apply Hall.
    + vm_compute. reflexivity.
    + intros k Hk. rewrite <- !lookup_fmap. revert k Hk. apply agree_filtered. vm_compute. reflexivity.
Defined.
