(* ===== verification/WorkspaceManager.v ===== *)
(** * The workspace manager

    [internal/workspace/manager.go] and [root.go]: concurrent opens of one root
    share a load, a workspace is found by identifier, by root and by the path of
    a document, and it is closed by clients ([Close]) or with all others
    ([Clear]).  The sections under [Manager.mu] are atomic; the calls in between
    are positions of a thread.  Retained documents change concurrently by the
    mutations of [Workspace], here any change that respects [evolve]. *)

From S2P Require Import Prelude Paths Source Errors Lifecycle Uri Discovery DiscoveryFacts Workspace.

(** What a close has done so far, in order. *)
Inductive event := EStopped | EHook (hook : nat) (id : string) | EReleased.

Inductive entryState := workspaceEntryActive | workspaceEntryClosing.

Global Instance entryState_eq_dec : EqDecision entryState.
Proof. solve_decision. Defined.

(** The part of [workspaceWatcher] the manager uses: whether it was started,
    and the error of its [Close], which runs once. *)
Record watcher := mkWatcher { wt_started : bool; wt_closed : option (option error) }.

Definition newWatcher : watcher := mkWatcher false None.

Definition watcher_Start (w : watcher) : watcher :=
  if wt_started w || bool_decide (is_Some (wt_closed w)) then w else mkWatcher true (wt_closed w).

Definition watcher_Close (err : option error) (w : watcher) : option error * watcher :=
  match wt_closed w with
  | Some closeErr => (closeErr, w)
  | None => (err, mkWatcher (wt_started w) (Some err))
  end.

Section manager.
Context {D : Type} `{EqDecision D} {host : Host D}.

(** An open operation allocates its workspace, at most one watcher and, when it
    is committed, the entry of the workspace: a cell holds the four, and a
    pointer to one of them is the index of the cell.  [c_attached] is whether
    the workspace's [watcher] field is set; [c_log] records the teardown. *)
Record cell := mkCell {
  c_generation : Z;
  c_done : bool;
  c_err : option error;
  c_workspace : Workspace (D := D);
  c_attached : bool;
  c_watcher : option watcher;
  c_entry : option (entryState * CloseOperation);
  c_log : list event
}.

Record manager := mkManager {
  wm_byID : gmap string nat;
  wm_byRoot : gmap string string;
  wm_opening : gmap string nat;
  wm_closeHooks : list nat;
  wm_generation : Z;
  wm_cells : list cell
}.

Definition New : manager := mkManager ∅ ∅ ∅ [] 0 [].

(** [RegisterCloseHook]; [None] is a nil hook. *)
Definition RegisterCloseHook (hook : option nat) (m : manager) : manager :=
  match hook with
  | None => m
  | Some hook =>
      mkManager (wm_byID m) (wm_byRoot m) (wm_opening m) (wm_closeHooks m ++ [hook]) (wm_generation m) (wm_cells m)
  end.

(** ** Access to cells *)

Definition c_id (c : cell) : string := ws_id (c_workspace c).
Definition c_root (c : cell) : string := ws_root (c_workspace c).

Definition set_cells (cells : list cell) (m : manager) : manager :=
  mkManager (wm_byID m) (wm_byRoot m) (wm_opening m) (wm_closeHooks m) (wm_generation m) cells.

Definition with_workspace (ws : Workspace) (c : cell) : cell :=
  mkCell (c_generation c) (c_done c) (c_err c) ws (c_attached c) (c_watcher c) (c_entry c) (c_log c).
Definition with_watcher (wt : option watcher) (c : cell) : cell :=
  mkCell (c_generation c) (c_done c) (c_err c) (c_workspace c) (c_attached c) wt (c_entry c) (c_log c).
Definition with_entry (e : option (entryState * CloseOperation)) (c : cell) : cell :=
  mkCell (c_generation c) (c_done c) (c_err c) (c_workspace c) (c_attached c) (c_watcher c) e (c_log c).
Definition detach (c : cell) : cell :=
  mkCell (c_generation c) (c_done c) (c_err c) (c_workspace c) false (c_watcher c) (c_entry c) (c_log c).
Definition record (e : event) (c : cell) : cell :=
  mkCell (c_generation c) (c_done c) (c_err c) (c_workspace c) (c_attached c) (c_watcher c) (c_entry c) (c_log c ++ [e]).

Definition load (k : nat) (m : manager) : outcome cell :=
  match wm_cells m !! k with Some c => Ret c | None => Panic "nil pointer dereference" end.

Definition load_entry (c : cell) : outcome (entryState * CloseOperation) :=
  match c_entry c with Some e => Ret e | None => Panic "nil pointer dereference" end.

Definition put (k : nat) (c : cell) (m : manager) : manager := set_cells (<[k:=c]> (wm_cells m)) m.

(** [close(operation.done)] *)
Definition close_done (err : option error) (c : cell) : outcome cell :=
  if c_done c then Panic "close of closed channel"
  else Ret (mkCell (c_generation c) true err (c_workspace c) (c_attached c) (c_watcher c) (c_entry c) (c_log c)).

(** ** Opening *)

(** [canonicalRoot] with the answer of [os.Stat]: whether the root is a
    directory. *)
Definition canonicalRoot (stat : string → bool + error) (root : string) : string + error :=
  if bool_decide (root = "") || negb (IsAbs root) then inr (wrap_sentinel WsErrInvalidRoot "root must be absolute")
  else
    let canonical := Clean root in
    match stat canonical with
    | inr err => inr (wrap_sentinel WsErrInvalidRoot ("stat root: " +:+ error_text err))
    | inl false => inr (wrap_sentinel WsErrInvalidRoot "root is not a directory")
    | inl true => inl canonical
    end.

(** The workspace of a root, or the operation that opens it. *)
Definition find (root : string) (m : manager) : outcome (option nat * option nat) :=
  match wm_byRoot m !! root with
  | Some id =>
      match wm_byID m !! id with
      | Some k => Ret (Some k, None)
      | None => Panic "nil pointer dereference"
      end
  | None => Ret (None, wm_opening m !! root)
  end.

(** [beginOpen]: the operation this call owns, if it does. *)
Definition beginOpen (id root : string) (m : manager) : option nat * manager :=
  match wm_byRoot m !! root, wm_opening m !! root with
  | Some _, _ | _, Some _ => (None, m)
  | None, None =>
      let k := length (wm_cells m) in
      let c := mkCell (wm_generation m) false None (newWorkspace id root) false None None [] in
      (Some k, mkManager (wm_byID m) (wm_byRoot m) (<[root:=k]> (wm_opening m)) (wm_closeHooks m) (wm_generation m)
                 (wm_cells m ++ [c]))
  end.

(** [fmt.Errorf("%w: load %q: %w", ErrLoad, root, err)]. *)
Definition load_error (root : string) (err : error) : error :=
  wrap_sentinel_cause WsErrLoad ("load " +:+ Quote root) err.

(** The section of [loadAndCommit] that publishes the loaded workspace; [false]
    when the manager was cleared during the load. *)
Definition commit (k : nat) (content : workspaceContent D) (m : manager) : outcome (bool * manager) :=
  c ← load k m;
  if bool_decide (c_generation c ≠ wm_generation m) then Ret (false, m)
  else
    let ws := setReady content (c_workspace c) in
    c ← close_done (c_err c)
          (mkCell (c_generation c) (c_done c) (c_err c) ws true (watcher_Start <$> c_watcher c)
             (Some (workspaceEntryActive, newCloseOperation)) (c_log c));
    Ret (true,
         mkManager (<[ws_id ws:=k]> (wm_byID m)) (<[ws_root ws:=ws_id ws]> (wm_byRoot m))
           (delete (ws_root ws) (wm_opening m)) (wm_closeHooks m) (wm_generation m) (<[k:=c]> (wm_cells m))).

(** The failure branches of [loadAndCommit] before [finishOpen]: the watcher is
    closed when there is one, and the workspace keeps the error. *)
Definition fail_open (k : nat) (cause : error) (closeErr : option error) (m : manager) : outcome (error * manager) :=
  c ← load k m;
  let '(cause, wt) :=
    match c_watcher c with
    | None => (cause, None)
    | Some wt =>
        let '(closeErr, wt) := watcher_Close closeErr wt in
        (default cause (errors_Join [Some cause; closeErr]), Some wt)
    end in
  let err := load_error (c_root c) cause in
  Ret (err, put k (with_watcher wt (with_workspace (setFailed err (c_workspace c)) c)) m).

Definition finishOpen (k : nat) (err : error) (m : manager) : outcome manager :=
  c ← load k m;
  let m := if bool_decide (wm_opening m !! c_root c = Some k)
           then mkManager (wm_byID m) (wm_byRoot m) (delete (c_root c) (wm_opening m)) (wm_closeHooks m)
                  (wm_generation m) (wm_cells m)
           else m in
  c ← close_done (Some err) c;
  Ret (put k c m).

(** ** Lookups *)

Definition active (m : manager) (k : nat) : bool :=
  match wm_cells m !! k with
  | Some c => match c_entry c with Some (workspaceEntryActive, _) => true | _ => false end
  | None => false
  end.

(** The active entries, in the order Go iterates [byID]. *)
Definition active_entries (order : list string) (m : manager) : list nat :=
  filter (λ k, active m k = true) (omap (λ id, wm_byID m !! id) order).

Definition Get (ctxErr : option error) (id : string) (m : manager) : nat + error :=
  match ctxErr with
  | Some err => inr err
  | None =>
      match wm_byID m !! id with
      | Some k => if active m k then inl k else inr (ESentinel WsErrNotFound)
      | None => inr (ESentinel WsErrNotFound)
      end
  end.

Definition root_of (m : manager) (k : nat) : string :=
  match wm_cells m !! k with Some c => c_root c | None => "" end.

Definition root_le (m : manager) (j k : nat) : Prop := String.le (root_of m j) (root_of m k).

Global Instance root_le_dec m : RelDecision (root_le m).
Proof. intros j k. unfold root_le. apply _. Defined.

Definition List (ctxErr : option error) (order : list string) (m : manager) : list nat + error :=
  match ctxErr with
  | Some err => inr err
  | None => inl (merge_sort (root_le m) (active_entries order m))
  end.

(** Longer roots first, then by root. *)
Definition deeper (m : manager) (j k : nat) : Prop :=
  let left := root_of m j in
  let right := root_of m k in
  if bool_decide (String.length left = String.length right) then String.le left right
  else (String.length right < String.length left)%nat.

Global Instance deeper_dec m : RelDecision (deeper m).
Proof. intros j k. unfold deeper. case_bool_decide; apply _. Defined.

Record DocumentLookup := mkLookup {
  dl_Document : Document D;
  dl_Workspace : string;
  dl_Revision : Z;
  dl_Generation : Z
}.

(** The loop of [LookupDocument]: [ctxErr] is the context at each turn, [now]
    the workspaces when they are read. *)
Fixpoint lookup_loop (ctxErr : nat → option error) (turn : nat) (path : string) (now : nat → Workspace)
    (items : list nat) : option DocumentLookup + error :=
  match items with
  | [] => inl None
  | k :: items =>
      match ctxErr turn with
      | Some err => inr err
      | None =>
          match pathWithinRoot (ws_root (now k)) path with
          | None => lookup_loop ctxErr (S turn) path now items
          | Some relative =>
              match lookupDocument relative (now k) with
              | None => inl None
              | Some d => inl (Some (mkLookup d (ws_id (now k)) (doc_revision d) (doc_generation d)))
              end
          end
      end
  end.

Definition LookupDocument (ctxErr : nat → option error) (absolutePath : string) (order : list string) (m : manager)
    (now : nat → Workspace) : option DocumentLookup + error :=
  match ctxErr 0%nat with
  | Some err => inr err
  | None =>
      if bool_decide (absolutePath = "") || negb (IsAbs absolutePath)
      then inr (wrap_sentinel WsErrInvalidRoot "document path must be absolute")
      else lookup_loop ctxErr 1 (Clean absolutePath) now (merge_sort (deeper m) (active_entries order m))
  end.

(** ** Closing *)

(** The body [beginClose] and [Clear] share for an entry: whether this call owns
    the close. *)
Definition close_entry (k : nat) (m : manager) : outcome (bool * manager) :=
  c ← load k m;
  '(state, close) ← load_entry c;
  if bool_decide (state = workspaceEntryClosing) then Ret (false, m)
  else
    let '(started, close) := Begin close in
    if (started : bool) then
      Ret (true, put k (with_entry (Some (workspaceEntryClosing, close))
                          (with_workspace (markClosing (c_workspace c)) c)) m)
    else Panic "workspace: active entry close has already started".

Definition forget_root (root : string) (m : manager) : manager :=
  mkManager (wm_byID m) (delete root (wm_byRoot m)) (wm_opening m) (wm_closeHooks m) (wm_generation m) (wm_cells m).

Definition beginClose (id : string) (m : manager) : outcome (option (nat * bool) * manager) :=
  match wm_byID m !! id with
  | None => Ret (None, m)
  | Some k =>
      '(owner, m) ← close_entry k m;
      Ret (Some (k, owner), if (owner : bool) then forget_root (root_of m k) m else m)
  end.

(** The loop of [Clear]: the entries this call closes. *)
Fixpoint clear_loop (entries : list nat) (m : manager) : outcome (list nat * manager) :=
  match entries with
  | [] => Ret ([], m)
  | k :: entries =>
      '(owner, m) ← close_entry k m;
      '(owned, m) ← clear_loop entries m;
      Ret (if (owner : bool) then k :: owned else owned, m)
  end.

(** The locked section of [Clear]. *)
Definition Clear_enter (entries : list nat) (m : manager) : outcome (list nat * manager) :=
  '(owned, m) ← clear_loop entries m;
  Ret (owned, mkManager (wm_byID m) ∅ ∅ (wm_closeHooks m) (u64 (wm_generation m + 1)) (wm_cells m)).

(** [stopWatcher] with the answer of the watcher. *)
Definition stopWatcher (closeErr : option error) (k : nat) (m : manager) : outcome (option error * manager) :=
  c ← load k m;
  if c_attached c then
    match c_watcher c with
    | None => Panic "nil pointer dereference"
    | Some wt =>
        let '(err, wt) := watcher_Close closeErr wt in
        Ret (err, put k (record EStopped (with_watcher (Some wt) c)) m)
    end
  else Ret (None, put k (record EStopped c) m).

Definition call_hook (hook : nat) (id : string) (k : nat) (m : manager) : outcome manager :=
  c ← load k m; Ret (put k (record (EHook hook id) c) m).

(** [entry.workspace.close()] *)
Definition release (k : nat) (m : manager) : outcome manager :=
  c ← load k m;
  Ret (put k (record EReleased (detach (with_workspace (Workspace_close (c_workspace c)) c))) m).

(** [entry.close.Finish(result)] *)
Definition finish_entry (result : option error) (k : nat) (m : manager) : outcome manager :=
  c ← load k m;
  '(state, close) ← load_entry c;
  close ← Finish result close;
  Ret (put k (with_entry (Some (state, close)) c) m).

(** The last section of [finishClose]. *)
Definition remove_entry (id : string) (k : nat) (m : manager) : manager :=
  if bool_decide (wm_byID m !! id = Some k)
  then mkManager (delete id (wm_byID m)) (wm_byRoot m) (wm_opening m) (wm_closeHooks m) (wm_generation m) (wm_cells m)
  else m.

(** [entry.close.Wait(ctx)]: the published result, or the error of the context
    while there is none. *)
Definition wait_entry (ctxErr : option error) (k : nat) (m : manager) : outcome (option error) :=
  c ← load k m;
  '(_, close) ← load_entry c;
  p ← Wait_enter close;
  match p, ctxErr with
  | WaitReturned err, _ => Ret err
  | WaitPending, Some err => Wait_select close (CaseCtx err)
  | WaitPending, None => Block
  end.

(** What concurrent mutations may change of a workspace: the token of the gate,
    and the retained documents while it is ready and not closing. *)
Record change := mkChange {
  ch_files : list File;
  ch_documents : gmap string (Document D);
  ch_explicitPaths : gset string;
  ch_order : list string;
  ch_nextGeneration : Z;
  ch_gate : bool
}.

Definition evolve (ch : change) (ws : Workspace (D := D)) : Workspace :=
  if ws_closing ws || bool_decide (ws_state ws ≠ StateReady) then set_gate (ch_gate ch) ws
  else
    mkWorkspace (ws_id ws) (ws_root ws) (ws_state ws) (ws_failure ws) (ch_files ch) (Some (ch_documents ch))
      (ch_explicitPaths ch) (ch_order ch) (ch_nextGeneration ch) (ws_closing ws) (ch_gate ch).

(** ** Threads *)

Inductive thread :=
| OLoop (root : string)                            (* Open, at the top of its loop *)
| OWait (root : string) (k : nat)                  (* waitForOpen *)
| ONew (root : string)                             (* Open, before newID *)
| OLoad (root : string) (k : nat)                  (* loadAndCommit, before newWatcher *)
| OLoading (root : string) (k : nat)               (* before AddDirectory and loadWorkspace *)
| OCommit (root : string) (k : nat) (content : workspaceContent D)
| OFail (root : string) (k : nat) (cause : error)  (* before watcher.Close and setFailed *)
| OFinish (root : string) (k : nat) (err : error)  (* before finishOpen *)
| OReturned (root : string) (own : bool) (r : nat + error)
                                                   (* own: ended by its own context, identifier or load *)
| CWait (k : nat)                                  (* Close, waiting *)
| CReturned (k : nat) (r : option error)
| FStart (id : string) (k : nat)                   (* finishClose, before it reads the hooks *)
| FStop (id : string) (k : nat) (hooks : list nat)
| FHooks (id : string) (k : nat) (todo : list nat) (result : option error)
| FRelease (id : string) (k : nat) (result : option error)
| FFinish (id : string) (k : nat) (result : option error)
| FRemove (id : string) (k : nat)
| KWait (generation : Z) (todo : list nat) (result : option error)  (* Clear, waiting *)
| KReturned (generation : Z) (result : option error)
| TDone.

Record world := mkWorld { wd_manager : manager; wd_threads : list thread }.

Inductive answer :=
| Proceed
| Expired (err : error)                         (* the context of the call ended *)
| NewID (r : string + error)
| NewWatcher (err : option error)
| Loaded (r : workspaceContent D + error)       (* AddDirectory, loadWorkspace and ctx.Err *)
| Closed (err : option error)                   (* watcher.Close *)
| Hooked (err : option error).

Inductive action :=
| AOpen (ctxErr : option error) (stat : string → bool + error) (root : string)
| AClose (id : string)
| AClear (order : list string)
| AChange (k : nat) (ch : change)
| AStep (i : nat) (a : answer).

(** A fresh identifier: [uuid.NewRandom] does not repeat one. *)
Definition id_unused (id : string) (m : manager) : bool :=
  forallb (λ c, negb (bool_decide (c_id c = id))) (wm_cells m).

Definition goto (i : nat) (t : thread) (m : manager) (w : world) : world := mkWorld m (<[i:=t]> (wd_threads w)).
Definition spawn (ts : list thread) (m : manager) (w : world) : world := mkWorld m (wd_threads w ++ ts).

Definition cancellation (err : error) : bool :=
  errors_Is err ContextCanceled || errors_Is err ContextDeadlineExceeded.

(** [if err != nil { result = errors.Join(result, err) }]. *)
Definition add_error (result err : option error) : option error :=
  match err with Some _ => errors_Join [result; err] | None => result end.

(** What [Open] does when the operation it waited for is done. *)
Definition after_wait (root : string) (k : nat) (c : cell) : thread :=
  match c_err c with
  | None => OReturned root false (inl k)
  | Some err => if cancellation err then OLoop root else OReturned root false (inr err)
  end.

Definition step_thread (i : nat) (t : thread) (a : answer) (w : world) : outcome world :=
  let m := wd_manager w in
  match t, a with
  | OLoop root, Expired err => Ret (goto i (OReturned root true (inr err)) m w)
  | OLoop root, Proceed =>
      '(existing, opening) ← find root m;
      Ret (goto i (match existing, opening with
                   | Some k, _ => OReturned root false (inl k)
                   | None, Some k => OWait root k
                   | None, None => ONew root
                   end) m w)
  | OWait root k, Expired err => Ret (goto i (OReturned root true (inr err)) m w)
  | OWait root k, Proceed =>
      c ← load k m;
      if c_done c then Ret (goto i (after_wait root k c) m w) else Block
  | ONew root, NewID (inr err) =>
      Ret (goto i (OReturned root true (inr (EWraps (sentinel_text WsErrLoad +:+ ": " +:+ error_text err)
                                               [ESentinel WsErrLoad; err]))) m w)
  | ONew root, NewID (inl id) =>
      if id_unused id m then
        let '(owned, m) := beginOpen id root m in
        Ret (goto i (match owned with Some k => OLoad root k | None => OLoop root end) m w)
      else Block
  | OLoad root k, NewWatcher (Some err) => Ret (goto i (OFail root k err) m w)
  | OLoad root k, NewWatcher None =>
      c ← load k m;
      Ret (goto i (OLoading root k) (put k (with_watcher (Some newWatcher) c) m) w)
  | OLoading root k, Loaded (inr err) => Ret (goto i (OFail root k err) m w)
  | OLoading root k, Loaded (inl content) => Ret (goto i (OCommit root k content) m w)
  | OCommit root k content, Proceed =>
      '(ok, m) ← commit k content m;
      Ret (goto i (if (ok : bool) then OReturned root true (inl k)
                   else OFail root k (ENew "workspace manager was cleared during load")) m w)
  | OFail root k cause, Closed closeErr =>
      '(err, m) ← fail_open k cause closeErr m;
      Ret (goto i (OFinish root k err) m w)
  | OFinish root k err, Proceed => m ← finishOpen k err m; Ret (goto i (OReturned root true (inr err)) m w)
  | CWait k, Expired err => r ← wait_entry (Some err) k m; Ret (goto i (CReturned k r) m w)
  | CWait k, Proceed => r ← wait_entry None k m; Ret (goto i (CReturned k r) m w)
  | FStart id k, Proceed => Ret (goto i (FStop id k (wm_closeHooks m)) m w)
  | FStop id k hooks, Closed err =>
      '(result, m) ← stopWatcher err k m;
      Ret (goto i (FHooks id k hooks result) m w)
  | FHooks id k (hook :: todo) result, Hooked err =>
      m ← call_hook hook id k m;
      Ret (goto i (FHooks id k todo (add_error result err)) m w)
  | FHooks id k [] result, Proceed => Ret (goto i (FRelease id k result) m w)
  | FRelease id k result, Proceed => m ← release k m; Ret (goto i (FFinish id k (errors_Join [result; None])) m w)
  | FFinish id k result, Proceed => m ← finish_entry result k m; Ret (goto i (FRemove id k) m w)
  | FRemove id k, Proceed => Ret (goto i TDone (remove_entry id k m) w)
  | KWait generation (k :: todo) result, Expired err =>
      r ← wait_entry (Some err) k m; Ret (goto i (KWait generation todo (add_error result r)) m w)
  | KWait generation (k :: todo) result, Proceed =>
      r ← wait_entry None k m; Ret (goto i (KWait generation todo (add_error result r)) m w)
  | KWait generation [] result, Proceed => Ret (goto i (KReturned generation result) m w)
  | _, _ => Block
  end.

Definition act (a : action) (w : world) : outcome world :=
  let m := wd_manager w in
  match a with
  | AOpen (Some _) _ _ => Ret w
  | AOpen None stat root =>
      Ret (match canonicalRoot stat root with
           | inr _ => w
           | inl canonical => spawn [OLoop canonical] m w
           end)
  | AClose id =>
      '(found, m) ← beginClose id m;
      Ret (match found with
           | None => spawn [] m w
           | Some (k, owner) => spawn (if (owner : bool) then [FStart id k; CWait k] else [CWait k]) m w
           end)
  | AClear order =>
      if bool_decide (order ≡ₚ map fst (map_to_list (wm_byID m))) then
        let entries := omap (λ id, wm_byID m !! id) order in
        '(owned, m) ← Clear_enter entries m;
        Ret (spawn (map (λ k, FStart (default "" (c_id <$> wm_cells m !! k)) k) owned ++
                    [KWait (wm_generation m) entries None]) m w)
      else Block
  | AChange k ch =>
      match wm_cells m !! k with
      | Some c => Ret (mkWorld (put k (with_workspace (evolve ch (c_workspace c)) c) m) (wd_threads w))
      | None => Block
      end
  | AStep i a => match wd_threads w !! i with Some t => step_thread i t a w | None => Block end
  end.

Definition attempt (a : action) (w : world) : outcome world :=
  match act a w with
  | Ret w => Ret w
  | Panic m => Panic m
  | Block => Ret w
  end.

Fixpoint schedule (actions : list action) (w : world) : outcome world :=
  match actions with
  | [] => Ret w
  | a :: actions => w ← attempt a w; schedule actions w
  end.

(** A manager with its hooks, registered during construction. *)
Definition initial (hooks : list nat) : world :=
  mkWorld (foldl (λ m hook, RegisterCloseHook (Some hook) m) New hooks) [].

(** ** Invariant *)

(** The threads that load a cell, and those that tear it down. *)
Definition owns (k : nat) (t : thread) : bool :=
  match t with
  | OLoad _ j | OLoading _ j | OCommit _ j _ | OFail _ j _ | OFinish _ j _ => bool_decide (j = k)
  | _ => false
  end.

Definition finishes (k : nat) (t : thread) : bool :=
  match t with
  | FStart _ j | FStop _ j _ | FHooks _ j _ _ | FRelease _ j _ | FFinish _ j _ => bool_decide (j = k)
  | _ => false
  end.

Definition is_active (c : cell) : Prop := ∃ close, c_entry c = Some (workspaceEntryActive, close).
Definition is_closing (c : cell) : Prop := ∃ close, c_entry c = Some (workspaceEntryClosing, close).
Definition is_finished (c : cell) : Prop :=
  ∃ close, c_entry c = Some (workspaceEntryClosing, close) ∧ co_state close = closeFinished.

(** The watcher of the cell, if there was one, is closed. *)
Definition watcher_released (c : cell) : Prop := ∀ wt, c_watcher c = Some wt → is_Some (wt_closed wt).

Definition hook_events (hooks : list nat) (id : string) : list event := map (λ h, EHook h id) hooks.

(** The teardown is complete: the watcher was stopped, then every hook ran, then
    the sources were released. *)
Definition torn_down (hooks : list nat) (c : cell) : Prop :=
  ws_state (c_workspace c) = StateClosed ∧ ws_documents (c_workspace c) = None ∧ c_attached c = false ∧
  watcher_released c ∧ c_log c = EStopped :: hook_events hooks (c_id c) ++ [EReleased].

Definition closer (c : cell) : nat :=
  match c_entry c with
  | Some (_, close) => if bool_decide (co_state close = closeStarted) then 1 else 0
  | None => 0
  end.

(** What the state of a cell says of the maps of the manager: [listed],
    [current] and [opens] are whether they lead to the cell. *)
Definition cell_shape (hooks : list nat) (latest : bool) (listed current opens : Prop) (c : cell) : Prop :=
  match c_entry c with
  | None =>
      ~ listed ∧ c_attached c = false ∧ c_log c = [] ∧ ws_closing (c_workspace c) = false ∧
      (opens ↔ c_done c = false ∧ latest = true) ∧ (c_done c = false → c_err c = None) ∧
      (c_done c = true → is_Some (c_err c) ∧ ws_state (c_workspace c) = StateFailed ∧ watcher_released c)
  | Some (workspaceEntryActive, close) =>
      listed ∧ current ∧ ~ opens ∧ c_done c = true ∧ c_err c = None ∧ close = newCloseOperation ∧
      ws_state (c_workspace c) = StateReady ∧ ws_closing (c_workspace c) = false ∧ c_attached c = true ∧
      c_watcher c = Some (mkWatcher true None) ∧ c_log c = []
  | Some (workspaceEntryClosing, close) =>
      ~ current ∧ ~ opens ∧ c_done c = true ∧ c_err c = None ∧ ws_closing (c_workspace c) = true ∧
      match co_state close with
      | closeIdle => False
      | closeStarted => listed ∧ close = mkCloseOperation closeStarted (Some false) None
      | closeFinished => torn_down hooks c
      end
  end.

Definition cell_ok (m : manager) (ts : list thread) (k : nat) (c : cell) : Prop :=
  count (owns k) ts = (if c_done c then 0 else 1)%nat ∧ count (finishes k) ts = closer c ∧
  (c_generation c ≤ wm_generation m)%Z ∧
  cell_shape (wm_closeHooks m) (bool_decide (c_generation c = wm_generation m))
    (wm_byID m !! c_id c = Some k) (wm_byRoot m !! c_root c = Some (c_id c)) (wm_opening m !! c_root c = Some k) c.

(** The cell a thread works on, and what it knows of it. *)
Definition target (t : thread) : option nat :=
  match t with
  | OLoad _ k | OLoading _ k | OCommit _ k _ | OFail _ k _ | OFinish _ k _
  | FStart _ k | FStop _ k _ | FHooks _ k _ _ | FRelease _ k _ | FFinish _ k _ => Some k
  | _ => None
  end.

Definition watching (c : cell) : Prop :=
  ws_state (c_workspace c) = StateReady ∧ c_attached c = true ∧ c_watcher c = Some (mkWatcher true None) ∧ c_log c = [].

Definition stopped (c : cell) (ran : list nat) : Prop :=
  ws_state (c_workspace c) = StateReady ∧ watcher_released c ∧ c_log c = EStopped :: hook_events ran (c_id c).

Definition stage (hooks : list nat) (t : thread) (c : cell) : Prop :=
  match t with
  | OLoad root _ => c_root c = root ∧ c_watcher c = None
  | OLoading root _ | OCommit root _ _ => c_root c = root ∧ c_watcher c = Some newWatcher
  | OFail root _ _ => c_root c = root
  | OFinish root _ _ => c_root c = root ∧ ws_state (c_workspace c) = StateFailed ∧ watcher_released c
  | FStart id _ => c_id c = id ∧ watching c
  | FStop id _ hs => c_id c = id ∧ watching c ∧ hs = hooks
  | FHooks id _ todo _ => c_id c = id ∧ ∃ ran, hooks = ran ++ todo ∧ stopped c ran
  | FRelease id _ _ => c_id c = id ∧ stopped c hooks
  | FFinish id _ _ => c_id c = id ∧ torn_down hooks c
  | _ => True
  end.

(** What a [Clear] that started generation [g] still waits for. *)
Definition cleared (m : manager) (g : Z) (result : option error) (todo : list nat) : Prop :=
  (g ≤ wm_generation m)%Z ∧
  (∀ k, k ∈ todo → ∃ c, wm_cells m !! k = Some c ∧ is_closing c) ∧
  (result = None → ∀ k c, wm_cells m !! k = Some c → (c_generation c < g)%Z →
     c_entry c = None ∨ is_finished c ∨ k ∈ todo).

Definition passive (m : manager) (t : thread) : Prop :=
  match t with
  | OWait root k => ∃ c, wm_cells m !! k = Some c ∧ c_root c = root
  | OReturned root _ (inl k) => ∃ c, wm_cells m !! k = Some c ∧ c_root c = root ∧ is_Some (c_entry c)
  | OReturned _ false (inr err) => cancellation err = false
  | CWait k => ∃ c, wm_cells m !! k = Some c ∧ is_closing c
  | CReturned k None => ∃ c, wm_cells m !! k = Some c ∧ is_finished c
  | FRemove id k => ∃ c, wm_cells m !! k = Some c ∧ c_id c = id ∧ is_finished c
  | KWait g todo result => cleared m g result todo
  | KReturned g result => cleared m g result []
  | _ => True
  end.

Definition thread_ok (m : manager) (t : thread) : Prop :=
  passive m t ∧
  ∀ k, target t = Some k → ∃ c, wm_cells m !! k = Some c ∧ stage (wm_closeHooks m) t c.

Record inv (hooks : list nat) (m : manager) (ts : list thread) : Prop := {
  iv_hooks : wm_closeHooks m = hooks;
  iv_generation : (0 ≤ wm_generation m)%Z;
  iv_cells : ∀ k c, wm_cells m !! k = Some c → cell_ok m ts k c;
  iv_none : ∀ k, wm_cells m !! k = None → count (owns k) ts = 0%nat ∧ count (finishes k) ts = 0%nat;
  iv_ids : ∀ j k c d, wm_cells m !! j = Some c → wm_cells m !! k = Some d → c_id c = c_id d → j = k;
  iv_byID : ∀ id k, wm_byID m !! id = Some k → ∃ c, wm_cells m !! k = Some c ∧ c_id c = id;
  iv_byRoot : ∀ root id, wm_byRoot m !! root = Some id →
    ∃ k c, wm_byID m !! id = Some k ∧ wm_cells m !! k = Some c ∧ c_root c = root ∧ is_active c;
  iv_opening : ∀ root k, wm_opening m !! root = Some k →
    wm_byRoot m !! root = None ∧ ∃ c, wm_cells m !! k = Some c ∧ c_root c = root;
  iv_threads : ∀ t, t ∈ ts → thread_ok m t
}.

(** ** Evolution of cells *)

Record cell_grows (g : Z) (c c' : cell) : Prop := {
  cg_id : c_id c' = c_id c;
  cg_root : c_root c' = c_root c;
  cg_generation : c_generation c' = c_generation c;
  cg_stale : (c_generation c < g)%Z → c_entry c = None → c_entry c' = None;
  cg_entry : is_Some (c_entry c) → is_Some (c_entry c');
  cg_closing : is_closing c → is_closing c';
  cg_finished : is_finished c → is_finished c'
}.

Record grows (m m' : manager) : Prop := {
  gr_generation : (wm_generation m ≤ wm_generation m')%Z;
  gr_cells : ∀ k c, wm_cells m !! k = Some c → ∃ c', wm_cells m' !! k = Some c' ∧ cell_grows (wm_generation m) c c';
  gr_new : ∀ k c, wm_cells m !! k = None → wm_cells m' !! k = Some c → c_generation c = wm_generation m
}.

Lemma cell_grows_refl g c : cell_grows g c c.
Proof. by split. Qed.

Lemma cleared_grows m m' g result todo : grows m m' → cleared m g result todo → cleared m' g result todo.
Proof.
  intros [G1 G2 G3] (Hg & Hc & Hr). split_and!; [lia| |].
  - intros k Hk. destruct (Hc k Hk) as (c & E & Hcl). destruct (G2 _ _ E) as (c' & E' & G). exists c'. split; [done|by apply G].
  - intros Hn k c' E' Hlt. destruct (wm_cells m !! k) as [c|] eqn:E.
    + destruct (G2 _ _ E) as (c2 & E2 & G). assert (c2 = c') as -> by congruence. rewrite (cg_generation _ _ _ G) in Hlt.
      destruct (Hr Hn _ _ E Hlt) as [?|[?|?]]; [left; apply G; [lia|done]|right; left; by apply G|by right; right].
    + rewrite (G3 _ _ E E') in Hlt. lia.
Qed.

Lemma passive_grows m m' t : grows m m' → passive m t → passive m' t.
Proof.
  intros G. destruct t; simpl; try done; try (by apply cleared_grows).
  all: repeat match goal with x : option error |- _ => destruct x | b : bool |- _ => destruct b | r : (nat + error)%type |- _ => destruct r end;
    try done.
  all: intros (c & E & Hx); destruct (gr_cells _ _ G _ _ E) as (c' & E' & [I R _ _ S C F]); exists c'; split; [done|].
  all: rewrite ?I, ?R; naive_solver.
Qed.

(** ** Steps that keep the maps *)

Definition busy (k : nat) (t : thread) : bool := owns k t || finishes k t.

Lemma busy_target k t : busy k t = true ↔ target t = Some k.
Proof.
  destruct t; simpl; unfold busy; simpl; try (by split); rewrite ?orb_false_r, bool_decide_eq_true; naive_solver.
Qed.

(** A cell that is loaded is not torn down. *)
Lemma busy_count m ts k c : cell_ok m ts k c → (count (busy k) ts ≤ 1)%nat.
Proof.
  intros (Ho & Hf & _ & Hs).
  assert (count (busy k) ts ≤ count (owns k) ts + count (finishes k) ts)%nat.
  { clear. induction ts as [|t ts IH]; simpl; [lia|]. unfold busy at 1. destruct (owns k t), (finishes k t); simpl; lia. }
  unfold closer in Hf. unfold cell_shape in Hs. destruct (c_entry c) as [[[] cl]|].
  - destruct Hs as (_ & _ & _ & Hd & _). rewrite Hd in Ho. case_bool_decide; lia.
  - destruct Hs as (_ & _ & Hd & _). rewrite Hd in Ho. case_bool_decide; lia.
  - destruct (c_done c); lia.
Qed.

(** The cell changes only in ways other threads do not depend on. *)
Record put_ok (m m' : manager) (k : nat) (c c' : cell) : Prop := {
  po_grows : cell_grows (wm_generation m) c c';
  po_cells : wm_cells m' = <[k:=c']> (wm_cells m);
  po_hooks : wm_closeHooks m' = wm_closeHooks m;
  po_generation : wm_generation m' = wm_generation m
}.

Lemma put_grows m m' k c c' : wm_cells m !! k = Some c → put_ok m m' k c c' → grows m m'.
Proof.
  intros E [G C _ Hg]. split; [lia| |].
  - intros j d Ed. rewrite C. destruct (decide (j = k)) as [->|Hne].
    + simplify_eq. exists c'. split; [apply list_lookup_insert_eq; by eapply lookup_lt_Some|done].
    + exists d. rewrite list_lookup_insert_ne by done. split; [done|apply cell_grows_refl].
  - intros j d Ed. rewrite C. destruct (decide (j = k)) as [->|Hne]; [congruence|].
    rewrite list_lookup_insert_ne by done. congruence.
Qed.

(** The other threads are not disturbed by a change of cell [k] by its busy
    thread, or when it has none. *)
Lemma threads_put hooks m m' ts i t t' k c c' : inv hooks m ts → wm_cells m !! k = Some c → put_ok m m' k c c' →
  ts !! i = Some t → busy k t = true → thread_ok m' t' → ∀ u, u ∈ <[i:=t']> ts → thread_ok m' u.
Proof.
  intros I E P Ht Hb Ht' u Hu. apply list_elem_of_lookup in Hu as (j & Hj).
  destruct (decide (j = i)) as [->|Hne].
  { rewrite list_lookup_insert_eq in Hj by (by eapply lookup_lt_Some). by simplify_eq. }
  rewrite list_lookup_insert_ne in Hj by done.
  destruct (iv_threads _ _ _ I u) as [Hp Hs]; [by eapply list_elem_of_lookup_2|].
  split; [by eapply passive_grows; [eapply put_grows|]|].
  intros k' Hk'. destruct (Hs k' Hk') as (d & Ed & Hst). destruct P as [_ C Hh _]. rewrite C, Hh.
  destruct (decide (k' = k)) as [->|Hnk]; [|by rewrite list_lookup_insert_ne by done; eauto].
  exfalso. pose proof (busy_count _ _ _ _ (iv_cells _ _ _ I _ _ E)).
  apply busy_target in Hk'. pose proof (count_two (busy k) ts i j t u). naive_solver lia.
Qed.

Lemma count_other f (ts : list thread) i t t' : ts !! i = Some t → f t' = f t → count f (<[i:=t']> ts) = count f ts.
Proof. intros E Hf. pose proof (count_insert f ts i t t' E). rewrite Hf in *. lia. Qed.

(** A cell of another index is untouched when what leads to it is. *)
Lemma cell_ok_other m m' ts ts' k c : cell_ok m ts k c →
  count (owns k) ts' = count (owns k) ts → count (finishes k) ts' = count (finishes k) ts →
  wm_closeHooks m' = wm_closeHooks m → wm_generation m' = wm_generation m →
  (wm_byID m' !! c_id c = Some k ↔ wm_byID m !! c_id c = Some k) →
  (wm_byRoot m' !! c_root c = Some (c_id c) ↔ wm_byRoot m !! c_root c = Some (c_id c)) →
  (wm_opening m' !! c_root c = Some k ↔ wm_opening m !! c_root c = Some k) → cell_ok m' ts' k c.
Proof.
  intros (H1 & H2 & H3 & H4) Ho Hf Hh Hg Hid Hr Hop. unfold cell_ok. rewrite Ho, Hf, Hh, Hg. split_and!; [done..|].
  unfold cell_shape in *. destruct (c_entry c) as [[[] cl]|]; [| |]; rewrite ?Hid, ?Hr, ?Hop; try done.
  destruct (co_state cl); naive_solver.
Qed.

(** A step of the busy thread of a cell that leaves the maps alone. *)
Lemma inv_put hooks m ts i t t' k c c' : inv hooks m ts → ts !! i = Some t → busy k t = true →
  wm_cells m !! k = Some c → put_ok m (put k c' m) k c c' → (is_active c → is_active c') →
  (∀ j, j ≠ k → owns j t' = owns j t ∧ finishes j t' = finishes j t) →
  cell_ok (put k c' m) (<[i:=t']> ts) k c' → thread_ok (put k c' m) t' → inv hooks (put k c' m) (<[i:=t']> ts).
Proof.
  intros I Ht Hb E P Ha Hoth Hc' Ht'. pose proof (put_grows _ _ _ _ _ E P) as G. pose proof I as [I1 I2 I3 I4 I5 I6 I7 I8 I9].
  assert (Hcell : ∀ j d, wm_cells (put k c' m) !! j = Some d →
    (j = k ∧ d = c') ∨ (j ≠ k ∧ wm_cells m !! j = Some d)).
  { intros j d. simpl. destruct (decide (j = k)) as [->|Hne].
    - rewrite list_lookup_insert_eq by (by eapply lookup_lt_Some). naive_solver.
    - rewrite list_lookup_insert_ne by done. naive_solver. }
  assert (Hmap : ∀ j d, wm_cells m !! j = Some d → ∃ d', wm_cells (put k c' m) !! j = Some d' ∧ c_id d' = c_id d ∧
    c_root d' = c_root d ∧ (is_active d → is_active d')).
  { intros j d Ed. destruct (gr_cells _ _ G _ _ Ed) as (d' & Ed' & [X Y _ _ _ _ _]). exists d'. split_and!; [done..|].
    destruct (Hcell _ _ Ed') as [[-> ->]|[_ ?]]; [|by simplify_eq]. by simplify_eq. }
  split; try done.
  - intros j d Ed. destruct (Hcell _ _ Ed) as [[-> ->]|[Hne Ed']]; [done|]. destruct (Hoth j Hne) as [H1 H2].
    apply (cell_ok_other m _ ts); try done; [by apply I3|by apply (count_other _ _ _ t)..].
  - intros j Hj. simpl in Hj. assert (Hne : j ≠ k).
    { intros ->. apply lookup_ge_None in Hj. rewrite length_insert in Hj. apply lookup_lt_Some in E. lia. }
    rewrite list_lookup_insert_ne in Hj by done. destruct (Hoth j Hne) as [H1 H2].
    rewrite !(count_other _ _ _ t) by done. by apply I4.
  - assert (Hid : ∀ j d, wm_cells (put k c' m) !! j = Some d → ∃ d0, wm_cells m !! j = Some d0 ∧ c_id d0 = c_id d).
    { intros j d Ed. destruct (Hcell _ _ Ed) as [[-> ->]|[_ ?]]; [exists c; split; [done|by rewrite (cg_id _ _ _ (po_grows _ _ _ _ _ P))]|eauto]. }
    intros j l d d' Ed Ed' Heq. destruct (Hid _ _ Ed) as (? & ? & ?), (Hid _ _ Ed') as (? & ? & ?). eapply I5; [done..|congruence].
  - intros id j Hj. destruct (I6 _ _ Hj) as (d & Ed & <-). destruct (Hmap _ _ Ed) as (d' & ? & ? & _). eauto.
  - intros r id Hr. destruct (I7 _ _ Hr) as (j & d & Hj & Ed & <- & Hac). destruct (Hmap _ _ Ed) as (d' & ? & _ & ? & ?).
    exists j, d'. eauto.
  - intros r j Hj. destruct (I8 _ _ Hj) as (Hn & d & Ed & <-). split; [done|]. destruct (Hmap _ _ Ed) as (d' & ? & _ & ? & _). eauto.
  - by eapply threads_put.
Qed.

Definition keeps (hooks : list nat) (o : outcome world) : Prop :=
  match o with
  | Ret w => inv hooks (wd_manager w) (wd_threads w)
  | Panic _ => False
  | Block => True
  end.

Lemma load_Some m k c : wm_cells m !! k = Some c → load k m = Ret c.
Proof. intros E. unfold load. by rewrite E. Qed.

(** What the invariant says of the cell of a busy thread. *)
Lemma target_cell hooks m ts i t k : inv hooks m ts → ts !! i = Some t → target t = Some k →
  ∃ c, wm_cells m !! k = Some c ∧ stage hooks t c ∧ cell_ok m ts k c ∧ load k m = Ret c.
Proof.
  intros I Ht Hk. destruct (iv_threads _ _ _ I t) as [_ Hs]; [by eapply list_elem_of_lookup_2|].
  destruct (Hs k Hk) as (c & E & Hst). rewrite (iv_hooks _ _ _ I) in Hst.
  exists c. split_and!; [done|done|by eapply iv_cells|by apply load_Some].
Qed.

Lemma thread_at hooks m ts t k c : inv hooks m ts → target t = Some k → wm_cells m !! k = Some c →
  passive m t → stage hooks t c → thread_ok m t.
Proof. intros I Hk E Hp Hs. split; [done|]. intros j Hj. simplify_eq. rewrite (iv_hooks _ _ _ I). by exists c. Qed.

(** A cell that is being loaded has no entry, one that is torn down is closing. *)
Lemma owner_loading m ts i t k c : cell_ok m ts k c → ts !! i = Some t → owns k t = true →
  c_done c = false ∧ c_entry c = None.
Proof.
  intros (Ho & _ & _ & Hs) Ht Hown. pose proof (count_pos _ _ _ _ Ht Hown). destruct (c_done c) eqn:Ed; [lia|].
  split; [done|]. unfold cell_shape in Hs. destruct (c_entry c) as [[[] cl]|]; naive_solver congruence.
Qed.

Lemma finisher_closing m ts i t k c : cell_ok m ts k c → ts !! i = Some t → finishes k t = true →
  c_entry c = Some (workspaceEntryClosing, mkCloseOperation closeStarted (Some false) None) ∧ c_done c = true.
Proof.
  intros (_ & Hf & _ & Hs) Ht Hfin. pose proof (count_pos _ _ _ _ Ht Hfin). unfold closer in Hf. unfold cell_shape in Hs.
  destruct (c_entry c) as [[[] cl]|]; [| |lia].
  - destruct Hs as (_ & _ & _ & _ & _ & -> & _). simpl in Hf. lia.
  - case_bool_decide as Hst; [|lia]. destruct Hs as (_ & _ & Hd & _ & _ & Hm). rewrite Hst in Hm.
    destruct Hm as [_ ->]. done.
Qed.

(** Steps that change no cell. *)
Lemma wm_inv_goto hooks m ts i t t' : inv hooks m ts → ts !! i = Some t →
  (∀ k, owns k t' = owns k t ∧ finishes k t' = finishes k t) → thread_ok m t' → inv hooks m (<[i:=t']> ts).
Proof.
  intros [I1 I2 I3 I4 I5 I6 I7 I8 I9] Ht Hsame Ht'.
  assert (∀ k, count (owns k) (<[i:=t']> ts) = count (owns k) ts ∧ count (finishes k) (<[i:=t']> ts) = count (finishes k) ts) as Hc.
  { intros k. destruct (Hsame k). by rewrite !(count_other _ _ _ t). }
  split; try done.
  - intros k c E. destruct (Hc k). by apply (cell_ok_other m m ts); auto.
  - intros k E. destruct (Hc k) as [-> ->]. by apply I4.
  - intros u Hu. apply list_elem_of_lookup in Hu as (j & Hj). destruct (decide (j = i)) as [->|Hne].
    + rewrite list_lookup_insert_eq in Hj by (by eapply lookup_lt_Some). by simplify_eq.
    + rewrite list_lookup_insert_ne in Hj by done. apply I9. by eapply list_elem_of_lookup_2.
Qed.

(** A teardown or load step of cell [k] that keeps its flags and its entry. *)
Lemma inv_work hooks m ts i t t' k c c' : inv hooks m ts → ts !! i = Some t → target t = Some k → target t' = Some k →
  (owns k t' = owns k t ∧ finishes k t' = finishes k t) →
  wm_cells m !! k = Some c → c_entry c' = c_entry c → c_done c' = c_done c → c_id c' = c_id c → c_root c' = c_root c →
  c_generation c' = c_generation c →
  (cell_ok m ts k c → cell_shape (wm_closeHooks m) (bool_decide (c_generation c = wm_generation m))
    (wm_byID m !! c_id c = Some k) (wm_byRoot m !! c_root c = Some (c_id c)) (wm_opening m !! c_root c = Some k) c') →
  passive (put k c' m) t' → stage hooks t' c' → inv hooks (put k c' m) (<[i:=t']> ts).
Proof.
  intros I Ht Htk Htk' [Ho Hf] E Hen Hdn Hid Hro Hge Hsh Hp Hst. pose proof (iv_cells _ _ _ I _ _ E) as Hok.
  eapply (inv_put hooks m ts i t t' k c c'); try done.
  - by apply busy_target.
  - split; try done. split; try done; unfold is_closing, is_finished; rewrite ?Hen; auto.
  - unfold is_active. by rewrite Hen.
  - intros j Hj. assert (busy j t = false ∧ busy j t' = false) as [B B'].
    { split; apply not_true_is_false; rewrite busy_target; congruence. }
    unfold busy in *. by destruct (owns j t), (owns j t'), (finishes j t), (finishes j t').
  - pose proof (Hsh Hok) as Hshape. destruct Hok as (C1 & C2 & C3 & _). unfold cell_ok.
    rewrite !(count_other _ _ _ t) by done. unfold closer in *. simpl. rewrite Hdn, Hen, Hid, Hro, Hge. done.
  - split; [done|]. intros j Hj. simplify_eq. rewrite (iv_hooks _ _ _ I : wm_closeHooks (put k c' m) = hooks).
    exists c'. split; [|done]. simpl. apply list_lookup_insert_eq. by eapply lookup_lt_Some.
Qed.

(** The shape of a loading cell does not depend on its watcher or on its
    workspace beyond the closing flag. *)
Lemma loading_shape hooks latest listed current opens c c' : c_entry c = None → c_done c = false →
  c_entry c' = None → c_done c' = false → c_err c' = c_err c → c_attached c' = c_attached c → c_log c' = c_log c →
  ws_closing (c_workspace c') = ws_closing (c_workspace c) →
  cell_shape hooks latest listed current opens c → cell_shape hooks latest listed current opens c'.
Proof. unfold cell_shape. intros -> -> -> -> -> -> -> -> (?&?&?&?&?&?&?). done. Qed.

Lemma ol_watcher_step hooks m ts i root k a : inv hooks m ts → ts !! i = Some (OLoad root k) →
  keeps hooks (step_thread i (OLoad root k) a (mkWorld m ts)).
Proof.
  intros I Ht. destruct (target_cell _ _ _ _ _ k I Ht) as (c & E & (Hr & Hw) & Hok & HL); [done|].
  destruct (owner_loading _ _ _ _ _ _ Hok Ht) as [Hd He]; [simpl; by rewrite bool_decide_true|].
  destruct a as [| | |[err|]| | |]; try exact Logic.I; simpl; [|rewrite HL; simpl].
  - apply (wm_inv_goto _ _ _ _ _ _ I Ht); [done|]. by eapply thread_at.
  - eapply (inv_work _ _ _ _ _ _ _ c); try done. intros (_ & _ & _ & Hs). revert Hs. by apply loading_shape.
Qed.

Lemma ol_loaded_step hooks m ts i root k a : inv hooks m ts → ts !! i = Some (OLoading root k) →
  keeps hooks (step_thread i (OLoading root k) a (mkWorld m ts)).
Proof.
  intros I Ht. destruct (target_cell _ _ _ _ _ k I Ht) as (c & E & (Hr & Hw) & Hok & HL); [done|].
  destruct a as [| | | |[content|err]| |]; try exact Logic.I; simpl;
    (apply (wm_inv_goto _ _ _ _ _ _ I Ht); [done|]; by eapply thread_at).
Qed.

Lemma watcher_Close_closed err wt : is_Some (wt_closed (watcher_Close err wt).2).
Proof. unfold watcher_Close. by destruct (wt_closed wt) as [e|] eqn:E; simpl; rewrite ?E. Qed.

Lemma of_fail_step hooks m ts i root k cause a : inv hooks m ts → ts !! i = Some (OFail root k cause) →
  keeps hooks (step_thread i (OFail root k cause) a (mkWorld m ts)).
Proof.
  intros I Ht. destruct (target_cell _ _ _ _ _ k I Ht) as (c & E & Hr & Hok & HL); [done|].
  destruct (owner_loading _ _ _ _ _ _ Hok Ht) as [Hd He]; [simpl; by rewrite bool_decide_true|].
  destruct a as [| | | | |err|]; try exact Logic.I. simpl. unfold fail_open. rewrite HL. simpl.
  set (o := match c_watcher c with Some _ => _ | None => _ end).
  assert (∀ wt, o.2 = Some wt → is_Some (wt_closed wt)) as Ho.
  { subst o. destruct (c_watcher c) as [wt|]; [|done]. pose proof (watcher_Close_closed err wt).
    destruct (watcher_Close err wt). simpl. by intros ? [= <-]. }
  destruct o as [e wt]. simpl in Ho. cbn [mbind outcome_bind].
  eapply (inv_work _ _ _ _ _ _ _ c); try done. intros (_ & _ & _ & Hs). revert Hs. by apply loading_shape.
Qed.

(** The shape of a cell that is torn down depends on little of it. *)
Lemma closing_shape hooks latest listed current opens c c' :
  c_entry c = Some (workspaceEntryClosing, mkCloseOperation closeStarted (Some false) None) →
  c_entry c' = c_entry c → c_done c' = c_done c → c_err c' = c_err c →
  ws_closing (c_workspace c') = ws_closing (c_workspace c) →
  cell_shape hooks latest listed current opens c → cell_shape hooks latest listed current opens c'.
Proof. unfold cell_shape. intros He -> -> -> ->. by rewrite He. Qed.

Lemma fs_start_step hooks m ts i id k a : inv hooks m ts → ts !! i = Some (FStart id k) →
  keeps hooks (step_thread i (FStart id k) a (mkWorld m ts)).
Proof.
  intros I Ht. destruct (target_cell _ _ _ _ _ k I Ht) as (c & E & Hst & Hok & HL); [done|].
  destruct a; try exact Logic.I. simpl. apply (wm_inv_goto _ _ _ _ _ _ I Ht); [done|].
  destruct Hst. rewrite (iv_hooks _ _ _ I). by eapply thread_at.
Qed.

Lemma fs_stop_step hooks m ts i id k hs a : inv hooks m ts → ts !! i = Some (FStop id k hs) →
  keeps hooks (step_thread i (FStop id k hs) a (mkWorld m ts)).
Proof.
  intros I Ht. destruct (target_cell _ _ _ _ _ k I Ht) as (c & E & (Hid & (Hrd & Ha & Hw & Hl) & ->) & Hok & HL); [done|].
  destruct (finisher_closing _ _ _ _ _ _ Hok Ht) as [He Hd]; [simpl; by rewrite bool_decide_true|].
  destruct a as [| | | | |err|]; try exact Logic.I. simpl. unfold stopWatcher. rewrite HL. simpl. rewrite Ha, Hw. simpl.
  eapply (inv_work _ _ _ _ _ _ _ c); try done.
  - intros (_ & _ & _ & Hs). revert Hs. by apply closing_shape.
  - split; [done|]. exists []. split; [done|]. split_and!; [done| |by simpl; rewrite Hl]. by intros ? [= <-].
Qed.

Lemma fs_hooks_step hooks m ts i id k todo result a : inv hooks m ts → ts !! i = Some (FHooks id k todo result) →
  keeps hooks (step_thread i (FHooks id k todo result) a (mkWorld m ts)).
Proof.
  intros I Ht. destruct (target_cell _ _ _ _ _ k I Ht) as (c & E & (Hid & ran & Hh & Hrd & Hw & Hl) & Hok & HL); [done|].
  destruct (finisher_closing _ _ _ _ _ _ Hok Ht) as [He Hd]; [simpl; by rewrite bool_decide_true|].
  destruct todo as [|h todo], a as [| | | | | |err]; try exact Logic.I; simpl.
  - apply (wm_inv_goto _ _ _ _ _ _ I Ht); [done|]. rewrite app_nil_r in Hh. subst ran. by eapply thread_at.
  - unfold call_hook. rewrite HL. simpl. eapply (inv_work _ _ _ _ _ _ _ c); try done.
    + intros (_ & _ & _ & Hs). revert Hs. by apply closing_shape.
    + split; [done|]. exists (ran ++ [h]). rewrite <-(assoc_L app). split; [done|]. split_and!; [done..|].
      simpl. rewrite Hl, <-Hid. unfold hook_events. by rewrite map_app.
Qed.

Lemma fs_release_step hooks m ts i id k result a : inv hooks m ts → ts !! i = Some (FRelease id k result) →
  keeps hooks (step_thread i (FRelease id k result) a (mkWorld m ts)).
Proof.
  intros I Ht. destruct (target_cell _ _ _ _ _ k I Ht) as (c & E & (Hid & Hrd & Hw & Hl) & Hok & HL); [done|].
  destruct (finisher_closing _ _ _ _ _ _ Hok Ht) as [He Hd]; [simpl; by rewrite bool_decide_true|].
  destruct a; try exact Logic.I. simpl. unfold release. rewrite HL. simpl. unfold Workspace_close.
  rewrite Hrd. simpl. eapply (inv_work _ _ _ _ _ _ _ c); try done.
  - intros (_ & _ & _ & Hs). revert Hs. by apply closing_shape.
  - split; [done|]. unfold torn_down. simpl. by rewrite Hl.
Qed.

Lemma fs_finish_step hooks m ts i id k result a : inv hooks m ts → ts !! i = Some (FFinish id k result) →
  keeps hooks (step_thread i (FFinish id k result) a (mkWorld m ts)).
Proof.
  intros I Ht. destruct (target_cell _ _ _ _ _ k I Ht) as (c & E & (Hid & Htd) & Hok & HL); [done|].
  destruct (finisher_closing _ _ _ _ _ _ Hok Ht) as [He Hd]; [simpl; by rewrite bool_decide_true|].
  destruct a; try exact Logic.I. simpl. unfold finish_entry, load_entry. rewrite HL. simpl. rewrite He. simpl.
  pose proof (iv_hooks _ _ _ I) as Hhk. set (c' := with_entry _ c).
  assert (is_finished c') as Hfin by (by eexists). assert (Hlt : (k < length (wm_cells m))%nat) by (by eapply lookup_lt_Some).
  eapply (inv_put _ _ _ _ (FFinish id k result) _ k c); try done; [by apply busy_target| | | | |].
  - split; try done. split; try done; unfold is_closing; [by rewrite He|by eexists..].
  - intros [? Ha]. by rewrite He in Ha.
  - intros j Hj. simpl. by rewrite bool_decide_false.
  - destruct Hok as (C1 & C2 & C3 & C4). unfold closer in C2. rewrite He in C2.
    assert (Hof : owns k (FRemove id k) = owns k (FFinish id k result)) by done.
    pose proof (count_insert (finishes k) ts i _ (FRemove id k) Ht) as Hcnt. simpl in Hcnt, C2.
    rewrite (bool_decide_true (k = k)) in Hcnt by done. unfold cell_ok. rewrite (count_other _ _ _ _ _ Ht Hof).
    split_and!; [done|unfold closer; simpl; lia|done|]. unfold cell_shape in *. simpl. rewrite He in C4.
    destruct C4 as (? & ? & ? & ? & ? & _). rewrite Hhk. done.
  - split; [|done]. exists c'. simpl. rewrite list_lookup_insert_eq by done. done.
Qed.

(** ** Steps that change the maps *)

(** The maps change at most where they lead to cell [k]. *)
Record relinks (m m' : manager) (k : nat) (c c' : cell) : Prop := {
  rl_byID : ∀ id j, id ≠ c_id c → wm_byID m' !! id = Some j ↔ wm_byID m !! id = Some j;
  rl_byRoot : ∀ r id, (r, id) ≠ (c_root c, c_id c) → wm_byRoot m' !! r = Some id ↔ wm_byRoot m !! r = Some id;
  rl_opening : ∀ r j, (r, j) ≠ (c_root c, k) → wm_opening m' !! r = Some j ↔ wm_opening m !! r = Some j;
  rl_listed : ∀ j, wm_byID m' !! c_id c = Some j → j = k;
  rl_current : wm_byRoot m' !! c_root c = Some (c_id c) →
    wm_byID m' !! c_id c = Some k ∧ is_active c' ∧ wm_opening m' !! c_root c = None;
  rl_opens : wm_opening m' !! c_root c = Some k → wm_opening m !! c_root c = Some k
}.

Lemma cells_put m m' k c c' j d : wm_cells m !! k = Some c → put_ok m m' k c c' →
  wm_cells m' !! j = Some d ↔ (j = k ∧ d = c') ∨ (j ≠ k ∧ wm_cells m !! j = Some d).
Proof.
  intros E [_ C _ _]. rewrite C. destruct (decide (j = k)) as [->|Hne].
  - rewrite list_lookup_insert_eq by (by eapply lookup_lt_Some). naive_solver.
  - rewrite list_lookup_insert_ne by done. naive_solver.
Qed.

Lemma relink_tables hooks m m' ts k c c' : inv hooks m ts → wm_cells m !! k = Some c → put_ok m m' k c c' →
  relinks m m' k c c' →
  (∀ id j, wm_byID m' !! id = Some j → ∃ d, wm_cells m' !! j = Some d ∧ c_id d = id) ∧
  (∀ root id, wm_byRoot m' !! root = Some id →
    ∃ j d, wm_byID m' !! id = Some j ∧ wm_cells m' !! j = Some d ∧ c_root d = root ∧ is_active d) ∧
  (∀ root j, wm_opening m' !! root = Some j →
    wm_byRoot m' !! root = None ∧ ∃ d, wm_cells m' !! j = Some d ∧ c_root d = root).
Proof.
  intros I E P [R1 R2 R3 R4 R5 R6]. pose proof (λ j d, cells_put m m' k c c' j d E P) as HC.
  pose proof (po_grows _ _ _ _ _ P) as [Gi Gr _ _ _ _ _].
  assert (Hk : wm_cells m' !! k = Some c') by (apply HC; by left). split_and!.
  - intros id j Hj. destruct (decide (id = c_id c)) as [->|Hne]; [apply R4 in Hj as ->; by exists c'|].
    apply R1 in Hj; [|done]. destruct (iv_byID _ _ _ I _ _ Hj) as (d & Ed & Hd). exists d. split; [|done].
    apply HC. right. split; [|done]. intros ->. naive_solver congruence.
  - intros r id Hr. destruct (decide ((r, id) = (c_root c, c_id c))) as [Heq|Hne].
    { simplify_eq. destruct (R5 Hr) as (Hj & Ha & _). exists k, c'. done. }
    apply R2 in Hr; [|done]. destruct (iv_byRoot _ _ _ I _ _ Hr) as (j & d & Hj & Ed & Hrd & Ha).
    destruct (iv_byID _ _ _ I _ _ Hj) as (d2 & Ed2 & Hid). simplify_eq.
    assert (j ≠ k) as Hjk by (intros ->; simplify_eq). exists j, d.
    split_and!; [|by apply HC; right|done..]. apply R1; [|done]. intros Hid.
    destruct Hjk. eapply (iv_ids _ _ _ I); [exact Ed|exact E|done].
  - intros r j Hj. destruct (decide ((r, j) = (c_root c, k))) as [Heq|Hne].
    + simplify_eq. destruct (iv_opening _ _ _ I _ _ (R6 Hj)) as (Hn & _). split; [|by exists c'].
      destruct (wm_byRoot m' !! c_root c) as [id|] eqn:Hb; [|done].
      destruct (decide (id = c_id c)) as [->|Hne]; [by destruct (R5 eq_refl) as (_ & _ & ?); simplify_eq|].
      apply R2 in Hb; [congruence|naive_solver].
    + pose proof Hj as Hj'. apply R3 in Hj; [|done]. destruct (iv_opening _ _ _ I _ _ Hj) as (Hn & d & Ed & Hd). split.
      * destruct (wm_byRoot m' !! r) as [id|] eqn:Hb; [|done]. destruct (decide ((r, id) = (c_root c, c_id c))) as [Heq|Hne'].
        -- injection Heq as -> ->. destruct (R5 Hb) as (_ & _ & ?). congruence.
        -- apply R2 in Hb; congruence.
      * destruct (decide (j = k)) as [->|Hjk]; [exists c'; split; [done|]; simplify_eq; done|]. exists d. split; [by apply HC; right|done].
Qed.

Lemma inv_update hooks m m' ts ts' k c c' : inv hooks m ts → wm_cells m !! k = Some c → put_ok m m' k c c' →
  relinks m m' k c c' →
  (∀ j, j ≠ k → count (owns j) ts' = count (owns j) ts ∧ count (finishes j) ts' = count (finishes j) ts) →
  cell_ok m' ts' k c' → (∀ t, t ∈ ts' → thread_ok m' t) → inv hooks m' ts'.
Proof.
  intros I E P R Hcnt Hok Hts. destruct (relink_tables _ _ _ _ _ _ _ I E P R) as (T1 & T2 & T3).
  pose proof (λ j d, cells_put m m' k c c' j d E P) as HC. destruct I as [I1 I2 I3 I4 I5 I6 I7 I8 I9].
  pose proof P as [[Gi Gr _ _ _ _ _] C Hh Hg]. destruct R as [R1 R2 R3 R4 R5 R6]. split; try done; [congruence|lia| | |].
  - intros j d Ed. apply HC in Ed as [[-> ->]|[Hne Ed]]; [done|]. destruct (Hcnt j Hne).
    assert (c_id d ≠ c_id c) by (intros ?; destruct Hne; by eapply I5).
    apply (cell_ok_other m _ ts); try done; [by apply I3|by apply R1|apply R2; congruence|apply R3; congruence].
  - intros j Hj. assert (j ≠ k) as Hne. { intros ->. assert (wm_cells m' !! k = Some c') by (apply HC; by left). congruence. }
    destruct (Hcnt j Hne) as [-> ->]. apply I4. rewrite C in Hj. by rewrite list_lookup_insert_ne in Hj.
  - intros j l d d' Ed Ed' Heq. apply HC in Ed, Ed'.
    destruct Ed as [[-> ->]|[? Ed]], Ed' as [[-> ->]|[? Ed']]; [done| | |by eapply I5];
      rewrite Gi in Heq; by eapply I5.
Qed.

(** Threads that do not work on [k] are not disturbed. *)
Lemma thread_other m m' k c c' t : wm_cells m !! k = Some c → put_ok m m' k c c' → busy k t = false →
  thread_ok m t → thread_ok m' t.
Proof.
  intros E P Hb [Hp Hs]. split; [by eapply passive_grows; [eapply put_grows|]|].
  intros j Hj. destruct (Hs j Hj) as (d & Ed & Hst). rewrite (po_hooks _ _ _ _ _ P). exists d. split; [|done].
  apply (cells_put _ _ _ _ _ _ _ E P). right. split; [|done]. intros ->. apply busy_target in Hj. congruence.
Qed.

(** The threads after a step of the busy thread of [k]. *)
Lemma threads_busy hooks m m' ts i t t' k c c' : inv hooks m ts → wm_cells m !! k = Some c → put_ok m m' k c c' →
  ts !! i = Some t → target t = Some k → thread_ok m' t' → ∀ u, u ∈ <[i:=t']> ts → thread_ok m' u.
Proof. intros I E P Ht Hk. apply busy_target in Hk. by eapply threads_put. Qed.

Lemma counts_busy (ts : list thread) i t t' k : ts !! i = Some t → target t = Some k → target t' = None →
  ∀ j, j ≠ k → count (owns j) (<[i:=t']> ts) = count (owns j) ts ∧ count (finishes j) (<[i:=t']> ts) = count (finishes j) ts.
Proof.
  intros Ht Hk Hn j Hj. assert (busy j t = false ∧ busy j t' = false) as [B B'].
  { split; apply not_true_is_false; rewrite busy_target; congruence. }
  unfold busy in *. apply orb_false_iff in B as [B1 B2], B' as [B3 B4].
  split; apply (count_other _ _ _ t); congruence.
Qed.

(** The end of a load: its thread leaves the cell, which is done. *)
Lemma counts_loaded m ts i t t' k c : cell_ok m ts k c → ts !! i = Some t → owns k t = true → target t' = None →
  count (owns k) (<[i:=t']> ts) = 0%nat ∧ count (finishes k) (<[i:=t']> ts) = 0%nat.
Proof.
  intros Hok Ht Hown Hn. destruct (owner_loading _ _ _ _ _ _ Hok Ht Hown) as [Hd He]. destruct Hok as (C1 & C2 & _).
  rewrite Hd in C1. unfold closer in C2. rewrite He in C2.
  assert (busy k t' = false) as Hb by (apply not_true_is_false; rewrite busy_target; congruence).
  unfold busy in Hb. apply orb_false_iff in Hb as [B1 B2].
  pose proof (count_insert (owns k) ts i t t' Ht). pose proof (count_insert (finishes k) ts i t t' Ht).
  assert (finishes k t = false) as Hf by (by destruct t). rewrite B1, B2, Hown, Hf in *. lia.
Qed.

(** The cell and the manager after a commit. *)
Definition published (content : workspaceContent D) (c : cell) : cell :=
  mkCell (c_generation c) true None (setReady content (c_workspace c)) true (Some (mkWatcher true None))
    (Some (workspaceEntryActive, newCloseOperation)) [].

Definition publish (k : nat) (content : workspaceContent D) (c : cell) (m : manager) : manager :=
  mkManager (<[c_id c:=k]> (wm_byID m)) (<[c_root c:=c_id c]> (wm_byRoot m)) (delete (c_root c) (wm_opening m))
    (wm_closeHooks m) (wm_generation m) (<[k:=published content c]> (wm_cells m)).

Lemma setReady_frame content (ws : Workspace (D := D)) :
  ws_id (setReady content ws) = ws_id ws ∧ ws_root (setReady content ws) = ws_root ws ∧
  ws_closing (setReady content ws) = ws_closing ws ∧ ws_state (setReady content ws) = StateReady.
Proof. unfold setReady. by destruct (ready_loop _ _ _). Qed.

Lemma published_frame content c : c_id (published content c) = c_id c ∧ c_root (published content c) = c_root c.
Proof. destruct (setReady_frame content (c_workspace c)) as (? & ? & _). done. Qed.

Lemma publish_put m ts k content c : cell_ok m ts k c → c_entry c = None → c_generation c = wm_generation m →
  put_ok m (publish k content c m) k c (published content c).
Proof.
  intros Hok He Hg. destruct (published_frame content c) as [F1 F2]. split; try done.
  split; try done; unfold is_closing, is_finished; rewrite ?He; naive_solver lia.
Qed.

Lemma publish_relinks hooks m ts k content c : inv hooks m ts → wm_cells m !! k = Some c →
  wm_opening m !! c_root c = Some k → relinks m (publish k content c m) k c (published content c).
Proof.
  intros I E Hop. destruct (iv_opening _ _ _ I _ _ Hop) as (Hbr & _). split; simpl.
  - intros id j Hne. by rewrite lookup_insert_ne.
  - intros r id Hne. destruct (decide (r = c_root c)) as [->|]; [rewrite lookup_insert_eq|by rewrite lookup_insert_ne].
    rewrite Hbr. naive_solver.
  - intros r j Hne. destruct (decide (r = c_root c)) as [->|]; [rewrite lookup_delete_eq, Hop|by rewrite lookup_delete_ne].
    naive_solver.
  - intros j. rewrite lookup_insert_eq. naive_solver.
  - intros _. rewrite lookup_insert_eq, lookup_delete_eq. split_and!; [done|by eexists|done].
  - by rewrite lookup_delete_eq.
Qed.

Lemma oc_commit_step hooks m ts i root k content a : inv hooks m ts → ts !! i = Some (OCommit root k content) →
  keeps hooks (step_thread i (OCommit root k content) a (mkWorld m ts)).
Proof.
  intros I Ht. destruct (target_cell _ _ _ _ _ k I Ht) as (c & E & (Hr & Hw) & Hok & HL); [done|].
  assert (owns k (OCommit root k content) = true) as Hown by (simpl; by rewrite bool_decide_true).
  destruct (owner_loading _ _ _ _ _ _ Hok Ht Hown) as [Hd He].
  destruct a; try exact Logic.I. simpl. unfold commit. rewrite HL. simpl. case_bool_decide as Hg; simpl.
  { apply (wm_inv_goto _ _ _ _ _ _ I Ht); [done|]. by eapply thread_at. }
  assert (c_generation c = wm_generation m) as Hg' by (by destruct (decide (c_generation c = wm_generation m))).
  pose proof Hok as (_ & _ & C3 & C4). unfold cell_shape in C4. rewrite He, bool_decide_true in C4 by done.
  destruct C4 as (_ & Hat & Hlg & Hcl & [_ Hop] & Herr & _). specialize (Hop (conj Hd eq_refl)). specialize (Herr Hd).
  destruct (setReady_frame content (c_workspace c)) as (F1 & F2 & F3 & F4).
  unfold close_done. simpl. rewrite Hd, Hw, Herr, Hlg, F1, F2. simpl.
  change (inv hooks (publish k content c m) (<[i:=OReturned root true (inl k)]> ts)).
  pose proof (publish_put _ _ _ content _ Hok He Hg') as P.
  eapply (inv_update _ _ _ _ _ _ _ _ I E P); [by eapply publish_relinks|by eapply (counts_busy _ _ _ _ _ Ht)| |].
  - destruct (counts_loaded _ _ _ _ (OReturned root true (inl k)) _ _ Hok Ht Hown eq_refl) as [N1 N2].
    destruct (published_frame content c) as [F5 F6]. unfold cell_ok. rewrite N1, N2. split_and!; [done|done|simpl; lia|].
    rewrite F5, F6. simpl. rewrite !lookup_insert_eq, lookup_delete_eq. unfold cell_shape. simpl. rewrite F3, F4. done.
  - eapply (threads_busy _ _ _ _ _ _ _ _ _ _ I E P Ht); [done|]. split; [|done]. exists (published content c).
    split_and!; [apply list_lookup_insert_eq; by eapply lookup_lt_Some|by rewrite (proj2 (published_frame content c))|by eexists].
Qed.

Lemma of_finish_step hooks m ts i root k err a : inv hooks m ts → ts !! i = Some (OFinish root k err) →
  keeps hooks (step_thread i (OFinish root k err) a (mkWorld m ts)).
Proof.
  intros I Ht. destruct (target_cell _ _ _ _ _ k I Ht) as (c & E & (Hr & Hst & Hw) & Hok & HL); [done|].
  assert (owns k (OFinish root k err) = true) as Hown by (simpl; by rewrite bool_decide_true).
  destruct (owner_loading _ _ _ _ _ _ Hok Ht Hown) as [Hd He].
  destruct a; try exact Logic.I. simpl. unfold finishOpen, close_done. rewrite HL. simpl. rewrite Hd. simpl.
  set (c' := mkCell (c_generation c) true (Some err) (c_workspace c) (c_attached c) (c_watcher c) (c_entry c) (c_log c)).
  set (m1 := if bool_decide _ then _ else m). set (m' := put k c' m1).
  assert (wm_byID m1 = wm_byID m ∧ wm_byRoot m1 = wm_byRoot m ∧ wm_closeHooks m1 = wm_closeHooks m ∧
    wm_generation m1 = wm_generation m ∧ wm_cells m1 = wm_cells m) as (M1 & M2 & M3 & M4 & M5).
  { subst m1. by case_bool_decide. }
  assert (∀ r j, wm_opening m1 !! r = Some j ↔ wm_opening m !! r = Some j ∧ (r, j) ≠ (c_root c, k)) as M6.
  { intros r j. subst m1. case_bool_decide as Ho; simpl.
    - rewrite lookup_delete_Some. naive_solver.
    - naive_solver. }
  assert (put_ok m m' k c c') as P by (split; [done|simpl; by rewrite M5|done..]).
  eapply (inv_update _ _ _ _ _ _ _ _ I E P); [|by eapply (counts_busy _ _ _ _ _ Ht)| |].
  - split; simpl; rewrite ?M1, ?M2; try done.
    + intros r j Hne. rewrite M6. naive_solver.
    + intros j Hj. destruct (iv_byID _ _ _ I _ _ Hj) as (d & Ed & Hid). by eapply (iv_ids _ _ _ I).
    + intros Hb. destruct (iv_byRoot _ _ _ I _ _ Hb) as (j & d & Hj & Ed & _ & Ha). exfalso.
      destruct (iv_byID _ _ _ I _ _ Hj) as (d' & Ed' & Hid). simplify_eq.
      pose proof (iv_ids _ _ _ I _ _ _ _ Ed E Hid) as ->. simplify_eq. destruct Ha. congruence.
    + intros Ho. by apply M6 in Ho as [? _].
  - destruct (counts_loaded _ _ _ _ (OReturned root true (inr err)) _ _ Hok Ht Hown eq_refl) as [N1 N2].
    destruct Hok as (_ & _ & C3 & C4). unfold cell_shape in C4. rewrite He in C4. destruct C4 as (L & At & Lg & Cl & _).
    unfold cell_ok. rewrite N1, N2. unfold closer. simpl. rewrite He, M4, M1, M2, M3. split_and!; [done..|].
    unfold cell_shape. simpl. rewrite He. split_and!; try done.
    rewrite M6. split; [|naive_solver]. intros [_ Hne]. destruct Hne. done.
  - by eapply (threads_busy _ _ _ _ _ _ _ _ _ _ I E P Ht).
Qed.

(** ** Closing *)

Definition closing_cell (c : cell) : cell :=
  with_entry (Some (workspaceEntryClosing, mkCloseOperation closeStarted (Some false) None))
    (with_workspace (markClosing (c_workspace c)) c).

Definition begun (k : nat) (c : cell) (m : manager) : manager := forget_root (c_root c) (put k (closing_cell c) m).

(** An entry is active, or its close has begun. *)
Lemma close_entry_spec m ts k c : cell_ok m ts k c → wm_cells m !! k = Some c → is_Some (c_entry c) →
  (is_active c ∧ close_entry k m = Ret (true, put k (closing_cell c) m)) ∨ (is_closing c ∧ close_entry k m = Ret (false, m)).
Proof.
  intros (_ & _ & _ & Hs) E [[st cl] He]. unfold close_entry, load_entry. rewrite (load_Some _ _ _ E). simpl. rewrite He. simpl.
  unfold cell_shape in Hs. rewrite He in Hs. destruct st; [left|right; split; [by eexists|done]].
  destruct Hs as (_ & _ & _ & _ & _ & -> & _). split; [by eexists|done].
Qed.

Lemma count_spawn f (ts : list thread) xs : (∀ t, t ∈ xs → f t = false) → count f (ts ++ xs) = count f ts.
Proof.
  intros Hf. rewrite count_app. enough (count f xs = 0%nat) by lia. induction xs as [|x xs IH]; [done|]. simpl.
  rewrite Hf by apply list_elem_of_here. rewrite IH; [done|]. intros t Ht. apply Hf. by apply list_elem_of_further.
Qed.

Lemma begun_put m k c : c_entry c ≠ None → is_active c → put_ok m (begun k c m) k c (closing_cell c).
Proof.
  intros Hn [cl He]. split; try done. split; try done; unfold is_closing, is_finished; rewrite ?He; naive_solver.
Qed.

Lemma begun_relinks hooks m ts k c : inv hooks m ts → wm_cells m !! k = Some c → is_active c →
  relinks m (begun k c m) k c (closing_cell c).
Proof.
  intros I E Ha. pose proof (iv_cells _ _ _ I _ _ E) as (_ & _ & _ & Hs). destruct Ha as [cl He].
  unfold cell_shape in Hs. rewrite He in Hs. destruct Hs as (Hl & Hc & Ho & _). split; simpl; try done.
  - intros r id Hne. destruct (decide (r = c_root c)) as [->|]; [rewrite lookup_delete_eq, Hc|by rewrite lookup_delete_ne].
    naive_solver.
  - intros j Hj. congruence.
  - by rewrite lookup_delete_eq.
Qed.

(** The close of an active entry begins, with the thread that finishes it. *)
Lemma inv_begun hooks m ts k c : inv hooks m ts → wm_cells m !! k = Some c → is_active c →
  inv hooks (begun k c m) (ts ++ [FStart (c_id c) k]).
Proof.
  intros I E Ha. pose proof (iv_cells _ _ _ I _ _ E) as Hok. pose proof Hok as (C1 & C2 & C3 & Hs).
  pose proof Ha as [cl He]. unfold closer in C2. unfold cell_shape in Hs. rewrite He in C2, Hs.
  destruct Hs as (Hl & Hc & Ho & Hd & Herr & -> & Hst & Hcl & Hat & Hw & Hlg). simpl in C2. rewrite Hd in C1.
  assert (put_ok m (begun k c m) k c (closing_cell c)) as P by (apply begun_put; [congruence|done]).
  eapply (inv_update _ _ _ _ _ _ _ _ I E P); [by eapply begun_relinks| | |].
  - intros j Hj. split; apply count_spawn; intros t ->%list_elem_of_singleton; simpl; [done|by rewrite bool_decide_false].
  - unfold cell_ok. rewrite !count_app. simpl. rewrite bool_decide_true by done. unfold closer. simpl. rewrite Hd.
    split_and!; [lia|lia|done|]. unfold cell_shape, c_root. simpl. rewrite lookup_delete_eq. done.
  - intros t [Ht| ->%list_elem_of_singleton]%elem_of_app.
    + eapply (thread_other _ _ _ _ _ _ E P); [|by apply (iv_threads _ _ _ I)].
      apply list_elem_of_lookup in Ht as (j & Hj). apply not_true_is_false. intros Hb. unfold busy in Hb.
      apply orb_true_iff in Hb as [Hb|Hb]; pose proof (count_pos _ _ _ _ Hj Hb); lia.
    + split; [done|]. intros j [= <-]. exists (closing_cell c).
      split; [|done]. simpl. apply list_lookup_insert_eq. by eapply lookup_lt_Some.
Qed.

(** New threads that work on no cell. *)
Lemma inv_spawn hooks m ts xs : inv hooks m ts → (∀ t, t ∈ xs → target t = None ∧ thread_ok m t) → inv hooks m (ts ++ xs).
Proof.
  intros [I1 I2 I3 I4 I5 I6 I7 I8 I9] Hx.
  assert (∀ k, count (owns k) (ts ++ xs) = count (owns k) ts ∧ count (finishes k) (ts ++ xs) = count (finishes k) ts) as Hc.
  { intros k. assert (∀ t, t ∈ xs → busy k t = false) as Hb.
    { intros t Ht. apply not_true_is_false. rewrite busy_target. destruct (Hx t Ht). congruence. }
    unfold busy in Hb. split; apply count_spawn; intros t Ht; specialize (Hb t Ht); by apply orb_false_iff in Hb as [? ?]. }
  split; try done.
  - intros k c E. destruct (Hc k). by apply (cell_ok_other m m ts); auto.
  - intros k E. destruct (Hc k) as [-> ->]. by apply I4.
  - intros t [Ht|Ht]%elem_of_app; [by apply I9|by apply Hx].
Qed.

Lemma listed_entry hooks m ts id k : inv hooks m ts → wm_byID m !! id = Some k →
  ∃ c, wm_cells m !! k = Some c ∧ c_id c = id ∧ is_Some (c_entry c).
Proof.
  intros I Hk. destruct (iv_byID _ _ _ I _ _ Hk) as (c & E & Hid). exists c. split_and!; [done..|].
  pose proof (iv_cells _ _ _ I _ _ E) as (_ & _ & _ & Hs). unfold cell_shape in Hs. destruct (c_entry c); [done|].
  destruct Hs as (Hn & _). destruct Hn. by rewrite Hid.
Qed.

Lemma wm_close_step hooks w id : inv hooks (wd_manager w) (wd_threads w) → keeps hooks (act (AClose id) w).
Proof.
  destruct w as [m ts]. simpl. intros I. unfold beginClose. destruct (wm_byID m !! id) as [k|] eqn:Hk; [|simpl; by rewrite app_nil_r].
  destruct (listed_entry _ _ _ _ _ I Hk) as (c & E & <- & He).
  assert (Hw : ∀ m', (∃ c', wm_cells m' !! k = Some c' ∧ is_closing c') → ∀ t, t ∈ [CWait k] → target t = None ∧ thread_ok m' t).
  { intros m' Hc t ->%list_elem_of_singleton. done. }
  destruct (close_entry_spec _ _ _ _ (iv_cells _ _ _ I _ _ E) E He) as [[Ha ->]|[Hc ->]]; simpl.
  - assert (k < length (wm_cells m))%nat as Hlt by (by eapply lookup_lt_Some).
    unfold root_of. simpl. rewrite list_lookup_insert_eq by done.
    change [FStart (c_id c) k; CWait k] with ([FStart (c_id c) k] ++ [CWait k]). rewrite (assoc_L app).
    apply inv_spawn; [exact (inv_begun _ _ _ _ _ I E Ha)|]. apply Hw. exists (closing_cell c). simpl.
    rewrite list_lookup_insert_eq by done. split; [done|by eexists].
  - apply inv_spawn; [done|]. apply Hw. eauto.
Qed.

(** ** Clearing *)

Definition set_byRoot (roots : gmap string string) (m : manager) : manager :=
  mkManager (wm_byID m) roots (wm_opening m) (wm_closeHooks m) (wm_generation m) (wm_cells m).

Lemma close_entry_byRoot k roots m :
  close_entry k (set_byRoot roots m) = ('(b, m) ← close_entry k m; Ret (b, set_byRoot roots m)).
Proof.
  unfold close_entry, load. simpl. destruct (wm_cells m !! k) as [c|]; [simpl|done].
  destruct (load_entry c) as [[st cl]| |]; [simpl|done..]. case_bool_decide; [done|].
  unfold Begin. by case_bool_decide.
Qed.

Lemma clear_loop_byRoot entries roots : ∀ m,
  clear_loop entries (set_byRoot roots m) = ('(owned, m) ← clear_loop entries m; Ret (owned, set_byRoot roots m)).
Proof.
  induction entries as [|k entries IH]; intros m; [done|]. simpl. rewrite close_entry_byRoot.
  destruct (close_entry k m) as [[b m1]| |]; [simpl|done..]. rewrite IH.
  by destruct (clear_loop entries m1) as [[o m2]| |].
Qed.

Definition finishers (m : manager) (owned : list nat) : list thread :=
  map (λ k, FStart (default "" (c_id <$> wm_cells m !! k)) k) owned.

Lemma grows_trans m1 m2 m3 : wm_generation m2 = wm_generation m1 → grows m1 m2 → grows m2 m3 → grows m1 m3.
Proof.
  intros Hg [A1 A2 A3] [B1 B2 B3]. split; [lia| |].
  - intros k c E. destruct (A2 _ _ E) as (c2 & E2 & [X1 X2 X3 X4 X5 X6 X7]).
    destruct (B2 _ _ E2) as (c3 & E3 & [Y1 Y2 Y3 Y4 Y5 Y6 Y7]). exists c3. split; [done|].
    split; [congruence..| | | |]; auto. intros Hlt Hn. apply Y4; [rewrite X3; lia|auto].
  - intros k c E E3. destruct (wm_cells m2 !! k) as [c2|] eqn:E2.
    + destruct (B2 _ _ E2) as (c3 & E3' & Y). simplify_eq. rewrite (cg_generation _ _ _ Y). by eapply A3.
    + rewrite (B3 _ _ E2 E3). done.
Qed.

(** The loop of [Clear], as if it forgot the roots one by one. *)
Lemma clear_loop_ok hooks entries : ∀ m ts, inv hooks m ts →
  (∀ k, k ∈ entries → ∃ c, wm_cells m !! k = Some c ∧ is_Some (c_entry c)) →
  ∃ owned m1 m', clear_loop entries m = Ret (owned, m1) ∧ m1 = set_byRoot (wm_byRoot m1) m' ∧
    inv hooks m' (ts ++ finishers m' owned) ∧ grows m m' ∧ wm_generation m' = wm_generation m ∧
    wm_byID m' = wm_byID m ∧ (∀ k, k ∈ entries → ∃ c, wm_cells m' !! k = Some c ∧ is_closing c).
Proof.
  induction entries as [|k entries IH]; intros m ts I He.
  { exists [], m, m. simpl. rewrite app_nil_r. split_and!; try done; [by destruct m| |by intros k ?%elem_of_nil].
    split; [lia|intros k c E; exists c; split; [done|apply cell_grows_refl]|congruence]. }
  destruct (He k) as (c & E & Hc); [apply list_elem_of_here|]. simpl.
  destruct (close_entry_spec _ _ _ _ (iv_cells _ _ _ I _ _ E) E Hc) as [[Ha ->]|[Hcl ->]]; simpl.
  - pose proof (put_grows _ _ _ _ _ E (begun_put m k c ltac:(by destruct Hc as [? ->]) Ha)) as G.
    destruct (IH _ _ (inv_begun _ _ _ _ _ I E Ha)) as (owned & m1 & m' & H1 & H2 & H3 & H4 & H5 & H6 & H7).
    { intros j Hj. destruct (He j) as (d & Ed & Hd); [by apply list_elem_of_further|].
      destruct (gr_cells _ _ G _ _ Ed) as (d' & Ed' & Gd). exists d'. split; [done|by apply Gd]. }
    change (begun k c m) with (set_byRoot (delete (c_root c) (wm_byRoot m)) (put k (closing_cell c) m)) in H1.
    rewrite clear_loop_byRoot in H1. destruct (clear_loop entries (put k (closing_cell c) m)) as [[o m2]| |]; [|done..].
    simpl in H1. injection H1 as -> <-. exists (k :: owned), m2, m'. split_and!; try done.
    + destruct m2, m'. unfold set_byRoot in *. simpl in *. congruence.
    + simpl. destruct (gr_cells _ _ (grows_trans m (begun k c m) m' eq_refl G H4) _ _ E) as (c' & Ec' & Gc). rewrite Ec'. simpl.
      rewrite (cg_id _ _ _ Gc). by rewrite <-(assoc_L app) in H3.
    + by apply (grows_trans _ (begun k c m)).
    + intros j [->|Hj]%elem_of_cons; [|by apply H7].
      destruct (gr_cells _ _ H4 k (closing_cell c)) as (c' & Ec' & Gc).
      { simpl. apply list_lookup_insert_eq. by eapply lookup_lt_Some. }
      exists c'. split; [done|]. apply Gc. by eexists.
  - destruct (IH m ts I) as (owned & m1 & m' & H1 & H2 & H3 & H4 & H5 & H6 & H7).
    { intros j Hj. apply He. by apply list_elem_of_further. }
    rewrite H1. simpl. exists owned, m1, m'. split_and!; try done.
    intros j [->|Hj]%elem_of_cons; [|by apply H7]. destruct (gr_cells _ _ H4 _ _ E) as (c' & Ec' & Gc).
    exists c'. split; [done|]. by apply Gc.
Qed.

(** The maps and the generation after the loop. *)
Definition reset (m : manager) : manager :=
  mkManager (wm_byID m) ∅ ∅ (wm_closeHooks m) (wm_generation m + 1) (wm_cells m).

Lemma inv_reset hooks m ts : inv hooks m ts → (∀ k c, wm_cells m !! k = Some c → ¬ is_active c) → inv hooks (reset m) ts.
Proof.
  intros I Hna. assert (wm_byRoot m = ∅) as Hbr.
  { apply map_empty. intros r. destruct (wm_byRoot m !! r) as [id|] eqn:Hr; [|done].
    destruct (iv_byRoot _ _ _ I _ _ Hr) as (k & c & _ & E & _ & Ha). by destruct (Hna _ _ E). }
  assert (grows m (reset m)) as G.
  { split; [simpl; lia| |]; [|intros k c E E'; simpl in E'; congruence].
    intros k c E. exists c. split; [done|]. by split. }
  destruct I as [I1 I2 I3 I4 I5 I6 I7 I8 I9]. split; try done; [simpl; lia| |].
  - intros k c E. destruct (I3 _ _ E) as (C1 & C2 & C3 & C4). unfold cell_ok. simpl. split_and!; [done..|lia|].
    pose proof (Hna _ _ E) as Hn. unfold cell_shape in *. rewrite !lookup_empty. rewrite bool_decide_false by lia.
    destruct (c_entry c) as [[[] cl]|] eqn:He; [destruct Hn; by eexists| |].
    + destruct (co_state cl); naive_solver.
    + naive_solver.
  - intros t Ht. destruct (I9 t Ht) as [Hp Hs]. split; [by eapply passive_grows|done].
Qed.

Lemma wm_clear_step hooks w order : inv hooks (wd_manager w) (wd_threads w) → (wm_generation (wd_manager w) + 1 < 2 ^ 64)%Z →
  keeps hooks (act (AClear order) w).
Proof.
  destruct w as [m ts]. cbn [wd_manager wd_threads act]. intros I Hg. case_bool_decide as Hord; [|exact Logic.I].
  set (entries := omap (λ id, wm_byID m !! id) order).
  assert (∀ k, k ∈ entries ↔ ∃ id, wm_byID m !! id = Some k) as Hent.
  { intros k. subst entries. rewrite list_elem_of_omap. split; [naive_solver|]. intros [id Hid]. exists id. split; [|done].
    rewrite Hord. apply list_elem_of_fmap. exists (id, k). split; [done|by apply elem_of_map_to_list]. }
  destruct (clear_loop_ok hooks entries m ts I) as (owned & m1 & m' & H1 & H2 & H3 & H4 & H5 & H6 & H7).
  { intros k [id Hid]%Hent. destruct (listed_entry _ _ _ _ _ I Hid) as (c & ? & _ & ?). eauto. }
  unfold Clear_enter. rewrite H1. cbn [mbind outcome_bind]. rewrite H2. simpl.
  rewrite H5, u64_small by (pose proof (iv_generation _ _ _ I); lia). rewrite <-H5.
  change (mkManager (wm_byID m') ∅ ∅ (wm_closeHooks m') (wm_generation m' + 1) (wm_cells m')) with (reset m').
  fold (finishers (reset m') owned). change (finishers (reset m') owned) with (finishers m' owned). rewrite (assoc_L app).
  assert (∀ k c, wm_cells m' !! k = Some c → wm_byID m' !! c_id c = Some k → is_closing c) as Hcl.
  { intros k c E Hid. rewrite H6 in Hid. destruct (H7 k) as (c' & E' & Hc); [by apply Hent; eauto|]. by simplify_eq. }
  apply inv_spawn.
  - apply inv_reset; [done|]. intros k c E [cl He]. pose proof (iv_cells _ _ _ H3 _ _ E) as (_ & _ & _ & Hs).
    unfold cell_shape in Hs. rewrite He in Hs. destruct Hs as (Hl & _). destruct (Hcl _ _ E Hl). congruence.
  - intros t ->%list_elem_of_singleton. split; [done|]. split; [|done]. split_and!; [simpl; lia|done|].
    intros _ k c E _. pose proof (iv_cells _ _ _ H3 _ _ E) as (_ & _ & _ & Hs). unfold cell_shape in Hs.
    destruct (c_entry c) as [[st cl]|] eqn:He; [right|by left]. destruct st.
    + destruct Hs as (Hl & _). right. apply Hent. rewrite <-H6. eauto.
    + destruct Hs as (_ & _ & _ & _ & _ & Hm). destruct (co_state cl) eqn:Hst; [done| |left; by exists cl].
      right. apply Hent. rewrite <-H6. destruct Hm as [Hl _]. eauto.
Qed.

(** ** The other steps *)

Lemma wm_open_step hooks w ctxErr stat root : inv hooks (wd_manager w) (wd_threads w) → keeps hooks (act (AOpen ctxErr stat root) w).
Proof.
  destruct w as [m ts]. simpl. intros I. destruct ctxErr; [done|]. simpl. destruct (canonicalRoot stat root); [|done].
  apply inv_spawn; [done|]. by intros t ->%list_elem_of_singleton.
Qed.

Lemma evolve_frame ch (ws : Workspace (D := D)) : ws_id (evolve ch ws) = ws_id ws ∧ ws_root (evolve ch ws) = ws_root ws ∧
  ws_state (evolve ch ws) = ws_state ws ∧ ws_closing (evolve ch ws) = ws_closing ws ∧
  (ws_state ws ≠ StateReady → ws_documents (evolve ch ws) = ws_documents ws).
Proof. unfold evolve. destruct (_ || _) eqn:Hc; [done|]. bools. simpl. by split_and!. Qed.

Lemma torn_down_evolve hooks ch c : torn_down hooks c → torn_down hooks (with_workspace (evolve ch (c_workspace c)) c).
Proof.
  destruct (evolve_frame ch (c_workspace c)) as (F1 & F2 & F3 & F4 & F5). intros (H1 & H2 & H3 & H4 & H5).
  unfold torn_down, c_id. simpl. rewrite F1, F3, F5; [done|congruence].
Qed.

Lemma stage_evolve hooks ch t c : stage hooks t c → stage hooks t (with_workspace (evolve ch (c_workspace c)) c).
Proof.
  destruct (evolve_frame ch (c_workspace c)) as (F1 & F2 & F3 & F4 & F5). pose proof (torn_down_evolve hooks ch c) as Htd.
  destruct t; simpl; unfold watching, stopped, c_id, c_root in *; simpl; rewrite ?F1, ?F2, ?F3; try done.
  intros [? ?]. auto.
Qed.

Lemma wm_change_step hooks w k ch : inv hooks (wd_manager w) (wd_threads w) → keeps hooks (act (AChange k ch) w).
Proof.
  destruct w as [m ts]. simpl. intros I. destruct (wm_cells m !! k) as [c|] eqn:E; [simpl|done].
  destruct (evolve_frame ch (c_workspace c)) as (F1 & F2 & F3 & F4 & F5). set (c' := with_workspace _ c).
  assert (c_id c' = c_id c) as Hid by done. assert (c_root c' = c_root c) as Hro by done.
  assert (put_ok m (put k c' m) k c c') as P by (by split).
  eapply (inv_update _ _ _ _ _ _ _ _ I E P); [|done| |].
  - split; simpl; try done.
    + intros j Hj. destruct (iv_byID _ _ _ I _ _ Hj) as (d & Ed & Hd). by eapply (iv_ids _ _ _ I).
    + intros Hb. destruct (iv_byRoot _ _ _ I _ _ Hb) as (j & d & Hj & Ed & _ & Ha).
      destruct (iv_byID _ _ _ I _ _ Hj) as (d' & Ed' & Hd). simplify_eq.
      pose proof (iv_ids _ _ _ I _ _ _ _ Ed E Hd) as ->. simplify_eq. split_and!; [done..|].
      destruct (wm_opening m !! c_root c) as [j|] eqn:Ho; [|done].
      destruct (iv_opening _ _ _ I _ _ Ho) as [? _]. congruence.
  - destruct (iv_cells _ _ _ I _ _ E) as (C1 & C2 & C3 & C4). unfold cell_ok. rewrite Hid, Hro. split_and!; [done..|].
    unfold cell_shape in *. simpl. rewrite F3, F4. destruct (c_entry c) as [[[] cl]|]; [done| |done].
    destruct (co_state cl); [done|done|]. destruct C4 as (? & ? & ? & ? & ? & Htd). split_and!; try done.
    by apply torn_down_evolve.
  - intros t Ht. destruct (iv_threads _ _ _ I t Ht) as [Hp Hs]. split; [by eapply passive_grows; [eapply put_grows|]|].
    intros j Hj. destruct (Hs j Hj) as (d & Ed & Hst). simpl. destruct (decide (j = k)) as [->|Hne].
    + rewrite list_lookup_insert_eq by (by eapply lookup_lt_Some). simplify_eq. exists c'. split; [done|by apply stage_evolve].
    + rewrite list_lookup_insert_ne by done. eauto.
Qed.

(** Steps of threads that work on no cell and change nothing. *)
Lemma wm_idle_goto hooks m ts i t t' : inv hooks m ts → ts !! i = Some t → target t = None → target t' = None →
  passive m t' → inv hooks m (<[i:=t']> ts).
Proof.
  intros I Ht Hn Hn' Hp. apply (wm_inv_goto _ _ _ _ _ _ I Ht); [|split; [done|congruence]]. intros k.
  assert (busy k t = false ∧ busy k t' = false) as [B B'] by (split; apply not_true_is_false; rewrite busy_target; congruence).
  unfold busy in *. bools. split; congruence.
Qed.

Lemma wm_loop_step hooks m ts i root a : inv hooks m ts → ts !! i = Some (OLoop root) →
  keeps hooks (step_thread i (OLoop root) a (mkWorld m ts)).
Proof.
  intros I Ht. destruct a; try exact Logic.I; simpl; [|by eapply wm_idle_goto].
  unfold find. destruct (wm_byRoot m !! root) as [id|] eqn:Hr.
  - destruct (iv_byRoot _ _ _ I _ _ Hr) as (k & c & -> & E & Hro & [cl Ha]). simpl.
    eapply wm_idle_goto; try done. exists c. split_and!; [done|done|by rewrite Ha].
  - simpl. destruct (wm_opening m !! root) as [k|] eqn:Ho; [|by eapply wm_idle_goto].
    destruct (iv_opening _ _ _ I _ _ Ho) as (_ & c & E & Hro). eapply wm_idle_goto; try done. by exists c.
Qed.

Lemma wm_wait_step hooks m ts i root k a : inv hooks m ts → ts !! i = Some (OWait root k) →
  keeps hooks (step_thread i (OWait root k) a (mkWorld m ts)).
Proof.
  intros I Ht. destruct a; try exact Logic.I; simpl; [|by eapply wm_idle_goto].
  destruct (iv_threads _ _ _ I (OWait root k)) as [(c & E & Hr) _]; [by eapply list_elem_of_lookup_2|].
  rewrite (load_Some _ _ _ E). simpl. destruct (c_done c) eqn:Hd; [simpl|done].
  pose proof (iv_cells _ _ _ I _ _ E) as (_ & _ & _ & Hs). unfold cell_shape in Hs. unfold after_wait.
  destruct (c_entry c) as [[st cl]|] eqn:He.
  - assert (c_err c = None) as -> by (destruct st; naive_solver).
    eapply wm_idle_goto; try done. exists c. by rewrite He.
  - destruct Hs as (_ & _ & _ & _ & _ & _ & Hx). destruct (Hx Hd) as ([err ->] & _).
    destruct (cancellation err) eqn:Hc; by eapply wm_idle_goto.
Qed.

(** A new operation. *)
Definition fresh_cell (id root : string) (m : manager) : cell :=
  mkCell (wm_generation m) false None (newWorkspace id root) false None None [].

Definition admitted (id root : string) (m : manager) : manager :=
  mkManager (wm_byID m) (wm_byRoot m) (<[root:=length (wm_cells m)]> (wm_opening m)) (wm_closeHooks m) (wm_generation m)
    (wm_cells m ++ [fresh_cell id root m]).

Lemma admitted_cells id root m j d : wm_cells (admitted id root m) !! j = Some d ↔
  wm_cells m !! j = Some d ∨ (j = length (wm_cells m) ∧ d = fresh_cell id root m).
Proof.
  simpl. rewrite lookup_app_Some, list_lookup_singleton_Some. split; [naive_solver lia|].
  intros [?|[-> ->]]; [by left|right; split; [lia|split; [lia|done]]].
Qed.

Lemma admitted_old id m j d : id_unused id m = true → wm_cells m !! j = Some d → j ≠ length (wm_cells m) ∧ c_id d ≠ id.
Proof.
  intros Hu Ed. split; [apply lookup_lt_Some in Ed; lia|]. intros <-. unfold id_unused in Hu. rewrite forallb_forall in Hu.
  apply list_elem_of_lookup_2, list_elem_of_In in Ed. specialize (Hu d Ed). by bools.
Qed.

Lemma admitted_grows id root m : grows m (admitted id root m).
Proof.
  split; [done| |].
  - intros j d Ed. exists d. split; [apply admitted_cells; by left|apply cell_grows_refl].
  - intros j d En Ed. apply admitted_cells in Ed as [?|[_ ->]]; [congruence|done].
Qed.

Lemma admitted_thread id root m t : thread_ok m t → thread_ok (admitted id root m) t.
Proof.
  intros [Hp Hs]. split; [eapply passive_grows; [apply admitted_grows|done]|]. intros l Hl.
  destruct (Hs l Hl) as (d & Ed & Hst). exists d. split; [apply admitted_cells; by left|done].
Qed.

Lemma admitted_cell_ok hooks m ts ts' id root j d : inv hooks m ts → id_unused id m = true → wm_opening m !! root = None →
  (∀ l, l ≠ length (wm_cells m) → count (owns l) ts' = count (owns l) ts ∧ count (finishes l) ts' = count (finishes l) ts) →
  count (owns (length (wm_cells m))) ts' = 1%nat → count (finishes (length (wm_cells m))) ts' = 0%nat →
  wm_cells (admitted id root m) !! j = Some d → cell_ok (admitted id root m) ts' j d.
Proof.
  intros I Hu Ho Hcnt N1 N2 [Ed|[-> ->]]%admitted_cells.
  - destruct (admitted_old _ _ _ _ Hu Ed) as [Hjk Hid]. destruct (Hcnt j Hjk).
    apply (cell_ok_other m _ ts); try done; [by eapply iv_cells|]. simpl. destruct (decide (c_root d = root)) as [->|];
      [rewrite lookup_insert_eq|by rewrite lookup_insert_ne]. rewrite Ho. naive_solver.
  - unfold cell_ok. rewrite N1, N2. split_and!; [done|done|simpl; lia|]. unfold cell_shape, c_root. simpl.
    rewrite lookup_insert_eq, bool_decide_true by done. split_and!; try done. unfold c_id. simpl. intros Hb.
    destruct (iv_byID _ _ _ I _ _ Hb) as (d & Ed & Hid). by destruct (admitted_old _ _ _ _ Hu Ed).
Qed.

Lemma inv_admitted hooks m ts i root id : inv hooks m ts → ts !! i = Some (ONew root) → id_unused id m = true →
  wm_byRoot m !! root = None → wm_opening m !! root = None →
  inv hooks (admitted id root m) (<[i:=OLoad root (length (wm_cells m))]> ts).
Proof.
  intros I Ht Hu Hr Ho. set (k := length (wm_cells m)).
  assert (∀ j, j ≠ k → count (owns j) (<[i:=OLoad root k]> ts) = count (owns j) ts ∧
    count (finishes j) (<[i:=OLoad root k]> ts) = count (finishes j) ts) as Hcnt.
  { intros j Hj. split; apply (count_other _ _ _ _ _ Ht); [simpl; by rewrite bool_decide_false|done]. }
  destruct (iv_none _ _ _ I k) as [N1 N2]; [by apply lookup_ge_None|].
  pose proof (count_insert (owns k) ts i _ (OLoad root k) Ht) as Hc. simpl in Hc. rewrite bool_decide_true in Hc by done.
  pose proof I as [I1 I2 I3 I4 I5 I6 I7 I8 I9]. split; try done.
  - intros j d. eapply admitted_cell_ok; try done; fold k; [lia|]. by rewrite (count_other _ _ _ _ _ Ht).
  - intros j Hj. simpl in Hj. apply lookup_ge_None in Hj. rewrite length_app in Hj. simpl in Hj.
    destruct (Hcnt j) as [-> ->]; [lia|]. apply I4. apply lookup_ge_None. lia.
  - intros j l d d' [Ed|[-> ->]]%admitted_cells [Ed'|[-> ->]]%admitted_cells Heq; [by eapply I5| | |done].
    + by destruct (admitted_old _ _ _ _ Hu Ed).
    + by destruct (admitted_old _ _ _ _ Hu Ed').
  - intros id' j Hj. destruct (I6 _ _ Hj) as (d & Ed & Hd). exists d. split; [apply admitted_cells; by left|done].
  - intros r id' Hb. destruct (I7 _ _ Hb) as (j & d & Hj & Ed & ? & ?). exists j, d. split_and!; try done.
    apply admitted_cells. by left.
  - intros r j Hj. simpl in Hj. apply lookup_insert_Some in Hj as [[<- <-]|[Hne Hj]].
    { split; [done|]. exists (fresh_cell id root m). split; [apply admitted_cells; by right|done]. }
    destruct (I8 _ _ Hj) as (? & d & Ed & ?). split; [done|]. exists d. split; [apply admitted_cells; by left|done].
  - intros t Hin. apply list_elem_of_lookup in Hin as (j & Hj). destruct (decide (j = i)) as [->|Hne].
    + rewrite list_lookup_insert_eq in Hj by (by eapply lookup_lt_Some). simplify_eq. split; [done|]. intros j [= <-].
      exists (fresh_cell id root m). split; [apply admitted_cells; by right|done].
    + rewrite list_lookup_insert_ne in Hj by done. apply admitted_thread, I9. by eapply list_elem_of_lookup_2.
Qed.

Lemma wm_new_step hooks m ts i root a : inv hooks m ts → ts !! i = Some (ONew root) →
  keeps hooks (step_thread i (ONew root) a (mkWorld m ts)).
Proof.
  intros I Ht. destruct a as [| |[id|err]| | | |]; try exact Logic.I; simpl; [|by eapply wm_idle_goto].
  destruct (id_unused id m) eqn:Hu; [|done]. unfold beginOpen.
  destruct (wm_byRoot m !! root) as [?|] eqn:Hr; [by eapply wm_idle_goto|].
  destruct (wm_opening m !! root) as [?|] eqn:Ho; [by eapply wm_idle_goto|]. by apply inv_admitted.
Qed.

(** Waiting for the close of an entry: it does not panic, and a nil result means
    that the close has finished. *)
Lemma wait_entry_spec m ts k c ctxErr : cell_ok m ts k c → wm_cells m !! k = Some c → is_closing c →
  match wait_entry ctxErr k m with
  | Ret None => is_finished c
  | Panic _ => False
  | _ => True
  end.
Proof.
  intros (_ & _ & _ & Hs) E [cl He]. unfold wait_entry, load_entry. rewrite (load_Some _ _ _ E). simpl. rewrite He. simpl.
  unfold cell_shape in Hs. rewrite He in Hs. destruct Hs as (_ & _ & _ & _ & _ & Hm). unfold Wait_enter.
  destruct (co_state cl) eqn:Hst; [done| |].
  - destruct ctxErr; [|done]. destruct Hm as [_ ->]. done.
  - simpl. destruct (co_err cl); [done|]. by exists cl.
Qed.

Lemma wm_close_wait_step hooks m ts i k a : inv hooks m ts → ts !! i = Some (CWait k) →
  keeps hooks (step_thread i (CWait k) a (mkWorld m ts)).
Proof.
  intros I Ht. destruct (iv_threads _ _ _ I (CWait k)) as [(c & E & Hc) _]; [by eapply list_elem_of_lookup_2|].
  assert (∀ ctxErr, keeps hooks (r ← wait_entry ctxErr k m; Ret (goto i (CReturned k r) m (mkWorld m ts)))) as Hw.
  { intros ctxErr. pose proof (wait_entry_spec _ _ _ _ ctxErr (iv_cells _ _ _ I _ _ E) E Hc) as Hsp.
    destruct (wait_entry ctxErr k m) as [[err|]| |]; try done; simpl; eapply wm_idle_goto; try done. by exists c. }
  destruct a; try exact Logic.I; apply Hw.
Qed.

Lemma wm_clear_wait_step hooks m ts i g todo result a : inv hooks m ts → ts !! i = Some (KWait g todo result) →
  keeps hooks (step_thread i (KWait g todo result) a (mkWorld m ts)).
Proof.
  intros I Ht. destruct (iv_threads _ _ _ I (KWait g todo result)) as [(Hg & Hcl & Hr) _]; [by eapply list_elem_of_lookup_2|].
  destruct todo as [|k todo]; [destruct a; try exact Logic.I; by eapply wm_idle_goto|].
  destruct (Hcl k) as (c & E & Hc); [apply list_elem_of_here|].
  assert (∀ ctxErr, keeps hooks (r ← wait_entry ctxErr k m;
    Ret (goto i (KWait g todo (add_error result r)) m (mkWorld m ts)))) as Hw.
  { intros ctxErr. pose proof (wait_entry_spec _ _ _ _ ctxErr (iv_cells _ _ _ I _ _ E) E Hc) as Hsp.
    destruct (wait_entry ctxErr k m) as [r| |]; try done; simpl; eapply wm_idle_goto; try done.
    split_and!; [done|intros j Hj; apply Hcl; by apply list_elem_of_further|]. intros Hn j d Ed Hlt.
    destruct r as [err|]; [by destruct result|]. simpl in Hn.
    destruct (Hr Hn _ _ Ed Hlt) as [?|[?|[->|?]%elem_of_cons]]; [by left|by right; left| |by right; right].
    simplify_eq. right. by left. }
  destruct a; try exact Logic.I; apply Hw.
Qed.

(** The last section of [finishClose] forgets the closed workspace. *)
Lemma wm_remove_step hooks m ts i id k a : inv hooks m ts → ts !! i = Some (FRemove id k) →
  keeps hooks (step_thread i (FRemove id k) a (mkWorld m ts)).
Proof.
  intros I Ht. destruct a; try exact Logic.I. simpl. unfold remove_entry. case_bool_decide as Hk; [|by eapply wm_idle_goto].
  destruct (iv_threads _ _ _ I (FRemove id k)) as [(c & E & <- & Hf) _]; [by eapply list_elem_of_lookup_2|].
  pose proof (wm_idle_goto _ _ _ _ _ TDone I Ht eq_refl eq_refl Logic.I) as I'. set (m' := mkManager _ _ _ _ _ _).
  assert (put_ok m m' k c c) as P.
  { split; try done. simpl. by rewrite list_insert_id. }
  eapply (inv_update _ _ _ _ _ _ _ _ I' E P); [|done| |].
  - split; simpl; try done.
    + intros id j Hne. by rewrite lookup_delete_ne.
    + intros j. by rewrite lookup_delete_eq.
    + intros Hb. destruct (iv_byRoot _ _ _ I _ _ Hb) as (j & d & Hj & Ed & _ & Ha).
      destruct (iv_byID _ _ _ I _ _ Hj) as (d' & Ed' & Hd). simplify_eq. destruct Hf as (cl & Hcl & _), Ha as [cl' Ha]. congruence.
  - destruct (iv_cells _ _ _ I' _ _ E) as (C1 & C2 & C3 & C4). split_and!; try done. destruct Hf as (cl & Hcl & Hst).
    unfold cell_shape in *. rewrite Hcl in *. by rewrite Hst in *.
  - intros t Hin. destruct (iv_threads _ _ _ I' t Hin) as [Hp Hs]. split; [by eapply passive_grows; [eapply put_grows|]|done].
Qed.

Lemma wm_thread_step hooks m ts i t a : inv hooks m ts → ts !! i = Some t → keeps hooks (step_thread i t a (mkWorld m ts)).
Proof.
  intros I Ht. destruct t.
  - by apply wm_loop_step.
  - by apply wm_wait_step.
  - by apply wm_new_step.
  - by apply ol_watcher_step.
  - by apply ol_loaded_step.
  - by apply oc_commit_step.
  - by apply of_fail_step.
  - by apply of_finish_step.
  - by destruct a.
  - by apply wm_close_wait_step.
  - by destruct a.
  - by apply fs_start_step.
  - by apply fs_stop_step.
  - by apply fs_hooks_step.
  - by apply fs_release_step.
  - by apply fs_finish_step.
  - by apply wm_remove_step.
  - by apply wm_clear_wait_step.
  - by destruct a.
  - by destruct a.
Qed.

(** Only [Clear] starts a generation. *)
Ltac rets := repeat first
  [ match goal with H : Ret _ = Ret _ |- _ => injection H as ? | H : _ = Ret _ |- _ => apply bind_Ret_inv in H as (? & ? & ?) end
  | progress simplify_eq/= | case_match ].

Lemma close_entry_generation k m b m' : close_entry k m = Ret (b, m') → wm_generation m' = wm_generation m.
Proof. unfold close_entry. intros Hc. by rets. Qed.

Lemma clear_loop_generation entries : ∀ m owned m', clear_loop entries m = Ret (owned, m') → wm_generation m' = wm_generation m.
Proof.
  induction entries as [|k entries IH]; intros m owned m' Hl; simpl in Hl; [by simplify_eq|].
  apply bind_Ret_inv in Hl as ([b m1] & H1 & H2). apply bind_Ret_inv in H2 as ([o m2] & H2 & H3). simplify_eq.
  apply close_entry_generation in H1. apply IH in H2. congruence.
Qed.

Lemma step_generation i t a w w' : step_thread i t a w = Ret w' → wm_generation (wd_manager w') = wm_generation (wd_manager w).
Proof.
  destruct w as [m ts], t, a; simpl; intros Hs; try done;
    unfold commit, fail_open, finishOpen, stopWatcher, call_hook, release, finish_entry, remove_entry, beginOpen in Hs;
    rets; by repeat case_match.
Qed.

(** The generations an action uses up. *)
Definition clears (a : action) : Z := match a with AClear _ => 1 | _ => 0 end.

Fixpoint total_clears (actions : list action) : Z :=
  match actions with [] => 0 | a :: actions => clears a + total_clears actions end.

Lemma wm_act_keeps hooks a w : inv hooks (wd_manager w) (wd_threads w) →
  (wm_generation (wd_manager w) + clears a < 2 ^ 64)%Z → keeps hooks (act a w).
Proof.
  intros I Hg. destruct a.
  - by apply wm_open_step.
  - by apply wm_close_step.
  - by apply wm_clear_step.
  - by apply wm_change_step.
  - simpl. destruct (wd_threads w !! i) as [t|] eqn:Ht; [|done]. destruct w. by apply wm_thread_step.
Qed.

Lemma act_generation a w w' : act a w = Ret w' → (0 ≤ wm_generation (wd_manager w))%Z →
  (wm_generation (wd_manager w') ≤ wm_generation (wd_manager w) + clears a)%Z.
Proof.
  intros Ha Hg. destruct a; simpl in Ha.
  - rets; simpl; lia.
  - unfold beginClose in Ha. rets; simpl; try lia;
      match goal with H : close_entry _ _ = _ |- _ => apply close_entry_generation in H end; lia.
  - case_bool_decide; [|done]. unfold Clear_enter in Ha. rets. simpl.
    match goal with H : clear_loop _ _ = _ |- _ => apply clear_loop_generation in H as -> end.
    unfold u64. pose proof (Z.mod_le (wm_generation (wd_manager w) + 1) (2 ^ 64)). lia.
  - rets. simpl. lia.
  - destruct (wd_threads w !! i); [|done]. apply step_generation in Ha. simpl. lia.
Qed.

Lemma wm_initial_inv hooks : inv hooks (wd_manager (initial hooks)) [] ∧ wm_generation (wd_manager (initial hooks)) = 0%Z.
Proof.
  assert (∀ hs m, foldl (λ m h, RegisterCloseHook (Some h) m) m hs =
    mkManager (wm_byID m) (wm_byRoot m) (wm_opening m) (wm_closeHooks m ++ hs) (wm_generation m) (wm_cells m)) as Hf.
  { induction hs as [|h hs IH]; intros m; simpl; [rewrite app_nil_r; by destruct m|]. rewrite IH. simpl. by rewrite <-(assoc_L app). }
  unfold initial. simpl. rewrite Hf. simpl. split; [|done]. split; try done; intros; by set_solver.
Qed.

Lemma wm_schedule_inv hooks actions : ∀ w, inv hooks (wd_manager w) (wd_threads w) →
  (wm_generation (wd_manager w) + total_clears actions < 2 ^ 64)%Z →
  ∃ w', schedule actions w = Ret w' ∧ inv hooks (wd_manager w') (wd_threads w').
Proof.
  assert (∀ l, (0 ≤ total_clears l)%Z) as Hpos by (induction l as [|[] l IH]; simpl in *; lia).
  induction actions as [|a actions IH]; intros w I Hg; [by exists w|]. simpl in *. specialize (Hpos actions).
  pose proof (wm_act_keeps _ a _ I ltac:(destruct a; simpl in *; lia)) as Hk. unfold attempt.
  destruct (act a w) as [w1|msg|] eqn:Ha; [|done|].
  - apply IH; [done|]. pose proof (act_generation _ _ _ Ha (iv_generation _ _ _ I)). lia.
  - apply IH; [done|]. destruct a; simpl in *; lia.
Qed.

(** ** Waiting *)

(** The cell a thread waits for. *)
Definition awaits (t : thread) : option nat :=
  match t with OWait _ k | CWait k | KWait _ (k :: _) _ => Some k | _ => None end.

(** The steps a thread still takes on its cell. *)
Definition work (hooks : list nat) (t : thread) : nat :=
  match t with
  | OLoad _ _ => 5
  | OLoading _ _ => 4
  | OCommit _ _ _ => 3
  | OFail _ _ _ => 2
  | OFinish _ _ _ => 1
  | FStart _ _ => length hooks + 5
  | FStop _ _ hs => length hs + 4
  | FHooks _ _ todo _ => length todo + 3
  | FRelease _ _ _ => 2
  | FFinish _ _ _ => 1
  | _ => 0
  end.

Lemma work_decreases hooks m ts i t a w' : inv hooks m ts → ts !! i = Some t → is_Some (target t) →
  step_thread i t a (mkWorld m ts) = Ret w' → ∃ t', wd_threads w' !! i = Some t' ∧ (work hooks t' < work hooks t)%nat.
Proof.
  intros I Ht [k Hk] Hs. assert (i < length ts)%nat as Hlt by (by eapply lookup_lt_Some).
  assert (∀ t' m', <[i:=t']> ts !! i = Some t') as Hi by (intros; by apply list_lookup_insert_eq).
  pose proof (iv_hooks _ _ _ I) as Hh.
  destruct t; simplify_eq/=; destruct a; try done; rets; unfold goto; simpl;
    (eexists; split; [by apply Hi|]); simpl; try lia; case_match; simpl; lia.
Qed.

(** A thread that works on a cell is never stuck. *)
Lemma busy_runs hooks m ts i t k : inv hooks m ts → ts !! i = Some t → target t = Some k →
  ∃ a w', step_thread i t a (mkWorld m ts) = Ret w'.
Proof.
  intros I Ht Hk. pose proof (λ a, wm_thread_step _ _ _ _ _ a I Ht) as Hst.
  destruct (target_cell _ _ _ _ _ _ I Ht Hk) as (c & E & Hsg & Hok & HL).
  assert (∀ a, step_thread i t a (mkWorld m ts) ≠ Block → ∃ w', step_thread i t a (mkWorld m ts) = Ret w') as Hret.
  { intros a Hb. specialize (Hst a). destruct (step_thread i t a (mkWorld m ts)); [by eexists|done|done]. }
  assert (∃ a, step_thread i t a (mkWorld m ts) ≠ Block) as [a Ha]; [|exists a; by apply Hret].
  destruct t; simplify_eq/=.
  - by exists (NewWatcher (Some (ENew ""))).
  - by exists (Loaded (inr (ENew ""))).
  - exists Proceed. unfold commit. rewrite HL. simpl. case_bool_decide; [done|]. unfold close_done. by destruct (c_done c).
  - exists (Closed None). unfold fail_open. rewrite HL. simpl. by case_match.
  - exists Proceed. unfold finishOpen, close_done. rewrite HL. simpl. by destruct (c_done c).
  - by exists Proceed.
  - exists (Closed None). unfold stopWatcher. rewrite HL. simpl. destruct Hsg as (_ & (_ & -> & -> & _) & _). done.
  - destruct todo; [by exists Proceed|]. exists (Hooked None). unfold call_hook. by rewrite HL.
  - exists Proceed. unfold release. by rewrite HL.
  - exists Proceed. unfold finish_entry, load_entry. rewrite HL. simpl.
    destruct (finisher_closing _ _ _ _ _ _ Hok Ht) as [-> _]; [simpl; by rewrite bool_decide_true|]. done.
Qed.

(** A blocked wait is for a cell some thread works on. *)
Lemma awaited_busy hooks m ts j u k : inv hooks m ts → ts !! j = Some u → awaits u = Some k →
  step_thread j u Proceed (mkWorld m ts) = Block → ∃ i t, ts !! i = Some t ∧ target t = Some k.
Proof.
  intros I Hu Hk Hb. destruct (iv_threads _ _ _ I u) as [Hp _]; [by eapply list_elem_of_lookup_2|].
  assert (∀ c, wm_cells m !! k = Some c → is_closing c → wait_entry None k m = Block → ∃ i t, ts !! i = Some t ∧ target t = Some k)
    as Hcl.
  { intros c E [cl He] Hw. destruct (iv_cells _ _ _ I _ _ E) as (_ & C2 & _ & C4). unfold closer in C2.
    unfold cell_shape in C4. rewrite He in C2, C4. destruct C4 as (_ & _ & _ & _ & _ & C4).
    unfold wait_entry, load_entry, Wait_enter in Hw. rewrite (load_Some _ _ _ E) in Hw. simpl in Hw. rewrite He in Hw. simpl in Hw.
    destruct (co_state cl) eqn:Hst; [done| |done]. rewrite bool_decide_true in C2 by done.
    destruct (count_witness (finishes k) ts) as (i & t & Ht & Hf); [lia|]. exists i, t. split; [done|].
    apply busy_target. unfold busy. rewrite Hf. by rewrite orb_true_r. }
  destruct u as [|root k'| | | | | | | |k'| | | | | | | |g [|k' todo] res| |]; simplify_eq/=.
  - destruct Hp as (c & E & _). rewrite (load_Some _ _ _ E) in Hb. simpl in Hb. destruct (c_done c) eqn:Hd; [done|].
    destruct (iv_cells _ _ _ I _ _ E) as (C1 & _). rewrite Hd in C1.
    destruct (count_witness (owns k) ts) as (i & t & Ht & Hf); [lia|]. exists i, t. split; [done|].
    apply busy_target. unfold busy. by rewrite Hf.
  - destruct Hp as (c & E & Hc). apply (Hcl c E Hc). by destruct (wait_entry None k m).
  - destruct Hp as (_ & Hx & _). destruct (Hx k) as (c & E & Hc); [apply list_elem_of_here|].
    apply (Hcl c E Hc). by destruct (wait_entry None k m).
Qed.

(** ** Lookups *)

Global Instance deeper_total m : Total (deeper m).
Proof.
  intros j k. unfold deeper. repeat case_bool_decide; try congruence; try lia.
  apply (total String.le).
Qed.

Global Instance deeper_trans m : Transitive (deeper m).
Proof.
  intros i j k. unfold deeper. repeat case_bool_decide; try lia; try congruence. by apply transitivity.
Qed.

Lemma deeper_length m j k : deeper m j k → (String.length (root_of m k) ≤ String.length (root_of m j))%nat.
Proof. unfold deeper. case_bool_decide; lia. Qed.

(** The first workspace of the list that contains the path decides. *)
Lemma lookup_loop_spec path now items : ∀ turn,
  (lookup_loop (λ _, None) turn path now items = inl None ∧
     Forall (λ k, pathWithinRoot (ws_root (now k)) path = None) items) ∨
  ∃ before k after relative, items = before ++ k :: after ∧ pathWithinRoot (ws_root (now k)) path = Some relative ∧
    Forall (λ k, pathWithinRoot (ws_root (now k)) path = None) before ∧
    lookup_loop (λ _, None) turn path now items =
      inl ((λ d, mkLookup d (ws_id (now k)) (doc_revision d) (doc_generation d)) <$> lookupDocument relative (now k)).
Proof.
  induction items as [|k items IH]; intros turn; simpl; [by left|].
  destruct (pathWithinRoot (ws_root (now k)) path) as [relative|] eqn:Hp.
  - right. exists [], k, items, relative. split_and!; try done. by destruct (lookupDocument relative (now k)).
  - destruct (IH (S turn)) as [[Hl Hf]|(before & j & after & relative & -> & Hj & Hb & Hl)].
    + left. split; [done|]. by constructor.
    + right. exists (k :: before), j, after, relative. split_and!; try done. by constructor.
Qed.

Lemma active_entries_spec hooks m ts order k : inv hooks m ts → order ≡ₚ map fst (map_to_list (wm_byID m)) →
  k ∈ active_entries order m ↔ ∃ c, wm_cells m !! k = Some c ∧ is_active c.
Proof.
  intros I Ho. unfold active_entries. rewrite list_elem_of_filter, list_elem_of_omap. unfold active. split.
  - intros (Ha & _). destruct (wm_cells m !! k) as [c|]; [|done]. exists c. split; [done|].
    destruct (c_entry c) as [[[] cl]|] eqn:He; try done. by exists cl.
  - intros (c & E & [cl He]). rewrite E, He. split; [done|].
    pose proof (iv_cells _ _ _ I _ _ E) as (_ & _ & _ & Hs). unfold cell_shape in Hs. rewrite He in Hs.
    destruct Hs as (Hl & _). exists (c_id c). split; [|done]. rewrite Ho. apply list_elem_of_fmap. exists (c_id c, k).
    split; [done|by apply elem_of_map_to_list].
Qed.

Lemma active_current hooks m ts k c : inv hooks m ts → wm_cells m !! k = Some c → is_active c →
  wm_byID m !! c_id c = Some k ∧ wm_byRoot m !! c_root c = Some (c_id c) ∧ ws_state (c_workspace c) = StateReady ∧
  ws_closing (c_workspace c) = false ∧ c_watcher c = Some (mkWatcher true None).
Proof.
  intros I E [cl He]. pose proof (iv_cells _ _ _ I _ _ E) as (_ & _ & _ & Hs). unfold cell_shape in Hs. rewrite He in Hs.
  naive_solver.
Qed.

Lemma active_unique hooks m ts j k c d : inv hooks m ts → wm_cells m !! j = Some c → wm_cells m !! k = Some d →
  is_active c → is_active d → c_root c = c_root d → j = k.
Proof.
  intros I Ec Ed Ha Hb Hr. destruct (active_current _ _ _ _ _ I Ec Ha) as (_ & H1 & _).
  destruct (active_current _ _ _ _ _ I Ed Hb) as (_ & H2 & _). eapply (iv_ids _ _ _ I); [done..|]. congruence.
Qed.

Lemma reachable_inv hooks actions w : (total_clears actions < 2 ^ 64)%Z → schedule actions (initial hooks) = Ret w →
  inv hooks (wd_manager w) (wd_threads w).
Proof.
  intros Hn Hs. destruct (wm_initial_inv hooks) as [I Hg]. destruct (wm_schedule_inv hooks actions (initial hooks) I) as (w' & Hw & I').
  { rewrite Hg. lia. }
  congruence.
Qed.

(** ** The mutations of a workspace *)

(** A change that keeps the identity and the lifecycle of a workspace, and its
    documents unless it is ready and not closing. *)
Definition only_documents (ws ws' : Workspace (D := D)) : Prop :=
  ws_id ws' = ws_id ws ∧ ws_root ws' = ws_root ws ∧ ws_state ws' = ws_state ws ∧ ws_failure ws' = ws_failure ws ∧
  ws_closing ws' = ws_closing ws ∧ (is_Some (ws_documents ws) → is_Some (ws_documents ws')) ∧
  (ws_closing ws = true ∨ ws_state ws ≠ StateReady → set_gate (ws_gate ws') ws = ws').

Lemma only_documents_evolve ws ws' : only_documents ws ws' → (ws_state ws = StateReady → is_Some (ws_documents ws)) →
  ∃ ch, ws' = evolve ch ws.
Proof.
  intros (H1 & H2 & H3 & H4 & H5 & H6 & H7) Hr.
  exists (mkChange (ws_files ws') (docs_of ws') (ws_explicitPaths ws') (ws_order ws') (ws_nextGeneration ws') (ws_gate ws')).
  unfold evolve. simpl. destruct (ws_closing ws) eqn:Hc; simpl; [by rewrite H7 by auto|].
  case_bool_decide as Hst; [by rewrite H7 by auto|]. destruct (H6 (Hr Hst)) as [docs Hd].
  destruct ws'. simpl in *. subst. unfold docs_of. simpl. done.
Qed.

Lemma store_only key next ws ws' : ws_closing ws = false → ws_state ws = StateReady → store key next ws = Ret ws' →
  only_documents ws ws'.
Proof. intros Hc Hs He. unfold store in He. rets; (unfold only_documents; split_and!; try done; intros [?|?]; congruence). Qed.

Lemma only_documents_trans ws1 ws2 ws3 : ws_closing ws1 = false → ws_state ws1 = StateReady →
  only_documents ws1 ws2 → only_documents ws2 ws3 → only_documents ws1 ws3.
Proof. unfold only_documents. intros. destruct_and!. split_and!; try congruence; [auto|]. intros [?|?]; congruence. Qed.

Lemma ready_change (f : Workspace → Workspace) (ws : Workspace (D := D)) : ws_closing ws = false → ws_state ws = StateReady →
  (∀ ws, ws_id (f ws) = ws_id ws ∧ ws_root (f ws) = ws_root ws ∧ ws_state (f ws) = ws_state ws ∧
     ws_failure (f ws) = ws_failure ws ∧ ws_closing (f ws) = ws_closing ws ∧
     (is_Some (ws_documents ws) → is_Some (ws_documents (f ws)))) → only_documents ws (f ws).
Proof. intros Hc Hs Hf. destruct (Hf ws) as (?&?&?&?&?&?). unfold only_documents. split_and!; try done. intros [?|?]; congruence. Qed.

Lemma apply_loop_only order content : ∀ ws changed ws' changed', ws_closing ws = false → ws_state ws = StateReady →
  apply_loop order content ws changed = Ret (ws', changed') → only_documents ws ws'.
Proof.
  induction order as [|key order IH]; intros ws changed ws' changed' Hc Hs Hl; simpl in Hl.
  { simplify_eq. by apply (ready_change id). }
  assert (∀ next b, (w ← store key next ws; apply_loop order content w b) = Ret (ws', changed') → only_documents ws ws') as Hst.
  { intros next b Hb. apply bind_Ret_inv in Hb as (ws1 & H1 & H2). pose proof (store_only _ _ _ _ Hc Hs H1) as Ho.
    eapply only_documents_trans; [done|done|exact Ho|]. destruct Ho as (_ & _ & Ho1 & _ & Ho2 & _).
    eapply IH; [congruence|congruence|exact H2]. }
  destruct (docs_of ws !! key); [case_match; [by eapply IH|]|]; by eapply Hst.
Qed.

Lemma applyContent_only key content ws ws' : ws_closing ws = false → ws_state ws = StateReady →
  applyContentLocked key content ws = Ret ws' → only_documents ws ws'.
Proof.
  intros Hc Hs Ha. unfold applyContentLocked in Ha. apply bind_Ret_inv in Ha as ([ws1 ch] & H1 & H2).
  apply apply_loop_only in H1; [|done..].
  eapply (only_documents_trans _ (set_documents (filter (λ kd, retained key content kd = true) (docs_of ws)) (ws_nextGeneration ws) ws));
    [done|done|by apply (ready_change (set_documents _ _))|].
  destruct ch; simplify_eq; [|done]. eapply only_documents_trans; [done|done|exact H1|].
  destruct H1 as (_ & _ & Ho1 & _ & Ho2 & _). simpl in *. apply (ready_change rebuildIndexesLocked); [congruence|congruence|done].
Qed.

Lemma reconcileDocument_only ctxErr key explicit discovered ws r ws' :
  reconcileDocument_commit ctxErr key explicit discovered ws = Ret (r, ws') → only_documents ws ws'.
Proof.
  unfold reconcileDocument_commit. intros Hr.
  assert (only_documents ws ws) as Href by (unfold only_documents; split_and!; try done; by destruct ws).
  destruct (ws_closing ws) eqn:Hc; simpl in Hr; [by simplify_eq|]. case_bool_decide as Hs; [by simplify_eq|].
  destruct ctxErr; [by simplify_eq|]. destruct (negb (dd_found discovered)).
  { destruct (docs_of ws !! key); simplify_eq; [|done].
    by apply (ready_change (λ ws, rebuildIndexesLocked (set_documents _ _ ws))). }
  set (ws1 := if explicit then add_explicit key ws else ws) in *.
  assert (only_documents ws ws1) as H1 by (subst ws1; destruct explicit; [by apply (ready_change (add_explicit key))|done]).
  assert (ws_closing ws1 = false ∧ ws_state ws1 = StateReady) as [Hc1 Hs1] by (destruct H1 as (_&_&->&_&->&_); done).
  eapply only_documents_trans; [done|done|exact H1|].
  assert (∀ (f : Workspace → Workspace) next (g : Workspace (D := D) → option (Document D) + error),
    (∀ ws, ws_id (f ws) = ws_id ws ∧ ws_root (f ws) = ws_root ws ∧ ws_state (f ws) = ws_state ws ∧
     ws_failure (f ws) = ws_failure ws ∧ ws_closing (f ws) = ws_closing ws ∧
     (is_Some (ws_documents ws) → is_Some (ws_documents (f ws)))) →
    (w ← store key next ws1; Ret (g w, f w)) = Ret (r, ws') → only_documents ws1 ws') as Hst.
  { intros f next g Hf Hb. apply bind_Ret_inv in Hb as (ws2 & H2 & H3). simplify_eq.
    pose proof (store_only _ _ _ _ Hc1 Hs1 H2) as Ho. eapply only_documents_trans; [done|done|exact Ho|].
    destruct Ho as (_ & _ & Ho1 & _ & Ho2 & _). apply (ready_change f); [congruence|congruence|done]. }
  destruct (docs_of ws !! key) as [d|]; [destruct (sameState d (dd_document discovered))|].
  - simplify_eq. by apply (ready_change id).
  - eapply (Hst id _ (λ w, inl (docs_of w !! key))); [done|exact Hr].
  - eapply (Hst rebuildIndexesLocked _ (λ w, inl (docs_of w !! key))); [done|exact Hr].
Qed.

(** What a mutation of [Workspace] does in any of its steps is a change the
    manager allows for. *)
Lemma mutation_evolves n (w w' : Workspace.world (D := D)) a : Workspace.inv n w →
  match a with Workspace.AMutate _ _ | Workspace.AStep _ _ => True | _ => False end →
  Workspace.act a w = Ret w' → ∃ ch, Workspace.wd_workspace w' = evolve ch (Workspace.wd_workspace w).
Proof.
  intros [Hw _ _] Ha Hs. apply only_documents_evolve.
  2: { intros Hr. destruct (wo_ready _ _ Hw Hr) as (docs & -> & _). by eexists. }
  destruct w as [ws ts]. simpl in *.
  assert (∀ b, only_documents ws (set_gate b ws)) as Hg by (intros b; unfold only_documents; by destruct ws).
  assert (only_documents ws ws) as Href by (unfold only_documents; split_and!; try done; by destruct ws).
  destruct a as [ctxErr mu| | |i a]; try done; simpl in Hs.
  { destruct (beginMutation_enter ctxErr ws); by simplify_eq. }
  destruct (ts !! i) as [t|]; [|done].
  destruct t as [mu|mu|[rp ex|rp]|key ex ad|key keys| |], a; simpl in Hs; try done;
    unfold beginMutation_receive, beginMutation_recheck, finishMutation in Hs.
  1-5, 8: rets; done.
  - apply bind_Ret_inv in Hs as ([r ws1] & H1 & H2). simplify_eq. simpl. unfold reconcileDocument_discover in H1.
    apply bind_Ret_inv in H1 as ([[d|err] k] & _ & H1); [|by simplify_eq]. destruct (ctx_Err E k); [by simplify_eq|].
    by eapply reconcileDocument_only.
  - apply bind_Ret_inv in Hs as ([r ws1] & H1 & H2). simplify_eq. simpl. unfold reconcileTree_load in H1.
    apply bind_Ret_inv in H1 as ([[content|err] k] & _ & H1); [|by simplify_eq]. unfold reconcileTree_commit in H1.
    destruct (ctx_Err E k); [by simplify_eq|]. destruct (ws_closing ws) eqn:Hc; simpl in H1; [by simplify_eq|].
    case_bool_decide as Hst; [by simplify_eq|]. apply bind_Ret_inv in H1 as (ws2 & H1 & H2). simplify_eq.
    by eapply applyContent_only.
Qed.

(** ** Properties *)

(** C15. No interleaving of opens, closes and clears of the workspace manager
    panics, and in every state it reaches the index by root holds exactly the
    active workspaces, at most one per root; each of them is ready, not closing,
    and watched. *)
Theorem workspace_manager_safe hooks actions : (total_clears actions < 2 ^ 64)%Z →
  ∃ w, schedule actions (initial hooks) = Ret w ∧
    (∀ root id, wm_byRoot (wd_manager w) !! root = Some id ↔
       ∃ k c, wm_cells (wd_manager w) !! k = Some c ∧ is_active c ∧ c_root c = root ∧ c_id c = id) ∧
    (∀ j k c d, wm_cells (wd_manager w) !! j = Some c → wm_cells (wd_manager w) !! k = Some d →
       is_active c → is_active d → c_root c = c_root d → j = k) ∧
    (∀ k c, wm_cells (wd_manager w) !! k = Some c → is_active c →
       Get None (c_id c) (wd_manager w) = inl k ∧ Workspace_State (c_workspace c) = StateReady ∧
       c_watcher c = Some (mkWatcher true None)).
Proof.
  intros Hn. destruct (wm_initial_inv hooks) as [I0 Hg].
  destruct (wm_schedule_inv hooks actions (initial hooks) I0) as (w & Hs & I); [rewrite Hg; lia|].
  exists w. split_and!; [done| |intros; by eapply active_unique|].
  - intros root id. split.
    + intros Hr. destruct (iv_byRoot _ _ _ I _ _ Hr) as (k & c & Hk & E & Hro & Ha).
      destruct (iv_byID _ _ _ I _ _ Hk) as (d & Ed & Hid). simplify_eq. eauto 10.
    + intros (k & c & E & Ha & <- & <-). by destruct (active_current _ _ _ _ _ I E Ha) as (_ & ? & _).
  - intros k c E Ha. destruct (active_current _ _ _ _ _ I E Ha) as (Hl & _ & Hst & Hc & Hw).
    unfold Get, active. destruct Ha as [cl He]. rewrite Hl, E, He. split_and!; [done| |done].
    unfold Workspace_State. by rewrite Hc, Hst.
Qed.

(** Concurrent opens share: a successful [Open] returns a workspace of the
    root it asked for that was published; two of them for one root that are both
    still active are the same; and a caller that only waited is never failed by
    the cancellation of the caller that loaded. *)
Theorem workspace_open_shares hooks actions w : (total_clears actions < 2 ^ 64)%Z →
  schedule actions (initial hooks) = Ret w →
  (∀ root own k, OReturned root own (inl k) ∈ wd_threads w →
     ∃ c, wm_cells (wd_manager w) !! k = Some c ∧ c_root c = root ∧ is_Some (c_entry c)) ∧
  (∀ root own own' j k c d, OReturned root own (inl j) ∈ wd_threads w → OReturned root own' (inl k) ∈ wd_threads w →
     wm_cells (wd_manager w) !! j = Some c → wm_cells (wd_manager w) !! k = Some d →
     is_active c → is_active d → j = k) ∧
  (∀ root err, OReturned root false (inr err) ∈ wd_threads w → cancellation err = false).
Proof.
  intros Hn Hs. pose proof (reachable_inv _ _ _ Hn Hs) as I. split_and!.
  - intros root own k Ht. destruct (iv_threads _ _ _ I _ Ht) as [Hp _]. by destruct own.
  - intros root own own' j k c d H1 H2 Ec Ed Ha Hb. destruct (iv_threads _ _ _ I _ H1) as [P1 _], (iv_threads _ _ _ I _ H2) as [P2 _].
    eapply active_unique; try done. destruct own, own'; destruct P1 as (? & ? & ? & _), P2 as (? & ? & ? & _); simplify_eq; done.
  - intros root err Ht. by destruct (iv_threads _ _ _ I _ Ht) as [Hp _].
Qed.

(** When [Close] of a workspace returns nil, or a [Clear] did, the teardown
    is complete and was ordered: the watcher was stopped, then every hook ran
    once, in registration order and with the identifier of the workspace, then
    its sources were released; after a [Clear] this holds of every workspace
    opened before it, and an open that was still loading never publishes one. *)
Theorem workspace_close_complete_order hooks actions w : (total_clears actions < 2 ^ 64)%Z →
  schedule actions (initial hooks) = Ret w →
  (∀ k, CReturned k None ∈ wd_threads w → ∃ c, wm_cells (wd_manager w) !! k = Some c ∧ torn_down hooks c) ∧
  (∀ g, KReturned g None ∈ wd_threads w → ∀ k c, wm_cells (wd_manager w) !! k = Some c →
     (c_generation c < g)%Z → c_entry c = None ∨ torn_down hooks c).
Proof.
  intros Hn Hs. pose proof (reachable_inv _ _ _ Hn Hs) as I.
  assert (∀ k c, wm_cells (wd_manager w) !! k = Some c → is_finished c → torn_down hooks c) as Hf.
  { intros k c E (cl & He & Hst). pose proof (iv_cells _ _ _ I _ _ E) as (_ & _ & _ & Hsh). unfold cell_shape in Hsh.
    rewrite He, Hst, (iv_hooks _ _ _ I) in Hsh. naive_solver. }
  split.
  - intros k Ht. destruct (iv_threads _ _ _ I _ Ht) as [(c & E & Hc) _]. eauto.
  - intros g Ht k c E Hlt. destruct (iv_threads _ _ _ I _ Ht) as [(_ & _ & Hr) _].
    destruct (Hr eq_refl _ _ E Hlt) as [?|[?|Hnil%elem_of_nil]]; [by left|right; eauto|done].
Qed.

(** C16. No wait of the workspace manager is for nothing: a caller that waits for
    an open or a close can return, or some thread works on it and is not stuck,
    and every step such a thread takes leaves it fewer steps, at most five and
    one per hook. *)
Theorem workspace_waits_end hooks actions w : (total_clears actions < 2 ^ 64)%Z →
  schedule actions (initial hooks) = Ret w →
  (∀ j u k, wd_threads w !! j = Some u → awaits u = Some k →
     (∃ w', step_thread j u Proceed w = Ret w') ∨
     ∃ i t a w', wd_threads w !! i = Some t ∧ target t = Some k ∧ step_thread i t a w = Ret w') ∧
  (∀ i t a w', wd_threads w !! i = Some t → is_Some (target t) → step_thread i t a w = Ret w' →
     (work hooks t ≤ length hooks + 5)%nat ∧
     ∃ t', wd_threads w' !! i = Some t' ∧ (work hooks t' < work hooks t)%nat).
Proof.
  intros Hn Hs. pose proof (reachable_inv _ _ _ Hn Hs) as I. destruct w as [m ts]. simpl in *. split.
  - intros j u k Hu Hk. pose proof (wm_thread_step _ _ _ _ _ Proceed I Hu) as Hst.
    destruct (step_thread j u Proceed (mkWorld m ts)) as [w'| |] eqn:Hb; [by left; eexists|done|right].
    destruct (awaited_busy _ _ _ _ _ _ I Hu Hk Hb) as (i & t & Ht & Htk).
    destruct (busy_runs _ _ _ _ _ _ I Ht Htk) as (a & w' & Hr). by exists i, t, a, w'.
  - intros i t a w' Ht Hk Hr. split; [|by eapply work_decreases].
    destruct Hk as [k Hk]. destruct (target_cell _ _ _ _ _ _ I Ht Hk) as (c & _ & Hst & _).
    destruct t; simpl in *; try lia; [by destruct Hst as (_ & _ & ->); lia|].
    destruct Hst as (_ & ran & -> & _). rewrite length_app. lia.
Qed.

(** The lookup of a document by absolute path asks the deepest active
    workspace that contains the path, in whatever order the map is iterated, and
    only that one: it returns its document under the relative path, or nothing
    when it has none or when no workspace contains the path. *)
Theorem lookup_deepest hooks actions w order path (now : nat → Workspace (D := D)) : (total_clears actions < 2 ^ 64)%Z →
  schedule actions (initial hooks) = Ret w → order ≡ₚ map fst (map_to_list (wm_byID (wd_manager w))) →
  (∀ k c, wm_cells (wd_manager w) !! k = Some c → ws_root (now k) = c_root c) → IsAbs path = true →
  (LookupDocument (λ _, None) path order (wd_manager w) now = inl None ∧
   ∀ k c, wm_cells (wd_manager w) !! k = Some c → is_active c → pathWithinRoot (c_root c) (Clean path) = None) ∨
  ∃ k c relative, wm_cells (wd_manager w) !! k = Some c ∧ is_active c ∧
    pathWithinRoot (c_root c) (Clean path) = Some relative ∧
    (∀ j d, wm_cells (wd_manager w) !! j = Some d → is_active d → is_Some (pathWithinRoot (c_root d) (Clean path)) →
       (String.length (c_root d) ≤ String.length (c_root c))%nat) ∧
    LookupDocument (λ _, None) path order (wd_manager w) now =
      inl ((λ d, mkLookup d (ws_id (now k)) (doc_revision d) (doc_generation d)) <$> lookupDocument relative (now k)).
Proof.
  intros Hn Hs Ho Hnow Habs. pose proof (reachable_inv _ _ _ Hn Hs) as I. set (m := wd_manager w) in *.
  assert (path ≠ "") as Hne by (intros ->; done). unfold LookupDocument. rewrite (bool_decide_false (path = "")), Habs by done. simpl.
  set (items := merge_sort (deeper m) (active_entries order m)).
  assert (∀ k, k ∈ items ↔ ∃ c, wm_cells m !! k = Some c ∧ is_active c) as Hit.
  { intros k. rewrite <-(active_entries_spec _ _ _ order k I Ho). subst items. by rewrite merge_sort_Permutation. }
  assert (StronglySorted (deeper m) items) as Hsort by (apply Sorted_StronglySorted; [apply _|apply Sorted_merge_sort, _]).
  assert (∀ k c, wm_cells m !! k = Some c → root_of m k = c_root c) as Hroot by (intros k c E; unfold root_of; by rewrite E).
  destruct (lookup_loop_spec (Clean path) now items 1) as [[Hl Hf]|(before & k & after & relative & Hi & Hk & Hb & Hl)].
  - left. split; [done|]. intros k c E Ha. rewrite <-(Hnow _ _ E). rewrite Forall_forall in Hf. apply Hf, Hit. eauto.
  - right. destruct (Hit k) as [Hin _]. destruct Hin as (c & E & Ha); [rewrite Hi; set_solver|].
    exists k, c, relative. rewrite <-(Hnow _ _ E). split_and!; try done. intros j d Ed Hd Hsome.
    assert (j ∈ before ++ k :: after) as Hj by (rewrite <-Hi; apply Hit; eauto). rewrite Forall_forall in Hb.
    apply elem_of_app in Hj as [Hj|[->|Hj]%elem_of_cons].
    + specialize (Hb _ Hj). rewrite (Hnow _ _ Ed) in Hb. rewrite Hb in Hsome. by destruct Hsome.
    + simplify_eq. by rewrite (Hnow _ _ E).
    + rewrite Hi in Hsort. apply StronglySorted_app_1_r in Hsort. apply StronglySorted_inv in Hsort as [_ Hall].
      rewrite Forall_forall in Hall. specialize (Hall _ Hj). apply deeper_length in Hall.
      by rewrite (Hroot _ _ E), (Hroot _ _ Ed), <-(Hnow _ _ E) in Hall.
Qed.

End manager.

(** ** Samples *)

(** One root with a source. *)
Definition sample_content : workspaceContent string :=
  let file := mkFile "a.fql" "/w/a.fql" "file:///w/a.fql" in
  mkContent string [file] {["a.fql" := mkDocument string file 1 0 true "RETURN 1" true []]} ["a.fql"] ["."].

(** Two callers open [/w]: the first loads it, the second waits. *)
Definition sample_opens : list (action (D := string)) :=
  let dir := λ _ : string, inl true in
  [AOpen None dir "/w/"; AStep 0 Proceed; AStep 0 (NewID (inl "id1")); AOpen None dir "/w"; AStep 1 Proceed;
   AStep 0 (NewWatcher None); AStep 0 (Loaded (inl sample_content)); AStep 0 Proceed; AStep 1 Proceed].

(** A client closes the workspace while the manager is cleared; a third open is
    loading and fails. *)
Definition sample_closes : list (action (D := string)) :=
  sample_opens ++
  [AOpen None (λ _ : string, inl true) "/v"; AStep 2 Proceed; AStep 2 (NewID (inl "id2")); AStep 2 (NewWatcher None);
   AClose "id1"; AClear ["id1"]; AStep 3 Proceed; AStep 3 (Closed None); AStep 3 (Hooked None); AStep 3 Proceed;
   AStep 3 Proceed; AStep 3 Proceed; AStep 4 Proceed; AStep 5 Proceed; AStep 5 Proceed;
   AStep 2 (Loaded (inl sample_content)); AStep 2 Proceed; AStep 2 (Closed None); AStep 2 Proceed].

Definition sample_final (actions : list (action (D := string))) : world (D := string) :=
  match schedule (host := sample_host) actions (initial [7%nat]) with Ret w => w | _ => initial [7%nat] end.

Lemma workspace_manager_safe_witness : ∃ w, schedule (host := sample_host) sample_closes (initial [7%nat]) = Ret w ∧
  wm_byRoot (wd_manager w) = ∅.
Proof.
  destruct (workspace_manager_safe (host := sample_host) [7%nat] sample_closes) as (w & Hw & _); [vm_compute; reflexivity|].
  exists w. split; [exact Hw|]. revert Hw. vm_compute. intros [= <-]. reflexivity.
Defined.

Lemma workspace_open_shares_witness : ∃ c,
  wm_cells (wd_manager (sample_final sample_opens)) !! 0%nat = Some c ∧ c_root c = "/w" ∧ is_Some (c_entry c).
Proof.
  apply (proj1 (workspace_open_shares (host := sample_host) [7%nat] sample_opens (sample_final sample_opens)
    ltac:(vm_compute; reflexivity) ltac:(vm_compute; reflexivity)) "/w" false 0%nat).
  apply (list_elem_of_lookup_2 _ 1). vm_compute. reflexivity.
Defined.

Lemma workspace_close_complete_order_witness :
  (∃ c, wm_cells (wd_manager (sample_final sample_closes)) !! 0%nat = Some c ∧ torn_down [7%nat] c) ∧
  ∀ c, wm_cells (wd_manager (sample_final sample_closes)) !! 1%nat = Some c → c_entry c = None ∨ torn_down [7%nat] c.
Proof.
  destruct (workspace_close_complete_order (host := sample_host) [7%nat] sample_closes (sample_final sample_closes)
    ltac:(vm_compute; reflexivity) ltac:(vm_compute; reflexivity)) as [H1 H2]. split.
  - apply H1. apply (list_elem_of_lookup_2 _ 4). vm_compute. reflexivity.
  - intros c E. eapply (H2 1%Z); [apply (list_elem_of_lookup_2 _ 5); vm_compute; reflexivity|exact E|].
    revert E. vm_compute. intros [= <-]. reflexivity.
Defined.

Lemma workspace_waits_end_witness :
  let w := sample_final (take 6 sample_opens) in
  (∃ w', step_thread (host := sample_host) 1 (OWait "/w" 0) Proceed w = Ret w') ∨
  ∃ i t a w', wd_threads w !! i = Some t ∧ target t = Some 0%nat ∧ step_thread (host := sample_host) i t a w = Ret w'.
Proof.
  apply (proj1 (workspace_waits_end (host := sample_host) [7%nat] (take 6 sample_opens) (sample_final (take 6 sample_opens))
    ltac:(vm_compute; reflexivity) ltac:(vm_compute; reflexivity)) 1%nat (OWait "/w" 0) 0%nat); vm_compute; reflexivity.
Defined.

Definition sample_now (k : nat) : Workspace (D := string) :=
  match wm_cells (wd_manager (sample_final sample_opens)) !! k with
  | Some c => c_workspace c
  | None => newWorkspace "" ""
  end.

Lemma lookup_deepest_witness : ∃ k c relative, wm_cells (wd_manager (sample_final sample_opens)) !! k = Some c ∧
  pathWithinRoot (c_root c) "/w/a.fql" = Some relative ∧
  LookupDocument (λ _, None) "/w/./a.fql" ["id1"] (wd_manager (sample_final sample_opens)) sample_now =
    inl ((λ d, mkLookup d (ws_id (sample_now k)) (doc_revision d) (doc_generation d)) <$> lookupDocument relative (sample_now k)).
Proof.
  destruct (lookup_deepest (host := sample_host) [7%nat] sample_opens (sample_final sample_opens) ["id1"] "/w/./a.fql" sample_now)
    as [[Hn _]|(k & c & relative & E & Ha & Hp & _ & Hl)].
  - vm_compute. reflexivity.
  - vm_compute. reflexivity.
  - vm_compute. reflexivity.
  - intros k c E. unfold sample_now. rewrite E. reflexivity.
  - vm_compute. reflexivity.
  - exfalso. revert Hn. vm_compute. discriminate.
  - exists k, c, relative. split; [exact E|]. split; [exact Hp|exact Hl].
Defined.
