(* ===== verification/WorkspaceWatcher.v ===== *)
(** * The workspace watcher

    [internal/workspace/watcher.go], [watcher_path.go] ([watcherDirectoryInfo]),
    [watch_registration.go], [watcher_error.go] and the dispatch of
    [reconcileWatchEvent] ([refresh.go]): which directories are watched, the
    provisional watches of a refresh, the loop over the backend's events, and its
    shutdown.  fsnotify and the file system answer as arguments; [ww_backend] is
    the set of paths fsnotify watches, which the operating system may shrink.
    Operations under [workspaceWatcher.mu] are atomic. *)

From S2P Require Import Prelude Paths Errors Discovery.

(** ** Files *)

(** [os.FileInfo]; [os.SameFile] compares [fi_id]. *)
Record FileInfo := mkInfo {
  fi_id : Z;
  fi_IsDir : bool;
  fi_Symlink : bool
}.

Definition SameFile (a b : FileInfo) : bool := bool_decide (fi_id a = fi_id b).

(** [answer] is that of [os.Stat] for the root and of [os.Lstat] below it. *)
Definition watcherDirectoryInfo (selectedRoot : bool) (answer : FileInfo + error) : FileInfo + error :=
  match answer with
  | inr err => inr err
  | inl info => if negb (fi_IsDir info) || (negb selectedRoot && fi_Symlink info) then inr (ESentinel FsErrInvalid) else inl info
  end.

(** On Linux. *)
Definition isInvalidatedWatchRemoval (err : error) : bool := errorOnlyMatches err SyscallEINVAL.

(** ** The watched directories *)

Record watcher := mkWatcher {
  ww_root : string;
  ww_watched : gmap string FileInfo;
  ww_backend : gset string;
  ww_started : bool;
  ww_closed : bool
}.

Definition set_watched watched backend w := mkWatcher (ww_root w) watched backend (ww_started w) (ww_closed w).

Definition newWorkspaceWatcher (root : string) : watcher := mkWatcher root ∅ ∅ false false.

(** [filepath.Clean(filepath.Join(w.root, filepath.FromSlash(d)))]. *)
Definition absolute (root d : string) : string := Clean (Join [root; d]).

(** The removals that leave nothing behind. *)
Definition benign_removal (err : error) : bool :=
  errors_Is err FsnotifyErrNonExistentWatch || errors_Is err FsnotifyErrClosed || isOnlyNotExist err || isInvalidatedWatchRemoval err.

(** [answer] is that of [backend.Remove]. *)
Definition removeDirectoryLocked (path : string) (answer : option error) (w : watcher) : option error * watcher :=
  let err := match answer with Some err => if benign_removal err then None else Some err | None => None end in
  (err, set_watched (delete path (ww_watched w)) (if err is Some _ then ww_backend w else ww_backend w ∖ {[path]}) w).

(** The answers to one [addDirectory]: the first look at the directory, the removal
    of a stale watch, [backend.Add], the second look, and the removal after it. *)
Record add_answers := mkAnswers {
  aa_info : FileInfo + error;
  aa_stale : option error;
  aa_add : option error;
  aa_current : FileInfo + error;
  aa_undo : option error
}.

Definition errChanged : error := ENew "directory changed while adding watch".

(** [addDirectory] after a stale watch is gone. *)
Definition add_watch (path : string) (selectedRoot : bool) (info : FileInfo) (a : add_answers) (w : watcher) :
    (bool * option error) * watcher :=
  match aa_add a with
  | Some err => ((false, Some err), w)
  | None =>
      let w := set_watched (ww_watched w) (ww_backend w ∪ {[path]}) w in
      match watcherDirectoryInfo selectedRoot (aa_current a) with
      | inl current =>
          if SameFile info current then ((true, None), set_watched (<[path:=current]> (ww_watched w)) (ww_backend w) w)
          else
            let '(removeErr, w) := removeDirectoryLocked path (aa_undo a) w in
            ((false, errors_Join [Some errChanged; removeErr]), w)
      | inr err =>
          let '(removeErr, w) := removeDirectoryLocked path (aa_undo a) w in
          ((false, errors_Join [Some err; removeErr]), w)
      end
  end.

Definition addDirectory (relativePath : string) (a : add_answers) (w : watcher) : (bool * option error) * watcher :=
  let key := Clean relativePath in
  let path := absolute (ww_root w) key in
  let selectedRoot := bool_decide (key = ".") in
  if ww_closed w then ((false, Some (ESentinel WsErrClosed)), w)
  else
    match watcherDirectoryInfo selectedRoot (aa_info a) with
    | inr err => ((false, Some err), w)
    | inl info =>
        match ww_watched w !! path with
        | Some previous =>
            if SameFile previous info then ((false, None), w)
            else
              let '(err, w) := removeDirectoryLocked path (aa_stale a) w in
              match err with
              | Some err => ((false, Some err), w)
              | None => add_watch path selectedRoot info a w
              end
        | None => add_watch path selectedRoot info a w
        end
    end.

Definition AddDirectory (relativePath : string) (a : add_answers) (w : watcher) : option error * watcher :=
  let '((_, err), w) := addDirectory relativePath a w in (err, w).

(** [removes] answers each call of [backend.Remove] by its path. *)
Fixpoint remove_paths (paths : list string) (removes : string → option error) (result : option error) (w : watcher) : option error * watcher :=
  match paths with
  | [] => (result, w)
  | path :: paths =>
      let '(err, w) := removeDirectoryLocked path (removes path) w in
      remove_paths paths removes (errors_Join [result; err]) w
  end.

Definition removeDirectories (directories : list string) (removes : string → option error) (w : watcher) : option error * watcher :=
  remove_paths (map (absolute (ww_root w)) directories) removes None w.

Definition subtree_path (root relativePath : string) : string :=
  if bool_decide (relativePath = ".") then Clean root else absolute root relativePath.

(** [ReplaceSubtree]; [order] is the order in which the map is visited. *)
Definition ReplaceSubtree (relativePath : string) (directories order : list string) (removes : string → option error) (w : watcher) :
    option error * watcher :=
  let keep := map (subtree_path (ww_root w)) directories in
  let prefix := subtree_path (ww_root w) relativePath in
  remove_paths (filter (λ watched, watcherPathAtOrBelow watched prefix = true ∧ watched ∉ keep) order) removes None w.

Definition WatchesSubtree (relativePath : string) (w : watcher) : bool :=
  existsb (λ p, watcherPathAtOrBelow p.1 (subtree_path (ww_root w) relativePath)) (map_to_list (ww_watched w)).

(** ** Registrations *)





(** ** What one operation changes *)












(** ** Registrations *)




(** ** Paths below the root *)

Section root.
Context (root : string) (Hroot : rooted root = true) (Hne : components root ≠ []).


Lemma key_inside xs : Forall plain xs → inside (key_of xs).
Proof. intros Hp. split_and!; [by apply key_rooted|by apply key_Clean|by rewrite key_components]. Qed.

Lemma inside_key d : inside d → ∃ xs, Forall plain xs ∧ d = key_of xs.
Proof. intros (Hr & Hc & Hp). exists (components d). split; [done|]. rewrite <-Hc at 1. unfold Clean. by rewrite Hr. Qed.






End root.

(** ** The watched directories *)




(** ** Events *)

(** [relativePath]. *)
Definition relativePath (root absolutePath : string) : option string :=
  match Rel root (Clean absolutePath) with
  | None => None
  | Some relative =>
      if IsAbs relative || bool_decide (relative = "..") || HasPrefix relative "../" then None else Some (Clean relative)
  end.

(** What [reconcileWatchEvent] reconciles. *)
Inductive target :=
| TNothing
| TTree (key : string)
| TDocument (key : string)
| TFailed (err : error).

(** [lstat] answers [os.Lstat] of the path. *)
Definition reconcileWatchEvent (rename : bool) (relativePath : string) (lstat : FileInfo + error) (w : option watcher) : target :=
  match normalizeWorkspacePath relativePath with
  | None => TNothing
  | Some key =>
      if bool_decide (key = ".") then TTree key
      else if bool_decide (Base key = "go.mod") then TTree (Dir key)
      else if rename then TTree (Dir key)
      else if isWorkspaceSource (Base key) then TDocument key
      else
        let unknown := match w with Some w => if WatchesSubtree key w then TTree key else TNothing | None => TNothing end in
        match lstat with
        | inl info => if fi_IsDir info && negb (fi_Symlink info) then TTree key else unknown
        | inr err => if errors_Is err FsErrNotExist then unknown else TFailed err
        end
  end.

(** ** The loop and its shutdown *)

Inductive once := OFree | ORunning | ODone.

Global Instance once_eq_dec : EqDecision once.
Proof. solve_decision. Defined.

(** Calls of [Close], and the goroutine of [run]; [events] and [errors] are
    whether the loop still reads the channels. *)
Inductive thread :=
| CEnter
| CLock
| CCancel (started : bool)
| CBackend (started : bool)
| CWait
| CProcessed
| CDone
| COnce
| CReturned (err : option error)
| RSelect (events errors : bool)
| RReconcile (events errors : bool) (path : string)
| RReport (events errors : bool) (path : string) (err : option error)
| RExitDone
| RExitProcessed
| REnd.

(** [wd_processed] is the channel of results, [wd_reconciled] what was reconciled. *)
Record world := mkWorld {
  wd_watcher : watcher;
  wd_cancelled : bool;
  wd_backendClosed : bool;
  wd_once : once;
  wd_closeErr : option error;
  wd_done : bool;
  wd_processed : list (string * option error);
  wd_processedClosed : bool;
  wd_threads : list thread
}.

Definition set_watcher v w := mkWorld v (wd_cancelled w) (wd_backendClosed w) (wd_once w) (wd_closeErr w) (wd_done w) (wd_processed w)
  (wd_processedClosed w) (wd_threads w).
Definition set_cancelled v w := mkWorld (wd_watcher w) v (wd_backendClosed w) (wd_once w) (wd_closeErr w) (wd_done w) (wd_processed w)
  (wd_processedClosed w) (wd_threads w).
Definition set_once v w := mkWorld (wd_watcher w) (wd_cancelled w) (wd_backendClosed w) v (wd_closeErr w) (wd_done w) (wd_processed w)
  (wd_processedClosed w) (wd_threads w).
Definition set_backend err w := mkWorld (set_watched (ww_watched (wd_watcher w)) ∅ (wd_watcher w)) (wd_cancelled w) true (wd_once w) err (wd_done w)
  (wd_processed w) (wd_processedClosed w) (wd_threads w).
Definition set_processed v w := mkWorld (wd_watcher w) (wd_cancelled w) (wd_backendClosed w) (wd_once w) (wd_closeErr w) (wd_done w) v
  (wd_processedClosed w) (wd_threads w).
Definition goto (i : nat) (t : thread) (w : world) : world := mkWorld (wd_watcher w) (wd_cancelled w) (wd_backendClosed w) (wd_once w)
  (wd_closeErr w) (wd_done w) (wd_processed w) (wd_processedClosed w) (<[i:=t]> (wd_threads w)).
Definition spawn (ts : list thread) (w : world) : world := mkWorld (wd_watcher w) (wd_cancelled w) (wd_backendClosed w) (wd_once w)
  (wd_closeErr w) (wd_done w) (wd_processed w) (wd_processedClosed w) (wd_threads w ++ ts).

Definition close_done (w : world) : outcome world :=
  if wd_done w then Panic "close of closed channel"
  else Ret (mkWorld (wd_watcher w) (wd_cancelled w) (wd_backendClosed w) (wd_once w) (wd_closeErr w) true (wd_processed w)
    (wd_processedClosed w) (wd_threads w)).

Definition close_processed (w : world) : outcome world :=
  if wd_processedClosed w then Panic "close of closed channel"
  else Ret (mkWorld (wd_watcher w) (wd_cancelled w) (wd_backendClosed w) (wd_once w) (wd_closeErr w) (wd_done w) (wd_processed w)
    true (wd_threads w)).

(** [report]: a full channel drops the result. *)
Definition report (result : string * option error) (w : world) : outcome world :=
  if wd_processedClosed w then Panic "send on closed channel"
  else Ret (if (length (wd_processed w) <? 128)%nat then set_processed (wd_processed w ++ [result]) w else w).

(** [Start]. *)
Definition Start (w : world) : world :=
  let v := wd_watcher w in
  if ww_started v || ww_closed v then w
  else spawn [RSelect true true] (set_watcher (mkWatcher (ww_root v) (ww_watched v) (ww_backend v) true (ww_closed v)) w).

Inductive choice :=
| ChooseDone
| ChooseEvent (name : string)
| ChooseEventsClosed
| ChooseError
| ChooseErrorsClosed
| Answer (err : option error).

(** The loop condition. *)
Definition loop (events errors : bool) : thread := if events || errors then RSelect events errors else RExitDone.

(** [Close]. *)
Definition step_close (i : nat) (t : thread) (c : choice) (w : world) : outcome world :=
  let v := wd_watcher w in
  match t with
  | CEnter =>
      match wd_once w with
      | OFree => Ret (goto i CLock (set_once ORunning w))
      | ORunning => Block
      | ODone => Ret (goto i (CReturned (wd_closeErr w)) w)
      end
  | CLock => Ret (goto i (CCancel (ww_started v)) (set_watcher (mkWatcher (ww_root v) (ww_watched v) (ww_backend v) (ww_started v) true) w))
  | CCancel started => Ret (goto i (CBackend started) (if started then set_cancelled true w else w))
  | CBackend started =>
      match c with
      | Answer err => Ret (goto i (if started then CWait else CProcessed) (set_backend err w))
      | _ => Block
      end
  | CWait => if wd_done w then Ret (goto i COnce w) else Block
  | CProcessed => w ← close_processed w; Ret (goto i CDone w)
  | CDone => w ← close_done w; Ret (goto i COnce w)
  | COnce => Ret (goto i (CReturned (wd_closeErr w)) (set_once ODone w))
  | _ => Block
  end.

(** [run]. *)
Definition step_run (i : nat) (t : thread) (c : choice) (w : world) : outcome world :=
  let v := wd_watcher w in
  match t with
  | RSelect events errors =>
      match c with
      | ChooseDone => if wd_cancelled w then Ret (goto i RExitDone w) else Block
      | ChooseEvent name =>
          if events then
            Ret (goto i (match relativePath (ww_root v) name with Some path => RReconcile events errors path | None => RSelect events errors end) w)
          else Block
      | ChooseEventsClosed => if events && wd_backendClosed w then Ret (goto i (loop false errors) w) else Block
      | ChooseError => if errors then Ret (goto i (RReconcile events errors ".") w) else Block
      | ChooseErrorsClosed => if errors && wd_backendClosed w then Ret (goto i (loop events false) w) else Block
      | Answer _ => Block
      end
  | RReconcile events errors path =>
      match c with Answer err => Ret (goto i (RReport events errors path err) w) | _ => Block end
  | RReport events errors path err => w ← report (path, err) w; Ret (goto i (RSelect events errors) w)
  | RExitDone => w ← close_done w; Ret (goto i RExitProcessed w)
  | RExitProcessed => w ← close_processed w; Ret (goto i REnd w)
  | _ => Block
  end.

Definition step_thread (i : nat) (t : thread) (c : choice) (w : world) : outcome world :=
  match t with
  | CEnter | CLock | CCancel _ | CBackend _ | CWait | CProcessed | CDone | COnce | CReturned _ => step_close i t c w
  | _ => step_run i t c w
  end.

Inductive action :=
| AStart
| AClose
| AAdd (directory : string) (a : add_answers)
| ARemove (directories : list string) (removes : string → option error)
| AReplace (key : string) (directories order : list string) (removes : string → option error)
| AStep (i : nat) (c : choice).

Definition act (a : action) (w : world) : outcome world :=
  match a with
  | AStart => Ret (Start w)
  | AClose => Ret (spawn [CEnter] w)
  | AAdd directory a => Ret (set_watcher (addDirectory directory a (wd_watcher w)).2 w)
  | ARemove directories removes => Ret (set_watcher (removeDirectories directories removes (wd_watcher w)).2 w)
  | AReplace key directories order removes => Ret (set_watcher (ReplaceSubtree key directories order removes (wd_watcher w)).2 w)
  | AStep i c => match wd_threads w !! i with Some t => step_thread i t c w | None => Block end
  end.

Definition attempt (a : action) (w : world) : outcome world :=
  match act a w with
  | Ret w => Ret w
  | Panic m => Panic m
  | Block => Ret w
  end.

Fixpoint schedule (actions : list action) (w : world) : outcome world :=
  match actions with
  | [] => Ret w
  | a :: actions => w ← attempt a w; schedule actions w
  end.

Definition initial (root : string) : world := mkWorld (newWorkspaceWatcher root) false false OFree None false [] false [].

(** ** Invariant *)

(** The call of [Close] that runs the function of [closeOnce]. *)
Definition closer (t : thread) : bool :=
  match t with CLock | CCancel _ | CBackend _ | CWait | CProcessed | CDone | COnce => true | _ => false end.

(** The goroutine of [run]. *)
Definition runner (t : thread) : bool :=
  match t with RSelect _ _ | RReconcile _ _ _ | RReport _ _ _ _ | RExitDone | RExitProcessed | REnd => true | _ => false end.

Definition open_channels (w : world) : Prop := wd_done w = false ∧ wd_processedClosed w = false.

(** The backend is closed and nothing is watched through it. *)
Definition released (w : world) : Prop := ww_closed (wd_watcher w) = true ∧ wd_backendClosed w = true ∧ ww_backend (wd_watcher w) = ∅.

Definition thread_ok (w : world) (t : thread) : Prop :=
  let v := wd_watcher w in
  match t with
  | CEnter => True
  | CLock => ww_closed v = false
  | CCancel s => ww_closed v = true ∧ s = ww_started v ∧ (s = false → open_channels w)
  | CBackend s => ww_closed v = true ∧ s = ww_started v ∧ (s = false → open_channels w) ∧ (s = true → wd_cancelled w = true)
  | CWait => released w ∧ ww_started v = true ∧ wd_cancelled w = true
  | CProcessed => released w ∧ ww_started v = false ∧ open_channels w
  | CDone => released w ∧ ww_started v = false ∧ wd_done w = false ∧ wd_processedClosed w = true
  | COnce => released w ∧ wd_done w = true
  | CReturned err => wd_once w = ODone ∧ err = wd_closeErr w
  | RSelect _ _ | RReconcile _ _ _ | RReport _ _ _ _ | RExitDone => open_channels w
  | RExitProcessed => wd_done w = true ∧ wd_processedClosed w = false
  | REnd => wd_done w = true ∧ wd_processedClosed w = true
  end.

Record inv (w : world) : Prop := {
  wi_closer : count closer (wd_threads w) = (if bool_decide (wd_once w = ORunning) then 1 else 0)%nat;
  wi_runner : count runner (wd_threads w) = (if ww_started (wd_watcher w) then 1 else 0)%nat;
  wi_free : wd_once w = OFree → ww_closed (wd_watcher w) = false;
  wi_closed : wd_once w = ODone → released w ∧ wd_done w = true;
  wi_idle : ww_started (wd_watcher w) = false → ww_closed (wd_watcher w) = false → open_channels w;
  wi_threads : ∀ t, t ∈ wd_threads w → thread_ok w t
}.

Lemma watcher_step w w' i t t' : inv w → wd_threads w !! i = Some t → wd_threads w' = <[i:=t']> (wd_threads w) →
  ((if bool_decide (wd_once w' = ORunning) then 1 else 0) + (if closer t then 1 else 0) =
   (if bool_decide (wd_once w = ORunning) then 1 else 0) + (if closer t' then 1 else 0))%nat →
  runner t' = runner t → ww_started (wd_watcher w') = ww_started (wd_watcher w) →
  (wd_once w' = OFree → ww_closed (wd_watcher w') = false) → (wd_once w' = ODone → released w' ∧ wd_done w' = true) →
  (ww_started (wd_watcher w') = false → ww_closed (wd_watcher w') = false → open_channels w') → thread_ok w' t' →
  (∀ u, thread_ok w u → (closer t = true → closer u = false) → (runner t = true ∨ ww_started (wd_watcher w) = false → runner u = false) →
    thread_ok w' u) → inv w'.
Proof.
  intros I Ht E Hc Hr Hs Hf Hd Hi Hok Hothers. pose proof I as [I1 I2 _ _ _ I6]. split; try done; rewrite ?E, ?Hs.
  - pose proof (count_insert closer _ _ _ t' Ht) as C. lia.
  - pose proof (count_insert runner _ _ _ t' Ht) as C. rewrite Hr in C. lia.
  - intros u Hu. apply list_elem_of_lookup in Hu as (j & Hj).
    apply list_lookup_insert_Some in Hj as [(_ & -> & _)|[Hne Hj]]; [done|].
    apply Hothers; [by eapply I6, list_elem_of_lookup_2|..]; intros Hb; apply not_true_is_false; intros Hu.
    + pose proof (count_two closer _ _ _ _ _ Ht Hj Hne Hb Hu). destruct (bool_decide (wd_once w = ORunning)); lia.
    + destruct Hb as [Hb|Hb]; [pose proof (count_two runner _ _ _ _ _ Ht Hj Hne Hb Hu); destruct (ww_started (wd_watcher w)); lia|].
      pose proof (count_pos runner _ _ _ Hj Hu). rewrite Hb in I2. lia.
Qed.

(** A started watcher has its runner, which has left the channels open while it
    runs; a watcher that was not started has none. *)
Lemma closer_running w i t : inv w → wd_threads w !! i = Some t → closer t = true → wd_once w = ORunning.
Proof.
  intros I Ht Hc. pose proof (count_pos closer _ _ _ Ht Hc) as P. rewrite (wi_closer _ I) in P. case_bool_decide; [done|lia].
Qed.

Lemma runner_started w i t : inv w → wd_threads w !! i = Some t → runner t = true → ww_started (wd_watcher w) = true.
Proof.
  intros I Ht Hr. pose proof (count_pos runner _ _ _ Ht Hr) as P. rewrite (wi_runner _ I) in P. destruct (ww_started _); [done|lia].
Qed.

Lemma not_started_none w u : inv w → ww_started (wd_watcher w) = false → u ∈ wd_threads w → runner u = false.
Proof.
  intros I Hs (j & Hj)%list_elem_of_lookup. apply not_true_is_false. intros Hr. pose proof (runner_started _ _ _ I Hj Hr). congruence.
Qed.

(** The other threads are not concerned. *)
Ltac watcher_frame :=
  let u := fresh "u" in let Hu := fresh "Hu" in let Hc := fresh "Hc" in let Hn := fresh "Hn" in
  intros u Hu Hc Hn; destruct u; simpl in Hu, Hc, Hn |- *; unfold open_channels, released in *; simpl in *; intuition congruence.

Ltac watcher_solve Ho := simpl; rewrite ?Ho; try done; try congruence;
  unfold open_channels, released in *; simpl in *; intuition congruence.

Lemma close_call_keeps w i t c : inv w → wd_threads w !! i = Some t → runner t = false →
  match step_thread i t c w with Ret w' => inv w' | Panic _ => False | Block => True end.
Proof.
  intros I Ht Hr. pose proof (wi_threads _ I t (list_elem_of_lookup_2 _ _ _ Ht)) as Hok.
  pose proof (closer_running w i t I Ht) as Ho. pose proof (wi_idle _ I) as Hi.
  destruct t as [| |s|s| | | | |err| | | | | |]; try done; simpl in Hok, Ho |- *; try specialize (Ho eq_refl).
  - clear Ho. pose proof (wi_free _ I) as Hf. pose proof (wi_closed _ I) as Hd. destruct (wd_once w) eqn:Ho; try done.
    + eapply (watcher_step w _ i); try done; first [watcher_frame|watcher_solve Ho].
    + eapply (watcher_step w _ i); try done; first [watcher_frame|watcher_solve Ho].
  - eapply (watcher_step w _ i); try done; first [watcher_frame|watcher_solve Ho].
  - destruct s; eapply (watcher_step w _ i); try done; first [watcher_frame|watcher_solve Ho].
  - destruct c; try done. destruct s; eapply (watcher_step w _ i); try done; first [watcher_frame|watcher_solve Ho].
  - destruct (wd_done w) eqn:Hd; [|done]. eapply (watcher_step w _ i); try done; first [watcher_frame|watcher_solve Ho].
  - destruct Hok as (Hrel & Hs & Hdone & Hp). unfold close_processed. rewrite Hp. simpl.
    eapply (watcher_step w _ i); try done; first [watcher_frame|watcher_solve Ho].
  - destruct Hok as (Hrel & Hs & Hdone & Hp). unfold close_done. rewrite Hdone. simpl.
    eapply (watcher_step w _ i); try done; first [watcher_frame|watcher_solve Ho].
  - eapply (watcher_step w _ i); try done; first [watcher_frame|watcher_solve Ho].
Qed.

Lemma run_keeps w i t c : inv w → wd_threads w !! i = Some t → runner t = true →
  match step_thread i t c w with Ret w' => inv w' | Panic _ => False | Block => True end.
Proof.
  intros I Ht Hr. pose proof (wi_threads _ I t (list_elem_of_lookup_2 _ _ _ Ht)) as Hok.
  pose proof (runner_started w i t I Ht Hr) as Hs. pose proof (wi_idle _ I) as Hi. pose proof (wi_free _ I) as Hf. pose proof (wi_closed _ I) as Hd.
  assert (∀ t', runner t' = true → closer t' = false → thread_ok w t' → inv (goto i t' w)) as Hgoto.
  { intros t' Hr' Hc' Hok'. eapply (watcher_step w (goto i t' w) i); try done; [|by rewrite Hr, Hr'].
    rewrite Hc'. by destruct t. }
  destruct t as [| | | | | | | | |events errs|events errs p|events errs p err| | |]; try done; simpl in Hok |- *.
  - assert (∀ b b', inv (goto i (loop b b') w)) as Hloop by (intros [] []; by apply Hgoto).
    destruct c; try done; repeat (case_match; simplify_eq); try done; try (by apply Hgoto); by apply Hloop.
  - destruct c; try done. by apply Hgoto.
  - unfold report. destruct Hok as [Hdone Hp]. rewrite Hp. simpl. destruct (_ <? _)%nat; [|by apply Hgoto].
    eapply (watcher_step w _ i); try done; first [watcher_frame|watcher_solve Hs].
  - unfold close_done. destruct Hok as [Hdone Hp]. rewrite Hdone. simpl.
    eapply (watcher_step w _ i); try done; first [watcher_frame|watcher_solve Hs].
  - unfold close_processed. destruct Hok as [Hdone Hp]. rewrite Hp. simpl.
    eapply (watcher_step w _ i); try done; first [watcher_frame|watcher_solve Hs].
Qed.

(** The registration of directories leaves the life of the watcher alone, and
    adds nothing to a closed one. *)
Record quiet (v v' : watcher) : Prop := {
  qt_root : ww_root v' = ww_root v;
  qt_started : ww_started v' = ww_started v;
  qt_closed : ww_closed v' = ww_closed v;
  qt_backend : ww_closed v = true → ww_backend v' ⊆ ww_backend v
}.

Lemma remove_quiet path answer v : quiet v (removeDirectoryLocked path answer v).2.
Proof. unfold removeDirectoryLocked. split; simpl; try done. intros _. case_match; set_solver. Qed.

Lemma add_quiet d a v : quiet v (addDirectory d a v).2.
Proof.
  unfold addDirectory. destruct (ww_closed v) eqn:Hc; [by split|].
  assert (∀ path s info v1, ww_root v1 = ww_root v → ww_started v1 = ww_started v → ww_closed v1 = false →
    ww_root (add_watch path s info a v1).2 = ww_root v ∧ ww_started (add_watch path s info a v1).2 = ww_started v ∧
    ww_closed (add_watch path s info a v1).2 = false) as A.
  { intros path s info v1 H1 H2 H3. unfold add_watch, removeDirectoryLocked. repeat case_match; simplify_eq/=; done. }
  unfold removeDirectoryLocked. destruct (watcherDirectoryInfo _ _); [|split; simpl; congruence].
  repeat case_match; simplify_eq/=; first
    [ split; simpl; congruence
    | match goal with |- quiet v (add_watch ?p ?s ?i a ?v1).2 => destruct (A p s i v1) as (? & ? & ?); [done..|split; congruence] end ].
Qed.

Lemma remove_paths_quiet paths removes result v : quiet v (remove_paths paths removes result v).2.
Proof.
  revert result v. induction paths as [|p paths IH]; intros result v; cbn [remove_paths]; [by split|].
  pose proof (remove_quiet p (removes p) v) as [Q1 Q2 Q3 Q4]. destruct (removeDirectoryLocked p (removes p) v) as [err v1]. simpl in *.
  destruct (IH (errors_Join [result; err]) v1) as [P1 P2 P3 P4]. split; [congruence..|].
  intros Hc. etrans; [apply P4; congruence|auto].
Qed.

Lemma quiet_keeps w v : inv w → quiet (wd_watcher w) v → inv (set_watcher v w).
Proof.
  intros [I1 I2 I3 I4 I5 I6] [Q1 Q2 Q3 Q4].
  assert (released w → released (set_watcher v w)) as Hrel.
  { intros (H1 & H2 & H3). split_and!; simpl; [congruence|done|]. specialize (Q4 H1). set_solver. }
  split; simpl; rewrite ?Q2, ?Q3; try done.
  - intros Ho. destruct (I4 Ho) as [? ?]. split; [by apply Hrel|done].
  - intros t Ht. specialize (I6 t Ht). destruct t; simpl in *; rewrite ?Q2, ?Q3; naive_solver.
Qed.

Lemma Start_keeps w : inv w → inv (Start w).
Proof.
  intros I. pose proof I as [I1 I2 I3 I4 I5 I6]. unfold Start. destruct (ww_started (wd_watcher w) || ww_closed (wd_watcher w)) eqn:E; [done|].
  apply orb_false_iff in E as [Hs Hc]. destruct (I5 Hs Hc) as [Hd Hp].
  split; simpl; try done.
  - rewrite count_app, I1. simpl. by rewrite Nat.add_0_r.
  - rewrite count_app, I2, Hs. done.
  - intros t [Ht| ->%list_elem_of_singleton]%elem_of_app; [|done]. pose proof (I6 t Ht) as Hok.
    pose proof (not_started_none w t I Hs Ht) as Hr. destruct t; simpl in *; try done; unfold released in *; intuition congruence.
Qed.

Lemma Close_keeps w : inv w → inv (spawn [CEnter] w).
Proof.
  intros [I1 I2 I3 I4 I5 I6]. split; simpl; try done; rewrite ?count_app, ?I1, ?I2; simpl; rewrite ?Nat.add_0_r; try done.
  intros t [Ht| ->%list_elem_of_singleton]%elem_of_app; [by apply I6|done].
Qed.

Lemma watcher_act_keeps a w : inv w → match act a w with Ret w' => inv w' | Panic _ => False | Block => True end.
Proof.
  intros I. destruct a as [| |d a|ds removes|key ds order removes|i c]; simpl.
  - by apply Start_keeps.
  - by apply Close_keeps.
  - apply quiet_keeps; [done|apply add_quiet].
  - apply quiet_keeps; [done|apply remove_paths_quiet].
  - apply quiet_keeps; [done|apply remove_paths_quiet].
  - destruct (wd_threads w !! i) as [t|] eqn:Ht; [|done]. destruct (runner t) eqn:Hr; [by apply run_keeps|by apply close_call_keeps].
Qed.

Lemma watcher_schedule_inv actions w : inv w → ∃ w', schedule actions w = Ret w' ∧ inv w'.
Proof.
  revert w. induction actions as [|a actions IH]; intros w I; simpl; [eauto|]. pose proof (watcher_act_keeps a w I) as K. unfold attempt.
  destruct (act a w) as [w'| |]; simpl; [by apply IH|done|by apply IH].
Qed.

Lemma watcher_inv_initial root : inv (initial root).
Proof. split; simpl; try done. intros t Ht. by apply elem_of_nil in Ht. Qed.

(** ** Progress *)

Definition weight (t : thread) : nat :=
  match t with
  | CEnter => 8 | CLock => 7 | CCancel _ => 6 | CBackend _ => 5 | CWait => 2 | CProcessed => 4 | CDone => 3 | COnce => 1 | CReturned _ => 0
  | RReconcile _ _ _ => 5 | RReport _ _ _ _ => 4 | RSelect _ _ => 3 | RExitDone => 2 | RExitProcessed => 1 | REnd => 0
  end.

Definition work (w : world) : nat := sum_list_with weight (wd_threads w).

(** A step that brings the watcher closer to its end. *)
Definition advances (w : world) : Prop :=
  ∃ j c u u' w', wd_threads w !! j = Some u ∧ step_thread j u c w = Ret w' ∧ wd_threads w' = <[j:=u']> (wd_threads w) ∧ (weight u' < weight u)%nat.

(** Once its context is cancelled and until it ends, the loop proceeds. *)
Lemma run_advances w j u : inv w → wd_threads w !! j = Some u → runner u = true → wd_cancelled w = true → wd_done w = false → advances w.
Proof.
  intros I Hj Hr Hc Hd. pose proof (wi_threads _ I u (list_elem_of_lookup_2 _ _ _ Hj)) as Hok.
  destruct u as [| | | | | | | | |events errs|events errs p|events errs p err| | |]; try done; simpl in Hok.
  - eexists j, ChooseDone, _, RExitDone, _. split; [done|]. simpl. rewrite Hc. split_and!; [done..|lia].
  - eexists j, (Answer None), _, _, _. split; [done|]. simpl. split_and!; [done..|simpl; lia].
  - destruct Hok as [_ Hp]. eexists j, (Answer None), _, (RSelect events errs), _. split; [done|]. simpl. unfold report. rewrite Hp. simpl.
    split_and!; [done| |lia]. by destruct (_ <? _)%nat.
  - eexists j, (Answer None), _, RExitProcessed, _. split; [done|]. simpl. unfold close_done. rewrite Hd. simpl. split_and!; [done..|lia].
  - destruct Hok. congruence.
  - destruct Hok. congruence.
Qed.

Lemma closer_advances w i t : inv w → wd_threads w !! i = Some t → closer t = true → advances w.
Proof.
  intros I Ht Hc. pose proof (wi_threads _ I t (list_elem_of_lookup_2 _ _ _ Ht)) as Hok.
  destruct t as [| |s|s| | | | |err| | | | | |]; try done; simpl in Hok.
  - eexists i, (Answer None), _, _, _. split; [done|]. simpl. split_and!; [done..|simpl; lia].
  - eexists i, (Answer None), _, (CBackend s), _. split; [done|]. simpl. split_and!; [done| |lia]. by destruct s.
  - eexists i, (Answer None), _, (if s then CWait else CProcessed), _. split; [done|]. simpl. split_and!; [done..|]. destruct s; simpl; lia.
  - destruct (wd_done w) eqn:Hd.
    + eexists i, (Answer None), _, COnce, _. split; [done|]. simpl. rewrite Hd. split_and!; [done..|lia].
    + destruct Hok as (_ & Hs & Hcan). destruct (count_witness runner (wd_threads w)) as (j & u & Hj & Hr).
      { rewrite (wi_runner _ I), Hs. lia. }
      by eapply run_advances.
  - destruct Hok as (_ & _ & Hd & Hp). eexists i, (Answer None), _, CDone, _. split; [done|]. simpl. unfold close_processed. rewrite Hp. simpl.
    split_and!; [done..|lia].
  - destruct Hok as (_ & _ & Hd & Hp). eexists i, (Answer None), _, COnce, _. split; [done|]. simpl. unfold close_done. rewrite Hd. simpl.
    split_and!; [done..|lia].
  - eexists i, (Answer None), _, _, _. split; [done|]. simpl. split_and!; [done..|simpl; lia].
Qed.

Definition closing (t : thread) : bool := match t with CEnter => true | _ => closer t end.

Lemma closing_advances w i t : inv w → wd_threads w !! i = Some t → closing t = true → advances w.
Proof.
  intros I Ht Hc. destruct (closer t) eqn:Hcl; [by eapply closer_advances|]. destruct t; try done.
  destruct (wd_once w) eqn:Ho.
  - eexists i, (Answer None), _, CLock, _. split; [done|]. simpl. rewrite Ho. split_and!; [done..|lia].
  - destruct (count_witness closer (wd_threads w)) as (j & u & Hj & Hr); [rewrite (wi_closer _ I), Ho; simpl; lia|]. by eapply closer_advances.
  - eexists i, (Answer None), _, (CReturned _), _. split; [done|]. simpl. rewrite Ho. split_and!; [done..|simpl; lia].
Qed.

Lemma watcher_work_insert (ts : list thread) i t t' : ts !! i = Some t → (weight t' < weight t)%nat →
  (sum_list_with weight (<[i:=t']> ts) < sum_list_with weight ts)%nat.
Proof.
  revert i. induction ts as [|x ts IH]; intros [|i] E Hw; simpl in *; simplify_eq; [lia|]. specialize (IH i E Hw). lia.
Qed.

Lemma watcher_drains n w : inv w → (work w ≤ n)%nat →
  ∃ more w', (length more ≤ n)%nat ∧ schedule more w = Ret w' ∧ inv w' ∧ (∀ t, t ∈ wd_threads w' → closing t = false).
Proof.
  revert w. induction n as [n IH] using lt_wf_ind. intros w I Hn. destruct (count closing (wd_threads w)) eqn:Hc.
  - exists [], w. split_and!; try done; [simpl; lia|]. intros t (i & Hi)%list_elem_of_lookup. apply not_true_is_false. intros Ht.
    pose proof (count_pos closing _ _ _ Hi Ht). lia.
  - destruct (count_witness closing (wd_threads w)) as (i & t & Hi & Ht); [lia|].
    destruct (closing_advances w i t I Hi Ht) as (j & c & u & u' & w1 & Hj & Hs & E & Hlt).
    assert (inv w1) as I1 by (pose proof (watcher_act_keeps (AStep j c) w I) as K; simpl in K; by rewrite Hj, Hs in K).
    pose proof (watcher_work_insert _ _ _ _ Hj Hlt) as Hw. rewrite <-E in Hw. fold (work w1) (work w) in Hw.
    destruct (IH (work w1) ltac:(lia) w1 I1 (le_n _)) as (more & w' & Hl & Hsch & I' & Hdone).
    exists (AStep j c :: more), w'. split_and!; try done; [simpl; lia|]. simpl. unfold attempt. simpl. by rewrite Hj, Hs.
Qed.

(** ** Claims *)


(** However starts, closes, registrations and events interleave, no channel
    is closed twice or sent to after it was closed, there is at most one loop,
    and a [Close] that has returned gives every caller the same error and leaves
    a released backend that nothing is added to and a loop that reconciles
    nothing more; and from every state all the calls of [Close] return after
    finitely many steps. *)
Theorem watcher_shutdown root actions :
  ∃ w, schedule actions (initial root) = Ret w ∧ (count runner (wd_threads w) ≤ 1)%nat ∧
    (∀ err, CReturned err ∈ wd_threads w → err = wd_closeErr w ∧ ww_closed (wd_watcher w) = true ∧ ww_backend (wd_watcher w) = ∅ ∧
      ∀ t, t ∈ wd_threads w → runner t = true → t = RExitProcessed ∨ t = REnd) ∧
    ∃ more w', (length more ≤ work w)%nat ∧ schedule more w = Ret w' ∧ ∀ t, t ∈ wd_threads w' → closing t = false.
Proof.
  destruct (watcher_schedule_inv actions _ (watcher_inv_initial root)) as (w & E & I). exists w. split_and!; [done| | |].
  - rewrite (wi_runner _ I). destruct (ww_started _); lia.
  - intros err Herr. destruct (wi_threads _ I _ Herr) as [Ho ->]. destruct (wi_closed _ I Ho) as [(Hc & _ & Hb) Hd]. split_and!; try done.
    intros t Ht Hr. pose proof (wi_threads _ I _ Ht) as Hok. destruct t; try done; simpl in Hok; try (destruct Hok; congruence); auto.
  - destruct (watcher_drains (work w) w I (le_n _)) as (more & w' & ? & ? & _ & ?). eauto.
Qed.

(** ** Events *)

Lemma relativePath_inside root name rel : rooted root = true → rooted name = true → relativePath root name = Some rel →
  inside rel ∧ (rel ≠ "." → Join [root; rel] = Clean name).
Proof.
  intros Hr Hn. unfold relativePath. destruct (Rel root (Clean name)) as [relative|] eqn:E; [|done].
  destruct (IsAbs relative || bool_decide (relative = "..") || HasPrefix relative "../") eqn:Hb; [done|].
  apply orb_false_iff in Hb as [[_ Hup]%orb_false_iff Hpre]. bools. intros [= <-].
  destruct (decide (relative = ".")) as [->|Hd]; [split; [apply (key_inside []); constructor|by vm_compute]|].
  destruct (Rel_inside root (Clean name) relative Hr ltac:(by rewrite rooted_Clean) E Hd Hup Hpre) as (Hin & _ & Hj).
  pose proof Hin as (_ & -> & _). split; [done|]. intros _. by rewrite Hj, Clean_idempotent.
Qed.

Lemma parent_covers xs x : Forall plain (xs ++ [x]) → workspacePathInSubtree (key_of (xs ++ [x])) (Dir (key_of (xs ++ [x]))) = true.
Proof.
  intros Hp. rewrite Dir_key by done. apply in_subtree_key; [done|by apply Forall_app in Hp as [? _]|]. by exists [x].
Qed.

(** The event of a path below the root is reconciled with the document of the path,
    or with a tree that contains it; it is ignored only when the path is neither a
    source nor a directory, and no directory is watched there. *)
Theorem watch_event_covered root name rel rename lstat w : rooted root = true → rooted name = true → relativePath root name = Some rel →
  match reconcileWatchEvent rename rel lstat w with
  | TTree key => workspacePathInSubtree rel key = true
  | TDocument key => key = rel ∧ isWorkspaceSource (Base rel) = true
  | TNothing => rename = false ∧ isWorkspaceSource (Base rel) = false ∧
      (∀ info, lstat = inl info → fi_IsDir info = true → fi_Symlink info = true) ∧ (∀ v, w = Some v → WatchesSubtree rel v = false)
  | TFailed err => lstat = inr err
  end.
Proof.
  intros Hr Hn E. destruct (relativePath_inside root name rel Hr Hn E) as [Hin _].
  unfold reconcileWatchEvent. destruct (decide (rel = ".")) as [->|Hd]; [by vm_compute|].
  pose proof (inside_normalize rel Hin Hd) as Hk. unfold normalizeDocumentPath in Hk.
  destruct (normalizeWorkspacePath rel) as [key|]; [|done]. case_bool_decide as Hkd; [done|]. simplify_eq.
  destruct (inside_key rel Hin) as (xs & Hx & ->). destruct xs as [|x xs _] using rev_ind; [done|].
  pose proof (parent_covers xs x Hx) as Hpar.
  assert (workspacePathInSubtree (key_of (xs ++ [x])) (key_of (xs ++ [x])) = true) as Hself.
  { apply in_subtree_key; [done..|]. exists []. by rewrite app_nil_r. }
  case_bool_decide; [done|]. destruct rename; [done|]. destruct (isWorkspaceSource _) eqn:Hs; [done|].
  destruct lstat as [info|err]; [destruct (fi_IsDir info && negb (fi_Symlink info)) eqn:Hi; [done|]|destruct (errors_Is err FsErrNotExist); [|done]];
    (destruct w as [v|]; [destruct (WatchesSubtree _ v) eqn:Hw; [done|]|]); split_and!; try done; try naive_solver.
  all: intros info' [= <-] Hdir; rewrite Hdir in Hi; by destruct (fi_Symlink info).
Qed.

(** ** Examples *)

Definition directory (id : Z) : FileInfo := mkInfo id true false.




(** The directories of a workspace at the root of the file system are never found
    below it. *)
Example file_system_root_not_pruned :
  watcherPathAtOrBelow (absolute "/" "a") (subtree_path "/" ".") = false ∧ workspacePathInSubtree "a" "." = true.
Proof. by vm_compute. Qed.
