(* ===== verification/DapPaths.v ===== *)
(** * Debug adapter: launch paths and options

    [internal/dap/paths.go] and [launch_arguments.go]: how the program and the
    working directory of a launch request are resolved, when two sources are the
    same file, and the runtime options of a launch.  The file system and the
    process are parameters: [Getwd], [Stat], [EvalSymlinks] and [SameFile].
    Paths are those of a Unix platform, as in [Paths]. *)

From S2P Require Import Prelude Paths Source Errors ExecRuntime.

Inductive launch_error :=
| ProgramRequired | NoCurrentDirectory (err : error) | StatCwd (err : error) | CwdNotADirectory
| Canonicalize (err : error) | NotRegular | NotFql | NotRelative | NotContained.

Section launch.
(** What is read of an [os.FileInfo]. *)
Context {FileInfo : Type} (IsDir IsRegular : FileInfo → bool) (SameFile : FileInfo → FileInfo → bool).
Context (Getwd : string + error) (Stat : string → FileInfo + error) (EvalSymlinks : string → string + error).

(** [si_canonical] is empty and [si_info] is nil until they are known. *)
Record sourceIdentity := mkIdentity { si_path : string; si_canonical : string; si_info : option FileInfo }.

Record launchPaths := mkLaunchPaths {
  lp_root : string;
  lp_program : string;
  lp_identity : sourceIdentity;
  lp_relativePath : string
}.

(** [filepath.Abs]. *)
Definition Abs (path : string) : string + error :=
  if IsAbs path then inl (Clean path)
  else match Getwd with inl wd => inl (Join [wd; path]) | inr err => inr err end.

(** [newSourceIdentity]: the identity found so far comes with the error. *)
Definition newSourceIdentity (path base : string) : sourceIdentity * option error :=
  let path := if negb (IsAbs path) && negb (bool_decide (base = "")) then Join [base; path] else path in
  match Abs path with
  | inr err => (mkIdentity "" "" None, Some (wrap_prefix "make source path absolute" err))
  | inl absolute =>
      let p := Clean absolute in
      match EvalSymlinks p with
      | inr err => (mkIdentity p "" None, Some (wrap_prefix "resolve source symlinks" err))
      | inl canonical =>
          let c := Clean canonical in
          match Stat c with
          | inr err => (mkIdentity p c None, Some (wrap_prefix "stat canonical source" err))
          | inl info => (mkIdentity p c (Some info), None)
          end
      end
  end.

Definition same (i other : sourceIdentity) : bool :=
  if negb (bool_decide (si_canonical i = "")) && bool_decide (si_canonical i = si_canonical other) then true
  else match si_info i, si_info other with
       | Some a, Some b => SameFile a b
       | _, _ => false
       end.

Definition resolvePaths (Program CWD : string) : launchPaths + launch_error :=
  let programInput := TrimSpace Program in
  if bool_decide (programInput = "") then inr ProgramRequired
  else
    match Getwd with
    | inr err => inr (NoCurrentDirectory err)
    | inl processCWD =>
        let root := TrimSpace CWD in
        let root := if negb (bool_decide (root = "")) && negb (IsAbs root) then Join [processCWD; root] else root in
        let program :=
          if IsAbs programInput then programInput
          else Join [if bool_decide (root = "") then processCWD else root; programInput] in
        let program := Clean program in
        let root := if bool_decide (root = "") then Dir program else root in
        let root := Clean root in
        match Stat root with
        | inr err => inr (StatCwd err)
        | inl rootInfo =>
            if negb (IsDir rootInfo) then inr CwdNotADirectory
            else
              let '(identity, err) := newSourceIdentity program root in
              match err with
              | Some err => inr (Canonicalize err)
              | None =>
                  match si_info identity with
                  | None => inr NotRegular
                  | Some info =>
                      if negb (IsRegular info) then inr NotRegular
                      else if bool_decide (Ext program ≠ ".fql") then inr NotFql
                      else
                        match Rel root program with
                        | None => inr NotRelative
                        | Some relative =>
                            if bool_decide (relative = ".") || bool_decide (relative = "..") || IsAbs relative ||
                               HasPrefix relative "../" then inr NotContained
                            else inl (mkLaunchPaths root program identity relative)
                        end
                  end
              end
        end
    end.

(** [workingDirectory] as it was sent: absent, not a string (or null), or a
    string. *)
Inductive working_directory := Absent | NotAString | Directory (value : string).

Definition launch_runtimeOptions (d : working_directory) : option RuntimeOptions :=
  match d with
  | Absent => Some (mkRuntimeOptions "" "")
  | NotAString => None
  | Directory value => if bool_decide (value = "") then None else Some (mkRuntimeOptions "" value)
  end.

(** ** Properties *)

(** The process directory is absolute. *)
Hypothesis Getwd_abs : ∀ wd, Getwd = inl wd → rooted wd = true.

Lemma rooted_Join base p : rooted base = true → rooted (Join [base; p]) = true.
Proof using Type.
  intros Hr. pose proof (rooted_nonempty _ Hr) as Hne. unfold Join.
  rewrite filter_cons_True by done. rewrite filter_cons. case_decide; rewrite filter_nil; simpl.
  - by rewrite rooted_Clean, rooted_app.
  - by rewrite rooted_Clean.
Qed.

(** The canonical path of an identity that was built without error. *)
Lemma identity_ok path base i : newSourceIdentity path base = (i, None) →
  ∃ info, si_info i = Some info ∧ Stat (si_canonical i) = inl info ∧
          (rooted path = true → si_path i = Clean path).
Proof using Type.
  unfold newSourceIdentity. cbv zeta.
  destruct (Abs _) as [a|err] eqn:Ha; [|done].
  destruct (EvalSymlinks (Clean a)) as [c|err]; [|done].
  destruct (Stat (Clean c)) as [info|err] eqn:Hs; [|done]. intros [= <-].
  exists info. split_and!; try done. intros Hr. simpl. unfold Abs, IsAbs in Ha.
  rewrite Hr in Ha. simpl in Ha. rewrite Hr in Ha. inv Ha. apply Clean_idempotent.
Qed.

(** C36. A launch that is accepted stays inside its working directory: root and
    program are clean absolute paths, the root is a directory and the program a
    regular [.fql] file, the relative path has no [..] component and joining it
    to the root gives the program back. *)
Theorem launch_paths_contained (Program CWD : string) (p : launchPaths) :
  resolvePaths Program CWD = inl p →
  rooted (lp_root p) = true ∧ rooted (lp_program p) = true ∧
  Clean (lp_root p) = lp_root p ∧ Clean (lp_program p) = lp_program p ∧
  (∃ info, Stat (lp_root p) = inl info ∧ IsDir info = true) ∧
  (∃ info, Stat (si_canonical (lp_identity p)) = inl info ∧ IsRegular info = true) ∧
  si_path (lp_identity p) = lp_program p ∧ Ext (lp_program p) = ".fql" ∧
  inside (lp_relativePath p) ∧ Join [lp_root p; lp_relativePath p] = lp_program p.
Proof using Getwd_abs.
  unfold resolvePaths. case_bool_decide; [done|]. destruct Getwd as [wd|err] eqn:Hwd; [|done].
  pose proof (Getwd_abs wd eq_refl) as Hwr. cbv zeta. unfold IsAbs.
  set (root0 := if negb _ && negb _ then _ else _).
  assert (root0 = "" ∨ rooted root0 = true) as Hroot0.
  { subst root0. destruct (decide (TrimSpace CWD = "")) as [->|Hne]; [by left|right].
    rewrite bool_decide_eq_false_2 by done. simpl. destruct (rooted (TrimSpace CWD)) eqn:E; simpl; [done|].
    by apply rooted_Join. }
  clearbody root0. set (program := Clean (if rooted (TrimSpace Program) then _ else _)).
  assert (rooted program = true ∧ Clean program = program) as [Hpr Hpc].
  { subst program. rewrite rooted_Clean, Clean_idempotent. split; [|done].
    destruct (rooted (TrimSpace Program)) eqn:E; [exact E|]. apply rooted_Join.
    case_bool_decide; [done|]. by destruct Hroot0. }
  clearbody program. set (root := Clean (if bool_decide (root0 = "") then _ else _)).
  assert (rooted root = true ∧ Clean root = root) as [Hrr Hrc].
  { subst root. rewrite rooted_Clean, Clean_idempotent. split; [|done].
    case_bool_decide; [by apply rooted_Dir|]. by destruct Hroot0. }
  clearbody root. destruct (Stat root) as [rootInfo|err] eqn:Hs; [|done].
  destruct (IsDir rootInfo) eqn:Hd; simpl; [|done].
  destruct (newSourceIdentity program root) as [identity [err|]] eqn:Hi; [done|].
  destruct (identity_ok _ _ _ Hi) as (info & Hinfo & Hstat & Hpath). rewrite Hinfo.
  destruct (IsRegular info) eqn:Hreg; simpl; [|done]. case_bool_decide as Hext; [done|].
  destruct (Rel root program) as [rel|] eqn:Hrel; [|done].
  destruct (_ || _) eqn:Eb; [done|]. intros [= <-]. simpl.
  apply orb_false_iff in Eb as [Eb Hp]. apply orb_false_iff in Eb as [Eb _].
  apply orb_false_iff in Eb as [H1%bool_decide_eq_false H2%bool_decide_eq_false].
  destruct (Rel_inside root program rel Hrr Hpr Hrel H1 H2 Hp) as (Hin & _ & Hj).
  split_and!; try done; [by exists rootInfo|by exists info|by rewrite Hpath|by rewrite Hj].
Qed.
End launch.

(** A file system with one program. *)
Definition sample_stat (p : string) : bool + error :=
  if bool_decide (p = "/work/q.fql") then inl true
  else if bool_decide (p = "/work") then inl false else inr (ENew "no such file").

Lemma launch_paths_contained_witness :
  ∃ p, resolvePaths negb id (inl "/work") sample_stat inl " q.fql " "" = inl p ∧
    lp_relativePath p = "q.fql" ∧ Join [lp_root p; lp_relativePath p] = lp_program p.
Proof.
  eexists. split; [vm_compute; reflexivity|]. split; [reflexivity|].
  refine (proj2 (proj2 (proj2 (proj2 (proj2 (proj2 (proj2 (proj2 (proj2
    (launch_paths_contained negb id (inl "/work") sample_stat inl _ " q.fql " "" _ _)))))))))).
  - intros wd [= <-]. vm_compute. reflexivity.
  - vm_compute. reflexivity.
Defined.
