(* ===== verification/DapServer.v ===== *)
(** * Debug adapter: requests and the session

    [internal/dap/server.go] and [requests.go]: the loop that reads requests, the
    handler of every request, and the teardown.  Requests are served one after
    the other by the reader; the goroutine that watches the debug session runs
    beside it.  A handler that holds [eventMu] is one step; the handlers that do
    not take it (stack trace, scopes, variables, evaluate) have gaps in which the
    watcher may handle events.  What the workspace, execution and debug managers,
    the file system and the output stream answer is an [env], arbitrary for each
    request; the calls they receive are logged. *)

From S2P Require Import Prelude Paths Source Errors Diagnostics Lifecycle Watchers Parameters ExecRuntime DebugSession DapHandles DapEvents DapCoordinates DapPaths Uri.

Local Open Scope Z_scope.

(** ** Messages *)

(** [protocol.Request]: what a reply repeats of it. *)
Record Request := mkRequest { rq_Seq : Z; rq_Command : string }.

Global Instance Request_eq_dec : EqDecision Request.
Proof. solve_decision. Defined.

(** [apidebugger.Value] and [apidebugger.Variable]. *)
Record Value := mkValue { va_Display : string; va_Type : string; va_Reference : Z }.
Record Variable_ := mkVariable { vr_Name : string; vr_Value : Value }.
(** [debug.Scope]. *)
Record DebugScope := mkDebugScope { sp_Name : string; sp_Variables : list Variable_ }.
(** What is read of an [apidebugger.Frame]. *)
Record DebugFrame := mkDebugFrame { df_Name : string; df_SourceName : string; df_Position : native }.
(** An [apidebugger.Breakpoint] with the positions of its two locations. *)
Record NativeBreakpoint := mkNativeBreakpoint {
  nb_breakpoint : Breakpoint;
  nb_requested : native;
  nb_position : native
}.

Record sourceBreakpoint := mkSourceBreakpoint {
  pb_Id : Z;
  pb_Verified : bool;
  pb_Message : string;
  pb_SourceName : string;
  pb_SourcePath : string;
  pb_Line : Z;
  pb_Column : option Z
}.
Record StackFrame := mkStackFrame {
  sf_Id : Z; sf_Name : string; sf_SourceName : string; sf_SourcePath : string; sf_Line : Z; sf_Column : Z
}.
Record ProtocolScope := mkProtocolScope {
  ps_Name : string; ps_PresentationHint : string; ps_VariablesReference : Z; ps_NamedVariables : nat
}.
Record ProtocolVariable := mkProtocolVariable {
  pv_Name : string; pv_Value : string; pv_Type : string; pv_EvaluateName : string; pv_VariablesReference : Z
}.

Inductive body :=
| BInitialize | BLaunch | BConfigurationDone
| BSetBreakpoints (breakpoints : list sourceBreakpoint)
| BContinue | BPause | BNext | BStepIn | BStepOut | BThreads
| BStackTrace (frames : list StackFrame) (total : nat)
| BScopes (scopes : list ProtocolScope)
| BVariables (variables : list ProtocolVariable)
| BEvaluate (result type : string) (reference : Z)
| BTerminate | BDisconnect.

(** Why a request failed; the message of the reply is its text. *)
Inductive failure :=
| FText (message : string)
| FError (err : error)
| FWrapped (prefix : string) (err : error)
| FLaunch (err : launch_error)
| FRuntimeOptions
| FPosition (prefix : string) (err : positionError).

Inductive outgoing :=
| OReply (request : Request) (b : body)
| OFailure (request : Request) (reason : failure)
| OInitialized
| OEvent (m : DapEvents.message).

(** ** Requests *)

Record launchArguments := mkLaunchArguments {
  la_Program : string;
  la_CWD : string;
  la_WorkingDirectory : working_directory;
  la_Parameters : params;
  la_StopOnEntry : bool
}.

(** A breakpoint of [setBreakpoints]; [rb_Unsupported] when a condition, a hit
    condition or a log message is set. *)
Record RequestedBreakpoint := mkRequestedBreakpoint { rb_Line : Z; rb_Unsupported : bool }.

(** The raw column of a breakpoint: not sent, null, not an integer, an integer. *)
Inductive raw_column := ColumnAbsent | ColumnNull | ColumnInvalid (err : error) | ColumnInt (value : Z).

Inductive resume_kind := RContinue | RNext | RStepIn | RStepOut.

Inductive request :=
| QInitialize (arguments : initializeClientOptions)
| QLaunch (arguments : launchArguments + error)
| QConfigurationDone
| QSetBreakpoints (name path : string) (reference : Z) (breakpoints : list RequestedBreakpoint) (columns : list raw_column)
| QResume (kind : resume_kind) (thread : Z)
| QPause (thread : Z)
| QThreads
| QStackTrace (thread startFrame levels : Z)
| QScopes (frame : Z)
| QVariables (reference : Z) (filter : string) (start count : Z)
| QEvaluate (context expression : string) (frame : Z)
| QTerminate (restart : bool)
| QDisconnect (restart suspend : bool)
| QUnsupported.

(** ** State *)

Section dap.
Context {FileInfo : Type} (IsDir IsRegular : FileInfo → bool) (SameFile : FileInfo → FileInfo → bool).

Record ownedSession := mkOwned {
  os_workspace : string;
  os_session : string;
  os_debug : string;
  os_root : string;
  os_program : string;
  os_programIdentity : sourceIdentity (FileInfo := FileInfo);
  os_coordinates : option sourceCoordinates
}.

Definition no_session : ownedSession := mkOwned "" "" "" "" "" (mkIdentity "" "" None) None.

(** A call of a manager, with its answer where the adapter depends on it. *)
Inductive call :=
| COpen (root : string) (answer : string + error)
| CCreateSession (workspace path : string) (answer : (string * list Z) + error)
| CCreateDebug (session : string) (parameters : params) (options : RuntimeOptions) (answer : string + error)
| CWatch (debug : string) (answer : option error)
| CStart (debug : string) (answer : option error)
| CResume (kind : resume_kind) (debug : string) (answer : option error)
| CEntryResume (debug : string) (answer : option string)   (* ContinueSession, by the watcher *)
| CPause (debug : string)
| CReplaceBreakpoints (debug program : string) (requests : list native)
| CFrames (debug : string)
| CScopes (debug : string) (frame : Z)
| CVariables (debug : string) (reference : Z)
| CEvaluate (debug : string) (frame : Z) (expression : string)
| CTerminate (debug : string)
| CCancelWatch
| CCloseDebug (debug : string)
| CCloseSession (session : string)
| CCloseWorkspace (workspace : string)
| CDebugsClose | CExecutionsClose | CWorkspacesClear | CRuntimeClose.

(** [sv_events] is what [eventMu] and the handle table protect: [DapEvents].
    [sv_watching] records that the watcher goroutine runs, [sv_dropped] the launch
    requests the teardown discarded; neither is in the code. *)
Record server := mkDapServer {
  sv_events : DapEvents.server (Variable_ := Variable_);
  sv_owned : ownedSession;
  sv_client : clientOptions;
  sv_watch : bool;
  sv_pendingLaunch : option Request;
  sv_sequence : Z;
  sv_initialized : bool;
  sv_launched : bool;
  sv_configured : bool;
  sv_disconnected : bool;
  sv_cleanup : option (option error);
  sv_out : list (Z * outgoing);
  sv_calls : list call;
  sv_watching : bool;
  sv_dropped : list Request
}.

Definition newServer : server :=
  mkDapServer (DapEvents.mkServer None newBreakpointIDs newHandleTable false [] []) no_session
    (mkClientOptions pathFormatPath true true) false None 0 false false false false None [] [] false [].

(** What the collaborators answer to one request. *)
Record env := mkEnv {
  e_Getwd : string + error;
  e_Stat : string → FileInfo + error;
  e_EvalSymlinks : string → string + error;
  e_URIPath : string → string + error;       (* source.URI(value).Path() *)
  e_open : string + error;
  e_createSession : (string * list Z) + error;
  e_createDebug : string + error;
  e_watch : option error;
  e_start : option error;
  e_resume : option error;
  e_pause : option error;
  e_terminate : option error;
  e_replace : list NativeBreakpoint + error;
  e_frames : list DebugFrame + error;
  e_scopes : list DebugScope + error;
  e_variables : list Variable_ + error;
  e_evaluate : Value + error;
  e_write : Z → option error;
  e_race : nat → list (Event * option string);
  e_cleanup : list (option error)            (* the results the teardown joins *)
}.

(** *** Field updates *)

Definition set_events (x : DapEvents.server) (s : server) : server :=
  mkDapServer x (sv_owned s) (sv_client s) (sv_watch s) (sv_pendingLaunch s) (sv_sequence s) (sv_initialized s)
    (sv_launched s) (sv_configured s) (sv_disconnected s) (sv_cleanup s) (sv_out s) (sv_calls s) (sv_watching s) (sv_dropped s).
Definition set_out (q : Z) (out : list (Z * outgoing)) (s : server) : server :=
  mkDapServer (sv_events s) (sv_owned s) (sv_client s) (sv_watch s) (sv_pendingLaunch s) q (sv_initialized s)
    (sv_launched s) (sv_configured s) (sv_disconnected s) (sv_cleanup s) out (sv_calls s) (sv_watching s) (sv_dropped s).
Definition set_pending (p : option Request) (s : server) : server :=
  mkDapServer (sv_events s) (sv_owned s) (sv_client s) (sv_watch s) p (sv_sequence s) (sv_initialized s)
    (sv_launched s) (sv_configured s) (sv_disconnected s) (sv_cleanup s) (sv_out s) (sv_calls s) (sv_watching s) (sv_dropped s).
Definition set_initialized (c : clientOptions) (s : server) : server :=
  mkDapServer (sv_events s) (sv_owned s) c (sv_watch s) (sv_pendingLaunch s) (sv_sequence s) true
    (sv_launched s) (sv_configured s) (sv_disconnected s) (sv_cleanup s) (sv_out s) (sv_calls s) (sv_watching s) (sv_dropped s).
Definition set_configured (s : server) : server :=
  mkDapServer (sv_events s) (sv_owned s) (sv_client s) (sv_watch s) (sv_pendingLaunch s) (sv_sequence s) (sv_initialized s)
    (sv_launched s) true (sv_disconnected s) (sv_cleanup s) (sv_out s) (sv_calls s) (sv_watching s) (sv_dropped s).
Definition set_disconnected (s : server) : server :=
  mkDapServer (sv_events s) (sv_owned s) (sv_client s) (sv_watch s) (sv_pendingLaunch s) (sv_sequence s) (sv_initialized s)
    (sv_launched s) (sv_configured s) true (sv_cleanup s) (sv_out s) (sv_calls s) (sv_watching s) (sv_dropped s).
Definition set_watching (b : bool) (s : server) : server :=
  mkDapServer (sv_events s) (sv_owned s) (sv_client s) (sv_watch s) (sv_pendingLaunch s) (sv_sequence s) (sv_initialized s)
    (sv_launched s) (sv_configured s) (sv_disconnected s) (sv_cleanup s) (sv_out s) (sv_calls s) b (sv_dropped s).
Definition log (c : call) (s : server) : server :=
  mkDapServer (sv_events s) (sv_owned s) (sv_client s) (sv_watch s) (sv_pendingLaunch s) (sv_sequence s) (sv_initialized s)
    (sv_launched s) (sv_configured s) (sv_disconnected s) (sv_cleanup s) (sv_out s) (sv_calls s ++ [c]) (sv_watching s) (sv_dropped s).

Definition logs (cs : list call) (s : server) : server :=
  mkDapServer (sv_events s) (sv_owned s) (sv_client s) (sv_watch s) (sv_pendingLaunch s) (sv_sequence s) (sv_initialized s)
    (sv_launched s) (sv_configured s) (sv_disconnected s) (sv_cleanup s) (sv_out s) (sv_calls s ++ cs) (sv_watching s) (sv_dropped s).

(** The part of the server [DapEvents] describes. *)
Definition handles (s : server) : handleTable Variable_ := sv_handles (sv_events s).
Definition set_handles (t : handleTable Variable_) (s : server) : server :=
  let x := sv_events s in
  set_events (DapEvents.mkServer (sv_initialStop x) (sv_breakpoints x) t (sv_stopOnEntry x) (sv_sent x) (sv_resumed x)) s.
Definition set_ids (b : breakpointIDs) (s : server) : server := set_events (set_breakpoints b (sv_events s)) s.
Definition set_stop (i : option initialStop) (s : server) : server := set_events (set_initialStop i (sv_events s)) s.
Definition invalidate (s : server) : server := set_events (DapEvents.invalidateHandles (sv_events s)) s.

(** ** Sending *)

(** [send]: the message gets the next sequence number, also when the write
    fails. *)
Definition send (write : Z → option error) (m : outgoing) (s : server) : option error * server :=
  let q := int64 (sv_sequence s + 1) in
  match write q with
  | Some err => (Some (EWrap ("write DAP message: " +:+ error_text err) err), set_out q (sv_out s) s)
  | None => (None, set_out q (sv_out s ++ [(q, m)]) s)
  end.

Definition sendFailure (write : Z → option error) (rq : Request) (reason : failure) (s : server) :
    outcome (option error * server) := Ret (send write (OFailure rq reason) s).
Definition sendResponse (write : Z → option error) (rq : Request) (b : body) (s : server) :
    outcome (option error * server) := Ret (send write (OReply rq b) s).

(** The events the watcher sent and the calls it made since the last flush; failed
    sends are only logged. *)
Fixpoint send_events (write : Z → option error) (ms : list DapEvents.message) (s : server) : server :=
  match ms with
  | [] => s
  | m :: ms => send_events write ms (send write (OEvent m) s).2
  end.

Definition flush (write : Z → option error) (s : server) : server :=
  let x := sv_events s in
  send_events write (sv_sent x)
    (logs (map (λ c, CEntryResume c.1 c.2) (sv_resumed x))
       (set_events (DapEvents.mkServer (sv_initialStop x) (sv_breakpoints x) (sv_handles x) (sv_stopOnEntry x) [] []) s)).

(** The watcher handles events. *)
Definition watcher_events (write : Z → option error) (events : list (Event * option string)) (s : server) : server :=
  if sv_watching s then flush write (set_events (handle_events events (sv_events s)) s) else s.

(** The subscription ended: the errors are reported, and the goroutine returns. *)
Definition watcher_end (write : Z → option error) (errors : list string) (s : server) : server :=
  if sv_watching s
  then set_watching false (flush write (set_events (watchDebugSession [] errors (sv_events s)) s)) else s.

Definition gap (e : env) (k : nat) (s : server) : server := watcher_events (e_write e) (e_race e k) s.

(** ** Pending launch *)

Definition takePendingLaunch (s : server) : option Request * server := (sv_pendingLaunch s, set_pending None s).

Definition resolvePendingLaunch (write : Z → option error) (s : server) : option error * server :=
  match takePendingLaunch s with
  | (None, s) => (None, s)
  | (Some rq, s) => send write (OReply rq BLaunch) s
  end.

Definition failPendingLaunch (write : Z → option error) (reason : failure) (s : server) : option error * server :=
  match takePendingLaunch s with
  | (None, s) => (None, s)
  | (Some rq, s) => send write (OFailure rq reason) s
  end.

(** ** Teardown *)

(** The calls of the teardown before the runtime is closed: the watch is
    cancelled, then the debug session, the execution session and the workspace are
    closed where they exist, then the managers. *)
Definition teardown (s : server) : list call :=
  let o := sv_owned s in
  (if sv_watch s then [CCancelWatch] else []) ++
  (if bool_decide (os_debug o = "") then [] else [CTerminate (os_debug o); CCloseDebug (os_debug o)]) ++
  (if bool_decide (os_session o = "") then [] else [CCloseSession (os_session o)]) ++
  (if bool_decide (os_workspace o = "") then [] else [CCloseWorkspace (os_workspace o)]) ++
  [CDebugsClose; CExecutionsClose; CWorkspacesClear].

(** [cleanup], guarded by its [sync.Once]: it also drops a pending launch and
    invalidates the handles. *)
Definition cleanup (results : list (option error)) (s : server) : option error * server :=
  match sv_cleanup s with
  | Some err => (err, s)
  | None =>
      let '(dropped, s) := takePendingLaunch s in
      let s := invalidate s in
      let err := errors_Join results in
      (err, mkDapServer (sv_events s) (sv_owned s) (sv_client s) (sv_watch s) (sv_pendingLaunch s) (sv_sequence s)
              (sv_initialized s) (sv_launched s) (sv_configured s) (sv_disconnected s) (Some err) (sv_out s)
              (sv_calls s ++ teardown s ++ [CRuntimeClose]) (sv_watching s) (sv_dropped s ++ option_list dropped))
  end.

(** ** Handlers

    Each returns the error that ends [Run], if any. *)

Definition configuredDebug (requireConfigured : bool) (s : server) : option string :=
  if negb (sv_launched s) || (requireConfigured && negb (sv_configured s)) || sv_disconnected s then None
  else Some (os_debug (sv_owned s)).

Definition handleInitialize (e : env) (rq : Request) (arguments : initializeClientOptions) (s : server) :
    outcome (option error * server) :=
  match client_normalized arguments with
  | None => sendFailure (e_write e) rq (FText "pathFormat must be path or uri") s
  | Some options =>
      if sv_initialized s then sendFailure (e_write e) rq (FText "initialize may only be sent once") s
      else sendResponse (e_write e) rq BInitialize (set_initialized options s)
  end.

(** The state a successful launch publishes. *)
Definition launched (rq : Request) (paths : launchPaths (FileInfo := FileInfo)) (arguments : launchArguments)
    (workspace session debug : string) (text : list Z) (s : server) : server :=
  let x := sv_events s in
  mkDapServer (DapEvents.mkServer (sv_initialStop x) (sv_breakpoints x) (sv_handles x) (la_StopOnEntry arguments) (sv_sent x) (sv_resumed x))
    (mkOwned workspace session debug (lp_root paths) (lp_program paths) (lp_identity paths)
       (Some (newSourceCoordinates text (sv_client s))))
    (sv_client s) true (Some rq) (sv_sequence s) (sv_initialized s) true (sv_configured s) (sv_disconnected s)
    (sv_cleanup s) (sv_out s) (sv_calls s) (sv_watching s) (sv_dropped s).

Definition handleLaunch (e : env) (rq : Request) (arguments : launchArguments + error) (s : server) :
    outcome (option error * server) :=
  if negb (sv_initialized s) || sv_launched s then
    sendFailure (e_write e) rq (FText "launch requires one successful initialize") s
  else
    match arguments with
    | inr err => sendFailure (e_write e) rq (FWrapped "invalid launch arguments" err) s
    | inl arguments =>
        match resolvePaths IsDir IsRegular (e_Getwd e) (e_Stat e) (e_EvalSymlinks e) (la_Program arguments) (la_CWD arguments) with
        | inr err => sendFailure (e_write e) rq (FLaunch err) s
        | inl paths =>
            match launch_runtimeOptions (la_WorkingDirectory arguments) with
            | None => sendFailure (e_write e) rq FRuntimeOptions s
            | Some options =>
                let s := log (COpen (lp_root paths) (e_open e)) s in
                match e_open e with
                | inr err => sendFailure (e_write e) rq (FError err) s
                | inl workspace =>
                    let s := log (CCreateSession workspace (lp_relativePath paths) (e_createSession e)) s in
                    match e_createSession e with
                    | inr err => sendFailure (e_write e) rq (FError err) (log (CCloseWorkspace workspace) s)
                    | inl (session, text) =>
                        let s := log (CCreateDebug session (la_Parameters arguments) options (e_createDebug e)) s in
                        match e_createDebug e with
                        | inr err =>
                            sendFailure (e_write e) rq (FError err) (log (CCloseWorkspace workspace) (log (CCloseSession session) s))
                        | inl debug =>
                            let s := log (CWatch debug (e_watch e)) s in
                            match e_watch e with
                            | Some err =>
                                sendFailure (e_write e) rq (FError err)
                                  (log (CCloseWorkspace workspace) (log (CCloseSession session) (log (CCloseDebug debug) s)))
                            | None =>
                                let s := launched rq paths arguments workspace session debug text s in
                                match send (e_write e) OInitialized s with
                                | (Some err, s) => Ret (Some err, s)
                                | (None, s) => Ret (None, set_watching true (set_stop (Some (mkInitialStop [] false)) s))
                                end
                            end
                        end
                    end
                end
            end
        end
    end.

Definition handleConfigurationDone (e : env) (rq : Request) (s : server) : outcome (option error * server) :=
  if negb (sv_launched s) || sv_configured s then
    sendFailure (e_write e) rq (FText "configurationDone requires one successful launch") s
  else
    let debug := os_debug (sv_owned s) in
    match send (e_write e) (OReply rq BConfigurationDone) s with
    | (Some err, s) => Ret (Some err, s)
    | (None, s) =>
        let s := log (CStart debug (e_start e)) s in
        match e_start e with
        | Some err =>
            let s := set_stop None s in
            let '(result, s) := failPendingLaunch (e_write e) (FError err) s in
            let '(cleanupErr, s) := cleanup (e_cleanup e) (set_disconnected s) in
            Ret (errors_Join [result; cleanupErr], s)
        | None =>
            match sv_initialStop (sv_events s) with
            | None => Panic "nil pointer dereference"
            | Some i =>
                let s := set_stop (Some (mkInitialStop (is_bindings i) true)) s in
                let s := set_ids (commandStarted (sv_breakpoints (sv_events s))) s in
                Ret (resolvePendingLaunch (e_write e) (set_configured (invalidate s)))
            end
        end
    end.

(** *** Breakpoints *)

(** [request.column]. *)
Definition column (columns : list raw_column) (index : nat) : option Z + failure :=
  match columns !! index with
  | None | Some ColumnAbsent => inl None
  | Some ColumnNull => inr (FText "breakpoint column must be an integer when supplied")
  | Some (ColumnInvalid err) => inr (FWrapped "invalid breakpoint column" err)
  | Some (ColumnInt value) => inl (Some value)
  end.

Definition sourcePath (e : env) (value : string) (s : server) : string + failure :=
  if bool_decide (TrimSpace value = "") then inr (FText "source path is required")
  else match co_pathFormat (sv_client s) with
       | pathFormatURI => match e_URIPath e value with inl path => inl (Clean path) | inr err => inr (FError err) end
       | pathFormatPath => inl (Clean value)
       end.

Definition clientPath (e : env) (path : string) (s : server) : string + error :=
  match co_pathFormat (sv_client s) with
  | pathFormatURI => URIFromPath (e_Getwd e) path
  | pathFormatPath => inl (Clean path)
  end.

(** The loop of [sendUnverifiedBreakpoints]. *)
Fixpoint unverified_loop (name path message : string) (columns : list raw_column) (index : nat)
    (breakpoints : list RequestedBreakpoint) : list sourceBreakpoint + failure :=
  match breakpoints with
  | [] => inl []
  | b :: breakpoints =>
      match column columns index with
      | inr reason => inr reason
      | inl c =>
          match unverified_loop name path message columns (S index) breakpoints with
          | inr reason => inr reason
          | inl rest => inl (mkSourceBreakpoint 0 false message name path (rb_Line b) c :: rest)
          end
      end
  end.

Definition sendUnverifiedBreakpoints (e : env) (rq : Request) (name sourceValue : string)
    (breakpoints : list RequestedBreakpoint) (columns : list raw_column) (path message : string) (s : server) :
    outcome (option error * server) :=
  let sourceValue := match clientPath e path s with inl p => p | inr _ => sourceValue end in
  let name := if bool_decide (name = "") then Base path else name in
  match unverified_loop name sourceValue message columns 0 breakpoints with
  | inr reason => sendFailure (e_write e) rq reason s
  | inl result => sendResponse (e_write e) rq (BSetBreakpoints result) s
  end.

(** The loop that converts the requested positions. *)
Fixpoint requests_loop (c : sourceCoordinates) (columns : list raw_column) (index : nat)
    (breakpoints : list RequestedBreakpoint) : list native + failure :=
  match breakpoints with
  | [] => inl []
  | b :: breakpoints =>
      if rb_Unsupported b then inr (FText "conditional, hit-count, and log breakpoints are not supported")
      else
        match column columns index with
        | inr reason => inr reason
        | inl col =>
            match fromClient c (rb_Line b) col with
            | inr err => inr (FPosition "" err)
            | inl position =>
                match requests_loop c columns (S index) breakpoints with
                | inr reason => inr reason
                | inl rest => inl (position :: rest)
                end
            end
        end
  end.

(** The loop that converts the answers. *)
Fixpoint results_loop (c : sourceCoordinates) (ids : breakpointIDs) (name path : string)
    (breakpoints : list NativeBreakpoint) : list sourceBreakpoint + failure :=
  match breakpoints with
  | [] => inl []
  | b :: breakpoints =>
      let bound := bp_Bound (nb_breakpoint b) in
      match toClient c (if bound then nb_position b else nb_requested b) with
      | inr err => inr (FPosition "convert native breakpoint position" err)
      | inl position =>
          if bound && bool_decide (cp_column position = None)
          then inr (FText "native bound breakpoint position has no column")
          else
            match results_loop c ids name path breakpoints with
            | inr reason => inr reason
            | inl rest =>
                inl (mkSourceBreakpoint (id (bp_ID (nb_breakpoint b)) ids) bound "" name path (cp_line position)
                       (cp_column position) :: rest)
            end
      end
  end.

(** The section of [handleSetBreakpoints] that holds [eventMu]. *)
Definition replaceBreakpoints (e : env) (rq : Request) (debug : string) (c : sourceCoordinates) (requests : list native)
    (name path : string) (s : server) : outcome (option error * server) :=
  let program := os_program (sv_owned s) in
  let s := log (CReplaceBreakpoints debug program requests) s in
  match e_replace e with
  | inr err => sendFailure (e_write e) rq (FError err) s
  | inl breakpoints =>
      ids ← replace program (map (λ p, (np_Line p, np_Column p)) requests) (map nb_breakpoint breakpoints)
              (sv_breakpoints (sv_events s));
      let s := set_ids ids s in
      let s := match sv_initialStop (sv_events s) with
               | None => s
               | Some i => set_stop (Some (initialStop_replace (map nb_breakpoint breakpoints) i)) s
               end in
      match results_loop c ids name path breakpoints with
      | inr reason => sendFailure (e_write e) rq reason s
      | inl result => sendResponse (e_write e) rq (BSetBreakpoints result) s
      end
  end.

Definition handleSetBreakpoints (e : env) (rq : Request) (name path : string) (reference : Z)
    (breakpoints : list RequestedBreakpoint) (columns : list raw_column) (s : server) : outcome (option error * server) :=
  match configuredDebug false s with
  | None => sendFailure (e_write e) rq (FText "setBreakpoints requires launch before configurationDone") s
  | Some debug =>
      if negb (reference =? 0) then sendFailure (e_write e) rq (FText "source references are not supported") s
      else
        match sourcePath e path s with
        | inr reason => sendFailure (e_write e) rq reason s
        | inl source =>
            let '(identity, err) := newSourceIdentity (e_Getwd e) (e_Stat e) (e_EvalSymlinks e) source (os_root (sv_owned s)) in
            match err with
            | Some _ =>
                sendUnverifiedBreakpoints e rq name path breakpoints columns
                  (if bool_decide (si_path identity = "") then source else si_path identity)
                  "breakpoint source is unavailable" s
            | None =>
                if negb (same SameFile identity (os_programIdentity (sv_owned s))) then
                  sendUnverifiedBreakpoints e rq name path breakpoints columns (si_path identity)
                    "breakpoints are only supported for the launched program" s
                else
                  match os_coordinates (sv_owned s) with
                  | None => Panic "nil pointer dereference"
                  | Some c =>
                      match requests_loop c columns 0 breakpoints with
                      | inr reason => sendFailure (e_write e) rq reason s
                      | inl requests =>
                          match clientPath e (si_path identity) s with
                          | inr err => sendFailure (e_write e) rq (FError err) s
                          | inl client => replaceBreakpoints e rq debug c requests (Base (si_path identity)) client s
                          end
                      end
                  end
            end
        end
  end.

(** *** Commands *)

Definition threadID : Z := 1.

Definition resume_body (kind : resume_kind) : body :=
  match kind with RContinue => BContinue | RNext => BNext | RStepIn => BStepIn | RStepOut => BStepOut end.

Definition handleResume (e : env) (rq : Request) (kind : resume_kind) (thread : Z) (s : server) :
    outcome (option error * server) :=
  match configuredDebug true s with
  | Some debug =>
      if negb (thread =? threadID)
      then sendFailure (e_write e) rq (FText "request requires the Ferret thread in a configured session") s
      else
        let s := log (CResume kind debug (e_resume e)) s in
        match e_resume e with
        | Some err => sendFailure (e_write e) rq (FError err) s
        | None =>
            let s := set_ids (commandStarted (sv_breakpoints (sv_events s))) s in
            sendResponse (e_write e) rq (resume_body kind) (invalidate s)
        end
  | None => sendFailure (e_write e) rq (FText "request requires the Ferret thread in a configured session") s
  end.

Definition handlePause (e : env) (rq : Request) (thread : Z) (s : server) : outcome (option error * server) :=
  match configuredDebug true s with
  | Some debug =>
      if negb (thread =? threadID)
      then sendFailure (e_write e) rq (FText "pause requires the Ferret thread in a configured session") s
      else
        let s := log (CPause debug) s in
        match e_pause e with
        | Some err => sendFailure (e_write e) rq (FError err) s
        | None => sendResponse (e_write e) rq BPause s
        end
  | None => sendFailure (e_write e) rq (FText "pause requires the Ferret thread in a configured session") s
  end.

Definition handleThreads (e : env) (rq : Request) (s : server) : outcome (option error * server) :=
  match configuredDebug false s with
  | None => sendFailure (e_write e) rq (FText "threads requires a launched session") s
  | Some _ => sendResponse (e_write e) rq BThreads s
  end.

(** *** Inspection

    These handlers do not take [eventMu]: the watcher may run in the gaps. *)

(** The loop over [frames[start:end]]; the frame handle is allocated after gap
    [k]. *)
Fixpoint frames_loop (e : env) (c : sourceCoordinates) (index : Z) (k : nat) (frames : list DebugFrame) (s : server) :
    (list StackFrame + failure) * server :=
  match frames with
  | [] => (inl [], s)
  | f :: frames =>
      match clientPath e (df_SourceName f) s with
      | inr err => (inr (FError err), s)
      | inl path =>
          match toClient c (df_Position f) with
          | inr err => (inr (FPosition "convert native frame position" err), s)
          | inl position =>
              match cp_column position with
              | None => (inr (FText "native frame position has no column"), s)
              | Some col =>
                  let s := gap e k s in
                  let '(frameID, t) := Frame index (handles s) in
                  let '(rest, s) := frames_loop e c (index + 1) (S k) frames (set_handles t s) in
                  (match rest with
                   | inr reason => inr reason
                   | inl rest =>
                       inl (mkStackFrame frameID (df_Name f) (Base (df_SourceName f)) path (cp_line position) col :: rest)
                   end, s)
              end
          end
      end
  end.

(** [end] of the requested window; the sum wraps around. *)
Definition window_end (start levels total : Z) : Z :=
  if (0 <? levels) && (int64 (start + levels) <? total) then int64 (start + levels) else total.

Definition handleStackTrace (e : env) (rq : Request) (thread startFrame levels : Z) (s : server) :
    outcome (option error * server) :=
  match configuredDebug true s with
  | None => sendFailure (e_write e) rq (FText "stackTrace requires the Ferret thread in a configured session") s
  | Some debug =>
      if negb (thread =? threadID)
      then sendFailure (e_write e) rq (FText "stackTrace requires the Ferret thread in a configured session") s
      else
        let s := log (CFrames debug) s in
        match e_frames e with
        | inr err => sendFailure (e_write e) rq (FError err) s
        | inl frames =>
            let total := Z.of_nat (length frames) in
            if (startFrame <? 0) || (total <? startFrame)
            then sendFailure (e_write e) rq (FText "startFrame is invalid") s
            else
              let end_ := window_end startFrame levels total in
              if end_ <? startFrame then Panic "makeslice: cap out of range"
              else
                match os_coordinates (sv_owned s) with
                | None => Panic "nil pointer dereference"
                | Some c =>
                    match frames_loop e c startFrame 0
                            (take (Z.to_nat (end_ - startFrame)) (drop (Z.to_nat startFrame) frames)) s with
                    | (inr reason, s) => sendFailure (e_write e) rq reason s
                    | (inl result, s) => sendResponse (e_write e) rq (BStackTrace result (length frames)) s
                    end
                end
        end
  end.

(** [strings.ToLower]; the scope names are ASCII. *)
Definition lower (c : Ascii.ascii) : Ascii.ascii :=
  let n := Ascii.nat_of_ascii c in
  if (65 <=? n)%nat && (n <=? 90)%nat then Ascii.ascii_of_nat (n + 32) else c.
Fixpoint ToLower (s : string) : string :=
  match s with EmptyString => "" | String c s => String (lower c) (ToLower s) end.

Fixpoint scopes_loop (e : env) (k : nat) (scopes : list DebugScope) (s : server) : list ProtocolScope * server :=
  match scopes with
  | [] => ([], s)
  | x :: scopes =>
      let s := gap e k s in
      let '(handle, t) := Scope (sp_Variables x) (handles s) in
      let '(rest, s) := scopes_loop e (S k) scopes (set_handles t s) in
      (mkProtocolScope (sp_Name x) (ToLower (sp_Name x)) handle (length (sp_Variables x)) :: rest, s)
  end.

Definition handleScopes (e : env) (rq : Request) (frameId : Z) (s : server) : outcome (option error * server) :=
  match configuredDebug true s with
  | None => sendFailure (e_write e) rq (FText "scopes requires a configured session") s
  | Some debug =>
      let s := gap e 0 s in
      match FrameIndex frameId (handles s) with
      | (_, handleInvalid) => sendFailure (e_write e) rq (FText "stack frame handle is stale or invalid") s
      | (_, handleStale) => sendResponse (e_write e) rq (BScopes []) s
      | (frame, handleCurrent) =>
          let s := log (CScopes debug frame) s in
          match e_scopes e with
          | inr err => sendFailure (e_write e) rq (FError err) s
          | inl scopes =>
              let '(result, s) := scopes_loop e 1 scopes s in
              sendResponse (e_write e) rq (BScopes result) s
          end
      end
  end.

Definition protocolVariable (v : Variable_) (s : server) : ProtocolVariable * server :=
  let '(handle, t) := handleTable_Variable (va_Reference (vr_Value v)) (handles s) in
  (mkProtocolVariable (vr_Name v) (va_Display (vr_Value v)) (va_Type (vr_Value v)) (vr_Name v) handle, set_handles t s).

Fixpoint variables_loop (e : env) (k : nat) (variables : list Variable_) (s : server) : list ProtocolVariable * server :=
  match variables with
  | [] => ([], s)
  | v :: variables =>
      let '(x, s) := protocolVariable v (gap e k s) in
      let '(rest, s) := variables_loop e (S k) variables s in
      (x :: rest, s)
  end.

Definition handleVariables (e : env) (rq : Request) (reference : Z) (filter : string) (start count : Z) (s : server) :
    outcome (option error * server) :=
  match configuredDebug true s with
  | None => sendFailure (e_write e) rq (FText "variables requires a configured session") s
  | Some debug =>
      if negb (bool_decide (filter = "")) || negb (start =? 0) || negb (count =? 0)
      then sendFailure (e_write e) rq (FText "variable filtering and paging are not supported") s
      else
        let s := gap e 0 s in
        let reply variables s :=
          let '(result, s) := variables_loop e 2 variables s in
          sendResponse (e_write e) rq (BVariables result) s in
        match ScopeVariables reference (handles s) with
        | (variables, handleCurrent) => reply variables s
        | (_, handleStale) => reply [] s
        | (_, handleInvalid) =>
            let s := gap e 1 s in
            match VariableReference reference (handles s) with
            | (native, handleCurrent) =>
                let s := log (CVariables debug native) s in
                match e_variables e with
                | inr err => sendFailure (e_write e) rq (FError err) s
                | inl variables => reply variables s
                end
            | (_, handleStale) => reply [] s
            | (_, handleInvalid) => sendFailure (e_write e) rq (FText "variable handle is stale or invalid") s
            end
        end
  end.

(** [handleEvaluate] once the frame is known. *)
Definition evaluate (e : env) (rq : Request) (debug expression : string) (frame : Z) (s : server) :
    outcome (option error * server) :=
  let s := log (CEvaluate debug frame expression) s in
  match e_evaluate e with
  | inr err => sendFailure (e_write e) rq (FError err) s
  | inl value =>
      let s := gap e 1 s in
      let '(handle, t) := handleTable_Variable (va_Reference value) (handles s) in
      sendResponse (e_write e) rq (BEvaluate (va_Display value) (va_Type value) handle) (set_handles t s)
  end.

Definition handleEvaluate (e : env) (rq : Request) (context expression : string) (frameId : Z) (s : server) :
    outcome (option error * server) :=
  match configuredDebug true s with
  | None => sendFailure (e_write e) rq (FText "evaluate requires a configured session") s
  | Some debug =>
      if bool_decide (TrimSpace expression = "") then sendResponse (e_write e) rq (BEvaluate "" "" 0) s
      else
        if frameId =? 0 then evaluate e rq debug expression 0 s
        else
          let s := gap e 0 s in
          match FrameIndex frameId (handles s) with
          | (frame, handleCurrent) => evaluate e rq debug expression frame s
          | (_, handleStale) =>
              if bool_decide (context = "hover") || bool_decide (context = "watch")
              then sendResponse (e_write e) rq (BEvaluate "" "" 0) s
              else sendFailure (e_write e) rq (FText "stack frame handle is stale or invalid") s
          | (_, handleInvalid) => sendFailure (e_write e) rq (FText "stack frame handle is stale or invalid") s
          end
  end.

(** *** Ending *)

Definition handleTerminate (e : env) (rq : Request) (restart : bool) (s : server) : outcome (option error * server) :=
  match configuredDebug false s with
  | Some debug =>
      if restart then sendFailure (e_write e) rq (FText "terminate requires a launched session and does not support restart") s
      else
        match failPendingLaunch (e_write e) (FText "launch terminated before configurationDone") s with
        | (Some err, s) => Ret (Some err, s)
        | (None, s) =>
            let s := log (CTerminate debug) s in
            match e_terminate e with
            | Some err => sendFailure (e_write e) rq (FError err) s
            | None => sendResponse (e_write e) rq BTerminate (invalidate s)
            end
        end
  | None => sendFailure (e_write e) rq (FText "terminate requires a launched session and does not support restart") s
  end.

Definition handleDisconnect (e : env) (rq : Request) (restart suspend : bool) (s : server) :
    outcome (option error * server) :=
  if restart || suspend then sendFailure (e_write e) rq (FText "disconnect restart and suspend are not supported") s
  else
    match failPendingLaunch (e_write e) (FText "launch disconnected before configurationDone") s with
    | (Some err, s) => Ret (Some err, s)
    | (None, s) =>
        match send (e_write e) (OReply rq BDisconnect) s with
        | (Some err, s) => Ret (Some err, s)
        | (None, s) => Ret (cleanup (e_cleanup e) (set_disconnected s))
        end
    end.

Definition dispatch (e : env) (rq : Request) (q : request) (s : server) : outcome (option error * server) :=
  match q with
  | QInitialize arguments => handleInitialize e rq arguments s
  | QLaunch arguments => handleLaunch e rq arguments s
  | QConfigurationDone => handleConfigurationDone e rq s
  | QSetBreakpoints name path reference breakpoints columns =>
      handleSetBreakpoints e rq name path reference breakpoints columns s
  | QResume kind thread => handleResume e rq kind thread s
  | QPause thread => handlePause e rq thread s
  | QThreads => handleThreads e rq s
  | QStackTrace thread startFrame levels => handleStackTrace e rq thread startFrame levels s
  | QScopes frame => handleScopes e rq frame s
  | QVariables reference filter start count => handleVariables e rq reference filter start count s
  | QEvaluate context expression frame => handleEvaluate e rq context expression frame s
  | QTerminate restart => handleTerminate e rq restart s
  | QDisconnect restart suspend => handleDisconnect e rq restart suspend s
  | QUnsupported => sendFailure (e_write e) rq (FText "request is not supported") s
  end.

(** ** The session

    [Run] reads a request and dispatches it, until a handler returns an error, the
    client disconnected, or reading ends; then the teardown runs.  [rn_received]
    are the requests read. *)
Record run := mkRun { rn_server : server; rn_running : bool; rn_received : list Request }.

Inductive action :=
| ARequest (rq : Request) (q : request) (e : env)
| AReadEnd (results : list (option error))          (* EOF, a read error or the end of the context *)
| AEvents (write : Z → option error) (events : list (Event * option string))
| AWatchEnd (write : Z → option error) (errors : list string).

Definition act (a : action) (r : run) : outcome run :=
  let s := rn_server r in
  match a with
  | ARequest rq q e =>
      if rn_running r then
        '(err, s) ← dispatch e rq q s;
        let received := rn_received r ++ [rq] in
        if negb (bool_decide (err = None)) || sv_disconnected s
        then Ret (mkRun (cleanup (e_cleanup e) s).2 false received)
        else Ret (mkRun s true received)
      else Block
  | AReadEnd results =>
      if rn_running r then Ret (mkRun (cleanup results s).2 false (rn_received r)) else Block
  | AEvents write events => Ret (mkRun (watcher_events write events s) (rn_running r) (rn_received r))
  | AWatchEnd write errors => Ret (mkRun (watcher_end write errors s) (rn_running r) (rn_received r))
  end.

Fixpoint Run (actions : list action) (r : run) : outcome run :=
  match actions with
  | [] => Ret r
  | a :: actions => r ← act a r; Run actions r
  end.

Definition started : run := mkRun newServer true [].

(** ** Accounting of replies *)

Definition reply_of (m : Z * outgoing) : option Request :=
  match m.2 with OReply rq _ | OFailure rq _ => Some rq | _ => None end.

(** The requests that were answered, wait for their answer, or were dropped by the
    teardown. *)
Definition account (s : server) : list Request :=
  omap reply_of (sv_out s) ++ option_list (sv_pendingLaunch s) ++ sv_dropped s.

(** Messages are numbered from 1 in the order they are written. *)
Definition numbered (s : server) : Prop :=
  sv_sequence s = int64 (Z.of_nat (length (sv_out s))) ∧
  ∀ i m, sv_out s !! i = Some m → m.1 = int64 (Z.of_nat i + 1).

(** The watcher's own calls. *)
Definition entry (c : call) : bool := match c with CEntryResume _ _ => true | _ => false end.

(** A command of the adapter to the debug manager, as the state permits it; the
    watcher resumes while the entry stop is awaited. *)
Definition command_ok (s : server) (c : call) : Prop :=
  match c with
  | CResume _ debug _ | CPause debug | CFrames debug | CScopes debug _ | CVariables debug _ | CEvaluate debug _ _ =>
      sv_launched s = true ∧ sv_configured s = true ∧ debug = os_debug (sv_owned s)
  | CReplaceBreakpoints debug _ _ | CTerminate debug => sv_launched s = true ∧ debug = os_debug (sv_owned s)
  | CEntryResume _ _ => (0 < stop_budget (sv_events s))%nat
  | _ => False
  end.

Record same_core (s s' : server) : Prop := {
  sc_owned : sv_owned s' = sv_owned s;
  sc_launched : sv_launched s' = sv_launched s;
  sc_configured : sv_configured s' = sv_configured s;
  sc_disconnected : sv_disconnected s' = sv_disconnected s;
  sc_cleanup : sv_cleanup s' = sv_cleanup s;
  sc_watch : sv_watch s' = sv_watch s
}.

(** From [s] to [s'] the requests [xs] were answered, or lost to a failed write,
    and only permitted commands were issued. *)
Definition serves (ok : Prop) (xs : list Request) (s s' : server) : Prop :=
  (∃ lost, account s' ++ lost ≡ₚ account s ++ xs ∧ (ok → lost = [])) ∧
  (ok → numbered s → numbered s') ∧ same_core s s' ∧
  (∃ new, sv_calls s' = sv_calls s ++ new ∧ Forall (command_ok s) new ∧
     (count entry new + stop_budget (sv_events s') ≤ stop_budget (sv_events s))%nat) ∧
  (sv_pendingLaunch s' = None ∨ sv_pendingLaunch s' = sv_pendingLaunch s).

Lemma same_core_trans s1 s2 s3 : same_core s1 s2 → same_core s2 s3 → same_core s1 s3.
Proof. intros [] []. split; congruence. Qed.

Lemma command_ok_core s s' c : same_core s s' → (stop_budget (sv_events s') ≤ stop_budget (sv_events s))%nat → command_ok s' c → command_ok s c.
Proof. intros [E1 E2 E3 _ _ _] Hb. destruct c; simpl; rewrite ?E1, ?E2, ?E3; try done. lia. Qed.

Lemma serves_trans ok xs ys s1 s2 s3 : serves ok xs s1 s2 → serves ok ys s2 s3 → serves ok (xs ++ ys) s1 s3.
Proof.
  intros ((l1 & A1 & L1) & N1 & C1 & (n1 & K1 & F1 & B1) & P1) ((l2 & A2 & L2) & N2 & C2 & (n2 & K2 & F2 & B2) & P2).
  split_and!; [|auto|by eapply same_core_trans| |intuition congruence].
  - exists (l2 ++ l1). split; [|intros Hok; by rewrite L1, L2]. rewrite app_assoc, A2, <- (app_assoc _ ys l1), (Permutation_app_comm ys l1), app_assoc, A1.
    by rewrite app_assoc.
  - exists (n1 ++ n2). split_and!; [by rewrite K2, K1, app_assoc| |rewrite count_app; lia]. apply Forall_app. split; [done|].
    eapply Forall_impl; [done|]. intros c. apply command_ok_core; [done|lia].
Qed.

Lemma no_calls s s' : sv_calls s' = sv_calls s → (stop_budget (sv_events s') ≤ stop_budget (sv_events s))%nat →
  ∃ new, sv_calls s' = sv_calls s ++ new ∧ Forall (command_ok s) new ∧
    (count entry new + stop_budget (sv_events s') ≤ stop_budget (sv_events s))%nat.
Proof. intros -> Hb. exists []. split_and!; [by rewrite app_nil_r|constructor|done]. Qed.

(** Updates that leave replies, calls and the core alone. *)
Lemma serves_same ok s s' : account s' = account s → sv_out s' = sv_out s → sv_sequence s' = sv_sequence s →
  same_core s s' → sv_calls s' = sv_calls s → sv_pendingLaunch s' = sv_pendingLaunch s →
  (stop_budget (sv_events s') ≤ stop_budget (sv_events s))%nat → serves ok [] s s'.
Proof.
  intros Ha Ho Hq Hc Hk Hp Hb. split_and!; [|by unfold numbered; rewrite Ho, Hq|done| |by right].
  - exists []. by rewrite Ha.
  - by apply no_calls.
Qed.

Lemma serves_refl ok s : serves ok [] s s.
Proof. by apply serves_same. Qed.

Lemma serves_events ok x s : (stop_budget x ≤ stop_budget (sv_events s))%nat → serves ok [] s (set_events x s).
Proof. intros Hb. by apply serves_same. Qed.

Lemma serves_handles ok t s : serves ok [] s (set_handles t s).
Proof. by apply serves_same. Qed.

Lemma serves_log ok c s : command_ok s c → entry c = false → serves ok [] s (log c s).
Proof.
  intros Hc He. split_and!; [by exists []|done|done| |by right]. exists [c]. split_and!; [done|by apply Forall_singleton|]. simpl. by rewrite He.
Qed.

Lemma count_entries (l : list (string * option string)) : count entry (map (λ c, CEntryResume c.1 c.2) l) = length l.
Proof. induction l as [|x l IH]; [done|]. simpl. by rewrite IH. Qed.

(** The calls of the watcher are logged. *)
Lemma serves_resumed ok s : let x := sv_events s in
  serves ok [] s (logs (map (λ c, CEntryResume c.1 c.2) (sv_resumed x))
    (set_events (DapEvents.mkServer (sv_initialStop x) (sv_breakpoints x) (sv_handles x) (sv_stopOnEntry x) [] []) s)).
Proof.
  intros x. split_and!; [by exists []|done|done| |by right]. eexists. split; [done|]. split.
  - apply Forall_map. apply Forall_forall. intros c Hc. simpl. unfold stop_budget. fold x.
    destruct (sv_resumed x) as [|y l]; [by apply elem_of_nil in Hc|]. simpl. destruct (sv_initialStop x); lia.
  - rewrite count_entries. unfold stop_budget. simpl. fold x. destruct (sv_initialStop x); lia.
Qed.

Lemma int64_step n : int64 (int64 n + 1) = int64 (n + 1).
Proof.
  unfold int64. replace ((n + 2 ^ 63) mod 2 ^ 64 - 2 ^ 63 + 1 + 2 ^ 63) with ((n + 2 ^ 63) mod 2 ^ 64 + 1) by lia.
  rewrite Zplus_mod_idemp_l. do 2 f_equal. lia.
Qed.

Lemma numbered_send s q out m : numbered s → q = int64 (sv_sequence s + 1) → out = sv_out s ++ [(q, m)] →
  numbered (set_out q out s).
Proof.
  intros [Hq Hn] -> ->. unfold numbered. simpl. rewrite length_app, Hq, int64_step. simpl.
  split; [f_equal; lia|]. intros i [q m1] Hi. apply lookup_app_Some in Hi as [Hi|[Hlen Hi]]; [by apply Hn|].
  apply list_lookup_singleton_Some in Hi as [Hi [= <- <-]]. simpl. f_equal. lia.
Qed.

(** A message that answers no request. *)
Lemma serves_send_event (write : Z → option error) m s : (∀ q, reply_of (q, m) = None) →
  serves (∀ q, write q = None) [] s (send write m s).2.
Proof.
  intros Hm. unfold send. destruct (write _) as [err|] eqn:Hw; simpl.
  - split_and!; [by exists []|intros Hok; congruence|done|by apply no_calls|by right].
  - split_and!; [|intros _ Hn; by eapply numbered_send|done|by apply no_calls|by right].
    exists []. split; [|done]. unfold account. simpl. rewrite omap_app. simpl. by rewrite Hm, !app_nil_r.
Qed.

(** A reply answers its request, if it is written. *)
Lemma serves_send (write : Z → option error) m rq s : (∀ q, reply_of (q, m) = Some rq) →
  serves (∀ q, write q = None) [rq] s (send write m s).2.
Proof.
  intros Hm. unfold send. destruct (write _) as [err|] eqn:Hw; simpl.
  - split_and!; [|intros Hok; congruence|done|by apply no_calls|by right].
    exists [rq]. split; [done|]. intros Hok. congruence.
  - split_and!; [|intros _ Hn; by eapply numbered_send|done|by apply no_calls|by right].
    exists []. split; [|done]. unfold account. simpl. rewrite omap_app. simpl. rewrite Hm, app_nil_r.
    rewrite <- !app_assoc. apply Permutation_app_head. rewrite (app_assoc (option_list _)). apply (Permutation_app_comm [rq]).
Qed.

(** A launch request leaves [pendingLaunch] only with its answer. *)
Lemma serves_take (write : Z → option error) m rq s : sv_pendingLaunch s = Some rq → (∀ q, reply_of (q, m) = Some rq) →
  serves (∀ q, write q = None) [] s (send write m (set_pending None s)).2.
Proof.
  intros Hp Hm. destruct (serves_send write m rq (set_pending None s) Hm) as ((lost & Ha & Hl) & Hn & Hc & Hk & _).
  split_and!; [|exact Hn|by destruct Hc|exact Hk|left; unfold send; by destruct (write _)].
  exists lost. split; [|done]. rewrite app_nil_r, Ha. unfold account. simpl. rewrite Hp. simpl.
  rewrite <- app_assoc. apply Permutation_app_head. by rewrite Permutation_app_comm.
Qed.

Lemma serves_send_events (write : Z → option error) ms : ∀ s, serves (∀ q, write q = None) [] s (send_events write ms s).
Proof.
  induction ms as [|m ms IH]; intros s; [apply serves_refl|]. simpl.
  eapply (serves_trans _ [] []); [|apply IH]. by apply serves_send_event.
Qed.

Lemma serves_watcher (write : Z → option error) events s : serves (∀ q, write q = None) [] s (watcher_events write events s).
Proof.
  unfold watcher_events, flush. destruct (sv_watching s); [|apply serves_refl].
  eapply (serves_trans _ [] []); [apply serves_events, handle_events_budget|]. eapply (serves_trans _ [] []); [apply serves_resumed|]. apply serves_send_events.
Qed.

Lemma serves_watcher_end (write : Z → option error) errors s : serves (∀ q, write q = None) [] s (watcher_end write errors s).
Proof.
  unfold watcher_end, flush. destruct (sv_watching s); [|apply serves_refl].
  eapply (serves_trans _ [] []); [apply serves_events, watchDebugSession_budget|]. eapply (serves_trans _ [] []); [apply serves_resumed|].
  eapply (serves_trans _ [] []); [apply serves_send_events|]. by apply serves_same.
Qed.

(** Whether the writes of a request succeed. *)
Definition writes (e : env) : Prop := ∀ q, e_write e q = None.

Lemma serves_gap e k s : serves (writes e) [] s (gap e k s).
Proof. apply serves_watcher. Qed.

(** ** Handlers that serve their request and keep the session *)

(** [serves], for what a handler returns. *)
Definition handled (e : env) (rq : Request) (s : server) (o : outcome (option error * server)) : Prop :=
  ∀ err s', o = Ret (err, s') → serves (writes e) [rq] s s'.

Lemma handled_after e rq s s1 o : serves (writes e) [] s s1 → handled e rq s1 o → handled e rq s o.
Proof. intros H1 Ho err s' Heq. apply (serves_trans _ [] [rq] _ s1); [done|]. by eapply Ho. Qed.

Lemma handled_failure e rq reason s : handled e rq s (sendFailure (e_write e) rq reason s).
Proof. intros err s' [= Hx]. rewrite <- (f_equal snd Hx : (send _ _ _).2 = s'). by apply serves_send. Qed.

Lemma handled_response e rq b s : handled e rq s (sendResponse (e_write e) rq b s).
Proof. intros err s' [= Hx]. rewrite <- (f_equal snd Hx : (send _ _ _).2 = s'). by apply serves_send. Qed.

Lemma handled_panic e rq s m : handled e rq s (Panic m).
Proof. by intros err s'. Qed.

Create HintDb dap.

Hint Resolve handled_failure handled_response handled_panic serves_events serves_handles serves_refl serves_gap : dap.

Lemma configured_command s debug : configuredDebug true s = Some debug →
  sv_launched s = true ∧ sv_configured s = true ∧ debug = os_debug (sv_owned s).
Proof.
  unfold configuredDebug. destruct (sv_launched s), (sv_configured s), (sv_disconnected s); simpl; try done. by intros [= <-].
Qed.

Lemma launched_command s debug : configuredDebug false s = Some debug →
  sv_launched s = true ∧ debug = os_debug (sv_owned s).
Proof. unfold configuredDebug. destruct (sv_launched s), (sv_disconnected s); simpl; try done. by intros [= <-]. Qed.

Lemma handled_log e rq c s o : command_ok s c → entry c = false → handled e rq (log c s) o → handled e rq s o.
Proof. intros Hc He. apply handled_after. by apply serves_log. Qed.

Lemma handled_initialize e rq arguments s : handled e rq s (handleInitialize e rq arguments s).
Proof.
  unfold handleInitialize. destruct (client_normalized arguments) as [options|]; [|auto with dap].
  destruct (sv_initialized s); [auto with dap|]. eapply handled_after; [|apply handled_response]. by apply serves_same.
Qed.

Lemma handled_resume e rq kind thread s : handled e rq s (handleResume e rq kind thread s).
Proof.
  unfold handleResume. destruct (configuredDebug true s) as [debug|] eqn:Hd; [|auto with dap].
  apply configured_command in Hd. destruct (negb _); [auto with dap|]. apply handled_log with (CResume kind debug (e_resume e)); [done|done|].
  destruct (e_resume e) as [err|]; [auto with dap|].
  eapply handled_after; [|apply handled_response]. by apply serves_same.
Qed.

Lemma handled_pause e rq thread s : handled e rq s (handlePause e rq thread s).
Proof.
  unfold handlePause. destruct (configuredDebug true s) as [debug|] eqn:Hd; [|auto with dap].
  apply configured_command in Hd. destruct (negb _); [auto with dap|]. apply handled_log with (CPause debug); [done|done|].
  destruct (e_pause e); auto with dap.
Qed.

Lemma handled_threads e rq s : handled e rq s (handleThreads e rq s).
Proof. unfold handleThreads. destruct (configuredDebug false s); auto with dap. Qed.

Lemma handled_unverified e rq name source breakpoints columns path message s :
  handled e rq s (sendUnverifiedBreakpoints e rq name source breakpoints columns path message s).
Proof. unfold sendUnverifiedBreakpoints. destruct (unverified_loop _ _ _ _ _ _); auto with dap. Qed.

Lemma handled_replace e rq debug c requests name path s : sv_launched s = true → debug = os_debug (sv_owned s) →
  handled e rq s (replaceBreakpoints e rq debug c requests name path s).
Proof.
  intros Hl Hd. unfold replaceBreakpoints. apply handled_log with (CReplaceBreakpoints debug (os_program (sv_owned s)) requests); [done|done|].
  destruct (e_replace e) as [breakpoints|err]; [|auto with dap].
  destruct (replace _ _ _ _) as [ids|m|]; [|by apply handled_panic|by intros ? ?]. cbn.
  match goal with |- handled _ _ ?s0 (match _ with inl _ => sendResponse _ _ _ ?s1 | inr _ => _ end) =>
    apply handled_after with s1 end.
  - destruct (sv_initialStop _) eqn:Hst; apply serves_same; try done; unfold stop_budget; simpl in *; rewrite Hst; simpl; lia.
  - destruct (results_loop _ _ _ _ _); auto with dap.
Qed.

Lemma handled_set_breakpoints e rq name path reference breakpoints columns s :
  handled e rq s (handleSetBreakpoints e rq name path reference breakpoints columns s).
Proof.
  unfold handleSetBreakpoints. destruct (configuredDebug false s) as [debug|] eqn:Hd; [|auto with dap].
  apply launched_command in Hd as [Hl Hd]. destruct (negb _); [auto with dap|].
  destruct (sourcePath e path s) as [source|]; [|auto with dap].
  destruct (newSourceIdentity _ _ _ _ _) as [identity [err|]]; [apply handled_unverified|].
  destruct (negb _); [apply handled_unverified|]. destruct (os_coordinates _) as [c|]; [|auto with dap].
  destruct (requests_loop _ _ _ _) as [requests|]; [|auto with dap]. destruct (clientPath _ _ _) as [client|]; [|auto with dap].
  by apply handled_replace.
Qed.

Lemma serves_frames e c frames : ∀ index k s, serves (writes e) [] s (frames_loop e c index k frames s).2.
Proof.
  induction frames as [|f frames IH]; intros index k s; cbn [frames_loop]; [apply serves_refl|].
  destruct (clientPath _ _ _); [|apply serves_refl]. destruct (toClient _ _) as [position|]; [|apply serves_refl].
  destruct (cp_column position) as [col|]; [|apply serves_refl]. destruct (Frame _ _) as [frameID t].
  pose proof (IH (index + 1) (S k) (set_handles t (gap e k s))) as Hrest.
  destruct (frames_loop e c (index + 1) (S k) frames _) as [rest s1]. simpl in *.
  eapply (serves_trans _ [] []); [apply serves_gap|]. eapply (serves_trans _ [] []); [|done]. apply serves_handles.
Qed.

Lemma handled_stack_trace e rq thread startFrame levels s :
  handled e rq s (handleStackTrace e rq thread startFrame levels s).
Proof.
  unfold handleStackTrace. destruct (configuredDebug true s) as [debug|] eqn:Hd; [|auto with dap].
  apply configured_command in Hd. destruct (negb _); [auto with dap|]. apply handled_log with (CFrames debug); [done|done|].
  destruct (e_frames e) as [frames|]; [|auto with dap]. destruct (_ || _); [auto with dap|]. destruct (_ <? _); [auto with dap|].
  destruct (os_coordinates _) as [c|]; [|auto with dap].
  match goal with |- context [frames_loop e c ?i ?k ?fs ?x] => pose proof (serves_frames e c fs i k x) as Hf;
    destruct (frames_loop e c i k fs x) as [[result|reason] s1] end; simpl in Hf;
    (eapply handled_after; [exact Hf|]); auto with dap.
Qed.

Lemma serves_scopes e scopes : ∀ k s, serves (writes e) [] s (scopes_loop e k scopes s).2.
Proof.
  induction scopes as [|x scopes IH]; intros k s; cbn [scopes_loop]; [apply serves_refl|].
  destruct (Scope _ _) as [handle t]. pose proof (IH (S k) (set_handles t (gap e k s))) as Hrest.
  destruct (scopes_loop e (S k) scopes _) as [rest s1]. simpl in *.
  eapply (serves_trans _ [] []); [apply serves_gap|]. eapply (serves_trans _ [] []); [|done]. apply serves_handles.
Qed.

Lemma command_gap e k s c : entry c = false → command_ok s c → command_ok (gap e k s) c.
Proof.
  intros He. destruct (serves_gap e k s) as (_ & _ & [E1 E2 E3 _ _ _] & _). destruct c; simpl; rewrite ?E1, ?E2, ?E3; done.
Qed.

Lemma handled_scopes e rq frameId s : handled e rq s (handleScopes e rq frameId s).
Proof.
  unfold handleScopes. destruct (configuredDebug true s) as [debug|] eqn:Hd; [|auto with dap].
  apply configured_command in Hd. eapply handled_after; [apply (serves_gap e 0)|].
  destruct (FrameIndex _ _) as [frame []]; [auto with dap| |auto with dap].
  apply handled_log with (CScopes debug frame); [by apply command_gap|done|].
  destruct (e_scopes e) as [scopes|]; [|auto with dap].
  match goal with |- context [scopes_loop e 1 scopes ?x] => pose proof (serves_scopes e scopes 1 x) as Hf;
    destruct (scopes_loop e 1 scopes x) as [result s1] end.
  eapply handled_after; [exact Hf|]. auto with dap.
Qed.

Lemma serves_variables e variables : ∀ k s, serves (writes e) [] s (variables_loop e k variables s).2.
Proof.
  induction variables as [|v variables IH]; intros k s; cbn [variables_loop]; [apply serves_refl|].
  unfold protocolVariable. destruct (handleTable_Variable _ _) as [handle t].
  pose proof (IH (S k) (set_handles t (gap e k s))) as Hrest. destruct (variables_loop e (S k) variables _) as [rest s1]. simpl in *.
  eapply (serves_trans _ [] []); [apply serves_gap|]. eapply (serves_trans _ [] []); [|done]. apply serves_handles.
Qed.

Lemma handled_variables e rq reference filter start count s :
  handled e rq s (handleVariables e rq reference filter start count s).
Proof.
  unfold handleVariables. destruct (configuredDebug true s) as [debug|] eqn:Hd; [|auto with dap].
  apply configured_command in Hd. destruct (_ || _); [auto with dap|].
  assert (∀ variables s0, handled e rq s0 (let '(result, s) := variables_loop e 2 variables s0 in
    sendResponse (e_write e) rq (BVariables result) s)) as Hreply.
  { intros variables s0. pose proof (serves_variables e variables 2 s0) as Hf.
    destruct (variables_loop e 2 variables s0) as [result s1]. eapply handled_after; [exact Hf|]. auto with dap. }
  eapply handled_after; [apply (serves_gap e 0)|].
  destruct (ScopeVariables _ _) as [variables []]; [|apply Hreply..].
  eapply handled_after; [apply (serves_gap e 1)|].
  destruct (VariableReference _ _) as [ref []]; [auto with dap| |apply Hreply].
  apply handled_log with (CVariables debug ref); [by do 2 (apply command_gap; [done|])|done|].
  destruct (e_variables e); [apply Hreply|auto with dap].
Qed.

Lemma handled_evaluate e rq context expression frameId s :
  handled e rq s (handleEvaluate e rq context expression frameId s).
Proof.
  unfold handleEvaluate. destruct (configuredDebug true s) as [debug|] eqn:Hd; [|auto with dap].
  apply configured_command in Hd. case_bool_decide; [auto with dap|].
  assert (∀ frame s0, command_ok s0 (CEvaluate debug frame expression) → handled e rq s0 (evaluate e rq debug expression frame s0)) as He.
  { intros frame s0 Hc. unfold evaluate. apply handled_log with (CEvaluate debug frame expression); [done|done|].
    destruct (e_evaluate e) as [value|]; [|auto with dap]. eapply handled_after; [apply (serves_gap e 1)|].
    destruct (handleTable_Variable _ _) as [handle t]. eapply handled_after; [|apply handled_response]. apply serves_handles. }
  destruct (frameId =? 0); [by apply He|]. eapply handled_after; [apply (serves_gap e 0)|].
  destruct (FrameIndex _ _) as [frame []]; [auto with dap|by apply He, command_gap|].
  destruct (_ || _); auto with dap.
Qed.

(** ** Ending the session *)

(** The replies of [serves], for handlers that change the session. *)
Definition accounts (ok : Prop) (xs : list Request) (s s' : server) : Prop :=
  (∃ lost, account s' ++ lost ≡ₚ account s ++ xs ∧ (ok → lost = [])) ∧ (ok → numbered s → numbered s').

Lemma serves_accounts ok xs s s' : serves ok xs s s' → accounts ok xs s s'.
Proof. by intros (? & ? & _). Qed.

Lemma accounts_trans ok xs ys s1 s2 s3 : accounts ok xs s1 s2 → accounts ok ys s2 s3 → accounts ok (xs ++ ys) s1 s3.
Proof.
  intros ((l1 & A1 & L1) & N1) ((l2 & A2 & L2) & N2). split; [|auto].
  exists (l2 ++ l1). split; [|intros Hok; by rewrite L1, L2].
  rewrite app_assoc, A2, <- (app_assoc _ ys l1), (Permutation_app_comm ys l1), app_assoc, A1. by rewrite app_assoc.
Qed.

Lemma accounts_same ok s s' : account s' ≡ₚ account s → sv_out s' = sv_out s → sv_sequence s' = sv_sequence s →
  accounts ok [] s s'.
Proof. intros Ha Ho Hq. split; [exists []; by rewrite !app_nil_r|]. unfold numbered. by rewrite Ho, Hq. Qed.

Lemma send_failed (write : Z → option error) m s err s' : send write m s = (Some err, s') → ¬ (∀ q, write q = None).
Proof. unfold send. destruct (write _) as [x|] eqn:Hw; [|done]. intros _ Hok. congruence. Qed.

(** A request whose handler stopped at a failed write. *)
Lemma serves_lost (ok : Prop) rq s s' : ¬ ok → serves ok [] s s' → serves ok [rq] s s'.
Proof.
  intros Hno ((lost & Ha & _) & _ & Hc & Hk & Hp). split_and!; try done.
  exists (lost ++ [rq]). split; [|done]. by rewrite app_assoc, Ha, app_nil_r.
Qed.

Lemma serves_fail_pending (write : Z → option error) reason s :
  serves (∀ q, write q = None) [] s (failPendingLaunch write reason s).2.
Proof.
  unfold failPendingLaunch, takePendingLaunch. destruct (sv_pendingLaunch s) as [rq|] eqn:Hp; [by apply (serves_take _ _ rq)|].
  simpl. apply serves_same; try done. unfold account. simpl. by rewrite Hp.
Qed.

Lemma serves_resolve_pending (write : Z → option error) s :
  serves (∀ q, write q = None) [] s (resolvePendingLaunch write s).2.
Proof.
  unfold resolvePendingLaunch, takePendingLaunch. destruct (sv_pendingLaunch s) as [rq|] eqn:Hp; [by apply (serves_take _ _ rq)|].
  simpl. apply serves_same; try done. unfold account. simpl. by rewrite Hp.
Qed.

Lemma fail_pending_failed (write : Z → option error) reason s err s' :
  failPendingLaunch write reason s = (Some err, s') → ¬ (∀ q, write q = None).
Proof. unfold failPendingLaunch, takePendingLaunch. destruct (sv_pendingLaunch s); [apply send_failed|done]. Qed.

Lemma handled_terminate e rq restart s : handled e rq s (handleTerminate e rq restart s).
Proof.
  unfold handleTerminate. destruct (configuredDebug false s) as [debug|] eqn:Hd; [|auto with dap].
  apply launched_command in Hd as [Hl Hd]. destruct restart; [auto with dap|].
  pose proof (serves_fail_pending (e_write e) (FText "launch terminated before configurationDone") s) as Hf.
  destruct (failPendingLaunch _ _ s) as [[err|] s1] eqn:Hfp; simpl in Hf.
  - intros err' s' [= <- <-]. apply serves_lost; [|done]. by eapply fail_pending_failed.
  - eapply handled_after; [exact Hf|]. destruct Hf as (_ & _ & [E1 E2 _ _ _ _] & _).
    apply handled_log with (CTerminate debug); [simpl; split; congruence|done|].
    destruct (e_terminate e); [auto with dap|]. eapply handled_after; [|apply handled_response]. by apply serves_same.
Qed.

(** ** The calls *)

Definition inspects (c : call) : option string :=
  match c with
  | CResume _ debug _ | CPause debug | CFrames debug | CScopes debug _ | CVariables debug _ | CEvaluate debug _ _ => Some debug
  | _ => None
  end.

(** Calls on a debug session that exists. *)
Definition concerns (c : call) : option string :=
  match c with
  | CWatch debug _ | CStart debug _ | CReplaceBreakpoints debug _ _ | CTerminate debug => Some debug
  | _ => inspects c
  end.

Definition created (calls : list call) (debug : string) : Prop :=
  ∃ session parameters options, CCreateDebug session parameters options (inl debug) ∈ calls.

(** What must have happened before a call: nothing is called once the runtime is
    closed, a debug session is addressed once it was created, it is resumed and
    inspected once it was started, and it is started once.  The watcher resumes once,
    when a debug session was created; the session does not wait for it, so this call
    may come when the runtime is closed. *)
Record allowed (before : list call) (c : call) : Prop := {
  al_open : entry c = false → CRuntimeClose ∉ before;
  al_entry : entry c = true → (∃ debug, created before debug) ∧ count entry before = 0%nat;
  al_created : ∀ debug, concerns c = Some debug → created before debug;
  al_started : ∀ debug, inspects c = Some debug → CStart debug None ∈ before;
  al_once : ∀ debug, c = CStart debug None → ∀ d, CStart d None ∉ before
}.

Definition gated (calls : list call) : Prop := ∀ before c after, calls = before ++ c :: after → allowed before c.

Lemma gated_snoc l c : gated l → allowed l c → gated (l ++ [c]).
Proof.
  intros Hg Hc before x after Heq. destruct after as [|y after' _] using rev_ind.
  - by apply app_inj_tail in Heq as [-> ->].
  - rewrite app_comm_cons, app_assoc in Heq. apply app_inj_tail in Heq as [-> ->]. by eapply Hg.
Qed.

Inductive resource := KWorkspace | KSession | KDebug.

Definition opened (k : resource) (c : call) : option string :=
  match k, c with
  | KWorkspace, COpen _ (inl x) => Some x
  | KSession, CCreateSession _ _ (inl (x, _)) => Some x
  | KDebug, CCreateDebug _ _ _ (inl x) => Some x
  | _, _ => None
  end.

Definition closed (k : resource) (c : call) : option string :=
  match k, c with
  | KWorkspace, CCloseWorkspace x => Some x
  | KSession, CCloseSession x => Some x
  | KDebug, CCloseDebug x => Some x
  | _, _ => None
  end.

(** The resource of each kind the session owns. *)
Definition owned_of (k : resource) (o : ownedSession) : string :=
  match k with KWorkspace => os_workspace o | KSession => os_session o | KDebug => os_debug o end.
Definition owns (k : resource) (s : server) : list string := if sv_launched s then [owned_of k (sv_owned s)] else [].

(** A session that has not been torn down. *)
Record open_session (s : server) : Prop := {
  op_cleanup : sv_cleanup s = None;
  op_pending : sv_launched s = false → sv_pendingLaunch s = None;
  op_owned : ∀ k, if sv_launched s then (owned_of k (sv_owned s) ≠ "") else (owned_of k (sv_owned s) = "");
  op_created : sv_launched s = true → created (sv_calls s) (os_debug (sv_owned s));
  op_configured : sv_configured s = true → sv_launched s = true ∧ CStart (os_debug (sv_owned s)) None ∈ sv_calls s;
  op_unconfigured : sv_configured s = false → ∀ d, CStart d None ∉ sv_calls s;
  op_gated : gated (sv_calls s);
  op_runtime : CRuntimeClose ∉ sv_calls s;
  op_resources : ∀ k, omap (closed k) (sv_calls s) ++ owns k s ≡ₚ omap (opened k) (sv_calls s);
  op_coordinates : sv_launched s = true → is_Some (os_coordinates (sv_owned s));
  op_once : (count entry (sv_calls s) + stop_budget (sv_events s) ≤ if sv_launched s then 1 else 0)%nat
}.

(** A session after its teardown. *)
Record torn_down (s : server) : Prop := {
  td_cleanup : is_Some (sv_cleanup s);
  td_pending : sv_pendingLaunch s = None;
  td_gated : gated (sv_calls s);
  td_last : last (filter (λ c, entry c = false) (sv_calls s)) = Some CRuntimeClose;
  td_once : (count entry (sv_calls s) + stop_budget (sv_events s) ≤ 1)%nat;
  td_created : (0 < stop_budget (sv_events s))%nat → ∃ debug, created (sv_calls s) debug;
  td_resources : ∀ k, omap (closed k) (sv_calls s) ≡ₚ omap (opened k) (sv_calls s)
}.

Lemma command_allowed s c l : open_session s → sv_calls s ⊆ l → CRuntimeClose ∉ l → command_ok s c →
  (entry c = true → count entry l = 0%nat) → allowed l c.
Proof.
  intros Hs Hsub Hr Hc Hone.
  assert (sv_launched s = true → created l (os_debug (sv_owned s))) as Hcr.
  { intros Hl. destruct (op_created _ Hs Hl) as (a & b & d & Hin). exists a, b, d. by apply Hsub. }
  assert (sv_configured s = true → CStart (os_debug (sv_owned s)) None ∈ l) as Hst.
  { intros Hl. by apply Hsub, (op_configured _ Hs). }
  split; [done|..].
  - intros He. split; [|auto]. destruct c; try done. simpl in Hc. pose proof (op_once _ Hs) as Ho.
    destruct (sv_launched s); [eauto|lia].
  - destruct c; simpl in *; try done; intros ? [= <-]; destruct_and? Hc; subst; auto.
  - destruct c; simpl in *; try done; intros ? [= <-]; destruct_and? Hc; subst; auto.
  - destruct c; simpl in *; done.
Qed.

Lemma command_neutral s c : command_ok s c → c ≠ CRuntimeClose ∧ (∀ d, c ≠ CStart d None) ∧
  ∀ k, opened k c = None ∧ closed k c = None.
Proof. destruct c; simpl; try done; intros _; (split_and!; [done|done|]); by intros []. Qed.

Lemma open_commands s new : open_session s → Forall (command_ok s) new → (count entry new ≤ stop_budget (sv_events s))%nat →
  gated (sv_calls s ++ new) ∧ (CRuntimeClose ∉ sv_calls s ++ new) ∧
  (sv_configured s = false → ∀ d, (CStart d None ∉ sv_calls s ++ new)) ∧
  ∀ k, omap (opened k) (sv_calls s ++ new) = omap (opened k) (sv_calls s) ∧
       omap (closed k) (sv_calls s ++ new) = omap (closed k) (sv_calls s).
Proof.
  intros Hs. induction new as [|c new IH] using rev_ind; intros Hf Hb.
  - rewrite app_nil_r. split_and!; try apply Hs. done.
  - apply Forall_app in Hf as [Hf Hc]. rewrite Forall_singleton in Hc. rewrite count_app in Hb. destruct (IH Hf) as (Hg & Hr & Hn & Hk); [lia|].
    destruct (command_neutral s c Hc) as (Hc1 & Hc2 & Hc3). rewrite app_assoc. split_and!.
    + apply gated_snoc; [done|]. eapply command_allowed; [done| |done|done|]; [by apply list_subseteq_app_l|].
      intros He. pose proof (op_once _ Hs). simpl in Hb. rewrite He in Hb. rewrite count_app. destruct (sv_launched s); lia.
    + intros [?|Hx%list_elem_of_singleton]%elem_of_app; [done|congruence].
    + intros Hcf d [Hx|Hx%list_elem_of_singleton]%elem_of_app; [by eapply Hn|by apply (Hc2 d)].
    + intros k. destruct (Hc3 k) as [Ho Hcl]. rewrite !(omap_app _ _ [c]). simpl. rewrite Ho, Hcl, !app_nil_r. apply Hk.
Qed.

Lemma open_serves ok xs s s' : open_session s → serves ok xs s s' → open_session s'.
Proof.
  intros Hs (_ & _ & [E1 E2 E3 E4 E5 E6] & (new & Hk & Hf & Hb) & Hp).
  destruct (open_commands s new Hs Hf) as (Hg & Hr & Hn & Hkk); [lia|]. rewrite <- Hk in *. split.
  - rewrite E5. apply Hs.
  - rewrite E2. intros Hl. destruct Hp as [?| ->]; [done|by apply (op_pending _ Hs)].
  - intros k. rewrite E2, E1. apply (op_owned _ Hs k).
  - rewrite E2, E1. intros Hl. destruct (op_created _ Hs Hl) as (a & b & d & Hin). exists a, b, d. rewrite Hk. apply elem_of_app. by left.
  - rewrite E3, E2, E1. intros Hl. destruct (op_configured _ Hs Hl). split; [done|]. rewrite Hk. apply elem_of_app. by left.
  - rewrite E3. done.
  - done.
  - done.
  - intros k. destruct (Hkk k) as [-> ->]. unfold owns. rewrite E1, E2. apply (op_resources _ Hs k).
  - rewrite E1, E2. apply Hs.
  - rewrite E2, Hk, count_app. pose proof (op_once _ Hs). lia.
Qed.

(** *** The teardown *)

Lemma gated_more l cs : gated l → CRuntimeClose ∉ l →
  Forall (λ c, c ≠ CRuntimeClose ∧ ∀ l', l ⊆ l' → CRuntimeClose ∉ l' → allowed l' c) cs →
  gated (l ++ cs) ∧ (CRuntimeClose ∉ l ++ cs).
Proof.
  intros Hg Hr. induction cs as [|c cs IH] using rev_ind; intros Hf; [by rewrite app_nil_r|].
  apply Forall_app in Hf as [Hf Hc]. rewrite Forall_singleton in Hc. destruct Hc as [Hne Hc], (IH Hf) as [Hg' Hr'].
  rewrite app_assoc. split.
  - apply gated_snoc; [done|]. apply Hc; [|done]. by apply list_subseteq_app_l.
  - intros [?|Hx%list_elem_of_singleton]%elem_of_app; congruence.
Qed.

(** Calls that need nothing but the runtime. *)
Lemma allowed_plain l c : concerns c = None → entry c = false → CRuntimeClose ∉ l → allowed l c.
Proof. intros Hc He Hl. split; [done|..]; destruct c; simpl in *; done. Qed.

Lemma cleanup_state results s : sv_cleanup s = None →
  let s' := (cleanup results s).2 in
  sv_calls s' = sv_calls s ++ teardown s ++ [CRuntimeClose] ∧ sv_cleanup s' = Some (errors_Join results) ∧
  sv_pendingLaunch s' = None ∧ sv_out s' = sv_out s ∧ sv_sequence s' = sv_sequence s ∧
  sv_dropped s' = sv_dropped s ++ option_list (sv_pendingLaunch s) ∧ sv_disconnected s' = sv_disconnected s.
Proof.
  intros Hc. unfold cleanup. by rewrite Hc.
Qed.

Lemma teardown_resources s k : open_session s →
  omap (closed k) (teardown s) = owns k s ∧ omap (opened k) (teardown s) = [].
Proof.
  intros Hs. pose proof (λ k, op_owned _ Hs k) as Ho. unfold teardown, owns.
  pose proof (Ho KWorkspace) as H1. pose proof (Ho KSession) as H2. pose proof (Ho KDebug) as H3. simpl in H1, H2, H3.
  destruct (sv_launched s); rewrite ?bool_decide_eq_false_2, ?bool_decide_eq_true_2 by done;
    destruct (sv_watch s), k; done.
Qed.

Lemma teardown_allowed s : open_session s →
  Forall (λ c, c ≠ CRuntimeClose ∧ ∀ l', sv_calls s ⊆ l' → CRuntimeClose ∉ l' → allowed l' c) (teardown s).
Proof.
  intros Hs. unfold teardown.
  assert (∀ c, concerns c = None → entry c = false → c ≠ CRuntimeClose →
    c ≠ CRuntimeClose ∧ ∀ l', sv_calls s ⊆ l' → CRuntimeClose ∉ l' → allowed l' c) as Hp.
  { intros c Hc He Hne. split; [done|]. intros l' _. by apply allowed_plain. }
  repeat apply Forall_app_2.
  - destruct (sv_watch s); repeat (constructor; [by apply Hp|]); constructor.
  - case_bool_decide as Hd; [constructor|]. constructor; [|constructor; [by apply Hp|constructor]].
    split; [done|]. intros l' Hsub Hr. eapply command_allowed; [done|done|done| |done]. split; [|done].
    pose proof (op_owned _ Hs KDebug) as Ho. simpl in Ho. by destruct (sv_launched s).
  - case_bool_decide; repeat (constructor; [by apply Hp|]); constructor.
  - case_bool_decide; repeat (constructor; [by apply Hp|]); constructor.
  - repeat (constructor; [by apply Hp|]). constructor.
Qed.

Lemma cleanup_open results s : open_session s → torn_down (cleanup results s).2.
Proof.
  intros Hs. destruct (cleanup_state results s (op_cleanup _ Hs)) as (Hk & Hc & Hp & _).
  destruct (gated_more _ _ (op_gated _ Hs) (op_runtime _ Hs) (teardown_allowed s Hs)) as [Hg Hr].
  assert (count entry (sv_calls (cleanup results s).2) = count entry (sv_calls s)) as Hcount.
  { rewrite Hk, !count_app. unfold teardown. destruct (sv_watch s); repeat case_bool_decide; simpl; lia. }
  assert (stop_budget (sv_events (cleanup results s).2) = stop_budget (sv_events s)) as Hbud.
  { unfold cleanup. by rewrite (op_cleanup _ Hs). }
  pose proof (op_once _ Hs) as Hone. split.
  - by rewrite Hc.
  - done.
  - rewrite Hk, app_assoc. apply gated_snoc; [done|]. by apply allowed_plain.
  - by rewrite Hk, app_assoc, filter_app, filter_cons_True, filter_nil, last_snoc.
  - rewrite Hcount, Hbud. destruct (sv_launched s); lia.
  - rewrite Hbud, Hk. intros Hpos. exists (os_debug (sv_owned s)). destruct (sv_launched s) eqn:Hl; [|lia].
    destruct (op_created _ Hs Hl) as (a & b & d & Hin). exists a, b, d. apply elem_of_app. by left.
  - intros k. rewrite Hk, !omap_app. destruct (teardown_resources s k Hs) as [-> ->].
    assert (omap (closed k) [CRuntimeClose] = [] ∧ omap (opened k) [CRuntimeClose] = []) as [-> ->] by (by destruct k).
    rewrite !app_nil_r. apply (op_resources _ Hs k).
Qed.

Lemma cleanup_accounts ok results s : accounts ok [] s (cleanup results s).2.
Proof.
  destruct (sv_cleanup s) as [err|] eqn:Hc; [unfold cleanup; rewrite Hc; by apply accounts_same|].
  destruct (cleanup_state results s Hc) as (_ & _ & Hp & Ho & Hq & Hd & _). apply accounts_same; [|done..].
  unfold account. rewrite Hp, Ho, Hd. simpl. apply Permutation_app_head. apply Permutation_app_comm.
Qed.

Lemma cleanup_again results s : is_Some (sv_cleanup s) → (cleanup results s).2 = s.
Proof. intros [err Hc]. unfold cleanup. by rewrite Hc. Qed.

Lemma cleanup_disconnected results s : sv_disconnected (cleanup results s).2 = sv_disconnected s.
Proof. unfold cleanup. by destruct (sv_cleanup s). Qed.

(** *** The outcome of a request *)

Definition ids_ok (e : env) : Prop :=
  (∀ x, e_open e = inl x → x ≠ "") ∧ (∀ x t, e_createSession e = inl (x, t) → x ≠ "") ∧
  (∀ x, e_createDebug e = inl x → x ≠ "").

(** A handler answers its request, and leaves the session open, or torn down with
    [disconnected] set. *)
Definition finishes (e : env) (rq : Request) (s : server) (o : outcome (option error * server)) : Prop :=
  ∀ err s', o = Ret (err, s') → accounts (writes e) [rq] s s' ∧
    (open_session s' ∧ sv_disconnected s' = sv_disconnected s ∨ torn_down s' ∧ sv_disconnected s' = true).

Lemma finishes_handled e rq s o : open_session s → handled e rq s o → finishes e rq s o.
Proof.
  intros Hs Ho err s' Heq. pose proof (Ho _ _ Heq) as Hsv. split; [by apply serves_accounts|]. left.
  split; [by eapply open_serves|]. apply Hsv.
Qed.

Lemma finishes_disconnect e rq restart suspend s : open_session s →
  finishes e rq s (handleDisconnect e rq restart suspend s).
Proof.
  intros Hs. unfold handleDisconnect. destruct (restart || suspend); [apply finishes_handled; auto with dap|].
  pose proof (serves_fail_pending (e_write e) (FText "launch disconnected before configurationDone") s) as Hf.
  destruct (failPendingLaunch _ _ s) as [[err|] s1] eqn:Hfp; simpl in Hf.
  - apply finishes_handled; [done|]. intros err' s' [= <- <-]. apply serves_lost; [|done]. by eapply fail_pending_failed.
  - pose proof (serves_send (e_write e) (OReply rq BDisconnect) rq s1 (λ _, eq_refl)) as Hr.
    pose proof (serves_trans _ [] [rq] _ _ _ Hf Hr) as Hall. simpl in Hall.
    destruct (send _ _ s1) as [[err|] s2] eqn:Hsend; simpl in *.
    + apply finishes_handled; [done|]. by intros err' s' [= <- <-].
    + intros err s' [= Hx]. rewrite <- (f_equal snd Hx : (cleanup _ _).2 = s'). pose proof (open_serves _ _ _ _ Hs Hall) as Ho. split.
      * eapply (accounts_trans _ [rq] []); [by apply serves_accounts|].
        eapply (accounts_trans _ [] []); [|apply cleanup_accounts]. by apply accounts_same.
      * right. rewrite cleanup_disconnected. split; [|done]. apply cleanup_open. by destruct Ho.
Qed.

(** A log before the debug session starts. *)
Definition quiet (l : list call) : Prop := gated l ∧ (CRuntimeClose ∉ l) ∧ ∀ d, CStart d None ∉ l.

Lemma quiet_snoc l c : quiet l → c ≠ CRuntimeClose → (∀ d, c ≠ CStart d None) → inspects c = None → entry c = false →
  (∀ d, concerns c = Some d → created l d) → quiet (l ++ [c]).
Proof.
  intros (Hg & Hr & Hn) H1 H2 H3 H5 H4. split_and!.
  - apply gated_snoc; [done|]. split; [done|by rewrite H5|done|by rewrite H3|]. intros d ->. by destruct (H2 d).
  - intros [?|?%list_elem_of_singleton]%elem_of_app; congruence.
  - intros d [Hx|Hx%list_elem_of_singleton]%elem_of_app; [by eapply Hn|by apply (H2 d)].
Qed.

Lemma open_quiet s : open_session s → sv_configured s = false → quiet (sv_calls s).
Proof. intros Hs Hc. exact (conj (op_gated _ Hs) (conj (op_runtime _ Hs) (op_unconfigured _ Hs Hc))). Qed.

(** A session that is open again after calls that balance. *)
Lemma open_balanced s s' cs : open_session s → same_core s s' → sv_configured s = false →
  sv_pendingLaunch s' = sv_pendingLaunch s → sv_calls s' = sv_calls s ++ cs → quiet (sv_calls s') →
  (∀ k, omap (closed k) cs ≡ₚ omap (opened k) cs) → count entry cs = 0%nat →
  stop_budget (sv_events s') = stop_budget (sv_events s) → open_session s'.
Proof.
  intros Hs [E1 E2 E3 E4 E5 E6] Hc Hp Hk (Hg & Hr & Hn) Hb Hz Hbud. split.
  - rewrite E5. apply Hs.
  - rewrite E2, Hp. apply Hs.
  - intros k. rewrite E1, E2. apply Hs.
  - rewrite E1, E2. intros Hl. destruct (op_created _ Hs Hl) as (a & b & d & Hin). exists a, b, d. rewrite Hk. apply elem_of_app. by left.
  - congruence.
  - done.
  - done.
  - done.
  - intros k. rewrite Hk, !omap_app. unfold owns. rewrite E1, E2, <- (app_assoc _ (omap (closed k) cs)), (Permutation_app_comm (omap (closed k) cs)), app_assoc.
    by rewrite (op_resources _ Hs k), (Hb k).
  - rewrite E1, E2. apply Hs.
  - rewrite E2, Hk, count_app, Hz, Hbud. pose proof (op_once _ Hs). lia.
Qed.

Lemma open_events s x : open_session s → (stop_budget x ≤ stop_budget (sv_events s))%nat → open_session (set_events x s).
Proof. intros Hs Hb. eapply open_serves; [done|]. by apply (serves_events True). Qed.

(** The session starts. *)
Lemma open_start s debug : open_session s → sv_launched s = true → sv_configured s = false → debug = os_debug (sv_owned s) →
  open_session (set_configured (log (CStart debug None) s)).
Proof.
  intros Hs Hl Hc ->. destruct (open_quiet _ Hs Hc) as (Hg & Hr & Hn).
  assert (∀ x, x ∈ sv_calls s → x ∈ sv_calls s ++ [CStart (os_debug (sv_owned s)) None]) as Hin by (intros; apply elem_of_app; by left).
  split; simpl; try apply Hs.
  - intros _. destruct (op_created _ Hs Hl) as (a & b & d & Hx). exists a, b, d. by apply Hin.
  - intros _. split; [done|]. apply elem_of_app. right. by apply list_elem_of_singleton.
  - done.
  - apply gated_snoc; [done|]. split; [done|done| |done|]; simpl.
    + intros d [= <-]. by apply (op_created _ Hs).
    + done.
  - intros [?|?%list_elem_of_singleton]%elem_of_app; [done|congruence].
  - intros k. rewrite !omap_app. destruct k; simpl; rewrite !app_nil_r; apply Hs.
  - rewrite count_app. simpl. rewrite Nat.add_0_r. apply Hs.
Qed.

Lemma finishes_configuration_done e rq s : open_session s → finishes e rq s (handleConfigurationDone e rq s).
Proof.
  intros Hs. unfold handleConfigurationDone. destruct (negb (sv_launched s) || sv_configured s) eqn:Hg.
  { apply finishes_handled; auto with dap. }
  apply orb_false_iff in Hg as [Hl%negb_false_iff Hc].
  pose proof (serves_send (e_write e) (OReply rq BConfigurationDone) rq s (λ _, eq_refl)) as Hr.
  destruct (send _ _ s) as [[err|] s1] eqn:Hsend; simpl in Hr.
  { apply finishes_handled; [done|]. by intros err' s' [= <- <-]. }
  pose proof (open_serves _ _ _ _ Hs Hr) as H1. pose proof Hr as (_ & _ & [E1 E2 E3 E4 _ _] & _).
  rewrite <- E1. rewrite <- E2 in Hl. rewrite <- E3 in Hc. destruct (e_start e) as [err|].
  - set (s2 := set_stop None (log (CStart (os_debug (sv_owned s1)) (Some err)) s1)).
    assert (open_session s2) as H2.
    { apply open_events; [|apply set_initialStop_budget]. eapply (open_balanced s1 _ [CStart (os_debug (sv_owned s1)) (Some err)]); try done.
      apply quiet_snoc; [by apply open_quiet|done..|]. intros d [= <-]. by apply (op_created _ H1). }
    pose proof (serves_fail_pending (e_write e) (FError err) s2) as Hf. destruct (failPendingLaunch _ _ s2) as [result s3]. simpl in Hf.
    pose proof (open_serves _ _ _ _ H2 Hf) as H3. pose proof (cleanup_open (e_cleanup e) (set_disconnected s3)) as Htd.
    pose proof (cleanup_accounts (writes e) (e_cleanup e) (set_disconnected s3)) as Hca.
    pose proof (cleanup_disconnected (e_cleanup e) (set_disconnected s3)) as Hcd.
    destruct (cleanup (e_cleanup e) (set_disconnected s3)) as [cleanupErr s4]. simpl in *.
    intros err' s' [= _ <-]. split; [|right; split; [apply Htd; by destruct H3|done]].
    eapply (accounts_trans _ [rq] []); [by apply serves_accounts|].
    eapply (accounts_trans _ [] [] _ s2); [by apply accounts_same|]. eapply (accounts_trans _ [] []); [by apply serves_accounts|].
    eapply (accounts_trans _ [] [] _ (set_disconnected s3)); [by apply accounts_same|done].
  - destruct (sv_initialStop _) as [stop|] eqn:Hstop; [|by intros ? ?].
    match goal with |- finishes _ _ _ (Ret (resolvePendingLaunch _ ?x)) => set (s2 := x) end.
    assert (open_session s2) as H2.
    { pose proof (open_start s1 _ H1 Hl Hc eq_refl) as Ho. eapply (open_events _ (sv_events s2)) in Ho; [exact Ho|].
      unfold stop_budget. simpl in *. rewrite Hstop. simpl. lia. }
    pose proof (serves_resolve_pending (e_write e) s2) as Hf. intros err' s' [= Hx].
    rewrite <- (f_equal snd Hx : (resolvePendingLaunch _ _).2 = s'). split.
    + eapply (accounts_trans _ [rq] []); [by apply serves_accounts|].
      eapply (accounts_trans _ [] [] _ s2); [by apply accounts_same|by apply serves_accounts].
    + left. split; [by eapply open_serves|]. destruct Hf as (_ & _ & [_ _ _ E _ _] & _). by rewrite E.
Qed.

(** A launch that fails after calls that balance. *)
Lemma finishes_launch_failed e rq reason s s1 cs : open_session s → sv_launched s = false →
  same_core s s1 → account s1 = account s → sv_out s1 = sv_out s → sv_sequence s1 = sv_sequence s →
  sv_pendingLaunch s1 = sv_pendingLaunch s → sv_calls s1 = sv_calls s ++ cs → quiet (sv_calls s1) →
  (∀ k, omap (closed k) cs ≡ₚ omap (opened k) cs) → count entry cs = 0%nat → sv_events s1 = sv_events s →
  finishes e rq s (sendFailure (e_write e) rq reason s1).
Proof.
  intros Hs Hl Hc Ha Ho Hq Hp Hk Hqu Hb Hz Hev err s' Heq.
  assert (sv_configured s = false) as Hcf.
  { destruct (sv_configured s) eqn:Hx; [|done]. destruct (op_configured _ Hs Hx). congruence. }
  pose proof (open_balanced s s1 cs Hs Hc Hcf Hp Hk Hqu Hb Hz (f_equal stop_budget Hev)) as H1.
  destruct (finishes_handled e rq s1 _ H1 (handled_failure e rq reason s1) err s' Heq) as [Hacc Hrest]. split.
  - eapply (accounts_trans _ [] [rq] _ s1); [|done]. apply accounts_same; congruence || by rewrite Ha.
  - by rewrite <- (sc_disconnected _ _ Hc).
Qed.

(** The session a successful launch leaves. *)
Lemma open_launched s s1 rq paths arguments workspace session debug text : open_session s → sv_launched s = false →
  same_core s s1 → quiet (sv_calls s1) → created (sv_calls s1) debug →
  workspace ≠ "" → session ≠ "" → debug ≠ "" →
  (∀ k, omap (opened k) (sv_calls s1) ≡ₚ omap (opened k) (sv_calls s) ++
        [owned_of k (mkOwned workspace session debug "" "" (mkIdentity "" "" None) None)] ∧
        omap (closed k) (sv_calls s1) = omap (closed k) (sv_calls s)) →
  count entry (sv_calls s1) = 0%nat → sv_events s1 = sv_events s →
  open_session (launched rq paths arguments workspace session debug text s1).
Proof.
  intros Hs Hl [E1 E2 E3 E4 E5 E6] (Hg & Hr & Hn) Hcr Hw Hse Hd Hres Hz Hev.
  assert (sv_configured s = false) as Hcf.
  { destruct (sv_configured s) eqn:Hx; [|done]. destruct (op_configured _ Hs Hx). congruence. }
  split; simpl; try done.
  - rewrite E5. apply Hs.
  - by intros [].
  - congruence.
  - intros k. destruct (Hres k) as [-> ->]. unfold owns. simpl. pose proof (op_resources _ Hs k) as Hp. unfold owns in Hp.
    rewrite Hl, app_nil_r in Hp. rewrite Hp. by destruct k.
  - pose proof (op_once _ Hs) as Ho. rewrite Hl in Ho. rewrite Hz. unfold stop_budget in *. simpl. rewrite Hev. lia.
Qed.

(** A launched session awaits its entry stop. *)
Lemma open_awaits s i : open_session s → sv_launched s = true → (count entry (sv_calls s) + stop_budget (sv_events s) = 0)%nat →
  open_session (set_watching true (set_stop (Some i) s)).
Proof.
  intros Hs Hl Hz. destruct Hs as [O1 O2 O3 O4 O5 O6 O7 O8 O9 O10 O11]. split; try done. simpl. rewrite Hl. unfold stop_budget in *. simpl. lia.
Qed.

Lemma quiet_logs s (c : call) : quiet (sv_calls s) → c ≠ CRuntimeClose → (∀ d, c ≠ CStart d None) → inspects c = None → entry c = false →
  (∀ d, concerns c = Some d → created (sv_calls s) d) → quiet (sv_calls (log c s)).
Proof. apply quiet_snoc. Qed.

Lemma finishes_launch e rq arguments s : open_session s → ids_ok e → finishes e rq s (handleLaunch e rq arguments s).
Proof.
  intros Hs (I1 & I2 & I3). unfold handleLaunch. destruct (negb (sv_initialized s) || sv_launched s) eqn:Hg.
  { apply finishes_handled; auto with dap. }
  apply orb_false_iff in Hg as [_ Hl]. destruct arguments as [arguments|err]; [|apply finishes_handled; auto with dap].
  destruct (resolvePaths _ _ _ _ _ _ _) as [paths|]; [|apply finishes_handled; auto with dap].
  destruct (launch_runtimeOptions _) as [options|]; [|apply finishes_handled; auto with dap].
  assert (quiet (sv_calls s)) as Hq.
  { apply open_quiet; [done|]. destruct (sv_configured s) eqn:Hx; [|done]. destruct (op_configured _ Hs Hx). congruence. }
  assert (∀ c s0, quiet (sv_calls s0) → concerns c = None → entry c = false → c ≠ CRuntimeClose → quiet (sv_calls (log c s0))) as Hlog.
  { intros c s0 H0 Hc He Hne. apply quiet_snoc; [done|done| | |done|by rewrite Hc]; [intros d ->; done|by destruct c]. }
  assert (count entry (sv_calls s) = 0%nat ∧ stop_budget (sv_events s) = 0%nat) as [Hz Hbud].
  { pose proof (op_once _ Hs) as Hone. rewrite Hl in Hone. lia. }
  destruct (e_open e) as [workspace|err] eqn:Ho.
  2: { eapply (finishes_launch_failed _ _ _ _ _ [COpen _ (inr err)]); try done; try (by intros []). by apply Hlog. }
  destruct (e_createSession e) as [[session text]|err] eqn:Hse.
  2: { eapply (finishes_launch_failed _ _ _ _ _ [COpen _ (inl workspace); CCreateSession _ _ (inr err); CCloseWorkspace _]);
         try done; [simpl; by rewrite <- !app_assoc|by repeat apply Hlog|by intros []]. }
  destruct (e_createDebug e) as [debug|err] eqn:Hde.
  2: { eapply (finishes_launch_failed _ _ _ _ _ [COpen _ (inl workspace); CCreateSession _ _ (inl (session, text));
           CCreateDebug _ _ _ (inr err); CCloseSession _; CCloseWorkspace _]);
         try done; [simpl; by rewrite <- !app_assoc|by repeat apply Hlog|by intros []]. }
  set (s0 := log (CCreateDebug _ _ _ _) _).
  assert (created (sv_calls s0) debug) as Hcr.
  { do 3 eexists. simpl. apply elem_of_app. right. by apply list_elem_of_singleton. }
  assert (∀ x, quiet (sv_calls (log (CWatch debug x) s0))) as Hw.
  { intros x. apply quiet_logs; [by repeat apply Hlog|done..|]. by intros d [= <-]. }
  destruct (e_watch e) as [err|] eqn:Hwa.
  { eapply (finishes_launch_failed _ _ _ _ _ [COpen _ (inl workspace); CCreateSession _ _ (inl (session, text));
           CCreateDebug _ _ _ (inl debug); CWatch _ (Some err); CCloseDebug _; CCloseSession _; CCloseWorkspace _]);
         try done; [simpl; by rewrite <- !app_assoc|do 3 (apply Hlog; [|done..]); apply Hw|by intros []]. }
  set (s1 := log (CWatch debug None) s0). set (s2 := launched _ _ _ _ _ _ _ s1).
  assert (open_session s2) as H2.
  { eapply open_launched; try done; [apply Hw| |by eapply I1|by eapply I2|by eapply I3| |].
    - destruct Hcr as (a & b & d & Hin). exists a, b, d. simpl. apply elem_of_app. by left.
    - intros k. simpl. rewrite !omap_app. destruct k; simpl; rewrite ?app_nil_r; done.
    - simpl. rewrite !count_app, Hz. done. }
  assert (count entry (sv_calls s2) + stop_budget (sv_events s2) = 0)%nat as Hz2.
  { simpl. rewrite !count_app, Hz. exact Hbud. }
  assert (accounts (writes e) [rq] s s2) as Hacc.
  { split; [|done]. exists []. split; [|done]. unfold account. simpl. rewrite (op_pending _ Hs Hl). simpl.
    rewrite app_nil_r, <- app_assoc. apply Permutation_app_head. apply (Permutation_app_comm [rq]). }
  pose proof (serves_send_event (e_write e) OInitialized s2 (λ _, eq_refl)) as Hf.
  pose proof (accounts_trans _ _ _ _ _ _ Hacc (serves_accounts _ _ _ _ Hf)) as Hacc2. simpl in Hacc2.
  pose proof (open_serves _ _ _ _ H2 Hf) as H3. pose proof (sc_disconnected _ _ (proj1 (proj2 (proj2 Hf)))) as Hdis.
  pose proof (sc_launched _ _ (proj1 (proj2 (proj2 Hf)))) as Hlaunched.
  assert (count entry (sv_calls (send (e_write e) OInitialized s2).2) + stop_budget (sv_events (send (e_write e) OInitialized s2).2) = 0)%nat as Hz3.
  { destruct Hf as (_ & _ & _ & (new & -> & _ & Hb) & _). rewrite count_app. lia. }
  destruct (send _ OInitialized s2) as [[err|] s3]; intros err' s' [= <- <-]; simpl in *.
  - split; [done|]. by left.
  - split; [|left; split; [|done]].
    + eapply (accounts_trans _ [rq] [] _ s3); [done|]. by apply accounts_same.
    + by apply open_awaits.
Qed.

Lemma finishes_dispatch e rq q s : open_session s → ids_ok e → finishes e rq s (dispatch e rq q s).
Proof.
  intros Hs He. destruct q; simpl;
    [|by apply finishes_launch|by apply finishes_configuration_done|..|by apply finishes_disconnect|];
    (apply finishes_handled; [done|]).
  - apply handled_initialize.
  - apply handled_set_breakpoints.
  - apply handled_resume.
  - apply handled_pause.
  - apply handled_threads.
  - apply handled_stack_trace.
  - apply handled_scopes.
  - apply handled_variables.
  - apply handled_evaluate.
  - apply handled_terminate.
  - auto with dap.
Qed.

(** ** Sessions *)

(** The writes of an action succeed; the managers' identifiers are not empty. *)
Definition action_writes (a : action) : Prop :=
  match a with
  | ARequest _ _ e => writes e
  | AEvents write _ | AWatchEnd write _ => ∀ q, write q = None
  | AReadEnd _ => True
  end.

Definition action_ids (a : action) : Prop := match a with ARequest _ _ e => ids_ok e | _ => True end.

(** The requests read so far are accounted for; a running session is open, a
    finished one is torn down. *)
Record session_inv (ok : Prop) (r : run) : Prop := {
  sn_account : ∃ lost, account (rn_server r) ++ lost ≡ₚ rn_received r ∧ (ok → lost = []);
  sn_numbered : ok → numbered (rn_server r);
  sn_state : if rn_running r then open_session (rn_server r) ∧ sv_disconnected (rn_server r) = false
             else torn_down (rn_server r)
}.

Lemma inv_accounts (ok ok' : Prop) xs r s' running : session_inv ok r → accounts ok' xs (rn_server r) s' →
  (if running : bool then open_session s' ∧ sv_disconnected s' = false else torn_down s') →
  session_inv (ok ∧ ok') (mkRun s' running (rn_received r ++ xs)).
Proof.
  intros [(lost & Ha & Hl) Hn _] ((lost' & Ha' & Hl') & Hn') Hst. split; simpl; [|intros []; auto|done].
  exists (lost' ++ lost). split; [|intros [H1 H2]; by rewrite Hl, Hl'].
  rewrite app_assoc, Ha', <- app_assoc, (Permutation_app_comm xs), app_assoc. by rewrite Ha.
Qed.

(** The watcher writes messages and updates what [eventMu] protects. *)
Lemma send_events_out (write : Z → option error) ms : ∀ s, ∃ q out, send_events write ms s = set_out q out s.
Proof.
  induction ms as [|m ms IH]; intros s; simpl; [exists (sv_sequence s), (sv_out s); by destruct s|].
  destruct (IH (send write (OEvent m) s).2) as (q & out & ->). exists q, out. unfold send. by destruct (write _).
Qed.

(** What the watcher does to the server: calls of its own, and what [eventMu] protects. *)
Definition watched (s s' : server) : Prop :=
  ∃ x q out b new, s' = set_watching b (set_out q out (logs new (set_events x s))) ∧ Forall (λ c, entry c = true) new ∧
    (count entry new + stop_budget x ≤ stop_budget (sv_events s))%nat.

Lemma flush_watched (write : Z → option error) x s b : (stop_budget x ≤ stop_budget (sv_events s))%nat →
  watched s (set_watching b (flush write (set_events x s))).
Proof.
  intros Hb. unfold flush. match goal with |- context [send_events write ?ms ?y] => destruct (send_events_out write ms y) as (q & out & ->) end.
  do 3 eexists. exists b. eexists. split; [reflexivity|]. split; [apply Forall_map; by apply Forall_true|].
  rewrite count_entries. etrans; [|exact Hb]. unfold stop_budget. simpl. lia.
Qed.

Lemma watching_id s : set_watching (sv_watching s) s = s.
Proof. by destruct s. Qed.

Lemma watched_refl s : watched s s.
Proof.
  exists (sv_events s), (sv_sequence s), (sv_out s), (sv_watching s), []. split_and!; [|constructor|done].
  destruct s. unfold set_watching, set_out, logs, set_events. simpl. by rewrite app_nil_r.
Qed.

Lemma flush_watching (write : Z → option error) s : sv_watching (flush write s) = sv_watching s.
Proof. unfold flush. match goal with |- context [send_events write ?ms ?y] => by destruct (send_events_out write ms y) as (q & out & ->) end. Qed.

Lemma watcher_watched (write : Z → option error) events s : watched s (watcher_events write events s).
Proof.
  unfold watcher_events. destruct (sv_watching s) eqn:Hw; [|apply watched_refl].
  rewrite <- (watching_id (flush _ _)). apply flush_watched. apply handle_events_budget.
Qed.

Lemma watcher_end_watched (write : Z → option error) errors s : watched s (watcher_end write errors s).
Proof. unfold watcher_end. destruct (sv_watching s); [|apply watched_refl]. apply flush_watched, watchDebugSession_budget. Qed.

Lemma entry_neutral new k : Forall (λ c, entry c = true) new → omap (closed k) new = [] ∧ omap (opened k) new = [].
Proof.
  induction 1 as [|c new Hc _ IH]; [done|]. destruct c; try done. by destruct k.
Qed.

(** The watcher may go on after the teardown; only its own calls come then. *)
Lemma torn_watched s s' : torn_down s → watched s s' → torn_down s'.
Proof.
  intros [T1 T2 T3 T4 T5 T6 T7] (x & q & out & b & new & -> & Hn & Hb).
  assert (count entry new = length new) as Hlen.
  { clear -Hn. induction Hn as [|c new Hc _ IH]; [done|]. simpl. by rewrite Hc, IH. }
  assert (gated (sv_calls s ++ new)) as Hg.
  { destruct new as [|c [|c' new]]; [by rewrite app_nil_r| |cbn [length] in Hlen; lia]. apply gated_snoc; [done|].
    rewrite Forall_singleton in Hn. simpl in Hb. rewrite Hn in Hb. simpl in *.
    destruct c; try done. split; try done. intros _. split; [apply T6; lia|lia]. }
  split; simpl; try done.
  - rewrite filter_app. assert (filter (λ c, entry c = false) new = []) as ->; [|by rewrite app_nil_r].
    clear -Hn. induction Hn as [|c new Hc _ IH]; [done|]. rewrite filter_cons_False; [done|]. by rewrite Hc.
  - rewrite count_app. lia.
  - intros Hpos. destruct (T6 ltac:(lia)) as (d & a & b' & o & Hin). exists d, a, b', o. apply elem_of_app. by left.
  - intros k. destruct (entry_neutral new k Hn) as [E1 E2]. rewrite !omap_app, E1, E2, !app_nil_r. apply T7.
Qed.

Lemma session_act ok a r r' : session_inv ok r → action_ids a → act a r = Ret r' → session_inv (ok ∧ action_writes a) r'.
Proof.
  intros Hi Hids. pose proof (sn_state _ _ Hi) as Hst. destruct a as [rq q e|results|write events|write errors]; simpl.
  - destruct (rn_running r) eqn:Hrun; [|done]. destruct Hst as [Ho Hd].
    destruct (dispatch e rq q (rn_server r)) as [[err s']|m|] eqn:Hdis; [|done|done]. cbn.
    destruct (finishes_dispatch e rq q (rn_server r) Ho Hids err s' Hdis) as [Hacc Hs'].
    pose proof (accounts_trans _ _ _ _ _ _ Hacc (cleanup_accounts (writes e) (e_cleanup e) s')) as Hacc2.
    destruct (negb _ || sv_disconnected s') eqn:Hstop; intros [= <-].
    + rewrite app_nil_r in Hacc2. eapply inv_accounts; [done..|]. destruct Hs' as [[Ho' _]|[Ht _]]; [by apply cleanup_open|].
      rewrite cleanup_again; [done|apply Ht].
    + apply orb_false_iff in Hstop as [_ Hstop]. eapply inv_accounts; [done..|]. destruct Hs' as [[Ho' ?]|[_ ?]]; [|congruence]. by split.
  - destruct (rn_running r) eqn:Hrun; [|done]. destruct Hst as [Ho Hd]. intros [= <-].
    rewrite <- (app_nil_r (rn_received r)). eapply inv_accounts; [done|apply cleanup_accounts|]. by apply cleanup_open.
  - intros [= <-]. rewrite <- (app_nil_r (rn_received r)).
    pose proof (serves_watcher write events (rn_server r)) as Hsv. eapply inv_accounts; [done|by apply serves_accounts|].
    destruct (rn_running r); [|eapply torn_watched; [done|apply watcher_watched]]. destruct Hst as [Ho Hd].
    split; [by eapply open_serves|]. rewrite <- Hd. apply Hsv.
  - intros [= <-]. rewrite <- (app_nil_r (rn_received r)).
    pose proof (serves_watcher_end write errors (rn_server r)) as Hsv. eapply inv_accounts; [done|by apply serves_accounts|].
    destruct (rn_running r); [|eapply torn_watched; [done|apply watcher_end_watched]]. destruct Hst as [Ho Hd].
    split; [by eapply open_serves|]. rewrite <- Hd. apply Hsv.
Qed.

Lemma session_weaken (ok ok' : Prop) r : (ok' → ok) → session_inv ok r → session_inv ok' r.
Proof. intros Hw [(lost & Ha & Hl) Hn Hst]. split; [exists lost; auto|auto|done]. Qed.

Lemma started_inv : session_inv True started.
Proof.
  split; simpl; [by exists []|done|]. split; [|done].
  split; simpl; try done; try (by intros []).
  - intros _ d Hd. by apply elem_of_nil in Hd.
  - by intros ?%elem_of_nil.
Qed.

Lemma session_run actions : ∀ ok r r', session_inv ok r → Forall action_ids actions → Run actions r = Ret r' →
  session_inv (ok ∧ Forall action_writes actions) r'.
Proof.
  induction actions as [|a actions IH]; intros ok r r' Hi Hids; simpl.
  - intros [= <-]. eapply session_weaken; [|done]. by intros [].
  - apply Forall_cons in Hids as [Ha Hids]. destruct (act a r) as [r1|m|] eqn:Hact; [|done|done]. cbn. intros Hrun.
    eapply session_weaken; [|eapply (IH (ok ∧ action_writes a)); [by eapply session_act|done|done]].
    intros [Hok [H1 H2]%Forall_cons]. done.
Qed.

(** C33. Every request is answered once.  Whatever requests a client sends, however
    the managers and the file system answer, and whatever events the watcher
    forwards in between: the replies the adapter wrote, the launch that waits for
    [configurationDone] and the launch the teardown dropped account for the
    requests it read, each at most once; no reply answers a request that was not
    read, and none is answered twice.  When the writes succeed, nothing is missing
    and the messages are numbered consecutively from 1, also across the goroutine
    of the events; and a session that has ended keeps no launch pending. *)
Theorem dap_replies_exact actions r : Run actions started = Ret r → Forall action_ids actions →
  account (rn_server r) ⊆+ rn_received r ∧
  (rn_running r = false → sv_pendingLaunch (rn_server r) = None) ∧
  (Forall action_writes actions →
     account (rn_server r) ≡ₚ rn_received r ∧
     ∀ i m, sv_out (rn_server r) !! i = Some m → m.1 = int64 (Z.of_nat i + 1)).
Proof.
  intros Hrun Hids. destruct (session_run actions True started r started_inv Hids Hrun) as [(lost & Ha & Hl) Hn Hst].
  split_and!.
  - rewrite <- Ha. by apply submseteq_inserts_r.
  - intros Hr. rewrite Hr in Hst. apply Hst.
  - intros Hw. split; [by rewrite <- Ha, (Hl (conj I Hw)), app_nil_r|]. by apply Hn.
Qed.

(** C34. A session releases what it opened, in order.  After [Run] has returned,
    every workspace, execution session and debug session that was opened by a
    launch of the session, also by a launch that failed half-way, has been closed
    exactly once, and the last call of the requests and the teardown was the close of
    the runtime.  At every point of a session the handlers and the teardown call
    nothing once the runtime is closed, no debug session is addressed by them before
    it was created, none is resumed or inspected before it was started, and only one
    start succeeds.  The goroutine of the events makes one call of its own, which
    resumes the entry stop that is not shown: at most once in a session and only after
    a debug session was created; the teardown does not wait for it, so it alone may
    come after the close of the runtime. *)
Theorem dap_session_releases actions r : Run actions started = Ret r → Forall action_ids actions →
  gated (sv_calls (rn_server r)) ∧
  (rn_running r = false →
     last (filter (λ c, entry c = false) (sv_calls (rn_server r))) = Some CRuntimeClose ∧
     ∀ k, omap (closed k) (sv_calls (rn_server r)) ≡ₚ omap (opened k) (sv_calls (rn_server r))).
Proof.
  intros Hrun Hids. pose proof (sn_state _ _ (session_run actions True started r started_inv Hids Hrun)) as Hst.
  destruct (rn_running r).
  - split; [apply Hst|done].
  - split; [apply Hst|]. intros _. split; apply Hst.
Qed.


(** *** What can crash the adapter *)

(** [makeslice] and the slice of the frames. *)
Definition window_overflows (startFrame levels : Z) (frames : list DebugFrame) : Prop :=
  0 ≤ startFrame ≤ Z.of_nat (length frames) ∧ window_end startFrame levels (Z.of_nat (length frames)) < startFrame.

Definition crashes (q : request) (e : env) (s : server) : Prop :=
  match q with
  | QConfigurationDone => e_start e = None ∧ sv_initialStop (sv_events s) = None
  | QSetBreakpoints _ _ _ breakpoints _ => ∃ results, e_replace e = inl results ∧ (length breakpoints < length results)%nat
  | QStackTrace _ startFrame levels => ∃ frames, e_frames e = inl frames ∧ window_overflows startFrame levels frames
  | _ => False
  end.

Lemma replace_loop_total source requests : ∀ results b, (length results ≤ length requests)%nat →
  ∃ b', replace_loop source requests results b = Ret b'.
Proof.
  induction requests as [|p requests IH]; intros [|x results] b Hlen; simpl in *; try (by eexists); [lia|].
  destruct (_ =? 0); apply IH; lia.
Qed.

Lemma requests_loop_length c columns breakpoints : ∀ index requests,
  requests_loop c columns index breakpoints = inl requests → length requests = length breakpoints.
Proof.
  induction breakpoints as [|b breakpoints IH]; intros index requests; simpl; [by intros [= <-]|].
  destruct (rb_Unsupported b); [done|]. destruct (column _ _); [|done]. destruct (fromClient _ _ _); [|done].
  destruct (requests_loop c columns (S index) breakpoints) as [rest|] eqn:Hr; [|done]. intros [= <-]. simpl. f_equal. by eapply IH.
Qed.

Lemma replace_crash e rq debug c requests name path s m :
  replaceBreakpoints e rq debug c requests name path s = Panic m →
  ∃ results, e_replace e = inl results ∧ (length requests < length results)%nat.
Proof.
  unfold replaceBreakpoints. destruct (e_replace e) as [results|]; [|done]. intros Hp. exists results. split; [done|].
  destruct (decide (length requests < length results)%nat) as [|Hle]; [done|]. exfalso. unfold replace in Hp.
  match type of Hp with context [replace_loop ?a ?b ?d ?x] =>
    destruct (replace_loop_total a b d x) as [ids Hids]; [rewrite !length_map; lia|rewrite Hids in Hp] end.
  cbn in Hp. by destruct (results_loop _ _ _ _ _).
Qed.

(** Every panic of a request has one of the three causes. *)
Lemma dispatch_crashes e rq q s m : open_session s → dispatch e rq q s = Panic m → crashes q e s.
Proof.
  intros Hs. assert (∀ b debug, configuredDebug b s = Some debug → is_Some (os_coordinates (sv_owned s))) as Hc.
  { intros b debug. unfold configuredDebug. destruct (sv_launched s) eqn:Hl; [|done]. intros _. by apply (op_coordinates _ Hs). }
  destruct q; simpl; unfold handleInitialize, handleLaunch, handleConfigurationDone, handleSetBreakpoints, handleResume, handlePause,
    handleThreads, handleStackTrace, handleScopes, handleVariables, handleEvaluate, evaluate, handleTerminate, handleDisconnect.
  all: try (repeat (done || case_match); done).
  - destruct (_ || _); [done|]. unfold send. destruct (e_write e _); [done|]. simpl. destruct (e_start e) as [err|].
    + destruct (failPendingLaunch _ _ _) as [result s3]. by destruct (cleanup _ _).
    + by destruct (sv_initialStop (sv_events s)).
  - destruct (configuredDebug false s) as [debug|] eqn:Hd; [|done]. destruct (Hc _ _ Hd) as [c Hco].
    destruct (negb _); [done|]. destruct (sourcePath e path s); [|done]. destruct (newSourceIdentity _ _ _ _ _) as [ident [err|]].
    { unfold sendUnverifiedBreakpoints. by destruct (unverified_loop _ _ _ _ _ _). }
    destruct (negb _); [unfold sendUnverifiedBreakpoints; by destruct (unverified_loop _ _ _ _ _ _)|]. rewrite Hco.
    destruct (requests_loop c columns 0 breakpoints) as [requests|] eqn:Hr; [|done]. destruct (clientPath _ _ _); [|done].
    intros Hp. destruct (replace_crash _ _ _ _ _ _ _ _ _ Hp) as (results & He & Hlen). exists results. split; [done|].
    by rewrite <- (requests_loop_length _ _ _ _ _ Hr).
  - destruct (configuredDebug true s) as [debug|] eqn:Hd; [|done]. destruct (Hc _ _ Hd) as [c Hco]. destruct (negb _); [done|].
    destruct (e_frames e) as [frames|] eqn:Hf; [|done]. destruct (_ || _) eqn:Hb; [done|].
    apply orb_false_iff in Hb as [H1%Z.ltb_ge H2%Z.ltb_ge]. destruct (_ <? startFrame) eqn:Hw.
    + intros _. exists frames. split; [done|]. split; [done|]. by apply Z.ltb_lt.
    + simpl. rewrite Hco. by destruct (frames_loop _ _ _ _ _ _) as [[] ?].
Qed.

Lemma run_crashes actions m : ∀ r0, session_inv False r0 → Forall action_ids actions → Run actions r0 = Panic m →
  ∃ before rq q e after r, actions = before ++ ARequest rq q e :: after ∧ Run before r0 = Ret r ∧
    rn_running r = true ∧ crashes q e (rn_server r).
Proof.
  induction actions as [|a actions IH]; intros r0 Hi Hids; [done|].
  apply Forall_cons in Hids as [Ha Hids]. simpl. destruct (act a r0) as [r1|m1|] eqn:Hact; [|intros _|done].
  - cbn. intros Hrun. destruct (IH r1) as (before & rq & q & e & after & r & -> & Hb & Hrest); [|done|done|].
    { eapply session_weaken; [|by eapply session_act]. done. }
    exists (a :: before), rq, q, e, after, r. split_and!; try done; [|apply Hrest..]. simpl. by rewrite Hact.
  - destruct a as [rq q e|results|write events|write errors]; simpl in Hact; try (by destruct (rn_running r0)); try done.
    destruct (rn_running r0) eqn:Hr; [|done]. destruct (dispatch e rq q (rn_server r0)) as [[err s']|m2|] eqn:Hd; [|..|done].
    { cbn in Hact. by destruct (_ || _). }
    exists [], rq, q, e, actions, r0. split_and!; try done. eapply dispatch_crashes; [|done].
    pose proof (sn_state _ _ Hi) as Hst. rewrite Hr in Hst. apply Hst.
Qed.

(** C35. What can crash the adapter.  A session in which a request panics reached
    that request without a panic, and the request is one of three: a
    [configurationDone] whose start the debug manager accepted although the watcher
    has consumed the initial stop, a [setBreakpoints] the debugger answers with
    more breakpoints than were requested, or a [stackTrace] whose window end
    overflows.  No other request panics, whatever its arguments and whatever the
    managers, the file system and the client's stream answer; in particular no
    handler reads the session before it was launched. *)
Theorem dap_crash_causes actions m : Run actions started = Panic m → Forall action_ids actions →
  ∃ before rq q e after r, actions = before ++ ARequest rq q e :: after ∧ Run before started = Ret r ∧
    rn_running r = true ∧ crashes q e (rn_server r).
Proof.
  intros Hrun Hids. eapply run_crashes; [|done|done]. eapply session_weaken; [|apply started_inv]. done.
Qed.


End dap.

(** ** A session *)

Definition sample_env : env (FileInfo := bool) :=
  mkEnv (inl "/w") (λ p, inl (bool_decide (p = "/w"))) (λ p, inl p) (λ p, inl p)
    (inl "ws") (inl ("s", bytes_of_string "RETURN 1")) (inl "d") None None None None None
    (inl []) (inl [mkDebugFrame "main" "/w/a.fql" (mkNative 1 1); mkDebugFrame "f" "/w/a.fql" (mkNative 1 8)])
    (inl [mkDebugScope "Locals" [mkVariable "x" (mkValue "1" "Int" 0)]]) (inl []) (inl (mkValue "1" "Int" 0))
    (λ _, None) (λ _, []) [].

Definition ask (q : Z) (command : string) (r : request) : action (FileInfo := bool) :=
  ARequest (mkRequest q command) r sample_env.

(** Initialize, launch, a failing launch, configure, inspect, disconnect. *)
Definition sample_requests : list (action (FileInfo := bool)) :=
  [ask 1 "initialize" (QInitialize (mkInitializeClientOptions None None None));
   ask 2 "launch" (QLaunch (inl (mkLaunchArguments "a.fql" "/w" Absent None true)));
   ask 3 "launch" (QLaunch (inl (mkLaunchArguments "a.fql" "/w" Absent None true)));
   ask 4 "setBreakpoints" (QSetBreakpoints "" "/w/a.fql" 0 [] []);
   ask 5 "configurationDone" QConfigurationDone;
   ask 6 "stackTrace" (QStackTrace 1 0 0);
   ask 7 "scopes" (QScopes 1);
   ask 8 "disconnect" (QDisconnect false false)].

Definition sample_final : run (FileInfo := bool) :=
  match Run (λ b, b) negb Bool.eqb sample_requests started with Ret r => r | _ => started end.

Lemma sample_env_ids : ids_ok sample_env.
Proof. split_and!; simpl; congruence. Qed.

Lemma sample_ids : Forall action_ids sample_requests.
Proof. repeat (apply Forall_cons_2; [exact sample_env_ids|]). apply Forall_nil_2. Qed.

Lemma sample_writes : Forall action_writes sample_requests.
Proof. repeat (apply Forall_cons_2; [by intros q|]). apply Forall_nil_2. Qed.

Lemma dap_replies_exact_witness :
  Run (λ b, b) negb Bool.eqb sample_requests started = Ret sample_final ∧
  account (rn_server sample_final) ≡ₚ rn_received sample_final ∧ length (rn_received sample_final) = 8%nat.
Proof.
  assert (Run (λ b, b) negb Bool.eqb sample_requests started = Ret sample_final) as Hrun by (vm_compute; reflexivity).
  split; [exact Hrun|]. split; [|vm_compute; reflexivity].
  apply (dap_replies_exact _ _ _ sample_requests sample_final Hrun sample_ids). exact sample_writes.
Defined.

Lemma dap_session_releases_witness :
  Run (λ b, b) negb Bool.eqb sample_requests started = Ret sample_final ∧
  last (filter (λ c, entry c = false) (sv_calls (rn_server sample_final))) = Some CRuntimeClose.
Proof.
  assert (Run (λ b, b) negb Bool.eqb sample_requests started = Ret sample_final) as Hrun by (vm_compute; reflexivity).
  split; [exact Hrun|]. apply (dap_session_releases _ _ _ sample_requests sample_final Hrun sample_ids). vm_compute. reflexivity.
Defined.

(** The entry stop arrives while the session is torn down: the watcher resumes a
    debug session that is closed. *)
Definition late_entry : list (action (FileInfo := bool)) :=
  [ask 1 "initialize" (QInitialize (mkInitializeClientOptions None None None));
   ask 2 "launch" (QLaunch (inl (mkLaunchArguments "a.fql" "/w" Absent None false)));
   ask 3 "configurationDone" QConfigurationDone;
   AReadEnd [];
   AEvents (λ _, None) [((sample_event StateStopped ReasonEntry).1, Some "debug session not found")]].

Example entry_resumed_after_close :
  match Run (λ b, b) negb Bool.eqb late_entry started with
  | Ret r => drop 11 (sv_calls (rn_server r))
  | _ => []
  end = [CExecutionsClose; CWorkspacesClear; CRuntimeClose; CEntryResume "d" (Some "debug session not found")].
Proof. vm_compute. reflexivity. Qed.

(** A stack trace of all levels from the second frame: [start + levels] wraps
    around, the window ends before it starts, and the allocation of the result
    panics. *)
Definition overflow_requests : list (action (FileInfo := bool)) :=
  [ask 1 "initialize" (QInitialize (mkInitializeClientOptions None None None));
   ask 2 "launch" (QLaunch (inl (mkLaunchArguments "a.fql" "/w" Absent None true)));
   ask 3 "configurationDone" QConfigurationDone;
   ask 4 "stackTrace" (QStackTrace 1 1 9223372036854775807)].

Lemma stack_trace_overflows :
  Run (λ b, b) negb Bool.eqb overflow_requests started = Panic "makeslice: cap out of range".
Proof. vm_compute. reflexivity. Qed.

Lemma dap_crash_causes_witness :
  Run (λ b, b) negb Bool.eqb overflow_requests started = Panic "makeslice: cap out of range" ∧
  ∃ before rq q e after r, overflow_requests = before ++ ARequest rq q e :: after ∧
    Run (λ b, b) negb Bool.eqb before started = Ret r ∧ crashes q e (rn_server r).
Proof.
  assert (Run (λ b, b) negb Bool.eqb overflow_requests started = Panic "makeslice: cap out of range") as Hrun
    by (vm_compute; reflexivity).
  split; [exact Hrun|].
  destruct (dap_crash_causes (λ b, b) negb Bool.eqb overflow_requests _ Hrun) as (before & rq & q & e & after & r & H1 & H2 & _ & H4).
  - repeat (apply Forall_cons_2; [exact sample_env_ids|]). apply Forall_nil_2.
  - exists before, rq, q, e, after, r. split; [exact H1|]. split; [exact H2|exact H4].
Defined.
