(* ===== verification/Wire.v ===== *)
(** * Protocol messages and the gRPC status library

    The messages of [proto/ferretd/execution/v1/execution.proto],
    [workspace.proto] and [daemon.proto] that the daemon's services send and the
    Go client reads.  A message pointer is an [option], a repeated message field
    a list of pointers, an enum an inductive type with one constructor for the
    numbers the schema does not name.

    [google.golang.org/grpc] and [structpb] are not part of the sources: the
    class [Grpc] has the operations the sources call, with the documented
    behaviour the proofs rely on as its laws. *)

From S2P Require Import Prelude Source Errors Parameters ExecRuntime.

(** ** Messages *)

Record PbWorkspaceId := mkPbWorkspaceId { wi_Value : string }.
Record PbSessionId := mkPbSessionId { si_Value : string }.
Record PbExecutionId := mkPbExecutionId { xi_Value : string }.

Record PbSourceSnapshot := mkPbSourceSnapshot {
  ps_WorkspaceId : option PbWorkspaceId;
  ps_RelativePath : string;
  ps_Uri : string;
  ps_Revision : Z
}.

Record PbSession := mkPbSession {
  pn_Id : option PbSessionId;
  pn_Source : option PbSourceSnapshot;
  pn_Parameters : list string
}.

Inductive PbExecutionState :=
| EXECUTION_STATE_UNSPECIFIED
| EXECUTION_STATE_CREATED
| EXECUTION_STATE_RUNNING
| EXECUTION_STATE_COMPLETED
| EXECUTION_STATE_FAILED
| EXECUTION_STATE_CANCELLED
| EXECUTION_STATE_UNKNOWN (number : Z).

Record PbExecutionOptions := mkPbExecutionOptions {
  po_OutputContentType : string;
  po_WorkingDirectory : option string
}.

Record PbOutput := mkPbOutput { pt_ContentType : string; pt_Data : list Z }.

Inductive PbFailureCategory :=
| FAILURE_CATEGORY_UNSPECIFIED
| FAILURE_CATEGORY_SESSION_CREATION
| FAILURE_CATEGORY_RUNTIME
| FAILURE_CATEGORY_CLEANUP
| FAILURE_CATEGORY_UNKNOWN (number : Z).

Inductive PbDiagnosticSeverity :=
| DIAGNOSTIC_SEVERITY_UNSPECIFIED
| DIAGNOSTIC_SEVERITY_ERROR
| DIAGNOSTIC_SEVERITY_UNKNOWN (number : Z).

Record PbPosition := mkPbPosition { pp_Line : Z; pp_Character : Z }.
Record PbRange := mkPbRange { pr_Start : option PbPosition; pr_End : option PbPosition }.

Record PbRelatedInformation := mkPbRelatedInformation {
  pl_Uri : string;
  pl_Range : option PbRange;
  pl_Message : string
}.

Record PbDiagnostic := mkPbDiagnostic {
  pd_Uri : string;
  pd_Range : option PbRange;
  pd_Severity : PbDiagnosticSeverity;
  pd_Code : string;
  pd_Source : string;
  pd_Message : string;
  pd_RelatedInformation : list (option PbRelatedInformation)
}.

Record PbFailure := mkPbFailure {
  pf_Category : PbFailureCategory;
  pf_Message : string;
  pf_Diagnostics : list (option PbDiagnostic)
}.

Record PbCompilationFailure := mkPbCompilationFailure {
  pc_Source : option PbSourceSnapshot;
  pc_Diagnostics : list (option PbDiagnostic)
}.

Inductive ResourceKind :=
| RESOURCE_KIND_UNSPECIFIED
| RESOURCE_KIND_WORKSPACE
| RESOURCE_KIND_SOURCE
| RESOURCE_KIND_SESSION
| RESOURCE_KIND_EXECUTION
| RESOURCE_KIND_WATCHER
| RESOURCE_KIND_UNKNOWN (number : Z).

Inductive ResourceCondition :=
| RESOURCE_CONDITION_UNSPECIFIED
| RESOURCE_CONDITION_NOT_FOUND
| RESOURCE_CONDITION_CLOSED
| RESOURCE_CONDITION_INVALID_STATE
| RESOURCE_CONDITION_INVALID_PARAMETERS
| RESOURCE_CONDITION_LAGGED
| RESOURCE_CONDITION_INVALID_OPTIONS
| RESOURCE_CONDITION_UNKNOWN (number : Z).

Record PbApiVersion := mkPbApiVersion { pv_Major : Z; pv_Minor : Z }.

Record PbWorkspace := mkPbWorkspace { pw_Id : option PbWorkspaceId; pw_Root : string }.

(** A message attached to a status.  The daemon attaches the first three; a
    peer may attach others. *)
Inductive PbDetail :=
| CompilationFailureDetail (value : PbCompilationFailure)
| ResourceErrorDetail (resource : ResourceKind) (condition : ResourceCondition)
| ApiCompatibilityError (clientApi serverApi : option PbApiVersion)
| OtherDetail.

Global Instance PbExecutionState_eq_dec : EqDecision PbExecutionState.
Proof. solve_decision. Defined.
Global Instance PbDiagnosticSeverity_eq_dec : EqDecision PbDiagnosticSeverity.
Proof. solve_decision. Defined.
Global Instance ResourceKind_eq_dec : EqDecision ResourceKind.
Proof. solve_decision. Defined.
Global Instance ResourceCondition_eq_dec : EqDecision ResourceCondition.
Proof. solve_decision. Defined.

(** ** The gRPC libraries *)

(** [codes.Code]. *)
Inductive Code :=
| OK | Canceled | Unknown | InvalidArgument | DeadlineExceeded | NotFound | AlreadyExists
| PermissionDenied | ResourceExhausted | FailedPrecondition | Aborted | OutOfRange
| Unimplemented | Internal | Unavailable | DataLoss | Unauthenticated.

Global Instance Code_eq_dec : EqDecision Code.
Proof. solve_decision. Defined.

(** The entries of a non-nil [map[string]any]. *)
Definition entries : Type := list (string * tree).

(** A context error or one that wraps it. *)
Definition is_context (err : error) : bool :=
  errors_Is err ContextCanceled || errors_Is err ContextDeadlineExceeded.

Class Grpc := {
  (* structpb *)
  Struct : Type;
  NewStruct : params → Struct + error;
  AsMap : Struct → entries;
  (* the values [structpb] represents exactly: null, booleans, finite numbers as
     float64, valid strings, slices and maps of them *)
  json : entries → Prop;
  NewStruct_json : ∀ m, json (default [] m) → ∃ s, NewStruct m = inl s ∧ AsMap s = default [] m;
  (* status *)
  Status : Type;
  status_New : Code → string → Status;
  WithDetails : Status → PbDetail → Status + error;
  status_Code : Status → Code;
  Message : Status → string;
  Details : Status → list PbDetail;
  FromContextError : error → Status;
  New_code : ∀ c m, status_Code (status_New c m) = c;
  New_message : ∀ c m, Message (status_New c m) = m;
  New_details : ∀ c m, Details (status_New c m) = [];
  (* WithDetails appends, or fails; it cannot attach to OK *)
  WithDetails_ok : ∀ s d s', WithDetails s d = inl s' →
    status_Code s' = status_Code s ∧ Message s' = Message s ∧ Details s' = Details s ++ [d];
  FromContextError_code : ∀ err, is_context err = true →
    (status_Code (FromContextError err) = Canceled ∧ errors_Is err ContextCanceled = true) ∨
    (status_Code (FromContextError err) = DeadlineExceeded ∧ errors_Is err ContextDeadlineExceeded = true);
  FromContextError_details : ∀ err, Details (FromContextError err) = []
}.

(** [s.Err()]: nil for OK. *)
Definition Err `{Grpc} (s : Status) : option Status :=
  if bool_decide (status_Code s = OK) then None else Some s.

(** [status.Error(c, msg)]. *)
Definition status_Error `{Grpc} (c : Code) (msg : string) : option Status := Err (status_New c msg).

Record PbExecution `{Grpc} := mkPbExecution {
  px_Id : option PbExecutionId;
  px_SessionId : option PbSessionId;
  px_State : PbExecutionState;
  px_Parameters : option Struct;
  px_Options : option PbExecutionOptions;
  px_Output : option PbOutput;
  px_Failure : option PbFailure
}.
Arguments PbExecution {_}.
Arguments mkPbExecution {_}.

(** The payload wrappers hold a message pointer whose [Execution] may be nil;
    [GetExecution] of a nil message is nil. *)
Inductive PbPayload `{Grpc} :=
| PayloadCreated (execution : option PbExecution)
| PayloadStarted (execution : option PbExecution)
| PayloadCompleted (execution : option PbExecution)
| PayloadFailed (execution : option PbExecution)
| PayloadCancelled (execution : option PbExecution).
Arguments PbPayload {_}.
Arguments PayloadCreated {_}.
Arguments PayloadStarted {_}.
Arguments PayloadCompleted {_}.
Arguments PayloadFailed {_}.
Arguments PayloadCancelled {_}.

Record PbWatchExecutionResponse `{Grpc} := mkPbWatch {
  pe_ExecutionId : option PbExecutionId;
  pe_Sequence : Z;
  pe_Payload : option PbPayload
}.
Arguments PbWatchExecutionResponse {_}.
Arguments mkPbWatch {_}.

Lemma Err_Some `{Grpc} s : status_Code s ≠ OK → Err s = Some s.
Proof. intros Hs. unfold Err. by rewrite bool_decide_eq_false_2. Qed.

Lemma status_Error_Some `{Grpc} c m : c ≠ OK → status_Error c m = Some (status_New c m).
Proof. intros Hc. apply Err_Some. by rewrite New_code. Qed.
