(* ===== verification/GrpcService.v ===== *)
(** * gRPC services

    [internal/grpc]: the execution, workspace and daemon services.  A handler
    validates the request, calls one operation of the execution or workspace
    manager, and encodes the answer or maps the error to a status.  The managers
    appear by the answers of their operations ([execution_manager],
    [workspace_manager]); a handler returns a response pointer and an error,
    which is nil or the error of a status that is not OK. *)

From S2P Require Import Prelude Source Errors Diagnostics Parameters ExecRuntime Execution ExecSession Wire.

(** What the services call of [exec.Manager] and [workspace.Manager]. *)
Record execution_manager := mkExecutionManager {
  em_CreateSession : string → string → SessionSnapshot + error;
  em_GetSession : string → SessionSnapshot + error;
  em_CloseSession : string → option error;
  em_CreateExecution : string → params → RuntimeOptions → ExecutionSnapshot + error;
  em_RunExecution : string → ExecutionSnapshot + error;
  em_GetExecution : string → ExecutionSnapshot + error;
  em_CancelExecution : string → ExecutionSnapshot + error;
  em_CloseExecution : string → option error
}.

(** The identifier and root of a workspace. *)
Record workspace_view := mkWorkspaceView { wv_ID : string; wv_Root : string }.

Record workspace_manager := mkWorkspaceManager {
  wm_Open : string → workspace_view + error;
  wm_Get : string → workspace_view + error;
  wm_List : list workspace_view + error;
  wm_Close : string → option error
}.

Section service.
Context `{G : Grpc}.

(** ** Encoding *)

Definition toProtoSourceSnapshot (value : SourceSnapshot) : PbSourceSnapshot :=
  mkPbSourceSnapshot (Some (mkPbWorkspaceId (ss_Workspace value))) (ss_RelativePath value) (ss_URI value)
    (ss_Revision value).

Definition toProtoSession (value : SessionSnapshot) : PbSession :=
  mkPbSession (Some (mkPbSessionId (sn_ID value))) (Some (toProtoSourceSnapshot (sn_Source value)))
    ([] ++ sn_Parameters value).

Definition toProtoExecutionState (value : State) : PbExecutionState :=
  match value with
  | StateCreated => EXECUTION_STATE_CREATED
  | StateRunning => EXECUTION_STATE_RUNNING
  | StateCompleted => EXECUTION_STATE_COMPLETED
  | StateFailed => EXECUTION_STATE_FAILED
  | StateCancelled => EXECUTION_STATE_CANCELLED
  end.

Definition toProtoFailureCategory (value : FailureCategory) : PbFailureCategory :=
  match value with
  | FailureSessionCreation => FAILURE_CATEGORY_SESSION_CREATION
  | FailureRuntime => FAILURE_CATEGORY_RUNTIME
  | FailureCleanup => FAILURE_CATEGORY_CLEANUP
  end.

Definition toProtoDiagnosticSeverity (value : Z) : PbDiagnosticSeverity :=
  if bool_decide (value = SeverityError) then DIAGNOSTIC_SEVERITY_ERROR
  else DIAGNOSTIC_SEVERITY_UNSPECIFIED.

Definition toProtoRange (value : Range) : PbRange :=
  mkPbRange (Some (mkPbPosition (Line (Start value)) (Character (Start value))))
    (Some (mkPbPosition (Line (End value)) (Character (End value)))).

Definition toProtoDiagnostic (value : Diagnostic) : PbDiagnostic :=
  mkPbDiagnostic (d_URI value) (Some (toProtoRange (d_Range value)))
    (toProtoDiagnosticSeverity (d_Severity value)) (d_Code value) (d_Source value) (d_Message value)
    (map (λ related, Some (mkPbRelatedInformation (ri_URI related) (Some (toProtoRange (ri_Range related)))
                             (ri_Message related)))
       (d_RelatedInformation value)).

Definition toProtoDiagnostics (values : list Diagnostic) : list (option PbDiagnostic) :=
  map (λ value, Some (toProtoDiagnostic value)) values.

Definition toProtoFailure (value : option Failure) : option PbFailure :=
  match value with
  | None => None
  | Some value =>
      let details := f_RuntimeFailure value in
      Some (mkPbFailure (toProtoFailureCategory (f_Category value)) (rf_Message details)
              (map (λ item, Some (toProtoDiagnostic item)) (rf_Diagnostics details)))
  end.

Definition toProtoExecutionOptions (value : RuntimeOptions) : PbExecutionOptions :=
  mkPbExecutionOptions (OutputContentType value)
    (if bool_decide (WorkingDirectory value = "") then None else Some (WorkingDirectory value)).

Definition fromProtoExecutionOptions (value : option PbExecutionOptions) : RuntimeOptions + error :=
  match value with
  | None => inl (mkRuntimeOptions "" "")
  | Some value =>
      match po_WorkingDirectory value with
      | None => inl (mkRuntimeOptions (po_OutputContentType value) "")
      | Some workingDirectory =>
          if bool_decide (workingDirectory = "") then
            inr (wrap_sentinel ExecErrInvalidExecutionOptions "working directory must not be blank")
          else inl (mkRuntimeOptions (po_OutputContentType value) workingDirectory)
      end
  end.

Definition toProtoExecution (value : ExecutionSnapshot) : PbExecution + error :=
  match NewStruct (es_Parameters value) with
  | inr err => inr (wrap_prefix "encode execution parameters" err)
  | inl parameters =>
      inl (mkPbExecution (Some (mkPbExecutionId (es_ID value))) (Some (mkPbSessionId (es_Session value)))
             (toProtoExecutionState (es_State value)) (Some parameters)
             (Some (toProtoExecutionOptions (es_Options value)))
             (match es_Output value with
              | None => None
              | Some output => Some (mkPbOutput (o_ContentType output) ([] ++ o_Content output))
              end)
             (match es_Failure value with None => None | failure => toProtoFailure failure end))
  end.

Definition toProtoExecutionEvent (value : Event) : PbWatchExecutionResponse + error :=
  if bool_decide (ev_Execution value = "") || negb (bool_decide (es_ID (ev_Snapshot value) = ev_Execution value)) then
    inr (ENew "execution event identity mismatch")
  else
    match toProtoExecution (ev_Snapshot value) with
    | inr err => inr err
    | inl snapshot =>
        let payload :=
          match ev_Kind value with
          | EventCreated => PayloadCreated (Some snapshot)
          | EventStarted => PayloadStarted (Some snapshot)
          | EventCompleted => PayloadCompleted (Some snapshot)
          | EventFailed => PayloadFailed (Some snapshot)
          | EventCancelled => PayloadCancelled (Some snapshot)
          end in
        inl (mkPbWatch (Some (mkPbExecutionId (ev_Execution value))) (ev_Sequence value) (Some payload))
    end.

(** ** Errors *)

(** [errors.As(err, &compilation)]: the first compilation error, in pre-order. *)
Fixpoint errors_AsCompilation (err : error) : option (SourceSnapshot * list Diagnostic) :=
  let first := fix first (es : list error) : option (SourceSnapshot * list Diagnostic) :=
    match es with
    | [] => None
    | e :: es => match errors_AsCompilation e with Some c => Some c | None => first es end
    end in
  match err with
  | ECompilation source diagnostics _ => Some (source, diagnostics)
  | EWrap _ cause => errors_AsCompilation cause
  | EWraps _ causes => first causes
  | EJoin errs => first errs
  | ESentinel _ | ENew _ | EApiDiagnostics _ _ => None
  end.

(** The detail is attached, or the base status is returned without it. *)
Definition attach (base : Status) (detail : PbDetail) : option Status :=
  match WithDetails base detail with
  | inr _ => Err base
  | inl withDetails => Err withDetails
  end.

Definition resourceStatusError (code : Code) (err : error) (resource : ResourceKind)
    (condition : ResourceCondition) : option Status :=
  attach (status_New code (error_text err)) (ResourceErrorDetail resource condition).

Definition toExecutionStatusError (err : error) : option Status :=
  match errors_AsCompilation err with
  | Some (source, diagnostics) =>
      attach (status_New InvalidArgument (sentinel_text ExecErrCompilationFailed))
        (CompilationFailureDetail
           (mkPbCompilationFailure (Some (toProtoSourceSnapshot source)) (toProtoDiagnostics diagnostics)))
  | None =>
      if errors_Is err ContextCanceled || errors_Is err ContextDeadlineExceeded then
        Err (FromContextError err)
      else if errors_Is err WsErrNotFound then
        resourceStatusError NotFound err RESOURCE_KIND_WORKSPACE RESOURCE_CONDITION_NOT_FOUND
      else if errors_Is err WsErrDocumentNotFound then
        resourceStatusError NotFound err RESOURCE_KIND_SOURCE RESOURCE_CONDITION_NOT_FOUND
      else if errors_Is err ExecErrSessionNotFound then
        resourceStatusError NotFound err RESOURCE_KIND_SESSION RESOURCE_CONDITION_NOT_FOUND
      else if errors_Is err ExecErrExecutionNotFound then
        resourceStatusError NotFound err RESOURCE_KIND_EXECUTION RESOURCE_CONDITION_NOT_FOUND
      else if errors_Is err ExecErrInvalidExecutionOptions then
        resourceStatusError InvalidArgument err RESOURCE_KIND_EXECUTION RESOURCE_CONDITION_INVALID_OPTIONS
      else if errors_Is err WsErrDocumentUnavailable then
        resourceStatusError FailedPrecondition err RESOURCE_KIND_SOURCE RESOURCE_CONDITION_CLOSED
      else if errors_Is err WsErrClosed then
        resourceStatusError FailedPrecondition err RESOURCE_KIND_WORKSPACE RESOURCE_CONDITION_CLOSED
      else if errors_Is err ExecErrClosed then
        resourceStatusError FailedPrecondition err RESOURCE_KIND_EXECUTION RESOURCE_CONDITION_CLOSED
      else if errors_Is err ExecErrSessionClosed then
        resourceStatusError FailedPrecondition err RESOURCE_KIND_SESSION RESOURCE_CONDITION_CLOSED
      else if errors_Is err ExecErrExecutionRunning || errors_Is err ExecErrExecutionTerminal then
        resourceStatusError FailedPrecondition err RESOURCE_KIND_EXECUTION RESOURCE_CONDITION_INVALID_STATE
      else if errors_Is err ExecErrWatcherLagged then
        resourceStatusError ResourceExhausted err RESOURCE_KIND_WATCHER RESOURCE_CONDITION_LAGGED
      else status_Error Internal "execution operation failed"
  end.

Definition toWorkspaceStatusError (err : error) : option Status :=
  if errors_Is err ContextCanceled || errors_Is err ContextDeadlineExceeded then
    Err (FromContextError err)
  else if errors_Is err WsErrInvalidRoot then status_Error InvalidArgument (error_text err)
  else if errors_Is err WsErrLoad then status_Error Internal "workspace load failed"
  else if errors_Is err WsErrNotFound then status_Error NotFound (error_text err)
  else status_Error Internal "workspace operation failed".

(** ** The execution service *)

Definition answer (response : Type) : Type := option response * option Status.

Record PbCreateSessionRequest := mkPbCreateSession {
  cs_WorkspaceId : option PbWorkspaceId; cs_RelativePath : string
}.

Record PbCreateExecutionRequest := mkPbCreateExecution {
  ce_SessionId : option PbSessionId;
  ce_Parameters : option Struct;
  ce_Options : option PbExecutionOptions
}.

(** [GetSessionRequest], [RunExecutionRequest] and the like hold one identifier. *)
Record id_request (A : Type) := mkIdRequest { rq_Id : option A }.
Arguments mkIdRequest {_}.
Arguments rq_Id {_}.

Definition CreateSession (M : execution_manager) (request : option PbCreateSessionRequest) :
    answer (option PbSession) :=
  match request with
  | None => (None, status_Error InvalidArgument "workspace ID is required")
  | Some request =>
      match cs_WorkspaceId request with
      | None => (None, status_Error InvalidArgument "workspace ID is required")
      | Some workspaceId =>
          if bool_decide (wi_Value workspaceId = "") then
            (None, status_Error InvalidArgument "workspace ID is required")
          else if bool_decide (cs_RelativePath request = "") then
            (None, status_Error InvalidArgument "workspace-relative source path is required")
          else
            match em_CreateSession M (wi_Value workspaceId) (cs_RelativePath request) with
            | inr err => (None, toExecutionStatusError err)
            | inl result => (Some (Some (toProtoSession result)), None)
            end
      end
  end.

(** The identifier of a request, when there is one and it is not empty. *)
Definition request_id {A} (value : A → string) (request : option (id_request A)) : option string :=
  match request with
  | None => None
  | Some request =>
      match rq_Id request with
      | None => None
      | Some id => if bool_decide (value id = "") then None else Some (value id)
      end
  end.

Definition GetSession (M : execution_manager) (request : option (id_request PbSessionId)) :
    answer (option PbSession) :=
  match request_id si_Value request with
  | None => (None, status_Error NotFound "session not found")
  | Some id =>
      match em_GetSession M id with
      | inr err => (None, toExecutionStatusError err)
      | inl result => (Some (Some (toProtoSession result)), None)
      end
  end.

(** Closing without an identifier succeeds; an empty one reaches the manager. *)
Definition close_request {A} (value : A → string) (close : string → option error)
    (toStatus : error → option Status) (request : option (id_request A)) : answer unit :=
  match request with
  | None => (Some tt, None)
  | Some request =>
      match rq_Id request with
      | None => (Some tt, None)
      | Some id =>
          match close (value id) with
          | Some err => (None, toStatus err)
          | None => (Some tt, None)
          end
      end
  end.

Definition CloseSession (M : execution_manager) : option (id_request PbSessionId) → answer unit :=
  close_request si_Value (em_CloseSession M) toExecutionStatusError.

(** The common end of the handlers that answer with an execution. *)
Definition encoded (result : ExecutionSnapshot + error) : answer (option PbExecution) :=
  match result with
  | inr err => (None, toExecutionStatusError err)
  | inl result =>
      match toProtoExecution result with
      | inr err => (None, toExecutionStatusError err)
      | inl encoded => (Some (Some encoded), None)
      end
  end.

Definition CreateExecution (M : execution_manager) (ctxErr : option error)
    (request : option PbCreateExecutionRequest) : answer (option PbExecution) :=
  match request with
  | None => (None, status_Error InvalidArgument "session ID is required")
  | Some request =>
      match ce_SessionId request with
      | None => (None, status_Error InvalidArgument "session ID is required")
      | Some sessionId =>
          if bool_decide (si_Value sessionId = "") then
            (None, status_Error InvalidArgument "session ID is required")
          else
            match ctxErr with
            | Some err => (None, toExecutionStatusError err)
            | None =>
                let parameters := match ce_Parameters request with None => [] | Some s => AsMap s end in
                match fromProtoExecutionOptions (ce_Options request) with
                | inr err => (None, toExecutionStatusError err)
                | inl options => encoded (em_CreateExecution M (si_Value sessionId) (Some parameters) options)
                end
            end
      end
  end.

(** [RunExecution], [GetExecution] and [CancelExecution] differ in the operation
    they call. *)
Definition execution_request (operation : string → ExecutionSnapshot + error)
    (request : option (id_request PbExecutionId)) : answer (option PbExecution) :=
  match request_id xi_Value request with
  | None => (None, status_Error NotFound "execution not found")
  | Some id => encoded (operation id)
  end.

Definition RunExecution (M : execution_manager) : option (id_request PbExecutionId) → answer (option PbExecution) :=
  execution_request (em_RunExecution M).

Definition GetExecution (M : execution_manager) : option (id_request PbExecutionId) → answer (option PbExecution) :=
  execution_request (em_GetExecution M).

Definition CancelExecution (M : execution_manager) : option (id_request PbExecutionId) → answer (option PbExecution) :=
  execution_request (em_CancelExecution M).

Definition CloseExecution (M : execution_manager) : option (id_request PbExecutionId) → answer unit :=
  close_request xi_Value (em_CloseExecution M) toExecutionStatusError.

(** ** The workspace service *)

Definition toProtoWorkspace (value : workspace_view) : PbWorkspace :=
  mkPbWorkspace (Some (mkPbWorkspaceId (wv_ID value))) (wv_Root value).

Definition workspace_Open (M : workspace_manager) (request : option string) : answer (option PbWorkspace) :=
  match request with
  | None => (None, status_Error InvalidArgument "workspace root is required")
  | Some root =>
      match wm_Open M root with
      | inr err => (None, toWorkspaceStatusError err)
      | inl result => (Some (Some (toProtoWorkspace result)), None)
      end
  end.

Definition workspace_Get (M : workspace_manager) (request : option (id_request PbWorkspaceId)) :
    answer (option PbWorkspace) :=
  match request_id wi_Value request with
  | None => (None, status_Error NotFound "workspace not found")
  | Some id =>
      match wm_Get M id with
      | inr err => (None, toWorkspaceStatusError err)
      | inl result => (Some (Some (toProtoWorkspace result)), None)
      end
  end.

Definition workspace_List (M : workspace_manager) : answer (list (option PbWorkspace)) :=
  match wm_List M with
  | inr err => (None, toWorkspaceStatusError err)
  | inl items => (Some (map (λ item, Some (toProtoWorkspace item)) items), None)
  end.

Definition workspace_Close (M : workspace_manager) : option (id_request PbWorkspaceId) → answer unit :=
  close_request wi_Value (wm_Close M) toWorkspaceStatusError.

(** ** The daemon service *)

Definition apiMajor : Z := 1.
Definition apiMinor : Z := 1.

Definition apiVersion : PbApiVersion := mkPbApiVersion apiMajor apiMinor.

Record PbServerInfo := mkPbServerInfo {
  sv_Version : string; sv_InstanceId : string; sv_ApiVersion : option PbApiVersion
}.

Definition server_info (version instanceID : string) : PbServerInfo :=
  mkPbServerInfo version instanceID (Some apiVersion).

(** [request.ClientApi]; a nil request has none. *)
Definition GetInfo (info : PbServerInfo) (clientApi : option PbApiVersion) : answer (option PbServerInfo) :=
  match clientApi with
  | None => (None, status_Error InvalidArgument "client API version is required")
  | Some clientApi =>
      if bool_decide (pv_Major clientApi ≠ apiMajor) then
        (None, attach (status_New FailedPrecondition "incompatible daemon API major version")
                 (ApiCompatibilityError (Some clientApi) (Some apiVersion)))
      else (Some (Some info), None)
  end.

End service.

Arguments mkIdRequest {_}.
Arguments rq_Id {_}.
