(* ===== verification/GoClient.v ===== *)
(** * The Go client

    [client]: snapshots decoded from protocol messages, the classification of
    RPC errors, and the session, execution, workspace and daemon operations over
    the generated stubs.  A stub is an argument: it maps a request to a response
    pointer or an error.  [FromError] of the status package is a parameter
    ([StatusReader]) with its documented behaviour. *)

From S2P Require Import Prelude Paths Errors Uri Parameters ExecRuntime Wire GrpcService.

(** ** Snapshots *)

Record SourceSnapshot := mkSourceSnapshot {
  src_WorkspaceID : string; src_RelativePath : string; src_URI : string; src_Revision : Z
}.

Record Session := mkSession {
  cl_ID : string; cl_Source : SourceSnapshot; cl_Parameters : list string
}.

Inductive ExecutionState :=
| ExecutionStateCreated | ExecutionStateRunning | ExecutionStateCompleted | ExecutionStateFailed
| ExecutionStateCancelled.

Global Instance ExecutionState_eq_dec : EqDecision ExecutionState.
Proof. solve_decision. Defined.

Definition ExecutionState_Terminal (s : ExecutionState) : bool :=
  bool_decide (s = ExecutionStateCompleted) || bool_decide (s = ExecutionStateFailed) ||
  bool_decide (s = ExecutionStateCancelled).

Record ExecutionOptions := mkExecutionOptions {
  xo_OutputContentType : string; xo_WorkingDirectory : string
}.

Record ExecutionOutput := mkExecutionOutput { xt_ContentType : string; xt_Data : list Z }.

Inductive FailureCategory :=
| FailureCategorySessionCreation | FailureCategoryRuntime | FailureCategoryCleanup.

Definition DiagnosticSeverityError : Z := 1.

Record Position := mkPosition { po_Line : Z; po_Character : Z }.
Record Range := mkRange { ra_Start : Position; ra_End : Position }.

Record RelatedInformation := mkRelatedInformation {
  re_URI : string; re_Range : Range; re_Message : string
}.

Record Diagnostic := mkDiagnostic {
  di_URI : string;
  di_Range : Range;
  di_Severity : Z;
  di_Code : string;
  di_Source : string;
  di_Message : string;
  di_RelatedInformation : list RelatedInformation
}.

Record ExecutionFailure := mkExecutionFailure {
  xf_Category : FailureCategory; xf_Message : string; xf_Diagnostics : list Diagnostic
}.

Record Execution := mkExecution {
  x_ID : string;
  x_SessionID : string;
  x_State : ExecutionState;
  x_Parameters : entries;
  x_Options : ExecutionOptions;
  x_Output : option ExecutionOutput;
  x_Failure : option ExecutionFailure
}.

Inductive ExecutionEventKind :=
| ExecutionEventCreated | ExecutionEventStarted | ExecutionEventCompleted | ExecutionEventFailed
| ExecutionEventCancelled.

Record ExecutionEvent := mkExecutionEvent {
  xe_ExecutionID : string; xe_Sequence : Z; xe_Kind : ExecutionEventKind; xe_Execution : Execution
}.

Record APIVersion := mkAPIVersion { av_Major : Z; av_Minor : Z }.

Record ServerInfo := mkServerInfo {
  inf_Version : string; inf_InstanceID : string; inf_APIVersion : APIVersion
}.

Record Workspace := mkWorkspace { cw_ID : string; cw_Root : string }.

(** ** Errors *)

(** The sentinels of [errors.go] and [execution_errors.go]. *)
Inductive client_sentinel :=
| ErrIncompleteServerInfo | ErrIncompleteWorkspace | ErrIncompatibleAPI | ErrDaemonUnavailable
| ErrInvalidEndpoint | ErrInvalidBearerToken | ErrBearerTokenRequired | ErrBearerTokenUnsupported
| ErrInvalidWorkspaceRoot | ErrWorkspaceNotFound
| ErrIncompleteExecutionSession | ErrIncompleteExecution | ErrIncompleteExecutionEvent
| ErrExecutionSourceNotFound | ErrExecutionSourceClosed | ErrSessionNotFound | ErrSessionClosed
| ErrExecutionNotFound | ErrInvalidExecutionState | ErrInvalidExecutionParameters
| ErrInvalidExecutionOptions | ErrExecutionWatcherLagged | ErrExecutionServiceClosed
| ErrCompilationFailed.

Global Instance client_sentinel_eq_dec : EqDecision client_sentinel.
Proof. solve_decision. Defined.

Section errors.
Context `{G : Grpc}.

(** An error the client sees: one that is not its own (a context error, the end
    of a stream), a sentinel, [fmt.Errorf("%w: %s", sentinel, text)], the error
    of a status, its two typed errors and [errors.Join]. *)
Inductive cerror :=
| CForeign (err : error)
| CSentinel (s : client_sentinel)
| CWrap (s : client_sentinel) (text : string)
| CStatus (s : Status)
| IncompatibleAPIError (Client Server : APIVersion)
| CompilationError (Source : SourceSnapshot) (Diagnostics : list Diagnostic) (cause : cerror)
| CJoin (errs : list cerror).

(** [errors.Is] for a client sentinel. *)
Fixpoint c_Is (err : cerror) (target : client_sentinel) : bool :=
  match err with
  | CForeign _ | CStatus _ => false
  | CSentinel s | CWrap s _ => bool_decide (s = target)
  | IncompatibleAPIError _ _ => bool_decide (ErrIncompatibleAPI = target)
  | CompilationError _ _ cause => bool_decide (ErrCompilationFailed = target) || c_Is cause target
  | CJoin errs => existsb (λ e, c_Is e target) errs
  end.

(** An error that is, or wraps, the error of a status. *)
Fixpoint has_status (err : cerror) : bool :=
  match err with
  | CStatus _ => true
  | CForeign _ | CSentinel _ | CWrap _ _ | IncompatibleAPIError _ _ => false
  | CompilationError _ _ cause => has_status cause
  | CJoin errs => existsb has_status errs
  end.

(** [status.FromError]: the status of an error of the status package, OK for
    nil, and not ok for an error without a status. *)
Class StatusReader := {
  FromError : option cerror → Status * bool;
  FromError_nil : (FromError None).2 = true ∧ status_Code (FromError None).1 = OK ∧
                  Details (FromError None).1 = [];
  FromError_status : ∀ s, FromError (Some (CStatus s)) = (s, true);
  FromError_other : ∀ err, has_status err = false → (FromError (Some err)).2 = false
}.

End errors.
Arguments cerror {_}.

Section client.
Context `{G : Grpc} `{R : !StatusReader}.

(** ** Decoding *)

Definition fromProtoSession (value : option PbSession) : Session + cerror :=
  match value with
  | Some (mkPbSession (Some (mkPbSessionId id)) (Some source) parameters) =>
      match ps_WorkspaceId source with
      | Some workspaceId =>
          if bool_decide (id = "") then inr (CSentinel ErrIncompleteExecutionSession)
          else
            inl (mkSession id
                   (mkSourceSnapshot (wi_Value workspaceId) (ps_RelativePath source) (ps_Uri source)
                      (ps_Revision source))
                   ([] ++ parameters))
      | None => inr (CSentinel ErrIncompleteExecutionSession)
      end
  | _ => inr (CSentinel ErrIncompleteExecutionSession)
  end.

Definition client_toProtoExecutionOptions (value : ExecutionOptions) : PbExecutionOptions :=
  mkPbExecutionOptions (xo_OutputContentType value)
    (if bool_decide (xo_WorkingDirectory value = "") then None else Some (xo_WorkingDirectory value)).

Definition client_fromProtoExecutionOptions (value : option PbExecutionOptions) : ExecutionOptions :=
  match value with
  | None => mkExecutionOptions "" ""
  | Some value => mkExecutionOptions (po_OutputContentType value) (default "" (po_WorkingDirectory value))
  end.

Definition fromProtoExecutionState (value : PbExecutionState) : ExecutionState + cerror :=
  match value with
  | EXECUTION_STATE_CREATED => inl ExecutionStateCreated
  | EXECUTION_STATE_RUNNING => inl ExecutionStateRunning
  | EXECUTION_STATE_COMPLETED => inl ExecutionStateCompleted
  | EXECUTION_STATE_FAILED => inl ExecutionStateFailed
  | EXECUTION_STATE_CANCELLED => inl ExecutionStateCancelled
  | _ => inr (CSentinel ErrIncompleteExecution)
  end.

Definition fromProtoFailureCategory (value : PbFailureCategory) : FailureCategory + cerror :=
  match value with
  | FAILURE_CATEGORY_SESSION_CREATION => inl FailureCategorySessionCreation
  | FAILURE_CATEGORY_RUNTIME => inl FailureCategoryRuntime
  | FAILURE_CATEGORY_CLEANUP => inl FailureCategoryCleanup
  | _ => inr (CSentinel ErrIncompleteExecution)
  end.

Definition fromProtoDiagnosticSeverity (value : PbDiagnosticSeverity) : Z :=
  if bool_decide (value = DIAGNOSTIC_SEVERITY_ERROR) then DiagnosticSeverityError else 0.

Definition fromProtoPosition (value : option PbPosition) : Position :=
  match value with
  | None => mkPosition 0 0
  | Some value => mkPosition (pp_Line value) (pp_Character value)
  end.

Definition fromProtoRange (value : option PbRange) : Range :=
  match value with
  | None => mkRange (mkPosition 0 0) (mkPosition 0 0)
  | Some value => mkRange (fromProtoPosition (pr_Start value)) (fromProtoPosition (pr_End value))
  end.

(** The loops skip nil elements. *)
Definition fromProtoDiagnostics (values : list (option PbDiagnostic)) : list Diagnostic :=
  omap (λ value : option PbDiagnostic,
    match value with
    | None => None
    | Some value =>
        Some (mkDiagnostic (pd_Uri value) (fromProtoRange (pd_Range value))
                (fromProtoDiagnosticSeverity (pd_Severity value)) (pd_Code value) (pd_Source value)
                (pd_Message value)
                (omap (λ related : option PbRelatedInformation,
                   match related with
                   | None => None
                   | Some related =>
                       Some (mkRelatedInformation (pl_Uri related) (fromProtoRange (pl_Range related))
                               (pl_Message related))
                   end) (pd_RelatedInformation value)))
    end) values.

Definition fromProtoFailure (value : PbFailure) : ExecutionFailure + cerror :=
  match fromProtoFailureCategory (pf_Category value) with
  | inr err => inr err
  | inl category =>
      inl (mkExecutionFailure category (pf_Message value) (fromProtoDiagnostics (pf_Diagnostics value)))
  end.

Definition fromProtoExecution (value : option PbExecution) : Execution + cerror :=
  match value with
  | Some (mkPbExecution (Some (mkPbExecutionId id)) (Some (mkPbSessionId sessionId)) st parameters
            options output failure) =>
      if bool_decide (id = "") || bool_decide (sessionId = "") then inr (CSentinel ErrIncompleteExecution)
      else
        match fromProtoExecutionState st with
        | inr err => inr err
        | inl state =>
            let result := mkExecution id sessionId state
              (match parameters with Some s => AsMap s | None => [] end)
              (client_fromProtoExecutionOptions options)
              (match output with
               | Some output => Some (mkExecutionOutput (pt_ContentType output) ([] ++ pt_Data output))
               | None => None
               end) in
            match failure with
            | None => inl (result None)
            | Some failure =>
                match fromProtoFailure failure with
                | inr err => inr err
                | inl failure => inl (result (Some failure))
                end
            end
        end
  | _ => inr (CSentinel ErrIncompleteExecution)
  end.

Definition protoEventPayload (value : PbWatchExecutionResponse) :
    option (ExecutionEventKind * option PbExecution) :=
  match pe_Payload value with
  | Some (PayloadCreated execution) => Some (ExecutionEventCreated, execution)
  | Some (PayloadStarted execution) => Some (ExecutionEventStarted, execution)
  | Some (PayloadCompleted execution) => Some (ExecutionEventCompleted, execution)
  | Some (PayloadFailed execution) => Some (ExecutionEventFailed, execution)
  | Some (PayloadCancelled execution) => Some (ExecutionEventCancelled, execution)
  | None => None
  end.

Definition fromProtoExecutionEvent (value : option PbWatchExecutionResponse) : ExecutionEvent + cerror :=
  let incomplete := CSentinel ErrIncompleteExecutionEvent in
  match value with
  | None => inr incomplete
  | Some value =>
      match pe_ExecutionId value with
      | None => inr incomplete
      | Some executionId =>
          if bool_decide (xi_Value executionId = "") || bool_decide (pe_Sequence value = 0%Z) then inr incomplete
          else
            match protoEventPayload value with
            | Some (kind, Some execution) =>
                match fromProtoExecution (Some execution) with
                | inr err => inr (CJoin [incomplete; err])
                | inl snapshot =>
                    if bool_decide (x_ID snapshot ≠ xi_Value executionId) then inr incomplete
                    else inl (mkExecutionEvent (xi_Value executionId) (pe_Sequence value) kind snapshot)
                end
            | _ => inr incomplete
            end
      end
  end.

Definition toProtoAPIVersion (value : APIVersion) : PbApiVersion :=
  mkPbApiVersion (av_Major value) (av_Minor value).

Definition fromProtoAPIVersion (value : option PbApiVersion) : APIVersion :=
  match value with
  | None => mkAPIVersion 0 0
  | Some value => mkAPIVersion (pv_Major value) (pv_Minor value)
  end.

Definition fromProtoWorkspace (value : option PbWorkspace) : Workspace + cerror :=
  match value with
  | Some (mkPbWorkspace (Some id) root) => inl (mkWorkspace (wi_Value id) root)
  | _ => inr (CSentinel ErrIncompleteWorkspace)
  end.

(** ** Error classification *)

(** The loop of [mapError] over the details. *)
Fixpoint compatibility_detail (details : list PbDetail) : option cerror :=
  match details with
  | [] => None
  | ApiCompatibilityError clientApi serverApi :: _ =>
      Some (IncompatibleAPIError (fromProtoAPIVersion clientApi) (fromProtoAPIVersion serverApi))
  | _ :: details => compatibility_detail details
  end.

(** [ctxErr] is what [ctx.Err()] returns. *)
Definition mapError (ctxErr : option error) (err : option cerror) : option cerror :=
  match err with
  | None => None
  | Some e =>
      match ctxErr with
      | Some contextErr => Some (CForeign contextErr)
      | None =>
          let '(grpcStatus, ok) := FromError err in
          if negb ok then Some e
          else
            match status_Code grpcStatus with
            | Canceled => Some (CForeign (ESentinel ContextCanceled))
            | DeadlineExceeded => Some (CForeign (ESentinel ContextDeadlineExceeded))
            | FailedPrecondition =>
                match compatibility_detail (Details grpcStatus) with
                | Some incompatible => Some incompatible
                | None => Some e
                end
            | Unavailable => Some (CWrap ErrDaemonUnavailable (Message grpcStatus))
            | _ => Some e
            end
      end
  end.

Definition resourceClassification (resource : ResourceKind) (condition : ResourceCondition) :
    option client_sentinel :=
  match resource, condition with
  | RESOURCE_KIND_WORKSPACE, RESOURCE_CONDITION_NOT_FOUND => Some ErrWorkspaceNotFound
  | RESOURCE_KIND_SOURCE, RESOURCE_CONDITION_NOT_FOUND => Some ErrExecutionSourceNotFound
  | RESOURCE_KIND_WORKSPACE, RESOURCE_CONDITION_CLOSED => Some ErrExecutionSourceClosed
  | RESOURCE_KIND_SOURCE, RESOURCE_CONDITION_CLOSED => Some ErrExecutionSourceClosed
  | RESOURCE_KIND_SESSION, RESOURCE_CONDITION_NOT_FOUND => Some ErrSessionNotFound
  | RESOURCE_KIND_SESSION, RESOURCE_CONDITION_CLOSED => Some ErrSessionClosed
  | RESOURCE_KIND_EXECUTION, RESOURCE_CONDITION_NOT_FOUND => Some ErrExecutionNotFound
  | RESOURCE_KIND_EXECUTION, RESOURCE_CONDITION_INVALID_STATE => Some ErrInvalidExecutionState
  | RESOURCE_KIND_EXECUTION, RESOURCE_CONDITION_INVALID_PARAMETERS => Some ErrInvalidExecutionParameters
  | RESOURCE_KIND_EXECUTION, RESOURCE_CONDITION_INVALID_OPTIONS => Some ErrInvalidExecutionOptions
  | RESOURCE_KIND_EXECUTION, RESOURCE_CONDITION_CLOSED => Some ErrExecutionServiceClosed
  | RESOURCE_KIND_WATCHER, RESOURCE_CONDITION_LAGGED => Some ErrExecutionWatcherLagged
  | _, _ => None
  end.

(** The loop of [executionResourceError]: the first resource detail decides. *)
Fixpoint resource_detail (message : string) (details : list PbDetail) : option cerror :=
  match details with
  | [] => None
  | ResourceErrorDetail resource condition :: _ =>
      match resourceClassification resource condition with
      | None => None
      | Some classification => Some (CWrap classification message)
      end
  | _ :: details => resource_detail message details
  end.

Definition executionResourceError (err : option cerror) : option cerror :=
  let '(grpcStatus, ok) := FromError err in
  if negb ok then None else resource_detail (Message grpcStatus) (Details grpcStatus).

Definition mapExecutionStatus (ctxErr : option error) (err : option cerror)
    (notFound failedPrecondition : client_sentinel) : option cerror :=
  let mapped := mapError ctxErr err in
  match executionResourceError mapped with
  | Some classified => Some classified
  | None =>
      let '(grpcStatus, ok) := FromError mapped in
      if negb ok then mapped
      else
        match status_Code grpcStatus with
        | NotFound => Some (CWrap notFound (Message grpcStatus))
        | FailedPrecondition => Some (CWrap failedPrecondition (Message grpcStatus))
        | _ => mapped
        end
  end.

Definition compilationErrorFromProto (value : PbCompilationFailure) (cause : cerror) : cerror :=
  CompilationError
    (match pc_Source value with
     | None => mkSourceSnapshot "" "" "" 0
     | Some source =>
         mkSourceSnapshot (match ps_WorkspaceId source with Some id => wi_Value id | None => "" end)
           (ps_RelativePath source) (ps_Uri source) (ps_Revision source)
     end)
    (fromProtoDiagnostics (pc_Diagnostics value)) cause.

Fixpoint compilation_detail (cause : cerror) (details : list PbDetail) : option cerror :=
  match details with
  | [] => None
  | CompilationFailureDetail failure :: _ => Some (compilationErrorFromProto failure cause)
  | _ :: details => compilation_detail cause details
  end.

Definition mapCreateSessionError (ctxErr : option error) (err : cerror) : option cerror :=
  match mapError ctxErr (Some err) with
  | None => None
  | Some m as mapped =>
      let '(grpcStatus, ok) := FromError mapped in
      if negb ok then mapped
      else
        let compilation :=
          if bool_decide (status_Code grpcStatus = InvalidArgument)
          then compilation_detail m (Details grpcStatus) else None in
        match compilation with
        | Some e => Some e
        | None =>
            match executionResourceError mapped with
            | Some classified => Some classified
            | None =>
                match status_Code grpcStatus with
                | NotFound => Some (CWrap ErrExecutionSourceNotFound (Message grpcStatus))
                | FailedPrecondition => Some (CWrap ErrExecutionSourceClosed (Message grpcStatus))
                | _ => mapped
                end
            end
        end
  end.

Definition mapSessionError (ctxErr : option error) (err : option cerror) : option cerror :=
  mapExecutionStatus ctxErr err ErrSessionNotFound ErrSessionClosed.

Definition mapCreateExecutionError (ctxErr : option error) (err : option cerror) : option cerror :=
  let mapped := mapExecutionStatus ctxErr err ErrSessionNotFound ErrSessionClosed in
  let '(grpcStatus, ok) := FromError mapped in
  if ok && bool_decide (status_Code grpcStatus = InvalidArgument)
  then Some (CWrap ErrInvalidExecutionParameters (Message grpcStatus)) else mapped.

Definition mapExecutionError (ctxErr : option error) (err : option cerror) : option cerror :=
  mapExecutionStatus ctxErr err ErrExecutionNotFound ErrInvalidExecutionState.

Definition mapWatchExecutionError (ctxErr : option error) (err : option cerror) : option cerror :=
  let mapped := mapExecutionError ctxErr err in
  let '(grpcStatus, ok) := FromError mapped in
  if ok && bool_decide (status_Code grpcStatus = ResourceExhausted)
  then Some (CWrap ErrExecutionWatcherLagged (Message grpcStatus)) else mapped.

Definition mapWorkspaceOpenError (ctxErr : option error) (err : option cerror) : option cerror :=
  let mapped := mapError ctxErr err in
  let '(grpcStatus, ok) := FromError mapped in
  if negb ok || bool_decide (status_Code grpcStatus ≠ InvalidArgument) then mapped
  else Some (CWrap ErrInvalidWorkspaceRoot (Message grpcStatus)).

Definition mapWorkspaceGetError (ctxErr : option error) (err : option cerror) : option cerror :=
  let mapped := mapError ctxErr err in
  let '(grpcStatus, ok) := FromError mapped in
  if negb ok || bool_decide (status_Code grpcStatus ≠ NotFound) then mapped
  else Some (CWrap ErrWorkspaceNotFound (Message grpcStatus)).

(** ** Operations *)

(** The generated stubs: a response pointer, or an error. *)
Definition stub (request response : Type) : Type := request → option response + cerror.

(** A Go result: the value ([None] is the zero value) and the error. *)
Definition returned (A : Type) : Type := option A * option cerror.

Definition of_sum {A} (r : A + cerror) : returned A :=
  match r with inl a => (Some a, None) | inr err => (None, Some err) end.

Definition client_CreateSession (call : stub PbCreateSessionRequest (option PbSession))
    (ctxErr : option error) (workspaceID relativePath : string) : returned Session :=
  match call (mkPbCreateSession (Some (mkPbWorkspaceId workspaceID)) relativePath) with
  | inr err => (None, mapCreateSessionError ctxErr err)
  | inl None => (None, Some (CSentinel ErrIncompleteExecutionSession))
  | inl (Some response) => of_sum (fromProtoSession response)
  end.

Definition client_GetSession (call : stub (id_request PbSessionId) (option PbSession))
    (ctxErr : option error) (id : string) : returned Session :=
  match call (mkIdRequest (Some (mkPbSessionId id))) with
  | inr err => (None, mapSessionError ctxErr (Some err))
  | inl None => (None, Some (CSentinel ErrIncompleteExecutionSession))
  | inl (Some response) => of_sum (fromProtoSession response)
  end.

(** The error of a stub call whose response is ignored. *)
Definition call_error {response} (r : option response + cerror) : option cerror :=
  match r with inl _ => None | inr err => Some err end.

Definition client_CloseSession (call : stub (id_request PbSessionId) unit) (ctxErr : option error)
    (id : string) : option cerror :=
  mapSessionError ctxErr (call_error (call (mkIdRequest (Some (mkPbSessionId id))))).

Definition client_CreateExecution (call : stub PbCreateExecutionRequest (option PbExecution))
    (ctxErr : option error) (sessionID : string) (parameters : params) (options : ExecutionOptions) :
    returned Execution :=
  match NewStruct parameters with
  | inr err => (None, Some (CWrap ErrInvalidExecutionParameters (error_text err)))
  | inl parameters =>
      match call (mkPbCreateExecution (Some (mkPbSessionId sessionID)) (Some parameters)
                    (Some (client_toProtoExecutionOptions options))) with
      | inr err => (None, mapCreateExecutionError ctxErr (Some err))
      | inl None => (None, Some (CSentinel ErrIncompleteExecution))
      | inl (Some response) => of_sum (fromProtoExecution response)
      end
  end.

(** [RunExecution], [GetExecution] and [CancelExecution] differ in the stub. *)
Definition client_execution (call : stub (id_request PbExecutionId) (option PbExecution))
    (ctxErr : option error) (id : string) : returned Execution :=
  match call (mkIdRequest (Some (mkPbExecutionId id))) with
  | inr err => (None, mapExecutionError ctxErr (Some err))
  | inl None => (None, Some (CSentinel ErrIncompleteExecution))
  | inl (Some response) => of_sum (fromProtoExecution response)
  end.

Definition client_CloseExecution (call : stub (id_request PbExecutionId) unit) (ctxErr : option error)
    (id : string) : option cerror :=
  mapExecutionError ctxErr (call_error (call (mkIdRequest (Some (mkPbExecutionId id))))).

(** [Recv] of a watcher; the stream hands out a response or an error. *)
Definition Recv (received : option PbWatchExecutionResponse + cerror) (ctxErr : option error) :
    returned ExecutionEvent :=
  match received with
  | inr err => (None, mapWatchExecutionError ctxErr (Some err))
  | inl response => of_sum (fromProtoExecutionEvent response)
  end.

(** [WorkspaceClient.Open]; [Getwd] resolves a relative root. *)
Definition client_Open (Getwd : string + error) (call : stub string (option PbWorkspace))
    (ctxErr : option error) (root : string) : returned Workspace :=
  if bool_decide (root = "") then (None, Some (CSentinel ErrInvalidWorkspaceRoot))
  else
    match Abs Getwd root with
    | inr err => (None, Some (CWrap ErrInvalidWorkspaceRoot ("resolve absolute root: " +:+ error_text err)))
    | inl absolute =>
        match call (Clean absolute) with
        | inr err => (None, mapWorkspaceOpenError ctxErr (Some err))
        | inl None => (None, Some (CSentinel ErrIncompleteWorkspace))
        | inl (Some response) => of_sum (fromProtoWorkspace response)
        end
    end.

Definition client_Get (call : stub (id_request PbWorkspaceId) (option PbWorkspace))
    (ctxErr : option error) (id : string) : returned Workspace :=
  match call (mkIdRequest (Some (mkPbWorkspaceId id))) with
  | inr err => (None, mapWorkspaceGetError ctxErr (Some err))
  | inl None => (None, Some (CSentinel ErrIncompleteWorkspace))
  | inl (Some response) => of_sum (fromProtoWorkspace response)
  end.

(** The loop of [List]: the first undecodable item fails the call. *)
Fixpoint decode_workspaces (items : list (option PbWorkspace)) : list Workspace + cerror :=
  match items with
  | [] => inl []
  | item :: items =>
      match fromProtoWorkspace item with
      | inr err => inr err
      | inl workspace =>
          match decode_workspaces items with
          | inr err => inr err
          | inl workspaces => inl (workspace :: workspaces)
          end
      end
  end.

Definition client_List (call : stub unit (list (option PbWorkspace))) (ctxErr : option error) :
    returned (list Workspace) :=
  match call tt with
  | inr err => (None, mapError ctxErr (Some err))
  | inl None => (None, Some (CSentinel ErrIncompleteWorkspace))
  | inl (Some items) => of_sum (decode_workspaces items)
  end.

Definition client_Close (call : stub (id_request PbWorkspaceId) unit) (ctxErr : option error)
    (id : string) : option cerror :=
  mapError ctxErr (call_error (call (mkIdRequest (Some (mkPbWorkspaceId id))))).

Definition currentAPIVersion : APIVersion := mkAPIVersion 1 1.

Definition Info (call : stub PbApiVersion (option PbServerInfo)) (ctxErr : option error) :
    returned ServerInfo :=
  match call (toProtoAPIVersion currentAPIVersion) with
  | inr err => (None, mapError ctxErr (Some err))
  | inl (Some (Some (mkPbServerInfo version instanceId (Some apiVersion)))) =>
      (Some (mkServerInfo version instanceId (fromProtoAPIVersion (Some apiVersion))), None)
  | inl _ => (None, Some (CSentinel ErrIncompleteServerInfo))
  end.

End client.
