(* ===== verification/Rpc.v ===== *)
(** * Client and services together

    The Go client against the gRPC services: what a client operation returns,
    given what the daemon's manager answers.  [delivered] states what a unary
    call does: it hands the client the handler's response, or the error of the
    handler's status.  The client's views are compared with the manager's
    snapshots through [restore], which rebuilds a snapshot from a view. *)

From S2P Require Import Prelude Source Errors Diagnostics Parameters ExecRuntime Watchers Execution ExecSession Wire GrpcService GoClient.

Local Arguments fromProtoExecution : simpl never.
Local Arguments fromProtoSession : simpl never.

Section rpc.
Context `{G : Grpc} `{R : !StatusReader}.

(** A unary call: [r] is what the client's stub returns for the handler's
    answer [a].  gRPC reports an error of its own when a handler returns neither
    a response nor an error. *)
Definition delivered {response} (a : answer response) (r : option response + cerror) : Prop :=
  match a with
  | (_, Some s) => r = inr (CStatus s)
  | (Some x, None) => r = inl (Some x)
  | (None, None) => True
  end.

(** Details attach to every status that is not OK. *)
Definition details_attach : Prop := ∀ s d, status_Code s ≠ OK → ∃ s', WithDetails s d = inl s'.

(** ** Specification of the error classes *)

Definition error_table : list (sentinel * client_sentinel) :=
  [(WsErrNotFound, ErrWorkspaceNotFound);
   (WsErrDocumentNotFound, ErrExecutionSourceNotFound);
   (ExecErrSessionNotFound, ErrSessionNotFound);
   (ExecErrExecutionNotFound, ErrExecutionNotFound);
   (ExecErrInvalidExecutionOptions, ErrInvalidExecutionOptions);
   (WsErrDocumentUnavailable, ErrExecutionSourceClosed);
   (WsErrClosed, ErrExecutionSourceClosed);
   (ExecErrClosed, ErrExecutionServiceClosed);
   (ExecErrSessionClosed, ErrSessionClosed);
   (ExecErrExecutionRunning, ErrInvalidExecutionState);
   (ExecErrExecutionTerminal, ErrInvalidExecutionState);
   (ExecErrWatcherLagged, ErrExecutionWatcherLagged)].

Fixpoint first_class (table : list (sentinel * client_sentinel)) (err : error) : option client_sentinel :=
  match table with
  | [] => None
  | (s, c) :: table => if errors_Is err s then Some c else first_class table err
  end.

(** What the client of an execution operation sees of the manager's error. *)
Definition reports (err : error) (e : cerror) : Prop :=
  if is_context err then
    ∃ k, k ∈ [ContextCanceled; ContextDeadlineExceeded] ∧ errors_Is err k = true ∧ e = CForeign (ESentinel k)
  else
    match first_class error_table err with
    | Some c => e = CWrap c (error_text err)
    | None => e = CStatus (status_New Internal "execution operation failed")
    end.

(** ** Statuses of errors *)

(** The status of an error without compilation failure: what the client reads. *)
Inductive status_of (err : error) (s : Status) : Prop :=
| status_context : is_context err = true → s = FromContextError err → status_of err s
| status_resource resource condition c :
    is_context err = false → Message s = error_text err → Details s = [ResourceErrorDetail resource condition] →
    status_Code s ∈ [NotFound; InvalidArgument; FailedPrecondition; ResourceExhausted] →
    resourceClassification resource condition = Some c → first_class error_table err = Some c → status_of err s
| status_internal :
    is_context err = false → first_class error_table err = None →
    s = status_New Internal "execution operation failed" → status_of err s.

Lemma attach_ok s d : details_attach → status_Code s ≠ OK →
  ∃ s', attach s d = Some s' ∧ status_Code s' = status_Code s ∧ Message s' = Message s ∧ Details s' = Details s ++ [d].
Proof.
  intros Ha Hs. destruct (Ha s d Hs) as [s' Hw]. destruct (WithDetails_ok _ _ _ Hw) as (Hc & Hm & Hd).
  exists s'. unfold attach. rewrite Hw. split; [|done]. apply Err_Some. congruence.
Qed.

Lemma resource_ok code err resource condition c :
  details_attach → code ∈ [NotFound; InvalidArgument; FailedPrecondition; ResourceExhausted] →
  is_context err = false → resourceClassification resource condition = Some c →
  first_class error_table err = Some c →
  ∃ s, resourceStatusError code err resource condition = Some s ∧ status_of err s.
Proof.
  intros Ha Hc Hctx Hr Hf. unfold resourceStatusError.
  destruct (attach_ok (status_New code (error_text err)) (ResourceErrorDetail resource condition) Ha)
    as (s & -> & Hs & Hm & Hd).
  { rewrite New_code. intros ->. set_solver. }
  exists s. split; [done|]. rewrite New_code in Hs. rewrite New_message in Hm. rewrite New_details in Hd.
  apply (status_resource _ _ resource condition c); try done. by rewrite Hs.
Qed.

Lemma toExecutionStatusError_ok err :
  details_attach → errors_AsCompilation err = None →
  ∃ s, toExecutionStatusError err = Some s ∧ status_of err s.
Proof.
  intros Ha Hc. unfold toExecutionStatusError. rewrite Hc.
  destruct (errors_Is err ContextCanceled || errors_Is err ContextDeadlineExceeded) eqn:Hctx.
  { exists (FromContextError err). split; [|by apply status_context].
    apply Err_Some. destruct (FromContextError_code err Hctx) as [[-> _]|[-> _]]; done. }
  repeat match goal with
  | |- context [if errors_Is err ?s || errors_Is err ?s' then _ else _] =>
      destruct (errors_Is err s) eqn:?; [|destruct (errors_Is err s') eqn:?]; simpl
  | |- context [if errors_Is err ?s then _ else _] => destruct (errors_Is err s) eqn:?
  end;
  try (eapply resource_ok; [done|set_solver|done|done|]; unfold first_class, error_table;
       repeat match goal with H : errors_Is err _ = _ |- _ => rewrite H; clear H end; reflexivity).
  exists (status_New Internal "execution operation failed"). split; [by apply status_Error_Some|].
  apply status_internal; [done| |done]. unfold first_class, error_table.
  repeat match goal with H : errors_Is err _ = _ |- _ => rewrite H; clear H end. reflexivity.
Qed.

(** ** The client's mappings *)

Lemma FromError_foreign e : FromError (Some (CForeign e)) = ((FromError (Some (CForeign e))).1, false).
Proof. pose proof (FromError_other (CForeign e) eq_refl). by destruct (FromError _) as [? []]. Qed.

Lemma FromError_wrap c t : FromError (Some (CWrap c t)) = ((FromError (Some (CWrap c t))).1, false).
Proof. pose proof (FromError_other (CWrap c t) eq_refl). by destruct (FromError _) as [? []]. Qed.

Lemma resource_foreign e : executionResourceError (Some (CForeign e)) = None.
Proof. unfold executionResourceError. by rewrite FromError_foreign. Qed.

(** [mapError] on the status of an error. *)
Lemma mapError_status err s : status_of err s →
  mapError None (Some (CStatus s)) =
    Some (if is_context err then
            CForeign (ESentinel (if bool_decide (status_Code s = Canceled) then ContextCanceled
                                 else ContextDeadlineExceeded))
          else CStatus s).
Proof.
  intros Hs. unfold mapError. rewrite FromError_status. simpl.
  destruct Hs as [Hc ->|resource condition c Hc Hm Hd Hcode Hr Hf|Hc Hf ->]; rewrite Hc.
  - destruct (FromContextError_code err Hc) as [[-> _]|[-> _]]; done.
  - rewrite Hd. simpl. set_unfold in Hcode. destruct Hcode as [->|[->|[->|[->|[]]]]]; done.
  - by rewrite New_code.
Qed.

Lemma reports_context err s : is_context err = true → s = FromContextError err →
  reports err (CForeign (ESentinel (if bool_decide (status_Code s = Canceled) then ContextCanceled
                                    else ContextDeadlineExceeded))).
Proof.
  intros Hc ->. unfold reports. rewrite Hc.
  destruct (FromContextError_code err Hc) as [[-> ?]|[-> ?]]; simpl.
  - exists ContextCanceled. split; [set_solver|done].
  - exists ContextDeadlineExceeded. split; [set_solver|done].
Qed.

Lemma resource_status err s resource condition c :
  Message s = error_text err → Details s = [ResourceErrorDetail resource condition] →
  resourceClassification resource condition = Some c →
  executionResourceError (Some (CStatus s)) = Some (CWrap c (error_text err)).
Proof.
  intros Hm Hd Hr. unfold executionResourceError. rewrite FromError_status. simpl. by rewrite Hd, Hm; simpl; rewrite Hr.
Qed.

Lemma resource_internal m : executionResourceError (Some (CStatus (status_New Internal m))) = None.
Proof. unfold executionResourceError. rewrite FromError_status. simpl. by rewrite New_details. Qed.

(** [mapExecutionStatus] reports the error, whatever the fallback classes. *)
Lemma mapExecutionStatus_ok err s notFound failedPrecondition : status_of err s →
  ∃ e, mapExecutionStatus None (Some (CStatus s)) notFound failedPrecondition = Some e ∧ reports err e ∧
       ((FromError (Some e)).2 = true → status_Code (FromError (Some e)).1 = Internal).
Proof.
  intros Hs. unfold mapExecutionStatus. rewrite (mapError_status err) by done.
  destruct Hs as [Hc Hs|resource condition c Hc Hm Hd Hcode Hr Hf|Hc Hf ->]; rewrite Hc.
  - rewrite resource_foreign, FromError_foreign. eexists. split; [done|]. split; [by apply reports_context|].
    by rewrite FromError_foreign.
  - rewrite (resource_status err s resource condition c) by done. eexists. split; [done|].
    unfold reports. rewrite Hc, Hf. split; [done|]. by rewrite FromError_wrap.
  - rewrite resource_internal, FromError_status. simpl. rewrite New_code. eexists. split; [done|].
    unfold reports. rewrite Hc, Hf. split; [done|]. rewrite FromError_status. simpl.
    by rewrite New_code.
Qed.

Lemma mapExecutionError_ok err s : status_of err s →
  ∃ e, mapExecutionError None (Some (CStatus s)) = Some e ∧ reports err e.
Proof. intros Hs. destruct (mapExecutionStatus_ok err s ErrExecutionNotFound ErrInvalidExecutionState Hs) as (e & ? & ? & _). eauto. Qed.

Lemma mapSessionError_ok err s : status_of err s →
  ∃ e, mapSessionError None (Some (CStatus s)) = Some e ∧ reports err e.
Proof. intros Hs. destruct (mapExecutionStatus_ok err s ErrSessionNotFound ErrSessionClosed Hs) as (e & ? & ? & _). eauto. Qed.

Lemma mapCreateExecutionError_ok err s : status_of err s →
  ∃ e, mapCreateExecutionError None (Some (CStatus s)) = Some e ∧ reports err e.
Proof.
  intros Hs. destruct (mapExecutionStatus_ok err s ErrSessionNotFound ErrSessionClosed Hs) as (e & He & Hr & Hi).
  exists e. split; [|done]. unfold mapCreateExecutionError. rewrite He.
  destruct (FromError (Some e)) as [s' []] eqn:E; simpl in *; [|done]. by rewrite Hi.
Qed.

Lemma mapWatchExecutionError_ok err s : status_of err s →
  ∃ e, mapWatchExecutionError None (Some (CStatus s)) = Some e ∧ reports err e.
Proof.
  intros Hs. destruct (mapExecutionStatus_ok err s ErrExecutionNotFound ErrInvalidExecutionState Hs) as (e & He & Hr & Hi).
  exists e. split; [|done]. unfold mapWatchExecutionError, mapExecutionError. rewrite He.
  destruct (FromError (Some e)) as [s' []] eqn:E; simpl in *; [|done]. by rewrite Hi.
Qed.

Lemma mapCreateSessionError_ok err s : status_of err s →
  ∃ e, mapCreateSessionError None (CStatus s) = Some e ∧ reports err e.
Proof.
  intros Hs. unfold mapCreateSessionError. rewrite (mapError_status err) by done.
  destruct Hs as [Hc Hs|resource condition c Hc Hm Hd Hcode Hr Hf|Hc Hf ->]; rewrite Hc.
  - rewrite FromError_foreign. simpl. eexists. split; [done|]. by apply reports_context.
  - rewrite (resource_status err s resource condition c) by done. rewrite FromError_status. simpl.
    rewrite Hd. simpl. eexists. split; [by destruct (bool_decide _)|]. unfold reports. by rewrite Hc, Hf.
  - rewrite resource_internal, FromError_status. simpl. rewrite New_details, New_code. simpl.
    eexists. split; [done|]. unfold reports. by rewrite Hc, Hf.
Qed.

(** ** Snapshots rebuilt from the client's views *)

Definition restore_range (r : GoClient.Range) : Source.Range :=
  Source.mkRange (Source.mkPosition (po_Line (ra_Start r)) (po_Character (ra_Start r)))
    (Source.mkPosition (po_Line (ra_End r)) (po_Character (ra_End r))).

Definition restore_related (r : GoClient.RelatedInformation) : Errors.RelatedInformation :=
  mkRelated (re_URI r) (restore_range (re_Range r)) (re_Message r).

Definition restore_diagnostic (d : GoClient.Diagnostic) : Errors.Diagnostic :=
  Errors.mkDiagnostic (di_URI d) (di_Message d) (di_Severity d) (restore_range (di_Range d)) (di_Source d)
    (di_Code d) (map restore_related (di_RelatedInformation d)).

Definition restore_source (s : GoClient.SourceSnapshot) : Errors.SourceSnapshot :=
  Errors.mkSourceSnapshot (src_WorkspaceID s) (src_RelativePath s) (src_URI s) (src_Revision s).

Definition restore_state (s : ExecutionState) : State :=
  match s with
  | ExecutionStateCreated => StateCreated
  | ExecutionStateRunning => StateRunning
  | ExecutionStateCompleted => StateCompleted
  | ExecutionStateFailed => StateFailed
  | ExecutionStateCancelled => StateCancelled
  end.

Definition restore_category (c : GoClient.FailureCategory) : ExecRuntime.FailureCategory :=
  match c with
  | FailureCategorySessionCreation => FailureSessionCreation
  | FailureCategoryRuntime => FailureRuntime
  | FailureCategoryCleanup => FailureCleanup
  end.

Definition restore (x : GoClient.Execution) : ExecutionSnapshot :=
  mkExecutionSnapshot (x_ID x) (x_SessionID x) (restore_state (x_State x)) (Some (x_Parameters x))
    (mkRuntimeOptions (xo_OutputContentType (x_Options x)) (xo_WorkingDirectory (x_Options x)))
    ((λ o, mkOutput (xt_ContentType o) (xt_Data o)) <$> x_Output x)
    ((λ f, mkFailure (restore_category (xf_Category f))
             (mkRuntimeFailure (xf_Message f) (map restore_diagnostic (xf_Diagnostics f)))) <$> x_Failure x).

Definition restore_kind (k : ExecutionEventKind) : EventKind :=
  match k with
  | ExecutionEventCreated => EventCreated
  | ExecutionEventStarted => EventStarted
  | ExecutionEventCompleted => EventCompleted
  | ExecutionEventFailed => EventFailed
  | ExecutionEventCancelled => EventCancelled
  end.

Definition restore_event (e : ExecutionEvent) : Event :=
  mkEvent (xe_ExecutionID e) (xe_Sequence e) (restore_kind (xe_Kind e)) (restore (xe_Execution e)).

Definition restore_session (s : GoClient.Session) : string * Errors.SourceSnapshot * list string :=
  (cl_ID s, restore_source (cl_Source s), cl_Parameters s).

(** What the wire does not keep: a nil parameter map is an empty one, and every
    severity that is not an error is 0. *)
Definition normal_diagnostic (d : Errors.Diagnostic) : Errors.Diagnostic :=
  Errors.mkDiagnostic (d_URI d) (d_Message d) (if bool_decide (d_Severity d = SeverityError) then SeverityError else 0%Z)
    (d_Range d) (d_Source d) (d_Code d) (d_RelatedInformation d).

Definition normal (s : ExecutionSnapshot) : ExecutionSnapshot :=
  mkExecutionSnapshot (es_ID s) (es_Session s) (es_State s) (Some (default [] (es_Parameters s)))
    (es_Options s) (es_Output s)
    ((λ f, mkFailure (f_Category f)
             (mkRuntimeFailure (rf_Message (f_RuntimeFailure f))
                (map normal_diagnostic (rf_Diagnostics (f_RuntimeFailure f))))) <$> es_Failure s).

Definition normal_event (e : Event) : Event :=
  mkEvent (ev_Execution e) (ev_Sequence e) (ev_Kind e) (normal (ev_Snapshot e)).

(** A snapshot the wire represents: it has its identifiers, and parameters that
    are JSON values. *)
Definition representable (s : ExecutionSnapshot) : Prop :=
  es_ID s ≠ "" ∧ es_Session s ≠ "" ∧ json (default [] (es_Parameters s)).

Lemma range_round_trip r : restore_range (fromProtoRange (Some (toProtoRange r))) = r.
Proof. by destruct r as [[] []]. Qed.

Lemma related_round_trip l :
  map restore_related (omap (λ related : option PbRelatedInformation,
    match related with
    | None => None
    | Some related => Some (mkRelatedInformation (pl_Uri related) (fromProtoRange (pl_Range related)) (pl_Message related))
    end) (map (λ related, Some (mkPbRelatedInformation (ri_URI related) (Some (toProtoRange (ri_Range related))) (ri_Message related))) l)) = l.
Proof.
  induction l as [|[u r m] l IH]; [done|]. cbn [map omap list_omap]. rewrite IH.
  unfold restore_related at 1. cbn [re_URI re_Range re_Message pl_Uri pl_Range pl_Message ri_URI ri_Range ri_Message].
  by rewrite range_round_trip.
Qed.

Lemma diagnostics_round_trip ds :
  map restore_diagnostic (fromProtoDiagnostics (toProtoDiagnostics ds)) = map normal_diagnostic ds.
Proof.
  induction ds as [|[u m sev r src c rel] ds IH]; [done|].
  unfold toProtoDiagnostics, fromProtoDiagnostics in *. cbn [map omap list_omap]. rewrite IH. f_equal.
  unfold restore_diagnostic, normal_diagnostic, toProtoDiagnostic.
  cbn [di_URI di_Range di_Severity di_Code di_Source di_Message di_RelatedInformation pd_Uri pd_Range
       pd_Severity pd_Code pd_Source pd_Message pd_RelatedInformation d_URI d_Range d_Severity d_Code
       d_Source d_Message d_RelatedInformation].
  rewrite related_round_trip, range_round_trip. f_equal.
  unfold fromProtoDiagnosticSeverity, toProtoDiagnosticSeverity. by destruct (bool_decide (sev = SeverityError)).
Qed.

Lemma state_round_trip st : ∃ x, fromProtoExecutionState (toProtoExecutionState st) = inl x ∧ restore_state x = st.
Proof. destruct st; eexists; split; done. Qed.

Lemma category_round_trip c :
  ∃ x, fromProtoFailureCategory (toProtoFailureCategory c) = inl x ∧ restore_category x = c.
Proof. destruct c; eexists; split; done. Qed.

Lemma failure_round_trip f pf : toProtoFailure (Some f) = Some pf →
  ∃ x, fromProtoFailure pf = inl x ∧
    mkFailure (restore_category (xf_Category x))
      (mkRuntimeFailure (xf_Message x) (map restore_diagnostic (xf_Diagnostics x))) =
    mkFailure (f_Category f)
      (mkRuntimeFailure (rf_Message (f_RuntimeFailure f)) (map normal_diagnostic (rf_Diagnostics (f_RuntimeFailure f)))).
Proof.
  intros [= <-]. unfold fromProtoFailure. simpl.
  destruct (category_round_trip (f_Category f)) as (c & -> & Hc). eexists. split; [done|]. simpl.
  rewrite Hc. f_equal. f_equal. apply diagnostics_round_trip.
Qed.

Lemma options_round_trip o :
  client_fromProtoExecutionOptions (Some (toProtoExecutionOptions o)) =
    mkExecutionOptions (OutputContentType o) (WorkingDirectory o).
Proof. destruct o as [ct wd]. unfold toProtoExecutionOptions. simpl. by case_bool_decide as Hw; subst. Qed.

Lemma execution_round_trip s : representable s →
  ∃ p x, toProtoExecution s = inl p ∧ fromProtoExecution (Some p) = inl x ∧ restore x = normal s.
Proof.
  intros (Hid & Hses & Hj). unfold toProtoExecution. destruct (NewStruct_json _ Hj) as (st & -> & Hst).
  destruct (state_round_trip (es_State s)) as (x & Hx & Hrx).
  destruct (es_Failure s) as [f|] eqn:Hf.
  - destruct (failure_round_trip f _ eq_refl) as (xf & Hxf & Hrf).
    eexists _, _. split; [done|]. unfold fromProtoExecution.
    rewrite !bool_decide_eq_false_2 by done. cbn [orb]. rewrite Hx. cbn [toProtoFailure] in Hxf |- *. rewrite Hxf. split; [done|].
    unfold restore, normal. rewrite options_round_trip. simpl. rewrite Hrx, Hrf, Hst, Hf.
    destruct (es_Options s), (es_Output s) as [[]|]; done.
  - eexists _, _. split; [done|]. unfold fromProtoExecution.
    rewrite !bool_decide_eq_false_2 by done. cbn [orb]. rewrite Hx. split; [done|].
    unfold restore, normal. rewrite options_round_trip. simpl. rewrite Hrx, Hst, Hf.
    destruct (es_Options s), (es_Output s) as [[]|]; done.
Qed.

(** [client_execution] and [client_CreateExecution] against the manager. *)
Definition agrees (r : ExecutionSnapshot + error) (res : returned GoClient.Execution) : Prop :=
  match r with
  | inl s => representable s → ∃ x, res = (Some x, None) ∧ restore x = normal s
  | inr err => errors_AsCompilation err = None → ∃ e, res = (None, Some e) ∧ reports err e
  end.

Lemma encoded_ok r : details_attach →
  match r with
  | inl s => representable s → ∃ p x, encoded r = (Some (Some p), None) ∧ fromProtoExecution (Some p) = inl x ∧ restore x = normal s
  | inr err => errors_AsCompilation err = None → ∃ s, encoded r = (None, Some s) ∧ status_of err s
  end.
Proof.
  intros Ha. unfold encoded. destruct r as [s|err]; simpl.
  - intros Hr. destruct (execution_round_trip s Hr) as (p & x & -> & Hx). by exists p, x.
  - intros Hc. destruct (toExecutionStatusError_ok err Ha Hc) as (s & -> & Hs). by exists s.
Qed.

Lemma client_execution_ok (operation : string → ExecutionSnapshot + error)
    (call : stub (id_request PbExecutionId) (option PbExecution)) id :
  details_attach → (∀ q, delivered (execution_request operation (Some q)) (call q)) → id ≠ "" →
  agrees (operation id) (client_execution call None id).
Proof.
  intros Ha Hd Hid. unfold client_execution. specialize (Hd (mkIdRequest (Some (mkPbExecutionId id)))).
  unfold execution_request, request_id in Hd. cbn [rq_Id xi_Value] in Hd. rewrite bool_decide_eq_false_2 in Hd by done.
  pose proof (encoded_ok (operation id) Ha) as He. destruct (operation id) as [s|err]; cbn [agrees].
  - intros Hr. destruct (He Hr) as (p & x & Hp & Hx & Hn). rewrite Hp in Hd. simpl in Hd. rewrite Hd.
    exists x. by rewrite Hx.
  - intros Hc. destruct (He Hc) as (s & Hp & Hs). rewrite Hp in Hd. simpl in Hd. rewrite Hd.
    destruct (mapExecutionError_ok err s Hs) as (e & -> & ?). by exists e.
Qed.

Lemma server_options (o : ExecutionOptions) :
  fromProtoExecutionOptions (Some (client_toProtoExecutionOptions o)) =
    inl (mkRuntimeOptions (xo_OutputContentType o) (xo_WorkingDirectory o)).
Proof.
  destruct o as [ct wd]. unfold client_toProtoExecutionOptions. simpl.
  destruct (decide (wd = "")) as [->|Hw]; [done|]. rewrite bool_decide_eq_false_2 by done.
  unfold fromProtoExecutionOptions. simpl. by rewrite bool_decide_eq_false_2.
Qed.

Lemma client_CreateExecution_ok M (call : stub PbCreateExecutionRequest (option PbExecution)) session parameters options :
  details_attach → (∀ q, delivered (CreateExecution M None (Some q)) (call q)) → session ≠ "" →
  json (default [] parameters) →
  agrees (em_CreateExecution M session (Some (default [] parameters))
            (mkRuntimeOptions (xo_OutputContentType options) (xo_WorkingDirectory options)))
    (client_CreateExecution call None session parameters options).
Proof.
  intros Ha Hd Hs Hj. unfold client_CreateExecution. destruct (NewStruct_json _ Hj) as (st & -> & Hst).
  specialize (Hd (mkPbCreateExecution (Some (mkPbSessionId session)) (Some st)
    (Some (client_toProtoExecutionOptions options)))).
  unfold CreateExecution in Hd. cbn [ce_SessionId si_Value ce_Parameters ce_Options] in Hd.
  rewrite bool_decide_eq_false_2, server_options, Hst in Hd by done.
  pose proof (encoded_ok (em_CreateExecution M session (Some (default [] parameters))
    (mkRuntimeOptions (xo_OutputContentType options) (xo_WorkingDirectory options))) Ha) as He.
  destruct (em_CreateExecution _ _ _ _) as [s|err]; cbn [agrees].
  - intros Hr. destruct (He Hr) as (p & x & Hp & Hx & Hn). rewrite Hp in Hd. simpl in Hd. rewrite Hd.
    exists x. by rewrite Hx.
  - intros Hc. destruct (He Hc) as (s & Hp & Hss). rewrite Hp in Hd. simpl in Hd. rewrite Hd.
    destruct (mapCreateExecutionError_ok err s Hss) as (e & -> & ?). by exists e.
Qed.

(** What the client of [CreateSession] sees: the session, the compilation error
    with its source and diagnostics, or the class of any other error. *)
Definition session_agrees (r : SessionSnapshot + error) (res : returned GoClient.Session) : Prop :=
  match r with
  | inl s => sn_ID s ≠ "" → ∃ x, res = (Some x, None) ∧ restore_session x = (sn_ID s, sn_Source s, sn_Parameters s)
  | inr err =>
      match errors_AsCompilation err with
      | Some (source, diagnostics) =>
          ∃ src ds cause, res = (None, Some (CompilationError src ds cause)) ∧ restore_source src = source ∧
            map restore_diagnostic ds = map normal_diagnostic diagnostics
      | None => ∃ e, res = (None, Some e) ∧ reports err e
      end
  end.

Lemma session_round_trip s : sn_ID s ≠ "" →
  ∃ x, fromProtoSession (Some (toProtoSession s)) = inl x ∧ restore_session x = (sn_ID s, sn_Source s, sn_Parameters s).
Proof.
  intros Hid. unfold toProtoSession, fromProtoSession. simpl. rewrite bool_decide_eq_false_2 by done.
  eexists. split; [done|]. destruct s as [id [] ps text]. done.
Qed.

Lemma compilation_ok err source diagnostics s :
  details_attach → errors_AsCompilation err = Some (source, diagnostics) → toExecutionStatusError err = Some s →
  ∃ src ds cause, mapCreateSessionError None (CStatus s) = Some (CompilationError src ds cause) ∧
    restore_source src = source ∧ map restore_diagnostic ds = map normal_diagnostic diagnostics.
Proof.
  intros Ha Hc Hs. unfold toExecutionStatusError in Hs. rewrite Hc in Hs.
  destruct (attach_ok (status_New InvalidArgument (sentinel_text ExecErrCompilationFailed))
    (CompilationFailureDetail (mkPbCompilationFailure (Some (toProtoSourceSnapshot source)) (toProtoDiagnostics diagnostics))) Ha)
    as (s' & Hs' & Hcode & _ & Hd); [by rewrite New_code|].
  rewrite Hs' in Hs. inv Hs. rewrite New_code in Hcode. rewrite New_details in Hd.
  unfold mapCreateSessionError, mapError. rewrite FromError_status. simpl. rewrite Hcode, FromError_status. simpl.
  rewrite Hcode, Hd. eexists _, _, _. split; [done|]. split; [by destruct source|].
  apply diagnostics_round_trip.
Qed.

Lemma toExecutionStatusError_Some err : details_attach → is_Some (toExecutionStatusError err).
Proof.
  intros Ha. destruct (errors_AsCompilation err) as [[source diagnostics]|] eqn:Hc.
  - unfold toExecutionStatusError. rewrite Hc.
    edestruct (attach_ok (status_New InvalidArgument (sentinel_text ExecErrCompilationFailed))) as (s & -> & _);
      [done|by rewrite New_code|by eexists].
  - destruct (toExecutionStatusError_ok err Ha Hc) as (s & -> & _). by eexists.
Qed.

Lemma client_CreateSession_ok M (call : stub PbCreateSessionRequest (option PbSession)) workspace path :
  details_attach → (∀ q, delivered (CreateSession M (Some q)) (call q)) → workspace ≠ "" → path ≠ "" →
  session_agrees (em_CreateSession M workspace path) (client_CreateSession call None workspace path).
Proof.
  intros Ha Hd Hw Hp. unfold client_CreateSession.
  specialize (Hd (mkPbCreateSession (Some (mkPbWorkspaceId workspace)) path)). simpl in Hd.
  rewrite !bool_decide_eq_false_2 in Hd by done.
  destruct (em_CreateSession M workspace path) as [s|err]; simpl in *.
  - intros Hid. rewrite Hd. destruct (session_round_trip s Hid) as (x & -> & ?). by exists x.
  - destruct (toExecutionStatusError_Some err Ha) as [s Hs]. rewrite Hs in Hd. simpl in Hd. rewrite Hd.
    destruct (errors_AsCompilation err) as [[source diagnostics]|] eqn:Hc.
    + destruct (compilation_ok err source diagnostics s Ha Hc Hs) as (src & ds & cause & -> & ? & ?).
      by exists src, ds, cause.
    + destruct (toExecutionStatusError_ok err Ha Hc) as (s' & Hs' & Hss). assert (s' = s) as -> by congruence.
      destruct (mapCreateSessionError_ok err s Hss) as (e & -> & ?). by exists e.
Qed.

End rpc.

(** ** Properties *)

(** C31. A remote execution behaves like a local one.  Whatever the manager
    answers to [CreateExecution], [RunExecution], [GetExecution] and
    [CancelExecution], the Go client calling through the gRPC service gets the
    same thing: the manager receives the session, parameters and options the
    client passed; a snapshot comes back as a view from which the snapshot can be
    rebuilt (identifiers, state, parameters, options, output bytes, failure with
    its diagnostics and their UTF-16 ranges); an error comes back as the client's
    error of the same class with the same text, context errors as context errors,
    and an error outside the table as an internal status that does not reveal
    its text. *)
Theorem remote_execution_refines `{G : Grpc} `{R : !StatusReader} (M : execution_manager)
    (create : stub PbCreateExecutionRequest (option PbExecution))
    (run get cancel : stub (id_request PbExecutionId) (option PbExecution)) :
  details_attach →
  (∀ q, delivered (CreateExecution M None (Some q)) (create q)) →
  (∀ q, delivered (RunExecution M (Some q)) (run q)) →
  (∀ q, delivered (GetExecution M (Some q)) (get q)) →
  (∀ q, delivered (CancelExecution M (Some q)) (cancel q)) →
  (∀ session parameters options, session ≠ "" → json (default [] parameters) →
     agrees (em_CreateExecution M session (Some (default [] parameters))
               (mkRuntimeOptions (xo_OutputContentType options) (xo_WorkingDirectory options)))
       (client_CreateExecution create None session parameters options)) ∧
  (∀ id, id ≠ "" →
     agrees (em_RunExecution M id) (client_execution run None id) ∧
     agrees (em_GetExecution M id) (client_execution get None id) ∧
     agrees (em_CancelExecution M id) (client_execution cancel None id)).
Proof.
  intros Ha Hcreate Hrun Hget Hcancel. split.
  - intros session parameters options Hs Hj. by apply client_CreateExecution_ok.
  - intros id Hid. split_and!; by apply client_execution_ok.
Qed.

(** Opening a session remotely reports what the daemon found: a compiled
    session keeps its identity, source snapshot and parameters; a compilation
    failure arrives as the client's [CompilationError] with the source and the
    diagnostics; any other error with its class. *)
Theorem remote_session_faithful `{G : Grpc} `{R : !StatusReader} (M : execution_manager)
    (create : stub PbCreateSessionRequest (option PbSession)) (workspace path : string) :
  details_attach → (∀ q, delivered (CreateSession M (Some q)) (create q)) → workspace ≠ "" → path ≠ "" →
  session_agrees (em_CreateSession M workspace path) (client_CreateSession create None workspace path).
Proof. apply client_CreateSession_ok. Qed.

(** ** A concrete connection *)

Record plain_status := mkPlain { pl_code : Code; pl_message : string; pl_details : list PbDetail }.

Definition plain_grpc : Grpc.
Proof.
  refine (Build_Grpc entries (λ m, inl (default [] m)) (λ m, m) (λ _, True) _
    plain_status (λ c m, mkPlain c m [])
    (λ s d, inl (mkPlain (pl_code s) (pl_message s) (pl_details s ++ [d])))
    pl_code pl_message pl_details
    (λ err, mkPlain (if errors_Is err ContextCanceled then Canceled else DeadlineExceeded) (error_text err) [])
    _ _ _ _ _ _).
  - intros m _. by eexists.
  - done.
  - done.
  - done.
  - by intros s d s' [= <-].
  - intros err Hc. unfold is_context in Hc. simpl. destruct (errors_Is err ContextCanceled); [by left|by right].
  - done.
Defined.

Local Existing Instance plain_grpc.

Definition plain_reader : StatusReader.
Proof.
  refine (Build_StatusReader
    (λ err, match err with
            | None => (mkPlain OK "" [], true)
            | Some (CStatus s) => (s, true)
            | Some _ => (mkPlain Unknown "" [], false)
            end) _ _ _).
  - done.
  - done.
  - by intros [].
Defined.

Local Existing Instance plain_reader.

(** The stub of a handler. *)
Definition connect {Q A} (handler : option Q → answer A) (q : Q) : option A + cerror :=
  match handler (Some q) with
  | (_, Some s) => inr (CStatus s)
  | (r, None) => inl r
  end.

Lemma connect_delivered {Q A} (handler : option Q → answer A) q : delivered (handler (Some q)) (connect handler q).
Proof. unfold delivered, connect. by destruct (handler (Some q)) as [[] []]. Qed.

(** A manager with one failed execution; it compiles nothing. *)
Definition sample_snapshot : ExecutionSnapshot :=
  mkExecutionSnapshot "x" "s" StateFailed (Some [("n", TAtom "1")]) (mkRuntimeOptions "application/json" "/w")
    None
    (Some (mkFailure FailureRuntime
       (mkRuntimeFailure "boom"
          [Errors.mkDiagnostic "file:///w/a.fql" "boom" SeverityError zeroRange "ferret" "Runtime"
             [mkRelated "file:///w/a.fql" zeroRange "here"]]))).

Definition sample_manager : execution_manager :=
  mkExecutionManager
    (λ _ _, inr (ECompilation (Errors.mkSourceSnapshot "w" "a.fql" "file:///w/a.fql" 3) [] (ENew "syntax")))
    (λ _, inr (ESentinel ExecErrSessionNotFound)) (λ _, None)
    (λ _ _ _, inl sample_snapshot)
    (λ _, inr (ESentinel ExecErrExecutionTerminal)) (λ _, inl sample_snapshot)
    (λ _, inr (EJoin [ESentinel ContextCanceled])) (λ _, None).

Lemma plain_attach : details_attach.
Proof. intros s d _. by eexists. Qed.

Lemma remote_execution_refines_witness :
  (∃ x, client_execution (connect (GetExecution sample_manager)) None "x" = (Some x, None) ∧ restore x = sample_snapshot) ∧
  (∃ e, client_execution (connect (RunExecution sample_manager)) None "x" = (None, Some e) ∧ c_Is e ErrInvalidExecutionState = true).
Proof.
  destruct (remote_execution_refines sample_manager (connect (CreateExecution sample_manager None))
    (connect (RunExecution sample_manager)) (connect (GetExecution sample_manager))
    (connect (CancelExecution sample_manager))) as [_ H].
  - exact plain_attach.
  - intros q. apply connect_delivered.
  - intros q. apply connect_delivered.
  - intros q. apply connect_delivered.
  - intros q. apply connect_delivered.
  - destruct (H "x") as (Hrun & Hget & _); [discriminate|]. split.
    + destruct Hget as (x & Hx & Hn); [by split_and!|]. exists x. split; [exact Hx|]. rewrite Hn. reflexivity.
    + destruct Hrun as (e & He & Hr); [reflexivity|]. exists e. split; [exact He|]. vm_compute in Hr. by rewrite Hr.
Defined.

Lemma remote_session_faithful_witness :
  ∃ src ds cause,
    client_CreateSession (connect (CreateSession sample_manager)) None "w" "a.fql" =
      (None, Some (CompilationError src ds cause)) ∧
    restore_source src = Errors.mkSourceSnapshot "w" "a.fql" "file:///w/a.fql" 3.
Proof.
  destruct (remote_session_faithful sample_manager (connect (CreateSession sample_manager)) "w" "a.fql")
    as (src & ds & cause & H1 & H2 & _).
  - exact plain_attach.
  - intros q. apply connect_delivered.
  - discriminate.
  - discriminate.
  - by exists src, ds, cause.
Defined.
