(* ===== verification/GrpcWatch.v ===== *)
(** * Watching an execution over gRPC

    [executionService.WatchExecution] of [internal/grpc/execution_service.go]
    with [execution_watch.go]: the handler sends the current event, then selects
    on the stream's context and the two channels of its subscription, in
    whichever order Go picks.  The execution publishes to the hub between any two
    steps of the handler.  [Recv] of the client decodes what was sent. *)

From S2P Require Import Prelude Source Errors Parameters ExecRuntime Watchers Execution Wire GrpcService GoClient Rpc.

Section watch.
Context `{G : Grpc} `{R : !StatusReader}.

(** ** The handler *)

(** The error a handler returns: one of a status, or the stream's own. *)
Inductive handler_error := HStatus (s : Status) | HSend (err : error).

(** The position of the handler; [errorsChannel] is whether that variable is
    not nil. *)
Inductive watch_pc :=
| PCurrent
| PSelect (errorsChannel : bool)
| PEvent (errorsChannel : bool) (event : Event)
| PDrain (errorsChannel : bool)
| PReturned (err : option handler_error)
| PCancelled (err : option handler_error).

Record world := mkWorld {
  wd_hub : hub Event;
  wd_pc : watch_pc;
  wd_sent : list PbWatchExecutionResponse;
  wd_log : list Event                 (* published since the subscription *)
}.

Definition terminal_event (ev : Event) : bool := Terminal (es_State (ev_Snapshot ev)).

(** A receive from the error channel of a watcher. *)
Definition receive_error (id : Z) (h : hub Event) : outcome (option error * hub Event) :=
  match h_store h !! id with
  | None => Panic "nil pointer dereference"
  | Some w =>
      match w_errors w with
      | err :: rest =>
          let w := mkWatcher (w_events w) (w_eventsClosed w) rest (w_errorsClosed w) (w_closed w) in
          Ret (Some err, mkHub (h_next h) (<[id:=w]> (h_store h)) (h_live h))
      | [] => if w_errorsClosed w then Ret (None, h) else Block
      end
  end.

Definition status_result (s : option Status) : option handler_error := HStatus <$> s.

(** [sendExecutionEvent], where the stream answers [sendErr], and the return of
    the handler when the send failed or the event was terminal. *)
Definition sendExecutionEvent (ev : Event) (sendErr : option error) (next : watch_pc) (w : world) : world :=
  match toProtoExecutionEvent ev with
  | inr err => mkWorld (wd_hub w) (PReturned (status_result (toExecutionStatusError err))) (wd_sent w) (wd_log w)
  | inl encoded =>
      match sendErr with
      | Some err => mkWorld (wd_hub w) (PReturned (Some (HSend err))) (wd_sent w) (wd_log w)
      | None =>
          mkWorld (wd_hub w) (if terminal_event ev then PReturned None else next) (wd_sent w ++ [encoded])
            (wd_log w)
      end
  end.

Definition goto (h : hub Event) (pc : watch_pc) (w : world) : world := mkWorld h pc (wd_sent w) (wd_log w).

Inductive action :=
| APublish (ev : Event) (order : list Z)      (* the execution publishes *)
| ASend (sendErr : option error)              (* [stream.Send] returns *)
| ADone (ctxErr : error)                      (* the context's case of the select *)
| AEvent                                      (* a receive from [events] *)
| AError                                      (* a receive from [errorsChannel] *)
| ACancel.                                    (* the deferred [subscription.Cancel] *)

(** An execution publishes nothing after a terminal event. *)
Definition ended (current : Event) (log : list Event) : bool :=
  existsb terminal_event (current :: log).

Definition act (wid : Z) (current : Event) (a : action) (w : world) : outcome world :=
  match wd_pc w, a with
  | _, APublish ev order =>
      if ended current (wd_log w) || negb (bool_decide (order ≡ₚ elements (h_live (wd_hub w)))) then Block
      else
        h ← publish_loop watcherBufferSize (ESentinel ExecErrWatcherLagged) ev (terminal_event ev) order (wd_hub w);
        Ret (mkWorld h (wd_pc w) (wd_sent w) (wd_log w ++ [ev]))
  | PCurrent, ASend sendErr => Ret (sendExecutionEvent current sendErr (PSelect true) w)
  | PSelect _, ADone ctxErr =>
      Ret (goto (wd_hub w) (PReturned (status_result (Err (FromContextError ctxErr)))) w)
  | PSelect errorsChannel, AEvent =>
      '(ev, h) ← hub_receive wid (wd_hub w);
      Ret (goto h (match ev with Some ev => PEvent errorsChannel ev | None => PDrain errorsChannel end) w)
  | PSelect errorsChannel, AError =>
      if errorsChannel then
        '(err, h) ← receive_error wid (wd_hub w);
        Ret (goto h (match err with
                     | Some err => PReturned (status_result (toExecutionStatusError err))
                     | None => PSelect false
                     end) w)
      else Block
  | PEvent errorsChannel ev, ASend sendErr => Ret (sendExecutionEvent ev sendErr (PSelect errorsChannel) w)
  | PDrain errorsChannel, AError =>
      if errorsChannel then
        '(err, h) ← receive_error wid (wd_hub w);
        Ret (goto h (PReturned (match err with
                                | Some err => status_result (toExecutionStatusError err)
                                | None => None
                                end)) w)
      else Block
  | PReturned err, ACancel => h ← hub_unsubscribe wid (wd_hub w); Ret (goto h (PCancelled err) w)
  | _, _ => Block
  end.

Definition attempt (wid : Z) (current : Event) (a : action) (w : world) : outcome world :=
  match act wid current a w with
  | Ret w => Ret w
  | Panic m => Panic m
  | Block => Ret w
  end.

Fixpoint schedule (wid : Z) (current : Event) (actions : list action) (w : world) : outcome world :=
  match actions with
  | [] => Ret w
  | a :: actions => w ← attempt wid current a w; schedule wid current actions w
  end.

(** A watch whose subscription was just registered. *)
Definition subscribed (h : hub Event) : world := mkWorld (hub_subscribe h).2 PCurrent [] [].

(** ** Invariant *)

(** The client decodes a response to the event it was made from. *)
Definition decodes (response : PbWatchExecutionResponse) (ev : Event) : Prop :=
  ∃ x, Recv (inl (Some response)) None = (Some x, None) ∧ restore_event x = normal_event ev.

(** An event of an execution: its own identifier, a sequence number, and a
    snapshot the wire represents. *)
Definition sendable (ev : Event) : Prop :=
  ev_Execution ev ≠ "" ∧ es_ID (ev_Snapshot ev) = ev_Execution ev ∧ ev_Sequence ev ≠ 0%Z ∧
  representable (ev_Snapshot ev).

Definition pending (pc : watch_pc) : list Event := match pc with PEvent _ ev => [ev] | _ => [] end.

(** Only the last event of [log] can be terminal. *)
Definition terminal_last (log : list Event) : Prop :=
  ∀ i ev, log !! i = Some ev → terminal_event ev = true → S i = length log.

(** The position of the watcher's queue in the log. *)
Inductive queue (live : bool) (errorsChannel : bool) (q log : list Event) (errors : list error) : Prop :=
| queue_live : live = true → errorsChannel = true → q = log → errors = [] → existsb terminal_event log = false →
    queue live errorsChannel q log errors
| queue_ended : live = false → q = log → errors = [] → existsb terminal_event log = true →
    queue live errorsChannel q log errors
| queue_lagged : live = false → errorsChannel = true → q `prefix_of` log →
    existsb terminal_event q = false →
    errors = [ESentinel ExecErrWatcherLagged] → queue live errorsChannel q log errors.

(** A handler that is still running: what it took from the channel, and what is
    left there. *)
Definition running (wid : Z) (current : Event) (errorsChannel : bool) (started : bool) (w : world) : Prop :=
  ∃ v taken, h_store (wd_hub w) !! wid = Some v ∧
    Forall2 decodes (wd_sent w) (if started then current :: taken else []) ∧
    (started = false → taken = []) ∧ existsb terminal_event taken = false ∧
    queue (bool_decide (wid ∈ h_live (wd_hub w))) errorsChannel (taken ++ pending (wd_pc w) ++ w_events v)
      (wd_log w) (w_errors v).

(** A handler that returned: what it sent, and why. *)
Definition settled (current : Event) (err : option handler_error) (w : world) : Prop :=
  ∃ seen, Forall2 decodes (wd_sent w) seen ∧ seen `prefix_of` current :: wd_log w ∧
    (err = None → seen = current :: wd_log w ∧ existsb terminal_event (wd_log w) = true).

Definition pc_ok (wid : Z) (current : Event) (w : world) : Prop :=
  match wd_pc w with
  | PCurrent => running wid current true false w
  | PSelect e | PEvent e _ => running wid current e true w
  | PDrain e =>
      running wid current e true w ∧ e = true ∧
      ∃ v, h_store (wd_hub w) !! wid = Some v ∧ w_events v = [] ∧ w_errors v = [ESentinel ExecErrWatcherLagged]
  | PReturned err | PCancelled err => settled current err w
  end.

Record inv (wid : Z) (current : Event) (w : world) : Prop := {
  i_hub : hub_ok watcherBufferSize (wd_hub w);
  i_watcher : is_Some (h_store (wd_hub w) !! wid);
  i_last : terminal_last (wd_log w);
  i_sendable : Forall sendable (wd_log w);
  i_pc : pc_ok wid current w
}.

(** ** Lemmas *)

Lemma event_round_trip ev : sendable ev → ∃ p, toProtoExecutionEvent ev = inl p ∧ decodes p ev.
Proof.
  intros (Hid & Hs & Hseq & Hr). unfold toProtoExecutionEvent.
  rewrite bool_decide_eq_false_2, bool_decide_eq_true_2 by done. cbn [orb negb].
  destruct (execution_round_trip _ Hr) as (p & x & -> & Hx & Hn). eexists. split; [done|].
  unfold decodes, Recv, fromProtoExecutionEvent. cbn [pe_ExecutionId xi_Value pe_Sequence].
  rewrite !bool_decide_eq_false_2 by done. cbn [orb].
  assert (x_ID x = ev_Execution ev) as Hxid.
  { rewrite <- Hs. apply (f_equal es_ID) in Hn. done. }
  assert (∃ k, protoEventPayload (mkPbWatch (Some (mkPbExecutionId (ev_Execution ev))) (ev_Sequence ev)
    (Some match ev_Kind ev with
          | EventCreated => PayloadCreated (Some p)
          | EventStarted => PayloadStarted (Some p)
          | EventCompleted => PayloadCompleted (Some p)
          | EventFailed => PayloadFailed (Some p)
          | EventCancelled => PayloadCancelled (Some p)
          end)) = Some (k, Some p) ∧ restore_kind k = ev_Kind ev) as (k & -> & Hk).
  { destruct (ev_Kind ev); by eexists. }
  rewrite Hx. rewrite bool_decide_eq_false_2 by (intros []; done). eexists. split; [done|].
  unfold restore_event, normal_event. cbn [xe_ExecutionID xe_Sequence xe_Kind xe_Execution]. by rewrite Hk, Hn.
Qed.

Lemma existsb_snoc {A} (p : A → bool) l x : existsb p (l ++ [x]) = existsb p l || p x.
Proof. rewrite existsb_app. simpl. by rewrite orb_false_r. Qed.

Lemma terminal_last_snoc log ev : existsb terminal_event log = false → terminal_last (log ++ [ev]).
Proof.
  intros Hn i e Hi Ht. rewrite length_app. simpl. apply lookup_app_Some in Hi as [Hi|[Hle Hi]].
  - exfalso. apply not_true_iff_false in Hn. apply Hn, existsb_exists. exists e. split; [|done].
    apply list_elem_of_In. by eapply list_elem_of_lookup_2.
  - destruct (i - length log)%nat as [|k] eqn:Hk; simpl in Hi; [lia|done].
Qed.

(** A prefix of the log that ends in a terminal event is the whole log. *)
Lemma terminal_whole log q ev : terminal_last log → terminal_event ev = true → (q ++ [ev]) `prefix_of` log → log = q ++ [ev].
Proof.
  intros Hl Ht [k ->]. rewrite <- app_assoc in Hl. simpl in Hl.
  assert ((q ++ ev :: k) !! length q = Some ev) as Hi by (by rewrite lookup_app_r, Nat.sub_diag).
  specialize (Hl _ _ Hi Ht). rewrite length_app in Hl. simpl in Hl. destruct k; [by rewrite app_nil_r|simpl in Hl; lia].
Qed.

Lemma queue_prefix live e q log errors : queue live e q log errors → q `prefix_of` log.
Proof. by intros [? ? -> ? ?|? -> ? ?|? ? ? ? ?]. Qed.

(** What the hub's publication does to this watcher. *)
Lemma publish_watcher (h : hub Event) order ev v wid :
  hub_ok watcherBufferSize h → order ≡ₚ elements (h_live h) → h_store h !! wid = Some v →
  ∃ h', publish_loop watcherBufferSize (ESentinel ExecErrWatcherLagged) ev (terminal_event ev) order h = Ret h' ∧
    hub_ok watcherBufferSize h' ∧
    if bool_decide (wid ∈ h_live h) then
      h_store h' !! wid = Some (Watchers.delivered watcherBufferSize (ESentinel ExecErrWatcherLagged) ev (terminal_event ev) v) ∧
      bool_decide (wid ∈ h_live h') = stays watcherBufferSize (terminal_event ev) v
    else h_store h' !! wid = Some v ∧ bool_decide (wid ∈ h_live h') = false.
Proof.
  intros Hh Ho Hv.
  destruct (publish_ok watcherBufferSize (ESentinel ExecErrWatcherLagged) ev (terminal_event ev) order h Hh Ho)
    as (h' & Hp & [_ PS PL] & Hh'). exists h'. split; [done|]. split; [done|].
  case_bool_decide as Hin.
  - split; [by rewrite PS, bool_decide_eq_true_2, Hv by done|].
    destruct (stays watcherBufferSize (terminal_event ev) v) eqn:Hst.
    + apply bool_decide_eq_true_2, PL. split; [done|]. eauto.
    + apply bool_decide_eq_false_2. intros Hx. apply PL in Hx as [_ Hx]. destruct (Hx Hin) as (v' & Hv' & ?).
      congruence.
  - split; [by rewrite PS, bool_decide_eq_false_2 by done|].
    apply bool_decide_eq_false_2. intros Hx. by apply PL in Hx as [? _].
Qed.

Lemma queue_publish (h h' : hub Event) ev v v' wid e q log :
  existsb terminal_event log = false → watcher_ok watcherBufferSize (bool_decide (wid ∈ h_live h)) v →
  (if bool_decide (wid ∈ h_live h) then
     v' = Watchers.delivered watcherBufferSize (ESentinel ExecErrWatcherLagged) ev (terminal_event ev) v ∧
     bool_decide (wid ∈ h_live h') = stays watcherBufferSize (terminal_event ev) v
   else v' = v ∧ bool_decide (wid ∈ h_live h') = false) →
  queue (bool_decide (wid ∈ h_live h)) e (q ++ w_events v) log (w_errors v) →
  queue (bool_decide (wid ∈ h_live h')) e (q ++ w_events v') (log ++ [ev]) (w_errors v').
Proof.
  intros Hn Hok Hv [Hl He Hq Herr _|Hl Hq Herr Ht|Hl He Hq Hnq Herr]; rewrite Hl in *.
  - destruct Hv as [-> ->]. unfold Watchers.delivered, stays. destruct (length (w_events v) <? watcherBufferSize)%nat eqn:Hlen.
    + destruct (terminal_event ev) eqn:Hte; simpl.
      * apply queue_ended; [done|by rewrite app_assoc, Hq|by rewrite Herr|rewrite existsb_snoc, Hte; apply orb_true_r].
      * apply queue_live; [done|done|by rewrite app_assoc, Hq|done|by rewrite existsb_snoc, Hn, Hte].
    + simpl. apply queue_lagged; [done|done|rewrite Hq; by eexists|by rewrite Hq|by rewrite Herr].
  - congruence.
  - destruct Hv as [-> ->]. apply queue_lagged; try done. by apply prefix_app_r.
Qed.

Lemma running_publish wid current e started w ev h' v' v :
  existsb terminal_event (wd_log w) = false → hub_ok watcherBufferSize (wd_hub w) →
  h_store (wd_hub w) !! wid = Some v → h_store h' !! wid = Some v' →
  (if bool_decide (wid ∈ h_live (wd_hub w)) then
     v' = Watchers.delivered watcherBufferSize (ESentinel ExecErrWatcherLagged) ev (terminal_event ev) v ∧
     bool_decide (wid ∈ h_live h') = stays watcherBufferSize (terminal_event ev) v
   else v' = v ∧ bool_decide (wid ∈ h_live h') = false) →
  running wid current e started w →
  running wid current e started (mkWorld h' (wd_pc w) (wd_sent w) (wd_log w ++ [ev])).
Proof.
  intros Hn Hh Hv Hv' Hd (v0 & taken & Hv0 & Hs & Hst & Ht & Hq). assert (v0 = v) as -> by congruence.
  exists v', taken. split_and!; try done. simpl. rewrite app_assoc in Hq |- *.
  eapply (queue_publish (wd_hub w) h' ev v v' wid); try done. by apply (ho_store _ _ Hh).
Qed.

Lemma watch_publish_step wid current ev order w w' :
  inv wid current w → sendable ev → act wid current (APublish ev order) w = Ret w' → inv wid current w'.
Proof.
  intros [Hh [v Hv] Hl Hsd Hpc] Hev Hact.
  assert (Hcase : ended current (wd_log w) = false ∧ order ≡ₚ elements (h_live (wd_hub w)) ∧
    (h ← publish_loop watcherBufferSize (ESentinel ExecErrWatcherLagged) ev (terminal_event ev) order (wd_hub w);
     Ret (mkWorld h (wd_pc w) (wd_sent w) (wd_log w ++ [ev]))) = Ret w').
  { unfold act in Hact. destruct (ended current (wd_log w)) eqn:?; [by destruct (wd_pc w)|].
    case_bool_decide; [|by destruct (wd_pc w)]. split; [done|]. split; [done|].
    by destruct (wd_pc w). }
  clear Hact. destruct Hcase as (Hend & Hord & Hact).
  assert (existsb terminal_event (wd_log w) = false) as Hnt
    by (unfold ended in Hend; simpl in Hend; by apply orb_false_iff in Hend as [_ ?]). clear Hend.
  destruct (publish_watcher (wd_hub w) order ev v wid Hh Hord Hv) as (h' & Hp & Hh' & Hd). rewrite Hp in Hact.
  cbn in Hact. inv Hact.
  assert (∃ v', h_store h' !! wid = Some v' ∧
    if bool_decide (wid ∈ h_live (wd_hub w)) then
      v' = Watchers.delivered watcherBufferSize (ESentinel ExecErrWatcherLagged) ev (terminal_event ev) v ∧
      bool_decide (wid ∈ h_live h') = stays watcherBufferSize (terminal_event ev) v
    else v' = v ∧ bool_decide (wid ∈ h_live h') = false) as (v' & Hv' & Hd').
  { case_bool_decide; destruct Hd as [? ?]; eexists; done. }
  split; simpl; [done|by exists v'|by apply terminal_last_snoc|apply Forall_app; by split; [|constructor]|].
  unfold pc_ok in *. simpl. destruct (wd_pc w) as [|e|e ev0|e|err|err] eqn:Epc; rewrite <- ?Epc.
  - by eapply running_publish.
  - by eapply running_publish.
  - by eapply running_publish.
  - destruct Hpc as (Hr & -> & v1 & Hv1 & Hev1 & Her1). assert (v1 = v) as -> by congruence.
    split; [by eapply running_publish|]. split; [done|]. exists v'. split; [done|].
    case_bool_decide as Hin.
    + destruct (ho_store _ _ Hh _ _ Hv) as [_ (_ & _ & _ & _ & Hnil & _)].
      rewrite bool_decide_eq_true_2 in Hnil by done. rewrite Hnil in Her1; done.
    + destruct Hd' as [-> _]. done.
  - destruct Hpc as (seen & Hs & Hpre & Hn). exists seen. split; [done|]. split; [|intros ->; destruct (Hn eq_refl); congruence].
    apply (prefix_app_r _ (current :: wd_log w)), Hpre.
  - destruct Hpc as (seen & Hs & Hpre & Hn). exists seen. split; [done|]. split; [|intros ->; destruct (Hn eq_refl); congruence].
    apply (prefix_app_r _ (current :: wd_log w)), Hpre.
Qed.

(** Receives change the watcher in place. *)
Lemma replace_watcher_ok cap (h : hub Event) wid v v' :
  hub_ok cap h → h_store h !! wid = Some v →
  (∀ live, watcher_ok cap live v → watcher_ok cap live v') →
  hub_ok cap (mkHub (h_next h) (<[wid:=v']> (h_store h)) (h_live h)).
Proof.
  intros [Hs Hl Hn] Hv Hk. split; simpl; [| |done].
  - intros i u Hu. destruct (decide (i = wid)) as [->|Hne].
    + rewrite lookup_insert_eq in Hu. inv Hu. destruct (Hs _ _ Hv). split; [done|]. by apply Hk.
    + rewrite lookup_insert_ne in Hu by done. by apply Hs.
  - intros i Hi. destruct (decide (i = wid)) as [->|Hne]; [by rewrite lookup_insert_eq|].
    rewrite lookup_insert_ne by done. by apply Hl.
Qed.

Lemma event_step wid current e w :
  inv wid current w → wd_pc w = PSelect e →
  match act wid current AEvent w with
  | Ret w' => inv wid current w'
  | Panic _ => False
  | Block => ∃ v, h_store (wd_hub w) !! wid = Some v ∧ w_events v = [] ∧ w_eventsClosed v = false
  end.
Proof.
  intros [Hh _ Hl Hsd Hpc] Epc. unfold act, pc_ok in *. rewrite Epc in Hpc |- *.
  destruct Hpc as (v & taken & Hv & Hs & _ & Ht & Hq). rewrite Epc in Hq. simpl in Hq.
  destruct (ho_store _ _ Hh _ _ Hv) as [_ Hvok]. pose proof Hvok as (_ & _ & Hec & _).
  unfold hub_receive. rewrite Hv. destruct (w_events v) as [|ev rest] eqn:Hev.
  - destruct (w_eventsClosed v) eqn:Hc; cbn; [|by exists v]. split; simpl; [done|by exists v|done|done|]. rewrite app_nil_r in Hq.
    (* closed and drained: only a lagging watcher is, because the handler returns after a terminal event *)
    destruct Hq as [Hlive _ _ _ _|Hlive Hq Herr Hterm|Hlive He Hq Hnq Herr].
    + rewrite Hlive in Hec. done.
    + congruence.
    + split; [|split; [done|by exists v]]. exists v, taken. split_and!; try done. simpl. rewrite Hev.
      rewrite app_nil_r. by apply queue_lagged.
  - cbn. split; simpl; [|rewrite lookup_insert_eq; by eexists|done|done|].
    + eapply replace_watcher_ok; [done..|]. intros live (H1 & H2 & H3 & H4 & H5 & H6).
      repeat split; simpl; try done. rewrite Hev in H1. simpl in H1. lia.
    + eexists _, taken. split; [apply lookup_insert_eq|]. by split_and!.
Qed.

Lemma running_prefix wid current e started w : running wid current e started w →
  ∃ seen, Forall2 decodes (wd_sent w) seen ∧ seen `prefix_of` current :: wd_log w.
Proof.
  intros (v & taken & _ & Hs & Hst & _ & Hq). eexists. split; [exact Hs|].
  destruct started; [|apply prefix_nil]. apply prefix_cons. apply queue_prefix in Hq.
  etrans; [|exact Hq]. by eexists.
Qed.

(** A handler that returns an error keeps what it sent. *)
Lemma settle_error wid current e started w h err : running wid current e started w →
  settled current (Some err) (mkWorld h (PReturned (Some err)) (wd_sent w) (wd_log w)).
Proof. intros Hr. destruct (running_prefix _ _ _ _ _ Hr) as (seen & ? & ?). by exists seen. Qed.

Lemma error_step wid current e w :
  details_attach → inv wid current w → wd_pc w = PSelect e ∨ wd_pc w = PDrain e →
  match act wid current AError w with
  | Ret w' => inv wid current w' ∧ (wd_pc w = PDrain e → ∃ s, wd_pc w' = PReturned (Some (HStatus s)) ∧ status_of (ESentinel ExecErrWatcherLagged) s)
  | Panic _ => False
  | Block => wd_pc w = PSelect e
  end.
Proof.
  intros Ha [Hh _ Hl Hsd Hpc] Epc.
  destruct (toExecutionStatusError_ok (ESentinel ExecErrWatcherLagged) Ha eq_refl) as (s & Hs & Hst).
  assert (running wid current e true w ∧ (wd_pc w = PDrain e → e = true ∧ ∃ v, h_store (wd_hub w) !! wid = Some v ∧ w_errors v = [ESentinel ExecErrWatcherLagged]))
    as [Hr Hdr].
  { unfold pc_ok in Hpc. destruct Epc as [Epc|Epc]; rewrite Epc in Hpc; [by split; [|congruence]|].
    destruct Hpc as (? & ? & v & ? & ? & ?). split; [done|]. eauto. }
  pose proof Hr as (v & taken & Hv & Hsent & _ & Ht & Hq).
  destruct (ho_store _ _ Hh _ _ Hv) as [_ Hvok]. pose proof Hvok as (_ & _ & _ & Herc & _).
  destruct e; [|by unfold act; destruct Epc as [Epc|Epc]; rewrite Epc; [|destruct (Hdr Epc)]].
  unfold act. unfold receive_error. rewrite Hv.
  destruct (w_errors v) as [|err rest] eqn:Herr.
  - destruct Epc as [Epc|Epc]; rewrite Epc; [|destruct (Hdr Epc) as (_ & v' & ? & ?); congruence].
    destruct (w_errorsClosed v) eqn:Hc; [|done]. cbn. split; [|congruence].
    split; simpl; [done|by exists v|done|done|]. exists v, taken. split_and!; try done. simpl.
    rewrite Epc in Hq. simpl in Hq. rewrite Herr.
    destruct Hq as [Hlive _ _ _ _|Hlive Hq Her Hterm|Hlive He Hq Hnq Her]; [by rewrite Hlive in Herc| |done].
    by apply queue_ended.
  - assert (err = ESentinel ExecErrWatcherLagged) as ->.
    { destruct Hq as [? ? ? He|? ? He|? ? ? ? He]; congruence. }
    assert (Hinv : ∀ h, hub_ok watcherBufferSize h → is_Some (h_store h !! wid) →
      inv wid current (mkWorld h (PReturned (Some (HStatus s))) (wd_sent w) (wd_log w))).
    { intros h Hh' Hs'. split; try done. by eapply settle_error. }
    assert (Hup : inv wid current (mkWorld (mkHub (h_next (wd_hub w)) (<[wid:=mkWatcher (w_events v) (w_eventsClosed v) rest (w_errorsClosed v) (w_closed v)]> (h_store (wd_hub w))) (h_live (wd_hub w)))
      (PReturned (Some (HStatus s))) (wd_sent w) (wd_log w))).
    { apply Hinv; [|simpl; rewrite lookup_insert_eq; by eexists]. eapply replace_watcher_ok; [done..|].
      intros live (H1 & H2 & H3 & H4 & H5 & H6). rewrite Herr in H5, H6. repeat split; simpl in *; try done; [|lia].
      intros Hlv. specialize (H5 Hlv). done. }
    destruct Epc as [Epc|Epc]; rewrite Epc; cbn [mbind outcome_bind]; unfold goto, status_result;
      rewrite Hs; cbn [fmap option_fmap option_map].
    + split; [done|congruence].
    + split; [done|]. intros _. by exists s.
Qed.

(** A send moves the event from the queue to what was sent. *)
Lemma send_event_step wid current e ev sendErr w :
  inv wid current w → wd_pc w = PEvent e ev → inv wid current (sendExecutionEvent ev sendErr (PSelect e) w).
Proof.
  intros [Hh Hw Hl Hsd Hpc] Epc. unfold pc_ok in Hpc. rewrite Epc in Hpc.
  pose proof Hpc as (v & taken & Hv & Hs & _ & Ht & Hq). rewrite Epc in Hq. simpl in Hq.
  assert (sendable ev) as Hev.
  { apply queue_prefix in Hq as [k Hk]. rewrite Hk in Hsd. rewrite !Forall_app in Hsd.
    destruct Hsd as [[_ Hsd] _]. by apply Forall_cons in Hsd as [? _]. }
  unfold sendExecutionEvent. destruct (event_round_trip ev Hev) as (p & -> & Hp).
  destruct sendErr as [err|]; [by split; try done; eapply settle_error|].
  assert (Forall2 decodes (wd_sent w ++ [p]) (current :: taken ++ [ev])) as Hs'.
  { rewrite app_comm_cons. apply Forall2_app; [done|by repeat constructor]. }
  destruct (terminal_event ev) eqn:Hte; (split; [done|done|done|done|]); cbn [pc_ok wd_pc].
  - exists (current :: taken ++ [ev]). split; [done|].
    assert (wd_log w = taken ++ [ev]) as Hlog.
    { apply terminal_whole; [done|done|]. apply queue_prefix in Hq. etrans; [|exact Hq].
      exists (w_events v). by rewrite <- app_assoc. }
    cbn [wd_log]. rewrite Hlog. split; [done|]. intros _. split; [done|]. rewrite existsb_snoc, Hte. apply orb_true_r.
  - exists v, (taken ++ [ev]). split_and!; try done; [by rewrite existsb_snoc, Ht, Hte|].
    cbn [wd_pc wd_hub wd_log pending]. by rewrite <- app_assoc.
Qed.

Lemma send_current_step wid current sendErr w :
  inv wid current w → sendable current → terminal_event current = false → wd_pc w = PCurrent →
  inv wid current (sendExecutionEvent current sendErr (PSelect true) w).
Proof.
  intros [Hh Hw Hl Hsd Hpc] Hc Hnt Epc. unfold pc_ok in Hpc. rewrite Epc in Hpc.
  pose proof Hpc as (v & taken & Hv & Hs & Hnil & Ht & Hq). rewrite (Hnil eq_refl) in *. apply Forall2_nil_inv_r in Hs.
  unfold sendExecutionEvent. destruct (event_round_trip current Hc) as (p & -> & Hp).
  destruct sendErr as [err|]; [by split; try done; eapply settle_error|].
  rewrite Hnt. split; [done..|]. exists v, []. rewrite Hs. rewrite Epc in Hq.
  split_and!; try done. by repeat constructor.
Qed.

(** Actions that can happen: what is published are events of an execution. *)
Definition admissible (a : action) : Prop := match a with APublish ev _ => sendable ev | _ => True end.

Lemma unsubscribe_safe wid (h : hub Event) : hub_ok watcherBufferSize h → is_Some (h_store h !! wid) →
  ∃ h', hub_unsubscribe wid h = Ret h' ∧ hub_ok watcherBufferSize h' ∧ is_Some (h_store h' !! wid).
Proof.
  intros Hh Hw. unfold hub_unsubscribe. destruct (decide (wid ∈ h_live h)) as [Hin|]; [|by exists h].
  destruct (close_live_ok watcherBufferSize h wid None Hh Hin) as (v & Hv & _ & -> & Hh').
  eexists. split; [done|]. split; [done|]. simpl. rewrite lookup_insert_eq. by eexists.
Qed.

Lemma context_status err : is_context err = true → ∃ s, status_result (Err (FromContextError err)) = Some (HStatus s).
Proof.
  intros Hc. unfold status_result. rewrite Err_Some; [by eexists|].
  destruct (FromContextError_code err Hc) as [[-> _]|[-> _]]; done.
Qed.

Lemma watch_act_keeps wid current a w :
  details_attach → inv wid current w → sendable current → terminal_event current = false → admissible a →
  (∀ err, a = ADone err → is_context err = true) →
  match act wid current a w with Ret w' => inv wid current w' | Panic _ => False | Block => True end.
Proof.
  intros Ha Hi Hc Hnt Hadm Hctx. destruct a as [ev order|sendErr|ctxErr| | |].
  - destruct (act wid current (APublish ev order) w) as [w'|m|] eqn:Hact; [by eapply watch_publish_step| |done].
    destruct Hi as [Hh [v Hv] _ _ _]. revert Hact. unfold act.
    destruct (ended current (wd_log w)) eqn:?; [by destruct (wd_pc w)|]. case_bool_decide as Hord; [|by destruct (wd_pc w)].
    destruct (publish_watcher (wd_hub w) order ev v wid Hh Hord Hv) as (h' & Hp & _). simpl. rewrite Hp.
    by destruct (wd_pc w).
  - destruct (wd_pc w) as [|e|e ev|e|err|err] eqn:Epc; unfold act; rewrite Epc; try done.
    + by apply send_current_step.
    + by apply send_event_step.
  - destruct (wd_pc w) as [|e|e ev|e|err|err] eqn:Epc; unfold act; rewrite Epc; try done.
    destruct Hi as [Hh Hw Hl Hsd Hpc]. split; try done. unfold pc_ok in *. rewrite Epc in Hpc. simpl.
    destruct (context_status ctxErr (Hctx _ eq_refl)) as [s ->]. by eapply settle_error.
  - destruct (wd_pc w) as [|e|e ev|e|err|err] eqn:Epc; try (by unfold act; rewrite Epc).
    pose proof (event_step wid current e w Hi Epc) as Hk. by destruct (act wid current AEvent w).
  - destruct (wd_pc w) as [|e|e ev|e|err|err] eqn:Epc; try (by unfold act; rewrite Epc).
    + pose proof (error_step wid current e w Ha Hi (or_introl Epc)) as Hk. destruct (act wid current AError w); tauto.
    + pose proof (error_step wid current e w Ha Hi (or_intror Epc)) as Hk. destruct (act wid current AError w); tauto.
  - destruct (wd_pc w) as [|e|e ev|e|err|err] eqn:Epc; unfold act; rewrite Epc; try done.
    destruct Hi as [Hh Hw Hl Hsd Hpc]. unfold pc_ok in Hpc. rewrite Epc in Hpc.
    destruct (unsubscribe_safe wid (wd_hub w) Hh Hw) as (h' & -> & Hh' & Hw'). cbn. by split.
Qed.

(** Contexts end with a context error. *)
Definition possible (a : action) : Prop := admissible a ∧ ∀ err, a = ADone err → is_context err = true.

Lemma watch_schedule_inv wid current actions : ∀ w,
  details_attach → inv wid current w → sendable current → terminal_event current = false → Forall possible actions →
  ∃ w', schedule wid current actions w = Ret w' ∧ inv wid current w'.
Proof.
  induction actions as [|a actions IH]; intros w Ha Hi Hc Hnt Hall; simpl; [by exists w|].
  apply Forall_cons in Hall as [[Hadm Hctx] Hall]. pose proof (watch_act_keeps wid current a w Ha Hi Hc Hnt Hadm Hctx) as Hk.
  unfold attempt. destruct (act wid current a w) as [w'|m|]; simpl; [by apply IH|done|by apply IH].
Qed.

Lemma subscribed_inv current h : hub_ok watcherBufferSize h → (h_next h + 1 < 2 ^ 64)%Z →
  inv (hub_subscribe h).1 current (subscribed h).
Proof.
  intros Hh Hb. destruct (hub_subscribe h) as [wid h'] eqn:Hsub.
  destruct (subscribe_ok watcherBufferSize h wid h' Hh Hb Hsub) as (_ & _ & _ & Hh').
  unfold subscribed. rewrite Hsub. simpl. unfold hub_subscribe in Hsub. inv Hsub.
  split; simpl; [done|rewrite lookup_insert_eq; by eexists|by intros ???|constructor|].
  exists newWatcher, []. split; [apply lookup_insert_eq|]. split_and!; try done.
  cbn [wd_hub wd_pc wd_log pending h_live]. rewrite bool_decide_eq_true_2 by set_solver. by apply queue_live.
Qed.

End watch.

(** ** Properties *)

(** C32. Watching an execution that has not ended over gRPC loses nothing and never
    hangs (one that has ended is answered with its one event, without the loop).  From
    the subscription on, whatever the execution publishes, whichever ready case the
    handler's select picks and whenever the client goes away, the handler never
    panics; the client decodes what it receives to the current event followed by
    a prefix of the published ones, in order; the stream ends without error only
    after the whole history up to the terminal event; and when the handler finds
    the event channel closed it is because it lagged, its error channel is not
    nil, and it returns the lag error instead of waiting on a nil channel. *)
Theorem watch_stream_faithful `{G : Grpc} `{R : !StatusReader} (current : Event) (h : hub Event)
    (actions : list action) :
  details_attach → hub_ok watcherBufferSize h → (h_next h + 1 < 2 ^ 64)%Z → sendable current →
  terminal_event current = false → Forall possible actions →
  ∃ w, schedule (hub_subscribe h).1 current actions (subscribed h) = Ret w ∧
    (∃ seen, Forall2 decodes (wd_sent w) seen ∧ seen `prefix_of` current :: wd_log w) ∧
    (wd_pc w = PReturned None →
       Forall2 decodes (wd_sent w) (current :: wd_log w) ∧
       ∃ ev, last (wd_log w) = Some ev ∧ terminal_event ev = true) ∧
    (∀ e, wd_pc w = PDrain e →
       ∃ w' s, act (hub_subscribe h).1 current AError w = Ret w' ∧ wd_pc w' = PReturned (Some (HStatus s)) ∧
         status_of (ESentinel ExecErrWatcherLagged) s).
Proof.
  intros Ha Hh Hb Hc Hnt Hall.
  destruct (watch_schedule_inv _ current actions _ Ha (subscribed_inv current h Hh Hb) Hc Hnt Hall) as (w & Hw & Hi).
  exists w. split; [done|]. pose proof Hi as [_ _ Hl _ Hpc]. unfold pc_ok in Hpc. split_and!.
  - destruct (wd_pc w); try (destruct Hpc as (seen & ? & ? & _); by exists seen); try (by eapply running_prefix).
    destruct Hpc as [Hr _]. by eapply running_prefix.
  - intros Epc. rewrite Epc in Hpc. destruct Hpc as (seen & Hs & _ & Hn). destruct (Hn eq_refl) as [-> Ht].
    split; [done|]. apply existsb_exists in Ht as (ev & Hin & Hev). apply list_elem_of_In in Hin.
    apply list_elem_of_lookup in Hin as [i Hlk]. exists ev. split; [|done].
    rewrite last_lookup. specialize (Hl i ev Hlk Hev). by replace (pred (length (wd_log w))) with i by lia.
  - intros e Epc. pose proof (error_step _ current e w Ha Hi (or_intror Epc)) as Hk.
    destruct (act _ current AError w) as [w'|m|] eqn:Hact; [|done|congruence].
    destruct Hk as [_ Hk]. destruct (Hk Epc) as (s & ? & ?). by exists w', s.
Qed.

Local Existing Instance plain_grpc.
Local Existing Instance plain_reader.

(** An execution that starts and completes while it is watched. *)
Definition sample_event (sequence : Z) (kind : EventKind) (state : State) : Event :=
  mkEvent "x" sequence kind (mkExecutionSnapshot "x" "s" state None (mkRuntimeOptions "application/json" "") None None).

Definition sample_watch : list action :=
  [ASend None; APublish (sample_event 2 EventStarted StateRunning) [1%Z];
   APublish (sample_event 3 EventCompleted StateCompleted) [1%Z]; AError; AEvent; ASend None; AEvent; ASend None].

Definition final_watch : world :=
  match schedule 1 (sample_event 1 EventCreated StateCreated) sample_watch (subscribed newHub) with
  | Ret w => w
  | _ => subscribed newHub
  end.

Lemma final_watch_ok w :
  schedule 1 (sample_event 1 EventCreated StateCreated) sample_watch (subscribed newHub) = Ret w → w = final_watch.
Proof. intros Hw. unfold final_watch. by rewrite Hw. Qed.

Lemma watch_stream_faithful_witness :
  ∃ w, schedule 1 (sample_event 1 EventCreated StateCreated) sample_watch (subscribed newHub) = Ret w ∧
    wd_pc w = PReturned None ∧ length (wd_sent w) = 3%nat ∧
    Forall2 decodes (wd_sent w) (sample_event 1 EventCreated StateCreated :: wd_log w).
Proof.
  destruct (watch_stream_faithful (sample_event 1 EventCreated StateCreated) newHub sample_watch)
    as (w & Hw & _ & Hret & _).
  - exact plain_attach.
  - split; [by intros ?? ?|set_solver|done].
  - done.
  - by split_and!.
  - reflexivity.
  - repeat constructor; try (by split_and!); done.
  - exists w. split; [exact Hw|]. revert Hret. rewrite (final_watch_ok w Hw). intros Hret.
    split; [vm_compute; reflexivity|]. split; [vm_compute; reflexivity|]. apply Hret. vm_compute. reflexivity.
Defined.
