(* ===== verification/Daemon.v ===== *)
(** * The daemon

    [internal/daemon] and the parts of [internal/grpc] that decide who may call
    it ([server.go], [authentication.go]): how options become a server with or
    without bearer authentication, and the lifecycle of [daemon.go], in which
    [Start], any number of [Stop]s and the teardown run concurrently.  The
    sections under [Daemon.mu] are atomic; the calls in between are positions of
    a thread. *)

From S2P Require Import Prelude Errors Wire.

(** ** Options and authentication *)

(** [transport.Endpoint]; the networks are strings. *)
Definition NetworkTCP : string := "tcp".

Record Endpoint := mkEndpoint { ep_Network : string; ep_Address : string }.

Global Instance Endpoint_eq_dec : EqDecision Endpoint.
Proof. solve_decision. Defined.

Record Options := mkOptions {
  op_Version : string;
  op_Endpoint : Endpoint;
  op_BearerToken : string
}.

(** [Options.normalized] with the answer of [transport.DefaultEndpoint]; the
    logger is not modelled. *)
Definition normalized (DefaultEndpoint : Endpoint + error) (o : Options) : (string * Endpoint * string) + error :=
  match (if bool_decide (op_Endpoint o = mkEndpoint "" "") then
           match DefaultEndpoint with
           | inl endpoint => inl endpoint
           | inr err => inr (wrap_prefix "resolve daemon endpoint" err)
           end
         else inl (op_Endpoint o)) with
  | inr err => inr err
  | inl endpoint =>
      let version := if bool_decide (op_Version o = "") then "dev" else op_Version o in
      if bool_decide (ep_Network endpoint = NetworkTCP) && bool_decide (op_BearerToken o = "")
      then inr (ENew "TCP endpoint requires bearer authentication")
      else if bool_decide (ep_Network endpoint ≠ NetworkTCP) && bool_decide (op_BearerToken o ≠ "")
      then inr (ENew "bearer authentication is only supported for TCP endpoints")
      else inl (version, endpoint, op_BearerToken o)
  end.

Section authentication.
(** [crypto/sha256]. *)
Context {digest : Type} `{EqDecision digest} (Sum256 : string → digest).

Definition newBearerAuthentication (token : string) : digest := Sum256 ("Bearer " +:+ token).

(** [status.Error(codes.Unauthenticated, ...)]. *)
Definition unauthenticated : Code * string := (Unauthenticated, "valid bearer authentication is required").

(** [authenticate] with the values of the [authorization] metadata key. *)
Definition authenticate (expected : digest) (values : list string) : option (Code * string) :=
  match values with
  | [value] => if bool_decide (Sum256 value = expected) then None else Some unauthenticated
  | _ => Some unauthenticated
  end.

(** [interceptUnary] and [interceptStream] around a handler. *)
Definition intercept {R : Type} (expected : digest) (values : list string) (handler : R + Code * string) : R + Code * string :=
  match authenticate expected values with
  | Some err => inr err
  | None => handler
  end.

(** The interceptor [grpc.New] installs. *)
Definition interceptor (token : string) : option digest :=
  if bool_decide (token ≠ "") then Some (newBearerAuthentication token) else None.

(** A call served by a daemon with these options: whether its handler runs. *)
Definition admits (DefaultEndpoint : Endpoint + error) (o : Options) (values : list string) : option bool :=
  match normalized DefaultEndpoint o with
  | inr _ => None
  | inl (_, _, token) =>
      Some (match interceptor token with
            | None => true
            | Some expected => match intercept expected values (inl tt) with inl _ => true | inr _ => false end
            end)
  end.
End authentication.

(** ** Lifecycle *)

Inductive lifecycleState := stateNew | stateStarting | stateRunning | stateStopping | stateStopped.

Global Instance lifecycleState_eq_dec : EqDecision lifecycleState.
Proof. solve_decision. Defined.

(** What was done, in order, and what it returned. *)
Inductive event :=
| SetServing
| SetNotServing
| CloseExecutions (err : option error)
| ClearWorkspaces (err : option error)
| StopGrpc (err : option error)
| CloseListener (l : nat) (err : option error)
| CloseRuntime (err : option error).

(** [d_bound] lists the listeners [transport.Listen] returned; [d_shutdown] and
    [d_stopDone] are whether the channels are closed; [d_events] is a record of
    what was done. *)
Record daemon := mkDaemon {
  d_state : lifecycleState;
  d_listener : option nat;
  d_stopErr : option error;
  d_shutdown : bool;
  d_shutdownOnce : bool;
  d_stopDone : bool;
  d_bound : list nat;
  d_events : list event
}.

Definition newDaemon : daemon := mkDaemon stateNew None None false false false [] [].

Definition set_state (s : lifecycleState) (d : daemon) : daemon :=
  mkDaemon s (d_listener d) (d_stopErr d) (d_shutdown d) (d_shutdownOnce d) (d_stopDone d) (d_bound d) (d_events d).
Definition record (e : event) (d : daemon) : daemon :=
  mkDaemon (d_state d) (d_listener d) (d_stopErr d) (d_shutdown d) (d_shutdownOnce d) (d_stopDone d) (d_bound d)
    (d_events d ++ [e]).
Definition bind_listener (l : nat) (d : daemon) : daemon :=
  mkDaemon (d_state d) (d_listener d) (d_stopErr d) (d_shutdown d) (d_shutdownOnce d) (d_stopDone d) (d_bound d ++ [l])
    (d_events d).

(** The section of [Start] that admits it. *)
Definition Start_enter (d : daemon) : bool * daemon :=
  if bool_decide (d_state d ≠ stateNew) then (false, d) else (true, set_state stateStarting d).

(** The section of [Start] after a failed [Listen]. *)
Definition Start_failed (d : daemon) : daemon :=
  if bool_decide (d_state d ≠ stateStopping) then set_state stateStopping d else d.

(** The section of [Start] with a bound listener: [false] when it was stopped in
    the meantime. *)
Definition Start_bound (l : nat) (d : daemon) : bool * daemon :=
  if bool_decide (d_state d = stateStopping) then (false, d)
  else
    (true,
     mkDaemon stateRunning (Some l) (d_stopErr d) (d_shutdown d) (d_shutdownOnce d) (d_stopDone d) (d_bound d)
       (d_events d ++ [SetServing])).

(** What [Stop] does after its section: start the teardown (with the listener,
    serving or not), wait, or return the result. *)
Inductive stop_plan :=
| StopCleanup (listener : option nat) (serving : bool)
| StopWait
| StopReturn (r : option error).

Definition Stop_enter (d : daemon) : stop_plan * daemon :=
  match d_state d with
  | stateNew => (StopCleanup None false, set_state stateStopping d)
  | stateStarting => (StopWait, set_state stateStopping d)
  | stateRunning => (StopCleanup (d_listener d) true, set_state stateStopping d)
  | stateStopping => (StopWait, d)
  | stateStopped => (StopReturn (d_stopErr d), d)
  end.

(** [requestShutdown]: the once guard and the close of the channel. *)
Definition requestShutdown (d : daemon) : outcome daemon :=
  if d_shutdownOnce d then Ret d
  else if d_shutdown d then Panic "close of closed channel"
  else Ret (mkDaemon (d_state d) (d_listener d) (d_stopErr d) true true (d_stopDone d) (d_bound d) (d_events d)).

Definition finishStop (err : option error) (d : daemon) : outcome daemon :=
  if bool_decide (d_state d = stateStopped) then Ret d
  else if d_stopDone d then Panic "close of closed channel"
  else Ret (mkDaemon stateStopped (d_listener d) err (d_shutdown d) (d_shutdownOnce d) true (d_bound d) (d_events d)).

(** [composition.go]: the constructor of the daemon, with the answers of uuid, of
    [exec.New] and of [grpc.New], and what the closes of a failed construction
    return: the daemon, or the error with what was released on the way. *)
Definition construct (instanceID executions grpc : option error) (e1 e2 e3 : option error) : daemon + option error * list event :=
  match instanceID, executions, grpc with
  | Some err, _, _ =>
      inr (errors_Join [Some (wrap_prefix "generate daemon instance ID" err); e3], [CloseRuntime e3])
  | None, Some err, _ =>
      inr (errors_Join [Some (wrap_prefix "create execution manager" err); errors_Join [e2; e3]],
           [ClearWorkspaces e2; CloseRuntime e3])
  | None, None, Some err =>
      inr (errors_Join [Some (wrap_prefix "create gRPC server" err); errors_Join [e1; e2; e3]],
           [CloseExecutions e1; ClearWorkspaces e2; CloseRuntime e3])
  | None, None, None => inl newDaemon
  end.

(** ** Threads *)

(** The errors a teardown has collected, in the order [errors.Join] lists them. *)
Inductive thread :=
| SListen                                        (* Start, before transport.Listen *)
| SBound (l : nat)                               (* Start, before its third section *)
| SFailed (cause : error)                        (* Start, after a failed Listen *)
| SWait (cause : error)                          (* Start, waiting for the teardown *)
| SServe                                         (* Start, serving *)
| SReturned (r : option error)
| TWait                                          (* waitForStop *)
| TReturned (expired : bool) (r : option error)
| KNotServing (l : option nat)                   (* startCleanup while serving *)
| KExecutions (l : option nat) (serving : bool)
| KWorkspaces (l : option nat) (serving : bool) (errs : list (option error))
| KGrpc (l : option nat) (serving : bool) (errs : list (option error))
| KListener (l : option nat) (errs : list (option error))
| KRuntime (errs : list (option error))
| KFinish (err : option error)
| TDone.

Record world := mkWorld { wd_daemon : daemon; wd_threads : list thread }.

Inductive answer :=
| Proceed
| Listened (r : nat + error)
| Served (serveErr : option error) (stopped : bool)   (* grpc.Serve returned; IsStoppedError *)
| Result (err : option error)                         (* what a close of the teardown returned *)
| Expired (err : error).                              (* the context ended *)

Inductive action :=
| AStart (ctxDone : bool)
| AStop
| AShutdown
| AStep (i : nat) (a : answer).

Definition goto (i : nat) (t : thread) (d : daemon) (w : world) : world := mkWorld d (<[i:=t]> (wd_threads w)).
Definition spawn (ts : list thread) (d : daemon) (w : world) : world := mkWorld d (wd_threads w ++ ts).

(** The goroutine of [startCleanup]. *)
Definition startCleanup (l : option nat) (serving : bool) : thread :=
  if serving then KNotServing l else KExecutions l false.

Definition already_started : error := ENew "daemon has already been started".

Definition step_thread (i : nat) (t : thread) (a : answer) (w : world) : outcome world :=
  let d := wd_daemon w in
  match t, a with
  | SListen, Listened (inr err) => Ret (goto i (SFailed err) d w)
  | SListen, Listened (inl l) =>
      if bool_decide (l ∈ d_bound d) then Block else Ret (goto i (SBound l) (bind_listener l d) w)
  | SFailed cause, Proceed =>
      let d := Start_failed d in
      Ret (spawn [startCleanup None false] d (goto i (SWait cause) d w))
  | SWait cause, Proceed =>
      if d_stopDone d
      then Ret (goto i (SReturned (Some (wrap_prefix "listen for daemon connections" cause))) d w) else Block
  | SBound l, Proceed =>
      let '(ok, d) := Start_bound l d in
      Ret (if (ok : bool) then goto i SServe d w
           else spawn [startCleanup (Some l) false] d (goto i (SReturned None) d w))
  | SServe, Expired _ => Ret (goto i (SReturned None) d w)
  | SServe, Proceed => if d_shutdown d then Ret (goto i (SReturned None) d w) else Block
  | SServe, Served serveErr stopped =>
      Ret (goto i (SReturned (match serveErr with
                              | None => None
                              | Some err => if (stopped : bool) then None else Some (wrap_prefix "serve gRPC" err)
                              end)) d w)
  | TWait, Proceed => if d_stopDone d then Ret (goto i (TReturned false (d_stopErr d)) d w) else Block
  | TWait, Expired err => Ret (goto i (TReturned true (Some err)) d w)
  | KNotServing l, Proceed => Ret (goto i (KExecutions l true) (record SetNotServing d) w)
  | KExecutions l serving, Result err => Ret (goto i (KWorkspaces l serving [err]) (record (CloseExecutions err) d) w)
  | KWorkspaces l serving errs, Result err => Ret (goto i (KGrpc l serving (errs ++ [err])) (record (ClearWorkspaces err) d) w)
  | KGrpc l true errs, Result err => Ret (goto i (KListener l (errs ++ [err])) (record (StopGrpc err) d) w)
  | KGrpc l false errs, Proceed => Ret (goto i (KListener l (errs ++ [None])) d w)
  | KListener (Some l) errs, Result err => Ret (goto i (KRuntime (errs ++ [err])) (record (CloseListener l err) d) w)
  | KListener None errs, Proceed => Ret (goto i (KRuntime (errs ++ [None])) d w)
  | KRuntime errs, Result err => Ret (goto i (KFinish (errors_Join (errs ++ [err]))) (record (CloseRuntime err) d) w)
  | KFinish err, Proceed => d ← finishStop err d; Ret (goto i TDone d w)
  | _, _ => Block
  end.

Definition act (a : action) (w : world) : outcome world :=
  let d := wd_daemon w in
  match a with
  | AStart true => Ret (spawn [SReturned None] d w)
  | AStart false =>
      let '(ok, d) := Start_enter d in
      Ret (spawn [if (ok : bool) then SListen else SReturned (Some already_started)] d w)
  | AStop =>
      let '(plan, d) := Stop_enter d in
      Ret (spawn (match plan with
                  | StopCleanup l serving => [startCleanup l serving; TWait]
                  | StopWait => [TWait]
                  | StopReturn r => [TReturned false r]
                  end) d w)
  | AShutdown => d ← requestShutdown d; Ret (mkWorld d (wd_threads w))
  | AStep i a => match wd_threads w !! i with Some t => step_thread i t a w | None => Block end
  end.

Definition attempt (a : action) (w : world) : outcome world :=
  match act a w with
  | Ret w => Ret w
  | Panic m => Panic m
  | Block => Ret w
  end.

Fixpoint schedule (actions : list action) (w : world) : outcome world :=
  match actions with
  | [] => Ret w
  | a :: actions => w ← attempt a w; schedule actions w
  end.

Definition initial : world := mkWorld newDaemon [].

(** ** Invariant *)

(** The threads that will end the lifecycle: a start that has not bound its
    listener yet, and the teardown. *)
Definition pending (t : thread) : bool := match t with SListen | SBound _ | SFailed _ => true | _ => false end.

Definition cleaner (t : thread) : bool :=
  match t with
  | KNotServing _ | KExecutions _ _ | KWorkspaces _ _ _ | KGrpc _ _ _ | KListener _ _ | KRuntime _ | KFinish _ => true
  | _ => false
  end.

Definition worker (t : thread) : bool := pending t || cleaner t.

(** The record of a teardown, step by step. *)
Definition before (serving : bool) : list event := if serving then [SetServing; SetNotServing] else [].
Definition closed_grpc (serving : bool) (e : option error) : list event := if serving then [StopGrpc e] else [].
Definition closed_listener (l : option nat) (e : option error) : list event :=
  match l with Some l => [CloseListener l e] | None => [] end.

(** What a teardown that serves or not, with the listener [l], records when its
    steps return [e1] to [e5]. *)
Definition teardown_events (l : option nat) (serving : bool) (e1 e2 e3 e4 e5 : option error) : list event :=
  before serving ++ [CloseExecutions e1; ClearWorkspaces e2] ++ closed_grpc serving e3 ++ closed_listener l e4 ++ [CloseRuntime e5].

(** A step that was skipped returned nothing. *)
Definition skipped (l : option nat) (serving : bool) (e3 e4 : option error) : Prop :=
  (serving = false → e3 = None) ∧ (l = None → e4 = None).

Definition bound_to (l : option nat) (serving : bool) (d : daemon) : Prop :=
  d_bound d = option_list l ∧ (serving = true → is_Some l).

(** The teardown is complete. *)
Definition torn_down (err : option error) (d : daemon) : Prop :=
  ∃ l serving e1 e2 e3 e4 e5, bound_to l serving d ∧ skipped l serving e3 e4 ∧
    d_events d = teardown_events l serving e1 e2 e3 e4 e5 ∧ err = errors_Join [e1; e2; e3; e4; e5].

Definition stage (d : daemon) (t : thread) : Prop :=
  match t with
  | SListen | SFailed _ => d_bound d = [] ∧ d_events d = []
  | SBound l => d_bound d = [l] ∧ d_events d = []
  | KNotServing l => bound_to l true d ∧ d_events d = [SetServing]
  | KExecutions l serving => bound_to l serving d ∧ d_events d = before serving
  | KWorkspaces l serving errs => bound_to l serving d ∧
      ∃ e1, errs = [e1] ∧ d_events d = before serving ++ [CloseExecutions e1]
  | KGrpc l serving errs => bound_to l serving d ∧
      ∃ e1 e2, errs = [e1; e2] ∧ d_events d = before serving ++ [CloseExecutions e1; ClearWorkspaces e2]
  | KListener l errs => ∃ serving e1 e2 e3, bound_to l serving d ∧ (serving = false → e3 = None) ∧ errs = [e1; e2; e3] ∧
      d_events d = before serving ++ [CloseExecutions e1; ClearWorkspaces e2] ++ closed_grpc serving e3
  | KRuntime errs => ∃ l serving e1 e2 e3 e4, bound_to l serving d ∧ skipped l serving e3 e4 ∧ errs = [e1; e2; e3; e4] ∧
      d_events d = before serving ++ [CloseExecutions e1; ClearWorkspaces e2] ++ closed_grpc serving e3 ++ closed_listener l e4
  | KFinish err => torn_down err d
  | _ => True
  end.

(** The result a caller of [Stop] was given. *)
Definition returned (d : daemon) (t : thread) : Prop :=
  match t with
  | TReturned false r => d_state d = stateStopped ∧ r = d_stopErr d
  | _ => True
  end.

Definition state_ok (d : daemon) (ts : list thread) : Prop :=
  match d_state d with
  | stateNew => count worker ts = 0%nat ∧ d_bound d = [] ∧ d_events d = []
  | stateStarting => count worker ts = 1%nat ∧ count cleaner ts = 0%nat
  | stateRunning => count worker ts = 0%nat ∧ ∃ l, d_listener d = Some l ∧ d_bound d = [l] ∧ d_events d = [SetServing]
  | stateStopping => count worker ts = 1%nat
  | stateStopped => count worker ts = 0%nat ∧ torn_down (d_stopErr d) d
  end.

Record inv (d : daemon) (ts : list thread) : Prop := {
  iv_state : state_ok d ts;
  iv_done : d_stopDone d = bool_decide (d_state d = stateStopped);
  iv_once : d_shutdown d = d_shutdownOnce d;
  iv_stage : ∀ t, t ∈ ts → stage d t;
  iv_returned : ∀ t, t ∈ ts → returned d t
}.

Definition keeps (o : outcome world) : Prop :=
  match o with
  | Ret w => inv (wd_daemon w) (wd_threads w)
  | Panic _ => False
  | Block => True
  end.

Lemma cleaner_worker ts : (count cleaner ts ≤ count worker ts)%nat.
Proof. induction ts as [|t ts IH]; simpl; [lia|]. unfold worker at 1. destruct (pending t), (cleaner t); simpl; lia. Qed.

(** Threads other than the worker do not depend on what it changes. *)
Lemma stage_idle d d' t : worker t = false → stage d t → stage d' t.
Proof. by destruct t. Qed.

(** Elements of a list in which one thread was replaced and others were added. *)
Lemma elem_step (ts : list thread) i t t' xs u : ts !! i = Some t → u ∈ <[i:=t']> ts ++ xs →
  u = t' ∨ u ∈ xs ∨ ∃ j, j ≠ i ∧ ts !! j = Some u.
Proof.
  intros Ht [Hu|Hu]%elem_of_app; [|by right; left]. apply list_elem_of_lookup in Hu as (j & Hj).
  destruct (decide (j = i)) as [->|Hne].
  - rewrite list_lookup_insert_eq in Hj by (by eapply lookup_lt_Some). left. congruence.
  - rewrite list_lookup_insert_ne in Hj by done. right. right. eauto.
Qed.

(** The only worker steps: the other threads keep their stage. *)
Lemma daemon_worker_step d d' ts i t t' xs : inv d ts → ts !! i = Some t → worker t = true →
  d_state d ≠ stateStopped → d_stopDone d' = bool_decide (d_state d' = stateStopped) → d_shutdown d' = d_shutdownOnce d' →
  state_ok d' (<[i:=t']> ts ++ xs) → (∀ u, u ∈ t' :: xs → stage d' u ∧ returned d' u) → inv d' (<[i:=t']> ts ++ xs).
Proof.
  intros [I1 I2 I3 I4 I5] Ht Hw Hns Hd Ho Hs Hx. split; try done.
  - intros u Hu. destruct (elem_step _ _ _ _ _ _ Ht Hu) as [->|[?|(j & Hj & Hu')]].
    + apply Hx. apply list_elem_of_here.
    + apply Hx. by apply list_elem_of_further.
    + apply (stage_idle d); [|apply I4; by eapply list_elem_of_lookup_2]. destruct (worker u) eqn:Hwu; [|done].
      assert (count worker ts ≤ 1)%nat by (unfold state_ok in I1; destruct (d_state d); naive_solver lia).
      pose proof (count_two worker ts i j t u). naive_solver lia.
  - intros u Hu. destruct (elem_step _ _ _ _ _ _ Ht Hu) as [->|[?|(j & Hj & Hu')]].
    + apply Hx. apply list_elem_of_here.
    + apply Hx. by apply list_elem_of_further.
    + pose proof (I5 u ltac:(by eapply list_elem_of_lookup_2)) as Hr. destruct u as [| | | | | | |[] r| | | | | | | |]; try done.
      by destruct Hr.
Qed.

Lemma worker_state d ts i t : inv d ts → ts !! i = Some t → worker t = true →
  count worker ts = 1%nat ∧ (d_state d = stateStopping ∨ d_state d = stateStarting ∧ cleaner t = false).
Proof.
  intros I Ht Hw. pose proof (count_pos _ _ _ _ Ht Hw). pose proof (iv_state _ _ I) as Hs. unfold state_ok in Hs.
  destruct (d_state d); try (naive_solver lia). destruct Hs as [H1 H2]. split; [done|]. right. split; [done|].
  destruct (cleaner t) eqn:Hc; [|done]. pose proof (count_pos _ _ _ _ Ht Hc). lia.
Qed.

(** A step of the teardown that leaves the lifecycle alone. *)
Lemma clean_step d d' ts i t t' : inv d ts → ts !! i = Some t → cleaner t = true → cleaner t' = true →
  d_state d' = d_state d → d_stopDone d' = d_stopDone d → d_shutdown d' = d_shutdown d → d_shutdownOnce d' = d_shutdownOnce d →
  stage d' t' → inv d' (<[i:=t']> ts).
Proof.
  intros I Ht Hc Hc' E1 E2 E3 E4 Hst. assert (worker t = true ∧ worker t' = true) as [Hw Hw'].
  { unfold worker. rewrite Hc, Hc'. by rewrite !orb_true_r. }
  destruct (worker_state _ _ _ _ I Ht Hw) as [Hn [Hs|[_ ?]]]; [|congruence]. rewrite <-(app_nil_r (<[i:=t']> ts)).
  apply (daemon_worker_step d d' ts i t t'); try done; [congruence|by rewrite E2, E1, (iv_done _ _ I)|by rewrite E3, E4, (iv_once _ _ I)| |].
  - unfold state_ok. rewrite E1, Hs, app_nil_r. pose proof (count_insert worker ts i t t' Ht). rewrite Hw, Hw' in *. lia.
  - intros u ->%list_elem_of_singleton. split; [done|by destruct t'].
Qed.

Lemma teardown_step d ts i t a : inv d ts → ts !! i = Some t → cleaner t = true →
  keeps (step_thread i t a (mkWorld d ts)).
Proof.
  intros I Ht Hc. pose proof (iv_stage _ _ I t ltac:(by eapply list_elem_of_lookup_2)) as Hst.
  destruct t as [| | | | | | | |l|l sv|l sv errs|l sv errs|l errs|errs|err|]; try done; simpl in Hst.
  - destruct Hst as (Hb & He). destruct a; try exact Logic.I. eapply (clean_step d); try done. simpl. by rewrite He.
  - destruct Hst as (Hb & He). destruct a as [| | |err|]; try exact Logic.I. eapply (clean_step d); try done.
    simpl. rewrite He. eauto.
  - destruct Hst as (Hb & e1 & -> & He). destruct a as [| | |err|]; try exact Logic.I. eapply (clean_step d); try done.
    simpl. rewrite He, <-(assoc_L app). split; [done|]. by exists e1, err.
  - destruct Hst as (Hb & e1 & e2 & -> & He). destruct sv, a as [| | |err|]; try exact Logic.I; eapply (clean_step d); try done; simpl.
    + exists true, e1, e2, err. rewrite He. done.
    + exists false, e1, e2, None. rewrite He. done.
  - destruct Hst as (sv & e1 & e2 & e3 & Hb & Hsk & -> & He).
    destruct l as [l|], a as [| | |err|]; try exact Logic.I; eapply (clean_step d); try done; simpl.
    + exists (Some l), sv, e1, e2, e3, err. rewrite He, <-!(assoc_L app). done.
    + exists None, sv, e1, e2, e3, None. rewrite He. simpl. rewrite app_nil_r. done.
  - destruct Hst as (l & sv & e1 & e2 & e3 & e4 & Hb & Hsk & -> & He). destruct a as [| | |err|]; try exact Logic.I.
    eapply (clean_step d); try done. simpl. exists l, sv, e1, e2, e3, e4, err.
    split_and!; try done. unfold teardown_events. simpl. rewrite He, <-(assoc_L app). simpl. by rewrite <-(assoc_L app).
  - destruct a; try exact Logic.I. simpl. destruct (worker_state _ _ _ _ I Ht eq_refl) as [Hn [Hs|[_ ?]]]; [|done].
    unfold finishStop. rewrite (iv_done _ _ I), Hs. simpl. rewrite <-(app_nil_r (<[i:=TDone]> ts)).
    apply (daemon_worker_step d _ ts i (KFinish err)); try done; [by rewrite Hs|apply (iv_once _ _ I)| |].
    + unfold state_ok. simpl. rewrite app_nil_r. split; [|done]. pose proof (count_insert worker ts i _ TDone Ht). simpl in *. lia.
    + by intros u ->%list_elem_of_singleton.
Qed.

Lemma pending_step d ts i t a : inv d ts → ts !! i = Some t → pending t = true → keeps (step_thread i t a (mkWorld d ts)).
Proof.
  intros I Ht Hp. pose proof (iv_stage _ _ I t ltac:(by eapply list_elem_of_lookup_2)) as Hst.
  assert (worker t = true) as Hw by (unfold worker; by rewrite Hp).
  destruct (worker_state _ _ _ _ I Ht Hw) as [Hn Hs]. assert (d_state d ≠ stateStopped) as Hns by (by destruct Hs as [->|[-> _]]).
  assert (∀ t', pending t' = true → count worker (<[i:=t']> ts) = 1%nat ∧ count cleaner (<[i:=t']> ts) = count cleaner ts) as Hcnt.
  { intros t' Hp'. pose proof (count_insert worker ts i t t' Ht). pose proof (count_insert cleaner ts i t t' Ht).
    assert (cleaner t = false ∧ cleaner t' = false) as [Q Q'] by (by destruct t, t').
    unfold worker in *. rewrite Hp, Hp', Q, Q' in *. simpl in *. lia. }
  pose proof (iv_done _ _ I) as Hd. pose proof (iv_once _ _ I) as Ho. pose proof (iv_state _ _ I) as Hst0.
  assert (∀ d' t', pending t' = true → d_state d' = d_state d → state_ok d' (<[i:=t']> ts)) as Hsame.
  { intros d' t' Hp' Hs'. destruct (Hcnt t' Hp') as [N1 N2]. unfold state_ok in *. rewrite Hs'.
    destruct Hs as [Hs|[Hs _]]; rewrite Hs in *; [done|]. destruct Hst0. split; congruence. }
  destruct t as [|l|cause| | | | | | | | | | | | |]; try done; simpl in Hst.
  - destruct Hst as [Hb He]. destruct a as [|[l|err]| | |]; try exact Logic.I; simpl.
    + destruct (bool_decide (l ∈ d_bound d)); [exact Logic.I|]. simpl. rewrite <-(app_nil_r (<[i:=SBound l]> ts)).
      apply (daemon_worker_step d _ ts i SListen); try done; [rewrite app_nil_r; by apply Hsame|].
      intros u ->%list_elem_of_singleton. simpl. by rewrite Hb.
    + rewrite <-(app_nil_r (<[i:=SFailed err]> ts)).
      apply (daemon_worker_step d _ ts i SListen); try done; [rewrite app_nil_r; by apply Hsame|].
      by intros u ->%list_elem_of_singleton.
  - destruct Hst as [Hb He]. destruct a; try exact Logic.I. simpl. unfold Start_bound.
    destruct (bool_decide (d_state d = stateStopping)) eqn:Hst1; bools; simpl.
    + apply (daemon_worker_step d _ ts i (SBound l)); try done.
      * unfold state_ok. rewrite Hst1, count_app. pose proof (count_insert worker ts i _ (SReturned None) Ht). simpl in *. lia.
      * intros u [->| ->%list_elem_of_singleton]%elem_of_cons; [done|]. simpl. unfold bound_to. by rewrite Hb.
    + rewrite <-(app_nil_r (<[i:=SServe]> ts)). apply (daemon_worker_step d _ ts i (SBound l)); try done.
      * rewrite Hd. by destruct Hs as [->|[-> _]].
      * unfold state_ok. simpl. rewrite app_nil_r. pose proof (count_insert worker ts i _ SServe Ht). simpl in *.
        split; [lia|]. exists l. by rewrite Hb, He.
      * by intros u ->%list_elem_of_singleton.
  - destruct Hst as [Hb He]. destruct a; try exact Logic.I. simpl.
    assert (∀ d', d_state d' = stateStopping → d_bound d' = d_bound d → d_events d' = d_events d → d_stopDone d' = d_stopDone d →
      d_shutdown d' = d_shutdown d → d_shutdownOnce d' = d_shutdownOnce d →
      inv d' (<[i:=SWait cause]> ts ++ [KExecutions None false])) as Hk.
    { intros d' E1 E2 E3 E4 E5 E6. apply (daemon_worker_step d d' ts i (SFailed cause)); try done.
      - rewrite E4, Hd, E1. by destruct Hs as [->|[-> _]].
      - congruence.
      - unfold state_ok. rewrite E1, count_app. pose proof (count_insert worker ts i _ (SWait cause) Ht). simpl in *. lia.
      - intros u [->| ->%list_elem_of_singleton]%elem_of_cons; [done|]. simpl. unfold bound_to. by rewrite E2, E3, Hb, He. }
    unfold Start_failed. destruct (bool_decide (d_state d ≠ stateStopping)) eqn:Hst1; bools; [by apply Hk|].
    apply Hk; try done. by destruct (decide (d_state d = stateStopping)).
Qed.

Lemma idle_step d ts i t t' : inv d ts → ts !! i = Some t → worker t = false → worker t' = false →
  returned d t' → inv d (<[i:=t']> ts).
Proof.
  intros [I1 I2 I3 I4 I5] Ht Hw Hw' Hr. assert (stage d t') as Hst by (by destruct t').
  assert (count worker (<[i:=t']> ts) = count worker ts ∧ count cleaner (<[i:=t']> ts) = count cleaner ts) as [N1 N2].
  { pose proof (count_insert worker ts i t t' Ht). pose proof (count_insert cleaner ts i t t' Ht).
    unfold worker in *. destruct (cleaner t), (cleaner t'), (pending t), (pending t'); simpl in *; try done; lia. }
  assert (∀ u, u ∈ <[i:=t']> ts → u = t' ∨ u ∈ ts) as Hin.
  { intros u Hu. rewrite <-(app_nil_r (<[i:=t']> ts)) in Hu. destruct (elem_step _ _ _ _ _ _ Ht Hu) as [?|[[]%elem_of_nil|(j & _ & ?)]];
      [by left|right; by eapply list_elem_of_lookup_2]. }
  split; try done.
  - unfold state_ok in *. rewrite N1, N2. done.
  - intros u Hu. destruct (Hin u Hu) as [->|?]; [done|by apply I4].
  - intros u Hu. destruct (Hin u Hu) as [->|?]; [done|by apply I5].
Qed.

Lemma daemon_thread_step d ts i t a : inv d ts → ts !! i = Some t → keeps (step_thread i t a (mkWorld d ts)).
Proof.
  intros I Ht. destruct (cleaner t) eqn:Hc; [by apply teardown_step|]. destruct (pending t) eqn:Hp; [by apply pending_step|].
  destruct t; try done; destruct a; try exact Logic.I; simpl; try (by eapply idle_step).
  - destruct (d_stopDone d); [|exact Logic.I]. by eapply idle_step.
  - destruct (d_shutdown d); [|exact Logic.I]. by eapply idle_step.
  - destruct (d_stopDone d) eqn:Hd; [|exact Logic.I]. eapply idle_step; try done. split; [|done].
    rewrite (iv_done _ _ I) in Hd. by bools.
Qed.

(** New threads, and a change of the daemon that keeps its records. *)
Lemma daemon_spawn d d' ts xs : inv d ts → d_bound d' = d_bound d → d_events d' = d_events d →
  (d_state d = stateStopped → d_state d' = stateStopped ∧ d_stopErr d' = d_stopErr d) →
  d_stopDone d' = bool_decide (d_state d' = stateStopped) → d_shutdown d' = d_shutdownOnce d' →
  state_ok d' (ts ++ xs) → (∀ t, t ∈ xs → stage d' t ∧ returned d' t) → inv d' (ts ++ xs).
Proof.
  intros [I1 I2 I3 I4 I5] Eb Ee Es Hd Ho Hs Hx. split; try done.
  - intros t [Ht|Ht]%elem_of_app; [|by apply Hx]. specialize (I4 t Ht).
    destruct t; simpl in *; unfold bound_to, torn_down in *; rewrite ?Eb, ?Ee; try done.
    all: unfold bound_to in *; rewrite ?Eb; done.
  - intros t [Ht|Ht]%elem_of_app; [|by apply Hx]. specialize (I5 t Ht). destruct t as [| | | | | | |[] r| | | | | | | |]; try done.
    destruct I5 as [H1 H2]. destruct (Es H1) as [E1 E2]. split; congruence.
Qed.

Lemma daemon_act_keeps a w : inv (wd_daemon w) (wd_threads w) → keeps (act a w).
Proof.
  destruct w as [d ts]. simpl. intros I. pose proof (iv_state _ _ I) as Hs. pose proof (iv_done _ _ I) as Hd. pose proof (iv_once _ _ I) as Ho.
  destruct a as [[]| | |i a]; simpl.
  - apply (daemon_spawn d); try done; [|by intros t ->%list_elem_of_singleton].
    unfold state_ok in *. rewrite !count_app. simpl. rewrite !Nat.add_0_r. done.
  - unfold Start_enter. destruct (decide (d_state d = stateNew)) as [Hn|Hn]; [rewrite bool_decide_false by naive_solver|rewrite bool_decide_true by done]; simpl.
    2: { apply (daemon_spawn d); try done; [|by intros t ->%list_elem_of_singleton].
      unfold state_ok in *. rewrite !count_app. simpl. rewrite !Nat.add_0_r. done. }
    unfold state_ok in Hs. rewrite Hn in Hs. destruct Hs as (H1 & H2 & H3).
    apply (daemon_spawn d); try done; [congruence|simpl; by rewrite Hd, Hn| |].
    * unfold state_ok. simpl. rewrite !count_app. simpl. pose proof (cleaner_worker ts). lia.
    * intros t ->%list_elem_of_singleton. done.
  - unfold Stop_enter. unfold state_ok in Hs. destruct (d_state d) eqn:Hst; simpl.
    + destruct Hs as (H1 & H2 & H3). apply (daemon_spawn d); try done; [congruence| |].
      * unfold state_ok. simpl. rewrite count_app. simpl. lia.
      * intros t [->| ->%list_elem_of_singleton]%elem_of_cons; [|done]. unfold startCleanup, stage, bound_to. simpl. by rewrite H2, H3.
    + destruct Hs as (H1 & H2). apply (daemon_spawn d); try done; [congruence| |by intros t ->%list_elem_of_singleton].
      unfold state_ok. simpl. rewrite count_app. simpl. lia.
    + destruct Hs as (H1 & l & Hl & Hb & He). apply (daemon_spawn d); try done; [congruence| |].
      * unfold state_ok. simpl. rewrite count_app. simpl. lia.
      * intros t [->| ->%list_elem_of_singleton]%elem_of_cons; [|done]. rewrite Hl. unfold startCleanup, stage, bound_to. simpl. by rewrite Hb, He.
    + apply (daemon_spawn d); try done; try (by rewrite Hd, Hst); [|by intros t ->%list_elem_of_singleton].
      unfold state_ok. rewrite Hst, count_app. simpl. lia.
    + apply (daemon_spawn d); try done; try (by rewrite Hd, Hst).
      * unfold state_ok. rewrite Hst, count_app. simpl. destruct Hs. split; [lia|done].
      * intros t ->%list_elem_of_singleton. done.
  - unfold requestShutdown. destruct (d_shutdownOnce d) eqn:Hso; [done|]. rewrite Ho. simpl.
    rewrite <-(app_nil_r ts). apply (daemon_spawn d); try done; [|by intros t ?%elem_of_nil]. by rewrite app_nil_r.
  - destruct (ts !! i) as [t|] eqn:Ht; [|done]. by apply daemon_thread_step.
Qed.

Lemma daemon_schedule_inv actions : ∀ w, inv (wd_daemon w) (wd_threads w) →
  ∃ w', schedule actions w = Ret w' ∧ inv (wd_daemon w') (wd_threads w').
Proof.
  induction actions as [|a actions IH]; intros w I; [by exists w|]. simpl. pose proof (daemon_act_keeps a w I) as Hk.
  unfold attempt. destruct (act a w) as [w1| |]; [by apply IH|done|by apply IH].
Qed.

Lemma daemon_initial_inv : inv newDaemon [].
Proof. split; try done; by intros t ?%elem_of_nil. Qed.

(** ** The end of the teardown *)

(** The steps the worker still takes. *)
Definition work (t : thread) : nat :=
  match t with
  | SListen => 9
  | SBound _ | SFailed _ => 8
  | KNotServing _ => 7
  | KExecutions _ _ => 6
  | KWorkspaces _ _ _ => 5
  | KGrpc _ _ _ => 4
  | KListener _ _ => 3
  | KRuntime _ => 2
  | KFinish _ => 1
  | _ => 0
  end.

(** What makes it proceed. *)
Definition drive (t : thread) : answer :=
  match t with
  | SListen => Listened (inr (ENew ""))
  | KExecutions _ _ | KWorkspaces _ _ _ | KGrpc _ true _ | KListener (Some _) _ | KRuntime _ => Result None
  | _ => Proceed
  end.

(** The worker, where it is, is the only thread with work left. *)
Fixpoint remaining (ts : list thread) : nat :=
  match ts with [] => 0 | t :: ts => work t + remaining ts end.

Lemma remaining_app ts xs : remaining (ts ++ xs) = (remaining ts + remaining xs)%nat.
Proof. induction ts as [|t ts IH]; simpl; lia. Qed.

Lemma remaining_insert ts i t t' : ts !! i = Some t → (remaining (<[i:=t']> ts) + work t = remaining ts + work t')%nat.
Proof. revert i. induction ts as [|u ts IH]; intros [|i] Ht; simplify_eq/=; [lia|]. specialize (IH _ Ht). lia. Qed.

Lemma remaining_bound ts : (remaining ts ≤ 9 * count worker ts)%nat.
Proof. induction ts as [|t ts IH]; simpl; [lia|]. destruct t; simpl; lia. Qed.

Lemma drive_step d ts i t : inv d ts → ts !! i = Some t → worker t = true → d_state d = stateStopping →
  ∃ w', step_thread i t (drive t) (mkWorld d ts) = Ret w' ∧ (remaining (wd_threads w') < remaining ts)%nat ∧
    (d_state (wd_daemon w') = stateStopping ∨ d_state (wd_daemon w') = stateStopped).
Proof.
  intros I Ht Hw Hs. pose proof (remaining_insert ts i t) as Hr. specialize (Hr) with (1 := Ht).
  assert (∀ t' d', work t' < work t → d_state d' = stateStopping ∨ d_state d' = stateStopped →
    ∃ w', Ret (goto i t' d' (mkWorld d ts)) = Ret w' ∧ (remaining (wd_threads w') < remaining ts)%nat ∧
    (d_state (wd_daemon w') = stateStopping ∨ d_state (wd_daemon w') = stateStopped)) as Hgo.
  { intros t' d' Hlt Hst. eexists. split; [done|]. simpl. split; [specialize (Hr t'); lia|done]. }
  assert (∀ t' x d', work t' + work x < work t → d_state d' = stateStopping →
    ∃ w', Ret (spawn [x] d' (goto i t' d' (mkWorld d ts))) = Ret w' ∧ (remaining (wd_threads w') < remaining ts)%nat ∧
    (d_state (wd_daemon w') = stateStopping ∨ d_state (wd_daemon w') = stateStopped)) as Hsp.
  { intros t' x d' Hlt Hst. eexists. split; [done|]. simpl. rewrite remaining_app. simpl. split; [specialize (Hr t'); lia|auto]. }
  destruct t as [|l|cause| | | | | |l|l sv|l [] errs|l [] errs|[l|] errs|errs|err|]; try done; simpl.
  all: try (apply Hgo; [simpl; lia|by left]).
  - unfold Start_bound. rewrite bool_decide_true by done. apply Hsp; [simpl; lia|done].
  - unfold Start_failed. rewrite bool_decide_false by naive_solver. apply Hsp; [simpl; lia|done].
  - unfold finishStop. rewrite (iv_done _ _ I), Hs. simpl. apply Hgo; [simpl; lia|by right].
Qed.

Lemma stop_drains n : ∀ w, inv (wd_daemon w) (wd_threads w) → d_state (wd_daemon w) = stateStopping →
  (remaining (wd_threads w) ≤ n)%nat →
  ∃ steps w', (length steps ≤ n)%nat ∧ Forall (λ a, ∃ i r, a = AStep i r) steps ∧ schedule steps w = Ret w' ∧
    d_state (wd_daemon w') = stateStopped.
Proof.
  induction n as [|n IH]; intros [d ts] I Hs Hn; simpl in *;
    pose proof (iv_state _ _ I) as Hst; unfold state_ok in Hst; rewrite Hs in Hst;
    destruct (count_witness worker ts) as (i & t & Ht & Hw); try lia;
    destruct (drive_step d ts i t I Ht Hw Hs) as (w1 & Hw1 & Hlt & Hs1); [lia|].
  assert (act (AStep i (drive t)) (mkWorld d ts) = Ret w1) as Ha by (simpl; by rewrite Ht).
  pose proof (daemon_act_keeps (AStep i (drive t)) (mkWorld d ts) I) as Hk. rewrite Ha in Hk.
  destruct Hs1 as [Hs1|Hs1].
  - destruct (IH w1 Hk Hs1 ltac:(lia)) as (steps & w' & H1 & H2 & H3 & H4).
    exists (AStep i (drive t) :: steps), w'. simpl. split_and!; [lia|by constructor; eauto| |done].
    unfold attempt. by rewrite Ha.
  - exists [AStep i (drive t)], w1. simpl. split_and!; [lia|by repeat constructor; eauto| |done]. unfold attempt. by rewrite Ha.
Qed.

(** ** Properties *)

(** Whatever the order of starts, stops, shutdown requests and failures, the
    daemon never panics and tears down at most once: once it is stopped,
    everything it started was released exactly once and in order (health,
    executions, workspaces, the gRPC server, every listener it bound, the
    runtime), and every caller of [Stop] that waited gets the joined errors of
    that teardown. *)
Theorem daemon_stops_once actions : ∃ w, schedule actions initial = Ret w ∧
  (d_stopDone (wd_daemon w) = true ↔ d_state (wd_daemon w) = stateStopped) ∧
  (d_state (wd_daemon w) = stateStopped → torn_down (d_stopErr (wd_daemon w)) (wd_daemon w)) ∧
  (∀ r, TReturned false r ∈ wd_threads w → d_state (wd_daemon w) = stateStopped ∧ r = d_stopErr (wd_daemon w)).
Proof.
  destruct (daemon_schedule_inv actions initial daemon_initial_inv) as (w & Hw & I). exists w. split_and!; [done| | |].
  - rewrite (iv_done _ _ I). by rewrite bool_decide_eq_true.
  - intros Hs. pose proof (iv_state _ _ I) as Hst. unfold state_ok in Hst. rewrite Hs in Hst. by destruct Hst.
  - intros r Hr. by apply (iv_returned _ _ I) in Hr.
Qed.

(** A construction that fails closes the runtime, last and once, and reports the
    failure and every error of the closes. *)
Lemma construct_releases instanceID executions grpc e1 e2 e3 err events :
  construct instanceID executions grpc e1 e2 e3 = inr (err, events) →
  (∃ released, events = released ++ [CloseRuntime e3] ∧ CloseRuntime e3 ∉ released) ∧ is_Some err ∧
  ∀ target, is_err e3 target = true → is_err err target = true.
Proof.
  intros Hc. unfold construct in Hc. destruct instanceID as [x|], executions as [y|], grpc as [z|]; simplify_eq;
    (split; [first [exists []; split; [reflexivity|set_solver] | exists [ClearWorkspaces e2]; split; [reflexivity|set_solver]
                   | exists [CloseExecutions e1; ClearWorkspaces e2]; split; [reflexivity|set_solver]]|];
     split; [by destruct e1, e2, e3|]);
    intros target Ht; rewrite !errors_Join_Is; simpl; rewrite ?errors_Join_Is; simpl; rewrite Ht; by rewrite ?orb_true_r.
Qed.

(** C18. A stop that has begun always completes: at most nine steps of the thread
    that tears down (or that is still binding the listener) stop the daemon, and
    then every caller that waits for it can return. *)
Theorem daemon_stop_completes actions w : schedule actions initial = Ret w → d_state (wd_daemon w) = stateStopping →
  ∃ steps w', (length steps ≤ 9)%nat ∧ Forall (λ a, ∃ i r, a = AStep i r) steps ∧ schedule steps w = Ret w' ∧
    d_state (wd_daemon w') = stateStopped ∧
    ∀ i, wd_threads w' !! i = Some TWait → ∃ w'', step_thread i TWait Proceed w' = Ret w'' ∧
      wd_threads w'' !! i = Some (TReturned false (d_stopErr (wd_daemon w'))).
Proof.
  intros Hw Hs. destruct (daemon_schedule_inv actions initial daemon_initial_inv) as (w0 & Hw0 & I).
  assert (w0 = w) as -> by congruence. pose proof (iv_state _ _ I) as Hst. unfold state_ok in Hst. rewrite Hs in Hst.
  pose proof (remaining_bound (wd_threads w)). destruct (stop_drains 9 w I Hs ltac:(lia)) as (steps & w' & H1 & H2 & H3 & H4).
  exists steps, w'. split_and!; try done. intros i Hi. destruct (daemon_schedule_inv steps w I) as (w1 & Hw1 & I1).
  assert (w1 = w') as -> by congruence. simpl. rewrite (iv_done _ _ I1), H4. simpl. eexists. split; [done|]. simpl.
  apply list_lookup_insert_eq. by eapply lookup_lt_Some.
Qed.

Lemma normalized_facts DefaultEndpoint o version endpoint token : normalized DefaultEndpoint o = inl (version, endpoint, token) →
  token = op_BearerToken o ∧ (ep_Network endpoint = NetworkTCP ↔ token ≠ "") ∧
  if bool_decide (op_Endpoint o = mkEndpoint "" "") then DefaultEndpoint = inl endpoint else endpoint = op_Endpoint o.
Proof.
  intros Hn. unfold normalized in Hn. destruct (bool_decide (op_Endpoint o = mkEndpoint "" ""));
    [destruct DefaultEndpoint as [ep|]; [|done]|];
    (destruct (_ && _) eqn:E1 in Hn; [done|]; destruct (_ && _) eqn:E2 in Hn; [done|]; simplify_eq; split; [done|]; split; [|done];
     rewrite andb_false_iff, !bool_decide_eq_false in E1, E2).
  - destruct (decide (ep_Network endpoint = NetworkTCP)), (decide (op_BearerToken o = "")); naive_solver.
  - destruct (decide (ep_Network (op_Endpoint o) = NetworkTCP)), (decide (op_BearerToken o = "")); naive_solver.
Qed.

(** C19. A daemon that listens on TCP runs no handler without its token: its
    options are refused without one, and a call is served exactly when it
    carries one [authorization] value, with the digest of the token's; a daemon
    on another transport has no token and serves every call. *)
Theorem tcp_calls_authenticated {digest : Type} `{EqDecision digest} (Sum256 : string → digest) DefaultEndpoint o values
    version endpoint token : normalized DefaultEndpoint o = inl (version, endpoint, token) →
  (ep_Network endpoint = NetworkTCP ↔ token ≠ "") ∧
  (ep_Network endpoint = NetworkTCP →
     (admits Sum256 DefaultEndpoint o values = Some true ↔
      ∃ value, values = [value] ∧ Sum256 value = Sum256 ("Bearer " +:+ op_BearerToken o))) ∧
  (ep_Network endpoint ≠ NetworkTCP → admits Sum256 DefaultEndpoint o values = Some true).
Proof.
  intros Hn. destruct (normalized_facts _ _ _ _ _ Hn) as (-> & Ht & _).
  split; [done|]. unfold admits. rewrite Hn. unfold interceptor. split; intros Hnet.
  - rewrite bool_decide_true by (by apply Ht). unfold intercept, authenticate, newBearerAuthentication.
    destruct values as [|v [|v' values]]; [naive_solver| |naive_solver]. case_bool_decide; naive_solver.
  - by rewrite bool_decide_false by (by rewrite <-Ht).
Qed.

(** ** Samples *)

(** A stop during the start: the listener was bound in the meantime and is
    closed by the teardown. *)
Definition sample_stop : list action :=
  [AStart false; AStop; AShutdown; AStep 0 (Listened (inl 4%nat)); AStart false; AStep 0 Proceed].

Definition sample_world : world := match schedule sample_stop initial with Ret w => w | _ => initial end.

Lemma daemon_stop_completes_witness :
  ∃ steps w', schedule steps sample_world = Ret w' ∧ d_state (wd_daemon w') = stateStopped.
Proof.
  destruct (daemon_stop_completes sample_stop sample_world ltac:(vm_compute; reflexivity) ltac:(vm_compute; reflexivity))
    as (steps & w' & _ & _ & H1 & H2 & _).
  exists steps, w'. split; [exact H1|exact H2].
Defined.

Lemma tcp_calls_authenticated_witness :
  admits id (inr (ENew "no default")) (mkOptions "" (mkEndpoint "tcp" "127.0.0.1:7000") "secret") ["Bearer secret"] = Some true ∧
  admits id (inr (ENew "no default")) (mkOptions "" (mkEndpoint "tcp" "127.0.0.1:7000") "secret") ["Bearer other"] ≠ Some true.
Proof.
  split.
  - apply (proj1 (proj2 (tcp_calls_authenticated id (inr (ENew "no default"))
      (mkOptions "" (mkEndpoint "tcp" "127.0.0.1:7000") "secret") ["Bearer secret"] "dev" (mkEndpoint "tcp" "127.0.0.1:7000") "secret"
      ltac:(vm_compute; reflexivity))) eq_refl). exists "Bearer secret". split; reflexivity.
  - vm_compute. discriminate.
Defined.
