(* ===== verification/Language.v ===== *)
(** * The language service: overlays and the analysis cache

    [internal/language/service.go], [analysis_cache.go] and [diagnostics.go], and
    [publishDiagnosticsAsync] of [internal/lsp/lifecycle.go]: editor overlays with
    their versions, the snapshot a request resolves, one analysis per snapshot
    that concurrent requests share, and the diagnostics that are published after
    a last check.  The sections under [Service.mu] are atomic; a request is a
    thread.  Workspace documents change concurrently ([AWorkspace]); the
    generation of a retained document identifies its text, as [Workspace]
    shows. *)

From stdpp Require Import pretty.
From S2P Require Import Prelude Paths Errors.

(** [SnapshotID]: an overlay generation, or a workspace document. *)
Inductive SnapshotID :=
| SnapshotOverlay (generation : Z)
| SnapshotWorkspace (workspace : string) (generation : Z).

Global Instance SnapshotID_eq_dec : EqDecision SnapshotID.
Proof. solve_decision. Defined.

Record overlay := mkOverlay {
  ov_URI : string;
  ov_Path : string;
  ov_Version : Z;
  ov_Text : string;
  ov_generation : Z
}.

Record documentSnapshot := mkSnapshot {
  sn_id : SnapshotID;
  sn_uri : string;
  sn_path : string;
  sn_text : string;
  sn_version : option Z
}.

Section service.
(** The compiler's analyses, [source.URI.Path], the compiler, the text of a
    retained document and the quoting of [%q]. *)
Context {A : Type} (URI_Path : string → string + error) (analyze : string → string → option A * option error)
  (Content : string → Z → string) (Quote : string → string).

(** [analysisEntry]; [ae_ready] is whether its channel is closed. *)
Record analysisEntry := mkEntry {
  ae_ready : bool;
  ae_snapshot : documentSnapshot;
  ae_analysis : option A;
  ae_err : option error
}.

(** The service, its entries by pointer, and what the workspace manager finds
    for a path: the workspace and the generation of the document. *)
Record service := mkService {
  sv_overlays : gmap string overlay;
  sv_cache : gmap string nat;
  sv_generation : Z;
  sv_entries : list analysisEntry;
  sv_workspaces : gmap string (string * Z)
}.

Definition newService : service := mkService ∅ ∅ 0 [] ∅.

(** [fmt.Errorf("%w: %s", ErrDocumentNotOpen, uri)]. *)
Definition errDocumentNotOpen (uri : string) : error := wrap_sentinel LanguageErrDocumentNotOpen uri.

(** [fmt.Errorf("%w: got %d, current %d", ErrStaleDocumentVersion, version, current)]. *)
Definition errStaleDocumentVersion (version current : Z) : error :=
  wrap_sentinel LanguageErrStaleDocumentVersion ("got " +:+ pretty version +:+ ", current " +:+ pretty current).

Definition errRelativePath : error := wrap_sentinel WsErrInvalidRoot "document path must be absolute".

(** ** Overlays *)

Definition OpenDocument (ctxErr : option error) (uri : string) (version : Z) (text : string) (s : service) :
    option error * service :=
  match ctxErr with
  | Some err => (Some err, s)
  | None =>
      match URI_Path uri with
      | inr err => (Some (wrap_prefix "resolve document URI" err), s)
      | inl path =>
          let generation := u64 (sv_generation s + 1) in
          (None, mkService (<[uri:=mkOverlay uri path version text generation]> (sv_overlays s)) (delete uri (sv_cache s))
                   generation (sv_entries s) (sv_workspaces s))
      end
  end.

Definition ChangeDocument (ctxErr : option error) (uri : string) (version : Z) (changes : list string) (s : service) :
    option error * service :=
  match ctxErr with
  | Some err => (Some err, s)
  | None =>
      match last changes with
      | None => (Some (ESentinel LanguageErrNoTextChanges), s)
      | Some text =>
          match sv_overlays s !! uri with
          | None => (Some (errDocumentNotOpen uri), s)
          | Some document =>
              if (version <=? ov_Version document)%Z then (Some (errStaleDocumentVersion version (ov_Version document)), s)
              else
                let generation := u64 (sv_generation s + 1) in
                (None, mkService (<[uri:=mkOverlay (ov_URI document) (ov_Path document) version text generation]> (sv_overlays s))
                         (delete uri (sv_cache s)) generation (sv_entries s) (sv_workspaces s))
          end
      end
  end.

Definition CloseDocument (ctxErr : option error) (uri : string) (s : service) : option error * service :=
  match ctxErr with
  | Some err => (Some err, s)
  | None => (None, mkService (delete uri (sv_overlays s)) (delete uri (sv_cache s)) (sv_generation s) (sv_entries s) (sv_workspaces s))
  end.

(** ** Snapshots *)

(** [workspaces.LookupDocument] with a context that is not done. *)
Definition LookupDocument (path : string) (s : service) : option (string * Z) + error :=
  if IsAbs path then inl (sv_workspaces s !! path) else inr errRelativePath.

(** [resolveSnapshot] up to the lookup: the snapshot of an overlay, or the path
    to look up. *)
Definition resolve_overlay (ctxErr : option error) (uri : string) (s : service) : (documentSnapshot + string) + error :=
  match ctxErr with
  | Some err => inr err
  | None =>
      match URI_Path uri with
      | inr err => inr (wrap_prefix "resolve document URI" err)
      | inl path =>
          inl (match sv_overlays s !! uri with
               | Some o => inl (mkSnapshot (SnapshotOverlay (ov_generation o)) uri (ov_Path o) (ov_Text o) (Some (ov_Version o)))
               | None => inr path
               end)
      end
  end.

(** The rest of [resolveSnapshot]. *)
Definition resolve_workspace (ctxErr : option error) (uri path : string) (s : service) : documentSnapshot + error :=
  match (match ctxErr with Some err => inr err | None => LookupDocument path s end) with
  | inr err => inr (wrap_prefix "resolve workspace document" err)
  | inl None => inr (errDocumentNotOpen uri)
  | inl (Some (workspace, generation)) =>
      inl (mkSnapshot (SnapshotWorkspace workspace generation) uri path (Content workspace generation) None)
  end.

(** [resolveSnapshot] when nothing changes between its two reads. *)
Definition resolveSnapshot (ctxErr : option error) (uri : string) (s : service) : documentSnapshot + error :=
  match resolve_overlay ctxErr uri s with
  | inr err => inr err
  | inl (inl snapshot) => inl snapshot
  | inl (inr path) => resolve_workspace ctxErr uri path s
  end.

Definition snapshotCurrentLocked (snapshot : documentSnapshot) (s : service) : bool :=
  let found := sv_overlays s !! sn_uri snapshot in
  match sn_id snapshot with
  | SnapshotOverlay generation =>
      match found with Some o => bool_decide (ov_generation o = generation) | None => false end
  | SnapshotWorkspace workspace generation =>
      match found with
      | Some _ => false
      | None =>
          match LookupDocument (sn_path snapshot) s with
          | inl (Some found) => bool_decide (found = (workspace, generation))
          | _ => false
          end
      end
  end.

Definition IsCurrent (ctxDone : bool) (uri : string) (id : SnapshotID) (s : service) : bool :=
  if ctxDone then false
  else
    match id with
    | SnapshotOverlay _ => snapshotCurrentLocked (mkSnapshot id uri "" "" None) s
    | SnapshotWorkspace _ _ =>
        match URI_Path uri with
        | inr _ => false
        | inl path => snapshotCurrentLocked (mkSnapshot id uri path "" None) s
        end
    end.

(** ** The cache *)

Definition load (k : nat) (s : service) : outcome analysisEntry :=
  match sv_entries s !! k with Some e => Ret e | None => Panic "nil pointer dereference" end.

Definition set_entry (k : nat) (e : analysisEntry) (s : service) : service :=
  mkService (sv_overlays s) (sv_cache s) (sv_generation s) (<[k:=e]> (sv_entries s)) (sv_workspaces s).

(** The locked section of [analyzedDocument]: [None] when the snapshot is no
    longer current; otherwise the entry, and whether its analysis is to start. *)
Definition admit_snapshot (uri : string) (snapshot : documentSnapshot) (s : service) : outcome (option (nat * bool) * service) :=
  if negb (snapshotCurrentLocked snapshot s) then Ret (None, s)
  else
    let fresh := length (sv_entries s) in
    let s' := mkService (sv_overlays s) (<[uri:=fresh]> (sv_cache s)) (sv_generation s)
                (sv_entries s ++ [mkEntry false snapshot None None]) (sv_workspaces s) in
    match sv_cache s !! uri with
    | None => Ret (Some (fresh, true), s')
    | Some k =>
        e ← load k s;
        if bool_decide (sn_id (ae_snapshot e) ≠ sn_id snapshot) then Ret (Some (fresh, true), s') else Ret (Some (k, false), s)
    end.

(** [runAnalysis]: the analysis, then its locked section. *)
Definition store_analysis (k : nat) (s : service) : outcome service :=
  e ← load k s;
  let '(analysis, err) := analyze (sn_path (ae_snapshot e)) (sn_text (ae_snapshot e)) in
  Ret (set_entry k (mkEntry (ae_ready e) (ae_snapshot e) analysis err) s).

Definition finish_analysis (uri : string) (k : nat) (s : service) : outcome service :=
  e ← load k s;
  let s' := if bool_decide (sv_cache s !! uri = Some k) && negb (snapshotCurrentLocked (ae_snapshot e) s)
            then mkService (sv_overlays s) (delete uri (sv_cache s)) (sv_generation s) (sv_entries s) (sv_workspaces s)
            else s in
  if ae_ready e then Panic "close of closed channel"
  else Ret (set_entry k (mkEntry true (ae_snapshot e) (ae_analysis e) (ae_err e)) s').

(** What [analyzedDocument] returns for an entry that is ready. *)
Definition entry_result (uri : string) (e : analysisEntry) : (documentSnapshot * A) + error :=
  match ae_analysis e with
  | Some analysis => inl (ae_snapshot e, analysis)
  | None => inr (match ae_err e with Some err => err | None => ENew ("analyze " +:+ Quote uri +:+ ": no snapshot") end)
  end.

(** ** Requests *)

(** [publish] is whether the request is that of [publishDiagnosticsAsync]. *)
Inductive thread :=
| QResolve (publish : bool) (uri : string)
| QLookup (publish : bool) (uri path : string)
| QAdmit (publish : bool) (uri : string) (snapshot : documentSnapshot)
| QWait (publish : bool) (uri : string) (snapshot : documentSnapshot) (k : nat)
| QReturned (uri : string) (snapshot : documentSnapshot) (r : (documentSnapshot * A) + error)
| QFailed (err : error)
| QCheck (uri : string) (snapshot : documentSnapshot) (analysis : A)
| QSend (uri : string) (snapshot : documentSnapshot) (analysis : A)
| RAnalyze (uri : string) (k : nat)
| RFinish (uri : string) (k : nat)
| TDone.

(** [wd_sent] records the published diagnostics. *)
Record world := mkWorld {
  wd_service : service;
  wd_threads : list thread;
  wd_sent : list (string * documentSnapshot * A)
}.

Inductive answer := Proceed | Expired (err : error).

Inductive action :=
| AOpen (ctxErr : option error) (uri : string) (version : Z) (text : string)
| AChange (ctxErr : option error) (uri : string) (version : Z) (changes : list string)
| AClose (ctxErr : option error) (uri : string)
| AWorkspace (workspaces : gmap string (string * Z))
| ARequest (publish : bool) (uri : string)
| AStep (i : nat) (a : answer).

Definition goto (i : nat) (t : thread) (s : service) (w : world) : world := mkWorld s (<[i:=t]> (wd_threads w)) (wd_sent w).
Definition spawn (ts : list thread) (s : service) (w : world) : world := mkWorld s (wd_threads w ++ ts) (wd_sent w).

Definition ctx_of (a : answer) : option error := match a with Proceed => None | Expired err => Some err end.

(** [publishDiagnosticsAsync] after its report. *)
Definition step_publish (i : nat) (t : thread) (w : world) : outcome world :=
  let s := wd_service w in
  match t with
  | QCheck uri snapshot analysis =>
      Ret (goto i (if IsCurrent false uri (sn_id snapshot) s then QSend uri snapshot analysis else TDone) s w)
  | QSend uri snapshot analysis =>
      Ret (mkWorld s (<[i:=TDone]> (wd_threads w)) (wd_sent w ++ [(uri, snapshot, analysis)]))
  | _ => Block
  end.

(** [analyzedDocument] and [runAnalysis]. *)
Definition step_thread (i : nat) (t : thread) (a : answer) (w : world) : outcome world :=
  let s := wd_service w in
  match t with
  | QResolve publish uri =>
      Ret (goto i (match resolve_overlay (ctx_of a) uri s with
                   | inr err => QFailed err
                   | inl (inl snapshot) => QAdmit publish uri snapshot
                   | inl (inr path) => QLookup publish uri path
                   end) s w)
  | QLookup publish uri path =>
      Ret (goto i (match resolve_workspace (ctx_of a) uri path s with
                   | inr err => QFailed err
                   | inl snapshot => QAdmit publish uri snapshot
                   end) s w)
  | QAdmit publish uri snapshot =>
      '(admitted, s) ← admit_snapshot uri snapshot s;
      Ret (match admitted with
           | None => goto i (QResolve publish uri) s w
           | Some (k, true) => spawn [RAnalyze uri k] s (goto i (QWait publish uri snapshot k) s w)
           | Some (k, false) => goto i (QWait publish uri snapshot k) s w
           end)
  | QWait publish uri snapshot k =>
      match a with
      | Expired err => Ret (goto i (QFailed err) s w)
      | Proceed =>
          e ← load k s;
          if ae_ready e then
            Ret (goto i (match entry_result uri e with
                         | inl (found, analysis) =>
                             if publish then QCheck uri found analysis else QReturned uri snapshot (inl (found, analysis))
                         | inr err => QReturned uri snapshot (inr err)
                         end) s w)
          else Block
      end
  | QCheck _ _ _ | QSend _ _ _ => step_publish i t w
  | RAnalyze uri k => s ← store_analysis k s; Ret (goto i (RFinish uri k) s w)
  | RFinish uri k => s ← finish_analysis uri k s; Ret (goto i TDone s w)
  | _ => Block
  end.

Definition act (a : action) (w : world) : outcome world :=
  let s := wd_service w in
  match a with
  | AOpen ctxErr uri version text => Ret (mkWorld (OpenDocument ctxErr uri version text s).2 (wd_threads w) (wd_sent w))
  | AChange ctxErr uri version changes => Ret (mkWorld (ChangeDocument ctxErr uri version changes s).2 (wd_threads w) (wd_sent w))
  | AClose ctxErr uri => Ret (mkWorld (CloseDocument ctxErr uri s).2 (wd_threads w) (wd_sent w))
  | AWorkspace workspaces =>
      Ret (mkWorld (mkService (sv_overlays s) (sv_cache s) (sv_generation s) (sv_entries s) workspaces) (wd_threads w) (wd_sent w))
  | ARequest publish uri => Ret (spawn [QResolve publish uri] s w)
  | AStep i a => match wd_threads w !! i with Some t => step_thread i t a w | None => Block end
  end.

Definition attempt (a : action) (w : world) : outcome world :=
  match act a w with
  | Ret w => Ret w
  | Panic m => Panic m
  | Block => Ret w
  end.

Fixpoint schedule (actions : list action) (w : world) : outcome world :=
  match actions with
  | [] => Ret w
  | a :: actions => w ← attempt a w; schedule actions w
  end.

Definition initial : world := mkWorld newService [] [].

(** ** Invariant *)


Definition runs (k : nat) (t : thread) : bool :=
  match t with RAnalyze _ j | RFinish _ j => bool_decide (j = k) | _ => false end.

(** The snapshot of an overlay. *)
Definition overlay_snapshot (o : overlay) : documentSnapshot :=
  mkSnapshot (SnapshotOverlay (ov_generation o)) (ov_URI o) (ov_Path o) (ov_Text o) (Some (ov_Version o)).

(** A snapshot is determined by its identifier and its URI: [H] is the overlay
    that was given each generation. *)
Definition known (H : Z → overlay) (generation : Z) (sn : documentSnapshot) : Prop :=
  match sn_id sn with
  | SnapshotOverlay g => (1 ≤ g ≤ generation)%Z ∧ sn = overlay_snapshot (H g)
  | SnapshotWorkspace workspace g =>
      ∃ path, URI_Path (sn_uri sn) = inl path ∧
        sn = mkSnapshot (SnapshotWorkspace workspace g) (sn_uri sn) path (Content workspace g) None
  end.

(** The overlay a snapshot was taken from, or that there was none, is that of now. *)
Definition overlay_current (s : service) (sn : documentSnapshot) : Prop :=
  match sn_id sn with
  | SnapshotOverlay g => ∃ o, sv_overlays s !! sn_uri sn = Some o ∧ ov_generation o = g
  | SnapshotWorkspace _ _ => sv_overlays s !! sn_uri sn = None
  end.

Definition analyzed (sn : documentSnapshot) : option A * option error := analyze (sn_path sn) (sn_text sn).

(** What a request answers that analyzes the snapshot itself. *)
Definition direct (uri : string) (sn : documentSnapshot) : (documentSnapshot * A) + error :=
  entry_result uri (mkEntry true sn (analyzed sn).1 (analyzed sn).2).

Definition entry_ok (H : Z → overlay) (s : service) (ts : list thread) (k : nat) (e : analysisEntry) : Prop :=
  known H (sv_generation s) (ae_snapshot e) ∧ count (runs k) ts = (if ae_ready e then 0 else 1)%nat ∧
  (ae_ready e = true → (ae_analysis e, ae_err e) = analyzed (ae_snapshot e)).

Definition thread_ok (H : Z → overlay) (s : service) (t : thread) : Prop :=
  match t with
  | QLookup _ uri path => URI_Path uri = inl path
  | QAdmit _ uri sn => known H (sv_generation s) sn ∧ sn_uri sn = uri
  | QWait _ uri sn k => sn_uri sn = uri ∧ ∃ e, sv_entries s !! k = Some e ∧ ae_snapshot e = sn
  | QReturned uri sn r => sn_uri sn = uri ∧ known H (sv_generation s) sn ∧ r = direct uri sn
  | QCheck uri sn analysis | QSend uri sn analysis =>
      sn_uri sn = uri ∧ known H (sv_generation s) sn ∧ (analyzed sn).1 = Some analysis
  | RAnalyze uri k => ∃ e, sv_entries s !! k = Some e ∧ sn_uri (ae_snapshot e) = uri
  | RFinish uri k => ∃ e, sv_entries s !! k = Some e ∧ sn_uri (ae_snapshot e) = uri ∧
      (ae_analysis e, ae_err e) = analyzed (ae_snapshot e)
  | _ => True
  end.

Record inv (H : Z → overlay) (w : world) : Prop := {
  iv_generation : (0 ≤ sv_generation (wd_service w))%Z;
  iv_overlays : ∀ uri o, sv_overlays (wd_service w) !! uri = Some o →
    ov_URI o = uri ∧ URI_Path uri = inl (ov_Path o) ∧ H (ov_generation o) = o ∧ (1 ≤ ov_generation o ≤ sv_generation (wd_service w))%Z;
  iv_entries : ∀ k e, sv_entries (wd_service w) !! k = Some e → entry_ok H (wd_service w) (wd_threads w) k e;
  iv_none : ∀ k, sv_entries (wd_service w) !! k = None → count (runs k) (wd_threads w) = 0%nat;
  iv_cache : ∀ uri k, sv_cache (wd_service w) !! uri = Some k →
    ∃ e, sv_entries (wd_service w) !! k = Some e ∧ sn_uri (ae_snapshot e) = uri ∧ overlay_current (wd_service w) (ae_snapshot e);
  iv_threads : ∀ t, t ∈ wd_threads w → thread_ok H (wd_service w) t;
  iv_sent : ∀ uri sn analysis, (uri, sn, analysis) ∈ wd_sent w →
    sn_uri sn = uri ∧ known H (sv_generation (wd_service w)) sn ∧ (analyzed sn).1 = Some analysis
}.

Lemma known_unique H g sn sn' : known H g sn → known H g sn' → sn_id sn = sn_id sn' → sn_uri sn = sn_uri sn' → sn = sn'.
Proof.
  unfold known. intros K K' Hid Huri. rewrite <-Hid in K'. destruct (sn_id sn); [naive_solver congruence|].
  destruct K as (p & Hp & ->), K' as (p' & Hp' & ->). simpl in *. congruence.
Qed.

(** ** Edits *)

(** A later service: the entries of the same snapshots, what is analyzed stays, a
    later generation, and the overlays of the old generations. *)
Record extends (H H' : Z → overlay) (s s' : service) : Prop := {
  ex_generation : (sv_generation s ≤ sv_generation s')%Z;
  ex_overlays : ∀ g, (g ≤ sv_generation s)%Z → H' g = H g;
  ex_entries : ∀ k e, sv_entries s !! k = Some e → ∃ e', sv_entries s' !! k = Some e' ∧ ae_snapshot e' = ae_snapshot e ∧
    ((ae_analysis e, ae_err e) = analyzed (ae_snapshot e) → (ae_analysis e', ae_err e') = analyzed (ae_snapshot e'))
}.

Lemma known_extends H H' s s' sn : extends H H' s s' → known H (sv_generation s) sn → known H' (sv_generation s') sn.
Proof.
  intros [G O _] K. unfold known in *. destruct (sn_id sn); [|done]. destruct K as [? ->]. split; [lia|]. by rewrite O by lia.
Qed.

Lemma thread_extends H H' s s' t : extends H H' s s' → thread_ok H s t → thread_ok H' s' t.
Proof.
  intros X. pose proof (known_extends H H' s s') as K. pose proof (ex_entries _ _ _ _ X) as E.
  destruct t as [| | |p u sn k| | | | |u k|u k|]; simpl; try naive_solver.
  - intros (e & He & Hs). destruct (E _ _ He) as (e' & He' & Hs' & _). exists e'. split; congruence.
  - intros (e & He & Hs & Ha). destruct (E _ _ He) as (e' & He' & Hs' & Ha'). exists e'. split_and!; [done|congruence|auto].
Qed.

Lemma threads_extends H H' s s' (ts : list thread) : extends H H' s s' → (∀ t, t ∈ ts → thread_ok H s t) → ∀ t, t ∈ ts → thread_ok H' s' t.
Proof. intros X F t Ht. by eapply (thread_extends H H' s s'), F. Qed.

(** An edit of the overlay of [uri]: its cached analysis is dropped. *)
Lemma inv_edit H w uri (new : option overlay) generation : inv H w →
  (sv_generation (wd_service w) ≤ generation)%Z →
  (∀ o, new = Some o → ov_URI o = uri ∧ URI_Path uri = inl (ov_Path o) ∧ ov_generation o = generation ∧ (sv_generation (wd_service w) < generation)%Z) →
  let s := wd_service w in
  ∃ H', inv H' (mkWorld (mkService (partial_alter (λ _, new) uri (sv_overlays s)) (delete uri (sv_cache s)) generation
                 (sv_entries s) (sv_workspaces s)) (wd_threads w) (wd_sent w)).
Proof.
  intros [I1 I2 I3 I4 I5 I6 I7] Hg Hnew s.
  set (H' := match new with Some o => λ g, if bool_decide (g = generation) then o else H g | None => H end).
  set (s' := mkService _ _ _ _ _).
  assert (extends H H' s s') as X.
  { split; [done| |eauto]. intros g Hle. subst H'. destruct new as [o|]; [|done]. destruct (Hnew o eq_refl) as (_ & _ & _ & ?).
    by rewrite bool_decide_false by (unfold s in Hle; lia). }
  exists H'. split; simpl.
  - lia.
  - intros u o. destruct (decide (u = uri)) as [->|Hne].
    + rewrite lookup_partial_alter_eq. intros ->. destruct (Hnew o eq_refl) as (? & ? & Hgen & ?). split_and!; try done; [|lia..].
      subst H'. simpl. by rewrite bool_decide_true.
    + rewrite lookup_partial_alter_ne by done. intros Ho. destruct (I2 _ _ Ho) as (? & ? & ? & ?). split_and!; try done; [|lia..].
      by rewrite (ex_overlays _ _ _ _ X) by (subst s; lia).
  - intros k e E. destruct (I3 _ _ E) as (K & C & R). split_and!; try done. by eapply (known_extends H H' s s').
  - done.
  - intros u k Hk. apply lookup_delete_Some in Hk as [Hne Hk]. destruct (I5 _ _ Hk) as (e & E & Hu & Ho). exists e.
    split_and!; try done. unfold overlay_current in *. simpl. rewrite Hu in *. rewrite lookup_partial_alter_ne by done. done.
  - by apply (threads_extends H H' s s').
  - intros u sn a Ha. destruct (I7 _ _ _ Ha) as (? & ? & ?). split_and!; try done. by eapply (known_extends H H' s s').
Qed.

(** ** Steps *)

Lemma threads_insert (P : thread → Prop) (ts : list thread) i t' :
  (∀ t, t ∈ ts → P t) → P t' → ∀ t, t ∈ <[i:=t']> ts → P t.
Proof.
  intros F Hp t Ht. apply list_elem_of_lookup in Ht as (j & Hj). apply list_lookup_insert_Some in Hj as [(_ & -> & _)|[_ Hj]]; [done|].
  apply F. by eapply list_elem_of_lookup_2.
Qed.

Lemma runs_other (ts : list thread) i t t' k : ts !! i = Some t → runs k t' = runs k t → count (runs k) (<[i:=t']> ts) = count (runs k) ts.
Proof. intros Ht Hr. pose proof (count_insert (runs k) ts i t t' Ht) as C. rewrite Hr in C. lia. Qed.

(** A request moves: the service is as it was. *)
Lemma lang_goto H w i t t' sent : inv H w → wd_threads w !! i = Some t → (∀ k, runs k t' = runs k t) →
  thread_ok H (wd_service w) t' →
  (sent = [] ∨ ∃ uri sn analysis, t = QSend uri sn analysis ∧ sent = [(uri, sn, analysis)]) →
  inv H (mkWorld (wd_service w) (<[i:=t']> (wd_threads w)) (wd_sent w ++ sent)).
Proof.
  intros I Ht Hr Hok Hs. pose proof I as [I1 I2 I3 I4 I5 I6 I7]. split; simpl; try done.
  - intros k e E. destruct (I3 _ _ E) as (K & C & R). unfold entry_ok. by rewrite (runs_other _ _ _ _ _ Ht) by done.
  - intros k E. rewrite (runs_other _ _ _ _ _ Ht) by done. auto.
  - by apply threads_insert.
  - intros uri sn a [Hin|Hin]%elem_of_app; [by apply I7|].
    destruct Hs as [->|(u & sn' & a' & -> & ->)]; [by apply not_elem_of_nil in Hin|].
    apply list_elem_of_singleton in Hin. simplify_eq. apply (I6 (QSend u sn' a')). by eapply list_elem_of_lookup_2.
Qed.

Lemma lang_moves H w i t t' : inv H w → wd_threads w !! i = Some t → (∀ k, runs k t' = runs k t) →
  thread_ok H (wd_service w) t' → inv H (goto i t' (wd_service w) w).
Proof. intros. unfold goto. rewrite <-(app_nil_r (wd_sent w)). eapply lang_goto; eauto. Qed.

Lemma inv_request H w publish uri : inv H w → inv H (spawn [QResolve publish uri] (wd_service w) w).
Proof.
  intros [I1 I2 I3 I4 I5 I6 I7]. split; simpl; try done.
  - intros k e E. destruct (I3 _ _ E) as (K & C & R). unfold entry_ok. rewrite count_app. simpl. by rewrite Nat.add_0_r.
  - intros k E. rewrite count_app, I4 by done. done.
  - intros t [Ht| ->%list_elem_of_singleton]%elem_of_app; [auto|done].
Qed.

Lemma resolve_known H w uri : inv H w →
  match resolve_overlay None uri (wd_service w) with
  | inl (inl sn) => known H (sv_generation (wd_service w)) sn ∧ sn_uri sn = uri
  | inl (inr path) => URI_Path uri = inl path
  | inr _ => True
  end.
Proof.
  intros I. unfold resolve_overlay. destruct (URI_Path uri) as [path|]; [|done].
  destruct (sv_overlays (wd_service w) !! uri) as [o|] eqn:E; [|done]. destruct (iv_overlays _ _ I _ _ E) as (Hu & _ & Ho & Hg).
  split; [|done]. unfold known. simpl. split; [done|]. unfold overlay_snapshot. by rewrite Ho, Hu.
Qed.

Lemma current_overlay sn s : snapshotCurrentLocked sn s = true → overlay_current s sn.
Proof.
  unfold snapshotCurrentLocked, overlay_current. destruct (sn_id sn); destruct (sv_overlays s !! sn_uri sn); try done.
  intros E. bools. eauto.
Qed.

(** A snapshot that is current is admitted with its analysis in flight. *)
Lemma inv_analyze H w i publish uri sn : inv H w → wd_threads w !! i = Some (QAdmit publish uri sn) →
  snapshotCurrentLocked sn (wd_service w) = true →
  let s := wd_service w in let k := length (sv_entries s) in
  let s' := mkService (sv_overlays s) (<[uri:=k]> (sv_cache s)) (sv_generation s)
              (sv_entries s ++ [mkEntry false sn None None]) (sv_workspaces s) in
  inv H (spawn [RAnalyze uri k] s' (goto i (QWait publish uri sn k) s' w)).
Proof.
  intros I Ht Hc s k s'. pose proof I as [I1 I2 I3 I4 I5 I6 I7].
  destruct (I6 (QAdmit publish uri sn)) as [Hk Hu]; [by eapply list_elem_of_lookup_2|].
  assert (extends H H s s') as X.
  { split; [done|done|]. intros j e E. exists e. split_and!; [by apply lookup_app_l_Some|done|done]. }
  assert (sv_entries s' !! k = Some (mkEntry false sn None None)) as Ek by (by apply list_lookup_middle).
  assert (∀ j, count (runs j) (wd_threads (spawn [RAnalyze uri k] s' (goto i (QWait publish uri sn k) s' w))) =
    (count (runs j) (wd_threads w) + (if bool_decide (k = j) then 1 else 0))%nat) as Hcount.
  { intros j. simpl. rewrite count_app, (runs_other _ _ _ _ _ Ht) by done. simpl. by destruct (bool_decide (k = j)). }
  split; try done.
  - intros j e E. unfold entry_ok. rewrite Hcount. destruct (decide (k = j)) as [<-|Hne].
    + assert (e = mkEntry false sn None None) as -> by (by simpl in *; congruence). simpl. rewrite I4 by (by apply lookup_ge_None). by rewrite bool_decide_true.
    + rewrite bool_decide_false, Nat.add_0_r by done. apply (I3 j). revert E. simpl. intros [E|[Hle E]]%lookup_app_Some; [done|].
      apply list_lookup_singleton_Some in E as [? _]. subst k s. lia.
  - intros j E. rewrite Hcount. apply lookup_ge_None in E. simpl in E. rewrite length_app in E. simpl in E.
    rewrite I4 by (apply lookup_ge_None; subst s; lia). rewrite bool_decide_false; [done|]. subst k s. lia.
  - intros u j. simpl. intros [[<- <-]|[Hne Hj]]%lookup_insert_Some.
    + eexists. split_and!; [done|done|]. by apply current_overlay.
    + destruct (I5 _ _ Hj) as (e & E & ? & ?). exists e. split_and!; try done. by apply lookup_app_l_Some.
  - intros t [Ht'| ->%list_elem_of_singleton]%elem_of_app.
    + revert t Ht'. apply threads_insert; [by apply (threads_extends H H s s')|]. split; [done|]. by eexists.
    + by eexists.
Qed.

(** An analysis runs, or is finished: its entry changes. *)
Lemma inv_entry H w i t t' k e e' cache : inv H w → wd_threads w !! i = Some t → runs k t = true →
  (∀ j, runs j t' = negb (ae_ready e') && runs j t) →
  sv_entries (wd_service w) !! k = Some e → ae_snapshot e' = ae_snapshot e → ae_ready e = false →
  (ae_analysis e', ae_err e') = analyzed (ae_snapshot e) →
  (∀ uri j, cache !! uri = Some j → sv_cache (wd_service w) !! uri = Some j) →
  (∀ s, sv_entries s !! k = Some e' → sv_generation s = sv_generation (wd_service w) → thread_ok H s t') →
  let s := wd_service w in
  inv H (goto i t' (mkService (sv_overlays s) cache (sv_generation s) (<[k:=e']> (sv_entries s)) (sv_workspaces s)) w).
Proof.
  intros I Ht Hr Hr' E Hs Hready Ha Hcache Hok s. pose proof I as [I1 I2 I3 I4 I5 I6 I7]. unfold goto. set (s' := mkService _ _ _ _ _).
  pose proof (lookup_lt_Some _ _ _ E) as Hlt. assert (sv_entries s' !! k = Some e') as E' by (by apply list_lookup_insert_eq).
  assert (∀ j d, sv_entries s !! j = Some d → j ≠ k → sv_entries s' !! j = Some d) as Hother.
  { intros j d Hd Hne. simpl. by rewrite list_lookup_insert_ne. }
  assert (extends H H s s') as X.
  { split; [done|done|]. intros j d Hd. destruct (decide (j = k)) as [->|Hne]; [|eauto].
    exists e'. subst s. simplify_eq. split_and!; [done|done|]. intros _. by rewrite Hs. }
  assert (∀ j, j ≠ k → runs j t = false) as Hj by (intros j ?; destruct t; try done; apply bool_decide_eq_true in Hr as ->; by apply bool_decide_false).
  assert (∀ j, j ≠ k → count (runs j) (<[i:=t']> (wd_threads w)) = count (runs j) (wd_threads w)) as Hc.
  { intros j ?. apply (runs_other _ _ _ _ _ Ht). by rewrite Hr', Hj, andb_false_r. }
  destruct (I3 _ _ E) as (K & C & _). rewrite Hready in C.
  split; try done.
  - intros j d Hd. destruct (decide (j = k)) as [->|Hne].
    + assert (d = e') as -> by (simpl in *; congruence). unfold entry_ok. simpl. rewrite Hs. split_and!; [done| |done].
      pose proof (count_insert (runs k) _ i t t' Ht) as Hin. rewrite Hr', Hr, andb_true_r in Hin. destruct (ae_ready e'); simpl in *; lia.
    + unfold entry_ok. simpl. rewrite Hc by done. apply (I3 j). simpl in Hd. by rewrite list_lookup_insert_ne in Hd.
  - intros j Hn. simpl in *. rewrite Hc; [apply I4|]; [|congruence]. apply lookup_ge_None. apply lookup_ge_None in Hn.
    by rewrite length_insert in Hn.
  - intros u j Hu. destruct (I5 u j) as (d & Hd & ? & ?); [by apply Hcache|].
    destruct (decide (j = k)) as [->|Hne]; [exists e'|exists d; auto]. split_and!; [done|..]; rewrite Hs; subst s; by simplify_eq.
  - apply threads_insert; [by apply (threads_extends H H s s')|]. by apply Hok.
Qed.

(** A current snapshot is what the service resolves. *)
Lemma current_resolves H w sn : inv H w → known H (sv_generation (wd_service w)) sn →
  snapshotCurrentLocked sn (wd_service w) = true → resolveSnapshot None (sn_uri sn) (wd_service w) = inl sn.
Proof.
  intros I K Hc. unfold snapshotCurrentLocked in Hc. unfold resolveSnapshot, resolve_overlay, known in *.
  destruct (sn_id sn) as [g|ws g].
  - destruct K as [_ K]. destruct (sv_overlays (wd_service w) !! sn_uri sn) as [o|] eqn:E; [|done]. bools.
    destruct (iv_overlays _ _ I _ _ E) as (Hu & Hp & Ho & _). rewrite Hp. f_equal. rewrite K at 2. subst g. rewrite Ho. unfold overlay_snapshot. congruence.
  - destruct K as (path & Hp & K). rewrite Hp. destruct (sv_overlays (wd_service w) !! sn_uri sn); [done|].
    unfold resolve_workspace. rewrite K in Hc. simpl in Hc. destruct (LookupDocument path (wd_service w)) as [[[]|]|]; try done.
    bools. simplify_eq. by rewrite K at 2.
Qed.

(** An admitted request waits for an entry of its own snapshot. *)
Lemma admit_keeps H w i publish uri sn : inv H w → wd_threads w !! i = Some (QAdmit publish uri sn) →
  match step_thread i (QAdmit publish uri sn) Proceed w with
  | Ret w' => inv H w' ∧
      (wd_threads w' !! i = Some (QResolve publish uri) ∨
       ∃ k, wd_threads w' !! i = Some (QWait publish uri sn k) ∧ resolveSnapshot None uri (wd_service w) = inl sn)
  | _ => False
  end.
Proof.
  intros I Ht. pose proof (lookup_lt_Some _ _ _ Ht) as Hlt.
  destruct (iv_threads _ _ I (QAdmit publish uri sn)) as [Hk Hu]; [by eapply list_elem_of_lookup_2|].
  simpl. unfold admit_snapshot. destruct (snapshotCurrentLocked sn (wd_service w)) eqn:Hc; simpl.
  2: { split; [|left; by apply list_lookup_insert_eq]. by eapply lang_moves. }
  assert (resolveSnapshot None uri (wd_service w) = inl sn) as Hres by (rewrite <-Hu; by eapply current_resolves).
  pose proof (inv_analyze _ _ _ _ _ _ I Ht Hc) as Hfresh.
  assert (∀ k ts, (<[i:=QWait publish uri sn k]> (wd_threads w) ++ ts) !! i = Some (QWait publish uri sn k)) as Hat.
  { intros k ts. apply lookup_app_l_Some. by apply list_lookup_insert_eq. }
  destruct (sv_cache (wd_service w) !! uri) as [k|] eqn:Hcache; simpl; [|split; [done|right; eauto]].
  destruct (iv_cache _ _ I _ _ Hcache) as (e & E & Hu' & _). unfold load. rewrite E. simpl.
  destruct (bool_decide _) eqn:Hd; bools; simpl; [split; [done|right; eauto]|].
  assert (ae_snapshot e = sn) as Hs.
  { eapply known_unique; [by apply (iv_entries _ _ I k e)|done|by destruct (decide (sn_id (ae_snapshot e) = sn_id sn))|congruence]. }
  split; [|right; exists k; split; [by apply list_lookup_insert_eq|done]].
  eapply lang_moves; try done. simpl. eauto.
Qed.

Lemma runner_entry H w i k t e : inv H w → wd_threads w !! i = Some t → runs k t = true →
  sv_entries (wd_service w) !! k = Some e → ae_ready e = false.
Proof.
  intros I Ht Hr E. destruct (iv_entries _ _ I _ _ E) as (_ & C & _). pose proof (count_pos (runs k) _ _ _ Ht Hr).
  destruct (ae_ready e); [lia|done].
Qed.

Lemma store_keeps H w i uri k a : inv H w → wd_threads w !! i = Some (RAnalyze uri k) →
  match step_thread i (RAnalyze uri k) a w with Ret w' => inv H w' | _ => False end.
Proof.
  intros I Ht. destruct (iv_threads _ _ I (RAnalyze uri k)) as (e & E & Hu); [by eapply list_elem_of_lookup_2|].
  assert (runs k (RAnalyze uri k) = true) as Hr by (by apply bool_decide_true).
  pose proof (runner_entry _ _ _ _ _ _ I Ht Hr E) as Hready.
  simpl. unfold store_analysis, load. rewrite E. simpl. destruct (analyze _ _) as [analysis err] eqn:Ha. simpl. unfold set_entry.
  eapply (inv_entry _ _ _ _ _ _ _ _ _ I Ht Hr); try done.
  - intros j. simpl. by rewrite Hready.
  - intros s Hs _. by eexists.
Qed.

Lemma finish_keeps H w i uri k a : inv H w → wd_threads w !! i = Some (RFinish uri k) →
  match step_thread i (RFinish uri k) a w with
  | Ret w' => inv H w' ∧ ∃ e, sv_entries (wd_service w') !! k = Some e ∧ ae_ready e = true
  | _ => False
  end.
Proof.
  intros I Ht. destruct (iv_threads _ _ I (RFinish uri k)) as (e & E & Hu & Ha); [by eapply list_elem_of_lookup_2|].
  assert (runs k (RFinish uri k) = true) as Hr by (by apply bool_decide_true).
  pose proof (runner_entry _ _ _ _ _ _ I Ht Hr E) as Hready. pose proof (lookup_lt_Some _ _ _ E) as Hlt.
  simpl. unfold finish_analysis, load. rewrite E. simpl. rewrite Hready. unfold set_entry.
  set (cached := bool_decide _ && _).
  destruct cached; simpl; (split; [|eexists; split; [by apply list_lookup_insert_eq|done]]);
    eapply (inv_entry _ _ _ _ _ _ _ _ _ I Ht Hr); try done.
  by intros u j [_ ?]%lookup_delete_Some.
Qed.

(** A waiter answers as if it had analyzed its snapshot. *)
Lemma wait_answer H w publish uri sn k e : inv H w → thread_ok H (wd_service w) (QWait publish uri sn k) →
  sv_entries (wd_service w) !! k = Some e → ae_ready e = true →
  known H (sv_generation (wd_service w)) sn ∧ sn_uri sn = uri ∧ entry_result uri e = direct uri sn.
Proof.
  intros I (Hu & e' & E' & Hs) E Hr. assert (e' = e) as -> by congruence. subst sn. destruct (iv_entries _ _ I _ _ E) as (K & _ & R). split_and!; [done..|].
  specialize (R Hr). unfold direct, entry_result. rewrite <-R. done.
Qed.

Lemma direct_success uri sn found analysis : direct uri sn = inl (found, analysis) → found = sn ∧ (analyzed sn).1 = Some analysis.
Proof. unfold direct, entry_result. simpl. destruct (analyzed sn).1; naive_solver. Qed.

Lemma wait_keeps H w i publish uri sn k a : inv H w → wd_threads w !! i = Some (QWait publish uri sn k) →
  match step_thread i (QWait publish uri sn k) a w with Ret w' => inv H w' | Panic _ => False | Block => True end.
Proof.
  intros I Ht. assert (thread_ok H (wd_service w) (QWait publish uri sn k)) as Hok by (by eapply (iv_threads _ _ I), list_elem_of_lookup_2).
  destruct a; simpl; [|by eapply lang_moves]. pose proof Hok as (Hu & e & E & Hs). unfold load. rewrite E. simpl.
  destruct (ae_ready e) eqn:Hr; [|done]. destruct (wait_answer _ _ _ _ _ _ _ I Hok E Hr) as (K & _ & Hd). rewrite Hd.
  destruct (direct uri sn) as [[found analysis]|err] eqn:Hdir; [destruct publish|]; (eapply lang_moves; [done|done|done|]).
  - destruct (direct_success _ _ _ _ Hdir) as [-> ?]. by split_and!.
  - by split_and!.
  - by split_and!.
Qed.

Lemma lang_step_keeps H w i t a : inv H w → wd_threads w !! i = Some t →
  match step_thread i t a w with Ret w' => inv H w' | Panic _ => False | Block => True end.
Proof.
  intros I Ht. pose proof (iv_threads _ _ I t (list_elem_of_lookup_2 _ _ _ Ht)) as Hok.
  destruct t as [publish uri|publish uri path|publish uri sn|publish uri sn k| | |uri sn an|uri sn an|uri k|uri k|]; try exact Logic.I.
  - simpl. eapply lang_moves; [done|done| |].
    + intros k. by destruct (resolve_overlay _ _ _) as [[]|].
    + destruct a; [|done]. pose proof (resolve_known _ _ uri I) as K. revert K. cbn [ctx_of].
      destruct (resolve_overlay _ _ _) as [[]|]; simpl; naive_solver.
  - simpl. eapply lang_moves; [done|done| |].
    + intros k. by destruct (resolve_workspace _ _ _ _).
    + destruct a; [|done]. simpl in Hok |- *. unfold resolve_workspace. destruct (LookupDocument path _) as [[[ws g]|]|]; try done.
      split; [|done]. unfold known. simpl. eauto.
  - pose proof (admit_keeps _ _ _ _ _ _ I Ht) as K. change (step_thread i (QAdmit publish uri sn) a w) with (step_thread i (QAdmit publish uri sn) Proceed w).
    destruct (step_thread _ _ _ _); naive_solver.
  - by apply wait_keeps.
  - cbn [step_thread step_publish]. eapply lang_moves; [done|done| |]; destruct (IsCurrent _ _ _ _); done.
  - simpl. eapply lang_goto; [done|done|done|done|]. right. eauto.
  - pose proof (store_keeps _ _ _ _ _ a I Ht). by destruct (step_thread _ _ _ _).
  - pose proof (finish_keeps _ _ _ _ _ a I Ht). destruct (step_thread _ _ _ _); naive_solver.
Qed.

Lemma lang_step_generation i t a w w' : step_thread i t a w = Ret w' → sv_generation (wd_service w') = sv_generation (wd_service w).
Proof.
  destruct t; simpl; try done; intros E; try by simplify_eq.
  - unfold admit_snapshot, load, mbind, outcome_bind in E. repeat case_match; simplify_eq; done.
  - unfold load, mbind, outcome_bind in E. repeat case_match; simplify_eq; done.
  - unfold store_analysis, load, mbind, outcome_bind in E. repeat case_match; simplify_eq; done.
  - unfold finish_analysis, load, mbind, outcome_bind in E. repeat case_match; simplify_eq; done.
Qed.

(** Every action keeps the invariant while the generation does not wrap. *)
Lemma lang_act_keeps H w a : inv H w → (sv_generation (wd_service w) + 1 < 2 ^ 64)%Z →
  match act a w with
  | Ret w' => (∃ H', inv H' w') ∧ (sv_generation (wd_service w') ≤ sv_generation (wd_service w) + 1)%Z
  | Panic _ => False
  | Block => True
  end.
Proof.
  intros I Hb. pose proof (iv_generation _ _ I) as Hg.
  assert (u64 (sv_generation (wd_service w) + 1) = sv_generation (wd_service w) + 1)%Z as Hu by (apply u64_small; lia).
  destruct a as [ctxErr uri version text|ctxErr uri version changes|ctxErr uri|wss|publish uri|i a]; simpl.
  - unfold OpenDocument. destruct ctxErr; simpl; [destruct w; split; [eauto|lia]|].
    destruct (URI_Path uri) as [path|] eqn:Hp; simpl; [|destruct w; split; [eauto|lia]]. rewrite Hu. split; [|lia].
    apply (inv_edit H w uri (Some _)); [done|lia|]. intros o [= <-]. simpl. split_and!; [done..|lia].
  - unfold ChangeDocument. destruct ctxErr; simpl; [destruct w; split; [eauto|lia]|].
    destruct (last changes); simpl; [|destruct w; split; [eauto|lia]].
    destruct (sv_overlays (wd_service w) !! uri) as [o|] eqn:Ho; simpl; [|destruct w; split; [eauto|lia]].
    destruct (version <=? ov_Version o)%Z; simpl; [destruct w; split; [eauto|lia]|]. rewrite Hu. split; [|lia].
    destruct (iv_overlays _ _ I _ _ Ho) as (? & ? & _).
    apply (inv_edit H w uri (Some _)); [done|lia|]. intros o' [= <-]. simpl. split_and!; [done..|lia].
  - unfold CloseDocument. destruct ctxErr; simpl; [destruct w; split; [eauto|lia]|]. split; [|lia].
    apply (inv_edit H w uri None); [done|lia|done].
  - split; [|lia]. exists H. by destruct I.
  - split; [|lia]. exists H. by apply inv_request.
  - destruct (wd_threads w !! i) as [t|] eqn:Ht; [|done]. pose proof (lang_step_keeps _ _ _ _ a I Ht) as K.
    pose proof (lang_step_generation i t a w) as G. destruct (step_thread i t a w) as [w'| |]; try done. split; [eauto|]. specialize (G _ eq_refl). lia.
Qed.

Lemma lang_schedule_inv actions H w : inv H w → (sv_generation (wd_service w) + Z.of_nat (length actions) < 2 ^ 64)%Z →
  ∃ w' H', schedule actions w = Ret w' ∧ inv H' w'.
Proof.
  revert H w. induction actions as [|a actions IH]; intros H w I Hb; simpl in *; [eauto|].
  pose proof (lang_act_keeps _ _ a I) as K. specialize (K ltac:(lia)). unfold attempt.
  destruct (act a w) as [w'| |]; simpl; [|done|].
  - destruct K as [[H' I'] G]. apply (IH H'); [done|lia].
  - apply (IH H); [done|lia].
Qed.

Lemma lang_inv_initial : inv (λ _, mkOverlay "" "" 0 "" 0) initial.
Proof. by split; simpl; try done; intros *; rewrite ?lookup_empty, ?elem_of_nil. Qed.

(** The thread of a request whose analysis is ready. *)
Definition answered (publish : bool) (uri : string) (sn : documentSnapshot) : thread :=
  match direct uri sn with
  | inl (found, analysis) => if publish then QCheck uri found analysis else QReturned uri sn (inl (found, analysis))
  | inr err => QReturned uri sn (inr err)
  end.

Lemma ready_answers H w i publish uri sn k e : inv H w → wd_threads w !! i = Some (QWait publish uri sn k) →
  sv_entries (wd_service w) !! k = Some e → ae_ready e = true →
  ∃ w', schedule [AStep i Proceed] w = Ret w' ∧ wd_threads w' !! i = Some (answered publish uri sn).
Proof.
  intros I Ht E Hr. pose proof (lookup_lt_Some _ _ _ Ht) as Hlt.
  destruct (wait_answer H w publish uri sn k e I) as (_ & _ & Hd); [by eapply (iv_threads _ _ I), list_elem_of_lookup_2|done|done|].
  simpl. unfold attempt. simpl. rewrite Ht. simpl. unfold load. rewrite E. simpl. rewrite Hr, Hd.
  eexists. split; [done|]. by apply list_lookup_insert_eq.
Qed.

Lemma finish_answers H w i j publish uri u sn k : inv H w → wd_threads w !! i = Some (QWait publish uri sn k) →
  wd_threads w !! j = Some (RFinish u k) →
  ∃ w', schedule [AStep j Proceed; AStep i Proceed] w = Ret w' ∧ wd_threads w' !! i = Some (answered publish uri sn).
Proof.
  intros I Ht Hj. pose proof (finish_keeps _ _ _ _ _ Proceed I Hj) as K.
  assert (∀ w', step_thread j (RFinish u k) Proceed w = Ret w' → wd_threads w' !! i = Some (QWait publish uri sn k)) as F.
  { intros w'. simpl. destruct (finish_analysis _ _ _); simpl; [|done..]. intros [= <-]. simpl.
    rewrite list_lookup_insert_ne; [done|]. intros ->. congruence. }
  change (schedule [AStep j Proceed; AStep i Proceed] w) with (w ← attempt (AStep j Proceed) w; schedule [AStep i Proceed] w).
  unfold attempt. cbn [act]. rewrite Hj. destruct (step_thread j _ _ w) as [w'| |]; [|done..].
  destruct K as [I' (e & E & Hr)]. apply (ready_answers _ _ _ _ _ _ _ _ I' (F _ eq_refl) E Hr).
Qed.

Lemma store_answers H w i j publish uri u sn k : inv H w → wd_threads w !! i = Some (QWait publish uri sn k) →
  wd_threads w !! j = Some (RAnalyze u k) →
  ∃ w', schedule [AStep j Proceed; AStep j Proceed; AStep i Proceed] w = Ret w' ∧ wd_threads w' !! i = Some (answered publish uri sn).
Proof.
  intros I Ht Hj. pose proof (store_keeps _ _ _ _ _ Proceed I Hj) as K. pose proof (lookup_lt_Some _ _ _ Hj) as Hlt.
  assert (∀ w', step_thread j (RAnalyze u k) Proceed w = Ret w' →
    wd_threads w' !! i = Some (QWait publish uri sn k) ∧ wd_threads w' !! j = Some (RFinish u k)) as F.
  { intros w'. simpl. destruct (store_analysis _ _); simpl; [|done..]. intros [= <-]. simpl.
    rewrite list_lookup_insert_eq by done. rewrite list_lookup_insert_ne; [done|]. intros ->. congruence. }
  change (schedule [AStep j Proceed; AStep j Proceed; AStep i Proceed] w) with
    (w ← attempt (AStep j Proceed) w; schedule [AStep j Proceed; AStep i Proceed] w).
  unfold attempt. cbn [act]. rewrite Hj. destruct (step_thread j _ _ w) as [w'| |]; [|done..].
  destruct (F _ eq_refl) as [Hi' Hj']. apply (finish_answers _ _ _ _ _ _ _ _ _ K Hi' Hj').
Qed.

Lemma wait_answers H w i publish uri sn k : inv H w → wd_threads w !! i = Some (QWait publish uri sn k) →
  ∃ actions w', (length actions ≤ 3)%nat ∧ schedule actions w = Ret w' ∧ wd_threads w' !! i = Some (answered publish uri sn).
Proof.
  intros I Ht. destruct (iv_threads _ _ I (QWait publish uri sn k)) as (_ & e & E & _); [by eapply list_elem_of_lookup_2|].
  destruct (ae_ready e) eqn:Hr.
  - destruct (ready_answers _ _ _ _ _ _ _ _ I Ht E Hr) as (w' & ? & ?). exists [AStep i Proceed], w'. split_and!; [simpl; lia|done..].
  - destruct (iv_entries _ _ I _ _ E) as (_ & C & _). rewrite Hr in C.
    destruct (count_witness (runs k) (wd_threads w)) as (j & t & Hj & Hrun); [lia|].
    destruct t as [| | | | | | | |u k'|u k'|]; try done; apply bool_decide_eq_true in Hrun as ->.
    + destruct (store_answers _ _ _ _ _ _ _ _ _ I Ht Hj) as (w' & ? & ?). eexists _, w'. split_and!; [|done..]. simpl. lia.
    + destruct (finish_answers _ _ _ _ _ _ _ _ _ I Ht Hj) as (w' & ? & ?). eexists _, w'. split_and!; [|done..]. simpl. lia.
Qed.

(** ** Claims *)

(** C21. Whatever edits, requests and workspace changes interleave (fewer than
    2^64 of them), the service does not panic; every answer, a failure included, is
    the one a direct analysis of the request's snapshot gives, although analyses
    are shared; so are the diagnostics that are published; and a request is
    admitted only with the snapshot the service resolves at that moment, or it
    resolves again. *)
Theorem analysis_results_faithful actions : (Z.of_nat (length actions) < 2 ^ 64)%Z →
  ∃ w, schedule actions initial = Ret w ∧
    (∀ uri sn r, QReturned uri sn r ∈ wd_threads w → sn_uri sn = uri ∧ r = direct uri sn) ∧
    (∀ uri sn analysis, (uri, sn, analysis) ∈ wd_sent w → sn_uri sn = uri ∧ (analyze (sn_path sn) (sn_text sn)).1 = Some analysis) ∧
    (∀ i publish uri sn, wd_threads w !! i = Some (QAdmit publish uri sn) →
      ∃ w', act (AStep i Proceed) w = Ret w' ∧
        (wd_threads w' !! i = Some (QResolve publish uri) ∨
         ∃ k, wd_threads w' !! i = Some (QWait publish uri sn k) ∧ resolveSnapshot None uri (wd_service w) = inl sn)).
Proof.
  intros Hb. destruct (lang_schedule_inv actions _ _ lang_inv_initial) as (w & H & E & I); [simpl; lia|].
  exists w. split_and!; [done| | |].
  - intros uri sn r Ht. by destruct (iv_threads _ _ I _ Ht) as (? & _ & ?).
  - intros uri sn analysis Ha. by destruct (iv_sent _ _ I _ _ _ Ha) as (? & _ & ?).
  - intros i publish uri sn Ht. pose proof (admit_keeps _ _ _ _ _ _ I Ht) as K. cbn [act]. rewrite Ht.
    destruct (step_thread _ _ _ _) as [w'| |]; [|done..]. exists w'. split; [done|]. by destruct K as [_ K].
Qed.

(** C22. Single flight: an analysis that is not ready has exactly one goroutine that
    computes it and a ready one has none; a cached analysis is never one of an
    overlay that was replaced, closed or opened since; and a waiting request is
    answered after at most three steps, with the direct analysis of its
    snapshot. *)
Theorem analysis_waits_end actions : (Z.of_nat (length actions) < 2 ^ 64)%Z →
  ∃ w, schedule actions initial = Ret w ∧
    (∀ k e, sv_entries (wd_service w) !! k = Some e → count (runs k) (wd_threads w) = if ae_ready e then 0%nat else 1%nat) ∧
    (∀ uri k, sv_cache (wd_service w) !! uri = Some k →
      ∃ e, sv_entries (wd_service w) !! k = Some e ∧ sn_uri (ae_snapshot e) = uri ∧ overlay_current (wd_service w) (ae_snapshot e)) ∧
    (∀ i publish uri sn k, wd_threads w !! i = Some (QWait publish uri sn k) →
      ∃ more w', (length more ≤ 3)%nat ∧ schedule more w = Ret w' ∧ wd_threads w' !! i = Some (answered publish uri sn)).
Proof.
  intros Hb. destruct (lang_schedule_inv actions _ _ lang_inv_initial) as (w & H & E & I); [simpl; lia|].
  exists w. split_and!; [done| | |].
  - intros k e Ek. by destruct (iv_entries _ _ I _ _ Ek) as (_ & ? & _).
  - apply (iv_cache _ _ I).
  - intros i publish uri sn k Ht. by eapply wait_answers.
Qed.

End service.

(** ** A service at work *)

(** A compiler whose analysis is the text, and that fails on none. *)
Definition echo (path text : string) : option string * option error :=
  if bool_decide (text = "") then (None, Some (ENew "empty")) else (Some text, None).

Definition plain_path (uri : string) : string + error := inl ("/" +:+ uri).

Definition stored (workspace : string) (generation : Z) : string := "RETURN 1".

(** Two requests share the analysis of one version, a change follows, and the
    diagnostics of the second version are published. *)
Definition session : list action :=
  [AOpen None "q.fql" 1 "RETURN 1"; ARequest false "q.fql"; ARequest false "q.fql"; ARequest true "q.fql";
   AStep 0 Proceed; AStep 0 Proceed; AStep 1 Proceed; AStep 1 Proceed; AStep 3 Proceed; AStep 3 Proceed;
   AStep 2 Proceed; AChange None "q.fql" 2 ["RETURN 2"]; AStep 0 Proceed; AStep 2 Proceed; AStep 2 Proceed; AStep 2 Proceed].

(** The schedule applies: the first two requests answer with the analysis of the
    version they were admitted with. *)
Lemma analysis_results_faithful_witness :
  ∃ w, schedule plain_path echo stored id session initial = Ret w ∧
    wd_threads w !! 0%nat = Some (QReturned "q.fql" (mkSnapshot (SnapshotOverlay 1) "q.fql" "/q.fql" "RETURN 1" (Some 1%Z))
      (inl (mkSnapshot (SnapshotOverlay 1) "q.fql" "/q.fql" "RETURN 1" (Some 1%Z), "RETURN 1"))) ∧
    (∀ uri sn r, QReturned uri sn r ∈ wd_threads w → sn_uri sn = uri ∧ r = direct echo id uri sn).
Proof.
  destruct (analysis_results_faithful plain_path echo stored id session) as (w & E & R & _); [vm_compute; done|].
  exists w. split; [exact E|]. split; [|exact R].
  assert (match schedule plain_path echo stored id session initial with Ret w => wd_threads w !! 0%nat | _ => None end =
    Some (QReturned "q.fql" (mkSnapshot (SnapshotOverlay 1) "q.fql" "/q.fql" "RETURN 1" (Some 1%Z))
      (inl (mkSnapshot (SnapshotOverlay 1) "q.fql" "/q.fql" "RETURN 1" (Some 1%Z), "RETURN 1")))) as X by (vm_compute; reflexivity).
  rewrite E in X. exact X.
Defined.

Lemma analysis_waits_end_witness :
  ∃ w, schedule plain_path echo stored id (take 8 session) initial = Ret w ∧
    ∃ sn, wd_threads w !! 1%nat = Some (QWait false "q.fql" sn 0%nat) ∧
    ∃ more w', (length more ≤ 3)%nat ∧ schedule plain_path echo stored id more w = Ret w' ∧
      wd_threads w' !! 1%nat = Some (answered echo id false "q.fql" sn).
Proof.
  destruct (analysis_waits_end plain_path echo stored id (take 8 session)) as (w & E & _ & _ & W); [vm_compute; done|].
  exists w. split; [exact E|]. set (sn := mkSnapshot (SnapshotOverlay 1) "q.fql" "/q.fql" "RETURN 1" (Some 1%Z)).
  assert (match schedule plain_path echo stored id (take 8 session) initial with Ret w => wd_threads w !! 1%nat | _ => None end =
    Some (QWait false "q.fql" sn 0%nat)) as X by (vm_compute; reflexivity).
  rewrite E in X. exists sn. split; [exact X|]. exact (W _ _ _ _ _ X).
Defined.

(** Diagnostics are checked to be current and then sent: a report that passed the
    check is sent after the report of a later version. *)
Definition overtaken : list action :=
  [AOpen None "q.fql" 1 "RETURN 1"; ARequest true "q.fql"; AStep 0 Proceed; AStep 0 Proceed; AStep 1 Proceed; AStep 1 Proceed;
   AStep 0 Proceed; AStep 0 Proceed; AChange None "q.fql" 2 ["RETURN 2"]; ARequest true "q.fql"; AStep 2 Proceed; AStep 2 Proceed;
   AStep 3 Proceed; AStep 3 Proceed; AStep 2 Proceed; AStep 2 Proceed; AStep 2 Proceed; AStep 0 Proceed].

Example diagnostics_overtaken :
  match schedule plain_path echo stored id overtaken initial with
  | Ret w => map (λ x, sn_version x.1.2) (wd_sent w)
  | _ => []
  end = [Some 2%Z; Some 1%Z].
Proof. vm_compute. reflexivity. Qed.
