(* ===== verification/LspRpc.v ===== *)
(** * The language server's request loop

    [internal/lsp/rpc_handler.go], [rpc_protocol.go] and [runStream] of
    [transport.go]: messages are dispatched concurrently behind a chain of
    lifecycle barriers, requests can be cancelled by id, and the end of the
    connection waits for every dispatch.  A message is a dispatch, numbered in the
    order of arrival, with a program counter; the reader of the connection and
    [runStream] have program counters of their own.  What [protocol.Handler]
    answers, and the decoding of the parameters of [$/cancelRequest], are the
    environment's. *)

From S2P Require Import Prelude Errors.

(** [jsonrpc2.ID]. *)
Definition ID : Type := string + Z.

Record request := mkRequest {
  rq_Method : string;
  rq_ID : ID;
  rq_Notif : bool;
  rq_Params : option string
}.

Definition MethodCancelRequest : string := "$/cancelRequest".
Definition MethodExit : string := "exit".

Definition isLifecycleMethod (method : string) : bool :=
  bool_decide (method ∈ ["initialize"; "initialized"; "shutdown"; MethodExit;
    "textDocument/didOpen"; "textDocument/didChange"; "textDocument/didClose"]).

(** What [protocol.Handler.Handle] returns. *)
Record answer := mkAnswer {
  an_result : string;
  an_validMethod : bool;
  an_validParams : bool;
  an_err : option error
}.

Inductive reply :=
| RResult (result : string)
| RError (code : Z) (message : string).

Definition requestCancelledError : reply := RError (-32800) "request cancelled".
Definition CodeMethodNotFound : Z := -32601.
Definition CodeInvalidParams : Z := -32602.
Definition CodeInternalError : Z := -32603.

(** The reply to a request whose handler returned [h] while the error of its
    context is [ctxErr]. *)
Definition classify (ctxErr : option error) (h : answer) : reply :=
  if is_err ctxErr ContextCanceled || is_err (an_err h) ContextCanceled then requestCancelledError
  else if negb (an_validMethod h) then RError CodeMethodNotFound "method not found"
  else if negb (an_validParams h) then RError CodeInvalidParams "invalid params"
  else match an_err h with
       | Some err => RError CodeInternalError (error_text err)
       | None => RResult (an_result h)
       end.

Inductive pc :=
| DSelect
| DHandle
| DCheck (h : answer)
| DReply (r : reply)
| DRemove
| DCancel
| DClose
| DFinish
| DDone.

(** A call of [dispatch]; [dp_ctx] is [None] for the context of the connection,
    [dp_done] is [lifecycleDone]. *)
Record dispatch := mkDispatch {
  dp_request : request;
  dp_ctx : option nat;
  dp_barrier : nat;
  dp_done : option nat;
  dp_pc : pc
}.

Definition at_pc (p : pc) (d : dispatch) : dispatch := mkDispatch (dp_request d) (dp_ctx d) (dp_barrier d) (dp_done d) p.

(** [Handle] between its locked sections, and [cancel] after its own. *)
Inductive reader :=
| RIdle
| RCancel (c : nat)
| REnqueue (rq : request) (c : option nat).

(** [runStream]; [MBlocked] has called [Wait] and was registered as a waiter. *)
Inductive main :=
| MSelect
| MCancel (close : bool)
| MCancelAll (close : bool)
| MClose
| MWait
| MBlocked
| MReturned.

Global Instance main_eq_dec : EqDecision main.
Proof. solve_decision. Defined.

(** The context of a request; its id and the number of its message are kept for
    the statements. *)
Record rcontext := mkContext {
  cx_id : ID;
  cx_owner : nat;
  cx_err : option error
}.

(** A message arrives, the handler of a message starts and ends, a message is
    dropped because its context is done. *)
Inductive event :=
| Received (rq : request)
| Started (i : nat)
| Ended (i : nat) (h : option answer)
| Skipped (i : nat).

(** The channels by number, the contexts of the requests, the error of the
    context of the connection, [inFlight], [tail], the wait group, and what happened. *)
Record world := mkWorld {
  w_channels : list bool;
  w_contexts : list rcontext;
  w_ctx : option error;
  w_inFlight : gmap ID nat;
  w_tail : nat;
  w_wait : Z;
  w_woken : bool;
  w_stored : gmap nat (option nat);
  w_reader : reader;
  w_main : main;
  w_outer : bool;
  w_disconnected : bool;
  w_dispatches : list dispatch;
  w_log : list event;
  w_replies : list (nat * reply)
}.

(** [newRPCHandler] and the start of [runStream]. *)
Definition newRPCHandler : world :=
  mkWorld [true] [] None ∅ 0 0 false ∅ RIdle MSelect false false [] [] [].

(** ** Updates *)

Definition set_contexts contexts ctx w := mkWorld (w_channels w) contexts ctx (w_inFlight w) (w_tail w) (w_wait w) (w_woken w)
  (w_stored w) (w_reader w) (w_main w) (w_outer w) (w_disconnected w) (w_dispatches w) (w_log w) (w_replies w).
Definition set_inFlight inFlight w := mkWorld (w_channels w) (w_contexts w) (w_ctx w) inFlight (w_tail w) (w_wait w) (w_woken w)
  (w_stored w) (w_reader w) (w_main w) (w_outer w) (w_disconnected w) (w_dispatches w) (w_log w) (w_replies w).
Definition set_channels channels tail w := mkWorld channels (w_contexts w) (w_ctx w) (w_inFlight w) tail (w_wait w) (w_woken w)
  (w_stored w) (w_reader w) (w_main w) (w_outer w) (w_disconnected w) (w_dispatches w) (w_log w) (w_replies w).
Definition set_wait wait woken w := mkWorld (w_channels w) (w_contexts w) (w_ctx w) (w_inFlight w) (w_tail w) wait woken
  (w_stored w) (w_reader w) (w_main w) (w_outer w) (w_disconnected w) (w_dispatches w) (w_log w) (w_replies w).
Definition set_stored stored w := mkWorld (w_channels w) (w_contexts w) (w_ctx w) (w_inFlight w) (w_tail w) (w_wait w) (w_woken w)
  stored (w_reader w) (w_main w) (w_outer w) (w_disconnected w) (w_dispatches w) (w_log w) (w_replies w).
Definition set_reader reader w := mkWorld (w_channels w) (w_contexts w) (w_ctx w) (w_inFlight w) (w_tail w) (w_wait w) (w_woken w)
  (w_stored w) reader (w_main w) (w_outer w) (w_disconnected w) (w_dispatches w) (w_log w) (w_replies w).
Definition set_main main outer disconnected w := mkWorld (w_channels w) (w_contexts w) (w_ctx w) (w_inFlight w) (w_tail w) (w_wait w)
  (w_woken w) (w_stored w) (w_reader w) main outer disconnected (w_dispatches w) (w_log w) (w_replies w).
Definition set_dispatches dispatches w := mkWorld (w_channels w) (w_contexts w) (w_ctx w) (w_inFlight w) (w_tail w) (w_wait w)
  (w_woken w) (w_stored w) (w_reader w) (w_main w) (w_outer w) (w_disconnected w) dispatches (w_log w) (w_replies w).
Definition log (es : list event) w := mkWorld (w_channels w) (w_contexts w) (w_ctx w) (w_inFlight w) (w_tail w) (w_wait w)
  (w_woken w) (w_stored w) (w_reader w) (w_main w) (w_outer w) (w_disconnected w) (w_dispatches w) (w_log w ++ es) (w_replies w).
Definition send (rs : list (nat * reply)) w := mkWorld (w_channels w) (w_contexts w) (w_ctx w) (w_inFlight w) (w_tail w) (w_wait w)
  (w_woken w) (w_stored w) (w_reader w) (w_main w) (w_outer w) (w_disconnected w) (w_dispatches w) (w_log w) (w_replies w ++ rs).

Definition goto (i : nat) (d : dispatch) (p : pc) (w : world) : world := set_dispatches (<[i:=at_pc p d]> (w_dispatches w)) w.

(** ** Contexts *)

(** A context keeps the first error it is given. *)
Definition first_error (err : error) (ctx : option error) : option error := match ctx with Some e => Some e | None => Some err end.

(** The cancellation of one request, and of the connection with its requests. *)
Definition cancel_with (err : error) (x : rcontext) : rcontext := mkContext (cx_id x) (cx_owner x) (first_error err (cx_err x)).

Definition cancel_one (c : nat) (w : world) : world :=
  set_contexts (alter (cancel_with (ESentinel ContextCanceled)) c (w_contexts w)) (w_ctx w) w.

Definition cancel_connection (err : error) (w : world) : world :=
  set_contexts (cancel_with err <$> w_contexts w) (first_error err (w_ctx w)) w.

(** [ctx.Err()] of a dispatch. *)
Definition ctx_err (c : option nat) (w : world) : option error :=
  match c with None => w_ctx w | Some c => match w_contexts w !! c with Some x => cx_err x | None => None end end.

(** ** The wait group *)

Definition wait_add (w : world) : world := set_wait (w_wait w + 1) (w_woken w) w.

(** The last [Done] releases a registered waiter. *)
Definition wait_done (w : world) : outcome world :=
  if (w_wait w <=? 0)%Z then Panic "sync: negative WaitGroup counter"
  else Ret (set_wait (w_wait w - 1) (w_woken w || (bool_decide (w_wait w = 1%Z) && bool_decide (w_main w = MBlocked))) w).

Section handler.
(** The id that the parameters of [$/cancelRequest] decode to. *)
Context (cancelID : string → option ID).

(** ** [Handle] *)

Definition cancel_request (rq : request) (w : world) : world :=
  match rq_Params rq with
  | None => w
  | Some params =>
      match cancelID params with
      | None => w
      | Some id => match w_inFlight w !! id with Some c => set_reader (RCancel c) w | None => w end
      end
  end.

Definition receive (rq : request) (w : world) : world :=
  if bool_decide (rq_Method rq = MethodCancelRequest) then cancel_request rq w
  else if rq_Notif rq then set_reader (REnqueue rq None) w
  else
    let c := length (w_contexts w) in
    set_reader (REnqueue rq (Some c)) (set_inFlight (<[rq_ID rq:=c]> (w_inFlight w)) (set_contexts (w_contexts w ++ [mkContext (rq_ID rq) (length (w_dispatches w)) (w_ctx w)]) (w_ctx w) w)).

Definition enqueue (rq : request) (c : option nat) (w : world) : world :=
  let barrier := w_tail w in
  let fresh := length (w_channels w) in
  let '(lifecycleDone, w) :=
    if isLifecycleMethod (rq_Method rq) then (Some fresh, set_channels (w_channels w ++ [false]) fresh w) else (None, w) in
  let w := wait_add w in
  set_reader RIdle (set_dispatches (w_dispatches w ++ [mkDispatch rq c barrier lifecycleDone DSelect]) w).

(** ** [dispatch] *)

Inductive choice := Cancelled | Ready | Returns (h : answer).

(** [operationContext]: the context the handler of dispatch [i] runs with. *)
Definition operationContext (i : nat) (w : world) : option error :=
  match w_stored w !! i with Some c => ctx_err c w | None => None end.

Definition step_dispatch (i : nat) (d : dispatch) (choice : choice) (w : world) : outcome world :=
  let rq := dp_request d in
  match dp_pc d with
  | DSelect =>
      match choice with
      | Cancelled =>
          match ctx_err (dp_ctx d) w with
          | Some _ => Ret (goto i d (DReply requestCancelledError) (log [Skipped i] w))
          | None => Block
          end
      | _ =>
          match w_channels w !! dp_barrier d with
          | Some true =>
              if bool_decide (rq_Method rq = MethodExit) then
                Ret (goto i d DRemove (set_main (w_main w) (w_outer w) true (log [Started i; Ended i None] w)))
              else Ret (goto i d DHandle (set_stored (<[i:=dp_ctx d]> (w_stored w)) (log [Started i] w)))
          | _ => Block
          end
      end
  | DHandle =>
      match choice with
      | Returns h => Ret (goto i d (DCheck h) (set_stored (delete i (w_stored w)) (log [Ended i (Some h)] w)))
      | _ => Block
      end
  | DCheck h =>
      Ret (goto i d (if rq_Notif rq then DRemove else DReply (classify (ctx_err (dp_ctx d) w) h)) w)
  | DReply r => Ret (goto i d DRemove (if rq_Notif rq then w else send [(i, r)] w))
  | DRemove =>
      Ret (goto i d DCancel (match dp_ctx d with Some _ => set_inFlight (delete (rq_ID rq) (w_inFlight w)) w | None => w end))
  | DCancel => Ret (goto i d DClose (match dp_ctx d with Some c => cancel_one c w | None => w end))
  | DClose =>
      match dp_done d with
      | None => Ret (goto i d DFinish w)
      | Some c =>
          match w_channels w !! c with
          | Some false => Ret (goto i d DFinish (set_channels (<[c:=true]> (w_channels w)) (w_tail w) w))
          | Some true => Panic "close of closed channel"
          | None => Panic "close of nil channel"
          end
      end
  | DFinish => w ← wait_done w; Ret (goto i d DDone w)
  | DDone => Block
  end.

(** ** [runStream] *)

Definition cancelAll (w : world) : world :=
  set_contexts (map_fold (λ _ c contexts, alter (cancel_with (ESentinel ContextCanceled)) c contexts) (w_contexts w) (w_inFlight w)) (w_ctx w) w.

Definition go_main (m : main) (w : world) : world := set_main m (w_outer w) (w_disconnected w) w.

(** [viaCtx] is the case of the [select] that is taken. *)
Definition step_main (viaCtx : bool) (w : world) : outcome world :=
  match w_main w with
  | MSelect =>
      if viaCtx then if w_outer w then Ret (go_main (MCancel true) w) else Block
      else if w_disconnected w then Ret (go_main (MCancel false) w) else Block
  | MCancel close => Ret (go_main (MCancelAll close) (cancel_connection (ESentinel ContextCanceled) w))
  | MCancelAll close => Ret (go_main (if close then MClose else MWait) (cancelAll w))
  | MClose => Ret (set_main MWait (w_outer w) true w)
  | MWait => Ret (go_main (if bool_decide (w_wait w = 0%Z) then MReturned else MBlocked) w)
  | MBlocked =>
      if w_woken w then
        if bool_decide (w_wait w = 0%Z) then Ret (go_main MReturned (set_wait (w_wait w) false w))
        else Panic "sync: WaitGroup is reused before previous Wait has returned"
      else Block
  | MReturned => Block
  end.

Inductive action :=
| AReceive (rq : request)
| AReader
| ADispatch (i : nat) (c : choice)
| AMain (viaCtx : bool)
| AExpire (err : error)
| AHangup.

Definition act (a : action) (w : world) : outcome world :=
  match a with
  | AReceive rq => match w_reader w with RIdle => Ret (log [Received rq] (receive rq w)) | _ => Block end
  | AReader =>
      match w_reader w with
      | RIdle => Block
      | RCancel c => Ret (set_reader RIdle (cancel_one c w))
      | REnqueue rq c => Ret (enqueue rq c w)
      end
  | ADispatch i c => match w_dispatches w !! i with Some d => step_dispatch i d c w | None => Block end
  | AMain viaCtx => step_main viaCtx w
  | AExpire err => Ret (set_main (w_main w) true (w_disconnected w) (cancel_connection err w))
  | AHangup => Ret (set_main (w_main w) (w_outer w) true w)
  end.

Definition attempt (a : action) (w : world) : outcome world :=
  match act a w with
  | Ret w => Ret w
  | Panic m => Panic m
  | Block => Ret w
  end.

Fixpoint schedule (actions : list action) (w : world) : outcome world :=
  match actions with
  | [] => Ret w
  | a :: actions => w ← attempt a w; schedule actions w
  end.

(** ** Invariant *)

Definition subject (e : event) : option nat :=
  match e with Started i | Ended i _ | Skipped i => Some i | Received _ => None end.

(** The messages that were received and are dispatched, in the order of arrival. *)
Definition arrival (e : event) : option request :=
  match e with Received rq => if bool_decide (rq_Method rq = MethodCancelRequest) then None else Some rq | _ => None end.
Definition arrivals (l : list event) : list request := omap arrival l.

(** The message asks to cancel the request [id]. *)
Definition names (rq : request) (id : ID) : Prop :=
  rq_Method rq = MethodCancelRequest ∧ ∃ params, rq_Params rq = Some params ∧ cancelID params = Some id.

(** The client asked, after the [i]-th message arrived, to cancel the request [id]. *)
Definition asked (l : list event) (i : nat) (id : ID) : Prop :=
  ∃ before rq after, l = before ++ Received rq :: after ∧ names rq id ∧ (i < length (arrivals before))%nat.

(** No request but the [i]-th message has the id. *)
Definition sole (l : list event) (i : nat) (id : ID) : Prop :=
  ∀ j rq, arrivals l !! j = Some rq → j ≠ i → rq_Notif rq = false → rq_ID rq ≠ id.

Definition pending (r : reader) : list request := match r with REnqueue rq _ => [rq] | _ => [] end.
Definition starts (i : nat) (e : event) : bool := match e with Started j => bool_decide (j = i) | _ => false end.
Definition answers (i : nat) (r : nat * reply) : bool := bool_decide (r.1 = i).

(** The [lifecycleDone] channels of the messages, in the order of arrival. *)
Definition dones (w : world) : list (option nat) := dp_done <$> w_dispatches w.

(** [b] is the channel of the last lifecycle message before the [i]-th message. *)
Definition nearest (ds : list (option nat)) (i b : nat) : Prop :=
  (b = 0%nat ∧ ∀ j c, (j < i)%nat → ds !! j ≠ Some (Some c)) ∨
  ∃ j, (j < i)%nat ∧ ds !! j = Some (Some b) ∧ ∀ m c, (j < m < i)%nat → ds !! m ≠ Some (Some c).

Definition closed (p : pc) : bool := match p with DFinish | DDone => true | _ => false end.
Definition cancelled (p : pc) : bool := match p with DClose | DFinish | DDone => true | _ => false end.
Definition unanswered (p : pc) : bool := match p with DSelect | DHandle | DCheck _ | DReply _ => true | _ => false end.
Definition listed (p : pc) : bool := match p with DCancel | DClose | DFinish | DDone => false | _ => true end.
Definition running (d : dispatch) : bool := match dp_pc d with DDone => false | _ => true end.

(** The context of a dispatch is done for a reason: the connection is over, or
    the client asked for this request to be cancelled. *)
Definition dropped (w : world) (c : option nat) : Prop :=
  w_ctx w ≠ None ∨ ∃ k x, c = Some k ∧ w_contexts w !! k = Some x ∧ asked (w_log w) (cx_owner x) (cx_id x).

Definition reply_ok (w : world) (i : nat) (c : option nat) (r : reply) : Prop :=
  (∃ h, Ended i (Some h) ∈ w_log w ∧ r = classify None h) ∨ (r = requestCancelledError ∧ dropped w c).

Definition finished (w : world) (i : nat) : Prop := (∃ h, Ended i h ∈ w_log w) ∨ Skipped i ∈ w_log w.

Definition pc_ok (w : world) (i : nat) (d : dispatch) : Prop :=
  match dp_pc d with
  | DSelect => ∀ e, e ∈ w_log w → subject e ≠ Some i
  | DHandle => Started i ∈ w_log w
  | DCheck h => Ended i (Some h) ∈ w_log w
  | DReply r => finished w i ∧ reply_ok w i (dp_ctx d) r
  | _ => finished w i
  end.

Record dispatch_ok (w : world) (i : nat) (d : dispatch) : Prop := {
  do_nearest : nearest (dones w) i (dp_barrier d);
  do_lifecycle : isLifecycleMethod (rq_Method (dp_request d)) = bool_decide (is_Some (dp_done d));
  do_notif : rq_Notif (dp_request d) = bool_decide (dp_ctx d = None);
  do_ctx : ∀ c, dp_ctx d = Some c → ∃ err, w_contexts w !! c = Some (mkContext (rq_ID (dp_request d)) i err);
  do_channel : ∀ c, dp_done d = Some c → c ≠ 0%nat ∧ w_channels w !! c = Some (closed (dp_pc d));
  do_stored : w_stored w !! i = match dp_pc d with DHandle => Some (dp_ctx d) | _ => None end;
  do_skipped : Skipped i ∈ w_log w → dropped w (dp_ctx d);
  do_once : (count (starts i) (w_log w) ≤ 1)%nat;
  do_pc : pc_ok w i d;
  do_unanswered : unanswered (dp_pc d) = true ∨ rq_Notif (dp_request d) = true → count (answers i) (w_replies w) = 0%nat;
  do_answered : unanswered (dp_pc d) = false → rq_Notif (dp_request d) = false → rq_Method (dp_request d) ≠ MethodExit →
    count (answers i) (w_replies w) = 1%nat;
  do_answers : (count (answers i) (w_replies w) ≤ 1)%nat;
  do_replies : ∀ r, (i, r) ∈ w_replies w → reply_ok w i (dp_ctx d) r
}.

(** A handler starts after every earlier lifecycle message ended, or one of them
    was dropped. *)
Definition ordered (ds : list (option nat)) (l : list event) : Prop :=
  ∀ l1 i l2, l = l1 ++ Started i :: l2 → ∀ j c, (j < i)%nat → ds !! j = Some (Some c) →
    (∃ h, Ended j h ∈ l1) ∨ ∃ m c', (j ≤ m < i)%nat ∧ ds !! m = Some (Some c') ∧ Skipped m ∈ l1.

(** The requests of the client: the messages are those that arrived, a request that
    alone has its id is in flight under it until it is removed, and the reader
    cancels a request the client asked for. *)
Record requests_ok (w : world) : Prop := {
  ro_arrivals : arrivals (w_log w) = (dp_request <$> w_dispatches w) ++ pending (w_reader w);
  ro_owner : ∀ c x, w_contexts w !! c = Some x → (cx_owner x < length (arrivals (w_log w)))%nat;
  ro_found : ∀ i d c, w_dispatches w !! i = Some d → dp_ctx d = Some c → listed (dp_pc d) = true →
    sole (w_log w) i (rq_ID (dp_request d)) → w_inFlight w !! rq_ID (dp_request d) = Some c;
  ro_pending : ∀ rq c, w_reader w = REnqueue rq (Some c) → sole (w_log w) (length (w_dispatches w)) (rq_ID rq) →
    w_inFlight w !! rq_ID rq = Some c;
  ro_reader : match w_reader w with
    | RIdle => True
    | RCancel c => ∃ x, w_contexts w !! c = Some x ∧ asked (w_log w) (cx_owner x) (cx_id x)
    | REnqueue rq c => rq_Notif rq = bool_decide (c = None) ∧
        ∀ k, c = Some k → ∃ err, w_contexts w !! k = Some (mkContext (rq_ID rq) (length (w_dispatches w)) err)
    end
}.

Record inv (w : world) : Prop := {
  iv_dispatches : ∀ i d, w_dispatches w !! i = Some d → dispatch_ok w i d;
  iv_inj : ∀ i j c, dones w !! i = Some (Some c) → dones w !! j = Some (Some c) → i = j;
  iv_tail : nearest (dones w) (length (w_dispatches w)) (w_tail w);
  iv_zero : w_channels w !! 0%nat = Some true;
  iv_stored : ∀ i, w_dispatches w !! i = None → w_stored w !! i = None;
  iv_wait : w_wait w = Z.of_nat (count running (w_dispatches w));
  iv_woken : w_woken w = true → w_main w = MBlocked;
  iv_blocked : w_main w = MBlocked → w_wait w = 0%Z → w_woken w = true;
  iv_subjects : ∀ e i, e ∈ w_log w → subject e = Some i → (i < length (w_dispatches w))%nat;
  iv_replies : ∀ i r, (i, r) ∈ w_replies w → (i < length (w_dispatches w))%nat;
  iv_ended : ∀ i h, Ended i h ∈ w_log w → Started i ∈ w_log w;
  iv_ordered : ordered (dones w) (w_log w);
  iv_contexts : ∀ c x, w_contexts w !! c = Some x → cx_err x ≠ None →
    dropped w (Some c) ∨ ∃ d, w_dispatches w !! cx_owner x = Some d ∧ cancelled (dp_pc d) = true;
  iv_inFlight : ∀ id c, w_inFlight w !! id = Some c → ∃ x, w_contexts w !! c = Some x ∧ cx_id x = id;
  iv_over : match w_main w with MSelect | MCancel _ => True | _ => w_ctx w ≠ None end;
  iv_requests : requests_ok w
}.

Lemma lsp_inv_initial : inv newRPCHandler.
Proof. split; simpl; try done; try (intros *; rewrite ?elem_of_nil, ?lookup_nil; done). left. split; [done|]. lia. Qed.

(** ** Frames *)

(** Contexts keep their owner and stay done. *)
Definition ctx_later (w w' : world) : Prop :=
  (∀ c id o err, w_contexts w !! c = Some (mkContext id o err) → ∃ err', w_contexts w' !! c = Some (mkContext id o err')) ∧
  (w_ctx w ≠ None → w_ctx w' ≠ None).

Lemma nearest_app ds more i b : nearest ds i b → (i ≤ length ds)%nat → nearest (ds ++ more) i b.
Proof.
  intros [[-> N]|(j & Hj & E & N)] Hi; [left|right].
  - split; [done|]. intros j c Hj. rewrite lookup_app_l by lia. auto.
  - exists j. split_and!; [done|by rewrite lookup_app_l by lia|]. intros m c Hm. rewrite lookup_app_l by lia. auto.
Qed.

Lemma asked_app l es i id : asked l i id → asked (l ++ es) i id.
Proof. intros (before & rq & after & -> & ? & ?). exists before, rq, (after ++ es). by rewrite <-app_assoc. Qed.

Lemma arrivals_app l es : arrivals (l ++ es) = arrivals l ++ arrivals es.
Proof. apply omap_app. Qed.

Lemma arrivals_none es : (∀ e, e ∈ es → arrival e = None) → arrivals es = [].
Proof.
  induction es as [|e es IH]; intros H; [done|]. simpl. rewrite (H e) by apply list_elem_of_here. apply IH. intros. apply H. by apply list_elem_of_further.
Qed.

Lemma dropped_later w w' es c : ctx_later w w' → w_log w' = w_log w ++ es → dropped w c → dropped w' c.
Proof.
  intros [X Y] E [D|(k & [id o err] & -> & Hx & D)]; [left; auto|right]. destruct (X _ _ _ _ Hx) as (err' & Hx').
  exists k, (mkContext id o err'). rewrite E. split_and!; [done|done|]. by apply asked_app.
Qed.

Lemma reply_later w w' es i c r : ctx_later w w' → w_log w' = w_log w ++ es → reply_ok w i c r → reply_ok w' i c r.
Proof.
  intros X E [(h & Hh & ->)|[-> D]]; [left; exists h; rewrite E; split; [apply elem_of_app; by left|done]|right].
  split; [done|]. by eapply dropped_later.
Qed.

Lemma finished_later w w' es i : w_log w' = w_log w ++ es → finished w i → finished w' i.
Proof. intros E. unfold finished. rewrite E. setoid_rewrite elem_of_app. naive_solver. Qed.

Lemma count_none {A} (f : A → bool) l es : (∀ e, e ∈ es → f e = false) → count f (l ++ es) = count f l.
Proof.
  intros Hes. rewrite count_app. enough (count f es = 0%nat) by lia. induction es as [|e es IH]; [done|]. simpl.
  rewrite Hes by apply list_elem_of_here. rewrite IH; [done|]. intros. apply Hes. by apply list_elem_of_further.
Qed.

(** A message is not touched by what happens to the others. *)
Lemma dispatch_frame w w' j d more es rs : dispatch_ok w j d → (j ≤ length (dones w))%nat → dones w' = dones w ++ more →
  (∀ c, dp_done d = Some c → w_channels w' !! c = w_channels w !! c) → w_stored w' !! j = w_stored w !! j → ctx_later w w' →
  w_log w' = w_log w ++ es → (∀ e, e ∈ es → subject e ≠ Some j) →
  w_replies w' = w_replies w ++ rs → (∀ r, r ∈ rs → r.1 ≠ j) → dispatch_ok w' j d.
Proof.
  intros [D1 D2 D3 D4 D5 D6 D7 D8 D9 D10 D11 D12 D13] Hj Hds Hch Hst X El Hes Er Hrs.
  assert (count (answers j) (w_replies w') = count (answers j) (w_replies w)) as Hc.
  { rewrite Er. apply count_none. intros r Hr. apply bool_decide_false. auto. }
  assert (count (starts j) (w_log w') = count (starts j) (w_log w)) as Hs.
  { rewrite El. apply count_none. intros e He. specialize (Hes e He). destruct e; try done. simpl in *. apply bool_decide_false. congruence. }
  split; try done; rewrite ?Hc, ?Hs, ?Hst; try done.
  - rewrite Hds. by apply nearest_app.
  - intros c Hc'. destruct (D4 _ Hc') as (err & E). by apply X in E.
  - intros c Hc'. rewrite Hch by done. auto.
  - rewrite El. intros [Hin|Hin]%elem_of_app; [|by specialize (Hes _ Hin)]. eapply dropped_later; eauto.
  - revert D9. unfold pc_ok. pose proof (finished_later w w' es j El) as F. destruct (dp_pc d); try done; rewrite ?El, ?elem_of_app; eauto.
    + intros D9 e [He|He]%elem_of_app; auto.
    + intros [? R]. split; [auto|]. by eapply reply_later.
  - intros r. rewrite Er. intros [Hin|Hin]%elem_of_app; [|by specialize (Hrs _ Hin)]. eapply reply_later; eauto.
Qed.

Lemma dones_insert w i d p : w_dispatches w !! i = Some d → dp_done <$> <[i:=at_pc p d]> (w_dispatches w) = dones w.
Proof.
  intros E. unfold dones. rewrite list_fmap_insert. apply list_insert_id. by rewrite list_lookup_fmap, E.
Qed.

Lemma running_insert w i d p : w_dispatches w !! i = Some d → running d = true →
  (count running (<[i:=at_pc p d]> (w_dispatches w)) + (if running (at_pc p d) then 0 else 1) = count running (w_dispatches w))%nat.
Proof. intros E Hr. pose proof (count_insert running _ _ _ (at_pc p d) E) as C. rewrite Hr in C. destruct (running (at_pc p d)); lia. Qed.

(** ** The log *)

Lemma ordered_app ds more l : ordered ds l → (∀ e i, e ∈ l → subject e = Some i → (i < length ds)%nat) → ordered (ds ++ more) l.
Proof.
  intros O S l1 i l2 -> j c Hj Hd. assert (i < length ds)%nat as Hi.
  { apply (S (Started i) i); [|done]. apply elem_of_app. right. apply list_elem_of_here. }
  rewrite lookup_app_l in Hd by lia. destruct (O _ _ _ eq_refl j c Hj Hd) as [?|(m & c' & ? & Hm & ?)]; [by left|right].
  exists m, c'. split_and!; [lia..| |done]. by rewrite lookup_app_l by lia.
Qed.

Lemma ordered_snoc ds l e : ordered ds l → (∀ i, e ≠ Started i) → ordered ds (l ++ [e]).
Proof.
  intros O Hne l1 i l2 E j c Hj Hd. destruct l2 as [|e' l2 _] using rev_ind.
  - apply app_inj_tail in E as [_ E]. by destruct (Hne i).
  - rewrite app_comm_cons, app_assoc in E. apply app_inj_tail in E as [-> _]. by eapply O.
Qed.

(** A handler starts when the last lifecycle message before it is finished. *)
Lemma ordered_start ds l i b : ordered ds l → (∀ j h, Ended j h ∈ l → Started j ∈ l) → nearest ds i b →
  (∀ j, ds !! j = Some (Some b) → (∃ h, Ended j h ∈ l) ∨ Skipped j ∈ l) → ordered ds (l ++ [Started i]).
Proof.
  intros O HE N F l1 k l2 E j c Hj Hd. destruct l2 as [|e' l2 _] using rev_ind.
  2: { rewrite app_comm_cons, app_assoc in E. apply app_inj_tail in E as [-> _]. by eapply O. }
  apply app_inj_tail in E as [-> [= ->]]. destruct N as [[_ N]|(n & Hn & En & N)]; [by destruct (N _ _ Hj Hd)|].
  destruct (decide (n < j)%nat) as [Hlt|Hge]; [by destruct (N j c)|].
  destruct (F _ En) as [(h & Hh)|Hs]; [|right; exists n, b; split_and!; [lia..|done|done]].
  destruct (decide (j = n)) as [->|Hne]; [left; eauto|]. apply HE in Hh. apply list_elem_of_split in Hh as (l1' & l2' & ->).
  destruct (O _ _ _ eq_refl j c ltac:(lia) Hd) as [(h' & ?)|(m & c' & ? & Hm & ?)]; [left|right].
  - exists h'. apply elem_of_app. by left.
  - exists m, c'. split_and!; [lia..|done|]. apply elem_of_app. by left.
Qed.

(** ** Steps of a message *)

(** What a step of the [i]-th message leaves alone. *)
Record moves (w w' : world) (i : nat) (d : dispatch) (p : pc) (es : list event) (rs : list (nat * reply)) : Prop := {
  mv_dispatches : w_dispatches w' = <[i:=at_pc p d]> (w_dispatches w);
  mv_channels : ∀ c, dp_done d ≠ Some c → w_channels w' !! c = w_channels w !! c;
  mv_tail : w_tail w' = w_tail w;
  mv_stored : ∀ j, j ≠ i → w_stored w' !! j = w_stored w !! j;
  mv_later : ctx_later w w';
  mv_log : w_log w' = w_log w ++ es;
  mv_subjects : ∀ e, e ∈ es → subject e = Some i;
  mv_replies : w_replies w' = w_replies w ++ rs;
  mv_answers : ∀ r, r ∈ rs → r.1 = i;
  mv_main : w_main w' = w_main w;
  mv_reader : w_reader w' = w_reader w;
  mv_inFlight : ∀ id c, w_inFlight w' !! id = Some c → w_inFlight w !! id = Some c;
  mv_kept : ∀ id c, w_inFlight w !! id = Some c →
    w_inFlight w' !! id = Some c ∨ (id = rq_ID (dp_request d) ∧ is_Some (dp_ctx d) ∧ listed p = false);
  mv_listed : listed p = true → listed (dp_pc d) = true;
  mv_length : length (w_contexts w') = length (w_contexts w);
  mv_contexts : ∀ c x, w_contexts w' !! c = Some x → cx_err x ≠ None →
    (cx_owner x = i ∧ cancelled p = true) ∨ ∃ x0, w_contexts w !! c = Some x0 ∧ cx_err x0 ≠ None ∧ cx_owner x0 = cx_owner x
}.

(** Contexts that were kept have their owners. *)
Lemma owner_later w w' c x : ctx_later w w' → length (w_contexts w') = length (w_contexts w) → w_contexts w' !! c = Some x →
  ∃ x0, w_contexts w !! c = Some x0 ∧ cx_owner x0 = cx_owner x ∧ cx_id x0 = cx_id x.
Proof.
  intros [X _] Hl Hx. destruct (lookup_lt_is_Some_2 (w_contexts w) c) as [[id o err] H0].
  { rewrite <-Hl. by eapply lookup_lt_Some. }
  destruct (X _ _ _ _ H0) as (err' & H1). rewrite Hx in H1. simplify_eq. by eexists.
Qed.

Lemma reader_later w w' es : requests_ok w → ctx_later w w' → w_log w' = w_log w ++ es →
  match w_reader w with
  | RIdle => True
  | RCancel c => ∃ x, w_contexts w' !! c = Some x ∧ asked (w_log w') (cx_owner x) (cx_id x)
  | REnqueue rq c => rq_Notif rq = bool_decide (c = None) ∧
      ∀ k, c = Some k → ∃ err, w_contexts w' !! k = Some (mkContext (rq_ID rq) (length (w_dispatches w)) err)
  end.
Proof.
  intros Q [X _] E. pose proof (ro_reader _ Q) as R. destruct (w_reader w) as [|c|rq c]; [done| |].
  - destruct R as ([id o err] & Hx & Ha). destruct (X _ _ _ _ Hx) as (err' & Hx'). exists (mkContext id o err'). rewrite E. split; [done|].
    by apply asked_app.
  - destruct R as [? R]. split; [done|]. intros k Hk. destruct (R k Hk) as (err & Hx). by apply X in Hx.
Qed.

Lemma requests_moves w w' i d p es rs : requests_ok w → dispatch_ok w i d → w_dispatches w !! i = Some d → moves w w' i d p es rs →
  requests_ok w'.
Proof.
  intros Q D E M. pose proof Q as [Q1 Q2 Q3 Q4 _].
  pose proof (mv_dispatches _ _ _ _ _ _ _ M) as Ed. pose proof (mv_reader _ _ _ _ _ _ _ M) as Er.
  assert (arrivals (w_log w') = arrivals (w_log w)) as Ea.
  { rewrite (mv_log _ _ _ _ _ _ _ M), arrivals_app, (arrivals_none es), app_nil_r; [done|]. intros e He.
    pose proof (mv_subjects _ _ _ _ _ _ _ M e He). by destruct e. }
  assert (∀ j id, sole (w_log w') j id → sole (w_log w) j id) as Hs by (intros j id; unfold sole; by rewrite Ea).
  assert (∀ j id c, w_inFlight w !! id = Some c → sole (w_log w) j id → (j = i → listed p = true) → w_inFlight w' !! id = Some c) as Hk.
  { intros j id c Hc Hj Hp. destruct (mv_kept _ _ _ _ _ _ _ M _ _ Hc) as [?|(-> & [c' Hc'] & Hl)]; [done|]. exfalso.
    destruct (decide (i = j)) as [->|Hne]; [by rewrite Hp in Hl|]. refine (Hj i (dp_request d) _ Hne _ eq_refl).
    - rewrite Q1, lookup_app_l; [by rewrite list_lookup_fmap, E|]. rewrite length_fmap. by eapply lookup_lt_Some.
    - rewrite (do_notif _ _ _ D), Hc'. done. }
  split; rewrite ?Ea, ?Er.
  - rewrite Ed, list_fmap_insert, Q1. f_equal. symmetry. apply list_insert_id. by rewrite list_lookup_fmap, E.
  - intros c x Hx. destruct (owner_later _ _ _ _ (mv_later _ _ _ _ _ _ _ M) (mv_length _ _ _ _ _ _ _ M) Hx) as (x0 & Hx0 & <- & _). by eapply Q2.
  - intros j dj c Hj Hc Hl Hso. rewrite Ed in Hj. destruct (decide (j = i)) as [->|Hne].
    + rewrite list_lookup_insert_eq in Hj by (by eapply lookup_lt_Some). simplify_eq/=. apply (Hk i); [|by apply Hs|done].
      apply (Q3 i); [done..|by apply M|by apply Hs].
    + rewrite list_lookup_insert_ne in Hj by done. apply (Hk j); [|by apply Hs|done]. by apply (Q3 j); [..|apply Hs].
  - rewrite Ed, length_insert. intros rq c Hr Hso. apply (Hk (length (w_dispatches w))); [by apply Q4; [|apply Hs]|by apply Hs|].
    intros <-. apply lookup_lt_Some in E. lia.
  - rewrite Ed, length_insert. by eapply reader_later; [|apply M|apply M].
Qed.

Lemma inv_moves w w' i d p es rs : inv w → w_dispatches w !! i = Some d → moves w w' i d p es rs →
  (cancelled (dp_pc d) = true → cancelled p = true) → dispatch_ok w' i (at_pc p d) →
  w_wait w' = Z.of_nat (count running (w_dispatches w')) →
  (w_woken w' = true → w_main w = MBlocked) → (w_main w = MBlocked → w_wait w' = 0%Z → w_woken w' = true) →
  (∀ j h, Ended j h ∈ w_log w' → Started j ∈ w_log w') → ordered (dones w) (w_log w') → inv w'.
Proof.
  intros I E M Hcan Hok Hwait Hwoken Hblocked Hended Hord. pose proof M as [M1 M2 M3 M4 M5 M6 M7 M8 M9 M10 M11 M12 _ _ _ M13].
  pose proof I as [I1 I2 I3 I4 I5 I6 I7 I8 I9 I10 I11 I12 I13 I14 I15 I16].
  assert (dones w' = dones w) as Hd by (unfold dones at 1; rewrite M1; by apply dones_insert).
  assert (length (w_dispatches w') = length (w_dispatches w)) as Hlen by (by rewrite M1, length_insert).
  pose proof (lookup_lt_Some _ _ _ E) as Hlt.
  split; rewrite ?Hd, ?Hlen, ?M3, ?M10, ?M11; try done.
  - intros j dj Hj. rewrite M1 in Hj. destruct (decide (j = i)) as [->|Hne].
    { rewrite list_lookup_insert_eq in Hj by done. by simplify_eq. }
    rewrite list_lookup_insert_ne in Hj by done.
    eapply (dispatch_frame w w' j dj [] es rs); [by apply I1| |by rewrite app_nil_r| |by apply M4|done|done| |done|].
    + unfold dones. rewrite length_fmap. apply lookup_lt_Some in Hj. lia.
    + intros c Hc. apply M2. intros Hc'. destruct Hne. apply (I2 j i c); unfold dones; rewrite list_lookup_fmap.
      * by rewrite Hj, <-Hc.
      * by rewrite E, <-Hc'.
    + intros e He. rewrite (M7 e He). congruence.
    + intros r Hr. by rewrite (M9 r Hr).
  - rewrite M2; [done|]. intros Hc. by destruct (do_channel _ _ _ (I1 _ _ E) _ Hc).
  - intros j Hj. rewrite M1 in Hj. destruct (decide (j = i)) as [->|Hne]; [by rewrite list_lookup_insert_eq in Hj|].
    rewrite M4 by done. apply I5. by rewrite list_lookup_insert_ne in Hj.
  - intros e j. rewrite M6. intros [He|He]%elem_of_app; [by apply I9|]. rewrite (M7 _ He). intros [= <-]. done.
  - intros j r. rewrite M8. intros [He|He]%elem_of_app; [by eapply I10|]. apply M9 in He. simpl in He. by subst.
  - intros c x Hx Hne. destruct (M13 _ _ Hx Hne) as [[Ho Hp]|(x0 & Hx0 & Hne0 & Ho)].
    + right. exists (at_pc p d). split; [|done]. rewrite M1, Ho. by apply list_lookup_insert_eq.
    + destruct (I13 _ _ Hx0 Hne0) as [?|(d0 & Hd0 & Hc0)]; [left; by eapply dropped_later|right].
      rewrite Ho in Hd0. rewrite M1. destruct (decide (cx_owner x = i)) as [Hi|Hni]; [rewrite Hi in *|].
      * exists (at_pc p d). split; [by apply list_lookup_insert_eq|]. simpl. apply Hcan. congruence.
      * exists d0. by rewrite list_lookup_insert_ne.
  - intros id c Hc. destruct (I14 _ _ (M12 _ _ Hc)) as ([id' o err] & Hx & Hi). destruct (proj1 M5 _ _ _ _ Hx) as (err' & Hx').
    by eexists.
  - destruct (w_main w); try done; by apply M5.
  - by eapply requests_moves; [|apply I1| |].
Qed.

(** The replies of a step: none, or that of [DReply]. *)
Definition replies_ok (i : nat) (d : dispatch) (p : pc) (rs : list (nat * reply)) : Prop :=
  (rs = [] ∧ (unanswered p = true → unanswered (dp_pc d) = true) ∧
     (unanswered p = unanswered (dp_pc d) ∨ rq_Notif (dp_request d) = true ∨ rq_Method (dp_request d) = MethodExit)) ∨
  (∃ r, rs = [(i, r)] ∧ dp_pc d = DReply r ∧ rq_Notif (dp_request d) = false ∧ unanswered p = false).

Lemma dispatch_self w w' i d p es rs : inv w → w_dispatches w !! i = Some d → moves w w' i d p es rs →
  (∀ c, dp_done d = Some c → w_channels w' !! c = Some (closed p)) →
  w_stored w' !! i = match p with DHandle => Some (dp_ctx d) | _ => None end →
  (Skipped i ∈ es → dropped w' (dp_ctx d)) → (count (starts i) (w_log w') ≤ 1)%nat →
  pc_ok w' i (at_pc p d) → replies_ok i d p rs → dispatch_ok w' i (at_pc p d).
Proof.
  intros I E M Hch Hst Hsk Honce Hpc Hrs. destruct (iv_dispatches _ I _ _ E) as [D1 D2 D3 D4 D5 D6 D7 D8 D9 D10 D11 D12 D13].
  assert (dones w' = dones w) as Hd by (unfold dones at 1; rewrite (mv_dispatches _ _ _ _ _ _ _ M); by apply dones_insert).
  pose proof (mv_later _ _ _ _ _ _ _ M) as X. pose proof (mv_log _ _ _ _ _ _ _ M) as El.
  pose proof (mv_replies _ _ _ _ _ _ _ M) as Er.
  assert (count (answers i) (w_replies w') = count (answers i) (w_replies w) + count (answers i) rs)%nat as Hc by (by rewrite Er, count_app).
  split; simpl; try done; rewrite ?Hd, ?Hc; try done.
  - intros c Hc'. destruct (D4 _ Hc') as (err & Hx). by apply X in Hx.
  - intros c Hc'. split; [by apply (D5 c)|auto].
  - rewrite El. intros [Hin|Hin]%elem_of_app; [|auto]. eapply dropped_later; eauto.
  - intros Hu. destruct Hrs as [(-> & H1 & H2)|(r & -> & H1 & H2 & H3)]; [|naive_solver congruence].
    simpl. rewrite D10; [done|]. naive_solver.
  - intros Hu Hn Hm. destruct Hrs as [(-> & H1 & H2)|(r & -> & H1 & H2 & H3)]; simpl.
    + rewrite D11; [done| |done|done]. naive_solver congruence.
    + rewrite D10 by (rewrite H1; by left). unfold answers. by rewrite bool_decide_true.
  - destruct Hrs as [(-> & _)|(r & -> & H1 & H2 & H3)]; simpl; [lia|].
    rewrite D10 by (rewrite H1; by left). unfold answers. by rewrite bool_decide_true.
  - intros r. rewrite Er. intros [Hin|Hin]%elem_of_app; [eapply reply_later; eauto|].
    destruct Hrs as [(-> & _)|(r' & -> & H1 & H2 & H3)]; [by apply elem_of_nil in Hin|].
    apply list_elem_of_singleton in Hin as [= ->]. unfold pc_ok in D9. rewrite H1 in D9. destruct D9 as [_ D9]. by eapply reply_later.
Qed.

Lemma ctx_later_refl w w' : w_contexts w' = w_contexts w → w_ctx w' = w_ctx w → ctx_later w w'.
Proof. intros E1 E2. split; rewrite ?E1, ?E2; eauto. Qed.

Lemma ended_log l i es : (∀ j h, Ended j h ∈ l → Started j ∈ l) → (∀ h, Ended i h ∈ es → Started i ∈ l ++ es) →
  (∀ e, e ∈ es → subject e = Some i) → ∀ j h, Ended j h ∈ l ++ es → Started j ∈ l ++ es.
Proof.
  intros H1 H2 Hs j h [Hin|Hin]%elem_of_app; [apply elem_of_app; left; eauto|].
  assert (j = i) as -> by (specialize (Hs _ Hin); simpl in Hs; congruence). eauto.
Qed.

(** A step of a message that leaves the channels and the wait group alone. *)
Lemma plain_step w w' i d p es rs : inv w → w_dispatches w !! i = Some d → moves w w' i d p es rs →
  w_channels w' = w_channels w → w_wait w' = w_wait w → w_woken w' = w_woken w →
  running d = true → running (at_pc p d) = true → closed p = closed (dp_pc d) → (cancelled (dp_pc d) = true → cancelled p = true) →
  w_stored w' !! i = match p with DHandle => Some (dp_ctx d) | _ => None end →
  (Skipped i ∈ es → dropped w' (dp_ctx d)) → (count (starts i) (w_log w') ≤ 1)%nat →
  pc_ok w' i (at_pc p d) → replies_ok i d p rs →
  (∀ h, Ended i h ∈ es → Started i ∈ w_log w ++ es) → ordered (dones w) (w_log w ++ es) → inv w'.
Proof.
  intros I E M Hch Hw Hwo Hr Hr' Hcl Hcan Hst Hsk Honce Hpc Hrs Hend Hord. pose proof (iv_dispatches _ I _ _ E) as D.
  pose proof (running_insert w i d p E Hr) as C. rewrite Hr' in C. rewrite <-(mv_log _ _ _ _ _ _ _ M) in Hend, Hord.
  eapply (inv_moves w w'); try done.
  - eapply dispatch_self; try done. intros c Hc. rewrite Hch, Hcl. by apply D.
  - rewrite Hw, (iv_wait _ I), (mv_dispatches _ _ _ _ _ _ _ M). lia.
  - rewrite Hwo. apply I.
  - rewrite Hw, Hwo. apply I.
  - rewrite (mv_log _ _ _ _ _ _ _ M) in *. apply (ended_log _ i); [apply I|done|apply M].
Qed.

Ltac lsp_moves := split; simpl; rewrite ?app_nil_r; try done; try (by apply ctx_later_refl);
  try (by match goal with H : dp_pc _ = _ |- _ => rewrite H end); try (by intros; left); try set_solver; eauto.

Lemma starts_fresh w i d : inv w → w_dispatches w !! i = Some d → dp_pc d = DSelect → count (starts i) (w_log w) = 0%nat.
Proof.
  intros I E Hp. pose proof (do_pc _ _ _ (iv_dispatches _ I _ _ E)) as P. unfold pc_ok in P. rewrite Hp in P.
  destruct (count (starts i) (w_log w)) eqn:C; [done|]. destruct (count_witness (starts i) (w_log w)) as (k & e & Hk & He); [lia|].
  apply list_elem_of_lookup_2 in Hk. destruct e; try done. apply bool_decide_eq_true in He as ->. by destruct (P _ Hk).
Qed.

(** The last lifecycle message before a message whose barrier is closed is finished. *)
Lemma barrier_finished w i d : inv w → w_dispatches w !! i = Some d → w_channels w !! dp_barrier d = Some true →
  ∀ j, dones w !! j = Some (Some (dp_barrier d)) → finished w j.
Proof.
  intros I E Hb j Hj. unfold dones in Hj. rewrite list_lookup_fmap in Hj. destruct (w_dispatches w !! j) as [dj|] eqn:Ej; simplify_eq/=.
  pose proof (iv_dispatches _ I _ _ Ej) as D. destruct (do_channel _ _ _ D (dp_barrier d)) as [_ Hc]; [congruence|].
  pose proof (do_pc _ _ _ D) as P. unfold pc_ok in P. rewrite Hb in Hc. destruct (dp_pc dj); done.
Qed.

(** A request's own context is done for a reason while it is not finished. *)
Lemma ctx_dropped w i d err : inv w → w_dispatches w !! i = Some d → cancelled (dp_pc d) = false →
  ctx_err (dp_ctx d) w = Some err → dropped w (dp_ctx d).
Proof.
  intros I E Hp Hc. destruct (dp_ctx d) as [c|] eqn:Hctx; [|left; simpl in Hc; congruence].
  destruct (do_ctx _ _ _ (iv_dispatches _ I _ _ E) c Hctx) as (e & Hx). simpl in Hc. rewrite Hx in Hc. simpl in Hc.
  destruct (iv_contexts _ I _ _ Hx) as [?|(d' & Hd' & Hcan)]; [simpl; congruence|done|].
  simpl in Hd'. rewrite E in Hd'. simplify_eq. by rewrite Hp in Hcan.
Qed.

Lemma select_cancelled w i d err : inv w → w_dispatches w !! i = Some d → dp_pc d = DSelect → ctx_err (dp_ctx d) w = Some err →
  inv (goto i d (DReply requestCancelledError) (log [Skipped i] w)).
Proof.
  intros I E Hp Hc. pose proof (iv_dispatches _ I _ _ E) as D. set (w' := goto _ _ _ _).
  assert (dropped w (dp_ctx d)) as Hd by (eapply ctx_dropped; [done|done|by rewrite Hp|done]).
  assert (dropped w' (dp_ctx d)) as Hd' by (by eapply (dropped_later w w' [Skipped i]); [apply ctx_later_refl| |]).
  eapply (plain_step w w' i d (DReply requestCancelledError) [Skipped i] []); try done; try (by rewrite ?Hp; unfold running; rewrite ?Hp).
  - lsp_moves.
  - simpl. rewrite (do_stored _ _ _ D). by rewrite Hp.
  - simpl. rewrite count_app, (starts_fresh _ _ _ I E Hp). simpl. lia.
  - split; [|right; done]. right. simpl. apply elem_of_app. right. apply list_elem_of_here.
  - left. rewrite Hp. naive_solver.
  - intros h Hin. set_solver.
  - apply ordered_snoc; [apply I|done].
Qed.

Lemma select_ready w i d : inv w → w_dispatches w !! i = Some d → dp_pc d = DSelect → w_channels w !! dp_barrier d = Some true →
  inv (goto i d DHandle (set_stored (<[i:=dp_ctx d]> (w_stored w)) (log [Started i] w))).
Proof.
  intros I E Hp Hb. pose proof (iv_dispatches _ I _ _ E) as D. set (w' := goto _ _ _ _).
  eapply (plain_step w w' i d DHandle [Started i] []); try done; try (by rewrite ?Hp; unfold running; rewrite ?Hp).
  - lsp_moves. intros j Hj. by rewrite lookup_insert_ne.
  - simpl. by rewrite lookup_insert_eq.
  - set_solver.
  - simpl. rewrite count_app, (starts_fresh _ _ _ I E Hp). simpl. rewrite bool_decide_true by done. lia.
  - unfold pc_ok. simpl. apply elem_of_app. right. apply list_elem_of_here.
  - left. rewrite Hp. naive_solver.
  - intros h Hin. set_solver.
  - eapply ordered_start; [apply I|apply I|apply D|]. by eapply barrier_finished.
Qed.

Lemma select_exit w i d : inv w → w_dispatches w !! i = Some d → dp_pc d = DSelect → w_channels w !! dp_barrier d = Some true →
  rq_Method (dp_request d) = MethodExit →
  inv (goto i d DRemove (set_main (w_main w) (w_outer w) true (log [Started i; Ended i None] w))).
Proof.
  intros I E Hp Hb Hm. pose proof (iv_dispatches _ I _ _ E) as D. set (w' := goto _ _ _ _).
  eapply (plain_step w w' i d DRemove [Started i; Ended i None] []); try done; try (by rewrite ?Hp; unfold running; rewrite ?Hp).
  - lsp_moves.
  - simpl. rewrite (do_stored _ _ _ D). by rewrite Hp.
  - set_solver.
  - simpl. rewrite count_app, (starts_fresh _ _ _ I E Hp). simpl. rewrite bool_decide_true by done. lia.
  - left. exists None. simpl. set_solver.
  - left. naive_solver.
  - intros h Hin. set_solver.
  - rewrite (app_assoc _ [Started i] [Ended i None]). apply ordered_snoc; [|done].
    eapply ordered_start; [apply I|apply I|apply D|]. by eapply barrier_finished.
Qed.

Lemma handler_returns w i d h : inv w → w_dispatches w !! i = Some d → dp_pc d = DHandle →
  inv (goto i d (DCheck h) (set_stored (delete i (w_stored w)) (log [Ended i (Some h)] w))).
Proof.
  intros I E Hp. pose proof (iv_dispatches _ I _ _ E) as D. pose proof (do_pc _ _ _ D) as P. unfold pc_ok in P. rewrite Hp in P.
  set (w' := goto _ _ _ _).
  eapply (plain_step w w' i d (DCheck h) [Ended i (Some h)] []); try done; try (by rewrite ?Hp; unfold running; rewrite ?Hp).
  - lsp_moves. intros j Hj. by rewrite lookup_delete_ne.
  - simpl. by rewrite lookup_delete_eq.
  - set_solver.
  - simpl. rewrite count_app. simpl. rewrite Nat.add_0_r. apply D.
  - unfold pc_ok. simpl. set_solver.
  - left. rewrite Hp. naive_solver.
  - intros h' _. apply elem_of_app. by left.
  - apply ordered_snoc; [apply I|done].
Qed.

Lemma classify_cases ctxErr h : classify ctxErr h = classify None h ∨ (classify ctxErr h = requestCancelledError ∧ ctxErr ≠ None).
Proof. unfold classify. destruct ctxErr as [e|]; [|by left]. simpl. destruct (errors_Is e ContextCanceled); [by right|by left]. Qed.

Lemma check_step w i d h : inv w → w_dispatches w !! i = Some d → dp_pc d = DCheck h →
  inv (goto i d (if rq_Notif (dp_request d) then DRemove else DReply (classify (ctx_err (dp_ctx d) w) h)) w).
Proof.
  intros I E Hp. pose proof (iv_dispatches _ I _ _ E) as D. pose proof (do_pc _ _ _ D) as P. unfold pc_ok in P. rewrite Hp in P.
  assert (finished w i) as F by (left; eauto). set (p := if rq_Notif (dp_request d) then _ else _). set (w' := goto _ _ _ _).
  eapply (plain_step w w' i d p [] []); rewrite ?app_nil_r; try done; try (by rewrite ?Hp; unfold running; rewrite ?Hp); subst p.
  - lsp_moves.
  - by destruct (rq_Notif _).
  - rewrite Hp. by destruct (rq_Notif _).
  - simpl. rewrite (do_stored _ _ _ D), Hp. by destruct (rq_Notif _).
  - set_solver.
  - apply D.
  - destruct (rq_Notif _); [done|]. split; [done|]. destruct (classify_cases (ctx_err (dp_ctx d) w) h) as [Hc|[Hc Hn]].
    + left. exists h. split; [done|]. by rewrite <-Hc.
    + right. split; [done|]. destruct (ctx_err (dp_ctx d) w) eqn:Herr; [|done]. exact (ctx_dropped w i d e I E ltac:(by rewrite Hp) Herr).
  - left. rewrite Hp. by destruct (rq_Notif _) eqn:?; naive_solver.
  - set_solver.
  - apply I.
Qed.

Ltac lsp_plain I D Hp := rewrite ?app_nil_r;
  first [done | by rewrite ?Hp; unfold running; rewrite ?Hp | exact (iv_ordered _ I) | exact (do_once _ _ _ D)
        |simpl; by rewrite (do_stored _ _ _ D), Hp | by (left; rewrite Hp; naive_solver) | by (intros; set_solver) | idtac].

Lemma reply_step w i d r : inv w → w_dispatches w !! i = Some d → dp_pc d = DReply r →
  inv (goto i d DRemove (if rq_Notif (dp_request d) then w else send [(i, r)] w)).
Proof.
  intros I E Hp. pose proof (iv_dispatches _ I _ _ E) as D. pose proof (do_pc _ _ _ D) as P. unfold pc_ok in P. rewrite Hp in P.
  destruct P as [F P]. destruct (rq_Notif (dp_request d)) eqn:Hn.
  - eapply (plain_step w _ i d DRemove [] []); lsp_plain I D Hp. lsp_moves.
  - eapply (plain_step w _ i d DRemove [] [(i, r)]); lsp_plain I D Hp; [lsp_moves|]. right. eauto.
Qed.

(** Cancelling contexts. *)
Lemma alter_context c w k x : alter (cancel_with (ESentinel ContextCanceled)) c (w_contexts w) !! k = Some x →
  ∃ x0, w_contexts w !! k = Some x0 ∧ cx_owner x0 = cx_owner x ∧ (k ≠ c → x = x0).
Proof.
  destruct (decide (k = c)) as [->|Hne].
  - rewrite list_lookup_alter_eq. intros (x0 & Hx & ->)%fmap_Some. by exists x0.
  - rewrite list_lookup_alter_ne by done. eauto.
Qed.

Lemma later_alter f (l : list rcontext) c id o err : (∀ x, cx_id (f x) = cx_id x ∧ cx_owner (f x) = cx_owner x) → ∀ k,
  l !! k = Some (mkContext id o err) → ∃ err', alter f c l !! k = Some (mkContext id o err').
Proof.
  intros Hf k Hk. destruct (decide (k = c)) as [->|Hne].
  - rewrite list_lookup_alter_eq, Hk. simpl. destruct (f _) as [id' o' err'] eqn:Hfx. pose proof (Hf (mkContext id o err)) as [H1 H2].
    rewrite Hfx in *. simpl in *. subst. eauto.
  - rewrite list_lookup_alter_ne by done. eauto.
Qed.

Lemma later_cancel c w : ctx_later w (cancel_one c w).
Proof. split; [|done]. intros k id o err Hk. by eapply (later_alter (cancel_with (ESentinel ContextCanceled)) _ c). Qed.

Lemma remove_step w i d : inv w → w_dispatches w !! i = Some d → dp_pc d = DRemove →
  inv (goto i d DCancel (match dp_ctx d with Some _ => set_inFlight (delete (rq_ID (dp_request d)) (w_inFlight w)) w | None => w end)).
Proof.
  intros I E Hp. pose proof (iv_dispatches _ I _ _ E) as D. pose proof (do_pc _ _ _ D) as P. unfold pc_ok in P. rewrite Hp in P.
  destruct (dp_ctx d) as [c|] eqn:Hc; eapply (plain_step w _ i d DCancel [] []); lsp_plain I D Hp; lsp_moves.
  - by intros id k [_ ?]%lookup_delete_Some.
  - intros id k Hk. destruct (decide (id = rq_ID (dp_request d))) as [->|Hne]; [right; by rewrite Hc|left]. by rewrite lookup_delete_ne.
Qed.

Lemma lsp_cancel_step w i d : inv w → w_dispatches w !! i = Some d → dp_pc d = DCancel →
  inv (goto i d DClose (match dp_ctx d with Some c => cancel_one c w | None => w end)).
Proof.
  intros I E Hp. pose proof (iv_dispatches _ I _ _ E) as D. pose proof (do_pc _ _ _ D) as P. unfold pc_ok in P. rewrite Hp in P.
  destruct (dp_ctx d) as [c|] eqn:Hc; eapply (plain_step w _ i d DClose [] []); lsp_plain I D Hp; lsp_moves.
  - apply later_cancel.
  - apply length_alter.
  - intros k x Hx Hne. destruct (alter_context _ _ _ _ Hx) as (x0 & Hx0 & Ho & Hk).
    destruct (decide (k = c)) as [->|Hne']; [left|right].
    + destruct (do_ctx _ _ _ D c Hc) as (err & Hx'). rewrite Hx0 in Hx'. simplify_eq. by rewrite <-Ho.
    + exists x0. rewrite Hk in Hne by done. by rewrite Hk.
Qed.

Lemma close_moves w w' i d : inv w → w_dispatches w !! i = Some d → dp_pc d = DClose → moves w w' i d DFinish [] [] →
  w_wait w' = w_wait w → w_woken w' = w_woken w → w_stored w' = w_stored w →
  (∀ c, dp_done d = Some c → w_channels w' !! c = Some true) → inv w'.
Proof.
  intros I E Hp M Hw Hwo Hst Hch. pose proof (iv_dispatches _ I _ _ E) as D.
  assert (finished w i) as P by (pose proof (do_pc _ _ _ D) as P; unfold pc_ok in P; by rewrite Hp in P).
  assert (w_log w' = w_log w) as El by (by rewrite (mv_log _ _ _ _ _ _ _ M), app_nil_r).
  pose proof (running_insert w i d DFinish E ltac:(unfold running; by rewrite Hp)) as C. simpl in C.
  eapply (inv_moves w w'); rewrite ?Hw, ?Hwo, ?El; try done; try apply I.
  - eapply dispatch_self; try done; rewrite ?El; [by rewrite Hst, (do_stored _ _ _ D), Hp|set_solver|apply D| |].
    + unfold pc_ok, finished. by rewrite El.
    + left. rewrite Hp. naive_solver.
  - rewrite (iv_wait _ I), (mv_dispatches _ _ _ _ _ _ _ M). lia.
Qed.

Lemma lsp_close_step w i d choice : inv w → w_dispatches w !! i = Some d → dp_pc d = DClose →
  ∃ w', step_dispatch i d choice w = Ret w' ∧ inv w'.
Proof.
  intros I E Hp. pose proof (iv_dispatches _ I _ _ E) as D. unfold step_dispatch. rewrite Hp. destruct (dp_done d) as [c|] eqn:Hd.
  - destruct (do_channel _ _ _ D c Hd) as [Hz Hc]. rewrite Hp in Hc. simpl in Hc. rewrite Hc. eexists. split; [done|].
    eapply close_moves; try done.
    + lsp_moves. intros k Hk. rewrite list_lookup_insert_ne; [done|congruence].
    + intros k Hk. simplify_eq. apply list_lookup_insert_eq. by eapply lookup_lt_Some.
  - eexists. split; [done|]. eapply close_moves; try done; [lsp_moves|congruence].
Qed.

Lemma lsp_finish_step w i d choice : inv w → w_dispatches w !! i = Some d → dp_pc d = DFinish →
  ∃ w', step_dispatch i d choice w = Ret w' ∧ inv w'.
Proof.
  intros I E Hp. pose proof (iv_dispatches _ I _ _ E) as D. pose proof (do_pc _ _ _ D) as P. unfold pc_ok in P. rewrite Hp in P.
  assert (running d = true) as Hr by (unfold running; by rewrite Hp).
  pose proof (count_pos running _ _ _ E Hr) as Hpos. pose proof (running_insert w i d DDone E Hr) as C. simpl in C.
  pose proof (iv_wait _ I) as Hw. unfold step_dispatch. rewrite Hp. unfold wait_done.
  destruct (w_wait w <=? 0)%Z eqn:Hle; bools; [lia|]. simpl. eexists. split; [done|].
  set (w' := goto _ _ _ _). assert (moves w w' i d DDone [] []) as M by lsp_moves. eapply (inv_moves w w'); try done.
  - eapply dispatch_self; try done; try apply D; lsp_plain I D Hp. intros c Hc. simpl.
    destruct (do_channel _ _ _ D c Hc) as [_ Hch]. by rewrite Hp in Hch.
  - simpl. lia.
  - simpl. intros Hwo. apply orb_true_iff in Hwo as [Hwo|Hwo]; [by apply I|]. by bools.
  - simpl. intros Hm Hz. rewrite (bool_decide_true (w_main w = MBlocked)), (bool_decide_true (w_wait w = 1%Z)) by (done || lia).
    by rewrite orb_true_r.
  - apply I.
  - apply I.
Qed.

(** No step of a message panics, and it keeps the invariant. *)
Lemma dispatch_keeps w i d choice : inv w → w_dispatches w !! i = Some d →
  match step_dispatch i d choice w with Ret w' => inv w' | Panic _ => False | Block => True end.
Proof.
  intros I E. destruct (dp_pc d) eqn:Hp.
  7: { destruct (lsp_close_step w i d choice I E Hp) as (w' & -> & ?). done. }
  7: { destruct (lsp_finish_step w i d choice I E Hp) as (w' & -> & ?). done. }
  all: unfold step_dispatch; rewrite Hp; try done.
  - assert (match w_channels w !! dp_barrier d with
      | Some true => if bool_decide (rq_Method (dp_request d) = MethodExit) then
          inv (goto i d DRemove (set_main (w_main w) (w_outer w) true (log [Started i; Ended i None] w)))
          else inv (goto i d DHandle (set_stored (<[i:=dp_ctx d]> (w_stored w)) (log [Started i] w)))
      | _ => True end) as B.
    { destruct (w_channels w !! dp_barrier d) as [[]|] eqn:Hb; try done. destruct (bool_decide _) eqn:Hm; bools;
        [by apply select_exit|by apply select_ready]. }
    destruct choice; [destruct (ctx_err _ _) eqn:Hc; [by eapply select_cancelled|done]| |];
      (destruct (w_channels w !! dp_barrier d) as [[]|]; try done; by destruct (bool_decide _)).
  - destruct choice; try done. by apply handler_returns.
  - by apply check_step.
  - by apply reply_step.
  - by apply remove_step.
  - by apply lsp_cancel_step.
Qed.

(** ** Steps of the connection *)

(** A step that leaves the messages alone. *)
Record env_step (w w' : world) (es : list event) : Prop := {
  es_dispatches : w_dispatches w' = w_dispatches w;
  es_channels : w_channels w' = w_channels w;
  es_tail : w_tail w' = w_tail w;
  es_stored : w_stored w' = w_stored w;
  es_replies : w_replies w' = w_replies w;
  es_wait : w_wait w' = w_wait w;
  es_later : ctx_later w w';
  es_log : w_log w' = w_log w ++ es;
  es_events : ∀ e, e ∈ es → ∃ rq, e = Received rq
}.

Lemma inv_env w w' es : inv w → env_step w w' es →
  (w_woken w' = true → w_main w' = MBlocked) → (w_main w' = MBlocked → w_wait w = 0%Z → w_woken w' = true) →
  (∀ c x, w_contexts w' !! c = Some x → cx_err x ≠ None → dropped w' (Some c) ∨
    ∃ x0, w_contexts w !! c = Some x0 ∧ cx_err x0 ≠ None ∧ cx_owner x0 = cx_owner x) →
  (∀ id c, w_inFlight w' !! id = Some c → ∃ x, w_contexts w' !! c = Some x ∧ cx_id x = id) →
  match w_main w' with MSelect | MCancel _ => True | _ => w_ctx w' ≠ None end → requests_ok w' → inv w'.
Proof.
  intros I [E1 E2 E3 E4 E5 E6 E7 E8 E9] Hwo Hbl Hcx Hin Hov Hrd.
  pose proof I as [I1 I2 I3 I4 I5 I6 I7 I8 I9 I10 I11 I12 I13 I14 I15 I16].
  assert (dones w' = dones w) as Hd by (unfold dones; by rewrite E1).
  split; rewrite ?Hd, ?E1, ?E2, ?E3, ?E4, ?E5, ?E6; try done.
  - intros i d Hi. eapply (dispatch_frame w w' i d [] es []); rewrite ?app_nil_r; try done; [by apply I1| |by rewrite E2|by rewrite E4| |set_solver].
    + unfold dones. rewrite length_fmap. apply lookup_lt_Some in Hi. lia.
    + intros e He. by destruct (E9 e He) as (? & ->).
  - intros e i. rewrite E8. intros [He|He]%elem_of_app; [by apply I9|]. by destruct (E9 e He) as (? & ->).
  - intros i h. rewrite E8, !elem_of_app. intros [He|He]; [eauto|]. by destruct (E9 _ He) as (? & ?).
  - rewrite E8. clear -I12 E9. induction es as [|e es IH] using rev_ind; [by rewrite app_nil_r|].
    rewrite app_assoc. apply ordered_snoc; [apply IH; set_solver|]. intros i ->. destruct (E9 (Started i)) as (? & ?); [set_solver|done].
  - intros c x Hx Hne. destruct (Hcx _ _ Hx Hne) as [?|(x0 & Hx0 & Hne0 & Ho)]; [by left|].
    destruct (I13 _ _ Hx0 Hne0) as [?|?]; [left; by eapply dropped_later|right; by rewrite <-Ho].
Qed.

Lemma inFlight_later w w' : inv w → ctx_later w w' → ∀ id c, w_inFlight w !! id = Some c → ∃ x, w_contexts w' !! c = Some x ∧ cx_id x = id.
Proof.
  intros I [X _] id c Hc. destruct (iv_inFlight _ I _ _ Hc) as ([id' o err] & Hx & Hid). destruct (X _ _ _ _ Hx). by eexists.
Qed.

(** A step that leaves the requests alone, or ends a cancellation. *)
Lemma requests_env w w' : requests_ok w → env_step w w' [] → length (w_contexts w') = length (w_contexts w) → w_inFlight w' = w_inFlight w →
  w_reader w' = w_reader w ∨ (w_reader w' = RIdle ∧ pending (w_reader w) = []) → requests_ok w'.
Proof.
  intros Q S Hl Ei Hr. pose proof Q as [Q1 Q2 Q3 Q4 _]. destruct S as [E1 _ _ _ _ _ E7 E8 _].
  assert (pending (w_reader w') = pending (w_reader w)) as Ep by (destruct Hr as [->|[-> ->]]; done).
  pose proof (reader_later _ _ _ Q E7 E8) as R. rewrite app_nil_r in E8. split; rewrite ?E1, ?E8, ?Ei, ?Ep; try done.
  - intros c x Hx. destruct (owner_later _ _ _ _ E7 Hl Hx) as (x0 & Hx0 & <- & _). by eapply Q2.
  - intros rq c Hq. apply Q4. destruct Hr as [<-|[Hi _]]; [done|congruence].
  - destruct Hr as [->|[-> _]]; [|done]. by rewrite E8 in R.
Qed.

(** A step of the connection that keeps the contexts. *)
Lemma inv_quiet w w' : inv w → env_step w w' [] → w_contexts w' = w_contexts w → w_inFlight w' = w_inFlight w →
  (w_woken w' = true → w_main w' = MBlocked) → (w_main w' = MBlocked → w_wait w = 0%Z → w_woken w' = true) →
  match w_main w' with MSelect | MCancel _ => True | _ => w_ctx w' ≠ None end → w_reader w' = w_reader w → inv w'.
Proof.
  intros I S Ec Ei Hwo Hbl Hov Hr. pose proof (es_later _ _ _ S) as X. eapply (inv_env w w' []); try done.
  - intros c x Hx Hne. right. rewrite Ec in Hx. eauto.
  - rewrite Ei. by apply inFlight_later.
  - eapply requests_env; [apply I|done|by rewrite Ec|done|by left].
Qed.

Ltac lsp_env := split; simpl; rewrite ?app_nil_r; try done; try (by apply ctx_later_refl); try set_solver.

Lemma sole_log l es i id : sole (l ++ es) i id → sole l i id.
Proof. intros H j rq Hj. apply (H j rq). rewrite arrivals_app. by apply lookup_app_l_Some. Qed.

(** A message arrives: the requests that were there are kept. *)
Lemma requests_receive w w' rq : requests_ok w → w_reader w = RIdle → env_step w w' [Received rq] →
  pending (w_reader w') = arrivals [Received rq] →
  (∀ c x, w_contexts w' !! c = Some x → w_contexts w !! c = Some x ∨ (cx_owner x = length (w_dispatches w) ∧ arrivals [Received rq] ≠ [])) →
  (∀ id c, w_inFlight w !! id = Some c → w_inFlight w' !! id = Some c ∨ (id = rq_ID rq ∧ arrivals [Received rq] = [rq] ∧ rq_Notif rq = false)) →
  (∀ c, w_reader w' = REnqueue rq (Some c) → w_inFlight w' !! rq_ID rq = Some c) →
  match w_reader w' with
  | RIdle => True
  | RCancel c => ∃ x, w_contexts w' !! c = Some x ∧ asked (w_log w') (cx_owner x) (cx_id x)
  | REnqueue rq' c => rq' = rq ∧ rq_Notif rq = bool_decide (c = None) ∧
      ∀ k, c = Some k → ∃ err, w_contexts w' !! k = Some (mkContext (rq_ID rq) (length (w_dispatches w)) err)
  end → requests_ok w'.
Proof.
  intros [Q1 Q2 Q3 Q4 _] Hr S Hp Hcx Hin Hnew Hrd. destruct S as [E1 _ _ _ _ _ _ E8 _]. rewrite Hr in Q1. simpl in Q1. rewrite app_nil_r in Q1.
  assert (length (arrivals (w_log w)) = length (w_dispatches w)) as Hl by (by rewrite Q1, length_fmap).
  split; rewrite ?E1, ?E8, ?arrivals_app, ?Hp.
  - by rewrite Q1.
  - intros c x Hx. rewrite length_app, Hl. destruct (Hcx _ _ Hx) as [Hx0|[-> Hne]]; [pose proof (Q2 _ _ Hx0); lia|].
    destruct (arrivals [Received rq]); [done|]. simpl. lia.
  - intros i d c Hi Hc Hlist Hs. pose proof (Q3 _ _ _ Hi Hc Hlist (sole_log _ _ _ _ Hs)) as Hf.
    destruct (Hin _ _ Hf) as [?|(Hid & Ha & Hn)]; [done|]. exfalso. refine (Hs (length (w_dispatches w)) rq _ _ Hn (eq_sym Hid)).
    + rewrite arrivals_app, Ha, lookup_app_r, Hl, Nat.sub_diag by lia. done.
    + apply lookup_lt_Some in Hi. lia.
  - intros rq' c Hq _. rewrite Hq in Hrd. destruct Hrd as (-> & _). by apply Hnew.
  - rewrite E8 in Hrd. destruct (w_reader w') as [| |rq' c]; [done|done|]. by destruct Hrd as (-> & ?).
Qed.

(** A message that asks for a request in flight: the request it names is cancelled. *)
Lemma receive_cancel rq id c w : inv w → names rq id → w_inFlight w !! id = Some c →
  ∃ x, w_contexts w !! c = Some x ∧ cx_id x = id ∧ asked (w_log w ++ [Received rq]) (cx_owner x) (cx_id x).
Proof.
  intros I Hn Hc. destruct (iv_inFlight _ I _ _ Hc) as (x & Hx & <-). exists x. split_and!; [done..|].
  exists (w_log w), rq, []. split_and!; [done..|]. by eapply (ro_owner _ (iv_requests _ I)).
Qed.

Lemma inFlight_same w w' es : inv w → env_step w w' es → w_inFlight w' = w_inFlight w →
  ∀ id c, w_inFlight w' !! id = Some c → ∃ x, w_contexts w' !! c = Some x ∧ cx_id x = id.
Proof. intros I S ->. apply inFlight_later; [done|apply S]. Qed.

Lemma cancel_request_keeps rq w : inv w → w_reader w = RIdle → rq_Method rq = MethodCancelRequest → inv (log [Received rq] (cancel_request rq w)).
Proof.
  intros I Hr Hm. assert (arrivals [Received rq] = []) as Ha by (simpl; by rewrite bool_decide_true).
  set (w' := log _ _).
  assert (∃ r, w' = log [Received rq] (set_reader r w) ∧ pending r = [] ∧
    match r with RIdle => True | RCancel c => ∃ x, w_contexts w !! c = Some x ∧ asked (w_log w ++ [Received rq]) (cx_owner x) (cx_id x) | _ => False end)
    as (r & -> & Hp & Hrd).
  { assert (log [Received rq] w = log [Received rq] (set_reader RIdle w)) as Hsame by (destruct w; simpl in *; by subst).
    subst w'. unfold cancel_request. destruct (rq_Params rq) as [params|] eqn:Hps; [|by exists RIdle].
    destruct (cancelID params) as [id|] eqn:Hid; [|by exists RIdle]. destruct (w_inFlight w !! id) as [c|] eqn:Hc; [|by exists RIdle].
    exists (RCancel c). split_and!; [done..|]. destruct (receive_cancel rq id c w I) as (x & ? & _ & ?); [|done|by exists x].
    split; [done|]. by exists params. }
  set (w' := log _ _). assert (env_step w w' [Received rq]) as S by lsp_env.
  eapply (inv_env w w' [Received rq]); try done; try (by apply I).
  - intros c x Hx Hne. right. eauto.
  - eapply requests_receive; [apply I|done|done|by rewrite Ha|by left|by left| |]; simpl; by destruct r.
Qed.

Lemma receive_keeps rq w : inv w → w_reader w = RIdle → inv (log [Received rq] (receive rq w)).
Proof.
  intros I Hr. unfold receive. case_bool_decide as Hm; [by apply cancel_request_keeps|].
  assert (arrivals [Received rq] = [rq]) as Ha by (simpl; by rewrite bool_decide_false).
  destruct (rq_Notif rq) eqn:Hn; set (w' := log _ _).
  { assert (env_step w w' [Received rq]) as S by lsp_env. eapply (inv_env w w' [Received rq]); try done; try (by apply I); [eauto|].
    eapply requests_receive; [apply I|done|done|by rewrite Ha|by left|by left|done|done]. }
  assert (ctx_later w w') as X by (split; [intros c id o err Hc; exists err; by apply lookup_app_l_Some|done]).
  assert (w_contexts w' !! length (w_contexts w) = Some (mkContext (rq_ID rq) (length (w_dispatches w)) (w_ctx w))) as Hc
    by (by apply list_lookup_middle).
  assert (env_step w w' [Received rq]) as S by lsp_env.
  eapply (inv_env w w' [Received rq]); try done; try (by apply I).
  - intros c x [Hx|[-> ->]]%lookup_app_Some_or_last Hne; [right; eauto|left; left; exact Hne].
  - simpl. intros id c [[<- <-]|[_ Hid]]%lookup_insert_Some; [by eexists|]. by apply (inFlight_later w w').
  - eapply requests_receive; [apply I|done|done|by rewrite Ha|..].
    + intros c x [Hx|[-> ->]]%lookup_app_Some_or_last; [by left|right]. by rewrite Ha.
    + intros id c Hid. destruct (decide (id = rq_ID rq)) as [->|Hne]; [right; done|left]. simpl. by rewrite lookup_insert_ne.
    + intros c [= <-]. simpl. apply lookup_insert_eq.
    + split_and!; [done|by rewrite bool_decide_false|]. intros k [= <-]. by eexists.
Qed.

Lemma cancel_keeps c w : inv w → w_reader w = RCancel c → inv (set_reader RIdle (cancel_one c w)).
Proof.
  intros I Hr. set (w' := set_reader _ _). assert (ctx_later w w') as X by apply (later_cancel c w).
  assert (env_step w w' []) as S by lsp_env.
  eapply (inv_env w w' []); try done; try (by apply I); [|exact (inFlight_later w w' I X)|].
  - intros k x Hx Hne. destruct (alter_context _ _ _ _ Hx) as (x0 & Hx0 & Ho & Hk). destruct (decide (k = c)) as [->|Hne'].
    + left. apply (dropped_later w w' []); [done|simpl; by rewrite app_nil_r|]. right.
      pose proof (ro_reader _ (iv_requests _ I)) as R. rewrite Hr in R. destruct R as (x1 & Hx1 & Ha). by exists c, x1.
    + right. exists x0. rewrite Hk in Hne by done. by rewrite Hk.
  - eapply requests_env; [apply I|done|by apply length_alter|done|right]. by rewrite Hr.
Qed.

Lemma first_error_done err ctx : first_error err ctx ≠ None.
Proof. by destruct ctx. Qed.

Lemma connection_later err w : ctx_later w (cancel_connection err w).
Proof.
  split; [|intros _; apply first_error_done]. intros c id o e Hc. simpl. rewrite list_lookup_fmap, Hc. by eexists.
Qed.

(** The connection's context is done: every context may be. *)
Lemma inv_over w w' : inv w → env_step w w' [] → length (w_contexts w') = length (w_contexts w) → w_inFlight w' = w_inFlight w → w_reader w' = w_reader w → w_ctx w' ≠ None →
  (w_woken w' = true → w_main w' = MBlocked) → (w_main w' = MBlocked → w_wait w = 0%Z → w_woken w' = true) → inv w'.
Proof.
  intros I S Hl Ei Er Hc Hwo Hbl. pose proof (es_later _ _ _ S) as X. eapply (inv_env w w' []); try done.
  - intros c x _ _. left. by left.
  - rewrite Ei. by apply inFlight_later.
  - by destruct (w_main w').
  - eapply requests_env; [apply I|done|done|done|by left].
Qed.

Lemma cancelAll_later w : ctx_later w (cancelAll w).
Proof.
  split; [|done]. intros c id o err Hc. unfold cancelAll. simpl.
  apply (map_fold_weak_ind (λ contexts _, ∃ err', contexts !! c = Some (mkContext id o err'))); [eauto|].
  intros _ k m contexts _ (err' & Hk). by eapply (later_alter (cancel_with (ESentinel ContextCanceled)) contexts k).
Qed.

Lemma cancelAll_length w : length (w_contexts (cancelAll w)) = length (w_contexts w).
Proof.
  unfold cancelAll. simpl. apply (map_fold_weak_ind (λ contexts _, length contexts = length (w_contexts w))); [done|].
  intros _ k m contexts _ <-. apply length_alter.
Qed.

(** [runStream] panics only when a message arrives between the last dispatch that
    [Wait] waits for and the return of [Wait]. *)
Lemma main_keeps viaCtx w : inv w →
  match step_main viaCtx w with
  | Ret w' => inv w'
  | Panic m => m = "sync: WaitGroup is reused before previous Wait has returned" ∧ w_main w = MBlocked ∧ w_wait w ≠ 0%Z
  | Block => True
  end.
Proof.
  intros I. pose proof (iv_over _ I) as Hov. unfold step_main.
  assert (w_main w ≠ MBlocked → w_woken w ≠ true) as Hnw by (intros Hm Hw; by apply Hm, I).
  destruct (w_main w) eqn:Hm; try done.
  - destruct viaCtx; [destruct (w_outer w)|destruct (w_disconnected w)]; try done;
      (eapply (inv_quiet w); try done; try (by apply I); [lsp_env|simpl; intros; naive_solver]).
  - eapply (inv_over w); try done; [|apply length_fmap|apply first_error_done|simpl; intros; naive_solver].
    split; simpl; rewrite ?app_nil_r; try done; [|set_solver].
    apply connection_later.
  - eapply (inv_over w); try done; [|apply cancelAll_length|simpl; intros; naive_solver|by destruct close].
    split; simpl; rewrite ?app_nil_r; try done; [|set_solver]. apply cancelAll_later.
  - eapply (inv_over w); try done; [lsp_env|simpl; intros; naive_solver].
  - eapply (inv_over w); try done; [lsp_env|simpl; intros; naive_solver|]. simpl. case_bool_decide; naive_solver.
  - destruct (w_woken w) eqn:Hwo; [|done]. case_bool_decide as Hz; [|done]. eapply (inv_over w); try done. lsp_env.
Qed.

Lemma nearest_next ds done b : nearest ds (length ds) b →
  nearest (ds ++ [done]) (S (length ds)) (match done with Some c => c | None => b end).
Proof.
  intros N. destruct done as [c|].
  - right. exists (length ds). split_and!; [lia|by apply list_lookup_middle|lia].
  - destruct N as [[-> N]|(j & Hj & E & N)]; [left; split; [done|]|right; exists j; split_and!; [lia|by rewrite lookup_app_l by lia|]];
      intros m c Hm Hd; apply lookup_app_Some_or_last in Hd as [Hd|[_ ?]]; try done; apply lookup_lt_Some in Hd as Hlt; by eapply (N m c); [lia|].
Qed.

(** What [enqueue] does: the message is the last one, behind the tail. *)
Record enqueued (w w' : world) (d : dispatch) : Prop := {
  eq_dispatches : w_dispatches w' = w_dispatches w ++ [d];
  eq_log : w_log w' = w_log w;
  eq_replies : w_replies w' = w_replies w;
  eq_stored : w_stored w' = w_stored w;
  eq_contexts : w_contexts w' = w_contexts w;
  eq_ctx : w_ctx w' = w_ctx w;
  eq_main : w_main w' = w_main w;
  eq_woken : w_woken w' = w_woken w;
  eq_wait : w_wait w' = (w_wait w + 1)%Z;
  eq_inFlight : w_inFlight w' = w_inFlight w;
  eq_reader : w_reader w' = RIdle;
  eq_tail : w_tail w' = match dp_done d with Some c => c | None => w_tail w end;
  eq_channels : ∀ k, (k < length (w_channels w))%nat → w_channels w' !! k = w_channels w !! k;
  eq_new : ∀ k, dp_done d = Some k → k = length (w_channels w) ∧ w_channels w' !! k = Some false
}.

Lemma enqueue_enqueued rq c w :
  enqueued w (enqueue rq c w)
    (mkDispatch rq c (w_tail w) (if isLifecycleMethod (rq_Method rq) then Some (length (w_channels w)) else None) DSelect).
Proof.
  unfold enqueue. destruct (isLifecycleMethod _); split; simpl; try done.
  - intros k Hk. by rewrite lookup_app_l.
  - intros k [= <-]. split; [done|]. by apply list_lookup_middle.
Qed.

Lemma old_channel w i k : inv w → dones w !! i = Some (Some k) → (k < length (w_channels w))%nat.
Proof.
  intros I Hi. unfold dones in Hi. rewrite list_lookup_fmap in Hi. destruct (w_dispatches w !! i) as [di|] eqn:E; simplify_eq/=.
  destruct (do_channel _ _ _ (iv_dispatches _ I _ _ E) k) as [_ Hk]; [congruence|]. by apply lookup_lt_Some in Hk.
Qed.

Lemma no_events w i e : inv w → (length (w_dispatches w) ≤ i)%nat → e ∈ w_log w → subject e ≠ Some i.
Proof. intros I Hi He Hs. pose proof (iv_subjects _ I _ _ He Hs). lia. Qed.

(** The new message. *)
Lemma fresh_dispatch w w' d : inv w → enqueued w w' d → dp_pc d = DSelect → dp_barrier d = w_tail w →
  isLifecycleMethod (rq_Method (dp_request d)) = bool_decide (is_Some (dp_done d)) →
  rq_Notif (dp_request d) = bool_decide (dp_ctx d = None) →
  (∀ k, dp_ctx d = Some k → ∃ err, w_contexts w !! k = Some (mkContext (rq_ID (dp_request d)) (length (w_dispatches w)) err)) →
  dispatch_ok w' (length (w_dispatches w)) d.
Proof.
  intros I Q Hp Hb Hl Hn Hc. set (n := length (w_dispatches w)).
  pose proof (no_events w n) as Hno. assert (length (dones w) = n) as Hlen by apply length_fmap.
  assert (count (answers n) (w_replies w') = 0%nat) as Hans.
  { rewrite (eq_replies _ _ _ Q). rewrite <-(app_nil_l (w_replies w)), count_none; [done|]. intros [j r] Hr.
    apply bool_decide_false. intros [= ->]. pose proof (iv_replies _ I _ _ Hr). lia. }
  split; rewrite ?Hans, ?Hp; try done; rewrite ?(eq_log _ _ _ Q), ?(eq_stored _ _ _ Q), ?(eq_contexts _ _ _ Q); try done.
  - assert (dones w' = dones w ++ [dp_done d]) as -> by (unfold dones; by rewrite (eq_dispatches _ _ _ Q), fmap_app).
    rewrite Hb. apply nearest_app; [apply I|lia].
  - intros k Hk. destruct (eq_new _ _ _ Q k Hk) as [-> ?]. split; [|done]. pose proof (lookup_lt_Some _ _ _ (iv_zero _ I)). lia.
  - apply I. by apply lookup_ge_None.
  - intros Hs. by destruct (Hno _ I (le_n _) Hs).
  - rewrite <-(app_nil_l (w_log w)), count_none; [simpl; lia|]. intros e He. specialize (Hno _ I (le_n _) He).
    destruct e; try done. apply bool_decide_false. intros ->. done.
  - unfold pc_ok. rewrite Hp, (eq_log _ _ _ Q). intros e He. by apply Hno.
  - lia.
  - intros r. rewrite (eq_replies _ _ _ Q). intros Hr. pose proof (iv_replies _ I _ _ Hr). lia.
Qed.

Lemma requests_enqueue rq c w w' d : requests_ok w → w_reader w = REnqueue rq c → dp_request d = rq → dp_ctx d = c → dp_pc d = DSelect →
  enqueued w w' d → requests_ok w'.
Proof.
  intros [R1 R2 R3 R4 _] Hr Hq Hc Hp [Q1 Q2 _ _ Q5 _ _ _ _ Q10 Q11 _ _ _]. rewrite Hr in R1. split; rewrite ?Q1, ?Q2, ?Q5, ?Q10, ?Q11; try done.
  - rewrite R1, fmap_app. simpl. by rewrite app_nil_r, Hq.
  - intros i di k [Hi|[-> ->]]%lookup_app_Some_or_last Hk Hl Hs; [by apply (R3 i)|]. rewrite Hq in *. apply R4; [|done]. by rewrite Hr, <-Hc, Hk.
Qed.

Lemma enqueue_keeps rq c w : inv w → w_reader w = REnqueue rq c → inv (enqueue rq c w).
Proof.
  intros I Hr. pose proof (ro_reader _ (iv_requests _ I)) as R. rewrite Hr in R. destruct R as [Hn Hctx].
  pose proof (enqueue_enqueued rq c w) as Q. set (w' := enqueue rq c w) in *. set (d := mkDispatch _ _ _ _ _) in *.
  assert (dones w' = dones w ++ [dp_done d]) as Hd by (unfold dones; by rewrite (eq_dispatches _ _ _ Q), fmap_app).
  assert (length (dones w) = length (w_dispatches w)) as Hlen by apply length_fmap.
  assert (dispatch_ok w' (length (w_dispatches w)) d) as Hnew.
  { apply fresh_dispatch; try done. simpl. destruct (isLifecycleMethod _); [by rewrite bool_decide_true|by rewrite bool_decide_false by apply is_Some_None]. }
  pose proof I as [I1 I2 I3 I4 I5 I6 I7 I8 I9 I10 I11 I12 I13 I14 I15 I16].
  pose proof (requests_enqueue rq c w w' d I16 Hr eq_refl eq_refl eq_refl Q) as Hreq.
  destruct Q as [Q1 Q2 Q3 Q4 Q5 Q6 Q7 Q8 Q9 Q10 Q11 Q12 Q13 Q14].
  split; rewrite ?Q1, ?Q2, ?Q3, ?Q4, ?Q5, ?Q6, ?Q7, ?Q8, ?Q9, ?Q10, ?Q11, ?Q12, ?length_app; try done.
  - intros i di Hi. apply lookup_app_Some_or_last in Hi as [Hi|[-> ->]]; [|done].
    eapply (dispatch_frame w w' i di [dp_done d] [] []); rewrite ?app_nil_r, ?Q4; try done; [by apply I1| | |by apply ctx_later_refl|set_solver|set_solver].
    + rewrite Hlen. apply lookup_lt_Some in Hi. lia.
    + intros k Hk. apply Q13. apply (old_channel w i); [done|]. unfold dones. by rewrite list_lookup_fmap, Hi, <-Hk.
  - rewrite Hd. intros i j k Hi Hj. apply lookup_app_Some_or_last in Hi as [Hi|[-> Hi]], Hj as [Hj|[-> Hj]]; [by eapply I2| | |done].
    + pose proof (old_channel _ _ _ I Hi). destruct (Q14 k (eq_sym Hj)). lia.
    + pose proof (old_channel _ _ _ I Hj). destruct (Q14 k (eq_sym Hi)). lia.
  - rewrite Hd. rewrite Nat.add_comm. rewrite <-Hlen. apply nearest_next. by rewrite Hlen.
  - rewrite Q13; [done|]. by eapply lookup_lt_Some.
  - intros i Hi. apply I5. apply lookup_ge_None. apply lookup_ge_None in Hi. rewrite length_app in Hi. lia.
  - rewrite count_app. simpl. lia.
  - intros Hm Hz. lia.
  - intros e i He Hs. pose proof (I9 _ _ He Hs). simpl. lia.
  - intros i r Hi. pose proof (I10 _ _ Hi). simpl. lia.
  - rewrite Hd. apply ordered_app; [done|]. by rewrite Hlen.
  - intros k x Hx Hne. destruct (I13 _ _ Hx Hne) as [D|(dx & Hdx & ?)]; [left|right; exists dx; split; [by apply lookup_app_l_Some|done]].
    unfold dropped in *. by rewrite Q2, Q5, Q6.
Qed.

(** Every action keeps the invariant; only [runStream] can panic. *)
Lemma lsp_act_keeps a w : inv w →
  match act a w with
  | Ret w' => inv w'
  | Panic m => m = "sync: WaitGroup is reused before previous Wait has returned" ∧ w_main w = MBlocked ∧ w_wait w ≠ 0%Z
  | Block => True
  end.
Proof.
  intros I. destruct a as [rq| |i choice|viaCtx|err|]; simpl.
  - destruct (w_reader w) eqn:Hr; try done. by apply receive_keeps.
  - destruct (w_reader w) eqn:Hr; try done; [by apply cancel_keeps|by apply enqueue_keeps].
  - destruct (w_dispatches w !! i) as [d|] eqn:E; [|done]. pose proof (dispatch_keeps w i d choice I E) as K.
    by destruct (step_dispatch _ _ _ _).
  - by apply main_keeps.
  - eapply (inv_over w); try done; try (by apply I); [|apply length_fmap|apply first_error_done].
    split; simpl; rewrite ?app_nil_r; try done; [apply connection_later|set_solver].
  - eapply (inv_quiet w); try done; try (by apply I). lsp_env.
Qed.

Lemma lsp_schedule_inv actions w : inv w →
  match schedule actions w with
  | Ret w' => inv w'
  | Panic m => m = "sync: WaitGroup is reused before previous Wait has returned" ∧
      ∃ before a after w', actions = before ++ a :: after ∧ schedule before w = Ret w' ∧ act a w' = Panic m ∧
        w_main w' = MBlocked ∧ w_wait w' ≠ 0%Z
  | Block => False
  end.
Proof.
  revert w. induction actions as [|a actions IH]; intros w I; simpl; [done|].
  pose proof (lsp_act_keeps a w I) as K. unfold attempt. destruct (act a w) as [w1|m|] eqn:Ha; simpl.
  - specialize (IH _ K). destruct (schedule actions w1) as [w2|m|]; try done.
    destruct IH as (? & before & b & after & w' & -> & Hb & Hact & ? & ?). split; [done|]. exists (a :: before), b, after, w'. split_and!; try done.
    simpl. unfold attempt. by rewrite Ha.
  - destruct K as (-> & ? & ?). split; [done|]. by exists [], a, actions, w.
  - specialize (IH _ I). destruct (schedule actions w) as [w2|m|]; try done.
    destruct IH as (? & before & b & after & w' & -> & Hb & Hact & ? & ?). split; [done|]. exists (a :: before), b, after, w'. split_and!; try done.
    simpl. unfold attempt. by rewrite Ha.
Qed.

(** ** Progress *)

(** The steps that are left to a message. *)
Definition weight (d : dispatch) : nat :=
  match dp_pc d with
  | DSelect => 8 | DHandle => 7 | DCheck _ => 6 | DReply _ => 5 | DRemove => 4 | DCancel => 3 | DClose => 2 | DFinish => 1 | DDone => 0
  end.

Definition work (w : world) : nat := sum_list_with weight (w_dispatches w).

Lemma dispatch_lighter i d choice w w' : step_dispatch i d choice w = Ret w' →
  ∃ p, w_dispatches w' = <[i:=at_pc p d]> (w_dispatches w) ∧ (weight (at_pc p d) < weight d)%nat ∧ w_main w' = w_main w.
Proof.
  unfold step_dispatch, wait_done, mbind, outcome_bind, weight. intros E. destruct (dp_pc d) eqn:Hp; try done;
    repeat (case_match; simplify_eq/=; try done);
    (eexists; split; [reflexivity|split; [simpl; repeat case_match; simplify_eq/=; lia|done]]).
Qed.

Lemma ready_steps w i d h : w_dispatches w !! i = Some d → dp_pc d = DSelect → w_channels w !! dp_barrier d = Some true →
  ∃ w', step_dispatch i d (Returns h) w = Ret w'.
Proof. intros E Hp Hb. unfold step_dispatch. rewrite Hp, Hb. case_bool_decide; eauto. Qed.

(** While a message is not finished, one of those up to it can proceed. *)
Lemma lsp_progress w h i d : inv w → w_dispatches w !! i = Some d → running d = true →
  ∃ j dj w', w_dispatches w !! j = Some dj ∧ step_dispatch j dj (Returns h) w = Ret w'.
Proof.
  intros I. revert d. induction i as [i IH] using lt_wf_ind. intros d E Hr. pose proof (iv_dispatches _ I _ _ E) as D.
  destruct (dp_pc d) eqn:Hp.
  1: { destruct (do_nearest _ _ _ D) as [[Hb _]|(j & Hj & Hd & _)].
    + destruct (ready_steps w i d h E Hp) as (w' & ?); [rewrite Hb; apply I|]. eauto.
    + unfold dones in Hd. rewrite list_lookup_fmap in Hd. destruct (w_dispatches w !! j) as [dj|] eqn:Ej; simplify_eq/=.
      destruct (running dj) eqn:Hrj; [by eapply IH|]. destruct (do_channel _ _ _ (iv_dispatches _ I _ _ Ej) (dp_barrier d)) as [_ Hc]; [congruence|].
      destruct (ready_steps w i d h E Hp) as (w' & ?); [|eauto]. rewrite Hc. unfold running in Hrj. by destruct (dp_pc dj). }
  all: exists i, d.
  6: { destruct (lsp_close_step w i d (Returns h) I E Hp) as (w' & ? & _). eauto. }
  6: { destruct (lsp_finish_step w i d (Returns h) I E Hp) as (w' & ? & _). eauto. }
  6: { unfold running in Hr. by rewrite Hp in Hr. }
  all: unfold step_dispatch; rewrite Hp; eauto.
Qed.

Lemma work_insert w w' i d p : w_dispatches w !! i = Some d → w_dispatches w' = <[i:=at_pc p d]> (w_dispatches w) →
  (weight (at_pc p d) < weight d)%nat → (work w' < work w)%nat.
Proof.
  unfold work. intros E -> Hw. revert i E. induction (w_dispatches w) as [|x l IH]; intros [|i] E; simpl in *; simplify_eq; [lia|].
  specialize (IH i E). lia.
Qed.

Lemma work_bound w : (work w ≤ 8 * length (w_dispatches w))%nat.
Proof.
  unfold work. induction (w_dispatches w) as [|x l IH]; simpl; [lia|]. assert (weight x ≤ 8)%nat by (unfold weight; destruct (dp_pc x); lia). lia.
Qed.

Definition is_dispatch (a : action) : Prop := match a with ADispatch _ _ => True | _ => False end.

Lemma lsp_drains (h : answer) n w : inv w → (work w ≤ n)%nat →
  ∃ more w', Forall is_dispatch more ∧ (length more ≤ n)%nat ∧ schedule more w = Ret w' ∧ inv w' ∧
    (∀ d, d ∈ w_dispatches w' → dp_pc d = DDone) ∧ length (w_dispatches w') = length (w_dispatches w) ∧ w_main w' = w_main w.
Proof.
  revert w. induction n as [n IH] using lt_wf_ind. intros w I Hn. destruct (count running (w_dispatches w)) eqn:Hc.
  - exists [], w. split_and!; try done; [simpl; lia|]. intros d Hd. apply list_elem_of_lookup in Hd as (i & Hi).
    destruct (running d) eqn:Hr; [pose proof (count_pos _ _ _ _ Hi Hr); lia|]. unfold running in Hr. by destruct (dp_pc d).
  - destruct (count_witness running (w_dispatches w)) as (i & d & Hi & Hr); [lia|].
    destruct (lsp_progress w h i d I Hi Hr) as (j & dj & w1 & Hj & Hs). destruct (dispatch_lighter _ _ _ _ _ Hs) as (p & Ep & Hlt & Em).
    pose proof (dispatch_keeps w j dj (Returns h) I Hj) as K. rewrite Hs in K. pose proof (work_insert _ _ _ _ _ Hj Ep Hlt) as Hw.
    destruct (IH (work w1) ltac:(lia) w1 K (le_n _)) as (more & w' & Hf & Hlen & Hsch & I' & Hdone & Hl & Hm).
    exists (ADispatch j (Returns h) :: more), w'. split_and!; try done; [by constructor|simpl; lia| | |congruence].
    + simpl. unfold attempt. simpl. by rewrite Hj, Hs.
    + by rewrite Hl, Ep, length_insert.
Qed.

(** ** Claims *)

(** The messages of a world that are lifecycle messages. *)
Definition lifecycle (w : world) (i : nat) : Prop :=
  ∃ d, w_dispatches w !! i = Some d ∧ isLifecycleMethod (rq_Method (dp_request d)) = true.

Lemma lifecycle_done w i : inv w → lifecycle w i → ∃ c, dones w !! i = Some (Some c).
Proof.
  intros I (d & E & Hl). rewrite (do_lifecycle _ _ _ (iv_dispatches _ I _ _ E)) in Hl. bools. destruct Hl as [c Hc].
  exists c. unfold dones. by rewrite list_lookup_fmap, E, <-Hc.
Qed.

Lemma done_lifecycle w i c : inv w → dones w !! i = Some (Some c) → lifecycle w i.
Proof.
  intros I Hd. unfold dones in Hd. rewrite list_lookup_fmap in Hd. destruct (w_dispatches w !! i) as [d|] eqn:E; simplify_eq/=.
  exists d. split; [done|]. rewrite (do_lifecycle _ _ _ (iv_dispatches _ I _ _ E)). apply bool_decide_true. by exists c.
Qed.

(** The client asked for the [i]-th message: it is a request, and a cancel message
    that names its id arrived after it. *)
Definition client_cancelled (w : world) (i : nat) (rq : request) : Prop :=
  rq_Notif rq = false ∧ asked (w_log w) i (rq_ID rq).

Lemma dropped_asked w i d : inv w → w_dispatches w !! i = Some d → dropped w (dp_ctx d) → w_ctx w ≠ None ∨ client_cancelled w i (dp_request d).
Proof.
  intros I E [?|(k & x & Hk & Hx & Ha)]; [by left|right]. pose proof (iv_dispatches _ I _ _ E) as D. split.
  - by rewrite (do_notif _ _ _ D), Hk.
  - destruct (do_ctx _ _ _ D k Hk) as (err & Hx'). rewrite Hx in Hx'. by simplify_eq.
Qed.

(** C24. Lifecycle messages are barriers: however messages, cancellations, handlers
    and the end of the connection interleave, the messages that arrived, cancel
    messages apart, are dispatched in the order of arrival, one at most being still
    with the reader, and a handler starts only after every lifecycle message that
    arrived before it has been handled, unless one of those in between was dropped
    while it waited; a message is dropped only when the connection is over or it is a
    request whose id a cancel message named after it had arrived; no handler is
    started twice.  The one panic there is comes from [Wait] in [runStream]: a message
    that arrives after the last dispatch finished and before [Wait] returned. *)
Theorem lsp_lifecycle_order actions :
  match schedule actions newRPCHandler with
  | Ret w =>
      arrivals (w_log w) = (dp_request <$> w_dispatches w) ++ pending (w_reader w) ∧
      (∀ before i after j, w_log w = before ++ Started i :: after → (j < i)%nat → lifecycle w j →
        (∃ h, Ended j h ∈ before) ∨ ∃ m, (j ≤ m < i)%nat ∧ lifecycle w m ∧ Skipped m ∈ before) ∧
      (∀ i d, w_dispatches w !! i = Some d → (count (starts i) (w_log w) ≤ 1)%nat ∧
        (Skipped i ∈ w_log w → w_ctx w ≠ None ∨ client_cancelled w i (dp_request d)))
  | Panic m => m = "sync: WaitGroup is reused before previous Wait has returned" ∧
      ∃ before a after w, actions = before ++ a :: after ∧ schedule before newRPCHandler = Ret w ∧ act a w = Panic m ∧
        w_main w = MBlocked ∧ w_wait w ≠ 0%Z
  | Block => False
  end.
Proof.
  pose proof (lsp_schedule_inv actions _ lsp_inv_initial) as I. destruct (schedule actions newRPCHandler) as [w| |]; [|done..]. split_and!.
  - apply (iv_requests _ I).
  - intros before i after j El Hj Hl. destruct (lifecycle_done _ _ I Hl) as (c & Hc).
    destruct (iv_ordered _ I _ _ _ El j c Hj Hc) as [?|(m & c' & Hm & Hd & ?)]; [by left|right].
    exists m. split_and!; [lia..|by eapply done_lifecycle|done].
  - intros i d E. pose proof (iv_dispatches _ I _ _ E) as D. split; [apply D|]. intros Hs. by eapply dropped_asked, D.
Qed.

(** The reply that what a handler returned calls for, its own cancellation first. *)
Definition reply_for (h : answer) (r : reply) : Prop :=
  match r with
  | RResult result => an_validMethod h = true ∧ an_validParams h = true ∧ an_err h = None ∧ result = an_result h
  | RError code message =>
      if bool_decide (code = (-32800)%Z) then is_err (an_err h) ContextCanceled = true
      else is_err (an_err h) ContextCanceled = false ∧
        (code = (-32601)%Z ∧ an_validMethod h = false ∨
         code = (-32602)%Z ∧ an_validMethod h = true ∧ an_validParams h = false ∨
         code = (-32603)%Z ∧ an_validMethod h = true ∧ an_validParams h = true ∧ ∃ err, an_err h = Some err ∧ message = error_text err)
  end.

Lemma classify_reply h : reply_for h (classify None h).
Proof.
  unfold classify. simpl. destruct (is_err (an_err h) ContextCanceled) eqn:Hc; [done|].
  destruct (an_validMethod h) eqn:Hm; simpl; [|by split; [|left]].
  destruct (an_validParams h) eqn:Hp; simpl; [|by split; [|right; left]].
  destruct (an_err h) as [err|] eqn:He; simpl; [|done]. rewrite He. split; [done|]. right. right. split_and!; [done..|]. by exists err.
Qed.

(** A cancel message that names a request whose id it alone has. *)
Lemma cancel_reaches w i d c rq : inv w → w_reader w = RIdle → w_dispatches w !! i = Some d → dp_ctx d = Some c → listed (dp_pc d) = true →
  sole (w_log w) i (rq_ID (dp_request d)) → names rq (rq_ID (dp_request d)) →
  ∃ w1 w2, act (AReceive rq) w = Ret w1 ∧ act AReader w1 = Ret w2 ∧ ctx_err (Some c) w2 ≠ None ∧
    (∀ k, k ≠ c → w_contexts w2 !! k = w_contexts w !! k) ∧ w_ctx w2 = w_ctx w ∧ w_dispatches w2 = w_dispatches w ∧ w_reader w2 = RIdle.
Proof.
  intros I Hr E Hc Hl Hs (Hm & params & Hps & Hid). pose proof (ro_found _ (iv_requests _ I) _ _ _ E Hc Hl Hs) as Hf.
  destruct (do_ctx _ _ _ (iv_dispatches _ I _ _ E) c Hc) as (err & Hx).
  unfold act at 1. rewrite Hr. unfold receive. rewrite bool_decide_true by done. unfold cancel_request. rewrite Hps, Hid, Hf.
  do 2 eexists. split; [done|]. split; [done|]. split_and!; try done; simpl.
  - rewrite list_lookup_alter_eq, Hx. simpl. by destruct err.
  - intros k Hk. by rewrite list_lookup_alter_ne.
Qed.

(** C25. Every request that is finished has been answered exactly once, [exit]
    apart, and no notification is.  The answer is the one its handler's result calls
    for (the cancellation the handler reports, then an unknown method, invalid
    parameters, the text of its error, and its result), or a cancellation, which the
    end of the connection caused or a cancel message that named the id of the request
    after it had arrived.  A cancel message that arrives while the request it names is
    not yet removed, where no other request of the connection has that id, cancels the
    context of that request and of no other; and a handler runs with the context of
    its own request. *)
Theorem lsp_replies_once actions w : schedule actions newRPCHandler = Ret w →
  ∀ i d, w_dispatches w !! i = Some d →
    (rq_Notif (dp_request d) = true → count (answers i) (w_replies w) = 0%nat) ∧
    (dp_pc d = DDone → rq_Notif (dp_request d) = false → rq_Method (dp_request d) ≠ MethodExit → count (answers i) (w_replies w) = 1%nat) ∧
    (∀ r, (i, r) ∈ w_replies w →
      (∃ h, Ended i (Some h) ∈ w_log w ∧ reply_for h r) ∨
      (r = RError (-32800) "request cancelled" ∧ (w_ctx w ≠ None ∨ client_cancelled w i (dp_request d)))) ∧
    (dp_pc d = DHandle → operationContext i w = ctx_err (dp_ctx d) w) ∧
    (∀ c rq, w_reader w = RIdle → dp_ctx d = Some c → listed (dp_pc d) = true → sole (w_log w) i (rq_ID (dp_request d)) →
      names rq (rq_ID (dp_request d)) →
      ∃ w1 w2, act (AReceive rq) w = Ret w1 ∧ act AReader w1 = Ret w2 ∧ ctx_err (Some c) w2 ≠ None ∧
        (∀ k, k ≠ c → w_contexts w2 !! k = w_contexts w !! k) ∧ w_ctx w2 = w_ctx w ∧ w_dispatches w2 = w_dispatches w ∧ w_reader w2 = RIdle).
Proof.
  intros Hs i d E. pose proof (lsp_schedule_inv actions _ lsp_inv_initial) as I. rewrite Hs in I.
  pose proof (iv_dispatches _ I _ _ E) as D. split_and!.
  - intros Hn. apply D. by right.
  - intros Hp. apply D. by rewrite Hp.
  - intros r Hr. destruct (do_replies _ _ _ D r Hr) as [(h & Hh & ->)|[-> Hd]]; [left|right].
    + exists h. split; [done|]. apply classify_reply.
    + split; [done|]. by apply dropped_asked.
  - intros Hp. unfold operationContext. by rewrite (do_stored _ _ _ D), Hp.
  - intros c rq Hr Hc Hl Hso Hn. by apply (cancel_reaches w i d c rq).
Qed.

(** No barrier deadlocks: from every state, when handlers return, eight steps
    for each message finish them all, and then the wait of [runStream] ends. *)
Theorem lsp_connection_ends actions w (h : answer) : schedule actions newRPCHandler = Ret w →
  ∃ more w', Forall is_dispatch more ∧ (length more ≤ 8 * length (w_dispatches w))%nat ∧ schedule more w = Ret w' ∧
    (∀ d, d ∈ w_dispatches w' → dp_pc d = DDone) ∧ w_wait w' = 0%Z ∧
    (w_main w = MWait ∨ w_main w = MBlocked → ∃ w'', act (AMain false) w' = Ret w'' ∧ w_main w'' = MReturned).
Proof.
  intros Hs. pose proof (lsp_schedule_inv actions _ lsp_inv_initial) as I. rewrite Hs in I.
  destruct (lsp_drains h _ w I (work_bound w)) as (more & w' & Hf & Hlen & Hsch & I' & Hdone & Hl & Hm).
  assert (w_wait w' = 0%Z) as Hz.
  { rewrite (iv_wait _ I'). destruct (count running (w_dispatches w')) eqn:Hc; [done|].
    destruct (count_witness running (w_dispatches w')) as (i & d & Hi & Hr); [lia|].
    unfold running in Hr. rewrite (Hdone d) in Hr; [done|]. by eapply list_elem_of_lookup_2. }
  exists more, w'. split_and!; try done. intros Hmain. simpl. unfold step_main. rewrite Hm.
  destruct Hmain as [Hw|Hw]; rewrite Hw, Hz.
  - eexists. split; [done|]. done.
  - rewrite (iv_blocked _ I'); [|congruence|done]. eexists. split; [done|]. done.
Qed.

End handler.

(** ** A connection *)

Definition decode_id (params : string) : option ID := Some (inl params).

Definition plain_answer : answer := mkAnswer "null" true true None.

Definition notification (method : string) : request := mkRequest method (inr 0%Z) true None.

(** A document is opened, its hover is requested and both are handled. *)
Definition conversation : list action :=
  [AReceive (notification "textDocument/didOpen"); AReader; AReceive (mkRequest "textDocument/hover" (inl "1") false None); AReader;
   ADispatch 1 Ready; ADispatch 0 Ready; ADispatch 0 (Returns plain_answer); ADispatch 0 Ready; ADispatch 0 Ready; ADispatch 0 Ready;
   ADispatch 0 Ready; ADispatch 0 Ready; ADispatch 1 Ready; ADispatch 1 (Returns plain_answer); ADispatch 1 Ready; ADispatch 1 Ready].

(** The hover is requested, and waits for the document; then the client cancels it. *)
Definition waiting_hover : list action :=
  [AReceive (notification "textDocument/didOpen"); AReader; AReceive (mkRequest "textDocument/hover" (inl "1") false None); AReader].

Definition cancel_message (id : string) : request := mkRequest MethodCancelRequest (inr 0%Z) true (Some id).

Definition waiting_world : world :=
  match schedule decode_id waiting_hover newRPCHandler with Ret w => w | _ => newRPCHandler end.

Definition hover : dispatch :=
  mkDispatch (mkRequest "textDocument/hover" (inl "1") false None) (Some 0%nat) 1 None DSelect.

Lemma lsp_replies_once_witness :
  ∃ w1 w2, act decode_id (AReceive (cancel_message "1")) waiting_world = Ret w1 ∧ act decode_id AReader w1 = Ret w2 ∧
    ctx_err (Some 0%nat) w2 ≠ None.
Proof.
  assert (schedule decode_id waiting_hover newRPCHandler = Ret waiting_world) as E by (vm_compute; reflexivity).
  assert (w_dispatches waiting_world !! 1%nat = Some hover) as Hd by (vm_compute; reflexivity).
  destruct (lsp_replies_once decode_id waiting_hover waiting_world E 1%nat hover Hd) as (_ & _ & _ & _ & H).
  destruct (H 0%nat (cancel_message "1")) as (w1 & w2 & H1 & H2 & H3 & _).
  - vm_compute. reflexivity.
  - reflexivity.
  - reflexivity.
  - intros [|[|j]] rq Hj Hne Hn; [vm_compute in Hj; injection Hj as <-; discriminate Hn|by destruct Hne|vm_compute in Hj; discriminate Hj].
  - split; [reflexivity|]. by exists "1".
  - exists w1, w2. split; [exact H1|]. split; [exact H2|exact H3].
Defined.

Lemma lsp_connection_ends_witness :
  ∃ w, schedule decode_id conversation newRPCHandler = Ret w ∧
    ∃ more w', Forall is_dispatch more ∧ (length more ≤ 8 * length (w_dispatches w))%nat ∧ schedule decode_id more w = Ret w' ∧ w_wait w' = 0%Z.
Proof.
  destruct (schedule decode_id conversation newRPCHandler) as [w| |] eqn:E; [|vm_compute in E; discriminate E..].
  exists w. split; [done|].
  destruct (lsp_connection_ends decode_id conversation w plain_answer E) as (more & w' & Hf & Hl & Hs & _ & Hz & _).
  exists more, w'. split; [exact Hf|]. split; [exact Hl|]. split; [exact Hs|exact Hz].
Defined.

(** A cancelled [shutdown] that waits behind a [didOpen] releases its barrier: the
    [didClose] that follows is handled while the [didOpen] is still running. *)
Definition overtaking : list action :=
  [AReceive (notification "textDocument/didOpen"); AReader; AReceive (mkRequest "shutdown" (inl "1") false None); AReader;
   AReceive (notification "textDocument/didClose"); AReader; ADispatch 0 Ready;
   AReceive (mkRequest MethodCancelRequest (inr 0%Z) true (Some "1")); AReader;
   ADispatch 1 Cancelled; ADispatch 1 Ready; ADispatch 1 Ready; ADispatch 1 Ready; ADispatch 1 Ready; ADispatch 2 Ready;
   ADispatch 2 (Returns plain_answer); ADispatch 0 (Returns plain_answer)].

Example lifecycle_overtaken :
  match schedule decode_id overtaking newRPCHandler with
  | Ret w => filter (λ e, is_Some (subject e)) (w_log w)
  | _ => []
  end = [Started 0; Skipped 1; Started 2; Ended 2 (Some plain_answer); Ended 0 (Some plain_answer)].
Proof. vm_compute. reflexivity. Qed.

(** A message that arrives between the last dispatch and the return of [Wait]. *)
Definition late_message : list action :=
  [AReceive (notification "textDocument/didOpen"); AReader; AExpire (ESentinel ContextCanceled); AMain true; AMain true; AMain true;
   AMain true; AMain true; AReceive (notification "textDocument/didClose"); ADispatch 0 Cancelled; ADispatch 0 Ready; ADispatch 0 Ready;
   ADispatch 0 Ready; ADispatch 0 Ready; ADispatch 0 Ready; AReader; AMain true].

Example wait_reused :
  schedule decode_id late_message newRPCHandler = Panic "sync: WaitGroup is reused before previous Wait has returned".
Proof. vm_compute. reflexivity. Qed.
