(* ===== verification/SemanticTokens.v ===== *)
(** * Semantic tokens

    [internal/language/semantic_tokens.go] and [semantic_token_build.go], the
    legend and the encoding of [internal/lsp/semantic_tokens.go] and
    [language_conversion.go]: the compiler's spans are merged, sorted, cut into
    pieces of one line and encoded as differences of 32-bit integers.  What the
    compiler's analysis holds is given; [runtime.NamespaceSeparator] is a
    parameter. *)

From stdpp Require Import sorting.
From S2P Require Import Prelude Source.
Local Open Scope Z_scope.

(** ** The compiler's analysis *)

Inductive SymbolKind :=
| SymbolKindUDF
| SymbolKindNamespaceAlias
| SymbolKindFunctionParameter
| SymbolKindBindParameter
| SymbolKindLoopBinding
| SymbolKindMatchBinding
| SymbolKindCollectBinding
| SymbolKindOther.

Inductive SyntaxTokenKind :=
| SyntaxTokenKindNamespace
| SyntaxTokenKindKeyword
| SyntaxTokenKindString
| SyntaxTokenKindNumber
| SyntaxTokenKindDuration
| SyntaxTokenKindComment
| SyntaxTokenKindOperator
| SyntaxTokenKindOther.

Record Symbol := mkSymbol {
  sy_ID : Z;
  sy_HasDeclaration : bool;
  sy_Mutable : bool;
  sy_Kind : SymbolKind;
  sy_SelectionSpan : Span
}.

Record Analysis := mkAnalysis {
  an_Symbols : list Symbol;
  an_References : list (Z * Span);
  an_Calls : list Span;
  an_SyntaxTokens : list (SyntaxTokenKind * Span)
}.

(** ** Tokens *)

Inductive SemanticTokenKind :=
| SemanticTokenUnknown
| SemanticTokenNamespace
| SemanticTokenFunction
| SemanticTokenVariable
| SemanticTokenParameter
| SemanticTokenKeyword
| SemanticTokenString
| SemanticTokenNumber
| SemanticTokenComment
| SemanticTokenOperator.

Global Instance SemanticTokenKind_eq_dec : EqDecision SemanticTokenKind.
Proof. solve_decision. Defined.

Definition SemanticTokenDeclaration : Z := 1.
Definition SemanticTokenReadonly : Z := 2.

Record SemanticToken := mkToken {
  tk_Range : Range;
  tk_Kind : SemanticTokenKind;
  tk_Modifiers : Z
}.

(** [semanticPriority]. *)
Definition semanticPrioritySyntax : Z := 0.
Definition semanticPriorityCall : Z := 1.
Definition semanticPriorityReference : Z := 2.
Definition semanticPriorityDeclaration : Z := 3.

Record semanticSpan := mkSemantic {
  ss_span : Span;
  ss_kind : SemanticTokenKind;
  ss_modifiers : Z;
  ss_priority : Z
}.

Definition semanticKindForSymbol (kind : SymbolKind) : SemanticTokenKind :=
  match kind with
  | SymbolKindUDF => SemanticTokenFunction
  | SymbolKindNamespaceAlias => SemanticTokenNamespace
  | SymbolKindFunctionParameter | SymbolKindBindParameter => SemanticTokenParameter
  | _ => SemanticTokenVariable
  end.

Definition semanticKindForSyntax (kind : SyntaxTokenKind) : option SemanticTokenKind :=
  match kind with
  | SyntaxTokenKindNamespace => Some SemanticTokenNamespace
  | SyntaxTokenKindKeyword => Some SemanticTokenKeyword
  | SyntaxTokenKindString => Some SemanticTokenString
  | SyntaxTokenKindNumber | SyntaxTokenKindDuration => Some SemanticTokenNumber
  | SyntaxTokenKindComment => Some SemanticTokenComment
  | SyntaxTokenKindOperator => Some SemanticTokenOperator
  | SyntaxTokenKindOther => None
  end.

Definition overlapsAny (span : Span) (values : list semanticSpan) : bool :=
  existsb (λ value, (SpanStart span <? SpanEnd (ss_span value)) && (SpanStart (ss_span value) <? SpanEnd span)) values.

(** [strings.LastIndex]. *)
Definition LastIndex (s separator : list Z) : option nat :=
  last (filter (λ i, take (length separator) (drop i s) = separator) (seq 0 (S (length s)))).

(** [sort.SliceStable] with the comparison of [SemanticTokens]. *)
Definition less (a b : semanticSpan) : bool :=
  if bool_decide (SpanStart (ss_span a) ≠ SpanStart (ss_span b)) then SpanStart (ss_span a) <? SpanStart (ss_span b)
  else if bool_decide (ss_priority a ≠ ss_priority b) then ss_priority b <? ss_priority a
  else SpanEnd (ss_span a) <? SpanEnd (ss_span b).

Fixpoint insert_stable (x : semanticSpan) (l : list semanticSpan) : list semanticSpan :=
  match l with
  | [] => [x]
  | y :: l => if less x y then x :: y :: l else y :: insert_stable x l
  end.

Definition SliceStable (l : list semanticSpan) : list semanticSpan := foldl (λ sorted x, insert_stable x sorted) [] l.

(** The loop of [splitSemanticSpan]: the byte spans of the pieces. *)
Fixpoint split_loop (fuel : nat) (text : list Z) (offset end_ segmentStart : nat) : list (nat * nat) :=
  let final := if (segmentStart <? end_)%nat then [(segmentStart, end_)] else [] in
  match fuel with
  | O => final
  | S fuel =>
      if (offset <? end_)%nat then
        let '(r, size) := DecodeRuneInString (slice text offset end_) in
        if negb (r =? 13) && negb (r =? 10) && negb (r =? 8232) && negb (r =? 8233) then
          split_loop fuel text (offset + size)%nat end_ segmentStart
        else
          let piece := if (segmentStart <? offset)%nat then [(segmentStart, offset)] else [] in
          let offset := (offset + size)%nat in
          let offset := if (r =? 13) && (offset <? end_)%nat && bool_decide (text !! offset = Some 10) then (offset + 1)%nat else offset in
          piece ++ split_loop fuel text offset end_ offset
      else final
  end.

Definition split_pieces (text : list Z) (span : Span) : list (nat * nat) :=
  let start := Z.to_nat (SpanStart span) in
  let end_ := Z.to_nat (if Z.of_nat (length text) <? SpanEnd span then Z.of_nat (length text) else SpanEnd span) in
  if (end_ <=? start)%nat then [] else split_loop (end_ - start) text start end_ start.

Fixpoint mapM_outcome {A B} (f : A → outcome B) (l : list A) : outcome (list B) :=
  match l with
  | [] => Ret []
  | x :: l => y ← f x; ys ← mapM_outcome f l; Ret (y :: ys)
  end.

(** [splitSemanticSpan], with the kind and modifiers its caller sets. *)
Definition splitSemanticSpan (mapper : Mapper) (text : list Z) (item : semanticSpan) : outcome (list SemanticToken) :=
  mapM_outcome (λ '(a, b), r ← SpanToRange mapper (mkSpan (Z.of_nat a) (Z.of_nat b)); Ret (mkToken r (ss_kind item) (ss_modifiers item)))
    (split_pieces text (ss_span item)).

Section tokens.
Context (NamespaceSeparator : list Z).

(** The callee span without its namespace. *)
Definition callee_span (text : list Z) (span : Span) : Span :=
  if (0 <=? SpanStart span) && (SpanEnd span <=? Z.of_nat (length text)) && (SpanStart span <? SpanEnd span) then
    match LastIndex (slice text (Z.to_nat (SpanStart span)) (Z.to_nat (SpanEnd span))) NamespaceSeparator with
    | Some separator => mkSpan (SpanStart span + (Z.of_nat separator + Z.of_nat (length NamespaceSeparator))) (SpanEnd span)
    | None => span
    end
  else span.

Definition byID (symbols : list Symbol) : gmap Z Symbol := foldl (λ m symbol, <[sy_ID symbol:=symbol]> m) ∅ symbols.

Definition buildSemanticSpans (analysis : Analysis) (text : list Z) : list semanticSpan :=
  let symbols := an_Symbols analysis in
  let m := byID symbols in
  omap (λ symbol,
    if sy_HasDeclaration symbol then
      Some (mkSemantic (sy_SelectionSpan symbol) (semanticKindForSymbol (sy_Kind symbol))
        (if sy_Mutable symbol then SemanticTokenDeclaration else Z.lor SemanticTokenDeclaration SemanticTokenReadonly)
        semanticPriorityDeclaration)
    else None) symbols ++
  omap (λ '(id, span),
    match m !! id with
    | Some symbol => Some (mkSemantic span (semanticKindForSymbol (sy_Kind symbol)) (if sy_Mutable symbol then 0 else SemanticTokenReadonly)
        semanticPriorityReference)
    | None => None
    end) (an_References analysis) ++
  map (λ span, mkSemantic (callee_span text span) SemanticTokenFunction 0 semanticPriorityCall) (an_Calls analysis).

(** The spans of [SemanticTokens], sorted. *)
Definition sorted_spans (analysis : Analysis) (text : list Z) : list semanticSpan :=
  let semantic := buildSemanticSpans analysis text in
  SliceStable (omap (λ '(kind, span),
    match semanticKindForSyntax kind with
    | Some kind => if overlapsAny span semantic then None else Some (mkSemantic span kind 0 semanticPrioritySyntax)
    | None => None
    end) (an_SyntaxTokens analysis) ++ semantic).

(** The last loop of [SemanticTokens]. *)
Fixpoint keep (mapper : Mapper) (text : list Z) (lastEnd : Z) (spans : list semanticSpan) : outcome (list SemanticToken) :=
  match spans with
  | [] => Ret []
  | item :: spans =>
      if SpanStart (ss_span item) <? lastEnd then keep mapper text lastEnd spans
      else
        pieces ← splitSemanticSpan mapper text item;
        rest ← keep mapper text (SpanEnd (ss_span item)) spans;
        Ret (pieces ++ rest)
  end.

Definition SemanticTokens (analysis : Analysis) (text : list Z) : outcome (list SemanticToken) :=
  keep (NewMapper text) text (-1) (sorted_spans analysis text).

End tokens.

(** ** The protocol's encoding *)

Definition semanticTokenTypeDefinitions : list (SemanticTokenKind * string) :=
  [(SemanticTokenNamespace, "namespace"); (SemanticTokenFunction, "function"); (SemanticTokenVariable, "variable");
   (SemanticTokenParameter, "parameter"); (SemanticTokenKeyword, "keyword"); (SemanticTokenString, "string");
   (SemanticTokenNumber, "number"); (SemanticTokenComment, "comment"); (SemanticTokenOperator, "operator")].

Definition semanticTokenModifierDefinitions : list (Z * string) :=
  [(SemanticTokenDeclaration, "declaration"); (SemanticTokenReadonly, "readonly")].

Record SemanticTokensLegend := mkLegend { TokenTypes : list string; TokenModifiers : list string }.

Definition semanticTokenLegend : SemanticTokensLegend :=
  mkLegend (map snd semanticTokenTypeDefinitions) (map snd semanticTokenModifierDefinitions).

Fixpoint type_loop (index : Z) (definitions : list (SemanticTokenKind * string)) (kind : SemanticTokenKind) : option Z :=
  match definitions with
  | [] => None
  | (k, _) :: definitions => if bool_decide (k = kind) then Some index else type_loop (index + 1) definitions kind
  end.

Definition semanticTokenType (kind : SemanticTokenKind) : option Z := type_loop 0 semanticTokenTypeDefinitions kind.

Fixpoint modifier_loop (index : Z) (definitions : list (Z * string)) (modifiers result : Z) : Z :=
  match definitions with
  | [] => result
  | (modifier, _) :: definitions =>
      modifier_loop (index + 1) definitions modifiers
        (if bool_decide (Z.land modifiers modifier ≠ 0) then Z.lor result (Z.shiftl 1 index) else result)
  end.

Definition semanticTokenModifierBits (modifiers : Z) : Z := modifier_loop 0 semanticTokenModifierDefinitions modifiers 0.

Fixpoint encode_loop (previousLine previousStart : Z) (values : list SemanticToken) : list Z :=
  match values with
  | [] => []
  | value :: values =>
      match semanticTokenType (tk_Kind value) with
      | None => encode_loop previousLine previousStart values
      | Some tokenType =>
          let line := Line (Start (tk_Range value)) in
          let start := Character (Start (tk_Range value)) in
          let deltaLine := u32 (line - previousLine) in
          let deltaStart := if deltaLine =? 0 then u32 (start - previousStart) else start in
          let length := u32 (Character (End (tk_Range value)) - Character (Start (tk_Range value))) in
          [deltaLine; deltaStart; length; tokenType; semanticTokenModifierBits (tk_Modifiers value)] ++ encode_loop line start values
      end
  end.

Definition encodeSemanticTokens (values : list SemanticToken) : list Z := encode_loop 0 0 values.

(** ** Decoding, as the protocol defines it

    Positions are relative to the token before: the deltas are added, without any
    bound on the sum. *)

(** The names of the modifiers whose bits are set. *)
Definition bit_names (legend : SemanticTokensLegend) (bits : Z) : list string :=
  omap id (imap (λ i name, if Z.testbit bits (Z.of_nat i) then Some name else None) (TokenModifiers legend)).

(** A token as a client sees it: line, start, length, type and modifiers. *)
Definition token_view : Type := Z * Z * Z * string * list string.

Fixpoint decode (legend : SemanticTokensLegend) (line start : Z) (data : list Z) : option (list token_view) :=
  match data with
  | [] => Some []
  | deltaLine :: deltaStart :: length :: tokenType :: bits :: data =>
      let line' := line + deltaLine in
      let start' := if deltaLine =? 0 then start + deltaStart else deltaStart in
      name ← TokenTypes legend !! Z.to_nat tokenType;
      rest ← decode legend line' start' data;
      Some ((line', start', length, name, bit_names legend bits) :: rest)
  | _ => None
  end.

Fixpoint name_of (definitions : list (SemanticTokenKind * string)) (kind : SemanticTokenKind) : option string :=
  match definitions with
  | [] => None
  | (k, name) :: definitions => if bool_decide (k = kind) then Some name else name_of definitions kind
  end.

Definition modifier_names (modifiers : Z) : list string :=
  map snd (filter (λ d, Z.land modifiers d.1 ≠ 0) semanticTokenModifierDefinitions).

(** A token of one line as a client is to see it, when the legend has its kind. *)
Definition shown (value : SemanticToken) : option token_view :=
  name ← name_of semanticTokenTypeDefinitions (tk_Kind value);
  Some (Line (Start (tk_Range value)), Character (Start (tk_Range value)),
    Character (End (tk_Range value)) - Character (Start (tk_Range value)), name, modifier_names (tk_Modifiers value)).

(** The same of any token: the length is the 32-bit difference of the columns, which
    is that of [shown] for a token of one line. *)
Definition view (value : SemanticToken) : option token_view :=
  name ← name_of semanticTokenTypeDefinitions (tk_Kind value);
  Some (Line (Start (tk_Range value)), Character (Start (tk_Range value)),
    u32 (Character (End (tk_Range value)) - Character (Start (tk_Range value))), name, modifier_names (tk_Modifiers value)).

Definition is_u32 (z : Z) : Prop := 0 ≤ z < 2 ^ 32.

Lemma pos_le_trans p q r : pos_le p q → pos_le q r → pos_le p r.
Proof. unfold pos_le. lia. Qed.

(** The tokens start at positions that do not decrease, within 32 bits. *)
Definition starts_le (a b : SemanticToken) : Prop := pos_le (Start (tk_Range a)) (Start (tk_Range b)).
Definition start_u32 (v : SemanticToken) : Prop := is_u32 (Line (Start (tk_Range v))) ∧ is_u32 (Character (Start (tk_Range v))).

Lemma u32_sub a b : is_u32 a → 0 ≤ b ≤ a → u32 (a - b) = a - b.
Proof. unfold is_u32. intros. apply u32_small. lia. Qed.

(** The deltas of a token that starts at or after the one before it. *)
Lemma deltas_exact line start v : 0 ≤ line → 0 ≤ start → start_u32 v → pos_le (mkPosition line start) (Start (tk_Range v)) →
  let deltaLine := u32 (Line (Start (tk_Range v)) - line) in
  let deltaStart := if deltaLine =? 0 then u32 (Character (Start (tk_Range v)) - start) else Character (Start (tk_Range v)) in
  line + deltaLine = Line (Start (tk_Range v)) ∧ (if deltaLine =? 0 then start + deltaStart else deltaStart) = Character (Start (tk_Range v)).
Proof.
  unfold start_u32, pos_le. simpl. intros Hl Hs [Hvl Hvs] Hle. rewrite u32_sub by (done || lia). split; [lia|].
  destruct (_ =? 0) eqn:E; [|done]. rewrite u32_sub by (done || lia). lia.
Qed.

Lemma type_name kind :
  match semanticTokenType kind with
  | Some tokenType => name_of semanticTokenTypeDefinitions kind = TokenTypes semanticTokenLegend !! Z.to_nat tokenType ∧
      is_Some (TokenTypes semanticTokenLegend !! Z.to_nat tokenType)
  | None => name_of semanticTokenTypeDefinitions kind = None
  end.
Proof. destruct kind; vm_compute; eauto. Qed.

Lemma bit_names_modifiers modifiers :
  bit_names semanticTokenLegend (semanticTokenModifierBits modifiers) = modifier_names modifiers.
Proof.
  unfold semanticTokenModifierBits, modifier_names, semanticTokenModifierDefinitions. cbn [modifier_loop filter list_filter fst].
  destruct (decide (Z.land modifiers SemanticTokenDeclaration ≠ 0)) as [H1|H1], (decide (Z.land modifiers SemanticTokenReadonly ≠ 0)) as [H2|H2];
    rewrite ?(bool_decide_true _ H1), ?(bool_decide_false _ H1), ?(bool_decide_true _ H2), ?(bool_decide_false _ H2); reflexivity.
Qed.

Lemma decode_encode values line start : 0 ≤ line → 0 ≤ start → Forall start_u32 values →
  Forall (λ v, pos_le (mkPosition line start) (Start (tk_Range v))) values → StronglySorted starts_le values →
  decode semanticTokenLegend line start (encode_loop line start values) = Some (omap view values).
Proof.
  intros Hl Hs Hv Hlow Hsort. revert line start Hl Hs Hlow. induction Hsort as [|v values Hsort IH Hfirst]; intros line start Hl Hs Hlow; [done|].
  apply Forall_cons in Hv as [Hu Hv]. apply Forall_cons in Hlow as [Hle Hlow].
  cbn [encode_loop omap list_omap]. pose proof (type_name (tk_Kind v)) as T. unfold view at 1.
  destruct (semanticTokenType (tk_Kind v)) as [ty|]; [|rewrite T; simpl; by apply IH].
  destruct T as [-> [name Hname]]. rewrite Hname. cbn [app decode mbind option_bind]. rewrite Hname. cbn [mbind option_bind].
  destruct (deltas_exact line start v Hl Hs Hu Hle) as [-> ->]. rewrite bit_names_modifiers, (IH Hv); [done|apply Hu|apply Hu|].
  eapply Forall_impl; [exact Hfirst|]. intros t. unfold starts_le. by destruct (Start (tk_Range v)).
Qed.

Lemma encoded_view values : Forall start_u32 values → StronglySorted starts_le values →
  decode semanticTokenLegend 0 0 (encodeSemanticTokens values) = Some (omap view values).
Proof.
  intros Hv Hs. apply decode_encode; [done|done|done| |done]. eapply Forall_impl; [exact Hv|]. intros v [Hl Hc]. unfold pos_le, is_u32 in *. simpl. lia.
Qed.

Lemma view_shown v : Line (Start (tk_Range v)) = Line (End (tk_Range v)) → pos_le (Start (tk_Range v)) (End (tk_Range v)) →
  is_u32 (Character (Start (tk_Range v))) → is_u32 (Character (End (tk_Range v))) → view v = shown v.
Proof. intros Hl Hle Hs He. unfold view, shown, is_u32 in *. rewrite u32_sub; [done|done|]. unfold pos_le in Hle. lia. Qed.

(** ** Sorting *)

Definition start_le (a b : semanticSpan) : Prop := SpanStart (ss_span a) ≤ SpanStart (ss_span b).

Lemma less_start a b : if less a b then start_le a b else start_le b a.
Proof. unfold less, start_le. repeat case_bool_decide; repeat case_bool; bools; lia. Qed.

Lemma insert_stable_elem x l y : y ∈ insert_stable x l ↔ y = x ∨ y ∈ l.
Proof.
  induction l as [|z l IH]; simpl; [by rewrite list_elem_of_singleton, elem_of_nil; naive_solver|].
  destruct (less x z); rewrite !elem_of_cons; [done|]. rewrite IH. naive_solver.
Qed.

Lemma insert_stable_sorted x l : StronglySorted start_le l → StronglySorted start_le (insert_stable x l).
Proof.
  induction 1 as [|y l Hl IH Hy]; simpl; [by repeat constructor|]. pose proof (less_start x y) as Hless.
  destruct (less x y).
  - constructor; [by constructor|]. constructor; [done|]. eapply Forall_impl; [done|]. unfold start_le in *. intros; lia.
  - constructor; [done|]. apply Forall_forall. intros z [->|Hz]%insert_stable_elem; [done|]. by eapply Forall_forall in Hz.
Qed.

Lemma SliceStable_spec l : StronglySorted start_le (SliceStable l) ∧ ∀ y, y ∈ SliceStable l ↔ y ∈ l.
Proof.
  unfold SliceStable. enough (∀ acc, StronglySorted start_le acc →
    StronglySorted start_le (foldl (λ sorted x, insert_stable x sorted) acc l) ∧
    ∀ y, y ∈ foldl (λ sorted x, insert_stable x sorted) acc l ↔ y ∈ acc ∨ y ∈ l) as H.
  { destruct (H [] ltac:(constructor)) as [? Hy]. split; [done|]. intros y. rewrite Hy, elem_of_nil. naive_solver. }
  induction l as [|x l IH]; intros acc Hacc; simpl; [split; [done|]; intros y; rewrite elem_of_nil; naive_solver|].
  destruct (IH (insert_stable x acc)) as [? Hy]; [by apply insert_stable_sorted|]. split; [done|].
  intros y. rewrite Hy, insert_stable_elem, elem_of_cons. naive_solver.
Qed.

(** ** Pieces in byte offsets *)

(** Non-empty pieces in order, without overlaps, between [lo] and [hi]. *)
Fixpoint chain (lo hi : nat) (l : list (nat * nat)) : Prop :=
  match l with
  | [] => True
  | (a, b) :: l => (lo ≤ a)%nat ∧ (a < b)%nat ∧ (b ≤ hi)%nat ∧ chain b hi l
  end.

Lemma chain_weaken lo lo' hi hi' l : chain lo' hi' l → (lo ≤ lo')%nat → (hi' ≤ hi)%nat → chain lo hi l.
Proof.
  revert lo lo'. induction l as [|[a b] l IH]; simpl; [done|]. intros lo lo' (? & ? & ? & ?) ??.
  split_and!; [lia..|]. eapply (IH b b); [done|lia|lia].
Qed.

Lemma chain_app lo mid hi l1 l2 : chain lo mid l1 → chain mid hi l2 → (lo ≤ mid ≤ hi)%nat → chain lo hi (l1 ++ l2).
Proof.
  revert lo. induction l1 as [|[a b] l1 IH]; simpl; intros lo H1 H2 Hle; [eapply chain_weaken; [done|lia|lia]|].
  destruct H1 as (? & ? & ? & ?). split_and!; [lia..|]. apply IH; [done|done|lia].
Qed.

Lemma slice_decode_size text offset end_ : (offset < end_ ≤ length text)%nat →
  (1 ≤ (DecodeRuneInString (slice text offset end_)).2 ≤ end_ - offset)%nat.
Proof.
  intros H. rewrite <-(length_slice text offset end_) by lia. apply rune_size_bounds.
  intros E. apply (f_equal length) in E. rewrite length_slice in E by lia. simpl in E. lia.
Qed.

Lemma split_loop_chain fuel text offset end_ segmentStart : (segmentStart ≤ offset ≤ end_)%nat → (end_ ≤ length text)%nat →
  chain segmentStart end_ (split_loop fuel text offset end_ segmentStart).
Proof.
  revert offset segmentStart. induction fuel as [|fuel IH]; intros offset segmentStart Hle Hend; simpl.
  { destruct (segmentStart <? end_)%nat eqn:E; bools; simpl; [split_and!; [lia..|done]|done]. }
  destruct (offset <? end_)%nat eqn:Hlt; bools.
  2: { destruct (segmentStart <? end_)%nat eqn:E; bools; simpl; [split_and!; [lia..|done]|done]. }
  pose proof (slice_decode_size text offset end_ ltac:(lia)) as Hsz.
  destruct (DecodeRuneInString _) as [r size]. simpl in Hsz. destruct (_ && _ && _ && _); [apply IH; lia|].
  set (next := if _ && _ && _ then _ else _).
  assert (offset + size ≤ next ≤ end_)%nat as Hn.
  { subst next. destruct ((r =? 13) && _ && _) eqn:E; [|lia]. apply andb_true_iff in E as [E _]. bools. lia. }
  apply (chain_app _ offset); [|eapply (chain_weaken _ next); [apply IH; lia|lia|lia]|lia].
  destruct (segmentStart <? offset)%nat eqn:E; bools; simpl; [split_and!; [lia..|done]|done].
Qed.

Lemma split_pieces_chain text span :
  chain (Z.to_nat (SpanStart span)) (Nat.min (Z.to_nat (SpanEnd span)) (length text)) (split_pieces text span).
Proof.
  unfold split_pieces. set (end_ := Z.to_nat (if _ <? _ then _ else _)).
  assert (end_ = Nat.min (Z.to_nat (SpanEnd span)) (length text)) as <- by (subst end_; case_bool; bools; lia).
  destruct (end_ <=? Z.to_nat (SpanStart span))%nat eqn:E; bools; [done|]. apply split_loop_chain; [lia|].
  subst end_. case_bool; bools; lia.
Qed.

(** The pieces that [SemanticTokens] keeps, with the span each is from. *)
Fixpoint kept (text : list Z) (lastEnd : Z) (spans : list semanticSpan) : list (nat * nat * semanticSpan) :=
  match spans with
  | [] => []
  | item :: spans =>
      if SpanStart (ss_span item) <? lastEnd then kept text lastEnd spans
      else map (λ p, (p, item)) (split_pieces text (ss_span item)) ++ kept text (SpanEnd (ss_span item)) spans
  end.

Lemma kept_chain text lastEnd top spans : StronglySorted start_le spans → lastEnd ≤ top →
  (lastEnd = top ∨ ∀ item, item ∈ spans → top ≤ SpanStart (ss_span item)) →
  chain (Z.to_nat top) (length text) (map fst (kept text lastEnd spans)).
Proof.
  intros Hs. revert lastEnd top. induction Hs as [|item spans Hs IH Hitem]; intros lastEnd top Hle Htop; simpl; [done|].
  destruct (SpanStart (ss_span item) <? lastEnd) eqn:Hlt; bools.
  { apply IH; [done|]. destruct Htop as [?|Htop]; [by left|right]. intros. apply Htop. by apply list_elem_of_further. }
  assert (top ≤ SpanStart (ss_span item)) as Hstart by (destruct Htop as [<-|Htop]; [done|apply Htop, list_elem_of_here]).
  rewrite map_app, map_map. simpl. rewrite map_id. set (end_ := SpanEnd (ss_span item)).
  assert (chain (Z.to_nat (Z.max top end_)) (length text) (map fst (kept text end_ spans))) as Hrest.
  { apply IH; [lia|]. destruct (decide (top ≤ end_)); [left; lia|right]. intros x Hx. rewrite Forall_forall in Hitem.
    specialize (Hitem x Hx). unfold start_le in Hitem. lia. }
  pose proof (split_pieces_chain text (ss_span item)) as Hp. fold end_ in Hp.
  destruct (decide (Z.to_nat top ≤ Nat.min (Z.to_nat end_) (length text))%nat) as [Hmid|Hmid].
  - eapply (chain_app _ (Nat.min (Z.to_nat end_) (length text))); [eapply chain_weaken; [done|lia|lia]| |lia].
    eapply chain_weaken; [done|lia|lia].
  - destruct (split_pieces text (ss_span item)) as [|[a b] l]; simpl; [eapply chain_weaken; [done|lia|lia]|].
    simpl in Hp. lia.
Qed.

(** ** From pieces to tokens *)

Lemma OffsetToPosition_clamp m o : OffsetToPosition m (Z.of_nat (clampOffset m o)) = OffsetToPosition m o.
Proof. unfold OffsetToPosition. by rewrite clampOffset_idem. Qed.

(** The position of an offset. *)
Definition position (text : list Z) (o : nat) : Position :=
  match OffsetToPosition (NewMapper text) (Z.of_nat o) with Ret p => p | _ => mkPosition 0 0 end.

Section text.
Context (text : list Z) (Hlen : Z.of_nat (length text) < 2 ^ 32).

Lemma position_ret o : OffsetToPosition (NewMapper text) (Z.of_nat o) = Ret (position text o).
Proof. unfold position. destruct (OffsetToPosition_mono text (Z.of_nat o) (Z.of_nat o) Hlen ltac:(lia)) as (p & _ & -> & _). done. Qed.

Lemma position_mono a b : (a ≤ b)%nat → pos_le (position text a) (position text b).
Proof.
  intros Hab. destruct (OffsetToPosition_mono text (Z.of_nat a) (Z.of_nat b) Hlen ltac:(lia)) as (p & q & Hp & Hq & Hle).
  rewrite position_ret in Hp, Hq. by simplify_eq.
Qed.

Lemma position_u32 o : is_u32 (Line (position text o)) ∧ is_u32 (Character (position text o)).
Proof.
  destruct (OffsetToPosition_spec text (Z.of_nat o) Hlen) as (line & s & e & w & (Hs & He & Hso & _) & Hp & Hw).
  rewrite position_ret in Hp. simplify_eq. rewrite Hp. simpl. unfold is_u32.
  destruct (clampOffset_boundary (NewMapper text) (Z.of_nat o)) as [Hc _]. rewrite mapper_text in Hc.
  pose proof (mapper_table text) as [Hf _ _ _ _ _]. pose proof (starts_mono text 0 line 0 s ltac:(lia) Hf Hs).
  pose proof (seg_width _ _ _ _ Hw). pose proof (seg_bounds _ _ _ _ Hw). lia.
Qed.

Lemma SpanToRange_piece a b : (a ≤ b)%nat →
  SpanToRange (NewMapper text) (mkSpan (Z.of_nat a) (Z.of_nat b)) = Ret (mkRange (position text a) (position text b)).
Proof.
  intros Hab. unfold SpanToRange. simpl. pose proof (clampOffset_mono (NewMapper text) (Z.of_nat a) (Z.of_nat b) ltac:(lia)) as Hm.
  replace (_ <? _)%nat with false by (symmetry; apply Nat.ltb_ge; lia). rewrite !OffsetToPosition_clamp, !position_ret. done.
Qed.

(** The token of a piece. *)
Definition token_of (p : nat * nat * semanticSpan) : SemanticToken :=
  mkToken (mkRange (position text p.1.1) (position text p.1.2)) (ss_kind p.2) (ss_modifiers p.2).

Lemma splitSemanticSpan_tokens item lo hi : chain lo hi (split_pieces text (ss_span item)) →
  splitSemanticSpan (NewMapper text) text item = Ret (map token_of (map (λ p, (p, item)) (split_pieces text (ss_span item)))).
Proof.
  unfold splitSemanticSpan. revert lo. induction (split_pieces text (ss_span item)) as [|[a b] l IH]; intros lo; simpl; [done|].
  intros (? & ? & ? & Hc). rewrite SpanToRange_piece by lia. simpl. by rewrite (IH _ Hc).
Qed.

Lemma keep_tokens lastEnd spans : keep (NewMapper text) text lastEnd spans = Ret (map token_of (kept text lastEnd spans)).
Proof.
  revert lastEnd. induction spans as [|item spans IH]; intros lastEnd; simpl; [done|]. destruct (_ <? _); [apply IH|].
  rewrite (splitSemanticSpan_tokens item _ _ (split_pieces_chain text (ss_span item))). simpl. rewrite IH. simpl. by rewrite map_app.
Qed.

Lemma chain_positions lo hi l i p q : chain lo hi (map fst l) → l !! i = Some p →
  pos_le (Start (tk_Range (token_of p))) (End (tk_Range (token_of p))) ∧
  (l !! S i = Some q → pos_le (End (tk_Range (token_of p))) (Start (tk_Range (token_of q)))).
Proof.
  revert lo i. induction l as [|[[a b] item] l IH]; intros lo i; [done|]. simpl. intros (? & ? & ? & Hc) Hi.
  destruct i as [|i]; simpl in Hi; [|by eapply IH]. simplify_eq. split; [apply position_mono; simpl; lia|].
  intros Hq. destruct l as [|[[a' b'] item'] l]; [done|]. simplify_eq/=. apply position_mono. simpl. lia.
Qed.

Lemma kept_sorted lo hi l : chain lo hi (map fst l) → StronglySorted starts_le (map token_of l).
Proof.
  intros Hc. apply Sorted_StronglySorted; [unfold starts_le; intros ???; apply pos_le_trans|]. revert lo Hc.
  induction l as [|p l IH]; intros lo Hc; [constructor|]. simpl. constructor.
  - destruct p as [[a b] item]. simpl in Hc. destruct Hc as (_ & _ & _ & Hc). by eapply IH.
  - destruct l as [|q l]; [constructor|]. constructor. destruct (chain_positions lo hi (p :: q :: l) 0 p q Hc eq_refl) as [H1 H2].
    eapply pos_le_trans; [exact H1|by apply H2].
Qed.

(** ** Pieces of one line *)

(** A line terminator starts at [o]. *)
Definition breaks (o : nat) : Prop :=
  let r := (DecodeRuneInString (drop o text)).1 in r = 13 ∨ r = 10 ∨ r = 8232 ∨ r = 8233.

Definition boundary (o : nat) : Prop := ∃ w, seg text 0 o w.

Lemma loop_breaks fuel offset starts ends starts' ends' : Forall breaks ends →
  NewMapper_loop fuel text offset starts ends = (starts', ends') → Forall breaks ends'.
Proof.
  revert offset starts ends. induction fuel as [|fuel IH]; intros offset starts ends He Hl; simpl in Hl; [by simplify_eq|].
  destruct (offset <? length text)%nat; [|by simplify_eq]. destruct (DecodeRuneInString (drop offset text)) as [r size] eqn:Hd.
  destruct (size =? 0)%nat; [by simplify_eq|].
  assert (r = 13 ∨ r = 10 ∨ r = 8232 ∨ r = 8233 → Forall breaks (ends ++ [offset])) as Hsnoc.
  { intros Hr. apply Forall_app. split; [done|]. apply Forall_singleton. unfold breaks. by rewrite Hd. }
  destruct (r =? 13) eqn:H13; bools; [eapply IH; [|exact Hl]; auto|].
  destruct ((r =? 10) || (r =? 8232) || (r =? 8233)) eqn:Hb; [|by eapply IH].
  eapply IH; [|exact Hl]. apply Hsnoc. rewrite !orb_true_iff, !Z.eqb_eq in Hb. naive_solver.
Qed.

Lemma line_end_breaks i e s : lineEnds (NewMapper text) !! i = Some e → lineStarts (NewMapper text) !! S i = Some s → breaks e.
Proof.
  intros He Hs. pose proof (mapper_table text) as [_ Hl _ _ _ _]. revert He Hs Hl. unfold NewMapper.
  destruct (NewMapper_loop _ _ _ _ _) as [starts ends] eqn:Hloop. simpl. intros He Hs Hl.
  apply lookup_lt_Some in Hs. rewrite length_app in Hl. simpl in Hl. rewrite lookup_app_l in He by lia.
  pose proof (loop_breaks _ _ _ _ _ _ ltac:(constructor) Hloop) as F. rewrite Forall_lookup in F. eauto.
Qed.

Lemma line_of_unique o l s e l' s' e' : line_of text o l s e → line_of text o l' s' e' → l = l' ∧ s = s' ∧ e = e'.
Proof.
  intros (Hs & He & Hso & Hn) (Hs' & He' & Hso' & Hn'). assert (l = l') as ->; [|split_and!; congruence].
  destruct (decide (l < l')%nat) as [Hlt|].
  { destruct (lookup_lt_is_Some_2 (lineStarts (NewMapper text)) (S l)) as [x Hx]; [apply lookup_lt_Some in Hs'; lia|].
    pose proof (starts_mono text (S l) l' x s' ltac:(lia) Hx Hs'). specialize (Hn x Hx). lia. }
  destruct (decide (l' < l)%nat) as [Hlt|]; [|lia].
  destruct (lookup_lt_is_Some_2 (lineStarts (NewMapper text)) (S l')) as [x Hx]; [apply lookup_lt_Some in Hs; lia|].
  pose proof (starts_mono text (S l') l x s ltac:(lia) Hx Hs). specialize (Hn' x Hx). lia.
Qed.

(** No rune starts with a continuation byte, as in every valid UTF-8 text. *)
Definition well_encoded : Prop := ∀ o b, boundary o → text !! o = Some b → RuneStart b = true.

Lemma boundary_clamp o : well_encoded → boundary o → (o ≤ length text)%nat → clampOffset (NewMapper text) (Z.of_nat o) = o.
Proof.
  intros Hw Hb Hle. unfold clampOffset. rewrite mapper_text, Nat2Z.id.
  replace (Z.of_nat o <? 0) with false by (symmetry; apply Z.ltb_ge; lia).
  replace (Z.of_nat (length text) <? Z.of_nat o) with false by (symmetry; apply Z.ltb_ge; lia).
  destruct o as [|o]; [done|]. simpl. destruct (text !! S o) as [b|] eqn:E; [|done]. by rewrite (Hw _ _ Hb E).
Qed.

(** A piece without line terminators. *)
Definition line_piece (a b : nat) : Prop :=
  (a < b ≤ length text)%nat ∧ boundary a ∧ boundary b ∧ ∀ o, (a ≤ o < b)%nat → boundary o → ¬ breaks o.

Lemma not_break_lf a : ¬ breaks a → crlf_middle text a = false.
Proof.
  intros Hb. destruct a as [|a]; [done|]. simpl. apply andb_false_iff. right. apply bool_decide_false. intros E. apply Hb.
  unfold breaks. rewrite (drop_S _ 10) by done. right. left. by destruct (drop _ text).
Qed.

(** A piece without line terminators lies in one line, and its end comes after its
    start. *)
Lemma line_piece_positions a b : well_encoded → line_piece a b →
  Line (position text a) = Line (position text b) ∧ Character (position text a) < Character (position text b).
Proof.
  intros Hw (Hab & Ha & Hb & Hno). pose proof (mapper_table text) as [_ Hl Hst Hli _ Hla].
  destruct (OffsetToPosition_spec text (Z.of_nat a) Hlen) as (l & s & e & w & La & Pa & Wa).
  destruct (OffsetToPosition_spec text (Z.of_nat b) Hlen) as (l' & s' & e' & w' & Lb & Pb & Wb).
  rewrite position_ret in Pa, Pb. simplify_eq. rewrite Pa, Pb. simpl.
  rewrite (boundary_clamp a Hw Ha ltac:(lia)) in La, Wa. rewrite (boundary_clamp b Hw Hb ltac:(lia)) in Lb, Wb.
  destruct Ha as [wa Ha], Hb as [wb Hb].
  assert (a ≤ e)%nat as Hae.
  { eapply (line_of_inside text); [exact La|lia|exact Ha|]. apply not_break_lf, Hno; [lia|by exists wa]. }
  destruct La as (Hs & He & Hsa & Hn). destruct (Hst _ _ Hs) as [ws Hws], (Hli _ _ _ Hs He) as [we Hwe].
  assert (b ≤ e)%nat as Hbe.
  { destruct (decide (b ≤ e)%nat) as [|Hgt]; [done|]. destruct (lineStarts (NewMapper text) !! S l) as [x|] eqn:Hx.
    - destruct (Hno e ltac:(lia)); [eexists; by eapply seg_trans|by eapply line_end_breaks].
    - apply lookup_ge_None in Hx. apply lookup_lt_Some in Hs as Hlt. rewrite (Hla e) in Hgt; [lia|].
      by replace (length (lineStarts (NewMapper text)) - 1)%nat with l by lia. }
  destruct (line_of_unique b l s e l' s' e') as (<- & <- & <-); [|done|].
  { split_and!; try done; [lia|]. intros x Hx. destruct (mapper_table text) as [_ _ _ _ Hte _].
    pose proof (terminator_lt text e x (Hte _ _ _ He Hx)). lia. }
  rewrite Nat.min_l in Wa, Wb by lia. split; [done|]. destruct (seg_between text s a b w w' Wa Wb ltac:(lia)) as (w0 & Hw0 & ->).
  inv Hw0; [lia|]. pose proof (rune_width_pos (drop a text)). match goal with H : seg _ _ b _ |- _ => apply seg_bounds in H end. lia.
Qed.

Lemma boundary_next o : boundary o → (o < length text)%nat → boundary (o + rune_size (drop o text)).
Proof.
  intros [w Hw] Ho. exists (w + (rune_width (drop o text) + 0)). eapply seg_trans; [done|]. constructor; [done|]. constructor.
Qed.

(** There is no boundary inside a rune. *)
Lemma boundary_gap o o' : boundary o → boundary o' → (o < o')%nat → (o + rune_size (drop o text) ≤ o')%nat.
Proof.
  intros [w Hw] [w' Hw'] Hlt. destruct (seg_between text 0 o o' w w' Hw Hw' ltac:(lia)) as (w0 & Hw0 & _).
  inv Hw0; [lia|]. match goal with H : seg _ _ o' _ |- _ => apply seg_bounds in H end. lia.
Qed.

Lemma split_loop_lines fuel offset end_ segmentStart a b : (end_ - offset ≤ fuel)%nat → (segmentStart ≤ offset ≤ end_)%nat →
  (end_ ≤ length text)%nat → boundary segmentStart → boundary offset → boundary end_ →
  (∀ o, (segmentStart ≤ o < offset)%nat → boundary o → ¬ breaks o) →
  (a, b) ∈ split_loop fuel text offset end_ segmentStart → line_piece a b.
Proof.
  revert offset segmentStart. induction fuel as [|fuel IH]; intros offset segmentStart Hf Hle Hend Hs Ho He Hno; simpl.
  { assert (offset = end_) as -> by lia. destruct (segmentStart <? end_)%nat eqn:E; bools; [|by intros ?%elem_of_nil].
    intros [= -> ->]%list_elem_of_singleton. by split_and!. }
  destruct (offset <? end_)%nat eqn:Hlt; bools.
  2: { assert (offset = end_) as -> by lia. destruct (segmentStart <? end_)%nat eqn:E; bools; [|by intros ?%elem_of_nil].
    intros [= -> ->]%list_elem_of_singleton. by split_and!. }
  pose proof (boundary_gap offset end_ Ho He Hlt) as Hgap. pose proof (rune_size_drop text offset ltac:(lia)) as Hsz.
  destruct (slice_cons_decode text offset end_ ltac:(lia) Hgap) as (Hd & _). rewrite Hd.
  pose proof (boundary_next offset Ho ltac:(lia)) as Hnext.
  destruct (DecodeRuneInString (drop offset text)) as [r size] eqn:Hdec.
  assert (rune_size (drop offset text) = size) as Hrs by (unfold rune_size; by rewrite Hdec). rewrite Hrs in *.
  destruct (negb (r =? 13) && negb (r =? 10) && negb (r =? 8232) && negb (r =? 8233)) eqn:Hbr.
  - bools. apply IH; try done; [lia|lia|]. intros o Hor Hob. destruct (decide (o < offset)%nat); [apply Hno; [lia|done]|].
    destruct (decide (o = offset)) as [->|Hne]; [unfold breaks; rewrite Hdec; simpl; lia|].
    pose proof (boundary_gap offset o Ho Hob ltac:(lia)). lia.
  - intros [Hin|Hin]%elem_of_app.
    { destruct (segmentStart <? offset)%nat eqn:E; bools; [|by apply elem_of_nil in Hin].
      apply list_elem_of_singleton in Hin as [= -> ->]. split_and!; try done; lia. }
    revert Hin. set (next := if (r =? 13) && _ && _ then (offset + size + 1)%nat else (offset + size)%nat).
    assert ((offset + size ≤ next ≤ end_)%nat ∧ boundary next) as [Hn Hbn].
    { subst next. destruct ((r =? 13) && _ && _) eqn:E; [|split; [lia|done]]. bools. split; [lia|].
      pose proof (boundary_next (offset + size) Hnext ltac:(lia)) as B. by rewrite (decode_ascii text _ 10) in B. }
    apply IH; try done; [lia|lia|]. intros o Hor. lia.
Qed.

(** The span starts and ends between runes of the text. *)
Definition aligned (span : Span) : Prop :=
  boundary (Nat.min (Z.to_nat (SpanStart span)) (length text)) ∧ boundary (Nat.min (Z.to_nat (SpanEnd span)) (length text)).

Lemma split_pieces_lines span a b : aligned span → (a, b) ∈ split_pieces text span → line_piece a b.
Proof.
  intros [Hs He]. unfold split_pieces. set (end_ := Z.to_nat (if _ <? _ then _ else _)).
  assert (end_ = Nat.min (Z.to_nat (SpanEnd span)) (length text)) as Hend by (subst end_; case_bool; bools; lia).
  destruct (end_ <=? Z.to_nat (SpanStart span))%nat eqn:E; bools; [by intros ?%elem_of_nil|].
  rewrite <-Hend in He. rewrite Nat.min_l in Hs by lia. apply split_loop_lines; try done; lia.
Qed.

Lemma kept_lines lastEnd spans p : (∀ item, item ∈ spans → aligned (ss_span item)) → p ∈ kept text lastEnd spans →
  line_piece p.1.1 p.1.2 ∧ p.2 ∈ spans.
Proof.
  revert lastEnd. induction spans as [|item spans IH]; intros lastEnd Hal; simpl; [by intros ?%elem_of_nil|].
  assert (∀ lastEnd, p ∈ kept text lastEnd spans → line_piece p.1.1 p.1.2 ∧ p.2 ∈ item :: spans) as Hrest.
  { intros e Hp. destruct (IH e) as [? ?]; [intros; apply Hal; by apply list_elem_of_further|done|]. split; [done|]. by apply list_elem_of_further. }
  destruct (_ <? _); [apply Hrest|]. intros [Hin|Hin]%elem_of_app; [|by eapply Hrest].
  apply list_elem_of_fmap in Hin as ([a b] & -> & Hin). split; [|apply list_elem_of_here].
  eapply split_pieces_lines; [|exact Hin]. apply Hal, list_elem_of_here.
Qed.

End text.

Lemma kept_from text lastEnd spans p : p ∈ kept text lastEnd spans → p.2 ∈ spans.
Proof.
  revert lastEnd. induction spans as [|item spans IH]; intros lastEnd; simpl; [by intros ?%elem_of_nil|].
  destruct (_ <? _); [intros; apply list_elem_of_further; by eapply IH|]. intros [Hin|Hin]%elem_of_app.
  - apply list_elem_of_fmap in Hin as (q & -> & _). apply list_elem_of_here.
  - apply list_elem_of_further. by eapply IH.
Qed.

(** ** The spans of an analysis *)

Section spans.
Context (NamespaceSeparator : list Z) (analysis : Analysis) (text : list Z).

(** The separator is ASCII. *)
Definition separator_ok : Prop := NamespaceSeparator ≠ [] ∧ Forall (λ b, 0 ≤ b < 128) NamespaceSeparator.

(** The compiler's spans start and end between runes. *)
Definition analysis_aligned : Prop :=
  (∀ symbol, symbol ∈ an_Symbols analysis → aligned text (sy_SelectionSpan symbol)) ∧
  (∀ r, r ∈ an_References analysis → aligned text r.2) ∧
  (∀ span, span ∈ an_Calls analysis → aligned text span) ∧
  (∀ t, t ∈ an_SyntaxTokens analysis → aligned text t.2).

Lemma LastIndex_found s i : LastIndex s NamespaceSeparator = Some i → take (length NamespaceSeparator) (drop i s) = NamespaceSeparator.
Proof.
  unfold LastIndex. intros H. apply last_Some in H as (l & Hl).
  assert (i ∈ filter (λ i, take (length NamespaceSeparator) (drop i s) = NamespaceSeparator) (seq 0 (S (length s)))) as Hi.
  { rewrite Hl. apply elem_of_app. right. apply list_elem_of_here. }
  by apply list_elem_of_filter in Hi as [? _].
Qed.

Lemma ascii_boundary o b : text !! o = Some b → 0 ≤ b < 128 → boundary text (S o).
Proof.
  intros Ho Hb. assert (RuneStart b = true) as Hr.
  { apply (byte_check RuneStart 0 128); [vm_compute; reflexivity|lia]. }
  pose proof (start_boundary text o b Ho Hr) as B. pose proof (boundary_next text o B (lookup_lt_Some _ _ _ Ho)) as N.
  rewrite (decode_ascii text o b) in N; [|done|apply Z.ltb_lt; lia]. by rewrite Nat.add_1_r in N.
Qed.

Lemma callee_aligned span : separator_ok → aligned text span → aligned text (callee_span NamespaceSeparator text span).
Proof.
  intros [Hne Hascii] Ha. unfold callee_span. destruct (_ && _ && _) eqn:E; [|done]. bools.
  set (s := slice _ _ _). destruct (LastIndex s NamespaceSeparator) as [i|] eqn:Hi; [|done].
  apply LastIndex_found in Hi. split; [|by apply Ha]. simpl. set (n := length NamespaceSeparator) in *.
  assert (0 < n)%nat as Hn by (subst n; destruct NamespaceSeparator; [done|simpl; lia]).
  destruct (last NamespaceSeparator) as [b|] eqn:Hb; [|by apply last_None in Hb].
  rewrite last_lookup in Hb. fold n in Hb. assert (0 ≤ b < 128) as Hb128 by (rewrite Forall_lookup in Hascii; eauto).
  rewrite <-Hi in Hb. rewrite lookup_take_lt in Hb by lia. rewrite lookup_drop in Hb. unfold s, slice in Hb.
  pose proof (lookup_lt_Some _ _ _ Hb) as Hlt. rewrite length_take in Hlt. rewrite lookup_take_lt in Hb by lia. rewrite lookup_drop in Hb.
  pose proof (lookup_lt_Some _ _ _ Hb) as Hlt'. rewrite Nat.min_l by lia.
  replace (Z.to_nat (SpanStart span + (Z.of_nat i + Z.of_nat n))) with (S (Z.to_nat (SpanStart span) + (i + Nat.pred n))) by lia.
  by eapply ascii_boundary.
Qed.

Lemma spans_known item : item ∈ sorted_spans NamespaceSeparator analysis text → ss_kind item ≠ SemanticTokenUnknown.
Proof.
  unfold sorted_spans. rewrite (proj2 (SliceStable_spec _)), elem_of_app. unfold buildSemanticSpans. rewrite !elem_of_app.
  intros [Hin|[Hin|[Hin|Hin]]].
  - apply list_elem_of_omap in Hin as ([kind span] & _ & Hx). destruct kind; simpl in Hx; repeat case_match; simplify_eq; done.
  - apply list_elem_of_omap in Hin as (symbol & _ & Hx). case_match; simplify_eq/=. by destruct (sy_Kind symbol).
  - apply list_elem_of_omap in Hin as ([id span] & _ & Hx). case_match; simplify_eq/=. by destruct (sy_Kind _).
  - apply list_elem_of_fmap in Hin as (span & -> & _). done.
Qed.

Lemma spans_aligned item : separator_ok → analysis_aligned → item ∈ sorted_spans NamespaceSeparator analysis text → aligned text (ss_span item).
Proof.
  intros Hsep (A1 & A2 & A3 & A4). unfold sorted_spans. rewrite (proj2 (SliceStable_spec _)), elem_of_app.
  unfold buildSemanticSpans. rewrite !elem_of_app. intros [Hin|[Hin|[Hin|Hin]]].
  - apply list_elem_of_omap in Hin as ([kind span] & Ht & Hx). repeat case_match; simplify_eq/=. by apply (A4 (_, _)) in Ht.
  - apply list_elem_of_omap in Hin as (symbol & Ht & Hx). case_match; simplify_eq/=. by apply A1.
  - apply list_elem_of_omap in Hin as ([id span] & Ht & Hx). case_match; simplify_eq/=. by apply (A2 (_, _)) in Ht.
  - apply list_elem_of_fmap in Hin as (span & -> & Ht). simpl. apply callee_aligned; [done|by apply A3].
Qed.

End spans.

(** ** Claims *)

(** C26. A client that decodes the encoded tokens as the protocol defines it, adding
    each delta to the position before it, sees the line, start, length, type and
    modifiers of each token whose kind the legend has, for every list of tokens with
    32-bit positions that starts in order and whose tokens are of one line each, as
    [SemanticTokens] produces them: the 32-bit differences lose nothing, and the type
    and modifier bits name their entries of the legend. *)
Theorem semantic_tokens_round_trip values :
  StronglySorted (λ a b, pos_le (Start (tk_Range a)) (Start (tk_Range b))) values →
  Forall (λ v, is_u32 (Line (Start (tk_Range v))) ∧ is_u32 (Character (Start (tk_Range v))) ∧ is_u32 (Character (End (tk_Range v))) ∧
    Line (Start (tk_Range v)) = Line (End (tk_Range v)) ∧ pos_le (Start (tk_Range v)) (End (tk_Range v))) values →
  decode semanticTokenLegend 0 0 (encodeSemanticTokens values) = Some (omap shown values).
Proof.
  intros Hs Hv. rewrite encoded_view; [|by eapply Forall_impl; [exact Hv|]; intros v (? & ? & _)|done]. f_equal.
  apply list_omap_ext. eapply Forall_Forall2_diag, Forall_impl; [exact Hv|]. intros v (? & ? & ? & ? & ?). by apply view_shown.
Qed.

(** C27. For every analysis of a text of less than 2^32 bytes, with overlapping, nested,
    empty or out-of-range spans, semantic tokens are produced without a panic; every
    token has a kind of the legend; tokens are in order and do not overlap; the
    client decodes exactly these tokens; and when the compiler's spans lie between
    runes of a text without stray continuation bytes, every token is a non-empty
    part of one line. *)
Theorem semantic_tokens_well_formed NamespaceSeparator analysis text : Z.of_nat (length text) < 2 ^ 32 →
  ∃ tokens, SemanticTokens NamespaceSeparator analysis text = Ret tokens ∧
    (∀ t, t ∈ tokens → tk_Kind t ≠ SemanticTokenUnknown ∧ pos_le (Start (tk_Range t)) (End (tk_Range t))) ∧
    (∀ i t t', tokens !! i = Some t → tokens !! S i = Some t' → pos_le (End (tk_Range t)) (Start (tk_Range t'))) ∧
    decode semanticTokenLegend 0 0 (encodeSemanticTokens tokens) = Some (omap view tokens) ∧
    (separator_ok NamespaceSeparator → analysis_aligned analysis text → well_encoded text → ∀ t, t ∈ tokens →
      Line (Start (tk_Range t)) = Line (End (tk_Range t)) ∧ Character (Start (tk_Range t)) < Character (End (tk_Range t))).
Proof.
  intros Hlen. unfold SemanticTokens. rewrite (keep_tokens text Hlen). set (spans := sorted_spans _ _ _).
  eexists. split; [done|].
  assert (chain 0 (length text) (map fst (kept text (-1) spans))) as Hc.
  { apply (kept_chain text (-1) (-1)); [apply SliceStable_spec|lia|by left]. }
  split_and!.
  - intros t Ht. apply list_elem_of_fmap in Ht as (p & -> & Hp). split; [eapply spans_known, kept_from, Hp|].
    apply list_elem_of_lookup in Hp as (i & Hi). by apply (chain_positions text Hlen _ _ _ _ _ p Hc Hi).
  - intros i t t'. rewrite !list_lookup_fmap. intros (p & Hp & ->)%fmap_Some (q & Hq & ->)%fmap_Some.
    by apply (chain_positions text Hlen _ _ _ _ _ q Hc Hp).
  - apply encoded_view; [|by eapply kept_sorted]. apply Forall_forall. intros t Ht.
    apply list_elem_of_fmap in Ht as (p & -> & _). by apply position_u32.
  - intros Hsep Hal Hw t Ht. apply list_elem_of_fmap in Ht as (p & -> & Hp). simpl. apply line_piece_positions; [done|done|].
    eapply kept_lines; [|exact Hp]. intros item. by apply spans_aligned.
Qed.

(** ** Examples *)

(** In an ASCII text every offset is between runes. *)
Lemma ascii_aligned text span : Forall (λ b, 0 ≤ b < 128) text → well_encoded text ∧ aligned text span.
Proof.
  intros Ha. assert (∀ o, (o ≤ length text)%nat → boundary text o) as B.
  { intros [|o] Ho; [exists 0; constructor|]. destruct (lookup_lt_is_Some_2 text o) as [b Hb]; [lia|].
    rewrite Forall_lookup in Ha. eapply ascii_boundary; eauto. }
  split; [|split; apply B; lia]. intros o b _ Hb. rewrite Forall_lookup in Ha.
  apply (byte_check RuneStart 0 128); [vm_compute; reflexivity|]. specialize (Ha _ _ Hb). lia.
Qed.

Definition newline : string := String (Ascii.ascii_of_nat 10) EmptyString.

(** A comment over two lines and a call of a function of a namespace. *)
Definition sample_text : list Z := bytes_of_string ("/* a" +:+ newline +:+ "b */ X::F()").

Definition sample_analysis : Analysis :=
  mkAnalysis [] [] [mkSpan 10 14] [(SyntaxTokenKindComment, mkSpan 0 9); (SyntaxTokenKindNamespace, mkSpan 10 11)].

Definition separator : list Z := bytes_of_string "::".

Example sample_tokens :
  SemanticTokens separator sample_analysis sample_text = Ret
    [mkToken (mkRange (mkPosition 0 0) (mkPosition 0 4)) SemanticTokenComment 0;
     mkToken (mkRange (mkPosition 1 0) (mkPosition 1 4)) SemanticTokenComment 0;
     mkToken (mkRange (mkPosition 1 5) (mkPosition 1 6)) SemanticTokenNamespace 0;
     mkToken (mkRange (mkPosition 1 8) (mkPosition 1 9)) SemanticTokenFunction 0].
Proof. vm_compute. reflexivity. Qed.

Lemma semantic_tokens_round_trip_witness :
  let values := [mkToken (mkRange (mkPosition 1 2) (mkPosition 1 5)) SemanticTokenKeyword 0;
                 mkToken (mkRange (mkPosition 1 7) (mkPosition 1 9)) SemanticTokenVariable 3;
                 mkToken (mkRange (mkPosition 3 0) (mkPosition 3 4)) SemanticTokenFunction 0] in
  encodeSemanticTokens values = [1; 2; 3; 4; 0; 0; 5; 2; 2; 3; 2; 0; 4; 1; 0] ∧
  decode semanticTokenLegend 0 0 (encodeSemanticTokens values) =
    Some [(1, 2, 3, "keyword", []); (1, 7, 2, "variable", ["declaration"; "readonly"]); (3, 0, 4, "function", [])].
Proof.
  intros values. split; [vm_compute; reflexivity|].
  rewrite (semantic_tokens_round_trip values); [vm_compute; reflexivity| |]; unfold is_u32, pos_le; repeat constructor; simpl; lia.
Defined.

(** Out of order the differences wrap around, and a client that adds them is lost. *)
Example unordered_tokens_lost :
  decode semanticTokenLegend 0 0 (encodeSemanticTokens
    [mkToken (mkRange (mkPosition 3 7) (mkPosition 3 9)) SemanticTokenVariable 0;
     mkToken (mkRange (mkPosition 1 2) (mkPosition 1 5)) SemanticTokenKeyword 0]) =
  Some [(3, 7, 2, "variable", []); (4294967297, 2, 3, "keyword", [])].
Proof. vm_compute. reflexivity. Qed.

Lemma semantic_tokens_well_formed_witness :
  ∃ tokens, SemanticTokens separator sample_analysis sample_text = Ret tokens ∧
    ∀ t, t ∈ tokens → Line (Start (tk_Range t)) = Line (End (tk_Range t)).
Proof.
  assert (Forall (λ b, 0 ≤ b < 128) sample_text) as Ha by (repeat (constructor; [split; [discriminate|reflexivity]|]); constructor).
  destruct (semantic_tokens_well_formed separator sample_analysis sample_text) as (tokens & E & _ & _ & _ & L); [vm_compute; reflexivity|].
  exists tokens. split; [exact E|]. intros t Ht. apply L; [| | |exact Ht].
  - split; [discriminate|]. repeat (constructor; [split; [discriminate|reflexivity]|]). constructor.
  - repeat split; intros; by apply ascii_aligned.
  - exact (proj1 (ascii_aligned sample_text (mkSpan 0 0) Ha)).
Defined.
