(* ===== verification/Symbols.v ===== *)
(** * Document symbols, definitions and references

    [internal/language/symbols.go] and [resolve.go]: the declarations of a document
    arranged by their nearest containing function, the symbol at a position, its
    definition and its references.  The queries of the compiler's analysis
    ([SymbolAt], [ReferenceAt], [CallAt], [TypeAt], [ReferencesTo]) are
    parameters. *)

From stdpp Require Import sorting.
From S2P Require Import Prelude Source SemanticTokens.
Local Open Scope Z_scope.

Global Instance SymbolKind_eq_dec : EqDecision SymbolKind.
Proof. solve_decision. Defined.

(** [compiler.ValueType]. *)
Inductive ValueType :=
| ValueTypeUnknown
| ValueTypeAny
| ValueTypeNone
| ValueTypeInteger
| ValueTypeFloat
| ValueTypeDuration
| ValueTypeBoolean
| ValueTypeString
| ValueTypeArray
| ValueTypeObject
| ValueTypeList
| ValueTypeMap
| ValueTypeOther.

Global Instance ValueType_eq_dec : EqDecision ValueType.
Proof. solve_decision. Defined.

(** [compiler.Symbol], as far as [symbols.go] and [resolve.go] use it. *)
Record symbol := mkSymbol {
  sb_ID : Z;
  sb_Name : string;
  sb_Kind : SymbolKind;
  sb_Type : ValueType;
  sb_HasDeclaration : bool;
  sb_DeclarationSpan : Span;
  sb_SelectionSpan : Span
}.

Record symbolValue := mkValue {
  sv_Name : string;
  sv_Range : Range;
  sv_SelectionRange : Range;
  sv_Kind : SymbolKind;
  sv_Type : ValueType
}.

Record documentSymbolNode := mkNode {
  nd_symbol : symbol;
  nd_value : symbolValue
}.

(** [DocumentSymbol]: a value with its children. *)
Inductive DocumentSymbol := mkDocumentSymbol (value : symbolValue) (Children : list DocumentSymbol).

(** ** Nodes *)

Definition listed (s : symbol) : bool := sb_HasDeclaration s && negb (bool_decide (sb_Kind s = SymbolKindBindParameter)).

Definition node_of (mapper : Mapper) (s : symbol) : outcome documentSymbolNode :=
  range ← SpanToRange mapper (sb_DeclarationSpan s);
  selection ← SpanToRange mapper (sb_SelectionSpan s);
  Ret (mkNode s (mkValue (sb_Name s) range selection (sb_Kind s) (sb_Type s))).

(** The first loop of [DocumentSymbols]. *)
Definition symbol_nodes (mapper : Mapper) (symbols : list symbol) : outcome (list documentSymbolNode) :=
  mapM_outcome (node_of mapper) (filter (λ s, listed s = true) symbols).

(** ** Parents *)

Definition width (s : symbol) : Z := int64 (SpanEnd (sb_DeclarationSpan s) - SpanStart (sb_DeclarationSpan s)).

(** The function [container] contains the name of [s]. *)
Definition contains (container s : symbol) : bool :=
  bool_decide (sb_Kind container = SymbolKindUDF) &&
  negb ((SpanEnd (sb_DeclarationSpan container) <=? SpanStart (sb_DeclarationSpan container)) ||
        (SpanEnd (sb_SelectionSpan s) <? SpanStart (sb_SelectionSpan s)) ||
        (SpanStart (sb_SelectionSpan s) <? SpanStart (sb_DeclarationSpan container)) ||
        (SpanEnd (sb_DeclarationSpan container) <? SpanEnd (sb_SelectionSpan s))).

(** The loop over the candidates for the [i]-th node, from [candidate] on. *)
Fixpoint parent_loop (i candidate : nat) (rest : list symbol) (s : symbol) (parent : option nat) (bestWidth : Z) : option nat :=
  match rest with
  | [] => parent
  | container :: rest =>
      if bool_decide (i = candidate) || negb (contains container s) then parent_loop i (S candidate) rest s parent bestWidth
      else if bool_decide (parent = None) || (width container <? bestWidth)
      then parent_loop i (S candidate) rest s (Some candidate) (width container)
      else parent_loop i (S candidate) rest s parent bestWidth
  end.

Definition parent_of (symbols : list symbol) (i : nat) : option nat :=
  match symbols !! i with Some s => parent_loop i 0 symbols s None 0 | None => None end.

(** ** The tree *)

(** [children[index]] and [roots], in the order of the nodes. *)
Definition children_of (parents : list (option nat)) (index : nat) : list nat :=
  filter (λ i, parents !! i = Some (Some index)) (seq 0 (length parents)).

Definition roots_of (parents : list (option nat)) : list nat :=
  filter (λ i, parents !! i = Some None) (seq 0 (length parents)).

Inductive tree := Tree (index : nat) (subtrees : list tree).

Fixpoint mapM_option {A B} (f : A → option B) (l : list A) : option (list B) :=
  match l with
  | [] => Some []
  | x :: l => y ← f x; ys ← mapM_option f l; Some (y :: ys)
  end.

(** [build], as the tree of the indices; without [fuel] the recursion does not end. *)
Fixpoint build (fuel : nat) (parents : list (option nat)) (index : nat) : option tree :=
  match fuel with
  | O => None
  | S fuel => subtrees ← mapM_option (build fuel parents) (children_of parents index); Some (Tree index subtrees)
  end.

Definition build_all (parents : list (option nat)) : option (list tree) :=
  mapM_option (build (length parents) parents) (roots_of parents).

Fixpoint values (nodes : list documentSymbolNode) (t : tree) : list DocumentSymbol :=
  match t with
  | Tree index subtrees =>
      match nodes !! index with
      | Some node => [mkDocumentSymbol (nd_value node) (flat_map (values nodes) subtrees)]
      | None => []
      end
  end.

Definition parents_of (symbols : list symbol) : list (option nat) := map (parent_of symbols) (seq 0 (length symbols)).

(** [DocumentSymbols]; [None] if [build] did not end. *)
Definition DocumentSymbols (mapper : Mapper) (symbols : list symbol) : outcome (option (list DocumentSymbol)) :=
  nodes ← symbol_nodes mapper symbols;
  Ret (flat_map (values nodes) <$> build_all (parents_of (map nd_symbol nodes))).

(** ** Positions *)

Record reference := mkReference { rf_Span : Span }.

Inductive CallKind := CallKindUDF | CallKindOther.

Global Instance CallKind_eq_dec : EqDecision CallKind.
Proof. solve_decision. Defined.

Record call := mkCall {
  cl_Kind : CallKind;
  cl_Target : Z;
  cl_Identity : string;
  cl_CalleeSpan : Span;
  cl_ArgumentSpans : list Span
}.

Record typeFact := mkFact { tf_Type : ValueType; tf_Span : Span }.

(** [compiler.SyntaxWord]. *)
Inductive SyntaxWord :=
| SyntaxWordLet
| SyntaxWordVar
| SyntaxWordFunc
| SyntaxWordAs
| SyntaxWordReturn
| SyntaxWordFilter
| SyntaxWordSort
| SyntaxWordLimit
| SyntaxWordCollect
| SyntaxWordFor
| SyntaxWordWhile
| SyntaxWordUse
| SyntaxWordWaitfor
| SyntaxWordOther.

Record syntaxToken := mkSyntaxToken { tok_Word : SyntaxWord; tok_Span : Span }.

(** The analysis of the compiler. *)
Record queries := mkQueries {
  qu_SymbolAt : nat → option symbol;
  qu_ReferenceAt : nat → option reference;
  qu_CallAt : nat → option call;
  qu_TypeAt : nat → option typeFact;
  qu_ReferencesTo : Z → list reference;
  qu_Symbol : Z → option symbol;
  qu_FunctionParameters : Z → list symbol;
  qu_Symbols : list symbol;
  qu_VisibleSymbols : nat → list symbol;
  qu_SyntaxTokens : list syntaxToken
}.

Record resolution := mkResolution {
  rs_Symbol : option symbol;
  rs_Call : option call;
  rs_Type : option typeFact;
  rs_Range : Range;
  rs_Declaration : option Range;
  rs_Offset : nat
}.

Definition zero_range : Range := mkRange (mkPosition 0 0) (mkPosition 0 0).

Definition resolve (mapper : Mapper) (q : queries) (position : Position) : outcome resolution :=
  offset ← PositionToOffset mapper position;
  '(range, declaration) ←
    match qu_SymbolAt q offset with
    | Some s => if sb_HasDeclaration s then r ← SpanToRange mapper (sb_SelectionSpan s); Ret (r, Some r) else Ret (zero_range, None)
    | None => Ret (zero_range, None)
    end;
  range ← match qu_ReferenceAt q offset with Some r => SpanToRange mapper (rf_Span r) | None => Ret range end;
  range ←
    match qu_CallAt q offset with
    | Some c =>
        if (SpanStart (cl_CalleeSpan c) <=? Z.of_nat offset) && (Z.of_nat offset <? SpanEnd (cl_CalleeSpan c))
        then SpanToRange mapper (cl_CalleeSpan c) else Ret range
    | None => Ret range
    end;
  range ←
    match qu_TypeAt q offset with
    | Some fact => if bool_decide (range = zero_range) then SpanToRange mapper (tf_Span fact) else Ret range
    | None => Ret range
    end;
  Ret (mkResolution (qu_SymbolAt q offset) (qu_CallAt q offset) (qu_TypeAt q offset) range declaration offset).

(** [Definition], as the range in the document. *)
Definition Definition_ (mapper : Mapper) (q : queries) (position : Position) : outcome (option Range) :=
  resolved ← resolve mapper q position;
  Ret (match rs_Symbol resolved with Some _ => rs_Declaration resolved | None => None end).

(** [sort.SliceStable] by the offset of the start. *)
Fixpoint insert_location (key : Range → Z) (x : Range) (l : list Range) : list Range :=
  match l with
  | [] => [x]
  | y :: l => if key x <? key y then x :: y :: l else y :: insert_location key x l
  end.

Definition start_offset (mapper : Mapper) (r : Range) : Z :=
  match PositionToOffset mapper (Start r) with Ret o => Z.of_nat o | _ => 0 end.

Definition References (mapper : Mapper) (q : queries) (position : Position) (includeDeclaration : bool) : outcome (list Range) :=
  resolved ← resolve mapper q position;
  match rs_Symbol resolved with
  | None => Ret []
  | Some s =>
      declared ← (if includeDeclaration && sb_HasDeclaration s then r ← SpanToRange mapper (sb_SelectionSpan s); Ret [r] else Ret []);
      found ← mapM_outcome (λ r, SpanToRange mapper (rf_Span r)) (qu_ReferencesTo q (sb_ID s));
      Ret (foldl (λ sorted x, insert_location (start_offset mapper) x sorted) [] (declared ++ found))
  end.

(** ** The nearest container *)

(** [parent] is the narrowest function of [symbols], the [i]-th apart, that
    contains the name of [s]; [None] if there is none. *)
Definition nearest (symbols : list symbol) (i : nat) (s : symbol) (parent : option nat) : Prop :=
  match parent with
  | None => ∀ j c, symbols !! j = Some c → j ≠ i → contains c s = false
  | Some p => p ≠ i ∧ ∃ container, symbols !! p = Some container ∧ contains container s = true ∧
      ∀ j c, symbols !! j = Some c → j ≠ i → contains c s = true → width container ≤ width c
  end.

Definition width_at (symbols : list symbol) (parent : option nat) (bestWidth : Z) : Prop :=
  ∀ p container, parent = Some p → symbols !! p = Some container → bestWidth = width container.

Lemma nearest_skip pre container i s parent : nearest pre i s parent →
  (i = length pre ∨ contains container s = false) → nearest (pre ++ [container]) i s parent.
Proof.
  intros Hnear Hskip. destruct parent as [p|]; simpl in *.
  - destruct Hnear as (Hne & c & Hp & Hc & Hmin). split; [done|]. exists c.
    split; [by apply lookup_app_l_Some|]. split; [done|]. intros j c' [Hj|[Hlen Hj]]%lookup_app_Some Hji Hin.
    + by eapply Hmin.
    + apply list_lookup_singleton_Some in Hj as [? ->]. destruct Hskip; [lia|congruence].
  - intros j c' [Hj|[Hlen Hj]]%lookup_app_Some Hji; [by eapply Hnear|].
    apply list_lookup_singleton_Some in Hj as [? ->]. destruct Hskip; [lia|done].
Qed.

Lemma nearest_take pre container i s parent bestWidth : nearest pre i s parent → width_at pre parent bestWidth →
  i ≠ length pre → contains container s = true → parent = None ∨ width container < bestWidth →
  nearest (pre ++ [container]) i s (Some (length pre)).
Proof.
  intros Hnear Hwidth Hi Hc Hbest. split; [done|]. exists container. split; [by apply list_lookup_middle|]. split; [done|].
  intros j c' [Hj|[Hlen Hj]]%lookup_app_Some Hji Hin.
  - destruct parent as [p|]; simpl in Hnear.
    + destruct Hnear as (_ & best & Hp & _ & Hmin). destruct Hbest as [|Hbest]; [done|].
      rewrite (Hwidth p best eq_refl Hp) in Hbest. specialize (Hmin j c' Hj Hji Hin). lia.
    + by rewrite (Hnear j c' Hj Hji) in Hin.
  - apply list_lookup_singleton_Some in Hj as [? ->]. done.
Qed.

Lemma nearest_keep pre container i s p bestWidth : nearest pre i s (Some p) → width_at pre (Some p) bestWidth →
  bestWidth ≤ width container → nearest (pre ++ [container]) i s (Some p).
Proof.
  intros (Hne & best & Hp & Hc & Hmin) Hwidth Hle. split; [done|]. exists best.
  split; [by apply lookup_app_l_Some|]. split; [done|]. intros j c' [Hj|[Hlen Hj]]%lookup_app_Some Hji Hin.
  - by eapply Hmin.
  - apply list_lookup_singleton_Some in Hj as [? ->]. by rewrite (Hwidth p best eq_refl Hp) in Hle.
Qed.

Lemma width_at_snoc pre container i s parent bestWidth :
  nearest pre i s parent → width_at pre parent bestWidth → width_at (pre ++ [container]) parent bestWidth.
Proof.
  intros Hnear Hwidth p c -> Hp. destruct Hnear as (_ & best & Hbest & _).
  rewrite (lookup_app_l_Some _ _ _ _ Hbest) in Hp. simplify_eq. by apply (Hwidth p c).
Qed.

Lemma parent_loop_nearest i s rest : ∀ pre parent bestWidth,
  nearest pre i s parent → width_at pre parent bestWidth →
  nearest (pre ++ rest) i s (parent_loop i (length pre) rest s parent bestWidth).
Proof.
  induction rest as [|container rest IH]; intros pre parent bestWidth Hnear Hwidth; simpl; [by rewrite app_nil_r|].
  rewrite (cons_middle container pre rest), app_assoc.
  replace (S (length pre)) with (length (pre ++ [container])) by (rewrite length_app; simpl; lia).
  pose proof (width_at_snoc pre container i s parent bestWidth Hnear Hwidth) as Hsnoc.
  destruct (bool_decide (i = length pre) || negb (contains container s)) eqn:Hskip.
  - apply IH; [|done]. apply nearest_skip; [done|].
    apply orb_true_iff in Hskip as [Hi%bool_decide_eq_true|Hc%negb_true_iff]; auto.
  - apply orb_false_iff in Hskip as [Hi%bool_decide_eq_false Hc%negb_false_iff].
    destruct (bool_decide (parent = None) || (width container <? bestWidth)) eqn:Hbest.
    + apply IH.
      * eapply nearest_take; try done.
        apply orb_true_iff in Hbest as [?%bool_decide_eq_true|?%Z.ltb_lt]; auto.
      * intros p c [= <-] Hp. rewrite list_lookup_middle in Hp by done. by simplify_eq.
    + apply orb_false_iff in Hbest as [Hsome%bool_decide_eq_false Hle%Z.ltb_ge].
      destruct parent as [p|]; [|done]. apply IH; [|done]. by eapply nearest_keep.
Qed.

Lemma parent_of_nearest symbols i s : symbols !! i = Some s → nearest symbols i s (parent_of symbols i).
Proof.
  intros Hi. unfold parent_of. rewrite Hi.
  apply (parent_loop_nearest i s symbols [] None 0); [intros j c; by rewrite lookup_nil|done].
Qed.

(** ** The forest of a parent assignment *)

Definition root (t : tree) : nat := match t with Tree index _ => index end.

Fixpoint indices (t : tree) : list nat :=
  match t with Tree index subtrees => index :: flat_map indices subtrees end.

(** Below every index are its children, in the order of the nodes. *)
Inductive arranged (parents : list (option nat)) : tree → Prop :=
  | arranged_tree index subtrees :
      map root subtrees = children_of parents index → Forall (arranged parents) subtrees →
      arranged parents (Tree index subtrees).

(** The ancestors of an index up to a root, the index first. *)
Inductive chain (parents : list (option nat)) : list nat → Prop :=
  | chain_root i : parents !! i = Some None → chain parents [i]
  | chain_child i j l : parents !! i = Some (Some j) → chain parents (j :: l) → chain parents (i :: j :: l).

Lemma mapM_option_Some {A B} (f : A → option B) l ys : mapM_option f l = Some ys ↔ Forall2 (λ x y, f x = Some y) l ys.
Proof.
  split.
  - revert ys. induction l as [|x l IH]; intros ys Hm; simpl in Hm; [by simplify_eq|].
    destruct (f x) as [y|] eqn:?; [simpl in Hm|done]. destruct (mapM_option f l) as [ys'|]; simpl in Hm; [|done].
    simplify_eq. constructor; auto.
  - induction 1 as [|x y l ys Hx _ IH]; [done|]. simpl. rewrite Hx. simpl. by rewrite IH.
Qed.

Lemma mapM_option_total {A B} (f : A → option B) l : (∀ x, x ∈ l → is_Some (f x)) → is_Some (mapM_option f l).
Proof.
  induction l as [|x l IH]; intros Hf; simpl; [done|].
  destruct (Hf x) as [y ->]; [by left|]. simpl. destruct IH as [ys ->]; [|done]. intros z ?. apply Hf. by right.
Qed.

Lemma exists_last' {A} (l : list A) : l ≠ [] → ∃ p x, l = p ++ [x].
Proof. intros Hl. destruct (exists_last Hl) as (p & x & ->). by exists p, x. Qed.

Section forest.
  Context (parents : list (option nat)).

Lemma elem_of_children i j : i ∈ children_of parents j ↔ parents !! i = Some (Some j).
Proof.
  unfold children_of. rewrite list_elem_of_filter, elem_of_seq. split; [by intros []|].
  intros Hi. split; [done|]. apply lookup_lt_Some in Hi. lia.
Qed.

Lemma elem_of_roots i : i ∈ roots_of parents ↔ parents !! i = Some None.
Proof.
  unfold roots_of. rewrite list_elem_of_filter, elem_of_seq. split; [by intros []|].
  intros Hi. split; [done|]. apply lookup_lt_Some in Hi. lia.
Qed.

Lemma NoDup_children j : NoDup (children_of parents j).
Proof. apply NoDup_filter, NoDup_seq. Qed.

Lemma NoDup_roots : NoDup (roots_of parents).
Proof. apply NoDup_filter, NoDup_seq. Qed.

Lemma chain_unique l1 : ∀ i l2, chain parents (i :: l1) → chain parents (i :: l2) → l1 = l2.
Proof.
  induction l1 as [|j l1 IH]; intros i l2 H1 H2; inversion H1; inversion H2; simplify_eq; [done|].
  f_equal. by eapply IH.
Qed.

Lemma chain_suffix p i l : chain parents (p ++ i :: l) → chain parents (i :: l).
Proof.
  induction p as [|x p IH]; [done|]. intros Hc. apply IH. destruct p; simpl in *; by inversion Hc.
Qed.

Lemma chain_NoDup l : chain parents l → NoDup l.
Proof.
  induction 1 as [i Hi|i j l Hi Hc IH]; [apply NoDup_singleton|].
  constructor; [|done]. intros (p & q & Heq)%list_elem_of_split.
  assert (chain parents (i :: q)) as Hsuffix by (apply (chain_suffix p); by rewrite <- Heq).
  assert (chain parents (i :: j :: l)) as Hwhole by by constructor.
  pose proof (chain_unique _ _ _ Hwhole Hsuffix) as Hl.
  apply (f_equal length) in Heq, Hl. rewrite length_app in Heq. simpl in *. lia.
Qed.

Lemma chain_length l : chain parents l → (length l ≤ length parents)%nat.
Proof.
  intros Hc. pose proof (chain_NoDup l Hc) as Hnd. rewrite <- (length_seq (length parents) 0).
  apply submseteq_length, NoDup_submseteq; [done|]. intros x Hx. apply elem_of_seq. split; [lia|]. clear Hnd. simpl.
  induction Hc as [i Hi|i j l Hi Hc IH].
  - apply list_elem_of_singleton in Hx as ->. by eapply lookup_lt_Some.
  - apply elem_of_cons in Hx as [->|Hx]; [by eapply lookup_lt_Some|auto].
Qed.

(** Fuel for the nodes that are not on the way from the root is enough. *)
Lemma build_total fuel : ∀ i l, chain parents (i :: l) → (length parents ≤ length l + fuel)%nat → is_Some (build fuel parents i).
Proof.
  induction fuel as [|fuel IH]; intros i l Hc Hfuel.
  - apply chain_length in Hc. simpl in Hc. lia.
  - simpl. destruct (mapM_option_total (build fuel parents) (children_of parents i)) as [ts ->]; [|done].
    intros x Hx%elem_of_children. apply (IH x (i :: l)); [by constructor|simpl; lia].
Qed.

Lemma build_all_total : is_Some (build_all parents).
Proof.
  apply mapM_option_total. intros x Hx%elem_of_roots. apply (build_total _ x []); [by constructor|simpl; lia].
Qed.

Lemma build_inv fuel i t : build fuel parents i = Some t → ∃ fuel' ts, fuel = S fuel' ∧ t = Tree i ts ∧
  Forall2 (λ c t, build fuel' parents c = Some t) (children_of parents i) ts.
Proof.
  destruct fuel as [|fuel]; simpl; [done|]. destruct (mapM_option _ _) as [ts|] eqn:Hm; simpl; [|done].
  intros [= <-]. exists fuel, ts. by apply mapM_option_Some in Hm.
Qed.

Lemma build_root fuel i t : build fuel parents i = Some t → root t = i.
Proof. by intros (? & ? & -> & -> & _)%build_inv. Qed.

Lemma map_root fuel cs ts : Forall2 (λ c t, build fuel parents c = Some t) cs ts → map root ts = cs.
Proof. induction 1 as [|c t cs ts Hb _ IH]; [done|]. simpl. by rewrite (build_root _ _ _ Hb), IH. Qed.

Lemma build_arranged fuel : ∀ i t, build fuel parents i = Some t → arranged parents t.
Proof.
  induction fuel as [|fuel IH]; intros i t (fuel' & ts & Hf & -> & Hts)%build_inv; simplify_eq.
  constructor; [by eapply map_root|]. induction Hts; constructor; eauto.
Qed.

(** The tree of an index holds the indices below it, and nothing else. *)
Lemma in_build fuel : ∀ i l t j, build fuel parents i = Some t → chain parents (i :: l) →
  j ∈ indices t ↔ ∃ p q, p ++ i :: l = j :: q ∧ chain parents (j :: q).
Proof.
  induction fuel as [|fuel IH]; intros i l t j (fuel' & ts & Hf & -> & Hts)%build_inv Hc; simplify_eq. simpl.
  rewrite elem_of_cons, list_elem_of_In, in_flat_map. split.
  - intros [->|(t & Ht & Hj)]; [by exists [], l|]. apply list_elem_of_In in Ht, Hj.
    apply list_elem_of_lookup in Ht as [k Ht]. destruct (Forall2_lookup_r _ _ _ _ _ Hts Ht) as (c & Hk & Hb).
    assert (chain parents (c :: i :: l)) as Hcc by (constructor; [by eapply elem_of_children, list_elem_of_lookup_2|done]).
    destruct (proj1 (IH c (i :: l) t j Hb Hcc) Hj) as (p & q & Heq & Hq). exists (p ++ [c]), q. by rewrite <- app_assoc.
  - intros (p & q & Heq & Hq). destruct (decide (p = [])) as [->|(p' & c & ->)%exists_last']; [left; by injection Heq|].
    right. rewrite <- app_assoc in Heq. simpl in Heq.
    assert (chain parents (c :: i :: l)) as Hcc by (apply (chain_suffix p'); by rewrite Heq).
    assert (c ∈ children_of parents i) as Hin by (apply elem_of_children; by inversion Hcc).
    apply list_elem_of_lookup in Hin as [k Hk]. destruct (Forall2_lookup_l _ _ _ _ _ Hts Hk) as (t & Ht & Hb).
    exists t. split; [by eapply list_elem_of_In, list_elem_of_lookup_2|]. apply list_elem_of_In.
    apply (IH c (i :: l) t j Hb Hcc). by exists p', q.
Qed.

(** Trees of different indices with the same ancestors share no index. *)
Lemma build_disjoint fuel a b l ta tb j : build fuel parents a = Some ta → build fuel parents b = Some tb →
  chain parents (a :: l) → chain parents (b :: l) → j ∈ indices ta → j ∈ indices tb → a = b.
Proof.
  intros Ha Hb Hca Hcb Hja Hjb.
  destruct (proj1 (in_build fuel a l ta j Ha Hca) Hja) as (p & q & Hp & Hq).
  destruct (proj1 (in_build fuel b l tb j Hb Hcb) Hjb) as (p' & q' & Hp' & Hq').
  rewrite <- (chain_unique _ _ _ Hq Hq'), <- Hp in Hp'.
  apply app_inj_2 in Hp' as [_ Heq]; [by simplify_eq|done].
Qed.

Lemma NoDup_forest fuel l cs ts : NoDup cs → Forall (λ c, chain parents (c :: l)) cs →
  (∀ c t, chain parents (c :: l) → build fuel parents c = Some t → NoDup (indices t)) →
  Forall2 (λ c t, build fuel parents c = Some t) cs ts → NoDup (flat_map indices ts).
Proof.
  intros Hnd Hcs Hone Hts. induction Hts as [|c t cs ts Hb Hts IH]; simpl; [constructor|].
  apply NoDup_cons in Hnd as [Hnot Hnd]. apply Forall_cons in Hcs as [Hc Hcs].
  apply NoDup_app. split; [by eapply Hone|]. split; [|by apply IH].
  intros j Hj Hjs. rewrite list_elem_of_In in Hjs. apply in_flat_map in Hjs as (t' & Ht' & Hj').
  apply list_elem_of_In in Ht', Hj'. apply list_elem_of_lookup in Ht' as [k Ht'].
  destruct (Forall2_lookup_r _ _ _ _ _ Hts Ht') as (c' & Hk & Hb').
  rewrite Forall_lookup in Hcs. apply Hnot.
  rewrite (build_disjoint fuel c c' l t t' j); eauto. by eapply list_elem_of_lookup_2.
Qed.

Lemma build_NoDup fuel : ∀ i l t, chain parents (i :: l) → build fuel parents i = Some t → NoDup (indices t).
Proof.
  induction fuel as [|fuel IH]; intros i l t Hc (fuel' & ts & Hf & -> & Hts)%build_inv; simplify_eq. simpl.
  assert (Forall (λ c, chain parents (c :: i :: l)) (children_of parents i)) as Hcs.
  { apply Forall_forall. intros c Hin%elem_of_children. by constructor. }
  constructor; [|by eapply (NoDup_forest fuel' (i :: l)); eauto using NoDup_children].
  rewrite list_elem_of_In, in_flat_map. intros (t & Ht & Hj). apply list_elem_of_In in Ht, Hj.
  apply list_elem_of_lookup in Ht as [k Ht]. destruct (Forall2_lookup_r _ _ _ _ _ Hts Ht) as (c & Hk & Hb).
  rewrite Forall_lookup in Hcs. destruct (proj1 (in_build fuel' c (i :: l) t i Hb (Hcs _ _ Hk)) Hj) as (p & q & Heq & Hq).
  rewrite <- (chain_unique _ _ _ Hc Hq) in Heq. apply (f_equal length) in Heq.
  rewrite length_app in Heq. simpl in Heq. lia.
Qed.

Lemma build_all_spec ts : build_all parents = Some ts →
  map root ts = roots_of parents ∧ Forall (arranged parents) ts ∧ NoDup (flat_map indices ts) ∧
  ∀ j, j ∈ flat_map indices ts ↔ ∃ l, chain parents (j :: l).
Proof.
  intros Hts%mapM_option_Some. split_and!.
  - by eapply map_root.
  - clear -Hts. induction Hts; constructor; eauto using build_arranged.
  - eapply (NoDup_forest _ [] _ ts NoDup_roots); [|eauto using build_NoDup|exact Hts].
    apply Forall_forall. intros c Hin%elem_of_roots. by constructor.
  - intros j. rewrite list_elem_of_In, in_flat_map. split.
    + intros (t & Ht & Hj). apply list_elem_of_In in Ht, Hj. apply list_elem_of_lookup in Ht as [k Ht].
      destruct (Forall2_lookup_r _ _ _ _ _ Hts Ht) as (c & Hk & Hb).
      apply list_elem_of_lookup_2, elem_of_roots in Hk.
      destruct (proj1 (in_build _ c [] t j Hb (chain_root _ _ Hk)) Hj) as (? & q & ? & ?). by exists q.
    + intros [l Hl]. destruct (exists_last' (j :: l)) as (p & r & Heq); [done|].
      assert (chain parents [r]) as Hr by (apply (chain_suffix p); by rewrite <- Heq).
      assert (parents !! r = Some None) as Hroot by by inversion Hr.
      apply elem_of_roots, list_elem_of_lookup in Hroot as [k Hk].
      destruct (Forall2_lookup_l _ _ _ _ _ Hts Hk) as (t & Ht & Hb).
      exists t. split; [by eapply list_elem_of_In, list_elem_of_lookup_2|]. apply list_elem_of_In.
      apply (in_build _ r [] t j Hb Hr). by exists p, l.
Qed.

End forest.

(** ** Properties *)

Lemma tree_nested_ind (P : tree → Prop) : (∀ index subtrees, Forall P subtrees → P (Tree index subtrees)) → ∀ t, P t.
Proof.
  intros Hstep. fix IH 1. intros [index subtrees]. apply Hstep.
  induction subtrees as [|t subtrees IHs]; constructor; [apply IH|apply IHs].
Qed.

(** The symbols of a result, a symbol before its children. *)
Fixpoint flatten (d : DocumentSymbol) : list symbolValue :=
  match d with mkDocumentSymbol value children => value :: flat_map flatten children end.

Lemma flat_map_flat_map {A B C} (g : B → list C) (f : A → list B) l :
  flat_map g (flat_map f l) = flat_map (λ x, flat_map g (f x)) l.
Proof. induction l as [|x l IH]; [done|]. simpl. by rewrite flat_map_app, IH. Qed.

Lemma omap_flat_map {A B C} (g : B → option C) (f : A → list B) l :
  omap g (flat_map f l) = flat_map (λ x, omap g (f x)) l.
Proof. induction l as [|x l IH]; [done|]. simpl. by rewrite omap_app, IH. Qed.

Lemma flat_map_ext_in {A B} (f g : A → list B) l : (∀ x, In x l → f x = g x) → flat_map f l = flat_map g l.
Proof. induction l as [|x l IH]; intros H; [done|]. simpl. rewrite H, IH; [done|..]; intros; try apply H; simpl; auto. Qed.

Definition value_at (nodes : list documentSymbolNode) (i : nat) : option symbolValue := nd_value <$> nodes !! i.

Lemma flatten_values nodes t : (∀ i, i ∈ indices t → (i < length nodes)%nat) →
  flat_map flatten (values nodes t) = omap (value_at nodes) (indices t).
Proof.
  induction t as [index subtrees IH] using tree_nested_ind. intros Hbound. simpl.
  destruct (lookup_lt_is_Some_2 nodes index) as [node Hnode]; [apply Hbound; by left|].
  assert (value_at nodes index = Some (nd_value node)) as Hvalue by (unfold value_at; by rewrite Hnode).
  rewrite Hnode, Hvalue. simpl. rewrite app_nil_r. f_equal.
  rewrite flat_map_flat_map, omap_flat_map. rewrite Forall_forall in IH.
  apply flat_map_ext_in. intros t Ht%list_elem_of_In. apply IH; [done|].
  intros i Hi. apply Hbound. right. apply list_elem_of_In, in_flat_map. exists t. by rewrite <- !list_elem_of_In.
Qed.

Lemma flatten_forest nodes ts : (∀ i, i ∈ flat_map indices ts → (i < length nodes)%nat) →
  flat_map flatten (flat_map (values nodes) ts) = omap (value_at nodes) (flat_map indices ts).
Proof.
  intros Hbound. rewrite flat_map_flat_map, omap_flat_map. apply flat_map_ext_in. intros t Ht.
  apply flatten_values. intros i Hi. apply Hbound, list_elem_of_In, in_flat_map. exists t. by rewrite <- !list_elem_of_In in *.
Qed.

Lemma values_in_order nodes : omap (value_at nodes) (seq 0 (length nodes)) = map nd_value nodes.
Proof.
  induction nodes as [|node nodes IH] using rev_ind; [done|].
  rewrite length_app, seq_app, omap_app, map_app. simpl. f_equal.
  - rewrite <- IH. apply list_omap_ext, Forall_Forall2_diag, Forall_forall. intros i [_ Hi]%elem_of_seq.
    unfold value_at. by rewrite lookup_app_l.
  - unfold value_at. by rewrite list_lookup_middle.
Qed.

(** Functions lie properly inside the functions that contain their names. *)
Definition nested (symbols : list symbol) : Prop :=
  ∀ i j s c, symbols !! i = Some s → symbols !! j = Some c → i ≠ j →
    sb_Kind s = SymbolKindUDF → contains c s = true → width s < width c.

Lemma lookup_parents symbols i s : symbols !! i = Some s → parents_of symbols !! i = Some (parent_of symbols i).
Proof.
  intros Hi. unfold parents_of. change (map ?f ?l) with (f <$> l). rewrite list_lookup_fmap.
  rewrite lookup_seq_lt by (by eapply lookup_lt_Some). done.
Qed.

Lemma length_parents symbols : length (parents_of symbols) = length symbols.
Proof. unfold parents_of. by rewrite length_map, length_seq. Qed.

Lemma contains_UDF c s : contains c s = true → sb_Kind c = SymbolKindUDF.
Proof. unfold contains. intros [H%bool_decide_eq_true _]%andb_true_iff. done. Qed.

Lemma width_bound (symbols : list symbol) : ∃ w, ∀ (i : nat) s, symbols !! i = Some s → width s ≤ w.
Proof.
  induction symbols as [|s0 symbols [w Hw]]; [exists 0; intros i s; by rewrite lookup_nil|].
  exists (Z.max (width s0) w). intros [|i] s Hi; simpl in Hi; [simplify_eq; lia|]. specialize (Hw i s Hi). lia.
Qed.

(** When functions are properly nested, the ancestors of every function end at a root. *)
Lemma nested_chain_UDF symbols w : nested symbols → (∀ (i : nat) s, symbols !! i = Some s → width s ≤ w) →
  ∀ n i s, symbols !! i = Some s → sb_Kind s = SymbolKindUDF → (Z.to_nat (w - width s) < n)%nat →
  ∃ l, chain (parents_of symbols) (i :: l).
Proof.
  intros Hnest Hw. induction n as [|n IH]; intros i s Hi Hkind Hn; [lia|].
  pose proof (lookup_parents symbols i s Hi) as Hp. pose proof (parent_of_nearest symbols i s Hi) as Hnear.
  destruct (parent_of symbols i) as [p|]; [|exists []; by constructor].
  destruct Hnear as (Hne & c & Hc & Hin & _).
  pose proof (Hnest i p s c Hi Hc ltac:(done) Hkind Hin) as Hlt. pose proof (Hw p c Hc) as Hle.
  destruct (IH p c Hc (contains_UDF c s Hin) ltac:(lia)) as [l Hl]. exists (p :: l). by constructor.
Qed.

Lemma nested_chain symbols i : nested symbols → (i < length symbols)%nat → ∃ l, chain (parents_of symbols) (i :: l).
Proof.
  intros Hnest Hi. destruct (lookup_lt_is_Some_2 symbols i Hi) as [s Hs]. destruct (width_bound symbols) as [w Hw].
  pose proof (lookup_parents symbols i s Hs) as Hp. pose proof (parent_of_nearest symbols i s Hs) as Hnear.
  destruct (parent_of symbols i) as [p|]; [|exists []; by constructor].
  destruct Hnear as (Hne & c & Hc & Hin & _).
  destruct (nested_chain_UDF symbols w Hnest Hw (S (Z.to_nat (w - width c))) p c Hc) as [l Hl];
    [by eapply contains_UDF|lia|]. exists (p :: l). by constructor.
Qed.

Lemma mapM_outcome_total {A B} (f : A → outcome B) l : (∀ x, x ∈ l → ∃ y, f x = Ret y) →
  ∃ ys, mapM_outcome f l = Ret ys ∧ Forall2 (λ x y, f x = Ret y) l ys.
Proof.
  induction l as [|x l IH]; intros Hf; [by exists []|]. simpl.
  destruct (Hf x) as [y Hy]; [by left|]. destruct IH as (ys & Hys & Hall); [intros z ?; apply Hf; by right|].
  exists (y :: ys). rewrite Hy. simpl. rewrite Hys. simpl. split; [done|]. by constructor.
Qed.

Lemma symbol_nodes_total t symbols : Z.of_nat (length t) < 2 ^ 32 → ∃ nodes,
  symbol_nodes (NewMapper t) symbols = Ret nodes ∧ map nd_symbol nodes = filter (λ s, listed s = true) symbols.
Proof.
  intros Hlen. destruct (mapM_outcome_total (node_of (NewMapper t)) (filter (λ s, listed s = true) symbols)) as (nodes & Hn & Hall).
  { intros s _. unfold node_of. destruct (SpanToRange_total t (sb_DeclarationSpan s) Hlen) as (r & -> & _).
    destruct (SpanToRange_total t (sb_SelectionSpan s) Hlen) as (r' & -> & _). by eexists. }
  exists nodes. split; [done|]. clear Hn. induction Hall as [|s node ss nodes Hs _ IH]; [done|].
  simpl. rewrite IH. f_equal. unfold node_of in Hs.
  destruct (SpanToRange _ (sb_DeclarationSpan s)); simplify_eq/=. destruct (SpanToRange _ _); by simplify_eq/=.
Qed.

(** The declarations in [result], with their parents, for a document with these nodes. *)
Record symbol_forest (nodes : list documentSymbolNode) (forest : list tree) : Prop := mkForest {
  sf_nearest : ∀ i s, map nd_symbol nodes !! i = Some s →
    ∃ p, parents_of (map nd_symbol nodes) !! i = Some p ∧ nearest (map nd_symbol nodes) i s p;
  sf_roots : map root forest = roots_of (parents_of (map nd_symbol nodes));
  sf_arranged : Forall (arranged (parents_of (map nd_symbol nodes))) forest;
  sf_once : NoDup (flat_map indices forest);
  sf_all : nested (map nd_symbol nodes) → flat_map flatten (flat_map (values nodes) forest) ≡ₚ map nd_value nodes
}.

Lemma build_all_forest nodes forest : build_all (parents_of (map nd_symbol nodes)) = Some forest → symbol_forest nodes forest.
Proof.
  intros Hb. destruct (build_all_spec _ forest Hb) as (Hroots & Harr & Hnd & Hin). constructor; try done.
  - intros i s Hi. exists (parent_of (map nd_symbol nodes) i). by split; [eapply lookup_parents|apply parent_of_nearest].
  - intros Hnest.
    assert (∀ i, i ∈ flat_map indices forest ↔ (i < length nodes)%nat) as Hiff.
    { intros i. rewrite Hin. rewrite <- (length_map nd_symbol nodes). split; [|by apply nested_chain].
      intros [l Hl]. rewrite <- length_parents. inversion Hl; by eapply lookup_lt_Some. }
    rewrite flatten_forest by (intros i; apply Hiff). rewrite <- values_in_order. apply omap_Permutation.
    apply NoDup_Permutation; [done|apply NoDup_seq|]. intros i. rewrite Hiff, elem_of_seq. lia.
Qed.

(** C28. The document symbols of every document are computed without a panic and
    the recursion that builds them ends, whatever spans the compiler reports,
    functions that contain each other's names included.  The roots are the
    declarations that no function contains and the children of a function are
    the declarations whose narrowest containing function it is, each in the
    order of the declarations; no declaration is listed twice, and when
    functions are properly nested every declaration is listed. *)
Theorem document_symbols_tree (t : list Z) (symbols : list symbol) : Z.of_nat (length t) < 2 ^ 32 →
  ∃ nodes forest,
    symbol_nodes (NewMapper t) symbols = Ret nodes ∧
    map nd_symbol nodes = filter (λ s, listed s = true) symbols ∧
    DocumentSymbols (NewMapper t) symbols = Ret (Some (flat_map (values nodes) forest)) ∧
    symbol_forest nodes forest.
Proof.
  intros Hlen. destruct (symbol_nodes_total t symbols Hlen) as (nodes & Hn & Hs).
  destruct (build_all_total (parents_of (map nd_symbol nodes))) as [forest Hf].
  exists nodes, forest. split_and!; [done..| |by apply build_all_forest].
  unfold DocumentSymbols. rewrite Hn. simpl. by rewrite Hf.
Qed.

Definition function_symbol (name : string) (declaration selection : Span) : symbol :=
  mkSymbol 0 name SymbolKindUDF ValueTypeUnknown true declaration selection.

(** A function, a function inside it and two functions that contain each other's
    names: the last two are not listed. *)
Definition sample_symbols : list symbol :=
  [function_symbol "f" (mkSpan 0 9) (mkSpan 0 1); function_symbol "g" (mkSpan 2 5) (mkSpan 3 4);
   function_symbol "p" (mkSpan 10 12) (mkSpan 13 14); function_symbol "q" (mkSpan 13 15) (mkSpan 10 11)].

Lemma document_symbols_tree_witness : ∃ nodes forest,
  symbol_nodes (NewMapper (repeat 97 20)) sample_symbols = Ret nodes ∧
  map nd_symbol nodes = filter (λ s, listed s = true) sample_symbols ∧
  DocumentSymbols (NewMapper (repeat 97 20)) sample_symbols = Ret (Some (flat_map (values nodes) forest)) ∧
  symbol_forest nodes forest.
Proof. apply (document_symbols_tree (repeat 97 20) sample_symbols). reflexivity. Defined.

Definition symbol_names (result : outcome (option (list DocumentSymbol))) : option (list string) :=
  match result with Ret (Some ds) => Some (map sv_Name (flat_map flatten ds)) | _ => None end.

Example mutual_functions_unlisted :
  symbol_names (DocumentSymbols (NewMapper (repeat 97 20)) sample_symbols) = Some ["f"; "g"]%string.
Proof. vm_compute. reflexivity. Qed.

(** ** References *)

Lemma insert_location_perm key x l : insert_location key x l ≡ₚ x :: l.
Proof.
  induction l as [|y l IH]; simpl; [done|]. destruct (key x <? key y); [done|].
  rewrite IH. constructor.
Qed.

Lemma insert_location_sorted key x l : StronglySorted (λ a b, key a ≤ key b) l →
  StronglySorted (λ a b, key a ≤ key b) (insert_location key x l).
Proof.
  induction 1 as [|y l Hs IH Hy]; simpl; [repeat constructor|]. destruct (Z.ltb_spec (key x) (key y)).
  - constructor; [by constructor|]. constructor; [lia|]. eapply Forall_impl; [done|]. simpl. intros z ?. lia.
  - constructor; [done|]. rewrite insert_location_perm. constructor; [lia|done].
Qed.

Lemma sort_locations key l : ∀ sorted, StronglySorted (λ a b, key a ≤ key b) sorted →
  StronglySorted (λ a b, key a ≤ key b) (foldl (λ sorted x, insert_location key x sorted) sorted l) ∧
  foldl (λ sorted x, insert_location key x sorted) sorted l ≡ₚ l ++ sorted.
Proof.
  induction l as [|x l IH]; intros sorted Hs; simpl; [done|].
  destruct (IH (insert_location key x sorted)) as [Hsorted Hperm]; [by apply insert_location_sorted|].
  split; [done|]. rewrite Hperm, insert_location_perm. symmetry. apply Permutation_middle.
Qed.

Lemma SpanToRange_ret t span : Z.of_nat (length t) < 2 ^ 32 → ∃ r, SpanToRange (NewMapper t) span = Ret r.
Proof. intros Hlen. destruct (SpanToRange_total t span Hlen) as (r & ? & _). by exists r. Qed.

Ltac ranges t Hlen :=
  repeat match goal with
  | |- context [SpanToRange (NewMapper t) ?span] => destruct (SpanToRange_ret t span Hlen) as [? ->]; simpl
  end.

Lemma resolve_total t q position : Z.of_nat (length t) < 2 ^ 32 → 0 ≤ Line position →
  ∃ resolved, resolve (NewMapper t) q position = Ret resolved ∧ PositionToOffset (NewMapper t) position = Ret (rs_Offset resolved) ∧
    rs_Symbol resolved = qu_SymbolAt q (rs_Offset resolved) ∧
    (∀ s, rs_Symbol resolved = Some s → sb_HasDeclaration s = true →
       ∃ r, SpanToRange (NewMapper t) (sb_SelectionSpan s) = Ret r ∧ rs_Declaration resolved = Some r).
Proof.
  intros Hlen Hline. unfold resolve. destruct (PositionToOffset_total t position Hline) as (offset & -> & _). simpl.
  set (first := match qu_SymbolAt q offset with Some _ => _ | None => _ end).
  assert (∃ r d, first = Ret (r, d) ∧ ∀ s, qu_SymbolAt q offset = Some s → sb_HasDeclaration s = true →
    ∃ x, SpanToRange (NewMapper t) (sb_SelectionSpan s) = Ret x ∧ d = Some x) as (r & d & -> & Hd).
  { subst first. destruct (qu_SymbolAt q offset) as [s|]; [|by do 2 eexists]. destruct (sb_HasDeclaration s) eqn:Hs.
    - destruct (SpanToRange_ret t (sb_SelectionSpan s) Hlen) as [x Hx]. rewrite Hx. exists x, (Some x).
      split; [done|]. intros s' [= <-] _. by exists x.
    - do 2 eexists. split; [done|]. intros s' [= <-] ?. congruence. }
  simpl.
  destruct (qu_ReferenceAt q offset); simpl; ranges t Hlen;
  (destruct (qu_CallAt q offset) as [c|]; simpl; [destruct (_ && _)|]; simpl; ranges t Hlen);
  (destruct (qu_TypeAt q offset); simpl; [destruct (bool_decide _)|]; simpl; ranges t Hlen);
  (eexists; split; [reflexivity|]; simpl; auto).
Qed.

(** The references of the symbol at a position are returned without a panic, with
    its declaration when it is asked for and there is one, ordered by where they
    start; without a symbol there are none. *)
Theorem references_sorted (t : list Z) (q : queries) (position : Position) (includeDeclaration : bool) :
  Z.of_nat (length t) < 2 ^ 32 → 0 ≤ Line position →
  ∃ offset found, PositionToOffset (NewMapper t) position = Ret offset ∧
    References (NewMapper t) q position includeDeclaration = Ret found ∧
    StronglySorted (λ a b, start_offset (NewMapper t) a ≤ start_offset (NewMapper t) b) found ∧
    match qu_SymbolAt q offset with
    | None => found = []
    | Some s => ∃ selection spans,
        SpanToRange (NewMapper t) (sb_SelectionSpan s) = Ret selection ∧
        Forall2 (λ r x, SpanToRange (NewMapper t) (rf_Span r) = Ret x) (qu_ReferencesTo q (sb_ID s)) spans ∧
        found ≡ₚ (if includeDeclaration && sb_HasDeclaration s then [selection] else []) ++ spans
    end.
Proof.
  intros Hlen Hline. destruct (resolve_total t q position Hlen Hline) as (resolved & Hr & Ho & Hs & _).
  unfold References. rewrite Hr. simpl. rewrite Hs. exists (rs_Offset resolved).
  destruct (qu_SymbolAt q (rs_Offset resolved)) as [s|]; [|exists []; repeat constructor; done].
  destruct (SpanToRange_ret t (sb_SelectionSpan s) Hlen) as [selection Hsel].
  destruct (mapM_outcome_total (λ r, SpanToRange (NewMapper t) (rf_Span r)) (qu_ReferencesTo q (sb_ID s))) as (spans & Hm & Hall).
  { intros r _. by apply SpanToRange_ret. }
  rewrite Hsel, Hm.
  destruct (sort_locations (start_offset (NewMapper t)) ((if includeDeclaration && sb_HasDeclaration s then [selection] else []) ++ spans) []) as [Hsorted Hperm]; [constructor|].
  rewrite app_nil_r in Hperm. destruct (includeDeclaration && sb_HasDeclaration s); simpl in *;
    (eexists; split; [done|]; split; [reflexivity|]; split; [exact Hsorted|]; by exists selection, spans).
Qed.
