(* ===== verification/Catalog.v ===== *)
(** * The function catalog

    [internal/language/function_catalog.go], [function_catalog_reference.go],
    [function_name.go], [api_type.go] and the signature files: the executable
    functions of the runtime, indexed by their normalized names, with the metadata
    of the API reference merged into them, and their rendering as signatures and
    as Markdown.  The registry of the runtime, [runtime.NamespaceSeparator] and
    [runtime.NormalizeRegisteredName] are parameters. *)

From stdpp Require Import pretty sorting.
From S2P Require Import Prelude Paths Source SemanticTokens.

(** ** Signatures *)

Record SignatureParameter := mkParameter {
  sp_Name : string;
  sp_Label : string;
  sp_Type : string;
  sp_Description : string;
  sp_Variadic : bool
}.

Record SignatureReturn := mkReturn {
  sr_Type : string;
  sr_Description : string
}.

Record SignatureThrow := mkThrow {
  st_Error : string;
  st_Description : string
}.

Record Signature := mkSignature {
  sg_Label : string;
  sg_Parameters : list SignatureParameter;
  sg_Variadic : bool;
  sg_Description : string;
  sg_Return : option SignatureReturn;
  sg_Throws : list SignatureThrow;
  sg_Deprecated : string
}.

Definition signatureLabel (name : string) (parameters : list SignatureParameter) : string :=
  name +:+ "(" +:+ String.concat ", " (map sp_Label parameters) +:+ ")".

Definition signatureParameterLabel (name typeName : string) (variadic : bool) : string :=
  let name := if variadic then name +:+ "..." else name in
  if bool_decide (typeName = "") then name else name +:+ ": " +:+ typeName.

Definition placeholder (index : nat) : SignatureParameter :=
  let name := "arg" +:+ pretty (index + 1) in mkParameter name name "" "" false.

Definition placeholderParameters (arity : nat) (variadic : bool) : list SignatureParameter :=
  let parameters := map placeholder (seq 0 arity) in
  if variadic && (0 <? length parameters)%nat then
    alter (λ p, mkParameter (sp_Name p) (sp_Label p +:+ "...") (sp_Type p) (sp_Description p) true) (length parameters - 1) parameters
  else parameters.

(** [udfSignature], from the names of the parameters. *)
Definition udfSignature (name : string) (parameters : list string) : Signature :=
  let names := map (λ p, mkParameter p p "" "" false) parameters in
  mkSignature (signatureLabel name names) names false "" None [] "".

Definition completionSignatureDetail (signatures : list Signature) : string :=
  match signatures with
  | [] => "registered function"
  | _ => String.concat (byte 10) (map (λ s,
      match sg_Return s with
      | Some r => if bool_decide (sr_Type r = "") then sg_Label s else sg_Label s +:+ " → " +:+ sr_Type r
      | None => sg_Label s
      end) signatures)
  end.

(** The copies share nothing with the originals; values of the model never do. *)
Definition cloneSignatures (values : list Signature) : list Signature :=
  map (λ v, mkSignature (sg_Label v) (sg_Parameters v) (sg_Variadic v) (sg_Description v)
    (match sg_Return v with Some r => Some (mkReturn (sr_Type r) (sr_Description r)) | None => None end)
    (sg_Throws v) (sg_Deprecated v)) values.

(** ** Markdown *)

Definition newline : string := byte 10.
Definition blank : string := newline +:+ newline.

Definition described (head description : string) : string :=
  if bool_decide (description = "") then head else head +:+ " — " +:+ description.

Definition renderSignatureParameters (values : list SignatureParameter) : string :=
  String.concat newline (omap (λ v,
    if bool_decide (sp_Type v = "") && bool_decide (sp_Description v = "") then None
    else Some (described ("- `" +:+ sp_Label v +:+ "`") (sp_Description v))) values).

Definition renderSignatureThrows (values : list SignatureThrow) : string :=
  String.concat newline (map (λ v, described ("- `" +:+ st_Error v +:+ "`") (st_Description v)) values).

(** A section with its title; nothing for an empty text. *)
Definition section_of (title text : string) : list string :=
  if bool_decide (text = "") then [] else ["### " +:+ title +:+ blank +:+ text].

Definition renderSignatureMarkdown (value : Signature) (includeLabel : bool) : string :=
  String.concat blank (
    (if includeLabel then ["```fql" +:+ newline +:+ sg_Label value +:+ newline +:+ "```"] else []) ++
    section_of "Description" (sg_Description value) ++
    section_of "Parameters" (renderSignatureParameters (sg_Parameters value)) ++
    match sg_Return value with
    | Some r => ["### Returns" +:+ blank +:+ described ("`" +:+ sr_Type r +:+ "`") (sr_Description r)]
    | None => []
    end ++
    section_of "Throws" (renderSignatureThrows (sg_Throws value)) ++
    section_of "Deprecated" (sg_Deprecated value)).

Definition RenderSignaturesMarkdown (values : list Signature) : string :=
  String.concat (blank +:+ "---" +:+ blank) (map (λ v, renderSignatureMarkdown v true) values).

Definition RenderSignatureDocumentation (value : Signature) : string := renderSignatureMarkdown value false.

(** ** The API reference *)

Inductive TypeKind := TypeKindNamed | TypeKindUnion | TypeKindList | TypeKindOther (kind : string).

Inductive APIType := mkType (Kind : TypeKind) (Name : string) (Types : list APIType) (Element : option APIType).

Record APIParameter := mkAPIParameter { ap_Name : string; ap_Type : option APIType; ap_Description : string }.
Record APIReturn := mkAPIReturn { ar_Type : option APIType; ar_Description : string }.

Record APISignature := mkAPISignature {
  as_Parameters : list APIParameter;
  as_Variadic : bool;
  as_Description : string;
  as_Return : option APIReturn;
  as_Throws : list SignatureThrow;
  as_Deprecated : string
}.

Record APIFunction := mkAPIFunction { af_Name : string; af_Signatures : list APISignature }.
Record APINamespace := mkAPINamespace { an_Name : string; an_Functions : list APIFunction }.

(** [renderAPIType] of a pointer that is not nil. *)
Fixpoint render_type (value : APIType) : outcome string :=
  match value with
  | mkType kind name types element =>
      match kind with
      | TypeKindNamed => Ret name
      | TypeKindUnion =>
          members ← (fix go (types : list APIType) : outcome (list string) :=
            match types with
            | [] => Ret []
            | t :: types => member ← render_type t; members ← go types; Ret (member :: members)
            end) types;
          Ret (String.concat " | " members)
      | TypeKindList =>
          rendered ← match element with Some t => render_type t | None => Ret "" end;
          Ret ("[" +:+ rendered +:+ "]")
      | TypeKindOther kind => Panic ("language: unsupported validated API type kind " +:+ kind)
      end
  end.

Definition renderAPIType (value : option APIType) : outcome string :=
  match value with Some t => render_type t | None => Ret "" end.

Definition newSignatureThrows (values : list SignatureThrow) : list SignatureThrow :=
  map (λ v, mkThrow (st_Error v) (st_Description v)) values.

(** The loop over the parameters of a signature, from [index] on. *)
Fixpoint reference_parameters (variadic : bool) (total index : nat) (values : list APIParameter) : outcome (list SignatureParameter) :=
  match values with
  | [] => Ret []
  | p :: values =>
      let variadicParameter := variadic && (index =? total - 1)%nat in
      typeName ← renderAPIType (ap_Type p);
      rest ← reference_parameters variadic total (S index) values;
      Ret (mkParameter (ap_Name p) (signatureParameterLabel (ap_Name p) typeName variadicParameter) typeName (ap_Description p) variadicParameter :: rest)
  end.

Definition newReferenceSignature (name : string) (value : APISignature) : outcome Signature :=
  parameters ← reference_parameters (as_Variadic value) (length (as_Parameters value)) 0 (as_Parameters value);
  returned ← match as_Return value with
    | Some r => t ← renderAPIType (ar_Type r); Ret (Some (mkReturn t (ar_Description r)))
    | None => Ret None
    end;
  Ret (mkSignature (signatureLabel name parameters) parameters (as_Variadic value) (as_Description value) returned
    (newSignatureThrows (as_Throws value)) (as_Deprecated value)).

Definition newReferenceSignatures (name : string) (values : list APISignature) : outcome (list Signature) :=
  mapM_outcome (newReferenceSignature name) values.

Definition newSignaturesWithName (name : string) (values : list Signature) : list Signature :=
  map (λ v, mkSignature (signatureLabel name (sg_Parameters v)) (sg_Parameters v) (sg_Variadic v) (sg_Description v)
    (sg_Return v) (sg_Throws v) (sg_Deprecated v)) values.

(** ** The catalog *)

Record functionSymbol := mkFunction {
  fs_name : string;
  fs_identity : string;
  fs_arities : list nat;
  fs_runtimeVariadic : bool;
  fs_authored : bool;
  fs_signatures : list Signature;
  fs_detail : string;
  fs_documentation : string;
  fs_deprecated : bool
}.

Record FunctionCatalog := mkCatalog {
  fc_ordered : list functionSymbol;
  fc_byName : gmap string nat
}.

Inductive CatalogWarningKind := CatalogWarningReferenceOnly | CatalogWarningRuntimeOnly.

Record CatalogWarning := mkWarning { cw_Kind : CatalogWarningKind; cw_Name : string }.

Definition cacheCompletion (f : functionSymbol) : functionSymbol :=
  if fs_authored f then
    mkFunction (fs_name f) (fs_identity f) (fs_arities f) (fs_runtimeVariadic f) (fs_authored f) (fs_signatures f)
      (completionSignatureDetail (fs_signatures f)) (RenderSignaturesMarkdown (fs_signatures f))
      ((0 <? length (fs_signatures f))%nat && forallb (λ s, negb (bool_decide (sg_Deprecated s = ""))) (fs_signatures f))
  else
    mkFunction (fs_name f) (fs_identity f) (fs_arities f) (fs_runtimeVariadic f) (fs_authored f) (fs_signatures f)
      "registered function" "" false.

(** [runtime.Functions]: the names of the registry and the tables by arity. *)
Record Functions := mkFunctions {
  fn_List : list string;
  fn_A : nat → string → bool;
  fn_Var : string → bool
}.

Definition newRuntimeFunction (functions : Functions) (name identity : string) : functionSymbol :=
  cacheCompletion (mkFunction name identity (filter (λ n, fn_A functions n name = true) [0; 1; 2; 3; 4]%nat)
    (fn_Var functions name) false [] "" "" false).

Definition renderedSignatures (f : functionSymbol) (variadicArity : nat) : list Signature :=
  if fs_authored f then cloneSignatures (fs_signatures f)
  else
    map (λ arity, let parameters := placeholderParameters arity false in
      mkSignature (signatureLabel (fs_name f) parameters) parameters false "" None [] "") (fs_arities f) ++
    if fs_runtimeVariadic f then
      let parameters := placeholderParameters variadicArity true in
      [mkSignature (signatureLabel (fs_name f) parameters) parameters true "" None [] ""]
    else [].

Section catalog.
Context (NamespaceSeparator : string) (NormalizeRegisteredName : string → string).

(** The body of the loop of [NewRuntimeFunctionCatalog]. *)
Definition add_function (functions : Functions) (c : FunctionCatalog) (name : string) : FunctionCatalog :=
  let identity := NormalizeRegisteredName name in
  match fc_byName c !! identity with
  | Some _ => c
  | None => mkCatalog (fc_ordered c ++ [newRuntimeFunction functions name identity]) (<[identity := length (fc_ordered c)]> (fc_byName c))
  end.

(** [NewRuntimeFunctionCatalog]; [None] is the error of a nil registry. *)
Definition NewRuntimeFunctionCatalog (functions : option Functions) : option FunctionCatalog :=
  match functions with
  | None => None
  | Some functions => Some (foldl (add_function functions) (mkCatalog [] ∅) (fn_List functions))
  end.

Definition lookup_function (c : FunctionCatalog) (name : string) : outcome (option functionSymbol) :=
  match fc_byName c !! NormalizeRegisteredName name with
  | None => Ret None
  | Some index =>
      match fc_ordered c !! index with
      | Some f => Ret (Some f)
      | None => Panic "index out of range"
      end
  end.

Definition reference_name (namespace name : string) : string :=
  if bool_decide (namespace = "") then name else namespace +:+ NamespaceSeparator +:+ name.

Definition newReferenceFunction (namespace : string) (function : APIFunction) : outcome functionSymbol :=
  let name := reference_name namespace (af_Name function) in
  signatures ← newReferenceSignatures name (af_Signatures function);
  Ret (mkFunction name (NormalizeRegisteredName name) [] false true signatures "" "" false).

Definition newReferenceFunctions (reference : list APINamespace) : outcome (list functionSymbol) :=
  groups ← mapM_outcome (λ n, mapM_outcome (newReferenceFunction (an_Name n)) (an_Functions n)) reference;
  Ret (concat groups).

Definition index_references (functions : list functionSymbol) : gmap string functionSymbol :=
  foldl (λ m f, <[fs_identity f := f]> m) ∅ functions.

(** What the reference function [r] makes of the function [f]. *)
Definition merged (f r : functionSymbol) : functionSymbol :=
  cacheCompletion (mkFunction (fs_name f) (fs_identity f) (fs_arities f) (fs_runtimeVariadic f) true
    (newSignaturesWithName (fs_name f) (fs_signatures r)) (fs_detail f) (fs_documentation f) (fs_deprecated f)).

(** The loop of [mergeReference] over the functions of the catalog. *)
Fixpoint merge_loop (ordered : list functionSymbol) (byName : gmap string functionSymbol) :
    list functionSymbol * gmap string functionSymbol * list CatalogWarning :=
  match ordered with
  | [] => ([], byName, [])
  | f :: ordered =>
      match byName !! fs_identity f with
      | None =>
          let '(ordered, byName, warnings) := merge_loop ordered byName in
          (f :: ordered, byName, mkWarning CatalogWarningRuntimeOnly (fs_name f) :: warnings)
      | Some r =>
          let '(ordered, byName, warnings) := merge_loop ordered (delete (fs_identity f) byName) in
          (merged f r :: ordered, byName, warnings)
      end
  end.

(** The comparison of the warnings: by kind, then by name. *)
Definition warning_le (a b : CatalogWarning) : Prop :=
  match cw_Kind a, cw_Kind b with
  | CatalogWarningReferenceOnly, CatalogWarningRuntimeOnly => True
  | CatalogWarningRuntimeOnly, CatalogWarningReferenceOnly => False
  | _, _ => String.le (cw_Name a) (cw_Name b)
  end.

Global Instance warning_le_dec : RelDecision warning_le.
Proof. intros [[] a] [[] b]; unfold warning_le; simpl; apply _. Defined.

Definition mergeReference (c : FunctionCatalog) (reference : list APINamespace) : outcome (FunctionCatalog * list CatalogWarning) :=
  functions ← newReferenceFunctions reference;
  let '(ordered, rest, warnings) := merge_loop (fc_ordered c) (index_references functions) in
  Ret (mkCatalog ordered (fc_byName c),
       merge_sort warning_le (warnings ++ map (λ '(_, f), mkWarning CatalogWarningReferenceOnly (fs_name f)) (map_to_list rest))).

End catalog.

(** [strings.LastIndex] on strings. *)
Definition LastIndex_string (s separator : string) : option nat :=
  last (filter (λ i, HasPrefix (string_drop i s) separator = true) (seq 0 (S (String.length s)))).

Definition terminalName (NamespaceSeparator name : string) : string :=
  match LastIndex_string name NamespaceSeparator with
  | Some index => string_drop (index + String.length NamespaceSeparator) name
  | None => name
  end.

(** ** Rendering of validated references *)

(** A type whose kinds are the supported ones. *)
Fixpoint supported_type (value : APIType) : bool :=
  match value with
  | mkType kind name types element =>
      match kind with
      | TypeKindNamed => true
      | TypeKindUnion => (fix go (types : list APIType) : bool := match types with [] => true | t :: types => supported_type t && go types end) types
      | TypeKindList => match element with Some t => supported_type t | None => true end
      | TypeKindOther _ => false
      end
  end.

Definition supported (value : option APIType) : bool := match value with Some t => supported_type t | None => true end.

Definition supported_signature (s : APISignature) : bool :=
  forallb (λ p, supported (ap_Type p)) (as_Parameters s) && match as_Return s with Some r => supported (ar_Type r) | None => true end.

(** What the validation of an API reference guarantees. *)
Definition supported_reference (reference : list APINamespace) : bool :=
  forallb (λ n, forallb (λ f, forallb supported_signature (af_Signatures f)) (an_Functions n)) reference.

Lemma render_type_total : ∀ t, supported_type t = true → ∃ s, render_type t = Ret s.
Proof.
  fix IH 1. intros [[| | |kind] name types element]; simpl; [by eexists| | |done].
  - intros Hs. match goal with |- context [?go types] => set (render := go) end.
    assert (∃ l, render types = Ret l) as [l ->]; [|by eexists].
    revert Hs. induction types as [|t types IHt]; [by eexists|]. intros [Ht Hts]%andb_true_iff.
    destruct (IH t Ht) as [s Hr]. destruct (IHt Hts) as [l Hl]. simpl in *. rewrite Hr. simpl. rewrite Hl. by eexists.
  - destruct element as [t|]; [|by eexists]. intros Ht. destruct (IH t Ht) as [s Hr]. rewrite Hr. by eexists.
Qed.

Lemma renderAPIType_total value : supported value = true → ∃ s, renderAPIType value = Ret s.
Proof. destruct value as [t|]; [apply render_type_total|by eexists]. Qed.

Lemma mapM_outcome_ret {A B} (f : A → outcome B) (test : A → bool) l :
  (∀ x, test x = true → ∃ y, f x = Ret y) → forallb test l = true → ∃ ys, mapM_outcome f l = Ret ys.
Proof.
  intros Hf. induction l as [|x l IH]; simpl; [by eexists|]. intros [Hx Hl]%andb_true_iff.
  destruct (Hf x Hx) as [y ->]. destruct (IH Hl) as [ys Hys]. simpl. rewrite Hys. by eexists.
Qed.

Lemma reference_parameters_total variadic total values : ∀ index,
  forallb (λ p, supported (ap_Type p)) values = true → ∃ ps, reference_parameters variadic total index values = Ret ps.
Proof.
  induction values as [|p values IH]; intros index; simpl; [by eexists|]. intros [Hp Hs]%andb_true_iff.
  destruct (renderAPIType_total (ap_Type p) Hp) as [s ->]. destruct (IH (S index) Hs) as [ps Hps]. simpl. rewrite Hps. by eexists.
Qed.

Lemma newReferenceSignature_total name value : supported_signature value = true → ∃ s, newReferenceSignature name value = Ret s.
Proof.
  intros [Hp Hr]%andb_true_iff. unfold newReferenceSignature.
  destruct (reference_parameters_total (as_Variadic value) (length (as_Parameters value)) (as_Parameters value) 0 Hp) as [ps ->].
  simpl. destruct (as_Return value) as [r|]; simpl; [|by eexists].
  destruct (renderAPIType_total (ar_Type r) Hr) as [s ->]. by eexists.
Qed.

Lemma mapM_outcome_Forall {A B} (f : A → outcome B) (P : B → Prop) l ys :
  (∀ x y, f x = Ret y → P y) → mapM_outcome f l = Ret ys → Forall P ys.
Proof.
  intros Hf. revert ys. induction l as [|x l IH]; intros ys Hm; simpl in Hm; [by simplify_eq|].
  apply bind_Ret_inv in Hm as (y & Hy & (ys' & Hys & Hm)%bind_Ret_inv). simplify_eq. constructor; eauto.
Qed.

Lemma mapM_outcome_Forall2 {A B} (f : A → outcome B) (P : A → B → Prop) l ys :
  (∀ x y, f x = Ret y → P x y) → mapM_outcome f l = Ret ys → Forall2 P l ys.
Proof.
  intros Hf. revert ys. induction l as [|x l IH]; intros ys Hm; simpl in Hm; [by simplify_eq|].
  apply bind_Ret_inv in Hm as (y & Hy & (ys' & Hys & Hm)%bind_Ret_inv). simplify_eq. constructor; eauto.
Qed.

(** ** What a description is to become *)

(** A parameter of the reference; [variadic] says that it takes the rest. *)
Definition authored_parameter (variadic : bool) (p : APIParameter) (q : SignatureParameter) : Prop :=
  sp_Name q = ap_Name p ∧ sp_Description q = ap_Description p ∧ sp_Variadic q = variadic ∧ renderAPIType (ap_Type p) = Ret (sp_Type q).

(** A signature of the reference: the last parameter of a variadic one is variadic. *)
Definition authored_signature (s : APISignature) (s' : Signature) : Prop :=
  length (sg_Parameters s') = length (as_Parameters s) ∧
  (∀ i p q, as_Parameters s !! i = Some p → sg_Parameters s' !! i = Some q →
    authored_parameter (as_Variadic s && bool_decide (S i = length (as_Parameters s))) p q) ∧
  sg_Variadic s' = as_Variadic s ∧ sg_Description s' = as_Description s ∧ sg_Throws s' = as_Throws s ∧ sg_Deprecated s' = as_Deprecated s ∧
  match as_Return s, sg_Return s' with
  | Some r, Some r' => sr_Description r' = ar_Description r ∧ renderAPIType (ar_Type r) = Ret (sr_Type r')
  | None, None => True
  | _, _ => False
  end.

(** The same signature under the name of the runtime: only the label is new. *)
Definition relabelled (name : string) (s s' : Signature) : Prop :=
  sg_Label s' = signatureLabel name (sg_Parameters s) ∧ sg_Parameters s' = sg_Parameters s ∧ sg_Variadic s' = sg_Variadic s ∧
  sg_Description s' = sg_Description s ∧ sg_Return s' = sg_Return s ∧ sg_Throws s' = sg_Throws s ∧ sg_Deprecated s' = sg_Deprecated s.

(** The entry of a registered function: its name, identity and arities are the
    registry's, its signatures those of its description. *)
Record catalog_entry (functions : Functions) (name identity : string) (description : option functionSymbol) (f : functionSymbol) : Prop := {
  ce_name : fs_name f = name;
  ce_identity : fs_identity f = identity;
  ce_arities : ∀ n, n ∈ fs_arities f ↔ (n ≤ 4)%nat ∧ fn_A functions n name = true;
  ce_variadic : fs_runtimeVariadic f = fn_Var functions name;
  ce_authored : fs_authored f = bool_decide (is_Some description);
  ce_signatures : match description with
    | Some r => Forall2 (relabelled name) (fs_signatures r) (fs_signatures f) ∧
        fs_detail f = completionSignatureDetail (fs_signatures f) ∧ fs_documentation f = RenderSignaturesMarkdown (fs_signatures f) ∧
        (fs_deprecated f = true ↔ fs_signatures f ≠ [] ∧ Forall (λ s, sg_Deprecated s ≠ "") (fs_signatures r))
    | None => fs_signatures f = [] ∧ fs_detail f = "registered function" ∧ fs_documentation f = "" ∧ fs_deprecated f = false
    end
}.

Lemma runtime_entry functions name identity : catalog_entry functions name identity None (newRuntimeFunction functions name identity).
Proof.
  split; try done. intros n. simpl. rewrite list_elem_of_filter, !elem_of_cons, elem_of_nil. split; [|lia || naive_solver lia].
  intros [? ?]. split; [|done]. naive_solver lia.
Qed.

Lemma relabelled_signatures name signatures : Forall2 (relabelled name) signatures (newSignaturesWithName name signatures).
Proof. unfold newSignaturesWithName. induction signatures; constructor; [by split_and!|done]. Qed.

Lemma merged_entry functions name identity f r : catalog_entry functions name identity None f → catalog_entry functions name identity (Some r) (merged f r).
Proof.
  intros [<- <- Ha Hv _ _]. split; try done. unfold merged, cacheCompletion. cbn [fs_name fs_authored fs_signatures fs_detail fs_documentation fs_deprecated].
  split_and!; [apply relabelled_signatures|done|done|]. unfold newSignaturesWithName. rewrite andb_true_iff, Nat.ltb_lt, forallb_forall, length_map. split.
  - intros [Hl Hd]. split; [by destruct (fs_signatures r); [simpl in Hl; lia|]|]. apply Forall_forall. intros s Hs.
    specialize (Hd _ (in_map _ _ _ (proj1 (list_elem_of_In _ _) Hs))). simpl in Hd. by bools.
  - intros [Hn Hd]. split; [destruct (fs_signatures r); [done|simpl; lia]|]. intros s' (s & <- & Hs)%in_map_iff. simpl.
    rewrite Forall_forall in Hd. rewrite bool_decide_false; [done|]. by apply Hd, list_elem_of_In.
Qed.

Lemma reference_parameters_authored variadic total values : ∀ index ps, reference_parameters variadic total index values = Ret ps →
  length ps = length values ∧ ∀ i p q, values !! i = Some p → ps !! i = Some q →
    authored_parameter (variadic && bool_decide (index + i = total - 1)%nat) p q.
Proof.
  induction values as [|p values IH]; intros index ps Hp; simpl in Hp; [by simplify_eq|].
  apply bind_Ret_inv in Hp as (t & Ht & (rest & Hr & Hp)%bind_Ret_inv). simplify_eq. destruct (IH _ _ Hr) as [Hl Hi]. split; [simpl; by rewrite Hl|].
  intros [|i] p' q Hp' Hq; simplify_eq/=.
  - rewrite Nat.add_0_r. split_and!; try done. simpl. f_equal. destruct (_ =? _)%nat eqn:E; bools; [by rewrite bool_decide_true|by rewrite bool_decide_false].
  - replace (index + S i)%nat with (S index + i)%nat by lia. by apply (Hi i).
Qed.

Lemma throws_same values : newSignatureThrows values = values.
Proof. unfold newSignatureThrows. induction values as [|[] ? IH]; [done|]. simpl. by rewrite IH. Qed.

Lemma newReferenceSignature_authored name s s' : newReferenceSignature name s = Ret s' → authored_signature s s'.
Proof.
  unfold newReferenceSignature. intros (ps & Hp & (ret & Hr & Hs)%bind_Ret_inv)%bind_Ret_inv. simplify_eq.
  destruct (reference_parameters_authored _ _ _ _ _ Hp) as [Hl Hi]. split_and!; try done; simpl.
  - intros i p q Hp' Hq. specialize (Hi i p q Hp' Hq). apply lookup_lt_Some in Hp' as Hlt.
    replace (bool_decide (S i = length (as_Parameters s))) with (bool_decide (0 + i = length (as_Parameters s) - 1)%nat); [done|].
    apply bool_decide_ext. lia.
  - apply throws_same.
  - destruct (as_Return s) as [r|]; [|by simplify_eq]. apply bind_Ret_inv in Hr as (t & Ht & Hr). by simplify_eq.
Qed.

Lemma filter_ext_in {A} (P Q : A → Prop) `{!∀ x, Decision (P x), !∀ x, Decision (Q x)} (l : list A) :
  (∀ x, x ∈ l → P x ↔ Q x) → filter P l = filter Q l.
Proof.
  induction l as [|x l IH]; intros Hl; [done|]. rewrite !filter_cons, IH by (intros y ?; apply Hl; by right).
  specialize (Hl x ltac:(by left)). destruct (decide (P x)), (decide (Q x)); tauto.
Qed.

(** ** What the catalog holds *)

Section catalog_facts.
Context (NamespaceSeparator : string) (N : string → string).

(** A function of the reference, with its namespace. *)
Definition described_by (function : string * APIFunction) (r : functionSymbol) : Prop :=
  fs_name r = (if bool_decide (function.1 = "") then af_Name function.2 else function.1 +:+ NamespaceSeparator +:+ af_Name function.2) ∧
  fs_identity r = N (fs_name r) ∧ Forall2 authored_signature (af_Signatures function.2) (fs_signatures r).

Definition reference_functions (reference : list APINamespace) : list (string * APIFunction) :=
  concat (map (λ n, map (λ f, (an_Name n, f)) (an_Functions n)) reference).

Lemma newReferenceFunctions_described reference refs : newReferenceFunctions NamespaceSeparator N reference = Ret refs →
  Forall2 described_by (reference_functions reference) refs.
Proof.
  unfold newReferenceFunctions. intros (groups & Hg & Hr)%bind_Ret_inv. simplify_eq. unfold reference_functions. revert groups Hg.
  induction reference as [|n reference IH]; intros groups Hg; simpl in Hg; [by simplify_eq|].
  apply bind_Ret_inv in Hg as (g & Hn & (gs & Hgs & Hg)%bind_Ret_inv). simplify_eq. simpl. apply Forall2_app; [|by apply IH].
  rewrite <-(map_id g). change (map ?h ?l) with (h <$> l). apply Forall2_fmap. eapply mapM_outcome_Forall2; [|exact Hn]. intros f r Hr.
  unfold newReferenceFunction in Hr. apply bind_Ret_inv in Hr as (sigs & Hs & Hr). simplify_eq. split_and!; [done|done|].
  eapply mapM_outcome_Forall2; [|exact Hs]. intros. by eapply newReferenceSignature_authored.
Qed.

Lemma newReferenceFunctions_total reference : supported_reference reference = true →
  ∃ refs, newReferenceFunctions NamespaceSeparator N reference = Ret refs ∧ Forall (λ r, fs_identity r = N (fs_name r)) refs.
Proof.
  intros Hs. unfold newReferenceFunctions.
  destruct (mapM_outcome_ret (λ n, mapM_outcome (newReferenceFunction NamespaceSeparator N (an_Name n)) (an_Functions n))
    (λ n, forallb (λ f, forallb supported_signature (af_Signatures f)) (an_Functions n)) reference) as [groups Hg]; [|exact Hs|].
  { intros n Hn. eapply mapM_outcome_ret; [|exact Hn]. intros f Hf. unfold newReferenceFunction, newReferenceSignatures.
    destruct (mapM_outcome_ret (newReferenceSignature (reference_name NamespaceSeparator (an_Name n) (af_Name f)))
      supported_signature _ (newReferenceSignature_total _) Hf) as [ss ->]. by eexists. }
  exists (concat groups). rewrite Hg. split; [done|]. apply Forall_concat. eapply mapM_outcome_Forall; [|exact Hg].
  intros n fs Hn. eapply mapM_outcome_Forall; [|exact Hn]. intros f r Hr. unfold newReferenceFunction in Hr.
  apply bind_Ret_inv in Hr as (ss & _ & Hr). by simplify_eq.
Qed.

(** The first name of the registry with this identity. *)
Definition first_registered (names : list string) (identity : string) : option string := head (filter (λ n, N n = identity) names).

(** The last function of the reference with this identity. *)
Definition last_reference (refs : list functionSymbol) (identity : string) : option functionSymbol :=
  last (filter (λ r, fs_identity r = identity) refs).

Definition catalog_get (c : FunctionCatalog) (identity : string) : option functionSymbol :=
  fc_byName c !! identity ≫= λ i, fc_ordered c !! i.

(** The index of a catalog is exact. *)
Record indexed (c : FunctionCatalog) : Prop := mkIndexed {
  ix_entry i f : fc_ordered c !! i = Some f → fc_byName c !! fs_identity f = Some i;
  ix_index identity i : fc_byName c !! identity = Some i → ∃ f, fc_ordered c !! i = Some f ∧ fs_identity f = identity
}.

Lemma first_registered_snoc names name identity :
  first_registered (names ++ [name]) identity =
  match first_registered names identity with
  | Some n => Some n
  | None => if decide (N name = identity) then Some name else None
  end.
Proof.
  unfold first_registered. rewrite filter_app. destruct (filter _ names) as [|n l]; [|done]. rewrite filter_cons, filter_nil.
  by destruct (decide (N name = identity)).
Qed.

Lemma first_registered_Some names identity n : first_registered names identity = Some n → n ∈ names ∧ N n = identity.
Proof.
  unfold first_registered. intros Hn. assert (n ∈ filter (λ n, N n = identity) names) as [? ?]%list_elem_of_filter; [|done].
  destruct (filter _ names); simplify_eq/=. by left.
Qed.

Lemma identity_newRuntimeFunction functions name identity : fs_identity (newRuntimeFunction functions name identity) = identity.
Proof. done. Qed.

Lemma name_newRuntimeFunction functions name identity : fs_name (newRuntimeFunction functions name identity) = name.
Proof. done. Qed.

(** The catalog holds, for every identity, the first name of the registry that has it. *)
Lemma runtime_catalog functions names :
  let c := foldl (add_function N functions) (mkCatalog [] ∅) names in
  indexed c ∧ ∀ identity, catalog_get c identity = (λ n, newRuntimeFunction functions n identity) <$> first_registered names identity.
Proof.
  induction names as [|name names IH] using rev_ind; simpl.
  { split; [constructor|]; [intros i f; simpl; by rewrite lookup_nil|intros ? ?; simpl; by rewrite lookup_empty|].
    intros id. unfold catalog_get. simpl. by rewrite lookup_empty. }
  rewrite foldl_app. simpl. set (c := foldl _ _ names) in *. destruct IH as [[Hentry Hindex] Hget]. unfold add_function.
  destruct (fc_byName c !! N name) as [i|] eqn:Hname.
  - split; [done|]. intros id. rewrite Hget, first_registered_snoc.
    destruct (first_registered names id) as [n|] eqn:Hf; [done|]. destruct (decide (N name = id)) as [<-|]; [|done].
    specialize (Hget (N name)). rewrite Hf in Hget. unfold catalog_get in Hget. rewrite Hname in Hget. simpl in Hget.
    by destruct (Hindex _ _ Hname) as (f & Hi & _); rewrite Hi in Hget.
  - split; [constructor; simpl|].
    + intros i f [Hi|[-> ->]]%lookup_app_Some_or_last.
      * rewrite lookup_insert_ne; [by apply Hentry|]. intros Heq. apply Hentry in Hi. rewrite <- Heq in Hi. congruence.
      * by rewrite identity_newRuntimeFunction, lookup_insert_eq.
    + intros id i [[<- <-]|[Hne Hi]]%lookup_insert_Some.
      * eexists. split; [by apply list_lookup_middle|done].
      * destruct (Hindex id i Hi) as (f & Hf & Hid). exists f. split; [by apply lookup_app_l_Some|done].
    + intros id. rewrite first_registered_snoc. unfold catalog_get. simpl. destruct (decide (N name = id)) as [<-|Hne].
      * rewrite lookup_insert_eq. simpl. rewrite list_lookup_middle by done.
        specialize (Hget (N name)). unfold catalog_get in Hget. rewrite Hname in Hget. simpl in Hget.
        by destruct (first_registered names (N name)).
      * rewrite lookup_insert_ne by done. specialize (Hget id). unfold catalog_get in Hget.
        destruct (fc_byName c !! id) as [i|] eqn:Hi; simpl in *.
        -- destruct (Hindex id i Hi) as (f & Hf & _). rewrite (lookup_app_l_Some _ _ _ _ Hf). rewrite <- Hf, Hget.
           by destruct (first_registered names id).
        -- by destruct (first_registered names id).
Qed.

Lemma lookup_references refs identity : index_references refs !! identity = last_reference refs identity.
Proof.
  unfold index_references, last_reference. induction refs as [|r refs IH] using rev_ind; [simpl; by rewrite lookup_empty|].
  rewrite foldl_app, filter_app, filter_cons, filter_nil. simpl. destruct (decide (fs_identity r = identity)) as [<-|Hne].
  - by rewrite lookup_insert_eq, last_snoc.
  - by rewrite lookup_insert_ne, IH, app_nil_r.
Qed.

Lemma last_reference_Some refs identity r : last_reference refs identity = Some r → r ∈ refs ∧ fs_identity r = identity.
Proof.
  intros (l & Hl)%last_Some. assert (r ∈ filter (λ r, fs_identity r = identity) refs) as [? ?]%list_elem_of_filter; [|done].
  rewrite Hl. apply elem_of_app. right. by left.
Qed.

Definition merge_one (byName : gmap string functionSymbol) (f : functionSymbol) : functionSymbol :=
  match byName !! fs_identity f with Some r => merged f r | None => f end.

Definition runtime_only (byName : gmap string functionSymbol) (f : functionSymbol) : Prop := byName !! fs_identity f = None.

Global Instance runtime_only_dec byName f : Decision (runtime_only byName f).
Proof. unfold runtime_only. apply _. Defined.

Lemma merge_one_delete byName identity f : fs_identity f ≠ identity → merge_one (delete identity byName) f = merge_one byName f.
Proof. intros Hne. unfold merge_one. by rewrite lookup_delete_ne. Qed.

(** Every function is merged with the reference of its own identity, whatever was
    removed for the functions before it. *)
Lemma merge_loop_spec ordered : ∀ byName, NoDup (map fs_identity ordered) → ∃ rest,
  merge_loop ordered byName = (map (merge_one byName) ordered, rest,
    map (λ f, mkWarning CatalogWarningRuntimeOnly (fs_name f)) (filter (runtime_only byName) ordered)) ∧
  ∀ identity, rest !! identity = if decide (identity ∈ map fs_identity ordered) then None else byName !! identity.
Proof.
  induction ordered as [|f ordered IH]; intros byName Hnd; [exists byName; by split|].
  simpl in Hnd. apply NoDup_cons in Hnd as [Hnot Hnd]. simpl. unfold merge_one at 1. rewrite filter_cons.
  destruct (byName !! fs_identity f) as [r|] eqn:Hf.
  - destruct (IH (delete (fs_identity f) byName) Hnd) as (rest & -> & Hrest). exists rest.
    rewrite decide_False by (unfold runtime_only; by rewrite Hf). split.
    + assert (∀ g, g ∈ ordered → fs_identity g ≠ fs_identity f) as Hother.
      { intros g Hg Heq. apply Hnot. rewrite <- Heq. by apply list_elem_of_In, in_map, list_elem_of_In. }
      rewrite (map_ext_in _ (merge_one byName) ordered) by (intros g Hg%list_elem_of_In; by apply merge_one_delete, Hother).
      rewrite (filter_ext_in (runtime_only (delete (fs_identity f) byName)) (runtime_only byName) ordered); [done|].
      intros g Hg. unfold runtime_only. by rewrite lookup_delete_ne by (symmetry; auto).
    + intros id. rewrite Hrest. destruct (decide (id = fs_identity f)) as [->|Hne].
      * rewrite lookup_delete_eq. rewrite (decide_True (P := fs_identity f ∈ fs_identity f :: _)) by (by left). by case_decide.
      * rewrite lookup_delete_ne by done. do 2 case_decide; set_solver.
  - destruct (IH byName Hnd) as (rest & -> & Hrest). exists rest. rewrite decide_True by done. split; [done|].
    intros id. rewrite Hrest. destruct (decide (id = fs_identity f)) as [->|Hne]; do 2 case_decide; set_solver.
Qed.

Global Instance warning_le_total : Total warning_le.
Proof. intros [[] a] [[] b]; unfold warning_le; simpl; auto; apply (total String.le). Qed.

Global Instance warning_le_trans : Transitive warning_le.
Proof. intros [[] a] [[] b] [[] c]; unfold warning_le; simpl; try done; apply transitivity. Qed.

(** The function an identity stands for: the first of the registry, with the
    signatures of the last of the reference when there is one. *)
Definition function_of (functions : Functions) (refs : list functionSymbol) (identity : string) : option functionSymbol :=
  (λ n, let f := newRuntimeFunction functions n identity in
    match last_reference refs identity with Some r => merged f r | None => f end) <$> first_registered (fn_List functions) identity.

Lemma function_of_entry functions refs identity :
  match function_of functions refs identity with
  | Some f => ∃ name, first_registered (fn_List functions) identity = Some name ∧
      catalog_entry functions name identity (last_reference refs identity) f
  | None => first_registered (fn_List functions) identity = None
  end.
Proof.
  unfold function_of. destruct (first_registered _ identity) as [n|]; [simpl|done]. exists n. split; [done|].
  pose proof (runtime_entry functions n identity). destruct (last_reference refs identity) as [r|]; [by apply merged_entry|done].
Qed.

Lemma indexed_NoDup c : indexed c → NoDup (map fs_identity (fc_ordered c)).
Proof.
  intros [Hentry _]. apply NoDup_alt. intros i j id Hi Hj.
  apply list_lookup_fmap_Some in Hi as (f & -> & Hf). apply list_lookup_fmap_Some in Hj as (g & Heq & Hg).
  apply Hentry in Hf, Hg. congruence.
Qed.

Lemma elem_of_catalog c f : indexed c → f ∈ fc_ordered c ↔ catalog_get c (fs_identity f) = Some f.
Proof.
  intros [Hentry Hindex]. unfold catalog_get. split.
  - intros [i Hi]%list_elem_of_lookup. rewrite (Hentry i f Hi). done.
  - intros Hf. destruct (fc_byName c !! fs_identity f) as [i|]; simplify_eq/=. by eapply list_elem_of_lookup_2.
Qed.

Lemma elem_of_identities c identity : indexed c → identity ∈ map fs_identity (fc_ordered c) ↔ is_Some (catalog_get c identity).
Proof.
  intros Hc. rewrite list_elem_of_fmap. split.
  - intros (f & -> & Hf). exists f. by apply elem_of_catalog.
  - intros [f Hf]. assert (fs_identity f = identity) as <-.
    { unfold catalog_get in Hf. destruct (fc_byName c !! identity) as [i|] eqn:Hi; simplify_eq/=.
      destruct Hc as [_ Hindex]. destruct (Hindex identity i Hi) as (g & Hg & Hid). congruence. }
    exists f. split; [done|]. by apply elem_of_catalog.
Qed.

Lemma lookup_merged c byName ordered' identity : indexed c → ordered' = map (merge_one byName) (fc_ordered c) →
  catalog_get (mkCatalog ordered' (fc_byName c)) identity = merge_one byName <$> catalog_get c identity.
Proof.
  intros Hc ->. unfold catalog_get. simpl. destruct (fc_byName c !! identity) as [i|]; [simpl|done]. apply list_lookup_fmap.
Qed.

Lemma lookup_function_get c name : indexed c → lookup_function N c name = Ret (catalog_get c (N name)).
Proof.
  intros [_ Hindex]. unfold lookup_function, catalog_get. destruct (fc_byName c !! N name) as [i|] eqn:Hi; [simpl|done].
  by destruct (Hindex _ _ Hi) as (f & -> & _).
Qed.

Lemma identity_merge_one byName f : fs_identity (merge_one byName f) = fs_identity f.
Proof. unfold merge_one. by destruct (byName !! fs_identity f). Qed.

Lemma indexed_merged c byName : indexed c → indexed (mkCatalog (map (merge_one byName) (fc_ordered c)) (fc_byName c)).
Proof.
  intros [Hentry Hindex]. constructor; simpl.
  - intros i f Hi. apply list_lookup_fmap_Some in Hi as (g & -> & Hg). rewrite identity_merge_one. by apply Hentry.
  - intros id i Hi. destruct (Hindex id i Hi) as (f & Hf & Hid). exists (merge_one byName f).
    rewrite identity_merge_one. split; [|done]. change (map ?g ?l) with (g <$> l). by rewrite list_lookup_fmap, Hf.
Qed.

(** ** The warnings of a merge *)

Definition unmerged (c : FunctionCatalog) (byName rest : gmap string functionSymbol) : list CatalogWarning :=
  map (λ f, mkWarning CatalogWarningRuntimeOnly (fs_name f)) (filter (runtime_only byName) (fc_ordered c)) ++
  map (λ '(_, f), mkWarning CatalogWarningReferenceOnly (fs_name f)) (map_to_list rest).

Section warnings.
Context (functions : Functions) (refs : list functionSymbol) (c : FunctionCatalog) (rest : gmap string functionSymbol).
Context (Hc : indexed c).
Context (Hget : ∀ identity, catalog_get c identity = (λ n, newRuntimeFunction functions n identity) <$> first_registered (fn_List functions) identity).
Context (Hrefs : Forall (λ r, fs_identity r = N (fs_name r)) refs).
Context (Hrest : ∀ identity, rest !! identity =
  if decide (identity ∈ map fs_identity (fc_ordered c)) then None else index_references refs !! identity).

Lemma catalog_function f : f ∈ fc_ordered c ↔
  fs_identity f = N (fs_name f) ∧ first_registered (fn_List functions) (N (fs_name f)) = Some (fs_name f) ∧
  f = newRuntimeFunction functions (fs_name f) (N (fs_name f)).
Proof.
  rewrite elem_of_catalog by done. rewrite Hget. split.
  - destruct (first_registered _ (fs_identity f)) as [n|] eqn:Hn; intros Hf; simplify_eq/=.
    pose proof (first_registered_Some _ _ _ Hn) as [_ Hid]. rewrite <- Hf. simpl. rewrite Hid.
    split_and!; [done| |done]. by rewrite Hn.
  - intros (-> & -> & Hf). simpl. by rewrite <- Hf.
Qed.

Lemma unreferenced identity f : rest !! identity = Some f ↔
  first_registered (fn_List functions) identity = None ∧ last_reference refs identity = Some f.
Proof.
  rewrite Hrest, lookup_references. pose proof (elem_of_identities c identity Hc) as Hin. rewrite Hget in Hin.
  destruct (first_registered _ identity) as [n|]; case_decide as Hd.
  - by split; [|intros []].
  - destruct Hd. apply Hin. by eexists.
  - apply Hin in Hd as [? ?]. done.
  - by split; [|intros []].
Qed.

Lemma reference_identity identity f : last_reference refs identity = Some f → identity = N (fs_name f).
Proof. intros [Hin <-]%last_reference_Some. rewrite Forall_forall in Hrefs. by apply Hrefs. Qed.

Lemma NoDup_unmerged : NoDup (unmerged c (index_references refs) rest).
Proof.
  unfold unmerged. apply NoDup_app. split_and!.
  - apply NoDup_fmap_2_strong; [|apply NoDup_filter].
    + intros f g [_ Hf]%list_elem_of_filter [_ Hg]%list_elem_of_filter [= Heq].
      apply catalog_function in Hf as (_ & _ & ->), Hg as (_ & _ & ->). simpl in Heq. by rewrite Heq.
    + eapply (NoDup_fmap_1 fs_identity). by apply indexed_NoDup.
  - intros w (f & -> & _)%list_elem_of_fmap ([id g] & Heq & _)%list_elem_of_fmap. done.
  - apply NoDup_fmap_2_strong; [|apply NoDup_map_to_list].
    intros [i f] [j g] Hf%elem_of_map_to_list Hg%elem_of_map_to_list [= Heq].
    apply unreferenced in Hf as [_ Hf], Hg as [_ Hg].
    pose proof (reference_identity _ _ Hf). pose proof (reference_identity _ _ Hg). congruence.
Qed.

Lemma runtime_warning n : mkWarning CatalogWarningRuntimeOnly n ∈ unmerged c (index_references refs) rest ↔
  first_registered (fn_List functions) (N n) = Some n ∧ last_reference refs (N n) = None.
Proof.
  unfold unmerged. rewrite elem_of_app, !list_elem_of_fmap, <- lookup_references. split.
  - intros [(f & Heq & [Hr Hf]%list_elem_of_filter)|([? ?] & ? & _)]; [|done]. injection Heq as ->.
    unfold runtime_only in Hr. apply catalog_function in Hf as (Hid & Hf & _). by rewrite Hid in Hr.
  - intros [Hf Hr]. left. exists (newRuntimeFunction functions n (N n)). split; [done|].
    apply list_elem_of_filter. split; [done|]. by apply catalog_function.
Qed.

Lemma reference_warning n : mkWarning CatalogWarningReferenceOnly n ∈ unmerged c (index_references refs) rest ↔
  first_registered (fn_List functions) (N n) = None ∧ ∃ r, last_reference refs (N n) = Some r ∧ fs_name r = n.
Proof.
  unfold unmerged. rewrite elem_of_app, !list_elem_of_fmap. split.
  - intros [(f & ? & _)|([id r] & Heq & Hr%elem_of_map_to_list)]; [done|]. injection Heq as ->.
    apply unreferenced in Hr as [Hf Hr]. rewrite <- (reference_identity _ _ Hr). split; [done|]. by exists r.
  - intros [Hf (r & Hr & <-)]. right. exists (N (fs_name r), r). split; [done|].
    apply elem_of_map_to_list. by apply unreferenced.
Qed.

End warnings.

(** C29. A catalog built from the runtime's registry and merged with a validated
    API reference holds exactly the executable functions: a name is found, in any
    spelling, exactly when the registry has a name with the same normalized form, and
    the function found has the first such name, with the arities the registry has
    under it.  When the reference describes it, its signatures are those of the last
    description of that identity, parameters, types, texts and deprecation included,
    under a label with the registry's name, and its detail, documentation and
    deprecation are the ones of these signatures; otherwise it has none.  The
    warnings are sorted, each is reported once, and they are exactly the functions
    without a description and the descriptions without a function.  No lookup and no
    rendering panics. *)
Theorem function_catalog_exact (functions : Functions) (reference : list APINamespace) :
  supported_reference reference = true →
  ∃ c0 refs c warnings,
    NewRuntimeFunctionCatalog N (Some functions) = Some c0 ∧
    newReferenceFunctions NamespaceSeparator N reference = Ret refs ∧
    Forall2 described_by (reference_functions reference) refs ∧
    mergeReference NamespaceSeparator N c0 reference = Ret (c, warnings) ∧
    (∀ name, ∃ found, lookup_function N c name = Ret found ∧
       match found with
       | Some f => ∃ n, first_registered (fn_List functions) (N name) = Some n ∧
           catalog_entry functions n (N name) (last_reference refs (N name)) f
       | None => first_registered (fn_List functions) (N name) = None
       end) ∧
    Sorted warning_le warnings ∧ NoDup warnings ∧
    (∀ n, mkWarning CatalogWarningRuntimeOnly n ∈ warnings ↔
       first_registered (fn_List functions) (N n) = Some n ∧ last_reference refs (N n) = None) ∧
    (∀ n, mkWarning CatalogWarningReferenceOnly n ∈ warnings ↔
       first_registered (fn_List functions) (N n) = None ∧ ∃ r, last_reference refs (N n) = Some r ∧ fs_name r = n).
Proof.
  intros Hs. destruct (newReferenceFunctions_total reference Hs) as (refs & Hr & Hrefs).
  destruct (runtime_catalog functions (fn_List functions)) as [Hc Hget]. set (c0 := foldl _ _ _) in *.
  destruct (merge_loop_spec (fc_ordered c0) (index_references refs) (indexed_NoDup c0 Hc)) as (rest & Hm & Hrest).
  exists c0, refs, (mkCatalog (map (merge_one (index_references refs)) (fc_ordered c0)) (fc_byName c0)),
    (merge_sort warning_le (unmerged c0 (index_references refs) rest)).
  split_and!; [done|done|by apply newReferenceFunctions_described| | |apply Sorted_merge_sort; apply _|..].
  - unfold mergeReference. rewrite Hr. simpl. by rewrite Hm.
  - intros name. exists (function_of functions refs (N name)). split; [|apply function_of_entry].
    rewrite lookup_function_get by (by apply indexed_merged).
    rewrite (lookup_merged c0 (index_references refs)) by done. rewrite Hget. unfold function_of. f_equal.
    destruct (first_registered _ (N name)) as [n|]; [simpl|done]. unfold merge_one.
    by rewrite identity_newRuntimeFunction, lookup_references.
  - rewrite merge_sort_Permutation. by eapply NoDup_unmerged.
  - intros n. rewrite merge_sort_Permutation. by eapply runtime_warning.
  - intros n. rewrite merge_sort_Permutation. by eapply reference_warning.
Qed.

End catalog_facts.

(** Lower case of the ASCII letters. *)
Fixpoint lower_ascii (s : string) : string :=
  match s with
  | EmptyString => EmptyString
  | String c s =>
      let n := Ascii.nat_of_ascii c in
      String (if (65 <=? n)%nat && (n <=? 90)%nat then Ascii.ascii_of_nat (n + 32) else c) (lower_ascii s)
  end.

Definition sample_reference : list APINamespace :=
  [mkAPINamespace "custom" [
    mkAPIFunction "dothing" [mkAPISignature [mkAPIParameter "value" (Some (mkType TypeKindUnion "" [mkType TypeKindNamed "String" [] None; mkType TypeKindNamed "Array" [] None] None)) "Input."] false "Does it." None [] ""];
    mkAPIFunction "api_only" [mkAPISignature [] false "" None [] ""]]].

Definition sample_functions : Functions :=
  mkFunctions ["CuStOm::DoThing"; "Host::Only"] (λ n name, (n =? 1)%nat && bool_decide (name = "CuStOm::DoThing")) (λ name, bool_decide (name = "Host::Only")).

Lemma function_catalog_exact_witness : ∃ c0 refs c warnings f,
  NewRuntimeFunctionCatalog lower_ascii (Some sample_functions) = Some c0 ∧
  newReferenceFunctions "::" lower_ascii sample_reference = Ret refs ∧
  mergeReference "::" lower_ascii c0 sample_reference = Ret (c, warnings) ∧
  lookup_function lower_ascii c "CUSTOM::DOTHING" = Ret (Some f) ∧ fs_name f = "CuStOm::DoThing" ∧ length (fs_signatures f) = 1%nat.
Proof.
  destruct (function_catalog_exact "::" lower_ascii sample_functions sample_reference eq_refl) as (c0 & refs & c & ws & H1 & H2 & _ & H3 & H4 & _).
  destruct (H4 "CUSTOM::DOTHING") as ([f|] & Hf & Hn); [|vm_compute in Hn; discriminate Hn].
  exists c0, refs, c, ws, f. split; [exact H1|]. split; [exact H2|]. split; [exact H3|]. split; [exact Hf|].
  destruct Hn as (n & Hn & [Hname _ _ _ _ Hs]). vm_compute in Hn. injection Hn as <-. split; [exact Hname|].
  vm_compute in H2. injection H2 as <-. unfold last_reference in Hs. vm_compute in Hs. destruct Hs as [Hs _]. by apply Forall2_length in Hs.
Defined.

Example sample_merge :
  match NewRuntimeFunctionCatalog lower_ascii (Some sample_functions) with
  | Some c =>
      match mergeReference "::" lower_ascii c sample_reference with
      | Ret (c, warnings) =>
          (map (λ w, cw_Name w) warnings, map (λ f, map sg_Label (renderedSignatures f 3)) (fc_ordered c)) =
          (["custom::api_only"; "Host::Only"],
           [["CuStOm::DoThing(value: String | Array)"]; ["Host::Only(arg1, arg2, arg3...)"]])
      | _ => False
      end
  | None => False
  end.
Proof. vm_compute. reflexivity. Qed.
