(* ===== verification/Completion.v ===== *)
(** * Completion, hover and signature help

    [internal/language/completion.go], [completion_context.go],
    [completion_words.go], [hover.go], [signature.go], [signature_build.go],
    [symbol_kind.go] and [formatting.go].  A completion collects its items in a
    map and sorts them; the iteration order of the map is an argument.  The
    letters and digits of Unicode, [strings.ToLower], the words of the syntax and
    the parameters of [Catalog] are parameters. *)

From stdpp Require Import sorting.
From S2P Require Import Prelude Paths Source SemanticTokens Symbols Catalog.
Local Open Scope Z_scope.

(** ** Reading a text backwards *)

(** The search of [utf8.DecodeLastRuneInString] for the start of the last rune,
    not before [lim]; when there is none no rune ends the string. *)
Fixpoint last_start (fuel : nat) (s : list Z) (start lim : nat) : nat :=
  match fuel with
  | O => start
  | S fuel =>
      if (start <=? lim)%nat then lim
      else match s !! (start - 1)%nat with
           | Some b => if RuneStart b then (start - 1)%nat else last_start fuel s (start - 1) lim
           | None => lim
           end
  end.

Definition DecodeLastRuneInString (s : list Z) : Z * nat :=
  match last s with
  | None => (RuneError, 0%nat)
  | Some b =>
      if b <? 128 then (b, 1%nat)
      else
        let end_ := length s in
        let start := last_start 3 s (end_ - 1) (end_ - 4) in
        let '(r, size) := DecodeRuneInString (drop start s) in
        if bool_decide ((start + size)%nat = end_) then (r, size) else (RuneError, 1%nat)
  end.

(** Moves [start] back over the runes that satisfy [keep]. *)
Fixpoint scan_back (fuel : nat) (keep : Z → bool) (text : list Z) (start : nat) : nat :=
  match fuel with
  | O => start
  | S fuel =>
      if (start =? 0)%nat then start
      else
        let '(r, size) := DecodeLastRuneInString (take start text) in
        if keep r then scan_back fuel keep text (start - size) else start
  end.

Definition string_of_bytes (s : list Z) : string :=
  foldr (λ b rest, String (Ascii.ascii_of_N (Z.to_N b)) rest) "" s.

(** The runes of a string. *)
Fixpoint runes (fuel : nat) (s : list Z) : list Z :=
  match fuel, s with
  | S fuel, _ :: _ => let '(r, size) := DecodeRuneInString s in r :: runes fuel (drop size s)
  | _, _ => []
  end.

Definition ContainsRune (s : list Z) (r : Z) : bool := bool_decide (r ∈ runes (length s) s).

(** ** The context of a completion *)

Inductive completionContext :=
| completionExpression
| completionBindParameter
| completionNamespace
| completionDeclaration
| completionStatement.

Definition line_separator (r : Z) : bool := (r =? 13) || (r =? 10) || (r =? 8232) || (r =? 8233).

Definition currentLineStart (text : list Z) (offset : nat) : nat :=
  scan_back offset (λ r, negb (line_separator r)) text offset.

(** The last token that ends at or before [offset]. *)
Fixpoint previous_token (tokens : list syntaxToken) (offset : nat) (previous : syntaxToken) : syntaxToken :=
  match tokens with
  | [] => previous
  | token :: tokens => if Z.of_nat offset <? SpanEnd (tok_Span token) then previous else previous_token tokens offset token
  end.

(** [text[start:end]] as a Go slice expression. *)
Definition slice_span (text : list Z) (span : Span) : outcome (list Z) :=
  if (0 <=? SpanStart span) && (SpanStart span <=? SpanEnd span) && (SpanEnd span <=? Z.of_nat (length text))
  then Ret (slice text (Z.to_nat (SpanStart span)) (Z.to_nat (SpanEnd span)))
  else Panic "slice bounds out of range".

Section completion.
Context (isLetter isDigit : Z → bool) (ToLower : string → string).
Context (NamespaceSeparator : string) (NormalizeRegisteredName : string → string).

Definition separator : list Z := bytes_of_string NamespaceSeparator.

Definition word_rune (r : Z) : bool := isLetter r || isDigit r || (r =? 95).

(** What [completionContextAt] decides from the token before the offset. *)
Definition token_context (text : list Z) (previous : syntaxToken) : outcome (option completionContext) :=
  if SpanStart (tok_Span previous) <? SpanEnd (tok_Span previous) then
    match tok_Word previous with
    | SyntaxWordLet | SyntaxWordVar | SyntaxWordFunc | SyntaxWordAs => Ret (Some completionDeclaration)
    | SyntaxWordReturn | SyntaxWordFilter | SyntaxWordSort | SyntaxWordLimit | SyntaxWordCollect | SyntaxWordFor | SyntaxWordWhile =>
        Ret (Some completionExpression)
    | _ =>
        value ← slice_span text (tok_Span previous);
        Ret (if bool_decide (value = [123]) || bool_decide (value = [59]) then Some completionStatement else None)
    end
  else Ret None.

Definition completionContextAt (text : list Z) (tokens : list syntaxToken) (offset : nat) : outcome completionContext :=
  if (offset =? 0)%nat || (length text =? 0)%nat then Ret completionStatement
  else
    let offset := if (length text <? offset)%nat then length text else offset in
    let start := scan_back offset word_rune text offset in
    if (0 <? start)%nat && bool_decide (text !! (start - 1)%nat = Some 64) then Ret completionBindParameter
    else if (length separator <=? start)%nat && bool_decide (slice text (start - length separator) start = separator)
    then Ret completionNamespace
    else
      decided ← token_context text (previous_token tokens offset (mkSyntaxToken SyntaxWordOther (mkSpan 0 0)));
      Ret (match decided with
           | Some context => context
           | None =>
               let lineStart := currentLineStart text offset in
               if bool_decide (TrimSpace (string_of_bytes (slice text lineStart offset)) = "") then completionStatement
               else completionExpression
           end).

Definition namespacePrefixAt (text : list Z) (offset : nat) : list Z :=
  let offset := if (length text <? offset)%nat then length text else offset in
  let start := scan_back offset (λ r, word_rune r || ContainsRune separator r) text offset in
  let fragment := slice text start offset in
  match LastIndex fragment separator with
  | Some index => take index fragment
  | None => []
  end.

(** ** Items *)

Inductive CompletionKind :=
| CompletionKindVariable
| CompletionKindFunction
| CompletionKindParameter
| CompletionKindNamespace
| CompletionKindKeyword
| CompletionKindLiteral
| CompletionKindOperator.

Record CompletionItem := mkItem {
  ci_Label : string;
  ci_Detail : string;
  ci_InsertText : string;
  ci_Kind : CompletionKind;
  ci_Documentation : string;
  ci_Deprecated : bool
}.

Definition simple_item (label detail insert : string) (kind : CompletionKind) : CompletionItem := mkItem label detail insert kind "" false.

Definition completionKindPriority (kind : CompletionKind) : Z :=
  match kind with CompletionKindKeyword | CompletionKindLiteral | CompletionKindOperator => 0 | _ => 1 end.

Definition symbolKindName (kind : SymbolKind) : string :=
  match kind with
  | SymbolKindFunctionParameter => "parameter"
  | SymbolKindNamespaceAlias => "namespace"
  | SymbolKindLoopBinding => "loop binding"
  | SymbolKindMatchBinding => "match binding"
  | SymbolKindCollectBinding => "collect binding"
  | _ => "binding"
  end.

(** The comparison of [sortedCompletionItems]. *)
Definition item_less (a b : CompletionItem) : bool :=
  let left := ToLower (ci_Label a) in
  let right := ToLower (ci_Label b) in
  if bool_decide (left ≠ right) then negb (bool_decide (String.le right left))
  else if bool_decide (ci_Label a ≠ ci_Label b) then negb (bool_decide (String.le (ci_Label b) (ci_Label a)))
  else if bool_decide (completionKindPriority (ci_Kind a) ≠ completionKindPriority (ci_Kind b))
  then completionKindPriority (ci_Kind a) <? completionKindPriority (ci_Kind b)
  else negb (bool_decide (String.le (ci_Detail b) (ci_Detail a))).

Definition item_le (a b : CompletionItem) : Prop := item_less b a = false.

Global Instance item_le_dec : RelDecision item_le.
Proof. intros a b. unfold item_le. apply _. Defined.

(** [add]: the first item of a key stays. *)
Definition add (key : string) (item : CompletionItem) (items : gmap string CompletionItem) : gmap string CompletionItem :=
  match items !! key with Some _ => items | None => <[key := item]> items end.

Definition add_all (entries : list (string * CompletionItem)) (items : gmap string CompletionItem) : gmap string CompletionItem :=
  foldl (λ items '(key, item), add key item items) items entries.

Definition nul : string := byte 0.

(** ** Words *)

Inductive SyntaxWordCategory := SyntaxWordCategoryKeyword | SyntaxWordCategoryLiteral | SyntaxWordCategoryOperator | SyntaxWordCategoryOther.

(** [compiler.SyntaxWords()]. *)
Record wordInfo := mkWord { wd_Word : SyntaxWord; wd_Category : SyntaxWordCategory; wd_Spelling : string }.

Definition completionKindForSyntaxWord (category : SyntaxWordCategory) : option (CompletionKind * string) :=
  match category with
  | SyntaxWordCategoryKeyword => Some (CompletionKindKeyword, "keyword")
  | SyntaxWordCategoryLiteral => Some (CompletionKindLiteral, "literal")
  | SyntaxWordCategoryOperator => Some (CompletionKindOperator, "operator")
  | SyntaxWordCategoryOther => None
  end.

Definition statementCompletionWords (w : SyntaxWord) : bool :=
  match w with
  | SyntaxWordFor | SyntaxWordFunc | SyntaxWordLet | SyntaxWordReturn | SyntaxWordUse | SyntaxWordVar | SyntaxWordWaitfor | SyntaxWordWhile => true
  | _ => false
  end.

Definition word_item (w : wordInfo) : option CompletionItem :=
  match completionKindForSyntaxWord (wd_Category w) with
  | Some (kind, detail) => let spelling := ToLower (wd_Spelling w) in Some (simple_item spelling detail spelling kind)
  | None => None
  end.

(** [buildLanguageCompletionItems]: all items, and those that start a statement. *)
Definition buildLanguageCompletionItems (words : list wordInfo) : list CompletionItem * list CompletionItem :=
  (omap word_item words, omap (λ w, if statementCompletionWords (wd_Word w) then word_item w else None) words).

(** ** Completion *)

(** The configuration of the service and the catalog. *)
Record environment := mkEnvironment {
  ev_words : list wordInfo;
  ev_parameters : list string;
  ev_functions : list functionSymbol
}.

Definition word_entries (items : list CompletionItem) : list (string * CompletionItem) :=
  map (λ item, ("word" +:+ nul +:+ ci_Label item, item)) items.

Definition bind_entries (e : environment) (symbols : list symbol) : list (string * CompletionItem) :=
  omap (λ s, if bool_decide (sb_Kind s = SymbolKindBindParameter)
    then Some ("bind" +:+ nul +:+ sb_Name s, simple_item (sb_Name s) "bind parameter" (sb_Name s) CompletionKindParameter) else None) symbols ++
  map (λ name, ("bind" +:+ nul +:+ name, simple_item name "configured bind parameter" name CompletionKindParameter)) (ev_parameters e).

Definition function_entry (insert : functionSymbol → string) (f : functionSymbol) : string * CompletionItem :=
  ("registered" +:+ nul +:+ fs_identity f,
   mkItem (fs_name f) (fs_detail f) (insert f) CompletionKindFunction (fs_documentation f) (fs_deprecated f)).

Definition namespace_entries (e : environment) (prefix : string) : list (string * CompletionItem) :=
  let normalizedPrefix := NormalizeRegisteredName prefix in
  omap (λ f,
    if negb (bool_decide (normalizedPrefix = "")) && negb (HasPrefix (fs_identity f) (normalizedPrefix +:+ NamespaceSeparator)) then None
    else Some (function_entry (λ f, terminalName NamespaceSeparator (fs_name f)) f)) (ev_functions e).

Definition visible_entry (s : symbol) : string * CompletionItem :=
  let kind := match sb_Kind s with
    | SymbolKindUDF => CompletionKindFunction
    | SymbolKindFunctionParameter | SymbolKindBindParameter => CompletionKindParameter
    | SymbolKindNamespaceAlias => CompletionKindNamespace
    | _ => CompletionKindVariable
    end in
  let label := if bool_decide (sb_Kind s = SymbolKindBindParameter) then "@" +:+ sb_Name s else sb_Name s in
  ("visible" +:+ nul +:+ label, simple_item label (symbolKindName (sb_Kind s)) label kind).

(** The entries in the order in which [Completion] adds them. *)
Definition completion_entries (e : environment) (q : queries) (text : list Z) (offset : nat) (contextKind : completionContext) :
    list (string * CompletionItem) :=
  match contextKind with
  | completionBindParameter => bind_entries e (qu_Symbols q)
  | completionNamespace => namespace_entries e (string_of_bytes (namespacePrefixAt text offset))
  | completionDeclaration => []
  | completionStatement => word_entries (buildLanguageCompletionItems (ev_words e)).2
  | completionExpression =>
      map visible_entry (qu_VisibleSymbols q offset) ++
      map (function_entry fs_name) (ev_functions e) ++
      word_entries (buildLanguageCompletionItems (ev_words e)).1
  end.

(** [Completion]; [order] is the order in which the map is iterated. *)
Definition Completion (order : gmap string CompletionItem → list CompletionItem) (e : environment) (text : list Z) (q : queries)
    (position : Position) : outcome (list CompletionItem) :=
  offset ← PositionToOffset (NewMapper text) position;
  contextKind ← completionContextAt text (qu_SyntaxTokens q) offset;
  Ret (merge_sort item_le (order (add_all (completion_entries e q text offset contextKind) ∅))).

End completion.

(** ** Lexicographic orders *)

Definition lex_le {A B} `{EqDecision B} (f : A → B) (R : relation B) (S : relation A) : relation A :=
  λ a b, if decide (f a = f b) then S a b else R (f a) (f b).

Section lex.
Context {A B : Type} `{EqDecision B} (f : A → B) (R : relation B) (S : relation A).
Context `{!PartialOrder R, !Total R}.

Lemma lex_trans : Transitive S → Transitive (lex_le f R S).
Proof.
  intros HS a b c. unfold lex_le. intros Hab Hbc.
  destruct (decide (f a = f b)) as [Eab|Nab], (decide (f b = f c)) as [Ebc|Nbc].
  - rewrite decide_True by congruence. by transitivity b.
  - rewrite decide_False by congruence. by rewrite Eab.
  - rewrite decide_False by congruence. by rewrite <- Ebc.
  - assert (R (f a) (f c)) as Hac by (by transitivity (f b)).
    destruct (decide (f a = f c)) as [Eac|]; [|done]. destruct Nbc.
    apply (anti_symm R); [done|]. by rewrite <- Eac.
Qed.

Lemma lex_total : Total S → Total (lex_le f R S).
Proof.
  intros HS a b. unfold lex_le. destruct (decide (f a = f b)) as [E|Ne].
  - rewrite (decide_True _ _ (eq_sym E)). apply HS.
  - rewrite decide_False by congruence. apply (total R).
Qed.

Lemma lex_both a b : lex_le f R S a b → lex_le f R S b a → f a = f b ∧ S a b ∧ S b a.
Proof.
  unfold lex_le. destruct (decide (f a = f b)) as [E|Ne].
  - rewrite (decide_True _ _ (eq_sym E)). auto.
  - rewrite decide_False by congruence. intros ? ?. destruct Ne. by apply (anti_symm R).
Qed.
End lex.

(** ** The order of the items *)

Section order.
Context (ToLower : string → string).

Definition detail_le (a b : CompletionItem) : Prop := String.le (ci_Detail a) (ci_Detail b).

Lemma item_le_lex a b : item_le ToLower a b ↔
  lex_le (λ i, ToLower (ci_Label i)) String.le (lex_le ci_Label String.le
    (lex_le (λ i, completionKindPriority (ci_Kind i)) Z.le detail_le)) a b.
Proof.
  unfold item_le, item_less, lex_le, detail_le.
  repeat case_decide; repeat case_bool_decide; simpl; try congruence; try done; try lia;
    rewrite ?negb_false_iff, ?bool_decide_eq_true, ?Z.ltb_ge; auto; try congruence; try (split; congruence); lia.
Qed.

Global Instance detail_le_trans : Transitive detail_le.
Proof. intros a b c. unfold detail_le. apply transitivity. Qed.

Global Instance detail_le_total : Total detail_le.
Proof. intros a b. apply (total String.le). Qed.

Global Instance item_le_trans : Transitive (item_le ToLower).
Proof.
  intros a b c. rewrite !item_le_lex. apply lex_trans; [apply _|]. apply lex_trans; [apply _|].
  apply lex_trans; apply _.
Qed.

Global Instance item_le_total : Total (item_le ToLower).
Proof.
  intros a b. rewrite !item_le_lex. apply lex_total; [apply _|]. apply lex_total; [apply _|].
  apply lex_total; apply _.
Qed.

(** Items that the comparison does not tell apart. *)
Definition same_rank (a b : CompletionItem) : Prop :=
  ci_Label a = ci_Label b ∧ completionKindPriority (ci_Kind a) = completionKindPriority (ci_Kind b) ∧ ci_Detail a = ci_Detail b.

Lemma item_le_both a b : item_le ToLower a b → item_le ToLower b a → same_rank a b.
Proof.
  rewrite !item_le_lex. intros H1 H2. apply lex_both in H1 as (_ & H1 & H1'); [|apply _|done].
  apply lex_both in H1 as (? & H & H'); [|apply _|done]. apply lex_both in H as (? & Hd & Hd'); [|apply _|done].
  split; [done|]. split; [done|]. by apply (anti_symm String.le).
Qed.

End order.

(** ** The map of the items *)

Lemma add_all_from entries : ∀ items key item, add_all entries items !! key = Some item →
  items !! key = Some item ∨ (key, item) ∈ entries.
Proof.
  induction entries as [|[k i] entries IH]; intros items key item; simpl; [by left|]. intros H.
  apply IH in H as [H|H]; [|right; by right]. unfold add in H. destruct (items !! k) eqn:Hk; [by left|].
  apply lookup_insert_Some in H as [[<- <-]|[_ H]]; [right; by left|by left].
Qed.

Lemma add_all_keeps entries : ∀ items key, is_Some (items !! key) → is_Some (add_all entries items !! key).
Proof.
  induction entries as [|[k i] entries IH]; intros items key Hkey; simpl; [done|]. apply IH. unfold add.
  destruct (items !! k) eqn:Hk; [done|]. apply lookup_insert_is_Some'. by right.
Qed.

Lemma add_all_has entries : ∀ items key item, (key, item) ∈ entries → is_Some (add_all entries items !! key).
Proof.
  induction entries as [|[k i] entries IH]; intros items key item; simpl; [by intros ?%not_elem_of_nil|].
  intros [Heq|Hin]%elem_of_cons; [|by eapply IH]. simplify_eq. apply add_all_keeps. unfold add.
  destruct (items !! k) eqn:Hk; [by rewrite Hk|by rewrite lookup_insert_eq].
Qed.

(** ** Details *)

Fixpoint has_char (c : Ascii.ascii) (s : string) : bool :=
  match s with EmptyString => false | String d s => bool_decide (c = d) || has_char c s end.

Lemma has_char_app c s t : has_char c (s +:+ t) = has_char c s || has_char c t.
Proof.
  induction s as [|d s IH]; [done|]. change (String d s +:+ t) with (String d (s +:+ t)). simpl. by rewrite IH, orb_assoc.
Qed.

Definition paren : Ascii.ascii := Ascii.ascii_of_nat 40.

Lemma label_paren name parameters : has_char paren (signatureLabel name parameters) = true.
Proof. unfold signatureLabel. rewrite !has_char_app. simpl. by rewrite orb_true_r. Qed.

Lemma concat_first c sep s l : has_char c s = true → has_char c (String.concat sep (s :: l)) = true.
Proof. intros Hs. destruct l as [|t l]; [done|]. simpl. change (String.append ?a ?b) with (a +:+ b). by rewrite !has_char_app, Hs. Qed.

Lemma detail_paren name signatures :
  completionSignatureDetail (newSignaturesWithName name signatures) = "registered function" ∨
  has_char paren (completionSignatureDetail (newSignaturesWithName name signatures)) = true.
Proof.
  destruct signatures as [|s signatures]; [by left|]. right. apply concat_first. simpl.
  destruct (sg_Return s) as [r|]; [|apply label_paren]. case_bool_decide; [apply label_paren|].
  by rewrite has_char_app, label_paren.
Qed.

(** ** The functions of a catalog *)

Section entries.
Context (isLetter isDigit : Z → bool) (ToLower : string → string).
Context (NamespaceSeparator : string) (N : string → string).

Record catalog_function_ok (f : functionSymbol) : Prop := mkFunctionOk {
  cf_identity : fs_identity f = N (fs_name f);
  cf_detail : fs_detail f = "registered function" ∨ has_char paren (fs_detail f) = true
}.

(** The catalog comes from a registry, and from a reference if there is one. *)
Definition catalog_of (functions : Functions) (reference : option (list APINamespace)) (c : FunctionCatalog) : Prop :=
  ∃ c0, NewRuntimeFunctionCatalog N (Some functions) = Some c0 ∧
  match reference with
  | None => c = c0
  | Some reference => ∃ warnings, mergeReference NamespaceSeparator N c0 reference = Ret (c, warnings)
  end.

Lemma runtime_functions_ok functions c0 : NewRuntimeFunctionCatalog N (Some functions) = Some c0 →
  indexed c0 ∧ Forall catalog_function_ok (fc_ordered c0).
Proof.
  intros [= <-]. destruct (runtime_catalog N functions (fn_List functions)) as [Hc Hget].
  split; [done|]. apply Forall_forall. intros f Hf.
  apply (catalog_function N functions _ Hc Hget) in Hf as (Hid & _ & Hf). constructor; [done|]. left. by rewrite Hf.
Qed.

Lemma catalog_functions_ok functions reference c : catalog_of functions reference c → Forall catalog_function_ok (fc_ordered c).
Proof.
  intros (c0 & [Hc H0]%runtime_functions_ok & Hm). destruct reference as [reference|]; [|by subst].
  destruct Hm as [warnings Hm]. unfold mergeReference in Hm. apply bind_Ret_inv in Hm as (refs & _ & Hm).
  destruct (merge_loop_spec N (fc_ordered c0) (index_references refs) (indexed_NoDup c0 Hc)) as (rest & Heq & _).
  rewrite Heq in Hm. simplify_eq. simpl. apply Forall_fmap. eapply Forall_impl; [exact H0|].
  intros f [Hid Hdetail]. unfold compose, merge_one. destruct (index_references refs !! fs_identity f) as [r|]; [|done].
  constructor; [done|]. apply detail_paren.
Qed.

(** ** No two entries have the same rank *)

Definition distinct_ranks (entries : list (string * CompletionItem)) : Prop :=
  ∀ k1 i1 k2 i2, (k1, i1) ∈ entries → (k2, i2) ∈ entries → same_rank i1 i2 → k1 = k2.

Lemma word_entry_rank items k i : Forall (λ i, completionKindPriority (ci_Kind i) = 0) items → (k, i) ∈ word_entries items →
  k = "word" +:+ nul +:+ ci_Label i ∧ completionKindPriority (ci_Kind i) = 0.
Proof.
  rewrite Forall_forall. intros Hall (j & Heq & Hj)%list_elem_of_fmap. simplify_eq. split; [done|]. by apply Hall.
Qed.

Lemma word_items_priority words : Forall (λ i, completionKindPriority (ci_Kind i) = 0) (buildLanguageCompletionItems ToLower words).1 ∧
  Forall (λ i, completionKindPriority (ci_Kind i) = 0) (buildLanguageCompletionItems ToLower words).2.
Proof.
  assert (∀ w i, word_item ToLower w = Some i → completionKindPriority (ci_Kind i) = 0) as Hw.
  { intros [word [] spelling] i; unfold word_item; simpl; intros Hi; by simplify_eq/=. }
  split; apply Forall_forall; intros i (w & _ & Hi)%list_elem_of_omap; [by eapply Hw|].
  destruct (statementCompletionWords (wd_Word w)); [by eapply Hw|done].
Qed.

Lemma visible_entry_rank s : (visible_entry s).1 = "visible" +:+ nul +:+ ci_Label (visible_entry s).2 ∧
  completionKindPriority (ci_Kind (visible_entry s).2) = 1 ∧
  ci_Detail (visible_entry s).2 ≠ "registered function" ∧ has_char paren (ci_Detail (visible_entry s).2) = false.
Proof. unfold visible_entry. destruct (sb_Kind s); simpl; split_and!; done. Qed.

Definition function_entry_of (k : string) (i : CompletionItem) : Prop :=
  k = "registered" +:+ nul +:+ N (ci_Label i) ∧ completionKindPriority (ci_Kind i) = 1 ∧
  (ci_Detail i = "registered function" ∨ has_char paren (ci_Detail i) = true).

Lemma function_entry_rank insert f : catalog_function_ok f → function_entry_of (function_entry insert f).1 (function_entry insert f).2.
Proof. intros [Hid Hdetail]. unfold function_entry_of, function_entry. simpl. by rewrite Hid. Qed.

Lemma function_entries_rank insert fs k i : Forall catalog_function_ok fs → (k, i) ∈ map (function_entry insert) fs → function_entry_of k i.
Proof.
  rewrite Forall_forall. intros Hall (f & Heq & Hf)%list_elem_of_fmap. pose proof (function_entry_rank insert f (Hall f Hf)) as Hr.
  by rewrite <- Heq in Hr.
Qed.

Lemma bind_distinct e symbols : distinct_ranks (bind_entries e symbols).
Proof.
  assert (∀ k i, (k, i) ∈ bind_entries e symbols → k = "bind" +:+ nul +:+ ci_Label i) as Hkey.
  { intros k i [(s & _ & Hs)%list_elem_of_omap|(n & Heq & _)%list_elem_of_fmap]%elem_of_app; [|by simplify_eq].
    case_bool_decide; by simplify_eq. }
  intros k1 i1 k2 i2 ->%Hkey ->%Hkey (-> & _). done.
Qed.

Lemma namespace_distinct e prefix : Forall catalog_function_ok (ev_functions e) → distinct_ranks (namespace_entries NamespaceSeparator N e prefix).
Proof.
  intros Hall. assert (∀ k i, (k, i) ∈ namespace_entries NamespaceSeparator N e prefix → function_entry_of k i) as Hkey.
  { intros k i (f & Hf & Hs)%list_elem_of_omap. case_match; [done|]. injection Hs as <- <-.
    apply (function_entry_rank (λ f, terminalName NamespaceSeparator (fs_name f)) f). rewrite Forall_forall in Hall. by apply Hall. }
  intros k1 i1 k2 i2 (-> & _)%Hkey (-> & _)%Hkey (-> & _). done.
Qed.

Lemma statement_distinct items : Forall (λ i, completionKindPriority (ci_Kind i) = 0) items → distinct_ranks (word_entries items).
Proof.
  intros Hall k1 i1 k2 i2 H1 H2 (Hl & _). destruct (word_entry_rank _ _ _ Hall H1) as [-> _].
  destruct (word_entry_rank _ _ _ Hall H2) as [-> _]. by rewrite Hl.
Qed.

Lemma expression_distinct e symbols : Forall catalog_function_ok (ev_functions e) →
  distinct_ranks (map visible_entry symbols ++ map (function_entry fs_name) (ev_functions e) ++
    word_entries (buildLanguageCompletionItems ToLower (ev_words e)).1).
Proof.
  intros Hall. destruct (word_items_priority (ev_words e)) as [Hwords _].
  assert (∀ k i, (k, i) ∈ map visible_entry symbols → k = "visible" +:+ nul +:+ ci_Label i ∧
    completionKindPriority (ci_Kind i) = 1 ∧ ci_Detail i ≠ "registered function" ∧ has_char paren (ci_Detail i) = false) as Hvisible.
  { intros k i (s & Heq & _)%list_elem_of_fmap. pose proof (visible_entry_rank s) as Hs. by rewrite <- Heq in Hs. }
  intros k1 i1 k2 i2 H1 H2 (Hlabel & Hprio & Hdetail). rewrite !elem_of_app in H1, H2.
  destruct H1 as [(-> & Hp1 & Hd1)%Hvisible|[(-> & Hp1 & Hd1)%(function_entries_rank _ _ _ _ Hall)|(-> & Hp1)%(word_entry_rank _ _ _ Hwords)]];
  destruct H2 as [(-> & Hp2 & Hd2)%Hvisible|[(-> & Hp2 & Hd2)%(function_entries_rank _ _ _ _ Hall)|(-> & Hp2)%(word_entry_rank _ _ _ Hwords)]];
  try (by rewrite Hlabel); try lia; exfalso; rewrite Hdetail in *; intuition congruence.
Qed.

Lemma entries_distinct e q text offset context : Forall catalog_function_ok (ev_functions e) →
  distinct_ranks (completion_entries isLetter isDigit ToLower NamespaceSeparator N e q text offset context).
Proof.
  intros Hall. destruct context; simpl.
  - by apply expression_distinct.
  - apply bind_distinct.
  - by apply namespace_distinct.
  - by intros k1 i1 k2 i2 ?%not_elem_of_nil.
  - apply statement_distinct, word_items_priority.
Qed.

End entries.

(** ** The loops end *)

Lemma last_start_bound fuel s lim : ∀ start, (lim ≤ start)%nat → (last_start fuel s start lim ≤ start)%nat.
Proof.
  induction fuel as [|fuel IH]; intros start Hle; simpl; [lia|]. case_match; [done|]. bools.
  case_match; [|lia]. case_match; [lia|]. specialize (IH (start - 1)%nat). lia.
Qed.

Lemma DecodeLastRune_size s r size : s ≠ [] → DecodeLastRuneInString s = (r, size) → (1 ≤ size)%nat.
Proof.
  unfold DecodeLastRuneInString. intros Hs. destruct (last s) as [b|] eqn:Hb; [|by apply last_None in Hb].
  destruct (b <? 128); [intros; simplify_eq; lia|].
  destruct (DecodeRuneInString _) as [r' size']. assert (0 < length s)%nat by (destruct s; [done|simpl; lia]).
  pose proof (last_start_bound 3 s (length s - 4) (length s - 1) ltac:(lia)). case_bool_decide; intros; simplify_eq; lia.
Qed.

(** As much fuel as bytes before the start is enough: the scan stops at the start
    of the text or behind a rune that is not kept. *)
Lemma scan_back_stops keep text fuel : ∀ start, (start ≤ fuel)%nat → (start ≤ length text)%nat →
  (scan_back fuel keep text start ≤ start)%nat ∧
  (scan_back fuel keep text start = 0%nat ∨
   keep (fst (DecodeLastRuneInString (take (scan_back fuel keep text start) text))) = false).
Proof.
  induction fuel as [|fuel IH]; intros start Hfuel Hlen; simpl; [split; [done|left; lia]|].
  destruct (Nat.eqb_spec start 0) as [->|Hne]; [auto|].
  destruct (DecodeLastRuneInString (take start text)) as [r size] eqn:Hr. destruct (keep r) eqn:Hk.
  - assert (1 ≤ size)%nat as Hsize.
    { eapply DecodeLastRune_size; [|exact Hr]. intros Hnil%(f_equal length). rewrite length_take in Hnil. simpl in Hnil. lia. }
    destruct (IH (start - size)%nat ltac:(lia) ltac:(lia)) as [Hle Hstop]. split; [lia|done].
  - rewrite Hr. auto.
Qed.

Lemma previous_token_from tokens offset : ∀ previous, let t := previous_token tokens offset previous in
  t = previous ∨ (t ∈ tokens ∧ SpanEnd (tok_Span t) ≤ Z.of_nat offset).
Proof.
  induction tokens as [|token tokens IH]; intros previous; simpl; [by left|].
  destruct (Z.ltb_spec (Z.of_nat offset) (SpanEnd (tok_Span token))); [by left|].
  destruct (IH token) as [->|[Hin Hend]]; right; (split; [|done]); [by left|by right].
Qed.

Section complete.
Context (isLetter isDigit : Z → bool) (ToLower : string → string).
Context (NamespaceSeparator : string) (N : string → string).

Lemma token_context_total text token : 0 ≤ SpanStart (tok_Span token) → SpanEnd (tok_Span token) ≤ Z.of_nat (length text) →
  ∃ c, token_context text token = Ret c.
Proof.
  intros Hstart Hend. unfold token_context. destruct (Z.ltb_spec (SpanStart (tok_Span token)) (SpanEnd (tok_Span token))); [|by eexists].
  assert (∃ v, slice_span text (tok_Span token) = Ret v) as [v Hv].
  { unfold slice_span. replace (_ && _ && _) with true by (symmetry; rewrite !andb_true_iff, !Z.leb_le; lia). by eexists. }
  destruct (tok_Word token); rewrite ?Hv; by eexists.
Qed.

Lemma completionContextAt_total text tokens offset : Forall (λ t, 0 ≤ SpanStart (tok_Span t)) tokens →
  ∃ c, completionContextAt isLetter isDigit NamespaceSeparator text tokens offset = Ret c.
Proof.
  intros Htokens. unfold completionContextAt. case_match; [by eexists|]. set (o := if (_ <? _)%nat then _ else _).
  assert (o ≤ length text)%nat as Ho by (subst o; case_match; bools; lia). case_match; [by eexists|]. case_match; [by eexists|].
  set (t := previous_token tokens o _).
  destruct (token_context_total text t) as [c ->]; [..|by eexists];
    (destruct (previous_token_from tokens o (mkSyntaxToken SyntaxWordOther (mkSpan 0 0))) as [Heq|[Hin Hend]];
     [subst t; rewrite Heq; simpl; lia|]).
  - rewrite Forall_forall in Htokens. by apply Htokens.
  - subst t. lia.
Qed.

(** A comparison sort gives one result, whatever the order of its input. *)
Lemma sorted_unique entries l1 l2 : distinct_ranks entries →
  l1 ≡ₚ map snd (map_to_list (add_all entries ∅)) → l2 ≡ₚ map snd (map_to_list (add_all entries ∅)) →
  Sorted (item_le ToLower) l1 → Sorted (item_le ToLower) l2 → l1 = l2.
Proof.
  intros Hd H1 H2 Hs1 Hs2. apply (Sorted_unique_strong (item_le ToLower)); [|done|done|by rewrite H1, H2].
  intros a b Ha Hb Hab Hba. rewrite H1 in Ha. rewrite H2 in Hb.
  apply list_elem_of_fmap in Ha as ([k1 i1] & -> & Ha%elem_of_map_to_list).
  apply list_elem_of_fmap in Hb as ([k2 i2] & -> & Hb%elem_of_map_to_list). simpl in *.
  pose proof (item_le_both ToLower i1 i2 Hab Hba) as Hrank.
  assert (k1 = k2) as ->; [|congruence].
  apply add_all_from in Ha as [Ha|Ha]; [by rewrite lookup_empty in Ha|].
  apply add_all_from in Hb as [Hb|Hb]; [by rewrite lookup_empty in Hb|]. by eapply Hd.
Qed.

Lemma add_all_items entries :
  (∀ i, i ∈ map snd (map_to_list (add_all entries ∅)) → ∃ k, (k, i) ∈ entries) ∧
  (∀ k i, (k, i) ∈ entries → ∃ i', i' ∈ map snd (map_to_list (add_all entries ∅)) ∧ (k, i') ∈ entries).
Proof.
  split.
  - intros i ([k i'] & -> & Hin%elem_of_map_to_list)%list_elem_of_fmap.
    apply add_all_from in Hin as [Hin|Hin]; [by rewrite lookup_empty in Hin|]. by exists k.
  - intros k i Hin. destruct (add_all_has entries ∅ k i Hin) as [i' Hi']. exists i'. split.
    + apply list_elem_of_fmap. exists (k, i'). by rewrite elem_of_map_to_list.
    + apply add_all_from in Hi' as [Hi'|Hi']; [by rewrite lookup_empty in Hi'|done].
Qed.

(** C30. A completion request is answered without a panic at every position (lines
    are unsigned, and the tokens of the analysis start at offsets of the text), and
    its answer does not depend on the order in which Go iterates the map of the
    items nor on how the sort breaks ties: no two items have the same rank, so
    every sorted arrangement of the items is the answer.  The answer holds one
    item for every candidate of the context and nothing else. *)
Theorem completion_deterministic (functions : Functions) (reference : option (list APINamespace)) (c : FunctionCatalog)
    (words : list wordInfo) (parameters : list string) (text : list Z) (q : queries) (position : Position) :
  catalog_of NamespaceSeparator N functions reference c → 0 ≤ Line position →
  Forall (λ t, 0 ≤ SpanStart (tok_Span t)) (qu_SyntaxTokens q) →
  ∃ offset context result,
    let e := mkEnvironment words parameters (fc_ordered c) in
    let entries := completion_entries isLetter isDigit ToLower NamespaceSeparator N e q text offset context in
    PositionToOffset (NewMapper text) position = Ret offset ∧
    completionContextAt isLetter isDigit NamespaceSeparator text (qu_SyntaxTokens q) offset = Ret context ∧
    (∀ order, (∀ m, order m ≡ₚ map snd (map_to_list m)) →
       Completion isLetter isDigit ToLower NamespaceSeparator N order e text q position = Ret result) ∧
    (∀ l, l ≡ₚ map snd (map_to_list (add_all entries ∅)) → Sorted (item_le ToLower) l → l = result) ∧
    (∀ i, i ∈ result → ∃ k, (k, i) ∈ entries) ∧
    (∀ k i, (k, i) ∈ entries → ∃ i', i' ∈ result ∧ (k, i') ∈ entries).
Proof.
  intros Hc Hline Htokens. destruct (PositionToOffset_total text position Hline) as (offset & Ho & _).
  destruct (completionContextAt_total text (qu_SyntaxTokens q) offset Htokens) as [context Hcontext].
  set (e := mkEnvironment words parameters (fc_ordered c)).
  set (entries := completion_entries isLetter isDigit ToLower NamespaceSeparator N e q text offset context).
  set (values := map snd (map_to_list (add_all entries ∅))).
  assert (distinct_ranks entries) as Hd by (eapply entries_distinct, catalog_functions_ok, Hc).
  exists offset, context, (merge_sort (item_le ToLower) values). simpl. fold e entries values. split_and!; [done|done|..].
  - intros order Horder. unfold Completion. rewrite Ho. simpl. rewrite Hcontext. simpl. fold entries. f_equal.
    apply (sorted_unique entries); rewrite ?merge_sort_Permutation; auto using Sorted_merge_sort with typeclass_instances.
  - intros l Hl Hs. apply (sorted_unique entries); rewrite ?merge_sort_Permutation; auto using Sorted_merge_sort with typeclass_instances.
  - intros i. rewrite merge_sort_Permutation. apply (add_all_items entries).
  - intros k i Hin. destruct (proj2 (add_all_items entries) k i Hin) as (i' & Hi' & Hk).
    exists i'. by rewrite merge_sort_Permutation.
Qed.

End complete.

(** ** A completion *)

Definition ascii_letter (r : Z) : bool := ((65 <=? r) && (r <=? 90)) || ((97 <=? r) && (r <=? 122)).
Definition ascii_digit (r : Z) : bool := (48 <=? r) && (r <=? 57).

Definition sample_queries : queries :=
  mkQueries (λ _, None) (λ _, None) (λ _, None) (λ _, None) (λ _, []) (λ _, None) (λ _, []) []
    (λ _, [mkSymbol 0 "CuStOm::DoThing" SymbolKindUDF ValueTypeUnknown true (mkSpan 0 1) (mkSpan 0 1)])
    [mkSyntaxToken SyntaxWordReturn (mkSpan 0 6)].

Definition sample_catalog : FunctionCatalog :=
  default (mkCatalog [] ∅) (NewRuntimeFunctionCatalog lower_ascii (Some sample_functions)).

Definition sample_words : list wordInfo := [mkWord SyntaxWordFor SyntaxWordCategoryKeyword "FOR"].

(** A function of the document with the name of a registered one: the detail tells
    the two apart. *)
Lemma completion_deterministic_witness : ∃ result, ∀ order, (∀ m, order m ≡ₚ map snd (map_to_list m)) →
  Completion ascii_letter ascii_digit lower_ascii "::" lower_ascii order
    (mkEnvironment sample_words [] (fc_ordered sample_catalog)) (bytes_of_string "RETURN cu") sample_queries (mkPosition 0 9) = Ret result.
Proof.
  destruct (completion_deterministic ascii_letter ascii_digit lower_ascii "::" lower_ascii sample_functions None sample_catalog
    sample_words [] (bytes_of_string "RETURN cu") sample_queries (mkPosition 0 9)) as (offset & context & result & _ & _ & H & _).
  - exists sample_catalog. split; reflexivity.
  - discriminate.
  - repeat constructor. discriminate.
  - exists result. exact H.
Defined.

Example sample_completion :
  match Completion ascii_letter ascii_digit lower_ascii "::" lower_ascii (λ m, map snd (map_to_list m))
    (mkEnvironment sample_words [] (fc_ordered sample_catalog)) (bytes_of_string "RETURN cu") sample_queries (mkPosition 0 9) with
  | Ret items => map (λ i, (ci_Label i, ci_Detail i)) items
  | _ => []
  end = [("CuStOm::DoThing", "binding"); ("CuStOm::DoThing", "registered function"); ("for", "keyword"); ("Host::Only", "registered function")].
Proof. vm_compute. reflexivity. Qed.
