(* ===== verification/Features.v ===== *)
(** * Hover, signature help and formatting

    [internal/language/hover.go], [signature.go], [signature_build.go],
    [formatting.go] and [formatting_error.go]: what the symbol, the call and the
    type at a position say, which overload of a call is active, and the edit that
    formats a document.  The formatter of the Ferret library is a parameter. *)

From S2P Require Import Prelude Source Errors SemanticTokens Symbols Catalog.
Local Open Scope Z_scope.

(** ** Hover *)

Record Hover := mkHover {
  hv_Range : Range;
  hv_Name : string;
  hv_SymbolKind : option SymbolKind;
  hv_Type : option ValueType;
  hv_Signature : option Signature;
  hv_RegisteredSignatures : list Signature
}.

Definition known (t : ValueType) : option ValueType := if bool_decide (t = ValueTypeUnknown) then None else Some t.

Definition in_callee (c : call) (offset : nat) : bool :=
  (SpanStart (cl_CalleeSpan c) <=? Z.of_nat offset) && (Z.of_nat offset <? SpanEnd (cl_CalleeSpan c)).

Section features.
Context (NormalizeRegisteredName : string → string) (InvalidSymbolID : Z).

(** The overloads of the registered function whose name is at the offset. *)
Definition registered_signatures (catalog : FunctionCatalog) (resolved : resolution) : outcome (list Signature) :=
  match rs_Call resolved with
  | Some c =>
      if in_callee c (rs_Offset resolved) && negb (bool_decide (cl_Kind c = CallKindUDF)) then
        function ← lookup_function NormalizeRegisteredName catalog (cl_Identity c);
        Ret (match function with Some f => renderedSignatures f 1 | None => [] end)
      else Ret []
  | None => Ret []
  end.

Definition hover_at (mapper : Mapper) (q : queries) (catalog : FunctionCatalog) (position : Position) : outcome (option Hover) :=
  resolved ← resolve mapper q position;
  registered ← registered_signatures catalog resolved;
  let '(name, kind, signature, type) :=
    match rs_Symbol resolved with
    | Some s =>
        (sb_Name s, Some (sb_Kind s),
         if bool_decide (sb_Kind s = SymbolKindUDF) then Some (udfSignature (sb_Name s) (map sb_Name (qu_FunctionParameters q (sb_ID s)))) else None,
         known (sb_Type s))
    | None => ("", None, None, None)
    end in
  let type := match type with
    | Some t => Some t
    | None => match rs_Type resolved with Some fact => known (tf_Type fact) | None => None end
    end in
  Ret (if bool_decide (name = "") && bool_decide (type = None) && (length registered =? 0)%nat then None
       else Some (mkHover (rs_Range resolved) name kind type signature registered)).

(** ** Signature help *)

Record SignatureHelp := mkHelp {
  sh_Signatures : list Signature;
  sh_ActiveSignature : Z;
  sh_ActiveParameter : Z
}.

(** The first argument that ends at or after the offset. *)
Fixpoint active_loop (spans : list Span) (offset index : nat) : nat :=
  match spans with
  | [] => index
  | span :: spans => if Z.of_nat offset <=? SpanEnd span then index else active_loop spans offset (S index)
  end.

Definition activeArgument (c : call) (offset : nat) : nat := active_loop (cl_ArgumentSpans c) offset 0.

(** The loop over the overloads: the first that takes the argument, and the first
    variadic one. *)
Fixpoint select_loop (signatures : list Signature) (active index : nat) (variadic : option nat) : option nat * option nat :=
  match signatures with
  | [] => (None, variadic)
  | s :: signatures =>
      if sg_Variadic s then
        select_loop signatures active (S index) (match variadic with Some v => Some v | None => Some index end)
      else if (active <? length (sg_Parameters s))%nat then (Some index, variadic)
      else select_loop signatures active (S index) variadic
  end.

(** The active overload and argument of a registered function's call. *)
Definition select_overload (signatures : list Signature) (active : nat) : outcome SignatureHelp :=
  match select_loop signatures active 0 None with
  | (Some index, _) => Ret (mkHelp signatures (u32 (Z.of_nat index)) (u32 (Z.of_nat active)))
  | (None, Some variadic) =>
      match signatures !! variadic with
      | None => Panic "index out of range"
      | Some s =>
          let parameters := sg_Parameters s in
          let parameter := if (0 <? length parameters)%nat && (length parameters <=? active)%nat
            then u32 (Z.of_nat (length parameters - 1)) else u32 (Z.of_nat active) in
          Ret (mkHelp signatures (u32 (Z.of_nat variadic)) parameter)
      end
  | (None, None) => Ret (mkHelp signatures 0 (u32 (Z.of_nat active)))
  end.

Definition signature_help (mapper : Mapper) (q : queries) (catalog : FunctionCatalog) (position : Position) : outcome (option SignatureHelp) :=
  resolved ← resolve mapper q position;
  match rs_Call resolved with
  | None => Ret None
  | Some c =>
      let active := activeArgument c (rs_Offset resolved) in
      if bool_decide (cl_Kind c = CallKindUDF) && negb (bool_decide (cl_Target c = InvalidSymbolID)) then
        Ret (match qu_Symbol q (cl_Target c) with
             | None => None
             | Some function =>
                 Some (mkHelp [udfSignature (sb_Name function) (map sb_Name (qu_FunctionParameters q (cl_Target c)))] 0 (u32 (Z.of_nat active)))
             end)
      else
        function ← lookup_function NormalizeRegisteredName catalog (cl_Identity c);
        match function with
        | None => Ret None
        | Some f =>
            let signatures := renderedSignatures f (Nat.max (active + 1) 1) in
            if (length signatures =? 0)%nat then Ret None
            else help ← select_overload signatures active; Ret (Some help)
        end
  end.

End features.

(** ** Formatting *)

Definition DefaultTabSize : Z := 4.

Record FormattingResult := mkFormatting {
  fr_Range : Range;
  fr_Text : list Z
}.

(** The errors of the formatter, as [errors.As] finds the diagnostics in them. *)
Inductive DiagnosticKind := UnexpectedError | OtherKind.

Inductive formatError :=
| FormatDiagnostic (kind : DiagnosticKind)
| FormatDiagnosticSet (kinds : list DiagnosticKind)
| FormatOther (message : string).

Definition formatterSourceError (err : formatError) : bool :=
  match err with
  | FormatDiagnostic kind => match kind with UnexpectedError => false | OtherKind => true end
  | FormatDiagnosticSet kinds => forallb (λ kind, match kind with UnexpectedError => false | OtherKind => true end) kinds
  | FormatOther _ => false
  end.

(** What [Format] returns besides a value: the context's or the resolution's
    error, or one of the formatter. *)
Inductive formatFailure :=
| FailCanceled (err : error)
| FailResolve (err : error)
| FailCreate (message : string)
| FailFormat (err : formatError).

(** A formatter for a width: its construction and its result on a text. *)
Definition formatter : Type := Z → sum (list Z → sum (list Z) formatError) string.

Definition Format (canceled : option error) (snapshot : sum (list Z) error) (new : formatter) (tabSize : Z) :
    outcome (sum (option FormattingResult) formatFailure) :=
  match canceled with
  | Some err => Ret (inr (FailCanceled err))
  | None =>
      match snapshot with
      | inr err => Ret (inr (FailResolve err))
      | inl text =>
          let tabSize := if tabSize =? 0 then DefaultTabSize else tabSize in
          match new tabSize with
          | inr message => Ret (inr (FailCreate message))
          | inl format =>
              match format text with
              | inr err => Ret (if formatterSourceError err then inl None else inr (FailFormat err))
              | inl formatted =>
                  if bool_decide (formatted = text) then Ret (inl None)
                  else
                    e ← OffsetToPosition (NewMapper text) (Z.of_nat (length text));
                    Ret (inl (Some (mkFormatting (mkRange (mkPosition 0 0) e) formatted)))
              end
          end
      end
  end.

(** ** The active overload *)

Definition takes (active : nat) (s : Signature) : Prop := sg_Variadic s = false ∧ (active < length (sg_Parameters s))%nat.

Global Instance takes_dec active s : Decision (takes active s).
Proof. unfold takes. apply _. Defined.

Lemma select_loop_spec signatures active : ∀ index variadic,
  select_loop signatures active index variadic =
  match list_find (takes active) signatures with
  | Some (i, _) => (Some (index + i)%nat, snd (select_loop signatures active index variadic))
  | None => (None, match variadic with
      | Some v => Some v
      | None => (λ x, (index + fst x)%nat) <$> list_find (λ s, sg_Variadic s = true) signatures
      end)
  end.
Proof.
  induction signatures as [|s signatures IH]; intros index variadic; [by destruct variadic|]. simpl.
  destruct (sg_Variadic s) eqn:Hv; simpl.
  - rewrite decide_False by (unfold takes; rewrite Hv; by intros []).
    rewrite (IH (S index)). destruct (list_find (takes active) signatures) as [[i t]|]; simpl.
    + by rewrite Nat.add_succ_r.
    + destruct variadic; [done|]. simpl. by rewrite Nat.add_0_r.
  - destruct (Nat.ltb_spec active (length (sg_Parameters s))).
    + rewrite decide_True by done. simpl. by rewrite Nat.add_0_r.
    + rewrite decide_False by (intros [_ ?]; lia). rewrite (IH (S index)).
      destruct (list_find (takes active) signatures) as [[i t]|]; simpl; [by rewrite Nat.add_succ_r|].
      destruct variadic; [done|]. destruct (list_find _ signatures) as [[i t]|]; simpl; [|done].
      by rewrite Nat.add_succ_r.
Qed.

(** The overload shown for a call is the first that takes the argument the cursor
    is in, else the first variadic one, with its last parameter active beyond
    its parameters, else the first; it is always one of the overloads. *)
Theorem active_overload (signatures : list Signature) (active : nat) :
  signatures ≠ [] → Z.of_nat (length signatures) < 2 ^ 32 → Z.of_nat active < 2 ^ 32 →
  ∃ help, select_overload signatures active = Ret help ∧ sh_Signatures help = signatures ∧
    (∃ i s, sh_ActiveSignature help = Z.of_nat i ∧ signatures !! i = Some s ∧
      match list_find (takes active) signatures with
      | Some (j, _) => i = j ∧ sh_ActiveParameter help = Z.of_nat active
      | None =>
          match list_find (λ s, sg_Variadic s = true) signatures with
          | Some (j, _) => i = j ∧ ((0 < length (sg_Parameters s))%nat → sh_ActiveParameter help = Z.of_nat (Nat.min active (length (sg_Parameters s) - 1)))
          | None => i = 0%nat ∧ sh_ActiveParameter help = Z.of_nat active
          end
      end).
Proof.
  intros Hne Hlen Hactive. unfold select_overload. rewrite select_loop_spec.
  destruct (list_find (takes active) signatures) as [[i s]|] eqn:Hfind; simpl.
  - apply list_find_Some in Hfind as (Hi & _ & _). pose proof (lookup_lt_Some _ _ _ Hi).
    eexists. split; [done|]. split; [done|]. exists i, s. simpl. rewrite !u32_small by lia. done.
  - destruct (list_find (λ s, sg_Variadic s = true) signatures) as [[v s]|] eqn:Hv; simpl.
    + apply list_find_Some in Hv as (Hi & _ & _). pose proof (lookup_lt_Some _ _ _ Hi). rewrite Hi.
      eexists. split; [done|]. split; [done|]. exists v, s. simpl. rewrite (u32_small (Z.of_nat v)) by lia.
      split_and!; [done..|]. intros Hpos. case_match; bools.
      * rewrite u32_small by lia. f_equal. lia.
      * rewrite u32_small by lia. f_equal. apply andb_false_iff in H0 as [?|?]; bools; lia.
    + eexists. split; [done|]. split; [done|]. destruct signatures as [|s signatures]; [done|]. exists 0%nat, s. simpl.
      by rewrite u32_small by lia.
Qed.

(** ** The formatting edit *)

(** Formatting a document ends without a panic whatever the formatter does,
    and the edit it returns replaces the document from its first to its last byte
    by the formatter's output: a document that is already formatted gets no edit,
    nor does one with errors in its source, and only an unexpected error of the
    formatter is reported.  The formatter is asked for the default width when
    none is given. *)
Theorem format_replaces_document (text : list Z) (new : formatter) (tabSize : Z) :
  Z.of_nat (length text) < 2 ^ 32 →
  let width := if tabSize =? 0 then DefaultTabSize else tabSize in
  ∃ result, Format None (inl text) new tabSize = Ret result ∧
    match result with
    | inl (Some edit) => ∃ format, new width = inl format ∧ format text = inl (fr_Text edit) ∧ fr_Text edit ≠ text ∧
        RangeToSpan (NewMapper text) (fr_Range edit) = Ret (mkSpan 0 (Z.of_nat (length text)))
    | inl None => ∃ format, new width = inl format ∧
        (format text = inl text ∨ ∃ err, format text = inr err ∧ formatterSourceError err = true)
    | inr (FailFormat err) => ∃ format, new width = inl format ∧ format text = inr err ∧ formatterSourceError err = false
    | inr (FailCreate message) => new width = inr message
    | inr _ => False
    end.
Proof.
  intros Hlen width. unfold Format. fold width. destruct (new width) as [format|message]; [|by eexists].
  destruct (format text) as [formatted|err] eqn:Hf.
  - case_bool_decide as Heq; [subst; eexists; split; [done|]; exists format; auto|].
    destruct (end_round_trip text Hlen) as (p & Hp & Hback). rewrite Hp. simpl.
    eexists. split; [done|]. exists format. simpl. split_and!; [done..|].
    unfold RangeToSpan. simpl. rewrite PositionToOffset_origin. simpl. by rewrite Hback.
  - destruct (formatterSourceError err) eqn:He; (eexists; split; [done|]; exists format); eauto.
Qed.

Lemma format_replaces_document_witness : ∃ edit,
  Format None (inl (bytes_of_string "return 1")) (λ _, inl (λ _, inl (bytes_of_string "RETURN 1"))) 0 = Ret (inl (Some edit)) ∧
  RangeToSpan (NewMapper (bytes_of_string "return 1")) (fr_Range edit) = Ret (mkSpan 0 8).
Proof.
  destruct (format_replaces_document (bytes_of_string "return 1") (λ _, inl (λ _, inl (bytes_of_string "RETURN 1"))) 0 eq_refl)
    as ([[edit|]|[]] & Heq & H); try done.
  - exists edit. split; [exact Heq|]. destruct H as (_ & _ & _ & _ & H). exact H.
Defined.
