(* ===== verification/Endpoint.v ===== *)
(** * Endpoints: parsing, listening and dialing

    [internal/transport] on Unix and the endpoint side of the Go client
    ([client/endpoint.go], [options.go], [Dial] of [client.go]).  What the
    operating system answers is given; the calls that change the file system are
    recorded.  [bracketed] is the parameter of [Url], [parse_detail] the text of a
    parse error. *)

From S2P Require Import Prelude Paths Errors Uri Url Wire Daemon GoClient.
Local Open Scope Z_scope.

Definition NetworkUnix : string := "unix".
Definition NetworkNamedPipe : string := "npipe".

(** ** Ports *)

Definition digit_value (c : Ascii.ascii) : Z := Z.of_nat (ord c) - 48.

Fixpoint parse_digits (acc : Z) (s : string) : Z :=
  match s with EmptyString => acc | String c s => parse_digits (acc * 10 + digit_value c) s end.

(** [strconv.ParseUint(s, 10, 16)]. *)
Definition ParseUint16 (s : string) : option Z :=
  if bool_decide (s = "") || negb (string_forall is_digit s) then None
  else if parse_digits 0 s <? 65536 then Some (parse_digits 0 s) else None.

Fixpoint format_loop (fuel : nat) (n : Z) (acc : string) : string :=
  match fuel with
  | O => acc
  | S fuel =>
      let acc := String (chr (Z.to_nat (48 + n mod 10))) acc in
      if n / 10 =? 0 then acc else format_loop fuel (n / 10) acc
  end.

(** [strconv.FormatUint(n, 10)] of a number below [10^20]. *)
Definition FormatUint (n : Z) : string := format_loop 20 n "".

(** [net.SplitHostPort]; [None] is its error. *)
Definition SplitHostPort (hostport : string) : option (string * string) :=
  match CutLast colon hostport with
  | None => None
  | Some (host, port) =>
      let no c s := string_forall (λ x, negb (bool_decide (x = c))) s in
      if HasPrefix hostport "[" then
        match Cut (chr 93) (string_drop 1 hostport) with
        | None => None
        | Some (inside, after) =>
            if bool_decide (after = String colon port) && no (chr 91) (string_drop 1 hostport) && no (chr 93) after
            then Some (inside, port) else None
        end
      else if no colon host && no (chr 91) hostport && no (chr 93) hostport then Some (host, port) else None
  end.

(** [net.JoinHostPort] of a host without a colon. *)
Definition JoinHostPort (host port : string) : string := host +:+ ":" +:+ port.

(** ** URLs of endpoints *)

(** [url.escape] in a host. *)
Fixpoint escape_host (s : string) : string :=
  match s with
  | EmptyString => ""
  | String c s =>
      if host_escapes c then
        String percent (String (hex_digit (ord c / 16)) (String (hex_digit (ord c mod 16)) (escape_host s)))
      else String c (escape_host s)
  end.

(** [url.URL.String] of a URL with a scheme, a host and a path. *)
Definition url_string (scheme host path : string) : string :=
  scheme +:+ ":" +:+ (if bool_decide (host = "") && bool_decide (path = "") then "" else "//") +:+ escape_host host +:+
  (if negb (bool_decide (path = "")) && negb (HasPrefix path "/") && negb (bool_decide (host = "")) then "/" else "") +:+
  (if bool_decide (path = "*") then "*" else escape path).

Definition backslash : Ascii.ascii := chr 92.

Fixpoint replace_all (from to : Ascii.ascii) (s : string) : string :=
  match s with EmptyString => "" | String c s => String (if bool_decide (c = from) then to else c) (replace_all from to s) end.

(** [Endpoint.String]. *)
Definition endpoint_string (e : Endpoint) : string :=
  if bool_decide (ep_Network e = NetworkUnix) then url_string NetworkUnix "" (ep_Address e)
  else if bool_decide (ep_Network e = NetworkNamedPipe) then url_string NetworkNamedPipe "" (replace_all backslash slash (ep_Address e))
  else if bool_decide (ep_Network e = NetworkTCP) then url_string NetworkTCP (ep_Address e) ""
  else "".

Definition invalid (text : string) : error := wrap_sentinel TransportErrInvalidEndpoint text.

Definition quoted (s : string) : string := byte 34 +:+ s +:+ byte 34.

Section endpoint.
Context (bracketed : string → option string) (parse_detail : string → string).

(** [ParseEndpoint] on Unix. *)
Definition ParseEndpoint (value : string) : Endpoint + error :=
  match Parse bracketed value with
  | None => inr (invalid ("parse URL: " +:+ parse_detail value))
  | Some parsed =>
      if bool_decide (u_Scheme parsed = NetworkUnix) then
        if negb (bool_decide (u_Host parsed = "")) || negb (bool_decide (u_RawQuery parsed = "")) ||
           negb (bool_decide (u_Fragment parsed = "")) || negb (IsAbs (u_Path parsed))
        then inr (invalid "unix endpoint must contain only an absolute path")
        else inl (mkEndpoint NetworkUnix (Clean (u_Path parsed)))
      else if bool_decide (u_Scheme parsed = NetworkNamedPipe) then
        inr (invalid "named-pipe endpoints are only supported on Windows")
      else if bool_decide (u_Scheme parsed = NetworkTCP) then
        if u_User parsed || negb (bool_decide (u_Path parsed = "")) || negb (bool_decide (u_RawQuery parsed = "")) ||
           negb (bool_decide (u_Fragment parsed = ""))
        then inr (invalid "TCP endpoint contains unsupported URL components")
        else
          match SplitHostPort (u_Host parsed) with
          | None => inr (invalid "TCP endpoint must contain an IPv4 loopback host and port")
          | Some (host, portValue) =>
              if negb (bool_decide (host = "127.0.0.1")) then inr (invalid "TCP endpoint must use 127.0.0.1")
              else
                match ParseUint16 portValue with
                | None => inr (invalid "TCP endpoint contains an invalid port")
                | Some port => inl (mkEndpoint NetworkTCP (JoinHostPort host (FormatUint port)))
                end
          end
      else inr (invalid ("unsupported scheme " +:+ quoted (u_Scheme parsed)))
  end.

(** ** TCP *)

Definition validateTCPEndpoint (e : Endpoint) (listening : bool) : option error :=
  if negb (bool_decide (ep_Network e = NetworkTCP)) then Some (invalid "expected a TCP endpoint")
  else
    match SplitHostPort (ep_Address e) with
    | Some (host, portValue) =>
        if negb (bool_decide (host = "127.0.0.1")) then Some (invalid "expected an IPv4 loopback TCP endpoint")
        else
          match ParseUint16 portValue with
          | None => Some (invalid "TCP endpoint contains an invalid port")
          | Some port =>
              if listening && negb (port =? 0) then Some (invalid "TCP listeners must use an ephemeral port")
              else if negb listening && (port =? 0) then Some (invalid "cannot dial an unassigned TCP port")
              else None
          end
    | None => Some (invalid "expected an IPv4 loopback TCP endpoint")
    end.

(** The address a TCP listener reports: [None] if it is no TCP address. *)
Definition bound_address : Type := option ((Z * Z * Z * Z) * Z).

(** [listenTCP] with the answer of [net.Listen]: the bound endpoint, or an error
    and whether the listener was closed again. *)
Definition listenTCP (e : Endpoint) (listen : bound_address + error) : (Endpoint + error) * bool :=
  match validateTCPEndpoint e true with
  | Some err => (inr err, false)
  | None =>
      match listen with
      | inr err => (inr (wrap_prefix ("listen on " +:+ endpoint_string e) err), false)
      | inl (Some (ip, port)) =>
          if negb (bool_decide (ip = (127, 0, 0, 1))) || (port =? 0)
          then (inr (invalid "TCP listener returned an invalid loopback address"), true)
          else (inl (mkEndpoint NetworkTCP (JoinHostPort "127.0.0.1" (FormatUint port))), false)
      | inl None => (inr (invalid "TCP listener returned an invalid loopback address"), true)
      end
  end.

(** The dial of a connection: what would be dialed, or the error. *)
Definition dialTCP (e : Endpoint) : (string * string) + error :=
  match validateTCPEndpoint e false with Some err => inr err | None => inl ("tcp4", ep_Address e) end.

Definition dialLocal (e : Endpoint) : (string * string) + error :=
  if negb (bool_decide (ep_Network e = NetworkUnix)) || negb (IsAbs (ep_Address e))
  then inr (invalid "expected an absolute unix endpoint")
  else inl ("unix", ep_Address e).

(** [Dial] up to the connection. *)
Definition dial_target (ctxErr : option error) (e : Endpoint) : (string * string) + error :=
  match ctxErr with
  | Some err => inr err
  | None =>
      match (if bool_decide (ep_Network e = NetworkTCP) then dialTCP e else dialLocal e) with
      | inr err => inr (wrap_prefix ("dial " +:+ endpoint_string e) err)
      | inl target => inl target
      end
  end.

(** ** Unix sockets *)

(** What an operation does to the file system. *)
Inductive fsCall := FMkdirAll (path : string) | FRemove (path : string) | FListen (path : string) | FChmod (path : string) | FClose.

(** The state of a socket path as the calls see it. *)
Record socketAnswers := mkSocketAnswers {
  so_mkdir : option error;
  so_lstat : bool + error;               (* whether the file is a socket *)
  so_dial : option error;                (* the dial of the existing socket: [None] connects *)
  so_refused : bool;                     (* the dial error is ECONNREFUSED or ErrNotExist *)
  so_remove : option error;
  so_listen : option (error * bool);     (* the error, and whether it is EADDRINUSE *)
  so_chmod : option error
}.

Definition missing (err : error) : bool := errors_Is err FsErrNotExist.

Definition ensureSocketPathAvailable (a : socketAnswers) (path : string) : option error * list fsCall :=
  match so_lstat a with
  | inr err => if missing err then (None, []) else (Some (wrap_prefix "inspect endpoint" err), [])
  | inl false => (Some (wrap_sentinel TransportErrEndpointInUse "endpoint path is not a socket"), [])
  | inl true =>
      match so_dial a with
      | None => (Some (ESentinel TransportErrEndpointInUse), [])
      | Some err =>
          if negb (so_refused a) then (Some (wrap_sentinel TransportErrEndpointInUse ("inspect existing socket: " +:+ error_text err)), [])
          else
            match so_remove a with
            | Some err => if missing err then (None, [FRemove path]) else (Some (wrap_prefix "remove stale endpoint socket" err), [FRemove path])
            | None => (None, [FRemove path])
            end
      end
  end.

Definition listenLocal (a : socketAnswers) (e : Endpoint) : option error * list fsCall :=
  if negb (bool_decide (ep_Network e = NetworkUnix)) || negb (IsAbs (ep_Address e))
  then (Some (invalid "expected an absolute unix endpoint"), [])
  else
    let path := ep_Address e in
    let directory := FMkdirAll (Dir path) in
    match so_mkdir a with
    | Some err => (Some (wrap_prefix "create endpoint directory" err), [directory])
    | None =>
        let '(unavailable, calls) := ensureSocketPathAvailable a path in
        match unavailable with
        | Some err => (Some err, directory :: calls)
        | None =>
            match so_listen a with
            | Some (err, inUse) =>
                (Some (if inUse then wrap_sentinel TransportErrEndpointInUse (error_text err)
                       else wrap_prefix ("listen on " +:+ endpoint_string e) err), directory :: calls)
            | None =>
                match so_chmod a with
                | Some err => (Some (wrap_prefix "secure endpoint socket" err), directory :: calls ++ [FListen path; FChmod path; FClose; FRemove path])
                | None => (None, directory :: calls ++ [FListen path; FChmod path])
                end
            end
        end
    end.

(** [cleanupListener.Close]: the first call closes and removes, the others report
    its result; [closed] is [None] before the first. *)
Definition cleanup_Close (path : string) (close remove : option error) (closed : option (option error)) :
    option error * option (option error) * list fsCall :=
  match closed with
  | Some err => (err, closed, [])
  | None =>
      let removeErr := match remove with Some err => if missing err then None else Some err | None => None end in
      let result := errors_Join [close; removeErr] in
      (result, Some result, [FClose; FRemove path])
  end.

(** [Listener.Close]; [isClosed] tells that the error is [net.ErrClosed]. *)
Definition listener_Close (close : option error) (isClosed : bool) (closed : option (option error)) : option error * option (option error) :=
  match closed with
  | Some err => (err, closed)
  | None => let result := if isClosed then None else close in (result, Some result)
  end.

(** [Listen]: the endpoint of the listener. *)
Definition Listen (a : socketAnswers) (listen : bound_address + error) (e : Endpoint) : Endpoint + error :=
  if bool_decide (ep_Network e = NetworkTCP) then (listenTCP e listen).1
  else match (listenLocal a e).1 with Some err => inr err | None => inl e end.

(** [DefaultEndpoint] with the environment's runtime directory and the answer of
    [os.UserCacheDir]. *)
Definition DefaultEndpoint (runtimeDirectory : string) (cacheDirectory : string + error) : Endpoint + error :=
  match (if bool_decide (runtimeDirectory = "") || negb (IsAbs runtimeDirectory) then cacheDirectory else inl runtimeDirectory) with
  | inr err => inr (wrap_prefix "resolve user cache directory" err)
  | inl directory => inl (mkEndpoint NetworkUnix (Join [directory; "ferret"; "ferretd.sock"]))
  end.

End endpoint.

(** ** Numbers *)

Lemma digit_facts n : 0 ≤ n < 10 → is_digit (chr (Z.to_nat (48 + n))) = true ∧ digit_value (chr (Z.to_nat (48 + n))) = n.
Proof.
  intros Hn. assert (n = 0 ∨ n = 1 ∨ n = 2 ∨ n = 3 ∨ n = 4 ∨ n = 5 ∨ n = 6 ∨ n = 7 ∨ n = 8 ∨ n = 9) as H by lia.
  repeat destruct H as [-> |H]; [done..|]. by subst.
Qed.

Lemma format_loop_digits fuel : ∀ n acc, 0 ≤ n → string_forall is_digit acc = true → string_forall is_digit (format_loop fuel n acc) = true.
Proof.
  induction fuel as [|fuel IH]; intros n acc Hn Hacc; [done|]. cbn [format_loop].
  destruct (digit_facts (n mod 10)) as [Hd _]; [apply Z.mod_pos_bound; lia|].
  case_match; [cbn [string_forall]; by rewrite Hd|]. apply IH; [apply Z.div_pos; lia|]. cbn [string_forall]. by rewrite Hd.
Qed.

Lemma format_loop_value fuel : ∀ n acc, 0 ≤ n < 10 ^ Z.of_nat fuel → parse_digits 0 (format_loop fuel n acc) = parse_digits n acc.
Proof.
  induction fuel as [|fuel IH]; intros n acc Hn; [by replace n with 0 by (simpl in Hn; lia)|]. cbn [format_loop].
  destruct (digit_facts (n mod 10)) as [_ Hd]; [apply Z.mod_pos_bound; lia|]. pose proof (Z.div_mod n 10 ltac:(lia)) as Hdm.
  destruct (Z.eqb_spec (n / 10) 0) as [Hz|Hz].
  - cbn [parse_digits]. rewrite Hd. f_equal. lia.
  - rewrite IH.
    + cbn [parse_digits]. rewrite Hd. f_equal. lia.
    + rewrite Nat2Z.inj_succ, Z.pow_succ_r in Hn by lia. split; [apply Z.div_pos; lia|]. apply Z.div_lt_upper_bound; lia.
Qed.

Lemma format_loop_nonempty fuel n acc : acc ≠ "" → format_loop fuel n acc ≠ "".
Proof.
  revert n acc. induction fuel as [|fuel IH]; intros n acc Hacc; [done|]. cbn [format_loop]. case_match; [done|]. by apply IH.
Qed.

Lemma FormatUint_digits n : 0 ≤ n → string_forall is_digit (FormatUint n) = true.
Proof. intros Hn. by apply format_loop_digits. Qed.

Lemma FormatUint_nonempty n : FormatUint n ≠ "".
Proof. unfold FormatUint. cbn [format_loop]. case_match; [done|]. by apply (format_loop_nonempty 19). Qed.

Lemma ParseUint_Format n : 0 ≤ n < 65536 → ParseUint16 (FormatUint n) = Some n.
Proof.
  intros Hn. unfold ParseUint16. rewrite bool_decide_eq_false_2 by apply FormatUint_nonempty. rewrite FormatUint_digits by lia.
  cbn [negb orb]. unfold FormatUint. rewrite format_loop_value by (change (10 ^ Z.of_nat 20) with 100000000000000000000; lia).
  cbn [parse_digits]. by rewrite (proj2 (Z.ltb_lt n 65536)) by lia.
Qed.

Lemma parse_digits_pos s : ∀ acc, 0 ≤ acc → string_forall is_digit s = true → 0 ≤ parse_digits acc s.
Proof.
  induction s as [|c s IH]; intros acc Hacc; [done|]. cbn [string_forall parse_digits]. intros [Hc Hs]%andb_true_iff. apply IH; [|done].
  unfold is_digit, in_range in Hc. apply andb_true_iff in Hc as [Hlo _]. apply Nat.leb_le in Hlo. unfold digit_value, ord. lia.
Qed.

Lemma ParseUint16_bound s n : ParseUint16 s = Some n → 0 ≤ n < 65536.
Proof.
  unfold ParseUint16. destruct (bool_decide (s = "") || negb (string_forall is_digit s)) eqn:H; [done|].
  apply orb_false_iff in H as [_ H%negb_false_iff]. destruct (Z.ltb_spec (parse_digits 0 s) 65536); [|done]. intros [= <-].
  split; [by apply parse_digits_pos|done].
Qed.

(** ** Addresses *)

(** A character of a host that needs no escape and is none of the separators. *)
Definition host_char (c : Ascii.ascii) : bool := is_digit c || one_of [46; 58]%nat c.

Lemma host_char_facts c : host_char c = true →
  url_char c = true ∧ host_escapes c = false ∧ c ≠ percent ∧ c ≠ slash ∧ c ≠ at_sign ∧ c ≠ chr 91 ∧ c ≠ chr 93.
Proof. destruct c as [[] [] [] [] [] [] [] []]; vm_compute; intros; split_and!; try done. Qed.

Lemma host_chars_not sep s : (∀ c, host_char c = true → c ≠ sep) → string_forall host_char s = true →
  string_forall (λ c, negb (bool_decide (c = sep))) s = true.
Proof. intros H. apply string_forall_impl. intros c Hc%H. by rewrite bool_decide_eq_false_2. Qed.

Lemma escape_host_chars s : string_forall host_char s = true → escape_host s = s.
Proof.
  induction s as [|c s IH]; [done|]. cbn [string_forall escape_host]. intros [Hc Hs]%andb_true_iff.
  destruct (host_char_facts c Hc) as (_ & -> & _). by rewrite IH.
Qed.

Lemma unescape_host_chars s : string_forall host_char s = true → url_unescape encodeHost s = Some s.
Proof.
  induction s as [|c s IH]; [done|]. cbn [string_forall url_unescape]. intros [Hc Hs]%andb_true_iff.
  destruct (host_char_facts c Hc) as (_ & Hesc & Hp & _). rewrite bool_decide_eq_false_2 by done.
  rewrite Hesc, andb_false_r, IH by done. done.
Qed.

Lemma CutLast_snoc sep s t : string_forall (λ c, negb (bool_decide (c = sep))) t = true →
  CutLast sep (s +:+ String sep t) = Some (s, t).
Proof.
  intros Ht. induction s as [|c s IH].
  - change ("" +:+ String sep t) with (String sep t). cbn [CutLast]. rewrite CutLast_None by done. by rewrite bool_decide_eq_true_2.
  - change (String c s +:+ String sep t) with (String c (s +:+ String sep t)). cbn [CutLast]. by rewrite IH.
Qed.

Definition loopback (port : Z) : string := JoinHostPort "127.0.0.1" (FormatUint port).

Lemma digits_host_chars s : string_forall is_digit s = true → string_forall host_char s = true.
Proof. apply string_forall_impl. intros c Hc. unfold host_char. by rewrite Hc. Qed.

Lemma loopback_chars port : 0 ≤ port → string_forall host_char (loopback port) = true.
Proof. intros Hp. unfold loopback, JoinHostPort. rewrite !string_forall_app, (digits_host_chars (FormatUint port)); [done|by apply FormatUint_digits]. Qed.

Lemma digit_not_colon c : is_digit c = true → negb (bool_decide (c = colon)) = true.
Proof. destruct c as [[] [] [] [] [] [] [] []]; vm_compute; done. Qed.

Lemma port_no_colon port : 0 ≤ port → string_forall (λ c, negb (bool_decide (c = colon))) (FormatUint port) = true.
Proof. intros Hp. eapply string_forall_impl; [apply digit_not_colon|by apply FormatUint_digits]. Qed.

Lemma loopback_cut port : 0 ≤ port → CutLast colon (loopback port) = Some ("127.0.0.1", FormatUint port).
Proof. intros Hp. apply (CutLast_snoc colon "127.0.0.1"). by apply port_no_colon. Qed.

Lemma SplitHostPort_loopback port : 0 ≤ port → SplitHostPort (loopback port) = Some ("127.0.0.1", FormatUint port).
Proof.
  intros Hp. unfold SplitHostPort. rewrite loopback_cut by done. pose proof (loopback_chars port Hp) as Hc.
  change (HasPrefix (loopback port) "[") with false. cbv beta iota zeta.
  rewrite (host_chars_not (chr 91) (loopback port)), (host_chars_not (chr 93) (loopback port)); try done; intros c Hcc; by apply host_char_facts.
Qed.

Lemma append_nil_r (s : string) : s +:+ "" = s.
Proof. induction s as [|c s IH]; [done|]. change (String c s +:+ "") with (String c (s +:+ "")). by rewrite IH. Qed.

Section canonical.
Context (bracketed : string → option string) (parse_detail : string → string).

Lemma Parse_loopback port : 0 ≤ port →
  Parse bracketed ("tcp://" +:+ loopback port) = Some (mkURL NetworkTCP "" false (loopback port) "" "" "").
Proof.
  intros Hp. pose proof (loopback_chars port Hp) as Hc.
  assert (string_forall url_char ("tcp://" +:+ loopback port) = true) as Hraw.
  { rewrite string_forall_app. eapply string_forall_impl in Hc; [rewrite Hc; done|]. intros c Hcc. by apply host_char_facts. }
  destruct (url_chars_split _ Hraw) as (Hctl & Hhash & _). unfold Parse. rewrite Hhash. cbn [default]. unfold parse. rewrite Hctl. cbn [negb].
  rewrite (bool_decide_eq_false_2 ("tcp://" +:+ loopback port = "*")) by done.
  change (getScheme ("tcp://" +:+ loopback port)) with (Some ("tcp", "//" +:+ loopback port)). cbn [mbind option_bind].
  assert (Cut question ("//" +:+ loopback port) = None) as Hq.
  { apply url_chars_split. rewrite string_forall_app in Hraw |- *. by apply andb_true_iff in Hraw as [_ ->]. }
  unfold split_query. rewrite Hq. cbn [default]. change (ToLower_ascii "tcp") with NetworkTCP. unfold parse_rest.
  change (HasPrefix ("//" +:+ loopback port) "/") with true. change (HasPrefix ("//" +:+ loopback port) "//") with true.
  change (string_drop 2 ("//" +:+ loopback port)) with (loopback port). cbn [negb andb].
  rewrite (bool_decide_eq_false_2 (NetworkTCP = "")) by done. cbn [negb orb andb].
  rewrite Cut_None by (apply host_chars_not; [intros c Hcc; by apply host_char_facts|done]).
  assert (parseAuthority bracketed (loopback port) = Some (false, loopback port)) as ->; [|done].
  unfold parseAuthority. rewrite CutLast_None by (apply host_chars_not; [intros c Hcc; by apply host_char_facts|done]).
  unfold parseHost. rewrite (host_chars_not (chr 91)) by (try done; intros c Hcc; by apply host_char_facts). cbn [negb].
  rewrite loopback_cut by done. unfold validOptionalPort. rewrite FormatUint_digits by done. rewrite bool_decide_eq_true_2 by done. cbn [andb].
  by rewrite unescape_host_chars.
Qed.

(** An endpoint of this machine: a socket at a clean absolute path, or a port of
    the loopback address. *)
Definition local_endpoint (e : Endpoint) : Prop :=
  (ep_Network e = NetworkUnix ∧ rooted (ep_Address e) = true ∧ Clean (ep_Address e) = ep_Address e) ∨
  (ep_Network e = NetworkTCP ∧ ∃ port, 0 ≤ port < 65536 ∧ ep_Address e = loopback port).

Lemma ParseEndpoint_local value e : ParseEndpoint bracketed parse_detail value = inl e → local_endpoint e.
Proof.
  unfold ParseEndpoint. destruct (Parse bracketed value) as [u|]; [|done].
  destruct (bool_decide (u_Scheme u = NetworkUnix)).
  { match goal with |- context [if ?b then _ else _] => destruct b eqn:Hb end; [done|]. intros [= <-]. left. simpl.
    apply orb_false_iff in Hb as [_ Hb%negb_false_iff]. unfold IsAbs in Hb. rewrite rooted_Clean, Clean_idempotent. done. }
  destruct (bool_decide (u_Scheme u = NetworkNamedPipe)); [done|].
  destruct (bool_decide (u_Scheme u = NetworkTCP)); [|done].
  match goal with |- context [if ?b then _ else _] => destruct b end; [done|].
  destruct (SplitHostPort (u_Host u)) as [[host portValue]|]; [|done].
  destruct (decide (host = "127.0.0.1")) as [->|Hne]; [|by rewrite (bool_decide_eq_false_2 (host = "127.0.0.1"))].
  rewrite bool_decide_eq_true_2 by done. cbn [negb].
  destruct (ParseUint16 portValue) as [port|] eqn:Hport; [|done]. intros [= <-]. right. split; [done|].
  exists port. split; [by eapply ParseUint16_bound|done].
Qed.

Lemma local_endpoint_parses e : local_endpoint e → ParseEndpoint bracketed parse_detail (endpoint_string e) = inl e.
Proof.
  destruct e as [network address]. intros [(Hn & Hr & Hclean)|(Hn & port & Hport & Ha)]; simpl in *; subst.
  - apply rooted_split in Hr as [q ->]. unfold endpoint_string, url_string. simpl ep_Network. simpl ep_Address.
    rewrite (bool_decide_eq_true_2 (NetworkUnix = NetworkUnix)) by done. cbn [escape_host].
    rewrite (bool_decide_eq_false_2 (String slash q = "")), (bool_decide_eq_false_2 (String slash q = "*")) by done.
    change (HasPrefix (String slash q) "/") with true. cbn [negb andb]. rewrite andb_false_r.
    unfold ParseEndpoint. match goal with |- context [Parse bracketed ?uri] =>
      replace (Parse bracketed uri) with (Some (mkURL NetworkUnix "" false "" (String slash q) "" ""))
        by (symmetry; by apply (Parse_local bracketed NetworkUnix q)) end.
    simpl. by rewrite Hclean.
  - assert (endpoint_string (mkEndpoint NetworkTCP (loopback port)) = "tcp://" +:+ loopback port) as ->.
    { unfold endpoint_string. cbn [ep_Network ep_Address].
      change (bool_decide (NetworkTCP = NetworkUnix)) with false. change (bool_decide (NetworkTCP = NetworkNamedPipe)) with false.
      change (bool_decide (NetworkTCP = NetworkTCP)) with true. cbv iota. unfold url_string.
      rewrite (escape_host_chars (loopback port)) by (apply loopback_chars; lia).
      change (bool_decide (loopback port = "")) with false. change (bool_decide ("" = "*")) with false.
      change (bool_decide ("" = "")) with true. cbn [negb andb escape]. by rewrite !append_nil_r. }
    unfold ParseEndpoint. rewrite Parse_loopback by lia. simpl. rewrite SplitHostPort_loopback by lia.
    simpl. by rewrite ParseUint_Format.
Qed.

(** C38. An endpoint that parses stays on this machine: it is a Unix socket at a
    clean absolute path or a port of 127.0.0.1, whatever URL the user wrote,
    and its printed form parses to the same endpoint.  So an endpoint survives
    the client, which keeps only the printed form. *)
Theorem endpoint_round_trip (value : string) (e : Endpoint) :
  ParseEndpoint bracketed parse_detail value = inl e →
  local_endpoint e ∧ ParseEndpoint bracketed parse_detail (endpoint_string e) = inl e.
Proof. intros H%ParseEndpoint_local. split; [done|]. by apply local_endpoint_parses. Qed.

End canonical.

Lemma endpoint_round_trip_witness :
  ParseEndpoint (λ _, None) id "TCP://127.0.0.1:0080" = inl (mkEndpoint "tcp" "127.0.0.1:80") ∧
  ParseEndpoint (λ _, None) id (endpoint_string (mkEndpoint "tcp" "127.0.0.1:80")) = inl (mkEndpoint "tcp" "127.0.0.1:80").
Proof.
  split; [vm_compute; reflexivity|].
  apply (endpoint_round_trip (λ _, None) id "TCP://127.0.0.1:0080" (mkEndpoint "tcp" "127.0.0.1:80")). vm_compute. reflexivity.
Defined.

(** ** Listening *)

(** A TCP listener is bound to the loopback address, at a port the system chose,
    or it is closed again. *)
Theorem listen_loopback (e : Endpoint) (listen : bound_address + error) (res : Endpoint + error) (closed : bool) :
  listenTCP e listen = (res, closed) →
  match res with
  | inl bound => closed = false ∧ ∃ port, listen = inl (Some ((127, 0, 0, 1), port)) ∧ port ≠ 0 ∧ bound = mkEndpoint NetworkTCP (loopback port)
  | inr _ => ∀ address, listen = inl address → validateTCPEndpoint e true = None → closed = true
  end.
Proof.
  unfold listenTCP. destruct (validateTCPEndpoint e true) as [err|]; [by intros [= <- <-]|].
  destruct listen as [[[ip port]|]|err]; [|by intros [= <- <-]|by intros [= <- <-]].
  destruct (negb (bool_decide (ip = (127, 0, 0, 1))) || (port =? 0)) eqn:Hb; intros [= <- <-]; [done|].
  apply orb_false_iff in Hb as [Hip%negb_false_iff%bool_decide_eq_true Hport%Z.eqb_neq]. subst ip. split; [done|]. by exists port.
Qed.

(** The socket file of an endpoint is removed only when it is a socket that nobody
    answers at, or when it was just made by this listener. *)
Theorem listen_keeps_live_sockets (a : socketAnswers) (e : Endpoint) (path : string) :
  FRemove path ∈ (listenLocal a e).2 →
  path = ep_Address e ∧
  ((so_lstat a = inl true ∧ so_refused a = true ∧ so_dial a ≠ None) ∨ (so_listen a = None ∧ so_chmod a ≠ None)).
Proof.
  unfold listenLocal. case_match; [by intros ?%not_elem_of_nil|]. destruct (so_mkdir a); [by intros [[=]|?%not_elem_of_nil]%elem_of_cons|].
  assert (FRemove path ∈ (ensureSocketPathAvailable a (ep_Address e)).2 →
    path = ep_Address e ∧ so_lstat a = inl true ∧ so_refused a = true ∧ so_dial a ≠ None) as Hremove.
  { unfold ensureSocketPathAvailable. destruct (so_lstat a) as [[]|err]; [|by intros ?%not_elem_of_nil|case_match; by intros ?%not_elem_of_nil].
    destruct (so_dial a) as [err|]; [|by intros ?%not_elem_of_nil]. destruct (so_refused a); [|by intros ?%not_elem_of_nil].
    simpl. destruct (so_remove a) as [err'|]; [case_match|]; (intros Hin%list_elem_of_singleton; by injection Hin as ->). }
  destruct (ensureSocketPathAvailable a (ep_Address e)) as [unavailable calls]. simpl in Hremove.
  destruct unavailable; simpl; [|destruct (so_listen a) as [[? ?]|] eqn:Hl; simpl; [|destruct (so_chmod a) eqn:Hch; simpl]].
  - intros [[=]|Hin]%elem_of_cons. naive_solver.
  - intros [[=]|Hin]%elem_of_cons. naive_solver.
  - intros [[=]|[Hin|Hin]%elem_of_app]%elem_of_cons; [naive_solver|]. split; [set_solver|]. right. done.
  - intros [[=]|[Hin|Hin]%elem_of_app]%elem_of_cons; [naive_solver|]. set_solver.
Qed.
