(* ===== verification/LspHandlers.v ===== *)
(** * The handlers of the language server

    [internal/lsp/language_conversion.go], [language_handlers.go],
    [language_rendering.go], [formatting_options.go], [initialization.go], the
    notifications of [lifecycle.go] and the set-up of [server.go]: how values of the
    language service become values of the protocol, which roots an initialization
    opens, and how the documents of an editor reach the overlays of the service.
    The context of a request is given by its error; the analysis of a document is
    what the cache of [Language] answers. *)

From S2P Require Import Prelude Paths Source Errors Uri Url Diagnostics Language SemanticTokens Symbols Catalog Completion Features.
Local Open Scope Z_scope.

(** ** Values of the protocol *)

Record PPosition := mkPPosition { pp_Line : Z; pp_Character : Z }.
Record PRange := mkPRange { pr_Start : PPosition; pr_End : PPosition }.
Record PLocation := mkPLocation { pl_URI : string; pl_Range : PRange }.

Record PRelated := mkPRelated { pd_Location : PLocation; pd_RelatedMessage : string }.

Record PDiagnostic := mkPDiagnostic {
  pd_Range : PRange;
  pd_Severity : Z;
  pd_Message : string;
  pd_Source : option string;
  pd_Code : option string;
  pd_RelatedInformation : list PRelated
}.

Inductive PSymbolKind := PSymbolKindNamespace | PSymbolKindFunction | PSymbolKindVariable.

Inductive PDocumentSymbol :=
  mkPDocumentSymbol (Name : string) (Kind : PSymbolKind) (Range SelectionRange : PRange) (Children : list PDocumentSymbol).

Inductive PCompletionKind :=
| PCompletionVariable
| PCompletionFunction
| PCompletionModule
| PCompletionKeyword
| PCompletionValue
| PCompletionOperator.

(** The documentation of an item is markdown. *)
Record PCompletionItem := mkPItem {
  pi_Label : string;
  pi_Kind : PCompletionKind;
  pi_Detail : string;
  pi_InsertText : string;
  pi_Documentation : option string;
  pi_Tags : list string;
  pi_Deprecated : bool
}.

Record PHover := mkPHover { ph_Contents : string; ph_Range : PRange }.

Record PParameter := mkPParameter { pa_Label : string; pa_Documentation : option string }.

Record PSignature := mkPSignature {
  ps_Label : string;
  ps_Documentation : option string;
  ps_Parameters : list PParameter
}.

Record PSignatureHelp := mkPHelp {
  psh_Signatures : list PSignature;
  psh_ActiveSignature : Z;
  psh_ActiveParameter : Z
}.

Record PTextEdit := mkPEdit { pe_Range : PRange; pe_NewText : list Z }.

Record PublishDiagnosticsParams := mkPublish {
  pb_URI : string;
  pb_Version : option Z;
  pb_Diagnostics : list PDiagnostic
}.

(** ** Conversions *)

Definition toSourcePosition (value : PPosition) : Position := mkPosition (pp_Line value) (pp_Character value).

Definition toProtocolRange (value : Range) : PRange :=
  mkPRange (mkPPosition (Line (Start value)) (Character (Start value))) (mkPPosition (Line (End value)) (Character (End value))).

(** A location of the service: a URI and a range. *)
Definition toProtocolLocation (uri : string) (value : Range) : PLocation := mkPLocation uri (toProtocolRange value).

Definition non_empty (s : string) : option string := if bool_decide (s = "") then None else Some s.

Definition DiagnosticSeverityError : Z := 1.

Definition toProtocolDiagnostic (d : Diagnostic) : PDiagnostic :=
  mkPDiagnostic (toProtocolRange (d_Range d)) DiagnosticSeverityError (d_Message d) (non_empty (d_Source d)) (non_empty (d_Code d))
    (map (λ r, mkPRelated (mkPLocation (ri_URI r) (toProtocolRange (ri_Range r))) (ri_Message r)) (d_RelatedInformation d)).

Definition toProtocolSymbolKind (kind : SymbolKind) : PSymbolKind :=
  match kind with
  | SymbolKindUDF => PSymbolKindFunction
  | SymbolKindNamespaceAlias => PSymbolKindNamespace
  | _ => PSymbolKindVariable
  end.

Fixpoint toProtocolDocumentSymbol (value : DocumentSymbol) : PDocumentSymbol :=
  match value with
  | mkDocumentSymbol v children =>
      mkPDocumentSymbol (sv_Name v) (toProtocolSymbolKind (sv_Kind v)) (toProtocolRange (sv_Range v))
        (toProtocolRange (sv_SelectionRange v)) (map toProtocolDocumentSymbol children)
  end.

Definition toProtocolCompletionItem (value : CompletionItem) : PCompletionItem :=
  let kind := match ci_Kind value with
    | CompletionKindFunction => PCompletionFunction
    | CompletionKindParameter => PCompletionVariable
    | CompletionKindNamespace => PCompletionModule
    | CompletionKindKeyword => PCompletionKeyword
    | CompletionKindLiteral => PCompletionValue
    | CompletionKindOperator => PCompletionOperator
    | CompletionKindVariable => PCompletionVariable
    end in
  mkPItem (ci_Label value) kind (ci_Detail value) (ci_InsertText value) (non_empty (ci_Documentation value))
    (if ci_Deprecated value then ["deprecated"] else []) (ci_Deprecated value).

(** ** Rendering *)

(** [symbolKindName] of [language_rendering.go]. *)
Definition hoverKindName (kind : SymbolKind) : string :=
  match kind with
  | SymbolKindFunctionParameter => "parameter"
  | SymbolKindNamespaceAlias => "namespace"
  | SymbolKindLoopBinding => "loop binding"
  | SymbolKindMatchBinding => "match binding"
  | SymbolKindCollectBinding => "collect binding"
  | _ => "binding"
  end.

Definition valueTypeName (value : ValueType) : string :=
  match value with
  | ValueTypeAny => "any"
  | ValueTypeNone => "none"
  | ValueTypeInteger => "integer"
  | ValueTypeFloat => "float"
  | ValueTypeDuration => "duration"
  | ValueTypeBoolean => "boolean"
  | ValueTypeString => "string"
  | ValueTypeArray => "array"
  | ValueTypeObject => "object"
  | ValueTypeList => "list"
  | ValueTypeMap => "map"
  | ValueTypeUnknown | ValueTypeOther => "unknown"
  end.

(** [zeroKind] is the zero value of [compiler.SymbolKind], the kind of a hover
    without a symbol. *)
Definition renderHoverMarkdown (zeroKind : SymbolKind) (value : Hover) : string :=
  let kind := default zeroKind (hv_SymbolKind value) in
  let bound := bool_decide (kind = SymbolKindBindParameter) in
  let declaration := match hv_Signature value with
    | Some signature => "FUNC " +:+ sg_Label signature
    | None => if bound then "@" +:+ hv_Name value else hoverKindName kind +:+ " " +:+ hv_Name value
    end in
  String.concat Catalog.blank (
    (if bool_decide (hv_Name value = "") then []
     else ("```fql" +:+ Catalog.newline +:+ declaration +:+ Catalog.newline +:+ "```") :: (if bound then ["bind parameter"] else [])) ++
    match hv_RegisteredSignatures value with [] => [] | signatures => [RenderSignaturesMarkdown signatures] end ++
    match hv_Type value with Some type => ["Type: `" +:+ valueTypeName type +:+ "`"] | None => [] end).

(** The loops of [signatureHelp] over the overloads and their parameters. *)
Definition signature_information (signature : Signature) : PSignature :=
  mkPSignature (sg_Label signature) (non_empty (RenderSignatureDocumentation signature))
    (map (λ p, mkPParameter (sp_Label p) (non_empty (sp_Description p))) (sg_Parameters signature)).

(** ** Formatting options *)

(** A [float64]: a finite one is a fraction. *)
Inductive float64 := FNaN | FInfinity (negative : bool) | FFinite (numerator : Z) (denominator : positive).

(** A value of the options, as the decoder types it. *)
Inductive optionValue := OInteger (n : Z) | OFloat (x : float64) | OInt (n : Z) | OOther.

Definition maxUint32 : Z := 2 ^ 32 - 1.

Definition formattingTabSize (tabSize : option optionValue) : Z :=
  match tabSize with
  | None => DefaultTabSize
  | Some (OInteger n) => if 0 <? n then u32 n else DefaultTabSize
  | Some (OFloat (FFinite numerator denominator)) =>
      if (0 <? numerator) && (numerator <=? maxUint32 * Zpos denominator) then u32 (numerator / Zpos denominator) else DefaultTabSize
  | Some (OFloat _) => DefaultTabSize
  | Some (OInt n) => if (0 <? n) && (u64 n <=? maxUint32) then u32 n else DefaultTabSize
  | Some OOther => DefaultTabSize
  end.

(** ** Requests *)

(** What [analyzedDocument] answers: the text and the analysis, as the features
    read it. *)
Record analyzedDocument := mkAnalyzed {
  ad_text : list Z;
  ad_queries : queries;
  ad_analysis : Analysis
}.

Section requests.
(** The language service, with the compiler's names and the order of a map. *)
Context (document : string → analyzedDocument + error).
Context (isLetter isDigit : Z → bool) (ToLower : string → string).
Context (NamespaceSeparator : string) (NormalizeRegisteredName : string → string) (InvalidSymbolID : Z) (zeroKind : SymbolKind).
Context (catalog : FunctionCatalog) (e : environment) (order : gmap string CompletionItem → list CompletionItem).

(** A request on the document of a URI: its error, or a value of the document. *)
Definition on_document {X} (uri : string) (f : analyzedDocument → outcome X) : outcome (X + error) :=
  match document uri with
  | inr err => Ret (inr err)
  | inl d => x ← f d; Ret (inl x)
  end.

(** The answer of a handler to the result of the service. *)
Definition answer_with {X Y} (f : X → Y) (r : X + error) : Y + error := match r with inl x => inl (f x) | inr err => inr err end.

Definition documentSymbols (uri : string) : outcome (option (list PDocumentSymbol) + error) :=
  r ← on_document uri (λ d, DocumentSymbols (NewMapper (ad_text d)) (qu_Symbols (ad_queries d)));
  Ret (answer_with (fmap (M:=option) (map toProtocolDocumentSymbol)) r).

Definition hover (uri : string) (position : PPosition) : outcome (option PHover + error) :=
  r ← on_document uri (λ d, hover_at NormalizeRegisteredName (NewMapper (ad_text d)) (ad_queries d) catalog (toSourcePosition position));
  Ret (answer_with (fmap (M:=option) (λ value, mkPHover (renderHoverMarkdown zeroKind value) (toProtocolRange (hv_Range value)))) r).

Definition definition (uri : string) (position : PPosition) : outcome (option PLocation + error) :=
  r ← on_document uri (λ d, Definition_ (NewMapper (ad_text d)) (ad_queries d) (toSourcePosition position));
  Ret (answer_with (fmap (M:=option) (toProtocolLocation uri)) r).

Definition references (uri : string) (position : PPosition) (includeDeclaration : bool) : outcome (list PLocation + error) :=
  r ← on_document uri (λ d, References (NewMapper (ad_text d)) (ad_queries d) (toSourcePosition position) includeDeclaration);
  Ret (answer_with (map (toProtocolLocation uri)) r).

Definition completion (uri : string) (position : PPosition) : outcome (list PCompletionItem + error) :=
  r ← on_document uri (λ d, Completion isLetter isDigit ToLower NamespaceSeparator NormalizeRegisteredName order e
    (ad_text d) (ad_queries d) (toSourcePosition position));
  Ret (answer_with (map toProtocolCompletionItem) r).

Definition signatureHelp (uri : string) (position : PPosition) : outcome (option PSignatureHelp + error) :=
  r ← on_document uri (λ d, signature_help NormalizeRegisteredName InvalidSymbolID (NewMapper (ad_text d)) (ad_queries d) catalog
    (toSourcePosition position));
  Ret (answer_with (fmap (M:=option) (λ value,
    mkPHelp (map signature_information (sh_Signatures value)) (sh_ActiveSignature value) (sh_ActiveParameter value))) r).

Definition semanticTokensFull (uri : string) : outcome (list Z + error) :=
  r ← on_document uri (λ d, SemanticTokens (bytes_of_string NamespaceSeparator) (ad_analysis d) (ad_text d));
  Ret (answer_with encodeSemanticTokens r).

(** [formatting] resolves a snapshot and needs no analysis. *)
Definition formatting (canceled : option error) (snapshot : string → sum (list Z) error) (new : formatter) (uri : string)
    (tabSize : option optionValue) : outcome (list PTextEdit + formatFailure) :=
  r ← Format canceled (snapshot uri) new (formattingTabSize tabSize);
  Ret (match r with
       | inr err => inr err
       | inl None => inl []
       | inl (Some value) => inl [mkPEdit (toProtocolRange (fr_Range value)) (fr_Text value)]
       end).

End requests.

(** ** Initialization *)

Record InitializeParams := mkInitialize {
  ip_WorkspaceFolders : list string;
  ip_RootURI : option string;
  ip_RootPath : option string
}.

Record ServerCapabilities := mkCapabilities {
  sc_OpenClose : bool;
  sc_FullSync : bool;
  sc_DocumentSymbolProvider : bool;
  sc_HoverProvider : bool;
  sc_DefinitionProvider : bool;
  sc_ReferencesProvider : bool;
  sc_DocumentFormattingProvider : bool;
  sc_CompletionTriggers : list string;
  sc_SignatureTriggers : list string;
  sc_SemanticTokens : SemanticTokensLegend * bool;
  sc_WorkspaceFolders : bool
}.

Definition serverName : string := "ferretd".

Section initialize.
(** [parseHost] on brackets, the text of a URI's error, the working directory and
    [Service.OpenWorkspace]. *)
Context (bracketed : string → option string) (uri_error : uriError → error) (Getwd : string + error).
Context (OpenWorkspace : string → option error).

Definition URI_Path (uri : string) : string + error :=
  match Path bracketed uri with inl path => inl path | inr err => inr (uri_error err) end.

Fixpoint folder_paths (folders : list string) : list string + error :=
  match folders with
  | [] => inl []
  | folder :: folders =>
      match URI_Path folder with
      | inr err => inr err
      | inl path => match folder_paths folders with inr err => inr err | inl paths => inl (path :: paths) end
      end
  end.

Definition root_values (params : InitializeParams) : list string + error :=
  match ip_WorkspaceFolders params with
  | [] =>
      match ip_RootURI params ≫= non_empty with
      | Some uri => match URI_Path uri with inr err => inr err | inl path => inl [path] end
      | None => inl (match ip_RootPath params ≫= non_empty with Some path => [path] | None => [] end)
      end
  | folders => folder_paths folders
  end.

(** The loop over the values, with the roots seen and the result so far. *)
Fixpoint roots_loop (values : list string) (seen : gset string) (result : list string) : list string + error :=
  match values with
  | [] => inl result
  | value :: values =>
      match Abs Getwd value with
      | inr err => inr err
      | inl absolute =>
          let root := Clean absolute in
          if decide (root ∈ seen) then roots_loop values seen result
          else roots_loop values ({[root]} ∪ seen) (result ++ [root])
      end
  end.

Definition initializationRoots (params : option InitializeParams) : list string + error :=
  match params with
  | None => inl []
  | Some params =>
      match root_values params with
      | inr err => inr err
      | inl values => roots_loop values ∅ []
      end
  end.

(** The loop of [initialize]: the roots it asked for and its error. *)
Fixpoint open_roots (roots : list string) : list string * option error :=
  match roots with
  | [] => ([], None)
  | root :: roots =>
      match OpenWorkspace root with
      | Some err => ([root], Some err)
      | None => let '(opened, err) := open_roots roots in (root :: opened, err)
      end
  end.

Definition capabilities : ServerCapabilities :=
  mkCapabilities true true true true true true true ["@"; ":"] ["("; ","] (semanticTokenLegend, true) true.

(** [initialize], with the workspaces it asked for. *)
Definition initialize (params : option InitializeParams) : list string * ((ServerCapabilities * string) + error) :=
  match initializationRoots params with
  | inr err => ([], inr err)
  | inl roots =>
      match open_roots roots with
      | (asked, Some err) => (asked, inr err)
      | (asked, None) => (asked, inl (capabilities, serverName))
      end
  end.

End initialize.

(** ** Documents *)

(** A change of [didChange], as the decoder types it, a value or a pointer to one. *)
Inductive contentChange :=
| ChangeWhole (text : string)
| ChangeEvent (range : option PRange) (text : string)
| ChangeOther.

Inductive notification :=
| DidOpen (uri : string) (version : Z) (text : string)
| DidChange (uri : string) (version : Z) (changes : list contentChange)
| DidClose (uri : string).

Definition errIncrementalTextChanges : error := ENew "incremental text document changes are not supported".
Definition errUnsupportedDocumentChange : error := ENew "unsupported text document change".

(** The loop of [didChange]. *)
Fixpoint text_changes (changes : list contentChange) : list string + error :=
  match changes with
  | [] => inl []
  | change :: changes =>
      match change with
      | ChangeWhole text | ChangeEvent None text =>
          match text_changes changes with inr err => inr err | inl texts => inl (text :: texts) end
      | ChangeEvent (Some _) _ => inr errIncrementalTextChanges
      | ChangeOther => inr errUnsupportedDocumentChange
      end
  end.

Section documents.
Context {A : Type} (URI_Path : string → string + error) (analyze : string → string → option A * option error)
  (Content : string → Z → string) (Quote : string → string) (reported : A → list (option FerretDiagnostic)).

(** [publishDiagnosticsAsync] starts a request that publishes. *)
Definition publishDiagnosticsAsync (uri : string) (s : service) (w : Language.world (A:=A)) : Language.world (A:=A) :=
  spawn [QResolve true uri] s w.

Definition didOpen (ctxErr : option error) (uri : string) (version : Z) (text : string) (w : Language.world (A:=A)) :
    option error * Language.world (A:=A) :=
  match OpenDocument URI_Path ctxErr uri version text (wd_service w) with
  | (Some err, _) => (Some err, w)
  | (None, s) => (None, publishDiagnosticsAsync uri s w)
  end.

Definition didChange (ctxErr : option error) (uri : string) (version : Z) (changes : list contentChange) (w : Language.world (A:=A)) :
    option error * Language.world (A:=A) :=
  match text_changes changes with
  | inr err => (Some err, w)
  | inl texts =>
      match ChangeDocument ctxErr uri version texts (wd_service w) with
      | (Some err, _) => (Some err, w)
      | (None, s) => (None, publishDiagnosticsAsync uri s w)
      end
  end.

(** [didClose], with the diagnostics it clears. *)
Definition didClose (ctxErr : option error) (uri : string) (w : Language.world (A:=A)) :
    option error * list PublishDiagnosticsParams * Language.world (A:=A) :=
  match CloseDocument ctxErr uri (wd_service w) with
  | (Some err, _) => (Some err, [], w)
  | (None, s) => (None, [mkPublish uri None []], Language.mkWorld s (wd_threads w) (wd_sent w))
  end.

(** [Service.Diagnostics] of an analyzed snapshot. *)
Definition report_items (uri : string) (snapshot : documentSnapshot) (analysis : A) : outcome (list Diagnostic) :=
  mapM_outcome (Convert uri (NewMapper (bytes_of_string (sn_text snapshot)))) (reported analysis).

(** What is sent for a report. *)
Definition publish_params (sent : string * documentSnapshot * A) : outcome PublishDiagnosticsParams :=
  let '(uri, snapshot, analysis) := sent in
  items ← report_items uri snapshot analysis;
  let version := match sn_version snapshot with
    | Some version => if 0 <=? version then Some (u32 version) else None
    | None => None
    end in
  Ret (mkPublish uri version (map toProtocolDiagnostic items)).

(** The notifications of the client, in the order of the request loop, between the
    steps of the requests. *)
Inductive event :=
| ENotify (ctxErr : option error) (n : notification)
| EWorkspace (workspaces : gmap string (string * Z))
| ERequest (uri : string)
| EStep (i : nat) (a : Language.answer).

Definition notify (ctxErr : option error) (n : notification) (w : Language.world (A:=A)) :
    option error * list PublishDiagnosticsParams * Language.world (A:=A) :=
  match n with
  | DidOpen uri version text => let '(err, w) := didOpen ctxErr uri version text w in (err, [], w)
  | DidChange uri version changes => let '(err, w) := didChange ctxErr uri version changes w in (err, [], w)
  | DidClose uri => didClose ctxErr uri w
  end.

(** One event, and whether a notification was accepted. *)
Definition event_step (ev : event) (w : Language.world (A:=A)) : outcome (list notification * Language.world (A:=A)) :=
  match ev with
  | ENotify ctxErr n => let '(err, _, w) := notify ctxErr n w in Ret (match err with None => [n] | Some _ => [] end, w)
  | EWorkspace workspaces => w ← attempt URI_Path analyze Content Quote (AWorkspace workspaces) w; Ret ([], w)
  | ERequest uri => w ← attempt URI_Path analyze Content Quote (ARequest false uri) w; Ret ([], w)
  | EStep i a => w ← attempt URI_Path analyze Content Quote (AStep i a) w; Ret ([], w)
  end.

Fixpoint events (evs : list event) (w : Language.world (A:=A)) : outcome (list notification * Language.world (A:=A)) :=
  match evs with
  | [] => Ret ([], w)
  | ev :: evs => '(accepted, w) ← event_step ev w; '(rest, w) ← events evs w; Ret (accepted ++ rest, w)
  end.

(** *** The documents of the editor *)

Definition about (n : notification) : string :=
  match n with DidOpen uri _ _ | DidChange uri _ _ | DidClose uri => uri end.

(** The text of the document after a notification that was accepted. *)
Definition leaves (n : notification) : option (Z * string) :=
  match n with
  | DidOpen _ version text => Some (version, text)
  | DidChange _ version changes =>
      match text_changes changes with inl texts => (λ text, (version, text)) <$> last texts | inr _ => None end
  | DidClose _ => None
  end.

(** The document of a URI: what the last accepted notification about it left. *)
Definition buffer_after (accepted : list notification) (uri : string) : option (Z * string) :=
  last (filter (λ n, about n = uri) accepted) ≫= leaves.

(** A notification that is in order: the URI names a file; a change replaces the
    whole text of an open document under a later version. *)
Definition admissible (buffers : string → option (Z * string)) (n : notification) : Prop :=
  match n with
  | DidOpen uri _ _ => ∃ path, URI_Path uri = inl path
  | DidChange uri version changes =>
      (∃ texts, text_changes changes = inl texts ∧ texts ≠ []) ∧ ∃ current text, buffers uri = Some (current, text) ∧ current < version
  | DidClose _ => True
  end.

Definition buffers_of (s : service (A:=A)) (uri : string) : option (Z * string) :=
  (λ o, (ov_Version o, ov_Text o)) <$> sv_overlays s !! uri.

Lemma buffer_after_app accepted n uri :
  buffer_after (accepted ++ [n]) uri = if decide (about n = uri) then leaves n else buffer_after accepted uri.
Proof.
  unfold buffer_after. rewrite filter_app, filter_cons, filter_nil. destruct (decide (about n = uri)); [by rewrite last_snoc|].
  by rewrite app_nil_r.
Qed.

Lemma step_overlays i t a (w w' : Language.world (A:=A)) :
  step_thread URI_Path analyze Content Quote i t a w = Ret w' → sv_overlays (wd_service w') = sv_overlays (wd_service w).
Proof.
  destruct t; simpl; try done; intros E; try by simplify_eq.
  - unfold admit_snapshot, load, mbind, outcome_bind in E. repeat case_match; simplify_eq; done.
  - unfold load, mbind, outcome_bind in E. repeat case_match; simplify_eq; done.
  - unfold store_analysis, load, mbind, outcome_bind in E. repeat case_match; simplify_eq; done.
  - unfold finish_analysis, load, mbind, outcome_bind in E. repeat case_match; simplify_eq; done.
Qed.

(** What a notification does to the documents, on every branch. *)
Lemma notify_spec ctxErr n (w : Language.world (A:=A)) :
  match notify ctxErr n w with
  | (None, _, w') =>
      ctxErr = None ∧ admissible (buffers_of (wd_service w)) n ∧
      ∀ uri, buffers_of (wd_service w') uri = if decide (about n = uri) then leaves n else buffers_of (wd_service w) uri
  | (Some _, sent, w') =>
      w' = w ∧ sent = [] ∧ (ctxErr = None → ¬ admissible (buffers_of (wd_service w)) n)
  end.
Proof.
  unfold buffers_of. destruct n as [uri version text|uri version changes|uri]; simpl.
  - unfold didOpen, OpenDocument. destruct ctxErr; simpl; [done|]. destruct (URI_Path uri) as [path|err] eqn:Hp; simpl.
    + split_and!; [done|by exists path|]. intros u. destruct (decide (uri = u)) as [->|]; [by rewrite lookup_insert_eq|by rewrite lookup_insert_ne].
    + split_and!; [done..|]. intros _ [path [=]].
  - unfold didChange. destruct (text_changes changes) as [texts|err]; simpl; [|split_and!; [done..|]; by intros _ [(? & [=] & _) _]].
    unfold ChangeDocument. destruct ctxErr; simpl; [done|]. destruct (last texts) as [text|] eqn:Hl; simpl.
    2: { split_and!; [done..|]. intros _ [(? & [= <-] & Hne) _]. by apply last_None in Hl. }
    destruct (sv_overlays (wd_service w) !! uri) as [o|] eqn:Ho; simpl; [|split_and!; [done..|]; by intros _ [_ (? & ? & [=] & _)]].
    destruct (version <=? ov_Version o) eqn:Hv; simpl.
    + split_and!; [done..|]. apply Z.leb_le in Hv. intros _ [_ (? & ? & [= <- <-] & ?)]. lia.
    + apply Z.leb_gt in Hv. split; [done|]. split.
      * split; [exists texts; split; [done|]; by intros ->|]. by eexists _, _.
      * intros u. destruct (decide (uri = u)) as [->|]; [by rewrite lookup_insert_eq|by rewrite lookup_insert_ne].
  - unfold didClose, CloseDocument. destruct ctxErr; simpl; [done|]. split_and!; [done..|].
    intros u. destruct (decide (uri = u)) as [->|]; [by rewrite lookup_delete_eq|by rewrite lookup_delete_ne].
Qed.

Local Abbreviation lang_inv := (Language.inv URI_Path analyze Content Quote).

Lemma attempt_keeps H a (w : Language.world (A:=A)) :
  lang_inv H w → sv_generation (wd_service w) + 1 < 2 ^ 64 →
  ∃ w' H', attempt URI_Path analyze Content Quote a w = Ret w' ∧ lang_inv H' w' ∧
    sv_generation (wd_service w') ≤ sv_generation (wd_service w) + 1.
Proof.
  intros I Hb. pose proof (lang_act_keeps URI_Path analyze Content Quote H w a I Hb) as K. unfold attempt.
  destruct (act _ _ _ _ a w) as [w'| |]; [|done|].
  - destruct K as [[H' I'] G]. by exists w', H'.
  - exists w, H. split_and!; [done..|lia].
Qed.

(** A notification is an edit, and a request to publish. *)
Lemma notify_keeps H ctxErr n (w : Language.world (A:=A)) :
  lang_inv H w → sv_generation (wd_service w) + 2 < 2 ^ 64 →
  ∃ H', lang_inv H' (notify ctxErr n w).2 ∧
    sv_generation (wd_service (notify ctxErr n w).2) ≤ sv_generation (wd_service w) + 1.
Proof.
  intros I Hb.
  assert (∀ uri s, (∃ H', lang_inv H' (Language.mkWorld s (wd_threads w) (wd_sent w))) →
    ∃ H', lang_inv H' (publishDiagnosticsAsync uri s w)) as Hpublish.
  { intros uri s [H' I']. exists H'. by apply (inv_request _ _ _ _ _ _ true uri) in I'. }
  destruct n as [uri version text|uri version changes|uri]; simpl.
  - pose proof (lang_act_keeps URI_Path analyze Content Quote H w (AOpen ctxErr uri version text) I ltac:(lia)) as [K G]. simpl in K, G.
    unfold didOpen. destruct (OpenDocument _ _ _ _ _ _) as [[err|] s]; simpl in *; [by eexists; split; [|lia]|].
    destruct (Hpublish uri s K) as [H' I']. by exists H'.
  - unfold didChange. destruct (text_changes changes) as [texts|err]; simpl; [|by eexists; split; [|lia]].
    pose proof (lang_act_keeps URI_Path analyze Content Quote H w (AChange ctxErr uri version texts) I ltac:(lia)) as [K G]. simpl in K, G.
    destruct (ChangeDocument _ _ _ _ _) as [[err|] s]; simpl in *; [by eexists; split; [|lia]|].
    destruct (Hpublish uri s K) as [H' I']. by exists H'.
  - pose proof (lang_act_keeps URI_Path analyze Content Quote H w (AClose ctxErr uri) I ltac:(lia)) as [[H' I'] G]. simpl in G.
    simpl in I'. unfold didClose. destruct (CloseDocument _ _ _) as [[err|] s]; simpl in *; [by eexists; split; [|lia]|by exists H'].
Qed.

Lemma attempt_buffers a (w w' : Language.world (A:=A)) :
  match a with AWorkspace _ | ARequest _ _ | AStep _ _ => True | _ => False end →
  attempt URI_Path analyze Content Quote a w = Ret w' → buffers_of (wd_service w') = buffers_of (wd_service w).
Proof.
  intros Ha. unfold attempt. destruct a as [| | |workspaces|publish uri|i b]; try done; cbn [act].
  - by intros [= <-].
  - by intros [= <-].
  - destruct (wd_threads w !! i) as [t|]; [|by intros [= <-]].
    destruct (step_thread _ _ _ _ i t b w) as [w1| |] eqn:E; intros [= <-]; [|done]. unfold buffers_of. by rewrite (step_overlays _ _ _ _ _ E).
Qed.

Lemma event_keeps H ev (w : Language.world (A:=A)) :
  lang_inv H w → sv_generation (wd_service w) + 2 < 2 ^ 64 →
  ∃ ns w' H', event_step ev w = Ret (ns, w') ∧ lang_inv H' w' ∧
    sv_generation (wd_service w') ≤ sv_generation (wd_service w) + 1 ∧
    ∀ prefix, (∀ uri, buffers_of (wd_service w) uri = buffer_after prefix uri) →
      ∀ uri, buffers_of (wd_service w') uri = buffer_after (prefix ++ ns) uri.
Proof.
  intros I Hb.
  assert (∀ a, match a with AWorkspace _ | ARequest _ _ | AStep _ _ => True | _ => False end →
    ∃ ns w' H', (w ← attempt URI_Path analyze Content Quote a w; Ret ([], w)) = Ret (ns, w') ∧ lang_inv H' w' ∧
      sv_generation (wd_service w') ≤ sv_generation (wd_service w) + 1 ∧
      ∀ prefix, (∀ uri, buffers_of (wd_service w) uri = buffer_after prefix uri) →
        ∀ uri, buffers_of (wd_service w') uri = buffer_after (prefix ++ ns) uri) as Hbackground.
  { intros a Ha. destruct (attempt_keeps H a w I ltac:(lia)) as (w' & H' & E & I' & G). exists [], w', H'. rewrite E. split_and!; [done..|].
    intros prefix Hp uri. by rewrite app_nil_r, (attempt_buffers _ _ _ Ha E). }
  destruct ev as [ctxErr n|workspaces|uri|i a]; [|by apply (Hbackground (AWorkspace _))|by apply (Hbackground (ARequest _ _))|by apply (Hbackground (AStep _ _))].
  destruct (notify_keeps H ctxErr n w I Hb) as (H' & I' & G). pose proof (notify_spec ctxErr n w) as S. simpl.
  destruct (notify ctxErr n w) as [[[err|] sent] w']; simpl in *; eexists _, w', H'; (split_and!; [done..|]); intros prefix Hp uri.
  - destruct S as (-> & _). by rewrite app_nil_r.
  - destruct S as (_ & _ & ->). rewrite buffer_after_app, Hp. done.
Qed.

Lemma events_keep evs H (w : Language.world (A:=A)) prefix :
  lang_inv H w → sv_generation (wd_service w) + Z.of_nat (length evs) + 1 < 2 ^ 64 →
  (∀ uri, buffers_of (wd_service w) uri = buffer_after prefix uri) →
  ∃ ns w' H', events evs w = Ret (ns, w') ∧ lang_inv H' w' ∧
    ∀ uri, buffers_of (wd_service w') uri = buffer_after (prefix ++ ns) uri.
Proof.
  revert H w prefix. induction evs as [|ev evs IH]; intros H w prefix I Hb Hp; cbn [events length] in *.
  - exists [], w, H. by rewrite app_nil_r.
  - destruct (event_keeps H ev w I ltac:(lia)) as (ns & w1 & H1 & -> & I1 & G & K).
    destruct (IH H1 w1 (prefix ++ ns) I1 ltac:(lia) (K _ Hp)) as (rest & w2 & H2 & E & I2 & K2).
    exists (ns ++ rest), w2, H2. cbn [mbind outcome_bind]. rewrite E. split_and!; [done..|]. by rewrite (assoc_L (++)).
Qed.

(** C23. Documents reach the service as the editor has them: whatever analyses and
    workspace changes run between the notifications, nothing panics, and the
    documents of the service are those of the accepted notifications: what the last
    one about a URI left, an open with its text, a change with its last text, a
    close with none.  A request on an open document sees that text and version.  A
    notification is accepted exactly if it is in order: a change must replace the
    whole text of an open document under a later version; one that is refused
    changes nothing and sends nothing. *)
Theorem document_sync (evs : list event) : Z.of_nat (length evs) + 1 < 2 ^ 64 →
  ∃ accepted w, events evs initial = Ret (accepted, w) ∧
    (∀ uri, buffers_of (wd_service w) uri = buffer_after accepted uri) ∧
    (∀ uri version text, buffer_after accepted uri = Some (version, text) →
      ∃ snapshot, resolveSnapshot URI_Path Content None uri (wd_service w) = inl snapshot ∧
        sn_text snapshot = text ∧ sn_version snapshot = Some version) ∧
    ∀ n, ((notify None n w).1.1 = None ↔ admissible (buffer_after accepted) n) ∧
      ∀ ctxErr, (notify ctxErr n w).1.1 ≠ None → (notify ctxErr n w).2 = w ∧ (notify ctxErr n w).1.2 = [].
Proof.
  intros Hb. destruct (events_keep evs _ initial [] (lang_inv_initial _ _ _ _)) as (accepted & w & H & E & I & K); [simpl; lia|done|].
  simpl in K. exists accepted, w. split_and!; [done..| |].
  - intros uri version text Hbuffer. rewrite <-K in Hbuffer. unfold buffers_of in Hbuffer. apply fmap_Some in Hbuffer as (o & Ho & [= -> ->]).
    destruct (iv_overlays _ _ _ _ _ _ I _ _ Ho) as (_ & Hpath & _). unfold resolveSnapshot, resolve_overlay. rewrite Hpath, Ho. by eexists.
  - intros n. split.
    + pose proof (notify_spec None n w) as S.
      assert (admissible (buffers_of (wd_service w)) n ↔ admissible (buffer_after accepted) n) as Hadm by (destruct n; simpl; by rewrite ?K).
      destruct (notify None n w) as [[[err|] sent] w']; simpl in *; [|tauto]. destruct S as (_ & _ & S). split; [done|]. intros Ha. by apply Hadm, S in Ha.
    + intros ctxErr. pose proof (notify_spec ctxErr n w) as S. destruct (notify ctxErr n w) as [[[err|] sent] w']; simpl in *; [tauto|done].
Qed.

End documents.

Lemma document_sync_witness : ∃ accepted w,
  events plain_path echo stored id
    [ENotify None (DidOpen "a" 1 "RETURN 1"); ERequest "a"; EStep 0 Proceed; ENotify None (DidChange "a" 1 [ChangeWhole "RETURN 2"]);
     ENotify None (DidChange "a" 2 [ChangeWhole "RETURN"; ChangeEvent None "RETURN 3"])] initial = Ret (accepted, w) ∧
  ∀ uri, buffers_of (wd_service w) uri = buffer_after accepted uri.
Proof.
  destruct (document_sync plain_path echo stored id
    [ENotify None (DidOpen "a" 1 "RETURN 1"); ERequest "a"; EStep 0 Proceed; ENotify None (DidChange "a" 1 [ChangeWhole "RETURN 2"]);
     ENotify None (DidChange "a" 2 [ChangeWhole "RETURN"; ChangeEvent None "RETURN 3"])]) as (accepted & w & E & K & _); [simpl; lia|].
  exists accepted, w. split; [exact E|exact K].
Defined.

(** ** The roots of an initialization *)

(** The values without those that were seen before. *)
Definition first_occurrences (l : list string) : list string := reverse (remove_dups (reverse l)).

Lemma first_occurrences_snoc l x :
  first_occurrences (l ++ [x]) = if decide (x ∈ l) then first_occurrences l else first_occurrences l ++ [x].
Proof.
  unfold first_occurrences. rewrite reverse_snoc. simpl.
  destruct (decide_rel elem_of x (reverse l)) as [Hx|Hx]; rewrite elem_of_reverse in Hx;
    [rewrite decide_True by done|rewrite decide_False, reverse_cons by done]; done.
Qed.

(** The root a value stands for: the cleaned path, below the working directory where
    the value is relative. *)
Definition root_of (Getwd : string + error) (value : string) : string :=
  Clean (if rooted value then value else (match Getwd with inl wd => wd | inr _ => "" end) +:+ "/" +:+ value).

(** The working directory is known where it is needed. *)
Definition resolvable (Getwd : string + error) (value : string) : Prop :=
  rooted value = true ∨ ∃ wd, Getwd = inl wd ∧ rooted wd = true.

Lemma Abs_root Getwd value : value ≠ "" → resolvable Getwd value → ∃ absolute, Abs Getwd value = inl absolute ∧ Clean absolute = root_of Getwd value.
Proof.
  intros Hv Hr. unfold Abs, IsAbs, root_of. destruct (rooted value) eqn:Hroot; [eexists; split; [done|]; apply Clean_idempotent|].
  destruct Hr as [?|(wd & -> & Hwd)]; [congruence|]. eexists. split; [done|]. unfold Join.
  assert (wd ≠ "") as Hne by (intros ->; by vm_compute in Hwd). rewrite !filter_cons_True, filter_nil by done. apply Clean_idempotent.
Qed.

Lemma roots_loop_spec Getwd values seen before : Forall (λ v, v ≠ "" ∧ resolvable Getwd v) values → (∀ r, r ∈ seen ↔ r ∈ before) →
  roots_loop Getwd values seen (first_occurrences before) = inl (first_occurrences (before ++ map (root_of Getwd) values)).
Proof.
  intros Hroot. revert seen before. induction Hroot as [|v values [Hv Hr] _ IH]; intros seen before Hseen; simpl; [by rewrite app_nil_r|].
  destruct (Abs_root Getwd v Hv Hr) as (absolute & -> & ->). set (root := root_of Getwd v).
  replace (before ++ root :: map (root_of Getwd) values) with ((before ++ [root]) ++ map (root_of Getwd) values) by (by rewrite <-(assoc_L (++))).
  pose proof (first_occurrences_snoc before root) as Hsnoc. destruct (decide (root ∈ seen)) as [Hin|Hin].
  - rewrite decide_True in Hsnoc by (by apply Hseen). rewrite <-Hsnoc. apply IH. intros r. rewrite elem_of_app, list_elem_of_singleton, Hseen.
    apply Hseen in Hin. naive_solver.
  - rewrite decide_False in Hsnoc by (by rewrite <-Hseen). rewrite <-Hsnoc. apply IH. intros r. set_solver.
Qed.

(** A relative value without a working directory. *)
Lemma roots_loop_unknown err values : Exists (λ v, rooted v = false) values → ∀ seen result, roots_loop (inr err) values seen result = inr err.
Proof.
  induction 1 as [v values Hv|v values _ IH]; intros seen result; simpl; unfold Abs, IsAbs; [by rewrite Hv|].
  destruct (rooted v); [|done]. case_decide; apply IH.
Qed.

(** Where the roots come from: the folders, without any the root URI, and without
    that the root path. *)
Definition named (value : option string) (text : string) : Prop := value = Some text ∧ text ≠ "".

Definition root_sources (bracketed : string → option string) (params : InitializeParams) (values : list string) : Prop :=
  (ip_WorkspaceFolders params ≠ [] ∧ Forall2 (λ uri value, Path bracketed uri = inl value) (ip_WorkspaceFolders params) values) ∨
  (ip_WorkspaceFolders params = [] ∧ ∃ uri value, named (ip_RootURI params) uri ∧ Path bracketed uri = inl value ∧ values = [value]) ∨
  (ip_WorkspaceFolders params = [] ∧ (∀ uri, ¬ named (ip_RootURI params) uri) ∧ ∃ path, named (ip_RootPath params) path ∧ values = [path]) ∨
  (ip_WorkspaceFolders params = [] ∧ (∀ uri, ¬ named (ip_RootURI params) uri) ∧ (∀ path, ¬ named (ip_RootPath params) path) ∧ values = []).

Lemma Path_nonempty bracketed uri value : Path bracketed uri = inl value → value ≠ "".
Proof. unfold Path. intros H. repeat case_match; simplify_eq. by bools. Qed.

Lemma folder_paths_values bracketed uri_error folders values :
  Forall2 (λ uri value, Path bracketed uri = inl value) folders values → folder_paths bracketed uri_error folders = inl values.
Proof. induction 1 as [|uri value folders values Hp _ IH]; [done|]. simpl. unfold URI_Path. by rewrite Hp, IH. Qed.

Lemma folder_paths_error bracketed uri_error before uri after err : Forall (λ u, ∃ path, Path bracketed u = inl path) before →
  Path bracketed uri = inr err → folder_paths bracketed uri_error (before ++ uri :: after) = inr (uri_error err).
Proof.
  induction 1 as [|u before [path Hu] _ IH]; intros He; simpl; unfold URI_Path; [by rewrite He|]. by rewrite Hu, IH.
Qed.

Lemma non_empty_named value : match value ≫= non_empty with Some text => named value text | None => ∀ text, ¬ named value text end.
Proof.
  unfold named, non_empty. destruct value as [text|]; simpl; [|by intros ? [? _]]. case_bool_decide as Ht; [|done]. by intros text' [[= <-] ?].
Qed.

Lemma root_values_sources bracketed uri_error params values : root_sources bracketed params values →
  root_values bracketed uri_error params = inl values ∧ Forall (λ v, v ≠ "") values.
Proof.
  pose proof (non_empty_named (ip_RootURI params)) as Hu. pose proof (non_empty_named (ip_RootPath params)) as Hp. unfold root_values.
  intros [[Hne Hf]|[(-> & uri & value & Hn & Hv & ->)|[(-> & Hno & path & Hn & ->)|(-> & Hno & Hno' & ->)]]].
  - split; [|by eapply Forall2_Forall_r; [exact Hf|]; apply Forall_true; intros u v; apply Path_nonempty].
    rewrite <-(folder_paths_values bracketed uri_error _ _ Hf). by destruct (ip_WorkspaceFolders params).
  - destruct (ip_RootURI params ≫= non_empty) as [uri'|]; [|by destruct (Hu uri)].
    destruct Hu as [Hu _], Hn as [Hn _]. rewrite Hn in Hu. injection Hu as <-. unfold URI_Path. rewrite Hv. split; [done|].
    apply Forall_singleton. by eapply Path_nonempty.
  - destruct (ip_RootURI params ≫= non_empty) as [uri'|]; [by destruct (Hno uri')|].
    destruct (ip_RootPath params ≫= non_empty) as [path'|]; [|by destruct (Hp path)].
    destruct Hp as [Hp _], Hn as [Hn ?]. rewrite Hn in Hp. injection Hp as <-. split; [done|]. by apply Forall_singleton.
  - destruct (ip_RootURI params ≫= non_empty) as [uri'|]; [by destruct (Hno uri')|].
    by destruct (ip_RootPath params ≫= non_empty) as [path'|]; [destruct (Hno' path')|].
Qed.

Lemma open_roots_spec OpenWorkspace roots :
  match open_roots OpenWorkspace roots with
  | (asked, None) => asked = roots ∧ Forall (λ r, OpenWorkspace r = None) roots
  | (asked, Some err) =>
      ∃ opened root rest, roots = opened ++ root :: rest ∧ asked = opened ++ [root] ∧
        Forall (λ r, OpenWorkspace r = None) opened ∧ OpenWorkspace root = Some err
  end.
Proof.
  induction roots as [|root roots IH]; simpl; [done|]. destruct (OpenWorkspace root) as [err|] eqn:Ho.
  - by exists [], root, roots.
  - destruct (open_roots OpenWorkspace roots) as [asked [err|]].
    + destruct IH as (opened & r & rest & -> & -> & ? & ?). exists (root :: opened), r, rest. split_and!; [done..|by constructor|done].
    + destruct IH as [-> ?]. split; [done|by constructor].
Qed.

(** C39. An initialization opens the roots of the editor.  The roots are the paths of
    the workspace folders' URIs, or of the root URI where there are no folders, or the
    root path where there is no root URI either.  [initialize] asks for their cleaned
    absolute paths, however they are spelled ([file:///x/../a] is [/a]) and below the
    working directory where the path is relative, each once and in the order of their
    first mention, and answers with the capabilities; it stops at the first one that
    does not open and answers with its error.  When the URI of a folder is no file URI,
    or a path is relative and the working directory is unknown, it asks for none and
    answers with that error. *)
Theorem initialize_opens_folders (bracketed : string → option string) (uri_error : uriError → error) (Getwd : string + error)
    (OpenWorkspace : string → option error) (params : InitializeParams) :
  (∀ values, root_sources bracketed params values → Forall (resolvable Getwd) values →
    let roots := first_occurrences (map (root_of Getwd) values) in
    match initialize bracketed uri_error Getwd OpenWorkspace (Some params) with
    | (asked, inl answer) => asked = roots ∧ Forall (λ r, OpenWorkspace r = None) roots ∧ answer = (capabilities, "ferretd")
    | (asked, inr err) =>
        ∃ opened root rest, roots = opened ++ root :: rest ∧ asked = opened ++ [root] ∧
          Forall (λ r, OpenWorkspace r = None) opened ∧ OpenWorkspace root = Some err
    end) ∧
  (∀ before uri after err, ip_WorkspaceFolders params = before ++ uri :: after → Forall (λ u, ∃ path, Path bracketed u = inl path) before →
    Path bracketed uri = inr err → initialize bracketed uri_error Getwd OpenWorkspace (Some params) = ([], inr (uri_error err))) ∧
  (∀ values err, root_sources bracketed params values → Exists (λ v, rooted v = false) values → Getwd = inr err →
    initialize bracketed uri_error Getwd OpenWorkspace (Some params) = ([], inr err)).
Proof.
  unfold initialize, initializationRoots. split_and!.
  - intros values Hs Hr. cbv zeta. destruct (root_values_sources bracketed uri_error params values Hs) as [-> Hne].
    pose proof (roots_loop_spec Getwd values ∅ [] ltac:(by apply Forall_and) ltac:(set_solver)) as Hloop.
    change (first_occurrences []) with (@nil string) in Hloop. rewrite Hloop. clear Hloop.
    pose proof (open_roots_spec OpenWorkspace (first_occurrences (map (root_of Getwd) values))) as Ho. simpl.
    destruct (open_roots OpenWorkspace _) as [asked [err|]]; [done|]. naive_solver.
  - intros before uri after err Hf Hb He. pose proof (folder_paths_error bracketed uri_error before uri after err Hb He) as Hp.
    unfold root_values. rewrite Hf. destruct before; simpl in *; by rewrite Hp.
  - intros values err Hs Hx ->. destruct (root_values_sources bracketed uri_error params values Hs) as [-> _]. by rewrite roots_loop_unknown.
Qed.

Lemma initialize_opens_folders_witness :
  initialize (λ _, None) (λ _, ENew "uri") (inl "/") (λ r, if bool_decide (r = "/b c") then Some (ENew "load") else None)
    (Some (mkInitialize ["file:///x/../a"; "file:///a/"; "file:///b%20c"; "file:///d"] None None)) = (["/a"; "/b c"], inr (ENew "load")) ∧
  ∃ opened root rest, first_occurrences ["/a"; "/a"; "/b c"; "/d"] = opened ++ root :: rest ∧ ["/a"; "/b c"] = opened ++ [root] ∧
    Forall (λ r, (if bool_decide (r = "/b c") then Some (ENew "load") else None) = None) opened ∧
    (if bool_decide (root = "/b c") then Some (ENew "load") else None) = Some (ENew "load").
Proof.
  split; [vm_compute; reflexivity|].
  pose proof (initialize_opens_folders (λ _, None) (λ _, ENew "uri") (inl "/") (λ r, if bool_decide (r = "/b c") then Some (ENew "load") else None)
    (mkInitialize ["file:///x/../a"; "file:///a/"; "file:///b%20c"; "file:///d"] None None)) as [H _].
  apply (H ["/x/../a"; "/a/"; "/b c"; "/d"]).
  - left. split; [discriminate|]. repeat constructor.
  - repeat (apply Forall_cons_2; [by left|]). apply Forall_nil_2.
Defined.

Example relative_root :
  initialize (λ _, None) (λ _, ENew "uri") (inl "/home/u") (λ _, None) (Some (mkInitialize [] (Some "") (Some "../v/."))) =
  (["/home/v"], inl (capabilities, "ferretd")).
Proof. vm_compute. reflexivity. Qed.

(** ** The width of a tab *)

(** The only width a formatter is made for is the width the client asked for if that is
    a positive number of the protocol, and the default otherwise; it is never zero. *)
Theorem formatting_width (tabSize : option optionValue) :
  0 ≤ formattingTabSize tabSize < 2 ^ 32 ∧
  (∀ n, 0 < n < 2 ^ 31 → formattingTabSize (Some (OInteger n)) = n) ∧
  (∀ n, 0 < n < 2 ^ 32 → formattingTabSize (Some (OInt n)) = n ∧ formattingTabSize (Some (OFloat (FFinite n 1))) = n) ∧
  ∃ width, 0 < width < 2 ^ 32 ∧ ∀ canceled snapshot uri new new', new width = new' width →
    formatting canceled snapshot new uri tabSize = formatting canceled snapshot new' uri tabSize.
Proof.
  assert (0 ≤ formattingTabSize tabSize < 2 ^ 32) as Hb.
  { unfold formattingTabSize, DefaultTabSize, u32. repeat case_match; try lia; apply Z.mod_pos_bound; lia. }
  split_and!; [lia|lia| | |].
  - intros n Hn. simpl. rewrite (proj2 (Z.ltb_lt 0 n)) by lia. unfold u32. apply Z.mod_small. lia.
  - intros n Hn. simpl. unfold maxUint32, u64, u32. rewrite (proj2 (Z.ltb_lt 0 n)) by lia. rewrite !Z.mul_1_r, Z.div_1_r.
    rewrite (Z.mod_small n (2 ^ 64)), (proj2 (Z.leb_le n _)), (Z.mod_small n (2 ^ 32)) by lia. done.
  - exists (if formattingTabSize tabSize =? 0 then DefaultTabSize else formattingTabSize tabSize).
    split; [unfold DefaultTabSize; destruct (Z.eqb_spec (formattingTabSize tabSize) 0); lia|].
    intros canceled snapshot uri new new' Hnew. unfold formatting, Format. by rewrite Hnew.
Qed.

(** ** The handlers of the server *)

Definition errNilLanguageService : error := ENew "lsp: nil language service".

(** The fields of [protocol.Handler] that [New] sets, as the methods they serve. *)
Definition installed : list string :=
  ["initialize"; "initialized"; "shutdown"; "exit"; "textDocument/didOpen"; "textDocument/didChange"; "textDocument/didClose";
   "textDocument/documentSymbol"; "textDocument/hover"; "textDocument/definition"; "textDocument/references"; "textDocument/completion";
   "textDocument/signatureHelp"; "textDocument/semanticTokens/full"; "textDocument/formatting"].

Definition newServer {S} (service : option S) : (S * list string) + error :=
  match service with None => inr errNilLanguageService | Some service => inl (service, installed) end.

(** The methods a client may call because of what the server advertised. *)
Definition advertised (c : ServerCapabilities) : list string :=
  (if sc_OpenClose c then ["textDocument/didOpen"; "textDocument/didClose"] else []) ++
  (if sc_FullSync c then ["textDocument/didChange"] else []) ++
  (if sc_DocumentSymbolProvider c then ["textDocument/documentSymbol"] else []) ++
  (if sc_HoverProvider c then ["textDocument/hover"] else []) ++
  (if sc_DefinitionProvider c then ["textDocument/definition"] else []) ++
  (if sc_ReferencesProvider c then ["textDocument/references"] else []) ++
  (if sc_DocumentFormattingProvider c then ["textDocument/formatting"] else []) ++
  ["textDocument/completion"; "textDocument/signatureHelp"] ++
  (if (sc_SemanticTokens c).2 then ["textDocument/semanticTokens/full"] else []).

(** Every method that is advertised has a handler, and every handler of a document
    method is advertised. *)
Lemma capabilities_installed method :
  method ∈ installed ↔ method ∈ ["initialize"; "initialized"; "shutdown"; "exit"] ++ advertised capabilities.
Proof. unfold installed, advertised. simpl. set_solver. Qed.
