(* ===== verification/ManagerOps.v ===== *)
(** * The requests on executions and debug sessions

    [internal/exec/manager.go] and [internal/debug/manager.go], the requests that
    find an object by its identifier and act on it, with the debug commands of
    [internal/debug/session_commands.go] and the reads of
    [session_inspection.go].  The registries are those of [ExecManager] and
    [DebugManager]; the objects are those of [Execution] and [DebugSession].
    [ctxErrs] are the readings of [ctx.Err()] in their order. *)

From S2P Require Import Prelude Paths Errors Parameters Lifecycle Watchers ExecRuntime Execution DebugSession ExecSession ExecRegistry ExecManager DebugManager.
Local Open Scope Z_scope.

(** ** Routing *)

(** A request looks an object up and steps it; the objects are found by pointer. *)
Section route.
Context {Obj Resp : Type}.

Definition route (found : nat + error) (step : Obj → outcome ((Resp + error) * Obj)) (heap : gmap nat Obj) :
    outcome ((Resp + error) * gmap nat Obj) :=
  match found with
  | inr err => Ret (inr err, heap)
  | inl x =>
      match heap !! x with
      | None => Panic "nil pointer dereference"
      | Some o => '(response, o) ← step o; Ret (response, <[x := o]> heap)
      end
  end.

(** A request is where it goes and what it does there. *)
Definition request : Type := (nat + error) * (Obj → outcome ((Resp + error) * Obj)).

Fixpoint serve_all (requests : list request) (heap : gmap nat Obj) : outcome (list (Resp + error) * gmap nat Obj) :=
  match requests with
  | [] => Ret ([], heap)
  | (found, step) :: requests =>
      '(response, heap) ← route found step heap;
      '(responses, heap) ← serve_all requests heap;
      Ret (response :: responses, heap)
  end.

Definition reaches (x : nat) (found : nat + error) : bool := match found with inl y => bool_decide (y = x) | inr _ => false end.

(** The requests that reach one object, run on it alone. *)
Fixpoint serve_one (x : nat) (requests : list request) (o : Obj) : outcome (list (Resp + error) * Obj) :=
  match requests with
  | [] => Ret ([], o)
  | (found, step) :: requests =>
      if reaches x found then
        '(response, o) ← step o;
        '(responses, o) ← serve_one x requests o;
        Ret (response :: responses, o)
      else serve_one x requests o
  end.

(** The responses of the requests that reach an object. *)
Definition responses_of (x : nat) (requests : list request) (responses : list (Resp + error)) : list (Resp + error) :=
  map snd (filter (λ p : request * (Resp + error), reaches x p.1.1 = true) (zip requests responses)).
End route.

(** ** Executions *)

Section executions.
Context {plan sess : Type} (order : gset Z → list Z).

Inductive executionResponse :=
| XSnapshot (snapshot : Execution.ExecutionSnapshot) (spawned : bool)
| XSubscription (current : option Execution.Event) (watcher : option Z).

(** [ctxErr] is read by [Manager.execution]. *)
Definition RunExecution (ctxErr ctxErr1 ctxErr2 : option error) (id : string) (r : executionRegistry) (heap : gmap nat (Execution.execution plan sess)) :
    outcome ((executionResponse + error) * gmap nat (Execution.execution plan sess)) :=
  route (manager_execution ctxErr id r)
    (λ e, '(result, spawned, e) ← Execution.start order ctxErr1 ctxErr2 e;
          Ret (match result with inl snapshot => inl (XSnapshot snapshot spawned) | inr err => inr err end, e)) heap.

Definition GetExecution (ctxErr : option error) (id : string) (r : executionRegistry) (heap : gmap nat (Execution.execution plan sess)) :
    outcome ((executionResponse + error) * gmap nat (Execution.execution plan sess)) :=
  route (manager_execution ctxErr id r) (λ e, Ret (inl (XSnapshot (Execution.snapshotLocked e) false), e)) heap.

Definition CancelExecution (ctxErr : option error) (id : string) (r : executionRegistry) (heap : gmap nat (Execution.execution plan sess)) :
    outcome ((executionResponse + error) * gmap nat (Execution.execution plan sess)) :=
  route (manager_execution ctxErr id r)
    (λ e, '(snapshot, e) ← Execution.execution_cancel order e; Ret (inl (XSnapshot snapshot false), e)) heap.

Definition WatchExecution (ctxErr : option error) (id : string) (r : executionRegistry) (heap : gmap nat (Execution.execution plan sess)) :
    outcome ((executionResponse + error) * gmap nat (Execution.execution plan sess)) :=
  route (manager_execution ctxErr id r)
    (λ e, let '(current, watcher, e) := Execution.subscribe e in Ret (inl (XSubscription current watcher), e)) heap.

End executions.

(** [Manager.GetSession]. *)
Definition GetSession {G : Type} `{GateSpec G} (ctxErr : option error) (id : string) (r : registry (G := G)) (heap : gmap nat (ExecSession.session G)) :
    outcome (ExecSession.SessionSnapshot + error) :=
  match ctxErr with
  | Some err => Ret (inr err)
  | None =>
      match active id r with
      | None => Ret (inr (ESentinel ExecErrSessionNotFound))
      | Some e => match heap !! e with Some s => Ret (inl (ExecSession.snapshot s)) | None => Panic "nil pointer dereference" end
      end
  end.

(** [New] and [RegisterSessionCloseHook]: a nil argument is [None]. *)
Definition New {W T : Type} (workspaces : option W) (runtime : option T) : (W * T) + error :=
  match workspaces, runtime with
  | None, _ => inr (ESentinel ExecErrNilWorkspaceManager)
  | _, None => inr (ESentinel ExecErrNilRuntime)
  | Some workspaces, Some runtime => inl (workspaces, runtime)
  end.

Definition RegisterSessionCloseHook {hook : Type} (h : option hook) (hooks : list hook) : list hook :=
  match h with None => hooks | Some h => hooks ++ [h] end.

(** ** Debug sessions *)

(** The call of the runtime's debugger that a command starts. *)
Inductive debuggerCall := CallStart | CallContinue | CallStepIn | CallStepOver | CallStepOut.

Inductive debugResponse (V : Type) :=
| DSnapshot (snapshot : DebugSession.SessionSnapshot) (spawned : option (debuggerCall * bool))
| DTermination (snapshot : DebugSession.SessionSnapshot) (spawned : bool)
| DSubscription (current : option DebugSession.Event) (watcher : option Z)
| DValue (value : V).
Arguments DSnapshot {V}.
Arguments DTermination {V}.
Arguments DSubscription {V}.
Arguments DValue {V}.

Section debug.
Context {plan sess V : Type} (order : gset Z → list Z).
Local Abbreviation dbg := (DebugSession.session plan sess).
Local Abbreviation replied := (outcome ((debugResponse V + error) * gmap nat dbg)).

(** A command with the call it starts. *)
Definition command_step (call : debuggerCall) (expected : DebugSession.State) (ctxErr1 ctxErr2 : option error) (d : dbg) :
    outcome ((debugResponse V + error) * dbg) :=
  let runtimeErrorResume := match call with CallStart => false | _ => DebugSession.resumeCommand d end in
  '(result, spawned, d) ← DebugSession.startCommand order ctxErr1 ctxErr2 expected d;
  Ret (match result with
       | inl snapshot => inl (DSnapshot snapshot (if spawned : bool then Some (call, runtimeErrorResume) else None))
       | inr err => inr err
       end, d).

Definition session_start := command_step CallStart DebugSession.StateCreated.
Definition continueExecution := command_step CallContinue DebugSession.StateStopped.
Definition stepIn := command_step CallStepIn DebugSession.StateStopped.
Definition stepOver := command_step CallStepOver DebugSession.StateStopped.
Definition stepOut := command_step CallStepOut DebugSession.StateStopped.

Section requests.
Context {G : Type} `{GateSpec G}.
Context (ctxErr ctxErr1 ctxErr2 : option error) (id : string) (m : manager (G := G)) (heap : gmap nat dbg).

Definition StartSession : replied := route (lookup_session ctxErr id m) (session_start ctxErr1 ctxErr2) heap.
Definition ContinueSession : replied := route (lookup_session ctxErr id m) (continueExecution ctxErr1 ctxErr2) heap.
Definition StepInSession : replied := route (lookup_session ctxErr id m) (stepIn ctxErr1 ctxErr2) heap.
Definition StepOverSession : replied := route (lookup_session ctxErr id m) (stepOver ctxErr1 ctxErr2) heap.
Definition StepOutSession : replied := route (lookup_session ctxErr id m) (stepOut ctxErr1 ctxErr2) heap.

Definition debug_GetSession : replied :=
  route (lookup_session ctxErr id m) (λ d, Ret (inl (DSnapshot (DebugSession.snapshotLocked d) None), d)) heap.

(** [PauseSession]; the debugger answers without the lock, and the state is what
    it is then, [later]. *)
Definition PauseSession (pauseErr : option error) (later : dbg → dbg) : replied :=
  route (lookup_session ctxErr id m)
    (λ d, Ret (match DebugSession.pause ctxErr1 d pauseErr (later d) with inl snapshot => inl (DSnapshot snapshot None) | inr err => inr err end, d)) heap.

Definition TerminateSession : replied :=
  route (lookup_session ctxErr id m)
    (λ d, let '(result, spawned, d) := DebugSession.terminateExecution ctxErr1 d in
          Ret (match result with inl snapshot => inl (DTermination snapshot spawned) | inr err => inr err end, d)) heap.

Definition WatchSession : replied :=
  route (lookup_session ctxErr id m)
    (λ d, let '(current, watcher, d) := DebugSession.subscribe d in Ret (inl (DSubscription current watcher), d)) heap.

Definition read_step (read : dbg → V + error) (d : dbg) : outcome ((debugResponse V + error) * dbg) :=
  Ret (match read d with inl value => inl (DValue value) | inr err => inr err end, d).

(** The reads; [answer] is what the debugger says. *)
Definition ReplaceBreakpoints (answer : V + error) : replied :=
  route (lookup_session ctxErr id m) (read_step (DebugSession.replaceBreakpoints ctxErr1 answer)) heap.
Definition Frames (answer : V + error) : replied :=
  route (lookup_session ctxErr id m) (read_step (DebugSession.inspect ctxErr1 answer)) heap.
Definition Variables (answer : V + error) : replied :=
  route (lookup_session ctxErr id m) (read_step (DebugSession.inspect ctxErr1 answer)) heap.
Definition Evaluate (answer : V + error) : replied :=
  route (lookup_session ctxErr id m) (read_step (DebugSession.inspect ctxErr1 answer)) heap.
Definition Scopes (of_scopes : list DebugSession.Scope → V) (frameLocals : list DebugSession.Variable_ + error) : replied :=
  route (lookup_session ctxErr id m)
    (read_step (λ d, match DebugSession.scopes ctxErr1 frameLocals d with inl scopes => inl (of_scopes scopes) | inr err => inr err end)) heap.

End requests.
End debug.

(** ** Isolation *)

(** Requests on different objects do not meet: in any sequence of requests, the
    state an object ends in, and the answers of the requests that reached it, are
    those of its own requests alone; a request that reaches none changes
    nothing. *)
Theorem requests_isolated {Obj Resp : Type} (requests : list (request (Obj:=Obj) (Resp:=Resp))) (heap heap' : gmap nat Obj)
    (responses : list (Resp + error)) (x : nat) (o : Obj) :
  serve_all requests heap = Ret (responses, heap') → heap !! x = Some o →
  ∃ o', heap' !! x = Some o' ∧ serve_one x requests o = Ret (responses_of x requests responses, o') ∧
    ∀ i err step, requests !! i = Some (inr err, step) → responses !! i = Some (inr err).
Proof.
  revert heap responses o. induction requests as [|[found step] requests IH]; intros heap responses o; cbn [serve_all serve_one].
  { intros [= <- <-] Ho. exists o. split_and!; [done|done|]. intros i err step Hi. by rewrite lookup_nil in Hi. }
  destruct (route found step heap) as [[response heap1]| |] eqn:Hroute; [|done..]. cbn [mbind outcome_bind].
  destruct (serve_all requests heap1) as [[rest heap2]| |] eqn:Hrest; [|done..]. cbn [mbind outcome_bind]. intros [= <- <-] Ho.
  assert (∃ o1, heap1 !! x = Some o1 ∧ (if reaches x found then step o = Ret (response, o1) else o1 = o) ∧
    (∀ err, found = inr err → response = inr err)) as (o1 & Ho1 & Hstep & Herr).
  { unfold route in Hroute. destruct found as [y|err]; [|injection Hroute as <- <-; exists o; split_and!; [done..|congruence]].
    destruct (heap !! y) as [oy|] eqn:Hy; [|done]. destruct (step oy) as [[r oy']| |] eqn:Hs; [|done..]. injection Hroute as <- <-. simpl.
    destruct (decide (y = x)) as [->|Hne].
    - exists oy'. rewrite lookup_insert_eq, bool_decide_eq_true_2 by done. split_and!; [done|congruence|done].
    - exists o. rewrite lookup_insert_ne, bool_decide_eq_false_2 by done. done. }
  destruct (IH heap1 rest o1 Hrest Ho1) as (o' & Ho' & Hone & Hall). exists o'. split; [done|]. split.
  - unfold responses_of. cbn [zip zip_with map]. rewrite filter_cons. cbn [fst].
    destruct (reaches x found); [|by subst o1; rewrite decide_False].
    rewrite Hstep, decide_True by done. cbn [mbind outcome_bind]. by rewrite Hone.
  - intros [|i] err s; cbn; [intros [= -> _]; by rewrite (Herr err)|]. apply Hall.
Qed.

(** A request for an object that is not listed, or by a caller that has gone away,
    changes nothing. *)
Lemma route_refused {Obj Resp : Type} err (step : Obj → outcome ((Resp + error) * Obj)) heap : route (inr err) step heap = Ret (inr err, heap).
Proof. done. Qed.
