(* ===== verification/Connect.v ===== *)
(** * Starting a daemon and connecting to it

    [cmd/ferretd/serve.go], [root.go], [logging.go] and [lsp.go], and the client's
    [client.go], [options.go], [endpoint.go] and [authentication.go]: the options
    a daemon is started with, the endpoint and the token a client connects with,
    and that the two fit together.  The gRPC library, the environment and the
    answers of the daemon's stages are parameters. *)

From S2P Require Import Prelude Paths Errors Rpc Url Daemon Catalog Wire GrpcService GoClient Endpoint.
Local Open Scope Z_scope.

(** ** The serve command *)

Section serve.
Context (bracketed : string → option string) (parse_detail : string → string) (LookupEnv : string → option string).

Definition resolveBearerToken (endpoint : Endpoint) (environment : string) : string + error :=
  if negb (bool_decide (ep_Network endpoint = NetworkTCP)) then
    if negb (bool_decide (environment = "")) then inr (ENew "--auth-token-env is only supported with a TCP endpoint") else inl ""
  else if bool_decide (environment = "") then inr (ENew "TCP endpoint requires --auth-token-env")
  else if negb (bool_decide (TrimSpace environment = environment)) then
    inr (ENew "--auth-token-env must name an environment variable without surrounding whitespace")
  else
    match LookupEnv environment with
    | Some token =>
        if bool_decide (token = "") then inr (ENew ("TCP bearer token environment variable " +:+ environment +:+ " is missing or empty"))
        else inl token
    | None => inr (ENew ("TCP bearer token environment variable " +:+ environment +:+ " is missing or empty"))
    end.

(** The levels [newLogger] accepts. *)
Inductive level := DebugLevel | InfoLevel | WarnLevel | ErrorLevel.

Definition newLogger (value : string) : level + error :=
  if bool_decide (value = "debug") then inl DebugLevel
  else if bool_decide (value = "info") then inl InfoLevel
  else if bool_decide (value = "warn") then inl WarnLevel
  else if bool_decide (value = "error") then inl ErrorLevel
  else inr (ENew "log level must be debug, info, warn, or error").

(** [serve] up to [daemon.New]. *)
Definition serve_options (version endpointValue bearerTokenEnvironment logLevel : string) : Options + error :=
  match (if bool_decide (endpointValue = "") then inl (mkEndpoint "" "") else
           match ParseEndpoint bracketed parse_detail endpointValue with
           | inr err => inr (wrap_prefix "parse daemon endpoint" err)
           | inl endpoint => inl endpoint
           end) with
  | inr err => inr err
  | inl endpoint =>
      match resolveBearerToken endpoint bearerTokenEnvironment with
      | inr err => inr err
      | inl token => match newLogger logLevel with inr err => inr err | inl _ => inl (mkOptions version endpoint token) end
      end
  end.

(** The calls of [serve] on its daemon. *)
Inductive serveCall := CallNew (o : Options) | CallStart | CallStop.

(** [serve], with the answers of the daemon's [New], [Start] and [Stop]. *)
Definition serve (New : Options → option error) (Start Stop : option error) (version endpointValue bearerTokenEnvironment logLevel : string) :
    option error * list serveCall :=
  match serve_options version endpointValue bearerTokenEnvironment logLevel with
  | inr err => (Some err, [])
  | inl o =>
      match New o with
      | Some err => (Some (wrap_prefix "create daemon" err), [CallNew o])
      | None =>
          (match Start with
           | Some err => Some (wrap_prefix "start daemon" err)
           | None => match Stop with Some err => Some (wrap_prefix "stop daemon" err) | None => None end
           end, [CallNew o; CallStart; CallStop])
      end
  end.

End serve.

(** [execute] up to the command. *)
Definition execute (args : list string) : option error :=
  match args with
  | first :: _ :: _ =>
      if bool_decide (first = "--version") || bool_decide (first = "-v") then Some (ENew "--version does not accept arguments") else None
  | _ => None
  end.

(** [reportCatalogWarnings]: its error and the lines it wrote; [write] answers each
    of its writes. *)
Definition reference_warning : string :=
  "ferretd: warning: Standard Library API Reference functions are unavailable at runtime and were omitted: ".
Definition runtime_warning : string :=
  "ferretd: warning: Standard Library runtime functions lack API metadata and use fallback signatures: ".

Definition warned (kind : CatalogWarningKind) (warnings : list CatalogWarning) : list string :=
  omap (λ w, match cw_Kind w, kind with
             | CatalogWarningReferenceOnly, CatalogWarningReferenceOnly | CatalogWarningRuntimeOnly, CatalogWarningRuntimeOnly => Some (cw_Name w)
             | _, _ => None
             end) warnings.

Definition reportCatalogWarnings (write : string → option error) (warnings : list CatalogWarning) : option error * list string :=
  let line title names := title +:+ String.concat ", " names +:+ byte 10 in
  let runtime :=
    match warned CatalogWarningRuntimeOnly warnings with
    | [] => (None, [])
    | names =>
        match write (line runtime_warning names) with
        | Some err => (Some (wrap_prefix "report Standard Library runtime mismatch" err), [])
        | None => (None, [line runtime_warning names])
        end
    end in
  match warned CatalogWarningReferenceOnly warnings with
  | [] => runtime
  | names =>
      match write (line reference_warning names) with
      | Some err => (Some (wrap_prefix "report Standard Library API Reference mismatch" err), [])
      | None => (runtime.1, line reference_warning names :: runtime.2)
      end
  end.

(** [serveLSP] with the answers of its stages. *)
Definition serveLSP (NewDefaultFunctionCatalog : list CatalogWarning + error) (write : string → option error)
    (NewService NewServer Run : option error) : option error * list string :=
  match NewDefaultFunctionCatalog with
  | inr err => (Some (wrap_prefix "create default function catalog" err), [])
  | inl warnings =>
      match reportCatalogWarnings write warnings with
      | (Some err, written) => (Some err, written)
      | (None, written) =>
          (match NewService with
           | Some err => Some (wrap_prefix "create language service" err)
           | None =>
               match NewServer with
               | Some err => Some (wrap_prefix "create LSP server" err)
               | None => wrap_prefix "run LSP server" <$> Run
               end
           end, written)
      end
  end.

(** [serveDAP] after its logger. *)
Definition serveDAP (New Run : option error) : option error :=
  match New with Some err => Some (wrap_prefix "create DAP server" err) | None => wrap_prefix "run DAP server" <$> Run end.

(** ** The client *)

Section client.
Context `{G : Grpc} `{R : !StatusReader}.
Context (bracketed : string → option string) (parse_detail : string → string) (DefaultEndpoint : Endpoint + error).

(** An endpoint of the client is the printed form of one of the transport. *)
Definition fromTransportEndpoint (endpoint : Endpoint) : string := endpoint_string endpoint.

Definition Discover : string + cerror :=
  match DefaultEndpoint with
  | inr err => inr (CForeign (wrap_prefix "discover daemon endpoint" err))
  | inl endpoint => inl (fromTransportEndpoint endpoint)
  end.

Definition transportEndpoint (e : string) : Endpoint + cerror :=
  match ParseEndpoint bracketed parse_detail e with
  | inr err => inr (CWrap ErrInvalidEndpoint (error_text err))
  | inl endpoint => inl endpoint
  end.

Definition client_ParseEndpoint (value : string) : string + cerror :=
  match ParseEndpoint bracketed parse_detail value with
  | inr err => inr (CWrap ErrInvalidEndpoint (error_text err))
  | inl endpoint => inl (fromTransportEndpoint endpoint)
  end.

Record dialOptions := mkDialOptions {
  do_endpoint : option string;
  do_bearerToken : string
}.

(** The options a caller can build; [None] in a list is a nil one. *)
Inductive dialOption := WithEndpoint (endpoint : string) | WithBearerToken (token : string).

Definition apply_option (o : dialOption) (options : dialOptions) : dialOptions + cerror :=
  match o with
  | WithEndpoint endpoint =>
      if bool_decide (endpoint = "") then inr (CSentinel ErrInvalidEndpoint) else inl (mkDialOptions (Some endpoint) (do_bearerToken options))
  | WithBearerToken token =>
      if bool_decide (token = "") then inr (CSentinel ErrInvalidBearerToken) else inl (mkDialOptions (do_endpoint options) token)
  end.

(** The loop of [Dial] over its options. *)
Fixpoint configure (options : list (option dialOption)) (configuration : dialOptions) : dialOptions + cerror :=
  match options with
  | [] => inl configuration
  | None :: options => configure options configuration
  | Some o :: options =>
      match apply_option o configuration with inr err => inr err | inl configuration => configure options configuration end
  end.

Definition resolvedEndpoint (o : dialOptions) : Endpoint + cerror :=
  match (match do_endpoint o with Some endpoint => inl endpoint | None => Discover end) with
  | inr err => inr err
  | inl endpoint =>
      match transportEndpoint endpoint with
      | inr err => inr err
      | inl result =>
          if bool_decide (ep_Network result = NetworkTCP) && bool_decide (do_bearerToken o = "") then inr (CSentinel ErrBearerTokenRequired)
          else if negb (bool_decide (ep_Network result = NetworkTCP)) && negb (bool_decide (do_bearerToken o = ""))
          then inr (CSentinel ErrBearerTokenUnsupported)
          else inl result
      end
  end.

(** [newBearerCredentials]. *)
Definition newBearerCredentials (token : string) : string := "Bearer " +:+ token.

(** The [authorization] values a call carries. *)
Definition call_metadata (token : string) : list string := if bool_decide (token = "") then [] else [newBearerCredentials token].

(** [errors.Is] for an error of another package. *)
Fixpoint foreign_Is (err : cerror) (target : sentinel) : bool :=
  match err with
  | CForeign err => errors_Is err target
  | CompilationError _ _ cause => foreign_Is cause target
  | CJoin errs => existsb (λ e, foreign_Is e target) errs
  | _ => false
  end.

(** A connection: the endpoint it dials and the metadata of its calls. *)
Record connection := mkConnection { cn_Endpoint : Endpoint; cn_Metadata : list string }.

(** [Dial]: the connection or the error, and the connection that was closed again;
    [info] are the calls of [GetInfo] over a connection. *)
Definition Dial (ctxErr : option error) (options : list (option dialOption)) (newClient : option error)
    (info : connection → stub PbApiVersion (option PbServerInfo)) (infoCtxErr : option error) : (connection + cerror) * option connection :=
  match ctxErr with
  | Some err => (inr (CForeign err), None)
  | None =>
      match configure options (mkDialOptions None "") with
      | inr err => (inr err, None)
      | inl configuration =>
          match resolvedEndpoint configuration with
          | inr err => (inr err, None)
          | inl endpoint =>
              match newClient with
              | Some err => (inr (CForeign (wrap_prefix "create daemon client" err)), None)
              | None =>
                  let c := mkConnection endpoint (call_metadata (do_bearerToken configuration)) in
                  match (Info (info c) infoCtxErr).2 with
                  | Some err =>
                      (inr (if foreign_Is err ContextCanceled || foreign_Is err ContextDeadlineExceeded
                            then CJoin [CSentinel ErrDaemonUnavailable; err] else err), Some c)
                  | None => (inl c, None)
                  end
              end
          end
      end
  end.

End client.

(** ** The endpoint of a daemon *)

Lemma DefaultEndpoint_local runtimeDirectory cacheDirectory e : (∀ directory, cacheDirectory = inl directory → rooted directory = true) →
  Endpoint.DefaultEndpoint runtimeDirectory cacheDirectory = inl e → local_endpoint e ∧ ep_Network e = NetworkUnix.
Proof.
  intros Hc. unfold Endpoint.DefaultEndpoint.
  destruct (if bool_decide (runtimeDirectory = "") || negb (IsAbs runtimeDirectory) then cacheDirectory else inl runtimeDirectory) as [d|] eqn:Hd; [|done].
  assert (rooted d = true) as Hr.
  { destruct (bool_decide (runtimeDirectory = "") || negb (IsAbs runtimeDirectory)) eqn:Hb; [by apply Hc|]. injection Hd as <-.
    by apply orb_false_iff in Hb as [_ Hb%negb_false_iff]. }
  intros [= <-]. split; [|done]. left. split; [done|]. cbn [ep_Address]. unfold Join. rewrite filter_cons_True by (by apply rooted_nonempty).
  rewrite !filter_cons_True, filter_nil by done. rewrite rooted_Clean, Clean_idempotent. split; [|done].
  change (join_slash [d; "ferret"; "ferretd.sock"]) with (d +:+ "/ferret/ferretd.sock"). rewrite rooted_app; [done|by apply rooted_nonempty].
Qed.

Section connect.
Context `{G : Grpc} `{R : !StatusReader}.
Context (bracketed : string → option string) (parse_detail : string → string) (LookupEnv : string → option string).
Context (runtimeDirectory : string) (cacheDirectory : string + error).

(** [transport.DefaultEndpoint] in the environment of the daemon and its client. *)
Definition default_endpoint : Endpoint + error := Endpoint.DefaultEndpoint runtimeDirectory cacheDirectory.

(** The operating system: its cache directory is absolute, its ports are ports. *)
Definition system_ok (listen : bound_address + error) : Prop :=
  (∀ directory, cacheDirectory = inl directory → rooted directory = true) ∧
  (∀ ip port, listen = inl (Some (ip, port)) → 0 ≤ port < 65536).

Lemma serve_endpoint version endpointValue environment logLevel o :
  serve_options bracketed parse_detail LookupEnv version endpointValue environment logLevel = inl o →
  if bool_decide (endpointValue = "") then op_Endpoint o = mkEndpoint "" ""
  else ParseEndpoint bracketed parse_detail endpointValue = inl (op_Endpoint o) ∧ op_Endpoint o ≠ mkEndpoint "" "".
Proof.
  unfold serve_options. case_bool_decide as Hv.
  - destruct (resolveBearerToken _ _ _) as [token|]; [|done]. destruct (newLogger _); [|done]. by intros [= <-].
  - destruct (ParseEndpoint _ _ endpointValue) as [e|] eqn:He; [|done].
    destruct (resolveBearerToken _ _ _) as [token|]; [|done]. destruct (newLogger _); [|done]. intros [= <-]. split; [done|]. simpl.
    apply ParseEndpoint_local in He as [(Hn & _)|(Hn & _)]; intros ->; done.
Qed.

(** What a daemon listens on can be printed and read again, and dialed. *)
Lemma bound_local version endpointValue environment logLevel o version' endpoint token a listen bound :
  serve_options bracketed parse_detail LookupEnv version endpointValue environment logLevel = inl o →
  normalized default_endpoint o = inl (version', endpoint, token) → Listen a listen endpoint = inl bound → system_ok listen →
  local_endpoint bound ∧ ep_Network bound = ep_Network endpoint ∧ (ep_Network bound = NetworkTCP ∨ ep_Network bound = NetworkUnix) ∧
  (endpointValue = "" → default_endpoint = inl bound) ∧ ∃ network, dial_target None bound = inl (network, ep_Address bound).
Proof.
  intros Hserve Hn Hlisten [Hcache Hport]. apply serve_endpoint in Hserve. destruct (normalized_facts _ _ _ _ _ Hn) as (_ & _ & He).
  assert (local_endpoint endpoint ∧ (endpointValue = "" → default_endpoint = inl endpoint ∧ ep_Network endpoint = NetworkUnix)) as [Hlocal Hdefault].
  { destruct (decide (endpointValue = "")) as [Hv|Hv];
      [rewrite bool_decide_eq_true_2 in Hserve by done|rewrite bool_decide_eq_false_2 in Hserve by done].
    - rewrite bool_decide_eq_true_2 in He by done. by destruct (DefaultEndpoint_local _ _ _ Hcache He).
    - destruct Hserve as [Hp Hne]. rewrite bool_decide_eq_false_2 in He by done. subst endpoint. split; [by eapply ParseEndpoint_local|done]. }
  clear He. unfold Listen in Hlisten. case_bool_decide as Htcp.
  - unfold listenTCP in Hlisten. destruct (validateTCPEndpoint endpoint true); [done|]. destruct listen as [[[ip port]|]|]; [|done..].
    destruct (negb (bool_decide (ip = (127, 0, 0, 1))) || (port =? 0)) eqn:Hb; [done|]. apply orb_false_iff in Hb as [_ Hz%Z.eqb_neq].
    injection Hlisten as <-. specialize (Hport ip port eq_refl). split_and!; [right; split; [done|]; by exists port|done|by left| |].
    + intros Hv. destruct (Hdefault Hv) as [_ Hu]. by rewrite Htcp in Hu.
    + exists "tcp4". unfold dial_target, dialTCP, validateTCPEndpoint. cbn [ep_Network ep_Address]. rewrite bool_decide_eq_true_2 by done.
      change (JoinHostPort "127.0.0.1" (FormatUint port)) with (loopback port). cbn [negb]. rewrite SplitHostPort_loopback by lia.
      rewrite bool_decide_eq_true_2 by done. cbn [negb]. rewrite ParseUint_Format by lia. by rewrite (proj2 (Z.eqb_neq port 0)).
  - destruct (listenLocal a endpoint).1; [done|]. injection Hlisten as <-.
    destruct Hlocal as [(Hu & Hr & Hc)|(Hu & _)]; [|done]. split_and!; [by left|done|by right|naive_solver|].
    exists "unix". unfold dial_target, dialLocal, IsAbs. by rewrite Hu, Hr, bool_decide_eq_false_2, bool_decide_eq_true_2.
Qed.

(** A client that has the endpoint, and the token for TCP. *)
Definition client_options (bound : Endpoint) (token : string) : list (option dialOption) :=
  Some (WithEndpoint (endpoint_string bound)) :: if bool_decide (token = "") then [] else [Some (WithBearerToken token)].

Lemma configure_client bound token : local_endpoint bound →
  configure (client_options bound token) (mkDialOptions None "") = inl (mkDialOptions (Some (endpoint_string bound)) token).
Proof.
  intros Hlocal. apply (local_endpoint_parses bracketed parse_detail) in Hlocal. unfold client_options. simpl.
  rewrite bool_decide_eq_false_2; [|by intros Hs; rewrite Hs in Hlocal]. simpl.
  case_bool_decide as Ht; simpl; [by rewrite Ht|]. by rewrite bool_decide_eq_false_2.
Qed.

Lemma resolved_local bound token : local_endpoint bound →
  resolvedEndpoint bracketed parse_detail default_endpoint (mkDialOptions (Some (endpoint_string bound)) token) =
    if bool_decide (ep_Network bound = NetworkTCP) && bool_decide (token = "") then inr (CSentinel ErrBearerTokenRequired)
    else if negb (bool_decide (ep_Network bound = NetworkTCP)) && negb (bool_decide (token = "")) then inr (CSentinel ErrBearerTokenUnsupported)
    else inl bound.
Proof.
  intros Hlocal. unfold resolvedEndpoint, transportEndpoint. simpl. by rewrite local_endpoint_parses.
Qed.

(** C20. The client and the daemon fit: for every command line that [serve] accepts and
    every endpoint its daemon then listens on, a client with the printed endpoint
    and the same token (no token off TCP) dials exactly the address the daemon is
    bound to, and the metadata of its calls is what the daemon's interceptor
    admits; a client without options finds a daemon that was started without an
    endpoint; and a client whose token is missing or superfluous is refused with
    its own error before it connects. *)
Theorem dial_reaches_daemon {digest : Type} `{EqDecision digest} (Sum256 : string → digest)
    (version endpointValue environment logLevel : string) (o : Options) (version' token : string) (endpoint bound : Endpoint)
    (a : socketAnswers) (listen : bound_address + error) :
  serve_options bracketed parse_detail LookupEnv version endpointValue environment logLevel = inl o →
  normalized default_endpoint o = inl (version', endpoint, token) → Listen a listen endpoint = inl bound → system_ok listen →
  let c := mkConnection bound (call_metadata token) in
  let dial options := Dial bracketed parse_detail default_endpoint None options None in
  (∃ network, dial_target None (cn_Endpoint c) = inl (network, ep_Address bound)) ∧
  admits Sum256 default_endpoint o (cn_Metadata c) = Some true ∧
  (∀ info, (Info (info c) None).2 = None → dial (client_options bound token) info None = (inl c, None) ∧
    (endpointValue = "" → dial [] info None = (inl c, None))) ∧
  (token ≠ "" → ∀ info ctxErr, dial (client_options bound "") info ctxErr = (inr (CSentinel ErrBearerTokenRequired), None)) ∧
  (token = "" → ∀ t info ctxErr, t ≠ "" → dial (client_options bound t) info ctxErr = (inr (CSentinel ErrBearerTokenUnsupported), None)).
Proof.
  intros Hserve Hn Hlisten Hsystem c dial.
  destruct (bound_local _ _ _ _ _ _ _ _ _ _ _ Hserve Hn Hlisten Hsystem) as (Hlocal & Hnet & _ & Hdefault & Hdial).
  destruct (normalized_facts _ _ _ _ _ Hn) as (Htok & Htcp & _). rewrite <-Hnet in Htcp.
  assert (∀ info, (Info (info c) None).2 = None → dial (client_options bound token) info None = (inl c, None)) as Hown.
  { intros info Hinfo. unfold dial, Dial. rewrite configure_client, resolved_local by done.
    assert (bool_decide (ep_Network bound = NetworkTCP) = negb (bool_decide (token = ""))) as ->
      by (by rewrite <-bool_decide_not; apply bool_decide_ext).
    cbn [do_bearerToken]. destruct (bool_decide (token = "")); cbn [negb andb]; fold c; by rewrite Hinfo. }
  split_and!; [done| |intros info Hinfo; split; [by apply Hown|]| |].
  - unfold admits. rewrite Hn. unfold c, cn_Metadata, call_metadata, interceptor, intercept, authenticate, newBearerAuthentication, newBearerCredentials.
    destruct (decide (token = "")) as [Ht|Ht]; [by rewrite (bool_decide_eq_false_2 (token ≠ "")) by tauto|].
    rewrite (bool_decide_eq_false_2 (token = "")), (bool_decide_eq_true_2 (token ≠ "")) by done. by rewrite bool_decide_eq_true_2.
  - intros Hv. specialize (Hdefault Hv). rewrite <-(Hown info Hinfo). unfold dial, Dial. rewrite configure_client by done.
    assert (token = "") as ->.
    { destruct (DefaultEndpoint_local _ _ _ (proj1 Hsystem) Hdefault) as [_ Hu]. destruct (decide (token = "")) as [|Hne]; [done|].
      apply Htcp in Hne. by rewrite Hu in Hne. }
    simpl. unfold resolvedEndpoint, Discover. simpl. by rewrite Hdefault.
  - intros Hne info ctxErr. unfold dial, Dial. rewrite configure_client, resolved_local by done. by rewrite !bool_decide_eq_true_2 by (done || by apply Htcp).
  - intros -> t info ctxErr Ht. unfold dial, Dial. rewrite configure_client, resolved_local by done.
    rewrite (bool_decide_eq_false_2 (ep_Network bound = NetworkTCP)) by (intros Hx; by apply Htcp in Hx). by rewrite bool_decide_eq_false_2.
Qed.

End connect.

(** ** A daemon on TCP and its client *)

Definition sample_lookup (name : string) : option string := if bool_decide (name = "FERRET_TOKEN") then Some "secret" else None.
Definition sample_answers : socketAnswers := mkSocketAnswers None (inl false) None false None None None.

Lemma dial_reaches_daemon_witness :
  admits id (default_endpoint "" (inl "/home/u/.cache")) (mkOptions "1" (mkEndpoint "tcp" "127.0.0.1:0") "secret")
    (call_metadata "secret") = Some true ∧
  Dial (G := plain_grpc) (R := plain_reader) (λ _, None) id (default_endpoint "" (inl "/home/u/.cache")) None
    (client_options (mkEndpoint "tcp" "127.0.0.1:4321") "") None (λ _ _, inl None) None = (inr (CSentinel ErrBearerTokenRequired), None).
Proof.
  destruct (dial_reaches_daemon (G := plain_grpc) (R := plain_reader) (λ _, None) id sample_lookup "" (inl "/home/u/.cache") id
    "1" "tcp://127.0.0.1:0" "FERRET_TOKEN" "info" (mkOptions "1" (mkEndpoint "tcp" "127.0.0.1:0") "secret") "1" "secret"
    (mkEndpoint "tcp" "127.0.0.1:0") (mkEndpoint "tcp" "127.0.0.1:4321") sample_answers (inl (Some ((127, 0, 0, 1), 4321))))
    as (_ & H1 & _ & H2 & _).
  - vm_compute. reflexivity.
  - vm_compute. reflexivity.
  - vm_compute. reflexivity.
  - split; [intros directory [= <-]; reflexivity|intros ip port [= <- <-]; lia].
  - split; [exact H1|]. apply H2. discriminate.
Defined.
