(* ===== verification/StdlibRef.v ===== *)
(** * The standard library reference tool

    [tools/stdlibref]: the version of the Ferret module that is built, the index and
    the reference that are downloaded for it, their validation, and the file that
    embeds the reference, which is replaced by a rename.  The Go command, the
    network, the decoders of the API specification and the semantic versions are
    parameters; the calls of the operating system answer with an error or not, and
    the log of the calls says what each of them leaves.  A file has the bytes that
    are on the disk and those that are visible: a crash keeps the former and
    any first part of what was written since. *)

From stdpp Require Import pretty.
From S2P Require Import Prelude Paths Errors Uri Url Discovery Endpoint.
Local Open Scope Z_scope.

(** ** The Ferret module *)

Definition ferretModule : string := "github.com/MontFerret/ferret/v2".

(** [moduleInfo]; whether there is a replacement is all that is read of it. *)
Record moduleInfo := mkModule {
  mo_Path : string;
  mo_Version : string;
  mo_Replace : bool
}.

(** [strings.TrimPrefix]. *)
Definition TrimPrefix (s prefix : string) : string := if HasPrefix s prefix then string_drop (String.length prefix) s else s.

(** [exec.Command.Output]: the standard error of a command that failed. *)
Definition runGoModuleCommand (output : list Z + (error * option string)) : list Z + error :=
  match output with
  | inl data => inl data
  | inr (err, Some stderr) =>
      if bool_decide (stderr = "") then inr err else inr (EWrap (error_text err +:+ ": " +:+ TrimSpace stderr) err)
  | inr (err, None) => inr err
  end.

Section tool.
(** [json.Unmarshal] of module metadata, and [golang.org/x/mod/semver]. *)
Context (decodeModule : list Z → moduleInfo + error) (IsValid : string → bool) (Canonical : string → string).

(** The arguments of the Go command. *)
Definition module_arguments : list string := ["list"; "-mod=readonly"; "-m"; "-json"; ferretModule].

Definition resolveFerretVersion (execute : list string → list Z + error) : string + error :=
  match execute module_arguments with
  | inr err => inr (wrap_prefix "resolve Ferret module" err)
  | inl data =>
      match decodeModule data with
      | inr err => inr (wrap_prefix "decode Ferret module metadata" err)
      | inl module =>
          if negb (bool_decide (mo_Path module = ferretModule)) then
            inr (ENew ("resolved unexpected Ferret module " +:+ quoted (mo_Path module)))
          else if mo_Replace module then
            inr (ENew "published API Reference selection does not support Ferret module replacements")
          else if bool_decide (mo_Version module = "") then inr (ENew "resolved Ferret module has no version")
          else if negb (IsValid (mo_Version module)) || negb (bool_decide (Canonical (mo_Version module) = mo_Version module)) then
            inr (ENew ("resolved Ferret module version " +:+ quoted (mo_Version module) +:+ " is not canonical SemVer"))
          else inl (TrimPrefix (mo_Version module) "v")
      end
  end.

(** ** References *)

Definition standardLibraryID : string := "montferret/core".

(** [api.Reference], as far as it is validated, and [api.Index]. *)
Record Reference := mkReference {
  re_SchemaVersion : Z;
  re_ID : string;
  re_Version : string
}.

Record indexEntry := mkIndexEntry { ie_Version : string; ie_Href : string }.

(** A location: the index itself, or a reference relative to it. *)
Inductive location := IndexLocation | Relative (href : URL).

Context (bracketed : string → option string) (url_error : string → error).
Context (ParseIndex : list Z → list indexEntry + error) (ParseReference : list Z → Reference + error) (SchemaVersion : Z).

Fixpoint referenceURL (versions : list indexEntry) (version : string) : location + error :=
  match versions with
  | [] => inr (ENew ("standard library API Reference index does not contain Ferret version " +:+ quoted version))
  | entry :: versions =>
      if negb (bool_decide (ie_Version entry = version)) then referenceURL versions version
      else
        match Parse bracketed (ie_Href entry) with
        | None => inr (wrap_prefix ("parse Standard Library API Reference location for version " +:+ quoted version) (url_error (ie_Href entry)))
        | Some href => inl (Relative href)
        end
  end.

Definition validateReference (data : list Z) (version : string) : Reference + error :=
  match ParseReference data with
  | inr err => inr (wrap_prefix "parse Standard Library API Reference" err)
  | inl reference =>
      if negb (re_SchemaVersion reference =? SchemaVersion) then 
        inr (ENew ("standard library API Reference schema version = " +:+ pretty (re_SchemaVersion reference) +:+ ", want " +:+ pretty SchemaVersion))
      else if negb (bool_decide (re_ID reference = standardLibraryID)) then 
        inr (ENew ("standard library API Reference ID = " +:+ quoted (re_ID reference) +:+ ", want " +:+ quoted standardLibraryID))
      else if negb (bool_decide (re_Version reference = version)) then 
        inr (ENew ("standard library API Reference version = " +:+ quoted (re_Version reference) +:+ ", want " +:+ quoted version))
      else inl reference
  end.

(** ** Downloads *)

Definition maxIndexBytes : Z := Z.shiftl 1 20.
Definition maxReferenceBytes : Z := Z.shiftl 16 20.

(** The answer of a server: its status, its body and the error that ends it. *)
Record response := mkResponse {
  ht_StatusCode : Z;
  ht_Status : string;
  ht_Body : list Z;
  ht_Error : option error
}.

(** [io.ReadAll(io.LimitReader(body, n))]: an error after the limit is not seen. *)
Definition read_limited (r : response) (n : Z) : list Z + error :=
  if Z.of_nat (length (ht_Body r)) <? n
  then match ht_Error r with Some err => inr err | None => inl (ht_Body r) end
  else inl (take (Z.to_nat n) (ht_Body r)).

(** [NewRequestWithContext] fails, or the request is sent. *)
Definition fetch (request : option error) (answer : response + error) (maximum : Z) : list Z + error :=
  match request with
  | Some err => inr (wrap_prefix "create request" err)
  | None =>
      match answer with
      | inr err => inr err
      | inl r =>
          if negb (ht_StatusCode r =? 200) then inr (ENew ("unexpected HTTP status " +:+ ht_Status r))
          else
            match read_limited r (maximum + 1) with
            | inr err => inr (wrap_prefix "read response" err)
            | inl data =>
                if maximum <? Z.of_nat (length data) then inr (ENew ("response exceeds " +:+ pretty maximum +:+ " bytes")) else inl data
            end
      end
  end.

(** ** Replacing a file *)

(** The calls that change the file system, once they took effect. *)
Inductive fsCall :=
| Created (name : string)
| Written (name : string) (data : list Z)
| Synced (name : string)
| Renamed (from to : string)
| Removed (name : string).

(** A file: the bytes that are on the disk, and those that were written after them and
    are only in the memory of the system. *)
Record file := mkFile { fl_durable : list Z; fl_volatile : list Z }.

Definition content (f : file) : list Z := fl_durable f ++ fl_volatile f.
Definition on_disk (data : list Z) : file := mkFile data [].

Definition effect (c : fsCall) (fs : gmap string file) : gmap string file :=
  match c with
  | Created name => <[name := on_disk []]> fs
  | Written name data => alter (λ f, mkFile (fl_durable f) (fl_volatile f ++ data)) name fs
  | Synced name => alter (λ f, on_disk (content f)) name fs
  | Renamed from to => match fs !! from with Some f => <[to := f]> (delete from fs) | None => fs end
  | Removed name => delete name fs
  end.

Definition effects (calls : list fsCall) (fs : gmap string file) : gmap string file := foldl (λ fs c, effect c fs) fs calls.

(** What a process reads after the calls, from files that were on the disk. *)
Definition visible (calls : list fsCall) (fs : gmap string (list Z)) : gmap string (list Z) := content <$> effects calls (on_disk <$> fs).

(** What a crash leaves of a file: the bytes on the disk, and any first part of the others. *)
Definition crashed (f : file) (data : list Z) : Prop := ∃ n, data = fl_durable f ++ take n (fl_volatile f).

(** What a crash leaves of the file system: the names as they were after some of the
    calls, since the last ones may not have reached the disk. *)
Definition crash_state (calls : list fsCall) (fs disk : gmap string (list Z)) : Prop :=
  ∃ k, ∀ name, match effects (take k calls) (on_disk <$> fs) !! name, disk !! name with
    | Some f, Some data => crashed f data
    | None, None => True
    | _, _ => False
    end.

(** How the calls of [writeAtomic] answer: the number in the name of the temporary
    file; a write that fails has written a part. *)
Record writeAnswers := mkWriteAnswers {
  wa_create : Z + error;
  wa_chmod : option error;
  wa_write : option (nat * error);
  wa_sync : option error;
  wa_close : option error;
  wa_rename : option error;
  wa_remove : option error
}.

Definition errPatternHasSeparator : error := ENew "pattern contains path separator".

(** [joinPath] of [os.CreateTemp]. *)
Definition join_path (dir name : string) : string := if HasSuffix dir "/" then dir +:+ name else dir +:+ "/" +:+ name.

Definition temporary_prefix (path : string) : string := "." +:+ Base path +:+ ".tmp-".
Definition temporary_path (path : string) (number : Z) : string := join_path (Dir path) (temporary_prefix path +:+ FormatUint number).

(** The deferred [os.Remove]; after the rename there is no file of that name, and it
    fails with [fs.ErrNotExist]. *)
Definition remove_calls (a : writeAnswers) (renamed : bool) (temporary : string) : list fsCall :=
  if renamed then [] else match wa_remove a with None => [Removed temporary] | Some _ => [] end.

(** [writeAtomic]: its error and its calls, those of the deferred functions last. *)
Definition writeAtomic (a : writeAnswers) (path : string) (data : list Z) : option error * list fsCall :=
  if negb (no_slash (temporary_prefix path)) then (Some errPatternHasSeparator, [])
  else
    match wa_create a with
    | inr err => (Some err, [])
    | inl number =>
        let temporary := temporary_path path number in
        match wa_chmod a with
        | Some err => (Some err, Created temporary :: remove_calls a false temporary)
        | None =>
            match wa_write a with
            | Some (n, err) => (Some err, [Created temporary; Written temporary (take n data)] ++ remove_calls a false temporary)
            | None =>
                let written := [Created temporary; Written temporary data] in
                match wa_sync a with
                | Some err => (Some err, written ++ remove_calls a false temporary)
                | None =>
                    let synced := written ++ [Synced temporary] in
                    match wa_close a with
                    | Some err => (Some err, synced ++ remove_calls a false temporary)
                    | None =>
                        match wa_rename a with
                        | Some err => (Some err, synced ++ remove_calls a false temporary)
                        | None => (None, synced ++ [Renamed temporary path] ++ remove_calls a true temporary)
                        end
                    end
                end
            end
        end
    end.

(** ** The commands *)

(** The world of a command: the Go command, the network, the file system. *)
Record world := mkWorld {
  wo_execute : list string → list Z + error;
  wo_request : location → option error;
  wo_get : location → response + error;
  wo_write : writeAnswers;
  wo_read : option error
}.

Definition sync (w : world) (output : string) : option error * list fsCall :=
  match resolveFerretVersion (wo_execute w) with
  | inr err => (Some err, [])
  | inl version =>
      match fetch (wo_request w IndexLocation) (wo_get w IndexLocation) maxIndexBytes with
      | inr err => (Some (wrap_prefix "download Standard Library API Reference index" err), [])
      | inl indexData =>
          match ParseIndex indexData with
          | inr err => (Some (wrap_prefix "parse Standard Library API Reference index" err), [])
          | inl index =>
              match referenceURL index version with
              | inr err => (Some err, [])
              | inl l =>
                  match fetch (wo_request w l) (wo_get w l) maxReferenceBytes with
                  | inr err => (Some (wrap_prefix ("download Standard Library API Reference " +:+ quoted version) err), [])
                  | inl referenceData =>
                      match validateReference referenceData version with
                      | inr err => (Some err, [])
                      | inl _ =>
                          match writeAtomic (wo_write w) output referenceData with
                          | (Some err, calls) => (Some (wrap_prefix "write embedded Standard Library API Reference" err), calls)
                          | (None, calls) => (None, calls)
                          end
                      end
                  end
              end
          end
      end
  end.

(** [check]; a file that is not there cannot be read. *)
Definition check (w : world) (fs : gmap string (list Z)) (output : string) : option error :=
  match resolveFerretVersion (wo_execute w) with
  | inr err => Some err
  | inl version =>
      match (match wo_read w with Some err => inr err | None => match fs !! output with Some data => inl data | None => inr (ESentinel FsErrNotExist) end end) with
      | inr err => Some (wrap_prefix "read embedded Standard Library API Reference" err)
      | inl data => match validateReference data version with inr err => Some err | inl _ => None end
      end
  end.

(** [command.run]: the error and the files it leaves. *)
Definition command_run (w : world) (fs : gmap string (list Z)) (output mode : string) : option error * list fsCall :=
  if bool_decide (mode = "sync") then sync w output
  else if bool_decide (mode = "check") then (check w fs output, [])
  else (Some (ENew ("unsupported mode " +:+ quoted mode +:+ ": expected sync or check")), []).

End tool.

(** ** The temporary file *)

Lemma no_slash_app s t : no_slash (s +:+ t) = no_slash s && no_slash t.
Proof. induction s as [|c s IH]; [done|]. change (String c s +:+ t) with (String c (s +:+ t)). simpl. by rewrite IH, andb_assoc. Qed.

Lemma digits_no_slash s : string_forall is_digit s = true → no_slash s = true.
Proof.
  induction s as [|c s IH]; [done|]. simpl. intros [Hc Hs]%andb_true_iff. rewrite IH, andb_true_r by done.
  apply negb_true_iff, bool_decide_eq_false. by intros ->.
Qed.

Lemma string_take_drop_app n s : string_take n s +:+ string_drop n s = s.
Proof.
  revert s. induction n as [|n IH]; intros [|c s]; try done.
  change (String c (string_take n s +:+ string_drop n s) = String c s). by rewrite IH.
Qed.

Lemma Base_join dir name : name ≠ "" → no_slash name = true → Base (join_path dir name) = name.
Proof.
  intros Hne Hns.
  assert (∃ s, join_path dir name = s +:+ name ∧ (s = "" ∨ ∃ t, s = t +:+ "/")) as (s & Hs & Ht).
  { unfold join_path. destruct (HasSuffix dir "/") eqn:Hd; [|exists (dir +:+ "/"); split; [by rewrite append_assoc|right; by exists dir]].
    exists dir. split; [done|]. right. unfold HasSuffix in Hd. apply andb_true_iff in Hd as [_ Hd%bool_decide_eq_true].
    eexists. rewrite <-(string_take_drop_app (String.length dir - String.length "/") dir) at 1. by rewrite Hd. }
  unfold Base. rewrite Hs, bool_decide_eq_false_2 by (destruct s; [done|by intros [=]]).
  assert (strip_slashes (String.length (s +:+ name)) (s +:+ name) = s +:+ name) as ->.
  { destruct (String.length (s +:+ name)); [done|]. simpl. by rewrite HasSuffix_slash. }
  assert (last_element (s +:+ name) = name) as ->; [|by rewrite bool_decide_eq_false_2].
  unfold last_element. destruct Ht as [->|[t ->]]; [change ("" +:+ name) with name; by rewrite (split_slash_single name Hns)|].
  rewrite append_assoc, split_slash_app_gen, (split_slash_single name Hns), last_snoc. done.
Qed.

Lemma temporary_distinct path number : no_slash (temporary_prefix path) = true → 0 ≤ number → temporary_path path number ≠ path.
Proof.
  intros Hns Hn Heq. assert (Base (temporary_path path number) = temporary_prefix path +:+ FormatUint number) as Hb.
  { apply Base_join; [done|]. rewrite no_slash_app, Hns. by apply digits_no_slash, FormatUint_digits. }
  rewrite Heq in Hb. apply (f_equal String.length) in Hb. unfold temporary_prefix in Hb. rewrite !length_append in Hb. simpl in Hb. lia.
Qed.

(** ** What a crash leaves *)

(** A call on the temporary file alone. *)
Definition quiet (temporary : string) (c : fsCall) : Prop :=
  match c with Created name | Written name _ | Synced name | Removed name => name = temporary | Renamed _ _ => False end.

Lemma effects_app calls calls' fs : effects (calls ++ calls') fs = effects calls' (effects calls fs).
Proof. apply foldl_app. Qed.

Lemma effects_quiet temporary calls fs other : Forall (quiet temporary) calls → other ≠ temporary → effects calls fs !! other = fs !! other.
Proof.
  intros Hq Hne. revert fs. induction Hq as [|c calls Hc _ IH]; intros fs; [done|].
  change (effects (c :: calls) fs) with (effects calls (effect c fs)). rewrite IH.
  destruct c; simpl in *; subst; [by rewrite lookup_insert_ne|by rewrite lookup_alter_ne|by rewrite lookup_alter_ne|done|by rewrite lookup_delete_ne].
Qed.

Lemma remove_calls_quiet a renamed temporary : Forall (quiet temporary) (remove_calls a renamed temporary).
Proof. unfold remove_calls. destruct renamed, (wa_remove a); by repeat constructor. Qed.

(** The calls of a replacement keep the file or leave the new data, all of it on the
    disk; the temporary file is gone unless the replacement failed and its removal
    failed too. *)
Definition replaces (output : string) (data : list Z) (a : writeAnswers) (fs : gmap string file) (r : option error * list fsCall) : Prop :=
  (∀ k, effects (take k r.2) fs !! output = fs !! output ∨ effects (take k r.2) fs !! output = Some (on_disk data)) ∧
  (r.1 = None → effects r.2 fs !! output = Some (on_disk data)) ∧
  (r.1 ≠ None → effects r.2 fs !! output = fs !! output) ∧
  (∀ other, other ≠ output →
     r.1 = None ∨ wa_remove a = None ∨ (∀ number, wa_create a = inl number → other ≠ temporary_path output number) →
     effects r.2 fs !! other = fs !! other).

Lemma replaces_none output data a fs err : replaces output data a fs (Some err, []).
Proof. unfold replaces. split_and!; intros; simpl; [by left; rewrite take_nil|done..]. Qed.

Lemma replaces_failed output data a fs number err calls : let temporary := temporary_path output number in
  wa_create a = inl number → Forall (quiet temporary) calls → temporary ≠ output → fs !! temporary = None →
  replaces output data a fs (Some err, calls ++ remove_calls a false temporary).
Proof.
  intros temporary Hc Hq Hne Hfresh.
  assert (Forall (quiet temporary) (calls ++ remove_calls a false temporary)) as Hall by (apply Forall_app; split; [done|apply remove_calls_quiet]).
  unfold replaces. split_and!; cbn [fst snd]; [|done| |].
  - intros k. left. apply (effects_quiet temporary); [by apply Forall_take|done].
  - intros _. by apply (effects_quiet temporary).
  - intros other Ho Hr. destruct (decide (other = temporary)) as [->|]; [|by apply (effects_quiet temporary)].
    destruct Hr as [?|[Hr|Hr]]; [done| |by destruct (Hr number Hc)].
    rewrite effects_app. unfold remove_calls. rewrite Hr. change (delete temporary (effects calls fs) !! temporary = fs !! temporary).
    by rewrite lookup_delete_eq.
Qed.

Lemma replaces_renamed output data a fs temporary : temporary ≠ output → fs !! temporary = None →
  replaces output data a fs (None, [Created temporary; Written temporary data; Synced temporary] ++ [Renamed temporary output] ++ remove_calls a true temporary).
Proof.
  intros Hne Hfresh. simpl. set (calls := [Created temporary; Written temporary data; Synced temporary; Renamed temporary output]).
  assert (effects calls fs = <[output := on_disk data]> fs) as Hall.
  { unfold effects, calls. simpl. rewrite !alter_insert_eq, lookup_insert_eq, delete_insert_id by done. done. }
  unfold replaces. cbn [fst snd]. rewrite Hall. split_and!; [|by rewrite lookup_insert_eq|done|].
  - intros k. destruct (decide (k < 4)%nat) as [Hk|Hk].
    + left. apply (effects_quiet temporary); [|done]. unfold calls. destruct k as [|[|[|[|k]]]]; simpl; [by repeat constructor..|lia].
    + right. rewrite take_ge by (simpl; lia). rewrite Hall. by rewrite lookup_insert_eq.
  - intros other Ho _. by rewrite lookup_insert_ne.
Qed.

(** The temporary file is new, as [O_EXCL] makes it. *)
Definition fresh_temporary {F} (a : writeAnswers) (output : string) (fs : gmap string F) : Prop :=
  ∀ number, wa_create a = inl number → 0 ≤ number ∧ fs !! temporary_path output number = None.

Lemma writeAtomic_replaces a output data (fs : gmap string file) : fresh_temporary a output fs → replaces output data a fs (writeAtomic a output data).
Proof.
  intros Hfresh. unfold writeAtomic. destruct (no_slash (temporary_prefix output)) eqn:Hns; cbn [negb]; [|apply replaces_none].
  destruct (wa_create a) as [number|err] eqn:Hc; [|apply replaces_none]. destruct (Hfresh number Hc) as [Hn Hnone].
  pose proof (temporary_distinct output number Hns Hn) as Hne. set (temporary := temporary_path output number) in *.
  destruct (wa_chmod a) as [err|]; [apply (replaces_failed _ _ _ _ _ _ [Created temporary]); by repeat constructor|].
  destruct (wa_write a) as [[n err]|]; [apply replaces_failed; by repeat constructor|].
  destruct (wa_sync a) as [err|]; [apply replaces_failed; by repeat constructor|].
  destruct (wa_close a) as [err|]; [apply replaces_failed; by repeat constructor|].
  destruct (wa_rename a) as [err|]; [apply replaces_failed; by repeat constructor|]. by apply replaces_renamed.
Qed.

(** A file that a crash can only leave as it is. *)
Lemma crash_on_disk calls fs disk output : crash_state calls fs disk →
  (∀ k, ∃ data, effects (take k calls) (on_disk <$> fs) !! output = on_disk <$> data) →
  ∃ k, disk !! output = content <$> effects (take k calls) (on_disk <$> fs) !! output.
Proof.
  intros [k Hk] Hd. exists k. specialize (Hk output). destruct (Hd k) as [[data|] He]; rewrite He in *; simpl in *.
  - destruct (disk !! output) as [d|]; [|done]. destruct Hk as [n ->]. simpl. by rewrite take_nil.
  - by destruct (disk !! output).
Qed.

Lemma content_on_disk (data : option (list Z)) : content <$> (on_disk <$> data) = data.
Proof. destruct data; simpl; [|done]. unfold content. simpl. by rewrite app_nil_r. Qed.

Lemma fetch_bounded request answer maximum data : fetch request answer maximum = inl data → Z.of_nat (length data) ≤ maximum.
Proof. unfold fetch. repeat case_match; intros; simplify_eq; lia. Qed.

Section commands.
Context (decodeModule : list Z → moduleInfo + error) (IsValid : string → bool) (Canonical : string → string).
Context (bracketed : string → option string) (url_error : string → error).
Context (ParseIndex : list Z → list indexEntry + error) (ParseReference : list Z → Reference + error) (SchemaVersion : Z).

(** Data that may be embedded for the module that is built. *)
Definition embeddable (w : world) (data : list Z) : Prop :=
  Z.of_nat (length data) ≤ maxReferenceBytes ∧
  ∃ version reference, resolveFerretVersion decodeModule IsValid Canonical (wo_execute w) = inl version ∧
    ParseReference data = inl reference ∧ re_SchemaVersion reference = SchemaVersion ∧ re_ID reference = standardLibraryID ∧
    re_Version reference = version.

Lemma validateReference_ok data version reference : validateReference ParseReference SchemaVersion data version = inl reference →
  ParseReference data = inl reference ∧ re_SchemaVersion reference = SchemaVersion ∧ re_ID reference = standardLibraryID ∧ re_Version reference = version.
Proof. unfold validateReference. repeat case_match; intros; bools; simplify_eq. split_and!; [done|lia|done|done]. Qed.

(** [sync] either touches nothing and fails, or replaces the file by data that may
    be embedded. *)
Lemma sync_cases w output : let r := sync decodeModule IsValid Canonical bracketed url_error ParseIndex ParseReference SchemaVersion w output in
  (∃ err, r = (Some err, [])) ∨
  ∃ data, embeddable w data ∧ r.2 = (writeAtomic (wo_write w) output data).2 ∧
    (r.1 = None ↔ (writeAtomic (wo_write w) output data).1 = None).
Proof.
  unfold sync. destruct (resolveFerretVersion _ _ _ _) as [version|] eqn:Hv; [|by left; eexists].
  destruct (fetch _ _ maxIndexBytes) as [indexData|]; [|by left; eexists]. destruct (ParseIndex indexData) as [index|]; [|by left; eexists].
  destruct (referenceURL _ _ _ _) as [l|]; [|by left; eexists]. destruct (fetch _ _ maxReferenceBytes) as [data|] eqn:Hd; [|by left; eexists].
  destruct (validateReference _ _ _ _) as [reference|] eqn:Hr; [|by left; eexists]. right. exists data.
  apply fetch_bounded in Hd. apply validateReference_ok in Hr as (? & ? & ? & ?).
  split; [split; [done|by exists version, reference]|]. destruct (writeAtomic _ _ _) as [[err|] calls]; simpl; done.
Qed.

(** C40. The embedded reference is replaced as a whole: at every moment of [sync] a
    reader finds, and a crash at any moment leaves, the file from before or a complete
    reference that was validated for the Ferret version that is built and stays within
    the size limit, where a crash keeps the bytes that were synced, any first part of the
    bytes that were not, and the names as they were after some of the calls; if [sync]
    fails the file is unchanged; if it succeeds, [check] accepts the file where it can
    read it and no other file has changed, the temporary one is gone; if it fails no other file has changed
    but a temporary one that could not be removed.  The temporary name is new, as
    [O_EXCL] makes it. *)
Theorem sync_atomic (w : world) (fs : gmap string (list Z)) (output : string) :
  fresh_temporary (wo_write w) output fs →
  let '(err, calls) := sync decodeModule IsValid Canonical bracketed url_error ParseIndex ParseReference SchemaVersion w output in
  (∀ k, visible (take k calls) fs !! output = fs !! output ∨
        ∃ data, visible (take k calls) fs !! output = Some data ∧ embeddable w data) ∧
  (∀ disk, crash_state calls fs disk →
        disk !! output = fs !! output ∨ ∃ data, disk !! output = Some data ∧ embeddable w data) ∧
  (err ≠ None → visible calls fs !! output = fs !! output) ∧
  (err = None → wo_read w = None →
    check decodeModule IsValid Canonical ParseReference SchemaVersion w (visible calls fs) output = None) ∧
  (∀ other, other ≠ output →
    err = None ∨ wa_remove (wo_write w) = None ∨
      (∀ number, wa_create (wo_write w) = inl number → other ≠ temporary_path output number) →
    visible calls fs !! other = fs !! other).
Proof.
  intros Hfresh. pose proof (sync_cases w output) as Hc. destruct (sync _ _ _ _ _ _ _ _ w output) as [err calls]. simpl in Hc.
  assert (∃ data, (embeddable w data ∨ calls = [] ∧ err ≠ None) ∧ replaces output data (wo_write w) (on_disk <$> fs) (err, calls)) as (data & Hdata & Hrep).
  { destruct Hc as [[e [= -> ->]]|(data & Hdata & -> & Hiff)]; [exists []; split; [by right|apply replaces_none]|].
    assert (fresh_temporary (wo_write w) output (on_disk <$> fs)) as Hf by (intros number Hn; rewrite lookup_fmap; by destruct (Hfresh number Hn) as [? ->]).
    exists data. split; [by left|]. pose proof (writeAtomic_replaces (wo_write w) output data _ Hf) as (R1 & R2 & R3 & R4).
    unfold replaces. cbn [fst snd]. split_and!; [done|by rewrite Hiff|by rewrite Hiff|].
    intros other Ho Hr. apply R4; [done|]. by rewrite <-Hiff. }
  destruct Hrep as (Hk & Hok & Hfail & Hother). cbn [fst snd] in *.
  assert (∀ k, visible (take k calls) fs !! output = fs !! output ∨ ∃ data, visible (take k calls) fs !! output = Some data ∧ embeddable w data) as Hv.
  { intros k. unfold visible. rewrite lookup_fmap. destruct (Hk k) as [->|Hd]; [left; by rewrite lookup_fmap, content_on_disk|].
    destruct Hdata as [Hdata|[-> _]]; [right; exists data; rewrite Hd; split; [apply (content_on_disk (Some data))|done]|].
    left. rewrite take_nil. unfold effects. simpl. by rewrite lookup_fmap, content_on_disk. }
  split_and!; [done| | | |].
  - intros disk Hcr. destruct (crash_on_disk _ _ _ output Hcr) as [k Hd].
    { intros k. destruct (Hk k) as [->| ->]; [exists (fs !! output); apply lookup_fmap|by exists (Some data)]. }
    specialize (Hv k). unfold visible in Hv. rewrite lookup_fmap, <-Hd in Hv. done.
  - intros Herr. unfold visible. by rewrite lookup_fmap, Hfail, lookup_fmap, content_on_disk.
  - intros Herr Hread. specialize (Hok Herr). destruct Hdata as [(_ & version & reference & Hver & Hp & Hs & Hid & Hre)|[_ ?]]; [|done].
    unfold check, visible. rewrite Hver, Hread, lookup_fmap, Hok. change (content <$> Some (on_disk data)) with (content <$> (on_disk <$> Some data)).
    rewrite content_on_disk. unfold validateReference. rewrite Hp, Hs, Hid, Hre, Z.eqb_refl, !bool_decide_eq_true_2 by done. done.
  - intros other Ho Hr. unfold visible. by rewrite lookup_fmap, Hother, lookup_fmap, content_on_disk.
Qed.

End commands.

(** ** A run *)

Definition sample_module (data : list Z) : moduleInfo + error := inl (mkModule ferretModule "v2.1.0" false).
Definition sample_index (data : list Z) : list indexEntry + error := inl [mkIndexEntry "2.0.0" "v2.0.0.json"; mkIndexEntry "2.1.0" "v2.1.0.json"].
Definition sample_parse (data : list Z) : Reference + error := inl (mkReference 1 standardLibraryID "2.1.0").

(** A rename that fails after everything else succeeded. *)
Definition sample_world (rename : option error) : world :=
  mkWorld (λ _, inl []) (λ _, None) (λ _, inl (mkResponse 200 "200 OK" [123; 125] None))
    (mkWriteAnswers (inl 7) None None None None rename None) None.

Lemma sync_atomic_witness :
  fresh_temporary (wo_write (sample_world None)) "stdlib/api.json" {["stdlib/api.json" := [1]]} ∧
  check sample_module (λ _, true) id sample_parse 1 (sample_world None)
    (visible (sync sample_module (λ _, true) id (λ _, None) ENew sample_index sample_parse 1 (sample_world None) "stdlib/api.json").2
      {["stdlib/api.json" := [1]]}) "stdlib/api.json" = None.
Proof.
  assert (fresh_temporary (wo_write (sample_world None)) "stdlib/api.json" ({["stdlib/api.json" := [1]]} : gmap string (list Z))) as Hf.
  { intros number [= <-]. split; [lia|]. vm_compute. reflexivity. }
  split; [exact Hf|].
  pose proof (sync_atomic sample_module (λ _, true) id (λ _, None) ENew sample_index sample_parse 1 (sample_world None) _ _ Hf) as H.
  vm_compute sync in H. vm_compute sync. destruct H as (_ & _ & _ & H & _). apply H; reflexivity.
Defined.
